(* ===== verification/_CoqProject ===== *)
-Q . S2P
Prelude.v
CostEnums.v
ArchData.v
MachineIR.v
LatencyTable.v
OpClassifier.v
MemoryTiming.v
ScheduleModel.v
ResourceState.v
ExecState.v
ExecOps.v
MultiWave.v
EventSim.v
Examples.v
ResourceSpec.v
ExecLemmas.v
WaitSpec.v
QuerySpec.v
ExecInv.v
AliasSpec.v
TableSpec.v
MultiWaveSpec.v
EventSpec.v
TimelineSpec.v
ScheduleSpec.v
HazardSpec.v
SharedSpec.v
TicketIR.v
TicketState.v
TicketWaits.v
TicketLattice.v
TicketInv.v
TicketDrain.v
TicketReadback.v
TicketText.v
TicketSound.v
TicketIssue.v
TicketMain.v
TicketProgram.v
TicketExamples.v
GapIR.v
GapState.v
GapTransfer.v
GapLattice.v
GapMachine.v
GapGrow.v
GapSound.v
GapStep.v
GapFree.v
GapProgram.v
GapSpec.v
GapEquiv.v
GapRepair.v
GapTrace.v
GapRepairSpec.v
GapExamples.v
QuoIR.v
QuoExpand.v
QuoEval.v
QuoVerify.v
QuoDivide.v
QuoFold.v
QuoSpec.v
QuoTyping.v
QuoModulo.v
QuoModuloSpec.v
QuoCorrect.v
QuoSymbols.v
QuoProve.v
QuoSymbolsSpec.v
QuoProveSpec.v
QuoSearch.v
LaneIR.v
LaneScan.v
LaneSpec.v
LaneSafe.v
LanePack.v
LanePackSpec.v
LaneAlias.v
LaneRound.v
