(* ===== verification/Prelude.v ===== *)
(** * Timing, synchronisation, registers and arithmetic in the wave compiler

    A verification development for four parts of the AMDGPU machine dialect of
    the compiler, and for the integer division of the dialect above it.

    The cost model, [src/lib/Dialect/WaveAMDMachine/CostModel] and its headers
    under [src/include/mlir/Dialect/WaveAMDMachine/CostModel], predicts when
    each machine instruction of a kernel issues.  The scheduler asks it for
    stalls and preferences, the simulator runs whole programs on it, and the
    reports of [src/tools] print what it says.

    The wait pass, [WaveAMDMachineWaitcnt.cpp] under
    [src/lib/Dialect/Wave/Transforms], inserts the wait instructions without
    which a kernel would read registers that memory has not written yet, and
    the switches of the scheduling mode in which the hardware checks nothing.

    The hazard passes, [WaveAMDHazardWaits.cpp] in the same directory, insert
    [s_nop] and its relatives where the hardware needs a number of wait states
    between two instructions and does not wait by itself, and before that move
    independent instructions to where waits would stand.

    Register allocation, [RegAlloc/WaveAMDRegAllocTransformLoop.cpp] in the same
    directory, groups the values of a function into sets that share registers,
    and gives each set, in the order in which they start, the lowest registers
    that are free.

    The passes on division and remainder, [WaveExpandIntegerDivRem.cpp] in the
    same directory, work on the wave dialect before its lowering: the hardware
    has no integer division, so that each one becomes multiplications, shifts
    and selections, and the remainders of a loop by constants become residues
    that the loop carries.

    ** The parts and how they interact

    - Target parameters ([ArchData.v], of [ArchData.cpp]): the constants of a
      compute unit.  Everything below takes an [ArchData].
    - Tables ([LatencyTable.v], of [LatencyTable.cpp], [LatencyTable.inc],
      [FunctionalUnit.cpp], [FunctionalUnitTable.inc], [CalibrationData.cpp]):
      latency, resource cycles, issue count and functional unit of a scheduling
      class, and the overlay of measured latencies with its JSON loader.
    - Operations ([MachineIR.v], of [WaveAMDMachineOps.td],
      [WaveAMDMachineWaitcntInfo.cpp]): a machine operation as the cost model
      sees it, its kind, traits, wait information, operands and results, and
      the use lists of a function.
    - Classification ([OpClassifier.v], of [OpClassifier.cpp]) and wait-counter
      timing ([MemoryTiming.v], of [MemoryCounterTiming.cpp]).
    - Scheduling policy ([ScheduleModel.v], of the first part of
      [InstructionExecutionState.cpp]): a slot-based preview of the functional
      units and [InstructionScheduleModel], the tests and comparisons between
      ready candidates.
    - Shared resources ([ResourceState.v], of [InstructionResourceState.cpp]):
      calendars of reservations per SIMD, SIMD pair and compute unit; [query]
      finds an issue cycle, [commit] reserves it.
    - One wave ([ExecState.v] for data, [ExecOps.v] for member functions, of
      [InstructionExecutionState.cpp]): ready cycles of values, pending memory
      events on their counters, pipe and memory queues, issue-slot hazards, M0
      and store-data gaps, the co-execution window.  [describe] summarises an
      operation, [query] lists the stalls it meets, [commit] waits for the
      stall and issues, [bindValue] names the results of structural operations.
    - Waves of a compute unit ([MultiWave.v], of
      [MultiWaveExecutionState.cpp]): one issue state per wave over the shared
      resources; [selectWave] arbitrates, [commitWave] issues, a cohort issues
      one operation on each of its waves, [rendezvous] aligns them.
    - Simulator ([EventSim.v], of [EventSimulator.cpp]): runs a program with
      loops and conditionals on one wave, or a linear program on all waves, and
      records the timeline.
    - Wait insertion, in the order of [WaveAMDMachineWaitcnt.cpp].
      [TicketIR.v]: operations with the answers of their interfaces, and the
      helpers that look at one operation, at the names of registers
      ([WaveAMDMachineInstrInfo.cpp]) and at the uses of a structured
      conditional ([WaveAMDExecIfUtils.cpp]).  [TicketState.v]: tokens (which
      counter, what about, how many younger events), their order, requirements
      and the lattice [Tickets] as a record of operations on its list of
      tokens.  [TicketWaits.v]: what an operation requires
      ([computeRequirement]), what it does to the tokens ([runTransfer], the
      body of [visitOperation]), what an edge between blocks does
      ([visitSuccessorRegion] and its helpers), the waits and mode switches
      that [runOnOperation] creates, and its validation of waits that are
      already there.
    - Hazard waits, in the order of [WaveAMDHazardWaits.cpp].  [GapIR.v]: the
      configuration of a target, the facts that the passes collect about an
      operation, the encoding of [s_nop], and the singleton resources of
      [WaveAMDHardwareResources.cpp].  [GapState.v]: [HazardState], the
      hazards of values, registers, co-execution and the scratch base, their
      join, merge and ageing.  [GapTransfer.v]: what an operation waits for,
      what hazards it opens ([transferHazards], the body of [visitOperation]),
      the mitigations and the rewrite of a block.  The first part of
      [GapProgram.v]: functions of blocks and edges, the visits of the analysis
      and [rewriteFunction].  [GapRepair.v]: the repair pass, moves of one
      operation within a block ([tryMoveRepairCandidate]) and into it from the
      block around ([tryPullOuterRepairCandidate]), up to the loop of
      [repairBlock].
    - Register allocation, in the order in which it runs.  [LaneIR.v]: live
      ranges, values and alias sets ([WaveAMDRegAllocTransformState.h]), the
      registers at the kernel's entry, legal bases ([WaveAMDRegisterLimits.cpp])
      and the tables of the scan.  [LanePack.v]: the state that the scan reads,
      from [RegAllocAliasStateBuilder]: live ranges and how a use extends them
      ([extendValue]), the sets that alias edges make ([assignAliasSets]), the
      attribute they are packed into ([buildPackedAttr]), its verifier
      ([verifyState], of [Wave.cpp]) and its parser ([parseDecodedState], of
      [WaveAMDRegAllocTransformState.cpp]), and what is installed without the
      attribute ([buildDecodedState]).  [LaneScan.v]: [RegAllocLinearScanner],
      from the fixed bases and the reservations through the scan of the sets
      ([scan], [allocateSet], [findFreeBase], [findReusableInputBase]) to the
      commitment of the types ([run], [commitAssignments]).
    - Division and remainder.  [QuoIR.v]: integer values of the wave dialect as
      trees of operations, the folds of [wave.binary] ([Wave.cpp]), and what a
      value evaluates to.  [QuoVerify.v]: the verifiers of the integer
      operations.  [QuoFold.v], its first part: the folds of splats,
      selections, comparisons and conversions.  [QuoExpand.v], in the order of
      [WaveExpandIntegerDivRem.cpp]: the builders, the upper half of a product,
      division by a constant, by restoring, through a reciprocal in 32 bits, by
      a power of two, of signed numbers, and in 32 bits of indices that fit
      ([expandDivRem] chooses), and the normalisation.  [QuoModulo.v]: the
      remainders of a loop that are collected ([collectModuloRecurrences]) and
      how they are rewritten ([rewriteModuloRecurrence]).
    - The searches for proofs on which the expansion relies.  [QuoSymbols.v]:
      symbolic expressions of the store ([WaveSymbol.cpp],
      [WaveSymbolicValue.cpp]), the binding of a value to a symbol, the facts
      that dominating assumptions give, and the predicates that the store
      proves.  [QuoProve.v]: how a value becomes an expression
      ([convertBinaryKind] and its callers), the walks over the arms of
      conditionals, and the questions themselves ([isProvenSignedLowerBound],
      [isProvenPositivePow2] and the like).

    A member function that changes an object takes its state and returns the
    new one; a [const] one only takes it.  [outcome] (below) has the three ends
    of the code: [Ok], [Failure] (the recoverable error of [FailureOr]) and
    [Fatal] (an assertion, [llvm_unreachable], [report_fatal_error] or an index
    out of range).  Definitions keep the names of the source; helpers named
    after a loop body or a part of a function say so.

    ** Theorems

    - Shared resources ([ResourceSpec.v]): the sweep over reservation events
      decides the capacity of every cycle; [query] answers with the earliest
      cycle at which all uses fit, fails only when none does, and answers for
      uses that fit an idle machine; no run of queries and commits
      oversubscribes a resource.
    - Stalls and frames ([ExecLemmas.v]): shared lemmas on stalls, on the
      members a step leaves alone, on pruning, and the inversion of [commit].
    - Waiting ([WaitSpec.v]): counter, pipe and memory-queue waits end at the
      first cycle with room, and a counter wait fails exactly when an unordered
      SMEM event is in its way.
    - Query and commit ([QuerySpec.v]): stalls are well formed; operands,
      tokens and counters are waited for; time moves forward; [s_waitcnt]
      drains its counters.
    - Invariants ([ExecInv.v]): the states a wave reaches keep
      exactly the unretired events queued on each counter, and keep every pipe
      within its maximum.
    - Hazards and bound values ([HazardSpec.v]): binding joins the sources and
      touches nothing else; along a history of commits, bindings and advances
      ([runs]) the slot clock counts the slots of the history, and between an
      instruction and one that reads what carries its result ([carries]) there
      are the slots that a table of numbers asks for ([hazardDistance]).
    - Alias walk ([AliasSpec.v]): the walk to store data terminates and decides
      reachability.
    - Tables ([TableSpec.v]): the tables answer for every
      supported class; [describe] answers for every supported operation except
      those with a message or GDS wait event, on which it runs into unreachable
      code (a defect of [getMemoryCounterLatency]); the calibration loader
      accepts exactly valid documents and the first entry of a class wins.
    - Policy ([ScheduleSpec.v]): units of a compute island are exclusive; the
      budgets, the selection bound and the preference order.
    - Waves ([MultiWaveSpec.v]): placements, arbitration by a
      strict total order, round robin, cohorts commit once per wave.
    - Waves and shared resources together ([SharedSpec.v]): whatever the waves
      issue, no shared resource is oversubscribed; a query predicts the commit
      after it; a rendezvous aligns the waves.
    - Simulator ([EventSpec.v], [TimelineSpec.v]): a run on all waves is a
      schedule of commits in which every wave issues the program in order, each
      instruction once, and completes with the last of its results; recording
      does not change timing,
      conditionals cost their dearer branch, events come out sorted, loop
      carries are bound one after the other.
    - [Examples.v] holds the concrete operations on which the theorems are
      instantiated.
    - Wait states ([TicketLattice.v], [TicketInv.v]): [joinWith] is the least
      upper bound of states up to the order of tokens; it answers whether the
      state grew, and a chain of growing joins is no longer than a bound that
      the program fixes, so that the fixpoint iteration ends; the transfer
      keeps every token within the program and below the cap of its counter.
    - Requirements and instructions ([TicketDrain.v], [TicketReadback.v],
      [TicketText.v]): the requirement is, counter by counter, the least
      position awaited by what the operation depends on, attained, and nothing
      else; waiting for it leaves no token; every count fits its field;
      the instructions created for a requirement read back as that
      requirement; the register names that the printer uses parse back.
    - Sufficiency ([TicketSound.v], [TicketIssue.v], [TicketMain.v],
      [TicketProgram.v]): a machine with one
      queue of outstanding events per counter, from which memory takes events
      in order, or in any order on a counter that is not ordered.  The states
      of the pass describe its queues at every reachable point, and no
      operation issues while an event is outstanding that it depends on through
      a value whose definition dominates it, whatever branches are taken.  [TicketExamples.v] has a
      program with a loop on which this holds with all its hypotheses, and two
      programs on which the pass does not do what it means to do.
    - Hazard states ([GapLattice.v], [GapGrow.v], [GapEquiv.v]): the join of
      states is their least upper bound and says whether it changed anything;
      what the passes assert about hazards holds in every state of the
      analysis; states equal up to the order of their hazards ask for the same
      waits.
    - Wait states suffice ([GapMachine.v], [GapGrow.v], [GapSound.v],
      [GapStep.v], [GapFree.v], [GapProgram.v]): a machine that remembers every instruction issued with
      the wait states passed since.  Its rules [gapRule], [valueRule],
      [coexecRule] and [scratchRule] say how many states the hardware asks
      for between two instructions; they are those of
      [docs/HazardMitigationDesign.md] with the numbers of the cost model and
      do not mention the states of the analysis.  On every path of the
      rewritten function no instruction issues too early, and the rewrite
      never fails.
    - Waits are needed ([GapSpec.v]): an operation asks for
      exactly the states that are missing, the [s_nop]s read back as their
      count, and from the same state, away from control flow, the repair pass
      counts what the insertion pass inserts.
    - Repair ([GapTrace.v], [GapRepairSpec.v]): a trace agrees
      with running the block; a move that is accepted after a prefix of the
      block, where the state has rejoined the old one, shortens the sum of the
      waits of the whole block; so repair converges without its warning, moves
      only, and leaves definitions before uses.
    - [GapExamples.v]: a loop behind a matrix
      operation, and a block on which a move is made.
    - Alias state ([LanePackSpec.v], [LaneAlias.v], [LaneRound.v]): extending a
      value makes it live on the way to the use and nowhere else; the sets are
      the components of the edges, with offsets that agree with every edge, and
      are refused exactly where no offsets do; what the verifier admits is what
      the scan assumes of its input ([inputOk]); what the builder packs passes
      the verifier and parses as what is installed without it, where the one
      side sorts the sets and the other one counts them.  All parts together:
      after a scan of what was collected the ends of every edge have registers
      at the distance of the edge, and fixed values keep theirs.
    - Linear scan ([LaneSpec.v], [LaneSafe.v]): the search that steps over
      conflicts finds the lowest free base; two sets have a register in common
      at a position only in four cases ([Sharing]), one of which the code does
      not mean; where the scan gives up, at the state that it reached
      ([scanBefore]), the fixed base or every base was taken, or the budget of
      the family exceeded; bases are legal and within their budgets;
      a run sets the types of the registers, and a commitment that fails
      restores them.
    - Arithmetic ([QuoEval.v]): the facts on numbers of a width
      that the rest uses, and the values of what the builders create.
    - Division ([QuoDivide.v], [QuoSpec.v]): each way of
      dividing gives quotient and remainder; so the expansion has the value of
      the operation wherever that is defined and no signed quotient overflows
      the division in 32 bits, and so does the normalised one.
    - Types and folds ([QuoTyping.v], [QuoFold.v], its second part): what the
      expansion creates verifies, where the types of the operands agree; a
      fold keeps value and type.
    - Residues ([QuoModuloSpec.v]): the carried residue is the remainder of the
      induction variable in every iteration, and what replaces a remainder has
      its value, for divisors that are signed numbers of the width and sums
      that do not wrap.
    - Searches ([QuoSymbolsSpec.v], [QuoProveSpec.v], [QuoSearch.v]): a value
      and the expression that it is converted to are equal wherever the value
      is defined, so that the answers of the searches are true: they are an
      instance of what the theorems on division assume ([DivProofsOk]).
      [QuoSearch.v] has a small library of expressions for which the laws hold.
    - [QuoCorrect.v] has a reciprocal, a magic number for every divisor and
      analyses for which the assumptions hold, collects the guarantees, and
      evaluates four inputs on which the code misses them.

    ** Integers, fuel and bounds

    Signed 64-bit cycles are [Z]: their overflow is undefined in C++ and the
    routines that guard against it saturate in the model too.  Unsigned
    arithmetic wraps through [u32] and [u64].  Event identifiers, [uint64_t]
    counters of one run, are unbounded [N].  These functions take fuel:
    [reachesStoreWriteData] gets one more than the uses of the function, and
    [producesStoreWriteData_reaches] shows that it always answers;
    [commitCohort] gets the number of candidates, and
    [cohort_commit_terminates] shows that more changes nothing;
    [noopImmediates] gets its count; [repairLoop] gets one more than the waits
    of the block, and [repair_converges] shows that it ends, for blocks whose
    waits sum to less than two to the power of 32.

    Positions, lanes and widths of register allocation are [unsigned] and are
    [Z]; the attribute stores them as [int64_t], and the parser narrows them
    with [u32].  [findFreeLoop] gets more fuel than there are bases
    ([findFreeLoop_first_fit]); [visitLoop] gets one more than the values, of
    which each enters the worklist once ([visitLoop_ok]); [collectSegments]
    gets the number of contexts, since a parent has a smaller number.

    A number of [APInt] is a [Z] from zero to two to the power of its width,
    and [toBits] wraps; the expansion is correct for even widths up to 64.  No
    function on division takes fuel: [restoringLoop] counts the bits down.

    ** What is a parameter

    The class [LLVMTarget] stands for the LLVM subtarget queries behind gfx1250
    (version, name, capabilities) and for [NDEBUG]; the class [JSON] for
    [llvm::json]; [readFile] for [llvm::MemoryBuffer]; an operation carries the
    answers of its MLIR interfaces ([op_waitcnt], [op_issueCount],
    [op_m0WriteHazard], [op_isMachine]), which tables generate from the
    dialect's definition; a [TicketOp] does so for the interfaces that the wait
    pass asks.  The class [WaitLLVM] has the integer parser of [StringRef] and
    the widths and encodings of wait fields from LLVM's target parser; a
    theorem about names assumes that the parser reads decimal numerals back.
    The data-flow solver of MLIR is a hypothesis, [solution]: the states at
    block entries are above what the edges deliver.  The theorem on
    sufficiency also assumes that the program is in SSA form, that its
    requirements can be encoded, and, for split barriers, that the signal a
    barrier wait names has completed when the wait ends ([barrierOk]).
    The class [GapLLVM] has LLVM's decoder of [s_waitcnt] and its numbers of
    scalar registers; [GapUses] what the repair pass asks of use lists and of
    dominance.  A [GapOp] carries the interfaces that the hazard passes ask.
    The solver of MLIR is [solved]: the states are [computed] by visits in some
    order, and no visit changes them.
    Of register allocation, the class [LaneLLVM] is the integer parser of
    [StringRef]; budgets, register limits and whether the target's version is
    known are fields of the input of a scan ([ScanInput]), and a [LaneOp]
    carries what its interfaces answer about operands that it kills.  What collects operations, uses and
    edges ([RegAllocRegionFlow], the interfaces for storage aliases) is the
    input of [LanePack.v]: whether a value is defined inside an operation is
    the argument [isDefinedInside], and [collected] says what the builder has
    once it has walked the function.
    Of division, the class [WaveTarget] is the reciprocal of the machine, with
    an error of which [recipOk] is the bound; [DivLLVM] is
    [llvm::UnsignedDivisionByConstantInfo], and [magicOk] what its numbers
    promise; [DivProofs] is the interface of the searches for proofs of a range
    or a power of two, and [DivProofsOk] that their answers are right where a
    value of the program is defined.  The searches of [QuoProve.v] implement it
    over the class [SymLibrary], the symbolic engine below the store, whose
    laws are [SymLibraryOk], and over what MLIR answers about a function
    (range analysis, dominance), [FunctionFacts]; [ProgramOk] says that these
    answers are right.  [RangeAssumptions] makes the predicates of [wave.assume].  In an
    assumption that does not hold the value is undefined.

    ** What is not modelled

    Assertions of the code are modelled by [assertion], which a build with
    [NDEBUG] skips; those on arguments that the type of the model does not
    exclude (signs in [saturatingAdd], wavefront sizes, wave indices) are
    hypotheses of the theorems instead.  Copy constructors and forwarding overloads, which are the identity on
    values; the text of diagnostics; the state left behind by an operation that
    fails half way.  Of the wait pass: the target configuration
    ([configureFunctionWaitTarget]), the budget of registers around calls
    ([isVGPRLimited], the stack queries of [WaveAMDExecIfUtils.cpp]), and the
    iteration of the solver itself.  The sufficiency theorem speaks of the
    counters that track results; the X counter, whose tokens protect the
    sources of stores and loads, is modelled but has no hardware counterpart
    in [Machine].  Of the hazard passes: the moves before the analysis
    ([hoistM0WritesAcrossRegions], [contractTokenOnlyBarrierDrains],
    [fillLgkmValuGaps], [hoistM0WritesToFillPipelineGaps]), the validation of
    input and the check of live ranges in [WaveAMDHardwareResources.cpp].
    Control-flow operations get no wait: in the rules only time passes at
    them, and [propagateBranchOperands] is followed as it is, which pairs
    operands with block arguments by their place among the operands that are
    values; no branch of the dialect produces an argument itself.
    Of division: the walks of the three passes, and the order in which
    nested operations are expanded; evaluation is for one lane, since every
    operation concerned is elementwise.  Of the wave dialect only the integer
    operations.  Of register allocation: the walk that collects operations,
    uses and edges, the dictionary form of the state, the attributes for
    diagnostics and failures, the stages that relieve pressure, and the pass
    that verifies the result.  The passes that use the cost model
    ([WaveAMDMachineGreedySchedule.cpp], [WaveAMDMachineScheduleModel.cpp]) are
    not modelled; the lowering patterns, the dialect definitions, the assembly
    printer and the wavec front end are MLIR or text plumbing.

    This file: machine integers, the [outcome] monad with its notation and
    lemmas, monadic folds, sums, and order statistics of sorted lists. *)

From stdpp Require Import base tactics list sorting gmap strings numbers.

#[export] Set Default Proof Using "Type".

(** ** Machine integers

    [int64_t] values are [Z].  Signed overflow is undefined behaviour in C++,
    so plain [+] on signed values is addition on [Z]; the routines that guard
    against overflow ([saturatingAdd], [saturatingMultiply]) carry their guard.
    Unsigned arithmetic wraps, and is written with [u32] and [u64]. *)

Open Scope Z_scope.

Definition INT64_MAX : Z := 9223372036854775807.
Definition u32 (x : Z) : Z := x mod 4294967296.
Definition u64 (x : Z) : Z := x mod 18446744073709551616.

Definition saturatingAdd (lhs rhs : Z) : Z :=
  if decide (lhs > INT64_MAX - rhs) then INT64_MAX else lhs + rhs.

Definition saturatingMultiply (lhs rhs : Z) : Z :=
  if decide (lhs <> 0 /\ rhs > Z.quot INT64_MAX lhs) then INT64_MAX
  else lhs * rhs.

(** ** Fallible code

    [Failure] is the recoverable [failure()] of [LogicalResult] and
    [FailureOr]; [Fatal] is a stop of the process ([report_fatal_error],
    [llvm_unreachable]). *)

Inductive outcome (A : Type) : Type :=
| Ok (a : A)
| Failure
| Fatal (why : string).
Arguments Ok {A} a.
Arguments Failure {A}.
Arguments Fatal {A} why.

#[export] Instance outcome_ret : MRet outcome := fun A a => Ok a.
#[export] Instance outcome_bind : MBind outcome := fun A B k m =>
  match m with
  | Ok a => k a
  | Failure => Failure
  | Fatal why => Fatal why
  end.

Lemma outcome_bind_Ok {A B} (m : outcome A) (k : A -> outcome B) (b : B) :
  mbind k m = Ok b -> exists a, m = Ok a /\ k a = Ok b.
Proof. destruct m; simpl; intros H; try discriminate; eauto. Qed.

(** What holds of every continuation of an answer holds of a bind. *)
Lemma outcome_bind_reaches {A B} (P : outcome B -> Prop) (m : outcome A)
    (k : A -> outcome B) :
  (exists a, m = Ok a) -> (forall a, m = Ok a -> P (k a)) -> P (m ≫= k).
Proof. intros [a ->] Hk. exact (Hk a eq_refl). Qed.

Lemma outcome_bind_no_Failure {A B} (m : outcome A) (k : A -> outcome B) :
  m <> Failure -> (forall a, k a <> Failure) -> mbind k m <> Failure.
Proof. destruct m; simpl; auto. Qed.

Lemma Ok_no_Failure {A} (a : A) : Ok a <> Failure.
Proof. done. Qed.

Lemma Fatal_no_Failure {A} why : @Fatal A why <> Failure.
Proof. done. Qed.

(** [a[i]], which must be in range. *)
Definition at_index {A} (l : list A) (i : nat) : outcome A :=
  match l !! i with
  | Some a => Ok a
  | None => Fatal "index out of range"
  end.

Lemma at_index_Ok {A} (l : list A) i a : at_index l i = Ok a <-> l !! i = Some a.
Proof. unfold at_index. destruct (l !! i); naive_solver. Qed.

(** Facts that a computation cannot take the recoverable error path. *)
Create HintDb no_failure.
#[export] Hint Resolve outcome_bind_no_Failure Ok_no_Failure Fatal_no_Failure
  : no_failure.

(** [foldM f a l]: a loop over [l] that stops at the first failure. *)
Section FoldM.
Context {A B : Type} (f : A -> B -> outcome A).
Fixpoint foldM (a : A) (l : list B) : outcome A :=
  match l with
  | [] => Ok a
  | b :: l' => match f a b with
               | Ok a' => foldM a' l'
               | Failure => Failure
               | Fatal why => Fatal why
               end
  end.
End FoldM.

Lemma foldM_no_Failure {A B} (f : A -> B -> outcome A) l : forall a,
  (forall a b, f a b <> Failure) -> foldM f a l <> Failure.
Proof.
  induction l as [|b l IH]; simpl; intros a Hf; [done|].
  specialize (Hf a b) as Hab. destruct (f a b); [auto|congruence|done].
Qed.

Lemma foldM_invariant {A B} (P : A -> Prop) (f : A -> B -> outcome A) l : forall a r,
  (forall a b a', b ∈ l -> P a -> f a b = Ok a' -> P a') ->
  P a -> foldM f a l = Ok r -> P r.
Proof.
  induction l as [|b l IH]; simpl; intros a r Hf Ha Hr; [by simplify_eq|].
  destruct (f a b) as [a'| |] eqn:Hab; try done.
  eapply IH; [|eapply Hf; [apply list_elem_of_here|..]; eassumption|exact Hr].
  intros ? ? ? Hin. apply Hf. by apply list_elem_of_further.
Qed.

(** Peel every [mbind] of a hypothesis [_ = Ok _]. *)
Ltac outcome_step :=
  match goal with
  | H : Ok _ = Ok _ |- _ => injection H as H; subst
  | H : Failure = Ok _ |- _ => discriminate H
  | H : Fatal _ = Ok _ |- _ => discriminate H
  | H : mbind _ _ = Ok _ |- _ =>
      apply outcome_bind_Ok in H; destruct H as (? & ? & ?)
  | H : mret _ = Ok _ |- _ => unfold mret, outcome_ret in H
  end.
Ltac outcome_steps := repeat (outcome_step; simpl in *).

(** ** Saturating arithmetic *)

Lemma saturatingAdd_min a b :
  saturatingAdd a b = Z.min (a + b) INT64_MAX \/ saturatingAdd a b = a + b.
Proof. unfold saturatingAdd. case_decide; lia. Qed.

Lemma saturatingAdd_spec a b : saturatingAdd a b = Z.min (a + b) INT64_MAX.
Proof. unfold saturatingAdd. case_decide; lia. Qed.

Lemma saturatingAdd_small a b :
  a + b <= INT64_MAX -> saturatingAdd a b = a + b.
Proof. rewrite saturatingAdd_spec. lia. Qed.

Lemma saturatingMultiply_spec a b :
  0 <= a -> 0 <= b -> saturatingMultiply a b = Z.min (a * b) INT64_MAX.
Proof.
  intros Ha Hb. unfold saturatingMultiply.
  assert (Hmax : 0 <= INT64_MAX) by (unfold INT64_MAX; lia).
  case_decide as H.
  - destruct H as [Hne Hgt]. rewrite Z.quot_div_nonneg in Hgt by lia.
    assert (INT64_MAX < a * (INT64_MAX / a + 1)).
    { pose proof (Z.mul_succ_div_gt INT64_MAX a). lia. }
    nia.
  - destruct (decide (a = 0)) as [->|Hne]; [lia|].
    assert (Hle : b <= INT64_MAX ÷ a) by (destruct (decide (b <= INT64_MAX ÷ a)); [done|exfalso; apply H; lia]).
    rewrite Z.quot_div_nonneg in Hle by lia.
    assert (a * (INT64_MAX / a) <= INT64_MAX) by (apply Z.mul_div_le; lia).
    nia.
Qed.

Lemma u32_small x : 0 <= x < 4294967296 -> u32 x = x.
Proof. intros. unfold u32. by apply Z.mod_small. Qed.

Lemma u64_small x : 0 <= x < 18446744073709551616 -> u64 x = x.
Proof. intros. unfold u64. by apply Z.mod_small. Qed.

Lemma u32_nonneg x : 0 <= u32 x.
Proof. unfold u32. apply Z.mod_pos_bound. lia. Qed.

(** ** Sums and maxima over lists *)

Definition sum_list_Z (l : list Z) : Z := foldr Z.add 0 l.
Definition max_list_Z (d : Z) (l : list Z) : Z := foldr Z.max d l.

Lemma sum_list_Z_app l1 l2 : sum_list_Z (l1 ++ l2) = sum_list_Z l1 + sum_list_Z l2.
Proof. induction l1; simpl; lia. Qed.

Lemma sum_list_Z_Permutation l1 l2 : l1 ≡ₚ l2 -> sum_list_Z l1 = sum_list_Z l2.
Proof. induction 1; simpl; lia. Qed.

Lemma sum_list_Z_nonneg l : Forall (fun x => 0 <= x) l -> 0 <= sum_list_Z l.
Proof. induction 1; simpl; lia. Qed.

(** ** Order statistics

    The code waits for the k-th smallest ready cycle of a queue; these lemmas
    count the entries that are still pending after that wait, and before. *)

Lemma filter_all {A} (P : A -> Prop) `{forall x, Decision (P x)} l :
  Forall P l -> base.filter P l = l.
Proof.
  induction 1 as [|a l Ha Hl IH]; [done|].
  by rewrite filter_cons_True, IH.
Qed.

Section OrderStatistics.
Context {A : Type} (R : relation A) (f : A -> Z).
Hypothesis R_mono : forall a b, R a b -> f a <= f b.

Lemma above_kth l k x :
  StronglySorted R l -> l !! k = Some x ->
  (length (base.filter (fun a => (f a > f x)%Z) l) + k < length l)%nat.
Proof using All.
  intros Hs. revert k. induction Hs as [|a l Hs IH Ha]; intros k Hk; [done|].
  destruct k as [|k]; simpl in *.
  - injection Hk as <-. rewrite filter_cons_False by lia.
    pose proof (length_filter (fun b => f b > f a) l). simpl; lia.
  - specialize (IH k Hk).
    assert (f a <= f x).
    { apply R_mono. rewrite Forall_lookup in Ha. by eapply Ha. }
    rewrite filter_cons_False by lia. simpl; lia.
Qed.

Lemma below_kth l k x y :
  StronglySorted R l -> l !! k = Some x -> y < f x ->
  (length l <= length (base.filter (fun a => (f a > y)%Z) l) + k)%nat.
Proof using All.
  intros Hs. revert k. induction Hs as [|a l Hs IH Ha]; intros k Hk Hy; [done|].
  destruct k as [|k]; simpl in *.
  - injection Hk as <-. rewrite filter_cons_True by lia.
    rewrite filter_all; [simpl; lia|].
    eapply Forall_impl; [|exact Ha]. intros b Hb. simpl in Hb.
    specialize (R_mono _ _ Hb). lia.
  - specialize (IH k Hk Hy). rewrite filter_cons. case_decide; simpl; lia.
Qed.
End OrderStatistics.

Lemma length_filter_mono {A} (P Q : A -> Prop) `{forall x, Decision (P x)}
    `{forall x, Decision (Q x)} l :
  (forall x, x ∈ l -> P x -> Q x) ->
  (length (base.filter P l) <= length (base.filter Q l))%nat.
Proof.
  induction l as [|a l IH]; intros HPQ; [done|]. rewrite !filter_cons.
  assert (length (base.filter P l) <= length (base.filter Q l))%nat
    by (apply IH; intros; apply HPQ; [by apply list_elem_of_further|done]).
  repeat case_decide; simpl; try lia.
  exfalso; eauto using list_elem_of_here.
Qed.
