(* ===== verification/CostEnums.v ===== *)
(** * Enumerations of the cost model

    The [enum class] types of [CostModelEnums.td] and of the [CostModel]
    headers, one Module per C++ scope so that [SchedClass.NoInst] reads like
    [SchedClass::NoInst], with the integer value of an enumerator where the
    code converts it. *)

From stdpp Require Import base tactics list strings.
From S2P Require Import Prelude.

Module SchedClass.
Inductive t : Set :=
  | NoInst | WriteSALU | Write32Bit | Write64Bit | WriteFloatFMA | WriteDouble
  | WriteTrans32 | WriteSFPU | Write2PassMAI | Write4PassMAI | Write8PassMAI
  | Write16PassMAI | WriteXDL2PassWMMA | WriteXDL4PassWMMA | Write4PassWMMA
  | Write8PassWMMA | Write16PassWMMA | WriteVMEM | WriteSMEM | WriteLDS
  | WriteTDM | WriteBranch | WriteBarrier | WriteExport | WaitcntPseudo
  | NumSchedClasses.
#[global] Instance t_eq_dec : EqDecision t.
  Proof. solve_decision. Defined.

(** [static_cast<size_t>(cls)] *)
Definition index (c : t) : nat :=
    match c with
    | NoInst => 0 | WriteSALU => 1 | Write32Bit => 2 | Write64Bit => 3
    | WriteFloatFMA => 4 | WriteDouble => 5 | WriteTrans32 => 6
    | WriteSFPU => 7 | Write2PassMAI => 8 | Write4PassMAI => 9
    | Write8PassMAI => 10 | Write16PassMAI => 11 | WriteXDL2PassWMMA => 12
    | WriteXDL4PassWMMA => 13 | Write4PassWMMA => 14 | Write8PassWMMA => 15
    | Write16PassWMMA => 16 | WriteVMEM => 17 | WriteSMEM => 18
    | WriteLDS => 19 | WriteTDM => 20 | WriteBranch => 21
    | WriteBarrier => 22 | WriteExport => 23 | WaitcntPseudo => 24
    | NumSchedClasses => 25
    end%nat.

(** Every enumerator, in value order. *)
Definition all : list t :=
    [NoInst; WriteSALU; Write32Bit; Write64Bit; WriteFloatFMA; WriteDouble;
     WriteTrans32; WriteSFPU; Write2PassMAI; Write4PassMAI; Write8PassMAI;
     Write16PassMAI; WriteXDL2PassWMMA; WriteXDL4PassWMMA; Write4PassWMMA;
     Write8PassWMMA; Write16PassWMMA; WriteVMEM; WriteSMEM; WriteLDS; WriteTDM;
     WriteBranch; WriteBarrier; WriteExport; WaitcntPseudo; NumSchedClasses].

(** [stringifySchedClass]: the symbol of an enumerator is its name. *)
Definition name (c : t) : string :=
    match c with
    | NoInst => "NoInst" | WriteSALU => "WriteSALU"
    | Write32Bit => "Write32Bit" | Write64Bit => "Write64Bit"
    | WriteFloatFMA => "WriteFloatFMA" | WriteDouble => "WriteDouble"
    | WriteTrans32 => "WriteTrans32" | WriteSFPU => "WriteSFPU"
    | Write2PassMAI => "Write2PassMAI" | Write4PassMAI => "Write4PassMAI"
    | Write8PassMAI => "Write8PassMAI" | Write16PassMAI => "Write16PassMAI"
    | WriteXDL2PassWMMA => "WriteXDL2PassWMMA"
    | WriteXDL4PassWMMA => "WriteXDL4PassWMMA"
    | Write4PassWMMA => "Write4PassWMMA" | Write8PassWMMA => "Write8PassWMMA"
    | Write16PassWMMA => "Write16PassWMMA" | WriteVMEM => "WriteVMEM"
    | WriteSMEM => "WriteSMEM" | WriteLDS => "WriteLDS"
    | WriteTDM => "WriteTDM" | WriteBranch => "WriteBranch"
    | WriteBarrier => "WriteBarrier" | WriteExport => "WriteExport"
    | WaitcntPseudo => "WaitcntPseudo" | NumSchedClasses => "NumSchedClasses"
    end.

Lemma all_complete c : c ∈ all.
  Proof. unfold all. destruct c; repeat constructor. Qed.
End SchedClass.

Module FunctionalUnit.
Inductive t : Set :=
  | VALU | SALU | VMEM | LGKM | MFMA_XDL | TRANS | BRANCH | EXPORT | None
  | NumFunctionalUnits.
#[global] Instance t_eq_dec : EqDecision t.
  Proof. solve_decision. Defined.
Definition index (u : t) : nat :=
    match u with
    | VALU => 0 | SALU => 1 | VMEM => 2 | LGKM => 3 | MFMA_XDL => 4
    | TRANS => 5 | BRANCH => 6 | EXPORT => 7 | None => 8
    | NumFunctionalUnits => 9
    end%nat.
End FunctionalUnit.

Module WaveIssueArbitration.
Inductive t : Set := Unsupported | RoundRobin.
#[global] Instance t_eq_dec : EqDecision t.
  Proof. solve_decision. Defined.
End WaveIssueArbitration.

Module MemoryCounterKind.
Inductive t : Set := None | Vmem | Lgkm | Vscnt | Tensor | Async.
#[global] Instance t_eq_dec : EqDecision t.
  Proof. solve_decision. Defined.
End MemoryCounterKind.

Module InstructionWaitCounterKind.
Inductive t : Set := None | Vmem | Lgkm | Vscnt | Expcnt | Tensor | Async.
#[global] Instance t_eq_dec : EqDecision t.
  Proof. solve_decision. Defined.
End InstructionWaitCounterKind.

Module InstructionEventClass.
Inductive t : Set :=
  | None | VmemLoad | VmemStore | LdsDs | Smem | Message | Export | Tensor
  | Async.
#[global] Instance t_eq_dec : EqDecision t.
  Proof. solve_decision. Defined.
End InstructionEventClass.

Module InstructionStallKind.
Inductive t : Set :=
  | None | IssueBackpressure | OperandValue | MemoryValue | MemoryToken
  | Waitcnt | InstructionHazard | M0ReadWrite | StoreWriteData | CoexecWindow.
#[global] Instance t_eq_dec : EqDecision t.
  Proof. solve_decision. Defined.
End InstructionStallKind.

Module InstructionPipeKind.
Inductive t : Set := None | VALU | SALU | XDL.
#[global] Instance t_eq_dec : EqDecision t.
  Proof. solve_decision. Defined.
End InstructionPipeKind.

Module MemoryIssueResource.
Inductive t : Set := VmemLoad | VmemStore | LdsDmaAccept | Lds | Smem.
#[global] Instance t_eq_dec : EqDecision t.
  Proof. solve_decision. Defined.
(** [static_cast<unsigned>(resource)] *)
Definition value (r : t) : Z :=
    match r with
    | VmemLoad => 0 | VmemStore => 1 | LdsDmaAccept => 2 | Lds => 3 | Smem => 4
    end.
End MemoryIssueResource.

Module InstructionResourceScope.
Inductive t : Set := Wave | SIMD | SIMDPair | CU.
#[global] Instance t_eq_dec : EqDecision t.
  Proof. solve_decision. Defined.
End InstructionResourceScope.

Module InstructionResourceKind.
Inductive t : Set :=
  | None | SimdIssue | CuIssue | ValuPipe | SaluPipe | XdlPipe | MfmaCoissue
  | LdsIssue | LdsDmaIssue | NumResources.
#[global] Instance t_eq_dec : EqDecision t.
  Proof. solve_decision. Defined.
End InstructionResourceKind.
