(* ===== verification/ArchData.v ===== *)
(** * Target parameters ([ArchData.h], [ArchData.cpp])

    The structural parameters of a compute unit, the constant tables of the
    supported targets, the gfx1250 entry built from LLVM's subtarget
    description, and the lookup by ISA version. *)

From stdpp Require Import base tactics list strings.
From S2P Require Import Prelude CostEnums.

(** [llvm::AMDGPU::IsaVersion] *)
Record IsaVersion : Set := mkIsaVersion {
  Major : Z;
  Minor : Z;
  Stepping : Z
}.
#[export] Instance IsaVersion_eq_dec : EqDecision IsaVersion.
Proof. solve_decision. Defined.

Definition isaEq (lhs rhs : IsaVersion) : bool :=
  (Major lhs =? Major rhs) && (Minor lhs =? Minor rhs)
  && (Stepping lhs =? Stepping rhs).

Record ArchData : Set := mkArchData {
  isa : IsaVersion;
  name : string;
  wavesPerSIMD : Z;
  simdsPerCU : Z;
  simdIdOffset : Z;
  waveIdOffset : Z;
  vgprFileSize : Z;
  vgprAllocGranule : Z;
  valuPipelineDepth : Z;
  wave64IssueMultiplier : Z;
  issuesPerCUPerCycle : Z;
  simdIssueWidth : Z;
  simdIssuePeriod : Z;
  ldsCounterLatency : Z;
  ldsIssuePeriod : Z;
  ldsDmaIssueQueueDepth : Z;
  ldsDmaIssueLatency : Z;
  ldsDmaIssuePeriod : Z;
  waveIssueArbitration : WaveIssueArbitration.t;
  hasMfmaCoissueRestriction : bool;
  mfmaValuCoexecWindowSlots : Z;
  mfmaValuCoexecProducerBurst : Z;
  agprCountsAgainstVGPRs : bool;
  hasTransCoexecutionHazard : bool;
  hasWmmaCoexecutionHazard : bool;
  hasScratchBaseForwardingHazard : bool
}.

Definition kGfx803 : ArchData := {|
  isa := mkIsaVersion 8 0 3;
  name := "gfx803";
  wavesPerSIMD := 10;
  simdsPerCU := 4;
  simdIdOffset := 4;
  waveIdOffset := 0;
  vgprFileSize := 256;
  vgprAllocGranule := 4;
  valuPipelineDepth := 4;
  wave64IssueMultiplier := 1;
  issuesPerCUPerCycle := 5;
  simdIssueWidth := 1;
  simdIssuePeriod := 4;
  ldsCounterLatency := 5;
  ldsIssuePeriod := 0;
  ldsDmaIssueQueueDepth := 0;
  ldsDmaIssueLatency := 0;
  ldsDmaIssuePeriod := 0;
  waveIssueArbitration := WaveIssueArbitration.RoundRobin;
  hasMfmaCoissueRestriction := false;
  mfmaValuCoexecWindowSlots := 0;
  mfmaValuCoexecProducerBurst := 0;
  agprCountsAgainstVGPRs := false;
  hasTransCoexecutionHazard := false;
  hasWmmaCoexecutionHazard := false;
  hasScratchBaseForwardingHazard := false
|}.

Definition kGfx942 : ArchData := {|
  isa := mkIsaVersion 9 4 2;
  name := "gfx942";
  wavesPerSIMD := 8;
  simdsPerCU := 4;
  simdIdOffset := 4;
  waveIdOffset := 0;
  vgprFileSize := 512;
  vgprAllocGranule := 8;
  valuPipelineDepth := 4;
  wave64IssueMultiplier := 1;
  issuesPerCUPerCycle := 5;
  simdIssueWidth := 1;
  simdIssuePeriod := 4;
  ldsCounterLatency := 5;
  ldsIssuePeriod := 0;
  ldsDmaIssueQueueDepth := 0;
  ldsDmaIssueLatency := 0;
  ldsDmaIssuePeriod := 0;
  waveIssueArbitration := WaveIssueArbitration.RoundRobin;
  hasMfmaCoissueRestriction := true;
  mfmaValuCoexecWindowSlots := 0;
  mfmaValuCoexecProducerBurst := 0;
  agprCountsAgainstVGPRs := true;
  hasTransCoexecutionHazard := false;
  hasWmmaCoexecutionHazard := false;
  hasScratchBaseForwardingHazard := false
|}.

Definition kGfx950 : ArchData := {|
  isa := mkIsaVersion 9 5 0;
  name := "gfx950";
  wavesPerSIMD := 8;
  simdsPerCU := 4;
  simdIdOffset := 4;
  waveIdOffset := 0;
  vgprFileSize := 512;
  vgprAllocGranule := 8;
  valuPipelineDepth := 4;
  wave64IssueMultiplier := 1;
  issuesPerCUPerCycle := 5;
  simdIssueWidth := 1;
  simdIssuePeriod := 4;
  ldsCounterLatency := 20;
  ldsIssuePeriod := 4;
  ldsDmaIssueQueueDepth := 7;
  ldsDmaIssueLatency := 180;
  ldsDmaIssuePeriod := 4;
  waveIssueArbitration := WaveIssueArbitration.RoundRobin;
  hasMfmaCoissueRestriction := true;
  mfmaValuCoexecWindowSlots := 6;
  mfmaValuCoexecProducerBurst := 2;
  agprCountsAgainstVGPRs := true;
  hasTransCoexecutionHazard := false;
  hasWmmaCoexecutionHazard := false;
  hasScratchBaseForwardingHazard := false
|}.

Definition kGfx1100 : ArchData := {|
  isa := mkIsaVersion 11 0 0;
  name := "gfx1100";
  wavesPerSIMD := 16;
  simdsPerCU := 2;
  simdIdOffset := 8;
  waveIdOffset := 0;
  vgprFileSize := 1536;
  vgprAllocGranule := 24;
  valuPipelineDepth := 5;
  wave64IssueMultiplier := 2;
  issuesPerCUPerCycle := 5;
  simdIssueWidth := 1;
  simdIssuePeriod := 1;
  ldsCounterLatency := 20;
  ldsIssuePeriod := 0;
  ldsDmaIssueQueueDepth := 0;
  ldsDmaIssueLatency := 0;
  ldsDmaIssuePeriod := 0;
  waveIssueArbitration := WaveIssueArbitration.RoundRobin;
  hasMfmaCoissueRestriction := false;
  mfmaValuCoexecWindowSlots := 0;
  mfmaValuCoexecProducerBurst := 0;
  agprCountsAgainstVGPRs := false;
  hasTransCoexecutionHazard := false;
  hasWmmaCoexecutionHazard := false;
  hasScratchBaseForwardingHazard := false
|}.

Definition kGfx1200 : ArchData := {|
  isa := mkIsaVersion 12 0 0;
  name := "gfx1200";
  wavesPerSIMD := 16;
  simdsPerCU := 2;
  simdIdOffset := 8;
  waveIdOffset := 0;
  vgprFileSize := 1536;
  vgprAllocGranule := 24;
  valuPipelineDepth := 5;
  wave64IssueMultiplier := 2;
  issuesPerCUPerCycle := 5;
  simdIssueWidth := 1;
  simdIssuePeriod := 1;
  ldsCounterLatency := 20;
  ldsIssuePeriod := 0;
  ldsDmaIssueQueueDepth := 0;
  ldsDmaIssueLatency := 0;
  ldsDmaIssuePeriod := 0;
  waveIssueArbitration := WaveIssueArbitration.RoundRobin;
  hasMfmaCoissueRestriction := false;
  mfmaValuCoexecWindowSlots := 0;
  mfmaValuCoexecProducerBurst := 0;
  agprCountsAgainstVGPRs := false;
  hasTransCoexecutionHazard := false;
  hasWmmaCoexecutionHazard := false;
  hasScratchBaseForwardingHazard := false
|}.

(** ** gfx1250

    The fields of [AMDGPUTargetCapabilities] that [makeGfx1250] reads.  LLVM
    computes them from its subtarget tables, which are not part of the
    repository: they are the parameters of class [LLVMTarget]. *)
Record AMDGPUTargetCapabilities : Set := mkCapabilities {
  cap_isa : IsaVersion;
  vgprAllocationGranule : Z;
  executionUnitsPerCU : Z;
  maxWavesPerEU : Z;
  totalVGPRs : Z;
  scheduleIssueWidth : Z;
  transCoexecutionHazard : bool;
  wmmaCoexecutionHazard : bool;
  scratchBaseForwardingHazard : bool
}.

Class LLVMTarget : Set := {
  (** [getIsaVersion(getArchNameAMDGCN(GK_GFX1250))] *)
  getGfx1250IsaVersion : IsaVersion;
  (** [getArchNameAMDGCN(GK_GFX1250)] *)
  gfx1250ArchName : string;
  (** [createAMDGPUMCSubtargetInfo] followed by [getAMDGPUTargetCapabilities];
      [None] when either gives nothing *)
  gfx1250Capabilities : option AMDGPUTargetCapabilities;
  (** the code is compiled with [NDEBUG] *)
  NDEBUG : bool
}.

(** [assert(condition && why)]: compiled out when [NDEBUG] is defined. *)
Definition assertion `{LLVMTarget} (condition : bool) (why : string) :
    outcome unit :=
  if NDEBUG || condition then Ok tt else Fatal why.
Arguments assertion : simpl never.

Lemma assertion_holds `{LLVMTarget} condition why :
  condition = true -> assertion condition why = Ok tt.
Proof. intros ->. unfold assertion. by rewrite orb_true_r. Qed.

Lemma assertion_no_Failure `{LLVMTarget} condition why :
  assertion condition why <> Failure.
Proof. unfold assertion. by destruct (NDEBUG || condition). Qed.

Lemma assertion_Ok `{LLVMTarget} condition why u :
  assertion condition why = Ok u -> assertion condition why = Ok tt.
Proof. by destruct u. Qed.

Definition makeGfx1250 `{LLVMTarget} : option ArchData :=
  match gfx1250Capabilities with
  | None => None
  | Some capabilities =>
      if scheduleIssueWidth capabilities =? 0 then None
      else Some {|
        isa := cap_isa capabilities;
        name := gfx1250ArchName;
        wavesPerSIMD := maxWavesPerEU capabilities;
        simdsPerCU := executionUnitsPerCU capabilities;
        simdIdOffset := -1;
        waveIdOffset := -1;
        vgprFileSize := totalVGPRs capabilities;
        vgprAllocGranule := vgprAllocationGranule capabilities;
        valuPipelineDepth := 0;
        wave64IssueMultiplier := 0;
        issuesPerCUPerCycle := 0;
        simdIssueWidth := scheduleIssueWidth capabilities;
        simdIssuePeriod := 1;
        ldsCounterLatency := 0;
        ldsIssuePeriod := 0;
        ldsDmaIssueQueueDepth := 0;
        ldsDmaIssueLatency := 0;
        ldsDmaIssuePeriod := 0;
        waveIssueArbitration := WaveIssueArbitration.Unsupported;
        hasMfmaCoissueRestriction := false;
        mfmaValuCoexecWindowSlots := 0;
        mfmaValuCoexecProducerBurst := 0;
        agprCountsAgainstVGPRs := false;
        hasTransCoexecutionHazard := transCoexecutionHazard capabilities;
        hasWmmaCoexecutionHazard := wmmaCoexecutionHazard capabilities;
        hasScratchBaseForwardingHazard :=
          scratchBaseForwardingHazard capabilities
      |}
  end.

(** ** Compile-time invariants of the tables ([static_assert]) *)

Definition saneLdsDmaIssue (A : ArchData) : bool :=
  (0 <=? ldsIssuePeriod A) && (ldsIssuePeriod A <=? 64)
  && (0 <=? ldsDmaIssueQueueDepth A) && (ldsDmaIssueQueueDepth A <=? 64)
  && (0 <=? ldsDmaIssueLatency A) && (ldsDmaIssueLatency A <=? 512)
  && Bool.eqb (ldsDmaIssueQueueDepth A =? 0) (ldsDmaIssueLatency A =? 0)
  && (0 <=? ldsDmaIssuePeriod A) && (ldsDmaIssuePeriod A <=? 64)
  && ((ldsDmaIssuePeriod A =? 0) || negb (ldsDmaIssueQueueDepth A =? 0)).

Definition saneInstructionIssue (A : ArchData) : bool :=
  ((wave64IssueMultiplier A =? 1) || (wave64IssueMultiplier A =? 2))
  && (1 <=? issuesPerCUPerCycle A) && (issuesPerCUPerCycle A <=? 8)
  && (1 <=? simdIssueWidth A) && (simdIssueWidth A <=? 8)
  && ((simdIssuePeriod A =? 1) || (simdIssuePeriod A =? 4))
  && (0 <=? mfmaValuCoexecWindowSlots A)
  && (mfmaValuCoexecWindowSlots A <=? 64)
  && (0 <=? mfmaValuCoexecProducerBurst A)
  && (mfmaValuCoexecProducerBurst A <=? 64)
  && Bool.eqb (mfmaValuCoexecWindowSlots A =? 0)
       (mfmaValuCoexecProducerBurst A =? 0).

Definition sane (A : ArchData) : bool :=
  (0 <? wavesPerSIMD A) && (wavesPerSIMD A <=? 32)
  && ((simdsPerCU A =? 2) || (simdsPerCU A =? 4))
  && (u32 (simdIdOffset A) <? 32) && (u32 (waveIdOffset A) <? 32)
  && (256 <=? vgprFileSize A) && (vgprFileSize A <=? 2048)
  && (0 <? vgprAllocGranule A)
  && (Z.rem (vgprFileSize A) (vgprAllocGranule A) =? 0)
  && (1 <=? valuPipelineDepth A) && (valuPipelineDepth A <=? 8)
  && saneInstructionIssue A
  && (0 <=? ldsCounterLatency A) && (ldsCounterLatency A <=? 512)
  && saneLdsDmaIssue A.

(** ** Lookup *)

Definition isArchSupported `{LLVMTarget} (v : IsaVersion) : bool :=
  if isaEq v (isa kGfx803) || isaEq v (isa kGfx942) || isaEq v (isa kGfx950)
     || isaEq v (isa kGfx1100) || isaEq v (isa kGfx1200)
  then true
  else isaEq v getGfx1250IsaVersion && bool_decide (is_Some makeGfx1250).

Definition getArchData `{LLVMTarget} (v : IsaVersion) : outcome ArchData :=
  if isaEq v (isa kGfx803) then Ok kGfx803
  else if isaEq v (isa kGfx942) then Ok kGfx942
  else if isaEq v (isa kGfx950) then Ok kGfx950
  else if isaEq v (isa kGfx1100) then Ok kGfx1100
  else if isaEq v (isa kGfx1200) then Ok kGfx1200
  else if isaEq v getGfx1250IsaVersion then
    match makeGfx1250 with
    | Some gfx1250 => Ok gfx1250
    | None => Fatal "ArchData: unsupported IsaVersion"
    end
  else Fatal "ArchData: unsupported IsaVersion".

(** ** Lemmas *)

Lemma isaEq_eq lhs rhs : isaEq lhs rhs = true <-> lhs = rhs.
Proof.
  unfold isaEq. destruct lhs, rhs; simpl.
  rewrite !andb_true_iff, !Z.eqb_eq. split; [intros [[-> ->] ->]|intros [=]]; auto.
Qed.

Lemma isaEq_refl v : isaEq v v = true.
Proof. by apply isaEq_eq. Qed.

Lemma isaEq_spec lhs rhs : reflect (lhs = rhs) (isaEq lhs rhs).
Proof. apply iff_reflect. symmetry. apply isaEq_eq. Qed.

(** The constant tables, the domain of the [static_assert]s. *)
Definition staticArchs : list ArchData :=
  [kGfx803; kGfx942; kGfx950; kGfx1100; kGfx1200].

(** A concrete [LLVMTarget], with the values LLVM documents for gfx1250, used
    to evaluate the definitions. *)
#[local] Instance exampleTarget : LLVMTarget := {|
  getGfx1250IsaVersion := mkIsaVersion 12 5 0;
  gfx1250ArchName := "gfx1250";
  gfx1250Capabilities := Some (mkCapabilities (mkIsaVersion 12 5 0) 16 4 10 1024 1 true true true);
  NDEBUG := false
|}.

(** [getArchData] answers exactly for the versions [isArchSupported]
    accepts, and then returns a table whose own ISA version is the one asked
    for, given that LLVM's capability record carries the gfx1250 version. *)
Theorem getArchData_supported `{LLVMTarget} (v : IsaVersion)
  (Hcap : forall c, gfx1250Capabilities = Some c -> cap_isa c = getGfx1250IsaVersion) :
  (isArchSupported v = true <-> exists a, getArchData v = Ok a) /\
  (forall a, getArchData v = Ok a -> isa a = v).
Proof.
  unfold isArchSupported, getArchData.
  do 5 (match goal with
  | |- context [isaEq v ?x] =>
      destruct (isaEq_spec v x) as [->|]; simpl; [split; [split; eauto|by intros a [= <-]]|]
  end).
  destruct (isaEq_spec v getGfx1250IsaVersion) as [->|]; simpl.
  2: { split; [split; [done|intros [a Ha]; done]|done]. }
  destruct makeGfx1250 as [g|] eqn:Hg; simpl.
  2: { split; [split; [done|intros [? [=]]]|done]. }
  split; [split; eauto|]. intros a [= <-].
  unfold makeGfx1250 in Hg. destruct gfx1250Capabilities as [c|] eqn:Hc; [|done].
  case_match; simplify_eq. simpl. auto.
Qed.

Lemma getArchData_supported_witness :
  (isArchSupported (mkIsaVersion 12 5 0) = true <->
     exists a, getArchData (mkIsaVersion 12 5 0) = Ok a) /\
  (forall a, getArchData (mkIsaVersion 12 5 0) = Ok a -> isa a = mkIsaVersion 12 5 0).
Proof. apply getArchData_supported. intros c [= <-]. reflexivity. Defined.

(** The tables of the static targets satisfy the compile-time invariants. *)
Theorem static_archs_sane : Forall (fun A => sane A = true) staticArchs.
Proof. unfold staticArchs. repeat constructor. Qed.
