(* ===== verification/MachineIR.v ===== *)
(** * The machine operations the cost model reads

    Values, types and operations of the [waveamdmachine] dialect as far as
    the cost model looks at them: register classes, traits, the wait-event
    metadata, the attributes of the wait and delay operations, the uses of a
    value; and the mapping from wait events to hardware counters
    ([WaveAMDMachineWaitcnt.h], [WaveAMDMachineWaitcntInfo.cpp]). *)

From stdpp Require Import base tactics list strings.
From S2P Require Import Prelude CostEnums ArchData.

(** ** Types and values *)

Module RegClass.
Inductive t : Set := SGPR | VGPR | AGPR | SCC | VCC.
#[global] Instance t_eq_dec : EqDecision t.
Proof. solve_decision. Defined.
End RegClass.

(** The types of [WaveAMDMachineTypes.td]; [OtherType] is a type of another
    dialect. *)
Inductive MType : Set :=
  | RegType (regClass : RegClass.t) (width : Z) (index : option Z)
  | ImmType
  | MemTokenType
  | BarrierType
  | M0Type
  | OtherType.
#[export] Instance MType_eq_dec : EqDecision MType.
Proof. solve_decision. Defined.

(** An SSA value: its identity (the key of a [DenseMap]) and its type. *)
Record Value : Set := mkValue { value_id : N; value_type : MType }.
#[export] Instance Value_eq_dec : EqDecision Value.
Proof. solve_decision. Defined.

(** ** Operation metadata *)

Module Trait.
Inductive t : Set :=
  | VALUOp | MFMAOp | NoMachineInst | TensorMemoryOp | VMEMLoadOp | VMEMStoreOp
  | LDSDmaOp | LDSStoreOp | WaitcntOp | CompletionFreeTokenOp
  | CompletionNeutralTokenOp | TokenOp | TokenJoinOp | TupleMemoryOp
  | WritesExecOp | ExpertVALUOp | WMMAOp | TransOp | DPMACCOp | FlatMemoryOp
  | DSOp | SALUOp | ScratchMemoryOp | ReadsExecOp.
#[global] Instance t_eq_dec : EqDecision t.
Proof. solve_decision. Defined.
End Trait.

Module WaitcntEvent.
Inductive t : Set :=
  | None | Vmem | VmemStore | Lds | Smem | Flat | Gds | Message | ScratchStore
  | Async | Tensor | SccWrite.
#[global] Instance t_eq_dec : EqDecision t.
Proof. solve_decision. Defined.
End WaitcntEvent.

Module WaitcntCounter.
Inductive t : Set :=
  | None | Vmem | Lgkm | Vscnt | Load | Store | Ds | Km | X | Tensor | Async.
#[global] Instance t_eq_dec : EqDecision t.
Proof. solve_decision. Defined.
End WaitcntCounter.

Module WaitCounterFamily.
Inductive t : Set := Legacy | Split.
#[global] Instance t_eq_dec : EqDecision t.
Proof. solve_decision. Defined.
End WaitCounterFamily.

Record WaitcntInfo : Set := mkWaitcntInfo {
  event : WaitcntEvent.t;
  issueCount : Z;
  outOfOrder : bool
}.

(** The operation classes the cost model and the wait pass name, with the operands and
    attributes it reads through their accessors; every other operation is
    [OtherOp]. *)
Inductive OpKind : Set :=
  | BufferStoreB96Op (soffset : Value)
  | BufferStoreB128Op (soffset : Value)
  | DmaIssueDelayOp (dependency : Value) (skipCondition : option Value)
      (cycles : Z) (overlapCycles : option Z)
  | SWaitcntOp (vmcnt expcnt lgkmcnt : option Z)
  | SWaitcntVscntOp (vscnt : Z)
  | SWaitcntSplitOp (loadcnt storecnt dscnt kmcnt xcnt asynccnt tensorcnt :
      option Z)
  | UniformLoopOp (inits : list Value) (trip_count : option Z)
  | AfterOp | BarrierArriveOp | BarrierWaitOp | ClusterBarrierOp |
  ContinueIfOp | CopyTupleOp | DsLoadAddTidB32Op | DsStoreAddTidB32Op |
  ExecIfOp | GlobalStoreB128Addr64Op | GlobalStoreB128Op |
  GlobalStoreB96Addr64Op | GlobalStoreB96Op | LabelOp |
  MfmaF32_16x16x16_BF16Op | MfmaF32_16x16x16_F16Op | MfmaF32_16x16x32_BF16Op
  | MfmaF32_16x16x32_F16Op | MfmaF32_32x32x16_BF16Op |
  MfmaF32_32x32x16_F16Op | MfmaScaleF32_16x16x128_F4F4Op |
  MfmaScaleF32_32x32x64_F4F4Op | SAddI32Op | SAddM0I32Op | SAddU64Op |
  SAddU64U32Op | SAndB32Op | SAndB64Op | SAndSaveexecB32Op |
  SAndSaveexecB64Op | SAndn2ExecB32Op | SAndn2ExecB64Op | SAshrI32Op |
  SAshrI64Op | SBarrierOp | SBarrierSignalIsFirstOp | SBarrierSignalOp |
  SBarrierWaitOp | SCBranchExeczOp | SCBranchScc0Op | SCBranchScc1Op |
  SCSelectB32Op | SClusterIdXOp | SClusterIdYOp | SClusterIdZOp |
  SClusterWorkgroupIdXOp | SClusterWorkgroupIdYOp | SClusterWorkgroupIdZOp |
  SClusterWorkgroupMaxIdXOp | SClusterWorkgroupMaxIdYOp |
  SClusterWorkgroupMaxIdZOp | SCmpEqI32Op | SCmpEqU32BarrierSeedOp |
  SCmpEqU32Op | SCmpEqU64Op | SCmpGeI32Op | SCmpGeU32Op | SCmpGtI32Op |
  SCmpGtU32Op | SCmpLeI32Op | SCmpLeU32Op | SCmpLgI32Op | SCmpLgU32Op |
  SCmpLgU64Op | SCmpLtI32Op | SCmpLtU32Op | SDelayAluOp | SEndpgmOp |
  SFf1I32B32Op | SFf1I32B64Op | SFlbitI32B32Op | SFlbitI32B64Op |
  SGetregHwIdOp | SGetregShaderCyclesOp | SLoadB128Op | SLoadB32Op |
  SLoadB64Op | SLshlB32Op | SLshlB64Op | SLshrB32Op | SLshrB64Op | SMovB32Op
  | SMovB32TupleOp | SMovB32ValueOp | SMovB64ImmOp | SMovExecB64Op |
  SMovExecLoOp | SMovM0Op | SMovVccB32Op | SMovVccB64Op | SMulHiU32Op |
  SMulI32Op | SMulU64Op | SNopOp | SOrB32Op | SOrB64Op | SReadVccB32Op |
  SReadVccB64Op | SSendmsgDeallocVgprsOp | SSetSchedulingModeOp |
  SSetpcB64Op | SSetprioIncWgOp | SSetprioOp | SSleepOp | SSubI32Op |
  SWaitAluOp | SXorB32Op | SXorB64Op | ScheduleTokenOp | TDMLoadOp |
  TDMStoreOp | UniformIfOp | VAdd3U32Op | VAddLshlU32Op | VAddU64Op |
  VAddU64U32Op | VAndOrB32Op | VAshrrevI32Op | VAshrrevI64Op | VBfeU32Op |
  VBitOp3B32Op | VCvtF16F32Op | VCvtF32F16Op | VCvtF32U32Op |
  VCvtPkBF16F32Op | VCvtPkF16F32Op | VCvtPkRtzF16F32Op | VCvtU32F32Op |
  VExpF32Op | VFfbhU32Op | VFfblB32Op | VFmaF32Op | VLshlAddU32Op |
  VLshlrevB64Op | VLshrrevB64Op | VMadI32I24Op | VMadU32U24Op |
  VMovB64TupleOp | VMulHiU32Op | VMulU64Op | VNopOp | VOr3B32Op | VPermB32Op
  | VPermlane32SwapB32TupleOp | VPkAddF16Op | VPkAddF32Op | VPkFmaF16Op |
  VPkFmaF32Op | VPkMulF16Op | VPkMulF32Op | VRcpF32Op | VRcpIFlagF32Op |
  VXadU32Op | VXorB64Op | WmmaF32_16x16x16_BF16Op | WmmaF32_16x16x16_F16Op |
  WmmaF32_16x16x32_BF16Op | WmmaF32_16x16x32_F16Op | WmmaI32_16x16x16_IU8Op
  | YieldOp
  | ArgOp | BufferLoadU8D16Op | BufferLoadU8D16HiOp |
  GlobalAtomicAddAcqRelU32Op | SSetVgprMsbOp | UninitOp | VReadfirstlaneB32Op
  | OtherOp.

(** [op_waitcnt] and [op_issueCount] are [None] for an operation that does
    not implement the interface; [op_isMachine] is [isWaveAMDMachineOp];
    [op_m0WriteHazard] is [isa<M0WriteHazardOpInterface>]; [op_id] stands for
    the address of the operation. *)
Record Operation : Type := mkOperation {
  op_id : N;
  op_kind : OpKind;
  op_isMachine : bool;
  op_traits : list Trait.t;
  op_waitcnt : option WaitcntInfo;
  op_issueCount : option (IsaVersion -> Z -> Z);
  op_m0WriteHazard : bool;
  op_operands : list Value;
  op_results : list Value
}.

Definition hasTrait (op : Operation) (t : Trait.t) : bool :=
  bool_decide (t ∈ op_traits op).

Definition getWaitcntInfo (op : Operation) : WaitcntInfo :=
  match op_waitcnt op with
  | Some info => info
  | None => mkWaitcntInfo WaitcntEvent.None 0 false
  end.

Definition isIssuer (info : WaitcntInfo) : bool :=
  bool_decide (event info <> WaitcntEvent.None).

Definition isMemToken (value : Value) : bool :=
  bool_decide (value_type value = MemTokenType).

(** [VPermlane32SwapB32TupleOp::isSupportedOnIsa] and
    [TDMLoadOp::isSupportedOnIsa] (the [archPredicate] of the operation). *)
Definition permlane32SwapSupported (isa : IsaVersion) : bool :=
  (Major isa =? 9) && (Minor isa =? 5) && (Stepping isa =? 0).
Definition tdmSupported (isa : IsaVersion) : bool :=
  (Major isa =? 12) && (Minor isa =? 5) && (Stepping isa =? 0).

(** ** Uses of a value

    The use lists of a function, one entry per operand: [getUses]. *)

Record OpOperand : Type := mkOpOperand {
  operand_value : N;
  operand_owner : Operation;
  operand_number : nat
}.

Definition UseGraph : Type := list OpOperand.

Definition getUses (graph : UseGraph) (v : Value) : list OpOperand :=
  base.filter (fun use => operand_value use = value_id v) graph.

(** ** Wait counters *)

Record WaitcntCounterMapping : Set := mkCounterMapping {
  completion : WaitcntCounter.t;
  source : WaitcntCounter.t
}.

Record CounterMappingRule : Set := mkRule {
  rule_event : WaitcntEvent.t;
  rule_completion : WaitcntCounter.t;
  usesXSource : bool
}.

Definition legacyRules : list CounterMappingRule := [
  mkRule WaitcntEvent.Vmem WaitcntCounter.Vmem false;
  mkRule WaitcntEvent.Flat WaitcntCounter.Vmem false;
  mkRule WaitcntEvent.VmemStore WaitcntCounter.Vscnt false;
  mkRule WaitcntEvent.ScratchStore WaitcntCounter.Vscnt false;
  mkRule WaitcntEvent.Lds WaitcntCounter.Lgkm false;
  mkRule WaitcntEvent.Smem WaitcntCounter.Lgkm false;
  mkRule WaitcntEvent.Gds WaitcntCounter.Lgkm false;
  mkRule WaitcntEvent.Message WaitcntCounter.Lgkm false].

Definition splitRules : list CounterMappingRule := [
  mkRule WaitcntEvent.Vmem WaitcntCounter.Load true;
  mkRule WaitcntEvent.VmemStore WaitcntCounter.Store true;
  mkRule WaitcntEvent.ScratchStore WaitcntCounter.Store true;
  mkRule WaitcntEvent.Lds WaitcntCounter.Ds false;
  mkRule WaitcntEvent.Smem WaitcntCounter.Km true;
  mkRule WaitcntEvent.Message WaitcntCounter.Km false;
  mkRule WaitcntEvent.SccWrite WaitcntCounter.Km false;
  mkRule WaitcntEvent.Async WaitcntCounter.Async false;
  mkRule WaitcntEvent.Tensor WaitcntCounter.Tensor false].

Fixpoint findCounterMapping (event : WaitcntEvent.t)
    (rules : list CounterMappingRule) (waitXcnt : bool) :
    option WaitcntCounterMapping :=
  match rules with
  | [] => None
  | rule :: rules' =>
      if decide (rule_event rule <> event)
      then findCounterMapping event rules' waitXcnt
      else Some (mkCounterMapping (rule_completion rule)
                   (if waitXcnt && usesXSource rule then WaitcntCounter.X
                    else WaitcntCounter.None))
  end.

Definition getWaitcntCounterMapping (event : WaitcntEvent.t)
    (family : WaitCounterFamily.t) (waitXcnt : bool) :
    option WaitcntCounterMapping :=
  if decide (event = WaitcntEvent.None)
  then Some (mkCounterMapping WaitcntCounter.None WaitcntCounter.None)
  else if decide (family = WaitCounterFamily.Legacy)
  then findCounterMapping event legacyRules false
  else findCounterMapping event splitRules waitXcnt.

Definition getLegacyWaitcntCounter (event : WaitcntEvent.t) :
    WaitcntCounter.t :=
  match getWaitcntCounterMapping event WaitCounterFamily.Legacy false with
  | Some mapping => completion mapping
  | None => WaitcntCounter.None
  end.
