(* ===== verification/LatencyTable.v ===== *)
(** * Latency and functional-unit tables
    ([LatencyTable.cpp], [FunctionalUnit.cpp], [CalibrationData.cpp])

    Per-target cycles of a scheduling class (latency, resource cycles, issue
    count), the functional unit it occupies, and the overlay of measured
    latencies with its JSON loader.  The tables are those of
    [LatencyTable.inc] and [FunctionalUnitTable.inc], indexed by
    [SchedClass.index]. *)

From stdpp Require Import base tactics list gmap strings.
From S2P Require Import Prelude CostEnums ArchData.

(** ** Latency tables *)

Definition ClassCycles : Set := list Z.
Definition ClassSupport : Set := list bool.

Definition kLatencyGfx942 : ClassCycles :=
  [0; 1; 1; 1; 1; 1; 4; 0; 2; 4; 8; 16; 0; 0; 0; 0; 0; 80; 5; 5; 0; 8; 500;
   4; 0].
Definition kResourceCyclesGfx942 : ClassCycles :=
  [0; 1; 1; 1; 1; 1; 1; 0; 2; 4; 8; 16; 0; 0; 0; 0; 0; 1; 1; 1; 0; 1; 1; 1; 0].
Definition kIssueCountsGfx942 : ClassCycles :=
  [0; 1; 1; 1; 1; 1; 1; 0; 1; 1; 1; 1; 0; 0; 0; 0; 0; 1; 1; 1; 0; 1; 1; 1; 0].
Definition kSupportedGfx942 : ClassSupport :=
  [true; true; true; true; true; true; true; false; true; true; true; true;
   false; false; false; false; false; true; true; true; false; true; true;
   true; true].
Definition kLatencyGfx950 : ClassCycles :=
  [0; 1; 1; 1; 1; 1; 4; 0; 2; 4; 8; 16; 0; 0; 0; 0; 0; 80; 5; 5; 0; 8; 500;
   4; 0].
Definition kResourceCyclesGfx950 : ClassCycles :=
  [0; 1; 1; 1; 1; 1; 1; 0; 2; 4; 8; 16; 0; 0; 0; 0; 0; 1; 1; 1; 0; 1; 1; 1; 0].
Definition kIssueCountsGfx950 : ClassCycles :=
  [0; 1; 1; 1; 1; 1; 1; 0; 1; 1; 1; 1; 0; 0; 0; 0; 0; 1; 1; 1; 0; 1; 1; 1; 0].
Definition kSupportedGfx950 : ClassSupport :=
  [true; true; true; true; true; true; true; false; true; true; true; true;
   false; false; false; false; false; true; true; true; false; true; true;
   true; true].
Definition kLatencyGfx1100 : ClassCycles :=
  [0; 2; 5; 6; 5; 38; 10; 4; 0; 0; 0; 0; 0; 0; 0; 0; 5; 320; 20; 20; 0; 32;
   2000; 16; 0].
Definition kResourceCyclesGfx1100 : ClassCycles :=
  [0; 1; 1; 1; 1; 1; 1; 1; 0; 0; 0; 0; 0; 0; 0; 0; 1; 1; 1; 1; 0; 1; 1; 1; 0].
Definition kIssueCountsGfx1100 : ClassCycles :=
  [0; 1; 1; 1; 1; 1; 1; 1; 0; 0; 0; 0; 0; 0; 0; 0; 1; 1; 1; 1; 0; 1; 1; 1; 0].
Definition kSupportedGfx1100 : ClassSupport :=
  [true; true; true; true; true; true; true; true; false; false; false;
   false; false; false; false; false; true; true; true; true; false; true;
   true; true; true].
Definition kLatencyGfx1200 : ClassCycles :=
  [0; 2; 5; 6; 5; 38; 9; 4; 0; 0; 0; 0; 0; 0; 0; 0; 0; 320; 20; 20; 0; 32;
   2000; 16; 0].
Definition kResourceCyclesGfx1200 : ClassCycles :=
  [0; 1; 1; 1; 1; 1; 1; 1; 0; 0; 0; 0; 0; 0; 0; 0; 0; 1; 1; 1; 0; 1; 1; 1; 0].
Definition kIssueCountsGfx1200 : ClassCycles :=
  [0; 1; 1; 1; 1; 1; 1; 1; 0; 0; 0; 0; 0; 0; 0; 0; 0; 1; 1; 1; 0; 1; 1; 1; 0].
Definition kSupportedGfx1200 : ClassSupport :=
  [true; true; true; true; true; true; true; true; false; false; false;
   false; false; false; false; false; false; true; true; true; false; true;
   true; true; true].
Definition kLatencyGfx1250 : ClassCycles :=
  [0; 2; 5; 6; 5; 37; 8; 4; 0; 0; 0; 0; 8; 16; 16; 0; 0; 320; 20; 20; 320;
   32; 2000; 0; 0].
Definition kResourceCyclesGfx1250 : ClassCycles :=
  [0; 1; 1; 1; 1; 1; 1; 1; 0; 0; 0; 0; 8; 16; 1; 0; 0; 1; 1; 1; 1; 1; 1; 0; 0].
Definition kIssueCountsGfx1250 : ClassCycles :=
  [0; 1; 1; 1; 1; 1; 1; 1; 0; 0; 0; 0; 1; 1; 1; 0; 0; 1; 1; 1; 2; 1; 1; 0; 0].
Definition kSupportedGfx1250 : ClassSupport :=
  [true; true; true; true; true; true; true; true; false; false; false;
   false; true; true; true; false; false; true; true; true; true; true; true;
   false; true].

Record ArchTable : Set := mkArchTable {
  table_isa : IsaVersion;
  latencies : ClassCycles;
  resourceCycles : ClassCycles;
  issueCounts : ClassCycles;
  supported : ClassSupport
}.

Definition kArchTables : list ArchTable := [
  mkArchTable (mkIsaVersion 8 0 3) kLatencyGfx942 kResourceCyclesGfx942
    kIssueCountsGfx942 kSupportedGfx942;
  mkArchTable (mkIsaVersion 9 4 2) kLatencyGfx942 kResourceCyclesGfx942
    kIssueCountsGfx942 kSupportedGfx942;
  mkArchTable (mkIsaVersion 9 5 0) kLatencyGfx950 kResourceCyclesGfx950
    kIssueCountsGfx950 kSupportedGfx950;
  mkArchTable (mkIsaVersion 11 0 0) kLatencyGfx1100 kResourceCyclesGfx1100
    kIssueCountsGfx1100 kSupportedGfx1100;
  mkArchTable (mkIsaVersion 12 0 0) kLatencyGfx1200 kResourceCyclesGfx1200
    kIssueCountsGfx1200 kSupportedGfx1200].

Definition selectTable `{LLVMTarget} (isa : IsaVersion) : option ArchTable :=
  let gfx1250 := mkArchTable getGfx1250IsaVersion kLatencyGfx1250
    kResourceCyclesGfx1250 kIssueCountsGfx1250 kSupportedGfx1250 in
  if isaEq (table_isa gfx1250) isa then Some gfx1250
  else List.find (fun e => isaEq (table_isa e) isa) kArchTables.

Definition isPlainVALUClass (cls : SchedClass.t) : bool :=
  match cls with
  | SchedClass.Write32Bit | SchedClass.Write64Bit | SchedClass.WriteFloatFMA =>
      true
  | _ => false
  end.

Definition getTableCycles `{LLVMTarget} (arch : ArchData) (cls : SchedClass.t)
    (member : ArchTable -> ClassCycles) : outcome Z :=
  match selectTable (isa arch) with
  | None => Fatal "no scheduling table for arch"
  | Some table =>
      match member table !! SchedClass.index cls,
            supported table !! SchedClass.index cls with
      | Some cycles, Some true => Ok cycles
      | Some _, Some false => Fatal "class is unsupported on arch"
      | _, _ => Fatal "invalid SchedClass"
      end
  end.

Definition isSchedClassSupported `{LLVMTarget} (arch : ArchData)
    (cls : SchedClass.t) : bool :=
  match selectTable (isa arch) with
  | None => false
  | Some table =>
      match supported table !! SchedClass.index cls with
      | Some b => b
      | None => false
      end
  end.

Definition getLatency `{LLVMTarget} (arch : ArchData) (cls : SchedClass.t) :
    outcome Z :=
  latency ← getTableCycles arch cls latencies;
  Ok (if isPlainVALUClass cls then Z.max latency (valuPipelineDepth arch)
      else latency).

Definition getResourceCycles `{LLVMTarget} (arch : ArchData)
    (cls : SchedClass.t) : outcome Z :=
  getTableCycles arch cls resourceCycles.

Definition getIssueCount `{LLVMTarget} (arch : ArchData) (cls : SchedClass.t) :
    outcome Z :=
  count ← getTableCycles arch cls issueCounts; Ok (u32 count).

(** ** Functional units *)

Definition ClassFUs : Set := list FunctionalUnit.t.

Definition kFUsGfx942 : ClassFUs :=
  [FunctionalUnit.None; FunctionalUnit.SALU; FunctionalUnit.VALU;
   FunctionalUnit.VALU; FunctionalUnit.VALU; FunctionalUnit.VALU;
   FunctionalUnit.VALU; FunctionalUnit.None; FunctionalUnit.MFMA_XDL;
   FunctionalUnit.MFMA_XDL; FunctionalUnit.MFMA_XDL; FunctionalUnit.MFMA_XDL;
   FunctionalUnit.None; FunctionalUnit.None; FunctionalUnit.None;
   FunctionalUnit.None; FunctionalUnit.None; FunctionalUnit.VMEM;
   FunctionalUnit.LGKM; FunctionalUnit.LGKM; FunctionalUnit.None;
   FunctionalUnit.BRANCH; FunctionalUnit.BRANCH; FunctionalUnit.EXPORT;
   FunctionalUnit.None].
Definition kFUsGfx950 : ClassFUs :=
  [FunctionalUnit.None; FunctionalUnit.SALU; FunctionalUnit.VALU;
   FunctionalUnit.VALU; FunctionalUnit.VALU; FunctionalUnit.VALU;
   FunctionalUnit.VALU; FunctionalUnit.None; FunctionalUnit.MFMA_XDL;
   FunctionalUnit.MFMA_XDL; FunctionalUnit.MFMA_XDL; FunctionalUnit.MFMA_XDL;
   FunctionalUnit.None; FunctionalUnit.None; FunctionalUnit.None;
   FunctionalUnit.None; FunctionalUnit.None; FunctionalUnit.VMEM;
   FunctionalUnit.LGKM; FunctionalUnit.LGKM; FunctionalUnit.None;
   FunctionalUnit.BRANCH; FunctionalUnit.BRANCH; FunctionalUnit.EXPORT;
   FunctionalUnit.None].
Definition kFUsGfx1100 : ClassFUs :=
  [FunctionalUnit.None; FunctionalUnit.SALU; FunctionalUnit.VALU;
   FunctionalUnit.VALU; FunctionalUnit.VALU; FunctionalUnit.VALU;
   FunctionalUnit.TRANS; FunctionalUnit.SALU; FunctionalUnit.None;
   FunctionalUnit.None; FunctionalUnit.None; FunctionalUnit.None;
   FunctionalUnit.None; FunctionalUnit.None; FunctionalUnit.None;
   FunctionalUnit.None; FunctionalUnit.VALU; FunctionalUnit.VMEM;
   FunctionalUnit.LGKM; FunctionalUnit.LGKM; FunctionalUnit.None;
   FunctionalUnit.BRANCH; FunctionalUnit.BRANCH; FunctionalUnit.EXPORT;
   FunctionalUnit.None].
Definition kFUsGfx1200 : ClassFUs :=
  [FunctionalUnit.None; FunctionalUnit.SALU; FunctionalUnit.VALU;
   FunctionalUnit.VALU; FunctionalUnit.VALU; FunctionalUnit.VALU;
   FunctionalUnit.VALU; FunctionalUnit.SALU; FunctionalUnit.None;
   FunctionalUnit.None; FunctionalUnit.None; FunctionalUnit.None;
   FunctionalUnit.None; FunctionalUnit.None; FunctionalUnit.None;
   FunctionalUnit.None; FunctionalUnit.None; FunctionalUnit.VMEM;
   FunctionalUnit.LGKM; FunctionalUnit.LGKM; FunctionalUnit.None;
   FunctionalUnit.BRANCH; FunctionalUnit.BRANCH; FunctionalUnit.EXPORT;
   FunctionalUnit.None].
Definition kFUsGfx1250 : ClassFUs :=
  [FunctionalUnit.None; FunctionalUnit.SALU; FunctionalUnit.VALU;
   FunctionalUnit.VALU; FunctionalUnit.VALU; FunctionalUnit.VALU;
   FunctionalUnit.TRANS; FunctionalUnit.SALU; FunctionalUnit.None;
   FunctionalUnit.None; FunctionalUnit.None; FunctionalUnit.None;
   FunctionalUnit.MFMA_XDL; FunctionalUnit.MFMA_XDL; FunctionalUnit.VALU;
   FunctionalUnit.None; FunctionalUnit.None; FunctionalUnit.VMEM;
   FunctionalUnit.LGKM; FunctionalUnit.LGKM; FunctionalUnit.LGKM;
   FunctionalUnit.BRANCH; FunctionalUnit.BRANCH; FunctionalUnit.None;
   FunctionalUnit.None].

Record ArchFUs : Set := mkArchFUs { fus_isa : IsaVersion; fus_table : ClassFUs }.

Definition kArchFUs : list ArchFUs := [
  mkArchFUs (mkIsaVersion 8 0 3) kFUsGfx942;
  mkArchFUs (mkIsaVersion 9 4 2) kFUsGfx942;
  mkArchFUs (mkIsaVersion 9 5 0) kFUsGfx950;
  mkArchFUs (mkIsaVersion 11 0 0) kFUsGfx1100;
  mkArchFUs (mkIsaVersion 12 0 0) kFUsGfx1200].

Definition selectFUTable `{LLVMTarget} (isa : IsaVersion) : option ClassFUs :=
  if isaEq getGfx1250IsaVersion isa then Some kFUsGfx1250
  else fus_table <$> List.find (fun e => isaEq (fus_isa e) isa) kArchFUs.

Definition funit `{LLVMTarget} (arch : ArchData) (cls : SchedClass.t) :
    outcome FunctionalUnit.t :=
  if negb (isSchedClassSupported arch cls)
  then Fatal "class is unsupported on arch"
  else match selectFUTable (isa arch) with
       | None => Fatal "funit: no FU table for arch"
       | Some table =>
           match table !! SchedClass.index cls with
           | Some fu => Ok fu
           | None => Fatal "funit: invalid SchedClass"
           end
       end.

(** [getFunctionalUnitName]: the strings of [CostModelEnums.td]. *)
Definition getFunctionalUnitName (fu : FunctionalUnit.t) : string :=
  match fu with
  | FunctionalUnit.VALU => "VALU"
  | FunctionalUnit.SALU => "SALU"
  | FunctionalUnit.VMEM => "VMEM"
  | FunctionalUnit.LGKM => "LGKM"
  | FunctionalUnit.MFMA_XDL => "MFMA_XDL"
  | FunctionalUnit.TRANS => "TRANS"
  | FunctionalUnit.BRANCH => "BRANCH"
  | FunctionalUnit.EXPORT => "EXPORT"
  | FunctionalUnit.None => "None"
  | FunctionalUnit.NumFunctionalUnits => "NumFunctionalUnits"
  end.

(** ** Measured latencies *)

Record CalibrationOverride : Set := mkOverride {
  ov_cycles : Z;
  ov_kernel : string;
  ov_notes : string
}.

Record CalibrationData : Set := mkCalibration {
  cal_arch : string;
  cal_deviceName : string;
  cal_rocmVersion : string;
  cal_measuredAt : string;
  cal_notes : string;
  overrides : gmap Z CalibrationOverride
}.

(** [static_cast<int>(cls)] *)
Definition classKey (cls : SchedClass.t) : Z := Z.of_nat (SchedClass.index cls).

Definition getOverride (calibration : CalibrationData) (cls : SchedClass.t) :
    option CalibrationOverride :=
  overrides calibration !! classKey cls.

Definition getOverrideCycles (calibration : CalibrationData)
    (cls : SchedClass.t) : option Z :=
  match overrides calibration !! classKey cls with
  | None => None
  | Some o => Some (ov_cycles o)
  end.

(** [getIsaVersion] is LLVM's parser of an architecture name. *)
Definition matchesArch (getIsaVersion : string -> IsaVersion)
    (calibration : CalibrationData) (archData : ArchData) : bool :=
  if decide (cal_arch calibration = "") then true
  else isaEq (getIsaVersion (cal_arch calibration)) (isa archData).

Definition getCalibratedLatency `{LLVMTarget} (arch : ArchData)
    (cls : SchedClass.t) (calibration : CalibrationData) : outcome Z :=
  match getOverrideCycles calibration cls with
  | Some cycles => Ok cycles
  | None => getLatency arch cls
  end.

(** [getConfiguredLatency], the same helper in [MemoryCounterTiming.cpp] and
    [InstructionExecutionState.cpp]; a null pointer is [None]. *)
Definition getConfiguredLatency `{LLVMTarget} (arch : ArchData)
    (cls : SchedClass.t) (calibration : option CalibrationData) : outcome Z :=
  match calibration with
  | None => getLatency arch cls
  | Some c => getCalibratedLatency arch cls c
  end.

(** ** Loader

    [JSON] gathers the operations of [llvm::json] that the loader calls: the
    parser, the object view of a value, the typed members of an object and its
    entries in iteration order. *)

Class JSON : Type := {
  JValue : Type;
  JObject : Type;
  json_parse : string -> string + JValue;
  getAsObject : JValue -> option JObject;
  getInteger : JObject -> string -> option Z;
  getString : JObject -> string -> option string;
  getObject : JObject -> string -> option JObject;
  entries : JObject -> list (string * JValue)
}.

(** [symbolizeSchedClass]: the enumerator with a given name. *)
Definition symbolizeSchedClass (name : string) : option SchedClass.t :=
  List.find (fun c => bool_decide (SchedClass.name c = name)) SchedClass.all.

Definition parseSchedClassName (name : string) : SchedClass.t :=
  match symbolizeSchedClass name with
  | Some cls => if decide (cls <> SchedClass.NumSchedClasses) then cls
                else SchedClass.NumSchedClasses
  | None => SchedClass.NumSchedClasses
  end.

(** [static_cast<int>] of an [int64_t] *)
Definition i32 (x : Z) : Z := (x + 2147483648) mod 4294967296 - 2147483648.

(** [DenseMap::try_emplace]: an existing entry is kept. *)
Definition try_emplace (key : Z) (entry : CalibrationOverride)
    (out : CalibrationData) : CalibrationData :=
  match overrides out !! key with
  | Some _ => out
  | None => mkCalibration (cal_arch out) (cal_deviceName out)
              (cal_rocmVersion out) (cal_measuredAt out) (cal_notes out)
              (<[key := entry]> (overrides out))
  end.

Definition parseOneOverride `{JSON} (out : CalibrationData) (name : string)
    (value : JValue) : string + CalibrationData :=
  let cls := parseSchedClassName name in
  if decide (cls = SchedClass.NumSchedClasses)
  then inl ("unknown SchedClass name: " +:+ name)
  else match getAsObject value with
  | None => inl ("override for " +:+ name +:+ " must be a JSON object")
  | Some obj =>
      match getInteger obj "cycles" with
      | None => inl ("override for " +:+ name +:+ " missing integer 'cycles'")
      | Some cyc =>
          let entry := mkOverride (i32 cyc)
            (default "" (getString obj "kernel"))
            (default "" (getString obj "notes")) in
          inr (try_emplace (classKey cls) entry out)
      end
  end.

Definition readString `{JSON} (obj : JObject) (key dst : string) : string :=
  match getString obj key with
  | Some s => s
  | None => dst
  end.

Definition readMetadata `{JSON} (obj : JObject) (out : CalibrationData) :
    CalibrationData :=
  mkCalibration (readString obj "arch" (cal_arch out))
    (readString obj "device_name" (cal_deviceName out))
    (readString obj "rocm_version" (cal_rocmVersion out))
    (readString obj "measured_at" (cal_measuredAt out))
    (readString obj "notes" (cal_notes out))
    (overrides out).

Fixpoint parseOverrides `{JSON} (out : CalibrationData)
    (kvs : list (string * JValue)) : string + CalibrationData :=
  match kvs with
  | [] => inr out
  | (name, value) :: kvs' =>
      match parseOneOverride out name value with
      | inl err => inl err
      | inr out' => parseOverrides out' kvs'
      end
  end.

Definition emptyCalibration : CalibrationData :=
  mkCalibration "" "" "" "" "" ∅.

Definition parseRoot `{JSON} (out : CalibrationData) (root : JValue) :
    string + CalibrationData :=
  match getAsObject root with
  | None => inl "calibration JSON root must be an object"
  | Some obj =>
      if match getInteger obj "schema_version" with
         | Some v => negb (v =? 1)
         | None => false
         end
      then inl "unsupported calibration schema_version (expected 1)"
      else let out := readMetadata obj out in
           match getObject obj "overrides" with
           | None => inr out
           | Some overridesObj => parseOverrides out (entries overridesObj)
           end
  end.

Definition loadFromString `{JSON} (json : string) : string + CalibrationData :=
  match json_parse json with
  | inl err => inl err
  | inr root => parseRoot emptyCalibration root
  end.

(** [readFile] is [llvm::MemoryBuffer::getFile]. *)
Definition loadFromFile `{JSON} (readFile : string -> option string)
    (path : string) : string + CalibrationData :=
  match readFile path with
  | None => inl ("failed to read " +:+ path)
  | Some contents => loadFromString contents
  end.
