(* ===== verification/OpClassifier.v ===== *)
(** * Operation classification ([OpClassifier.cpp])

    The scheduling class of a machine operation, the number of hardware
    instructions it issues, and its part in MFMA co-issue and
    co-execution. *)

From stdpp Require Import base tactics list strings.
From S2P Require Import Prelude CostEnums ArchData MachineIR LatencyTable.

Record InstructionCoexecutionModel : Set := mkCoexecution {
  openedSlots : Z;
  filledSlots : Z;
  producerBurst : Z;
  waitsForWindow : bool
}.

(** [fallbackClassify]: a debug build stops, a release build warns. *)
Definition fallbackClassify `{LLVMTarget} (op : Operation) :
    outcome SchedClass.t :=
  if hasTrait op Trait.VALUOp then Ok SchedClass.Write32Bit
  else if NDEBUG then Ok SchedClass.Write32Bit
  else Fatal "classifyOp: unmapped op".

Definition issuesLdsWaitcnt (op : Operation) : bool :=
  bool_decide (event (getWaitcntInfo op) = WaitcntEvent.Lds).

Definition isClusterIdentityRead (op : Operation) : bool :=
  match op_kind op with
  | SClusterIdXOp | SClusterIdYOp | SClusterIdZOp | SClusterWorkgroupIdXOp
  | SClusterWorkgroupIdYOp | SClusterWorkgroupIdZOp
  | SClusterWorkgroupMaxIdXOp | SClusterWorkgroupMaxIdYOp
  | SClusterWorkgroupMaxIdZOp => true
  | _ => false
  end.

Definition isBarrierClassOp (op : Operation) : bool :=
  match op_kind op with
  | BarrierWaitOp | ClusterBarrierOp | SBarrierSignalIsFirstOp
  | SBarrierSignalOp | SBarrierWaitOp | SBarrierOp => true
  | _ => false
  end.

(** The [TypeSwitch] of [classifyMappedOp]. *)
Definition classifyByType (op : Operation) : outcome SchedClass.t :=
  match op_kind op with
  | MfmaF32_16x16x16_F16Op | MfmaF32_16x16x16_BF16Op | MfmaF32_16x16x32_F16Op
  | MfmaF32_16x16x32_BF16Op | MfmaScaleF32_16x16x128_F4F4Op =>
      Ok SchedClass.Write4PassMAI
  | MfmaF32_32x32x16_F16Op | MfmaF32_32x32x16_BF16Op
  | MfmaScaleF32_32x32x64_F4F4Op => Ok SchedClass.Write8PassMAI
  | WmmaF32_16x16x16_F16Op | WmmaF32_16x16x16_BF16Op | WmmaI32_16x16x16_IU8Op =>
      Ok SchedClass.Write16PassWMMA
  | WmmaF32_16x16x32_F16Op | WmmaF32_16x16x32_BF16Op =>
      Ok SchedClass.WriteXDL2PassWMMA
  | SLoadB32Op | SLoadB64Op | SLoadB128Op => Ok SchedClass.WriteSMEM
  | LabelOp | ScheduleTokenOp | AfterOp | ContinueIfOp | YieldOp | ExecIfOp
  | UniformIfOp | UniformLoopOp _ _ => Ok SchedClass.NoInst
  | SWaitAluOp => Ok SchedClass.WaitcntPseudo
  | SCBranchScc0Op | SCBranchScc1Op | SCBranchExeczOp | SSetpcB64Op
  | SEndpgmOp => Ok SchedClass.WriteBranch
  | VAddU64Op | VAddU64U32Op | VMovB64TupleOp | VMulU64Op | VXorB64Op
  | VLshlrevB64Op | VLshrrevB64Op | VAshrrevI64Op => Ok SchedClass.Write64Bit
  | CopyTupleOp =>
      match op_results op with
      | mkValue _ (RegType regClass _ _) :: _ =>
          if decide (regClass = RegClass.SGPR) then Ok SchedClass.WriteSALU
          else Ok SchedClass.Write32Bit
      | _ => Fatal "cast<RegType>() argument of incompatible type"
      end
  | VFmaF32Op => Ok SchedClass.WriteFloatFMA
  | VNopOp | VCvtF16F32Op | VCvtF32F16Op | VCvtF32U32Op | VCvtU32F32Op
  | VCvtPkRtzF16F32Op | VCvtPkF16F32Op | VCvtPkBF16F32Op
  | VPkAddF16Op | VPkMulF16Op | VPkFmaF16Op | VPkAddF32Op
  | VPkMulF32Op | VPkFmaF32Op | VAdd3U32Op | VBfeU32Op
  | VLshlAddU32Op | VAddLshlU32Op | VAndOrB32Op | VOr3B32Op
  | VXadU32Op | VPermB32Op | VBitOp3B32Op | VMadI32I24Op
  | VMadU32U24Op | VFfbhU32Op | VFfblB32Op | VMulHiU32Op
  | VAshrrevI32Op => Ok SchedClass.Write32Bit
  | VExpF32Op | VRcpF32Op | VRcpIFlagF32Op => Ok SchedClass.WriteTrans32
  | SAddI32Op | SSubI32Op | SAddM0I32Op | SAddU64Op | SAddU64U32Op
  | DmaIssueDelayOp _ _ _ _
  | SAndB32Op | SAndB64Op
  | SAndn2ExecB32Op | SAndn2ExecB64Op | SAndSaveexecB32Op
  | SAndSaveexecB64Op
  | SCmpEqI32Op | SCmpLgI32Op | SCmpGtI32Op | SCmpGeI32Op | SCmpLtI32Op
  | SCmpLeI32Op | SCmpEqU32Op | SCmpEqU32BarrierSeedOp | SCmpLgU32Op
  | SCmpGtU32Op | SCmpGeU32Op | SCmpLtU32Op | SCmpLeU32Op
  | SCmpEqU64Op | SCmpLgU64Op | SCSelectB32Op
  | SDelayAluOp | SLshlB32Op | SLshlB64Op | SLshrB32Op | SLshrB64Op
  | SAshrI32Op | SAshrI64Op | SMovB32Op | SMovB32TupleOp | SMovB32ValueOp
  | SMovB64ImmOp | SMovExecB64Op | SMovExecLoOp | SMovM0Op | SMovVccB32Op
  | SMovVccB64Op
  | SMulI32Op | SMulHiU32Op | SMulU64Op | SNopOp | SSleepOp | SFf1I32B32Op
  | SFf1I32B64Op
  | SFlbitI32B32Op | SFlbitI32B64Op | SOrB32Op | SOrB64Op
  | SReadVccB32Op | SReadVccB64Op
  | SSendmsgDeallocVgprsOp | SSetprioOp | SSetprioIncWgOp
  | SGetregShaderCyclesOp | SGetregHwIdOp | SSetSchedulingModeOp
  | SXorB32Op | SXorB64Op => Ok SchedClass.WriteSALU
  | _ => if hasTrait op Trait.VALUOp then Ok SchedClass.Write32Bit
         else Ok SchedClass.NumSchedClasses
  end.

Definition classifyMappedOp (op : Operation) : outcome SchedClass.t :=
  if hasTrait op Trait.NoMachineInst then Ok SchedClass.NoInst
  else if hasTrait op Trait.TensorMemoryOp then Ok SchedClass.WriteTDM
  else if hasTrait op Trait.VMEMLoadOp || hasTrait op Trait.VMEMStoreOp
  then Ok SchedClass.WriteVMEM
  else if issuesLdsWaitcnt op then Ok SchedClass.WriteLDS
  else if isClusterIdentityRead op then Ok SchedClass.WriteSALU
  else if isBarrierClassOp op then Ok SchedClass.WriteBarrier
  else classifyByType op.

Definition classifyOp `{LLVMTarget} (op : Operation) : outcome SchedClass.t :=
  cls ← classifyMappedOp op;
  if decide (cls <> SchedClass.NumSchedClasses) then Ok cls
  else fallbackClassify op.

Definition hasSchedClassMapping (op : Operation) : outcome bool :=
  cls ← classifyMappedOp op;
  Ok (bool_decide (cls <> SchedClass.NumSchedClasses)).

Definition isTDM (op : Operation) : bool :=
  match op_kind op with TDMLoadOp | TDMStoreOp => true | _ => false end.

Definition validateInstructionIssueCountTarget `{LLVMTarget} (op : Operation)
    (targetIsa : IsaVersion) : outcome unit :=
  if negb (isTDM op) then Ok tt
  else if negb (tdmSupported targetIsa) then Failure
  else if negb (isArchSupported targetIsa) then Failure
  else Ok tt.

Definition getInstructionIssueCount `{LLVMTarget} (op : Operation)
    (targetIsa : IsaVersion) (wavefrontSize : Z) : outcome Z :=
  match op_issueCount op with
  | None => Ok 1
  | Some info =>
      let declaredIssues := info targetIsa wavefrontSize in
      if negb (isTDM op) then Ok (Z.max 1 declaredIssues)
      else
        cls ← classifyOp op;
        arch ← getArchData targetIsa;
        llvmIssues ← (if isSchedClassSupported arch cls
                      then getIssueCount arch cls else Ok 1);
        Ok (Z.max (Z.max 1 declaredIssues) llvmIssues)
  end.

(** An operation issues at least once. *)
Lemma getInstructionIssueCount_pos `{LLVMTarget} op isa w n :
  getInstructionIssueCount op isa w = Ok n -> 1 <= n.
Proof.
  unfold getInstructionIssueCount. intros Hn.
  destruct (op_issueCount op) as [f|]; [|by injection Hn as <-].
  destruct (negb (isTDM op)); [injection Hn as <-; lia|].
  apply outcome_bind_Ok in Hn as (cls & _ & Hn).
  apply outcome_bind_Ok in Hn as (a & _ & Hn).
  apply outcome_bind_Ok in Hn as (k & _ & [= <-]). lia.
Qed.

Definition usesMfmaCoissueResource (op : Operation) (cls : SchedClass.t)
    (arch : ArchData) : bool :=
  if negb (hasMfmaCoissueRestriction arch) then false
  else if hasTrait op Trait.MFMAOp || bool_decide (cls = SchedClass.WriteTrans32)
  then true
  else match op_kind op with
       | VPkAddF16Op | VPkMulF16Op | VPkFmaF16Op | VPkAddF32Op | VPkMulF32Op
       | VPkFmaF32Op => true
       | _ => false
       end.

Definition noCoexecution : InstructionCoexecutionModel :=
  mkCoexecution 0 0 0 false.

Definition getInstructionCoexecutionModel `{LLVMTarget} (op : Operation)
    (cls : SchedClass.t) (arch : ArchData) (wavefrontSize : Z) :
    outcome InstructionCoexecutionModel :=
  if (mfmaValuCoexecWindowSlots arch =? 0)
     || (mfmaValuCoexecProducerBurst arch =? 0)
  then Ok noCoexecution
  else
    issues ← getInstructionIssueCount op (isa arch) wavefrontSize;
    resourceCycles ← getResourceCycles arch cls;
    let release := Z.max issues (u32 (Z.max 1 resourceCycles)) in
    if hasTrait op Trait.MFMAOp then
      let window := u32 (mfmaValuCoexecWindowSlots arch) in
      if release <=? window then Ok noCoexecution
      else Ok (mkCoexecution window 0 (u32 (mfmaValuCoexecProducerBurst arch))
                 true)
    else if usesMfmaCoissueResource op cls arch
            || negb (hasTrait op Trait.VALUOp)
    then Ok noCoexecution
    else Ok (mkCoexecution 0 release 0 false).
