(* ===== verification/MemoryTiming.v ===== *)
(** * Wait-counter timing ([MemoryCounterTiming.h], [MemoryCounterTiming.cpp])

    The counter an operation increments, the issue resources of the memory
    pipeline it occupies, and the cycles until its counter drains or its value
    arrives, with the overrides of the configuration. *)

From stdpp Require Import base tactics list strings.
From S2P Require Import Prelude CostEnums ArchData MachineIR LatencyTable.
From S2P Require Import OpClassifier.

(** [MemoryIssueResourceMask] is a [uint8_t]. *)
Definition getMemoryIssueResourceMask (resource : MemoryIssueResource.t) : Z :=
  Z.shiftl 1 (MemoryIssueResource.value resource) mod 256.

Definition hasMemoryIssueResource (resources : Z)
    (resource : MemoryIssueResource.t) : bool :=
  negb (Z.land resources (getMemoryIssueResourceMask resource) =? 0).

Record MemoryCounterLatencies : Set := mkCounterLatencies {
  mcl_vmemLoad : Z;
  mcl_vmemStore : Z;
  mcl_smemLoad : Z;
  mcl_lds : Z
}.
Definition defaultCounterLatencies : MemoryCounterLatencies :=
  mkCounterLatencies (-1) (-1) (-1) (-1).

Record MemoryValueLatencies : Set := mkValueLatencies {
  mvl_vmemLoad : Z;
  mvl_smemLoad : Z;
  mvl_lds : Z
}.
Definition defaultValueLatencies : MemoryValueLatencies :=
  mkValueLatencies (-1) (-1) (-1).

Definition hasRegisterResult (op : Operation) : bool :=
  existsb (fun result => negb (isMemToken result)) (op_results op).

Definition overrideOrDefault (overrideLatency defaultLatency : Z) : Z :=
  if 0 <=? overrideLatency then overrideLatency else defaultLatency.

(** [llvm::find_if] over an array of pairs. *)
Definition findPair {A B : Type} `{EqDecision A} (key : A) (l : list (A * B)) :
    option B :=
  snd <$> List.find (fun mapping => bool_decide (mapping.1 = key)) l.

Definition waitcntIssueResources : list (WaitcntEvent.t * Z) := [
  (WaitcntEvent.Vmem, getMemoryIssueResourceMask MemoryIssueResource.VmemLoad);
  (WaitcntEvent.Flat, getMemoryIssueResourceMask MemoryIssueResource.VmemLoad);
  (WaitcntEvent.VmemStore,
     getMemoryIssueResourceMask MemoryIssueResource.VmemStore);
  (WaitcntEvent.ScratchStore,
     getMemoryIssueResourceMask MemoryIssueResource.VmemStore);
  (WaitcntEvent.Lds, getMemoryIssueResourceMask MemoryIssueResource.Lds);
  (WaitcntEvent.Gds, getMemoryIssueResourceMask MemoryIssueResource.Lds);
  (WaitcntEvent.Message, getMemoryIssueResourceMask MemoryIssueResource.Lds);
  (WaitcntEvent.SccWrite, 0);
  (WaitcntEvent.Smem, getMemoryIssueResourceMask MemoryIssueResource.Smem);
  (WaitcntEvent.None, 0)].

Definition getWaitcntIssueResources (op : Operation) : outcome Z :=
  let info := getWaitcntInfo op in
  if decide (event info = WaitcntEvent.Async
             \/ event info = WaitcntEvent.Tensor)
  then
    let resources := getMemoryIssueResourceMask MemoryIssueResource.Lds in
    let resources :=
      if hasTrait op Trait.VMEMLoadOp
      then Z.lor resources
             (getMemoryIssueResourceMask MemoryIssueResource.VmemLoad)
      else resources in
    Ok (if hasTrait op Trait.VMEMStoreOp
        then Z.lor resources
               (getMemoryIssueResourceMask MemoryIssueResource.VmemStore)
        else resources)
  else if bool_decide (event info = WaitcntEvent.None)
          && hasTrait op Trait.VMEMLoadOp
  then Ok (getMemoryIssueResourceMask MemoryIssueResource.VmemLoad)
  else if bool_decide (event info = WaitcntEvent.None)
          && hasTrait op Trait.VMEMStoreOp
  then Ok (getMemoryIssueResourceMask MemoryIssueResource.VmemStore)
  else match findPair (event info) waitcntIssueResources with
       | Some mask => Ok mask
       | None => Fatal "unsupported wait event"
       end.

Definition getMemoryCounterKind (op : Operation) : outcome MemoryCounterKind.t :=
  let event := event (getWaitcntInfo op) in
  if decide (event = WaitcntEvent.Async) then Ok MemoryCounterKind.Async
  else if decide (event = WaitcntEvent.Tensor) then Ok MemoryCounterKind.Tensor
  else
    let counterKinds := [
      (WaitcntCounter.Vmem, MemoryCounterKind.Vmem);
      (WaitcntCounter.Lgkm, MemoryCounterKind.Lgkm);
      (WaitcntCounter.Vscnt, MemoryCounterKind.Vscnt)] in
    let counter := getLegacyWaitcntCounter event in
    if decide (counter = WaitcntCounter.None) then Ok MemoryCounterKind.None
    else match findPair counter counterKinds with
         | Some kind => Ok kind
         | None => Fatal "expected legacy counter"
         end.

Definition getMemoryIssueResources (op : Operation) : outcome Z :=
  resources ← getWaitcntIssueResources op;
  Ok (if hasTrait op Trait.LDSDmaOp && hasTrait op Trait.VMEMLoadOp
      then Z.lor resources
             (getMemoryIssueResourceMask MemoryIssueResource.LdsDmaAccept)
      else resources).

Definition isLdsDmaIssuer (op : Operation) : bool := hasTrait op Trait.LDSDmaOp.

Definition getMemoryCounterLatency `{LLVMTarget} (arch : ArchData)
    (op : Operation) (overrides : MemoryCounterLatencies)
    (calibration : option CalibrationData) : outcome Z :=
  cls ← classifyOp op;
  defaultLatency ← getConfiguredLatency arch cls calibration;
  match event (getWaitcntInfo op) with
  | WaitcntEvent.Vmem | WaitcntEvent.Flat =>
      Ok (overrideOrDefault (mcl_vmemLoad overrides) defaultLatency)
  | WaitcntEvent.VmemStore | WaitcntEvent.ScratchStore =>
      Ok (overrideOrDefault (mcl_vmemStore overrides) defaultLatency)
  | WaitcntEvent.Async | WaitcntEvent.Tensor | WaitcntEvent.SccWrite =>
      Ok defaultLatency
  | WaitcntEvent.Lds =>
      Ok (overrideOrDefault (mcl_lds overrides)
            (if ldsCounterLatency arch =? 0 then defaultLatency
             else ldsCounterLatency arch))
  | WaitcntEvent.Smem =>
      Ok (overrideOrDefault (mcl_smemLoad overrides) defaultLatency)
  | _ => Fatal "op has no memory counter timing"
  end.

Definition hasMemoryValueLatency (op : Operation) : bool :=
  if negb (hasRegisterResult op) then false
  else match event (getWaitcntInfo op) with
       | WaitcntEvent.Vmem | WaitcntEvent.Flat | WaitcntEvent.Lds
       | WaitcntEvent.Smem => true
       | _ => false
       end.

Definition getMemoryValueLatency `{LLVMTarget} (arch : ArchData)
    (op : Operation) (counterOverrides : MemoryCounterLatencies)
    (valueOverrides : MemoryValueLatencies)
    (calibration : option CalibrationData) : outcome Z :=
  let counterLatency :=
    getMemoryCounterLatency arch op counterOverrides calibration in
  let event := event (getWaitcntInfo op) in
  if decide (event = WaitcntEvent.Vmem \/ event = WaitcntEvent.Flat) then
    latency ← counterLatency;
    Ok (overrideOrDefault (mvl_vmemLoad valueOverrides) latency)
  else if bool_decide (event = WaitcntEvent.Lds) && hasRegisterResult op then
    latency ← counterLatency;
    Ok (overrideOrDefault (mvl_lds valueOverrides) latency)
  else if decide (event = WaitcntEvent.Smem) then
    latency ← counterLatency;
    Ok (overrideOrDefault (mvl_smemLoad valueOverrides) latency)
  else Fatal "op has no memory value timing".

(** The overload without counter overrides. *)
Definition getMemoryValueLatency_default `{LLVMTarget} (arch : ArchData)
    (op : Operation) (overrides : MemoryValueLatencies)
    (calibration : option CalibrationData) : outcome Z :=
  getMemoryValueLatency arch op defaultCounterLatencies overrides calibration.
