(* ===== verification/ScheduleModel.v ===== *)
(** * Scheduling policy ([InstructionExecutionState.h], first part of
    [InstructionExecutionState.cpp])

    The slot-based resource state the scheduler previews, and
    [InstructionScheduleModel]: stall fillers, latency priorities and the
    register-pressure tests and comparisons between ready candidates. *)

From stdpp Require Import base tactics list strings.
From S2P Require Import Prelude CostEnums ArchData MachineIR LatencyTable.
From S2P Require Import OpClassifier MemoryTiming.

(** ** Data *)

Module DmaIssueDelayCohortPolicy.
Inductive t : Set := Delayed | Skipped.
#[global] Instance t_eq_dec : EqDecision t.
Proof. solve_decision. Defined.
End DmaIssueDelayCohortPolicy.

Record ReadyRegisterPressure : Set := mkPressure {
  p_sgpr : Z;
  p_vgpr : Z;
  p_agpr : Z
}.

Record ReadyRegisterPressureCeiling : Set := mkCeiling {
  c_sgpr : Z;
  c_vgpr : Z;
  c_agpr : Z;
  c_vgprFamily : Z
}.

Record ReadyCandidateMetrics : Set := mkMetrics {
  pressureDelta : ReadyRegisterPressure;
  pressurePeakDelta : ReadyRegisterPressure;
  vgprFamilyPeakDelta : Z;
  pressureCeiling : ReadyRegisterPressureCeiling;
  autoDrainedNodes : Z
}.

Module ReadyPressureComparisonMode.
Inductive t : Set := None | CandidateOnly | Ordered.
#[global] Instance t_eq_dec : EqDecision t.
Proof. solve_decision. Defined.
End ReadyPressureComparisonMode.

Record ReadyRegisterPressureLimits : Set := mkLimits {
  l_sgpr : Z;
  l_vgpr : Z;
  l_agpr : Z;
  l_vgprFamily : Z;
  sgprAllocGranule : Z;
  l_vgprAllocGranule : Z;
  agprAllocGranule : Z
}.
Definition noLimits : ReadyRegisterPressureLimits := mkLimits 0 0 0 0 0 0 0.

Module ReadyResourceCandidateKind.
Inductive t : Set := None | StallFiller | Priority.
#[global] Instance t_eq_dec : EqDecision t.
Proof. solve_decision. Defined.
End ReadyResourceCandidateKind.

Record InstructionScheduleResourceInfo : Set := mkScheduleInfo {
  info_issueSlots : Z;
  info_releaseSlots : Z;
  info_functionalUnit : FunctionalUnit.t;
  info_realInstruction : bool;
  info_tracked : bool;
  info_usesMfmaCoissue : bool
}.

Record InstructionScheduleResourcePreview : Set := mkPreview {
  waitSlots : Z;
  releaseSlots : Z;
  preview_functionalUnit : FunctionalUnit.t
}.

Record InstructionStallFillerCompatibilityFacts : Set := mkCompatibility {
  candidateFunctionalUnit : FunctionalUnit.t;
  blockedMemoryResources : Z;
  candidateMemoryResources : Z;
  facts_stall : InstructionStallKind.t;
  usesMfmaCoissueResource_ : bool
}.

Record InstructionStallFillerFacts : Set := mkFillerFacts {
  issueDeadlineCycle : option Z;
  candidateRequiredCycle : Z;
  compatibility : InstructionStallFillerCompatibilityFacts;
  candidateRealInstruction : bool;
  candidateStalls : bool
}.

(** ** Slot-based resources *)

Definition tracksInstructionScheduleResource (unit : FunctionalUnit.t) : bool :=
  match unit with
  | FunctionalUnit.VALU | FunctionalUnit.SALU | FunctionalUnit.MFMA_XDL
  | FunctionalUnit.TRANS => true
  | _ => false
  end.

Definition getInstructionScheduleResourceInfo `{LLVMTarget} (op : Operation)
    (cls : SchedClass.t) (arch : ArchData) (wavefrontSize : Z) :
    outcome InstructionScheduleResourceInfo :=
  if decide (cls = SchedClass.NoInst)
  then Ok (mkScheduleInfo 0 0 FunctionalUnit.None false false false)
  else
    functionalUnit ← funit arch cls;
    issueSlots ← getInstructionIssueCount op (isa arch) wavefrontSize;
    let tracked := tracksInstructionScheduleResource functionalUnit in
    let usesMfmaCoissue := usesMfmaCoissueResource op cls arch in
    releaseSlots ← (if (tracked : bool)
                    then cycles ← getResourceCycles arch cls;
                         Ok (Z.max 1 cycles)
                    else Ok 0);
    Ok (mkScheduleInfo issueSlots releaseSlots functionalUnit true tracked
          usesMfmaCoissue).

(** [readyAt] is indexed by [FunctionalUnit.index]. *)
Record InstructionScheduleResourceState : Set := mkScheduleState {
  readyAt : list Z;
  currentSlot : Z;
  mfmaCoissueReadyAt : Z;
  trackMfmaCoissue : bool
}.

Definition makeScheduleResourceState (trackMfmaCoissue : bool) :
    InstructionScheduleResourceState :=
  mkScheduleState
    (replicate (FunctionalUnit.index FunctionalUnit.NumFunctionalUnits) 0)
    0 0 trackMfmaCoissue.

Definition preview (st : InstructionScheduleResourceState)
    (info : InstructionScheduleResourceInfo) :
    InstructionScheduleResourcePreview :=
  let functionalUnit := info_functionalUnit info in
  if negb (info_tracked info) then mkPreview 0 0 functionalUnit
  else
    let readySlot := nth (FunctionalUnit.index functionalUnit) (readyAt st) 0 in
    let readySlot :=
      if trackMfmaCoissue st && info_usesMfmaCoissue info
      then Z.max readySlot (mfmaCoissueReadyAt st) else readySlot in
    mkPreview (Z.max 0 (readySlot - currentSlot st)) (info_releaseSlots info)
      functionalUnit.

Definition commitSlot (st : InstructionScheduleResourceState)
    (info : InstructionScheduleResourceInfo) :
    InstructionScheduleResourceState :=
  if negb (info_realInstruction info) then st
  else
    let resource := preview st info in
    let issueSlot := currentSlot st + waitSlots resource in
    if negb (info_tracked info) then
      let currentSlot := issueSlot + info_issueSlots info in
      mkScheduleState (replicate (length (readyAt st)) currentSlot)
        currentSlot currentSlot (trackMfmaCoissue st)
    else
      let index := FunctionalUnit.index (preview_functionalUnit resource) in
      let releaseSlots := Z.max (releaseSlots resource) (info_issueSlots info) in
      mkScheduleState (<[index := issueSlot + releaseSlots]> (readyAt st))
        (issueSlot + info_issueSlots info)
        (if trackMfmaCoissue st && info_usesMfmaCoissue info
         then issueSlot + releaseSlots else mfmaCoissueReadyAt st)
        (trackMfmaCoissue st).

(** ** The model and the configuration *)

Record InstructionScheduleModel : Set := mkScheduleModel {
  pressureLimits : ReadyRegisterPressureLimits;
  ldsDmaIssueLead : Z;
  issueStreams : Z;
  readyPressureWaveCohort : Z
}.
Definition defaultScheduleModel : InstructionScheduleModel :=
  mkScheduleModel noLimits 0 1 1.

Record InstructionExecutionConfig : Set := mkConfig {
  calibration : option CalibrationData;
  counterLatencies : MemoryCounterLatencies;
  valueLatencies : MemoryValueLatencies;
  wavefrontSize : Z;
  issuePeriod : Z;
  enablePipeBackpressure : bool;
  smoothLdsDmaIssue : bool;
  ldsDmaIssueWaveStreams : Z;
  valuMaxInFlight : Z;
  saluMaxInFlight : Z;
  xdlMaxInFlight : Z;
  scheduleModel : InstructionScheduleModel;
  dmaIssueDelayCohortPolicy : DmaIssueDelayCohortPolicy.t
}.

Definition makeConfig (wavefrontSize : Z) : InstructionExecutionConfig :=
  mkConfig None defaultCounterLatencies defaultValueLatencies wavefrontSize 0
    false false 1 0 0 0 defaultScheduleModel DmaIssueDelayCohortPolicy.Delayed.

Definition configureInstructionScheduleModel `{LLVMTarget}
    (config : InstructionExecutionConfig) (arch : ArchData)
    (targetWaveCount readyPressureWaveCohort : Z)
    (limits : ReadyRegisterPressureLimits) :
    outcome InstructionExecutionConfig :=
  _ ← assertion ((0 <? targetWaveCount)
                 && (targetWaveCount <=? u32 (wavesPerSIMD arch))
                 && (0 <? readyPressureWaveCohort)) "invalid schedule cohorts";
  let period := if 0 <? issuePeriod config then issuePeriod config
                else Z.max 1 (simdIssuePeriod arch) in
  let lead :=
    if (0 <? ldsDmaIssueQueueDepth arch) && (0 <? ldsDmaIssueLatency arch)
    then let serviceInterval :=
           Z.quot (ldsDmaIssueLatency arch) (ldsDmaIssueQueueDepth arch) in
         Z.quot serviceInterval period * period
    else ldsDmaIssueLead (scheduleModel config) in
  Ok (mkConfig (calibration config) (counterLatencies config)
    (valueLatencies config) (wavefrontSize config) (issuePeriod config)
    (enablePipeBackpressure config) (targetWaveCount =? 1) targetWaveCount
    (valuMaxInFlight config) (saluMaxInFlight config) (xdlMaxInFlight config)
    (mkScheduleModel limits lead targetWaveCount readyPressureWaveCohort)
    (dmaIssueDelayCohortPolicy config)).

Definition requiresStrictBarrierTokenReorder (m : InstructionScheduleModel) :
    bool := issueStreams m =? 1.
Definition shouldBlockStallFillerMemoryResource (m : InstructionScheduleModel) :
    bool := issueStreams m =? 1.
Definition shouldPrioritizeSteadyStateProducer (m : InstructionScheduleModel) :
    bool := issueStreams m =? 1.

(** ** Register pressure of one candidate *)

Definition canUseReadyRegisterClass (current delta limit : Z) : bool :=
  if delta <=? 0 then true
  else negb (limit =? 0) && (current + delta <=? limit).

Definition getReadyRegisterPressureLimit (limit allocGranule : Z) : Z :=
  if allocGranule =? 0 then limit
  else let alignedLimit := limit - limit mod allocGranule in
       if allocGranule <? alignedLimit then alignedLimit - allocGranule else 0.

Definition getReadyRegisterPressureCeiling
    (limit allocGranule baseline : Z) : Z :=
  Z.max (getReadyRegisterPressureLimit limit allocGranule) baseline.

Definition familyGranule (limits : ReadyRegisterPressureLimits) : Z :=
  Z.max (l_vgprAllocGranule limits) (agprAllocGranule limits).

Definition canUseReadyCandidate (current : ReadyRegisterPressure)
    (candidate : ReadyCandidateMetrics)
    (limits : ReadyRegisterPressureLimits) : bool :=
  let ceiling := pressureCeiling candidate in
  let peak := pressurePeakDelta candidate in
  let sgprLimit := getReadyRegisterPressureCeiling (l_sgpr limits)
                     (sgprAllocGranule limits) (c_sgpr ceiling) in
  let vgprLimit := getReadyRegisterPressureCeiling (l_vgpr limits)
                     (l_vgprAllocGranule limits) (c_vgpr ceiling) in
  let agprLimit := getReadyRegisterPressureCeiling (l_agpr limits)
                     (agprAllocGranule limits) (c_agpr ceiling) in
  if negb (canUseReadyRegisterClass (p_sgpr current) (p_sgpr peak) sgprLimit)
  then false
  else if negb (canUseReadyRegisterClass (p_vgpr current) (p_vgpr peak)
                  vgprLimit)
          || negb (canUseReadyRegisterClass (p_agpr current) (p_agpr peak)
                     agprLimit)
  then false
  else if l_vgprFamily limits =? 0 then true
  else
    let familyLimit := getReadyRegisterPressureCeiling (l_vgprFamily limits)
                         (familyGranule limits) (c_vgprFamily ceiling) in
    canUseReadyRegisterClass (p_vgpr current + p_agpr current)
      (vgprFamilyPeakDelta candidate) familyLimit.

(** ** Stall fillers and priorities *)

(** [llvm::divideCeil] *)
Definition divideCeil (n d : Z) : Z := (n + d - 1) / d.

Definition shouldSelectResourceStallFiller (m : InstructionScheduleModel)
    (waitSlots releaseSlots : Z) (current : ReadyRegisterPressure)
    (next : ReadyCandidateMetrics) : bool :=
  if (issueStreams m <=? 1) || (waitSlots =? 0) then false
  else
    let siblingOverlap :=
      if (1 <? issueStreams m) && (1 <? releaseSlots) then
        if canUseReadyCandidate current next (pressureLimits m)
        then releaseSlots - divideCeil releaseSlots (issueStreams m)
        else Z.min (releaseSlots - 1) (issueStreams m - 1)
      else 0 in
    siblingOverlap <? waitSlots.

Definition canFillStall (stall : InstructionStallKind.t)
    (candidate : FunctionalUnit.t) (usesMfmaCoissueResource : bool) : bool :=
  if decide (stall <> InstructionStallKind.CoexecWindow) then true
  else bool_decide (candidate = FunctionalUnit.VALU)
       && negb usesMfmaCoissueResource.

Definition isStallFillerCompatible
    (facts : InstructionStallFillerCompatibilityFacts) : bool :=
  (Z.land (blockedMemoryResources facts) (candidateMemoryResources facts) =? 0)
  && canFillStall (facts_stall facts) (candidateFunctionalUnit facts)
       (usesMfmaCoissueResource_ facts).

Definition canSelectStallFiller (facts : InstructionStallFillerFacts) : bool :=
  if negb (candidateRealInstruction facts) || candidateStalls facts
     || negb (isStallFillerCompatible (compatibility facts))
  then false
  else match issueDeadlineCycle facts with
       | None => true
       | Some deadline => candidateRequiredCycle facts <=? deadline
       end.

Definition canIssueLdsDmaDuringLead (m : InstructionScheduleModel)
    (resourceWait : Z) (dependenciesReady : bool) : bool :=
  (1 <? issueStreams m) && negb (ldsDmaIssueLead m =? 0) && (0 <? resourceWait)
  && (resourceWait <=? ldsDmaIssueLead m) && dependenciesReady.

Definition shouldPrioritizeLongLatency (enabled : bool)
    (candidateLatency baselineLatency : Z) : bool :=
  enabled && (0 <? baselineLatency)
  && (10 * baselineLatency <? candidateLatency).

Definition shouldPrioritizeLatency (candidateLatency baselineLatency : Z) :
    bool :=
  (0 <? baselineLatency)
  && (2 * Z.max 1 baselineLatency <=? candidateLatency).

Definition classifyReadyResourceCandidate (blocked : FunctionalUnit.t)
    (waitSlots releaseSlots : Z) (candidate : FunctionalUnit.t)
    (candidateWaitSlots candidateReleaseSlots selectedReleaseSlots : Z) :
    ReadyResourceCandidateKind.t :=
  if (candidateReleaseSlots =? 0) || negb (candidateWaitSlots =? 0)
  then ReadyResourceCandidateKind.None
  else if negb (waitSlots =? 0) then ReadyResourceCandidateKind.StallFiller
  else if bool_decide (candidate = blocked)
          || (candidateReleaseSlots <=? releaseSlots)
          || (candidateReleaseSlots <=? selectedReleaseSlots)
  then ReadyResourceCandidateKind.None
  else ReadyResourceCandidateKind.Priority.

(** ** Pressure scores *)

Record ReadyRegisterPressureScore : Set := mkScore {
  maximum : Z;
  total : Z
}.

Definition kReadyPressureScoreScale : Z := Z.shiftl 1 20.

Definition addReadyRegisterPressureScore (pressure limit : Z)
    (score : ReadyRegisterPressureScore) : ReadyRegisterPressureScore :=
  if limit =? 0 then score
  else
    let used := u64 (Z.max pressure 0) in
    let normalized := u64 (used * kReadyPressureScoreScale) / limit in
    mkScore (Z.max (maximum score) normalized) (u64 (total score + normalized)).

Definition getReadyRegisterPressureScore (current : ReadyRegisterPressure)
    (candidate : ReadyCandidateMetrics)
    (limits : ReadyRegisterPressureLimits) : ReadyRegisterPressureScore :=
  let ceiling := pressureCeiling candidate in
  let delta := pressureDelta candidate in
  let sgprLimit := getReadyRegisterPressureCeiling (l_sgpr limits)
                     (sgprAllocGranule limits) (c_sgpr ceiling) in
  let vgprLimit := getReadyRegisterPressureCeiling (l_vgpr limits)
                     (l_vgprAllocGranule limits) (c_vgpr ceiling) in
  let agprLimit := getReadyRegisterPressureCeiling (l_agpr limits)
                     (agprAllocGranule limits) (c_agpr ceiling) in
  let score := addReadyRegisterPressureScore (p_sgpr current + p_sgpr delta)
                 sgprLimit (mkScore 0 0) in
  let addVgpr := addReadyRegisterPressureScore
                   (p_vgpr current + p_vgpr delta) vgprLimit in
  let addAgpr := addReadyRegisterPressureScore
                   (p_agpr current + p_agpr delta) agprLimit in
  if negb (l_vgprFamily limits =? 0) then
    let familyLimit := getReadyRegisterPressureCeiling (l_vgprFamily limits)
                         (familyGranule limits) (c_vgprFamily ceiling) in
    let score := addReadyRegisterPressureScore
                   (p_vgpr current + p_agpr current + p_vgpr delta
                    + p_agpr delta) familyLimit score in
    let score := if vgprLimit <? familyLimit then addVgpr score else score in
    if agprLimit <? familyLimit then addAgpr score else score
  else addAgpr (addVgpr score).

Definition improvesOverBudgetReadyRegisterClass
    (current candidateDelta selectedDelta limit allocGranule : Z) : bool :=
  if limit =? 0 then false
  else
    let selectedPressure := current + selectedDelta in
    (candidateDelta <? 0)
    && (getReadyRegisterPressureLimit limit allocGranule <? selectedPressure)
    && (current + candidateDelta <? selectedPressure).

Definition improvesOverBudgetReadyPressure (current : ReadyRegisterPressure)
    (candidate selected : ReadyCandidateMetrics)
    (limits : ReadyRegisterPressureLimits) : bool :=
  let c := pressureDelta candidate in
  let s := pressureDelta selected in
  if improvesOverBudgetReadyRegisterClass (p_sgpr current) (p_sgpr c)
       (p_sgpr s) (l_sgpr limits) (sgprAllocGranule limits)
  then true
  else if improvesOverBudgetReadyRegisterClass (p_vgpr current) (p_vgpr c)
            (p_vgpr s) (l_vgpr limits) (l_vgprAllocGranule limits)
          || improvesOverBudgetReadyRegisterClass (p_agpr current) (p_agpr c)
               (p_agpr s) (l_agpr limits) (agprAllocGranule limits)
  then true
  else if negb (l_vgprFamily limits =? 0)
  then improvesOverBudgetReadyRegisterClass (p_vgpr current + p_agpr current)
         (p_vgpr c + p_agpr c) (p_vgpr s + p_agpr s) (l_vgprFamily limits)
         (familyGranule limits)
  else false.

(** ** Candidates against a baseline *)

Definition canUseReadyRegisterClassAgainstBaseline
    (current candidatePeakDelta baselinePeakDelta limit allocGranule : Z) :
    bool :=
  let candidatePressure := current + candidatePeakDelta in
  let baselinePressure := current + baselinePeakDelta in
  candidatePressure
  <=? Z.max (getReadyRegisterPressureLimit limit allocGranule) baselinePressure.

Definition canUseReadyRegisterClassAgainstOriginalCeiling
    (current candidatePeakDelta baselinePeakDelta originalCeiling limit
     allocGranule : Z) : bool :=
  let candidatePressure := current + candidatePeakDelta in
  let baselinePressure := current + baselinePeakDelta in
  candidatePressure
  <=? Z.max (Z.max (getReadyRegisterPressureLimit limit allocGranule)
               originalCeiling) baselinePressure.

Definition canUseReadyVectorCandidateAgainstBaseline
    (current : ReadyRegisterPressure)
    (candidate baseline : ReadyCandidateMetrics)
    (limits : ReadyRegisterPressureLimits) : bool :=
  let c := pressurePeakDelta candidate in
  let b := pressurePeakDelta baseline in
  if negb (canUseReadyRegisterClassAgainstBaseline (p_vgpr current) (p_vgpr c)
             (p_vgpr b) (l_vgpr limits) (l_vgprAllocGranule limits))
     || negb (canUseReadyRegisterClassAgainstBaseline (p_agpr current)
                (p_agpr c) (p_agpr b) (l_agpr limits)
                (agprAllocGranule limits))
  then false
  else if negb (l_vgprFamily limits =? 0)
  then canUseReadyRegisterClassAgainstBaseline (p_vgpr current + p_agpr current)
         (vgprFamilyPeakDelta candidate) (vgprFamilyPeakDelta baseline)
         (l_vgprFamily limits) (familyGranule limits)
  else true.

Definition canUseReadyCandidateAgainstBaseline
    (current : ReadyRegisterPressure)
    (candidate baseline : ReadyCandidateMetrics)
    (limits : ReadyRegisterPressureLimits) : bool :=
  if negb (canUseReadyRegisterClassAgainstBaseline (p_sgpr current)
             (p_sgpr (pressurePeakDelta candidate))
             (p_sgpr (pressurePeakDelta baseline)) (l_sgpr limits)
             (sgprAllocGranule limits))
  then false
  else canUseReadyVectorCandidateAgainstBaseline current candidate baseline
         limits.

Definition canUseReadySGPRCandidateOrder (current : ReadyRegisterPressure)
    (candidateThenBaseline baselineThenCandidate baseline :
       ReadyCandidateMetrics) (limit : Z) : bool :=
  if negb (canUseReadyRegisterClassAgainstBaseline (p_sgpr current)
             (p_sgpr (pressurePeakDelta candidateThenBaseline))
             (p_sgpr (pressurePeakDelta baselineThenCandidate)) limit 0)
  then false
  else (autoDrainedNodes candidateThenBaseline <=? autoDrainedNodes baseline)
       || canUseReadyRegisterClassAgainstBaseline (p_sgpr current)
            (p_sgpr (pressurePeakDelta candidateThenBaseline))
            (p_sgpr (pressurePeakDelta baseline)) limit 0.

Definition raisesOverBudgetReadyRegisterClass
    (ceiling peakDelta limit allocGranule : Z) : bool :=
  (getReadyRegisterPressureLimit limit allocGranule <? ceiling)
  && (0 <? peakDelta).

(** ** Comparisons between a candidate and the selected one *)

Definition shouldPreferSingleWaveReadyPressureOrdered `{LLVMTarget}
    (current : ReadyRegisterPressure)
    (candidate candidateThenSelected selectedThenCandidate selected :
       ReadyCandidateMetrics) (sgprLimit : Z) : outcome bool :=
  let selectedPeak := p_sgpr current + p_sgpr (pressurePeakDelta selected) in
  _ ← assertion (negb (sgprLimit =? 0) && (sgprLimit <? selectedPeak))
        "ordered ready-pressure comparison requires over-limit SGPRs";
  Ok (if negb (canUseReadySGPRCandidateOrder current candidateThenSelected
                 selectedThenCandidate selected sgprLimit)
      then false
      else
        let cPeak := p_sgpr (pressurePeakDelta candidate) in
        let sPeak := p_sgpr (pressurePeakDelta selected) in
        if negb (cPeak =? sPeak) then cPeak <? sPeak
        else p_sgpr (pressureDelta candidate)
             <? p_sgpr (pressureDelta selected)).

Definition reserveReadyPressure (candidate selected : ReadyCandidateMetrics) :
    ReadyCandidateMetrics :=
  let cd := pressureDelta candidate in
  let sd := pressureDelta selected in
  let cp := pressurePeakDelta candidate in
  let sp := pressurePeakDelta selected in
  let candidateFinalFamily := p_vgpr cd + p_agpr cd in
  mkMetrics
    (mkPressure (p_sgpr cd + Z.max 0 (p_sgpr sd))
       (p_vgpr cd + Z.max 0 (p_vgpr sd))
       (p_agpr cd + Z.max 0 (p_agpr sd)))
    (mkPressure (Z.max (p_sgpr cp) (p_sgpr cd + p_sgpr sp))
       (Z.max (p_vgpr cp) (p_vgpr cd + p_vgpr sp))
       (Z.max (p_agpr cp) (p_agpr cd + p_agpr sp)))
    (Z.max (vgprFamilyPeakDelta candidate)
       (candidateFinalFamily + vgprFamilyPeakDelta selected))
    (pressureCeiling candidate) (autoDrainedNodes candidate).

Definition getOverBudgetReadyBalancePreference
    (current : ReadyRegisterPressure)
    (candidate selected : ReadyCandidateMetrics)
    (candidatePressure selectedPressure : ReadyRegisterPressureScore)
    (limits : ReadyRegisterPressureLimits) (bothFit : bool) : option bool :=
  if negb bothFit
     || negb (improvesOverBudgetReadyPressure current candidate selected limits)
  then None
  else
    let sgprLimit := getReadyRegisterPressureLimit (l_sgpr limits)
                       (sgprAllocGranule limits) in
    let balance score :=
      if sgprLimit <? p_sgpr current
      then u64 (total score + maximum score) else total score in
    let candidateBalance := balance candidatePressure in
    let selectedBalance := balance selectedPressure in
    if candidateBalance =? selectedBalance then None
    else Some (candidateBalance <? selectedBalance).

Definition shouldPreferMultiWaveReadyPressure (current : ReadyRegisterPressure)
    (candidate selected : ReadyCandidateMetrics)
    (limits : ReadyRegisterPressureLimits) : bool :=
  let reserved := reserveReadyPressure candidate selected in
  let candidateFits := canUseReadyCandidate current reserved limits in
  let selectedFits := canUseReadyCandidate current selected limits in
  if negb (eqb candidateFits selectedFits) then candidateFits
  else
    let candidatePressure :=
      getReadyRegisterPressureScore current reserved limits in
    let selectedPressure :=
      getReadyRegisterPressureScore current selected limits in
    match getOverBudgetReadyBalancePreference current candidate selected
            candidatePressure selectedPressure limits
            (candidateFits && selectedFits) with
    | Some balance => balance
    | None => maximum candidatePressure <? maximum selectedPressure
    end.

Definition getReadyPressureComparisonMode (m : InstructionScheduleModel)
    (current : ReadyRegisterPressure) (selected : ReadyCandidateMetrics) :
    ReadyPressureComparisonMode.t :=
  if 1 <? issueStreams m then ReadyPressureComparisonMode.CandidateOnly
  else
    let selectedPeak := p_sgpr current + p_sgpr (pressurePeakDelta selected) in
    if (l_sgpr (pressureLimits m) =? 0)
       || (selectedPeak <=? l_sgpr (pressureLimits m))
    then ReadyPressureComparisonMode.None
    else ReadyPressureComparisonMode.Ordered.

Definition shouldPreferReadyPressureCandidateOnly `{LLVMTarget}
    (m : InstructionScheduleModel) (current : ReadyRegisterPressure)
    (candidate selected : ReadyCandidateMetrics) : outcome bool :=
  _ ← assertion (1 <? issueStreams m)
        "candidate-only ready-pressure comparison requires multiple streams";
  Ok (shouldPreferMultiWaveReadyPressure current candidate selected
        (pressureLimits m)).

Definition shouldPreferReadyPressureOrdered `{LLVMTarget}
    (m : InstructionScheduleModel) (current : ReadyRegisterPressure)
    (candidate candidateThenSelected selectedThenCandidate selected :
       ReadyCandidateMetrics) : outcome bool :=
  _ ← assertion (issueStreams m <=? 1)
        "ordered ready-pressure comparison requires one stream";
  shouldPreferSingleWaveReadyPressureOrdered current candidate
    candidateThenSelected selectedThenCandidate selected
    (l_sgpr (pressureLimits m)).

(** ** Selection *)

Definition canSelectReadyCandidate (m : InstructionScheduleModel)
    (current : ReadyRegisterPressure)
    (candidateThenBaseline baseline : ReadyCandidateMetrics) : bool :=
  if issueStreams m <=? 1
  then canUseReadyRegisterClassAgainstBaseline (p_sgpr current)
         (p_sgpr (pressurePeakDelta candidateThenBaseline))
         (p_sgpr (pressurePeakDelta baseline)) (l_sgpr (pressureLimits m)) 0
  else if negb (canUseReadyCandidate current candidateThenBaseline
                  (pressureLimits m))
  then false
  else canUseReadyCandidateAgainstBaseline current candidateThenBaseline
         baseline (pressureLimits m).

Definition canSelectReadyFullPrefix (m : InstructionScheduleModel)
    (current : ReadyRegisterPressure)
    (candidateThenBaseline baseline : ReadyCandidateMetrics) : bool :=
  let limits := pressureLimits m in
  let c := pressurePeakDelta candidateThenBaseline in
  let b := pressurePeakDelta baseline in
  let ceiling := pressureCeiling candidateThenBaseline in
  if negb (canUseReadyRegisterClassAgainstOriginalCeiling (p_sgpr current)
             (p_sgpr c) (p_sgpr b) (c_sgpr ceiling) (l_sgpr limits)
             (sgprAllocGranule limits))
  then false
  else if negb (canUseReadyRegisterClassAgainstOriginalCeiling (p_vgpr current)
                  (p_vgpr c) (p_vgpr b) (c_vgpr ceiling) (l_vgpr limits)
                  (l_vgprAllocGranule limits))
          || negb (canUseReadyRegisterClassAgainstOriginalCeiling
                     (p_agpr current) (p_agpr c) (p_agpr b) (c_agpr ceiling)
                     (l_agpr limits) (agprAllocGranule limits))
  then false
  else if l_vgprFamily limits =? 0 then true
  else canUseReadyRegisterClassAgainstOriginalCeiling
         (p_vgpr current + p_agpr current)
         (vgprFamilyPeakDelta candidateThenBaseline)
         (vgprFamilyPeakDelta baseline) (c_vgprFamily ceiling)
         (l_vgprFamily limits) (familyGranule limits).

Definition canSelectReadyStallFiller (m : InstructionScheduleModel)
    (current : ReadyRegisterPressure)
    (candidate candidateThenBaseline baseline : ReadyCandidateMetrics)
    (hasReorderedPrefix : bool) : bool :=
  let limits := pressureLimits m in
  let candidateSgprPeak :=
    p_sgpr current + p_sgpr (pressurePeakDelta candidate) in
  if hasReorderedPrefix && negb (l_sgpr limits =? 0)
     && (getReadyRegisterPressureLimit (l_sgpr limits)
           (sgprAllocGranule limits) <? candidateSgprPeak)
     && (0 <? p_sgpr (pressureDelta candidate))
  then false
  else if negb (canSelectReadyCandidate m current candidateThenBaseline
                  baseline)
  then false
  else (1 <? issueStreams m)
       || canUseReadyVectorCandidateAgainstBaseline current
            candidateThenBaseline baseline limits.

Definition canSelectReadyFiller (m : InstructionScheduleModel)
    (current : ReadyRegisterPressure)
    (candidate candidateThenBaseline baseline : ReadyCandidateMetrics) : bool :=
  let limits := pressureLimits m in
  let ceiling := pressureCeiling candidate in
  if readyPressureWaveCohort m <=? 1
  then canSelectReadyCandidate m current candidateThenBaseline baseline
  else if raisesOverBudgetReadyRegisterClass (c_sgpr ceiling)
            (p_sgpr (pressurePeakDelta candidate)) (l_sgpr limits)
            (sgprAllocGranule limits)
          && (0 <=? p_sgpr (pressureDelta candidate))
  then false
  else if negb (l_vgprFamily limits =? 0)
          && raisesOverBudgetReadyRegisterClass (c_vgprFamily ceiling)
               (vgprFamilyPeakDelta candidate) (l_vgprFamily limits)
               (familyGranule limits)
  then false
  else canSelectReadyCandidate m current candidateThenBaseline baseline.

Definition shouldPreferReadyFiller (m : InstructionScheduleModel)
    (current : ReadyRegisterPressure)
    (candidate selected : ReadyCandidateMetrics) : bool :=
  let limits := pressureLimits m in
  if readyPressureWaveCohort m <=? 1 then false
  else
    let family metrics := p_vgpr (pressureDelta metrics)
                          + p_agpr (pressureDelta metrics) in
    if negb (l_vgprFamily limits =? 0)
       && negb (family candidate =? family selected)
    then family candidate <? family selected
    else
      let candidatePressure :=
        getReadyRegisterPressureScore current candidate limits in
      let selectedPressure :=
        getReadyRegisterPressureScore current selected limits in
      if negb (maximum candidatePressure =? maximum selectedPressure)
      then maximum candidatePressure <? maximum selectedPressure
      else false.
