(* ===== verification/ResourceState.v ===== *)
(** * Shared issue resources ([InstructionResourceState.h], [.cpp])

    Calendars of reservations for the issue ports and pipes that the waves of
    a compute unit share: one domain per SIMD, per SIMD pair and per compute
    unit.  [query] finds the cycle at which a set of uses fits; [commit]
    enters the uses of an issued instruction. *)

From stdpp Require Import base tactics list sorting strings.
From S2P Require Import Prelude CostEnums ArchData.

Module K := InstructionResourceKind.
Module Sc := InstructionResourceScope.

Record WavePlacement : Set := mkWavePlacement { simd : nat; slot : nat }.
#[export] Instance WavePlacement_eq_dec : EqDecision WavePlacement.
Proof. solve_decision. Defined.

Record InstructionResourceUse : Set := mkUse {
  use_kind : K.t;
  use_scope : Sc.t;
  use_units : Z;
  use_count : Z;
  use_offset : Z;
  use_period : Z;
  use_duration : Z
}.

Record InstructionResourceCapacities : Set := mkCapacities {
  cap_valuPipe : Z;
  cap_saluPipe : Z;
  cap_xdlPipe : Z
}.

Record InstructionResourceQuery : Set := mkQuery {
  readyCycle : Z;
  query_kind : K.t;
  query_scope : Sc.t
}.

Record Reservation : Set := mkReservation { begin : Z; rend : Z; units : Z }.

Record ResourceCalendar : Set := mkCalendar {
  reservations : list Reservation;
  capacity : Z
}.

Record InstructionResourceState : Set := mkResourceState {
  simdResources : list (list ResourceCalendar);
  simdPairResources : list (list ResourceCalendar);
  cuResources : list ResourceCalendar;
  lastCommittedCycle : Z;
  waveCount : nat
}.

Definition kSIMDResourceCount : nat := 5.
Definition kSIMDPairResourceCount : nat := 2.
Definition kCUResourceCount : nat := 1.

(** ** Resource kinds *)

(** Kinds in the order of their index, without [None] and the
    [NumResources] count: the order of the loops over [kResourceCount]. *)
Definition resourceKinds : list K.t :=
  [K.SimdIssue; K.CuIssue; K.ValuPipe; K.SaluPipe; K.XdlPipe; K.MfmaCoissue;
   K.LdsIssue; K.LdsDmaIssue].

Definition simdResourceIndex (kind : K.t) : outcome nat :=
  match kind with
  | K.SimdIssue => Ok 0%nat
  | K.ValuPipe => Ok 1%nat
  | K.SaluPipe => Ok 2%nat
  | K.XdlPipe => Ok 3%nat
  | K.MfmaCoissue => Ok 4%nat
  | _ => Fatal "resource is not SIMD-scoped"
  end.

Definition simdPairResourceIndex (kind : K.t) : outcome nat :=
  match kind with
  | K.LdsIssue => Ok 0%nat
  | K.LdsDmaIssue => Ok 1%nat
  | _ => Fatal "resource is not SIMD-pair-scoped"
  end.

Definition cuResourceIndex (kind : K.t) : outcome nat :=
  match kind with
  | K.CuIssue => Ok 0%nat
  | _ => Fatal "resource is not CU-scoped"
  end.

Definition getInstructionResourceScopeName (scope : Sc.t) : string :=
  match scope with
  | Sc.Wave => "wave"
  | Sc.SIMD => "simd"
  | Sc.SIMDPair => "simd_pair"
  | Sc.CU => "cu"
  end.

Definition getInstructionResourceKindName (kind : K.t) : outcome string :=
  match kind with
  | K.None => Ok "none"
  | K.SimdIssue => Ok "simd_issue"
  | K.CuIssue => Ok "cu_issue"
  | K.ValuPipe => Ok "valu_pipe"
  | K.SaluPipe => Ok "salu_pipe"
  | K.XdlPipe => Ok "xdl_pipe"
  | K.MfmaCoissue => Ok "mfma_coissue"
  | K.LdsIssue => Ok "lds_issue"
  | K.LdsDmaIssue => Ok "lds_dma_issue"
  | K.NumResources => Fatal "resource kind out of range"
  end.

Definition getInstructionResourceScope (kind : K.t) : outcome Sc.t :=
  match kind with
  | K.None => Ok Sc.Wave
  | K.SimdIssue => Ok Sc.SIMD
  | K.CuIssue => Ok Sc.CU
  | K.ValuPipe => Ok Sc.SIMD
  | K.SaluPipe => Ok Sc.SIMD
  | K.XdlPipe => Ok Sc.SIMD
  | K.MfmaCoissue => Ok Sc.SIMD
  | K.LdsIssue => Ok Sc.SIMDPair
  | K.LdsDmaIssue => Ok Sc.SIMDPair
  | K.NumResources => Fatal "resource kind out of range"
  end.

(** ** Access to a calendar *)

Definition getCalendar (st : InstructionResourceState)
    (placement : WavePlacement) (kind : K.t) : outcome ResourceCalendar :=
  scope ← getInstructionResourceScope kind;
  match scope with
  | Sc.Wave => Fatal "no wave-scoped issue resource"
  | Sc.SIMD =>
      domain ← at_index (simdResources st) (simd placement);
      i ← simdResourceIndex kind; at_index domain i
  | Sc.SIMDPair =>
      domain ← at_index (simdPairResources st) (simd placement / 2);
      i ← simdPairResourceIndex kind; at_index domain i
  | Sc.CU => i ← cuResourceIndex kind; at_index (cuResources st) i
  end.

(** Assignment through the reference that the non-const [getCalendar]
    returns; the caller has obtained the reference. *)
Definition updateCalendar (f : ResourceCalendar -> ResourceCalendar)
    (placement : WavePlacement) (kind : K.t) (st : InstructionResourceState) :
    outcome InstructionResourceState :=
  scope ← getInstructionResourceScope kind;
  match scope with
  | Sc.Wave => Fatal "no wave-scoped issue resource"
  | Sc.SIMD =>
      i ← simdResourceIndex kind;
      Ok (mkResourceState (alter (alter f i) (simd placement) (simdResources st))
            (simdPairResources st) (cuResources st)
            (lastCommittedCycle st) (waveCount st))
  | Sc.SIMDPair =>
      i ← simdPairResourceIndex kind;
      Ok (mkResourceState (simdResources st)
            (alter (alter f i) (simd placement / 2)%nat (simdPairResources st))
            (cuResources st) (lastCommittedCycle st) (waveCount st))
  | Sc.CU =>
      i ← cuResourceIndex kind;
      Ok (mkResourceState (simdResources st) (simdPairResources st)
            (alter f i (cuResources st))
            (lastCommittedCycle st) (waveCount st))
  end.

(** ** Construction *)

Definition setCapacity (c : Z) (cal : ResourceCalendar) : ResourceCalendar :=
  mkCalendar (reservations cal) c.

Definition configure (kind : K.t) (c : Z) (st : InstructionResourceState) :
    outcome InstructionResourceState :=
  scope ← getInstructionResourceScope kind;
  match scope with
  | Sc.Wave => Fatal "no wave-scoped issue resource"
  | Sc.SIMD =>
      i ← simdResourceIndex kind;
      Ok (mkResourceState (alter (setCapacity c) i <$> simdResources st)
            (simdPairResources st) (cuResources st)
            (lastCommittedCycle st) (waveCount st))
  | Sc.SIMDPair =>
      i ← simdPairResourceIndex kind;
      Ok (mkResourceState (simdResources st)
            (alter (setCapacity c) i <$> simdPairResources st)
            (cuResources st) (lastCommittedCycle st) (waveCount st))
  | Sc.CU =>
      i ← cuResourceIndex kind;
      Ok (mkResourceState (simdResources st) (simdPairResources st)
            (alter (setCapacity c) i (cuResources st))
            (lastCommittedCycle st) (waveCount st))
  end.

Definition emptyCalendar : ResourceCalendar := mkCalendar [] 0.

Definition makeResourceState `{LLVMTarget} (arch : ArchData) (waveCount : nat)
    (capacities : InstructionResourceCapacities) :
    outcome InstructionResourceState :=
  _ ← assertion (0 <? waveCount)%nat "resource state needs one wave";
  _ ← assertion (0 <? simdsPerCU arch) "resource state needs one SIMD";
  _ ← assertion (Z.rem (simdsPerCU arch) 2 =? 0)
        "resource state needs SIMD pairs";
  let st := mkResourceState
    (replicate (Z.to_nat (simdsPerCU arch))
       (replicate kSIMDResourceCount emptyCalendar))
    (replicate (Z.to_nat (Z.quot (simdsPerCU arch) 2))
       (replicate kSIMDPairResourceCount emptyCalendar))
    (replicate kCUResourceCount emptyCalendar) 0 waveCount in
  st ← configure K.SimdIssue (u32 (simdIssueWidth arch)) st;
  st ← configure K.CuIssue (u32 (issuesPerCUPerCycle arch)) st;
  st ← configure K.ValuPipe (cap_valuPipe capacities) st;
  st ← configure K.SaluPipe (cap_saluPipe capacities) st;
  st ← configure K.XdlPipe (cap_xdlPipe capacities) st;
  st ← configure K.MfmaCoissue
         (if hasMfmaCoissueRestriction arch then 1 else 0) st;
  st ← configure K.LdsIssue (if ldsIssuePeriod arch =? 0 then 0 else 1) st;
  configure K.LdsDmaIssue (if ldsDmaIssuePeriod arch =? 0 then 0 else 1) st.

Definition isEnabled (st : InstructionResourceState) (kind : K.t) :
    outcome bool :=
  if decide (kind = K.None \/ kind = K.NumResources) then Ok false
  else cal ← getCalendar st (mkWavePlacement 0 0) kind;
       Ok (negb (capacity cal =? 0)).

(** ** Reservations of a use *)

(** [llvm::seq<unsigned>(0, count)] *)
Definition issueSeq (count : Z) : list Z := seqZ 0 count.

Definition useOffset (use : InstructionResourceUse) (index : Z) : Z :=
  saturatingAdd (use_offset use) (saturatingMultiply index (use_period use)).

Definition appendReservations (use : InstructionResourceUse)
    (issueCycle : Z) : list Reservation :=
  if decide (use_kind use = K.None \/ use_count use = 0 \/ use_units use = 0
             \/ use_duration use <= 0)
  then []
  else (fun index =>
          let begin := saturatingAdd issueCycle (useOffset use index) in
          mkReservation begin (saturatingAdd begin (use_duration use))
            (use_units use))
       <$> issueSeq (use_count use).

Definition hasReservation (use : InstructionResourceUse) : bool :=
  bool_decide (use_kind use <> K.None) && (0 <? use_duration use)
  && negb (use_count use =? 0) && negb (use_units use =? 0).

(** [additions[resourceIndex(kind)]] after the loop over the uses. *)
Definition additions (uses : list InstructionResourceUse) (cycle : Z)
    (kind : K.t) : list Reservation :=
  uses ≫= fun use =>
    if decide (use_kind use = kind) then appendReservations use cycle else [].

(** ** The capacity test *)

Record ReservationEvent : Set := mkEvent { cycle : Z; delta : Z }.

Definition event_le (lhs rhs : ReservationEvent) : Prop :=
  cycle lhs <= cycle rhs.
#[export] Instance event_le_dec : RelDecision event_le.
Proof. intros x y. unfold event_le. apply _. Defined.

Definition reservationEvents (rs : list Reservation) : list ReservationEvent :=
  rs ≫= fun r => [mkEvent (begin r) (units r); mkEvent (rend r) (- units r)].

(** The two nested loops of [canReserve]: [delta] gathers the events of one
    [cycle]; when the cycle changes, [active] is updated and tested. *)
Fixpoint sweepGroup (capacity active cyc delta_ : Z)
    (events : list ReservationEvent) : bool :=
  match events with
  | [] => active + delta_ <=? capacity
  | e :: events' =>
      if cycle e =? cyc
      then sweepGroup capacity active cyc (delta_ + delta e) events'
      else if capacity <? active + delta_ then false
      else sweepGroup capacity (active + delta_) (cycle e) (delta e) events'
  end.

Definition sweep (capacity : Z) (events : list ReservationEvent) : bool :=
  match events with
  | [] => true
  | e :: events' => sweepGroup capacity 0 (cycle e) (delta e) events'
  end.

Definition canReserve (calendar : ResourceCalendar) (rs : list Reservation) :
    bool :=
  match rs with
  | [] => true
  | _ => if capacity calendar =? 0 then false
         else sweep (capacity calendar)
                (merge_sort event_le
                   (reservationEvents (reservations calendar)
                    ++ reservationEvents rs))
  end.

Arguments canReserve : simpl never.

(** ** [query] *)

Definition validateUses (st : InstructionResourceState)
    (uses : list InstructionResourceUse) : outcome unit :=
  foldM (fun _ use =>
    if negb (hasReservation use) then Ok tt
    else scope ← getInstructionResourceScope (use_kind use);
         if decide (use_scope use <> scope) then Failure
         else enabled ← isEnabled st (use_kind use);
              if (enabled : bool) then Ok tt else Failure) tt uses.

Definition useCandidates (calendar : ResourceCalendar) (initialCycle : Z)
    (use : InstructionResourceUse) : list Z :=
  issueSeq (use_count use) ≫= fun index =>
    let offset := useOffset use index in
    reservations calendar ≫= fun r =>
      if rend r <=? offset then []
      else if initialCycle <? rend r - offset then [rend r - offset] else [].

(** [std::unique] on a sorted range. *)
Fixpoint unique (l : list Z) : list Z :=
  match l with
  | [] => []
  | x :: l' => match l' with
               | y :: _ => if x =? y then unique l' else x :: unique l'
               | [] => [x]
               end
  end.

Definition getCandidateCycles (st : InstructionResourceState)
    (placement : WavePlacement) (uses : list InstructionResourceUse)
    (initialCycle : Z) : outcome (list Z) :=
  candidates ← foldM (fun candidates use =>
    if negb (hasReservation use) then Ok candidates
    else calendar ← getCalendar st placement (use_kind use);
         Ok (candidates ++ useCandidates calendar initialCycle use))
    [initialCycle] uses;
  Ok (unique (merge_sort Z.le candidates)).

(** [canReserveAt]: [None] when every kind fits, else the blocked kind. *)
Fixpoint canReserveAtKinds (st : InstructionResourceState)
    (placement : WavePlacement) (uses : list InstructionResourceUse)
    (cycle : Z) (kinds : list K.t) : outcome (option K.t) :=
  match kinds with
  | [] => Ok None
  | kind :: kinds' =>
      match additions uses cycle kind with
      | [] => canReserveAtKinds st placement uses cycle kinds'
      | rs => calendar ← getCalendar st placement kind;
              if canReserve calendar rs
              then canReserveAtKinds st placement uses cycle kinds'
              else Ok (Some kind)
      end
  end.

Definition canReserveAt (st : InstructionResourceState)
    (placement : WavePlacement) (uses : list InstructionResourceUse)
    (cycle : Z) : outcome (option K.t) :=
  canReserveAtKinds st placement uses cycle resourceKinds.

(** The loop over the candidates; [blocked] is the in-out pair
    [blockedKind], [blockedScope]. *)
Fixpoint tryCandidates (st : InstructionResourceState)
    (placement : WavePlacement) (uses : list InstructionResourceUse)
    (blockedKind : K.t) (blockedScope : Sc.t) (candidates : list Z) :
    outcome InstructionResourceQuery :=
  match candidates with
  | [] => Failure
  | candidate :: candidates' =>
      blocked ← canReserveAt st placement uses candidate;
      match blocked with
      | None => Ok (mkQuery candidate blockedKind blockedScope)
      | Some kind =>
          scope ← getInstructionResourceScope kind;
          tryCandidates st placement uses kind scope candidates'
      end
  end.

Definition query `{LLVMTarget} (st : InstructionResourceState)
    (placement : WavePlacement) (uses : list InstructionResourceUse)
    (earliestCycle : Z) : outcome InstructionResourceQuery :=
  _ ← assertion (0 <=? earliestCycle) "earliest cycle below zero";
  if negb (existsb hasReservation uses)
  then Ok (mkQuery earliestCycle K.None Sc.Wave)
  else
    _ ← validateUses st uses;
    let initialCycle := Z.max earliestCycle (lastCommittedCycle st) in
    candidates ← getCandidateCycles st placement uses initialCycle;
    let blockedKind :=
      if earliestCycle <? lastCommittedCycle st then K.CuIssue else K.None in
    blockedScope ← getInstructionResourceScope blockedKind;
    tryCandidates st placement uses blockedKind blockedScope candidates.

(** ** [commit] *)

Definition pruneCalendar (cycle : Z) (cal : ResourceCalendar) :
    ResourceCalendar :=
  mkCalendar (base.filter (fun r => ~ rend r <= cycle) (reservations cal))
    (capacity cal).

Definition prune (cycle : Z) (st : InstructionResourceState) :
    InstructionResourceState :=
  mkResourceState
    ((fun domain : list ResourceCalendar => pruneCalendar cycle <$> domain)
       <$> simdResources st)
    ((fun domain : list ResourceCalendar => pruneCalendar cycle <$> domain)
       <$> simdPairResources st)
    (pruneCalendar cycle <$> cuResources st)
    (lastCommittedCycle st) (waveCount st).

Definition addReservations (rs : list Reservation) (cal : ResourceCalendar) :
    ResourceCalendar :=
  mkCalendar (reservations cal ++ rs) (capacity cal).

Definition commitKind `{LLVMTarget} (placement : WavePlacement)
    (uses : list InstructionResourceUse) (issueCycle : Z)
    (st : InstructionResourceState) (kind : K.t) :
    outcome InstructionResourceState :=
  match additions uses issueCycle kind with
  | [] => Ok st
  | rs =>
      calendar ← getCalendar st placement kind;
      _ ← assertion (canReserve calendar rs)
            "committed resource use exceeds capacity";
      updateCalendar (addReservations rs) placement kind st
  end.

Definition setLastCommitted (cycle : Z) (st : InstructionResourceState) :
    InstructionResourceState :=
  mkResourceState (simdResources st) (simdPairResources st) (cuResources st)
    cycle (waveCount st).

Definition commit `{LLVMTarget} (st : InstructionResourceState)
    (placement : WavePlacement) (uses : list InstructionResourceUse)
    (issueCycle : Z) : outcome InstructionResourceState :=
  _ ← assertion (lastCommittedCycle st <=? issueCycle)
        "resource timeline moved back";
  st ← foldM (commitKind placement uses issueCycle) (prune issueCycle st)
         resourceKinds;
  Ok (setLastCommitted issueCycle st).

Definition getActiveReservationCount (st : InstructionResourceState)
    (kind : K.t) (placement : WavePlacement) (cycle : Z) : outcome Z :=
  enabled ← isEnabled st kind;
  if negb enabled then Ok 0
  else calendar ← getCalendar st placement kind;
       Ok (Z.of_nat (length (base.filter
             (fun r => begin r <= cycle /\ rend r > cycle)
             (reservations calendar)))).
