(* ===== verification/ExecState.v ===== *)
(** * Single-wave issue state ([InstructionExecutionState.h], [.cpp])

    The timing state of one wave: when every value is ready, which memory
    events are pending on which counter, the queues of the pipes and of the
    memory issue resources, the issue-slot hazards of produced registers and
    the gaps armed by M0 writes and wide stores.  [describe] summarises an
    operation, [query] lists the stalls it would meet, [commit] issues it.

    Event identifiers, 64-bit in the code, are unbounded ([N]). *)

From stdpp Require Import base tactics list gmap sorting strings.
From S2P Require Import Prelude CostEnums ArchData MachineIR LatencyTable.
From S2P Require Import OpClassifier MemoryTiming ScheduleModel.
From S2P Require Import ResourceState.

(** ** Static data of the targets *)

Definition isCDNA3Or4 (isa : IsaVersion) : bool :=
  (Major isa =? 9) && ((Minor isa =? 4) || (Minor isa =? 5)).

Definition isCDNA4 (isa : IsaVersion) : bool :=
  (Major isa =? 9) && (Minor isa =? 5).

Record InstructionIssueSlotHazardConfig : Set := mkHazardConfig {
  cfg_valuWriteVGPRScalarRead : Z;
  cfg_valuWriteVGPRMfmaRead : Z;
  cfg_valuWriteVGPRPermlane32Swap : Z;
  cfg_valuWriteSGPRValuRead : Z;
  cfg_transWriteVGPRValuRead : Z
}.

Definition hazardConfigEmpty (c : InstructionIssueSlotHazardConfig) : bool :=
  (cfg_valuWriteVGPRScalarRead c =? 0) && (cfg_valuWriteVGPRMfmaRead c =? 0)
  && (cfg_valuWriteVGPRPermlane32Swap c =? 0)
  && (cfg_valuWriteSGPRValuRead c =? 0) && (cfg_transWriteVGPRValuRead c =? 0).

Definition getValuWriteVGPRMfmaHazardLatency : Z := 2.

Definition getInstructionIssueSlotHazardConfig (isa : IsaVersion) :
    InstructionIssueSlotHazardConfig :=
  if isCDNA3Or4 isa
  then mkHazardConfig 1 getValuWriteVGPRMfmaHazardLatency
         (if permlane32SwapSupported isa then 2 else 0) 2 1
  else mkHazardConfig 0 0 0 0 0.

Definition getXdlResultHazardLatency (isa : IsaVersion) (passes : Z) : Z :=
  if (Major isa =? 9) && (Minor isa =? 4) then u32 (passes + 3)
  else if (Major isa =? 9) && (Minor isa =? 5)
  then u32 (passes + 3 + (if passes =? 2 then 0 else 1))
  else 8.

Definition getXdlSrcCOverlapHazardLatency (isa : IsaVersion) (passes : Z) : Z :=
  if (Major isa =? 9) && (Minor isa =? 4) then u32 (passes + 1)
  else if (Major isa =? 9) && (Minor isa =? 5) then u32 (passes + 2)
  else 6.

Definition getXdlSrcCExactHazardLatency (isa : IsaVersion) (passes : Z) : Z :=
  if (Major isa =? 9) && ((Minor isa =? 4) || (Minor isa =? 5))
     && (passes =? 2)
  then 2 else 0.

Definition isInstructionExecutionStateArchSupported `{LLVMTarget}
    (isa : IsaVersion) : bool :=
  isaEq isa (mkIsaVersion 9 4 2) || isaEq isa (mkIsaVersion 9 5 0)
  || (Major isa =? 11) || isaEq isa getGfx1250IsaVersion.

(** ** Operations as the hazard rules see them *)

Definition dropsTokenCompletion (op : Operation) : bool :=
  hasTrait op Trait.CompletionFreeTokenOp.

Definition getRegClass (value : Value) : option RegClass.t :=
  match value_type value with
  | RegType regClass _ _ => Some regClass
  | _ => None
  end.

Definition isValuScalarHazardResult (regClass : option RegClass.t) : bool :=
  bool_decide (regClass = Some RegClass.SGPR)
  || bool_decide (regClass = Some RegClass.VCC).

Definition hasRegClass (values : list Value) (regClass : RegClass.t) : bool :=
  existsb (fun value => bool_decide (getRegClass value = Some regClass)) values.

(** The loop of [hasOnlyRegClass] with its flag [found]. *)
Fixpoint onlyRegClass (values : list Value) (regClass : RegClass.t)
    (found : bool) : bool :=
  match values with
  | [] => found
  | value :: values' =>
      match getRegClass value with
      | None => onlyRegClass values' regClass found
      | Some valueClass =>
          if decide (valueClass <> regClass) then false
          else onlyRegClass values' regClass true
      end
  end.

Definition hasOnlyRegClass (values : list Value) (regClass : RegClass.t) :
    bool := onlyRegClass values regClass false.

Definition isLegacyVALU (op : Operation) : bool :=
  hasTrait op Trait.VALUOp && negb (hasTrait op Trait.MFMAOp).

Definition getMfmaPassCount (cls : SchedClass.t) : Z :=
  match cls with
  | SchedClass.Write2PassMAI => 2
  | SchedClass.Write4PassMAI => 4
  | SchedClass.Write8PassMAI => 8
  | SchedClass.Write16PassMAI => 16
  | _ => 0
  end.

Definition issueSlotsUntil (readyAt currentIssueSlot : Z) : Z :=
  if readyAt <=? currentIssueSlot then 0 else u32 (readyAt - currentIssueSlot).

Definition isSGPROffset (value : Value) : bool :=
  bool_decide (getRegClass value = Some RegClass.SGPR).

Definition getWideBufferStoreSoffset (op : Operation) : option Value :=
  match op_kind op with
  | BufferStoreB96Op soffset => Some soffset
  | BufferStoreB128Op soffset => Some soffset
  | _ => None
  end.

Definition isWideStoreWriteDataOp (op : Operation) : bool :=
  match op_kind op with
  | GlobalStoreB96Op | GlobalStoreB128Op | GlobalStoreB96Addr64Op
  | GlobalStoreB128Addr64Op | BufferStoreB96Op _ | BufferStoreB128Op _ => true
  | _ => false
  end.

Record StoreWriteDataHazard : Set := mkStoreHazard {
  hazard_data : Value;
  hazard_latency : Z
}.

(** [Fatal]: [op->getOperand(1)] out of range. *)
Definition getStoreWriteDataHazard (op : Operation) (isa : IsaVersion) :
    outcome (option StoreWriteDataHazard) :=
  if negb (isWideStoreWriteDataOp op) then Ok None
  else
    let latency :=
      if isCDNA3Or4 isa
      then match getWideBufferStoreSoffset op with
           | Some soffset => if isSGPROffset soffset then 1 else 2
           | None => 2
           end
      else 1 in
    data ← at_index (op_operands op) 1;
    Ok (Some (mkStoreHazard data latency)).

Definition isXdlResultHazardConsumer (op : Operation) : bool :=
  hasTrait op Trait.VMEMLoadOp || hasTrait op Trait.VMEMStoreOp
  || bool_decide (event (getWaitcntInfo op) = WaitcntEvent.Lds)
  || isLegacyVALU op.

Definition hasMemoryTokenOperand (op : Operation) : bool :=
  existsb isMemToken (op_operands op).

Definition waitsForMemoryTokenDepsBeforeIssue (op : Operation) : bool :=
  if negb (hasMemoryTokenOperand op) then false
  else match op_kind op with
       | ClusterBarrierOp | SBarrierOp | SBarrierSignalIsFirstOp
       | SBarrierSignalOp | BarrierArriveOp => true
       | _ => hasTrait op Trait.LDSDmaOp
              || (hasTrait op Trait.VMEMStoreOp
                  || hasTrait op Trait.LDSStoreOp)
       end.

Definition consumesM0ThroughHazard (op : Operation) : bool :=
  if negb (existsb (fun operand => bool_decide (value_type operand = M0Type))
             (op_operands op))
  then false
  else if hasTrait op Trait.LDSDmaOp then true
  else match op_kind op with
       | DsLoadAddTidB32Op | DsStoreAddTidB32Op => true
       | _ => false
       end.

Definition writesM0ThroughHazard (op : Operation) : bool := op_m0WriteHazard op.

(** *** Store data reached through structural operations

    [reachesStoreWriteData] walks the uses of [value] depth first, through
    operations that emit no instruction; [seenAliases] is threaded through.
    [None] stands for exhausted fuel; [aliasFuel] is enough
    ([AliasSpec.producesStoreWriteData_reaches]). *)

(** [llvm::any_of] with a predicate that updates [seenAliases]. *)
Fixpoint anySeen {A : Type}
    (f : A -> gset N -> option (bool * gset N)) (l : list A) (seen : gset N) :
    option (bool * gset N) :=
  match l with
  | [] => Some (false, seen)
  | a :: l' =>
      match f a seen with
      | None => None
      | Some (true, seen') => Some (true, seen')
      | Some (false, seen') => anySeen f l' seen'
      end
  end.

Fixpoint reachesStoreWriteData (graph : UseGraph) (fuel : nat) (value : Value)
    (seenAliases : gset N) : option (bool * gset N) :=
  match fuel with
  | O => None
  | S fuel' =>
      anySeen (fun use seen =>
        let user := operand_owner use in
        if (operand_number use =? 1)%nat && isWideStoreWriteDataOp user
        then Some (true, seen)
        else if negb (hasTrait user Trait.NoMachineInst)
                || bool_decide (op_id user ∈ seen)
        then Some (false, seen)
        else anySeen (reachesStoreWriteData graph fuel') (op_results user)
               ({[op_id user]} ∪ seen))
        (getUses graph value) seenAliases
  end.

Definition aliasFuel (graph : UseGraph) : nat := S (length graph).

Definition producesStoreWriteData (graph : UseGraph) (op : Operation) :
    outcome bool :=
  if negb (hasTrait op Trait.VALUOp) then Ok false
  else match anySeen (reachesStoreWriteData graph (aliasFuel graph))
               (op_results op) ∅ with
       | Some (found, _) => Ok found
       | None => Fatal "alias walk out of fuel"
       end.

(** ** Counters, events, pipes *)

Definition toInstructionCounter (kind : MemoryCounterKind.t) :
    InstructionWaitCounterKind.t :=
  match kind with
  | MemoryCounterKind.Vmem => InstructionWaitCounterKind.Vmem
  | MemoryCounterKind.Lgkm => InstructionWaitCounterKind.Lgkm
  | MemoryCounterKind.Vscnt => InstructionWaitCounterKind.Vscnt
  | MemoryCounterKind.Async => InstructionWaitCounterKind.Async
  | MemoryCounterKind.Tensor => InstructionWaitCounterKind.Tensor
  | MemoryCounterKind.None => InstructionWaitCounterKind.None
  end.

Definition eventClasses : list (WaitcntEvent.t * InstructionEventClass.t) := [
  (WaitcntEvent.Vmem, InstructionEventClass.VmemLoad);
  (WaitcntEvent.Flat, InstructionEventClass.VmemLoad);
  (WaitcntEvent.VmemStore, InstructionEventClass.VmemStore);
  (WaitcntEvent.ScratchStore, InstructionEventClass.VmemStore);
  (WaitcntEvent.Lds, InstructionEventClass.LdsDs);
  (WaitcntEvent.Gds, InstructionEventClass.LdsDs);
  (WaitcntEvent.Message, InstructionEventClass.Message);
  (WaitcntEvent.SccWrite, InstructionEventClass.Message);
  (WaitcntEvent.Smem, InstructionEventClass.Smem);
  (WaitcntEvent.Async, InstructionEventClass.Async);
  (WaitcntEvent.Tensor, InstructionEventClass.Tensor);
  (WaitcntEvent.None, InstructionEventClass.None)].

Definition toInstructionEventClass (op : Operation) :
    outcome InstructionEventClass.t :=
  match findPair (event (getWaitcntInfo op)) eventClasses with
  | Some c => Ok c
  | None => Fatal "unsupported wait event"
  end.

Definition getDmaIssueDelayNopSpan (cycles issuePeriod : Z) : Z :=
  let maxNopCycles := 16 in
  let fullChunks := Z.quot cycles maxNopCycles in
  let remainder := Z.rem cycles maxNopCycles in
  let span := saturatingMultiply fullChunks (Z.max maxNopCycles issuePeriod) in
  if negb (remainder =? 0)
  then saturatingAdd span (Z.max remainder issuePeriod) else span.

Definition getLdsDmaServiceInterval (arch : ArchData)
    (issuePeriod waveStreams : Z) : Z :=
  if (ldsDmaIssueQueueDepth arch <=? 0) || (ldsDmaIssueLatency arch <=? 0)
  then 0
  else
    let serviceWidth :=
      saturatingMultiply (ldsDmaIssueQueueDepth arch) (Z.max 1 waveStreams) in
    let interval := Z.quot (ldsDmaIssueLatency arch) serviceWidth in
    Z.max issuePeriod (Z.quot interval issuePeriod * issuePeriod).

Definition kPipeForFU : list InstructionPipeKind.t := [
  InstructionPipeKind.VALU; InstructionPipeKind.SALU; InstructionPipeKind.None;
  InstructionPipeKind.None; InstructionPipeKind.XDL; InstructionPipeKind.VALU;
  InstructionPipeKind.SALU; InstructionPipeKind.None; InstructionPipeKind.None].

Definition pipeForFunctionalUnit (fu : FunctionalUnit.t) :
    outcome InstructionPipeKind.t :=
  match kPipeForFU !! FunctionalUnit.index fu with
  | Some pipe => Ok pipe
  | None => Fatal "bad functional unit"
  end.

Definition pipeFor `{LLVMTarget} (arch : ArchData) (cls : SchedClass.t) :
    outcome InstructionPipeKind.t :=
  if decide (cls = SchedClass.NoInst \/ cls = SchedClass.WaitcntPseudo)
  then Ok InstructionPipeKind.None
  else fu ← funit arch cls; pipeForFunctionalUnit fu.

Definition counterIndex (kind : InstructionWaitCounterKind.t) : outcome nat :=
  match kind with
  | InstructionWaitCounterKind.Vmem => Ok 0%nat
  | InstructionWaitCounterKind.Lgkm => Ok 1%nat
  | InstructionWaitCounterKind.Vscnt => Ok 2%nat
  | InstructionWaitCounterKind.Expcnt => Ok 3%nat
  | InstructionWaitCounterKind.Tensor => Ok 4%nat
  | InstructionWaitCounterKind.Async => Ok 5%nat
  | InstructionWaitCounterKind.None => Fatal "counter has no queue"
  end.

Definition resourceForPipe (kind : InstructionPipeKind.t) :
    InstructionResourceKind.t :=
  match kind with
  | InstructionPipeKind.VALU => InstructionResourceKind.ValuPipe
  | InstructionPipeKind.SALU => InstructionResourceKind.SaluPipe
  | InstructionPipeKind.XDL => InstructionResourceKind.XdlPipe
  | InstructionPipeKind.None => InstructionResourceKind.None
  end.

Definition pipeIndex (kind : InstructionPipeKind.t) : outcome nat :=
  match kind with
  | InstructionPipeKind.VALU => Ok 0%nat
  | InstructionPipeKind.SALU => Ok 1%nat
  | InstructionPipeKind.XDL => Ok 2%nat
  | InstructionPipeKind.None => Fatal "pipe has no queue"
  end.

Definition kMemoryIssueResources : list MemoryIssueResource.t := [
  MemoryIssueResource.VmemLoad; MemoryIssueResource.VmemStore;
  MemoryIssueResource.LdsDmaAccept; MemoryIssueResource.Lds;
  MemoryIssueResource.Smem].

Definition memoryIssueIndex (resource : MemoryIssueResource.t) : nat :=
  match resource with
  | MemoryIssueResource.VmemLoad => 0
  | MemoryIssueResource.VmemStore => 1
  | MemoryIssueResource.LdsDmaAccept => 2
  | MemoryIssueResource.Lds => 3
  | MemoryIssueResource.Smem => 4
  end%nat.

Definition maxInFlightForPipe (config : InstructionExecutionConfig)
    (pipe : InstructionPipeKind.t) : Z :=
  if negb (enablePipeBackpressure config) then 0
  else match pipe with
       | InstructionPipeKind.VALU => valuMaxInFlight config
       | InstructionPipeKind.SALU => saluMaxInFlight config
       | InstructionPipeKind.XDL => xdlMaxInFlight config
       | InstructionPipeKind.None => 0
       end.

Definition maxInFlightForMemoryIssue (arch : ArchData)
    (resource : MemoryIssueResource.t) : Z :=
  if decide (resource = MemoryIssueResource.LdsDmaAccept)
  then u32 (ldsDmaIssueQueueDepth arch) else 0.

Definition memoryIssueLatency (arch : ArchData)
    (resource : MemoryIssueResource.t) : Z :=
  if decide (resource = MemoryIssueResource.LdsDmaAccept)
  then ldsDmaIssueLatency arch else 0.

(** The set [seen] of [appendUniqueEvents] starts as the ids of [events]. *)
Fixpoint appendUnseen (events appended : list N) (seen : gset N) : list N :=
  match appended with
  | [] => events
  | id :: appended' =>
      if decide (id ∈ seen) then appendUnseen events appended' seen
      else appendUnseen (events ++ [id]) appended' ({[id]} ∪ seen)
  end.

Definition appendUniqueEvents (events appended : list N) : list N :=
  appendUnseen events appended (list_to_set events).

(** ** Stalls *)

Record InstructionStallComponent : Set := mkComponent {
  comp_kind : InstructionStallKind.t;
  comp_cycles : Z;
  comp_resource : InstructionResourceKind.t;
  comp_scope : InstructionResourceScope.t
}.

Record InstructionStall : Set := mkStall {
  stall_kind : InstructionStallKind.t;
  stall_cycles : Z;
  components : list InstructionStallComponent
}.
Definition noStall : InstructionStall := mkStall InstructionStallKind.None 0 [].

Definition addComponentAt (stall : InstructionStall)
    (kind : InstructionStallKind.t) (cycles : Z)
    (resource : InstructionResourceKind.t)
    (scope : InstructionResourceScope.t) : InstructionStall :=
  if cycles <=? 0 then stall
  else
    let components' :=
      components stall ++ [mkComponent kind cycles resource scope] in
    if stall_cycles stall <? cycles then mkStall kind cycles components'
    else mkStall (stall_kind stall) (stall_cycles stall) components'.

(** With the default resource and scope. *)
Definition addComponent (stall : InstructionStall)
    (kind : InstructionStallKind.t) (cycles : Z) : InstructionStall :=
  addComponentAt stall kind cycles InstructionResourceKind.None
    InstructionResourceScope.Wave.

Definition getIssueHazardWait (stall : InstructionStall) : Z :=
  fold_left (fun wait component =>
    match comp_kind component with
    | InstructionStallKind.InstructionHazard
    | InstructionStallKind.M0ReadWrite
    | InstructionStallKind.StoreWriteData =>
        Z.max wait (u32 (comp_cycles component))
    | _ => wait
    end) (components stall) 0.

Record InstructionCommitResult : Set := mkCommitResult {
  result_stall : InstructionStall;
  priorityStall : InstructionStall;
  computePriorityStall : InstructionStall;
  issueCycle : Z;
  nextIssueCycle : Z;
  valueReadyCycle : Z;
  result_tokenReadyCycle : Z
}.

Definition getInstructionStallKindName (kind : InstructionStallKind.t) :
    string :=
  match kind with
  | InstructionStallKind.None => "none"
  | InstructionStallKind.IssueBackpressure => "issue_backpressure"
  | InstructionStallKind.OperandValue => "operand_value"
  | InstructionStallKind.MemoryValue => "memory_value"
  | InstructionStallKind.MemoryToken => "memory_token"
  | InstructionStallKind.Waitcnt => "waitcnt"
  | InstructionStallKind.InstructionHazard => "instruction_hazard"
  | InstructionStallKind.M0ReadWrite => "m0_read_write"
  | InstructionStallKind.StoreWriteData => "store_write_data"
  | InstructionStallKind.CoexecWindow => "coexec_window"
  end.

Definition getInstructionPipeKindName (kind : InstructionPipeKind.t) : string :=
  match kind with
  | InstructionPipeKind.None => "none"
  | InstructionPipeKind.VALU => "valu"
  | InstructionPipeKind.SALU => "salu"
  | InstructionPipeKind.XDL => "xdl"
  end.

(** ** The state *)

Record PendingEvent : Set := mkPendingEvent {
  pe_op : N;
  pe_id : N;
  retireCycle : Z;
  pe_counter : InstructionWaitCounterKind.t;
  pe_eventClass : InstructionEventClass.t
}.

Record InstructionDesc : Set := mkDesc {
  latency : Z;
  memoryCounterLatency : Z;
  memoryValueLatency : Z;
  instructionSpan : Z;
  resourceDuration : Z;
  issueSlots : Z;
  instructionIssueCount : Z;
  counterIssueCount : Z;
  storeDataHazardLatency : Z;
  mfmaPasses : Z;
  coexecution : InstructionCoexecutionModel;
  pipe : InstructionPipeKind.t;
  memoryIssueResources : Z;
  counter : InstructionWaitCounterKind.t;
  eventClass : InstructionEventClass.t;
  noMachineInst : bool;
  waitcnt : bool;
  legacyVALU : bool;
  trans : bool;
  mfmaCoissueResource : bool;
  laneRead : bool;
  ldsDmaIssue : bool;
  m0Writer : bool;
  m0Consumer : bool;
  storeDataProducer : bool;
  waitsForTokenDeps : bool;
  hasMemoryValue : bool;
  resultReadyAtEnd : bool
}.

Record IssueSlotHazards : Set := mkHazards {
  valuWriteVGPRScalarReadyAt : Z;
  valuWriteVGPRMfmaReadyAt : Z;
  valuWriteVGPRPermlane32SwapReadyAt : Z;
  transWriteVGPRReadyAt : Z;
  valuWriteSGPRReadyAt : Z;
  mfmaResultReadyAt : Z;
  mfmaSrcCOverlapReadyAt : Z;
  mfmaSrcCExactReadyAt : Z
}.
Definition noHazards : IssueSlotHazards := mkHazards 0 0 0 0 0 0 0 0.

Definition hazardsEmpty (h : IssueSlotHazards) : bool :=
  (valuWriteVGPRScalarReadyAt h =? 0) && (valuWriteVGPRMfmaReadyAt h =? 0)
  && (valuWriteVGPRPermlane32SwapReadyAt h =? 0)
  && (transWriteVGPRReadyAt h =? 0) && (valuWriteSGPRReadyAt h =? 0)
  && (mfmaResultReadyAt h =? 0) && (mfmaSrcCOverlapReadyAt h =? 0)
  && (mfmaSrcCExactReadyAt h =? 0).

Definition join_hazards (lhs rhs : IssueSlotHazards) : IssueSlotHazards :=
  mkHazards
    (Z.max (valuWriteVGPRScalarReadyAt lhs) (valuWriteVGPRScalarReadyAt rhs))
    (Z.max (valuWriteVGPRMfmaReadyAt lhs) (valuWriteVGPRMfmaReadyAt rhs))
    (Z.max (valuWriteVGPRPermlane32SwapReadyAt lhs)
       (valuWriteVGPRPermlane32SwapReadyAt rhs))
    (Z.max (transWriteVGPRReadyAt lhs) (transWriteVGPRReadyAt rhs))
    (Z.max (valuWriteSGPRReadyAt lhs) (valuWriteSGPRReadyAt rhs))
    (Z.max (mfmaResultReadyAt lhs) (mfmaResultReadyAt rhs))
    (Z.max (mfmaSrcCOverlapReadyAt lhs) (mfmaSrcCOverlapReadyAt rhs))
    (Z.max (mfmaSrcCExactReadyAt lhs) (mfmaSrcCExactReadyAt rhs)).

Definition set_mfmaSrcCExactReadyAt (v : Z) (h : IssueSlotHazards) :
    IssueSlotHazards :=
  mkHazards (valuWriteVGPRScalarReadyAt h) (valuWriteVGPRMfmaReadyAt h)
    (valuWriteVGPRPermlane32SwapReadyAt h) (transWriteVGPRReadyAt h)
    (valuWriteSGPRReadyAt h) (mfmaResultReadyAt h) (mfmaSrcCOverlapReadyAt h) v.

Record InstructionExecutionState : Type := mkState {
  valueReadyAt : gmap N Z;
  issueSlotHazards : gmap N IssueSlotHazards;
  valueEvent : gmap N N;
  tokenEvents : gmap N (list N);
  events : gmap N PendingEvent;
  waitQueues : list (list N);
  pipeQueues : list (list Z);
  memoryIssueQueues : list (list Z);
  currentCycle : Z;
  nextLdsDmaIssueCycle : Z;
  mfmaCoissueReadyCycle : Z;
  coexecWindowSlots : Z;
  coexecProducerRun : Z;
  currentIssueSlot : Z;
  nextEventId : N;
  storeDataGap : Z;
  m0DmaCaptureGapArmed : bool;
  m0GapArmed : bool
}.

(** Assignment to one member. *)
Definition set_valueReadyAt (v : gmap N Z)
    (st : InstructionExecutionState) : InstructionExecutionState :=
  mkState v (issueSlotHazards st) (valueEvent st) (tokenEvents st) (events
    st) (waitQueues st) (pipeQueues st) (memoryIssueQueues st) (currentCycle
    st) (nextLdsDmaIssueCycle st) (mfmaCoissueReadyCycle st)
    (coexecWindowSlots st) (coexecProducerRun st) (currentIssueSlot st)
    (nextEventId st) (storeDataGap st) (m0DmaCaptureGapArmed st) (m0GapArmed
    st).
Definition set_issueSlotHazards (v : gmap N IssueSlotHazards)
    (st : InstructionExecutionState) : InstructionExecutionState :=
  mkState (valueReadyAt st) v (valueEvent st) (tokenEvents st) (events st)
    (waitQueues st) (pipeQueues st) (memoryIssueQueues st) (currentCycle st)
    (nextLdsDmaIssueCycle st) (mfmaCoissueReadyCycle st) (coexecWindowSlots
    st) (coexecProducerRun st) (currentIssueSlot st) (nextEventId st)
    (storeDataGap st) (m0DmaCaptureGapArmed st) (m0GapArmed st).
Definition set_valueEvent (v : gmap N N)
    (st : InstructionExecutionState) : InstructionExecutionState :=
  mkState (valueReadyAt st) (issueSlotHazards st) v (tokenEvents st)
    (events st) (waitQueues st) (pipeQueues st) (memoryIssueQueues st)
    (currentCycle st) (nextLdsDmaIssueCycle st) (mfmaCoissueReadyCycle st)
    (coexecWindowSlots st) (coexecProducerRun st) (currentIssueSlot st)
    (nextEventId st) (storeDataGap st) (m0DmaCaptureGapArmed st) (m0GapArmed
    st).
Definition set_tokenEvents (v : gmap N (list N))
    (st : InstructionExecutionState) : InstructionExecutionState :=
  mkState (valueReadyAt st) (issueSlotHazards st) (valueEvent st) v
    (events st) (waitQueues st) (pipeQueues st) (memoryIssueQueues st)
    (currentCycle st) (nextLdsDmaIssueCycle st) (mfmaCoissueReadyCycle st)
    (coexecWindowSlots st) (coexecProducerRun st) (currentIssueSlot st)
    (nextEventId st) (storeDataGap st) (m0DmaCaptureGapArmed st) (m0GapArmed
    st).
Definition set_events (v : gmap N PendingEvent)
    (st : InstructionExecutionState) : InstructionExecutionState :=
  mkState (valueReadyAt st) (issueSlotHazards st) (valueEvent st)
    (tokenEvents st) v (waitQueues st) (pipeQueues st) (memoryIssueQueues
    st) (currentCycle st) (nextLdsDmaIssueCycle st) (mfmaCoissueReadyCycle
    st) (coexecWindowSlots st) (coexecProducerRun st) (currentIssueSlot st)
    (nextEventId st) (storeDataGap st) (m0DmaCaptureGapArmed st) (m0GapArmed
    st).
Definition set_waitQueues (v : list (list N))
    (st : InstructionExecutionState) : InstructionExecutionState :=
  mkState (valueReadyAt st) (issueSlotHazards st) (valueEvent st)
    (tokenEvents st) (events st) v (pipeQueues st) (memoryIssueQueues st)
    (currentCycle st) (nextLdsDmaIssueCycle st) (mfmaCoissueReadyCycle st)
    (coexecWindowSlots st) (coexecProducerRun st) (currentIssueSlot st)
    (nextEventId st) (storeDataGap st) (m0DmaCaptureGapArmed st) (m0GapArmed
    st).
Definition set_pipeQueues (v : list (list Z))
    (st : InstructionExecutionState) : InstructionExecutionState :=
  mkState (valueReadyAt st) (issueSlotHazards st) (valueEvent st)
    (tokenEvents st) (events st) (waitQueues st) v (memoryIssueQueues st)
    (currentCycle st) (nextLdsDmaIssueCycle st) (mfmaCoissueReadyCycle st)
    (coexecWindowSlots st) (coexecProducerRun st) (currentIssueSlot st)
    (nextEventId st) (storeDataGap st) (m0DmaCaptureGapArmed st) (m0GapArmed
    st).
Definition set_memoryIssueQueues (v : list (list Z))
    (st : InstructionExecutionState) : InstructionExecutionState :=
  mkState (valueReadyAt st) (issueSlotHazards st) (valueEvent st)
    (tokenEvents st) (events st) (waitQueues st) (pipeQueues st) v
    (currentCycle st) (nextLdsDmaIssueCycle st) (mfmaCoissueReadyCycle st)
    (coexecWindowSlots st) (coexecProducerRun st) (currentIssueSlot st)
    (nextEventId st) (storeDataGap st) (m0DmaCaptureGapArmed st) (m0GapArmed
    st).
Definition set_currentCycle (v : Z)
    (st : InstructionExecutionState) : InstructionExecutionState :=
  mkState (valueReadyAt st) (issueSlotHazards st) (valueEvent st)
    (tokenEvents st) (events st) (waitQueues st) (pipeQueues st)
    (memoryIssueQueues st) v (nextLdsDmaIssueCycle st)
    (mfmaCoissueReadyCycle st) (coexecWindowSlots st) (coexecProducerRun st)
    (currentIssueSlot st) (nextEventId st) (storeDataGap st)
    (m0DmaCaptureGapArmed st) (m0GapArmed st).
Definition set_nextLdsDmaIssueCycle (v : Z)
    (st : InstructionExecutionState) : InstructionExecutionState :=
  mkState (valueReadyAt st) (issueSlotHazards st) (valueEvent st)
    (tokenEvents st) (events st) (waitQueues st) (pipeQueues st)
    (memoryIssueQueues st) (currentCycle st) v (mfmaCoissueReadyCycle st)
    (coexecWindowSlots st) (coexecProducerRun st) (currentIssueSlot st)
    (nextEventId st) (storeDataGap st) (m0DmaCaptureGapArmed st) (m0GapArmed
    st).
Definition set_mfmaCoissueReadyCycle (v : Z)
    (st : InstructionExecutionState) : InstructionExecutionState :=
  mkState (valueReadyAt st) (issueSlotHazards st) (valueEvent st)
    (tokenEvents st) (events st) (waitQueues st) (pipeQueues st)
    (memoryIssueQueues st) (currentCycle st) (nextLdsDmaIssueCycle st) v
    (coexecWindowSlots st) (coexecProducerRun st) (currentIssueSlot st)
    (nextEventId st) (storeDataGap st) (m0DmaCaptureGapArmed st) (m0GapArmed
    st).
Definition set_coexecWindowSlots (v : Z)
    (st : InstructionExecutionState) : InstructionExecutionState :=
  mkState (valueReadyAt st) (issueSlotHazards st) (valueEvent st)
    (tokenEvents st) (events st) (waitQueues st) (pipeQueues st)
    (memoryIssueQueues st) (currentCycle st) (nextLdsDmaIssueCycle st)
    (mfmaCoissueReadyCycle st) v (coexecProducerRun st) (currentIssueSlot
    st) (nextEventId st) (storeDataGap st) (m0DmaCaptureGapArmed st)
    (m0GapArmed st).
Definition set_coexecProducerRun (v : Z)
    (st : InstructionExecutionState) : InstructionExecutionState :=
  mkState (valueReadyAt st) (issueSlotHazards st) (valueEvent st)
    (tokenEvents st) (events st) (waitQueues st) (pipeQueues st)
    (memoryIssueQueues st) (currentCycle st) (nextLdsDmaIssueCycle st)
    (mfmaCoissueReadyCycle st) (coexecWindowSlots st) v (currentIssueSlot
    st) (nextEventId st) (storeDataGap st) (m0DmaCaptureGapArmed st)
    (m0GapArmed st).
Definition set_currentIssueSlot (v : Z)
    (st : InstructionExecutionState) : InstructionExecutionState :=
  mkState (valueReadyAt st) (issueSlotHazards st) (valueEvent st)
    (tokenEvents st) (events st) (waitQueues st) (pipeQueues st)
    (memoryIssueQueues st) (currentCycle st) (nextLdsDmaIssueCycle st)
    (mfmaCoissueReadyCycle st) (coexecWindowSlots st) (coexecProducerRun st)
    v (nextEventId st) (storeDataGap st) (m0DmaCaptureGapArmed st)
    (m0GapArmed st).
Definition set_nextEventId (v : N)
    (st : InstructionExecutionState) : InstructionExecutionState :=
  mkState (valueReadyAt st) (issueSlotHazards st) (valueEvent st)
    (tokenEvents st) (events st) (waitQueues st) (pipeQueues st)
    (memoryIssueQueues st) (currentCycle st) (nextLdsDmaIssueCycle st)
    (mfmaCoissueReadyCycle st) (coexecWindowSlots st) (coexecProducerRun st)
    (currentIssueSlot st) v (storeDataGap st) (m0DmaCaptureGapArmed st)
    (m0GapArmed st).
Definition set_storeDataGap (v : Z)
    (st : InstructionExecutionState) : InstructionExecutionState :=
  mkState (valueReadyAt st) (issueSlotHazards st) (valueEvent st)
    (tokenEvents st) (events st) (waitQueues st) (pipeQueues st)
    (memoryIssueQueues st) (currentCycle st) (nextLdsDmaIssueCycle st)
    (mfmaCoissueReadyCycle st) (coexecWindowSlots st) (coexecProducerRun st)
    (currentIssueSlot st) (nextEventId st) v (m0DmaCaptureGapArmed st)
    (m0GapArmed st).
Definition set_m0DmaCaptureGapArmed (v : bool)
    (st : InstructionExecutionState) : InstructionExecutionState :=
  mkState (valueReadyAt st) (issueSlotHazards st) (valueEvent st)
    (tokenEvents st) (events st) (waitQueues st) (pipeQueues st)
    (memoryIssueQueues st) (currentCycle st) (nextLdsDmaIssueCycle st)
    (mfmaCoissueReadyCycle st) (coexecWindowSlots st) (coexecProducerRun st)
    (currentIssueSlot st) (nextEventId st) (storeDataGap st) v (m0GapArmed
    st).
Definition set_m0GapArmed (v : bool)
    (st : InstructionExecutionState) : InstructionExecutionState :=
  mkState (valueReadyAt st) (issueSlotHazards st) (valueEvent st)
    (tokenEvents st) (events st) (waitQueues st) (pipeQueues st)
    (memoryIssueQueues st) (currentCycle st) (nextLdsDmaIssueCycle st)
    (mfmaCoissueReadyCycle st) (coexecWindowSlots st) (coexecProducerRun st)
    (currentIssueSlot st) (nextEventId st) (storeDataGap st)
    (m0DmaCaptureGapArmed st) v.

(** Kinds with a queue, and the number of pipes and memory resources. *)
Definition kWaitCounterCount : nat := 6.
Definition kPipeCount : nat := 3.
Definition kMemoryIssueResourceCount : nat := 5.

Definition initialState : InstructionExecutionState :=
  mkState ∅ ∅ ∅ ∅ ∅ (replicate kWaitCounterCount [])
    (replicate kPipeCount []) (replicate kMemoryIssueResourceCount [])
    0 0 0 0 0 0 1 0 false false.

(** [array[index]] for the arrays of queues; the index is in range. *)
Definition queueAt {A : Type} (queues : list (list A)) (i : nat) : list A :=
  default [] (queues !! i).
