(* ===== verification/ExecOps.v ===== *)
(** * Operations of the single-wave issue state
    ([InstructionExecutionState.cpp], member functions)

    The members [arch] and [config] of the class, fixed at construction, are
    section variables; [graph] holds the use lists of the function the
    operations come from.  A [const] member function takes the state, a
    mutating one returns it. *)

From stdpp Require Import base tactics list gmap sorting strings.
From S2P Require Import Prelude CostEnums ArchData MachineIR LatencyTable.
From S2P Require Import OpClassifier MemoryTiming ScheduleModel.
From S2P Require Import ResourceState ExecState.

(** The order in which [counterReadyCycle] sorts pending events. *)
Definition pending_le (lhs rhs : PendingEvent) : Prop :=
  retireCycle lhs < retireCycle rhs
  \/ (retireCycle lhs = retireCycle rhs /\ (pe_id lhs <= pe_id rhs)%N).
#[export] Instance pending_le_dec : RelDecision pending_le.
Proof. intros x y. unfold pending_le. apply _. Defined.

Section State.
Context `{LLVMTarget}.
Context (graph : UseGraph) (arch : ArchData)
  (config : InstructionExecutionConfig).

Implicit Types st : InstructionExecutionState.

Definition issueSlotHazardConfig : InstructionIssueSlotHazardConfig :=
  getInstructionIssueSlotHazardConfig (isa arch).

Definition getResourceCapacities : InstructionResourceCapacities :=
  if negb (enablePipeBackpressure config) then mkCapacities 0 0 0
  else mkCapacities (valuMaxInFlight config) (saluMaxInFlight config)
         (xdlMaxInFlight config).

Definition getIssuePeriod : Z :=
  if 0 <? issuePeriod config then issuePeriod config
  else Z.max 1 (simdIssuePeriod arch).

(** ** Pending events *)

Definition hasPendingEvent st (id : N) (cycle : Z) : bool :=
  match events st !! id with
  | Some event => cycle <? retireCycle event
  | None => false
  end.

Definition getPendingMemoryEventCount st
    (kind : InstructionWaitCounterKind.t) : outcome Z :=
  if decide (kind = InstructionWaitCounterKind.None) then Ok 0
  else
    queue ← counterIndex kind;
    Ok (Z.of_nat (length (base.filter
          (fun id => hasPendingEvent st id (currentCycle st))
          (queueAt (waitQueues st) queue)))).

Definition getPipeInFlightCount st (kind : InstructionPipeKind.t) : outcome Z :=
  if decide (kind = InstructionPipeKind.None) then Ok 0
  else
    queue ← pipeIndex kind;
    Ok (Z.of_nat (length (base.filter
          (fun ready => ready > currentCycle st)
          (queueAt (pipeQueues st) queue)))).

Definition pruneRetiredEvents (cycle : Z) st : InstructionExecutionState :=
  let st := set_waitQueues
    ((fun queue => base.filter (fun id => hasPendingEvent st id cycle) queue)
       <$> waitQueues st) st in
  let st := set_pipeQueues
    ((fun queue => base.filter (fun ready => ~ ready <= cycle) queue)
       <$> pipeQueues st) st in
  set_memoryIssueQueues
    ((fun queue => base.filter (fun ready => ~ ready <= cycle) queue)
       <$> memoryIssueQueues st) st.

Definition advanceToCycle (cycle : Z) st : outcome InstructionExecutionState :=
  _ ← assertion (currentCycle st <=? cycle) "wave timeline moved back";
  Ok (pruneRetiredEvents cycle (set_currentCycle cycle st)).

(** ** Values *)

Definition getValueReadyCycle st (value : Value) : Z :=
  match valueReadyAt st !! value_id value with
  | Some ready => ready
  | None => currentCycle st
  end.

(** The locals of [bindValue]. *)
Record BoundSources : Set := mkBound {
  bound_ready : Z;
  bound_tokenDeps : list N;
  bound_valueEvent : option N;
  bound_hazards : IssueSlotHazards
}.

Definition bindSource st (bound : BoundSources) (source : Value) :
    BoundSources :=
  mkBound (Z.max (bound_ready bound) (getValueReadyCycle st source))
    (match tokenEvents st !! value_id source with
     | Some tokens => appendUniqueEvents (bound_tokenDeps bound) tokens
     | None => bound_tokenDeps bound
     end)
    (match valueEvent st !! value_id source with
     | Some id => Some id
     | None => bound_valueEvent bound
     end)
    (match issueSlotHazards st !! value_id source with
     | Some hazards => join_hazards (bound_hazards bound) hazards
     | None => bound_hazards bound
     end).

(** [map[key] = value] when there is a value, [map.erase(key)] otherwise. *)
Definition assignOrErase {A : Type} (key : N) (value : option A)
    (m : gmap N A) : gmap N A :=
  match value with
  | Some a => <[key := a]> m
  | None => delete key m
  end.

Definition bindValue st (result : Value) (sources : list Value) :
    InstructionExecutionState :=
  let bound := fold_left (bindSource st) sources
                 (mkBound (currentCycle st) [] None noHazards) in
  let exactAlias :=
    match sources with
    | [source] => bool_decide (value_type result = value_type source)
    | _ => false
    end in
  let hazards := if exactAlias then bound_hazards bound
                 else set_mfmaSrcCExactReadyAt 0 (bound_hazards bound) in
  let key := value_id result in
  let st := set_valueReadyAt (<[key := bound_ready bound]> (valueReadyAt st))
              st in
  let st := set_valueEvent
    (assignOrErase key (bound_valueEvent bound) (valueEvent st)) st in
  let st := set_tokenEvents
    (assignOrErase key
       (match bound_tokenDeps bound with [] => None | deps => Some deps end)
       (tokenEvents st)) st in
  set_issueSlotHazards
    (assignOrErase key
       (if hazardsEmpty hazards then None else Some hazards)
       (issueSlotHazards st)) st.

Definition collectTokenDeps st (op : Operation) : list N :=
  if dropsTokenCompletion op then []
  else fold_left (fun deps operand =>
         if negb (isMemToken operand) then deps
         else match tokenEvents st !! value_id operand with
              | None => deps
              | Some tokens => appendUniqueEvents deps tokens
              end) (op_operands op) [].

(** The maximum over the retire cycles of known events. *)
Definition latestRetire st (ready : Z) (ids : list N) : Z :=
  fold_left (fun ready id =>
    match events st !! id with
    | Some event => Z.max ready (retireCycle event)
    | None => ready
    end) ids ready.

Definition tokenReadyCycle st (op : Operation) : Z :=
  latestRetire st (currentCycle st) (collectTokenDeps st op).

Definition getTokenReadyCycle st (op : Operation) (newEvents : list N) : Z :=
  latestRetire st (latestRetire st (currentCycle st) (collectTokenDeps st op))
    newEvents.

(** ** Description of an operation *)

(** [configureDmaIssueDelay], on the fields it overwrites: latency, issue
    slots, instruction span and [resultReadyAtEnd]. *)
Definition delaySkipped (skipCondition : option Value) : bool :=
  bool_decide (is_Some skipCondition)
  && bool_decide (dmaIssueDelayCohortPolicy config
                  = DmaIssueDelayCohortPolicy.Skipped).

Definition configureDmaIssueDelay (op : Operation)
    (fields : Z * Z * Z * bool) : Z * Z * Z * bool :=
  match op_kind op with
  | DmaIssueDelayOp _ skipCondition cycles _ =>
      if delaySkipped skipCondition then (0, 1, getIssuePeriod, true)
      else
        let skips := bool_decide (is_Some skipCondition) in
        let issueSlots := u64 (cycles + (if skips then 1 else 0)) in
        let span := getDmaIssueDelayNopSpan cycles getIssuePeriod in
        (0, issueSlots,
         if skips then saturatingAdd getIssuePeriod span else span, true)
  | _ => fields
  end.

Definition describe st (op : Operation) : outcome InstructionDesc :=
  cls ← classifyOp op;
  if negb (isSchedClassSupported arch cls) then Failure
  else
    storeHazard ← getStoreWriteDataHazard op (isa arch);
    storeDataProducer ← (if negb (storeDataGap st =? 0)
                         then producesStoreWriteData graph op else Ok false);
    pipe ← pipeFor arch cls;
    resourceDuration ← getResourceCycles arch cls;
    instructionIssueCount ←
      getInstructionIssueCount op (isa arch) (wavefrontSize config);
    coexecution ←
      getInstructionCoexecutionModel op cls arch (wavefrontSize config);
    latency ← getConfiguredLatency arch cls (calibration config);
    memoryIssueResources ← getMemoryIssueResources op;
    memoryCounter ← getMemoryCounterKind op;
    eventClass ← toInstructionEventClass op;
    memoryCounterLatency ←
      (if decide (memoryCounter <> MemoryCounterKind.None)
       then getMemoryCounterLatency arch op (counterLatencies config)
              (calibration config)
       else Ok 0);
    let hasMemoryValue :=
      bool_decide (memoryCounter <> MemoryCounterKind.None)
      && hasMemoryValueLatency op in
    memoryValueLatency ←
      (if (hasMemoryValue : bool)
       then getMemoryValueLatency arch op (counterLatencies config)
              (valueLatencies config) (calibration config)
       else Ok 0);
    let '(latency, issueSlots, instructionSpan, resultReadyAtEnd) :=
      configureDmaIssueDelay op (latency, instructionIssueCount, 0, false) in
    let legacyVALU := isLegacyVALU op in
    Ok {| latency := latency;
          memoryCounterLatency := memoryCounterLatency;
          memoryValueLatency := memoryValueLatency;
          instructionSpan := instructionSpan;
          resourceDuration := resourceDuration;
          issueSlots := issueSlots;
          instructionIssueCount := instructionIssueCount;
          counterIssueCount := issueCount (getWaitcntInfo op);
          storeDataHazardLatency :=
            match storeHazard with
            | Some hazard => hazard_latency hazard
            | None => 0
            end;
          mfmaPasses :=
            if hasTrait op Trait.MFMAOp then getMfmaPassCount cls else 0;
          coexecution := coexecution;
          pipe := pipe;
          memoryIssueResources := memoryIssueResources;
          counter := toInstructionCounter memoryCounter;
          eventClass := eventClass;
          noMachineInst := bool_decide (cls = SchedClass.NoInst);
          waitcnt := hasTrait op Trait.WaitcntOp;
          legacyVALU := legacyVALU;
          trans := bool_decide (cls = SchedClass.WriteTrans32);
          mfmaCoissueResource := usesMfmaCoissueResource op cls arch;
          laneRead := legacyVALU && hasRegClass (op_operands op) RegClass.VGPR
                      && hasOnlyRegClass (op_results op) RegClass.SGPR;
          ldsDmaIssue := hasTrait op Trait.LDSDmaOp;
          m0Writer := writesM0ThroughHazard op;
          m0Consumer := consumesM0ThroughHazard op;
          storeDataProducer := storeDataProducer;
          waitsForTokenDeps := waitsForMemoryTokenDepsBeforeIssue op;
          hasMemoryValue := hasMemoryValue;
          resultReadyAtEnd := resultReadyAtEnd |}.

Definition getInstructionSpan (desc : InstructionDesc) : Z :=
  if negb (instructionSpan desc =? 0) then instructionSpan desc
  else instructionIssueCount desc * getIssuePeriod.

Definition getResultReadyCycle (op : Operation) (desc : InstructionDesc)
    (issueCycle : Z) : Z :=
  if resultReadyAtEnd desc
  then saturatingAdd issueCycle (getInstructionSpan desc)
  else
    let latency := if hasMemoryValue desc then memoryValueLatency desc
                   else latency desc in
    if negb (existsb (fun result => negb (isMemToken result)) (op_results op))
    then issueCycle
    else issueCycle + (instructionIssueCount desc - 1) * getIssuePeriod
         + Z.max 0 latency.

(** ** Uses of the shared resources *)

Definition appendIssueResourceUses (count offset period : Z)
    (uses : list InstructionResourceUse) : list InstructionResourceUse :=
  let uses := uses ++ [mkUse K.SimdIssue Sc.SIMD 1 count offset period
                         getIssuePeriod] in
  if negb (issuesPerCUPerCycle arch =? 0)
  then uses ++ [mkUse K.CuIssue Sc.CU 1 count offset period 1]
  else uses.

Definition appendDmaIssueResourceUses (skipCondition : option Value)
    (cycles : Z) (uses : list InstructionResourceUse) :
    list InstructionResourceUse :=
  let skips := bool_decide (is_Some skipCondition) in
  let uses := if skips then appendIssueResourceUses 1 0 0 uses else uses in
  if delaySkipped skipCondition then uses
  else
    let maxNopCycles := 16 in
    let nopCount := u32 (Z.quot (cycles + maxNopCycles - 1) maxNopCycles) in
    let nopOffset := if skips then getIssuePeriod else 0 in
    appendIssueResourceUses nopCount nopOffset
      (Z.max maxNopCycles getIssuePeriod) uses.

Definition isDmaIssueDelay (op : Operation) : bool :=
  match op_kind op with DmaIssueDelayOp _ _ _ _ => true | _ => false end.

Definition appendPipeResourceUse (op : Operation) (desc : InstructionDesc)
    (resourceState : InstructionResourceState)
    (uses : list InstructionResourceUse) :
    outcome (list InstructionResourceUse) :=
  if isDmaIssueDelay op || (resourceDuration desc <=? 0) then Ok uses
  else
    let pipe := resourceForPipe (pipe desc) in
    enabled ← isEnabled resourceState pipe;
    if negb enabled then Ok uses
    else scope ← getInstructionResourceScope pipe;
         Ok (uses ++ [mkUse pipe scope 1 1 0 0 (resourceDuration desc)]).

Definition appendMfmaCoissueResourceUse (desc : InstructionDesc)
    (resourceState : InstructionResourceState)
    (uses : list InstructionResourceUse) :
    outcome (list InstructionResourceUse) :=
  if negb (mfmaCoissueResource desc) || (resourceDuration desc <=? 0)
  then Ok uses
  else enabled ← isEnabled resourceState K.MfmaCoissue;
       if negb enabled then Ok uses
       else Ok (uses ++ [mkUse K.MfmaCoissue Sc.SIMD 1 1 0 0
                           (resourceDuration desc)]).

Definition appendLdsResourceUses (desc : InstructionDesc)
    (resourceState : InstructionResourceState) (issuePeriod : Z)
    (uses : list InstructionResourceUse) :
    outcome (list InstructionResourceUse) :=
  let usesLds :=
    hasMemoryIssueResource (memoryIssueResources desc) MemoryIssueResource.Lds
    || hasMemoryIssueResource (memoryIssueResources desc)
         MemoryIssueResource.LdsDmaAccept in
  uses ← (if (usesLds : bool)
          then enabled ← isEnabled resourceState K.LdsIssue;
               Ok (if (enabled : bool)
                   then uses ++ [mkUse K.LdsIssue Sc.SIMDPair 1
                                   (instructionIssueCount desc) 0 issuePeriod
                                   (ldsIssuePeriod arch)]
                   else uses)
          else Ok uses);
  if hasMemoryIssueResource (memoryIssueResources desc)
       MemoryIssueResource.LdsDmaAccept
  then enabled ← isEnabled resourceState K.LdsDmaIssue;
       Ok (if (enabled : bool)
           then uses ++ [mkUse K.LdsDmaIssue Sc.SIMDPair 1
                           (instructionIssueCount desc) 0 issuePeriod
                           (ldsDmaIssuePeriod arch)]
           else uses)
  else Ok uses.

Definition getResourceUses (op : Operation) (desc : InstructionDesc)
    (resourceState : InstructionResourceState) :
    outcome (list InstructionResourceUse) :=
  if noMachineInst desc then Ok []
  else
    let uses :=
      match op_kind op with
      | DmaIssueDelayOp _ skipCondition cycles _ =>
          appendDmaIssueResourceUses skipCondition cycles []
      | _ => appendIssueResourceUses (instructionIssueCount desc) 0
               getIssuePeriod []
      end in
    uses ← appendPipeResourceUse op desc resourceState uses;
    uses ← appendMfmaCoissueResourceUse desc resourceState uses;
    appendLdsResourceUses desc resourceState getIssuePeriod uses.

(** ** Ready cycles *)

(** The filter of [counterReadyCycle]: [Failure] on the SMEM event that an
    unordered counter cannot wait for. *)
Fixpoint collectPending st (kind : InstructionWaitCounterKind.t)
    (limit cycle : Z) (classes : list InstructionEventClass.t)
    (queue : list N) : outcome (list PendingEvent) :=
  match queue with
  | [] => Ok []
  | id :: queue' =>
      let skip := collectPending st kind limit cycle classes queue' in
      match events st !! id with
      | None => skip
      | Some event =>
          if retireCycle event <=? cycle then skip
          else if bool_decide (classes <> [])
                  && negb (bool_decide (pe_eventClass event ∈ classes))
          then skip
          else if bool_decide (kind = InstructionWaitCounterKind.Lgkm)
                  && negb (limit =? 0)
                  && bool_decide (pe_eventClass event
                                  = InstructionEventClass.Smem)
          then Failure
          else rest ← skip; Ok (event :: rest)
      end
  end.

Definition counterReadyCycle st (kind : InstructionWaitCounterKind.t)
    (limit cycle : Z) (classes : list InstructionEventClass.t) : outcome Z :=
  queue ← counterIndex kind;
  pending ← collectPending st kind limit cycle classes
              (queueAt (waitQueues st) queue);
  if Z.of_nat (length pending) <=? limit then Ok cycle
  else
    event ← at_index (merge_sort pending_le pending)
              (length pending - Z.to_nat limit - 1);
    Ok (retireCycle event).

Definition combineCounterReadyCycle st (ready : Z)
    (kind : InstructionWaitCounterKind.t) (limit : option Z) (cycle : Z)
    (classes : list InstructionEventClass.t) : outcome Z :=
  match limit with
  | None => Ok ready
  | Some limit =>
      counterReady ← counterReadyCycle st kind limit cycle classes;
      Ok (Z.max ready counterReady)
  end.

Definition waitcntReadyCycle_legacy st (vmcnt expcnt lgkmcnt : option Z)
    (cycle : Z) : outcome Z :=
  ready ← combineCounterReadyCycle st cycle InstructionWaitCounterKind.Vmem
            vmcnt cycle [];
  ready ← combineCounterReadyCycle st ready InstructionWaitCounterKind.Lgkm
            lgkmcnt cycle [];
  combineCounterReadyCycle st ready InstructionWaitCounterKind.Expcnt
    expcnt cycle [].

Definition waitcntReadyCycle_split st
    (loadcnt storecnt dscnt kmcnt xcnt asynccnt tensorcnt : option Z)
    (cycle : Z) : outcome Z :=
  if bool_decide (is_Some xcnt) then Failure
  else
    ready ← combineCounterReadyCycle st cycle InstructionWaitCounterKind.Vmem
              loadcnt cycle [InstructionEventClass.VmemLoad];
    ready ← combineCounterReadyCycle st ready InstructionWaitCounterKind.Vscnt
              storecnt cycle [InstructionEventClass.VmemStore];
    ready ← combineCounterReadyCycle st ready InstructionWaitCounterKind.Lgkm
              dscnt cycle [InstructionEventClass.LdsDs];
    ready ← combineCounterReadyCycle st ready InstructionWaitCounterKind.Lgkm
              kmcnt cycle
              [InstructionEventClass.Smem; InstructionEventClass.Message];
    ready ← combineCounterReadyCycle st ready InstructionWaitCounterKind.Async
              asynccnt cycle [InstructionEventClass.Async];
    combineCounterReadyCycle st ready InstructionWaitCounterKind.Tensor
      tensorcnt cycle [InstructionEventClass.Tensor].

Definition waitcntReadyCycle st (op : Operation) (cycle : Z) : outcome Z :=
  match op_kind op with
  | SWaitcntVscntOp vscnt =>
      counterReadyCycle st InstructionWaitCounterKind.Vscnt vscnt cycle []
  | SWaitcntOp vmcnt expcnt lgkmcnt =>
      waitcntReadyCycle_legacy st vmcnt expcnt lgkmcnt cycle
  | SWaitcntSplitOp loadcnt storecnt dscnt kmcnt xcnt asynccnt tensorcnt =>
      waitcntReadyCycle_split st loadcnt storecnt dscnt kmcnt xcnt asynccnt
        tensorcnt cycle
  | _ => Ok cycle
  end.

(** The loop body of [operandReadyCycle] on (ready, stall kind). *)
Definition operandStep st (op : Operation)
    (acc : Z * InstructionStallKind.t) (indexed : nat * Value) :
    Z * InstructionStallKind.t :=
  let '(ready, stallKind) := acc in
  let '(operandIndex, operand) := indexed in
  if isMemToken operand then acc
  else
    let exactMfmaSrcC :=
      hasTrait op Trait.MFMAOp && (operandIndex =? 2)%nat
      && match issueSlotHazards st !! value_id operand with
         | Some hazards => negb (mfmaSrcCExactReadyAt hazards =? 0)
         | None => false
         end in
    if exactMfmaSrcC then acc
    else match valueReadyAt st !! value_id operand with
         | None => acc
         | Some valueReady =>
             if valueReady <=? ready then acc
             else (valueReady,
                   match valueEvent st !! value_id operand with
                   | Some _ => InstructionStallKind.MemoryValue
                   | None => stallKind
                   end)
         end.

(** [llvm::enumerate] *)
Definition enumerate {A : Type} (l : list A) : list (nat * A) :=
  imap (fun i a => (i, a)) l.

Definition operandReadyCycle st (op : Operation) : Z * InstructionStallKind.t :=
  fold_left (operandStep st op) (enumerate (op_operands op))
    (currentCycle st, InstructionStallKind.OperandValue).

Definition issueReadyCycle st (op : Operation) : Z * InstructionStallKind.t :=
  let '(ready, stallKind) := operandReadyCycle st op in
  match op_kind op with
  | DmaIssueDelayOp dependency _ _ overlapCycles =>
      match valueReadyAt st !! value_id dependency with
      | None => (ready, stallKind)
      | Some valueReady =>
          (Z.max ready (saturatingAdd valueReady (default 0 overlapCycles)),
           stallKind)
      end
  | _ => (ready, stallKind)
  end.

Definition pipeReadyCycle st (pipe : InstructionPipeKind.t) (cycle : Z) :
    outcome Z :=
  let maxInFlight := maxInFlightForPipe config pipe in
  if bool_decide (pipe = InstructionPipeKind.None) || (maxInFlight =? 0)
  then Ok cycle
  else
    queue ← pipeIndex pipe;
    let pending := base.filter (fun ready => ready > cycle)
                     (queueAt (pipeQueues st) queue) in
    if Z.of_nat (length pending) <? maxInFlight then Ok cycle
    else at_index (merge_sort Z.le pending)
           (length pending - Z.to_nat maxInFlight).

Definition memoryIssueReadyCycle st (resource : MemoryIssueResource.t)
    (issueCount cycle : Z) : outcome Z :=
  let maxInFlight := maxInFlightForMemoryIssue arch resource in
  if (maxInFlight =? 0) || (memoryIssueLatency arch resource <=? 0)
  then Ok cycle
  else
    let pending := base.filter (fun ready => ready > cycle)
      (queueAt (memoryIssueQueues st) (memoryIssueIndex resource)) in
    let needed := Z.min (Z.max 1 issueCount) maxInFlight in
    if Z.of_nat (length pending) + needed <=? maxInFlight then Ok cycle
    else at_index (merge_sort Z.le pending)
           (Z.to_nat (Z.of_nat (length pending) + needed - maxInFlight - 1)).

(** The overload on a mask of resources. *)
Definition memoryIssueReadyCycles st (resources issueCount cycle : Z) :
    outcome Z :=
  foldM (fun ready resource =>
    if hasMemoryIssueResource resources resource
    then resourceReady ← memoryIssueReadyCycle st resource issueCount cycle;
         Ok (Z.max ready resourceReady)
    else Ok ready) cycle kMemoryIssueResources.

(** ** Issue-slot hazards *)

Definition mfmaOperandReadyAt (op : Operation) (desc : InstructionDesc)
    (operandIndex : nat) (hazards : IssueSlotHazards) : Z :=
  if mfmaPasses desc =? 0
  then if isXdlResultHazardConsumer op then mfmaResultReadyAt hazards else 0
  else if negb (operandIndex =? 2)%nat then mfmaResultReadyAt hazards
  else if negb (mfmaSrcCExactReadyAt hazards =? 0)
  then mfmaSrcCExactReadyAt hazards
  else mfmaSrcCOverlapReadyAt hazards.

Definition mfmaIssueSlotHazardWait st (op : Operation) (desc : InstructionDesc)
    (operandIndex : nat) (hazards : IssueSlotHazards) : Z :=
  let wait := issueSlotsUntil (mfmaOperandReadyAt op desc operandIndex hazards)
                (currentIssueSlot st) in
  if negb (mfmaPasses desc =? 0)
  then Z.max wait (issueSlotsUntil (valuWriteVGPRMfmaReadyAt hazards)
                     (currentIssueSlot st))
  else wait.

Definition legacyValuIssueSlotHazardWait st (operand : Value)
    (desc : InstructionDesc) (hazards : IssueSlotHazards) : Z :=
  if negb (legacyVALU desc) || hazardConfigEmpty issueSlotHazardConfig then 0
  else
    let until readyAt := issueSlotsUntil readyAt (currentIssueSlot st) in
    let regClass := getRegClass operand in
    let wait :=
      if decide (regClass = Some RegClass.VGPR) then
        let wait := if negb (trans desc)
                    then Z.max 0 (until (transWriteVGPRReadyAt hazards))
                    else 0 in
        if laneRead desc
        then Z.max wait (until (valuWriteVGPRScalarReadyAt hazards)) else wait
      else 0 in
    if decide (regClass = Some RegClass.SGPR \/ regClass = Some RegClass.VCC)
    then Z.max wait (until (valuWriteSGPRReadyAt hazards)) else wait.

Definition permlane32SwapIssueSlotHazardWait st (op : Operation)
    (hazards : IssueSlotHazards) : Z :=
  match op_kind op with
  | VPermlane32SwapB32TupleOp =>
      issueSlotsUntil (valuWriteVGPRPermlane32SwapReadyAt hazards)
        (currentIssueSlot st)
  | _ => 0
  end.

Definition issueSlotHazardWait st (op : Operation) (desc : InstructionDesc) :
    Z :=
  fold_left (fun wait indexed =>
    let '(operandIndex, operand) := (indexed : nat * Value) in
    match issueSlotHazards st !! value_id operand with
    | None => wait
    | Some hazards =>
        let wait := Z.max wait
          (mfmaIssueSlotHazardWait st op desc operandIndex hazards) in
        let wait := Z.max wait
          (legacyValuIssueSlotHazardWait st operand desc hazards) in
        Z.max wait (permlane32SwapIssueSlotHazardWait st op hazards)
    end) (enumerate (op_operands op)) 0.

(** ** Query *)

Definition addDependencyStalls st (op : Operation) (desc : InstructionDesc)
    (stall : InstructionStall) : outcome InstructionStall :=
  let stall :=
    if negb (hasTrait op Trait.NoMachineInst)
    then let '(operandsReady, operandKind) := issueReadyCycle st op in
         addComponent stall operandKind (operandsReady - currentCycle st)
    else stall in
  let stall :=
    if waitsForTokenDeps desc
    then addComponent stall InstructionStallKind.MemoryToken
           (tokenReadyCycle st op - currentCycle st)
    else stall in
  if waitcnt desc
  then waitReady ← waitcntReadyCycle st op (currentCycle st);
       Ok (addComponent stall InstructionStallKind.Waitcnt
             (waitReady - currentCycle st))
  else Ok stall.

Definition addLocalMemoryIssueStalls st (desc : InstructionDesc)
    (stall : InstructionStall) : outcome InstructionStall :=
  memoryIssueReady ← memoryIssueReadyCycles st (memoryIssueResources desc)
                       (instructionIssueCount desc) (currentCycle st);
  Ok (addComponent stall InstructionStallKind.IssueBackpressure
        (memoryIssueReady - currentCycle st)).

Definition addLocalResourceStalls st (desc : InstructionDesc)
    (stall : InstructionStall) : outcome InstructionStall :=
  pipeReady ← pipeReadyCycle st (pipe desc) (currentCycle st);
  let stall := addComponent stall InstructionStallKind.IssueBackpressure
                 (pipeReady - currentCycle st) in
  let stall :=
    if mfmaCoissueResource desc
    then addComponentAt stall InstructionStallKind.IssueBackpressure
           (mfmaCoissueReadyCycle st - currentCycle st) K.MfmaCoissue Sc.SIMD
    else stall in
  stall ← addLocalMemoryIssueStalls st desc stall;
  Ok (if ldsDmaIssue desc && smoothLdsDmaIssue config
      then addComponent stall InstructionStallKind.IssueBackpressure
             (nextLdsDmaIssueCycle st - currentCycle st)
      else stall).

Definition addSharedResourceStall st (op : Operation) (desc : InstructionDesc)
    (resourceState : InstructionResourceState) (placement : WavePlacement)
    (stall : InstructionStall) : outcome InstructionStall :=
  uses ← getResourceUses op desc resourceState;
  let resourceEarliest := saturatingAdd (currentCycle st) (stall_cycles stall) in
  resource ← ResourceState.query resourceState placement uses resourceEarliest;
  Ok (if resourceEarliest <? readyCycle resource
      then addComponentAt stall InstructionStallKind.IssueBackpressure
             (readyCycle resource - currentCycle st) (query_kind resource)
             (query_scope resource)
      else stall).

Definition addIssueHazards st (op : Operation) (desc : InstructionDesc)
    (stall : InstructionStall) : InstructionStall :=
  let stall :=
    if (m0Consumer desc && m0GapArmed st)
       || (m0Writer desc && m0DmaCaptureGapArmed st)
    then addComponent stall InstructionStallKind.M0ReadWrite 1 else stall in
  let stall :=
    if storeDataProducer desc && negb (storeDataGap st =? 0)
    then addComponent stall InstructionStallKind.StoreWriteData
           (storeDataGap st)
    else stall in
  addComponent stall InstructionStallKind.InstructionHazard
    (issueSlotHazardWait st op desc).

Definition queryWithResources st (op : Operation) (desc : InstructionDesc)
    (resourceState : option InstructionResourceState)
    (placement : WavePlacement) : outcome InstructionStall :=
  stall ← addDependencyStalls st op desc noStall;
  let stall :=
    if waitsForWindow (coexecution desc) && negb (coexecWindowSlots st =? 0)
    then addComponent stall InstructionStallKind.CoexecWindow
           (saturatingMultiply (coexecWindowSlots st) getIssuePeriod)
    else stall in
  match resourceState with
  | None =>
      stall ← addLocalResourceStalls st desc stall;
      Ok (addIssueHazards st op desc stall)
  | Some resourceState =>
      stall ← addLocalMemoryIssueStalls st desc stall;
      addSharedResourceStall st op desc resourceState placement
        (addIssueHazards st op desc stall)
  end.

(** [validateCommitOp], and the checks at the start of [query]. *)
Definition validateCommitOp (op : Operation) : outcome unit :=
  if negb (isInstructionExecutionStateArchSupported (isa arch)) then Failure
  else if negb (op_isMachine op) then Failure
  else Ok tt.

Definition query st (op : Operation) : outcome InstructionStall :=
  _ ← validateCommitOp op;
  desc ← describe st op;
  queryWithResources st op desc None (mkWavePlacement 0 0).

(** ** Commit *)

Definition consumeCoexecutionWait (desc : InstructionDesc) st :
    InstructionExecutionState :=
  if waitsForWindow (coexecution desc) && negb (coexecWindowSlots st =? 0)
  then set_coexecWindowSlots 0 st else st.

Definition commitCoexecution (desc : InstructionDesc) st :
    InstructionExecutionState :=
  let model := coexecution desc in
  if negb (filledSlots model =? 0)
  then set_coexecProducerRun 0
         (set_coexecWindowSlots
            (coexecWindowSlots st
             - Z.min (coexecWindowSlots st) (filledSlots model)) st)
  else if openedSlots model =? 0 then set_coexecProducerRun 0 st
  else
    let st := set_coexecProducerRun (u32 (coexecProducerRun st + 1)) st in
    if coexecProducerRun st <? producerBurst model then st
    else set_coexecProducerRun 0 (set_coexecWindowSlots (openedSlots model) st).

Definition commitNoMachineInst (op : Operation) st :
    Z * InstructionExecutionState :=
  let sources := if dropsTokenCompletion op then [] else op_operands op in
  fold_left (fun '(ready, st) result =>
    let st := bindValue st result sources in
    (if isMemToken result then ready
     else Z.max ready (getValueReadyCycle st result), st))
    (op_results op) (currentCycle st, st).

(** [DenseMap::insert]: an existing entry is kept. *)
Definition insertEvent (event : PendingEvent) (m : gmap N PendingEvent) :
    gmap N PendingEvent :=
  match m !! pe_id event with
  | Some _ => m
  | None => <[pe_id event := event]> m
  end.

Definition commitMemoryEvent (op : Operation) (desc : InstructionDesc)
    (issueCycle : Z) (queue : nat) (acc : list N * InstructionExecutionState)
    (issue : Z) : list N * InstructionExecutionState :=
  let '(newEvents, st) := acc in
  let id := nextEventId st in
  let event := mkPendingEvent (op_id op) id
    (issueCycle + issue * getIssuePeriod + memoryCounterLatency desc)
    (counter desc) (eventClass desc) in
  let st := set_nextEventId (id + 1)%N st in
  let st := set_events (insertEvent event (events st)) st in
  let st := set_waitQueues
    (alter (fun q => q ++ [id]) queue (waitQueues st)) st in
  (newEvents ++ [id], st).

Definition commitMemoryEvents (op : Operation) (desc : InstructionDesc)
    (issueCycle : Z) st : outcome (list N * InstructionExecutionState) :=
  if decide (counter desc = InstructionWaitCounterKind.None) then Ok ([], st)
  else
    queue ← counterIndex (counter desc);
    Ok (fold_left (commitMemoryEvent op desc issueCycle queue)
          (issueSeq (counterIssueCount desc)) ([], st)).

Definition commitResult (op : Operation) (desc : InstructionDesc)
    (issueCycle ready : Z) (deps newEvents : list N) st (result : Value) :
    InstructionExecutionState :=
  let resultReady :=
    if m0Writer desc && bool_decide (value_type result = M0Type)
    then issueCycle else ready in
  let key := value_id result in
  let st := set_valueReadyAt (<[key := resultReady]> (valueReadyAt st)) st in
  if isMemToken result
  then set_tokenEvents (<[key := deps]> (tokenEvents st)) st
  else match last newEvents with
       | Some id => set_valueEvent (<[key := id]> (valueEvent st)) st
       | None => st
       end.

Definition commitResults (op : Operation) (desc : InstructionDesc)
    (issueCycle : Z) (newEvents : list N) st : InstructionExecutionState :=
  let deps := appendUniqueEvents (collectTokenDeps st op) newEvents in
  let ready := getResultReadyCycle op desc issueCycle in
  fold_left (commitResult op desc issueCycle ready deps newEvents)
    (op_results op) st.

Definition commitPipe (pipe : InstructionPipeKind.t) (readyCycle : Z) st :
    outcome InstructionExecutionState :=
  if decide (pipe = InstructionPipeKind.None) then Ok st
  else
    queue ← pipeIndex pipe;
    Ok (set_pipeQueues
          (alter (fun q => q ++ [readyCycle]) queue (pipeQueues st)) st).

Definition commitMemoryIssue (desc : InstructionDesc) (issueCycle : Z) st :
    InstructionExecutionState :=
  fold_left (fun st resource =>
    if negb (hasMemoryIssueResource (memoryIssueResources desc) resource)
    then st
    else
      let latency := memoryIssueLatency arch resource in
      if (maxInFlightForMemoryIssue arch resource =? 0) || (latency <=? 0)
      then st
      else
        let readyCycles :=
          (fun issue => issueCycle + issue * getIssuePeriod + latency)
            <$> issueSeq (instructionIssueCount desc) in
        set_memoryIssueQueues
          (alter (fun q => q ++ readyCycles) (memoryIssueIndex resource)
             (memoryIssueQueues st)) st)
    kMemoryIssueResources st.

(** [issueSlotHazards[result]], default-constructed when absent. *)
Definition updateHazards (f : IssueSlotHazards -> IssueSlotHazards)
    (result : Value) st : InstructionExecutionState :=
  set_issueSlotHazards
    (<[value_id result :=
         f (default noHazards (issueSlotHazards st !! value_id result))]>
       (issueSlotHazards st)) st.

Definition mfmaHazards (currentIssueSlot passes : Z) (h : IssueSlotHazards) :
    IssueSlotHazards :=
  mkHazards (valuWriteVGPRScalarReadyAt h) (valuWriteVGPRMfmaReadyAt h)
    (valuWriteVGPRPermlane32SwapReadyAt h) (transWriteVGPRReadyAt h)
    (valuWriteSGPRReadyAt h)
    (u64 (currentIssueSlot + getXdlResultHazardLatency (isa arch) passes))
    (u64 (currentIssueSlot + getXdlSrcCOverlapHazardLatency (isa arch) passes))
    (u64 (currentIssueSlot + getXdlSrcCExactHazardLatency (isa arch) passes)).

Definition vgprHazards (currentIssueSlot : Z) (trans : bool)
    (h : IssueSlotHazards) : IssueSlotHazards :=
  let c := issueSlotHazardConfig in
  mkHazards
    (u64 (currentIssueSlot + cfg_valuWriteVGPRScalarRead c))
    (u64 (currentIssueSlot + cfg_valuWriteVGPRMfmaRead c))
    (if negb (cfg_valuWriteVGPRPermlane32Swap c =? 0)
     then u64 (currentIssueSlot + cfg_valuWriteVGPRPermlane32Swap c)
     else valuWriteVGPRPermlane32SwapReadyAt h)
    (if trans then u64 (currentIssueSlot + cfg_transWriteVGPRValuRead c)
     else transWriteVGPRReadyAt h)
    (valuWriteSGPRReadyAt h) (mfmaResultReadyAt h) (mfmaSrcCOverlapReadyAt h)
    (mfmaSrcCExactReadyAt h).

Definition sgprHazards (currentIssueSlot : Z) (h : IssueSlotHazards) :
    IssueSlotHazards :=
  mkHazards (valuWriteVGPRScalarReadyAt h) (valuWriteVGPRMfmaReadyAt h)
    (valuWriteVGPRPermlane32SwapReadyAt h) (transWriteVGPRReadyAt h)
    (u64 (currentIssueSlot
          + cfg_valuWriteSGPRValuRead issueSlotHazardConfig))
    (mfmaResultReadyAt h) (mfmaSrcCOverlapReadyAt h) (mfmaSrcCExactReadyAt h).

Definition commitIssueSlotProducer (op : Operation) (desc : InstructionDesc)
    st : InstructionExecutionState :=
  if negb (mfmaPasses desc =? 0)
  then fold_left (fun st result =>
         updateHazards (mfmaHazards (currentIssueSlot st) (mfmaPasses desc))
           result st) (op_results op) st
  else fold_left (fun st result =>
         let regClass := getRegClass result in
         let st :=
           if decide (regClass = Some RegClass.VGPR)
           then updateHazards (vgprHazards (currentIssueSlot st) (trans desc))
                  result st
           else st in
         if isValuScalarHazardResult regClass
         then updateHazards (sgprHazards (currentIssueSlot st)) result st
         else st) (op_results op) st.

Definition commitIssueSlotHazards (op : Operation) (desc : InstructionDesc)
    st : InstructionExecutionState :=
  if negb (mfmaPasses desc =? 0)
     || (legacyVALU desc && negb (hazardConfigEmpty issueSlotHazardConfig))
  then commitIssueSlotProducer op desc st else st.

Definition commitM0 (desc : InstructionDesc) st : InstructionExecutionState :=
  let st :=
    if m0Writer desc then set_m0GapArmed true st
    else if waitcnt desc || negb (noMachineInst desc)
    then set_m0GapArmed false st else st in
  if ldsDmaIssue desc && isCDNA4 (isa arch)
  then set_m0DmaCaptureGapArmed true st
  else if waitcnt desc || negb (noMachineInst desc)
  then set_m0DmaCaptureGapArmed false st else st.

Definition commitStoreData (desc : InstructionDesc) st :
    InstructionExecutionState :=
  let st :=
    if storeDataProducer desc && negb (storeDataGap st =? 0)
    then set_storeDataGap 0 st
    else if negb (noMachineInst desc) && negb (storeDataGap st =? 0)
    then set_storeDataGap (storeDataGap st - 1) st else st in
  set_storeDataGap (Z.max (storeDataGap st) (storeDataHazardLatency desc)) st.

(** The part of [commitWithResources] before the two cases: the stall is
    waited for. *)
Definition beginIssue (desc : InstructionDesc) (stall : InstructionStall) st :
    InstructionExecutionState :=
  let st := set_currentCycle (currentCycle st + stall_cycles stall) st in
  let st := pruneRetiredEvents (currentCycle st) st in
  let st := set_currentIssueSlot
    (u64 (currentIssueSlot st + getIssueHazardWait stall)) st in
  consumeCoexecutionWait desc st.

(** The case of an operation that emits no instruction. *)
Definition finishNoMachineInst (op : Operation) (desc : InstructionDesc)
    (stall : InstructionStall) st :
    InstructionCommitResult * InstructionExecutionState :=
  let issueCycle := currentCycle st in
  let '(valueReady, st) := commitNoMachineInst op st in
  let st := commitStoreData desc (commitM0 desc st) in
  (mkCommitResult stall stall stall issueCycle (currentCycle st) valueReady
     (tokenReadyCycle st op), st).

(** The uses entered in the shared calendars, or the local pipes. *)
Definition commitResources (op : Operation) (desc : InstructionDesc)
    (resourceState : option InstructionResourceState)
    (placement : WavePlacement) (issueCycle valueReadyCycle : Z) st :
    outcome (InstructionExecutionState * option InstructionResourceState) :=
  match resourceState with
  | Some resources =>
      uses ← getResourceUses op desc resources;
      resources ← ResourceState.commit resources placement uses issueCycle;
      Ok (commitMemoryIssue desc issueCycle st, Some resources)
  | None =>
      st ← commitPipe (pipe desc) valueReadyCycle st;
      let st :=
        if mfmaCoissueResource desc
        then set_mfmaCoissueReadyCycle
               (saturatingAdd issueCycle (resourceDuration desc)) st
        else st in
      Ok (commitMemoryIssue desc issueCycle st, None)
  end.

Definition finishInstruction (op : Operation) (desc : InstructionDesc)
    (stall : InstructionStall)
    (resourceState : option InstructionResourceState)
    (placement : WavePlacement) st :
    outcome (InstructionCommitResult * InstructionExecutionState
             * option InstructionResourceState) :=
  let issueCycle := currentCycle st in
  '(newEvents, st) ← commitMemoryEvents op desc issueCycle st;
  let st :=
    if ldsDmaIssue desc && smoothLdsDmaIssue config
       && bool_decide (resourceState = None)
    then set_nextLdsDmaIssueCycle
           (saturatingAdd issueCycle
              (getLdsDmaServiceInterval arch getIssuePeriod
                 (ldsDmaIssueWaveStreams config))) st
    else st in
  let valueReadyCycle := getResultReadyCycle op desc issueCycle in
  let st := commitResults op desc issueCycle newEvents st in
  '(st, resourceState) ← commitResources op desc resourceState placement
                           issueCycle valueReadyCycle st;
  let st := set_currentIssueSlot
    (u64 (currentIssueSlot st + issueSlots desc)) st in
  let st := commitCoexecution desc st in
  let st := commitIssueSlotHazards op desc st in
  let st := commitM0 desc st in
  let st := commitStoreData desc st in
  let st := set_currentCycle
    (saturatingAdd issueCycle (getInstructionSpan desc)) st in
  let st := pruneRetiredEvents (currentCycle st) st in
  Ok (mkCommitResult stall stall stall issueCycle (currentCycle st)
        valueReadyCycle (getTokenReadyCycle st op newEvents),
      st, resourceState).

Definition commitWithResources st (op : Operation)
    (resourceState : option InstructionResourceState)
    (placement : WavePlacement) :
    outcome (InstructionCommitResult * InstructionExecutionState
             * option InstructionResourceState) :=
  _ ← validateCommitOp op;
  desc ← describe st op;
  stall ← queryWithResources st op desc resourceState placement;
  let st := beginIssue desc stall st in
  if noMachineInst desc
  then let '(result, st) := finishNoMachineInst op desc stall st in
       Ok (result, st, resourceState)
  else finishInstruction op desc stall resourceState placement st.

Definition commit st (op : Operation) :
    outcome (InstructionCommitResult * InstructionExecutionState) :=
  '(result, st, _) ← commitWithResources st op None (mkWavePlacement 0 0);
  Ok (result, st).

End State.

(** Proofs unfold these by name. *)
Arguments describe : simpl never.
Arguments queryWithResources : simpl never.
Arguments beginIssue : simpl never.
Arguments commitM0 : simpl never.
Arguments commitStoreData : simpl never.
Arguments commitCoexecution : simpl never.
Arguments commitIssueSlotHazards : simpl never.
Arguments commitMemoryIssue : simpl never.
Arguments commitResults : simpl never.
Arguments pruneRetiredEvents : simpl never.
Arguments bindValue : simpl never.
