(* ===== verification/MultiWave.v ===== *)
(** * Waves of a compute unit ([MultiWaveExecutionState.h], [.cpp])

    One issue state per resident wave, the shared resource calendars and a
    round-robin cursor per SIMD.  [selectWave] picks the wave that issues
    next, [commitWave] issues an operation on a wave; a cohort issues one
    operation on each of its waves.  When an operation of the code fails after
    it has changed the state, the model keeps only the failure. *)

From stdpp Require Import base tactics list gmap sorting strings.
From S2P Require Import Prelude CostEnums ArchData MachineIR LatencyTable.
From S2P Require Import OpClassifier MemoryTiming ScheduleModel.
From S2P Require Import ResourceState ExecState ExecOps.

(** ** Placements *)

Definition placementKey (arch : ArchData) (placement : WavePlacement) : Z :=
  u64 (Z.of_nat (simd placement) * wavesPerSIMD arch
       + Z.of_nat (slot placement)).

Fixpoint placementsDistinct (arch : ArchData) (placements : list WavePlacement)
    (seen : gset Z) : bool :=
  match placements with
  | [] => true
  | placement :: placements' =>
      if (u32 (simdsPerCU arch) <=? Z.of_nat (simd placement))
         || (u32 (wavesPerSIMD arch) <=? Z.of_nat (slot placement))
      then false
      else
        let key := placementKey arch placement in
        if decide (key ∈ seen) then false
        else placementsDistinct arch placements' ({[key]} ∪ seen)
  end.

Definition areWavePlacementsValid (arch : ArchData)
    (placements : list WavePlacement) : bool :=
  match placements with
  | [] => false
  | _ =>
      let maxPlacements := u64 (simdsPerCU arch * wavesPerSIMD arch) in
      if maxPlacements <? Z.of_nat (length placements) then false
      else placementsDistinct arch placements ∅
  end.

Definition getFullCUWavePlacements (arch : ArchData) (wavesPerSIMD_ : Z) :
    list WavePlacement :=
  if (wavesPerSIMD_ =? 0) || (u32 (wavesPerSIMD arch) <? wavesPerSIMD_)
  then []
  else
    seq 0 (Z.to_nat (u32 (simdsPerCU arch))) ≫= fun simd =>
      (fun slot => mkWavePlacement simd slot) <$> seq 0 (Z.to_nat wavesPerSIMD_).

(** ** Selection order *)

Record MultiWaveCandidate : Set := mkCandidate {
  cand_cycle : Z;
  cand_wave : nat;
  cand_simd : nat;
  roundRobinRank : Z
}.

Definition isEarlier (lhs rhs : MultiWaveCandidate) : bool :=
  if negb (cand_cycle lhs =? cand_cycle rhs)
  then cand_cycle lhs <? cand_cycle rhs
  else if negb (cand_simd lhs =? cand_simd rhs)%nat
  then (cand_simd lhs <? cand_simd rhs)%nat
  else if negb (roundRobinRank lhs =? roundRobinRank rhs)
  then roundRobinRank lhs <? roundRobinRank rhs
  else (cand_wave lhs <? cand_wave rhs)%nat.

(** ** Stalls by kind *)

Definition filterStall (keep : InstructionStallComponent -> bool)
    (stall : InstructionStall) : InstructionStall :=
  fold_left (fun result component =>
    if negb (keep component) then result
    else
      let components' := components result ++ [component] in
      if stall_cycles result <? comp_cycles component
      then mkStall (comp_kind component) (comp_cycles component) components'
      else mkStall (stall_kind result) (stall_cycles result) components')
    (components stall) noStall.

Definition getPriorityStall : InstructionStall -> InstructionStall :=
  filterStall (fun component =>
    bool_decide (comp_kind component <> InstructionStallKind.IssueBackpressure)
    || bool_decide (comp_resource component <> K.MfmaCoissue)).

Definition getComputePriorityStall : InstructionStall -> InstructionStall :=
  filterStall (fun component =>
    bool_decide (comp_kind component <> InstructionStallKind.IssueBackpressure)).

(** ** The state *)

Record MultiWaveExecutionState : Type := mkMultiWave {
  placements : list WavePlacement;
  waves : list InstructionExecutionState;
  roundRobinCursor : list Z;
  resources : InstructionResourceState
}.

Section MultiWave.
Context `{LLVMTarget}.
Context (graph : UseGraph) (arch : ArchData)
  (config : InstructionExecutionConfig).

Implicit Types mw : MultiWaveExecutionState.

Definition makeMultiWave (placements : list WavePlacement) :
    outcome MultiWaveExecutionState :=
  resources ← makeResourceState arch (length placements)
                (getResourceCapacities config);
  _ ← assertion (areWavePlacementsValid arch placements)
        "invalid resident wave placements";
  Ok (mkMultiWave placements ((fun _ => initialState) <$> placements)
        (replicate (Z.to_nat (u32 (simdsPerCU arch))) 0) resources).

Definition getWaveCount mw : nat := length (waves mw).

Definition getPlacement mw (wave : nat) : outcome WavePlacement :=
  at_index (placements mw) wave.

(** Without the assertion, a zero count divides by zero. *)
Definition getWaveCohort mw (wave : nat) (cohortCount : Z) : outcome Z :=
  if cohortCount =? 0 then Fatal "cohort count must be nonzero" else
  placement ← getPlacement mw wave;
  let ordinal :=
    if u64 (simdsPerCU arch) <? Z.of_nat (length (placements mw))
    then slot placement else simd placement in
  Ok (Z.of_nat ordinal mod cohortCount).

Definition getCurrentCycle mw (wave : nat) : outcome Z :=
  st ← at_index (waves mw) wave; Ok (currentCycle st).

Definition rendezvous mw : outcome MultiWaveExecutionState :=
  let cycle := fold_left (fun cycle wave => Z.max cycle (currentCycle wave))
                 (waves mw) 0 in
  waves ← foldM (fun advanced wave =>
            wave ← advanceToCycle cycle wave; Ok (advanced ++ [wave]))
            [] (waves mw);
  Ok (mkMultiWave (placements mw) waves (roundRobinCursor mw) (resources mw)).

Definition mw_getValueReadyCycle mw (wave : nat) (value : Value) : outcome Z :=
  st ← at_index (waves mw) wave; Ok (getValueReadyCycle st value).

Definition set_wave (wave : nat) (st : InstructionExecutionState) mw :
    MultiWaveExecutionState :=
  mkMultiWave (placements mw) (<[wave := st]> (waves mw))
    (roundRobinCursor mw) (resources mw).

Definition mw_bindValue mw (wave : nat) (result : Value)
    (sources : list Value) : outcome MultiWaveExecutionState :=
  st ← at_index (waves mw) wave;
  Ok (set_wave wave (bindValue st result sources) mw).

Definition mw_getPendingMemoryEventCount mw (wave : nat)
    (kind : InstructionWaitCounterKind.t) : outcome Z :=
  st ← at_index (waves mw) wave; getPendingMemoryEventCount st kind.

Definition mw_getPipeInFlightCount mw (wave : nat)
    (kind : InstructionPipeKind.t) : outcome Z :=
  placement ← getPlacement mw wave;
  cycle ← getCurrentCycle mw wave;
  getActiveReservationCount (resources mw) (resourceForPipe kind) placement
    cycle.

Definition getRoundRobinRank mw (wave : nat) : outcome Z :=
  placement ← getPlacement mw wave;
  cursor ← at_index (roundRobinCursor mw) (simd placement);
  Ok (u32 (Z.of_nat (slot placement) + wavesPerSIMD arch - cursor)
      mod wavesPerSIMD arch).

(** ** Queries *)

Definition mw_query mw (wave : nat) (op : Operation) :
    outcome InstructionStall :=
  match waves mw !! wave with
  | None => Failure
  | Some st =>
      _ ← validateCommitOp arch op;
      desc ← describe graph arch config st op;
      placement ← getPlacement mw wave;
      queryWithResources arch config st op desc (Some (resources mw)) placement
  end.

Definition getIssueOpportunityCycle mw (wave : nat) : outcome Z :=
  st ← at_index (waves mw) wave;
  placement ← getPlacement mw wave;
  let uses := appendIssueResourceUses arch config 1 0
                (getIssuePeriod arch config) [] in
  query ← ResourceState.query (resources mw) placement uses (currentCycle st);
  Ok (readyCycle query).

(** The components that remain once [covered] cycles are spent waiting for
    the issue port. *)
Definition uncoveredStall (covered : Z) (raw : InstructionStall) :
    InstructionStall :=
  fold_left (fun stall component =>
    let cycles :=
      if decide (comp_kind component <> InstructionStallKind.CoexecWindow)
      then Z.max 0 (comp_cycles component - covered)
      else comp_cycles component in
    if cycles =? 0 then stall
    else
      let components' := components stall
        ++ [mkComponent (comp_kind component) cycles (comp_resource component)
              (comp_scope component)] in
      if stall_cycles stall <? cycles
      then mkStall (comp_kind component) cycles components'
      else mkStall (stall_kind stall) (stall_cycles stall) components')
    (components raw) noStall.

Definition queryAfterIssueOpportunity mw (wave : nat) (op : Operation) :
    outcome InstructionStall :=
  raw ← mw_query mw wave op;
  opportunity ← getIssueOpportunityCycle mw wave;
  cycle ← getCurrentCycle mw wave;
  Ok (uncoveredStall (Z.max 0 (opportunity - cycle)) raw).

Definition wouldStall mw (wave : nat) (op : Operation) : outcome bool :=
  stall ← queryAfterIssueOpportunity mw wave op;
  Ok (negb (stall_cycles stall =? 0)).

(** ** Arbitration *)

Definition validateWaveArbitration : outcome unit :=
  if decide (waveIssueArbitration arch = WaveIssueArbitration.RoundRobin)
  then Ok tt else Failure.

(** The candidate of one wave, as the loop of [selectWave] builds it. *)
Definition makeCandidate mw (wave : nat) (op : Operation) :
    outcome MultiWaveCandidate :=
  stall ← mw_query mw wave op;
  placement ← getPlacement mw wave;
  cycle ← getCurrentCycle mw wave;
  rank ← getRoundRobinRank mw wave;
  Ok (mkCandidate (cycle + stall_cycles stall) wave (simd placement) rank).

Definition selectStep mw (candidates : list (option Operation))
    (best : option MultiWaveCandidate) (wave : nat) :
    outcome (option MultiWaveCandidate) :=
  entry ← at_index candidates wave;
  match (entry : option Operation) with
  | None => Ok best
  | Some op =>
      candidate ← makeCandidate mw wave op;
      Ok (match best with
          | None => Some candidate
          | Some b => if isEarlier candidate b then Some candidate else best
          end)
  end.

Definition selectWave mw (candidates : list (option Operation)) : outcome nat :=
  _ ← assertion (length candidates =? length (waves mw))%nat
        "one candidate per wave";
  _ ← validateWaveArbitration;
  best ← foldM (selectStep mw candidates) None (seq 0 (getWaveCount mw));
  match (best : option MultiWaveCandidate) with
  | None => Failure
  | Some b => Ok (cand_wave b)
  end.

(** ** Commit on a wave *)

Definition withPriorityStalls (result : InstructionCommitResult) :
    InstructionCommitResult :=
  mkCommitResult (result_stall result) (getPriorityStall (result_stall result))
    (getComputePriorityStall (result_stall result)) (issueCycle result)
    (nextIssueCycle result) (valueReadyCycle result)
    (result_tokenReadyCycle result).

Definition commitWave mw (wave : nat) (op : Operation) :
    outcome (InstructionCommitResult * MultiWaveExecutionState) :=
  match waves mw !! wave with
  | None => Failure
  | Some st =>
      placement ← getPlacement mw wave;
      '(result, st, shared) ← commitWithResources graph arch config st op
                                (Some (resources mw)) placement;
      let result := withPriorityStalls result in
      cls ← classifyOp op;
      let cursor :=
        if decide (cls = SchedClass.NoInst) then roundRobinCursor mw
        else <[simd placement :=
                 u32 (Z.of_nat (slot placement) + 1) mod wavesPerSIMD arch]>
               (roundRobinCursor mw) in
      Ok (result,
          mkMultiWave (placements mw) (<[wave := st]> (waves mw)) cursor
            (default (resources mw) shared))
  end.

(** ** Cohorts *)

Record MultiWaveCohortExecutionState : Type := mkCohort {
  cohort_waves : list nat;
  cohort_state : MultiWaveExecutionState
}.

Definition areCohortWavesValid mw (ws : list nat) : bool :=
  bool_decide (ws <> []) && forallb (fun w => (w <? getWaveCount mw)%nat) ws
  && bool_decide (NoDup ws).

Definition makeCohort mw (ws : list nat) :
    outcome MultiWaveCohortExecutionState :=
  _ ← assertion (areCohortWavesValid mw ws) "invalid multi-wave cohort";
  Ok (mkCohort ws mw).

(** [candidates[wave] = op] for the waves of the cohort. *)
Definition cohortCandidates (cohort : MultiWaveCohortExecutionState)
    (op : Operation) : list (option Operation) :=
  fold_left (fun candidates wave => <[wave := Some op]> candidates)
    (cohort_waves cohort)
    (replicate (getWaveCount (cohort_state cohort)) None).

Definition queryPriorityStall (cohort : MultiWaveCohortExecutionState)
    (op : Operation) : outcome InstructionStall :=
  wave ← selectWave (cohort_state cohort) (cohortCandidates cohort op);
  stall ← queryAfterIssueOpportunity (cohort_state cohort) wave op;
  Ok (getPriorityStall stall).

(** The loop of [commit] while a candidate is left; every round clears one
    entry, so the number of entries is enough fuel. *)
Fixpoint commitCohort (fuel : nat) (op : Operation) mw
    (candidates : list (option Operation))
    (first : option InstructionCommitResult) :
    outcome (option InstructionCommitResult * MultiWaveExecutionState) :=
  if negb (existsb (fun c : option Operation => bool_decide (is_Some c))
             candidates)
  then Ok (first, mw)
  else match fuel with
  | O => Fatal "out of fuel"
  | S fuel' =>
      wave ← selectWave mw candidates;
      stall ← queryAfterIssueOpportunity mw wave op;
      '(result, mw) ← commitWave mw wave op;
      let first :=
        match first with
        | Some _ => first
        | None => Some (withPriorityStalls
            (mkCommitResult stall stall stall (issueCycle result)
               (nextIssueCycle result) (valueReadyCycle result)
               (result_tokenReadyCycle result)))
        end in
      commitCohort fuel' op mw (<[wave := None]> candidates) first
  end.

Definition cohortCommit (cohort : MultiWaveCohortExecutionState)
    (op : Operation) :
    outcome (InstructionCommitResult * MultiWaveCohortExecutionState) :=
  let candidates := cohortCandidates cohort op in
  '(first, mw) ← commitCohort (length candidates) op (cohort_state cohort)
                   candidates None;
  match (first : option InstructionCommitResult) with
  | None => Failure
  | Some result => Ok (result, mkCohort (cohort_waves cohort) mw)
  end.

(** [waves.front()] of an empty cohort is excluded by an assertion. *)
Definition cohortCurrentCycle (cohort : MultiWaveCohortExecutionState) :
    outcome Z :=
  match cohort_waves cohort with
  | [] => Fatal "empty cohort"
  | front :: rest =>
      cycle ← getCurrentCycle (cohort_state cohort) front;
      foldM (fun cycle wave =>
        waveCycle ← getCurrentCycle (cohort_state cohort) wave;
        Ok (Z.min cycle waveCycle)) cycle rest
  end.

Definition cohortBindValue (cohort : MultiWaveCohortExecutionState)
    (result : Value) (sources : list Value) :
    outcome MultiWaveCohortExecutionState :=
  mw ← foldM (fun mw wave => mw_bindValue mw wave result sources)
         (cohort_state cohort) (cohort_waves cohort);
  Ok (mkCohort (cohort_waves cohort) mw).

Definition setState (cohort : MultiWaveCohortExecutionState) mw :
    outcome MultiWaveCohortExecutionState :=
  _ ← assertion (areCohortWavesValid mw (cohort_waves cohort))
        "invalid multi-wave cohort state";
  Ok (mkCohort (cohort_waves cohort) mw).
Definition takeState (cohort : MultiWaveCohortExecutionState) :
    MultiWaveExecutionState := cohort_state cohort.

End MultiWave.
