(* ===== verification/EventSim.v ===== *)
(** * Event simulator ([EventSimulator.h], [EventSimulator.cpp])

    Runs a machine program through the issue state and records the timeline.
    [StateTimeline] follows one wave through structured control flow,
    estimating both branches of an [if] and taking the dearer one;
    [MultiWaveTimeline] interleaves all waves of a compute unit over a linear
    program. *)

From stdpp Require Import base tactics list gmap sorting strings.
From S2P Require Import Prelude CostEnums ArchData MachineIR LatencyTable.
From S2P Require Import OpClassifier MemoryTiming ScheduleModel.
From S2P Require Import ResourceState ExecState ExecOps MultiWave.

(** ** Configuration and result *)

Record EventSimConfig : Set := mkSimConfig {
  sim_wavesPerSIMD : Z;
  sim_wavefrontSize : Z;
  tripCountOverride : Z;
  sim_calibration : option CalibrationData;
  recordTimeline : bool;
  completePendingLdsDmaCounters : bool;
  cmaIssueInterval : Z;
  sim_counterLatencies : MemoryCounterLatencies;
  sim_valueLatencies : MemoryValueLatencies
}.

Definition makeSimConfig (wavefrontSize : Z) : EventSimConfig :=
  mkSimConfig 0 wavefrontSize (-1) None false false 0 defaultCounterLatencies
    defaultValueLatencies.

Module EventSimEventKind.
Inductive t : Set := OpIssued | ValueReady | CounterDrained | WaveCompleted.
#[global] Instance t_eq_dec : EqDecision t.
Proof. solve_decision. Defined.
End EventSimEventKind.

(** [EventSimCounter] is [MemoryCounterKind]; [ev_op] is the address of the
    operation, 0 for the null pointer. *)
Record EventSimEvent : Set := mkSimEvent {
  ev_cycle : Z;
  ev_kind : EventSimEventKind.t;
  ev_op : N;
  ev_fu : FunctionalUnit.t;
  ev_counter : MemoryCounterKind.t;
  ev_wave : nat;
  ev_simd : nat
}.

Record EventSimResult : Set := mkSimResult {
  totalCycles : Z;
  issuedOps : Z;
  completedCycle : Z;
  waveCompletedCycles : list Z;
  sim_events : list EventSimEvent
}.
Definition emptyResult : EventSimResult := mkSimResult 0 0 0 [] [].

Definition isEventSimCmaClass (cls : SchedClass.t) : bool :=
  match cls with
  | SchedClass.Write2PassMAI | SchedClass.Write4PassMAI
  | SchedClass.Write8PassMAI | SchedClass.Write16PassMAI
  | SchedClass.WriteXDL2PassWMMA | SchedClass.WriteXDL4PassWMMA
  | SchedClass.Write4PassWMMA | SchedClass.Write8PassWMMA
  | SchedClass.Write16PassWMMA => true
  | _ => false
  end.

Definition getEventSimIssuePeriod (arch : ArchData) (config : EventSimConfig) :
    Z :=
  let period := Z.max 1 (simdIssuePeriod arch) in
  if sim_wavefrontSize config =? 64
  then period * Z.max 1 (wave64IssueMultiplier arch) else period.

Definition getEventSimCmaIssueInterval (arch : ArchData)
    (config : EventSimConfig) : Z :=
  if 0 <? cmaIssueInterval config then cmaIssueInterval config
  else if cmaIssueInterval config <? 0 then getEventSimIssuePeriod arch config
  else 0.

Definition getEventSimCmaIssueCapacity (arch : ArchData) : Z :=
  Z.max 1 (simdsPerCU arch).

Definition getEventSimCmaIssueCount (op : Operation) (cls : SchedClass.t)
    (issues : Z) : Z :=
  if negb (isLdsDmaIssuer op) && negb (isEventSimCmaClass cls) then 0
  else Z.max 1 issues.

Definition getModelLoopTripCount (loop : Operation) (config : EventSimConfig) :
    Z :=
  if 0 <=? tripCountOverride config then tripCountOverride config
  else match op_kind loop with
       | UniformLoopOp _ (Some trip) => Z.max 0 trip
       | _ => 1
       end.

Definition isWaitcntOp (op : Operation) : bool := hasTrait op Trait.WaitcntOp.

Definition getCounterIssueCount (op : Operation) : Z :=
  match op_waitcnt op with
  | Some info => issueCount info
  | None => 0
  end.

Definition buildInstructionConfig (arch : ArchData) (config : EventSimConfig) :
    InstructionExecutionConfig :=
  let c := makeConfig (sim_wavefrontSize config) in
  mkConfig (sim_calibration config) (sim_counterLatencies config)
    (sim_valueLatencies config) (wavefrontSize c)
    (getEventSimIssuePeriod arch config) (enablePipeBackpressure c)
    (smoothLdsDmaIssue c) (ldsDmaIssueWaveStreams c) (valuMaxInFlight c)
    (saluMaxInFlight c) (xdlMaxInFlight c) (scheduleModel c)
    (dmaIssueDelayCohortPolicy c).

Definition toEventCounter (kind : MemoryCounterKind.t) : MemoryCounterKind.t :=
  match kind with
  | MemoryCounterKind.Vmem => MemoryCounterKind.Vmem
  | MemoryCounterKind.Lgkm => MemoryCounterKind.Lgkm
  | MemoryCounterKind.Vscnt => MemoryCounterKind.Vscnt
  | MemoryCounterKind.Async => MemoryCounterKind.Async
  | MemoryCounterKind.Tensor => MemoryCounterKind.Tensor
  | MemoryCounterKind.None => MemoryCounterKind.None
  end.

Definition eventKindRank (kind : EventSimEventKind.t) : Z :=
  match kind with
  | EventSimEventKind.OpIssued => 0
  | EventSimEventKind.ValueReady => 1
  | EventSimEventKind.CounterDrained => 2
  | EventSimEventKind.WaveCompleted => 3
  end.

(** ** Programs

    An operation with its regions.  [None] is an empty region, [Some body] a
    region whose front block is [body]; the last operation of a block is its
    terminator. *)

Inductive Node : Type :=
  | OpNode (op : Operation)
  | LoopNode (op : Operation) (args : list Value) (body : list Node)
  | IfNode (op : Operation) (thenRegion elseRegion : option (list Node))
  | ExecIfNode (op : Operation) (thenRegion elseRegion : option (list Node)).

Definition node_op (node : Node) : Operation :=
  match node with
  | OpNode op | LoopNode op _ _ | IfNode op _ _ | ExecIfNode op _ _ => op
  end.

(** [dyn_cast<YieldOp>(region.front().getTerminator())]: its values. *)
Definition getYield (region : option (list Node)) : option Operation :=
  match region with
  | None => None
  | Some body =>
      match last body with
      | Some (OpNode op) => match op_kind op with
                            | YieldOp => Some op
                            | _ => None
                            end
      | _ => None
      end
  end.

(** [terminator.getCarries()]: the operands after the condition. *)
Definition getContinueCarries (body : list Node) : option (list Value) :=
  match last body with
  | Some (OpNode op) => match op_kind op with
                        | ContinueIfOp => Some (tail (op_operands op))
                        | _ => None
                        end
  | _ => None
  end.

Definition loopInits (op : Operation) : list Value :=
  match op_kind op with UniformLoopOp inits _ => inits | _ => [] end.

(** ** One wave *)

Record StateTimeline : Type := mkTimeline {
  tl_state : InstructionExecutionState;
  tl_out : EventSimResult;
  tl_record : bool;
  tl_lastReady : Z;
  tl_lastCounterReady : Z
}.

Section Timeline.
Context `{LLVMTarget}.
Context (graph : UseGraph) (arch : ArchData) (config : EventSimConfig).

Implicit Types tl : StateTimeline.

Definition stateConfig : InstructionExecutionConfig :=
  buildInstructionConfig arch config.

Definition startTimeline (record : bool) : StateTimeline :=
  mkTimeline initialState emptyResult record 0 0.

Definition getCompleteCycle tl : Z :=
  let complete := Z.max (tl_lastReady tl) (currentCycle (tl_state tl)) in
  if completePendingLdsDmaCounters config
  then Z.max complete (tl_lastCounterReady tl) else complete.

Definition record (event : EventSimEvent) tl : StateTimeline :=
  if negb (tl_record tl) then tl
  else
    let out := tl_out tl in
    mkTimeline (tl_state tl)
      (mkSimResult (totalCycles out) (issuedOps out) (completedCycle out)
         (waveCompletedCycles out) (sim_events out ++ [event]))
      (tl_record tl) (tl_lastReady tl) (tl_lastCounterReady tl).

Definition set_tl_state (st : InstructionExecutionState) tl : StateTimeline :=
  mkTimeline st (tl_out tl) (tl_record tl) (tl_lastReady tl)
    (tl_lastCounterReady tl).

Definition raiseLastReady (ready : Z) tl : StateTimeline :=
  mkTimeline (tl_state tl) (tl_out tl) (tl_record tl)
    (Z.max (tl_lastReady tl) ready) (tl_lastCounterReady tl).

Definition raiseLastCounterReady (ready : Z) tl : StateTimeline :=
  mkTimeline (tl_state tl) (tl_out tl) (tl_record tl)
    (tl_lastReady tl) (Z.max (tl_lastCounterReady tl) ready).

Definition countIssued tl : StateTimeline :=
  let out := tl_out tl in
  mkTimeline (tl_state tl)
    (mkSimResult (totalCycles out) (issuedOps out + 1) (completedCycle out)
       (waveCompletedCycles out) (sim_events out))
    (tl_record tl) (tl_lastReady tl) (tl_lastCounterReady tl).

(** [recordValueReady] at a known cycle. *)
Definition recordReadyAt (op : Operation) (fu : FunctionalUnit.t) (ready : Z)
    tl : StateTimeline :=
  record (mkSimEvent ready EventSimEventKind.ValueReady (op_id op) fu
            MemoryCounterKind.None 0 0) (raiseLastReady ready tl).

Definition recordValueReady (op : Operation) (result : Value) tl :
    StateTimeline :=
  recordReadyAt op FunctionalUnit.None
    (getValueReadyCycle (tl_state tl) result) tl.

Definition recordMemoryCounters (op : Operation) (fu : FunctionalUnit.t)
    (result : InstructionCommitResult) tl : outcome StateTimeline :=
  counterKind ← getMemoryCounterKind op;
  if decide (counterKind = MemoryCounterKind.None) then Ok tl
  else
    latency ← getMemoryCounterLatency arch op (sim_counterLatencies config)
                (sim_calibration config);
    let period := getEventSimIssuePeriod arch config in
    Ok (fold_left (fun tl issue =>
      let ready := issueCycle result + issue * period + latency in
      record (mkSimEvent ready EventSimEventKind.CounterDrained (op_id op) fu
                (toEventCounter counterKind) 0 0)
        (raiseLastCounterReady ready tl))
      (issueSeq (getCounterIssueCount op)) tl).

Definition commitAndRecord (op : Operation) tl : outcome StateTimeline :=
  '(result, st) ← commit graph arch stateConfig (tl_state tl) op;
  let tl := set_tl_state st tl in
  cls ← classifyOp op;
  let realInst := bool_decide (cls <> SchedClass.NoInst) in
  fu ← (if (realInst : bool) then funit arch cls else Ok FunctionalUnit.None);
  let tl :=
    if realInst
    then record (mkSimEvent (issueCycle result) EventSimEventKind.OpIssued
                   (op_id op) fu MemoryCounterKind.None 0 0) (countIssued tl)
    else tl in
  let tl :=
    if isWaitcntOp op
    then record (mkSimEvent (issueCycle result)
                   EventSimEventKind.CounterDrained (op_id op)
                   FunctionalUnit.None MemoryCounterKind.None 0 0) tl
    else tl in
  let tl := fold_left (fun tl value =>
    recordReadyAt op fu
      (if isMemToken value then result_tokenReadyCycle result
       else valueReadyCycle result) tl) (op_results op) tl in
  tl ← recordMemoryCounters op fu result tl;
  Ok (match op_results op with
      | [] => raiseLastReady (valueReadyCycle result) tl
      | _ => tl
      end).

(** [llvm::zip_equal] asserts equal lengths. *)
Definition bindValues (targets sources : list Value) tl : StateTimeline :=
  fold_left (fun tl '(target, source) =>
    set_tl_state (bindValue (tl_state tl) target [source]) tl)
    (combine targets sources) tl.

Definition bindYieldResults (results : list Value)
    (region : option (list Node)) tl : StateTimeline :=
  match getYield region with
  | None => tl
  | Some yield =>
      fold_left (fun tl '(result, value) =>
        recordValueReady yield result
          (set_tl_state (bindValue (tl_state tl) result [value]) tl))
        (combine results (op_operands yield)) tl
  end.

(** [iter] counts up to [trips]; [left] is what remains. *)
Section Iterate.
Context (runBody : StateTimeline -> outcome StateTimeline).
Context (op : Operation) (args : list Value) (body : list Node).

Fixpoint iterateLoop (left : nat) tl : outcome StateTimeline :=
  match left with
  | O => Ok tl
  | S left' =>
      tl ← runBody tl;
      match getContinueCarries body with
      | None => Failure
      | Some carries =>
          iterateLoop left'
            (bindValues (match left' with
                         | O => op_results op
                         | S _ => args
                         end) carries tl)
      end
  end.
End Iterate.

(** The copy that [estimateRegion] runs: no recording, a scratch result. *)
Definition trialTimeline tl : StateTimeline :=
  mkTimeline (tl_state tl) emptyResult false (tl_lastReady tl)
    (tl_lastCounterReady tl).

(** The handlers of the structured operations; [runThen], [runElse] and
    [runBody] run the regions of the operation. *)
Definition runUniformIf (runThen runElse : StateTimeline -> outcome StateTimeline)
    (op : Operation) (thenRegion elseRegion : option (list Node)) tl :
    outcome StateTimeline :=
  tl ← commitAndRecord op tl;
  thenTrial ← runThen (trialTimeline tl);
  elseTrial ← runElse (trialTimeline tl);
  if getCompleteCycle elseTrial <=? getCompleteCycle thenTrial
  then tl ← runThen tl; Ok (bindYieldResults (op_results op) thenRegion tl)
  else tl ← runElse tl; Ok (bindYieldResults (op_results op) elseRegion tl).

Definition runExecIf (runThen runElse : StateTimeline -> outcome StateTimeline)
    (op : Operation) (thenRegion elseRegion : option (list Node)) tl :
    outcome StateTimeline :=
  tl ← runThen tl;
  let tl := bindYieldResults (op_results op) thenRegion tl in
  match elseRegion with
  | None => Ok tl
  | Some _ =>
      tl ← runElse tl; Ok (bindYieldResults (op_results op) elseRegion tl)
  end.

Definition runUniformLoop (runBody : StateTimeline -> outcome StateTimeline)
    (op : Operation) (args : list Value) (body : list Node) tl :
    outcome StateTimeline :=
  tl ← commitAndRecord op tl;
  let trips := getModelLoopTripCount op config in
  if trips <=? 0 then Ok (bindValues (op_results op) (loopInits op) tl)
  else iterateLoop runBody op args body (Z.to_nat trips)
         (bindValues args (loopInits op) tl).

Fixpoint runOp (node : Node) tl {struct node} : outcome StateTimeline :=
  let runRegion (region : option (list Node)) tl :=
    match region with
    | None => Ok tl
    | Some body => foldM (fun tl node => runOp node tl) tl body
    end in
  if negb (op_isMachine (node_op node)) then Ok tl
  else match node with
  | LoopNode op args body =>
      runUniformLoop
        (fun tl => foldM (fun tl node => runOp node tl) tl body) op args body tl
  | IfNode op thenRegion elseRegion =>
      runUniformIf (runRegion thenRegion) (runRegion elseRegion) op thenRegion
        elseRegion tl
  | ExecIfNode op thenRegion elseRegion =>
      runExecIf (runRegion thenRegion) (runRegion elseRegion) op thenRegion
        elseRegion tl
  | OpNode op => commitAndRecord op tl
  end.

Definition runBlock (block : list Node) tl : outcome StateTimeline :=
  foldM (fun tl node => runOp node tl) tl block.

Definition runRegion (region : option (list Node)) tl : outcome StateTimeline :=
  match region with
  | None => Ok tl
  | Some body => runBlock body tl
  end.

Definition estimateRegion (region : option (list Node)) tl : outcome Z :=
  trial ← runRegion region (trialTimeline tl); Ok (getCompleteCycle trial).

(** The order of [sortEvents]. *)
Definition event_before (lhs rhs : EventSimEvent) : Prop :=
  ev_cycle lhs < ev_cycle rhs
  \/ (ev_cycle lhs = ev_cycle rhs
      /\ (eventKindRank (ev_kind lhs) < eventKindRank (ev_kind rhs)
          \/ (eventKindRank (ev_kind lhs) = eventKindRank (ev_kind rhs)
              /\ (ev_op lhs <= ev_op rhs)%N))).
#[export] Instance event_before_dec : RelDecision event_before.
Proof. intros x y. unfold event_before. apply _. Defined.

Definition sortEvents tl : StateTimeline :=
  if negb (tl_record tl) then tl
  else
    let out := tl_out tl in
    mkTimeline (tl_state tl)
      (mkSimResult (totalCycles out) (issuedOps out) (completedCycle out)
         (waveCompletedCycles out) (merge_sort event_before (sim_events out)))
      (tl_record tl) (tl_lastReady tl) (tl_lastCounterReady tl).

Definition finish tl : StateTimeline :=
  let complete := getCompleteCycle tl in
  let out := tl_out tl in
  let tl := mkTimeline (tl_state tl)
    (mkSimResult complete (issuedOps out) complete [complete] (sim_events out))
    (tl_record tl) (tl_lastReady tl) (tl_lastCounterReady tl) in
  sortEvents
    (record (mkSimEvent complete EventSimEventKind.WaveCompleted 0
               FunctionalUnit.None MemoryCounterKind.None 0 0) tl).

Definition runFunc (blocks : list (list Node)) tl : outcome StateTimeline :=
  tl ← foldM (fun tl block => runBlock block tl) tl blocks; Ok (finish tl).

Definition runOps (ops : list Node) tl : outcome StateTimeline :=
  tl ← runBlock ops tl; Ok (finish tl).

(** ** All waves of a compute unit *)

Record MultiWaveTimeline : Type := mkMultiTimeline {
  mt_placements : list WavePlacement;
  mt_state : MultiWaveExecutionState;
  mt_out : EventSimResult;
  pc : list nat;
  mt_lastReady : list Z;
  mt_lastCounterReady : list Z
}.

Implicit Types mt : MultiWaveTimeline.

Definition makeMultiTimeline : outcome MultiWaveTimeline :=
  let placements := getFullCUWavePlacements arch (sim_wavesPerSIMD config) in
  state ← makeMultiWave arch stateConfig placements;
  let waveCount := length placements in
  Ok (mkMultiTimeline placements state emptyResult (replicate waveCount 0%nat)
        (replicate waveCount 0) (replicate waveCount 0)).

(** The candidates of [selectNextWave]: the next operation of each wave. *)
Definition nextCandidates (ops : list Operation) mt :
    list (option Operation) :=
  (fun wave => pcw ← pc mt !! wave; ops !! (pcw : nat))
    <$> seq 0 (length (mt_placements mt)).

Definition selectNextWave (ops : list Operation) mt : outcome nat :=
  selectWave graph arch stateConfig (mt_state mt) (nextCandidates ops mt).

Definition mt_record (event : EventSimEvent) mt : MultiWaveTimeline :=
  if negb (recordTimeline config) then mt
  else
    let out := mt_out mt in
    mkMultiTimeline (mt_placements mt) (mt_state mt)
      (mkSimResult (totalCycles out) (issuedOps out) (completedCycle out)
         (waveCompletedCycles out) (sim_events out ++ [event]))
      (pc mt) (mt_lastReady mt) (mt_lastCounterReady mt).

Definition mt_countIssued mt : MultiWaveTimeline :=
  let out := mt_out mt in
  mkMultiTimeline (mt_placements mt) (mt_state mt)
    (mkSimResult (totalCycles out) (issuedOps out + 1) (completedCycle out)
       (waveCompletedCycles out) (sim_events out))
    (pc mt) (mt_lastReady mt) (mt_lastCounterReady mt).

Definition mt_raiseLastReady (wave : nat) (ready : Z) mt : MultiWaveTimeline :=
  mkMultiTimeline (mt_placements mt) (mt_state mt) (mt_out mt) (pc mt)
    (alter (fun r => Z.max r ready) wave (mt_lastReady mt))
    (mt_lastCounterReady mt).

Definition mt_raiseLastCounterReady (wave : nat) (ready : Z) mt :
    MultiWaveTimeline :=
  mkMultiTimeline (mt_placements mt) (mt_state mt) (mt_out mt) (pc mt)
    (mt_lastReady mt)
    (alter (fun r => Z.max r ready) wave (mt_lastCounterReady mt)).

Definition mt_recordMemoryCounters (wave : nat) (op : Operation)
    (fu : FunctionalUnit.t) (result : InstructionCommitResult) mt :
    outcome MultiWaveTimeline :=
  counterKind ← getMemoryCounterKind op;
  if decide (counterKind = MemoryCounterKind.None) then Ok mt
  else
    latency ← getMemoryCounterLatency arch op (sim_counterLatencies config)
                (sim_calibration config);
    placement ← at_index (mt_placements mt) wave;
    let period := getEventSimIssuePeriod arch config in
    Ok (fold_left (fun mt issue =>
      let ready := issueCycle result + issue * period + latency in
      mt_record (mkSimEvent ready EventSimEventKind.CounterDrained (op_id op)
                   fu (toEventCounter counterKind) wave (simd placement))
        (mt_raiseLastCounterReady wave ready mt))
      (issueSeq (getCounterIssueCount op)) mt).

Definition mt_commitWave (ops : list Operation) (wave : nat) mt :
    outcome MultiWaveTimeline :=
  pcw ← at_index (pc mt) wave;
  op ← at_index ops pcw;
  '(result, state) ← commitWave graph arch stateConfig (mt_state mt) wave op;
  let mt := mkMultiTimeline (mt_placements mt) state (mt_out mt) (pc mt)
              (mt_lastReady mt) (mt_lastCounterReady mt) in
  cls ← classifyOp op;
  let realInst := bool_decide (cls <> SchedClass.NoInst) in
  fu ← (if (realInst : bool) then funit arch cls else Ok FunctionalUnit.None);
  placement ← at_index (mt_placements mt) wave;
  let mt :=
    if realInst
    then mt_record (mkSimEvent (issueCycle result) EventSimEventKind.OpIssued
                      (op_id op) fu MemoryCounterKind.None wave
                      (simd placement)) (mt_countIssued mt)
    else mt in
  let mt :=
    if isWaitcntOp op
    then mt_record (mkSimEvent (issueCycle result)
                      EventSimEventKind.CounterDrained (op_id op)
                      FunctionalUnit.None MemoryCounterKind.None wave
                      (simd placement)) mt
    else mt in
  let mt := fold_left (fun mt value =>
    let ready := if isMemToken value then result_tokenReadyCycle result
                 else valueReadyCycle result in
    mt_record (mkSimEvent ready EventSimEventKind.ValueReady (op_id op) fu
                 MemoryCounterKind.None wave (simd placement))
      (mt_raiseLastReady wave ready mt)) (op_results op) mt in
  let mt := match op_results op with
            | [] => mt_raiseLastReady wave (valueReadyCycle result) mt
            | _ => mt
            end in
  mt ← mt_recordMemoryCounters wave op fu result mt;
  Ok (mkMultiTimeline (mt_placements mt) (mt_state mt) (mt_out mt)
        (alter S wave (pc mt)) (mt_lastReady mt) (mt_lastCounterReady mt)).

Definition mt_event_before (lhs rhs : EventSimEvent) : Prop :=
  ev_cycle lhs < ev_cycle rhs
  \/ (ev_cycle lhs = ev_cycle rhs
      /\ (eventKindRank (ev_kind lhs) < eventKindRank (ev_kind rhs)
          \/ (eventKindRank (ev_kind lhs) = eventKindRank (ev_kind rhs)
              /\ ((ev_wave lhs < ev_wave rhs)%nat
                  \/ (ev_wave lhs = ev_wave rhs
                      /\ (ev_op lhs <= ev_op rhs)%N))))).
#[export] Instance mt_event_before_dec : RelDecision mt_event_before.
Proof. intros x y. unfold mt_event_before. apply _. Defined.

(** One round of the loop of [finish]. *)
Definition finishWave mt (wave : nat) : outcome MultiWaveTimeline :=
  lastReady ← at_index (mt_lastReady mt) wave;
  lastCounterReady ← at_index (mt_lastCounterReady mt) wave;
  cycle ← getCurrentCycle (mt_state mt) wave;
  placement ← at_index (mt_placements mt) wave;
  let complete := Z.max lastReady cycle in
  let complete := if completePendingLdsDmaCounters config
                  then Z.max complete lastCounterReady else complete in
  let out := mt_out mt in
  let out := mkSimResult (Z.max (totalCycles out) complete) (issuedOps out)
    (completedCycle out) (<[wave := complete]> (waveCompletedCycles out))
    (sim_events out) in
  Ok (mt_record
        (mkSimEvent complete EventSimEventKind.WaveCompleted 0
           FunctionalUnit.None MemoryCounterKind.None wave (simd placement))
        (mkMultiTimeline (mt_placements mt) (mt_state mt) out (pc mt)
           (mt_lastReady mt) (mt_lastCounterReady mt))).

Definition set_mt_out (out : EventSimResult) mt : MultiWaveTimeline :=
  mkMultiTimeline (mt_placements mt) (mt_state mt) out (pc mt)
    (mt_lastReady mt) (mt_lastCounterReady mt).

Definition mt_finish mt : outcome MultiWaveTimeline :=
  let waveCount := length (mt_placements mt) in
  let out := mt_out mt in
  let mt := set_mt_out
    (mkSimResult (totalCycles out) (issuedOps out) (completedCycle out)
       (replicate waveCount 0) (sim_events out)) mt in
  mt ← foldM finishWave mt (seq 0 waveCount);
  let out := mt_out mt in
  Ok (set_mt_out
        (mkSimResult (totalCycles out) (issuedOps out) (totalCycles out)
           (waveCompletedCycles out)
           (if recordTimeline config
            then merge_sort mt_event_before (sim_events out)
            else sim_events out)) mt).

Definition SIZE_MAX : Z := 18446744073709551615.

Definition mt_step (ops : list Operation) mt : outcome MultiWaveTimeline :=
  selected ← selectNextWave ops mt; mt_commitWave ops selected mt.

Definition mt_run (ops : list Operation) mt : outcome MultiWaveTimeline :=
  match mt_placements mt with
  | [] => Failure
  | placements =>
      if SIZE_MAX / Z.of_nat (length placements) <? Z.of_nat (length ops)
      then Failure
      else
        let stepCount := (length ops * length placements)%nat in
        mt ← foldM (fun mt _ => mt_step ops mt) mt (seq 0 stepCount);
        mt_finish mt
  end.

(** ** Entry points *)

(** An empty region list is [getNumRegions() == 0]. *)
Definition validateMultiWaveProgramOp (node : Node) : outcome unit :=
  match node with
  | OpNode op =>
      match op_kind op with
      | ClusterBarrierOp | SBarrierOp | SBarrierWaitOp | BarrierWaitOp =>
          Failure
      | _ => Ok tt
      end
  | _ => Failure
  end.

Definition collectLinearProgram (blocks : list (list Node)) :
    outcome (list Operation) :=
  match blocks with
  | [block] =>
      foldM (fun ops node =>
        _ ← validateMultiWaveProgramOp node;
        Ok (if op_isMachine (node_op node) then ops ++ [node_op node]
            else ops)) [] block
  | _ => Failure
  end.

Definition validateLinearProgram (ops : list Node) : outcome unit :=
  foldM (fun _ node => validateMultiWaveProgramOp node) tt ops.

Definition runMultiWave (ops : list Operation) : outcome EventSimResult :=
  mt ← makeMultiTimeline; mt ← mt_run ops mt; Ok (mt_out mt).

Definition simulateFunction (blocks : list (list Node)) :
    outcome EventSimResult :=
  if negb (sim_wavesPerSIMD config =? 0) then
    if u32 (wavesPerSIMD arch) <? sim_wavesPerSIMD config then Failure
    else ops ← collectLinearProgram blocks; runMultiWave ops
  else
    tl ← runFunc blocks (startTimeline (recordTimeline config));
    Ok (tl_out tl).

Definition simulateOps (ops : list Node) : outcome EventSimResult :=
  if negb (sim_wavesPerSIMD config =? 0) then
    if u32 (wavesPerSIMD arch) <? sim_wavesPerSIMD config then Failure
    else
      _ ← validateLinearProgram ops;
      runMultiWave (base.filter (fun op => op_isMachine op = true)
                      (node_op <$> ops))
  else
    tl ← runOps ops (startTimeline (recordTimeline config)); Ok (tl_out tl).

End Timeline.
