(* ===== verification/Examples.v ===== *)
(** * Sample operations

    Concrete operations of a gfx942 program, with the traits and metadata that
    [WaveAMDMachineOps.td] gives them, on which the theorems are
    instantiated. *)

From stdpp Require Import base tactics list gmap sorting strings.
From S2P Require Import Prelude CostEnums ArchData MachineIR LatencyTable.
From S2P Require Import OpClassifier MemoryTiming ScheduleModel.
From S2P Require Import ResourceState ExecState ExecOps.

#[export] Existing Instance exampleTarget.

Definition vgpr (id : N) : Value :=
  mkValue id (RegType RegClass.VGPR 1 None).
Definition sgpr (id : N) : Value :=
  mkValue id (RegType RegClass.SGPR 1 None).
Definition token (id : N) : Value := mkValue id MemTokenType.

Definition machineOp (id : N) (kind : OpKind) (traits : list Trait.t)
    (info : WaitcntInfo) (operands results : list Value) : Operation :=
  mkOperation id kind true traits (Some info) (Some (fun _ _ => 1)) false
    operands results.

Definition noWait : WaitcntInfo := mkWaitcntInfo WaitcntEvent.None 0 false.

(** [global_load_b32], [v_fma_f32], [v_mul_lo], a matrix operation,
    [global_store_b96], [s_waitcnt], [s_barrier]. *)
Definition loadOp : Operation :=
  machineOp 1 OtherOp [Trait.VMEMLoadOp]
    (mkWaitcntInfo WaitcntEvent.Vmem 1 false) [vgpr 1] [vgpr 2; token 3].
Definition fmaOp : Operation :=
  machineOp 2 VFmaF32Op [Trait.VALUOp] noWait [vgpr 2; vgpr 1] [vgpr 4].
Definition mfmaOp : Operation :=
  machineOp 3 MfmaF32_16x16x16_F16Op [Trait.VALUOp; Trait.MFMAOp] noWait
    [vgpr 4; vgpr 4; vgpr 5] [vgpr 6].
Definition storeOp : Operation :=
  machineOp 4 GlobalStoreB96Op [Trait.VMEMStoreOp]
    (mkWaitcntInfo WaitcntEvent.VmemStore 1 false)
    [vgpr 1; vgpr 4; sgpr 7; token 3] [token 8].
Definition waitOp : Operation :=
  machineOp 5 (SWaitcntOp (Some 0) None (Some 0))
    [Trait.WaitcntOp; Trait.NoMachineInst] noWait [] [].
Definition barrierOp : Operation :=
  machineOp 6 SBarrierOp [] noWait [token 3] [token 9].

Definition sampleConfig : InstructionExecutionConfig := makeConfig 64.

(** The state after a list of operations, and the result of the last. *)
Fixpoint runAll (arch : ArchData) (config : InstructionExecutionConfig)
    (ops : list Operation) (st : InstructionExecutionState) :
    outcome InstructionExecutionState :=
  match ops with
  | [] => Ok st
  | op :: ops' =>
      '(_, st) ← commit [] arch config st op; runAll arch config ops' st
  end.

Definition stateOf (o : outcome InstructionExecutionState) :
    InstructionExecutionState :=
  match o with Ok st => st | _ => initialState end.

Definition sampleState (ops : list Operation) : InstructionExecutionState :=
  stateOf (runAll kGfx942 sampleConfig ops initialState).

Definition noResult : InstructionCommitResult :=
  mkCommitResult noStall noStall noStall 0 0 0 0.

Definition sampleResult (ops : list Operation) (op : Operation) :
    InstructionCommitResult :=
  match commit [] kGfx942 sampleConfig (sampleState ops) op with
  | Ok (r, _) => r
  | _ => noResult
  end.
