(* ===== verification/ResourceSpec.v ===== *)
(** * Correctness of the shared issue resources

    The pointwise specification of a calendar ([usage] at a cycle) and the
    lemmas that tie the event sweep, the candidate cycles and the commit of
    [ResourceState] to it. *)

From stdpp Require Import base tactics list sorting strings sets.
From S2P Require Import Prelude CostEnums ArchData ResourceState.

(** ** Pointwise specification *)

(** Units of [rs] held at cycle [t]; a reservation holds its units on
    [[begin, rend)]. *)
Definition heldAt (t : Z) (r : Reservation) : Z :=
  if decide (begin r <= t < rend r) then units r else 0.
Definition usage (rs : list Reservation) (t : Z) : Z :=
  sum_list_Z (heldAt t <$> rs).

Definition wf_reservation (r : Reservation) : Prop :=
  begin r <= rend r /\ 0 <= units r.

(** No cycle holds more than the capacity. *)
Definition within_capacity (cal : ResourceCalendar) : Prop :=
  forall t, usage (reservations cal) t <= capacity cal.

Definition wf_calendar (cal : ResourceCalendar) : Prop :=
  Forall wf_reservation (reservations cal) /\ 0 <= capacity cal.

Lemma usage_app rs1 rs2 t : usage (rs1 ++ rs2) t = usage rs1 t + usage rs2 t.
Proof. unfold usage. by rewrite fmap_app, sum_list_Z_app. Qed.

Lemma usage_cons r rs t : usage (r :: rs) t = heldAt t r + usage rs t.
Proof. reflexivity. Qed.

Lemma usage_le rs t t' :
  Forall (fun r => heldAt t r <= heldAt t' r) rs -> usage rs t <= usage rs t'.
Proof. induction 1; [done|]. rewrite !usage_cons. lia. Qed.

Lemma usage_nonneg rs t : Forall wf_reservation rs -> 0 <= usage rs t.
Proof.
  induction 1 as [|r rs [??]]; [done|]. rewrite usage_cons.
  unfold heldAt. case_decide; lia.
Qed.

(** Without a release at [t + 1] the held units do not drop from [t]. *)
Lemma usage_no_release rs t :
  Forall wf_reservation rs -> Forall (fun r => rend r <> t + 1) rs ->
  usage rs t <= usage rs (t + 1).
Proof.
  intros Hwf Hne. apply usage_le. rewrite Forall_forall in *.
  intros r Hr. specialize (Hwf r Hr) as [??]. specialize (Hne r Hr).
  unfold heldAt. repeat case_decide; lia.
Qed.

(** Without an acquisition at [t + 1] they do not rise. *)
Lemma usage_no_acquire rs t :
  Forall wf_reservation rs -> Forall (fun r => begin r <> t + 1) rs ->
  usage rs (t + 1) <= usage rs t.
Proof.
  intros Hwf Hne. apply usage_le. rewrite Forall_forall in *.
  intros r Hr. specialize (Hwf r Hr) as [??]. specialize (Hne r Hr).
  unfold heldAt. repeat case_decide; lia.
Qed.

(** ** The sweep computes the pointwise maximum *)

Definition level (evs : list ReservationEvent) (t : Z) : Z :=
  sum_list_Z ((fun e => if decide (cycle e <= t) then delta e else 0) <$> evs).

Lemma level_cons e evs t :
  level (e :: evs) t = (if decide (cycle e <= t) then delta e else 0) + level evs t.
Proof. reflexivity. Qed.

Lemma level_app evs1 evs2 t : level (evs1 ++ evs2) t = level evs1 t + level evs2 t.
Proof. unfold level. by rewrite fmap_app, sum_list_Z_app. Qed.

Lemma level_Permutation evs1 evs2 t : evs1 ≡ₚ evs2 -> level evs1 t = level evs2 t.
Proof. intros H. unfold level. apply sum_list_Z_Permutation. by rewrite H. Qed.

Lemma level_before evs c t :
  Forall (fun e => c <= cycle e) evs -> t < c -> level evs t = 0.
Proof.
  induction 1 as [|e evs]; intros Ht; [done|]. rewrite level_cons.
  case_decide; [lia|]. rewrite IHForall by done. lia.
Qed.

Lemma level_reservationEvents rs t :
  Forall wf_reservation rs -> level (reservationEvents rs) t = usage rs t.
Proof.
  induction 1 as [|r rs [??]]; [done|].
  change (reservationEvents (r :: rs)) with
    ([mkEvent (begin r) (units r); mkEvent (rend r) (- units r)] ++ reservationEvents rs).
  rewrite level_app, IHForall, usage_cons.
  unfold level, heldAt; simpl. repeat case_decide; lia.
Qed.

Lemma sweepGroup_spec evs : forall capacity active cyc d,
  StronglySorted event_le evs -> Forall (fun e => cyc <= cycle e) evs ->
  sweepGroup capacity active cyc d evs = true <->
  (forall t, cyc <= t -> active + d + level evs t <= capacity).
Proof.
  induction evs as [|e evs IH]; intros cap active cyc d Hsort Hge; simpl.
  - rewrite Z.leb_le. unfold level; simpl. split; [lia|].
    intros H. specialize (H cyc). lia.
  - inversion Hsort as [|? ? Hsort' Hall]; subst.
    inversion Hge as [|? ? Hge1 Hge']; subst.
    destruct (Z.eqb_spec (cycle e) cyc) as [<-|Hne].
    + rewrite IH by done. split; intros H t Ht; specialize (H t Ht);
        rewrite ?level_cons in *; rewrite decide_True in * by lia; lia.
    + assert (Hzero : forall t, t < cycle e -> level (e :: evs) t = 0).
      { intros t Ht. apply (level_before _ (cycle e)); [|done].
        constructor; [lia|]. apply Hall. }
      destruct (Z.ltb_spec cap (active + d)) as [Hlt|Hle].
      * split; [done|]. intros H. specialize (H cyc). rewrite Hzero in H; lia.
      * rewrite IH by done. split; intros H t Ht.
        -- destruct (decide (cycle e <= t)) as [Hc|Hc].
           ++ specialize (H t Hc). rewrite level_cons, decide_True by lia. lia.
           ++ rewrite Hzero; lia.
        -- specialize (H t ltac:(lia)). rewrite level_cons, decide_True in H by lia. lia.
Qed.

Lemma sweep_spec capacity evs :
  0 <= capacity -> StronglySorted event_le evs ->
  sweep capacity evs = true <-> (forall t, level evs t <= capacity).
Proof.
  intros Hcap Hsort. destruct evs as [|e evs]; simpl; [done|].
  inversion Hsort as [|? ? Hsort' Hall]; subst.
  rewrite sweepGroup_spec by done. split; intros H t.
  - destruct (decide (cycle e <= t)).
    + specialize (H t). rewrite level_cons, decide_True by lia. lia.
    + rewrite (level_before _ (cycle e)); [lia| |lia]. constructor; [lia|done].
  - intros Ht. specialize (H t). rewrite level_cons, decide_True in H by lia. lia.
Qed.

#[export] Instance event_le_total : Total event_le.
Proof. intros x y. unfold event_le. lia. Qed.
#[export] Instance event_le_trans : Transitive event_le.
Proof. intros x y z. unfold event_le. lia. Qed.

(** The sweep does not depend on how the sort orders the events of a cycle. *)
Lemma canReserve_any_sort cal rs evs :
  wf_calendar cal -> Forall wf_reservation rs ->
  evs ≡ₚ reservationEvents (reservations cal) ++ reservationEvents rs ->
  StronglySorted event_le evs ->
  sweep (capacity cal) evs = true <->
  (forall t, usage (reservations cal) t + usage rs t <= capacity cal).
Proof.
  intros [Hcal Hcap] Hrs Hperm Hsort. rewrite sweep_spec by done.
  split; intros H t; specialize (H t);
    rewrite (level_Permutation _ _ _ Hperm), level_app,
      !level_reservationEvents in * by done; done.
Qed.

Lemma canReserve_usage cal rs :
  wf_calendar cal -> Forall wf_reservation rs ->
  canReserve cal rs = true <->
  rs = [] \/ (capacity cal <> 0 /\
    forall t, usage (reservations cal) t + usage rs t <= capacity cal).
Proof.
  intros Hcal Hrs. unfold canReserve. destruct rs as [|r rs']; [naive_solver|].
  destruct (Z.eqb_spec (capacity cal) 0) as [Hz|Hnz]; [naive_solver|].
  rewrite canReserve_any_sort; [|done|done| |].
  - naive_solver.
  - apply merge_sort_Permutation.
  - apply (StronglySorted_merge_sort _).
Qed.

(** ** Uses relative to their issue cycle *)

Definition wf_use (u : InstructionResourceUse) : Prop :=
  0 <= use_units u /\ 0 <= use_count u /\ 0 <= use_offset u /\
  0 <= use_period u /\ 0 <= use_duration u.

(** Last cycle, relative to the issue, that the use can touch. *)
Definition useSpan (u : InstructionResourceUse) : Z :=
  use_offset u + use_count u * use_period u + use_duration u.
Definition no_overflow (uses : list InstructionResourceUse) (t : Z) : Prop :=
  Forall (fun u => t + useSpan u <= INT64_MAX) uses.

Definition relOffset (u : InstructionResourceUse) (i : Z) : Z :=
  use_offset u + i * use_period u.

Definition relReservations (u : InstructionResourceUse) : list Reservation :=
  if hasReservation u
  then (fun i => mkReservation (relOffset u i) (relOffset u i + use_duration u)
                   (use_units u)) <$> issueSeq (use_count u)
  else [].

Definition relAdditions (uses : list InstructionResourceUse) (kind : K.t) :
    list Reservation :=
  uses ≫= fun u => if decide (use_kind u = kind) then relReservations u else [].

Definition shift (t : Z) (r : Reservation) : Reservation :=
  mkReservation (t + begin r) (t + rend r) (units r).

Lemma hasReservation_spec u :
  hasReservation u = true <->
  use_kind u <> K.None /\ 0 < use_duration u /\ use_count u <> 0 /\ use_units u <> 0.
Proof.
  unfold hasReservation.
  rewrite !andb_true_iff, bool_decide_eq_true, Z.ltb_lt, !negb_true_iff, !Z.eqb_neq.
  tauto.
Qed.

Lemma elem_of_issueSeq i n : i ∈ issueSeq n <-> 0 <= i < n.
Proof. unfold issueSeq. rewrite elem_of_seqZ. lia. Qed.

Lemma useOffset_exact u t i :
  wf_use u -> 0 <= t -> t + useSpan u <= INT64_MAX -> 0 <= i < use_count u ->
  useOffset u i = relOffset u i /\ 0 <= relOffset u i /\
  t + relOffset u i + use_duration u <= INT64_MAX.
Proof.
  unfold wf_use, useSpan, useOffset, relOffset. intros (?&?&?&?&?) Ht Hspan Hi.
  assert (0 <= i * use_period u <= use_count u * use_period u) by nia.
  rewrite saturatingMultiply_spec, saturatingAdd_spec by lia. lia.
Qed.

Lemma appendReservations_shift u t :
  wf_use u -> 0 <= t -> t + useSpan u <= INT64_MAX ->
  appendReservations u t = shift t <$> relReservations u.
Proof.
  intros Hwf Ht Hspan. unfold appendReservations, relReservations.
  pose proof (hasReservation_spec u) as Hh.
  case_decide as Hd; destruct (hasReservation u) eqn:Hhas.
  - destruct Hh as [Hh _]. specialize (Hh eq_refl). intuition lia.
  - done.
  - rewrite <- list_fmap_compose. apply list_fmap_ext. intros j i Hi.
    apply list_elem_of_lookup_2, elem_of_issueSeq in Hi.
    destruct (useOffset_exact u t i) as (->&?&?); [done..|].
    unfold shift; simpl. rewrite !saturatingAdd_small; [f_equal; lia|..];
      rewrite ?saturatingAdd_small; destruct Hwf; lia.
  - exfalso. apply Hd.
    destruct (decide (use_kind u = K.None)); [auto|].
    destruct (decide (use_count u = 0)); [auto|].
    destruct (decide (use_units u = 0)); [auto|].
    destruct (decide (use_duration u <= 0)); [auto|].
    exfalso. assert (false = true) by (apply Hh; split_and!; auto; lia). done.
Qed.

Lemma additions_shift uses t kind :
  Forall wf_use uses -> 0 <= t -> no_overflow uses t ->
  additions uses t kind = shift t <$> relAdditions uses kind.
Proof.
  intros Hwf Ht Hno. unfold additions, relAdditions, no_overflow in *.
  induction uses as [|u uses IH]; [done|]. rewrite !bind_cons, fmap_app.
  inversion Hwf; inversion Hno; subst. f_equal; [|by apply IH].
  case_decide; [|done]. by apply appendReservations_shift.
Qed.

Lemma elem_of_relAdditions a uses kind :
  a ∈ relAdditions uses kind <->
  exists u i, u ∈ uses /\ use_kind u = kind /\ hasReservation u = true /\
    0 <= i < use_count u /\
    a = mkReservation (relOffset u i) (relOffset u i + use_duration u) (use_units u).
Proof.
  unfold relAdditions. rewrite list_elem_of_bind. split.
  - intros (u & Ha & Hu). case_decide; [|by apply elem_of_nil in Ha].
    unfold relReservations in Ha. destruct (hasReservation u) eqn:Hh; [|by apply elem_of_nil in Ha].
    apply list_elem_of_fmap in Ha as (i & -> & Hi). apply elem_of_issueSeq in Hi. eauto 10.
  - intros (u & i & Hu & Hk & Hh & Hi & ->). exists u. split; [|done].
    rewrite decide_True by done. unfold relReservations. rewrite Hh.
    apply list_elem_of_fmap. exists i. split; [done|]. by apply elem_of_issueSeq.
Qed.

Lemma relAdditions_wf uses kind :
  Forall wf_use uses -> Forall wf_reservation (relAdditions uses kind).
Proof.
  intros Hwf. apply Forall_forall. intros a Ha. rewrite Forall_forall in Hwf.
  apply elem_of_relAdditions in Ha as (u & i & Hu & _ & _ & _ & ->).
  destruct (Hwf u Hu) as (?&?&?&?&?). split; simpl; lia.
Qed.

Lemma shift_wf t rs : Forall wf_reservation rs -> Forall wf_reservation (shift t <$> rs).
Proof.
  rewrite !Forall_forall. intros H r (x & -> & Hx)%list_elem_of_fmap.
  destruct (H x Hx). split; simpl; lia.
Qed.

Lemma usage_shift t rs s : usage (shift t <$> rs) s = usage rs (s - t).
Proof.
  induction rs as [|r rs IH]; [done|]. rewrite fmap_cons, !usage_cons, IH.
  f_equal. unfold heldAt, shift; simpl. repeat case_decide; lia.
Qed.

(** ** Moving an issue one cycle earlier *)

Lemma canReserve_earlier cal rel t :
  wf_calendar cal -> Forall wf_reservation rel ->
  (forall r a, r ∈ reservations cal -> a ∈ rel -> rend r <> t + begin a) ->
  canReserve cal (shift t <$> rel) = true ->
  canReserve cal (shift (t - 1) <$> rel) = true.
Proof.
  intros Hcal Hrel Hne. rewrite !canReserve_usage by auto using shift_wf.
  intros [Hnil|[Hnz Hfit]]; [left; by destruct rel|right].
  split; [done|]. intros s. pose proof (Hfit s) as Hs. pose proof (Hfit (s + 1)) as Hs1.
  rewrite !usage_shift in *. replace (s - (t - 1)) with (s - t + 1) by lia.
  replace (s + 1 - t) with (s - t + 1) in Hs1 by lia.
  destruct (decide (Exists (fun r => rend r = s + 1) (reservations cal))) as [Hex|Hno].
  - apply Exists_exists in Hex as (r & Hr & Hend).
    enough (usage rel (s - t + 1) <= usage rel (s - t)) by lia.
    apply usage_no_acquire; [done|]. apply Forall_forall. intros a Ha Hb.
    apply (Hne r a Hr Ha). lia.
  - rewrite <- Forall_Exists_neg in Hno.
    pose proof (usage_no_release (reservations cal) s (proj1 Hcal) Hno). lia.
Qed.

(** ** The scan of the kinds *)

(** The uses fit at cycle [t], kind by kind. *)
Definition fitsKind (st : InstructionResourceState) (placement : WavePlacement)
    (uses : list InstructionResourceUse) (t : Z) (kind : K.t) : Prop :=
  additions uses t kind = [] \/
  exists cal, getCalendar st placement kind = Ok cal /\
    canReserve cal (additions uses t kind) = true.

Definition fits (st : InstructionResourceState) (placement : WavePlacement)
    (uses : list InstructionResourceUse) (t : Z) : Prop :=
  Forall (fitsKind st placement uses t) resourceKinds.

Lemma canReserveAtKinds_fits st pl uses t kinds :
  canReserveAtKinds st pl uses t kinds = Ok None <->
  Forall (fitsKind st pl uses t) kinds.
Proof.
  induction kinds as [|k kinds IH]; simpl; [split; auto|].
  rewrite Forall_cons, <- IH. unfold fitsKind.
  destruct (additions uses t k) as [|a rs]; [naive_solver|].
  destruct (getCalendar st pl k) as [cal| |]; simpl;
    [|split; [done|intros [[?|(?&?&?)] ?]; done]..].
  destruct (canReserve cal (a :: rs)) eqn:Hc.
  - split; [intros H; split; [right; exists cal; auto|done]|by intros [_ H]].
  - split; [done|]. intros [[?|(c & [= <-] & Hc')] _]; congruence.
Qed.

Lemma canReserveAt_fits st pl uses t :
  canReserveAt st pl uses t = Ok None <-> fits st pl uses t.
Proof. apply canReserveAtKinds_fits. Qed.

(** ** Candidate cycles *)

Lemma unique_cons2 x y l :
  unique (x :: y :: l) = if x =? y then unique (y :: l) else x :: unique (y :: l).
Proof. reflexivity. Qed.

Lemma elem_of_unique x l : x ∈ unique l <-> x ∈ l.
Proof.
  induction l as [|y [|z l] IH]; [done..|]. rewrite unique_cons2.
  destruct (Z.eqb_spec y z) as [->|]; rewrite ?elem_of_cons, IH; set_solver.
Qed.

Lemma unique_sorted l : StronglySorted Z.le l -> StronglySorted Z.lt (unique l).
Proof.
  induction 1 as [|x [|y l] Hs IH Hall]; [constructor|repeat constructor|].
  rewrite unique_cons2. destruct (Z.eqb_spec x y) as [->|Hne]; [done|].
  constructor; [done|]. apply Forall_forall. intros z Hz. rewrite elem_of_unique in Hz.
  inversion Hs as [|? ? ? Hy]; subst. inversion Hall; subst.
  apply elem_of_cons in Hz as [->|Hz]; [lia|].
  rewrite Forall_forall in Hy. specialize (Hy z Hz). lia.
Qed.

Lemma elem_of_useCandidates c cal initial u :
  c ∈ useCandidates cal initial u <->
  exists i r, 0 <= i < use_count u /\ r ∈ reservations cal /\
    useOffset u i < rend r /\ c = rend r - useOffset u i /\ initial < c.
Proof.
  unfold useCandidates. rewrite list_elem_of_bind. split.
  - intros (i & H & Hi). apply elem_of_issueSeq in Hi.
    apply list_elem_of_bind in H as (r & H & Hr). exists i, r.
    destruct (Z.leb_spec (rend r) (useOffset u i)); [by apply elem_of_nil in H|].
    destruct (Z.ltb_spec initial (rend r - useOffset u i)); [|by apply elem_of_nil in H].
    apply list_elem_of_singleton in H. subst. auto.
  - intros (i & r & Hi & Hr & Hlt & -> & Hini). exists i.
    split; [|by apply elem_of_issueSeq]. apply list_elem_of_bind. exists r.
    split; [|done].
    destruct (Z.leb_spec (rend r) (useOffset u i)); [lia|].
    destruct (Z.ltb_spec initial (rend r - useOffset u i)); [|lia]. by apply list_elem_of_singleton.
Qed.

(** ** Well-formed states *)

(** Every calendar of the state satisfies [P]. *)
Definition all_calendars (P : ResourceCalendar -> Prop)
    (st : InstructionResourceState) : Prop :=
  Forall (Forall P) (simdResources st) /\
  Forall (Forall P) (simdPairResources st) /\
  Forall P (cuResources st).

Definition wf_state : InstructionResourceState -> Prop :=
  all_calendars wf_calendar.

Lemma at_index_Forall {A} (P : A -> Prop) l i a :
  Forall P l -> at_index l i = Ok a -> P a.
Proof.
  unfold at_index. intros Hl H. destruct (l !! i) eqn:Hi; simplify_eq.
  by eapply Forall_lookup_1.
Qed.

Lemma getCalendar_all P st pl kind cal :
  all_calendars P st -> getCalendar st pl kind = Ok cal -> P cal.
Proof.
  intros (H1 & H2 & H3) H. unfold getCalendar in H. outcome_steps.
  destruct x; [discriminate|..]; outcome_steps;
    (eapply (at_index_Forall P); [|eassumption]);
    first [exact H3|eapply (at_index_Forall (Forall P)); [|eassumption]; assumption].
Qed.

Lemma getCandidateCycles_spec st pl uses initial cands :
  getCandidateCycles st pl uses initial = Ok cands ->
  StronglySorted Z.lt cands /\ Forall (fun c => initial <= c) cands /\
  initial ∈ cands /\
  (forall u cal c, u ∈ uses -> hasReservation u = true ->
     getCalendar st pl (use_kind u) = Ok cal ->
     c ∈ useCandidates cal initial u -> c ∈ cands).
Proof.
  unfold getCandidateCycles. intros H. apply outcome_bind_Ok in H as (l & Hl & [= <-]).
  assert (Hsort : StronglySorted Z.lt (unique (merge_sort Z.le l)))
    by (apply unique_sorted, (StronglySorted_merge_sort _)).
  assert (Hin : forall c, c ∈ unique (merge_sort Z.le l) <-> c ∈ l).
  { intros c. by rewrite elem_of_unique, (merge_sort_Permutation Z.le l). }
  assert (Hfold : forall us acc res,
    foldM (fun candidates use =>
      if negb (hasReservation use) then Ok candidates
      else calendar ← getCalendar st pl (use_kind use);
           Ok (candidates ++ useCandidates calendar initial use)) acc us = Ok res ->
    (Forall (fun c => initial <= c) acc -> Forall (fun c => initial <= c) res) /\
    (forall c, c ∈ acc -> c ∈ res) /\
    (forall u cal c, u ∈ us -> hasReservation u = true ->
       getCalendar st pl (use_kind u) = Ok cal ->
       c ∈ useCandidates cal initial u -> c ∈ res)).
  { induction us as [|u us IH]; intros acc res Hf; simpl in Hf.
    - simplify_eq. split_and!; auto. intros ? ? ? Hu. by apply elem_of_nil in Hu.
    - destruct (hasReservation u) eqn:Hh; simpl in Hf.
      + destruct (getCalendar st pl (use_kind u)) as [cal| |] eqn:Hcal; simpl in Hf; try done.
        destruct (IH _ _ Hf) as (IH1 & IH2 & IH3). split_and!.
        * intros Hacc. apply IH1, Forall_app. split; [done|].
          apply Forall_forall. intros c (i & r & _ & _ & _ & _ & ?)%elem_of_useCandidates. lia.
        * intros c Hc. apply IH2. rewrite elem_of_app. by left.
        * intros u' cal' c Hu Hh' Hcal' Hc. apply elem_of_cons in Hu as [->|Hu]; [|eauto].
          replace cal' with cal in Hc by congruence.
          apply IH2. rewrite elem_of_app. by right.
      + destruct (IH _ _ Hf) as (IH1 & IH2 & IH3). split_and!; auto.
        intros u' cal' c Hu Hh'. apply elem_of_cons in Hu as [->|Hu]; [congruence|eauto]. }
  destruct (Hfold _ _ _ Hl) as (H1 & H2 & H3). split_and!; [done| | |].
  - apply Forall_forall. intros c Hc. apply Hin in Hc.
    assert (Hall : Forall (fun c => initial <= c) l) by (apply H1; repeat constructor; lia).
    rewrite Forall_forall in Hall. auto.
  - apply Hin, H2. by apply list_elem_of_singleton.
  - intros u cal c ???. rewrite Hin. eauto.
Qed.

Lemma at_index_no_Failure {A} (l : list A) i : at_index l i <> Failure.
Proof. unfold at_index. by destruct (l !! i). Qed.
#[export] Hint Resolve at_index_no_Failure : no_failure.

Lemma getInstructionResourceScope_no_Failure k :
  getInstructionResourceScope k <> Failure.
Proof. by destruct k. Qed.
#[export] Hint Resolve getInstructionResourceScope_no_Failure : no_failure.

Lemma getCalendar_no_Failure st pl kind : getCalendar st pl kind <> Failure.
Proof.
  unfold getCalendar. apply outcome_bind_no_Failure; [auto with no_failure|].
  intros [| | |]; eauto with no_failure; destruct kind; simpl; eauto with no_failure.
Qed.
#[export] Hint Resolve getCalendar_no_Failure : no_failure.

Lemma getCandidateCycles_no_Failure st pl uses initial :
  getCandidateCycles st pl uses initial <> Failure.
Proof.
  unfold getCandidateCycles. apply outcome_bind_no_Failure; [|auto with no_failure].
  apply foldM_no_Failure. intros acc u. destruct (hasReservation u); simpl; eauto with no_failure.
Qed.

(** ** The scan of the candidates *)

Lemma tryCandidates_Ok st pl uses cands : forall bk bs q,
  tryCandidates st pl uses bk bs cands = Ok q ->
  exists l1 l2, cands = l1 ++ readyCycle q :: l2 /\
    fits st pl uses (readyCycle q) /\
    Forall (fun c => ~ fits st pl uses c) l1.
Proof.
  induction cands as [|c cands IH]; intros bk bs q H; simpl in H; [done|].
  apply outcome_bind_Ok in H as (blocked & Hb & H). destruct blocked as [kind|].
  - apply outcome_bind_Ok in H as (scope & _ & H).
    destruct (IH _ _ _ H) as (l1 & l2 & -> & Hfit & Hl1).
    exists (c :: l1), l2. split_and!; [done|done|]. constructor; [|done].
    intros Hc. apply canReserveAt_fits in Hc. congruence.
  - simplify_eq. exists [], cands. split_and!; [done| |constructor].
    by apply canReserveAt_fits.
Qed.

Lemma canReserveAtKinds_no_Failure st pl uses t kinds :
  canReserveAtKinds st pl uses t kinds <> Failure.
Proof.
  induction kinds as [|k kinds IH]; simpl; [done|].
  destruct (additions uses t k) as [|a rs]; [done|].
  apply outcome_bind_no_Failure; [auto with no_failure|]. intros cal. by case_match.
Qed.

Lemma tryCandidates_Failure st pl uses cands : forall bk bs,
  tryCandidates st pl uses bk bs cands = Failure ->
  Forall (fun c => ~ fits st pl uses c) cands.
Proof.
  induction cands as [|c cands IH]; intros bk bs H; simpl in H; [constructor|].
  pose proof (canReserveAtKinds_no_Failure st pl uses c resourceKinds) as Hnf.
  fold (canReserveAt st pl uses c) in Hnf.
  destruct (canReserveAt st pl uses c) as [[kind|]| |] eqn:Hb; simpl in H; try done.
  constructor; [intros Hc; apply canReserveAt_fits in Hc; congruence|].
  pose proof (getInstructionResourceScope_no_Failure kind).
  destruct (getInstructionResourceScope kind); simpl in H; try done. eauto.
Qed.

(** ** Any fit is matched by a candidate *)

Section Candidates.
  Context (st : InstructionResourceState) (pl : WavePlacement).
  Context (uses : list InstructionResourceUse) (initial : Z) (cands : list Z).
  Hypothesis Hst : wf_state st.
  Hypothesis Huses : Forall wf_use uses.
  Hypothesis Hinit : 0 <= initial.
  Hypothesis Hcands : getCandidateCycles st pl uses initial = Ok cands.

Lemma fits_earlier t :
    initial < t -> no_overflow uses t -> t ∉ cands ->
    fits st pl uses t -> fits st pl uses (t - 1).
  Proof using All.
    intros Ht Hno Hnc Hfit.
    assert (Hno' : no_overflow uses (t - 1)) by (eapply Forall_impl; [exact Hno|simpl; lia]).
    apply Forall_forall. intros kind Hkind. unfold fits in Hfit.
    rewrite Forall_forall in Hfit. specialize (Hfit kind Hkind).
    unfold fitsKind in *. rewrite additions_shift in Hfit by (auto; lia).
    rewrite additions_shift by (auto; lia).
    destruct Hfit as [Hnil|(cal & Hcal & Hcan)]; [left; by destruct (relAdditions uses kind)|].
    right. exists cal. split; [done|].
    apply canReserve_earlier; [|by apply relAdditions_wf| |done].
    { eapply getCalendar_all; [exact Hst|done]. }
    intros r a Hr Ha Heq. apply Hnc.
    apply elem_of_relAdditions in Ha as (u & i & Hu & <- & Hh & Hi & ->). simpl in *.
    unfold no_overflow in Hno. rewrite Forall_forall in Hno.
    pose proof Huses as Hwf. rewrite Forall_forall in Hwf.
    destruct (useOffset_exact u t i) as (Hoff & ? & ?); [auto|lia|auto|done|].
    destruct (getCandidateCycles_spec _ _ _ _ _ Hcands) as (_ & _ & _ & Hin).
    apply (Hin u cal t Hu Hh Hcal). apply elem_of_useCandidates.
    exists i, r. rewrite Hoff. split_and!; auto; lia.
  Qed.

Lemma fits_candidate t :
    initial <= t -> no_overflow uses t -> fits st pl uses t ->
    exists c, c ∈ cands /\ c <= t /\ fits st pl uses c.
  Proof using All.
    intros Ht. remember (Z.to_nat (t - initial)) as n eqn:Hn.
    revert t Ht Hn. induction n as [|n IH]; intros t Ht Hn Hno Hfit.
    - exists t. split_and!; [|lia|done]. replace t with initial by lia.
      by destruct (getCandidateCycles_spec _ _ _ _ _ Hcands) as (_ & _ & ? & _).
    - destruct (decide (t ∈ cands)) as [Hin|Hout]; [exists t; split_and!; auto; lia|].
      destruct (IH (t - 1)) as (c & ? & ? & ?); [lia|lia| |apply fits_earlier; auto; lia|].
      + eapply Forall_impl; [exact Hno|simpl; lia].
      + exists c. split_and!; auto; lia.
  Qed.
End Candidates.

Lemma query_unfold `{TGT : LLVMTarget} st pl uses earliest :
  0 <= earliest -> existsb hasReservation uses = true ->
  query st pl uses earliest =
    (_ ← validateUses st uses;
     candidates ← getCandidateCycles st pl uses (Z.max earliest (lastCommittedCycle st));
     tryCandidates st pl uses
       (if earliest <? lastCommittedCycle st then K.CuIssue else K.None)
       (if earliest <? lastCommittedCycle st then Sc.CU else Sc.Wave) candidates).
Proof.
  intros He H. unfold query. rewrite assertion_holds by lia. simpl. rewrite H; simpl.
  destruct (validateUses st uses); simpl; [|done..].
  destruct (getCandidateCycles _ _ _ _); simpl; [|done..]. by case_match.
Qed.

Lemma query_optimal `{TGT : LLVMTarget} st pl uses earliest q :
  wf_state st -> Forall wf_use uses -> 0 <= earliest ->
  existsb hasReservation uses = true ->
  query st pl uses earliest = Ok q -> no_overflow uses (readyCycle q) ->
  Z.max earliest (lastCommittedCycle st) <= readyCycle q /\
  fits st pl uses (readyCycle q) /\
  (forall t, Z.max earliest (lastCommittedCycle st) <= t < readyCycle q ->
     ~ fits st pl uses t).
Proof.
  intros Hst Huses He Hex Hq Hno.
  assert (Hmax : 0 <= Z.max earliest (lastCommittedCycle st)) by lia.
  rewrite query_unfold in Hq by done.
  outcome_steps. rename x0 into cands.
  destruct (getCandidateCycles_spec _ _ _ _ _ H0) as (Hsort & Hge & _ & _).
  destruct (tryCandidates_Ok _ _ _ _ _ _ _ H1) as (l1 & l2 & Heq & Hfit & Hl1).
  subst cands. split_and!; [|done|].
  - rewrite Forall_forall in Hge. apply Hge. set_solver.
  - intros t [Ht1 Ht2] Hft.
    destruct (fits_candidate _ _ _ _ _ Hst Huses Hmax H0 t) as (c & Hc & Hct & Hfc);
      [lia| |done|].
    + eapply Forall_impl; [exact Hno|simpl; lia].
    + apply elem_of_app in Hc as [Hc|Hc].
      * rewrite Forall_forall in Hl1. by apply (Hl1 c).
      * assert (readyCycle q <= c); [|lia].
        apply elem_of_cons in Hc as [->|Hc]; [lia|].
        clear -Hsort Hc. induction l1 as [|x l1 IH]; simpl in Hsort; inversion Hsort as [|? ? Hs Hall]; subst; auto.
        rewrite Forall_forall in Hall. specialize (Hall c Hc). lia.
Qed.

Lemma query_Failure `{TGT : LLVMTarget} st pl uses earliest t :
  wf_state st -> Forall wf_use uses -> 0 <= earliest ->
  existsb hasReservation uses = true -> validateUses st uses = Ok tt ->
  query st pl uses earliest = Failure ->
  Z.max earliest (lastCommittedCycle st) <= t -> no_overflow uses t ->
  ~ fits st pl uses t.
Proof.
  intros Hst Huses He Hex Hval Hq Ht Hno Hfit.
  assert (Hmax : 0 <= Z.max earliest (lastCommittedCycle st)) by lia.
  rewrite query_unfold, Hval in Hq by done.
  simpl in Hq.
  destruct (getCandidateCycles _ _ _ _) as [cands| |] eqn:Hc; simpl in Hq; try done.
  - destruct (fits_candidate _ _ _ _ _ Hst Huses Hmax Hc t Ht Hno Hfit) as (c & Hin & _ & Hfc).
    apply tryCandidates_Failure in Hq. rewrite Forall_forall in Hq. by apply (Hq c).
  - by apply getCandidateCycles_no_Failure in Hc.
Qed.

(** ** Updating one calendar *)

Definition outcome_map {A B} (f : A -> B) (m : outcome A) : outcome B :=
  a ← m; Ok (f a).

Lemma at_index_alter_eq {A} (f : A -> A) (l : list A) i :
  at_index (alter f i l) i = outcome_map f (at_index l i).
Proof. unfold at_index. rewrite list_lookup_alter_eq. by destruct (l !! i). Qed.

Lemma at_index_alter_ne {A} (f : A -> A) (l : list A) i j :
  i <> j -> at_index (alter f i l) j = at_index l j.
Proof. intros H. unfold at_index. by rewrite list_lookup_alter_ne. Qed.

Lemma at_index_fmap {A B} (f : A -> B) (l : list A) i :
  at_index (f <$> l) i = outcome_map f (at_index l i).
Proof. unfold at_index. rewrite list_lookup_fmap. by destruct (l !! i). Qed.

#[local] Arguments Nat.div : simpl never.

Lemma getCalendar_updateCalendar f pl k k' st st' :
  updateCalendar f pl k st = Ok st' ->
  getCalendar st' pl k' =
    if decide (k = k') then outcome_map f (getCalendar st pl k')
    else getCalendar st pl k'.
Proof.
  intros H. unfold updateCalendar in H. unfold getCalendar.
  destruct k; simpl in H; simplify_eq; destruct k'; simpl; try reflexivity;
    rewrite ?at_index_alter_eq; unfold outcome_map; simpl;
    match goal with |- context [at_index ?l ?i] => destruct (at_index l i) end;
    simpl; rewrite ?at_index_alter_eq, ?at_index_alter_ne by lia; reflexivity.
Qed.

Lemma getCalendar_prune c st pl k :
  getCalendar (prune c st) pl k = outcome_map (pruneCalendar c) (getCalendar st pl k).
Proof.
  unfold getCalendar, outcome_map. destruct k; simpl; try reflexivity;
    rewrite !at_index_fmap; unfold outcome_map;
    match goal with |- context [at_index ?l ?i] => destruct (at_index l i) end;
    simpl; rewrite ?at_index_fmap; reflexivity.
Qed.

Lemma updateCalendar_all P f pl k st st' :
  updateCalendar f pl k st = Ok st' -> all_calendars P st ->
  (forall cal, getCalendar st pl k = Ok cal -> P cal -> P (f cal)) ->
  all_calendars P st'.
Proof.
  intros H (H1 & H2 & H3) Hf. unfold updateCalendar in H.
  unfold getCalendar, at_index in Hf.
  destruct k; simpl in *; simplify_eq; (split_and!; simpl; [|..]; auto);
    apply Forall_alter; auto; try (intros d Hd HPd; rewrite Hd in Hf; simpl in Hf);
    try (apply Forall_alter; auto; intros cal Hcal HP; rewrite Hcal in Hf; auto);
    auto.
Qed.

Lemma prune_all P c st :
  (forall cal, P cal -> P (pruneCalendar c cal)) ->
  all_calendars P st -> all_calendars P (prune c st).
Proof.
  intros Hf (H1 & H2 & H3). unfold all_calendars, prune; simpl.
  split_and!; rewrite !Forall_fmap;
    repeat (eapply Forall_impl; [eassumption|]; intros ? ?; simpl; rewrite ?Forall_fmap); auto.
Qed.

Lemma usage_filter (Q : Reservation -> Prop) `{!forall r, Decision (Q r)} rs t :
  Forall wf_reservation rs -> usage (base.filter Q rs) t <= usage rs t.
Proof.
  induction 1 as [|r rs [??]]; [done|]. rewrite filter_cons, usage_cons.
  assert (0 <= heldAt t r) by (unfold heldAt; case_decide; lia).
  case_decide; rewrite ?usage_cons; lia.
Qed.

Lemma pruneCalendar_wf c cal : wf_calendar cal -> wf_calendar (pruneCalendar c cal).
Proof. intros [Hr Hc]. split; [|done]. rewrite Forall_forall in *. simpl.
  intros r [_ ?]%list_elem_of_filter. auto.
Qed.

Lemma pruneCalendar_within c cal :
  wf_calendar cal -> within_capacity cal -> within_capacity (pruneCalendar c cal).
Proof.
  intros [Hr _] Hw t. unfold pruneCalendar; simpl.
  etransitivity; [by apply usage_filter|apply Hw].
Qed.

(** Pruning at [c] loses nothing that is held at [c] or later. *)
Lemma pruneCalendar_usage c cal t :
  c <= t -> usage (reservations (pruneCalendar c cal)) t = usage (reservations cal) t.
Proof.
  intros Ht. unfold pruneCalendar; simpl. induction (reservations cal) as [|r rs IH]; [done|].
  rewrite filter_cons, usage_cons. case_decide; rewrite ?usage_cons, IH; [done|].
  unfold heldAt. rewrite decide_False by lia. lia.
Qed.

(** ** Committing uses that fit *)

Lemma additions_wf uses t kind :
  Forall wf_use uses -> 0 <= t -> no_overflow uses t ->
  Forall wf_reservation (additions uses t kind).
Proof. intros. rewrite additions_shift by done. by apply shift_wf, relAdditions_wf. Qed.

(** The calendar of [kind], if any, can take the additions. *)
Definition roomFor (st : InstructionResourceState) (pl : WavePlacement)
    (uses : list InstructionResourceUse) (t : Z) (kind : K.t) : Prop :=
  forall cal s, getCalendar st pl kind = Ok cal ->
    usage (reservations cal) s + usage (additions uses t kind) s <= capacity cal.

Definition sound_state (st : InstructionResourceState) : Prop :=
  all_calendars (fun cal => wf_calendar cal /\ within_capacity cal) st.

(** The calendar accepts the additions, as the assertion of [commit] says. *)
Definition accepts (st : InstructionResourceState) (pl : WavePlacement)
    (uses : list InstructionResourceUse) (t : Z) (kind : K.t) : Prop :=
  forall cal, getCalendar st pl kind = Ok cal ->
    canReserve cal (additions uses t kind) = true.

Lemma commitKind_unfold `{TGT : LLVMTarget} pl uses t st kind st' :
  commitKind pl uses t st kind = Ok st' ->
  additions uses t kind = [] /\ st' = st \/
  updateCalendar (addReservations (additions uses t kind)) pl kind st = Ok st'.
Proof.
  unfold commitKind. destruct (additions uses t kind) as [|a rs]; intros H; [left; by simplify_eq|].
  right. apply outcome_bind_Ok in H as (cal & _ & H). by apply outcome_bind_Ok in H as (u & _ & H).
Qed.

Lemma commitKind_sound `{TGT : LLVMTarget} pl uses t kind st st' :
  Forall wf_reservation (additions uses t kind) ->
  sound_state st -> roomFor st pl uses t kind ->
  commitKind pl uses t st kind = Ok st' ->
  sound_state st' /\
  (forall k, k <> kind -> roomFor st pl uses t k -> roomFor st' pl uses t k).
Proof.
  intros Hadd Hst Hroom H.
  apply commitKind_unfold in H as [[_ ->]|H]; [auto|]. split.
  - eapply updateCalendar_all; [exact H|exact Hst|].
    intros cal Hcal [[Hwf Hcap] Hin]. split; [split; simpl; [by apply Forall_app|done]|].
    intros s. simpl. rewrite usage_app. auto.
  - intros k Hk Hr cal s Hcal.
    erewrite getCalendar_updateCalendar, decide_False in Hcal by eauto. auto.
Qed.

Lemma commitKinds_sound `{TGT : LLVMTarget} pl uses t kinds : forall st st',
  NoDup kinds ->
  Forall (fun k => Forall wf_reservation (additions uses t k)) kinds ->
  sound_state st -> Forall (roomFor st pl uses t) kinds ->
  foldM (commitKind pl uses t) st kinds = Ok st' -> sound_state st'.
Proof.
  induction kinds as [|k kinds IH]; intros st st' Hnd Hwf Hst Hroom H; simpl in H.
  - by simplify_eq.
  - destruct (commitKind pl uses t st k) as [st1| |] eqn:Hk; try done.
    apply NoDup_cons in Hnd as [Hnk Hnd]. apply Forall_cons in Hwf as [Hwk Hwf].
    apply Forall_cons in Hroom as [Hrk Hroom].
    destruct (commitKind_sound _ _ _ _ _ _ Hwk Hst Hrk Hk) as [Hst1 Hpres].
    apply (IH st1); auto. rewrite Forall_forall in *. intros k' Hk'. apply Hpres; [|auto].
    intros ->. done.
Qed.

Lemma fits_roomFor st pl uses t k :
  Forall wf_use uses -> 0 <= t -> no_overflow uses t -> sound_state st ->
  fits st pl uses t -> k ∈ resourceKinds -> roomFor (prune t st) pl uses t k.
Proof.
  intros Huses Ht Hno Hst Hfit Hk cal s Hcal.
  rewrite getCalendar_prune in Hcal. apply outcome_bind_Ok in Hcal as (cal0 & Hcal & [= <-]).
  destruct (getCalendar_all _ _ _ _ _ Hst Hcal) as [Hwf Hin]. simpl.
  pose proof (usage_filter (fun r => ~ rend r <= t) (reservations cal0) s (proj1 Hwf)).
  unfold fits in Hfit. rewrite Forall_forall in Hfit.
  destruct (Hfit k Hk) as [Hnil|(cal1 & Hcal1 & Hcan)].
  - rewrite Hnil. unfold usage at 2; simpl. specialize (Hin s). lia.
  - simplify_eq. replace cal1 with cal0 in Hcan by congruence.
    apply canReserve_usage in Hcan as [Hnil|[_ Hle]]; [|specialize (Hle s); lia|done|by apply additions_wf].
    rewrite Hnil. unfold usage at 2; simpl. specialize (Hin s). lia.
Qed.

Lemma resourceKinds_NoDup : NoDup resourceKinds.
Proof. apply (bool_decide_unpack _). by vm_compute. Qed.

Lemma commit_sound `{TGT : LLVMTarget} st pl uses t st' :
  sound_state st -> Forall wf_use uses -> 0 <= t -> no_overflow uses t ->
  fits st pl uses t -> commit st pl uses t = Ok st' ->
  sound_state st' /\ lastCommittedCycle st' = t.
Proof.
  intros Hst Huses Ht Hno Hfit H. unfold commit in H.
  apply outcome_bind_Ok in H as (u & _ & H).
  apply outcome_bind_Ok in H as (st1 & H & [= <-]). split; [|done].
  change (sound_state st1). eapply commitKinds_sound; [apply resourceKinds_NoDup| | | |exact H].
  - apply Forall_forall. intros k _. by apply additions_wf.
  - eapply prune_all; [|exact Hst]. intros cal [??].
    split; [by apply pruneCalendar_wf|by apply pruneCalendar_within].
  - apply Forall_forall. intros k Hk. by apply fits_roomFor.
Qed.

(** ** Shape: which placements have calendars *)

Definition shape (n : nat) (st : InstructionResourceState) : Prop :=
  length (simdResources st) = (2 * n)%nat /\
  length (simdPairResources st) = n /\
  Forall (fun d => length d = kSIMDResourceCount) (simdResources st) /\
  Forall (fun d => length d = kSIMDPairResourceCount) (simdPairResources st) /\
  length (cuResources st) = kCUResourceCount.

Lemma at_index_in_range {A} (l : list A) i : (i < length l)%nat -> exists a, at_index l i = Ok a.
Proof.
  intros H. unfold at_index. destruct (lookup_lt_is_Some_2 _ _ H) as [a ->]. eauto.
Qed.

Lemma getCalendar_shape n st pl k :
  shape n st -> (simd pl < 2 * n)%nat -> k ∈ resourceKinds ->
  exists cal, getCalendar st pl k = Ok cal.
Proof.
  intros (H1 & H2 & H3 & H4 & H5) Hpl Hk.
  assert (Hdiv : (simd pl / 2 < n)%nat) by (apply Nat.Div0.div_lt_upper_bound; lia).
  destruct (at_index_in_range (simdResources st) (simd pl)) as [d Hd]; [lia|].
  destruct (at_index_in_range (simdPairResources st) (simd pl / 2)) as [dp Hdp]; [lia|].
  pose proof (at_index_Forall _ _ _ _ H3 Hd) as Hld. simpl in Hld.
  pose proof (at_index_Forall _ _ _ _ H4 Hdp) as Hldp. simpl in Hldp.
  unfold getCalendar. unfold resourceKinds in Hk.
  repeat (apply elem_of_cons in Hk as [->|Hk]; [simpl; rewrite ?Hd, ?Hdp; simpl;
    apply at_index_in_range; unfold kSIMDResourceCount, kSIMDPairResourceCount, kCUResourceCount in *; lia|]).
  by apply elem_of_nil in Hk.
Qed.

Lemma updateCalendar_total n f pl k st :
  shape n st -> k ∈ resourceKinds ->
  exists st', updateCalendar f pl k st = Ok st' /\ shape n st'.
Proof.
  intros (H1 & H2 & H3 & H4 & H5) Hk. unfold updateCalendar, resourceKinds in *.
  repeat (apply elem_of_cons in Hk as [->|Hk];
    [simpl; eexists; split; [reflexivity|];
     split_and!; simpl; rewrite ?length_alter; auto; apply Forall_alter; auto;
     intros; rewrite length_alter; auto|]).
  by apply elem_of_nil in Hk.
Qed.

Lemma prune_shape n c st : shape n st -> shape n (prune c st).
Proof.
  intros (H1 & H2 & H3 & H4 & H5). unfold shape, prune; simpl. rewrite !length_fmap.
  split_and!; auto; apply Forall_fmap;
    (eapply Forall_impl; [eassumption|]); intros; simpl; by rewrite length_fmap.
Qed.

Lemma fits_accepts st pl uses t k :
  Forall wf_use uses -> 0 <= t -> no_overflow uses t -> sound_state st ->
  fits st pl uses t -> k ∈ resourceKinds -> accepts (prune t st) pl uses t k.
Proof.
  intros Huses Ht Hno Hst Hfit Hk cal Hcal.
  pose proof (fits_roomFor _ _ _ _ _ Huses Ht Hno Hst Hfit Hk cal) as Hroom.
  specialize (fun s => Hroom s Hcal).
  rewrite getCalendar_prune in Hcal. apply outcome_bind_Ok in Hcal as (cal0 & Hcal & [= <-]).
  destruct (getCalendar_all _ _ _ _ _ Hst Hcal) as [Hwf _].
  apply canReserve_usage; [by apply pruneCalendar_wf|by apply additions_wf|].
  unfold fits in Hfit. rewrite Forall_forall in Hfit.
  destruct (Hfit k Hk) as [Hnil|(cal1 & Hcal1 & Hcan)]; [by left|].
  replace cal1 with cal0 in Hcan by congruence.
  apply canReserve_usage in Hcan as [?|[? _]]; [by left|by right|done|by apply additions_wf].
Qed.

Lemma commitKind_total `{TGT : LLVMTarget} n pl uses t kind st :
  shape n st -> (simd pl < 2 * n)%nat -> kind ∈ resourceKinds ->
  accepts st pl uses t kind ->
  exists st', commitKind pl uses t st kind = Ok st' /\ shape n st' /\
    forall k, k <> kind -> accepts st pl uses t k -> accepts st' pl uses t k.
Proof.
  intros Hsh Hpl Hk Hacc. unfold commitKind.
  destruct (getCalendar_shape n st pl kind Hsh Hpl Hk) as [cal Hcal].
  specialize (Hacc cal Hcal). destruct (additions uses t kind) as [|a rs]; [by eauto|].
  rewrite Hcal; simpl. rewrite assertion_holds by done; simpl.
  destruct (updateCalendar_total n (addReservations (a :: rs)) pl kind st Hsh Hk)
    as (st' & Hu & Hsh'). exists st'. split_and!; [done..|].
  intros k Hne Hk' cal' Hcal'.
  erewrite getCalendar_updateCalendar, decide_False in Hcal' by eauto. auto.
Qed.

Lemma commitKinds_total `{TGT : LLVMTarget} n pl uses t kinds : forall st,
  shape n st -> (simd pl < 2 * n)%nat -> NoDup kinds ->
  Forall (fun k => k ∈ resourceKinds /\ accepts st pl uses t k) kinds ->
  exists st', foldM (commitKind pl uses t) st kinds = Ok st' /\ shape n st'.
Proof.
  induction kinds as [|k kinds IH]; intros st Hsh Hpl Hnd Hall; simpl; [eauto|].
  apply NoDup_cons in Hnd as [Hk Hnd]. apply Forall_cons in Hall as [[Hin Hacc] Hall].
  destruct (commitKind_total n pl uses t k st) as (st1 & -> & Hsh1 & Hpres); auto. simpl.
  apply IH; auto. rewrite Forall_forall in *. intros k' Hk'.
  destruct (Hall k' Hk'). split; [done|]. apply Hpres; [by intros ->|done].
Qed.

(** In a build with assertions too, uses that fit can be committed. *)
Lemma commit_total `{TGT : LLVMTarget} n st pl uses t :
  shape n st -> (simd pl < 2 * n)%nat -> sound_state st -> Forall wf_use uses ->
  0 <= t -> no_overflow uses t -> fits st pl uses t -> lastCommittedCycle st <= t ->
  exists st', commit st pl uses t = Ok st' /\ shape n st'.
Proof.
  intros Hsh Hpl Hst Huses Ht Hno Hfit Hle. unfold commit.
  rewrite assertion_holds by lia. cbn [mbind outcome_bind].
  destruct (commitKinds_total n pl uses t resourceKinds (prune t st)) as (st' & -> & Hsh');
    [by apply prune_shape|done|apply resourceKinds_NoDup| |].
  - apply Forall_forall. intros k Hk. split; [done|]. by apply fits_accepts.
  - simpl. eexists. split; [done|]. exact Hsh'.
Qed.

(** ** Progress *)

Definition no_fatal {A} (m : outcome A) : Prop := forall why, m <> Fatal why.

Lemma canReserveAtKinds_total n st pl uses t kinds :
  shape n st -> (simd pl < 2 * n)%nat ->
  Forall (fun k => k ∈ resourceKinds) kinds ->
  exists r, canReserveAtKinds st pl uses t kinds = Ok r /\
    (forall k, r = Some k -> k ∈ resourceKinds).
Proof.
  intros Hsh Hpl Hall. induction kinds as [|k kinds IH]; simpl; [by exists None|].
  apply Forall_cons in Hall as [Hk Hall].
  destruct (additions uses t k) as [|a rs]; [auto|].
  destruct (getCalendar_shape n st pl k) as [cal ->]; auto. simpl.
  case_match; [auto|]. exists (Some k). split; [done|]. by intros k' [= <-].
Qed.

Lemma canReserveAt_total n st pl uses t :
  shape n st -> (simd pl < 2 * n)%nat ->
  exists r, canReserveAt st pl uses t = Ok r /\
    (forall k, r = Some k -> k ∈ resourceKinds).
Proof. intros. eapply canReserveAtKinds_total; eauto. by apply Forall_forall. Qed.

Lemma resourceKinds_scope k :
  k ∈ resourceKinds -> exists sc, getInstructionResourceScope k = Ok sc.
Proof.
  unfold resourceKinds. intros Hk.
  repeat (apply elem_of_cons in Hk as [->|Hk]; [simpl; eauto|]). by apply elem_of_nil in Hk.
Qed.

Lemma tryCandidates_total n st pl uses cands : forall bk bs,
  shape n st -> (simd pl < 2 * n)%nat ->
  no_fatal (tryCandidates st pl uses bk bs cands).
Proof.
  induction cands as [|c cands IH]; intros bk bs Hsh Hpl why; simpl; [done|].
  destruct (canReserveAt_total n st pl uses c Hsh Hpl) as ([k|] & -> & Hk); simpl; [|done].
  destruct (resourceKinds_scope k (Hk k eq_refl)) as [sc ->].
  simpl. by apply IH.
Qed.

Lemma getCandidateCycles_total n st pl uses initial :
  shape n st -> (simd pl < 2 * n)%nat ->
  Forall (fun u => hasReservation u = true -> use_kind u ∈ resourceKinds) uses ->
  exists cands, getCandidateCycles st pl uses initial = Ok cands.
Proof.
  intros Hsh Hpl Huses. unfold getCandidateCycles.
  match goal with |- context [foldM ?f] =>
    assert (forall us acc, Forall (fun u => hasReservation u = true -> use_kind u ∈ resourceKinds) us ->
      exists r, foldM f acc us = Ok r) as Hf
  end.
  { induction us as [|u us IH]; intros acc Hus; simpl; [eauto|].
    apply Forall_cons in Hus as [Hu Hus]. destruct (hasReservation u); simpl; [|auto].
    destruct (getCalendar_shape n st pl (use_kind u)) as [cal Hcal]; auto.
    rewrite Hcal. simpl. auto. }
  destruct (Hf uses [initial] Huses) as [r ->]. simpl. eauto.
Qed.

(** The uses fit on the machine with every calendar empty. *)
Definition fits_idle (st : InstructionResourceState) (pl : WavePlacement)
    (uses : list InstructionResourceUse) : Prop :=
  forall k cal, k ∈ resourceKinds -> getCalendar st pl k = Ok cal ->
    relAdditions uses k = [] \/
    (capacity cal <> 0 /\ forall s, usage (relAdditions uses k) s <= capacity cal).

(** Every reservation has ended by [T]. *)
Definition idle_from (st : InstructionResourceState) (T : Z) : Prop :=
  all_calendars (fun cal => Forall (fun r => rend r <= T) (reservations cal)) st.

Lemma usage_after rs t : Forall (fun r => rend r <= t) rs -> usage rs t = 0.
Proof.
  induction 1; [done|]. rewrite usage_cons, IHForall. unfold heldAt.
  rewrite decide_False by lia. done.
Qed.

Lemma usage_before rs c t : Forall (fun r => c <= begin r) rs -> t < c -> usage rs t = 0.
Proof.
  intros H Ht. induction H; [done|]. rewrite usage_cons, IHForall. unfold heldAt.
  rewrite decide_False by lia. done.
Qed.

Lemma fits_when_idle n st pl uses T :
  shape n st -> (simd pl < 2 * n)%nat -> sound_state st ->
  Forall wf_use uses -> 0 <= T -> no_overflow uses T ->
  idle_from st T -> fits_idle st pl uses -> fits st pl uses T.
Proof.
  intros Hsh Hpl Hst Huses HT Hno Hidle Hfit. apply Forall_forall. intros k Hk.
  unfold fitsKind. rewrite additions_shift by done.
  destruct (getCalendar_shape n st pl k Hsh Hpl Hk) as [cal Hcal].
  destruct (Hfit k cal Hk Hcal) as [->|[Hnz Hle]]; [by left|]. right. exists cal. split; [done|].
  destruct (getCalendar_all _ _ _ _ _ Hst Hcal) as [Hwf Hin].
  pose proof (getCalendar_all _ _ _ _ _ Hidle Hcal) as Hend. simpl in Hend.
  apply canReserve_usage; [done|by apply shift_wf, relAdditions_wf|]. right. split; [done|].
  intros s. rewrite usage_shift. destruct (decide (T <= s)).
  - rewrite usage_after; [specialize (Hle (s - T)); lia|].
    eapply Forall_impl; [exact Hend|simpl; lia].
  - rewrite (usage_before (relAdditions uses k) 0); [specialize (Hin s); lia| |lia].
    apply Forall_forall. intros a Ha.
    apply elem_of_relAdditions in Ha as (u & i & Hu & _ & _ & Hi & ->). simpl.
    rewrite Forall_forall in Huses. destruct (Huses u Hu) as (?&?&?&?&?). unfold relOffset. nia.
Qed.

Lemma sound_wf st : sound_state st -> wf_state st.
Proof.
  intros (H1 & H2 & H3). unfold wf_state, all_calendars.
  split_and!; repeat (eapply Forall_impl; [eassumption|]; intros ? ?); naive_solver.
Qed.

Lemma validateUses_kinds st uses :
  validateUses st uses = Ok tt ->
  Forall (fun u => hasReservation u = true -> use_kind u ∈ resourceKinds) uses.
Proof.
  unfold validateUses. generalize tt at 2. induction uses as [|u us IH]; intros x H; simpl in H; [constructor|].
  destruct (hasReservation u) eqn:Hh; simpl in H.
  - apply hasReservation_spec in Hh as Hh'. destruct Hh' as [Hne _]. constructor.
    + intros _. destruct (use_kind u); simpl in H; try done; unfold resourceKinds; set_solver.
    + destruct (getInstructionResourceScope (use_kind u)); simpl in H; try done.
      case_decide; [done|]. destruct (isEnabled st (use_kind u)) as [[]| |]; simpl in H; try done.
      destruct x. eauto.
  - constructor; [congruence|]. destruct x. eauto.
Qed.

Lemma query_progress `{TGT : LLVMTarget} n st pl uses earliest T :
  shape n st -> (simd pl < 2 * n)%nat -> sound_state st ->
  Forall wf_use uses -> 0 <= earliest -> validateUses st uses = Ok tt ->
  existsb hasReservation uses = true ->
  Z.max earliest (lastCommittedCycle st) <= T -> no_overflow uses T ->
  idle_from st T -> fits_idle st pl uses ->
  exists q, query st pl uses earliest = Ok q.
Proof.
  intros Hsh Hpl Hst Huses He Hval Hex HT Hno Hidle Hfit.
  pose proof (fits_when_idle n st pl uses T Hsh Hpl Hst Huses ltac:(lia) Hno Hidle Hfit) as HfT.
  destruct (query st pl uses earliest) as [q| |why] eqn:Hq; [eauto|exfalso..].
  - by eapply (query_Failure st pl uses earliest T); eauto using sound_wf.
  - rewrite query_unfold, Hval in Hq by done. simpl in Hq.
    destruct (getCandidateCycles_total n st pl uses (Z.max earliest (lastCommittedCycle st)))
      as [cands Hc]; eauto using validateUses_kinds.
    rewrite Hc in Hq. simpl in Hq. by eapply tryCandidates_total in Hq.
Qed.

(** ** The initial state *)

Lemma makeResourceState_sound `{TGT : LLVMTarget} arch n caps st :
  0 < simdsPerCU arch -> Z.rem (simdsPerCU arch) 2 = 0 ->
  0 <= cap_valuPipe caps -> 0 <= cap_saluPipe caps -> 0 <= cap_xdlPipe caps ->
  makeResourceState arch n caps = Ok st ->
  sound_state st /\ shape (Z.to_nat (simdsPerCU arch / 2)) st /\
  lastCommittedCycle st = 0 /\ idle_from st 0.
Proof.
  intros Hpos Heven H1 H2 H3 H. unfold makeResourceState in H.
  do 3 (apply outcome_bind_Ok in H as ([] & _ & H)).
  injection H as <-.
  rewrite Z.quot_div_nonneg, Z.rem_mod_nonneg in * by lia.
  pose proof (Z.div_mod (simdsPerCU arch) 2).
  pose proof (u32_nonneg (simdIssueWidth arch)). pose proof (u32_nonneg (issuesPerCUPerCycle arch)).
  unfold sound_state, shape, idle_from, all_calendars, setCapacity; simpl.
  rewrite !fmap_replicate, !length_replicate.
  assert (Hin : forall c, 0 <= c -> wf_calendar (mkCalendar [] c) /\ within_capacity (mkCalendar [] c)).
  { intros c Hc. split; [by split; [constructor|]|by intros t]. }
  split_and!; try lia; try (apply Forall_replicate; simpl);
    repeat apply Forall_cons_2; try apply Forall_nil_2;
    first [apply Hin; repeat case_match; lia|reflexivity].
Qed.

(** ** Issuing instructions: the state machine of the shared resources *)

Lemma no_reservation_additions uses t k :
  existsb hasReservation uses = false -> additions uses t k = [].
Proof.
  induction uses as [|u uses IH]; [done|]. cbn [existsb]. rewrite orb_false_iff.
  intros [Hu Hus]. unfold additions. rewrite bind_cons. fold (additions uses t k). rewrite IH by done.
  case_decide; [|done]. rewrite app_nil_r. unfold appendReservations.
  case_decide as Hd; [done|]. exfalso.
  assert (hasReservation u = true); [|congruence]. apply hasReservation_spec.
  split_and!; try lia; intros ?; apply Hd; auto.
Qed.

Lemma query_fits `{TGT : LLVMTarget} st pl uses earliest q :
  wf_state st -> Forall wf_use uses -> 0 <= earliest ->
  query st pl uses earliest = Ok q -> no_overflow uses (readyCycle q) ->
  earliest <= readyCycle q /\ fits st pl uses (readyCycle q).
Proof.
  intros Hst Huses He Hq Hno. destruct (existsb hasReservation uses) eqn:Hex.
  - destruct (query_optimal _ _ _ _ _ Hst Huses He Hex Hq Hno) as (?&?&_). split; [lia|done].
  - unfold query in Hq. rewrite assertion_holds in Hq by lia. rewrite Hex in Hq. simpl in Hq.
    simplify_eq. simpl.
    split; [lia|]. apply Forall_forall. intros k _. left. by apply no_reservation_additions.
Qed.

(** One instruction issued by some wave at the cycle [query] gave it.  The premise
    on the last committed cycle is the assertion at the head of [commit], which
    a release build does not test. *)
Inductive issue_step `{TGT : LLVMTarget} (n : nat) : InstructionResourceState -> InstructionResourceState -> Prop :=
| issue_step_intro st pl uses earliest q st' :
    (simd pl < 2 * n)%nat -> Forall wf_use uses -> 0 <= earliest ->
    query st pl uses earliest = Ok q -> no_overflow uses (readyCycle q) ->
    lastCommittedCycle st <= readyCycle q ->
    commit st pl uses (readyCycle q) = Ok st' ->
    issue_step n st st'.

Inductive issues `{TGT : LLVMTarget} (n : nat) (st0 : InstructionResourceState) : InstructionResourceState -> Prop :=
| issues_refl : issues n st0 st0
| issues_step st st' : issues n st0 st -> issue_step n st st' -> issues n st0 st'.

Lemma issue_step_sound `{TGT : LLVMTarget} n st st' :
  sound_state st -> 0 <= lastCommittedCycle st -> shape n st -> issue_step n st st' ->
  sound_state st' /\ shape n st' /\ lastCommittedCycle st <= lastCommittedCycle st'.
Proof.
  intros Hst Hlast Hsh Hstep. destruct Hstep as [st pl uses e q st' Hpl Huses He Hq Hno Hle Hc].
  destruct (query_fits _ _ _ _ _ (sound_wf _ Hst) Huses He Hq Hno) as [? Hfit].
  assert (Hq0 : 0 <= readyCycle q) by lia.
  destruct (commit_sound _ _ _ _ _ Hst Huses Hq0 Hno Hfit Hc) as [? ->].
  destruct (commit_total n st pl uses (readyCycle q)) as (st1 & Hc1 & Hsh1); auto.
  replace st1 with st' in Hsh1 by congruence. auto.
Qed.

(** ** Properties *)

(** The sweep of [canReserve] decides the pointwise capacity condition:
    a non-empty set of reservations is accepted exactly when the calendar has
    capacity and at no cycle do the units held by the old and the new
    reservations together exceed it. *)
Theorem canReserve_iff_pointwise cal rs
  (Hcal : wf_calendar cal) (Hrs : Forall wf_reservation rs) :
  canReserve cal rs = true <->
  rs = [] \/ (capacity cal <> 0 /\
    forall t, usage (reservations cal) t + usage rs t <= capacity cal).
Proof. by apply canReserve_usage. Qed.

#[local] Existing Instance exampleTarget.

Definition exampleCalendar : ResourceCalendar :=
  mkCalendar [mkReservation 0 4 1; mkReservation 2 6 1] 2.

Lemma canReserve_iff_pointwise_witness :
  canReserve exampleCalendar [mkReservation 4 8 1] = true /\
  canReserve exampleCalendar [mkReservation 3 8 1] = false /\
  (canReserve exampleCalendar [mkReservation 4 8 1] = true <->
   [mkReservation 4 8 1] = [] \/ (capacity exampleCalendar <> 0 /\
     forall t, usage (reservations exampleCalendar) t + usage [mkReservation 4 8 1] t
               <= capacity exampleCalendar)).
Proof.
  split; [by vm_compute|]. split; [by vm_compute|].
  apply canReserve_iff_pointwise; repeat constructor; simpl; lia.
Defined.

Definition exampleUses : list InstructionResourceUse :=
  [mkUse K.SimdIssue Sc.SIMD 1 2 0 4 4; mkUse K.CuIssue Sc.CU 1 2 0 4 1].
Definition exampleState : InstructionResourceState :=
  mkResourceState
    (replicate 4 [mkCalendar [mkReservation 0 4 1; mkReservation 8 12 1] 1;
                  mkCalendar [] 0; mkCalendar [] 0; mkCalendar [] 0; mkCalendar [] 1])
    (replicate 2 [mkCalendar [] 1; mkCalendar [] 1])
    [mkCalendar [] 5] 0 4.

(** A well-formed calendar whose reservations do not overlap is within
    capacity 1: enough for the example states. *)
Lemma exampleState_sound : sound_state exampleState.
Proof.
  assert (H1 : forall c, 0 <= c -> wf_calendar (mkCalendar [] c) /\ within_capacity (mkCalendar [] c)).
  { intros c Hc. split; [by split; [constructor|]|by intros t]. }
  assert (H2 : wf_calendar (mkCalendar [mkReservation 0 4 1; mkReservation 8 12 1] 1) /\
               within_capacity (mkCalendar [mkReservation 0 4 1; mkReservation 8 12 1] 1)).
  { split; [split; [|simpl; lia]; repeat constructor; simpl; lia|]. intros t.
    unfold usage, heldAt; simpl. repeat case_decide; lia. }
  unfold sound_state, all_calendars, exampleState; simpl.
  split_and!; repeat apply Forall_cons_2; try apply Forall_nil_2; first [apply H2|apply H1; lia].
Qed.

(** C20: [query] answers with the first cycle, from the later of the caller's
    cycle and the last committed one, at which every use fits: it fits there,
    and at no cycle before. *)
Theorem query_earliest_fit `{TGT : LLVMTarget} st pl uses earliest q
  (Hst : sound_state st) (Huses : Forall wf_use uses) (He : 0 <= earliest)
  (Hex : existsb hasReservation uses = true)
  (Hq : query st pl uses earliest = Ok q) (Hno : no_overflow uses (readyCycle q)) :
  Z.max earliest (lastCommittedCycle st) <= readyCycle q /\
  canReserveAt st pl uses (readyCycle q) = Ok None /\
  (forall t, Z.max earliest (lastCommittedCycle st) <= t < readyCycle q ->
     canReserveAt st pl uses t <> Ok None).
Proof.
  destruct (query_optimal _ _ _ _ _ (sound_wf _ Hst) Huses He Hex Hq Hno) as (?&?&?).
  split_and!; [done|by apply canReserveAt_fits|]. intros t Ht. rewrite canReserveAt_fits. auto.
Qed.

Lemma query_earliest_fit_witness :
  query exampleState (mkWavePlacement 0 0) exampleUses 1 = Ok (mkQuery 12 K.SimdIssue Sc.SIMD) /\
  (forall t, 1 <= t < 12 ->
     canReserveAt exampleState (mkWavePlacement 0 0) exampleUses t <> Ok None).
Proof.
  split; [by vm_compute|].
  apply (query_earliest_fit exampleState (mkWavePlacement 0 0) exampleUses 1
           (mkQuery 12 K.SimdIssue Sc.SIMD) exampleState_sound);
    [repeat constructor; simpl; lia|lia|by vm_compute|by vm_compute|].
  repeat constructor; unfold useSpan, INT64_MAX; simpl; lia.
Defined.

(** [query] reports failure, for uses that are valid on this target, only
    when the uses fit at no later cycle at all. *)
Theorem query_failure_is_final `{TGT : LLVMTarget} st pl uses earliest t
  (Hst : sound_state st) (Huses : Forall wf_use uses) (He : 0 <= earliest)
  (Hex : existsb hasReservation uses = true)
  (Hval : validateUses st uses = Ok tt)
  (Hq : query st pl uses earliest = Failure)
  (Ht : Z.max earliest (lastCommittedCycle st) <= t) (Hno : no_overflow uses t) :
  canReserveAt st pl uses t <> Ok None.
Proof. rewrite canReserveAt_fits. eapply query_Failure; eauto using sound_wf. Qed.

Lemma query_failure_is_final_witness :
  canReserveAt exampleState (mkWavePlacement 0 0)
    [mkUse K.SimdIssue Sc.SIMD 2 1 0 0 4] 100 <> Ok None.
Proof.
  apply (query_failure_is_final exampleState (mkWavePlacement 0 0)
           [mkUse K.SimdIssue Sc.SIMD 2 1 0 0 4] 0 100 exampleState_sound);
    [repeat constructor; simpl; lia|lia|by vm_compute|by vm_compute|by vm_compute|simpl; lia|].
  repeat constructor; unfold useSpan, INT64_MAX; simpl; lia.
Defined.

(** C39: [query] always answers: on a state whose calendars exist for the
    placement, uses that fit an idle machine get an issue cycle. *)
Theorem query_answers `{TGT : LLVMTarget} n st pl uses earliest T
  (Hsh : shape n st) (Hpl : (simd pl < 2 * n)%nat) (Hst : sound_state st)
  (Huses : Forall wf_use uses) (He : 0 <= earliest)
  (Hval : validateUses st uses = Ok tt)
  (Hex : existsb hasReservation uses = true)
  (HT : Z.max earliest (lastCommittedCycle st) <= T) (Hno : no_overflow uses T)
  (Hidle : idle_from st T) (Hfit : fits_idle st pl uses) :
  exists q, query st pl uses earliest = Ok q.
Proof. by eapply query_progress. Qed.

Lemma query_answers_witness :
  exists q, query exampleState (mkWavePlacement 3 0) exampleUses 1 = Ok q.
Proof.
  apply (query_answers 2 exampleState (mkWavePlacement 3 0) exampleUses 1 12).
  - repeat split; repeat constructor.
  - simpl; lia.
  - apply exampleState_sound.
  - repeat constructor; simpl; lia.
  - lia.
  - by vm_compute.
  - by vm_compute.
  - simpl; lia.
  - repeat constructor; unfold useSpan, INT64_MAX; simpl; lia.
  - unfold idle_from, all_calendars; simpl. split_and!; repeat constructor; simpl; lia.
  - intros k cal Hk Hcal. unfold resourceKinds in Hk.
    repeat (apply elem_of_cons in Hk as [->|Hk];
      [vm_compute in Hcal; injection Hcal as <-;
       first [left; vm_compute; reflexivity
             |right; split; [done|]; intros s; unfold usage, heldAt; simpl;
              unfold relOffset; simpl; repeat case_decide; lia]|]).
    by apply elem_of_nil in Hk.
Defined.

(** C1: along any sequence of issues from the initial state of a target, no
    calendar is ever oversubscribed at any cycle, and the committed cycle never
    moves back. *)
Theorem issues_never_oversubscribe `{TGT : LLVMTarget} arch waves caps st0 st
  (Hpos : 0 < simdsPerCU arch) (Heven : Z.rem (simdsPerCU arch) 2 = 0)
  (Hcaps : 0 <= cap_valuPipe caps /\ 0 <= cap_saluPipe caps /\ 0 <= cap_xdlPipe caps)
  (Hinit : makeResourceState arch waves caps = Ok st0)
  (Hrun : issues (Z.to_nat (simdsPerCU arch / 2)) st0 st) :
  all_calendars within_capacity st /\ 0 <= lastCommittedCycle st.
Proof.
  destruct (makeResourceState_sound arch waves caps st0) as (Hs & Hsh & Hl & _); [tauto..|].
  assert (sound_state st /\ shape (Z.to_nat (simdsPerCU arch / 2)) st /\ 0 <= lastCommittedCycle st)
    as (Hst & _ & ?).
  { induction Hrun as [|st st' _ (?&?&?) Hstep]; [split_and!; auto; lia|].
    destruct (issue_step_sound _ _ _ ltac:(eassumption) ltac:(eassumption) ltac:(eassumption) Hstep)
      as (?&?&?). split_and!; auto; lia. }
  split; [|done]. destruct Hst as (?&?&?). unfold all_calendars.
  split_and!; repeat (eapply Forall_impl; [eassumption|]; intros ? ?); naive_solver.
Qed.

Definition exampleInitial : InstructionResourceState :=
  Eval vm_compute in
    match makeResourceState kGfx950 4 (mkCapacities 2 2 1) with
    | Ok st => st | _ => exampleState end.
Definition exampleIssued : InstructionResourceState :=
  Eval vm_compute in
    match commit exampleInitial (mkWavePlacement 1 0) exampleUses 3 with
    | Ok st => st | _ => exampleState end.

Lemma issues_never_oversubscribe_witness :
  all_calendars within_capacity exampleIssued /\ 0 <= lastCommittedCycle exampleIssued.
Proof.
  apply (issues_never_oversubscribe kGfx950 4 (mkCapacities 2 2 1) exampleInitial).
  - simpl; lia.
  - by vm_compute.
  - simpl; lia.
  - by vm_compute.
  - eapply issues_step; [apply issues_refl|].
    apply (issue_step_intro _ exampleInitial (mkWavePlacement 1 0) exampleUses 3
             (mkQuery 3 K.None Sc.Wave));
      [vm_compute; lia|repeat constructor; simpl; lia|lia|by vm_compute| |simpl; lia|by vm_compute].
    repeat constructor; unfold useSpan, INT64_MAX; simpl; lia.
Defined.
