(* ===== verification/ExecLemmas.v ===== *)
(** * Lemmas on the issue state

    Stalls are built from their components; frame lemmas say which members a
    step leaves alone; pruning only drops retired entries.  The specifications
    of the following files rest on these. *)

From stdpp Require Import base tactics list gmap sorting strings.
From S2P Require Import Prelude CostEnums ArchData MachineIR LatencyTable.
From S2P Require Import OpClassifier MemoryTiming ScheduleModel.
From S2P Require Import ResourceState ExecState ExecOps.

(** ** Stalls *)

(** The contract of a stall: its cycles are the maximum over its components,
    all positive, and its kind is that of the first maximal component. *)
Record stall_wf (stall : InstructionStall) : Prop := {
  stall_wf_positive :
    Forall (fun c => 0 < comp_cycles c) (components stall);
  stall_wf_cycles :
    stall_cycles stall = foldr Z.max 0 (comp_cycles <$> components stall);
  stall_wf_kind :
    stall_kind stall =
      match List.find (fun c => comp_cycles c =? stall_cycles stall)
              (components stall) with
      | Some c => comp_kind c
      | None => InstructionStallKind.None
      end
}.

Lemma noStall_wf : stall_wf noStall.
Proof. by split. Qed.

Lemma foldr_max_ge (l : list Z) x : x ∈ l -> x <= foldr Z.max 0 l.
Proof. induction 1; simpl; lia. Qed.

Lemma foldr_max_nonneg (l : list Z) : 0 <= foldr Z.max 0 l.
Proof. induction l; simpl; lia. Qed.

Lemma foldr_max_app (l : list Z) x :
  0 <= x -> foldr Z.max 0 (l ++ [x]) = Z.max (foldr Z.max 0 l) x.
Proof. intros; induction l; simpl; lia. Qed.

Lemma find_app_None {A} (p : A -> bool) l1 l2 :
  List.find p l1 = None -> List.find p (l1 ++ l2) = List.find p l2.
Proof. induction l1; simpl; [done|]. destruct (p a); [done|auto]. Qed.

Lemma find_app_Some {A} (p : A -> bool) l1 l2 a :
  List.find p l1 = Some a -> List.find p (l1 ++ l2) = Some a.
Proof. induction l1; simpl; [done|]. destruct (p a0); auto. Qed.

Lemma find_component_max (l : list InstructionStallComponent) m :
  m = foldr Z.max 0 (comp_cycles <$> l) -> 0 < m ->
  exists c, List.find (fun c => comp_cycles c =? m) l = Some c.
Proof.
  intros -> Hm. induction l as [|c l IH]; csimpl in *; [lia|].
  set (rest := foldr Z.max 0 (comp_cycles <$> l)) in *.
  destruct (comp_cycles c =? _) eqn:Heq; [eauto|].
  apply Z.eqb_neq in Heq.
  replace (comp_cycles c `max` rest) with rest in * by lia.
  by apply IH.
Qed.

Lemma find_above_max (l : list InstructionStallComponent) m :
  foldr Z.max 0 (comp_cycles <$> l) < m ->
  List.find (fun c => comp_cycles c =? m) l = None.
Proof.
  induction l as [|c l IH]; csimpl; intros Hm; [done|].
  destruct (comp_cycles c =? m) eqn:Heq; [apply Z.eqb_eq in Heq; lia|].
  apply IH. lia.
Qed.

(** Appending one positive component, as every builder of a stall does. *)
Lemma stall_wf_snoc stall c :
  stall_wf stall -> 0 < comp_cycles c ->
  stall_wf (if stall_cycles stall <? comp_cycles c
            then mkStall (comp_kind c) (comp_cycles c) (components stall ++ [c])
            else mkStall (stall_kind stall) (stall_cycles stall)
                   (components stall ++ [c])).
Proof.
  intros [Hpos Hcyc Hkind] Hc.
  destruct (stall_cycles stall <? comp_cycles c) eqn:Hlt;
    [apply Z.ltb_lt in Hlt|apply Z.ltb_ge in Hlt]; split; simpl;
    try (apply Forall_app; split; [done|by repeat constructor]);
    rewrite ?fmap_app; simpl; rewrite ?foldr_max_app by lia; try lia.
  - rewrite find_app_None by (apply find_above_max; lia).
    simpl. by rewrite Z.eqb_refl.
  - destruct (find_component_max _ _ Hcyc) as [c' Hc']; [lia|].
    rewrite (find_app_Some _ _ _ _ Hc'). by rewrite Hc' in Hkind.
Qed.

Lemma addComponentAt_wf stall kind cycles resource scope :
  stall_wf stall -> stall_wf (addComponentAt stall kind cycles resource scope).
Proof.
  intros Hwf. unfold addComponentAt. destruct (cycles <=? 0) eqn:Hle; [done|].
  apply Z.leb_gt in Hle.
  by apply (stall_wf_snoc stall (mkComponent kind cycles resource scope)).
Qed.

Lemma addComponent_wf stall kind cycles :
  stall_wf stall -> stall_wf (addComponent stall kind cycles).
Proof. apply addComponentAt_wf. Qed.

(** Components are only added: the cycles of a stall never shrink. *)
Lemma addComponentAt_cycles stall kind cycles resource scope :
  0 <= stall_cycles stall ->
  stall_cycles (addComponentAt stall kind cycles resource scope)
  = Z.max (stall_cycles stall) cycles.
Proof.
  intros. unfold addComponentAt.
  destruct (cycles <=? 0) eqn:H1; [apply Z.leb_le in H1; lia|].
  destruct (stall_cycles stall <? cycles) eqn:H2; simpl; lia.
Qed.

Lemma addComponent_cycles stall kind cycles :
  0 <= stall_cycles stall ->
  stall_cycles (addComponent stall kind cycles) = Z.max (stall_cycles stall) cycles.
Proof. apply addComponentAt_cycles. Qed.

Lemma stall_wf_nonneg stall : stall_wf stall -> 0 <= stall_cycles stall.
Proof. intros [_ -> _]. apply foldr_max_nonneg. Qed.

Create HintDb stall.
#[export] Hint Resolve noStall_wf addComponentAt_wf addComponent_wf
  stall_wf_nonneg : stall.

(** ** Stall components are kept *)

Lemma addComponentAt_components stall kind cycles resource scope c :
  c ∈ components stall ->
  c ∈ components (addComponentAt stall kind cycles resource scope).
Proof.
  intros. unfold addComponentAt. destruct (cycles <=? 0); [done|].
  case_match; simpl; rewrite elem_of_app; by left.
Qed.

Lemma addComponent_components stall kind cycles c :
  c ∈ components stall -> c ∈ components (addComponent stall kind cycles).
Proof. apply addComponentAt_components. Qed.

Lemma addComponent_in stall kind cycles :
  0 < cycles ->
  mkComponent kind cycles InstructionResourceKind.None
    InstructionResourceScope.Wave ∈ components (addComponent stall kind cycles).
Proof.
  intros. unfold addComponent, addComponentAt.
  destruct (cycles <=? 0) eqn:Hle; [apply Z.leb_le in Hle; lia|].
  case_match; simpl; rewrite elem_of_app, list_elem_of_singleton; by right.
Qed.

(** ** Frame: steps that only touch the value maps *)

Record sameTiming (st st' : InstructionExecutionState) : Prop := {
  same_events : events st' = events st;
  same_waitQueues : waitQueues st' = waitQueues st;
  same_pipeQueues : pipeQueues st' = pipeQueues st;
  same_memoryIssueQueues : memoryIssueQueues st' = memoryIssueQueues st;
  same_currentCycle : currentCycle st' = currentCycle st;
  same_nextLdsDmaIssueCycle :
    nextLdsDmaIssueCycle st' = nextLdsDmaIssueCycle st;
  same_mfmaCoissueReadyCycle :
    mfmaCoissueReadyCycle st' = mfmaCoissueReadyCycle st;
  same_coexecWindowSlots : coexecWindowSlots st' = coexecWindowSlots st;
  same_coexecProducerRun : coexecProducerRun st' = coexecProducerRun st;
  same_currentIssueSlot : currentIssueSlot st' = currentIssueSlot st;
  same_nextEventId : nextEventId st' = nextEventId st;
  same_storeDataGap : storeDataGap st' = storeDataGap st;
  same_m0DmaCaptureGapArmed : m0DmaCaptureGapArmed st' = m0DmaCaptureGapArmed st;
  same_m0GapArmed : m0GapArmed st' = m0GapArmed st
}.

#[export] Instance sameTiming_preorder : PreOrder sameTiming.
Proof.
  split; [by split|].
  intros st1 st2 st3 [] []. split; congruence.
Qed.

Lemma fold_left_preorder {A B} (R : relation A) `{!PreOrder R}
    (f : A -> B -> A) l : forall a,
  (forall a b, R a (f a b)) -> R a (fold_left f l a).
Proof.
  induction l as [|b l IH]; simpl; intros a Hf; [done|].
  transitivity (f a b); auto.
Qed.

Lemma bindValue_sameTiming st result sources :
  sameTiming st (bindValue st result sources).
Proof. by split. Qed.

Lemma commitResult_sameTiming op desc cyc ready deps new st v :
  sameTiming st (commitResult op desc cyc ready deps new st v).
Proof.
  unfold commitResult. destruct (isMemToken v); [by split|].
  destruct (last new); by split.
Qed.

Lemma commitResults_sameTiming arch config op desc cyc new st :
  sameTiming st (commitResults arch config op desc cyc new st).
Proof.
  unfold commitResults. apply (fold_left_preorder sameTiming).
  intros. apply commitResult_sameTiming.
Qed.

Lemma updateHazards_sameTiming f v st : sameTiming st (updateHazards f v st).
Proof. by split. Qed.

Lemma commitIssueSlotHazards_sameTiming arch op desc st :
  sameTiming st (commitIssueSlotHazards arch op desc st).
Proof.
  unfold commitIssueSlotHazards. destruct (_ || _); [|done].
  unfold commitIssueSlotProducer.
  destruct (negb _); apply (fold_left_preorder sameTiming); intros st' v;
    [apply updateHazards_sameTiming|].
  cbv zeta. case_decide; case_match; try done;
    repeat (etransitivity; [apply updateHazards_sameTiming|]);
    try done; apply updateHazards_sameTiming.
Qed.

Lemma fold_pair_preorder {A B C} (R : relation A) `{!PreOrder R}
    (f : C * A -> B -> C * A) l : forall ca,
  (forall c a b, R a (f (c, a) b).2) -> R ca.2 (fold_left f l ca).2.
Proof.
  induction l as [|b l IH]; simpl; intros [c a] Hf; [done|].
  transitivity (f (c, a) b).2; [apply Hf|]. by apply IH.
Qed.

Lemma commitNoMachineInst_sameTiming op st :
  sameTiming st (commitNoMachineInst op st).2.
Proof.
  unfold commitNoMachineInst.
  apply (fold_pair_preorder sameTiming _ _ (currentCycle st, st)).
  intros c a b. apply bindValue_sameTiming.
Qed.

(** ** Pruning *)

Lemma prune_currentCycle cycle st :
  currentCycle (pruneRetiredEvents cycle st) = currentCycle st.
Proof. done. Qed.

Lemma prune_events cycle st :
  events (pruneRetiredEvents cycle st) = events st.
Proof. done. Qed.

Lemma queueAt_fmap {A} (f : list A -> list A) qs i :
  f [] = [] -> queueAt (f <$> qs) i = f (queueAt qs i).
Proof.
  intros Hf. unfold queueAt. rewrite list_lookup_fmap.
  destruct (qs !! i); simpl; auto.
Qed.

Lemma prune_waitQueue cycle st i :
  queueAt (waitQueues (pruneRetiredEvents cycle st)) i
  = base.filter (fun id => hasPendingEvent st id cycle)
      (queueAt (waitQueues st) i).
Proof. unfold pruneRetiredEvents. simpl. by rewrite queueAt_fmap. Qed.

Lemma prune_pipeQueue cycle st i :
  queueAt (pipeQueues (pruneRetiredEvents cycle st)) i
  = base.filter (fun ready => ~ ready <= cycle) (queueAt (pipeQueues st) i).
Proof. unfold pruneRetiredEvents. simpl. by rewrite queueAt_fmap. Qed.

Lemma prune_memoryQueue cycle st i :
  queueAt (memoryIssueQueues (pruneRetiredEvents cycle st)) i
  = base.filter (fun ready => ~ ready <= cycle)
      (queueAt (memoryIssueQueues st) i).
Proof. unfold pruneRetiredEvents. simpl. by rewrite queueAt_fmap. Qed.

(** ** What [commit] is made of *)

Section Commit.
Context `{LLVMTarget}.
Context (graph : UseGraph) (arch : ArchData)
  (config : InstructionExecutionConfig).

(** A committed operation was described and queried; what happens then
    depends on whether it emits an instruction. *)
Lemma commitWithResources_inv st op shared placement r st' shared' :
  commitWithResources graph arch config st op shared placement
    = Ok (r, st', shared') ->
  exists desc stall,
    describe graph arch config st op = Ok desc /\
    queryWithResources arch config st op desc shared placement = Ok stall /\
    (if noMachineInst desc
     then finishNoMachineInst arch op desc stall (beginIssue desc stall st)
            = (r, st') /\ shared' = shared
     else finishInstruction arch config op desc stall shared placement
            (beginIssue desc stall st) = Ok (r, st', shared')).
Proof.
  unfold commitWithResources. intros Hc.
  apply outcome_bind_Ok in Hc as (u & _ & Hc).
  apply outcome_bind_Ok in Hc as (desc & Hd & Hc).
  apply outcome_bind_Ok in Hc as (stall & Hq & Hc).
  exists desc, stall. split_and!; [done..|]. simpl in Hc.
  destruct (noMachineInst desc); [|done].
  destruct (finishNoMachineInst _ _ _ _ _) as [r0 st0].
  by injection Hc as <- <- <-.
Qed.

Lemma commit_inv st op r st' :
  commit graph arch config st op = Ok (r, st') ->
  exists shared', commitWithResources graph arch config st op None
    (mkWavePlacement 0 0) = Ok (r, st', shared').
Proof.
  unfold commit. intros Hc. apply outcome_bind_Ok in Hc as ([[r0 st0] sh] & Hw & Hc).
  injection Hc as <- <-. eauto.
Qed.

Lemma beginIssue_currentCycle desc stall st :
  currentCycle (beginIssue desc stall st) = currentCycle st + stall_cycles stall.
Proof. unfold beginIssue, consumeCoexecutionWait. by case_match. Qed.

Lemma beginIssue_events desc stall st :
  events (beginIssue desc stall st) = events st.
Proof. unfold beginIssue, consumeCoexecutionWait. by case_match. Qed.

End Commit.
