(* ===== verification/WaitSpec.v ===== *)
(** * Waiting: counters, pipes and memory queues

    [counterReadyCycle], [pipeReadyCycle] and [memoryIssueReadyCycle] return
    the least cycle at which enough of a queue has drained, and committing
    [s_waitcnt] brings its counters down to their limits. *)

From stdpp Require Import base tactics list gmap sorting strings.
From S2P Require Import Prelude CostEnums ArchData MachineIR LatencyTable.
From S2P Require Import OpClassifier MemoryTiming ScheduleModel.
From S2P Require Import ResourceState ExecState ExecOps Examples ExecLemmas.

(** ** Pending events of a counter *)

(** The event behind [id] if it retires after [cycle] and is of one of the
    [classes] (of any class when the list is empty). *)
Definition pendingEvent (st : InstructionExecutionState)
    (classes : list InstructionEventClass.t) (cycle : Z) (id : N) :
    option PendingEvent :=
  match events st !! id with
  | Some event =>
      if (cycle <? retireCycle event)
         && (bool_decide (classes = [])
             || bool_decide (pe_eventClass event ∈ classes))
      then Some event else None
  | None => None
  end.

Definition pendingEvents (st : InstructionExecutionState)
    (kind : InstructionWaitCounterKind.t)
    (classes : list InstructionEventClass.t) (cycle : Z) :
    list PendingEvent :=
  match counterIndex kind with
  | Ok queue => omap (pendingEvent st classes cycle)
                  (queueAt (waitQueues st) queue)
  | _ => []
  end.

(** How many events the counter still holds at [cycle]. *)
Definition outstanding (st : InstructionExecutionState)
    (kind : InstructionWaitCounterKind.t)
    (classes : list InstructionEventClass.t) (cycle : Z) : Z :=
  Z.of_nat (length (pendingEvents st kind classes cycle)).

(** The event that keeps an LGKM wait from being answered. *)
Definition blocksWait (kind : InstructionWaitCounterKind.t) (limit : Z)
    (event : PendingEvent) : Prop :=
  kind = InstructionWaitCounterKind.Lgkm /\ limit <> 0
  /\ pe_eventClass event = InstructionEventClass.Smem.

#[export] Instance pending_le_total : Total pending_le.
Proof.
  intros x y. unfold pending_le.
  destruct (Z.lt_trichotomy (retireCycle x) (retireCycle y)) as [|[]]; [auto|..|auto].
  destruct (N.le_ge_cases (pe_id x) (pe_id y)); [left|right]; right; split; auto; lia.
Qed.

#[export] Instance pending_le_trans : Transitive pending_le.
Proof. intros x y z. unfold pending_le. lia. Qed.

Lemma pending_le_retire x y : pending_le x y -> retireCycle x <= retireCycle y.
Proof. unfold pending_le. lia. Qed.

Lemma pendingEvent_later st classes c c' id e :
  c <= c' ->
  pendingEvent st classes c' id = Some e ->
  pendingEvent st classes c id = Some e /\ c' < retireCycle e.
Proof.
  unfold pendingEvent. intros Hc. destruct (events st !! id) as [ev|]; [|done].
  destruct (c' <? retireCycle ev) eqn:H1; [|done]. apply Z.ltb_lt in H1.
  replace (c <? retireCycle ev) with true by (symmetry; apply Z.ltb_lt; lia).
  simpl. case_match; [|done]. intros [= <-]. auto.
Qed.

(** Later, fewer are pending: those that retire after the later cycle. *)
Lemma omap_pending_later st classes c c' (queue : list N) :
  c <= c' ->
  omap (pendingEvent st classes c') queue
  = base.filter (fun e => (retireCycle e > c')%Z)
      (omap (pendingEvent st classes c) queue).
Proof.
  intros Hc. induction queue as [|id queue IH]; [done|]. csimpl.
  destruct (pendingEvent st classes c' id) as [e|] eqn:H1.
  - destruct (pendingEvent_later _ _ _ _ _ _ Hc H1) as [-> He].
    rewrite filter_cons_True by lia. by rewrite IH.
  - destruct (pendingEvent st classes c id) as [e|] eqn:H2; [|done].
    rewrite filter_cons_False; [done|]. intros He.
    unfold pendingEvent in *. destruct (events st !! id) as [ev|]; [|done].
    destruct (c <? retireCycle ev); [|done]. simpl in *.
    destruct (bool_decide (classes = []) || _); [|done].
    injection H2 as ->. rewrite andb_true_r in H1.
    destruct (c' <? retireCycle e) eqn:H3; [done|].
    apply Z.ltb_ge in H3. lia.
Qed.

Lemma pendingEvents_later st kind classes c c' :
  c <= c' ->
  pendingEvents st kind classes c'
  = base.filter (fun e => (retireCycle e > c')%Z)
      (pendingEvents st kind classes c).
Proof.
  intros. unfold pendingEvents. destruct (counterIndex kind); [|done|done].
  by apply omap_pending_later.
Qed.

Lemma collectPending_spec st kind limit cycle classes queue :
  match collectPending st kind limit cycle classes queue with
  | Ok l => l = omap (pendingEvent st classes cycle) queue
            /\ Forall (fun e => ~ blocksWait kind limit e) l
  | Failure => Exists (blocksWait kind limit)
                 (omap (pendingEvent st classes cycle) queue)
  | Fatal _ => False
  end.
Proof.
  induction queue as [|id queue IH]; [by split|]. cbn [collectPending].
  set (rest := omap _ queue) in *.
  assert (omap (pendingEvent st classes cycle) (id :: queue)
          = match pendingEvent st classes cycle id with
            | Some y => y :: rest | None => rest end) as -> by done.
  unfold pendingEvent. destruct (events st !! id) as [e|]; [|done].
  destruct (retireCycle e <=? cycle) eqn:Hc;
    [apply Z.leb_le in Hc|apply Z.leb_gt in Hc].
  { replace (cycle <? retireCycle e) with false by (symmetry; apply Z.ltb_ge; lia).
    done. }
  replace (cycle <? retireCycle e) with true by (symmetry; apply Z.ltb_lt; lia).
  cbn [andb].
  destruct (bool_decide (classes <> []) && _) eqn:Hcl.
  { apply andb_true_iff in Hcl as [H1 H2].
    apply bool_decide_eq_true in H1. apply negb_true_iff in H2.
    rewrite H2, bool_decide_false by done. done. }
  assert (bool_decide (classes = []) || bool_decide (pe_eventClass e ∈ classes)
          = true) as ->.
  { destruct (decide (classes = [])) as [->|Hne]; [done|].
    rewrite bool_decide_true in Hcl by done. simpl in Hcl.
    apply negb_false_iff in Hcl. rewrite Hcl. by rewrite orb_true_r. }
  destruct (bool_decide (kind = _) && _ && _) eqn:Hb.
  { apply andb_true_iff in Hb as [Hb Hs]. apply andb_true_iff in Hb as [Hk Hl].
    apply bool_decide_eq_true in Hk, Hs. apply negb_true_iff, Z.eqb_neq in Hl.
    apply Exists_cons. left. split_and!; auto. }
  assert (~ blocksWait kind limit e) as Hnb.
  { intros (Hk & Hl & Hs). rewrite Hk, Hs in Hb.
    rewrite !bool_decide_true in Hb by done.
    destruct (limit =? 0) eqn:E; [apply Z.eqb_eq in E; lia|done]. }
  destruct (collectPending st kind limit cycle classes queue); simpl.
  - destruct IH as [-> IH]. split; [done|]. by constructor.
  - by apply Exists_cons_tl.
  - done.
Qed.

(** ** [counterReadyCycle] *)

Lemma counterReadyCycle_exact st kind limit cycle classes ready :
  0 <= limit -> counterReadyCycle st kind limit cycle classes = Ok ready ->
  cycle <= ready
  /\ outstanding st kind classes ready <= limit
  /\ (forall t, cycle <= t < ready -> limit < outstanding st kind classes t).
Proof.
  intros Hlimit Hready.
  unfold counterReadyCycle in Hready.
  apply outcome_bind_Ok in Hready as (queue & Hq & Hready).
  apply outcome_bind_Ok in Hready as (pending & Hp & Hready).
  pose proof (collectPending_spec st kind limit cycle classes
                (queueAt (waitQueues st) queue)) as Hs.
  rewrite Hp in Hs. destruct Hs as [-> _].
  set (p := omap _ _) in *.
  assert (Hpe : pendingEvents st kind classes cycle = p)
    by (unfold pendingEvents; by rewrite Hq).
  destruct (Z.of_nat (length p) <=? limit) eqn:Hle.
  { apply Z.leb_le in Hle. injection Hready as <-.
    split_and!; [lia| |lia]. unfold outstanding. by rewrite Hpe. }
  apply Z.leb_gt in Hle.
  apply outcome_bind_Ok in Hready as (e & He & [= <-]).
  unfold at_index in He. destruct (_ !! _) as [e'|] eqn:Hk; [|done].
  injection He as ->.
  set (sorted := merge_sort pending_le p) in *.
  assert (Hperm : sorted ≡ₚ p) by apply merge_sort_Permutation.
  assert (Hsorted : StronglySorted pending_le sorted)
    by apply (StronglySorted_merge_sort _).
  pose proof (Permutation_length Hperm) as Hlen.
  assert (Hcyc : cycle < retireCycle e).
  { assert (e ∈ p) as Hin.
    { rewrite <-Hperm. by eapply list_elem_of_lookup_2. }
    apply list_elem_of_omap in Hin as (id & _ & Hid).
    by apply (pendingEvent_later _ _ cycle cycle) in Hid as [_ ?]. }
  assert (Hcount : forall t, cycle <= t ->
    outstanding st kind classes t
    = Z.of_nat (length (base.filter (fun a => (retireCycle a > t)%Z) sorted))).
  { intros t Ht. unfold outstanding.
    rewrite (pendingEvents_later st kind classes cycle t), Hpe by lia.
    by rewrite Hperm. }
  split_and!; [lia|..].
  - rewrite Hcount by lia.
    pose proof (above_kth pending_le retireCycle pending_le_retire _ _ _
                  Hsorted Hk). lia.
  - intros t Ht. rewrite Hcount by lia.
    pose proof (below_kth pending_le retireCycle pending_le_retire _ _ _ t
                  Hsorted Hk). lia.
Qed.

Lemma counterReadyCycle_bound st kind limit cycle classes ready :
  0 <= limit -> counterReadyCycle st kind limit cycle classes = Ok ready ->
  cycle <= ready /\ outstanding st kind classes ready <= limit.
Proof.
  intros Hl Hr. destruct (counterReadyCycle_exact _ _ _ _ _ _ Hl Hr) as (?&?&_).
  done.
Qed.

(** Waiting for a counter to fall to [limit] takes until the first cycle
    at which at most [limit] of its events of the given classes are
    outstanding, and no earlier. *)
Theorem counterReadyCycle_least st kind limit cycle classes ready
    (Hlimit : 0 <= limit)
    (Hready : counterReadyCycle st kind limit cycle classes = Ok ready) :
  cycle <= ready
  /\ outstanding st kind classes ready <= limit
  /\ (forall t, cycle <= t < ready -> limit < outstanding st kind classes t).
Proof. by apply counterReadyCycle_exact. Qed.

Lemma counterReadyCycle_least_witness :
  let st := sampleState [loadOp] in
  4 <= 80 /\ outstanding st InstructionWaitCounterKind.Vmem [] 80 <= 0.
Proof.
  intros st.
  destruct (counterReadyCycle_least st InstructionWaitCounterKind.Vmem 0 4 [] 80)
    as (H1 & H2 & _); [lia|vm_compute; reflexivity|by split].
Defined.

(** A counter wait is refused exactly when an SMEM event is outstanding
    and the LGKM limit is not zero; no other outcome but a cycle is
    possible. *)
Theorem counterReadyCycle_failure st kind limit cycle classes
    (Hkind : kind <> InstructionWaitCounterKind.None) (Hlimit : 0 <= limit) :
  (counterReadyCycle st kind limit cycle classes = Failure
   <-> exists e, e ∈ pendingEvents st kind classes cycle
                 /\ blocksWait kind limit e)
  /\ (counterReadyCycle st kind limit cycle classes <> Failure ->
      exists ready, counterReadyCycle st kind limit cycle classes = Ok ready).
Proof.
  unfold counterReadyCycle, pendingEvents.
  destruct (counterIndex kind) as [queue| |] eqn:Hq; [|by destruct kind..].
  simpl. pose proof (collectPending_spec st kind limit cycle classes
                       (queueAt (waitQueues st) queue)) as Hs.
  destruct (collectPending _ _ _ _ _ _) as [p| |]; simpl; [| |done].
  - destruct Hs as [Hp Hn]. rewrite <-Hp.
    assert (exists ready,
      (if Z.of_nat (length p) <=? limit then Ok cycle
       else event ← at_index (merge_sort pending_le p)
                      (length p - Z.to_nat limit - 1);
            Ok (retireCycle event)) = Ok ready) as [ready ->].
    { case_match eqn:Hle; [eauto|]. apply Z.leb_gt in Hle. unfold at_index.
      destruct (lookup_lt_is_Some_2 (merge_sort pending_le p)
                  (length p - Z.to_nat limit - 1)) as [e ->]; [|eauto].
      rewrite merge_sort_Permutation. lia. }
    split; [|eauto]. split; [done|].
    intros (e & He & Hb). by rewrite Forall_forall in Hn; destruct (Hn e He).
  - split; [|done]. split; [|done]. intros _.
    apply Exists_exists in Hs as (e & He & Hb). eauto.
Qed.

Lemma counterReadyCycle_failure_witness :
  exists ready, counterReadyCycle (sampleState [loadOp])
    InstructionWaitCounterKind.Lgkm 1 4 [] = Ok ready.
Proof.
  apply (counterReadyCycle_failure (sampleState [loadOp])
           InstructionWaitCounterKind.Lgkm 1 4 []); [done|lia|].
  vm_compute. discriminate.
Defined.

(** ** Queues of ready cycles *)

Definition inFlight (queue : list Z) (cycle : Z) : Z :=
  Z.of_nat (length (base.filter (fun ready => (ready > cycle)%Z) queue)).

Lemma inFlight_pending queue cycle t :
  cycle <= t ->
  inFlight (base.filter (fun ready => (ready > cycle)%Z) queue) t
  = inFlight queue t.
Proof.
  intros. unfold inFlight. do 2 f_equal. induction queue as [|r q IH]; [done|].
  rewrite (filter_cons _ r q).
  case_decide; rewrite !filter_cons; repeat case_decide; try lia; by rewrite ?IH.
Qed.

(** The entry [k] of the sorted pending cycles: after it at most
    [length - k - 1] entries are in flight, before it at least [length - k]. *)
Lemma sorted_pending_kth queue cycle k ready :
  let pending := base.filter (fun r => (r > cycle)%Z) queue in
  merge_sort Z.le pending !! k = Some ready ->
  cycle < ready
  /\ inFlight queue ready + Z.of_nat k < Z.of_nat (length pending)
  /\ (forall t, cycle <= t < ready ->
      Z.of_nat (length pending) <= inFlight queue t + Z.of_nat k).
Proof.
  intros pending Hk.
  set (sorted := merge_sort Z.le pending) in *.
  assert (Hperm : sorted ≡ₚ pending) by apply merge_sort_Permutation.
  assert (Hsorted : StronglySorted Z.le sorted)
    by apply (StronglySorted_merge_sort _).
  pose proof (Permutation_length Hperm) as Hlen.
  assert (cycle < ready) as Hc.
  { assert (ready ∈ pending) as Hin
      by (rewrite <-Hperm; by eapply list_elem_of_lookup_2).
    apply list_elem_of_filter in Hin as [? _]. lia. }
  assert (Hcount : forall t, cycle <= t -> inFlight queue t
    = Z.of_nat (length (base.filter (fun r => (r > t)%Z) sorted))).
  { intros t Ht. rewrite <-(inFlight_pending queue cycle t Ht).
    unfold inFlight. by rewrite Hperm. }
  split_and!; [done|..].
  - rewrite Hcount by lia.
    pose proof (above_kth Z.le (fun z => z) (fun a b H => H) _ _ _ Hsorted Hk).
    simpl in *. lia.
  - intros t Ht. rewrite Hcount by lia.
    pose proof (below_kth Z.le (fun z => z) (fun a b H => H) _ _ _ t Hsorted Hk
                  (proj2 Ht)).
    simpl in *. lia.
Qed.

Definition pipeQueue (st : InstructionExecutionState)
    (pipe : InstructionPipeKind.t) : list Z :=
  match pipeIndex pipe with
  | Ok queue => queueAt (pipeQueues st) queue
  | _ => []
  end.

Lemma pipeReadyCycle_exact config st pipe cycle
    (Hmax : 0 < maxInFlightForPipe config pipe) :
  exists ready,
    pipeReadyCycle config st pipe cycle = Ok ready
    /\ cycle <= ready
    /\ inFlight (pipeQueue st pipe) ready < maxInFlightForPipe config pipe
    /\ (forall t, cycle <= t < ready ->
        maxInFlightForPipe config pipe <= inFlight (pipeQueue st pipe) t).
Proof.
  unfold pipeReadyCycle, pipeQueue.
  replace (maxInFlightForPipe config pipe =? 0) with false
    by (symmetry; apply Z.eqb_neq; lia).
  destruct (pipeIndex pipe) as [queue| |] eqn:Hq; cycle 1.
  - by destruct pipe.
  - destruct pipe; try done. unfold maxInFlightForPipe in Hmax.
    destruct (negb _); lia.
  - rewrite bool_decide_false by (by intros ->). simpl.
    set (pending := base.filter _ _).
    destruct (Z.of_nat (length pending) <? _) eqn:Hlt.
    + apply Z.ltb_lt in Hlt. exists cycle. split_and!; [done|lia| |lia]. done.
    + apply Z.ltb_ge in Hlt. unfold at_index.
      destruct (lookup_lt_is_Some_2 (merge_sort Z.le pending)
        (length pending - Z.to_nat (maxInFlightForPipe config pipe)))
        as [ready Hk].
      { rewrite merge_sort_Permutation. lia. }
      rewrite Hk. exists ready.
      destruct (sorted_pending_kth _ _ _ _ Hk) as (? & ? & Hbelow).
      fold pending in H0, Hbelow.
      split_and!; [done|lia|lia|]. intros t Ht. specialize (Hbelow t Ht). lia.
Qed.

(** With back-pressure, an instruction of a pipe waits exactly until fewer
    than the pipe's maximum are in flight. *)
Theorem pipeReadyCycle_least config st pipe cycle
    (Hmax : 0 < maxInFlightForPipe config pipe) :
  exists ready,
    pipeReadyCycle config st pipe cycle = Ok ready
    /\ cycle <= ready
    /\ inFlight (pipeQueue st pipe) ready < maxInFlightForPipe config pipe
    /\ (forall t, cycle <= t < ready ->
        maxInFlightForPipe config pipe <= inFlight (pipeQueue st pipe) t).
Proof. by apply pipeReadyCycle_exact. Qed.

Definition pressureConfig : InstructionExecutionConfig :=
  mkConfig None defaultCounterLatencies defaultValueLatencies 64 0 true false 1
    2 1 1 defaultScheduleModel DmaIssueDelayCohortPolicy.Delayed.

Lemma pipeReadyCycle_least_witness : exists ready,
  pipeReadyCycle pressureConfig (sampleState [fmaOp; mfmaOp])
    InstructionPipeKind.XDL 4 = Ok ready.
Proof.
  destruct (pipeReadyCycle_least pressureConfig (sampleState [fmaOp; mfmaOp])
              InstructionPipeKind.XDL 4) as (ready & Hr & _);
    [vm_compute; reflexivity|by exists ready].
Defined.

(** An operation of a queued memory resource waits exactly until the queue
    has room for all the instructions it issues (or for a full queue of them
    when it issues more than the queue holds). *)
Theorem memoryIssueReadyCycle_least arch st resource issueCount cycle
    (Hmax : 0 < maxInFlightForMemoryIssue arch resource)
    (Hlat : 0 < memoryIssueLatency arch resource) :
  let queue := queueAt (memoryIssueQueues st) (memoryIssueIndex resource) in
  let depth := maxInFlightForMemoryIssue arch resource in
  let needed := Z.min (Z.max 1 issueCount) depth in
  exists ready,
    memoryIssueReadyCycle arch st resource issueCount cycle = Ok ready
    /\ cycle <= ready
    /\ inFlight queue ready + needed <= depth
    /\ (forall t, cycle <= t < ready -> depth < inFlight queue t + needed).
Proof.
  intros queue depth needed. unfold memoryIssueReadyCycle.
  fold depth in Hmax |- *. fold queue.
  replace (depth =? 0) with false by (symmetry; apply Z.eqb_neq; lia).
  replace (memoryIssueLatency arch resource <=? 0) with false
    by (symmetry; apply Z.leb_gt; lia).
  simpl. fold needed. set (pending := base.filter _ queue).
  destruct (Z.of_nat (length pending) + needed <=? depth) eqn:Hle.
  - apply Z.leb_le in Hle. exists cycle. split_and!; [done|lia|done|lia].
  - apply Z.leb_gt in Hle. unfold at_index.
    destruct (lookup_lt_is_Some_2 (merge_sort Z.le pending)
      (Z.to_nat (Z.of_nat (length pending) + needed - depth - 1)))
      as [ready Hk].
    { rewrite merge_sort_Permutation. lia. }
    rewrite Hk. exists ready.
    destruct (sorted_pending_kth _ _ _ _ Hk) as (? & ? & Hbelow).
    fold pending in H0, Hbelow.
    split_and!; [done|lia|lia|]. intros t Ht. specialize (Hbelow t Ht). lia.
Qed.

Lemma memoryIssueReadyCycle_least_witness : exists ready,
  memoryIssueReadyCycle kGfx950 initialState MemoryIssueResource.LdsDmaAccept
    1 0 = Ok ready.
Proof.
  destruct (memoryIssueReadyCycle_least kGfx950 initialState
              MemoryIssueResource.LdsDmaAccept 1 0) as (ready & Hr & _);
    [vm_compute; reflexivity|vm_compute; reflexivity|by exists ready].
Defined.

(** ** Committing a wait *)

Lemma pendingEvent_any st cycle id :
  pendingEvent st [] cycle id
  = if hasPendingEvent st id cycle then events st !! id else None.
Proof.
  unfold pendingEvent, hasPendingEvent. destruct (events st !! id); [|done].
  by rewrite bool_decide_true, andb_true_r.
Qed.

Lemma pendingEvent_has st classes cycle id :
  hasPendingEvent st id cycle = false -> pendingEvent st classes cycle id = None.
Proof.
  unfold pendingEvent, hasPendingEvent. destruct (events st !! id); [|done].
  by intros ->.
Qed.

Lemma getPendingMemoryEventCount_outstanding st kind :
  kind <> InstructionWaitCounterKind.None ->
  getPendingMemoryEventCount st kind
  = Ok (outstanding st kind [] (currentCycle st)).
Proof.
  intros Hk. unfold getPendingMemoryEventCount, outstanding, pendingEvents.
  rewrite decide_False by done. destruct (counterIndex kind) eqn:Hq; simpl;
    [|by destruct kind..].
  do 2 f_equal. induction (queueAt (waitQueues st) a) as [|id q IH]; [done|].
  csimpl. rewrite filter_cons, pendingEvent_any.
  case_decide as Hp.
  - apply Is_true_true in Hp. rewrite Hp.
    unfold hasPendingEvent in Hp. destruct (events st !! id); [|done].
    simpl. by f_equal.
  - apply Is_true_false in Hp. by rewrite Hp.
Qed.

(** Outstanding events depend on the events, the queue and the cycle only, and
    pruning retired ones changes nothing. *)
Lemma outstanding_prune st kind classes cycle :
  outstanding (pruneRetiredEvents cycle st) kind classes cycle
  = outstanding st kind classes cycle.
Proof.
  unfold outstanding, pendingEvents. destruct (counterIndex kind); [|done|done].
  rewrite prune_waitQueue. do 2 f_equal.
  induction (queueAt (waitQueues st) a) as [|id q IH]; [done|].
  csimpl. rewrite filter_cons. case_decide as Hp; csimpl; rewrite IH; [done|].
  apply Is_true_false in Hp. by rewrite (pendingEvent_has st classes) by done.
Qed.

Lemma outstanding_same st st' kind classes cycle :
  events st' = events st -> waitQueues st' = waitQueues st ->
  outstanding st' kind classes cycle = outstanding st kind classes cycle.
Proof.
  intros He Hq. unfold outstanding, pendingEvents.
  destruct (counterIndex kind); [|done|done].
  rewrite Hq. do 2 f_equal.
  induction (queueAt (waitQueues st) a) as [|id q IH]; [done|].
  csimpl. rewrite IH. unfold pendingEvent at 1 3. by rewrite He.
Qed.

Lemma outstanding_antitone st kind classes c c' :
  c <= c' -> outstanding st kind classes c' <= outstanding st kind classes c.
Proof.
  intros. unfold outstanding. rewrite (pendingEvents_later st kind classes c c') by done.
  pose proof (length_filter (fun e => (retireCycle e > c')%Z)
                (pendingEvents st kind classes c)). lia.
Qed.
