(* ===== verification/QuerySpec.v ===== *)
(** * Query and commit

    A queried stall is well formed and covers every dependency of the
    operation; a committed operation issues exactly when its stall is over,
    after its operands, its tokens and its counters are ready. *)

From stdpp Require Import base tactics list gmap sorting strings.
From S2P Require Import Prelude CostEnums ArchData MachineIR LatencyTable.
From S2P Require Import OpClassifier MemoryTiming ScheduleModel.
From S2P Require Import ResourceState ExecState ExecOps Examples ExecLemmas.
From S2P Require Import WaitSpec.

(** ** A stall only grows while it is built *)

Record stall_le (s s' : InstructionStall) : Prop := {
  stall_le_cycles : stall_cycles s <= stall_cycles s';
  stall_le_components : forall c, c ∈ components s -> c ∈ components s'
}.
#[export] Instance stall_le_preorder : PreOrder stall_le.
Proof.
  split; [by split|]. intros s1 s2 s3 [] []. split; [lia|auto].
Qed.

Lemma addComponentAt_le stall kind cycles resource scope :
  stall_le stall (addComponentAt stall kind cycles resource scope).
Proof.
  split; [|intros; by apply addComponentAt_components].
  unfold addComponentAt. destruct (cycles <=? 0); [done|].
  destruct (stall_cycles stall <? cycles) eqn:H; simpl; [|lia].
  apply Z.ltb_lt in H. lia.
Qed.

Lemma addComponent_le stall kind cycles :
  stall_le stall (addComponent stall kind cycles).
Proof. apply addComponentAt_le. Qed.

(** What a builder step keeps. *)
Definition extends (s s' : InstructionStall) : Prop :=
  stall_le s s' /\ (stall_wf s -> stall_wf s').

#[export] Instance extends_preorder : PreOrder extends.
Proof.
  split; [by split|]. intros s1 s2 s3 [H1 W1] [H2 W2].
  split; [by transitivity s2|auto].
Qed.

Lemma addComponentAt_extends stall kind cycles resource scope :
  extends stall (addComponentAt stall kind cycles resource scope).
Proof. split; [apply addComponentAt_le|apply addComponentAt_wf]. Qed.

Lemma addComponent_extends stall kind cycles :
  extends stall (addComponent stall kind cycles).
Proof. apply addComponentAt_extends. Qed.
#[export] Hint Resolve addComponentAt_extends addComponent_extends : stall.

(** A step that adds at most one component. *)
Ltac extends_step := repeat case_match; solve [auto with stall | reflexivity].

Section Query.
Context `{LLVMTarget}.
Context (graph : UseGraph) (arch : ArchData)
  (config : InstructionExecutionConfig).

Lemma addLocalMemoryIssueStalls_extends st desc s s' :
  addLocalMemoryIssueStalls arch st desc s = Ok s' -> extends s s'.
Proof.
  unfold addLocalMemoryIssueStalls. intros Hs.
  apply outcome_bind_Ok in Hs as (r & _ & [= <-]). auto with stall.
Qed.

Lemma addLocalResourceStalls_extends st desc s s' :
  addLocalResourceStalls arch config st desc s = Ok s' -> extends s s'.
Proof.
  unfold addLocalResourceStalls. intros Hs.
  apply outcome_bind_Ok in Hs as (r & _ & Hs).
  apply outcome_bind_Ok in Hs as (s1 & Hm & [= <-]).
  apply addLocalMemoryIssueStalls_extends in Hm.
  transitivity s1; [etransitivity; [|exact Hm]|extends_step].
  etransitivity; [apply addComponent_extends|extends_step].
Qed.

Lemma addSharedResourceStall_extends st op desc res placement s s' :
  addSharedResourceStall arch config st op desc res placement s = Ok s' ->
  extends s s'.
Proof.
  unfold addSharedResourceStall. intros Hs.
  apply outcome_bind_Ok in Hs as (uses & _ & Hs).
  apply outcome_bind_Ok in Hs as (q & _ & [= <-]).
  extends_step.
Qed.

Lemma addIssueHazards_extends st op desc s :
  extends s (addIssueHazards arch st op desc s).
Proof.
  unfold addIssueHazards.
  set (s1 := if _ || _ then _ else s).
  assert (extends s s1) as H1 by (unfold s1; extends_step).
  set (s2 := if storeDataProducer desc && _ then _ else s1).
  assert (extends s1 s2) as H2 by (unfold s2; extends_step).
  transitivity s1; [done|]. transitivity s2; [done|]. apply addComponent_extends.
Qed.

Lemma addDependencyStalls_extends st op desc s s' :
  addDependencyStalls st op desc s = Ok s' -> extends s s'.
Proof.
  unfold addDependencyStalls. intros Hs.
  set (s1 := if negb (hasTrait op Trait.NoMachineInst) then _ else s) in Hs.
  assert (extends s s1) as H1.
  { unfold s1. destruct (issueReadyCycle st op). extends_step. }
  set (s2 := if waitsForTokenDeps desc then _ else s1) in Hs.
  assert (extends s1 s2) as H2 by (unfold s2; extends_step).
  transitivity s1; [done|]. transitivity s2; [done|].
  destruct (waitcnt desc); [|by injection Hs as <-].
  apply outcome_bind_Ok in Hs as (w & _ & [= <-]). auto with stall.
Qed.

(** A query first adds the dependency stalls, then only more. *)
Lemma queryWithResources_extends st op desc shared placement stall :
  queryWithResources arch config st op desc shared placement = Ok stall ->
  exists dep, addDependencyStalls st op desc noStall = Ok dep
              /\ extends dep stall.
Proof.
  unfold queryWithResources. intros Hs.
  apply outcome_bind_Ok in Hs as (dep & Hd & Hs). exists dep. split; [done|].
  set (s1 := if waitsForWindow (coexecution desc) && _ then _ else dep) in Hs.
  assert (extends dep s1) as H1 by (unfold s1; extends_step).
  transitivity s1; [done|]. destruct shared as [res|].
  - apply outcome_bind_Ok in Hs as (s2 & Hm & Hs).
    apply addLocalMemoryIssueStalls_extends in Hm.
    apply addSharedResourceStall_extends in Hs.
    transitivity s2; [done|]. etransitivity; [|exact Hs].
    apply addIssueHazards_extends.
  - apply outcome_bind_Ok in Hs as (s2 & Hm & [= <-]).
    apply addLocalResourceStalls_extends in Hm.
    transitivity s2; [done|]. apply addIssueHazards_extends.
Qed.

Lemma queryWithResources_wf st op desc shared placement stall :
  queryWithResources arch config st op desc shared placement = Ok stall ->
  stall_wf stall.
Proof.
  intros Hq. apply queryWithResources_extends in Hq as (dep & Hd & _ & Hwf).
  apply addDependencyStalls_extends in Hd as [_ Hd]. auto with stall.
Qed.

(** The stall that [query] reports lasts as long as its longest component,
    every component is positive, and its kind is that of the first longest
    one. *)
Theorem query_stall_wf st op stall
    (Hq : query graph arch config st op = Ok stall) : stall_wf stall.
Proof.
  unfold query in Hq.
  apply outcome_bind_Ok in Hq as (u & _ & Hq).
  apply outcome_bind_Ok in Hq as (desc & _ & Hq).
  by apply queryWithResources_wf in Hq.
Qed.

(** ** Dependencies are waited for *)

Lemma addComponent_covers stall kind cycles :
  0 <= stall_cycles stall ->
  cycles <= stall_cycles (addComponent stall kind cycles).
Proof. intros. rewrite addComponent_cycles by done. lia. Qed.

Lemma addDependencyStalls_covers st op desc dep :
  addDependencyStalls st op desc noStall = Ok dep ->
  (hasTrait op Trait.NoMachineInst = false ->
     (issueReadyCycle st op).1 <= currentCycle st + stall_cycles dep)
  /\ (waitsForTokenDeps desc = true ->
     tokenReadyCycle st op <= currentCycle st + stall_cycles dep)
  /\ (waitcnt desc = true ->
     exists w, waitcntReadyCycle st op (currentCycle st) = Ok w
               /\ w <= currentCycle st + stall_cycles dep).
Proof.
  unfold addDependencyStalls. intros Hs.
  set (s1 := if negb (hasTrait op Trait.NoMachineInst) then _ else noStall) in Hs.
  assert (extends noStall s1) as [H1 W1].
  { unfold s1. destruct (issueReadyCycle st op). extends_step. }
  assert (0 <= stall_cycles s1) as N1 by auto with stall.
  assert (hasTrait op Trait.NoMachineInst = false ->
          (issueReadyCycle st op).1 <= currentCycle st + stall_cycles s1) as C1.
  { intros Ht. unfold s1. rewrite Ht. simpl.
    destruct (issueReadyCycle st op) as [r k].
    pose proof (addComponent_covers noStall k (r - currentCycle st)). simpl in *.
    lia. }
  set (s2 := if waitsForTokenDeps desc then _ else s1) in Hs.
  assert (extends s1 s2) as [H2 W2] by (unfold s2; extends_step).
  assert (0 <= stall_cycles s2) as N2 by auto with stall.
  pose proof (stall_le_cycles _ _ H2) as L2.
  assert (waitsForTokenDeps desc = true ->
          tokenReadyCycle st op <= currentCycle st + stall_cycles s2) as C2.
  { intros Ht. unfold s2. rewrite Ht.
    pose proof (addComponent_covers s1 InstructionStallKind.MemoryToken
                  (tokenReadyCycle st op - currentCycle st) N1). lia. }
  destruct (waitcnt desc).
  - apply outcome_bind_Ok in Hs as (w & Hw & [= <-]).
    pose proof (addComponent_covers s2 InstructionStallKind.Waitcnt
                  (w - currentCycle st) N2).
    pose proof (stall_le_cycles _ _ (addComponent_le s2
                  InstructionStallKind.Waitcnt (w - currentCycle st))) as L3.
    split_and!; [intros Ht; specialize (C1 Ht); lia|
                 intros Ht; specialize (C2 Ht); lia|].
    intros _. exists w. split; [done|lia].
  - injection Hs as <-.
    split_and!; [intros Ht; specialize (C1 Ht); lia|exact C2|done].
Qed.

(** *** The cycle at which a commit issues *)

Lemma finishInstruction_issueCycle op desc stall shared placement st r st' sh :
  finishInstruction arch config op desc stall shared placement st
    = Ok (r, st', sh) ->
  issueCycle r = currentCycle st /\ result_stall r = stall
  /\ nextIssueCycle r = currentCycle st'
  /\ currentCycle st'
     = saturatingAdd (issueCycle r) (getInstructionSpan arch config desc).
Proof.
  unfold finishInstruction. intros Hf.
  apply outcome_bind_Ok in Hf as ([new st1] & _ & Hf).
  apply outcome_bind_Ok in Hf as ([st2 sh2] & _ & Hf).
  by injection Hf as <- <- <-.
Qed.

Lemma commitWithResources_issueCycle st op shared placement r st' sh :
  commitWithResources graph arch config st op shared placement
    = Ok (r, st', sh) ->
  issueCycle r = currentCycle st + stall_cycles (result_stall r)
  /\ nextIssueCycle r = currentCycle st'
  /\ exists desc, describe graph arch config st op = Ok desc
     /\ queryWithResources arch config st op desc shared placement
        = Ok (result_stall r)
     /\ currentCycle st' =
        if noMachineInst desc then issueCycle r
        else saturatingAdd (issueCycle r) (getInstructionSpan arch config desc).
Proof.
  intros Hc. apply commitWithResources_inv in Hc as (desc & stall & Hd & Hq & Hc).
  destruct (noMachineInst desc) eqn:Hn.
  - destruct Hc as [Hc ->]. unfold finishNoMachineInst in Hc.
    destruct (commitNoMachineInst op (beginIssue desc stall st)) as [v st1] eqn:Hno.
    injection Hc as <- <-. cbn [issueCycle nextIssueCycle result_stall].
    rewrite beginIssue_currentCycle.
    pose proof (commitNoMachineInst_sameTiming op (beginIssue desc stall st)) as Hs.
    rewrite Hno in Hs. apply same_currentCycle in Hs. simpl in Hs.
    rewrite beginIssue_currentCycle in Hs.
    assert (currentCycle (commitStoreData desc (commitM0 arch desc st1))
            = currentCycle st1) as Hcur.
    { unfold commitStoreData, commitM0. repeat case_match; done. }
    split_and!; [done|done|]. exists desc. rewrite Hn at 1. split_and!; [done|done|].
    etransitivity; [exact Hcur|exact Hs].
  - apply finishInstruction_issueCycle in Hc as (Hi & Hr & Hx & Hcur).
    rewrite beginIssue_currentCycle in Hi. subst stall.
    split_and!; [done|done|]. exists desc. rewrite Hn. auto.
Qed.

Lemma commitWithResources_dependencies st op shared placement r st' sh :
  commitWithResources graph arch config st op shared placement
    = Ok (r, st', sh) ->
  exists desc, describe graph arch config st op = Ok desc
  /\ (hasTrait op Trait.NoMachineInst = false ->
        (issueReadyCycle st op).1 <= issueCycle r)
  /\ (waitsForTokenDeps desc = true -> tokenReadyCycle st op <= issueCycle r)
  /\ (waitcnt desc = true ->
        exists w, waitcntReadyCycle st op (currentCycle st) = Ok w
                  /\ w <= issueCycle r).
Proof.
  intros Hc. destruct (commitWithResources_issueCycle _ _ _ _ _ _ _ Hc)
    as (Hi & _ & desc & Hd & Hq & _).
  exists desc. split; [done|].
  apply queryWithResources_extends in Hq as (dep & Hdep & [Hle _]).
  apply stall_le_cycles in Hle.
  apply addDependencyStalls_covers in Hdep as (H1 & H2 & H3).
  split_and!.
  - intros Ht. specialize (H1 Ht). lia.
  - intros Ht. specialize (H2 Ht). lia.
  - intros Ht. destruct (H3 Ht) as (w & ? & ?). exists w. split; [done|lia].
Qed.
End Query.

(** ** What a description says *)

Section Describe.
Context `{LLVMTarget}.
Context (graph : UseGraph) (arch : ArchData)
  (config : InstructionExecutionConfig).

(** The members of a description that come straight from the operation. *)
Record describes (st : InstructionExecutionState) (op : Operation)
    (desc : InstructionDesc) (cls : SchedClass.t) : Prop := {
  desc_class : classifyOp op = Ok cls;
  desc_supported : isSchedClassSupported arch cls = true;
  desc_noMachineInst : noMachineInst desc = bool_decide (cls = SchedClass.NoInst);
  desc_waitcnt : waitcnt desc = hasTrait op Trait.WaitcntOp;
  desc_waitsForTokenDeps :
    waitsForTokenDeps desc = waitsForMemoryTokenDepsBeforeIssue op;
  desc_counterIssueCount :
    counterIssueCount desc = issueCount (getWaitcntInfo op);
  desc_issueCount :
    getInstructionIssueCount op (isa arch) (wavefrontSize config)
      = Ok (instructionIssueCount desc);
  desc_pipe : pipeFor arch cls = Ok (pipe desc);
  desc_resourceDuration : getResourceCycles arch cls = Ok (resourceDuration desc);
  desc_m0Writer : m0Writer desc = writesM0ThroughHazard op;
  desc_m0Consumer : m0Consumer desc = consumesM0ThroughHazard op;
  desc_ldsDmaIssue : ldsDmaIssue desc = hasTrait op Trait.LDSDmaOp;
  desc_legacyVALU : legacyVALU desc = isLegacyVALU op;
  desc_laneRead : laneRead desc =
    isLegacyVALU op && hasRegClass (op_operands op) RegClass.VGPR
    && hasOnlyRegClass (op_results op) RegClass.SGPR;
  desc_trans : trans desc = bool_decide (cls = SchedClass.WriteTrans32);
  desc_mfmaPasses : mfmaPasses desc =
    if hasTrait op Trait.MFMAOp then getMfmaPassCount cls else 0;
  desc_delay : exists latency0,
    configureDmaIssueDelay arch config op
      (latency0, instructionIssueCount desc, 0, false)
    = (latency desc, issueSlots desc, instructionSpan desc,
       resultReadyAtEnd desc)
}.

Lemma describe_inv st op desc :
  describe graph arch config st op = Ok desc ->
  exists cls, describes st op desc cls.
Proof.
  unfold describe. intros Hd.
  apply outcome_bind_Ok in Hd as (cls & Hcls & Hd). exists cls.
  destruct (isSchedClassSupported arch cls) eqn:Hsup; [|done]. simpl in Hd.
  apply outcome_bind_Ok in Hd as (sh & _ & Hd).
  apply outcome_bind_Ok in Hd as (sp & _ & Hd).
  apply outcome_bind_Ok in Hd as (pi & Hpi & Hd).
  apply outcome_bind_Ok in Hd as (rd & Hrd & Hd).
  apply outcome_bind_Ok in Hd as (ic & Hic & Hd).
  apply outcome_bind_Ok in Hd as (co & _ & Hd).
  apply outcome_bind_Ok in Hd as (la & _ & Hd).
  apply outcome_bind_Ok in Hd as (mi & _ & Hd).
  apply outcome_bind_Ok in Hd as (mc & _ & Hd).
  apply outcome_bind_Ok in Hd as (ec & _ & Hd).
  apply outcome_bind_Ok in Hd as (ml & _ & Hd).
  apply outcome_bind_Ok in Hd as (mv & _ & Hd).
  destruct (configureDmaIssueDelay arch config op (la, ic, 0, false))
    as [[[l s] sp'] re] eqn:Hdel.
  injection Hd as <-. split; simpl; try done. by exists la.
Qed.

Lemma getIssuePeriod_pos : 0 < getIssuePeriod arch config.
Proof. unfold getIssuePeriod. destruct (0 <? issuePeriod config) eqn:H0; lia. Qed.

(** The verifier of [dma_issue_delay] and the width of its attributes. *)
Definition delay_wf (op : Operation) : Prop :=
  match op_kind op with
  | DmaIssueDelayOp _ _ cycles overlap =>
      0 < cycles <= INT64_MAX /\ 0 <= default 0 overlap <= cycles
  | _ => True
  end.

Lemma saturatingAdd_nonneg a b : 0 <= a -> 0 <= b -> 0 <= saturatingAdd a b.
Proof. intros. rewrite saturatingAdd_spec. unfold INT64_MAX. lia. Qed.

Lemma getDmaIssueDelayNopSpan_pos cycles period :
  0 < cycles -> 0 < period -> 0 < getDmaIssueDelayNopSpan cycles period.
Proof.
  intros Hc Hp. unfold getDmaIssueDelayNopSpan.
  assert (HM : 0 < INT64_MAX) by (unfold INT64_MAX; lia).
  pose proof (Z.quot_rem cycles 16 ltac:(lia)) as Hqr.
  pose proof (Z.rem_bound_pos cycles 16 ltac:(lia) ltac:(lia)) as Hrem.
  pose proof (Z.quot_pos cycles 16 ltac:(lia) ltac:(lia)) as Hquot.
  rewrite saturatingMultiply_spec by lia.
  set (span := Z.min _ INT64_MAX).
  assert (0 <= span) by (unfold span; nia).
  destruct (Z.rem cycles 16 =? 0) eqn:Hr; simpl.
  - apply Z.eqb_eq in Hr. unfold span. nia.
  - rewrite saturatingAdd_spec. lia.
Qed.

Lemma getInstructionSpan_pos st op desc cls :
  describes st op desc cls -> delay_wf op ->
  0 < getInstructionSpan arch config desc.
Proof.
  intros Hdesc Hwf. unfold getInstructionSpan.
  pose proof getIssuePeriod_pos as Hp.
  pose proof (getInstructionIssueCount_pos _ _ _ _ (desc_issueCount _ _ _ _ Hdesc)).
  destruct (instructionSpan desc =? 0) eqn:Hz; simpl; [nia|].
  apply Z.eqb_neq in Hz.
  destruct (desc_delay _ _ _ _ Hdesc) as [l Hd].
  unfold configureDmaIssueDelay, delay_wf in *.
  destruct (op_kind op) eqn:Hkind; try (injection Hd; intros; lia).
  rename cycles into c.
  destruct Hwf as [Hc _].
  pose proof (getDmaIssueDelayNopSpan_pos c _ (proj1 Hc) Hp) as Hspan.
  destruct (delaySkipped config skipCondition); injection Hd; intros; [lia|].
  match goal with Hs : _ = instructionSpan desc |- _ => rewrite <-Hs end.
  case_match; [|done]. rewrite saturatingAdd_spec. unfold INT64_MAX. lia.
Qed.
End Describe.

(** ** Lists of event ids *)

Lemma elem_of_appendUnseen events appended seen id :
  (forall i, i ∈ seen <-> i ∈ events) ->
  (id ∈ appendUnseen events appended seen <-> id ∈ events \/ id ∈ appended).
Proof.
  revert events seen. induction appended as [|a l IH]; intros events seen Hs;
    simpl; [rewrite elem_of_nil; tauto|].
  rewrite elem_of_cons. case_decide as Ha.
  - rewrite IH by done. apply Hs in Ha. split; [tauto|].
    intros [|[->|]]; auto.
  - rewrite IH.
    + rewrite elem_of_app, list_elem_of_singleton. tauto.
    + intros i. rewrite elem_of_union, elem_of_singleton, elem_of_app,
        list_elem_of_singleton, Hs. tauto.
Qed.

Lemma elem_of_appendUniqueEvents events appended id :
  id ∈ appendUniqueEvents events appended <-> id ∈ events \/ id ∈ appended.
Proof. apply elem_of_appendUnseen. intros. by rewrite elem_of_list_to_set. Qed.

Lemma elem_of_collectTokenDeps st op id :
  dropsTokenCompletion op = false ->
  (id ∈ collectTokenDeps st op <->
   exists v ids, v ∈ op_operands op /\ isMemToken v = true
     /\ tokenEvents st !! value_id v = Some ids /\ id ∈ ids).
Proof.
  intros Hd. unfold collectTokenDeps. rewrite Hd.
  assert (forall l deps,
    id ∈ fold_left (fun deps operand =>
           if negb (isMemToken operand) then deps
           else match tokenEvents st !! value_id operand with
                | None => deps
                | Some tokens => appendUniqueEvents deps tokens
                end) l deps
    <-> id ∈ deps \/ exists v ids, v ∈ l /\ isMemToken v = true
          /\ tokenEvents st !! value_id v = Some ids /\ id ∈ ids) as Hl.
  { induction l as [|v l IH]; intros deps; simpl.
    { split; [auto|]. intros [|(v & ids & Hv & _)]; [done|].
      by apply elem_of_nil in Hv. }
    rewrite IH. setoid_rewrite elem_of_cons.
    destruct (isMemToken v) eqn:Ht; simpl.
    - destruct (tokenEvents st !! value_id v) as [ids|] eqn:Hids.
      + rewrite elem_of_appendUniqueEvents. split.
        * intros [[|]|(v' & ids' & ?)]; [by left|right; by exists v, ids; auto|].
          right. exists v', ids'. tauto.
        * intros [|(v' & ids' & [->|?] & ? & Hids' & ?)]; [tauto| |].
          -- rewrite Hids in Hids'. injection Hids' as ->. tauto.
          -- right. by exists v', ids'.
      + split; [intros [|(v' & ids' & ?)]; [tauto|right; exists v', ids'; tauto]|].
        intros [|(v' & ids' & [->|?] & ? & Hids' & ?)]; [tauto|congruence|].
        right. by exists v', ids'.
    - split; [intros [|(v' & ids' & ?)]; [tauto|right; exists v', ids'; tauto]|].
      intros [|(v' & ids' & [->|?] & ? & Hids' & ?)]; [tauto|congruence|].
      right. by exists v', ids'. }
  rewrite Hl. split; [|tauto]. intros [Hn|]; [by apply elem_of_nil in Hn|done].
Qed.

Lemma latestRetire_ge st ready ids : ready <= latestRetire st ready ids.
Proof.
  unfold latestRetire. revert ready. induction ids as [|id ids IH]; simpl; [lia|].
  intros ready. etransitivity; [|apply IH]. case_match; lia.
Qed.

Lemma latestRetire_event st ready ids id e :
  id ∈ ids -> events st !! id = Some e ->
  retireCycle e <= latestRetire st ready ids.
Proof.
  intros Hin He. unfold latestRetire. revert ready.
  induction Hin as [id ids|id id' ids Hin IH]; intros ready; simpl; [|eauto].
  rewrite He. etransitivity; [|apply (latestRetire_ge st _ ids)]. lia.
Qed.

(** ** Operands *)

(** The operands [operandReadyCycle] passes over: tokens, and the accumulator
    of a matrix operation forwarded from the exact same register. *)
Definition operandExempt (st : InstructionExecutionState) (op : Operation)
    (i : nat) (v : Value) : bool :=
  isMemToken v
  || (hasTrait op Trait.MFMAOp && (i =? 2)%nat
      && match issueSlotHazards st !! value_id v with
         | Some hazards => negb (mfmaSrcCExactReadyAt hazards =? 0)
         | None => false
         end).

Lemma operandStep_mono st op acc iv :
  acc.1 <= (operandStep st op acc iv).1.
Proof.
  destruct acc as [ready k], iv as [i v]. unfold operandStep.
  destruct (isMemToken v); [done|]. simpl.
  destruct (_ && _ && _); [done|].
  destruct (valueReadyAt st !! value_id v); [|done].
  destruct (z <=? ready) eqn:Hz; [done|]. apply Z.leb_gt in Hz. simpl. lia.
Qed.

Lemma operandSteps_mono st op l : forall acc,
  acc.1 <= (fold_left (operandStep st op) l acc).1.
Proof.
  induction l as [|iv l IH]; intros acc; simpl; [lia|].
  etransitivity; [apply (operandStep_mono st op acc iv)|apply IH].
Qed.

Lemma operandSteps_covers st op l i v ready : forall acc,
  (i, v) ∈ l -> operandExempt st op i v = false ->
  valueReadyAt st !! value_id v = Some ready ->
  ready <= (fold_left (operandStep st op) l acc).1.
Proof.
  induction l as [|iv l IH]; intros acc Hin Hex Hr; simpl;
    [by apply elem_of_nil in Hin|].
  apply elem_of_cons in Hin as [<-|Hin]; [|auto].
  etransitivity; [|apply operandSteps_mono].
  unfold operandExempt in Hex. apply orb_false_iff in Hex as [Ht Hx].
  destruct acc as [r k]. unfold operandStep. rewrite Ht, Hx, Hr.
  destruct (ready <=? r) eqn:Hz; simpl; [by apply Z.leb_le in Hz|lia].
Qed.

Lemma elem_of_enumerate {A} (l : list A) i a :
  l !! i = Some a -> (i, a) ∈ enumerate l.
Proof.
  intros Hl. unfold enumerate. apply list_elem_of_lookup. exists i.
  by rewrite list_lookup_imap, Hl.
Qed.

Lemma issueReadyCycle_ge st op :
  (operandReadyCycle st op).1 <= (issueReadyCycle st op).1.
Proof.
  unfold issueReadyCycle. destruct (operandReadyCycle st op) as [r k].
  destruct (op_kind op); simpl; try lia.
  destruct (valueReadyAt st !! value_id dependency); simpl; lia.
Qed.

Section Commit.
Context `{LLVMTarget}.
Context (graph : UseGraph) (arch : ArchData)
  (config : InstructionExecutionConfig).

(** C35: no instruction issues before its operands are ready: when [commit]
    succeeds, every register operand with a known ready cycle (bar the exactly
    forwarded accumulator of a matrix operation) is ready at the issue
    cycle. *)
Theorem commit_operands_ready st op r st' i v ready
    (Hc : commit graph arch config st op = Ok (r, st'))
    (Hinst : hasTrait op Trait.NoMachineInst = false)
    (Hv : op_operands op !! i = Some v)
    (Hexempt : operandExempt st op i v = false)
    (Hready : valueReadyAt st !! value_id v = Some ready) :
  ready <= issueCycle r.
Proof.
  apply commit_inv in Hc as [sh Hc].
  apply commitWithResources_dependencies in Hc as (desc & _ & Hdep & _).
  specialize (Hdep Hinst). etransitivity; [|exact Hdep].
  etransitivity; [|apply issueReadyCycle_ge].
  eapply operandSteps_covers; [by apply elem_of_enumerate|done|done].
Qed.

(** C36: an operation that waits for its memory tokens (barriers, stores, LDS
    DMA) issues only when every pending event behind its token operands has
    retired. *)
Theorem commit_tokens_retired st op r st' v ids id event
    (Hc : commit graph arch config st op = Ok (r, st'))
    (Hwaits : waitsForMemoryTokenDepsBeforeIssue op = true)
    (Hkeeps : dropsTokenCompletion op = false)
    (Hv : v ∈ op_operands op) (Htoken : isMemToken v = true)
    (Hids : tokenEvents st !! value_id v = Some ids) (Hid : id ∈ ids)
    (Hevent : events st !! id = Some event) :
  retireCycle event <= issueCycle r.
Proof.
  apply commit_inv in Hc as [sh Hc].
  apply commitWithResources_dependencies in Hc as (desc & Hd & _ & Hdep & _).
  apply describe_inv in Hd as [cls Hd].
  rewrite (desc_waitsForTokenDeps _ _ _ _ _ _ Hd) in Hdep.
  specialize (Hdep Hwaits). etransitivity; [|exact Hdep].
  eapply latestRetire_event; [|exact Hevent].
  apply elem_of_collectTokenDeps; [done|]. by exists v, ids.
Qed.

(** Simulated time moves forward: an operation issues after its stall, at
    the state's cycle or later; the state then stands at the next issue cycle,
    which is strictly later for an operation that emits instructions (below
    the saturation bound) and the issue cycle itself for one that does
    not. *)
Theorem commit_time st op r st'
    (Hc : commit graph arch config st op = Ok (r, st'))
    (Hwf : delay_wf op) :
  currentCycle st <= issueCycle r
  /\ issueCycle r = currentCycle st + stall_cycles (result_stall r)
  /\ nextIssueCycle r = currentCycle st'
  /\ (classifyOp op = Ok SchedClass.NoInst -> currentCycle st' = issueCycle r)
  /\ (classifyOp op <> Ok SchedClass.NoInst -> issueCycle r < INT64_MAX ->
      issueCycle r < currentCycle st').
Proof.
  apply commit_inv in Hc as [sh Hc].
  apply commitWithResources_issueCycle in Hc as (Hi & Hx & desc & Hd & Hq & Hcur).
  apply queryWithResources_wf, stall_wf_nonneg in Hq.
  apply describe_inv in Hd as [cls Hd].
  rewrite (desc_noMachineInst _ _ _ _ _ _ Hd) in Hcur.
  rewrite (desc_class _ _ _ _ _ _ Hd).
  split_and!; [lia|done|done| |].
  - intros [= ->]. by rewrite bool_decide_true in Hcur.
  - intros Hcls Hmax. rewrite bool_decide_false in Hcur by congruence.
    rewrite Hcur, saturatingAdd_spec.
    pose proof (getInstructionSpan_pos _ _ _ _ _ _ Hd Hwf). lia.
Qed.
End Commit.

Lemma query_stall_wf_witness :
  stall_wf (match query [] kGfx942 sampleConfig (sampleState [loadOp]) fmaOp with
            | Ok s => s | _ => noStall end).
Proof.
  apply (query_stall_wf [] kGfx942 sampleConfig (sampleState [loadOp]) fmaOp).
  vm_compute. reflexivity.
Defined.

Lemma commit_operands_ready_witness :
  80 <= issueCycle (sampleResult [loadOp] fmaOp).
Proof.
  apply (commit_operands_ready [] kGfx942 sampleConfig (sampleState [loadOp])
           fmaOp _ (sampleState [loadOp; fmaOp]) 0 (vgpr 2) 80);
    vm_compute; reflexivity.
Defined.

Lemma commit_tokens_retired_witness :
  80 <= issueCycle (sampleResult [loadOp] barrierOp).
Proof.
  apply (commit_tokens_retired [] kGfx942 sampleConfig (sampleState [loadOp])
           barrierOp _ (sampleState [loadOp; barrierOp]) (token 3) [1%N] 1%N
           (mkPendingEvent 1 1 80 InstructionWaitCounterKind.Vmem
              InstructionEventClass.VmemLoad));
    solve [vm_compute; reflexivity | constructor].
Defined.

Lemma commit_time_witness :
  currentCycle (sampleState [loadOp]) <= issueCycle (sampleResult [loadOp] fmaOp).
Proof.
  refine (proj1 (commit_time [] kGfx942 sampleConfig (sampleState [loadOp])
           fmaOp _ (sampleState [loadOp; fmaOp]) _ _)); vm_compute; reflexivity
  || exact I.
Defined.

(** ** Committing [s_waitcnt] *)

Section Waitcnt.
Context `{LLVMTarget}.
Context (graph : UseGraph) (arch : ArchData)
  (config : InstructionExecutionConfig).

(** Beginning to issue prunes, which leaves the outstanding events alone. *)
Lemma beginIssue_outstanding desc stall st kind classes :
  outstanding (beginIssue desc stall st) kind classes
    (currentCycle st + stall_cycles stall)
  = outstanding st kind classes (currentCycle st + stall_cycles stall).
Proof.
  unfold beginIssue, consumeCoexecutionWait.
  set (c := currentCycle st + stall_cycles stall).
  assert (outstanding (pruneRetiredEvents c (set_currentCycle c st)) kind
            classes c = outstanding st kind classes c) as Hp
    by (rewrite outstanding_prune; by apply outstanding_same).
  case_match; (etransitivity; [|exact Hp]); by apply outstanding_same.
Qed.

(** An operation without machine instruction leaves, at the end of its stall,
    the events that were outstanding at that cycle. *)
Lemma commitNoInst_outstanding st op r st' desc kind classes :
  commit graph arch config st op = Ok (r, st') ->
  describe graph arch config st op = Ok desc ->
  noMachineInst desc = true ->
  currentCycle st' = issueCycle r
  /\ outstanding st' kind classes (issueCycle r)
     = outstanding st kind classes (issueCycle r).
Proof.
  intros Hc Hd Hn. apply commit_inv in Hc as [sh Hc].
  pose proof (commitWithResources_issueCycle _ _ _ _ _ _ _ _ _ _ Hc)
    as (Hi & _ & desc1 & Hd1 & _ & Hcur).
  rewrite Hd in Hd1. injection Hd1 as <-. rewrite Hn in Hcur.
  split; [done|].
  apply commitWithResources_inv in Hc as (desc2 & stall & Hd2 & _ & Hc).
  rewrite Hd in Hd2. injection Hd2 as <-. rewrite Hn in Hc.
  destruct Hc as [Hc _]. unfold finishNoMachineInst in Hc.
  pose proof (commitNoMachineInst_sameTiming op (beginIssue desc stall st)) as Hs.
  destruct (commitNoMachineInst op (beginIssue desc stall st)) as [v st1].
  cbn [snd] in Hs. injection Hc as <- <-.
  cbn [issueCycle result_stall] in *. rewrite beginIssue_currentCycle in *.
  rewrite <-(beginIssue_outstanding desc stall st).
  transitivity (outstanding st1 kind classes
                  (currentCycle st + stall_cycles stall)).
  - apply outstanding_same;
      unfold commitStoreData, commitM0; repeat case_match; done.
  - apply outstanding_same; [apply same_events|apply same_waitQueues]; done.
Qed.

Lemma combineCounterReadyCycle_covers st ready kind limit cycle classes r :
  combineCounterReadyCycle st ready kind limit cycle classes = Ok r ->
  ready <= r
  /\ (forall k, limit = Some k -> 0 <= k -> outstanding st kind classes r <= k).
Proof.
  unfold combineCounterReadyCycle. destruct limit as [l|].
  - intros Hc. apply outcome_bind_Ok in Hc as (c & Hc & [= <-]).
    split; [lia|]. intros k [= ->] Hk.
    apply counterReadyCycle_bound in Hc as [_ Hc]; [|done].
    etransitivity; [|exact Hc]. apply outstanding_antitone. lia.
  - intros [= <-]. split; [lia|done].
Qed.

(** The counters of [s_waitcnt] with their limits. *)
Definition waitLimits (vmcnt expcnt lgkmcnt : option Z) :
    list (InstructionWaitCounterKind.t * option Z) :=
  [(InstructionWaitCounterKind.Vmem, vmcnt);
   (InstructionWaitCounterKind.Lgkm, lgkmcnt);
   (InstructionWaitCounterKind.Expcnt, expcnt)].

Lemma waitcntReadyCycle_legacy_covers st vmcnt expcnt lgkmcnt cycle w kind k :
  waitcntReadyCycle_legacy st vmcnt expcnt lgkmcnt cycle = Ok w ->
  (kind, Some k) ∈ waitLimits vmcnt expcnt lgkmcnt -> 0 <= k ->
  outstanding st kind [] w <= k.
Proof.
  unfold waitcntReadyCycle_legacy, waitLimits. intros Hw Hin Hk.
  apply outcome_bind_Ok in Hw as (w1 & H1 & Hw).
  apply outcome_bind_Ok in Hw as (w2 & H2 & Hw).
  apply combineCounterReadyCycle_covers in H1 as [L1 C1], H2 as [L2 C2],
    Hw as [L3 C3].
  rewrite !elem_of_cons, elem_of_nil in Hin.
  destruct Hin as [Hin|[Hin|[Hin|[]]]]; injection Hin as -> <-.
  - etransitivity; [apply (outstanding_antitone _ _ _ w1); lia|eauto].
  - etransitivity; [apply (outstanding_antitone _ _ _ w2); lia|eauto].
  - eauto.
Qed.

(** After [s_waitcnt] commits, every counter it names holds at most as many
    pending events as its limit allows. *)
Theorem s_waitcnt_drains st op vmcnt expcnt lgkmcnt r st' kind k
    (Hkind : op_kind op = SWaitcntOp vmcnt expcnt lgkmcnt)
    (Hwait : hasTrait op Trait.WaitcntOp = true)
    (Hnoinst : hasTrait op Trait.NoMachineInst = true)
    (Hc : commit graph arch config st op = Ok (r, st'))
    (Hlimit : (kind, Some k) ∈ waitLimits vmcnt expcnt lgkmcnt) (Hk : 0 <= k) :
  exists n, getPendingMemoryEventCount st' kind = Ok n /\ n <= k.
Proof.
  assert (kind <> InstructionWaitCounterKind.None) as Hne.
  { intros ->. unfold waitLimits in Hlimit.
    rewrite !elem_of_cons, elem_of_nil in Hlimit. naive_solver. }
  rewrite getPendingMemoryEventCount_outstanding by done.
  eexists. split; [done|].
  pose proof Hc as Hc0. apply commit_inv in Hc0 as [sh Hc0].
  apply commitWithResources_dependencies in Hc0 as (desc & Hd & _ & _ & Hw).
  pose proof Hd as Hd0. apply describe_inv in Hd0 as [cls Hdesc].
  assert (noMachineInst desc = true) as Hn.
  { rewrite (desc_noMachineInst _ _ _ _ _ _ Hdesc).
    pose proof (desc_class _ _ _ _ _ _ Hdesc) as Hcls.
    unfold classifyOp, classifyMappedOp in Hcls. rewrite Hnoinst in Hcls.
    injection Hcls as <-. done. }
  rewrite (desc_waitcnt _ _ _ _ _ _ Hdesc) in Hw.
  destruct (Hw Hwait) as (w & Hready & Hle).
  unfold waitcntReadyCycle in Hready. rewrite Hkind in Hready.
  destruct (commitNoInst_outstanding _ _ _ _ _ kind [] Hc Hd Hn) as [-> ->].
  etransitivity; [apply (outstanding_antitone _ _ _ w); lia|].
  by eapply waitcntReadyCycle_legacy_covers.
Qed.
End Waitcnt.

Lemma s_waitcnt_drains_witness : exists n,
  getPendingMemoryEventCount (sampleState [loadOp; waitOp])
    InstructionWaitCounterKind.Vmem = Ok n /\ n <= 0.
Proof.
  apply (s_waitcnt_drains [] kGfx942 sampleConfig (sampleState [loadOp]) waitOp
           (Some 0) None (Some 0) (sampleResult [loadOp] waitOp));
    solve [vm_compute; reflexivity | constructor | lia].
Defined.
