(* ===== verification/ExecInv.v ===== *)
(** * Invariants of the issue state

    The states a wave goes through, as a relation, and what holds in all of
    them: the queue of a wait counter holds exactly the events of that counter
    that have not retired, each once; under back-pressure a pipe never holds
    more instructions than its maximum. *)

From stdpp Require Import base tactics list gmap sorting strings.
From S2P Require Import Prelude CostEnums ArchData MachineIR LatencyTable OpClassifier.
From S2P Require Import MemoryTiming ScheduleModel ResourceState ExecState ExecOps.
From S2P Require Import Examples ExecLemmas WaitSpec QuerySpec.

(** ** The members that account for events *)

Record sameEvents (st st' : InstructionExecutionState) : Prop := {
  same_ev_events : events st' = events st;
  same_ev_queues : waitQueues st' = waitQueues st;
  same_ev_next : nextEventId st' = nextEventId st
}.
#[export] Instance sameEvents_preorder : PreOrder sameEvents.
Proof. split; [by split|]. intros ??? [] []. split; congruence. Qed.

Lemma sameTiming_sameEvents st st' : sameTiming st st' -> sameEvents st st'.
Proof. intros []. by split. Qed.

(** Every event is under its own id, and the queues hold known events of their
    counter, among them all that retire after [cycle]. *)
Record tracked (cycle : Z) (st : InstructionExecutionState) : Prop := {
  tracked_shape : length (waitQueues st) = kWaitCounterCount;
  tracked_known : forall q id, id ∈ queueAt (waitQueues st) q ->
    exists e, events st !! id = Some e /\ counterIndex (pe_counter e) = Ok q;
  tracked_pending : forall id e q, events st !! id = Some e ->
    counterIndex (pe_counter e) = Ok q -> cycle < retireCycle e ->
    id ∈ queueAt (waitQueues st) q;
  tracked_fresh : forall id e, events st !! id = Some e ->
    pe_id e = id /\ (id < nextEventId st)%N;
  tracked_nodup : forall q, NoDup (queueAt (waitQueues st) q)
}.

Lemma tracked_later c c' st : c <= c' -> tracked c st -> tracked c' st.
Proof.
  intros Hc [H1 H2 H3 H4 H5]. split; auto. intros. eapply H3; eauto. lia.
Qed.

Lemma tracked_sameEvents c st st' :
  sameEvents st st' -> tracked c st -> tracked c st'.
Proof.
  intros [He Hq Hn] [H1 H2 H3 H4 H5]. split; rewrite ?He, ?Hq, ?Hn; auto.
Qed.

Lemma initialState_tracked : tracked 0 initialState.
Proof.
  split; simpl; [done|..].
  - intros q id. unfold queueAt. simpl.
    destruct q as [|[|[|[|[|[|q]]]]]]; simpl; intros Hin; by apply elem_of_nil in Hin.
  - intros id e q He. by rewrite lookup_empty in He.
  - intros id e He. by rewrite lookup_empty in He.
  - intros q. unfold queueAt.
    destruct q as [|[|[|[|[|[|q]]]]]]; simpl; constructor.
Qed.

(** Pruning at [cycle] leaves exactly the events that retire later. *)
Definition exact (st : InstructionExecutionState) : Prop :=
  tracked (currentCycle st) st
  /\ forall q id e, id ∈ queueAt (waitQueues st) q ->
       events st !! id = Some e -> currentCycle st < retireCycle e.

Lemma prune_exact c st :
  tracked c st -> c <= currentCycle st ->
  exact (pruneRetiredEvents (currentCycle st) st).
Proof.
  intros Ht Hc. set (c' := currentCycle st) in *.
  destruct (tracked_later _ _ _ Hc Ht) as [H1 H2 H3 H4 H5].
  assert (forall q id, id ∈ queueAt (waitQueues (pruneRetiredEvents c' st)) q ->
            id ∈ queueAt (waitQueues st) q /\ hasPendingEvent st id c' = true)
    as Hin.
  { intros q id. rewrite prune_waitQueue. intros [Hp Hq]%list_elem_of_filter.
    split; [done|by apply Is_true_true]. }
  split.
  - rewrite prune_currentCycle. split; rewrite ?prune_events; auto.
    + unfold pruneRetiredEvents. simpl. by rewrite length_fmap.
    + intros q id [Hq _]%Hin. auto.
    + intros id e q He Hk Hr. rewrite prune_waitQueue.
      apply list_elem_of_filter. split; [|by eapply H3].
      apply Is_true_true. unfold hasPendingEvent. rewrite He.
      by apply Z.ltb_lt.
    + intros q. rewrite prune_waitQueue. by apply NoDup_filter.
  - intros q id e [_ Hp]%Hin. rewrite prune_events, prune_currentCycle.
    unfold hasPendingEvent in Hp. intros He. rewrite He in Hp.
    by apply Z.ltb_lt in Hp.
Qed.

Lemma exact_ext st st' :
  sameEvents st st' -> currentCycle st' = currentCycle st ->
  exact st -> exact st'.
Proof.
  intros Hs Hc [Ht Hp]. split; rewrite Hc.
  - by eapply tracked_sameEvents.
  - destruct Hs as [He Hq _]. rewrite Hq, He. auto.
Qed.

(** ** New events *)

Lemma queueAt_alter_eq {A} (f : list A -> list A) qs i :
  (i < length qs)%nat -> queueAt (alter f i qs) i = f (queueAt qs i).
Proof.
  intros Hi. unfold queueAt. rewrite list_lookup_alter_eq.
  by destruct (lookup_lt_is_Some_2 _ _ Hi) as [q ->].
Qed.

Lemma queueAt_alter_ne {A} (f : list A -> list A) qs i j :
  i <> j -> queueAt (alter f i qs) j = queueAt qs j.
Proof. intros Hi. unfold queueAt. by rewrite list_lookup_alter_ne. Qed.

Lemma counterIndex_lt kind q :
  counterIndex kind = Ok q -> (q < kWaitCounterCount)%nat.
Proof. unfold kWaitCounterCount. destruct kind; simpl; intros [= <-]; lia. Qed.

Section Commit.
Context `{LLVMTarget}.
Context (graph : UseGraph) (arch : ArchData)
  (config : InstructionExecutionConfig).

Lemma commitMemoryEvent_tracked op desc cyc c queue ids st issue :
  counterIndex (counter desc) = Ok queue ->
  tracked c st ->
  let acc := commitMemoryEvent arch config op desc cyc queue (ids, st) issue in
  tracked c acc.2 /\ currentCycle acc.2 = currentCycle st.
Proof.
  intros Hq [H1 H2 H3 H4 H5]. split; [|done]. simpl.
  pose proof (counterIndex_lt _ _ Hq) as Hlt.
  assert (events st !! nextEventId st = None) as Hnone.
  { destruct (events st !! nextEventId st) eqn:He; [|done].
    apply H4 in He as [_ He]. lia. }
  set (event := mkPendingEvent _ _ _ _ _).
  assert (insertEvent event (events st) = <[nextEventId st := event]> (events st))
    as Hins by (unfold insertEvent; simpl; by rewrite Hnone).
  split; simpl; rewrite ?Hins.
  - by rewrite length_alter.
  - intros q id Hin. destruct (decide (queue = q)) as [<-|Hne].
    + rewrite queueAt_alter_eq in Hin by lia.
      apply elem_of_app in Hin as [Hin| ->%list_elem_of_singleton].
      * destruct (H2 _ _ Hin) as (e & He & Hk). exists e.
        rewrite lookup_insert_ne; [done|]. congruence.
      * exists event. by rewrite lookup_insert_eq.
    + rewrite queueAt_alter_ne in Hin by done.
      destruct (H2 _ _ Hin) as (e & He & Hk). exists e.
      rewrite lookup_insert_ne; [done|]. congruence.
  - intros id e q He Hk Hr.
    apply lookup_insert_Some in He as [[<- <-]|[Hne He]].
    + simpl in Hk. rewrite Hq in Hk. injection Hk as <-.
      rewrite queueAt_alter_eq by lia. rewrite elem_of_app. right.
      by apply list_elem_of_singleton.
    + specialize (H3 _ _ _ He Hk Hr). destruct (decide (queue = q)) as [<-|].
      * rewrite queueAt_alter_eq by lia. rewrite elem_of_app. by left.
      * by rewrite queueAt_alter_ne.
  - intros id e He. apply lookup_insert_Some in He as [[<- <-]|[Hne He]].
    + split; [done|]. lia.
    + destruct (H4 _ _ He). split; [done|]. lia.
  - intros q. destruct (decide (queue = q)) as [<-|Hne].
    + rewrite queueAt_alter_eq by lia. apply NoDup_app. split_and!; [done| |].
      * intros id Hin ->%list_elem_of_singleton.
        destruct (H2 _ _ Hin) as (e & He & _). congruence.
      * apply NoDup_singleton.
    + by rewrite queueAt_alter_ne.
Qed.

Lemma commitMemoryEvents_tracked op desc cyc c st ids st' :
  tracked c st ->
  commitMemoryEvents arch config op desc cyc st = Ok (ids, st') ->
  tracked c st' /\ currentCycle st' = currentCycle st.
Proof.
  intros Ht. unfold commitMemoryEvents. case_decide.
  { intros [= <- <-]. done. }
  intros Hc. apply outcome_bind_Ok in Hc as (queue & Hq & Hc).
  injection Hc as Hc.
  assert (forall l acc, tracked c acc.2 ->
    let acc' := fold_left (commitMemoryEvent arch config op desc cyc queue) l acc in
    tracked c acc'.2 /\ currentCycle acc'.2 = currentCycle acc.2) as Hl.
  { induction l as [|i l IH]; intros [ids0 st0] Hacc; [done|]. cbn [fold_left].
    destruct (commitMemoryEvent_tracked op desc cyc c queue ids0 st0 i Hq Hacc)
      as [H1 H2].
    destruct (IH _ H1) as [H3 H4]. split; [done|].
    etransitivity; [exact H4|exact H2]. }
  destruct (Hl (issueSeq (counterIssueCount desc)) ([], st) Ht) as [H1 H2].
  rewrite Hc in H1, H2. done.
Qed.

(** ** The frame of the rest of a commit *)

Lemma commitMemoryIssue_sameEvents desc cyc st :
  sameEvents st (commitMemoryIssue arch config desc cyc st)
  /\ currentCycle (commitMemoryIssue arch config desc cyc st) = currentCycle st.
Proof.
  unfold commitMemoryIssue.
  set (R := fun st st' => sameEvents st st' /\ currentCycle st' = currentCycle st).
  assert (PreOrder R).
  { split; [by split|]. intros ??? [H1 ?] [H2 ?]. split; [by etransitivity|congruence]. }
  apply (fold_left_preorder R). intros st0 resource. unfold R.
  repeat case_match; done.
Qed.

Lemma commitPipe_sameEvents p ready st st' :
  commitPipe p ready st = Ok st' ->
  sameEvents st st' /\ currentCycle st' = currentCycle st.
Proof.
  unfold commitPipe. case_decide; [by intros [= <-]|].
  intros Hc. apply outcome_bind_Ok in Hc as (q & _ & [= <-]). done.
Qed.

Lemma commitResources_sameEvents op desc shared placement cyc vr st st' sh :
  commitResources arch config op desc shared placement cyc vr st = Ok (st', sh) ->
  sameEvents st st' /\ currentCycle st' = currentCycle st.
Proof.
  unfold commitResources. destruct shared as [res|]; intros Hc.
  - apply outcome_bind_Ok in Hc as (uses & _ & Hc).
    apply outcome_bind_Ok in Hc as (res' & _ & [= <- <-]).
    apply commitMemoryIssue_sameEvents.
  - apply outcome_bind_Ok in Hc as (st1 & Hp & [= <- <-]).
    apply commitPipe_sameEvents in Hp as [H1 H2].
    set (st2 := if mfmaCoissueResource desc then _ else st1).
    assert (sameEvents st1 st2 /\ currentCycle st2 = currentCycle st1) as [H3 H4]
      by (unfold st2; by case_match).
    destruct (commitMemoryIssue_sameEvents desc cyc st2) as [H5 H6].
    split; [|congruence].
    transitivity st1; [done|]. by transitivity st2.
Qed.

(** The steps after the resources. *)
Definition finishSlots (op : Operation) (desc : InstructionDesc)
    (st : InstructionExecutionState) : InstructionExecutionState :=
  commitStoreData desc (commitM0 arch desc
    (commitIssueSlotHazards arch op desc
       (commitCoexecution desc
          (set_currentIssueSlot
             (u64 (currentIssueSlot st + issueSlots desc)) st)))).

Lemma commitM0_sameEvents desc st : sameEvents st (commitM0 arch desc st).
Proof. unfold commitM0. repeat case_match; done. Qed.

Lemma commitStoreData_sameEvents desc st : sameEvents st (commitStoreData desc st).
Proof. unfold commitStoreData. repeat case_match; done. Qed.

Lemma commitCoexecution_sameEvents desc st :
  sameEvents st (commitCoexecution desc st).
Proof. unfold commitCoexecution. repeat case_match; done. Qed.

Lemma finishSlots_sameEvents op desc st : sameEvents st (finishSlots op desc st).
Proof.
  unfold finishSlots.
  etransitivity; [|apply commitStoreData_sameEvents].
  etransitivity; [|apply commitM0_sameEvents].
  etransitivity; [|apply sameTiming_sameEvents, commitIssueSlotHazards_sameTiming].
  by etransitivity; [|apply commitCoexecution_sameEvents].
Qed.

Lemma finishInstruction_inv op desc stall shared placement st r st' sh :
  finishInstruction arch config op desc stall shared placement st
    = Ok (r, st', sh) ->
  exists new st1 st2 st3,
    commitMemoryEvents arch config op desc (currentCycle st) st = Ok (new, st1)
    /\ sameTiming (if ldsDmaIssue desc && smoothLdsDmaIssue config
                      && bool_decide (shared = None)
                   then set_nextLdsDmaIssueCycle
                          (saturatingAdd (currentCycle st)
                             (getLdsDmaServiceInterval arch
                                (getIssuePeriod arch config)
                                (ldsDmaIssueWaveStreams config))) st1
                   else st1) st2
    /\ commitResources arch config op desc shared placement (currentCycle st)
         (getResultReadyCycle arch config op desc (currentCycle st)) st2
       = Ok (st3, sh)
    /\ let st4 := set_currentCycle
            (saturatingAdd (currentCycle st) (getInstructionSpan arch config desc))
            (finishSlots op desc st3) in
       st' = pruneRetiredEvents (currentCycle st4) st4.
Proof.
  unfold finishInstruction. intros Hf.
  apply outcome_bind_Ok in Hf as ([new st1] & Hm & Hf).
  apply outcome_bind_Ok in Hf as ([st3 sh3] & Hr & Hf).
  injection Hf as <- <- <-.
  eexists new, st1, _, st3. split_and!; [done| |exact Hr|done].
  apply commitResults_sameTiming.
Qed.

Lemma finishInstruction_exact op desc stall shared placement st r st' sh :
  exact st -> 0 <= getInstructionSpan arch config desc ->
  currentCycle st <= INT64_MAX ->
  finishInstruction arch config op desc stall shared placement st
    = Ok (r, st', sh) -> exact st'.
Proof.
  intros [Ht _] Hspan Hmax Hf.
  apply finishInstruction_inv in Hf as (new & st1 & st2 & st3 & Hm & Hs & Hr & ->).
  apply (commitMemoryEvents_tracked _ _ _ (currentCycle st)) in Hm as [H1 _];
    [|done].
  apply commitResources_sameEvents in Hr as [H3 _].
  apply sameTiming_sameEvents in Hs.
  set (st4 := set_currentCycle _ _). cbv zeta.
  apply prune_exact with (currentCycle st).
  - eapply tracked_sameEvents; [|exact H1].
    transitivity st2; [|transitivity st3; [done|]].
    + etransitivity; [|exact Hs]. by case_match.
    + transitivity (finishSlots op desc st3); [apply finishSlots_sameEvents|done].
  - change (currentCycle st4) with
      (saturatingAdd (currentCycle st) (getInstructionSpan arch config desc)).
    rewrite saturatingAdd_spec. lia.
Qed.

Lemma beginIssue_exact desc stall st :
  exact st -> 0 <= stall_cycles stall -> exact (beginIssue desc stall st).
Proof.
  intros [Ht _] Hs. unfold beginIssue, consumeCoexecutionWait.
  set (st1 := set_currentCycle (currentCycle st + stall_cycles stall) st).
  assert (exact (pruneRetiredEvents (currentCycle st1) st1)) as He.
  { apply prune_exact with (currentCycle st); [|simpl; lia].
    eapply tracked_sameEvents; [|exact Ht]. by split. }
  case_match; (eapply exact_ext; [| |exact He]); by try split.
Qed.

Lemma commitWithResources_exact st op shared placement r st' sh :
  exact st -> delay_wf op -> issueCycle r <= INT64_MAX ->
  commitWithResources graph arch config st op shared placement
    = Ok (r, st', sh) -> exact st'.
Proof.
  intros He Hwf Hmax Hc.
  pose proof (commitWithResources_issueCycle _ _ _ _ _ _ _ _ _ _ Hc)
    as (Hi & _ & desc0 & Hd0 & Hq0 & _).
  apply commitWithResources_inv in Hc as (desc & stall & Hd & Hq & Hc).
  rewrite Hd in Hd0. injection Hd0 as <-.
  rewrite Hq in Hq0. injection Hq0 as Hst.
  pose proof (stall_wf_nonneg _ (queryWithResources_wf _ _ _ _ _ _ _ _ Hq)) as Hn.
  pose proof (beginIssue_exact desc stall st He Hn) as Hb.
  destruct (noMachineInst desc).
  - destruct Hc as [Hc _]. unfold finishNoMachineInst in Hc.
    pose proof (commitNoMachineInst_sameTiming op (beginIssue desc stall st)) as Hs.
    destruct (commitNoMachineInst op (beginIssue desc stall st)) as [v st1].
    cbn [snd] in Hs. injection Hc as _ <-.
    eapply exact_ext; [| |exact Hb].
    + transitivity st1; [by apply sameTiming_sameEvents|].
      etransitivity; [apply commitM0_sameEvents|apply commitStoreData_sameEvents].
    + transitivity (currentCycle st1); [|by apply same_currentCycle].
      unfold commitStoreData, commitM0; repeat case_match; done.
  - apply describe_inv in Hd as [cls Hd].
    apply (finishInstruction_exact op desc stall shared placement
             (beginIssue desc stall st) r st' sh Hb);
      [by apply Z.lt_le_incl; eapply getInstructionSpan_pos| |exact Hc].
    rewrite beginIssue_currentCycle. by rewrite Hst, <-Hi.
Qed.

(** ** Reachable states of one wave

    Operations that satisfy their verifier and issue within [int64_t] are
    committed, results of structured operations are bound, and a rendezvous
    moves the wave forward. *)
Inductive reachable : InstructionExecutionState -> Prop :=
  | reachable_init : reachable initialState
  | reachable_commit st op shared placement r st' sh :
      reachable st -> delay_wf op -> issueCycle r <= INT64_MAX ->
      commitWithResources graph arch config st op shared placement
        = Ok (r, st', sh) -> reachable st'
  | reachable_bind st result sources :
      reachable st -> reachable (bindValue st result sources)
  | reachable_advance st cycle st' :
      reachable st -> currentCycle st <= cycle ->
      advanceToCycle cycle st = Ok st' -> reachable st'.

Lemma reachable_exact st : reachable st -> exact st.
Proof.
  induction 1.
  - split; [exact initialState_tracked|].
    intros q id e Hin. exfalso. unfold queueAt in Hin.
    destruct q as [|[|[|[|[|[|q]]]]]]; simpl in Hin; by apply elem_of_nil in Hin.
  - by eapply commitWithResources_exact.
  - eapply exact_ext; [apply sameTiming_sameEvents, bindValue_sameTiming|done|done].
  - unfold advanceToCycle in *. outcome_steps. destruct IHreachable as [Ht _].
    apply (prune_exact (currentCycle st) (set_currentCycle cycle st)); [|done].
    eapply tracked_sameEvents; [|exact Ht]. by split.
Qed.

(** C23: in every reachable state the queue of a wait counter holds exactly the
    events of that counter that retire after the current cycle, each of them
    once: no pending event is lost, duplicated or counted on another counter,
    and no retired one lingers. *)
Theorem wait_queues_exact st kind queue
    (Hr : reachable st) (Hq : counterIndex kind = Ok queue) :
  NoDup (queueAt (waitQueues st) queue)
  /\ forall id, id ∈ queueAt (waitQueues st) queue
       <-> exists e, events st !! id = Some e /\ pe_counter e = kind
                     /\ currentCycle st < retireCycle e.
Proof.
  destruct (reachable_exact _ Hr) as [[_ H2 H3 H4 H5] Hp].
  split; [apply H5|]. intros id. split.
  - intros Hin. destruct (H2 _ _ Hin) as (e & He & Hk). exists e.
    split_and!; [done| |by eapply Hp].
    destruct (pe_counter e), kind; simpl in *; congruence.
  - intros (e & He & <- & Hlt). by eapply H3.
Qed.
End Commit.

Lemma wait_queues_exact_witness :
  NoDup (queueAt (waitQueues (sampleState [loadOp])) 0).
Proof.
  apply (wait_queues_exact [] kGfx942 sampleConfig (sampleState [loadOp])
           InstructionWaitCounterKind.Vmem 0); [|reflexivity].
  apply (reachable_commit [] kGfx942 sampleConfig initialState loadOp None
           (mkWavePlacement 0 0) (sampleResult [] loadOp) _ None);
    [constructor|exact I|vm_compute; discriminate|vm_compute; reflexivity].
Defined.

(** ** Back-pressure of the pipes

    A wave that keeps its own pipe queues (no shared resource calendars) never
    has more instructions in flight on a pipe than the configuration allows:
    the query waits for room and the commit enters one instruction. *)

(** ** Counting in a queue of ready cycles *)

Lemma inFlight_antitone queue c c' :
  c <= c' -> inFlight queue c' <= inFlight queue c.
Proof.
  intros Hc. unfold inFlight.
  induction queue as [|r q IH]; [done|].
  rewrite !filter_cons. repeat case_decide; simpl; lia.
Qed.

Lemma inFlight_prune queue c t :
  c <= t ->
  inFlight (base.filter (fun ready => ~ ready <= c) queue) t = inFlight queue t.
Proof.
  intros Hc. unfold inFlight. do 2 f_equal.
  induction queue as [|r q IH]; [done|].
  rewrite (filter_cons _ r q).
  case_decide; rewrite !filter_cons; repeat case_decide; try lia; by rewrite ?IH.
Qed.

Lemma inFlight_snoc queue ready c :
  inFlight (queue ++ [ready]) c <= inFlight queue c + 1.
Proof.
  unfold inFlight. rewrite filter_app, length_app, filter_cons, filter_nil.
  case_decide; simpl; lia.
Qed.

Lemma pipeQueue_prune cycle st pipe t :
  cycle <= t ->
  inFlight (pipeQueue (pruneRetiredEvents cycle st) pipe) t
  = inFlight (pipeQueue st pipe) t.
Proof.
  intros Ht. unfold pipeQueue. destruct (pipeIndex pipe); [|done|done].
  rewrite prune_pipeQueue. by apply inFlight_prune.
Qed.

Lemma pipeQueue_same st st' pipe :
  pipeQueues st' = pipeQueues st -> pipeQueue st' pipe = pipeQueue st pipe.
Proof. unfold pipeQueue. by intros ->. Qed.

Section Pipe.
Context `{LLVMTarget}.
Context (graph : UseGraph) (arch : ArchData)
  (config : InstructionExecutionConfig).

(** No pipe holds more than its maximum at [cycle]. *)
Definition pipesWithin (st : InstructionExecutionState) (cycle : Z) : Prop :=
  forall pipe, 0 < maxInFlightForPipe config pipe ->
    inFlight (pipeQueue st pipe) cycle <= maxInFlightForPipe config pipe.

Lemma pipesWithin_later st c c' :
  c <= c' -> pipesWithin st c -> pipesWithin st c'.
Proof.
  intros Hc Hp pipe Hm. pose proof (inFlight_antitone (pipeQueue st pipe) c c' Hc).
  specialize (Hp pipe Hm). lia.
Qed.

Lemma pipesWithin_same st st' c :
  pipeQueues st' = pipeQueues st -> pipesWithin st c -> pipesWithin st' c.
Proof.
  intros He Hp pipe Hm. rewrite (pipeQueue_same _ _ _ He). by apply Hp.
Qed.

Lemma pipesWithin_prune st c t :
  c <= t -> pipesWithin st t -> pipesWithin (pruneRetiredEvents c st) t.
Proof. intros Hc Hp pipe Hm. rewrite pipeQueue_prune by done. by apply Hp. Qed.

(** ** The query waits for room in the pipe *)

Lemma addLocalResourceStalls_pipe st desc s s' :
  stall_wf s -> addLocalResourceStalls arch config st desc s = Ok s' ->
  exists ready, pipeReadyCycle config st (pipe desc) (currentCycle st) = Ok ready
                /\ ready <= currentCycle st + stall_cycles s'.
Proof.
  intros Hwf Hs. unfold addLocalResourceStalls in Hs.
  apply outcome_bind_Ok in Hs as (ready & Hr & Hs).
  apply outcome_bind_Ok in Hs as (s2 & Hm & [= <-]).
  exists ready. split; [done|].
  apply addLocalMemoryIssueStalls_extends in Hm as [Hm _].
  apply stall_le_cycles in Hm.
  pose proof (addComponent_covers s InstructionStallKind.IssueBackpressure
                (ready - currentCycle st) (stall_wf_nonneg _ Hwf)) as Hcov.
  set (s1 := addComponent s InstructionStallKind.IssueBackpressure _) in *.
  assert (stall_cycles s1 <= stall_cycles s2) as H12.
  { etransitivity; [|exact Hm]. case_match; [|lia].
    apply stall_le_cycles, addComponentAt_le. }
  assert (stall_cycles s2 <= stall_cycles
    (if ldsDmaIssue desc && smoothLdsDmaIssue config
     then addComponent s2 InstructionStallKind.IssueBackpressure
            (nextLdsDmaIssueCycle st - currentCycle st) else s2)) as H23.
  { destruct (_ && _); [|lia]. apply stall_le_cycles, addComponent_le. }
  lia.
Qed.

Lemma query_pipe_room st op desc placement stall :
  queryWithResources arch config st op desc None placement = Ok stall ->
  0 < maxInFlightForPipe config (pipe desc) ->
  inFlight (pipeQueue st (pipe desc)) (currentCycle st + stall_cycles stall)
  < maxInFlightForPipe config (pipe desc).
Proof.
  intros Hq Hm. unfold queryWithResources in Hq.
  apply outcome_bind_Ok in Hq as (dep & Hd & Hq).
  apply addDependencyStalls_extends in Hd as [_ Hd].
  set (s1 := if waitsForWindow (coexecution desc) && _ then _ else dep) in Hq.
  assert (stall_wf s1) as Hs1.
  { unfold s1. case_match; auto with stall. }
  apply outcome_bind_Ok in Hq as (s2 & Hl & [= <-]).
  apply addLocalResourceStalls_pipe in Hl as (ready & Hr & Hle); [|done].
  pose proof (addIssueHazards_extends arch st op desc s2) as [Hx _].
  apply stall_le_cycles in Hx.
  destruct (pipeReadyCycle_exact config st (pipe desc) (currentCycle st) Hm)
    as (ready' & Hr' & _ & Hroom & _).
  rewrite Hr in Hr'. injection Hr' as <-.
  eapply Z.le_lt_trans; [|exact Hroom]. apply inFlight_antitone. lia.
Qed.

(** ** The commit enters one instruction *)

Lemma beginIssue_pipeQueue desc stall st pipe t :
  currentCycle st + stall_cycles stall <= t ->
  inFlight (pipeQueue (beginIssue desc stall st) pipe) t
  = inFlight (pipeQueue st pipe) t.
Proof.
  intros Ht. unfold beginIssue, consumeCoexecutionWait.
  set (c := currentCycle st + stall_cycles stall) in *.
  pose proof (pipeQueue_prune c (set_currentCycle c st) pipe t Ht) as Hp.
  change (pipeQueue (set_currentCycle c st) pipe) with (pipeQueue st pipe) in Hp.
  by case_match.
Qed.

Lemma commitMemoryEvents_pipeQueues op desc cyc st ids st' :
  commitMemoryEvents arch config op desc cyc st = Ok (ids, st') ->
  pipeQueues st' = pipeQueues st.
Proof.
  unfold commitMemoryEvents. case_decide; [by intros [= <- <-]|].
  intros Hc. apply outcome_bind_Ok in Hc as (queue & _ & Hc).
  injection Hc as Hc.
  assert (forall l acc, pipeQueues
    (fold_left (commitMemoryEvent arch config op desc cyc queue) l acc).2
    = pipeQueues acc.2) as Hl.
  { induction l as [|i l IH]; intros [ids0 st0]; [done|]. simpl. by rewrite IH. }
  specialize (Hl (issueSeq (counterIssueCount desc)) ([], st)). by rewrite Hc in Hl.
Qed.

Lemma commitMemoryIssue_pipeQueues desc cyc st :
  pipeQueues (commitMemoryIssue arch config desc cyc st) = pipeQueues st.
Proof.
  unfold commitMemoryIssue.
  set (R := fun st st' : InstructionExecutionState =>
              pipeQueues st' = pipeQueues st).
  assert (PreOrder R).
  { split; [by intros ?|]. unfold R. intros ???. congruence. }
  apply (fold_left_preorder R). intros st0 resource. unfold R.
  repeat case_match; done.
Qed.

Lemma finishSlots_pipeQueues op desc st :
  pipeQueues (finishSlots arch op desc st) = pipeQueues st.
Proof.
  unfold finishSlots.
  assert (forall st, pipeQueues (commitStoreData desc st) = pipeQueues st) as H1
    by (intros; unfold commitStoreData; repeat case_match; done).
  assert (forall st, pipeQueues (commitM0 arch desc st) = pipeQueues st) as H2
    by (intros; unfold commitM0; repeat case_match; done).
  assert (forall st, pipeQueues (commitCoexecution desc st) = pipeQueues st) as H3
    by (intros; unfold commitCoexecution; repeat case_match; done).
  rewrite H1, H2.
  rewrite (same_pipeQueues _ _ (commitIssueSlotHazards_sameTiming _ _ _ _)).
  by rewrite H3.
Qed.

Lemma commitPipe_within p ready c st st' :
  length (pipeQueues st) = kPipeCount ->
  commitPipe p ready st = Ok st' ->
  pipesWithin st c ->
  (0 < maxInFlightForPipe config p ->
   inFlight (pipeQueue st p) c < maxInFlightForPipe config p) ->
  pipesWithin st' c /\ length (pipeQueues st') = kPipeCount.
Proof.
  intros Hlen Hc Hp Hroom. unfold commitPipe in Hc.
  case_decide as Hp0; [by injection Hc as <-|].
  apply outcome_bind_Ok in Hc as (q & Hq & [= <-]).
  split; [|simpl; by rewrite length_alter].
  intros pipe Hm. unfold pipeQueue.
  destruct (pipeIndex pipe) as [q'| |] eqn:Hq'; [|unfold inFlight; simpl; lia..].
  simpl. specialize (Hp pipe Hm). unfold pipeQueue in Hp. rewrite Hq' in Hp.
  destruct (decide (q' = q)) as [->|Hne].
  - assert (pipe = p) as -> by (by destruct pipe, p; simplify_eq/=).
    specialize (Hroom Hm). unfold pipeQueue in Hroom. rewrite Hq in Hroom.
    rewrite queueAt_alter_eq
      by (rewrite Hlen; unfold kPipeCount; destruct p; simplify_eq/=; lia).
    pose proof (inFlight_snoc (queueAt (pipeQueues st) q) ready c). lia.
  - by rewrite queueAt_alter_ne.
Qed.

Lemma commitResources_within op desc placement cyc vr c st st' sh :
  length (pipeQueues st) = kPipeCount ->
  commitResources arch config op desc None placement cyc vr st = Ok (st', sh) ->
  pipesWithin st c ->
  (0 < maxInFlightForPipe config (pipe desc) ->
   inFlight (pipeQueue st (pipe desc)) c
   < maxInFlightForPipe config (pipe desc)) ->
  pipesWithin st' c /\ length (pipeQueues st') = kPipeCount.
Proof.
  intros Hlen Hc Hp Hroom. unfold commitResources in Hc.
  apply outcome_bind_Ok in Hc as (st1 & H1 & [= <- <-]).
  apply (commitPipe_within _ _ c) in H1 as [Hw Hl]; [|done..].
  set (st2 := if mfmaCoissueResource desc then _ else st1).
  assert (pipeQueues st2 = pipeQueues st1) as He by (unfold st2; by case_match).
  pose proof (commitMemoryIssue_pipeQueues desc cyc st2) as Hm.
  rewrite He in Hm. split; [|by rewrite Hm].
  by apply (pipesWithin_same st1).
Qed.

Definition pipesOk (st : InstructionExecutionState) : Prop :=
  length (pipeQueues st) = kPipeCount /\ pipesWithin st (currentCycle st).

Lemma finishInstruction_pipesOk op desc stall placement st r st' sh :
  length (pipeQueues st) = kPipeCount ->
  pipesWithin st (currentCycle st) ->
  (0 < maxInFlightForPipe config (pipe desc) ->
   inFlight (pipeQueue st (pipe desc)) (currentCycle st)
   < maxInFlightForPipe config (pipe desc)) ->
  0 <= getInstructionSpan arch config desc -> currentCycle st <= INT64_MAX ->
  finishInstruction arch config op desc stall None placement st
    = Ok (r, st', sh) -> pipesOk st'.
Proof.
  intros Hlen Hp Hroom Hspan Hmax Hf.
  apply finishInstruction_inv in Hf as (new & st1 & st2 & st3 & Hm & Hs & Hr & ->).
  apply commitMemoryEvents_pipeQueues in Hm.
  apply same_pipeQueues in Hs.
  assert (pipeQueues st2 = pipeQueues st) as He.
  { rewrite Hs, <-Hm. by destruct (_ && _). }
  apply (commitResources_within _ _ _ _ _ (currentCycle st)) in Hr as [Hw Hl].
  - set (st4 := set_currentCycle _ _).
    assert (pipeQueues st4 = pipeQueues st3) as H4
      by apply finishSlots_pipeQueues.
    split.
    { transitivity (length (pipeQueues st4)); [|by rewrite H4].
      unfold pruneRetiredEvents. simpl. by rewrite length_fmap. }
    apply pipesWithin_prune; [done|].
    apply (pipesWithin_same st3); [done|].
    apply (pipesWithin_later _ (currentCycle st)); [|done].
    change (currentCycle st
      <= saturatingAdd (currentCycle st) (getInstructionSpan arch config desc)).
    rewrite saturatingAdd_spec. lia.
  - by rewrite He.
  - by apply (pipesWithin_same st).
  - by rewrite (pipeQueue_same st).
Qed.

Lemma beginIssue_pipesOk desc stall st :
  pipesOk st -> 0 <= stall_cycles stall -> pipesOk (beginIssue desc stall st).
Proof.
  intros [Hl Hp] Hn. split.
  - unfold beginIssue, consumeCoexecutionWait.
    case_match; unfold pruneRetiredEvents; simpl; by rewrite length_fmap.
  - rewrite beginIssue_currentCycle. intros pipe Hm.
    rewrite beginIssue_pipeQueue by lia.
    by apply (pipesWithin_later st (currentCycle st)); [lia|..].
Qed.

Lemma commit_pipesOk st op r st' :
  pipesOk st -> delay_wf op -> issueCycle r <= INT64_MAX ->
  commit graph arch config st op = Ok (r, st') -> pipesOk st'.
Proof.
  intros Hok Hwf Hmax Hc. apply commit_inv in Hc as [sh Hc].
  pose proof (commitWithResources_issueCycle _ _ _ _ _ _ _ _ _ _ Hc)
    as (Hi & _ & desc & Hd & Hq & _).
  apply commitWithResources_inv in Hc as (desc1 & stall & Hd1 & Hq1 & Hc).
  rewrite Hd in Hd1. injection Hd1 as <-. rewrite Hq in Hq1. injection Hq1 as Hs.
  rewrite Hs in Hi, Hq. clear Hs.
  pose proof (stall_wf_nonneg _ (queryWithResources_wf _ _ _ _ _ _ _ _ Hq)) as Hn.
  destruct (beginIssue_pipesOk desc stall st Hok Hn) as [Hl Hp].
  destruct (noMachineInst desc).
  - destruct Hc as [Hc _]. unfold finishNoMachineInst in Hc.
    pose proof (commitNoMachineInst_sameTiming op (beginIssue desc stall st)) as Hs.
    destruct (commitNoMachineInst op (beginIssue desc stall st)) as [v st1].
    cbn [snd] in Hs. injection Hc as _ <-.
    set (st2 := commitStoreData _ _).
    assert (pipeQueues st2 = pipeQueues st1 /\ currentCycle st2 = currentCycle st1)
      as [H1 H2]
      by (unfold st2, commitStoreData, commitM0; repeat case_match; done).
    rewrite (same_pipeQueues _ _ Hs) in H1. rewrite (same_currentCycle _ _ Hs) in H2.
    split; [by rewrite H1|]. rewrite H2. by eapply pipesWithin_same.
  - apply describe_inv in Hd as [cls Hd].
    eapply finishInstruction_pipesOk; [exact Hl|exact Hp| | | |exact Hc].
    + intros Hm. rewrite beginIssue_currentCycle, beginIssue_pipeQueue by lia.
      by eapply query_pipe_room.
    + by apply Z.lt_le_incl; eapply getInstructionSpan_pos.
    + rewrite beginIssue_currentCycle. by rewrite <-Hi.
Qed.

(** The states of a wave that keeps its own pipes: operations are committed
    one after the other, results are bound, the wave moves forward. *)
Inductive localReachable : InstructionExecutionState -> Prop :=
  | local_init : localReachable initialState
  | local_commit st op r st' :
      localReachable st -> delay_wf op -> issueCycle r <= INT64_MAX ->
      commit graph arch config st op = Ok (r, st') -> localReachable st'
  | local_bind st result sources :
      localReachable st -> localReachable (bindValue st result sources)
  | local_advance st cycle st' :
      localReachable st -> currentCycle st <= cycle ->
      advanceToCycle cycle st = Ok st' -> localReachable st'.

Lemma localReachable_pipesOk st : localReachable st -> pipesOk st.
Proof.
  induction 1 as [|st op r st' _ IH ? ? Hc|st result sources _ [Hl Hp]
                 |st cycle st' _ [Hl Hp] Hle Ha].
  - split; [done|]. intros pipe Hm. unfold pipeQueue, queueAt. simpl.
    destruct pipe; simpl; unfold inFlight; simpl; lia.
  - by eapply commit_pipesOk.
  - by split.
  - unfold advanceToCycle in Ha. outcome_steps.
    split; [unfold pruneRetiredEvents; simpl; by rewrite length_fmap|].
    apply pipesWithin_prune; [done|].
    apply (pipesWithin_same st); [done|].
    by apply (pipesWithin_later st (currentCycle st)).
Qed.

(** C24: under back-pressure, in every state of a wave that keeps its own pipe
    queues, [getPipeInFlightCount] never exceeds the maximum configured for
    the pipe. *)
Theorem pipe_in_flight_bounded st pipe
    (Hr : localReachable st) (Hm : 0 < maxInFlightForPipe config pipe) :
  exists n, getPipeInFlightCount st pipe = Ok n
            /\ 0 <= n <= maxInFlightForPipe config pipe.
Proof.
  destruct (localReachable_pipesOk _ Hr) as [_ Hp]. specialize (Hp pipe Hm).
  unfold pipeQueue, inFlight in Hp. unfold getPipeInFlightCount.
  destruct pipe; simpl in *; (eexists; split; [reflexivity|]; lia).
Qed.
End Pipe.

Lemma pipe_in_flight_bounded_witness : exists n,
  getPipeInFlightCount
    (stateOf (runAll kGfx942 pressureConfig [mfmaOp] initialState))
    InstructionPipeKind.XDL = Ok n
  /\ 0 <= n <= maxInFlightForPipe pressureConfig InstructionPipeKind.XDL.
Proof.
  apply (pipe_in_flight_bounded [] kGfx942 pressureConfig); [|reflexivity].
  eapply (local_commit [] kGfx942 pressureConfig initialState mfmaOp
            (match commit [] kGfx942 pressureConfig initialState mfmaOp with
             | Ok (r, _) => r | _ => noResult end));
    [constructor|exact I|vm_compute; discriminate|vm_compute; reflexivity].
Defined.
