(* ===== verification/AliasSpec.v ===== *)
(** * The walk to store data

    [producesStoreWriteData] decides whether a result reaches the data operand
    of a wide store through operations that emit no instruction: its depth
    first walk, which visits every operation once, agrees with reachability
    along the use lists, and the fuel it is given is always enough. *)

From stdpp Require Import base tactics list gmap strings fin_sets.
From S2P Require Import Prelude CostEnums ArchData MachineIR LatencyTable.
From S2P Require Import OpClassifier MemoryTiming ScheduleModel.
From S2P Require Import ResourceState ExecState Examples.

Section Alias.
Context (graph : UseGraph).

(** A use as the data of a wide store. *)
Definition storesData (use : OpOperand) : bool :=
  (operand_number use =? 1)%nat && isWideStoreWriteDataOp (operand_owner use).

Definition isStructural (op : Operation) : bool :=
  hasTrait op Trait.NoMachineInst.

(** The specification: a path of uses to the data of a wide store. *)
Inductive reachesStore : Value -> Prop :=
  | reaches_here v use :
      use ∈ getUses graph v -> storesData use = true -> reachesStore v
  | reaches_alias v use result :
      use ∈ getUses graph v -> storesData use = false ->
      isStructural (operand_owner use) = true ->
      result ∈ op_results (operand_owner use) -> reachesStore result ->
      reachesStore v.

(** Operations are told apart by their address. *)
Definition distinctOwners : Prop :=
  forall use use', use ∈ graph -> use' ∈ graph ->
    op_id (operand_owner use) = op_id (operand_owner use') ->
    operand_owner use = operand_owner use'.

Lemma getUses_graph v use : use ∈ getUses graph v -> use ∈ graph.
Proof. unfold getUses. intros [_ Hin]%list_elem_of_filter. done. Qed.

(** ** What the walk answers *)

(** Every use of [v] was looked at: none stores it, the structural ones are in
    [seen]. *)
Definition explored (seen : gset N) (v : Value) : Prop :=
  forall use, use ∈ getUses graph v ->
    storesData use = false
    /\ (isStructural (operand_owner use) = true ->
        op_id (operand_owner use) ∈ seen).

(** The operations of [seen] outside [old] have only explored results. *)
Definition closedFrom (old seen : gset N) : Prop :=
  old ⊆ seen
  /\ forall use, use ∈ graph -> isStructural (operand_owner use) = true ->
     op_id (operand_owner use) ∈ seen -> op_id (operand_owner use) ∉ old ->
     Forall (explored seen) (op_results (operand_owner use)).

Lemma explored_mono seen seen' v :
  seen ⊆ seen' -> explored seen v -> explored seen' v.
Proof.
  intros Hs He use Hu. destruct (He use Hu) as [? Hin]. split; [done|].
  intros. by apply Hs, Hin.
Qed.

Lemma closedFrom_refl seen : closedFrom seen seen.
Proof. split; [done|]. intros use _ _ Hin Hout. done. Qed.

Lemma closedFrom_trans s1 s2 s3 :
  closedFrom s1 s2 -> closedFrom s2 s3 -> closedFrom s1 s3.
Proof.
  intros [H1 C1] [H2 C2]. split; [set_solver|].
  intros use Hu Hst Hin Hout.
  destruct (decide (op_id (operand_owner use) ∈ s2)) as [Hin2|Hin2].
  - eapply Forall_impl; [by apply C1|].
    intros v. by apply explored_mono.
  - by apply C2.
Qed.

(** The contract of one call, for a walk [f] and what it looks for. *)
Definition answers {A : Type} (hit : A -> Prop) (done : gset N -> A -> Prop)
    (a : A) (old : gset N) (r : bool * gset N) : Prop :=
  if r.1 then hit a else closedFrom old r.2 /\ done r.2 a.

Lemma anySeen_answers {A} (hit : A -> Prop) (finished : gset N -> A -> Prop)
    (f : A -> gset N -> option (bool * gset N)) l :
  (forall s s' a, s ⊆ s' -> finished s a -> finished s' a) ->
  (forall a s r, a ∈ l -> f a s = Some r -> answers hit finished a s r) ->
  forall old r, anySeen f l old = Some r ->
  answers (fun l => Exists hit l) (fun s => Forall (finished s)) l old r.
Proof.
  intros Hmono. induction l as [|a l IH]; intros Hf old r Hr; simpl in Hr.
  { injection Hr as <-. split; [apply closedFrom_refl|constructor]. }
  destruct (f a old) as [[b s1]|] eqn:Ha; [|done].
  apply Hf in Ha; [|constructor]. destruct b.
  { injection Hr as <-. by constructor. }
  destruct Ha as [Hc Hd]. simpl in *.
  apply IH in Hr; [|intros; apply Hf; [by constructor|done]].
  unfold answers in *. destruct (r.1); [by constructor|].
  destruct Hr as [Hc' Hd']. split; [by eapply closedFrom_trans|].
  constructor; [|done]. eapply Hmono; [apply Hc'|done].
Qed.

(** One use is settled when it does not store and is in [seen] if
    structural. *)
Definition settled (seen : gset N) (use : OpOperand) : Prop :=
  storesData use = false
  /\ (isStructural (operand_owner use) = true ->
      op_id (operand_owner use) ∈ seen).

Definition useReaches (use : OpOperand) : Prop :=
  storesData use = true
  \/ (storesData use = false /\ isStructural (operand_owner use) = true
      /\ exists r, r ∈ op_results (operand_owner use) /\ reachesStore r).

Lemma settled_explored seen v :
  Forall (settled seen) (getUses graph v) -> explored seen v.
Proof. intros Hall use Hu. by eapply Forall_forall in Hall. Qed.

Lemma useReaches_reaches v :
  Exists useReaches (getUses graph v) -> reachesStore v.
Proof.
  intros [use [Hu [Hs|(Hs & Hst & r & Hr & Hp)]]]%Exists_exists.
  - by eapply reaches_here.
  - by eapply reaches_alias.
Qed.

Lemma reachesStoreWriteData_answers fuel : distinctOwners ->
  forall v old r, reachesStoreWriteData graph fuel v old = Some r ->
  answers reachesStore explored v old r.
Proof.
  intros Hdist. induction fuel as [|fuel IH]; [done|]. intros v old r Hr.
  simpl in Hr.
  assert (answers (fun l => Exists useReaches l) (fun s => Forall (settled s))
            (getUses graph v) old r) as Ha.
  { eapply anySeen_answers; [| |exact Hr].
    - intros s s0 use Hs [? Hin]. split; [done|]. intros. by apply Hs, Hin.
    - intros use s [b s'] Hu Hf. apply getUses_graph in Hu.
      fold (storesData use) in Hf.
      destruct (storesData use) eqn:Hst; [injection Hf as <- <-; by left|].
      fold (isStructural (operand_owner use)) in Hf.
      destruct (isStructural (operand_owner use)) eqn:Hal; simpl in Hf.
      2: { injection Hf as <- <-. split; [apply closedFrom_refl|].
           split; [done|]. rewrite Hal. done. }
      case_bool_decide as Hin.
      { injection Hf as <- <-. split; [apply closedFrom_refl|]. by split. }
      apply (anySeen_answers reachesStore explored) in Hf;
        [|apply explored_mono|intros; by apply IH].
      unfold answers in *. simpl in *. destruct b.
      { right. apply Exists_exists in Hf as [x Hx]. eauto. }
      destruct Hf as [[Hsub Hcl] Hd]. split; [|split; [done|set_solver]].
      split; [set_solver|]. intros use' Hu' Hst' Hin' Hout'.
      destruct (decide (op_id (operand_owner use') = op_id (operand_owner use)))
        as [Heq|Hne].
      + by rewrite (Hdist _ _ Hu' Hu Heq).
      + apply Hcl; [done..|]. set_solver. }
  unfold answers in *. destruct r.1.
  - by apply useReaches_reaches.
  - destruct Ha as [? ?]. split; [done|]. by apply settled_explored.
Qed.

(** Nothing is reached from an explored value of a closed set. *)
Lemma closed_unreached seen v :
  closedFrom ∅ seen -> explored seen v -> ~ reachesStore v.
Proof.
  intros [_ Hc] He Hr. revert He.
  induction Hr as [v use Hu Hst|v use res Hu Hst Hal Hres _ IH]; intros He.
  - destruct (He use Hu). congruence.
  - apply IH. destruct (He use Hu) as [_ Hin].
    specialize (Hc use (getUses_graph _ _ Hu) Hal (Hin Hal)).
    eapply Forall_forall in Hc; [done| |done]. set_solver.
Qed.

(** ** The fuel is enough *)

Definition ownerIds : gset N :=
  list_to_set ((fun use => op_id (operand_owner use)) <$> graph).

Definition unseen (seen : gset N) : nat := size (ownerIds ∖ seen).

Lemma unseen_mono seen seen' : seen ⊆ seen' -> (unseen seen' <= unseen seen)%nat.
Proof. intros. unfold unseen. apply subseteq_size. set_solver. Qed.

Lemma unseen_visit seen use :
  use ∈ graph -> op_id (operand_owner use) ∉ seen ->
  (unseen ({[op_id (operand_owner use)]} ∪ seen) < unseen seen)%nat.
Proof.
  intros Hu Hn. unfold unseen. apply subset_size.
  assert (op_id (operand_owner use) ∈ ownerIds).
  { unfold ownerIds. apply elem_of_list_to_set, list_elem_of_fmap. eauto. }
  set_solver.
Qed.

(** A walk that never shrinks [seen] and answers below a bound. *)
Lemma anySeen_total {A} (f : A -> gset N -> option (bool * gset N)) l n :
  (forall a s, a ∈ l -> (unseen s <= n)%nat ->
     exists b s', f a s = Some (b, s') /\ s ⊆ s') ->
  forall s, (unseen s <= n)%nat ->
  exists b s', anySeen f l s = Some (b, s') /\ s ⊆ s'.
Proof.
  induction l as [|a l IH]; intros Hf s Hs; simpl; [eauto|].
  destruct (Hf a s) as (b & s1 & -> & Hsub); [constructor|done|].
  destruct b; [eauto|].
  destruct (IH ltac:(intros; apply Hf; [by constructor|done]) s1)
    as (b & s2 & -> & Hsub2).
  - etransitivity; [by apply unseen_mono|done].
  - exists b, s2. split; [done|set_solver].
Qed.

Lemma reachesStoreWriteData_total fuel : forall v s,
  (unseen s < fuel)%nat ->
  exists b s', reachesStoreWriteData graph fuel v s = Some (b, s') /\ s ⊆ s'.
Proof.
  induction fuel as [|fuel IH]; intros v s Hs; [lia|]. simpl.
  eapply (anySeen_total _ _ fuel); [|lia].
  intros use s0 Hu Hs0. apply getUses_graph in Hu.
  destruct (_ && _); [eauto|].
  destruct (hasTrait _ _); simpl; [|eauto].
  case_bool_decide as Hin; [eauto|].
  pose proof (unseen_visit s0 use Hu Hin).
  edestruct (anySeen_total (reachesStoreWriteData graph fuel)
    (op_results (operand_owner use)) (fuel - 1)) as (b & s2 & Hx & Hsub).
  - intros a s3 _ Hs3. apply IH. lia.
  - instantiate (1 := {[op_id (operand_owner use)]} ∪ s0). lia.
  - exists b, s2. split; [exact Hx|set_solver].
Qed.

Lemma unseen_graph : (unseen ∅ <= length graph)%nat.
Proof.
  unfold unseen, ownerIds. rewrite difference_empty_L.
  rewrite <-(length_fmap (fun use => op_id (operand_owner use)) graph).
  generalize ((fun use => op_id (operand_owner use)) <$> graph). intros l.
  induction l as [|i l IH]; [done|]. rewrite list_to_set_cons, length_cons.
  rewrite size_union_alt, size_singleton.
  pose proof (subseteq_size (list_to_set l ∖ {[i]}) (list_to_set l : gset N)
                ltac:(set_solver)). lia.
Qed.

Lemma producesStoreWriteData_Ok op :
  exists found, producesStoreWriteData graph op = Ok found.
Proof.
  unfold producesStoreWriteData. destruct (negb _); [eauto|].
  destruct (anySeen_total (reachesStoreWriteData graph (aliasFuel graph))
              (op_results op) (length graph)) with (s := ∅ : gset N)
    as (b & s & -> & _); [|apply unseen_graph|eauto].
  intros v s _ Hs. apply reachesStoreWriteData_total. unfold aliasFuel. lia.
Qed.

(** [producesStoreWriteData] answers on every operation, and answers true
    exactly for a vector operation one of whose results reaches the data
    operand of a wide store through operations that emit no instruction. *)
Theorem producesStoreWriteData_reaches op (Hids : distinctOwners) :
  exists found, producesStoreWriteData graph op = Ok found
  /\ (found = true <->
      hasTrait op Trait.VALUOp = true
      /\ exists result, result ∈ op_results op /\ reachesStore result).
Proof.
  destruct (producesStoreWriteData_Ok op) as [found Hf].
  exists found. split; [done|]. revert Hf. unfold producesStoreWriteData.
  destruct (hasTrait op Trait.VALUOp); cbn [negb];
    [|intros [= <-]; naive_solver].
  destruct (anySeen _ _ _) as [[b s]|] eqn:Hany; [|done]. intros [= <-].
  apply (anySeen_answers reachesStore explored) in Hany;
    [|apply explored_mono|intros v s' r _ Hr; revert Hr;
                          by apply reachesStoreWriteData_answers].
  unfold answers in Hany. simpl in Hany. destruct b.
  - apply Exists_exists in Hany as [r Hr]. naive_solver.
  - destruct Hany as [Hc Hd]. split; [done|]. intros (_ & r & Hr & Hp).
    eapply Forall_forall in Hd; [|done]. by eapply closed_unreached in Hp.
Qed.
End Alias.

(** An [fma] whose result is renamed by a structural operation and stored. *)
Definition afterOp : Operation :=
  machineOp 9 AfterOp [Trait.NoMachineInst] noWait [vgpr 4; token 3] [vgpr 10].
Definition aliasStore : Operation :=
  machineOp 11 GlobalStoreB96Op [Trait.VMEMStoreOp]
    (mkWaitcntInfo WaitcntEvent.VmemStore 1 false)
    [vgpr 1; vgpr 10; sgpr 7] [token 8].
Definition aliasGraph : UseGraph :=
  [mkOpOperand 4 afterOp 0; mkOpOperand 10 aliasStore 1].

Lemma producesStoreWriteData_reaches_witness :
  exists found, producesStoreWriteData aliasGraph fmaOp = Ok found
  /\ (found = true <->
      hasTrait fmaOp Trait.VALUOp = true
      /\ exists result, result ∈ op_results fmaOp
                        /\ reachesStore aliasGraph result).
Proof.
  apply (producesStoreWriteData_reaches aliasGraph fmaOp).
  intros use use' H1 H2. unfold aliasGraph in H1, H2.
  set_unfold in H1. set_unfold in H2.
  destruct H1 as [->|[->|[]]], H2 as [->|[->|[]]]; simpl; congruence.
Defined.
