(* ===== verification/TableSpec.v ===== *)
(** * The tables answer for every supported class

    Every class a target supports has a latency, resource cycles, an issue
    count, a functional unit and a pipe; the loader of measured latencies keeps
    the first entry of every class and refuses unknown ones; [describe]
    answers for every supported operation, except those whose wait event is a
    message or a GDS access. *)

From stdpp Require Import base tactics list gmap strings.
From S2P Require Import Prelude CostEnums ArchData MachineIR LatencyTable OpClassifier.
From S2P Require Import MemoryTiming ScheduleModel ResourceState ExecState ExecOps.
From S2P Require Import Examples AliasSpec.

(** ** Tables *)

(** The table and the functional units of one target. *)
Definition targetTables : list (ArchTable * ClassFUs) := [
  (mkArchTable (mkIsaVersion 12 5 0) kLatencyGfx1250 kResourceCyclesGfx1250
     kIssueCountsGfx1250 kSupportedGfx1250, kFUsGfx1250);
  (mkArchTable (mkIsaVersion 8 0 3) kLatencyGfx942 kResourceCyclesGfx942
     kIssueCountsGfx942 kSupportedGfx942, kFUsGfx942);
  (mkArchTable (mkIsaVersion 9 5 0) kLatencyGfx950 kResourceCyclesGfx950
     kIssueCountsGfx950 kSupportedGfx950, kFUsGfx950);
  (mkArchTable (mkIsaVersion 11 0 0) kLatencyGfx1100 kResourceCyclesGfx1100
     kIssueCountsGfx1100 kSupportedGfx1100, kFUsGfx1100);
  (mkArchTable (mkIsaVersion 12 0 0) kLatencyGfx1200 kResourceCyclesGfx1200
     kIssueCountsGfx1200 kSupportedGfx1200, kFUsGfx1200)].

(** What the rows of a class say when it is supported: it occupies its unit no
    longer than its latency, issues at least once unless it emits nothing, and
    has an entry in every table. *)
Definition rowOk (t : ArchTable) (fus : ClassFUs) (cls : SchedClass.t) : bool :=
  let i := SchedClass.index cls in
  match supported t !! i with
  | Some true =>
      match latencies t !! i, resourceCycles t !! i, issueCounts t !! i,
            fus !! i with
      | Some l, Some r, Some n, Some fu =>
          (0 <=? r) && (r <=? l) && (0 <=? n) && (n <? 4294967296)
          && (bool_decide (cls = SchedClass.NoInst
                           \/ cls = SchedClass.WaitcntPseudo)
              || ((1 <=? r) && (1 <=? n)
                  && negb (bool_decide (fu = FunctionalUnit.None))))
          && bool_decide (fu <> FunctionalUnit.NumFunctionalUnits)
      | _, _, _, _ => false
      end
  | _ => true
  end.

Lemma rows_ok :
  forallb (fun '(t, fus) => forallb (rowOk t fus) SchedClass.all) targetTables
  = true.
Proof. vm_compute. reflexivity. Qed.

Lemma classes_all cls : cls ∈ SchedClass.all.
Proof. destruct cls; vm_compute; repeat constructor. Qed.

Lemma forallb_elem {A} (p : A -> bool) l a :
  forallb p l = true -> a ∈ l -> p a = true.
Proof. intros Hp Ha. eapply List.forallb_forall; [done|]. by apply list_elem_of_In. Qed.

Section Tables.
Context `{LLVMTarget}.

Lemma selected_rows (a : ArchData) cls :
  isSchedClassSupported a cls = true ->
  exists t fus, selectTable (isa a) = Some t
    /\ selectFUTable (isa a) = Some fus /\ rowOk t fus cls = true
    /\ supported t !! SchedClass.index cls = Some true.
Proof.
  unfold isSchedClassSupported. intros Hs.
  assert (exists t fus, selectTable (isa a) = Some t
    /\ selectFUTable (isa a) = Some fus /\ rowOk t fus cls = true)
    as (t & fus & Ht & Hf & Hrow).
  { assert (forall i, match targetTables !! i with
                     | Some (t, fus) => rowOk t fus cls = true
                     | None => True end) as Hrow.
    { intros i. destruct (targetTables !! i) as [[t fus]|] eqn:Hi; [|done].
      apply list_elem_of_lookup_2 in Hi.
      exact (forallb_elem _ _ _ (forallb_elem _ _ _ rows_ok Hi)
               (classes_all cls)). }
    revert Hs. unfold selectTable, selectFUTable. simpl.
    destruct (isaEq getGfx1250IsaVersion (isa a));
      [intros _; do 2 eexists; split_and!; [done..|exact (Hrow 0%nat)]|].
    repeat match goal with
    | |- context [if isaEq ?v (isa a) then _ else _] =>
        destruct (isaEq v (isa a));
          [intros _; do 2 eexists; split_and!; [reflexivity..|];
           first [exact (Hrow 1%nat)|exact (Hrow 2%nat)|exact (Hrow 3%nat)
                 |exact (Hrow 4%nat)]|]
    end. done. }
  rewrite Ht in Hs. exists t, fus. split_and!; [done..|].
  destruct (supported t !! SchedClass.index cls); congruence.
Qed.

(** The tables are total on what a target supports: a supported class has a
    latency, resource cycles, an issue count, a functional unit and a pipe;
    it holds its resource no longer than its latency; it issues and holds a
    resource for at least one cycle, on a real unit, unless it emits no
    instruction; a plain vector class takes at least the depth of the vector
    pipeline. *)
Theorem supported_class_timing (a : ArchData) cls
    (Hs : isSchedClassSupported a cls = true) :
  exists l r n fu p,
    getLatency a cls = Ok l /\ getResourceCycles a cls = Ok r
    /\ getIssueCount a cls = Ok n /\ funit a cls = Ok fu
    /\ pipeFor a cls = Ok p
    /\ 0 <= r <= l /\ 0 <= n
    /\ (cls <> SchedClass.NoInst -> cls <> SchedClass.WaitcntPseudo ->
        1 <= r /\ 1 <= n /\ fu <> FunctionalUnit.None)
    /\ (isPlainVALUClass cls = true -> valuPipelineDepth a <= l).
Proof.
  destruct (selected_rows a cls Hs) as (t & fus & Ht & Hf & Hrow & Hsup).
  unfold getLatency, getResourceCycles, getIssueCount, pipeFor, funit,
    getTableCycles. rewrite Hs, Ht, Hf, Hsup. cbn [negb].
  unfold rowOk in Hrow. rewrite Hsup in Hrow.
  set (i := SchedClass.index cls) in *.
  destruct (latencies t !! i) as [l|], (resourceCycles t !! i) as [r|],
    (issueCounts t !! i) as [n|], (fus !! i) as [fu|]; try done.
  rewrite !andb_true_iff in Hrow.
  destruct Hrow as [[[[[H1 H2] H3] H4] H5] H6].
  apply Z.leb_le in H1, H2, H3. apply Z.ltb_lt in H4.
  apply bool_decide_eq_true in H6.
  simpl. rewrite (u32_small n) by lia.
  assert (exists p, pipeForFunctionalUnit fu = Ok p) as [p Hp]
    by (destruct fu; try done; by eexists).
  eexists _, r, n, fu, (if decide (cls = SchedClass.NoInst
                                  \/ cls = SchedClass.WaitcntPseudo)
                       then InstructionPipeKind.None else p).
  split_and!; try done.
  - destruct (decide _); [done|exact Hp].
  - destruct (isPlainVALUClass cls); lia.
  - intros Hn Hw. rewrite bool_decide_false in H5 by tauto. simpl in H5.
    rewrite !andb_true_iff, negb_true_iff in H5.
    destruct H5 as [[R N] F]. apply Z.leb_le in R, N.
    by apply bool_decide_eq_false in F.
  - intros ->. lia.
Qed.
End Tables.

Lemma supported_class_timing_witness : exists l,
  getLatency kGfx1100 SchedClass.WriteTrans32 = Ok l.
Proof.
  destruct (supported_class_timing kGfx1100 SchedClass.WriteTrans32)
    as (l & r & n & fu & p & Hl & _); [vm_compute; reflexivity|].
  by exists l.
Defined.

(** ** Descriptions *)

Section Describe.
Context `{LLVMTarget}.
Context (graph : UseGraph) (arch : ArchData)
  (config : InstructionExecutionConfig).

(** The events for which [getMemoryCounterLatency] has no case although they
    increment a legacy counter. *)
Definition untimedEvent (e : WaitcntEvent.t) : bool :=
  match e with
  | WaitcntEvent.Gds | WaitcntEvent.Message => true
  | _ => false
  end.

(** What the verifiers of the dialect promise of an operation: a wide store
    has a data operand; the tensor operations exist on targets with tables. *)
Definition op_wf (op : Operation) : Prop :=
  (isWideStoreWriteDataOp op = true -> is_Some (op_operands op !! 1%nat))
  /\ (isTDM op = true -> exists a, getArchData (isa arch) = Ok a).

Lemma getConfiguredLatency_Ok cls :
  isSchedClassSupported arch cls = true ->
  exists l, getConfiguredLatency arch cls (calibration config) = Ok l.
Proof.
  intros Hs. destruct (selected_rows arch cls Hs) as (t & fus & Ht & _ & Hrow & Hsup).
  assert (exists l, getLatency arch cls = Ok l) as [l Hl].
  { unfold getLatency, getTableCycles. rewrite Ht, Hsup.
    unfold rowOk in Hrow. rewrite Hsup in Hrow.
    destruct (latencies t !! SchedClass.index cls); [|done]. by eexists. }
  unfold getConfiguredLatency, getCalibratedLatency.
  destruct (calibration config); [case_match|]; eauto.
Qed.

Lemma getTableCycles_Ok (a : ArchData) cls member :
  isSchedClassSupported a cls = true ->
  member = resourceCycles \/ member = issueCounts ->
  exists c, getTableCycles a cls member = Ok c.
Proof.
  intros Hs Hm. destruct (selected_rows a cls Hs) as (t & fus & Ht & _ & Hrow & Hsup).
  unfold getTableCycles. rewrite Ht, Hsup. unfold rowOk in Hrow.
  rewrite Hsup in Hrow.
  set (i := SchedClass.index cls) in *.
  destruct (latencies t !! i), (resourceCycles t !! i) eqn:Hr,
    (issueCounts t !! i) eqn:Hi; try done.
  destruct Hm as [-> | ->]; rewrite ?Hr, ?Hi; eauto.
Qed.

Lemma getStoreWriteDataHazard_Ok op :
  op_wf op -> exists h, getStoreWriteDataHazard op (isa arch) = Ok h.
Proof.
  intros [Hw _]. unfold getStoreWriteDataHazard, at_index.
  destruct (isWideStoreWriteDataOp op); [|eauto].
  destruct Hw as [v ->]; [done|]. simpl. eauto.
Qed.

Lemma pipeFor_Ok cls :
  isSchedClassSupported arch cls = true -> exists p, pipeFor arch cls = Ok p.
Proof.
  intros Hs. destruct (selected_rows arch cls Hs) as (t & fus & _ & Hf & Hrow & Hsup).
  unfold pipeFor. case_decide; [eauto|]. unfold funit. rewrite Hs, Hf. simpl.
  unfold rowOk in Hrow. rewrite Hsup in Hrow.
  set (i := SchedClass.index cls) in *.
  destruct (latencies t !! i), (resourceCycles t !! i), (issueCounts t !! i),
    (fus !! i) as [fu|]; try done. simpl.
  rewrite !andb_true_iff in Hrow. destruct Hrow as [_ Hfu].
  apply bool_decide_eq_true in Hfu. destruct fu; try done; by eexists.
Qed.

Lemma getInstructionIssueCount_Ok op cls :
  op_wf op -> classifyOp op = Ok cls ->
  exists n, getInstructionIssueCount op (isa arch) (wavefrontSize config) = Ok n.
Proof.
  intros [_ Htdm] Hcls. unfold getInstructionIssueCount.
  destruct (op_issueCount op) as [f|]; [|eauto].
  destruct (isTDM op); simpl; [|eauto].
  rewrite Hcls. simpl. destruct (Htdm eq_refl) as [a ->]. simpl.
  destruct (isSchedClassSupported a cls) eqn:Hs; simpl; [|eauto].
  destruct (getTableCycles_Ok a cls issueCounts Hs) as [c Hc]; [by right|].
  unfold getIssueCount. rewrite Hc. simpl. eauto.
Qed.

Lemma getMemoryIssueResources_Ok op :
  exists m, getMemoryIssueResources op = Ok m.
Proof.
  unfold getMemoryIssueResources.
  assert (exists m, getWaitcntIssueResources op = Ok m) as [m ->];
    [|simpl; eauto].
  unfold getWaitcntIssueResources.
  case_decide as Hn; [eauto|]. revert Hn.
  destruct (_ && _); [eauto|]. destruct (_ && _); [eauto|].
  destruct (event (getWaitcntInfo op)); intros Hn; try (by simpl; eauto);
    contradict Hn; auto.
Qed.

Lemma getMemoryCounterKind_Ok op :
  exists k, getMemoryCounterKind op = Ok k
  /\ (untimedEvent (event (getWaitcntInfo op)) = true ->
      k = MemoryCounterKind.Lgkm)
  /\ (event (getWaitcntInfo op) = WaitcntEvent.None ->
      k = MemoryCounterKind.None).
Proof.
  unfold getMemoryCounterKind. destruct (event (getWaitcntInfo op));
    vm_compute; eexists; (split_and!; [reflexivity|done|done]).
Qed.

Lemma toInstructionEventClass_Ok op :
  exists c, toInstructionEventClass op = Ok c.
Proof.
  unfold toInstructionEventClass.
  destruct (event (getWaitcntInfo op)); vm_compute; eauto.
Qed.

Lemma getMemoryCounterLatency_Ok op cls :
  classifyOp op = Ok cls -> isSchedClassSupported arch cls = true ->
  untimedEvent (event (getWaitcntInfo op)) = false ->
  event (getWaitcntInfo op) <> WaitcntEvent.None ->
  exists l, getMemoryCounterLatency arch op (counterLatencies config)
              (calibration config) = Ok l.
Proof.
  intros Hcls Hs Hu Hn. unfold getMemoryCounterLatency. rewrite Hcls. simpl.
  destruct (getConfiguredLatency_Ok cls Hs) as [l ->]. simpl.
  destruct (event (getWaitcntInfo op)); naive_solver eauto.
Qed.

(** [describe] up to the latency of the wait counter: the rest depends on that
    latency alone, and answers when it is known. *)
Definition counterLatencyOf (op : Operation) (kind : MemoryCounterKind.t) :
    outcome Z :=
  if decide (kind <> MemoryCounterKind.None)
  then getMemoryCounterLatency arch op (counterLatencies config)
         (calibration config)
  else Ok 0.

Lemma describe_reduces st op cls (P : outcome InstructionDesc -> Prop) :
  op_wf op -> classifyOp op = Ok cls -> isSchedClassSupported arch cls = true ->
  (forall kind rest, getMemoryCounterKind op = Ok kind ->
     (forall v, counterLatencyOf op kind = Ok v -> exists d, rest v = Ok d) ->
     P (counterLatencyOf op kind ≫= rest)) ->
  P (describe graph arch config st op).
Proof.
  intros Hwf Hcls Hs HP.
  destruct (getInstructionIssueCount_Ok op cls Hwf Hcls) as [n Hn].
  destruct (getMemoryCounterKind_Ok op) as (kind & Hkind & _).
  unfold describe.
  apply outcome_bind_reaches; [eauto|]. intros cls' Hcls'.
  rewrite Hcls in Hcls'. injection Hcls' as <-. rewrite Hs. cbn [negb].
  apply outcome_bind_reaches; [by apply getStoreWriteDataHazard_Ok|]. intros h _.
  apply outcome_bind_reaches;
    [destruct (negb _); [apply producesStoreWriteData_Ok|eauto]|]. intros b _.
  apply outcome_bind_reaches; [by apply pipeFor_Ok|]. intros p _.
  apply outcome_bind_reaches;
    [apply (getTableCycles_Ok arch cls resourceCycles); auto|]. intros r Hr.
  apply outcome_bind_reaches; [eauto|]. intros n' _.
  apply outcome_bind_reaches.
  { unfold getInstructionCoexecutionModel. destruct (_ || _); [eauto|].
    rewrite Hn, Hr. simpl. repeat case_match; eauto. }
  intros x _.
  apply outcome_bind_reaches; [by apply getConfiguredLatency_Ok|]. intros l _.
  apply outcome_bind_reaches; [apply getMemoryIssueResources_Ok|]. intros m _.
  apply outcome_bind_reaches; [eauto|]. intros k Hk.
  apply outcome_bind_reaches; [apply toInstructionEventClass_Ok|]. intros c _.
  apply (HP k); [done|]. intros v Hv. apply outcome_bind_reaches.
  2: { intros v' _. destruct (configureDmaIssueDelay _ _ _ _) as [[[? ?] ?] ?].
       eauto. }
  destruct (_ && _) eqn:Hval; [|eauto].
  apply andb_true_iff in Hval as [Hne Hval]. apply bool_decide_eq_true in Hne.
  unfold counterLatencyOf in Hv. rewrite decide_True in Hv by done.
  unfold getMemoryValueLatency. rewrite Hv. unfold hasMemoryValueLatency in Hval.
  destruct (hasRegisterResult op); [|done]. cbn [negb] in Hval.
  destruct (event (getWaitcntInfo op)); try done; simpl; eauto.
Qed.

(** [describe] answers on every operation whose class the target supports
    and whose wait event is neither a message nor a GDS access: none of the
    assertions and unreachable cases on its way is met. *)
Theorem describe_total st op cls
    (Hwf : op_wf op) (Hcls : classifyOp op = Ok cls)
    (Hs : isSchedClassSupported arch cls = true)
    (He : untimedEvent (event (getWaitcntInfo op)) = false) :
  exists desc, describe graph arch config st op = Ok desc.
Proof.
  apply (describe_reduces st op cls); [done..|].
  intros kind rest Hkind Hrest.
  apply outcome_bind_reaches; [|done]. unfold counterLatencyOf.
  case_decide as Hne; [|eauto].
  eapply getMemoryCounterLatency_Ok; eauto. intros Hnone. apply Hne.
  destruct (getMemoryCounterKind_Ok op) as (kind' & Hkind' & _ & Hn).
  rewrite Hkind in Hkind'. injection Hkind' as <-. auto.
Qed.

(** An operation whose wait event is a message or a GDS access has no
    description: it is counted on the LGKM counter, for which
    [getMemoryCounterLatency] has no case, so [describe] ends in the
    unreachable statement. *)
Theorem describe_message_aborts st op cls
    (Hwf : op_wf op) (Hcls : classifyOp op = Ok cls)
    (Hs : isSchedClassSupported arch cls = true)
    (He : untimedEvent (event (getWaitcntInfo op)) = true) :
  exists why, describe graph arch config st op = Fatal why.
Proof.
  apply (describe_reduces st op cls); [done..|].
  intros kind rest Hkind _.
  destruct (getMemoryCounterKind_Ok op) as (kind' & Hkind' & Hlgkm & _).
  rewrite Hkind in Hkind'. injection Hkind' as <-. rewrite (Hlgkm He).
  unfold counterLatencyOf. rewrite decide_True by done.
  unfold getMemoryCounterLatency. rewrite Hcls. cbn [mbind outcome_bind].
  destruct (getConfiguredLatency_Ok cls Hs) as [l ->]. simpl.
  destruct (event (getWaitcntInfo op)); try done; simpl; eauto.
Qed.
End Describe.

Lemma describe_total_witness : exists desc,
  describe [] kGfx942 sampleConfig initialState storeOp = Ok desc.
Proof.
  apply (describe_total [] kGfx942 sampleConfig initialState storeOp
           SchedClass.WriteVMEM);
    [split; [intros _; by eexists|done]|vm_compute; reflexivity..].
Defined.

(** [s_sendmsg_dealloc_vgprs], an operation of the RDNA targets. *)
Definition sendmsgOp : Operation :=
  machineOp 12 SSendmsgDeallocVgprsOp []
    (mkWaitcntInfo WaitcntEvent.Message 1 false) [] [].

Lemma describe_message_aborts_witness : exists why,
  describe [] kGfx1100 sampleConfig initialState sendmsgOp = Fatal why.
Proof.
  apply (describe_message_aborts [] kGfx1100 sampleConfig initialState sendmsgOp
           SchedClass.WriteSALU);
    [by split|vm_compute; reflexivity..].
Defined.

(** ** The calibration loader

    Loading a calibration file either reports the first bad entry or yields,
    for every class, the override of the first entry that names it, which then
    replaces the latency of the table. *)

Section Loader.
Context `{JSON}.

(** The override an entry stands for, when it is one. *)
Definition overrideOf (value : JValue) : option CalibrationOverride :=
  obj ← getAsObject value;
  cycles ← getInteger obj "cycles";
  Some (mkOverride (i32 cycles) (default "" (getString obj "kernel"))
          (default "" (getString obj "notes"))).

Definition validEntry (kv : string * JValue) : Prop :=
  parseSchedClassName kv.1 <> SchedClass.NumSchedClasses
  /\ is_Some (overrideOf kv.2).

(** The first entry that names a class. *)
Definition firstOverride (cls : SchedClass.t) (kvs : list (string * JValue)) :
    option CalibrationOverride :=
  kv ← List.find (fun kv => bool_decide (parseSchedClassName kv.1 = cls)) kvs;
  overrideOf kv.2.

Lemma classKey_inj cls cls' : classKey cls = classKey cls' -> cls = cls'.
Proof. unfold classKey. intros Hk%Nat2Z.inj. by destruct cls, cls'. Qed.

Lemma try_emplace_lookup key entry out k :
  overrides (try_emplace key entry out) !! k
  = match overrides out !! k with
    | Some o => Some o
    | None => if decide (k = key) then Some entry else None
    end.
Proof.
  unfold try_emplace. destruct (overrides out !! key) as [o|] eqn:Hk; simpl.
  - destruct (overrides out !! k) eqn:Hk'; [done|].
    case_decide; congruence.
  - case_decide as Hd; [subst; by rewrite lookup_insert_eq, Hk|].
    rewrite lookup_insert_ne by done. by case_match.
Qed.

(** One entry: refused, or entered unless its class has one already. *)
Lemma parseOneOverride_spec out name value :
  match overrideOf value with
  | Some o =>
      if decide (parseSchedClassName name = SchedClass.NumSchedClasses)
      then exists err, parseOneOverride out name value = inl err
      else parseOneOverride out name value
           = inr (try_emplace (classKey (parseSchedClassName name)) o out)
  | None => exists err, parseOneOverride out name value = inl err
  end.
Proof.
  unfold overrideOf, parseOneOverride.
  destruct (getAsObject value) as [obj|]; simpl; [|case_decide; eauto].
  destruct (getInteger obj "cycles"); simpl; case_decide; eauto.
Qed.

Lemma parseOverrides_valid kvs : Forall validEntry kvs -> forall out,
  exists out', parseOverrides out kvs = inr out'
  /\ forall cls, getOverride out' cls
       = match getOverride out cls with
         | Some o => Some o
         | None => firstOverride cls kvs
         end.
Proof.
  induction 1 as [|[name value] kvs [Hn [o Ho]] _ IH]; intros out.
  { exists out. split; [done|]. intros cls. by case_match. }
  simpl in Hn, Ho. cbn [parseOverrides].
  pose proof (parseOneOverride_spec out name value) as Hone.
  rewrite Ho, decide_False in Hone by done. rewrite Hone.
  destruct (IH (try_emplace (classKey (parseSchedClassName name)) o out))
    as (out' & Hp & Hl).
  exists out'. split; [done|]. intros cls. rewrite Hl. unfold getOverride.
  rewrite try_emplace_lookup. unfold firstOverride. cbn [List.find fst].
  destruct (overrides out !! classKey cls); [done|].
  case_decide as Hk.
  - apply classKey_inj in Hk as ->. rewrite bool_decide_true by done.
    simpl. by rewrite Ho.
  - rewrite bool_decide_false; [done|]. by intros <-.
Qed.

Lemma parseOverrides_invalid kvs : forall out,
  ~ Forall validEntry kvs -> exists err, parseOverrides out kvs = inl err.
Proof.
  induction kvs as [|[name value] kvs IH]; intros out Hbad;
    [by destruct Hbad|].
  cbn [parseOverrides].
  pose proof (parseOneOverride_spec out name value) as Hone.
  destruct (overrideOf value) as [o|] eqn:Ho;
    [|destruct Hone as [err ->]; eauto].
  case_decide as Hn; [destruct Hone as [err ->]; eauto|].
  rewrite Hone. apply IH. intros Hall. apply Hbad. constructor; [|done].
  split; [done|]. simpl. by rewrite Ho.
Qed.

(** Loading a calibration document with an [overrides] object succeeds
    exactly when every entry names a class and carries an integer [cycles];
    the calibrated latency of a class is then that of the first entry that
    names it, and the latency of the table for a class without entry. *)
Theorem loadFromString_overrides `{LLVMTarget} json root obj ovs
    (Hparse : json_parse json = inr root)
    (Hroot : getAsObject root = Some obj)
    (Hschema : forall v, getInteger obj "schema_version" = Some v -> v = 1)
    (Hovs : getObject obj "overrides" = Some ovs) :
  ((exists data, loadFromString json = inr data)
   <-> Forall validEntry (entries ovs))
  /\ forall data, loadFromString json = inr data ->
     forall arch cls, getCalibratedLatency arch cls data
       = match firstOverride cls (entries ovs) with
         | Some o => Ok (ov_cycles o)
         | None => getLatency arch cls
         end.
Proof.
  assert (loadFromString json
          = parseOverrides (readMetadata obj emptyCalibration) (entries ovs))
    as ->.
  { unfold loadFromString, parseRoot. rewrite Hparse, Hroot, Hovs.
    destruct (getInteger obj "schema_version") as [v|]; [|done].
    by rewrite (Hschema v). }
  assert (forall kv, Decision (validEntry kv)) by (unfold validEntry; apply _).
  destruct (decide (Forall validEntry (entries ovs))) as [Hgood|Hbad].
  - destruct (parseOverrides_valid (entries ovs) Hgood
                (readMetadata obj emptyCalibration)) as (data & -> & Hl).
    split; [by split; eauto|]. intros data' [= <-] arch cls.
    unfold getCalibratedLatency, getOverrideCycles. specialize (Hl cls).
    unfold getOverride in Hl. rewrite Hl.
    change (overrides (readMetadata obj emptyCalibration))
      with (∅ : gmap Z CalibrationOverride).
    rewrite lookup_empty. by destruct (firstOverride cls (entries ovs)).
  - destruct (parseOverrides_invalid (entries ovs)
                (readMetadata obj emptyCalibration) Hbad) as [err ->].
    split; [|done]. split; [by intros [data ?]|done].
Qed.
End Loader.

(** A JSON document with one object of overrides, each an integer. *)
Inductive toyValue : Set :=
  | ToyCycles (cycles : Z)
  | ToyObject (members : list (string * Z)).

Definition toyMembers (v : toyValue) : list (string * Z) :=
  match v with ToyCycles c => [("cycles", c)] | ToyObject l => l end.

#[local] Instance toyJSON : JSON := {|
  JValue := toyValue;
  JObject := toyValue;
  json_parse := fun _ => inr (ToyObject [("WriteLDS", 40); ("WriteLDS", 50)]);
  getAsObject := Some;
  getInteger := fun v key =>
    snd <$> List.find (fun kv => bool_decide (kv.1 = key)) (toyMembers v);
  getString := fun _ _ => None;
  getObject := fun v key => if decide (key = "overrides") then Some v else None;
  entries := fun v => (fun kv => (kv.1, ToyCycles kv.2)) <$> toyMembers v
|}.

Lemma loadFromString_overrides_witness :
  exists data, loadFromString "{}" = inr data.
Proof.
  set (doc := ToyObject [("WriteLDS", 40); ("WriteLDS", 50)]).
  apply (@loadFromString_overrides toyJSON exampleTarget "{}" doc doc doc);
    [reflexivity|reflexivity| |reflexivity|].
  - intros v Hv. vm_compute in Hv. discriminate.
  - repeat constructor; vm_compute; try discriminate; by eexists.
Defined.
