(* ===== verification/MultiWaveSpec.v ===== *)
(** * Waves of a compute unit: placement, arbitration and cohorts

    Which placements are valid, that a full compute unit is one, that the
    selection takes the earliest candidate of a strict total order, that the
    round-robin cursor serves a wave last after it issued, and that a cohort
    commits an operation exactly once on each of its waves. *)

From stdpp Require Import base tactics list gmap sorting strings.
From S2P Require Import Prelude CostEnums ArchData MachineIR LatencyTable OpClassifier.
From S2P Require Import MemoryTiming ScheduleModel ResourceState ExecState ExecOps.
From S2P Require Import MultiWave Examples ExecLemmas.

(** ** Placements *)

(** Structural parameters that fit their C++ types. *)
Definition slots_wf (arch : ArchData) : Prop :=
  0 < simdsPerCU arch < 2147483648 /\ 0 < wavesPerSIMD arch < 2147483648.

Definition inCU (arch : ArchData) (p : WavePlacement) : Prop :=
  Z.of_nat (simd p) < simdsPerCU arch /\ Z.of_nat (slot p) < wavesPerSIMD arch.

Section Placement.
Context (arch : ArchData) (Hwf : slots_wf arch).

Lemma placementKey_small p :
  inCU arch p ->
  placementKey arch p = Z.of_nat (simd p) * wavesPerSIMD arch + Z.of_nat (slot p).
Proof using Hwf.
  intros [H1 H2]. unfold slots_wf in Hwf. unfold placementKey.
  apply u64_small. nia.
Qed.

Lemma placementKey_inj p q :
  inCU arch p -> inCU arch q ->
  placementKey arch p = placementKey arch q -> p = q.
Proof using Hwf.
  intros Hp Hq. rewrite !placementKey_small by done.
  destruct Hp as [P1 P2], Hq as [Q1 Q2], p as [ps pl], q as [qs ql]; simpl in *.
  intros Heq. assert (Z.of_nat ps = Z.of_nat qs) by nia.
  assert (Z.of_nat pl = Z.of_nat ql) by nia. f_equal; lia.
Qed.

Lemma placementsDistinct_iff ps : forall seen,
  placementsDistinct arch ps seen = true
  <-> Forall (inCU arch) ps /\ NoDup (placementKey arch <$> ps)
      /\ Forall (fun p => placementKey arch p ∉ seen) ps.
Proof using Hwf.
  unfold slots_wf in Hwf.
  induction ps as [|p ps IH]; intros seen; cbn [placementsDistinct].
  { split; [|done]. intros _. split_and!; constructor. }
  rewrite !u32_small by lia. csimpl. rewrite !Forall_cons, NoDup_cons.
  destruct (_ || _) eqn:Hin.
  { split; [done|]. intros [[[P1 P2] _] _].
    apply orb_true_iff in Hin as [Hin|Hin]; apply Z.leb_le in Hin; lia. }
  apply orb_false_iff in Hin as [H1 H2]. apply Z.leb_gt in H1, H2.
  case_decide as Hs.
  { split; [done|]. intros (_ & _ & Hn & _). done. }
  rewrite IH. split.
  - intros (Hb & Hd & Hn). split_and!; [done|done| |done|done|].
    + intros (q & Hq & Hin)%list_elem_of_fmap.
      eapply Forall_forall in Hn; [|exact Hin]. set_solver.
    + eapply Forall_impl; [exact Hn|]. set_solver.
  - intros ([_ Hb] & [Hnin Hd] & _ & Hn). split_and!; [done|done|].
    apply Forall_forall. intros q Hq.
    eapply Forall_forall in Hn; [|exact Hq]. intros [Heq|?]%elem_of_union; [|done].
    apply elem_of_singleton in Heq. apply Hnin. rewrite <-Heq.
    apply list_elem_of_fmap. eauto.
Qed.

(** A list of distinct slots of the compute unit is no longer than it. *)
Lemma distinct_length ps :
  Forall (inCU arch) ps -> NoDup (placementKey arch <$> ps) ->
  Z.of_nat (length ps) <= simdsPerCU arch * wavesPerSIMD arch.
Proof using Hwf.
  intros Hb Hd. unfold slots_wf in Hwf.
  set (n := Z.to_nat (simdsPerCU arch * wavesPerSIMD arch)).
  assert ((placementKey arch <$> ps) ⊆ (Z.of_nat <$> seq 0 n)) as Hsub.
  { intros k (p & -> & Hp)%list_elem_of_fmap.
    eapply Forall_forall in Hb; [|exact Hp].
    rewrite placementKey_small by done. destruct Hb.
    apply list_elem_of_fmap.
    exists (Z.to_nat (Z.of_nat (simd p) * wavesPerSIMD arch + Z.of_nat (slot p))).
    split; [lia|]. apply elem_of_seq. unfold n. nia. }
  apply NoDup_submseteq in Hsub; [|done].
  apply submseteq_length in Hsub. rewrite !length_fmap, length_seq in Hsub.
  unfold n in Hsub. nia.
Qed.

Lemma NoDup_placementKey ps :
  Forall (inCU arch) ps ->
  NoDup (placementKey arch <$> ps) <-> NoDup ps.
Proof using Hwf.
  intros Hb. split; [apply NoDup_fmap_1|].
  induction Hb as [|p ps Hp Hb IH]; [constructor|csimpl].
  rewrite !NoDup_cons. intros [Hn Hd]. split; [|auto].
  intros (q & Hq & Hin)%list_elem_of_fmap. apply Hn.
  eapply Forall_forall in Hb; [|exact Hin].
  by rewrite (placementKey_inj p q Hp Hb Hq).
Qed.
End Placement.

(** Placements are valid exactly when there is at least one, all lie in the
    compute unit and no two share a slot. *)
Theorem areWavePlacementsValid_iff arch ps (Hwf : slots_wf arch) :
  areWavePlacementsValid arch ps = true
  <-> ps <> [] /\ Forall (inCU arch) ps /\ NoDup ps.
Proof.
  unfold areWavePlacementsValid. destruct ps as [|p ps]; [naive_solver|].
  pose proof Hwf as [Hs Hw]. rewrite u64_small by nia.
  set (l := p :: ps).
  assert (placementsDistinct arch l ∅ = true
          <-> Forall (inCU arch) l /\ NoDup l) as Hiff.
  { rewrite (placementsDistinct_iff arch Hwf). split.
    - intros (H1 & H2 & _). split; [done|].
      by apply (NoDup_placementKey arch Hwf).
    - intros [H1 H2]. split_and!; [done|by apply (NoDup_placementKey arch Hwf)|].
      apply Forall_forall. set_solver. }
  destruct (_ <? _) eqn:Hlt.
  - split; [done|]. intros (_ & Hb & Hd). apply Z.ltb_lt in Hlt.
    apply (NoDup_placementKey arch Hwf) in Hd; [|done].
    pose proof (distinct_length arch Hwf l Hb Hd). lia.
  - rewrite Hiff. naive_solver.
Qed.

Lemma areWavePlacementsValid_iff_witness :
  areWavePlacementsValid kGfx942 [mkWavePlacement 0 0; mkWavePlacement 0 1] = true
  <-> [mkWavePlacement 0 0; mkWavePlacement 0 1] <> []
      /\ Forall (inCU kGfx942) [mkWavePlacement 0 0; mkWavePlacement 0 1]
      /\ NoDup [mkWavePlacement 0 0; mkWavePlacement 0 1].
Proof.
  apply (areWavePlacementsValid_iff kGfx942). unfold slots_wf. simpl. lia.
Defined.

(** The placements of [W] slots on [S] SIMDs. *)
Definition grid (S W : nat) : list WavePlacement :=
  seq 0 S ≫= fun simd => (fun slot => mkWavePlacement simd slot) <$> seq 0 W.

Lemma elem_of_grid S W p :
  p ∈ grid S W <-> (simd p < S)%nat /\ (slot p < W)%nat.
Proof.
  unfold grid. rewrite list_elem_of_bind. split.
  - intros (i & (j & -> & Hj)%list_elem_of_fmap & Hi).
    apply elem_of_seq in Hi, Hj. simpl. lia.
  - intros [Hi Hj]. exists (simd p). split; [|apply elem_of_seq; lia].
    apply list_elem_of_fmap. exists (slot p). split; [by destruct p|].
    apply elem_of_seq. lia.
Qed.

Lemma length_grid S W : length (grid S W) = (S * W)%nat.
Proof.
  unfold grid.
  assert (forall l : list nat, length (l ≫= fun simd =>
            (fun slot => mkWavePlacement simd slot) <$> seq 0 W)
          = (length l * W)%nat) as ->.
  { induction l as [|i l IH]; [done|]. csimpl.
    rewrite length_app, IH, length_fmap, length_seq. lia. }
  by rewrite length_seq.
Qed.

Lemma NoDup_grid S W : NoDup (grid S W).
Proof.
  apply NoDup_bind.
  - intros i j p _ _ (a & -> & _)%list_elem_of_fmap (b & Hb & _)%list_elem_of_fmap.
    by injection Hb.
  - intros i _. apply NoDup_fmap; [|apply NoDup_seq].
    intros a b Hab. by injection Hab.
  - apply NoDup_seq.
Qed.

(** A full compute unit of [n] waves per SIMD places one wave on each of the
    first [n] slots of every SIMD, and its placements are valid. *)
Theorem getFullCUWavePlacements_full arch n (Hwf : slots_wf arch)
    (Hn : 0 < n <= wavesPerSIMD arch) :
  let ps := getFullCUWavePlacements arch n in
  Z.of_nat (length ps) = simdsPerCU arch * n
  /\ NoDup ps
  /\ forall p, p ∈ ps <-> Z.of_nat (simd p) < simdsPerCU arch
                         /\ Z.of_nat (slot p) < n.
Proof.
  unfold getFullCUWavePlacements. destruct Hwf as [Hs Hw].
  rewrite !u32_small by lia.
  replace (n =? 0) with false by (symmetry; apply Z.eqb_neq; lia).
  replace (wavesPerSIMD arch <? n) with false by (symmetry; apply Z.ltb_ge; lia).
  cbn [orb]. rewrite <-(Z2Nat.id (simdsPerCU arch)), <-(Z2Nat.id n) by lia.
  rewrite !Nat2Z.id. fold (grid (Z.to_nat (simdsPerCU arch)) (Z.to_nat n)).
  generalize (Z.to_nat (simdsPerCU arch)), (Z.to_nat n).
  clear. intros S W. split_and!.
  - rewrite length_grid. lia.
  - apply NoDup_grid.
  - intros p. rewrite elem_of_grid. lia.
Qed.

Lemma getFullCUWavePlacements_full_witness :
  NoDup (getFullCUWavePlacements kGfx942 2).
Proof.
  apply (getFullCUWavePlacements_full kGfx942 2); [|simpl; lia].
  unfold slots_wf. simpl. lia.
Defined.

(** ** Selection *)

(** The lexicographic order of [isEarlier]: cycle, SIMD, round-robin rank,
    wave. *)
Lemma isEarlier_spec c d :
  isEarlier c d = true
  <-> cand_cycle c < cand_cycle d
      \/ (cand_cycle c = cand_cycle d
          /\ ((cand_simd c < cand_simd d)%nat
              \/ (cand_simd c = cand_simd d
                  /\ (roundRobinRank c < roundRobinRank d
                      \/ (roundRobinRank c = roundRobinRank d
                          /\ (cand_wave c < cand_wave d)%nat))))).
Proof.
  unfold isEarlier.
  destruct (Z.eqb_spec (cand_cycle c) (cand_cycle d)); simpl;
    [|rewrite Z.ltb_lt; lia].
  destruct (Nat.eqb_spec (cand_simd c) (cand_simd d)); simpl;
    [|rewrite Nat.ltb_lt; lia].
  destruct (Z.eqb_spec (roundRobinRank c) (roundRobinRank d)); simpl;
    [rewrite Nat.ltb_lt|rewrite Z.ltb_lt]; lia.
Qed.

Lemma isEarlier_trans c d e :
  isEarlier c d = true -> isEarlier d e = true -> isEarlier c e = true.
Proof. rewrite !isEarlier_spec. lia. Qed.

Lemma isEarlier_total c d :
  cand_wave c <> cand_wave d -> isEarlier c d = false -> isEarlier d c = true.
Proof.
  intros Hw Hn. rewrite isEarlier_spec.
  destruct (isEarlier c d) eqn:He; [done|].
  assert (~ isEarlier c d = true) as Hnot by (by rewrite He).
  rewrite isEarlier_spec in Hnot. lia.
Qed.

(** The arbitration order is a strict total order on the candidates of
    different waves: no two waves are ever tied, so the choice of the next
    wave does not depend on the order in which candidates are examined. *)
Theorem isEarlier_strict_total :
  (forall c, isEarlier c c = false)
  /\ (forall c d e, isEarlier c d = true -> isEarlier d e = true ->
        isEarlier c e = true)
  /\ (forall c d, isEarlier c d = true -> isEarlier d c = false)
  /\ (forall c d, cand_wave c <> cand_wave d ->
        isEarlier c d = true \/ isEarlier d c = true).
Proof.
  assert (forall c, isEarlier c c = false) as Hirr.
  { intros c. destruct (isEarlier c c) eqn:He; [|done].
    apply isEarlier_spec in He. lia. }
  split_and!; [done|exact isEarlier_trans| |].
  - intros c d Hcd. destruct (isEarlier d c) eqn:Hdc; [|done].
    pose proof (isEarlier_trans _ _ _ Hcd Hdc). by rewrite Hirr in *.
  - intros c d Hw. destruct (isEarlier c d) eqn:He; [by left|right].
    by apply isEarlier_total.
Qed.

Section Select.
Context `{LLVMTarget}.
Context (graph : UseGraph) (arch : ArchData)
  (config : InstructionExecutionConfig).
Context (mw : MultiWaveExecutionState) (candidates : list (option Operation)).

(** [c] is what the loop builds for a wave that has an operation to issue. *)
Definition candidateOf (wave : nat) (c : MultiWaveCandidate) : Prop :=
  exists op, candidates !! wave = Some (Some op)
             /\ makeCandidate graph arch config mw wave op = Ok c.

Lemma candidateOf_wave wave c : candidateOf wave c -> cand_wave c = wave.
Proof.
  intros (op & _ & Hc). unfold makeCandidate in Hc.
  apply outcome_bind_Ok in Hc as (s & _ & Hc).
  apply outcome_bind_Ok in Hc as (p & _ & Hc).
  apply outcome_bind_Ok in Hc as (cy & _ & Hc).
  by apply outcome_bind_Ok in Hc as (r & _ & [= <-]).
Qed.

(** The loop invariant: the best of the waves seen so far. *)
Definition bestOf (seen : list nat) (best : option MultiWaveCandidate) : Prop :=
  match best with
  | None => forall w op, w ∈ seen -> candidates !! w <> Some (Some op)
  | Some b =>
      (exists w, w ∈ seen /\ candidateOf w b)
      /\ forall w op, w ∈ seen -> candidates !! w = Some (Some op) ->
         exists c, candidateOf w c
                   /\ (w = cand_wave b \/ isEarlier b c = true)
  end.

Lemma selectStep_bestOf seen best wave best' :
  wave ∉ seen -> bestOf seen best ->
  selectStep graph arch config mw candidates best wave = Ok best' ->
  bestOf (seen ++ [wave]) best'.
Proof.
  intros Hnew Hbest Hs. unfold selectStep in Hs.
  apply outcome_bind_Ok in Hs as (entry & He & Hs).
  unfold at_index in He.
  destruct (candidates !! wave) as [entry'|] eqn:Hc; [|done].
  injection He as ->.
  destruct entry as [op|].
  2: { injection Hs as <-. unfold bestOf in *. destruct best as [b|].
       - destruct Hbest as [(w & Hw & Hcw) Hall]. split.
         + exists w. rewrite elem_of_app. auto.
         + intros w' op'. rewrite elem_of_app, list_elem_of_singleton.
           intros [Hin| ->]; [eauto|congruence].
       - intros w op. rewrite elem_of_app, list_elem_of_singleton.
         intros [Hin| ->]; [eauto|congruence]. }
  apply outcome_bind_Ok in Hs as (c & Hmk & [= <-]).
  assert (candidateOf wave c) as Hcand by (exists op; auto).
  pose proof (candidateOf_wave _ _ Hcand) as Hcw.
  assert (forall w op', w ∈ seen ++ [wave] -> candidates !! w = Some (Some op') ->
    w ∈ seen \/ (w = wave /\ op' = op)) as Hsplit.
  { intros w op'. rewrite elem_of_app, list_elem_of_singleton.
    intros [Hin| ->] Hop; [by left|right]. split; [done|congruence]. }
  destruct best as [b|]; cbn [bestOf] in *.
  - destruct Hbest as [(wb & Hwb & Hcb) Hall].
    pose proof (candidateOf_wave _ _ Hcb) as Hbw.
    destruct (isEarlier c b) eqn:Hcb'.
    + split; [exists wave; rewrite elem_of_app, list_elem_of_singleton; auto|].
      intros w op' Hw Hop.
      destruct (Hsplit w op' Hw Hop) as [Hin|[-> ->]].
      * destruct (Hall w op' Hin Hop) as (c' & Hc' & [->|He]).
        -- exists b. split; [by rewrite Hbw|by right].
        -- exists c'. split; [done|right]. by eapply isEarlier_trans.
      * exists c. auto.
    + split; [exists wb; rewrite elem_of_app; auto|].
      intros w op' Hw Hop.
      destruct (Hsplit w op' Hw Hop) as [Hin|[-> ->]];
        [eauto|].
      exists c. split; [done|right]. apply isEarlier_total; [|done].
      rewrite Hcw, Hbw. by intros ->.
  - split; [exists wave; rewrite elem_of_app, list_elem_of_singleton; auto|].
    intros w op' Hw Hop.
    destruct (Hsplit w op' Hw Hop) as [Hin|[-> ->]].
    + by destruct (Hbest w op' Hin).
    + exists c. auto.
Qed.

Lemma selectFold_bestOf l : forall seen best best',
  NoDup (seen ++ l) -> bestOf seen best ->
  foldM (selectStep graph arch config mw candidates) best l = Ok best' ->
  bestOf (seen ++ l) best'.
Proof.
  induction l as [|wave l IH]; intros seen best best' Hd Hb Hf.
  { injection Hf as <-. by rewrite app_nil_r. }
  cbn [foldM] in Hf. apply outcome_bind_Ok in Hf as (b1 & Hs & Hf).
  rewrite cons_middle, app_assoc in Hd |- *.
  eapply IH; [exact Hd| |exact Hf].
  eapply selectStep_bestOf; [|exact Hb|exact Hs].
  apply NoDup_app in Hd as [Hd _]. apply NoDup_app in Hd as (_ & Hd & _).
  intros Hin. apply (Hd _ Hin). by apply list_elem_of_singleton.
Qed.

Lemma selectWave_best wave :
  selectWave graph arch config mw candidates = Ok wave ->
  (wave < getWaveCount mw)%nat
  /\ exists b, candidateOf wave b
     /\ forall w op, (w < getWaveCount mw)%nat ->
        candidates !! w = Some (Some op) ->
        exists c, candidateOf w c /\ (w = wave \/ isEarlier b c = true).
Proof.
  unfold selectWave. intros Hs.
  do 2 apply outcome_bind_Ok in Hs as (? & _ & Hs).
  apply outcome_bind_Ok in Hs as (best & Hf & Hs).
  apply (selectFold_bestOf _ []) in Hf; [|apply NoDup_seq|].
  2: { intros w op Hw. by apply elem_of_nil in Hw. }
  destruct best as [b|]; [|done]. injection Hs as <-.
  destruct Hf as [(w & Hw & Hcw) Hall]. simpl in *.
  rewrite (candidateOf_wave _ _ Hcw). apply elem_of_seq in Hw.
  split; [lia|]. exists b. split; [done|].
  intros w' op Hw' Hop. destruct (Hall w' op) as (c & Hc & Hor);
    [apply elem_of_seq; lia|done|].
  exists c. split; [done|].
  destruct Hor as [->|]; [left|by right]. by apply candidateOf_wave in Hcw.
Qed.

(** [selectWave] returns a wave that has an operation to issue, and no other
    wave with an operation comes before it: its operation can issue at the
    earliest cycle, ties broken by SIMD, round-robin rank and wave number. *)
Theorem selectWave_earliest wave
    (Hsel : selectWave graph arch config mw candidates = Ok wave) :
  (wave < getWaveCount mw)%nat
  /\ exists b, candidateOf wave b
     /\ forall w op, (w < getWaveCount mw)%nat ->
        candidates !! w = Some (Some op) ->
        exists c, candidateOf w c /\ (w = wave \/ isEarlier b c = true).
Proof. by apply selectWave_best. Qed.
End Select.

(** Two waves of a gfx942 compute unit, on one SIMD. *)
Definition twoWaves : MultiWaveExecutionState :=
  match makeMultiWave kGfx942 sampleConfig
          [mkWavePlacement 0 0; mkWavePlacement 0 1] with
  | Ok mw => mw
  | _ => mkMultiWave [] [] [] (mkResourceState [] [] [] 0 0)
  end.

Lemma selectWave_earliest_witness : exists b,
  candidateOf [] kGfx942 sampleConfig twoWaves [Some loadOp; Some fmaOp] 0 b.
Proof.
  destruct (selectWave_earliest [] kGfx942 sampleConfig twoWaves
              [Some loadOp; Some fmaOp] 0) as (_ & b & Hb & _);
    [vm_compute; reflexivity|by exists b].
Defined.

(** ** Round robin *)

Section RoundRobin.
Context `{LLVMTarget}.
Context (graph : UseGraph) (arch : ArchData)
  (config : InstructionExecutionConfig).

(** What [commitWave] does to the state around the wave. *)
Lemma commitWave_inv mw wave op r mw' :
  commitWave graph arch config mw wave op = Ok (r, mw') ->
  exists st placement r0 st' shared cls,
    waves mw !! wave = Some st /\ placements mw !! wave = Some placement
    /\ commitWithResources graph arch config st op (Some (resources mw))
         placement = Ok (r0, st', shared)
    /\ r = withPriorityStalls r0
    /\ classifyOp op = Ok cls
    /\ placements mw' = placements mw
    /\ waves mw' = <[wave := st']> (waves mw)
    /\ roundRobinCursor mw' =
        if decide (cls = SchedClass.NoInst) then roundRobinCursor mw
        else <[simd placement :=
                 u32 (Z.of_nat (slot placement) + 1) mod wavesPerSIMD arch]>
               (roundRobinCursor mw).
Proof.
  unfold commitWave. destruct (waves mw !! wave) as [st|]; [|done]. intros Hc.
  apply outcome_bind_Ok in Hc as (placement & Hp & Hc).
  apply outcome_bind_Ok in Hc as ([[r0 st'] shared] & Hco & Hc).
  apply outcome_bind_Ok in Hc as (cls & Hcls & [= <- <-]).
  unfold getPlacement, at_index in Hp.
  destruct (placements mw !! wave) as [p|]; [|done]. injection Hp as ->.
  by exists st, placement, r0, st', shared, cls.
Qed.

(** After an instruction of a wave, the waves of its SIMD rank by their
    distance to the slot behind it: the next slot is served first, the wave
    that issued last; the ranks on the other SIMDs, and every rank after an
    operation that emits no instruction, are unchanged. *)
Theorem commitWave_rotates mw wave op cls r mw' p other q
    (Hwf : slots_wf arch) (Hop : classifyOp op = Ok cls)
    (Hcursor : length (roundRobinCursor mw) = Z.to_nat (simdsPerCU arch))
    (Hc : commitWave graph arch config mw wave op = Ok (r, mw'))
    (Hp : placements mw !! wave = Some p) (Hpin : inCU arch p)
    (Hq : placements mw !! other = Some q) (Hqin : inCU arch q) :
  getRoundRobinRank arch mw' other
  = if bool_decide (cls = SchedClass.NoInst)
       || negb (simd q =? simd p)%nat
    then getRoundRobinRank arch mw other
    else Ok ((Z.of_nat (slot q) - Z.of_nat (slot p) - 1)
             mod wavesPerSIMD arch).
Proof.
  apply commitWave_inv in Hc as (st & p' & r0 & st' & sh & cls' & _ & Hp' & _ & _
                                 & Hcls & Hpl & _ & Hcur).
  rewrite Hp in Hp'. injection Hp' as <-.
  rewrite Hop in Hcls. injection Hcls as <-.
  unfold getRoundRobinRank, getPlacement, at_index. rewrite Hpl, Hcur, Hq.
  destruct Hwf as [Hs Hw], Hpin as [P1 P2], Hqin as [Q1 Q2]. simpl.
  case_decide as Hn; [subst cls; by rewrite bool_decide_true|].
  rewrite bool_decide_false by congruence. simpl.
  destruct (Nat.eqb_spec (simd q) (simd p)) as [Heq|Hne]; simpl.
  - rewrite Heq, list_lookup_insert_eq by lia. simpl.
    rewrite (u32_small (_ + 1)) by lia.
    pose proof (Z.mod_pos_bound (Z.of_nat (slot p) + 1) (wavesPerSIMD arch)
                  ltac:(lia)).
    rewrite u32_small by lia. f_equal.
    rewrite Zminus_mod_idemp_r.
    replace (Z.of_nat (slot q) + wavesPerSIMD arch - (Z.of_nat (slot p) + 1))
      with (Z.of_nat (slot q) - Z.of_nat (slot p) - 1 + 1 * wavesPerSIMD arch)
      by lia.
    by rewrite Z.mod_add by lia.
  - by rewrite list_lookup_insert_ne by done.
Qed.
End RoundRobin.

Lemma commitWave_rotates_witness : exists mw' r,
  commitWave [] kGfx942 sampleConfig twoWaves 0 fmaOp = Ok (r, mw')
  /\ getRoundRobinRank kGfx942 mw' 1 = Ok 0.
Proof.
  destruct (commitWave [] kGfx942 sampleConfig twoWaves 0 fmaOp)
    as [[r mw']| |] eqn:Hc; [|vm_compute in Hc; discriminate..].
  exists mw', r. split; [done|].
  rewrite (commitWave_rotates [] kGfx942 sampleConfig twoWaves 0 fmaOp
             SchedClass.WriteFloatFMA r mw'
             (mkWavePlacement 0 0) 1 (mkWavePlacement 0 1));
    [vm_compute; reflexivity|unfold slots_wf; simpl; lia|vm_compute; reflexivity
    |vm_compute; reflexivity|exact Hc|vm_compute; reflexivity|unfold inCU; simpl; lia
    |vm_compute; reflexivity|unfold inCU; simpl; lia].
Defined.

(** ** Cohorts

    Committing an operation on a cohort commits it exactly once on each of its
    waves, in the order of arbitration, and the loop always ends. *)

(** The waves that still have the operation to issue. *)
Definition hasOp (candidates : list (option Operation)) (wave : nat) : bool :=
  match candidates !! wave with Some (Some _) => true | _ => false end.

Definition pendingWaves (candidates : list (option Operation)) : list nat :=
  base.filter (fun w => hasOp candidates w = true) (seq 0 (length candidates)).

Lemma elem_of_pendingWaves candidates w :
  w ∈ pendingWaves candidates <-> exists op, candidates !! w = Some (Some op).
Proof.
  unfold pendingWaves. rewrite list_elem_of_filter, elem_of_seq. unfold hasOp.
  split.
  - intros [Hop _]. destruct (candidates !! w) as [[op|]|]; [eauto|done|done].
  - intros [op Hop]. rewrite Hop. apply lookup_lt_Some in Hop.
    split; [done|lia].
Qed.

Lemma NoDup_pendingWaves candidates : NoDup (pendingWaves candidates).
Proof. apply NoDup_filter, NoDup_seq. Qed.

Lemma pendingWaves_clear candidates w op :
  candidates !! w = Some (Some op) ->
  pendingWaves candidates ≡ₚ w :: pendingWaves (<[w := None]> candidates).
Proof.
  intros Hw. pose proof (lookup_lt_Some _ _ _ Hw) as Hlt.
  apply NoDup_Permutation.
  - apply NoDup_pendingWaves.
  - constructor; [|apply NoDup_pendingWaves].
    rewrite elem_of_pendingWaves. intros [op' Hop].
    by rewrite list_lookup_insert_eq in Hop by done.
  - intros i. rewrite elem_of_cons, !elem_of_pendingWaves.
    destruct (decide (i = w)) as [->|Hne]; [naive_solver|].
    rewrite list_lookup_insert_ne by done. naive_solver.
Qed.

Lemma pendingWaves_none candidates :
  negb (existsb (fun c : option Operation => bool_decide (is_Some c)) candidates)
  = true <-> pendingWaves candidates = [].
Proof.
  rewrite negb_true_iff. split.
  - intros He. destruct (pendingWaves candidates) as [|w l] eqn:Hp; [done|].
    assert (w ∈ pendingWaves candidates) as Hw by (rewrite Hp; by constructor).
    apply elem_of_pendingWaves in Hw as [op Hop].
    apply list_elem_of_lookup_2 in Hop.
    assert (existsb (fun c : option Operation => bool_decide (is_Some c))
              candidates = true) as Ht; [|congruence].
    apply List.existsb_exists. exists (Some op).
    split; [by apply list_elem_of_In|]. by apply bool_decide_eq_true.
  - intros Hp. apply not_true_iff_false. intros Ht.
    apply List.existsb_exists in Ht as (c & Hin & Hc).
    apply bool_decide_eq_true in Hc as [op ->].
    apply list_elem_of_In, list_elem_of_lookup in Hin as [w Hw].
    assert (w ∈ pendingWaves candidates) as Hpw
      by (apply elem_of_pendingWaves; eauto).
    rewrite Hp in Hpw. by apply elem_of_nil in Hpw.
Qed.

Section Cohort.
Context `{LLVMTarget}.
Context (graph : UseGraph) (arch : ArchData)
  (config : InstructionExecutionConfig).

(** The operation committed on the waves of [order], one after the other, each
    the choice of the arbitration among those left. *)
Inductive commitsInOrder (op : Operation) :
    MultiWaveExecutionState -> list (option Operation) -> list nat ->
    MultiWaveExecutionState -> Prop :=
  | commits_done mw candidates :
      pendingWaves candidates = [] -> commitsInOrder op mw candidates [] mw
  | commits_wave mw candidates wave order result mw1 mw' :
      selectWave graph arch config mw candidates = Ok wave ->
      commitWave graph arch config mw wave op = Ok (result, mw1) ->
      commitsInOrder op mw1 (<[wave := None]> candidates) order mw' ->
      commitsInOrder op mw candidates (wave :: order) mw'.

Lemma selectWave_pending mw candidates wave :
  selectWave graph arch config mw candidates = Ok wave ->
  exists op, candidates !! wave = Some (Some op).
Proof.
  intros Hs. apply selectWave_best in Hs as (_ & b & (op & Hop & _) & _).
  by exists op.
Qed.

Lemma commitCohort_order op fuel : forall mw candidates first r mw',
  commitCohort graph arch config fuel op mw candidates first = Ok (r, mw') ->
  exists order, commitsInOrder op mw candidates order mw'
                /\ order ≡ₚ pendingWaves candidates.
Proof.
  induction fuel as [|fuel IH]; intros mw candidates first r mw' Hc;
    cbn [commitCohort] in Hc; destruct (negb _) eqn:Hn; try done.
  1, 2: injection Hc as <- <-; apply pendingWaves_none in Hn;
        exists []; split; [by constructor|by rewrite Hn].
  apply outcome_bind_Ok in Hc as (wave & Hs & Hc).
  apply outcome_bind_Ok in Hc as (stall & _ & Hc).
  apply outcome_bind_Ok in Hc as ([res mw1] & Hw & Hc).
  apply IH in Hc as (order & Hord & Hperm).
  destruct (selectWave_pending _ _ _ Hs) as [op' Hop].
  exists (wave :: order). split; [by econstructor|].
  by rewrite Hperm, <-(pendingWaves_clear _ _ _ Hop).
Qed.

(** More fuel than there are waves left changes nothing. *)
Lemma commitCohort_fuel op n : forall fuel mw candidates first,
  (length (pendingWaves candidates) <= fuel)%nat ->
  commitCohort graph arch config (fuel + n) op mw candidates first
  = commitCohort graph arch config fuel op mw candidates first.
Proof.
  induction fuel as [|fuel IH]; intros mw candidates first Hf.
  - assert (pendingWaves candidates = []) as Hp
      by (destruct (pendingWaves candidates); [done|simpl in Hf; lia]).
    apply pendingWaves_none in Hp. destruct n; cbn [commitCohort Nat.add];
      by rewrite Hp.
  - cbn [commitCohort Nat.add]. destruct (negb _); [done|].
    destruct (selectWave graph arch config mw candidates) as [wave| |] eqn:Hs;
      [|done|done]. cbn [mbind outcome_bind].
    destruct (queryAfterIssueOpportunity _ _ _ _ _ _); [|done|done].
    cbn [mbind outcome_bind].
    destruct (commitWave graph arch config mw wave op) as [[res mw1]| |];
      [|done|done]. cbn [mbind outcome_bind].
    apply IH. destruct (selectWave_pending _ _ _ Hs) as [op' Hop].
    rewrite (pendingWaves_clear _ _ _ Hop) in Hf. simpl in Hf. lia.
Qed.

(** The candidates of a valid cohort are its waves. *)
Lemma cohortCandidates_lookup cohort op :
  forall w, hasOp (cohortCandidates cohort op) w
  = bool_decide (w ∈ cohort_waves cohort /\ (w < getWaveCount (cohort_state cohort))%nat).
Proof.
  intros w. unfold cohortCandidates.
  set (n := getWaveCount (cohort_state cohort)).
  assert (forall ws l, length l = n ->
    hasOp (fold_left (fun c wave => <[wave := Some op]> c) ws l) w
    = bool_decide (w ∈ ws /\ (w < n)%nat) || hasOp l w) as Hfold.
  { induction ws as [|v ws IH]; intros l Hl; cbn [fold_left].
    { rewrite bool_decide_false; [done|]. intros [Hin _].
      by apply elem_of_nil in Hin. }
    rewrite IH by (by rewrite length_insert). unfold hasOp at 1.
    destruct (decide (v = w)) as [->|Hne].
    - destruct (decide (w < n)%nat).
      + rewrite list_lookup_insert_eq by lia. rewrite orb_true_r.
        rewrite (bool_decide_true (w ∈ w :: ws /\ _)); [done|].
        split; [by constructor|done].
      + rewrite list_insert_ge by lia. fold (hasOp l w).
        rewrite !bool_decide_false by tauto. done.
    - rewrite list_lookup_insert_ne by done. fold (hasOp l w). f_equal.
      apply bool_decide_ext. rewrite elem_of_cons. naive_solver. }
  rewrite Hfold by apply length_replicate. unfold hasOp.
  destruct (replicate n None !! w) as [o|] eqn:Hr; [|by rewrite orb_false_r].
  apply lookup_replicate in Hr as [-> _]. by rewrite orb_false_r.
Qed.

Lemma cohortCandidates_pending cohort op :
  areCohortWavesValid (cohort_state cohort) (cohort_waves cohort) = true ->
  pendingWaves (cohortCandidates cohort op) ≡ₚ cohort_waves cohort.
Proof.
  unfold areCohortWavesValid. rewrite !andb_true_iff.
  intros [[_ Hb] Hd%bool_decide_eq_true].
  apply NoDup_Permutation; [apply NoDup_pendingWaves|done|].
  intros w. rewrite elem_of_pendingWaves.
  pose proof (cohortCandidates_lookup cohort op w) as Hl. unfold hasOp in Hl.
  split.
  - intros [op' Hop]. rewrite Hop in Hl. symmetry in Hl.
    by apply bool_decide_eq_true in Hl as [? _].
  - intros Hin. pose proof Hin as Hlt. apply list_elem_of_In in Hlt.
    apply (proj1 (List.forallb_forall _ _) Hb) in Hlt. apply Nat.ltb_lt in Hlt.
    rewrite bool_decide_true in Hl by done.
    destruct (_ !! w) as [[op'|]|]; [eauto|done|done].
Qed.

(** Committing an operation on a cohort commits it exactly once on each of
    its waves: there is an order of the waves of the cohort, each the choice of
    [selectWave] among those left, in which the commits lead to the new
    state. *)
Theorem cohort_commits_each_wave cohort op r cohort'
    (Hvalid : areCohortWavesValid (cohort_state cohort) (cohort_waves cohort)
              = true)
    (Hc : cohortCommit graph arch config cohort op = Ok (r, cohort')) :
  exists order, order ≡ₚ cohort_waves cohort
    /\ commitsInOrder op (cohort_state cohort) (cohortCandidates cohort op) order
         (cohort_state cohort')
    /\ cohort_waves cohort' = cohort_waves cohort.
Proof.
  unfold cohortCommit in Hc.
  apply outcome_bind_Ok in Hc as ([first mw'] & Hl & Hc).
  apply commitCohort_order in Hl as (order & Hord & Hperm).
  destruct first as [result|]; [|done]. injection Hc as <- <-.
  exists order. split_and!; [|done|done].
  by rewrite Hperm, cohortCandidates_pending.
Qed.

(** The commit loop of a cohort ends: the number of candidates is enough
    fuel, more makes no difference. *)
Theorem cohort_commit_terminates cohort op n :
  let candidates := cohortCandidates cohort op in
  commitCohort graph arch config (length candidates + n) op (cohort_state cohort)
    candidates None
  = commitCohort graph arch config (length candidates) op (cohort_state cohort)
    candidates None.
Proof.
  intros candidates. apply commitCohort_fuel. unfold pendingWaves.
  etransitivity; [apply length_filter|]. by rewrite length_seq.
Qed.
End Cohort.

Lemma cohort_commits_each_wave_witness : exists order, order ≡ₚ [1; 0]%nat.
Proof.
  destruct (cohortCommit [] kGfx942 sampleConfig (mkCohort [1; 0]%nat twoWaves)
              fmaOp) as [[r c']| |] eqn:Hc; [|vm_compute in Hc; discriminate..].
  destruct (cohort_commits_each_wave [] kGfx942 sampleConfig
    (mkCohort [1; 0]%nat twoWaves) fmaOp r c') as (order & Ho & _);
    [vm_compute; reflexivity|exact Hc|by exists order].
Defined.
