(* ===== verification/EventSpec.v ===== *)
(** * The event simulator

    A multi-wave run issues every operation of the program exactly once on
    every wave; recording a timeline does not change the timing of a
    single-wave run; a conditional costs its dearer branch; the recorded
    events are sorted. *)

From stdpp Require Import base tactics list gmap sorting strings.
From S2P Require Import Prelude CostEnums ArchData MachineIR LatencyTable.
From S2P Require Import OpClassifier MemoryTiming ScheduleModel.
From S2P Require Import ResourceState ExecState ExecOps MultiWave EventSim.
From S2P Require Import Examples ExecLemmas MultiWaveSpec.

(** ** Every wave runs the whole program *)

Section Program.
Context `{LLVMTarget}.
Context (graph : UseGraph) (arch : ArchData) (config : EventSimConfig).

(** An operation that emits a hardware instruction. *)
Definition isReal (op : Operation) : bool :=
  match classifyOp op with
  | Ok cls => bool_decide (cls <> SchedClass.NoInst)
  | _ => false
  end.

Definition realCount (ops : list Operation) : Z :=
  sum_list_Z ((fun op => if isReal op then 1 else 0) <$> ops).

(** The issues among recorded events: wave, operation and cycle. *)
Definition issueEvents (events : list EventSimEvent) : list (nat * N * Z) :=
  (fun e => (ev_wave e, ev_op e, ev_cycle e))
    <$> base.filter (fun e => ev_kind e = EventSimEventKind.OpIssued) events.

(** Bookkeeping after a commit: what was issued stands, readiness grows. *)
Record sameProgress (mt mt' : MultiWaveTimeline) : Prop := {
  sp_pc : pc mt' = pc mt;
  sp_placements : mt_placements mt' = mt_placements mt;
  sp_state : mt_state mt' = mt_state mt;
  sp_issued : issuedOps (mt_out mt') = issuedOps (mt_out mt);
  sp_events : issueEvents (sim_events (mt_out mt'))
              = issueEvents (sim_events (mt_out mt));
  sp_ready w l : mt_lastReady mt !! w = Some l ->
    exists l', mt_lastReady mt' !! w = Some l' /\ l <= l'
}.
#[local] Instance sameProgress_preorder : PreOrder sameProgress.
Proof.
  split; [split; eauto using Z.le_refl|].
  intros mt1 mt2 mt3 [] []. split; try congruence.
  intros w l Hl. destruct (sp_ready0 _ _ Hl) as (l1 & H1 & ?).
  destruct (sp_ready1 _ _ H1) as (l2 & H2 & ?). exists l2. split; [done|lia].
Qed.

Lemma mt_record_progress e mt :
  ev_kind e <> EventSimEventKind.OpIssued ->
  sameProgress mt (mt_record config e mt).
Proof.
  intros He. unfold mt_record. destruct (negb _); [done|].
  split; simpl; eauto using Z.le_refl.
  unfold issueEvents. rewrite filter_app, filter_cons_False, filter_nil by done.
  by rewrite app_nil_r.
Qed.

Lemma alter_max_ready (l : list Z) wave r w x :
  l !! w = Some x ->
  exists y, alter (fun z => Z.max z r) wave l !! w = Some y
  /\ x <= y /\ (w = wave -> r <= y).
Proof.
  intros Hx. destruct (decide (w = wave)) as [-> |Hne].
  - exists (Z.max x r). rewrite list_lookup_alter_eq, Hx. split; [done|lia].
  - exists x. rewrite list_lookup_alter_ne by done. split_and!; [done|lia|done].
Qed.

Lemma mt_raise_progress wave r mt :
  sameProgress mt (mt_raiseLastReady wave r mt)
  /\ sameProgress mt (mt_raiseLastCounterReady wave r mt).
Proof.
  split; split; simpl; eauto using Z.le_refl.
  intros w l Hl. destruct (alter_max_ready _ wave r _ _ Hl) as (y & Hy & ? & _).
  eauto.
Qed.

Lemma mt_recordMemoryCounters_progress wave op fu r mt mt' :
  mt_recordMemoryCounters arch config wave op fu r mt = Ok mt' ->
  sameProgress mt mt'.
Proof.
  unfold mt_recordMemoryCounters. intros Hm.
  apply outcome_bind_Ok in Hm as (k & _ & Hm).
  case_decide; [by injection Hm as <-|].
  apply outcome_bind_Ok in Hm as (l & _ & Hm).
  apply outcome_bind_Ok in Hm as (p & _ & [= <-]).
  apply (fold_left_preorder sameProgress). intros mt0 i.
  etransitivity; [|by apply mt_record_progress]. apply mt_raise_progress.
Qed.

(** The wave is complete no sooner than [ready]. *)
Definition readyBy (mt : MultiWaveTimeline) (wave : nat) (ready : Z) : Prop :=
  exists l, mt_lastReady mt !! wave = Some l /\ ready <= l.

Lemma readyBy_mono mt mt' wave ready :
  sameProgress mt mt' -> readyBy mt wave ready -> readyBy mt' wave ready.
Proof.
  intros Hs (l & Hl & ?). destruct (sp_ready _ _ Hs _ _ Hl) as (l' & ? & ?).
  exists l'. split; [done|lia].
Qed.

(** When the effects of a committed operation are complete. *)
Definition resultCycles (op : Operation) (r : InstructionCommitResult) :
    list Z :=
  match op_results op with
  | [] => [valueReadyCycle r]
  | results =>
      (fun value => if isMemToken value then result_tokenReadyCycle r
                    else valueReadyCycle r) <$> results
  end.

(** The loop over the results records each of them. *)
Lemma results_ready wave (ready : Value -> Z) (event : Value -> EventSimEvent)
    values : forall mt l,
  (forall v, ev_kind (event v) <> EventSimEventKind.OpIssued) ->
  mt_lastReady mt !! wave = Some l ->
  let mt' := fold_left (fun mt value =>
    mt_record config (event value) (mt_raiseLastReady wave (ready value) mt))
    values mt in
  sameProgress mt mt' /\ Forall (readyBy mt' wave) (ready <$> values).
Proof.
  induction values as [|v values IH]; intros mt l He Hl; simpl; [done|].
  set (mt1 := mt_record config _ _).
  assert (sameProgress (mt_raiseLastReady wave (ready v) mt) mt1) as Hr
    by by apply mt_record_progress.
  assert (sameProgress mt mt1) as H1
    by (etransitivity; [|exact Hr]; apply mt_raise_progress).
  destruct (alter_max_ready _ wave (ready v) _ _ Hl) as (y & Hy & _ & Hv).
  assert (readyBy mt1 wave (ready v)) as Hv1.
  { apply (readyBy_mono _ _ _ _ Hr). exists y. auto. }
  destruct (sp_ready _ _ H1 _ _ Hl) as (l1 & Hl1 & _).
  destruct (IH mt1 l1 He Hl1) as [H2 Hf].
  split; [by etransitivity|]. constructor; [|done].
  by apply (readyBy_mono _ _ _ _ H2).
Qed.

(** A commit of the schedule: the wave, the operation and what it gave. *)
Record Commit : Set := mkCommit {
  cm_wave : nat;
  cm_op : Operation;
  cm_result : InstructionCommitResult
}.

(** The events of the issues a commit counts. *)
Definition issuesOf (c : Commit) : list (nat * N * Z) :=
  if isReal (cm_op c)
  then [(cm_wave c, op_id (cm_op c), issueCycle (cm_result c))] else [].

Lemma mt_commitWave_inv ops wave mt mt' :
  (length (pc mt) <= length (mt_lastReady mt))%nat ->
  mt_commitWave graph arch config ops wave mt = Ok mt' ->
  exists k op r, pc mt !! wave = Some k /\ ops !! k = Some op
  /\ commitWave graph arch (stateConfig arch config) (mt_state mt) wave op
     = Ok (r, mt_state mt')
  /\ pc mt' = alter S wave (pc mt)
  /\ mt_placements mt' = mt_placements mt
  /\ issuedOps (mt_out mt')
     = issuedOps (mt_out mt) + (if isReal op then 1 else 0)
  /\ (recordTimeline config = true ->
      issueEvents (sim_events (mt_out mt'))
      = issueEvents (sim_events (mt_out mt)) ++ issuesOf (mkCommit wave op r))
  /\ Forall (readyBy mt' wave) (resultCycles op r)
  /\ (forall w x, readyBy mt w x -> readyBy mt' w x).
Proof.
  intros Hlen. unfold mt_commitWave. intros Hm.
  apply outcome_bind_Ok in Hm as (k & Hk & Hm).
  apply outcome_bind_Ok in Hm as (op & Hop & Hm).
  apply outcome_bind_Ok in Hm as ([r st] & Hc & Hm).
  apply outcome_bind_Ok in Hm as (cls & Hcls & Hm).
  apply outcome_bind_Ok in Hm as (fu & _ & Hm).
  apply outcome_bind_Ok in Hm as (p & _ & Hm).
  apply outcome_bind_Ok in Hm as (mt5 & Hcnt & [= <-]).
  apply at_index_Ok in Hk, Hop.
  apply mt_recordMemoryCounters_progress in Hcnt.
  set (mt0 := mkMultiTimeline (mt_placements mt) st _ _ _ _) in Hcnt.
  set (mt1 := if bool_decide (cls <> SchedClass.NoInst)
              then mt_record config _ _ else _) in Hcnt.
  set (mt2 := if isWaitcntOp op then _ else mt1) in Hcnt.
  set (mt3 := fold_left _ (op_results op) mt2) in Hcnt.
  assert (sameProgress mt1 mt2) as H2.
  { unfold mt2. destruct (isWaitcntOp op); [by apply mt_record_progress|done]. }
  assert (mt_lastReady mt1 = mt_lastReady mt /\ pc mt1 = pc mt
          /\ mt_placements mt1 = mt_placements mt /\ mt_state mt1 = st
          /\ issuedOps (mt_out mt1)
             = issuedOps (mt_out mt) + (if isReal op then 1 else 0)
          /\ (recordTimeline config = true ->
              issueEvents (sim_events (mt_out mt1))
              = issueEvents (sim_events (mt_out mt))
                ++ issuesOf (mkCommit wave op r)))
    as (R1 & P1 & L1 & S1 & I1 & E1).
  { unfold mt1, issuesOf, isReal. cbn [cm_op]. rewrite Hcls.
    destruct (bool_decide _).
    - unfold mt_record, mt_countIssued.
      destruct (recordTimeline config); simpl; split_and!; try done.
      intros _. unfold issueEvents.
      by rewrite filter_app, filter_cons_True, filter_nil, fmap_app by done.
    - simpl. split_and!; [done..|lia|]. by rewrite app_nil_r. }
  destruct (lookup_lt_is_Some_2 (mt_lastReady mt) wave) as [l Hl].
  { apply lookup_lt_Some in Hk. lia. }
  assert (mt_lastReady mt1 !! wave = Some l) as Hl1 by congruence.
  destruct (sp_ready _ _ H2 _ _ Hl1) as (l2 & Hl2 & _).
  destruct (results_ready wave
    (fun value => if isMemToken value then result_tokenReadyCycle r
                  else valueReadyCycle r)
    (fun value => mkSimEvent (if isMemToken value then result_tokenReadyCycle r
                              else valueReadyCycle r)
       EventSimEventKind.ValueReady (op_id op) fu MemoryCounterKind.None wave
       (simd p)) (op_results op) mt2 l2 ltac:(done) Hl2) as [H3 F3].
  fold mt3 in H3, F3.
  set (mt4 := match op_results op with [] => _ | _ => mt3 end) in Hcnt.
  assert (sameProgress mt3 mt4 /\ Forall (readyBy mt4 wave) (resultCycles op r))
    as [H4 F4].
  { unfold mt4, resultCycles in *. destruct (op_results op); [|done].
    split; [apply mt_raise_progress|]. constructor; [|done].
    destruct (sp_ready _ _ H3 _ _ Hl2) as (l3 & Hl3 & _).
    destruct (alter_max_ready _ wave (valueReadyCycle r) _ _ Hl3)
      as (y & Hy & _ & Hv). exists y. auto. }
  assert (sameProgress mt1 mt5) as [P5 L5 S5 I5 E5 R5].
  { etransitivity; [exact H2|]. etransitivity; [exact H3|].
    by etransitivity. }
  exists k, op, r. split_and!; simpl; try congruence.
  - intros He. rewrite E5. by apply E1.
  - eapply Forall_impl; [exact F4|]. intros x Hx.
    by apply (readyBy_mono _ _ _ _ Hcnt) in Hx.
  - intros w x (y & Hy & ?). rewrite <-R1 in Hy.
    destruct (R5 _ _ Hy) as (z & ? & ?). exists z. split; [done|lia].
Qed.

(** ** The loop *)

Definition stepsOf (mt : MultiWaveTimeline) : nat := foldr Nat.add 0%nat (pc mt).

(** The execution state after a schedule of commits. *)
Inductive schedule : MultiWaveExecutionState -> list Commit ->
    MultiWaveExecutionState -> Prop :=
  | schedule_nil mw : schedule mw [] mw
  | schedule_snoc mw cs mw1 wave op r mw2 :
      schedule mw cs mw1 ->
      commitWave graph arch (stateConfig arch config) mw1 wave op
        = Ok (r, mw2) ->
      schedule mw (cs ++ [mkCommit wave op r]) mw2.

(** The operations that a schedule issues on a wave, in order. *)
Definition issuedOn (wave : nat) (cs : list Commit) : list Operation :=
  cm_op <$> base.filter (fun c => cm_wave c = wave) cs.

Lemma issuedOn_snoc wave cs w op r :
  issuedOn wave (cs ++ [mkCommit w op r])
  = issuedOn wave cs ++ (if decide (w = wave) then [op] else []).
Proof.
  unfold issuedOn. rewrite filter_app, fmap_app. f_equal.
  case_decide; [by rewrite filter_cons_True|by rewrite filter_cons_False].
Qed.

(** After some steps: one program counter per wave, within the program; each
    wave has issued the operations up to its counter; as many instructions
    are counted as the waves have passed; the recorded issues are those of the
    schedule, whose results the waves wait for. *)
Record progress (ops : list Operation) (mw : MultiWaveExecutionState)
    (cs : list Commit) (mt : MultiWaveTimeline) : Prop := {
  pr_length : length (pc mt) = length (mt_placements mt);
  pr_lastReady : (length (pc mt) <= length (mt_lastReady mt))%nat;
  pr_bound : Forall (fun k => (k <= length ops)%nat) (pc mt);
  pr_issued : issuedOps (mt_out mt)
    = sum_list_Z ((fun k => realCount (take k ops)) <$> pc mt);
  pr_schedule : schedule mw cs (mt_state mt);
  pr_waves : Forall (fun c => (cm_wave c < length (pc mt))%nat) cs;
  pr_issuedOn wave k : pc mt !! wave = Some k ->
    issuedOn wave cs = take k ops;
  pr_events : recordTimeline config = true ->
    issueEvents (sim_events (mt_out mt)) = cs ≫= issuesOf;
  pr_ready : Forall (fun c => Forall (readyBy mt (cm_wave c))
                                (resultCycles (cm_op c) (cm_result c))) cs
}.

Lemma foldr_add_alter_S (l : list nat) i k :
  l !! i = Some k -> foldr Nat.add 0%nat (alter S i l) = S (foldr Nat.add 0%nat l).
Proof.
  revert i. induction l as [|x l IH]; intros [|i] Hi; simpl in *; try done.
  transitivity (x + S (foldr Nat.add 0 l))%nat; [|lia].
  apply (f_equal (Nat.add x)), (IH _ Hi).
Qed.

Lemma realCount_take_S ops k op :
  ops !! k = Some op ->
  realCount (take (S k) ops)
  = realCount (take k ops) + (if isReal op then 1 else 0).
Proof.
  intros Hk. rewrite (take_S_r _ _ _ Hk). unfold realCount.
  rewrite fmap_app, sum_list_Z_app. simpl. lia.
Qed.

Lemma sum_realCount_alter ops (l : list nat) i k op :
  l !! i = Some k -> ops !! k = Some op ->
  sum_list_Z ((fun k => realCount (take k ops)) <$> alter S i l)
  = sum_list_Z ((fun k => realCount (take k ops)) <$> l)
    + (if isReal op then 1 else 0).
Proof.
  intros Hi Hop. revert i Hi. induction l as [|x l IH]; intros [|i] Hi; simpl in *;
    try done.
  - injection Hi as ->. csimpl. unfold sum_list_Z in *. cbn [foldr].
    rewrite (realCount_take_S _ _ _ Hop). lia.
  - specialize (IH _ Hi). csimpl. unfold sum_list_Z in *. cbn [foldr].
    set (x' := realCount (take x ops)). etransitivity;
      [apply (f_equal (Z.add x')), IH|]. apply Z.add_assoc.
Qed.

Lemma readyBy_lengths mt mt' :
  (forall w x, readyBy mt w x -> readyBy mt' w x) ->
  (length (mt_lastReady mt) <= length (mt_lastReady mt'))%nat.
Proof.
  intros Hr. apply Nat.le_ngt. intros Hlt.
  destruct (lookup_lt_is_Some_2 _ _ Hlt) as [l Hl].
  destruct (Hr _ l (ex_intro _ l (conj Hl (Z.le_refl l)))) as (l' & Hl' & _).
  apply lookup_lt_Some in Hl'. lia.
Qed.

Lemma mt_step_progress ops mw cs mt mt' :
  progress ops mw cs mt -> mt_step graph arch config ops mt = Ok mt' ->
  (exists c, progress ops mw (cs ++ [c]) mt')
  /\ stepsOf mt' = S (stepsOf mt) /\ mt_placements mt' = mt_placements mt.
Proof.
  intros [Hl Hlr Hb Hi Hsch Hw Hon Hev Hr] Hs. unfold mt_step in Hs.
  apply outcome_bind_Ok in Hs as (wave & _ & Hs).
  apply mt_commitWave_inv in Hs as
    (k & op & r & Hk & Hop & Hc & Hpc & Hpl & Hiss & He & Hres & Hmono); [|done].
  pose proof (lookup_lt_Some _ _ _ Hk) as Hlt.
  pose proof (lookup_lt_Some _ _ _ Hop) as Hklt.
  split_and!; [exists (mkCommit wave op r); split| |done].
  - by rewrite Hpc, length_alter, Hpl.
  - rewrite Hpc, length_alter. apply readyBy_lengths in Hmono. lia.
  - rewrite Hpc. apply Forall_alter; [done|]. intros k' Hk' _.
    rewrite Hk in Hk'. injection Hk' as <-. lia.
  - by rewrite Hiss, Hi, Hpc, (sum_realCount_alter _ _ _ _ _ Hk Hop).
  - by eapply schedule_snoc.
  - rewrite Hpc, length_alter. apply Forall_app. split; [done|].
    by repeat constructor.
  - intros w k'. rewrite Hpc, issuedOn_snoc. case_decide as Hwv.
    + subst w. rewrite list_lookup_alter_eq, Hk. intros [= <-].
      by rewrite (Hon _ _ Hk), (take_S_r _ _ _ Hop).
    + rewrite list_lookup_alter_ne by done. rewrite app_nil_r. apply Hon.
  - intros Hrec. rewrite He, Hev, bind_app by done. simpl. by rewrite app_nil_r.
  - apply Forall_app. split; [|by constructor].
    eapply Forall_impl; [exact Hr|]. intros c Hf.
    eapply Forall_impl; [exact Hf|]. auto.
  - unfold stepsOf. by rewrite Hpc, (foldr_add_alter_S _ _ _ Hk).
Qed.

Lemma mt_steps_progress ops mw (l : list nat) : forall cs mt mt',
  progress ops mw cs mt ->
  foldM (fun mt _ => mt_step graph arch config ops mt) mt l = Ok mt' ->
  (exists cs', progress ops mw cs' mt')
  /\ stepsOf mt' = (stepsOf mt + length l)%nat
  /\ mt_placements mt' = mt_placements mt.
Proof.
  induction l as [|i l IH]; intros cs mt mt' Hp Hf; cbn [foldM] in Hf.
  { injection Hf as <-. split_and!; [eauto|simpl; lia|done]. }
  apply outcome_bind_Ok in Hf as (mt1 & Hs & Hf).
  apply (mt_step_progress ops mw cs) in Hs as ((c & Hp1) & Hs1 & Hl1); [|done].
  destruct (IH _ _ _ Hp1 Hf) as (Hp2 & Hs2 & Hl2).
  split_and!; [done|simpl; lia|congruence].
Qed.

(** Counters that are all within [n] and add up to [n] each are all [n]. *)
Lemma all_at_bound (l : list nat) n :
  Forall (fun k => (k <= n)%nat) l ->
  foldr Nat.add 0%nat l = (length l * n)%nat -> Forall (fun k => k = n) l.
Proof.
  induction 1 as [|k l Hk Hl IH]; simpl; intros Hsum; [constructor|].
  assert (foldr Nat.add 0%nat l <= length l * n)%nat as Hle.
  { clear IH Hsum. induction Hl; simpl; lia. }
  constructor; [lia|apply IH; lia].
Qed.

(** The state of the waves does not change while the end is computed. *)
Lemma finishWave_keeps mt wave mt' :
  finishWave config mt wave = Ok mt' ->
  mt_state mt' = mt_state mt /\ mt_lastReady mt' = mt_lastReady mt
  /\ issuedOps (mt_out mt') = issuedOps (mt_out mt)
  /\ issueEvents (sim_events (mt_out mt'))
     = issueEvents (sim_events (mt_out mt))
  /\ exists c cycle, waveCompletedCycles (mt_out mt')
       = <[wave := c]> (waveCompletedCycles (mt_out mt))
     /\ getCurrentCycle (mt_state mt) wave = Ok cycle /\ cycle <= c
     /\ (forall x, readyBy mt wave x -> x <= c).
Proof.
  unfold finishWave. intros Hf.
  apply outcome_bind_Ok in Hf as (l & Hl & Hf).
  apply outcome_bind_Ok in Hf as (cr & _ & Hf).
  apply outcome_bind_Ok in Hf as (cy & Hcy & Hf).
  apply outcome_bind_Ok in Hf as (p & _ & [= <-]).
  apply at_index_Ok in Hl.
  set (c := if completePendingLdsDmaCounters config then _ else _).
  set (mt1 := mkMultiTimeline _ _ _ _ _ _).
  pose proof (mt_record_progress (mkSimEvent c EventSimEventKind.WaveCompleted 0
    FunctionalUnit.None MemoryCounterKind.None wave (simd p)) mt1 ltac:(done))
    as [_ _ Hst Hiss Hev _].
  split_and!; [exact Hst| |exact Hiss|exact Hev|].
  { unfold mt_record. by destruct (negb _). }
  exists c, cy. split_and!; [|done|unfold c; case_match; lia|].
  - unfold mt_record. by destruct (negb _).
  - intros x (l' & Hl' & ?). simplify_eq. unfold c. case_match; lia.
Qed.

Lemma finishWaves_keep l : forall mt mt',
  NoDup l -> foldM (finishWave config) mt l = Ok mt' ->
  issuedOps (mt_out mt') = issuedOps (mt_out mt)
  /\ issueEvents (sim_events (mt_out mt'))
     = issueEvents (sim_events (mt_out mt))
  /\ length (waveCompletedCycles (mt_out mt'))
     = length (waveCompletedCycles (mt_out mt))
  /\ (forall wave, wave ∉ l -> waveCompletedCycles (mt_out mt') !! wave
                               = waveCompletedCycles (mt_out mt) !! wave)
  /\ forall wave c, wave ∈ l -> waveCompletedCycles (mt_out mt') !! wave = Some c ->
     exists cycle, getCurrentCycle (mt_state mt) wave = Ok cycle /\ cycle <= c
     /\ forall x, readyBy mt wave x -> x <= c.
Proof.
  induction l as [|w l IH]; intros mt mt' Hnd Hm; cbn [foldM] in Hm.
  { injection Hm as <-. split_and!; try done. intros w c Hin.
    by apply elem_of_nil in Hin. }
  apply outcome_bind_Ok in Hm as (mt1 & Hw & Hm).
  apply NoDup_cons in Hnd as [Hni Hnd].
  apply finishWave_keeps in Hw as (Hst & Hlr & Hi & He & c & cy & Hc & Hcy & Hle & Hr).
  destruct (IH _ _ Hnd Hm) as (Hi' & He' & Hl' & Hout & Hin).
  split_and!; [congruence..| | |].
  - rewrite Hl', Hc. by rewrite length_insert.
  - intros w' Hw'. rewrite not_elem_of_cons in Hw'. destruct Hw' as [Hne Hw'].
    rewrite Hout by done. rewrite Hc. by rewrite list_lookup_insert_ne.
  - intros w' c' Hw' Hc'. rewrite elem_of_cons in Hw'.
    destruct (decide (w' ∈ l)) as [Hl|Hl].
    + destruct (Hin _ _ Hl Hc') as (cy' & H1 & H2 & H3). exists cy'.
      rewrite <-Hst. split_and!; [done..|]. intros x Hx. apply H3.
      unfold readyBy in *. by rewrite Hlr.
    + destruct Hw' as [-> |]; [|done]. rewrite (Hout _ Hl), Hc in Hc'.
      apply list_lookup_insert_Some in Hc' as [(_ & -> & _)|[]]; [|done].
      eauto.
Qed.

Lemma mt_finish_keeps mt mt' :
  mt_finish config mt = Ok mt' ->
  issuedOps (mt_out mt') = issuedOps (mt_out mt)
  /\ issueEvents (sim_events (mt_out mt'))
     ≡ₚ issueEvents (sim_events (mt_out mt))
  /\ length (waveCompletedCycles (mt_out mt')) = length (mt_placements mt)
  /\ forall wave c, waveCompletedCycles (mt_out mt') !! wave = Some c ->
     exists cycle, getCurrentCycle (mt_state mt) wave = Ok cycle /\ cycle <= c
     /\ forall x, readyBy mt wave x -> x <= c.
Proof.
  unfold mt_finish. intros Hf.
  apply outcome_bind_Ok in Hf as (mt1 & Hf & [= <-]).
  apply finishWaves_keep in Hf as (Hi & He & Hl & _ & Hin);
    [|apply NoDup_seq]. simpl in *. rewrite length_replicate in Hl.
  split_and!; [done| |done|].
  - etransitivity; [|by rewrite <-He]. destruct (recordTimeline config); [|done].
    unfold issueEvents. by rewrite merge_sort_Permutation.
  - intros w c Hc. apply (Hin w c); [|done]. apply elem_of_seq.
    apply lookup_lt_Some in Hc. lia.
Qed.

(** The end of the loop: every counter is past the program. *)
Lemma mt_loop_end ops mw mt mt' :
  progress ops mw [] mt -> stepsOf mt = 0%nat ->
  foldM (fun mt _ => mt_step graph arch config ops mt) mt
    (seq 0 (length ops * length (mt_placements mt))) = Ok mt' ->
  mt_placements mt' = mt_placements mt
  /\ pc mt' = replicate (length (mt_placements mt)) (length ops)
  /\ exists cs, progress ops mw cs mt'.
Proof.
  intros Hp Hz Hf. apply (mt_steps_progress ops mw _ []) in Hf
    as ((cs & Hp') & Hs & Hl); [|done].
  rewrite Hz, length_seq in Hs.
  split_and!; [done| |eauto]. pose proof (pr_length _ _ _ _ Hp') as Hlen.
  pose proof (pr_bound _ _ _ _ Hp') as Hb. rewrite Hl in Hlen.
  unfold stepsOf in Hs. pose proof (all_at_bound _ _ Hb ltac:(lia)) as Hall.
  rewrite <-Hlen. clear -Hall. induction Hall as [|k l -> _ IH]; [done|].
  simpl. by f_equal.
Qed.

Lemma sum_realCount_replicate ops n :
  sum_list_Z ((fun k => realCount (take k ops)) <$> replicate n (length ops))
  = Z.of_nat n * realCount ops.
Proof.
  rewrite fmap_replicate, firstn_all.
  induction n as [|n IH]; [done|]. unfold sum_list_Z in *.
  cbn [replicate foldr]. rewrite IH. lia.
Qed.

Lemma progress_start ops ps state :
  progress ops state []
    (mkMultiTimeline ps state emptyResult (replicate (length ps) 0%nat)
       (replicate (length ps) 0) (replicate (length ps) 0)).
Proof.
  split; simpl; rewrite ?length_replicate; auto using schedule_nil.
  - apply Forall_replicate. lia.
  - generalize (length ps). intros n. rewrite fmap_replicate.
    induction n as [|n IH]; [done|exact IH].
  - intros w k Hk. by apply lookup_replicate in Hk as [-> _].
Qed.

(** A run is the loop followed by the computation of its end. *)
Lemma runMultiWave_inv ops out :
  runMultiWave graph arch config ops = Ok out ->
  let ps := getFullCUWavePlacements arch (sim_wavesPerSIMD config) in
  exists mw0 mt1 mt',
    makeMultiWave arch (stateConfig arch config) ps = Ok mw0
    /\ foldM (fun mt _ => mt_step graph arch config ops mt)
         (mkMultiTimeline ps mw0 emptyResult (replicate (length ps) 0%nat)
            (replicate (length ps) 0) (replicate (length ps) 0))
         (seq 0 (length ops * length ps)) = Ok mt1
    /\ mt_finish config mt1 = Ok mt' /\ out = mt_out mt'.
Proof.
  intros Hrun ps. unfold runMultiWave in Hrun.
  apply outcome_bind_Ok in Hrun as (mt & Hmt & Hrun).
  apply outcome_bind_Ok in Hrun as (mt' & Hrun & [= <-]).
  unfold makeMultiTimeline in Hmt.
  apply outcome_bind_Ok in Hmt as (mw0 & Hmw & Hmt). injection Hmt as <-.
  fold ps in Hmw, Hrun. unfold mt_run in Hrun. cbn [mt_placements] in Hrun.
  assert (exists mt1, foldM (fun mt _ => mt_step graph arch config ops mt)
      (mkMultiTimeline ps mw0 emptyResult (replicate (length ps) 0%nat)
         (replicate (length ps) 0) (replicate (length ps) 0))
      (seq 0 (length ops * length ps)) = Ok mt1 /\ mt_finish config mt1 = Ok mt')
    as (mt1 & H1 & H2); [|eauto 10].
  destruct ps as [|p ps']; [done|]. destruct (_ <? _); [done|].
  by apply outcome_bind_Ok in Hrun.
Qed.

(** C37: a multi-wave simulation that succeeds is a schedule of commits, from
    the initial state of the compute unit, in which every wave issues the
    instructions of the program in order, each exactly once, and no other
    wave issues any.  The count is that of the instructions that emit code,
    over all waves; the issues of a recorded timeline are those of the
    schedule, each with its wave and its cycle; the completion cycle of a wave
    is neither before the last cycle of the wave nor before any of the
    results its instructions gave. *)
Theorem runMultiWave_issues_all ops out
    (Hrun : runMultiWave graph arch config ops = Ok out) :
  let ps := getFullCUWavePlacements arch (sim_wavesPerSIMD config) in
  exists mw0 cs mw,
    makeMultiWave arch (stateConfig arch config) ps = Ok mw0
    /\ schedule mw0 cs mw
    /\ Forall (fun c => (cm_wave c < length ps)%nat) cs
    /\ (forall wave, (wave < length ps)%nat -> issuedOn wave cs = ops)
    /\ issuedOps out = Z.of_nat (length ps) * realCount ops
    /\ (recordTimeline config = true ->
        issueEvents (sim_events out) ≡ₚ cs ≫= issuesOf)
    /\ length (waveCompletedCycles out) = length ps
    /\ (forall wave c, waveCompletedCycles out !! wave = Some c ->
        (exists cycle, getCurrentCycle mw wave = Ok cycle /\ cycle <= c)
        /\ Forall (fun cm => cm_wave cm = wave ->
             Forall (fun x => x <= c) (resultCycles (cm_op cm) (cm_result cm)))
             cs).
Proof.
  intros ps. apply runMultiWave_inv in Hrun as (mw0 & mt1 & mt' & Hmw & Hloop & Hfin & ->).
  fold ps in Hmw, Hloop.
  apply (mt_loop_end ops mw0) in Hloop as (Hl & Hpc & cs & Hp);
    [|apply progress_start| ].
  2:{ unfold stepsOf. simpl. generalize (length ps). intros n. by induction n. }
  apply mt_finish_keeps in Hfin as (Hi & He & Hn & Hcomp).
  simpl in Hl, Hpc. destruct Hp as [_ _ _ Hiss Hsch Hw Hon Hev Hr].
  rewrite Hpc in *. rewrite length_replicate in Hw.
  exists mw0, cs, (mt_state mt1). split_and!; [done..| | | | |].
  - intros w Hlt. rewrite (Hon w (length ops)), firstn_all; [done|].
    by apply lookup_replicate.
  - by rewrite Hi, Hiss, sum_realCount_replicate.
  - intros Hrec. by rewrite He, Hev.
  - by rewrite Hn, Hl.
  - intros w c Hc. destruct (Hcomp _ _ Hc) as (cy & Hcy & Hle & Hx).
    split; [eauto|]. eapply Forall_impl; [exact Hr|]. intros cm Hf <-.
    eapply Forall_impl; [exact Hf|]. exact Hx.
Qed.
End Program.

(** A load and an [fma] on the four SIMDs of a compute unit. *)
Definition cuConfig : EventSimConfig :=
  mkSimConfig 1 64 (-1) None true true 0 defaultCounterLatencies
    defaultValueLatencies.

Definition resultOf (o : outcome EventSimResult) : EventSimResult :=
  match o with Ok r => r | _ => emptyResult end.

Lemma runMultiWave_issues_all_witness :
  let out := resultOf (runMultiWave [] kGfx942 cuConfig [loadOp; fmaOp]) in
  issuedOps out = 8
  /\ exists mw0 cs mw, schedule [] kGfx942 cuConfig mw0 cs mw
     /\ issuedOn 3 cs = [loadOp; fmaOp] /\ issueEvents (sim_events out) ≡ₚ cs ≫= issuesOf.
Proof.
  intros out. split; [vm_compute; reflexivity|].
  destruct (runMultiWave_issues_all [] kGfx942 cuConfig [loadOp; fmaOp] out)
    as (mw0 & cs & mw & _ & Hs & _ & Hon & _ & He & _); [vm_compute; reflexivity|].
  exists mw0, cs, mw. split; [exact Hs|]. split; [|by apply He].
  apply Hon. vm_compute. repeat constructor.
Defined.
