(* ===== verification/TimelineSpec.v ===== *)
(** * Single-wave timelines and loops

    Recording events does not change the timing of a run; the completion of a
    conditional is that of its dearer branch; the recorded events come out
    sorted, none lost; and the values that a loop carries are bound one after
    the other. *)

From stdpp Require Import base tactics list gmap sorting strings.
From S2P Require Import Prelude CostEnums ArchData MachineIR LatencyTable OpClassifier.
From S2P Require Import MemoryTiming ScheduleModel ResourceState ExecState ExecOps.
From S2P Require Import MultiWave EventSim Examples ExecLemmas.

(** ** Outcomes related pointwise *)

Inductive outcome_rel {A B} (R : A -> B -> Prop) : outcome A -> outcome B -> Prop :=
  | rel_Ok a b : R a b -> outcome_rel R (Ok a) (Ok b)
  | rel_Failure : outcome_rel R Failure Failure
  | rel_Fatal why : outcome_rel R (Fatal why) (Fatal why).

Lemma outcome_rel_bind {A A' B B'} (R : A -> A' -> Prop) (Q : B -> B' -> Prop)
    m m' (k : A -> outcome B) (k' : A' -> outcome B') :
  outcome_rel R m m' -> (forall a a', R a a' -> outcome_rel Q (k a) (k' a')) ->
  outcome_rel Q (m ≫= k) (m' ≫= k').
Proof. intros [a b Hab| |why] Hk; [by apply Hk|constructor..]. Qed.

Lemma outcome_rel_same {A B B'} (Q : B -> B' -> Prop) (m : outcome A) k k' :
  (forall a, outcome_rel Q (k a) (k' a)) -> outcome_rel Q (m ≫= k) (m ≫= k').
Proof. intros Hk. destruct m; [apply Hk|constructor..]. Qed.

Lemma foldM_rel {A A' X} (R : A -> A' -> Prop) (f : A -> X -> outcome A)
    (f' : A' -> X -> outcome A') l :
  Forall (fun x => forall a a', R a a' -> outcome_rel R (f a x) (f' a' x)) l ->
  forall a a', R a a' -> outcome_rel R (foldM f a l) (foldM f' a' l).
Proof.
  induction 1 as [|x l Hx _ IH]; intros a a' Ha; cbn [foldM]; [by constructor|].
  eapply outcome_rel_bind; [by apply Hx|]. intros b b' Hb. by apply IH.
Qed.

Lemma fold_left_rel {A A' X} (R : A -> A' -> Prop) f f' (l : list X) :
  (forall a a' x, R a a' -> R (f a x) (f' a' x)) ->
  forall a a', R a a' -> R (fold_left f l a) (fold_left f' l a').
Proof. intros Hf. induction l as [|x l IH]; intros a a' Ha; simpl; auto. Qed.

(** ** Induction on programs *)

Section NodeInd.
Context (P : Node -> Prop).
Context (Pop : forall op, P (OpNode op)).
Context (Ploop : forall op args body, Forall P body -> P (LoopNode op args body)).
Context (Pif : forall op th el, from_option (Forall P) True th ->
  from_option (Forall P) True el -> P (IfNode op th el)).
Context (Pexec : forall op th el, from_option (Forall P) True th ->
  from_option (Forall P) True el -> P (ExecIfNode op th el)).

Fixpoint Node_nested (n : Node) : P n :=
  let all := fix all (l : list Node) : Forall P l :=
    match l with
    | [] => Forall_nil_2 P
    | n :: l' => Forall_cons_2 P n l' (Node_nested n) (all l')
    end in
  let opt (o : option (list Node)) : from_option (Forall P) True o :=
    match o with Some l => all l | None => I end in
  match n with
  | OpNode op => Pop op
  | LoopNode op args body => Ploop op args body (all body)
  | IfNode op th el => Pif op th el (opt th) (opt el)
  | ExecIfNode op th el => Pexec op th el (opt th) (opt el)
  end.
End NodeInd.

(** ** Timelines that differ in what they record *)

(** What decides the rest of a run: the issue state and the latest ready
    cycles. *)
Definition clockOf (tl : StateTimeline) : InstructionExecutionState * Z * Z :=
  (tl_state tl, tl_lastReady tl, tl_lastCounterReady tl).

(** The second timeline does not record; the first has counted [d] more
    instructions. *)
Record silentTwin (d : Z) (tl tl' : StateTimeline) : Prop := {
  twin_clock : clockOf tl = clockOf tl';
  twin_issued : issuedOps (tl_out tl) = issuedOps (tl_out tl') + d;
  twin_silent : tl_record tl' = false;
  twin_events : sim_events (tl_out tl') = []
}.

Section Twin.
Context `{LLVMTarget}.
Context (graph : UseGraph) (arch : ArchData) (config : EventSimConfig).

Lemma twin_state d tl tl' : silentTwin d tl tl' -> tl_state tl = tl_state tl'.
Proof. intros [Ht _ _ _]. unfold clockOf in Ht. congruence. Qed.

Lemma twin_complete d tl tl' :
  silentTwin d tl tl' ->
  getCompleteCycle config tl = getCompleteCycle config tl'.
Proof.
  intros [Ht _ _ _]. unfold clockOf in Ht. injection Ht as H1 H2 H3.
  unfold getCompleteCycle. by rewrite H1, H2, H3.
Qed.

Lemma record_twin d e tl tl' :
  silentTwin d tl tl' -> silentTwin d (record e tl) (record e tl').
Proof.
  intros Ht. unfold record. rewrite (twin_silent _ _ _ Ht). cbn [negb].
  destruct (negb _); [done|]. by destruct Ht.
Qed.

Lemma set_state_twin d st tl tl' :
  silentTwin d tl tl' ->
  silentTwin d (set_tl_state st tl) (set_tl_state st tl').
Proof.
  intros [Ht Hi Hs He]. split; [|done..]. unfold clockOf in *. simpl. congruence.
Qed.

Lemma raise_twin d r tl tl' :
  silentTwin d tl tl' ->
  silentTwin d (raiseLastReady r tl) (raiseLastReady r tl')
  /\ silentTwin d (raiseLastCounterReady r tl) (raiseLastCounterReady r tl').
Proof.
  intros [Ht Hi Hs He]. unfold clockOf in Ht.
  split; (split; [|done..]); unfold clockOf; simpl; congruence.
Qed.

Lemma countIssued_twin d tl tl' :
  silentTwin d tl tl' -> silentTwin d (countIssued tl) (countIssued tl').
Proof. intros [Ht Hi Hs He]. split; [done|simpl; lia|done..]. Qed.

Lemma recordReadyAt_twin op fu r d tl tl' :
  silentTwin d tl tl' ->
  silentTwin d (recordReadyAt op fu r tl) (recordReadyAt op fu r tl').
Proof. intros Ht. by apply record_twin, raise_twin. Qed.

Lemma commitAndRecord_twin op d tl tl' :
  silentTwin d tl tl' ->
  outcome_rel (silentTwin d) (commitAndRecord graph arch config op tl)
    (commitAndRecord graph arch config op tl').
Proof.
  intros Ht. unfold commitAndRecord. rewrite <-(twin_state _ _ _ Ht).
  apply outcome_rel_same. intros [r st].
  apply outcome_rel_same. intros cls. apply outcome_rel_same. intros fu.
  eapply outcome_rel_bind.
  2: { intros t t' Htt. constructor.
       destruct (op_results op); [by apply raise_twin|done]. }
  unfold recordMemoryCounters. apply outcome_rel_same. intros kind.
  match goal with
  | |- outcome_rel _ (if _ then Ok ?a else _) (if _ then Ok ?a' else _) =>
      set (t := a); set (t' := a')
  end.
  assert (silentTwin d t t') as Htt.
  { apply (fold_left_rel (silentTwin d));
      [intros a a' v Ha; by apply recordReadyAt_twin|].
    pose proof (set_state_twin d st _ _ Ht) as H1.
    destruct (bool_decide _), (isWaitcntOp op);
      repeat first [apply record_twin | apply countIssued_twin | done]. }
  case_decide; [by constructor|].
  apply outcome_rel_same. intros l. constructor.
  apply (fold_left_rel (silentTwin d)); [|done]. intros a a' i Ha.
  by apply record_twin, raise_twin.
Qed.

Lemma bindValues_twin targets sources d tl tl' :
  silentTwin d tl tl' ->
  silentTwin d (bindValues targets sources tl) (bindValues targets sources tl').
Proof.
  apply (fold_left_rel (silentTwin d)). intros a a' [t s] Ha.
  rewrite <-(twin_state _ _ _ Ha). by apply set_state_twin.
Qed.

Lemma bindYieldResults_twin results region d tl tl' :
  silentTwin d tl tl' ->
  silentTwin d (bindYieldResults results region tl)
    (bindYieldResults results region tl').
Proof.
  intros Ht. unfold bindYieldResults. destruct (getYield region); [|done].
  revert tl tl' Ht. apply (fold_left_rel (silentTwin d)). intros a a' [r v] Ha.
  unfold recordValueReady. rewrite <-(twin_state _ _ _ Ha).
  by apply recordReadyAt_twin, set_state_twin.
Qed.

Lemma trialTimeline_twin d tl tl' :
  silentTwin d tl tl' -> silentTwin 0 (trialTimeline tl) (trialTimeline tl').
Proof.
  intros [Ht Hi Hs He]. split; [|done..]. unfold clockOf in *. simpl. congruence.
Qed.

(** The copy that an estimate runs is a twin. *)
Lemma trialTimeline_self tl :
  silentTwin (issuedOps (tl_out tl)) tl (trialTimeline tl).
Proof. by split. Qed.

(** A computation on timelines that keeps twins together. *)
Definition twinOk (f : StateTimeline -> outcome StateTimeline) : Prop :=
  forall d tl tl', silentTwin d tl tl' -> outcome_rel (silentTwin d) (f tl) (f tl').

Lemma iterateLoop_twin runBody op args body n :
  twinOk runBody -> twinOk (iterateLoop runBody op args body n).
Proof.
  intros Hb. induction n as [|n IH]; intros d tl tl' Ht; cbn [iterateLoop];
    [by constructor|].
  eapply outcome_rel_bind; [by apply Hb|]. intros t t' Htt.
  destruct (getContinueCarries body); [|constructor].
  by apply IH, bindValues_twin.
Qed.

Lemma runUniformIf_twin runThen runElse op th el :
  twinOk runThen -> twinOk runElse ->
  twinOk (runUniformIf graph arch config runThen runElse op th el).
Proof.
  intros H1 H2 d tl tl' Ht. unfold runUniformIf.
  eapply outcome_rel_bind; [by apply commitAndRecord_twin|]. intros t t' Htt.
  apply (outcome_rel_bind (silentTwin 0)); [eapply H1, trialTimeline_twin, Htt|]. intros a a' Ha.
  apply (outcome_rel_bind (silentTwin 0)); [eapply H2, trialTimeline_twin, Htt|]. intros b b' Hb.
  rewrite (twin_complete _ _ _ Ha), (twin_complete _ _ _ Hb).
  destruct (_ <=? _);
    (eapply outcome_rel_bind; [first [by apply H1|by apply H2]|]);
    intros x x' Hx; constructor; by apply bindYieldResults_twin.
Qed.

Lemma runExecIf_twin runThen runElse op th el :
  twinOk runThen -> twinOk runElse ->
  twinOk (runExecIf runThen runElse op th el).
Proof.
  intros H1 H2 d tl tl' Ht. unfold runExecIf.
  eapply outcome_rel_bind; [by apply H1|]. intros t t' Htt.
  destruct el as [el|]; [|constructor; by apply bindYieldResults_twin].
  eapply outcome_rel_bind; [by apply H2, bindYieldResults_twin|].
  intros x x' Hx. constructor. by apply bindYieldResults_twin.
Qed.

Lemma runUniformLoop_twin runBody op args body :
  twinOk runBody ->
  twinOk (runUniformLoop graph arch config runBody op args body).
Proof.
  intros Hb d tl tl' Ht. unfold runUniformLoop.
  eapply outcome_rel_bind; [by apply commitAndRecord_twin|]. intros t t' Htt.
  destruct (_ <=? 0); [constructor; by apply bindValues_twin|].
  by apply iterateLoop_twin, bindValues_twin.
Qed.

Lemma foldM_twin (f : Node -> StateTimeline -> outcome StateTimeline) l :
  Forall (fun n => twinOk (f n)) l ->
  twinOk (fun tl => foldM (fun tl n => f n tl) tl l).
Proof.
  intros Hl d tl tl' Ht. apply foldM_rel; [|done].
  eapply Forall_impl; [exact Hl|]. intros n Hn a a'. apply Hn.
Qed.

Lemma runOp_twin node : twinOk (runOp graph arch config node).
Proof.
  induction node as [op|op args body IH|op th el IHt IHe|op th el IHt IHe]
    using Node_nested; intros d tl tl' Ht; cbn [runOp node_op].
  all: destruct (negb _); [by constructor|].
  - by apply commitAndRecord_twin.
  - apply runUniformLoop_twin; [|done]. by apply foldM_twin.
  - apply runUniformIf_twin; [| |done].
    + destruct th; [by apply foldM_twin|by constructor].
    + destruct el; [by apply foldM_twin|by constructor].
  - apply runExecIf_twin; [| |done].
    + destruct th; [by apply foldM_twin|by constructor].
    + destruct el; [by apply foldM_twin|by constructor].
Qed.

Lemma runBlock_twin block : twinOk (runBlock graph arch config block).
Proof.
  apply foldM_twin, Forall_forall. intros node _. apply runOp_twin.
Qed.

Lemma runRegion_twin region : twinOk (runRegion graph arch config region).
Proof.
  intros d tl tl' Ht. destruct region; [by apply runBlock_twin|by constructor].
Qed.

(** The result of a run: its final clock and the counts it reports. *)
Definition reportOf (tl : StateTimeline) :
    InstructionExecutionState * Z * Z * Z * Z * Z * list Z :=
  (clockOf tl, totalCycles (tl_out tl), issuedOps (tl_out tl),
   completedCycle (tl_out tl), waveCompletedCycles (tl_out tl)).

Lemma sortEvents_report tl : reportOf (sortEvents tl) = reportOf tl.
Proof. unfold sortEvents. by destruct (negb _). Qed.

Lemma record_report e tl : reportOf (record e tl) = reportOf tl.
Proof. unfold record. by destruct (negb _). Qed.

Lemma finish_report tl tl' :
  silentTwin 0 tl tl' ->
  reportOf (finish config tl) = reportOf (finish config tl')
  /\ sim_events (tl_out (finish config tl')) = [].
Proof.
  intros Ht. pose proof (twin_complete _ _ _ Ht) as Hc.
  destruct Ht as [Ht Hi Hs He]. unfold finish. split.
  - rewrite !sortEvents_report, !record_report. unfold reportOf, clockOf in *.
    simpl. rewrite Hc, Hi, Z.add_0_r. congruence.
  - unfold sortEvents, record. simpl. by rewrite Hs.
Qed.

(** C38: recording is transparent: a run that records the timeline and one that
    does not succeed or fail together, end in the same state and report the
    same cycles and instruction counts; the silent one collects no events. *)
Theorem recording_is_transparent blocks :
  outcome_rel (fun tl tl' => reportOf tl = reportOf tl'
                             /\ sim_events (tl_out tl') = [])
    (runFunc graph arch config blocks (startTimeline true))
    (runFunc graph arch config blocks (startTimeline false)).
Proof.
  unfold runFunc. apply (outcome_rel_bind (silentTwin 0)).
  - apply foldM_rel; [|by split].
    apply Forall_forall. intros block _ a a' Ha. by apply runBlock_twin.
  - intros a a' Ha. constructor. by apply finish_report.
Qed.

(** ** Conditionals *)

(** A run and a trial of the same region take the same time. *)
Lemma trial_agrees run tl tl' trial :
  twinOk run -> run (trialTimeline tl) = Ok trial -> run tl = Ok tl' ->
  getCompleteCycle config tl' = getCompleteCycle config trial.
Proof.
  intros Hr Ht Hl. pose proof (Hr _ _ _ (trialTimeline_self tl)) as Hrel.
  rewrite Ht, Hl in Hrel. inversion Hrel as [a b Hab| |]; subst.
  by eapply twin_complete.
Qed.

(** A conditional is charged its dearer branch: both regions are estimated
    from the state after the condition, the dearer one (the first, on a tie)
    is run, it completes exactly when its estimate said, the maximum of the
    two, and its yielded values become the results. *)
Theorem conditional_costs_dearer op thenRegion elseRegion tl tl'
    (Hm : op_isMachine op = true)
    (Hrun : runOp graph arch config (IfNode op thenRegion elseRegion) tl
            = Ok tl') :
  exists tl1 thenCost elseCost region tl2,
    commitAndRecord graph arch config op tl = Ok tl1
    /\ estimateRegion graph arch config thenRegion tl1 = Ok thenCost
    /\ estimateRegion graph arch config elseRegion tl1 = Ok elseCost
    /\ region = (if elseCost <=? thenCost then thenRegion else elseRegion)
    /\ runRegion graph arch config region tl1 = Ok tl2
    /\ getCompleteCycle config tl2 = Z.max thenCost elseCost
    /\ tl' = bindYieldResults (op_results op) region tl2.
Proof.
  cbn [runOp node_op] in Hrun. rewrite Hm in Hrun. cbn [negb] in Hrun.
  change (runUniformIf graph arch config
            (runRegion graph arch config thenRegion)
            (runRegion graph arch config elseRegion)
            op thenRegion elseRegion tl = Ok tl') in Hrun.
  unfold runUniformIf in Hrun.
  apply outcome_bind_Ok in Hrun as (tl1 & Hc & Hrun).
  apply outcome_bind_Ok in Hrun as (t1 & H1 & Hrun).
  apply outcome_bind_Ok in Hrun as (t2 & H2 & Hrun).
  exists tl1, (getCompleteCycle config t1), (getCompleteCycle config t2).
  unfold estimateRegion. rewrite H1, H2. simpl.
  destruct (Z.leb_spec (getCompleteCycle config t2) (getCompleteCycle config t1));
    apply outcome_bind_Ok in Hrun as (tl2 & Hr & [= <-]).
  - exists thenRegion, tl2. split_and!; try done.
    rewrite (trial_agrees _ _ _ _ (runRegion_twin thenRegion) H1 Hr). lia.
  - exists elseRegion, tl2. split_and!; try done.
    rewrite (trial_agrees _ _ _ _ (runRegion_twin elseRegion) H2 Hr). lia.
Qed.

(** ** Sorted events *)

#[local] Instance event_before_total : Total event_before.
Proof.
  intros x y. unfold event_before.
  destruct (Z.lt_trichotomy (ev_cycle x) (ev_cycle y)) as [?|[?|?]]; [lia| |lia].
  destruct (Z.lt_trichotomy (eventKindRank (ev_kind x))
              (eventKindRank (ev_kind y))) as [?|[?|?]]; lia.
Qed.
#[local] Instance event_before_trans : Transitive event_before.
Proof. intros x y z. unfold event_before. lia. Qed.

(** [finish] reports the completion cycle, adds the completion of the wave,
    and leaves the recorded events sorted by cycle, then kind, then operation,
    none lost. *)
Theorem finish_sorts tl (Hrec : tl_record tl = true) :
  let out := tl_out (finish config tl) in
  let complete := getCompleteCycle config tl in
  totalCycles out = complete /\ completedCycle out = complete
  /\ waveCompletedCycles out = [complete]
  /\ StronglySorted event_before (sim_events out)
  /\ sim_events out ≡ₚ
       mkSimEvent complete EventSimEventKind.WaveCompleted 0 FunctionalUnit.None
         MemoryCounterKind.None 0 0 :: sim_events (tl_out tl).
Proof.
  unfold finish, sortEvents, record. simpl. rewrite Hrec. simpl.
  split_and!; [done..| |].
  - apply (StronglySorted_merge_sort _).
  - rewrite merge_sort_Permutation. by rewrite Permutation_app_comm.
Qed.
End Twin.

(** A conditional whose [else] branch waits for memory. *)
Definition condOp : Operation :=
  machineOp 20 UniformIfOp [Trait.NoMachineInst] noWait [] [].
Definition branchy : Node :=
  IfNode condOp (Some [OpNode fmaOp]) (Some [OpNode loadOp; OpNode fmaOp]).
Definition waveConfig : EventSimConfig :=
  mkSimConfig 0 64 (-1) None true true 0 defaultCounterLatencies
    defaultValueLatencies.

Definition timelineOf (o : outcome StateTimeline) : StateTimeline :=
  match o with Ok tl => tl | _ => startTimeline true end.

Lemma conditional_costs_dearer_witness : exists elseCost tl1,
  estimateRegion [] kGfx942 waveConfig (Some [OpNode loadOp; OpNode fmaOp]) tl1
  = Ok elseCost.
Proof.
  destruct (conditional_costs_dearer [] kGfx942 waveConfig condOp
    (Some [OpNode fmaOp]) (Some [OpNode loadOp; OpNode fmaOp])
    (startTimeline true)
    (timelineOf (runOp [] kGfx942 waveConfig branchy (startTimeline true))))
    as (tl1 & a & b & r & tl2 & _ & _ & Hb & _);
    [reflexivity|vm_compute; reflexivity|by exists b, tl1].
Defined.

Lemma finish_sorts_witness :
  totalCycles (tl_out (finish waveConfig
    (timelineOf (runOp [] kGfx942 waveConfig branchy (startTimeline true)))))
  = 84.
Proof.
  refine (eq_trans (proj1 (finish_sorts waveConfig (timelineOf
    (runOp [] kGfx942 waveConfig branchy (startTimeline true))) _)) _);
    vm_compute; reflexivity.
Defined.

(** ** Values carried around a loop

    [bindValues] names the initial values, the carried values and the results
    of a loop one after the other.  A branch gives the values to all the
    arguments of a block at once; the two agree as long as no argument is
    bound before it is read as a source, and differ when carried values trade
    places. *)

(** Everything a wave knows of one value. *)
Definition infoOf (st : InstructionExecutionState) (v : Value) :
    option Z * option N * option (list N) * option IssueSlotHazards :=
  (valueReadyAt st !! value_id v, valueEvent st !! value_id v,
   tokenEvents st !! value_id v, issueSlotHazards st !! value_id v).

Lemma assignOrErase_ne {A} k j (o : option A) (m : gmap N A) :
  j <> k -> assignOrErase k o m !! j = m !! j.
Proof.
  intros. unfold assignOrErase.
  destruct o; [by rewrite lookup_insert_ne|by rewrite lookup_delete_ne].
Qed.

Lemma assignOrErase_eq {A} k (o : option A) (m : gmap N A) :
  assignOrErase k o m !! k = o.
Proof.
  unfold assignOrErase.
  destruct o; [by rewrite lookup_insert_eq|by rewrite lookup_delete_eq].
Qed.

Lemma bindValue_info_other st t sources v :
  value_id v <> value_id t -> infoOf (bindValue st t sources) v = infoOf st v.
Proof.
  intros Hne. unfold infoOf, bindValue. simpl.
  by rewrite lookup_insert_ne, !assignOrErase_ne by done.
Qed.

(** What a bound value is depends on the clock and on its source only. *)
Lemma bindValue_info_source st st' t s :
  currentCycle st = currentCycle st' -> infoOf st s = infoOf st' s ->
  infoOf (bindValue st t [s]) t = infoOf (bindValue st' t [s]) t.
Proof.
  intros Hcyc Hinfo. unfold infoOf in Hinfo. injection Hinfo as H1 H2 H3 H4.
  unfold infoOf, bindValue, bindSource, getValueReadyCycle. simpl.
  rewrite !lookup_insert_eq, !assignOrErase_eq, H1, H2, H3, H4, Hcyc. done.
Qed.

(** No target is overwritten before a later pair reads it. *)
Definition readBeforeBound (targets sources : list Value) : Prop :=
  forall i j t s, (i < j)%nat -> targets !! i = Some t -> sources !! j = Some s ->
    value_id s <> value_id t.

Lemma readBeforeBound_cons t s targets sources :
  readBeforeBound (t :: targets) (s :: sources) ->
  Forall (fun s' => value_id s' <> value_id t) sources
  /\ readBeforeBound targets sources.
Proof.
  intros H. split.
  - apply Forall_lookup. intros j s' Hj. by apply (H 0%nat (S j)); [lia| |].
  - intros i j t' s' Hij Ht Hs. by apply (H (S i) (S j)); [lia| |].
Qed.

Lemma bindValues_timing targets sources : forall tl,
  sameTiming (tl_state tl) (tl_state (bindValues targets sources tl)).
Proof.
  unfold bindValues. induction (combine targets sources) as [|[t s] l IH];
    intros tl; simpl; [done|]. etransitivity; [|apply IH]. apply bindValue_sameTiming.
Qed.

(** The arguments of a block are bound as by a parallel assignment, each as
    if it were the only one, when no argument is bound before it is read as a
    later source; every other value and the clock, the queues and the events
    of the wave are untouched. *)
Theorem bindValues_parallel targets sources : forall tl
  (Hnd : NoDup (value_id <$> targets)) (Hlen : length targets = length sources)
  (Hread : readBeforeBound targets sources),
  let st' := tl_state (bindValues targets sources tl) in
  (forall i t s, targets !! i = Some t -> sources !! i = Some s ->
     infoOf st' t = infoOf (bindValue (tl_state tl) t [s]) t)
  /\ (forall v, value_id v ∉ value_id <$> targets ->
        infoOf st' v = infoOf (tl_state tl) v)
  /\ sameTiming (tl_state tl) st'.
Proof.
  revert sources. induction targets as [|t targets IH];
    intros [|s sources] tl Hnd Hlen Hread st'; try done.
  csimpl in Hnd. apply NoDup_cons in Hnd as [Ht Hnd].
  apply readBeforeBound_cons in Hread as [Hs Hread]. rewrite Forall_lookup in Hs.
  set (tl1 := set_tl_state (bindValue (tl_state tl) t [s]) tl).
  destruct (IH sources tl1 Hnd ltac:(simpl in Hlen; lia) Hread) as (Hin & Hout & _).
  split_and!; [| |apply bindValues_timing].
  - intros [|i] t' s' Ht' Hs'; simpl in Ht', Hs'.
    + simplify_eq. by apply Hout.
    + change st' with (tl_state (bindValues targets sources tl1)).
      rewrite (Hin i t' s') by done. apply bindValue_info_source; [done|].
      by apply bindValue_info_other, (Hs i).
  - intros v Hv. csimpl in Hv. apply not_elem_of_cons in Hv as [Hne Hv].
    change st' with (tl_state (bindValues targets sources tl1)).
    rewrite Hout by done. by apply bindValue_info_other.
Qed.

Definition loopTimeline : StateTimeline :=
  mkTimeline (sampleState [loadOp]) emptyResult false 0 0.

Lemma bindValues_parallel_witness :
  infoOf (tl_state (bindValues [vgpr 20; vgpr 21] [vgpr 2; vgpr 1] loopTimeline))
    (vgpr 21)
  = infoOf (bindValue (sampleState [loadOp]) (vgpr 21) [vgpr 1]) (vgpr 21).
Proof.
  apply (bindValues_parallel [vgpr 20; vgpr 21] [vgpr 2; vgpr 1] loopTimeline)
    with (i := 1%nat); try reflexivity.
  - apply (bool_decide_unpack _). by vm_compute.
  - intros [|[|i]] [|[|j]] t s Hij Ht Hs; simpl in *; simplify_eq; try lia; done.
Defined.

(** C40: two carried values that trade places are not exchanged: the argument
    bound second takes the readiness of its own old value, so a value that was
    not ready is taken to be. *)
Theorem swapped_carries_lose_readiness a b tl
  (Hne : value_id a <> value_id b)
  (Hlate : Z.max (currentCycle (tl_state tl)) (getValueReadyCycle (tl_state tl) b)
           < getValueReadyCycle (tl_state tl) a) :
  getValueReadyCycle (tl_state (bindValues [a; b] [b; a] tl)) b
  < getValueReadyCycle (tl_state tl) a.
Proof.
  unfold bindValues, bindValue, getValueReadyCycle, bindSource in *. simpl in *.
  unfold getValueReadyCycle. simpl. rewrite !lookup_insert_eq.
  destruct (valueReadyAt (tl_state tl) !! value_id a),
    (valueReadyAt (tl_state tl) !! value_id b); simpl; lia.
Qed.

Lemma swapped_carries_lose_readiness_witness :
  getValueReadyCycle
    (tl_state (bindValues [vgpr 2; vgpr 1] [vgpr 1; vgpr 2] loopTimeline)) (vgpr 1)
  < getValueReadyCycle (sampleState [loadOp]) (vgpr 2).
Proof.
  apply (swapped_carries_lose_readiness (vgpr 2) (vgpr 1) loopTimeline);
    [discriminate|vm_compute; reflexivity].
Defined.
