(* ===== verification/ScheduleSpec.v ===== *)
(** * The scheduling policy

    Instructions of one compute island keep a shared unit exclusive and are
    not delayed for nothing; the budget leaves one allocation granule free; a
    selected candidate raises no peak above both budget and baseline; the
    preference among fillers is a strict weak order. *)

From stdpp Require Import base tactics list strings.
From S2P Require Import Prelude CostEnums ArchData MachineIR LatencyTable.
From S2P Require Import OpClassifier MemoryTiming ScheduleModel.

(** ** Slots of a compute island *)

(** The slot at which the state issues an instruction. *)
Definition issueSlotOf (st : InstructionScheduleResourceState)
    (info : InstructionScheduleResourceInfo) : Z :=
  currentSlot st + waitSlots (preview st info).

Fixpoint issueAll (st : InstructionScheduleResourceState)
    (infos : list InstructionScheduleResourceInfo) : list Z :=
  match infos with
  | [] => []
  | info :: infos' => issueSlotOf st info :: issueAll (commitSlot st info) infos'
  end.

(** An instruction of an island: it is tracked, on a unit that has a slot, and
    its slot counts are unsigned. *)
Definition islandInfo (info : InstructionScheduleResourceInfo) : Prop :=
  info_realInstruction info = true /\ info_tracked info = true
  /\ 0 <= info_issueSlots info /\ 0 <= info_releaseSlots info
  /\ info_functionalUnit info <> FunctionalUnit.NumFunctionalUnits.

(** How long an instruction holds its unit. *)
Definition holdSlots (info : InstructionScheduleResourceInfo) : Z :=
  Z.max (info_releaseSlots info) (info_issueSlots info).

(** Two instructions compete for a unit, or for MFMA co-issue. *)
Definition competes (track : bool)
    (a b : InstructionScheduleResourceInfo) : bool :=
  bool_decide (info_functionalUnit a = info_functionalUnit b)
  || (track && info_usesMfmaCoissue a && info_usesMfmaCoissue b).

Definition unitReady (st : InstructionScheduleResourceState)
    (fu : FunctionalUnit.t) : Z := nth (FunctionalUnit.index fu) (readyAt st) 0.

Definition unitsSized (st : InstructionScheduleResourceState) : Prop :=
  length (readyAt st) = FunctionalUnit.index FunctionalUnit.NumFunctionalUnits.

Lemma unit_index_lt fu :
  fu <> FunctionalUnit.NumFunctionalUnits ->
  (FunctionalUnit.index fu
   < FunctionalUnit.index FunctionalUnit.NumFunctionalUnits)%nat.
Proof. destruct fu; simpl; intros; try done; lia. Qed.

Lemma unit_index_inj fu fu' :
  FunctionalUnit.index fu = FunctionalUnit.index fu' -> fu = fu'.
Proof. by destruct fu, fu'. Qed.

Lemma nth_insert_eq (l : list Z) i x :
  (i < length l)%nat -> nth i (<[i := x]> l) 0 = x.
Proof.
  intros Hi. rewrite nth_lookup, list_lookup_insert_eq by done. done.
Qed.

Lemma nth_insert_ne (l : list Z) i j x :
  i <> j -> nth j (<[i := x]> l) 0 = nth j l 0.
Proof. intros Hi. by rewrite !nth_lookup, list_lookup_insert_ne. Qed.

(** A tracked instruction waits for its unit, and for the co-issue slot. *)
Lemma issueSlotOf_spec st info :
  info_tracked info = true ->
  issueSlotOf st info
  = Z.max (currentSlot st)
      (let ready := unitReady st (info_functionalUnit info) in
       if trackMfmaCoissue st && info_usesMfmaCoissue info
       then Z.max ready (mfmaCoissueReadyAt st) else ready).
Proof.
  intros Ht. unfold issueSlotOf, preview, unitReady. rewrite Ht. simpl.
  destruct (_ && _); lia.
Qed.

Lemma commitSlot_island st info :
  islandInfo info -> unitsSized st ->
  let st' := commitSlot st info in
  let slot := issueSlotOf st info in
  unitsSized st' /\ trackMfmaCoissue st' = trackMfmaCoissue st
  /\ currentSlot st' = slot + info_issueSlots info
  /\ unitReady st' (info_functionalUnit info) = slot + holdSlots info
  /\ (forall fu, fu <> info_functionalUnit info ->
        unitReady st' fu = unitReady st fu)
  /\ mfmaCoissueReadyAt st' =
       if trackMfmaCoissue st && info_usesMfmaCoissue info
       then slot + holdSlots info else mfmaCoissueReadyAt st.
Proof.
  intros (Hr & Ht & Hi & Hrel & Hfu) Hsz. unfold commitSlot.
  rewrite Hr, Ht. cbn [negb]. fold (issueSlotOf st info). cbv zeta.
  assert (preview_functionalUnit (preview st info) = info_functionalUnit info
          /\ releaseSlots (preview st info) = info_releaseSlots info) as [Hp Hq].
  { unfold preview. rewrite Ht. done. }
  rewrite Hp, Hq. fold (holdSlots info). unfold unitsSized, unitReady in *.
  simpl. split_and!; try done.
  - by rewrite length_insert.
  - apply nth_insert_eq. rewrite Hsz. by apply unit_index_lt.
  - intros fu Hne. apply nth_insert_ne. intros He. apply Hne.
    by apply unit_index_inj in He.
Qed.

(** What a later instruction finds: everything it can wait for is at least
    where an earlier instruction left it. *)
Definition heldUntil (track : bool) (a : InstructionScheduleResourceInfo)
    (slot : Z) (st : InstructionScheduleResourceState) : Prop :=
  slot + info_issueSlots a <= currentSlot st
  /\ slot + holdSlots a <= unitReady st (info_functionalUnit a)
  /\ (track && info_usesMfmaCoissue a = true ->
      slot + holdSlots a <= mfmaCoissueReadyAt st).

Lemma commitSlot_holds st info :
  islandInfo info -> unitsSized st ->
  heldUntil (trackMfmaCoissue st) info (issueSlotOf st info)
    (commitSlot st info).
Proof.
  intros Hi Hs.
  destruct (commitSlot_island st info Hi Hs) as (_ & _ & Hc & Hu & _ & Hm).
  split_and!; [lia|lia|]. intros Ht. rewrite Hm, Ht. lia.
Qed.

Lemma heldUntil_commit track a slot st info :
  track = trackMfmaCoissue st -> islandInfo info -> unitsSized st ->
  heldUntil track a slot st -> heldUntil track a slot (commitSlot st info).
Proof.
  intros -> Hi Hs (H1 & H2 & H3).
  destruct (commitSlot_island st info Hi Hs) as (_ & _ & Hc & Hu & Hne & Hm).
  destruct Hi as (_ & Ht & Hi & Hrel & _).
  pose proof (issueSlotOf_spec st info Ht) as Hslot. cbv zeta in Hslot.
  assert (0 <= holdSlots info) by (unfold holdSlots; lia).
  split_and!.
  - rewrite Hc. lia.
  - destruct (decide (info_functionalUnit a = info_functionalUnit info)) as [He|He].
    + rewrite He, Hu. rewrite He in H2.
      destruct (trackMfmaCoissue st && info_usesMfmaCoissue info); lia.
    + by rewrite Hne.
  - intros Ha. specialize (H3 Ha). rewrite Hm.
    destruct (trackMfmaCoissue st && info_usesMfmaCoissue info); lia.
Qed.

(** Every instruction behind [a] respects what [a] holds. *)
Lemma issueAll_respects a slot infos : forall st,
  unitsSized st -> Forall islandInfo infos ->
  heldUntil (trackMfmaCoissue st) a slot st ->
  forall j b s, infos !! j = Some b -> issueAll st infos !! j = Some s ->
    slot + info_issueSlots a <= s
    /\ (competes (trackMfmaCoissue st) a b = true -> slot + holdSlots a <= s).
Proof.
  induction infos as [|b infos IH]; intros st Hs Hall Hh j b' s Hb Hj; [done|].
  apply Forall_cons in Hall as [Hi Hall].
  destruct (commitSlot_island st b Hi Hs) as (Hs' & Htr & _).
  destruct j as [|j]; simpl in Hb, Hj.
  - injection Hb as <-. injection Hj as <-.
    destruct Hh as (H1 & H2 & H3). destruct Hi as (_ & Ht & _).
    pose proof (issueSlotOf_spec st b Ht) as Hslot. cbv zeta in Hslot.
    split; [lia|]. intros Hc. apply orb_true_iff in Hc as [Hc|Hc].
    + apply bool_decide_eq_true in Hc. rewrite Hc in H2.
      destruct (trackMfmaCoissue st && info_usesMfmaCoissue b); lia.
    + apply andb_true_iff in Hc as [Hc Hb]. specialize (H3 Hc).
      apply andb_true_iff in Hc as [Htk _]. rewrite Htk, Hb in Hslot.
      simpl in Hslot. lia.
  - rewrite <-Htr. eapply IH; [exact Hs'|exact Hall| |exact Hb|exact Hj].
    rewrite Htr. by apply heldUntil_commit.
Qed.

(** Inside a compute island instructions issue in order and a unit is held
    exclusively: of two instructions that use the same functional unit, or
    both the MFMA co-issue slot when it is tracked, the later one issues only
    when the earlier one's release slots are over. *)
Theorem island_units_exclusive st infos i j a b s t
    (Hs : unitsSized st) (Hall : Forall islandInfo infos) (Hij : (i < j)%nat)
    (Ha : infos !! i = Some a) (Hb : infos !! j = Some b)
    (Hsi : issueAll st infos !! i = Some s)
    (Htj : issueAll st infos !! j = Some t) :
  s + info_issueSlots a <= t
  /\ (competes (trackMfmaCoissue st) a b = true -> s + holdSlots a <= t).
Proof.
  revert st i j Hs Hall Hij Ha Hb Hsi Htj.
  induction infos as [|c infos IH]; intros st i j Hs Hall Hij Ha Hb Hsi Htj;
    [done|].
  apply Forall_cons in Hall as [Hi Hall].
  destruct (commitSlot_island st c Hi Hs) as (Hs' & Htr & _).
  destruct j as [|j]; [lia|]. simpl in Hb, Htj. rewrite <-Htr.
  destruct i as [|i]; simpl in Ha, Hsi.
  - injection Ha as <-. injection Hsi as <-.
    eapply issueAll_respects; [exact Hs'|exact Hall| |exact Hb|exact Htj].
    rewrite Htr. by apply commitSlot_holds.
  - eapply (IH _ i j); [exact Hs'|exact Hall|lia|done..].
Qed.

Lemma island_units_exclusive_witness : 0 + 16 <= 16.
Proof.
  set (mfma := mkScheduleInfo 1 16 FunctionalUnit.MFMA_XDL true true true).
  set (valu := mkScheduleInfo 1 1 FunctionalUnit.VALU true true false).
  destruct (island_units_exclusive (makeScheduleResourceState true)
    [mfma; valu; mfma] 0 2 mfma mfma 0 16) as [_ H];
    [reflexivity| |lia|reflexivity..|].
  - repeat constructor; simpl; try lia; discriminate.
  - exact (H eq_refl).
Defined.

(** ** Register budgets *)

(** The budget of a register class is the largest whole number of allocation
    granules that leaves one more granule within the limit, and nothing when
    there is no such number. *)
Theorem pressure_limit_leaves_granule limit granule
    (Hl : 0 <= limit) (Hg : 0 < granule) :
  let budget := getReadyRegisterPressureLimit limit granule in
  (granule | budget) /\ 0 <= budget
  /\ (budget <> 0 -> budget + granule <= limit)
  /\ (forall k, 0 <= k -> k * granule + granule <= limit ->
        k * granule <= budget).
Proof.
  unfold getReadyRegisterPressureLimit.
  replace (granule =? 0) with false by (symmetry; apply Z.eqb_neq; lia).
  pose proof (Z.div_mod limit granule ltac:(lia)) as Hdm.
  pose proof (Z.mod_pos_bound limit granule Hg) as Hm.
  set (q := limit / granule) in *. set (m := limit mod granule) in *.
  destruct (Z.ltb_spec granule (limit - m)) as [Hlt|Hge].
  - split_and!; [exists (q - 1); lia|lia|lia|].
    intros k Hk Hle. assert (k + 1 <= q) by nia. nia.
  - split_and!; [by exists 0|lia|lia|].
    intros k Hk Hle. assert (q <= 1) by nia. assert (k + 1 <= q) by nia. nia.
Qed.

Lemma pressure_limit_leaves_granule_witness :
  (16 | getReadyRegisterPressureLimit 106 16)
  /\ 5 * 16 <= getReadyRegisterPressureLimit 106 16.
Proof.
  destruct (pressure_limit_leaves_granule 106 16 ltac:(lia) ltac:(lia))
    as (H1 & _ & _ & H2).
  split; [exact H1|apply H2; lia].
Defined.

(** A register class stays within a ceiling, or within what the baseline does
    anyway. *)
Definition classWithin (current delta baseline limit granule ceiling : Z) :
    Prop :=
  current + delta
  <= Z.max (Z.max (getReadyRegisterPressureLimit limit granule) ceiling)
       (current + baseline)
  /\ (0 < delta ->
      current + delta
      <= Z.max (getReadyRegisterPressureLimit limit granule) ceiling).

Lemma canUseReadyRegisterClass_within current delta limit :
  canUseReadyRegisterClass current delta limit = true ->
  0 < delta -> current + delta <= limit.
Proof.
  unfold canUseReadyRegisterClass. intros Hc Hd.
  replace (delta <=? 0) with false in Hc by (symmetry; apply Z.leb_gt; lia).
  apply andb_true_iff in Hc as [_ Hc]. lia.
Qed.

Lemma class_within current delta baseline limit granule ceiling :
  canUseReadyRegisterClass current delta
    (getReadyRegisterPressureCeiling limit granule ceiling) = true ->
  canUseReadyRegisterClassAgainstBaseline current delta baseline limit granule
    = true ->
  classWithin current delta baseline limit granule ceiling.
Proof.
  intros Hc Hb. unfold canUseReadyRegisterClassAgainstBaseline in Hb.
  apply Z.leb_le in Hb. split; [lia|]. intros Hd.
  pose proof (canUseReadyRegisterClass_within _ _ _ Hc Hd) as Hle.
  unfold getReadyRegisterPressureCeiling in Hle. lia.
Qed.

(** With several issue streams, a candidate that may be selected before the
    baseline raises no register class, and no vector family, above its budget
    (or the region's own ceiling) unless the baseline alone does so too. *)
Theorem selected_candidate_within_budget m current candidate baseline
    (Hm : 1 < issueStreams m)
    (Hsel : canSelectReadyCandidate m current candidate baseline = true) :
  let limits := pressureLimits m in
  let c := pressurePeakDelta candidate in
  let b := pressurePeakDelta baseline in
  let ceiling := pressureCeiling candidate in
  classWithin (p_sgpr current) (p_sgpr c) (p_sgpr b) (l_sgpr limits)
    (sgprAllocGranule limits) (c_sgpr ceiling)
  /\ classWithin (p_vgpr current) (p_vgpr c) (p_vgpr b) (l_vgpr limits)
       (l_vgprAllocGranule limits) (c_vgpr ceiling)
  /\ classWithin (p_agpr current) (p_agpr c) (p_agpr b) (l_agpr limits)
       (agprAllocGranule limits) (c_agpr ceiling)
  /\ (l_vgprFamily limits <> 0 ->
      classWithin (p_vgpr current + p_agpr current)
        (vgprFamilyPeakDelta candidate) (vgprFamilyPeakDelta baseline)
        (l_vgprFamily limits) (familyGranule limits) (c_vgprFamily ceiling)).
Proof.
  intros limits c b ceiling. unfold canSelectReadyCandidate in Hsel.
  replace (issueStreams m <=? 1) with false in Hsel
    by (symmetry; apply Z.leb_gt; lia).
  fold limits in Hsel.
  destruct (canUseReadyCandidate current candidate limits) eqn:Huse; [|done].
  cbn [negb] in Hsel.
  unfold canUseReadyCandidateAgainstBaseline,
    canUseReadyVectorCandidateAgainstBaseline in Hsel.
  unfold canUseReadyCandidate in Huse. fold c b ceiling in Hsel, Huse.
  repeat match goal with
  | Hx : (if negb ?x then false else _) = true |- _ =>
      let E := fresh "E" in destruct x eqn:E; cbn [negb] in Hx; [|done]
  | Hx : (if negb ?x || negb ?y then false else _) = true |- _ =>
      let E := fresh "E" in let F := fresh "F" in
      destruct x eqn:E, y eqn:F; cbn [negb orb] in Hx; try done
  end.
  split_and!; try (by apply class_within).
  intros Hfam. apply Z.eqb_neq in Hfam. rewrite Hfam in Hsel, Huse.
  cbn [negb] in Hsel. by apply class_within.
Qed.

Lemma selected_candidate_within_budget_witness :
  classWithin 0 10 0 64 8 0.
Proof.
  set (p := mkPressure 0 0 0). set (d := mkPressure 0 10 0).
  set (ceil := mkCeiling 0 0 0 0).
  destruct (selected_candidate_within_budget
    (mkScheduleModel (mkLimits 64 64 64 128 8 8 8) 0 2 1) p
    (mkMetrics d d 10 ceil 0) (mkMetrics p p 0 ceil 0)) as (_ & H & _);
    [reflexivity|vm_compute; reflexivity|exact H].
Defined.

(** ** Preference among fillers *)

(** The two keys [shouldPreferReadyFiller] compares. *)
Definition fillerFamily (limits : ReadyRegisterPressureLimits)
    (metrics : ReadyCandidateMetrics) : Z :=
  if l_vgprFamily limits =? 0 then 0
  else p_vgpr (pressureDelta metrics) + p_agpr (pressureDelta metrics).

Definition fillerScore (limits : ReadyRegisterPressureLimits)
    (current : ReadyRegisterPressure) (metrics : ReadyCandidateMetrics) : Z :=
  maximum (getReadyRegisterPressureScore current metrics limits).

Lemma shouldPreferReadyFiller_spec m current a b :
  shouldPreferReadyFiller m current a b = true
  <-> 1 < readyPressureWaveCohort m
      /\ (fillerFamily (pressureLimits m) a < fillerFamily (pressureLimits m) b
          \/ (fillerFamily (pressureLimits m) a
              = fillerFamily (pressureLimits m) b
              /\ fillerScore (pressureLimits m) current a
                 < fillerScore (pressureLimits m) current b)).
Proof.
  unfold shouldPreferReadyFiller, fillerFamily, fillerScore. cbv zeta.
  set (s := maximum (getReadyRegisterPressureScore current a (pressureLimits m))).
  set (t := maximum (getReadyRegisterPressureScore current b (pressureLimits m))).
  destruct (Z.leb_spec (readyPressureWaveCohort m) 1); [split; [done|lia]|].
  destruct (l_vgprFamily (pressureLimits m) =? 0); cbn [negb andb].
  - destruct (Z.eqb_spec s t); cbn [negb]; [split; [done|lia]|].
    rewrite Z.ltb_lt. lia.
  - set (x := p_vgpr (pressureDelta a) + p_agpr (pressureDelta a)).
    set (y := p_vgpr (pressureDelta b) + p_agpr (pressureDelta b)).
    destruct (Z.eqb_spec x y); cbn [negb]; [|rewrite Z.ltb_lt; lia].
    destruct (Z.eqb_spec s t); cbn [negb]; [split; [done|lia]|].
    rewrite Z.ltb_lt. lia.
Qed.

(** The preference among ready fillers is a strict weak order, so the
    choice of a filler never cycles: it is irreflexive and transitive, and so
    is "neither is preferred" transitive. *)
Theorem filler_preference_weak_order m current :
  let prefer := shouldPreferReadyFiller m current in
  (forall a, prefer a a = false)
  /\ (forall a b c, prefer a b = true -> prefer b c = true -> prefer a c = true)
  /\ (forall a b c, prefer a b = false -> prefer b a = false ->
        prefer b c = false -> prefer c b = false ->
        prefer a c = false /\ prefer c a = false).
Proof.
  intros prefer. unfold prefer. split_and!.
  - intros a. apply not_true_iff_false. rewrite shouldPreferReadyFiller_spec. lia.
  - intros a b c. rewrite !shouldPreferReadyFiller_spec. lia.
  - intros a b c. rewrite <-!not_true_iff_false, !shouldPreferReadyFiller_spec.
    lia.
Qed.
