(* ===== verification/HazardSpec.v ===== *)
(** * Issue-slot hazards and bound values

    An instruction issues only when every issue slot its operands' hazards
    require is reached; binding the result of a structural operation joins what
    is known of its sources and touches nothing else. *)

From stdpp Require Import base tactics list gmap sorting strings.
From S2P Require Import Prelude CostEnums ArchData MachineIR LatencyTable.
From S2P Require Import OpClassifier MemoryTiming ScheduleModel.
From S2P Require Import ResourceState ExecState ExecOps Examples ExecLemmas.
From S2P Require Import WaitSpec QuerySpec.

(** ** The wait that a stall carries *)

Definition isHazardKind (kind : InstructionStallKind.t) : bool :=
  match kind with
  | InstructionStallKind.InstructionHazard | InstructionStallKind.M0ReadWrite
  | InstructionStallKind.StoreWriteData => true
  | _ => false
  end.

Lemma getIssueHazardWait_ge stall c :
  c ∈ components stall -> isHazardKind (comp_kind c) = true ->
  u32 (comp_cycles c) <= getIssueHazardWait stall.
Proof.
  unfold getIssueHazardWait. intros Hin Hk.
  set (f := fun wait component => _).
  assert (forall l w, w <= fold_left f l w) as Hmono.
  { induction l as [|d l IH]; intros w; simpl; [lia|].
    etransitivity; [|apply IH]. unfold f. destruct (comp_kind d); lia. }
  generalize 0. induction Hin as [c l|c d l Hin IH]; intros w; simpl.
  - etransitivity; [|apply Hmono]. unfold f.
    destruct (comp_kind c); try done; lia.
  - by apply IH.
Qed.

Lemma addIssueHazards_wait `{LLVMTarget} arch st op desc stall :
  0 < issueSlotHazardWait arch st op desc ->
  mkComponent InstructionStallKind.InstructionHazard
    (issueSlotHazardWait arch st op desc) InstructionResourceKind.None
    InstructionResourceScope.Wave
  ∈ components (addIssueHazards arch st op desc stall).
Proof. intros Hw. unfold addIssueHazards. by apply addComponent_in. Qed.

Lemma queryWithResources_hazard `{LLVMTarget} arch config st op desc shared
    placement stall :
  queryWithResources arch config st op desc shared placement = Ok stall ->
  0 < issueSlotHazardWait arch st op desc ->
  u32 (issueSlotHazardWait arch st op desc) <= getIssueHazardWait stall.
Proof.
  intros Hq Hw.
  assert (mkComponent InstructionStallKind.InstructionHazard
            (issueSlotHazardWait arch st op desc) InstructionResourceKind.None
            InstructionResourceScope.Wave ∈ components stall) as Hin.
  { unfold queryWithResources in Hq.
    apply outcome_bind_Ok in Hq as (dep & _ & Hq).
    destruct shared as [res|].
    - apply outcome_bind_Ok in Hq as (s2 & _ & Hq).
      apply addSharedResourceStall_extends in Hq as [[_ Hle] _].
      apply Hle. by apply addIssueHazards_wait.
    - apply outcome_bind_Ok in Hq as (s2 & _ & [= <-]).
      by apply addIssueHazards_wait. }
  by apply getIssueHazardWait_ge in Hin.
Qed.

(** ** The slots the hazards of an operand require *)

Section Hazards.
Context `{LLVMTarget}.
Context (graph : UseGraph) (arch : ArchData)
  (config : InstructionExecutionConfig).

(** The ready slots that apply to operand [i] with value [v]: of a matrix
    result, of a vector result read by a matrix operation, of a
    transcendental or vector result read by a lane read, of a scalar result,
    of a permuted register. *)
Definition requiredSlots (op : Operation) (desc : InstructionDesc) (i : nat)
    (v : Value) (h : IssueSlotHazards) : list Z :=
  let legacy := legacyVALU desc
                && negb (hazardConfigEmpty (issueSlotHazardConfig arch)) in
  let vgpr := legacy && bool_decide (getRegClass v = Some RegClass.VGPR) in
  [mfmaOperandReadyAt op desc i h]
  ++ (if mfmaPasses desc =? 0 then [] else [valuWriteVGPRMfmaReadyAt h])
  ++ (if vgpr && negb (trans desc) then [transWriteVGPRReadyAt h] else [])
  ++ (if vgpr && laneRead desc then [valuWriteVGPRScalarReadyAt h] else [])
  ++ (if legacy && isValuScalarHazardResult (getRegClass v)
      then [valuWriteSGPRReadyAt h] else [])
  ++ match op_kind op with
     | VPermlane32SwapB32TupleOp => [valuWriteVGPRPermlane32SwapReadyAt h]
     | _ => []
     end.

Lemma issueSlotsUntil_spec ready current :
  0 <= issueSlotsUntil ready current < 4294967296
  /\ (ready - current < 4294967296 ->
      ready <= current + issueSlotsUntil ready current).
Proof.
  unfold issueSlotsUntil. destruct (Z.leb_spec ready current); [lia|].
  unfold u32. pose proof (Z.mod_pos_bound (ready - current) 4294967296).
  split; [lia|]. intros Hs. rewrite Z.mod_small; lia.
Qed.

(** The three waits of one operand. *)
Definition operandWait (st : InstructionExecutionState) (op : Operation)
    (desc : InstructionDesc) (i : nat) (v : Value) (h : IssueSlotHazards) : Z :=
  Z.max (Z.max (mfmaIssueSlotHazardWait st op desc i h)
           (legacyValuIssueSlotHazardWait arch st v desc h))
    (permlane32SwapIssueSlotHazardWait st op h).

Lemma operandWait_bound st op desc i v h :
  0 <= operandWait st op desc i v h < 4294967296.
Proof.
  pose proof (fun r => proj1 (issueSlotsUntil_spec r (currentIssueSlot st))) as Hs.
  assert (0 <= mfmaIssueSlotHazardWait st op desc i h < 4294967296) as Hm.
  { unfold mfmaIssueSlotHazardWait.
    pose proof (Hs (mfmaOperandReadyAt op desc i h)).
    pose proof (Hs (valuWriteVGPRMfmaReadyAt h)).
    destruct (negb (mfmaPasses desc =? 0)); lia. }
  assert (0 <= legacyValuIssueSlotHazardWait arch st v desc h < 4294967296) as Hl.
  { unfold legacyValuIssueSlotHazardWait.
    pose proof (Hs (transWriteVGPRReadyAt h)).
    pose proof (Hs (valuWriteVGPRScalarReadyAt h)).
    pose proof (Hs (valuWriteSGPRReadyAt h)).
    destruct (negb (legacyVALU desc) || _); [lia|].
    destruct (negb (trans desc)), (laneRead desc); repeat case_decide; lia. }
  assert (0 <= permlane32SwapIssueSlotHazardWait st op h < 4294967296) as Hp.
  { unfold permlane32SwapIssueSlotHazardWait.
    pose proof (Hs (valuWriteVGPRPermlane32SwapReadyAt h)).
    destruct (op_kind op); lia. }
  unfold operandWait. lia.
Qed.

Lemma elem_of_when {A} (b : bool) (x y : A) :
  x ∈ (if b then [y] else []) <-> b = true /\ x = y.
Proof.
  destruct b; rewrite ?list_elem_of_singleton, ?elem_of_nil; naive_solver.
Qed.

(** The wait of a legacy vector instruction covers each slot that applies. *)
Lemma legacyWait_covers st desc v h s :
  legacyVALU desc = true ->
  hazardConfigEmpty (issueSlotHazardConfig arch) = false ->
  (getRegClass v = Some RegClass.VGPR
   /\ ((trans desc = false /\ s = transWriteVGPRReadyAt h)
       \/ (laneRead desc = true /\ s = valuWriteVGPRScalarReadyAt h)))
  \/ (isValuScalarHazardResult (getRegClass v) = true
      /\ s = valuWriteSGPRReadyAt h) ->
  issueSlotsUntil s (currentIssueSlot st)
  <= legacyValuIssueSlotHazardWait arch st v desc h.
Proof.
  intros Hl Hc Hs. unfold legacyValuIssueSlotHazardWait. rewrite Hl, Hc.
  cbn [negb orb].
  pose proof (fun r => proj1 (proj1 (issueSlotsUntil_spec r (currentIssueSlot st))))
    as Hpos.
  pose proof (Hpos (transWriteVGPRReadyAt h)).
  pose proof (Hpos (valuWriteVGPRScalarReadyAt h)).
  destruct Hs as [[-> Hs]|[Hr ->]].
  - rewrite decide_False by (intros [|]; done). rewrite decide_True by done.
    destruct Hs as [[-> ->]|[-> ->]]; simpl; [destruct (laneRead desc); lia|].
    lia.
  - unfold isValuScalarHazardResult in Hr. apply orb_true_iff in Hr.
    rewrite !bool_decide_eq_true in Hr.
    rewrite (decide_True (P := _ \/ _)) by tauto. lia.
Qed.

Lemma operandWait_covers st op desc i v h s :
  s ∈ requiredSlots op desc i v h -> s - currentIssueSlot st < 4294967296 ->
  s <= currentIssueSlot st + operandWait st op desc i v h.
Proof.
  intros Hin Hs.
  pose proof (proj2 (issueSlotsUntil_spec s (currentIssueSlot st)) Hs) as Hu.
  assert (issueSlotsUntil s (currentIssueSlot st) <= operandWait st op desc i v h)
    as Hle; [|lia].
  unfold requiredSlots in Hin.
  assert (legacyVALU desc && negb (hazardConfigEmpty (issueSlotHazardConfig arch))
          = true -> forall P : Prop, (legacyVALU desc = true ->
          hazardConfigEmpty (issueSlotHazardConfig arch) = false -> P) -> P)
    as Hleg.
  { intros Hl P HP. apply andb_true_iff in Hl as [Hl Hc].
    apply negb_true_iff in Hc. auto. }
  set (legacy := legacyVALU desc && _) in *.
  rewrite !elem_of_app, list_elem_of_singleton, !elem_of_when in Hin.
  unfold operandWait.
  destruct Hin as [-> |[Hin|[[Hb Hin]|[[Hb Hin]|[[Hb Hin]|Hin]]]]].
  - unfold mfmaIssueSlotHazardWait.
    destruct (negb (mfmaPasses desc =? 0)); lia.
  - unfold mfmaIssueSlotHazardWait.
    destruct (mfmaPasses desc =? 0); [by apply elem_of_nil in Hin|].
    apply list_elem_of_singleton in Hin as ->. cbn [negb]. lia.
  - rewrite !andb_true_iff, bool_decide_eq_true, negb_true_iff in Hb.
    destruct Hb as [[Hl Hv] Ht]. apply (Hleg Hl). intros H1 H2.
    pose proof (legacyWait_covers st desc v h s H1 H2 ltac:(auto)). lia.
  - rewrite !andb_true_iff, bool_decide_eq_true in Hb.
    destruct Hb as [[Hl Hv] Ht]. apply (Hleg Hl). intros H1 H2.
    pose proof (legacyWait_covers st desc v h s H1 H2 ltac:(auto)). lia.
  - rewrite andb_true_iff in Hb. destruct Hb as [Hl Hv].
    apply (Hleg Hl). intros H1 H2.
    pose proof (legacyWait_covers st desc v h s H1 H2 ltac:(auto)). lia.
  - unfold permlane32SwapIssueSlotHazardWait.
    destruct (op_kind op); try (by apply elem_of_nil in Hin).
    apply list_elem_of_singleton in Hin as ->. lia.
Qed.

(** The wait of the whole operation covers each operand. *)
Lemma issueSlotHazardWait_operand st op desc i v h :
  op_operands op !! i = Some v -> issueSlotHazards st !! value_id v = Some h ->
  operandWait st op desc i v h <= issueSlotHazardWait arch st op desc.
Proof.
  intros Hv Hh. unfold issueSlotHazardWait. set (f := fun wait indexed => _).
  assert (forall l w, w <= fold_left f l w) as Hmono.
  { induction l as [|[j u] l IH]; intros w; simpl; [lia|].
    etransitivity; [|apply IH]. unfold f. case_match; lia. }
  pose proof (elem_of_enumerate _ _ _ Hv) as Hin. revert Hin.
  generalize (enumerate (op_operands op)), 0. intros l.
  induction l as [|iv l IH]; intros w Hin; [by apply elem_of_nil in Hin|].
  apply elem_of_cons in Hin as [<-|Hin]; simpl; [|by apply IH].
  etransitivity; [|apply Hmono]. unfold f. rewrite Hh. unfold operandWait. lia.
Qed.

Lemma issueSlotHazardWait_small st op desc :
  0 <= issueSlotHazardWait arch st op desc < 4294967296.
Proof.
  unfold issueSlotHazardWait. set (f := fun wait indexed => _).
  assert (forall l w, 0 <= w < 4294967296 -> 0 <= fold_left f l w < 4294967296)
    as Hl; [|apply Hl; lia].
  induction l as [|[j u] l IH]; intros w Hw; simpl; [done|]. apply IH. unfold f.
  destruct (issueSlotHazards st !! value_id u) as [h|]; [|done].
  pose proof (operandWait_bound st op desc j u h) as Hb. unfold operandWait in Hb.
  lia.
Qed.

(** The wait that a commit's stall carries. *)
Lemma getIssueHazardWait_nonneg stall : 0 <= getIssueHazardWait stall.
Proof.
  unfold getIssueHazardWait. generalize (components stall).
  assert (forall l w, 0 <= w -> 0 <= fold_left (fun wait component =>
    match comp_kind component with
    | InstructionStallKind.InstructionHazard | InstructionStallKind.M0ReadWrite
    | InstructionStallKind.StoreWriteData =>
        Z.max wait (u32 (comp_cycles component))
    | _ => wait
    end) l w) as Hl; [|intros l; by apply Hl].
  induction l as [|c l IH]; intros w Hw; simpl; [done|].
  apply IH. destruct (comp_kind c); lia.
Qed.

(** The slots looked at are among those recorded. *)
Lemma requiredSlots_among op desc i v h s :
  s ∈ requiredSlots op desc i v h ->
  s ∈ [0; valuWriteVGPRScalarReadyAt h; valuWriteVGPRMfmaReadyAt h;
       valuWriteVGPRPermlane32SwapReadyAt h; transWriteVGPRReadyAt h;
       valuWriteSGPRReadyAt h; mfmaResultReadyAt h; mfmaSrcCOverlapReadyAt h;
       mfmaSrcCExactReadyAt h].
Proof.
  unfold requiredSlots.
  rewrite !elem_of_app, list_elem_of_singleton, !elem_of_when.
  rewrite !elem_of_cons, elem_of_nil.
  intros [-> |[Hs|[[_ ->]|[[_ ->]|[[_ ->]|Hs]]]]]; auto 10.
  - unfold mfmaOperandReadyAt. repeat case_match; auto 10.
  - destruct (mfmaPasses desc =? 0); [by apply elem_of_nil in Hs|].
    apply list_elem_of_singleton in Hs as ->. auto 10.
  - destruct (op_kind op); try (by apply elem_of_nil in Hs).
    apply list_elem_of_singleton in Hs as ->. auto 10.
Qed.

Lemma requiredSlots_none op desc i v s :
  s ∈ requiredSlots op desc i v noHazards -> s = 0.
Proof.
  intros Hs%requiredSlots_among. simpl in Hs.
  rewrite !elem_of_cons, elem_of_nil in Hs. tauto.
Qed.

(** After the wait that its stall carries, a commit has reached every slot
    that the hazards of its operands require. *)
Lemma commit_waits st op shared placement r st' sh desc i v s :
  commitWithResources graph arch config st op shared placement = Ok (r, st', sh) ->
  describe graph arch config st op = Ok desc ->
  op_operands op !! i = Some v -> 0 <= currentIssueSlot st ->
  s ∈ requiredSlots op desc i v
        (default noHazards (issueSlotHazards st !! value_id v)) ->
  s - currentIssueSlot st < 4294967296 ->
  s <= currentIssueSlot st + getIssueHazardWait (result_stall r).
Proof.
  intros Hc Hd Hv Hpos Hs Hlt.
  destruct (commitWithResources_issueCycle _ _ _ _ _ _ _ _ _ _ Hc)
    as (_ & _ & desc' & Hd' & Hq & _).
  rewrite Hd in Hd'. injection Hd' as <-.
  pose proof (getIssueHazardWait_nonneg (result_stall r)).
  destruct (issueSlotHazards st !! value_id v) as [h|] eqn:Hh; simpl in Hs;
    [|apply requiredSlots_none in Hs; lia].
  pose proof (operandWait_covers _ _ _ _ _ _ _ Hs Hlt).
  pose proof (issueSlotHazardWait_operand st op desc i v h Hv Hh).
  pose proof (issueSlotHazardWait_small st op desc) as Hsmall.
  pose proof (operandWait_bound st op desc i v h).
  destruct (decide (0 < issueSlotHazardWait arch st op desc)); [|lia].
  pose proof (queryWithResources_hazard arch config st op desc shared placement
                _ Hq ltac:(done)) as Hw.
  rewrite u32_small in Hw by done. lia.
Qed.
End Hazards.

(** ** Bound values *)

Section Bind.
Implicit Types st : InstructionExecutionState.

(** The events behind a value used as a token. *)
Definition tokensOf st (v : Value) : list N :=
  default [] (tokenEvents st !! value_id v).

Lemma foldr_max_base (x y : Z) l :
  foldr Z.max (Z.max y x) l = Z.max x (foldr Z.max y l).
Proof. induction l; simpl; lia. Qed.

Lemma bindSource_fold st sources : forall b,
  let b' := fold_left (bindSource st) sources b in
  bound_ready b'
    = foldr Z.max (bound_ready b) (getValueReadyCycle st <$> sources)
  /\ (forall id, id ∈ bound_tokenDeps b'
        <-> id ∈ bound_tokenDeps b
            \/ exists v, v ∈ sources /\ id ∈ tokensOf st v).
Proof.
  induction sources as [|v sources IH]; intros b; simpl.
  - split; [done|]. intros id. split; [auto|].
    intros [|(v & Hv & _)]; [done|]. by apply elem_of_nil in Hv.
  - destruct (IH (bindSource st b v)) as [Hr Ht]. split.
    + simpl in Hr. rewrite Hr. apply foldr_max_base.
    + intros id. rewrite Ht. unfold bindSource. simpl.
      assert (id ∈ (match tokenEvents st !! value_id v with
                    | Some tokens => appendUniqueEvents (bound_tokenDeps b) tokens
                    | None => bound_tokenDeps b
                    end) <-> id ∈ bound_tokenDeps b \/ id ∈ tokensOf st v) as ->.
      { unfold tokensOf. destruct (tokenEvents st !! value_id v); simpl.
        - apply elem_of_appendUniqueEvents.
        - rewrite elem_of_nil. tauto. }
      setoid_rewrite elem_of_cons. naive_solver.
Qed.

(** The result of a structural operation is ready when the last of its
    sources is, at the current cycle at the earliest; it carries the tokens of
    all its sources; what is known of every other value, and the clock, the
    events and the queues of the wave are left alone. *)
Theorem bindValue_joins st result sources :
  let st' := bindValue st result sources in
  getValueReadyCycle st' result
    = foldr Z.max (currentCycle st) (getValueReadyCycle st <$> sources)
  /\ (forall id, id ∈ tokensOf st' result
        <-> exists v, v ∈ sources /\ id ∈ tokensOf st v)
  /\ (forall v, value_id v <> value_id result ->
        getValueReadyCycle st' v = getValueReadyCycle st v
        /\ tokensOf st' v = tokensOf st v
        /\ valueEvent st' !! value_id v = valueEvent st !! value_id v
        /\ issueSlotHazards st' !! value_id v
           = issueSlotHazards st !! value_id v)
  /\ sameTiming st st'.
Proof.
  intros st'. pose proof (bindSource_fold st sources
    (mkBound (currentCycle st) [] None noHazards)) as [Hr Ht].
  cbv zeta in Hr, Ht. cbn [bound_ready bound_tokenDeps] in Hr, Ht.
  assert (forall {A} (k : N) (o : option A) (m : gmap N A) j, j <> k ->
            assignOrErase k o m !! j = m !! j) as Hne.
  { intros A k o m j Hj. unfold assignOrErase.
    destruct o; [by rewrite lookup_insert_ne|by rewrite lookup_delete_ne]. }
  split_and!; [| | |apply bindValue_sameTiming].
  - unfold st', bindValue, getValueReadyCycle at 1. simpl.
    by rewrite lookup_insert_eq.
  - intros id. unfold st', bindValue, tokensOf at 1. simpl.
    transitivity (id ∈ bound_tokenDeps (fold_left (bindSource st) sources
                         (mkBound (currentCycle st) [] None noHazards))).
    + unfold assignOrErase.
      destruct (bound_tokenDeps _) as [|x l];
        [by rewrite lookup_delete_eq|by rewrite lookup_insert_eq].
    + rewrite Ht. rewrite elem_of_nil. naive_solver.
  - intros v Hv. unfold st', bindValue, getValueReadyCycle, tokensOf. simpl.
    rewrite lookup_insert_ne by done. rewrite !Hne by done. done.
Qed.
End Bind.

(** ** Histories of a wave

    What happens to the issue state of a wave: an operation is committed, the
    result of a structural operation is bound, the wave is held up to a
    cycle. *)

Inductive Event : Type :=
  | Issue (op : Operation) (desc : InstructionDesc)
      (result : InstructionCommitResult)
  | Bind (result : Value) (sources : list Value)
  | Advance (cycle : Z).

(** The issue slots that pass with an event: those waited for, and those of
    the instruction. *)
Definition eventSlots (e : Event) : Z :=
  match e with
  | Issue _ desc r =>
      getIssueHazardWait (result_stall r)
      + (if noMachineInst desc then 0 else issueSlots desc)
  | _ => 0
  end.

Definition slotsOf (evs : list Event) : Z := sum_list_Z (eventSlots <$> evs).

Definition eventResults (e : Event) : list Value :=
  match e with
  | Issue op _ _ => op_results op
  | Bind result _ => [result]
  | Advance _ => []
  end.

(** A binding that only renames: one source, of the same type. *)
Definition renames (result : Value) (sources : list Value) : bool :=
  match sources with
  | [source] => bool_decide (value_type result = value_type source)
  | _ => false
  end.

(** [passes e v w rebound]: after [e], [w] holds what [v] held before it;
    [rebound] when the event did more than rename it. *)
Inductive passes (e : Event) (v : Value) : Value -> bool -> Prop :=
  | passes_keep :
      value_id v ∉ value_id <$> eventResults e -> passes e v v false
  | passes_bind result sources :
      e = Bind result sources -> v ∈ sources ->
      passes e v result (negb (renames result sources))
  | passes_move op desc r before result after :
      e = Issue op desc r -> noMachineInst desc = true ->
      dropsTokenCompletion op = false -> v ∈ op_operands op ->
      op_results op = before ++ result :: after ->
      value_id v ∉ value_id <$> before ->
      value_id result ∉ value_id <$> after ->
      passes e v result (negb (renames result (op_operands op))).

(** Along a history. *)
Inductive carries (v0 : Value) : list Event -> Value -> bool -> Prop :=
  | carries_nil : carries v0 [] v0 false
  | carries_snoc evs v rebound e w rebound' :
      carries v0 evs v rebound -> passes e v w rebound' ->
      carries v0 (evs ++ [e]) w (rebound || rebound').

(** *** The hazard distances, as numbers

    Issue slots between the end of the producer and the consumer. *)

Definition matrixPasses (op : Operation) (cls : SchedClass.t) : option Z :=
  if hasTrait op Trait.MFMAOp then
    match cls with
    | SchedClass.Write2PassMAI => Some 2
    | SchedClass.Write4PassMAI => Some 4
    | SchedClass.Write8PassMAI => Some 8
    | SchedClass.Write16PassMAI => Some 16
    | _ => None
    end
  else None.

(** From a matrix operation of [passes] passes: to a reader of the result, to
    an accumulation into an overlapping register, to an accumulation into the
    register itself. *)
Definition matrixDistances (isa : IsaVersion) (passes : Z) : Z * Z * Z :=
  if (Major isa =? 9) && (Minor isa =? 4)
  then (passes + 3, passes + 1, if passes =? 2 then 2 else 0)
  else if (Major isa =? 9) && (Minor isa =? 5)
  then if passes =? 2 then (5, 4, 2) else (passes + 4, passes + 2, 0)
  else (8, 6, 0).

(** What waits for a matrix result: a matrix operation that reads it as a
    factor, a memory operation and a vector instruction. *)
Definition readsMatrixResult (op : Operation) (cls : SchedClass.t)
    (index : nat) : Prop :=
  match matrixPasses op cls with
  | Some _ => index <> 2%nat
  | None =>
      hasTrait op Trait.VMEMLoadOp = true \/ hasTrait op Trait.VMEMStoreOp = true
      \/ event (getWaitcntInfo op) = WaitcntEvent.Lds \/ isLegacyVALU op = true
  end.

(** A vector instruction other than a matrix operation, on CDNA3 and CDNA4. *)
Definition vectorOp (isa : IsaVersion) (op : Operation) (cls : SchedClass.t) :
    Prop :=
  Major isa = 9 /\ (Minor isa = 4 \/ Minor isa = 5)
  /\ hasTrait op Trait.VALUOp = true /\ hasTrait op Trait.MFMAOp = false
  /\ cls <> SchedClass.NoInst.

(** A vector instruction all of whose registers written are scalar. *)
Definition readsLane (op : Operation) : Prop :=
  Exists (fun v => getRegClass v = Some RegClass.SGPR) (op_results op)
  /\ Forall (fun v => getRegClass v = Some RegClass.SGPR
                      \/ getRegClass v = None) (op_results op).

Definition isScalar (v : Value) : Prop :=
  getRegClass v = Some RegClass.SGPR \/ getRegClass v = Some RegClass.VCC.

Definition isVector (v : Value) : Prop := getRegClass v = Some RegClass.VGPR.

(** [hazardDistance isa producer pcls result consumer ccls index operand
    rebound d]: between [producer], which writes [result], and [consumer],
    which reads it as its operand number [index], there are [d] slots. *)
Inductive hazardDistance (isa : IsaVersion) (producer : Operation)
    (pcls : SchedClass.t) (result : Value) (consumer : Operation)
    (ccls : SchedClass.t) (index : nat) (operand : Value) (rebound : bool) :
    Z -> Prop :=
  | matrix_read passes :
      matrixPasses producer pcls = Some passes ->
      readsMatrixResult consumer ccls index ->
      hazardDistance isa producer pcls result consumer ccls index operand
        rebound (matrixDistances isa passes).1.1
  | matrix_overlap passes :
      matrixPasses producer pcls = Some passes ->
      is_Some (matrixPasses consumer ccls) -> index = 2%nat -> rebound = true ->
      hazardDistance isa producer pcls result consumer ccls index operand
        rebound (matrixDistances isa passes).1.2
  | matrix_accumulate passes :
      matrixPasses producer pcls = Some passes ->
      is_Some (matrixPasses consumer ccls) -> index = 2%nat -> rebound = false ->
      hazardDistance isa producer pcls result consumer ccls index operand
        rebound (matrixDistances isa passes).2
  | vector_to_matrix :
      vectorOp isa producer pcls -> isVector result ->
      is_Some (matrixPasses consumer ccls) ->
      hazardDistance isa producer pcls result consumer ccls index operand
        rebound 2
  | vector_to_lane :
      vectorOp isa producer pcls -> isVector result ->
      vectorOp isa consumer ccls -> readsLane consumer -> isVector operand ->
      hazardDistance isa producer pcls result consumer ccls index operand
        rebound 1
  | vector_to_swap :
      vectorOp isa producer pcls -> isVector result ->
      isa = mkIsaVersion 9 5 0 ->
      op_kind consumer = VPermlane32SwapB32TupleOp ->
      hazardDistance isa producer pcls result consumer ccls index operand
        rebound 2
  | transcendental_to_vector :
      vectorOp isa producer pcls -> isVector result ->
      pcls = SchedClass.WriteTrans32 -> vectorOp isa consumer ccls ->
      ccls <> SchedClass.WriteTrans32 -> isVector operand ->
      hazardDistance isa producer pcls result consumer ccls index operand
        rebound 1
  | scalar_to_vector :
      vectorOp isa producer pcls -> isScalar result ->
      vectorOp isa consumer ccls -> isScalar operand ->
      hazardDistance isa producer pcls result consumer ccls index operand
        rebound 2.

(** *** The order of the ready slots *)

(** Every ready slot of one is at most that of the other. *)
Definition hle (x y : IssueSlotHazards) : Prop :=
  valuWriteVGPRScalarReadyAt x <= valuWriteVGPRScalarReadyAt y
  /\ valuWriteVGPRMfmaReadyAt x <= valuWriteVGPRMfmaReadyAt y
  /\ valuWriteVGPRPermlane32SwapReadyAt x
     <= valuWriteVGPRPermlane32SwapReadyAt y
  /\ transWriteVGPRReadyAt x <= transWriteVGPRReadyAt y
  /\ valuWriteSGPRReadyAt x <= valuWriteSGPRReadyAt y
  /\ mfmaResultReadyAt x <= mfmaResultReadyAt y
  /\ mfmaSrcCOverlapReadyAt x <= mfmaSrcCOverlapReadyAt y
  /\ mfmaSrcCExactReadyAt x <= mfmaSrcCExactReadyAt y.
#[local] Instance hle_preorder : PreOrder hle.
Proof. split; [repeat split; lia|]. intros x y z. unfold hle. lia. Qed.

Definition allSlots (c : Z) : IssueSlotHazards := mkHazards c c c c c c c c.

(** What is recorded for a value; nothing is like no hazard. *)
Definition hazardsOf (st : InstructionExecutionState) (v : Value) :
    IssueSlotHazards :=
  default noHazards (issueSlotHazards st !! value_id v).

(** The ready slots [x] opened by a result stand at what carries it. *)
Definition tracked (x : IssueSlotHazards) (rebound : bool)
    (h : IssueSlotHazards) : Prop :=
  if rebound
  then hle (set_mfmaSrcCExactReadyAt 0 x) h /\ mfmaSrcCExactReadyAt h = 0
  else hle x h.

(** Bounds on what is recorded. *)
Definition within (c : Z) (h : IssueSlotHazards) : Prop :=
  hle noHazards h /\ hle h (allSlots c).

Definition allWithin (c : Z) (st : InstructionExecutionState) : Prop :=
  forall k h, issueSlotHazards st !! k = Some h -> within c h.

Ltac hle_lia := unfold tracked, hle, join_hazards, set_mfmaSrcCExactReadyAt,
  allSlots, noHazards in *; simpl in *; lia.

Lemma hazardsEmpty_none h : hazardsEmpty h = true -> h = noHazards.
Proof.
  unfold hazardsEmpty. rewrite !andb_true_iff, !Z.eqb_eq.
  destruct h; simpl. intros. by destruct_and!; subst.
Qed.

Section Binding.
Implicit Types st : InstructionExecutionState.

Lemma bindSource_hazards st sources : forall b,
  let b' := fold_left (bindSource st) sources b in
  hle (bound_hazards b) (bound_hazards b')
  /\ (forall v h, v ∈ sources -> issueSlotHazards st !! value_id v = Some h ->
        hle h (bound_hazards b'))
  /\ (forall c, hle (bound_hazards b) (allSlots c) -> allWithin c st ->
        hle (bound_hazards b') (allSlots c)).
Proof.
  induction sources as [|v sources IH]; intros b; simpl.
  { split_and!; [done| |auto]. intros v h Hv. by apply elem_of_nil in Hv. }
  destruct (IH (bindSource st b v)) as (H1 & H2 & H3).
  set (b' := fold_left _ _ _) in *. unfold bindSource in H1, H3. simpl in H1, H3.
  split_and!.
  - destruct (issueSlotHazards st !! value_id v) as [h|]; [hle_lia|done].
  - intros w h Hw Hh. apply elem_of_cons in Hw as [-> |Hw]; [|by eapply H2].
    rewrite Hh in H1. hle_lia.
  - intros c Hb Hall. apply H3; [|done].
    destruct (issueSlotHazards st !! value_id v) as [h|] eqn:Hh; [|done].
    apply Hall in Hh as [_ Hh]. hle_lia.
Qed.

(** The hazards that a binding records for its result. *)
Definition boundHazards st (result : Value) (sources : list Value) :
    IssueSlotHazards :=
  let h := bound_hazards (fold_left (bindSource st) sources
             (mkBound (currentCycle st) [] None noHazards)) in
  if renames result sources then h else set_mfmaSrcCExactReadyAt 0 h.

Lemma bindValue_hazards st result sources :
  hazardsOf (bindValue st result sources) result
  = boundHazards st result sources
  /\ (forall v, value_id v <> value_id result ->
        hazardsOf (bindValue st result sources) v = hazardsOf st v).
Proof.
  unfold hazardsOf, bindValue, boundHazards. simpl. split.
  - set (h := if renames result sources then _ else _).
    change (if match sources with [source] => _ | _ => false end then _ else _)
      with h. unfold assignOrErase. destruct (hazardsEmpty h) eqn:He.
    + rewrite lookup_delete_eq. simpl. symmetry. by apply hazardsEmpty_none.
    + by rewrite lookup_insert_eq.
  - intros v Hv. unfold assignOrErase. case_match; simpl.
    + by rewrite lookup_insert_ne.
    + by rewrite lookup_delete_ne.
Qed.

Lemma bindValue_tracked st result sources v x rebound :
  v ∈ sources -> 0 <= mfmaSrcCExactReadyAt x ->
  tracked x rebound (hazardsOf st v) ->
  tracked x (rebound || negb (renames result sources))
    (hazardsOf (bindValue st result sources) result).
Proof.
  intros Hv Hx Ht. rewrite (proj1 (bindValue_hazards st result sources)).
  unfold boundHazards.
  destruct (bindSource_hazards st sources
              (mkBound (currentCycle st) [] None noHazards)) as (H1 & H2 & _).
  set (h := bound_hazards (fold_left _ _ _)) in *. simpl in H1.
  assert (hle (hazardsOf st v) h) as Hle.
  { unfold hazardsOf. destruct (issueSlotHazards st !! value_id v) eqn:Hh;
      [by eapply H2|done]. }
  destruct (renames result sources) eqn:Hr; simpl;
    [rewrite orb_false_r|rewrite orb_true_r].
  - destruct rebound; [|simpl in *; by etransitivity].
    destruct Ht as [Ht H0]. split; [by etransitivity|].
    unfold renames in Hr. destruct sources as [|s [|]]; try done.
    apply list_elem_of_singleton in Hv as <-. unfold h, hazardsOf in *. simpl.
    destruct (issueSlotHazards st !! value_id v); simpl in *; [by rewrite H0|done].
  - assert (tracked x true (hazardsOf st v) \/ hle x (hazardsOf st v)) as Hc
      by (destruct rebound; auto).
    split; [|done]. destruct Hc as [[Hc _]|Hc]; hle_lia.
Qed.

Lemma assignOrErase_within c k (o : option IssueSlotHazards) st st' :
  issueSlotHazards st' = assignOrErase k o (issueSlotHazards st) ->
  (forall h, o = Some h -> within c h) -> allWithin c st ->
  allWithin c st'.
Proof.
  intros Heq Ho Hall j h. rewrite Heq. unfold assignOrErase. destruct o as [h'|].
  - rewrite lookup_insert_Some. naive_solver.
  - rewrite lookup_delete_Some. naive_solver.
Qed.

Lemma bindValue_within c st result sources :
  0 <= c -> allWithin c st -> allWithin c (bindValue st result sources).
Proof.
  intros Hc Hall. eapply assignOrErase_within; [reflexivity| |done].
  intros h. destruct (bindSource_hazards st sources
              (mkBound (currentCycle st) [] None noHazards)) as (H1 & _ & H3).
  specialize (H3 c). case_match; [done|]. intros [= <-].
  assert (within c (bound_hazards (fold_left (bindSource st) sources
            (mkBound (currentCycle st) [] None noHazards)))) as Hb
    by (split; [exact H1|apply H3; [hle_lia|exact Hall]]).
  unfold within in *. case_match; [done|hle_lia].
Qed.

(** *** The results of an operation that emits nothing *)

Definition bindResults st (sources results : list Value) :
    InstructionExecutionState :=
  fold_left (fun st result => bindValue st result sources) results st.

Lemma commitNoMachineInst_binds op st :
  (commitNoMachineInst op st).2
  = bindResults st (if dropsTokenCompletion op then [] else op_operands op)
      (op_results op).
Proof.
  unfold commitNoMachineInst, bindResults. generalize (currentCycle st).
  generalize (op_results op). intros l. revert st.
  induction l as [|v l IH]; intros st ready; simpl; [done|apply IH].
Qed.

Lemma bindResults_keep st sources results v :
  value_id v ∉ value_id <$> results ->
  hazardsOf (bindResults st sources results) v = hazardsOf st v.
Proof.
  revert st. induction results as [|w l IH]; intros st Hv; simpl; [done|].
  rewrite fmap_cons, not_elem_of_cons in Hv. destruct Hv as [Hne Hv].
  transitivity (hazardsOf (bindValue st w sources) v); [by apply IH|].
  by apply bindValue_hazards.
Qed.

Lemma bindResults_within c st sources results :
  0 <= c -> allWithin c st -> allWithin c (bindResults st sources results).
Proof.
  intros Hc. revert st. induction results as [|w l IH]; intros st Hall; [done|].
  simpl. by apply IH, bindValue_within.
Qed.

Lemma bindResults_tracked st sources before result after v x rebound :
  v ∈ sources -> 0 <= mfmaSrcCExactReadyAt x ->
  value_id v ∉ value_id <$> before -> value_id result ∉ value_id <$> after ->
  tracked x rebound (hazardsOf st v) ->
  tracked x (rebound || negb (renames result sources))
    (hazardsOf (bindResults st sources (before ++ result :: after)) result).
Proof.
  intros Hv Hx Hb Ha Ht. unfold bindResults. rewrite fold_left_app. simpl.
  fold (bindResults st sources before).
  set (st1 := bindValue (bindResults st sources before) result sources).
  fold (bindResults st1 sources after). rewrite (bindResults_keep _ _ _ _ Ha).
  unfold st1. apply (bindValue_tracked _ _ _ v); [done..|].
  by rewrite bindResults_keep.
Qed.
End Binding.

(** ** The slot clock and the hazards of a commit *)

Section History.
Context `{LLVMTarget}.
Context (graph : UseGraph) (arch : ArchData)
  (config : InstructionExecutionConfig).

(** The code of each event. *)
Inductive step (st : InstructionExecutionState) : Event ->
    InstructionExecutionState -> Prop :=
  | step_issue op shared placement desc r st' shared' :
      describe graph arch config st op = Ok desc ->
      commitWithResources graph arch config st op shared placement
        = Ok (r, st', shared') ->
      step st (Issue op desc r) st'
  | step_bind result sources :
      step st (Bind result sources) (bindValue st result sources)
  | step_advance cycle st' :
      advanceToCycle cycle st = Ok st' -> step st (Advance cycle) st'.

(** [runs st evs st']: the events lead from [st] to [st']. *)
Inductive runs (st : InstructionExecutionState) : list Event ->
    InstructionExecutionState -> Prop :=
  | runs_nil : runs st [] st
  | runs_snoc evs st1 e st2 :
      runs st evs st1 -> step st1 e st2 -> runs st (evs ++ [e]) st2.

(** Steps that leave the hazards and the slot clock alone. *)
Record sameHazards (st st' : InstructionExecutionState) : Prop := {
  sh_hazards : issueSlotHazards st' = issueSlotHazards st;
  sh_slot : currentIssueSlot st' = currentIssueSlot st
}.
#[local] Instance sameHazards_preorder : PreOrder sameHazards.
Proof. split; [by split|]. intros ??? [] []. split; congruence. Qed.

Lemma commitM0_sameHazards desc st : sameHazards st (commitM0 arch desc st).
Proof. unfold commitM0. by repeat case_match. Qed.

Lemma commitStoreData_sameHazards desc st :
  sameHazards st (commitStoreData desc st).
Proof. unfold commitStoreData. by repeat case_match. Qed.

Lemma commitCoexecution_sameHazards desc st :
  sameHazards st (commitCoexecution desc st).
Proof. unfold commitCoexecution. by repeat case_match. Qed.

Lemma commitMemoryEvents_sameHazards op desc cyc st new st' :
  commitMemoryEvents arch config op desc cyc st = Ok (new, st') ->
  sameHazards st st'.
Proof.
  unfold commitMemoryEvents. case_decide; [by intros [= <- <-]|].
  intros Hc. apply outcome_bind_Ok in Hc as (q & _ & [= Hc]).
  pose proof (fold_pair_preorder sameHazards
    (commitMemoryEvent arch config op desc cyc q)
    (issueSeq (counterIssueCount desc)) ([], st)) as Hf.
  rewrite Hc in Hf. simpl in Hf. apply Hf. intros c a b. by split.
Qed.

Lemma commitResults_sameHazards op desc cyc new st :
  sameHazards st (commitResults arch config op desc cyc new st).
Proof.
  unfold commitResults. apply (fold_left_preorder sameHazards). intros a v.
  unfold commitResult. destruct (isMemToken v); [by split|].
  by destruct (last new).
Qed.

Lemma commitMemoryIssue_sameHazards desc cyc st :
  sameHazards st (commitMemoryIssue arch config desc cyc st).
Proof.
  unfold commitMemoryIssue. apply (fold_left_preorder sameHazards). intros a v.
  by repeat case_match.
Qed.

Lemma commitResources_sameHazards op desc shared placement cyc ready st st' sh :
  commitResources arch config op desc shared placement cyc ready st
    = Ok (st', sh) -> sameHazards st st'.
Proof.
  unfold commitResources. intros Hc. destruct shared as [res|].
  - apply outcome_bind_Ok in Hc as (u & _ & Hc).
    apply outcome_bind_Ok in Hc as (res' & _ & [= <- _]).
    apply commitMemoryIssue_sameHazards.
  - apply outcome_bind_Ok in Hc as (st1 & Hp & [= <- _]).
    assert (sameHazards st st1) as H1.
    { unfold commitPipe in Hp. case_decide; [by injection Hp as <-|].
      by apply outcome_bind_Ok in Hp as (q & _ & [= <-]). }
    etransitivity; [exact H1|].
    etransitivity; [|apply commitMemoryIssue_sameHazards]. by case_match.
Qed.

(** What a commit does to the hazards and to the slot clock. *)
Lemma commit_slots st op shared placement desc r st' sh :
  describe graph arch config st op = Ok desc ->
  commitWithResources graph arch config st op shared placement = Ok (r, st', sh) ->
  let waited := u64 (currentIssueSlot st
                     + getIssueHazardWait (result_stall r)) in
  exists st1, issueSlotHazards st1 = issueSlotHazards st
  /\ currentIssueSlot st' = currentIssueSlot st1
  /\ if noMachineInst desc
     then currentIssueSlot st1 = waited
          /\ issueSlotHazards st' = issueSlotHazards (commitNoMachineInst op st1).2
     else currentIssueSlot st1 = u64 (waited + issueSlots desc)
          /\ issueSlotHazards st'
             = issueSlotHazards (commitIssueSlotHazards arch op desc st1).
Proof.
  intros Hd Hc waited.
  apply commitWithResources_inv in Hc as (desc' & stall & Hd' & Hq & Hc).
  rewrite Hd in Hd'. injection Hd' as <-.
  set (st0 := beginIssue desc stall st) in Hc.
  assert (issueSlotHazards st0 = issueSlotHazards st
          /\ currentIssueSlot st0
             = u64 (currentIssueSlot st + getIssueHazardWait stall)) as [Hh0 Hs0].
  { subst st0. unfold beginIssue, consumeCoexecutionWait.
    destruct (_ && _); split; reflexivity. }
  clearbody st0. destruct (noMachineInst desc).
  - destruct Hc as [Hc _]. unfold finishNoMachineInst in Hc.
    pose proof (commitNoMachineInst_sameTiming op st0) as Ht.
    destruct (commitNoMachineInst op st0) as [ready st1] eqn:Hn.
    injection Hc as <- <-. exists st0. rewrite Hn. cbn [result_stall] in *.
    destruct (commitStoreData_sameHazards desc (commitM0 arch desc st1))
      as [H1 H2].
    destruct (commitM0_sameHazards desc st1) as [H3 H4].
    apply same_currentIssueSlot in Ht. simpl in Ht.
    split_and!; [done|congruence|done|]. 
    etransitivity; [exact H1|exact H3].
  - unfold finishInstruction in Hc.
    apply outcome_bind_Ok in Hc as ([new st1] & Hm & Hc).
    apply outcome_bind_Ok in Hc as ([st2 sh2] & Hr & Hc).
    apply commitMemoryEvents_sameHazards in Hm.
    apply commitResources_sameHazards in Hr.
    set (st3 := set_currentIssueSlot _ st2) in Hc.
    set (st4 := commitIssueSlotHazards arch op desc
                  (commitCoexecution desc st3)) in Hc.
    assert (sameHazards st0 st2) as [H1 H2].
    { etransitivity; [exact Hm|]. etransitivity; [|exact Hr].
      etransitivity; [|apply commitResults_sameHazards]. by case_match. }
    destruct (commitCoexecution_sameHazards desc st3) as [H3 H4].
    pose proof (same_currentIssueSlot _ _ (commitIssueSlotHazards_sameTiming
                  arch op desc (commitCoexecution desc st3))) as H5.
    fold st4 in H5.
    assert (sameHazards st4 (commitStoreData desc (commitM0 arch desc st4)))
      as [H6 H7].
    { etransitivity; [apply commitM0_sameHazards|].
      apply commitStoreData_sameHazards. }
    injection Hc as <- <- _. exists (commitCoexecution desc st3).
    assert (issueSlotHazards st3 = issueSlotHazards st2) as H8 by done.
    assert (currentIssueSlot st3 = u64 (currentIssueSlot st2 + issueSlots desc))
      as H9 by done.
    split_and!; [congruence| | |exact H6].
    + change (currentIssueSlot (pruneRetiredEvents _ (set_currentCycle _ ?s)))
        with (currentIssueSlot s). congruence.
    + simpl. rewrite H4, H9, H2, Hs0. done.
Qed.

(** *** What the producer opens *)

Lemma updateHazards_of f v st w :
  hazardsOf (updateHazards f v st) w
  = if decide (value_id w = value_id v) then f (hazardsOf st v)
    else hazardsOf st w.
Proof.
  unfold hazardsOf, updateHazards. simpl. case_decide as He.
  - by rewrite He, lookup_insert_eq.
  - by rewrite lookup_insert_ne.
Qed.

Lemma hazardsOf_within c st v :
  0 <= c -> allWithin c st -> within c (hazardsOf st v).
Proof.
  intros Hc Hall. unfold hazardsOf.
  destruct (issueSlotHazards st !! value_id v) as [h|] eqn:Hh; simpl;
    [by eapply Hall|unfold within; hle_lia].
Qed.

Lemma updateHazards_within c f v st :
  (forall h, within c h -> within c (f h)) -> 0 <= c ->
  allWithin c st -> allWithin c (updateHazards f v st).
Proof.
  intros Hf Hc Hall j h. unfold updateHazards. simpl.
  rewrite lookup_insert_Some. intros [[<- <-]|[_ Hh]]; [|by eapply Hall].
  by apply Hf, hazardsOf_within.
Qed.

(** Both loops of [commitIssueSlotProducer] update each result in turn. *)
Definition produce (desc : InstructionDesc) (slot : Z)
    (v : Value) (h : IssueSlotHazards) : IssueSlotHazards :=
  if negb (mfmaPasses desc =? 0)
  then mfmaHazards arch slot (mfmaPasses desc) h
  else
    let h := if decide (getRegClass v = Some RegClass.VGPR)
             then vgprHazards arch slot (trans desc) h else h in
    if isValuScalarHazardResult (getRegClass v)
    then sgprHazards arch slot h else h.

Definition produceStep desc slot st (v : Value) :
    InstructionExecutionState :=
  if negb (mfmaPasses desc =? 0)
     || bool_decide (getRegClass v = Some RegClass.VGPR)
     || isValuScalarHazardResult (getRegClass v)
  then updateHazards (produce desc slot v) v st else st.

Lemma updateHazards_twice f g v st :
  updateHazards g v (updateHazards f v st)
  = updateHazards (fun h => g (f h)) v st.
Proof.
  unfold updateHazards. simpl. rewrite lookup_insert_eq, insert_insert_eq.
  done.
Qed.

Lemma commitIssueSlotProducer_steps op desc st :
  commitIssueSlotProducer arch op desc st
  = fold_left (produceStep desc (currentIssueSlot st)) (op_results op) st.
Proof.
  unfold commitIssueSlotProducer, produceStep, produce.
  generalize (op_results op). intros l.
  destruct (negb (mfmaPasses desc =? 0)).
  - revert st. induction l as [|v l IH]; intros st; simpl; [done|].
    by rewrite IH.
  - revert st. induction l as [|v l IH]; intros st; simpl; [done|].
    destruct (decide (getRegClass v = Some RegClass.VGPR)) as [Hv|Hv].
    + rewrite (bool_decide_eq_true_2 _ Hv).
      destruct (isValuScalarHazardResult (getRegClass v)); simpl; rewrite IH; [|done].
      by rewrite updateHazards_twice.
    + rewrite (bool_decide_eq_false_2 _ Hv).
      destruct (isValuScalarHazardResult (getRegClass v)); simpl; by rewrite IH.
Qed.

(** The hazards that a result opens, whatever was recorded before. *)
Definition opened (desc : InstructionDesc) (slot : Z)
    (v : Value) : IssueSlotHazards := produce desc slot v noHazards.

Ltac slots_bound :=
  repeat match goal with
  | |- context [u64 ?x] => rewrite (u64_small x) by lia
  end.

Lemma latencies_small passes :
  0 <= passes <= 16 ->
  0 <= getXdlResultHazardLatency (isa arch) passes <= 32
  /\ 0 <= getXdlSrcCOverlapHazardLatency (isa arch) passes <= 32
  /\ 0 <= getXdlSrcCExactHazardLatency (isa arch) passes <= 32.
Proof.
  intros Hp. unfold getXdlResultHazardLatency, getXdlSrcCOverlapHazardLatency,
    getXdlSrcCExactHazardLatency.
  destruct (passes =? 2); repeat case_match; rewrite ?u32_small; lia.
Qed.

Lemma config_small :
  let c := issueSlotHazardConfig arch in
  0 <= cfg_valuWriteVGPRScalarRead c <= 32
  /\ 0 <= cfg_valuWriteVGPRMfmaRead c <= 32
  /\ 0 <= cfg_valuWriteVGPRPermlane32Swap c <= 32
  /\ 0 <= cfg_valuWriteSGPRValuRead c <= 32
  /\ 0 <= cfg_transWriteVGPRValuRead c <= 32.
Proof.
  unfold issueSlotHazardConfig, getInstructionIssueSlotHazardConfig,
    getValuWriteVGPRMfmaHazardLatency.
  destruct (isCDNA3Or4 (isa arch)), (permlane32SwapSupported (isa arch));
    simpl; lia.
Qed.

(** What [produce] does to the order of hazards: for slots that do not wrap. *)
Lemma produce_spec desc slot v h :
  0 <= slot -> slot + 32 < 18446744073709551616 -> 0 <= mfmaPasses desc <= 16 ->
  within (slot + 32) h ->
  within (slot + 32) (produce desc slot v h)
  /\ hle (opened desc slot v) (produce desc slot v h)
  /\ (forall w, hle (opened desc slot w) h ->
        hle (opened desc slot w) (produce desc slot v h)).
Proof.
  intros H0 Hmax Hp Hw.
  destruct (latencies_small _ Hp) as (L1 & L2 & L3).
  pose proof config_small as C. cbv zeta in C. destruct C as (C1 & C2 & C3 & C4 & C5).
  unfold opened, produce, mfmaHazards, vgprHazards, sgprHazards, within in *.
  set (cfg := issueSlotHazardConfig arch) in *.
  destruct (negb (mfmaPasses desc =? 0)).
  { slots_bound. split_and!; [hle_lia..|]. intros w. hle_lia. }
  generalize (isValuScalarHazardResult (getRegClass v)). intros sv.
  destruct (decide (getRegClass v = _)), sv, (trans desc),
    (negb (cfg_valuWriteVGPRPermlane32Swap cfg =? 0)); slots_bound;
    (split_and!; [hle_lia..|]); intros w;
    destruct (decide (getRegClass w = _)),
      (isValuScalarHazardResult (getRegClass w)); slots_bound; hle_lia.
Qed.

Lemma produceStep_spec desc slot v st :
  0 <= slot -> slot + 32 < 18446744073709551616 -> 0 <= mfmaPasses desc <= 16 ->
  allWithin (slot + 32) st ->
  let st' := produceStep desc slot st v in
  allWithin (slot + 32) st'
  /\ hle (opened desc slot v) (hazardsOf st' v)
  /\ (forall w, hle (opened desc slot w) (hazardsOf st w) ->
        hle (opened desc slot w) (hazardsOf st' w))
  /\ (forall w, value_id w <> value_id v -> hazardsOf st' w = hazardsOf st w).
Proof.
  intros H0 Hmax Hp Hall st'. unfold st', produceStep.
  assert (0 <= slot + 32) as Hc by lia.
  pose proof (hazardsOf_within _ _ v Hc Hall) as Hv.
  destruct (produce_spec desc slot v _ H0 Hmax Hp Hv) as (_ & P2 & P3).
  destruct (_ || _ || _) eqn:Hcls.
  - split_and!.
    + apply updateHazards_within; [|lia|done]. intros h Hh.
      exact (proj1 (produce_spec desc slot v h H0 Hmax Hp Hh)).
    + rewrite updateHazards_of, decide_True by done. exact P2.
    + intros w Hw. rewrite updateHazards_of.
      destruct (decide (value_id w = value_id v)) as [He|He]; [|exact Hw].
      apply P3. unfold hazardsOf in *. by rewrite <-He.
    + intros w Hw. by rewrite updateHazards_of, decide_False.
  - split_and!; try done.
    rewrite !orb_false_iff in Hcls. destruct Hcls as [[Hm Hcl] Hs].
    unfold opened, produce. rewrite Hm, Hs, decide_False
      by (by apply bool_decide_eq_false_1 in Hcl). apply Hv.
Qed.

Lemma produceSteps_spec desc slot l : forall st,
  0 <= slot -> slot + 32 < 18446744073709551616 -> 0 <= mfmaPasses desc <= 16 ->
  allWithin (slot + 32) st ->
  let st' := fold_left (produceStep desc slot) l st in
  allWithin (slot + 32) st'
  /\ (forall w, w ∈ l \/ hle (opened desc slot w) (hazardsOf st w) ->
        hle (opened desc slot w) (hazardsOf st' w))
  /\ (forall w, value_id w ∉ value_id <$> l -> hazardsOf st' w = hazardsOf st w).
Proof.
  induction l as [|v l IH]; intros st H0 Hmax Hp Hall; simpl.
  { split_and!; [done| |done]. intros w [Hw|]; [|done].
    by apply elem_of_nil in Hw. }
  destruct (produceStep_spec desc slot v st H0 Hmax Hp Hall)
    as (H1 & H2 & H3 & H4).
  destruct (IH _ H0 Hmax Hp H1) as (K1 & K2 & K3). split_and!; [done| |].
  - intros w Hw. apply K2. rewrite elem_of_cons in Hw.
    destruct Hw as [[-> |Hw]|Hw]; auto.
  - intros w [Hne Hw]%not_elem_of_cons. rewrite K3 by done. by apply H4.
Qed.

Lemma commitIssueSlotHazards_spec op desc st :
  let slot := currentIssueSlot st in
  0 <= slot -> slot + 32 < 18446744073709551616 -> 0 <= mfmaPasses desc <= 16 ->
  allWithin (slot + 32) st ->
  let st' := commitIssueSlotHazards arch op desc st in
  allWithin (slot + 32) st'
  /\ (forall w, value_id w ∉ value_id <$> op_results op ->
        hazardsOf st' w = hazardsOf st w)
  /\ (negb (mfmaPasses desc =? 0)
      || (legacyVALU desc && negb (hazardConfigEmpty (issueSlotHazardConfig arch)))
      = true -> forall w, w ∈ op_results op ->
      hle (opened desc slot w) (hazardsOf st' w)).
Proof.
  intros slot H0 Hmax Hp Hall st'. unfold st', commitIssueSlotHazards.
  destruct (_ || _); [|done]. rewrite commitIssueSlotProducer_steps.
  destruct (produceSteps_spec desc slot (op_results op) st H0 Hmax Hp Hall)
    as (K1 & K2 & K3).
  split_and!; [exact K1|exact K3|]. intros _ w Hw. apply K2. by left.
Qed.

(** *** The distances and the ready slots *)

Lemma matrixPasses_Some op cls p :
  matrixPasses op cls = Some p ->
  (p = 2 \/ p = 4 \/ p = 8 \/ p = 16) /\ cls <> SchedClass.NoInst.
Proof.
  unfold matrixPasses. destruct (hasTrait op Trait.MFMAOp); [|done].
  destruct cls; simpl; try done; intros [= <-]; auto.
Qed.

Lemma matrixPasses_desc st op desc cls :
  describes arch config st op desc cls ->
  mfmaPasses desc = default 0 (matrixPasses op cls).
Proof.
  intros Hd. rewrite (desc_mfmaPasses _ _ _ _ _ _ Hd). unfold matrixPasses.
  destruct (hasTrait op Trait.MFMAOp); [|done]. by destruct cls.
Qed.

Lemma mfmaPasses_bound st op desc cls :
  describes arch config st op desc cls -> 0 <= mfmaPasses desc <= 16.
Proof.
  intros Hd. rewrite (matrixPasses_desc _ _ _ _ Hd).
  destruct (matrixPasses op cls) eqn:Hp; simpl; [|lia].
  apply matrixPasses_Some in Hp. lia.
Qed.

Lemma matrixDistances_latencies op cls p :
  matrixPasses op cls = Some p ->
  matrixDistances (isa arch) p
  = (getXdlResultHazardLatency (isa arch) p,
     getXdlSrcCOverlapHazardLatency (isa arch) p,
     getXdlSrcCExactHazardLatency (isa arch) p).
Proof.
  intros [Hp _]%matrixPasses_Some. unfold matrixDistances,
    getXdlResultHazardLatency, getXdlSrcCOverlapHazardLatency,
    getXdlSrcCExactHazardLatency.
  destruct Hp as [-> |[-> |[-> | ->]]], (Major (isa arch) =? 9),
    (Minor (isa arch) =? 4), (Minor (isa arch) =? 5); reflexivity.
Qed.

Lemma vectorOp_desc st op desc cls :
  describes arch config st op desc cls -> vectorOp (isa arch) op cls ->
  noMachineInst desc = false /\ legacyVALU desc = true /\ mfmaPasses desc = 0
  /\ hazardConfigEmpty (issueSlotHazardConfig arch) = false
  /\ isCDNA3Or4 (isa arch) = true /\ trans desc = bool_decide (cls = SchedClass.WriteTrans32).
Proof.
  intros Hd (Hma & Hmi & Hv & Hm & Hc).
  rewrite (desc_noMachineInst _ _ _ _ _ _ Hd), (desc_legacyVALU _ _ _ _ _ _ Hd),
    (desc_mfmaPasses _ _ _ _ _ _ Hd), (desc_trans _ _ _ _ _ _ Hd), Hm.
  unfold isLegacyVALU. rewrite Hv, Hm.
  assert (isCDNA3Or4 (isa arch) = true) as Hi.
  { unfold isCDNA3Or4. rewrite Hma. destruct Hmi as [-> | ->]; done. }
  unfold issueSlotHazardConfig, getInstructionIssueSlotHazardConfig. rewrite Hi.
  rewrite bool_decide_eq_false_2 by done. done.
Qed.

Lemma readsLane_laneRead st op desc cls index v :
  describes arch config st op desc cls -> vectorOp (isa arch) op cls ->
  readsLane op -> op_operands op !! index = Some v -> isVector v ->
  laneRead desc = true.
Proof.
  intros Hd Hop [He Ha] Hi Hv.
  destruct (vectorOp_desc _ _ _ _ Hd Hop) as (_ & Hl & _).
  rewrite (desc_legacyVALU _ _ _ _ _ _ Hd) in Hl.
  rewrite (desc_laneRead _ _ _ _ _ _ Hd), Hl. simpl.
  assert (hasRegClass (op_operands op) RegClass.VGPR = true) as ->.
  { unfold hasRegClass. apply existsb_exists. exists v. split.
    - apply list_elem_of_In. by eapply list_elem_of_lookup_2.
    - by apply bool_decide_eq_true_2. }
  simpl. unfold hasOnlyRegClass. generalize false.
  revert He Ha. generalize (op_results op). intros l He Ha b.
  assert (b = true \/ Exists (fun v => getRegClass v = Some RegClass.SGPR) l)
    as Hx by auto.
  clear He. revert b Hx. induction Ha as [|w l Hw Ha IH]; intros b Hx; simpl.
  - destruct Hx as [|Hx]; [done|]. by apply Exists_nil in Hx.
  - rewrite Exists_cons in Hx. destruct (getRegClass w) as [c|].
    + destruct Hw as [[= ->]|]; [|done]. simpl. apply IH. by left.
    + apply IH. destruct Hx as [|[|]]; auto. done.
Qed.

Lemma tracked_fields x rebound h :
  tracked x rebound h ->
  hle (set_mfmaSrcCExactReadyAt 0 x) (set_mfmaSrcCExactReadyAt 0 h)
  /\ if rebound then mfmaSrcCExactReadyAt h = 0
     else mfmaSrcCExactReadyAt x <= mfmaSrcCExactReadyAt h.
Proof. destruct rebound; [intros [Ht He]; split; [|done]|intros Ht; split]; hle_lia. Qed.

(** The hazards of a matrix result. *)
Lemma opened_matrix st op desc cls slot v p :
  describes arch config st op desc cls -> matrixPasses op cls = Some p ->
  0 <= slot -> slot + 32 < 18446744073709551616 ->
  mfmaPasses desc = p /\ p <> 0 /\ noMachineInst desc = false
  /\ opened desc slot v
     = mkHazards 0 0 0 0 0 (slot + (matrixDistances (isa arch) p).1.1)
         (slot + (matrixDistances (isa arch) p).1.2)
         (slot + (matrixDistances (isa arch) p).2).
Proof.
  intros Hd Hp H0 Hmax. rewrite (matrixDistances_latencies _ _ _ Hp).
  pose proof (matrixPasses_desc _ _ _ _ Hd) as He. rewrite Hp in He. simpl in He.
  destruct (matrixPasses_Some _ _ _ Hp) as [Hps Hc].
  assert (p <> 0) as Hp0 by lia.
  destruct (latencies_small p ltac:(lia)) as (L1 & L2 & L3).
  split_and!; [done|done| |].
  - rewrite (desc_noMachineInst _ _ _ _ _ _ Hd). by apply bool_decide_eq_false_2.
  - unfold opened, produce, mfmaHazards. rewrite He.
    rewrite (proj2 (Z.eqb_neq p 0) Hp0). cbn [negb]. by slots_bound.
Qed.

(** Those of the result of another vector instruction. *)
Lemma opened_vector st op desc cls slot v :
  describes arch config st op desc cls -> vectorOp (isa arch) op cls ->
  0 <= slot -> slot + 32 < 18446744073709551616 ->
  let x := opened desc slot v in
  (isVector v ->
     slot + 1 <= valuWriteVGPRScalarReadyAt x
     /\ slot + 2 <= valuWriteVGPRMfmaReadyAt x
     /\ (isa arch = mkIsaVersion 9 5 0 ->
         slot + 2 <= valuWriteVGPRPermlane32SwapReadyAt x)
     /\ (cls = SchedClass.WriteTrans32 -> slot + 1 <= transWriteVGPRReadyAt x))
  /\ (isScalar v -> slot + 2 <= valuWriteSGPRReadyAt x).
Proof.
  intros Hd Hop H0 Hmax x.
  destruct (vectorOp_desc _ _ _ _ Hd Hop) as (_ & _ & Hm & _ & Hi & Ht).
  unfold x, opened, produce. rewrite Hm. cbn [negb Z.eqb].
  unfold vgprHazards, sgprHazards, issueSlotHazardConfig,
    getInstructionIssueSlotHazardConfig. rewrite Hi.
  unfold getValuWriteVGPRMfmaHazardLatency. split.
  - intros Hv. rewrite decide_True by done. rewrite Hv. simpl. slots_bound.
    split_and!; try lia.
    + intros ->. simpl. slots_bound. lia.
    + intros Hc. rewrite Ht, bool_decide_eq_true_2 by done. lia.
  - intros Hs. assert (isValuScalarHazardResult (getRegClass v) = true) as ->.
    { unfold isValuScalarHazardResult. destruct Hs as [-> | ->]; done. }
    simpl. slots_bound. lia.
Qed.

(** A producer of the table records what it opens. *)
Lemma distance_records st op desc cls v consumer ccls index operand rebound d :
  describes arch config st op desc cls ->
  hazardDistance (isa arch) op cls v consumer ccls index operand rebound d ->
  noMachineInst desc = false
  /\ negb (mfmaPasses desc =? 0)
     || (legacyVALU desc && negb (hazardConfigEmpty (issueSlotHazardConfig arch)))
     = true.
Proof.
  intros Hd Hdist.
  assert ((exists p, matrixPasses op cls = Some p) \/ vectorOp (isa arch) op cls)
    as [[p Hp]|Hop] by (destruct Hdist; eauto).
  - destruct (opened_matrix _ _ _ _ 0 v _ Hd Hp) as (Hm & H0 & Hn & _); [lia|lia|].
    rewrite Hm, (proj2 (Z.eqb_neq p 0) H0). done.
  - destruct (vectorOp_desc _ _ _ _ Hd Hop) as (Hn & Hl & _ & Hc & _).
    rewrite Hl, Hc. split; [done|]. by rewrite orb_true_r.
Qed.

(** The consumer looks at a slot that is the distance of the table ahead. *)
Lemma distance_required stP op desc cls v stC consumer cdesc ccls index operand
    rebound d slot h :
  describes arch config stP op desc cls ->
  describes arch config stC consumer cdesc ccls ->
  op_operands consumer !! index = Some operand ->
  hazardDistance (isa arch) op cls v consumer ccls index operand rebound d ->
  0 <= slot -> slot + 32 < 18446744073709551616 ->
  tracked (opened desc slot v) rebound h ->
  exists s, s ∈ requiredSlots arch consumer cdesc index operand h /\ slot + d <= s.
Proof.
  intros HP HC Hi Hdist H0 Hmax [Hle Hex]%tracked_fields.
  pose proof (matrixPasses_desc _ _ _ _ HC) as Hcm.
  unfold requiredSlots. setoid_rewrite elem_of_app. setoid_rewrite elem_of_app.
  setoid_rewrite elem_of_app. setoid_rewrite elem_of_app.
  setoid_rewrite elem_of_app. setoid_rewrite list_elem_of_singleton.
  setoid_rewrite elem_of_when.
  destruct Hdist as [p Hp Hr|p Hp [q Hq] -> ->|p Hp [q Hq] -> ->|Hop Hv [q Hq]
    |Hop Hv Hc Hl Ho|Hop Hv Hisa Hk|Hop Hv Ht Hc Hnt Ho|Hop Hs Hc Ho].
  - destruct (opened_matrix _ _ _ _ slot v _ HP Hp H0 Hmax) as (_ & _ & _ & Ho).
    rewrite Ho in Hle. exists (mfmaResultReadyAt h). split; [left|hle_lia].
    unfold mfmaOperandReadyAt. unfold readsMatrixResult in Hr. rewrite Hcm.
    destruct (matrixPasses consumer ccls) as [q|] eqn:Hq; simpl.
    + apply matrixPasses_Some in Hq as [Hq _].
      rewrite (proj2 (Z.eqb_neq q 0) ltac:(lia)).
      by rewrite (proj2 (Nat.eqb_neq index 2) Hr).
    + assert (isXdlResultHazardConsumer consumer = true) as ->; [|done].
      unfold isXdlResultHazardConsumer.
      destruct Hr as [-> |[-> |[Hr| ->]]]; rewrite ?orb_true_r; try done.
      rewrite (bool_decide_eq_true_2 _ Hr). by rewrite orb_true_r.
  - destruct (opened_matrix _ _ _ _ slot v _ HP Hp H0 Hmax) as (_ & _ & _ & Ho).
    rewrite Ho in Hle. exists (mfmaSrcCOverlapReadyAt h). split; [left|hle_lia].
    unfold mfmaOperandReadyAt. rewrite Hcm, Hq. simpl.
    apply matrixPasses_Some in Hq as [Hq _].
    rewrite (proj2 (Z.eqb_neq q 0) ltac:(lia)), Hex. done.
  - destruct (opened_matrix _ _ _ _ slot v _ HP Hp H0 Hmax) as (_ & _ & _ & Ho).
    rewrite Ho in Hle, Hex.
    exists (mfmaOperandReadyAt consumer cdesc 2 h). split; [by left|].
    unfold mfmaOperandReadyAt. rewrite Hcm, Hq. simpl.
    destruct (matrixPasses_Some _ _ _ Hq) as [Hqs _].
    rewrite (proj2 (Z.eqb_neq q 0) ltac:(lia)). simpl in Hex.
    destruct (mfmaSrcCExactReadyAt h =? 0); simpl; [|lia].
    assert ((matrixDistances (isa arch) p).2 <= (matrixDistances (isa arch) p).1.2);
      [|hle_lia].
    destruct (matrixPasses_Some _ _ _ Hp) as [Hps _]. unfold matrixDistances.
    destruct Hps as [-> |[-> |[-> | ->]]]; repeat case_match; simpl; lia.
  - destruct (opened_vector _ _ _ _ slot v HP Hop H0 Hmax) as [Ho _].
    destruct (Ho Hv) as (_ & Hx & _). exists (valuWriteVGPRMfmaReadyAt h).
    split; [|hle_lia]. right; left. rewrite Hcm, Hq. simpl.
    apply matrixPasses_Some in Hq as [Hq _].
    rewrite (proj2 (Z.eqb_neq q 0) ltac:(lia)). by apply list_elem_of_singleton.
  - destruct (opened_vector _ _ _ _ slot v HP Hop H0 Hmax) as [Hx _].
    destruct (Hx Hv) as (Hy & _). exists (valuWriteVGPRScalarReadyAt h).
    split; [|hle_lia]. right; right; right; left.
    destruct (vectorOp_desc _ _ _ _ HC Hc) as (_ & -> & _ & -> & _).
    rewrite (readsLane_laneRead _ _ _ _ _ _ HC Hc Hl Hi Ho).
    by rewrite bool_decide_eq_true_2.
  - destruct (opened_vector _ _ _ _ slot v HP Hop H0 Hmax) as [Hx _].
    destruct (Hx Hv) as (_ & _ & Hy & _). specialize (Hy Hisa).
    exists (valuWriteVGPRPermlane32SwapReadyAt h). split; [|hle_lia].
    do 5 right. rewrite Hk. by apply list_elem_of_singleton.
  - destruct (opened_vector _ _ _ _ slot v HP Hop H0 Hmax) as [Hx _].
    destruct (Hx Hv) as (_ & _ & _ & Hy). specialize (Hy Ht).
    exists (transWriteVGPRReadyAt h). split; [|hle_lia]. right; right; left.
    destruct (vectorOp_desc _ _ _ _ HC Hc) as (_ & -> & _ & -> & _ & ->).
    by rewrite bool_decide_eq_true_2, bool_decide_eq_false_2.
  - destruct (opened_vector _ _ _ _ slot v HP Hop H0 Hmax) as [_ Hx].
    specialize (Hx Hs). exists (valuWriteSGPRReadyAt h). split; [|hle_lia].
    do 4 right; left.
    destruct (vectorOp_desc _ _ _ _ HC Hc) as (_ & -> & _ & -> & _).
    unfold isValuScalarHazardResult. destruct Ho as [-> | ->]; done.
Qed.

(** No slot that is looked at is beyond those recorded. *)
Lemma requiredSlots_within c op desc i v h s :
  s ∈ requiredSlots arch op desc i v h -> 0 <= c -> within c h -> s <= c.
Proof.
  intros Hs%requiredSlots_among Hc [_ Hw].
  rewrite !elem_of_cons, elem_of_nil in Hs. unfold hle in Hw. simpl in Hw.
  intuition subst; lia.
Qed.

(** *** Along a history *)

Lemma issueSlots_nonneg st op desc :
  describe graph arch config st op = Ok desc -> 0 <= issueSlots desc.
Proof.
  intros (cls & Hd)%describe_inv.
  pose proof (getInstructionIssueCount_pos _ _ _ _
                (desc_issueCount _ _ _ _ _ _ Hd)).
  destruct (desc_delay _ _ _ _ _ _ Hd) as [l Hl].
  unfold configureDmaIssueDelay in Hl.
  destruct (op_kind op); try (injection Hl; intros; lia).
  destruct (delaySkipped config skipCondition);
    injection Hl as _ <- _ _; [lia|apply Z.mod_pos_bound; lia].
Qed.

Lemma slotsOf_app evs evs' : slotsOf (evs ++ evs') = slotsOf evs + slotsOf evs'.
Proof. unfold slotsOf. by rewrite fmap_app, sum_list_Z_app. Qed.

Lemma slotsOf_snoc evs e : slotsOf (evs ++ [e]) = slotsOf evs + eventSlots e.
Proof. rewrite slotsOf_app. unfold slotsOf. simpl. lia. Qed.

Lemma step_slots_nonneg st e st' : step st e st' -> 0 <= eventSlots e.
Proof.
  destruct 1 as [op shared placement desc r st' sh Hd _| |]; simpl; try lia.
  pose proof (issueSlots_nonneg _ _ _ Hd).
  pose proof (getIssueHazardWait_nonneg (result_stall r)).
  destruct (noMachineInst desc); lia.
Qed.

Lemma runs_slots_nonneg st evs st' : runs st evs st' -> 0 <= slotsOf evs.
Proof.
  induction 1 as [|evs st1 e st2 Hr IH Hs]; [done|].
  rewrite slotsOf_snoc. apply step_slots_nonneg in Hs. lia.
Qed.

Lemma runs_snoc_inv st evs e st' :
  runs st (evs ++ [e]) st' -> exists st1, runs st evs st1 /\ step st1 e st'.
Proof.
  intros Hr. inversion Hr as [Heq|evs' st1 e' st2 Hr' Hs Heq]; subst.
  - by apply app_cons_not_nil in Heq.
  - apply app_inj_tail in Heq as [-> ->]. eauto.
Qed.

Lemma runs_app_inv st evs evs' : forall st',
  runs st (evs ++ evs') st' ->
  exists st1, runs st evs st1 /\ runs st1 evs' st'.
Proof.
  induction evs' as [|e evs' IH] using rev_ind; intros st' Hr.
  - rewrite app_nil_r in Hr. eauto using runs_nil.
  - rewrite app_assoc in Hr. apply runs_snoc_inv in Hr as (st1 & Hr & Hs).
    apply IH in Hr as (st2 & H1 & H2). exists st2. split; [done|].
    by eapply runs_snoc.
Qed.

Lemma carries_snoc_inv v0 evs e w rebound :
  carries v0 (evs ++ [e]) w rebound ->
  exists v b b', carries v0 evs v b /\ passes e v w b' /\ rebound = b || b'.
Proof.
  intros Hc. inversion Hc as [Heq|evs' v b e' w' b' Hc' Hp Heq]; subst.
  - by apply app_cons_not_nil in Heq.
  - apply app_inj_tail in Heq as [-> ->]. eauto 10.
Qed.

Lemma allWithin_same c st st' :
  issueSlotHazards st' = issueSlotHazards st -> allWithin c st -> allWithin c st'.
Proof. intros He Hall k h. rewrite He. apply Hall. Qed.

Lemma allWithin_mono c c' st : c <= c' -> allWithin c st -> allWithin c' st.
Proof.
  intros Hc Hall k h Hk. destruct (Hall k h Hk). split; [done|hle_lia].
Qed.

Lemma hazardsOf_same st st' v :
  issueSlotHazards st' = issueSlotHazards st -> hazardsOf st' v = hazardsOf st v.
Proof. unfold hazardsOf. by intros ->. Qed.

(** No history that is considered wraps the slot clock. *)
Definition noWrap (evs : list Event) : Prop :=
  slotsOf evs + 4294967296 <= 18446744073709551616.

(** One commit of a history in which the clock does not wrap. *)
Lemma commit_step st op shared placement desc r st' sh :
  describe graph arch config st op = Ok desc ->
  commitWithResources graph arch config st op shared placement = Ok (r, st', sh) ->
  0 <= currentIssueSlot st ->
  currentIssueSlot st + eventSlots (Issue op desc r) + 32 < 18446744073709551616 ->
  allWithin (currentIssueSlot st + 32) st ->
  currentIssueSlot st' = currentIssueSlot st + eventSlots (Issue op desc r)
  /\ allWithin (currentIssueSlot st' + 32) st'
  /\ (forall v, value_id v ∉ value_id <$> op_results op ->
        hazardsOf st' v = hazardsOf st v)
  /\ (noMachineInst desc = true -> exists st1,
        issueSlotHazards st1 = issueSlotHazards st
        /\ issueSlotHazards st' = issueSlotHazards (bindResults st1
             (if dropsTokenCompletion op then [] else op_operands op)
             (op_results op)))
  /\ (noMachineInst desc = false ->
      negb (mfmaPasses desc =? 0)
      || (legacyVALU desc && negb (hazardConfigEmpty (issueSlotHazardConfig arch)))
      = true ->
      forall w, w ∈ op_results op ->
      hle (opened desc (currentIssueSlot st') w) (hazardsOf st' w)).
Proof.
  intros Hd Hc H0 Hmax Hall. simpl in *.
  pose proof (issueSlots_nonneg _ _ _ Hd).
  pose proof (getIssueHazardWait_nonneg (result_stall r)).
  destruct (describe_inv _ _ _ _ _ _ Hd) as [cls Hds].
  pose proof (mfmaPasses_bound _ _ _ _ Hds) as Hp.
  destruct (commit_slots _ _ _ _ _ _ _ _ Hd Hc) as (st1 & Hh1 & Hs1 & Hcase).
  destruct (noMachineInst desc) eqn:Hn.
  - destruct Hcase as [Hslot Hh]. rewrite u64_small in Hslot by lia.
    rewrite commitNoMachineInst_binds in Hh.
    assert (currentIssueSlot st'
            = currentIssueSlot st + (getIssueHazardWait (result_stall r) + 0)) as Hcur
      by lia.
    split_and!; [done| | |eauto|done].
    + eapply allWithin_same; [exact Hh|]. apply bindResults_within; [lia|].
      eapply allWithin_same; [exact Hh1|]. eapply allWithin_mono; [|exact Hall]. lia.
    + intros v Hv. rewrite (hazardsOf_same _ _ _ Hh), bindResults_keep by done.
      by apply hazardsOf_same.
  - destruct Hcase as [Hslot Hh]. 
    rewrite (u64_small (currentIssueSlot st + getIssueHazardWait _)) in Hslot by lia.
    rewrite u64_small in Hslot by lia. rewrite Hs1.
    assert (allWithin (currentIssueSlot st1 + 32) st1) as Hall1.
    { eapply allWithin_same; [exact Hh1|]. eapply allWithin_mono; [|exact Hall].
      lia. }
    assert (0 <= currentIssueSlot st1) as Hs0 by lia.
    assert (currentIssueSlot st1 + 32 < 18446744073709551616) as Hs2 by lia.
    destruct (commitIssueSlotHazards_spec op desc st1 Hs0 Hs2 Hp Hall1)
      as (K1 & K2 & K3).
    split_and!; [lia| | |done|].
    + by eapply allWithin_same.
    + intros v Hv. rewrite (hazardsOf_same _ _ _ Hh), K2 by done.
      by apply hazardsOf_same.
    + intros _ Hg w Hw. rewrite (hazardsOf_same _ _ _ Hh). by apply K3.
Qed.

(** One event of a history in which the clock does not wrap: the clock, the
    bounds, and what follows a value. *)
Lemma step_spec st e st' :
  step st e st' -> 0 <= currentIssueSlot st ->
  currentIssueSlot st + eventSlots e + 32 < 18446744073709551616 ->
  allWithin (currentIssueSlot st + 32) st ->
  currentIssueSlot st' = currentIssueSlot st + eventSlots e
  /\ allWithin (currentIssueSlot st' + 32) st'
  /\ (forall v w b b' x, passes e v w b' -> 0 <= mfmaSrcCExactReadyAt x ->
        tracked x b (hazardsOf st v) -> tracked x (b || b') (hazardsOf st' w)).
Proof.
  intros Hs H0 Hmax Hall.
  destruct Hs as [op shared placement desc r st' sh Hd Hc|result sources
    |cycle st' Ha].
  - destruct (commit_step _ _ _ _ _ _ _ _ Hd Hc H0 Hmax Hall)
      as (K1 & K2 & K3 & K4 & _).
    split_and!; [done|done|]. intros v w b b' x Hp Hx Ht.
    destruct Hp as [Hk| |? ? ? before result after He Hn Hdrop Hv Hres Hb Ha].
    + by rewrite orb_false_r, K3.
    + done.
    + injection He as <- <- <-.
      destruct (K4 Hn) as (st1 & Hh1 & Hh2). rewrite (hazardsOf_same _ _ _ Hh2).
      rewrite Hdrop, Hres. eapply bindResults_tracked; [done..|].
      by rewrite (hazardsOf_same _ _ _ Hh1).
  - simpl in *. rewrite Z.add_0_r. split_and!; [done|apply bindValue_within; [lia|done]|].
    intros v w b b' x Hp Hx Ht. destruct Hp as [Hk|? ? He Hv|]; [| |done].
    + rewrite orb_false_r. cbn [eventResults] in Hk.
      assert (value_id v <> value_id result) as Hne.
      { intros Heq. apply Hk. rewrite Heq. by apply list_elem_of_singleton. }
      by rewrite (proj2 (bindValue_hazards st result sources) v Hne).
    + injection He as <- <-. by eapply bindValue_tracked.
  - unfold advanceToCycle in Ha. apply outcome_bind_Ok in Ha as (u & _ & [= <-]).
    simpl. rewrite Z.add_0_r. split_and!; [done|done|].
    intros v w b b' x Hp Hx Ht. destruct Hp as [Hk| |]; [|done..].
    by rewrite orb_false_r.
Qed.

(** Without wrapping, the clock counts the slots of the history and no ready
    slot is far ahead of it. *)
Lemma runs_clock evs st :
  runs initialState evs st -> noWrap evs ->
  currentIssueSlot st = slotsOf evs /\ allWithin (currentIssueSlot st + 32) st.
Proof.
  unfold noWrap. induction 1 as [|evs st1 e st2 Hr IH Hs];
    rewrite ?slotsOf_snoc; intros Hmax.
  - split; [done|]. intros k h. simpl. by rewrite lookup_empty.
  - pose proof (runs_slots_nonneg _ _ _ Hr). pose proof (step_slots_nonneg _ _ _ Hs).
    destruct IH as [Hc Hall]; [lia|].
    destruct (step_spec _ _ _ Hs) as (K1 & K2 & _); [lia|lia|done|].
    split; [lia|done].
Qed.

(** What is recorded of a value follows it through a history. *)
Lemma runs_tracked pre st0 v0 x :
  runs initialState pre st0 -> 0 <= mfmaSrcCExactReadyAt x ->
  hle x (hazardsOf st0 v0) ->
  forall evs st, runs st0 evs st -> runs initialState (pre ++ evs) st ->
  noWrap (pre ++ evs) -> forall v rebound, carries v0 evs v rebound ->
  tracked x rebound (hazardsOf st v).
Proof.
  intros Hpre Hx H0 evs st Hr. induction Hr as [|evs st1 e st2 Hr IH Hs].
  - intros _ _ v rebound Hc. inversion Hc as [|evs u b e w b' Hc' Hp Heq];
      [by subst|]. symmetry in Heq. by apply app_cons_not_nil in Heq.
  - rewrite app_assoc. intros Hall Hmax v rebound Hc.
    apply carries_snoc_inv in Hc as (u & b & b' & Hc & Hp & ->).
    assert (runs initialState (pre ++ evs) st1) as Hr1.
    { clear -Hpre Hr. induction Hr as [|evs st1 e st2 Hr IH Hs];
        [by rewrite app_nil_r|rewrite app_assoc; by eapply runs_snoc]. }
    unfold noWrap in *. rewrite slotsOf_snoc in Hmax.
    pose proof (step_slots_nonneg _ _ _ Hs).
    pose proof (runs_slots_nonneg _ _ _ Hr1).
    destruct (runs_clock _ _ Hr1) as [Hclock Hw]; [unfold noWrap; lia|].
    destruct (step_spec _ _ _ Hs) as (_ & _ & K); [lia|lia|done|].
    apply (K u); [done|done|]. apply IH; [done|lia|done].
Qed.

(** The commit at the end of a history. *)
Lemma runs_issue_inv evs op desc r st :
  runs initialState (evs ++ [Issue op desc r]) st ->
  noWrap (evs ++ [Issue op desc r]) ->
  exists st0 shared placement shared' cls,
    runs initialState evs st0
    /\ describe graph arch config st0 op = Ok desc
    /\ commitWithResources graph arch config st0 op shared placement
       = Ok (r, st, shared')
    /\ describes arch config st0 op desc cls /\ classifyOp op = Ok cls
    /\ 0 <= currentIssueSlot st0 /\ currentIssueSlot st0 = slotsOf evs
    /\ 0 <= eventSlots (Issue op desc r)
    /\ currentIssueSlot st0 + eventSlots (Issue op desc r) + 32
       < 18446744073709551616
    /\ allWithin (currentIssueSlot st0 + 32) st0.
Proof.
  unfold noWrap. rewrite slotsOf_snoc. intros Hr Hmax.
  apply runs_snoc_inv in Hr as (st0 & Hr & Hs).
  pose proof (step_slots_nonneg _ _ _ Hs). pose proof (runs_slots_nonneg _ _ _ Hr).
  destruct (runs_clock _ _ Hr) as [Hc Hw]; [unfold noWrap; lia|].
  inversion Hs as [? sh pl ? ? ? sh' Hd Hcm| |]; subst.
  destruct (describe_inv _ _ _ _ _ _ Hd) as [cls Hds].
  pose proof (desc_class _ _ _ _ _ _ Hds).
  exists st0, sh, pl, sh', cls. split_and!; done || lia.
Qed.

(** C34: between an instruction that opens a hazard and one that the hazard
    concerns, through whatever is issued and bound between them, there are
    the issue slots of the hazard's distance: those taken by the instructions
    between, those they waited, and those that the consumer waits.  The slot
    clock counts exactly the slots of the history, so that no wait is made
    longer by slots that were not counted.  The distances stand in
    [hazardDistance] as numbers. *)
Theorem commit_hazards_respected pre producer pdesc pr evs consumer cdesc cr st
    result operand index rebound pcls ccls d
    (Hrun : runs initialState
       (pre ++ Issue producer pdesc pr :: evs ++ [Issue consumer cdesc cr]) st)
    (Hwrap : noWrap
       (pre ++ Issue producer pdesc pr :: evs ++ [Issue consumer cdesc cr]))
    (Hpcls : classifyOp producer = Ok pcls)
    (Hccls : classifyOp consumer = Ok ccls)
    (Hresult : result ∈ op_results producer)
    (Hcarried : carries result evs operand rebound)
    (Hoperand : op_operands consumer !! index = Some operand)
    (Hdist : hazardDistance (isa arch) producer pcls result consumer ccls index
       operand rebound d) :
  d <= slotsOf evs + getIssueHazardWait (result_stall cr)
  /\ currentIssueSlot st
     = slotsOf (pre ++ Issue producer pdesc pr :: evs ++ [Issue consumer cdesc cr]).
Proof.
  split; [|by apply (runs_clock _ _ Hrun)].
  replace (pre ++ Issue producer pdesc pr :: evs ++ [Issue consumer cdesc cr])
    with (((pre ++ [Issue producer pdesc pr]) ++ evs) ++ [Issue consumer cdesc cr])
    in * by (by rewrite <-!app_assoc).
  apply runs_issue_inv in Hrun as (st2 & shC & plC & shC' & cls & Hrun & HdC & HcC
    & HdesC & HclsC & H3 & Hslot2 & HnC & HmaxC & Hw2); [|done].
  rewrite Hccls in HclsC. injection HclsC as <-.
  assert (noWrap ((pre ++ [Issue producer pdesc pr]) ++ evs)) as Hwrap2
    by (unfold noWrap in *; rewrite slotsOf_snoc in Hwrap; lia).
  destruct (runs_app_inv _ _ _ _ Hrun) as (st1 & Hr1 & Hr2).
  pose proof (runs_slots_nonneg _ _ _ Hr2) as Hn2.
  assert (noWrap (pre ++ [Issue producer pdesc pr])) as Hwrap1
    by (unfold noWrap in *; rewrite slotsOf_app in Hwrap2; lia).
  pose proof (runs_clock _ _ Hr1 Hwrap1) as [Hslot1 _].
  destruct (runs_issue_inv _ _ _ _ _ Hr1 Hwrap1) as (st0 & shP & plP & shP' & cls
    & _ & HdP & HcP & HdesP & HclsP & H0 & Hslot0 & HnP & HmaxP & Hw0).
  rewrite Hpcls in HclsP. injection HclsP as <-.
  destruct (distance_records _ _ _ _ _ _ _ _ _ _ _ HdesP Hdist) as [Hn Hg].
  destruct (commit_step _ _ _ _ _ _ _ _ HdP HcP H0 HmaxP Hw0)
    as (Hslot & Hw1 & _ & _ & Ho).
  specialize (Ho Hn Hg _ Hresult).
  assert (0 <= currentIssueSlot st1) as H1 by lia.
  assert (currentIssueSlot st1 + 32 < 18446744073709551616) as H2 by lia.
  assert (0 <= mfmaSrcCExactReadyAt (opened pdesc (currentIssueSlot st1) result))
    as Hx0.
  { destruct (produce_spec pdesc (currentIssueSlot st1) result noHazards H1 H2
      (mfmaPasses_bound _ _ _ _ HdesP)) as [[Hx _] _]; [split; hle_lia|].
    unfold opened. hle_lia. }
  pose proof (runs_tracked _ _ _ _ Hr1 Hx0 Ho _ _ Hr2 Hrun Hwrap2 _ _ Hcarried)
    as Ht.
  destruct (distance_required _ _ _ _ _ _ _ _ _ _ _ _ _ _ _ HdesP HdesC
              Hoperand Hdist H1 H2 Ht) as (s & Hs & Hle).
  assert (0 <= currentIssueSlot st2 + 32) as H4 by lia.
  pose proof (requiredSlots_within _ _ _ _ _ _ _ Hs H4
                (hazardsOf_within _ _ operand H4 Hw2)).
  pose proof (commit_waits _ _ _ _ _ _ _ _ _ _ _ _ _ _ HcC HdC Hoperand H3 Hs
                ltac:(lia)). rewrite slotsOf_app in Hslot2. lia.
Qed.
End History.

(** A matrix operation, a renaming of its result, and a vector instruction
    that reads the new name: the consumer waits the whole distance. *)
Definition renamedReader : Operation :=
  machineOp 32 VFmaF32Op [Trait.VALUOp] noWait [vgpr 7; vgpr 1] [vgpr 33].

Definition descOf (st : InstructionExecutionState) (op : Operation) :
    outcome InstructionDesc := describe [] kGfx942 sampleConfig st op.
Definition renamedState : InstructionExecutionState :=
  bindValue (sampleState [mfmaOp]) (vgpr 7) [vgpr 6].

Lemma commit_hazards_respected_witness : exists r,
  commit [] kGfx942 sampleConfig renamedState renamedReader = Ok r
  /\ 7 <= getIssueHazardWait (result_stall r.1).
Proof.
  destruct (descOf initialState mfmaOp) as [d1| |] eqn:Hd1;
    [|vm_compute in Hd1; discriminate..].
  destruct (descOf renamedState renamedReader) as [d2| |] eqn:Hd2;
    [|vm_compute in Hd2; discriminate..].
  destruct (commitWithResources [] kGfx942 sampleConfig initialState mfmaOp None
    (mkWavePlacement 0 0)) as [[[r1 st1] sh1]| |] eqn:Hc1;
    [|vm_compute in Hc1; discriminate..].
  destruct (commitWithResources [] kGfx942 sampleConfig renamedState renamedReader
    None (mkWavePlacement 0 0)) as [[[r2 st2] sh2]| |] eqn:Hc2;
    [|vm_compute in Hc2; discriminate..].
  assert (bindValue st1 (vgpr 7) [vgpr 6] = renamedState) as Hst.
  { vm_compute in Hc1. injection Hc1 as <- <- <-. vm_compute. reflexivity. }
  exists (r2, st2). split; [unfold commit; rewrite Hc2; reflexivity|].
  apply (commit_hazards_respected [] kGfx942 sampleConfig [] mfmaOp d1 r1
    [Bind (vgpr 7) [vgpr 6]] renamedReader d2 r2 st2 (vgpr 6) (vgpr 7) 0 false
    SchedClass.Write4PassMAI SchedClass.WriteFloatFMA 7).
  - apply (runs_snoc _ _ _ _ [_; _] renamedState); [|by econstructor].
    rewrite <-Hst. apply (runs_snoc _ _ _ _ [_] st1); [|constructor].
    apply (runs_snoc _ _ _ _ [] initialState); [constructor|by econstructor].
  - vm_compute in Hd1, Hd2, Hc1, Hc2.
    injection Hd1 as <-. injection Hd2 as <-. injection Hc1 as <- _ _.
    injection Hc2 as <- _ _. vm_compute. discriminate.
  - vm_compute. reflexivity.
  - vm_compute. reflexivity.
  - apply list_elem_of_singleton. reflexivity.
  - apply (carries_snoc (vgpr 6) [] (vgpr 6) false _ (vgpr 7) false);
      [constructor|].
    apply (passes_bind _ _ (vgpr 7) [vgpr 6]); [reflexivity|].
    apply list_elem_of_singleton. reflexivity.
  - reflexivity.
  - change 7 with (matrixDistances (isa kGfx942) 4).1.1.
    apply matrix_read; [vm_compute; reflexivity|].
    vm_compute. auto.
Defined.
