(* ===== verification/SharedSpec.v ===== *)
(** * The waves and the shared resources together

    The uses that an operation of a wave asks for are well formed, a query and
    the commit after it agree on the issue cycle, and so the waves of a compute
    unit keep the shared calendars within capacity, whatever they issue and in
    whatever order; no assertion of the code fires on the way. *)

From stdpp Require Import base tactics list gmap sorting strings.
From S2P Require Import Prelude CostEnums ArchData MachineIR LatencyTable.
From S2P Require Import OpClassifier MemoryTiming ScheduleModel.
From S2P Require Import ResourceState ExecState ExecOps MultiWave Examples.
From S2P Require Import ResourceSpec ExecLemmas QuerySpec MultiWaveSpec.

Section Shared.
Context `{LLVMTarget}.
Context (graph : UseGraph) (arch : ArchData)
  (config : InstructionExecutionConfig).

(** ** The uses of an operation *)

(** What the tables of a target promise the shared resources. *)
Record resources_wf : Prop := {
  rw_simds : 0 < simdsPerCU arch;
  rw_pairs : Z.rem (simdsPerCU arch) 2 = 0;
  rw_ldsIssuePeriod : 0 <= ldsIssuePeriod arch;
  rw_ldsDmaIssuePeriod : 0 <= ldsDmaIssuePeriod arch
}.

(** The number of [s_nop] of a delay fits its [unsigned]. *)
Definition delay_fits (op : Operation) : Prop :=
  delay_wf op /\
  match op_kind op with
  | DmaIssueDelayOp _ _ cycles _ => cycles <= 16 * 4294967295
  | _ => True
  end.

Lemma appendIssueResourceUses_wf count offset period uses :
  0 <= count -> 0 <= offset -> 0 <= period -> Forall wf_use uses ->
  Forall wf_use (appendIssueResourceUses arch config count offset period uses).
Proof.
  intros. pose proof (getIssuePeriod_pos arch config).
  unfold appendIssueResourceUses. case_match; rewrite ?Forall_app, ?Forall_singleton;
    unfold wf_use; simpl; split_and?; first [done|lia].
Qed.

Lemma appendIssueResourceUses_reserves count offset period uses :
  count <> 0 \/ existsb hasReservation uses = true ->
  existsb hasReservation
    (appendIssueResourceUses arch config count offset period uses) = true.
Proof.
  intros Hc. pose proof (getIssuePeriod_pos arch config) as Hp.
  assert (existsb hasReservation
    (uses ++ [mkUse K.SimdIssue Sc.SIMD 1 count offset period
                (getIssuePeriod arch config)]) = true) as Hu.
  { rewrite existsb_app, orb_true_iff. destruct Hc as [Hc|]; [right|by left].
    simpl. rewrite orb_false_r. by apply hasReservation_spec. }
  unfold appendIssueResourceUses. case_match; [|done].
  by rewrite existsb_app, Hu.
Qed.

Lemma appendDmaIssueResourceUses_wf skip cycles :
  0 < cycles ->
  Forall wf_use (appendDmaIssueResourceUses arch config skip cycles []).
Proof.
  intros Hc. pose proof (getIssuePeriod_pos arch config).
  unfold appendDmaIssueResourceUses, u32.
  pose proof (Z.mod_pos_bound (Z.quot (cycles + 16 - 1) 16) 4294967296 ltac:(lia)).
  repeat case_match; repeat apply appendIssueResourceUses_wf; try done; lia.
Qed.

Lemma appendDmaIssueResourceUses_reserves skip cycles :
  0 < cycles <= 16 * 4294967295 ->
  existsb hasReservation (appendDmaIssueResourceUses arch config skip cycles [])
  = true.
Proof.
  intros Hc. unfold appendDmaIssueResourceUses.
  rewrite Z.quot_div_nonneg by lia.
  assert (0 < (cycles + 16 - 1) / 16 < 4294967296).
  { split; [apply Z.div_str_pos; lia|apply Z.div_lt_upper_bound; lia]. }
  rewrite u32_small by lia. unfold delaySkipped.
  destruct (bool_decide (is_Some skip)); simpl;
    [case_match; apply appendIssueResourceUses_reserves; [by left|right];
     by apply appendIssueResourceUses_reserves; left
    |apply appendIssueResourceUses_reserves; left; lia].
Qed.


(** The uses a step adds at the end of the list. *)
Definition grows (uses uses' : list InstructionResourceUse) : Prop :=
  exists extra, uses' = uses ++ extra /\ Forall wf_use extra.

Lemma grows_refl uses : grows uses uses.
Proof. exists []. by rewrite app_nil_r. Qed.

Lemma grows_snoc uses u : wf_use u -> grows uses (uses ++ [u]).
Proof. intros Hu. exists [u]. by rewrite Forall_singleton. Qed.

Lemma grows_trans uses1 uses2 uses3 :
  grows uses1 uses2 -> grows uses2 uses3 -> grows uses1 uses3.
Proof.
  intros (e1 & -> & H1) (e2 & -> & H2). exists (e1 ++ e2).
  by rewrite <-app_assoc, Forall_app.
Qed.

Lemma grows_wf uses uses' : grows uses uses' -> Forall wf_use uses -> Forall wf_use uses'.
Proof. intros (e & -> & He) Hu. by apply Forall_app. Qed.

Lemma grows_reserves uses uses' :
  grows uses uses' -> existsb hasReservation uses = true ->
  existsb hasReservation uses' = true.
Proof. intros (e & -> & _) Hu. by rewrite existsb_app, Hu. Qed.

Lemma appendPipeResourceUse_grows op desc res uses uses' :
  appendPipeResourceUse op desc res uses = Ok uses' -> grows uses uses'.
Proof.
  unfold appendPipeResourceUse. intros Ha.
  destruct (isDmaIssueDelay op || _) eqn:Hd; [injection Ha as <-; apply grows_refl|].
  apply orb_false_iff in Hd as [_ Hd]. apply Z.leb_gt in Hd.
  apply outcome_bind_Ok in Ha as (e & _ & Ha).
  destruct e; [|injection Ha as <-; apply grows_refl].
  apply outcome_bind_Ok in Ha as (sc & _ & [= <-]).
  apply grows_snoc. unfold wf_use; simpl; lia.
Qed.

Lemma appendMfmaCoissueResourceUse_grows desc res uses uses' :
  appendMfmaCoissueResourceUse desc res uses = Ok uses' -> grows uses uses'.
Proof.
  unfold appendMfmaCoissueResourceUse. intros Ha.
  destruct (_ || _) eqn:Hd; [injection Ha as <-; apply grows_refl|].
  apply orb_false_iff in Hd as [_ Hd]. apply Z.leb_gt in Hd.
  apply outcome_bind_Ok in Ha as (e & _ & Ha).
  destruct e; injection Ha as <-; [|apply grows_refl].
  apply grows_snoc. unfold wf_use; simpl; lia.
Qed.

Lemma appendLdsResourceUses_grows desc res period uses uses' :
  resources_wf -> 0 <= instructionIssueCount desc -> 0 <= period ->
  appendLdsResourceUses arch desc res period uses = Ok uses' -> grows uses uses'.
Proof.
  intros [_ _ Hl Hd] Hc Hp Ha. unfold appendLdsResourceUses in Ha.
  assert (forall k (c : Z) us us1, 0 <= c ->
    (enabled ← isEnabled res k;
     Ok (if (enabled : bool)
         then us ++ [mkUse k Sc.SIMDPair 1 (instructionIssueCount desc) 0 period c]
         else us)) = Ok us1 -> grows us us1) as Hstep.
  { intros k c us us1 Hc' Hs. apply outcome_bind_Ok in Hs as (e & _ & [= <-]).
    destruct e; [|apply grows_refl]. apply grows_snoc. unfold wf_use; simpl; lia. }
  apply outcome_bind_Ok in Ha as (us1 & H1 & Ha).
  apply grows_trans with us1.
  - destruct (_ || _); [exact (Hstep _ _ _ _ Hl H1)|injection H1 as <-; apply grows_refl].
  - clear H1. destruct (hasMemoryIssueResource _ _); [exact (Hstep _ _ _ _ Hd Ha)|].
    injection Ha as <-. apply grows_refl.
Qed.

Lemma getResourceUses_wf st op desc res uses :
  resources_wf -> delay_fits op ->
  describe graph arch config st op = Ok desc ->
  getResourceUses arch config op desc res = Ok uses ->
  Forall wf_use uses /\
  (noMachineInst desc = false -> existsb hasReservation uses = true) /\
  (noMachineInst desc = true -> uses = []).
Proof.
  intros Hwf [Hdel Hfit] Hd Hu.
  apply describe_inv in Hd as [cls Hdesc].
  pose proof (getInstructionIssueCount_pos _ _ _ _ (desc_issueCount _ _ _ _ _ _ Hdesc)) as Hic.
  pose proof (getIssuePeriod_pos arch config) as Hp.
  unfold getResourceUses in Hu. destruct (noMachineInst desc).
  { injection Hu as <-. split_and!; [constructor|done|done]. }
  set (base := match op_kind op with DmaIssueDelayOp _ _ _ _ => _ | _ => _ end) in Hu.
  apply outcome_bind_Ok in Hu as (u1 & H1 & Hu).
  apply outcome_bind_Ok in Hu as (u2 & H2 & Hu).
  apply appendPipeResourceUse_grows in H1. apply appendMfmaCoissueResourceUse_grows in H2.
  apply appendLdsResourceUses_grows in Hu; [|done|lia|lia].
  pose proof (grows_trans _ _ _ (grows_trans _ _ _ H1 H2) Hu) as Hg.
  assert (Forall wf_use base /\ existsb hasReservation base = true) as [Hb1 Hb2].
  { unfold base. unfold delay_wf in Hdel.
    destruct (op_kind op);
      first [split; [apply appendIssueResourceUses_wf; [lia..|constructor]
                    |apply appendIssueResourceUses_reserves; left; lia]
            |split; [apply appendDmaIssueResourceUses_wf; lia
                    |apply appendDmaIssueResourceUses_reserves; lia]]. }
  split_and!; [by eapply grows_wf|intros _; by eapply grows_reserves|done].
Qed.

(** ** A query and the commit after it *)

Definition inTime (uses : list InstructionResourceUse) (t : Z) : Prop :=
  t <= INT64_MAX /\ no_overflow uses t.

(** The last step of a query asks the shared resources, from the cycle that
    the wave's own stalls [s] lead to. *)
Lemma queryWithResources_shared st op desc res placement stall :
  queryWithResources arch config st op desc (Some res) placement = Ok stall ->
  exists s, 0 <= stall_cycles s /\
    addSharedResourceStall arch config st op desc res placement s = Ok stall.
Proof.
  unfold queryWithResources. intros Hq.
  apply outcome_bind_Ok in Hq as (s1 & H1 & Hq).
  apply addDependencyStalls_extends in H1 as [_ W1].
  set (s2 := if waitsForWindow _ && _ then _ else s1) in Hq.
  assert (extends s1 s2) as [_ W2] by (unfold s2; extends_step).
  apply outcome_bind_Ok in Hq as (s3 & H3 & Hq).
  apply addLocalMemoryIssueStalls_extends in H3 as [_ W3].
  destruct (addIssueHazards_extends arch st op desc s3) as [_ W4].
  eexists. split; [|exact Hq]. auto 7 with stall.
Qed.

Lemma query_ge_earliest res pl uses earliest q :
  wf_state res -> Forall wf_use uses -> 0 <= earliest ->
  ResourceState.query res pl uses earliest = Ok q -> earliest <= readyCycle q.
Proof.
  intros Hst Hu He Hq. destruct (existsb hasReservation uses) eqn:Hex.
  - rewrite query_unfold in Hq by done.
    apply outcome_bind_Ok in Hq as (u & _ & Hq).
    apply outcome_bind_Ok in Hq as (cands & Hc & Hq).
    apply tryCandidates_Ok in Hq as (l1 & l2 & -> & _).
    apply getCandidateCycles_spec in Hc as (_ & Hge & _).
    apply Forall_app in Hge as [_ Hge]. apply Forall_cons in Hge as [Hge _]. lia.
  - unfold ResourceState.query in Hq. rewrite assertion_holds in Hq by lia.
    rewrite Hex in Hq. injection Hq as <-. simpl. lia.
Qed.

(** The shared resources answer with the cycle at which the wave issues. *)
Lemma queryWithResources_issue st op desc res placement stall :
  0 <= currentCycle st -> wf_state res -> resources_wf -> delay_fits op ->
  describe graph arch config st op = Ok desc ->
  queryWithResources arch config st op desc (Some res) placement = Ok stall ->
  currentCycle st + stall_cycles stall <= INT64_MAX ->
  exists uses q earliest,
    getResourceUses arch config op desc res = Ok uses /\ 0 <= earliest /\
    ResourceState.query res placement uses earliest = Ok q /\
    currentCycle st + stall_cycles stall = readyCycle q.
Proof.
  intros Hcur Hres Hwf Hdel Hd Hq Hmax.
  apply queryWithResources_shared in Hq as (s & Hs & Hq).
  unfold addSharedResourceStall in Hq.
  apply outcome_bind_Ok in Hq as (uses & Hu & Hq).
  apply outcome_bind_Ok in Hq as (q & Hquery & Heq). injection Heq as Heq.
  destruct (getResourceUses_wf _ _ _ _ _ Hwf Hdel Hd Hu) as [Huses _].
  rewrite saturatingAdd_spec in *.
  exists uses, q, (Z.min (currentCycle st + stall_cycles s) INT64_MAX).
  apply query_ge_earliest in Hquery as Hge; [|done|done|unfold INT64_MAX; lia].
  split_and!; [done|unfold INT64_MAX; lia|done|].
  destruct (_ <? _) eqn:Hlt; subst stall.
  - rewrite addComponentAt_cycles in * by done. lia.
  - apply Z.ltb_ge in Hlt. lia.
Qed.

Lemma commitMemoryEvents_total op desc cyc st :
  exists new st1, commitMemoryEvents arch config op desc cyc st = Ok (new, st1).
Proof.
  unfold commitMemoryEvents. case_decide; [by do 2 eexists|].
  destruct (counter desc); [done|..]; simpl;
    destruct (fold_left _ _ _); by do 2 eexists.
Qed.

(** The invariant of the shared state. *)
Record resources_ok (n : nat) (res : InstructionResourceState) : Prop := {
  ro_sound : sound_state res;
  ro_shape : shape n res;
  ro_last : 0 <= lastCommittedCycle res
}.

(** The uses that were queried can be committed at the cycle answered. *)
Lemma commit_after_query n res pl uses earliest q :
  resources_ok n res -> (simd pl < 2 * n)%nat -> Forall wf_use uses ->
  0 <= earliest -> existsb hasReservation uses = true ->
  ResourceState.query res pl uses earliest = Ok q ->
  no_overflow uses (readyCycle q) ->
  exists res', ResourceState.commit res pl uses (readyCycle q) = Ok res' /\
    resources_ok n res'.
Proof.
  intros [Hs Hsh Hl] Hpl Hu He Hex Hq Hno.
  destruct (query_optimal _ _ _ _ _ (sound_wf _ Hs) Hu He Hex Hq Hno) as (Hge & Hfit & _).
  assert (0 <= readyCycle q) as H0 by lia.
  destruct (commit_total n res pl uses (readyCycle q)) as (res' & Hc & Hsh');
    [done..|lia|].
  exists res'. split; [done|].
  destruct (commit_sound _ _ _ _ _ Hs Hu H0 Hno Hfit Hc) as [Hs' Hl'].
  split; [done|done|lia].
Qed.

Lemma finishInstruction_total n op desc stall res pl st uses res' :
  getResourceUses arch config op desc res = Ok uses ->
  ResourceState.commit res pl uses (currentCycle st) = Ok res' ->
  resources_ok n res' ->
  exists r st', finishInstruction arch config op desc stall (Some res) pl st
    = Ok (r, st', Some res').
Proof.
  intros Hu Hc Hok. unfold finishInstruction.
  destruct (commitMemoryEvents_total op desc (currentCycle st) st) as (new & st1 & ->).
  cbn [mbind outcome_bind]. unfold commitResources. rewrite Hu. cbn [mbind outcome_bind].
  rewrite Hc. cbn [mbind outcome_bind]. by do 2 eexists.
Qed.

Lemma commitWithResources_total n st op res pl desc stall :
  resources_wf -> delay_fits op -> 0 <= currentCycle st ->
  resources_ok n res -> (simd pl < 2 * n)%nat ->
  validateCommitOp arch op = Ok tt ->
  describe graph arch config st op = Ok desc ->
  queryWithResources arch config st op desc (Some res) pl = Ok stall ->
  currentCycle st + stall_cycles stall <= INT64_MAX ->
  (forall uses, getResourceUses arch config op desc res = Ok uses ->
     no_overflow uses (currentCycle st + stall_cycles stall)) ->
  exists r st' res',
    commitWithResources graph arch config st op (Some res) pl = Ok (r, st', Some res')
    /\ resources_ok n res'.
Proof.
  intros Hwf Hdel Hcur Hok Hpl Hval Hd Hq Hmax Hno.
  destruct (queryWithResources_issue _ _ _ _ _ _ Hcur (sound_wf _ (ro_sound _ _ Hok))
              Hwf Hdel Hd Hq Hmax) as (uses & q & e & Hu & He & Hquery & Heq).
  specialize (Hno uses Hu).
  destruct (getResourceUses_wf _ _ _ _ _ Hwf Hdel Hd Hu) as (Huses & Hex & _).
  unfold commitWithResources. rewrite Hval, Hd. cbn [mbind outcome_bind].
  rewrite Hq. cbn [mbind outcome_bind].
  destruct (noMachineInst desc) eqn:Hn.
  { destruct (finishNoMachineInst _ _ _ _ _) as [r st']. by exists r, st', res. }
  rewrite Heq in Hno.
  destruct (commit_after_query n res pl uses e q Hok Hpl Huses He (Hex eq_refl) Hquery Hno)
    as (res' & Hc & Hok').
  rewrite <-Heq, <-(beginIssue_currentCycle desc stall st) in Hc.
  destruct (finishInstruction_total n op desc stall res pl _ uses res' Hu Hc Hok')
    as (r & st' & ->).
  by exists r, st', res'.
Qed.

(** ** The state of the waves *)

Record multiWave_ok (n : nat) (mw : MultiWaveExecutionState) : Prop := {
  mo_resources : resources_ok n (resources mw);
  mo_cycles : Forall (fun st => 0 <= currentCycle st) (waves mw);
  mo_placements : Forall (fun p => (simd p < 2 * n)%nat) (placements mw);
  mo_length : length (placements mw) = length (waves mw)
}.

(** The cycles of the issue do not overflow. *)
Definition issuesInTime (mw : MultiWaveExecutionState) (wave : nat)
    (op : Operation) : bool :=
  match waves mw !! wave, mw_query graph arch config mw wave op with
  | Some st, Ok stall =>
      let t := currentCycle st + stall_cycles stall in
      match (desc ← describe graph arch config st op;
             getResourceUses arch config op desc (resources mw)) with
      | Ok uses =>
          (t <=? INT64_MAX) && forallb (fun u => t + useSpan u <=? INT64_MAX) uses
      | _ => false
      end
  | _, _ => false
  end.

Lemma commitWave_ok n mw wave op :
  resources_wf -> delay_fits op -> multiWave_ok n mw ->
  issuesInTime mw wave op = true ->
  exists r mw' st stall,
    commitWave graph arch config mw wave op = Ok (r, mw') /\
    multiWave_ok n mw' /\ waves mw !! wave = Some st /\
    mw_query graph arch config mw wave op = Ok stall /\
    issueCycle r = currentCycle st + stall_cycles stall.
Proof.
  intros Hwf Hdel [Hok Hcyc Hpl Hlen] Htime. unfold issuesInTime in Htime.
  destruct (waves mw !! wave) as [st|] eqn:Hw; [|done].
  destruct (mw_query _ _ _ _ _ _) as [stall| |] eqn:Hmq; [|done..].
  pose proof Hmq as Hq. unfold mw_query in Hq. rewrite Hw in Hq.
  apply outcome_bind_Ok in Hq as ([] & Hval & Hq).
  apply outcome_bind_Ok in Hq as (desc & Hd & Hq).
  apply outcome_bind_Ok in Hq as (pl & Hp & Hq).
  rewrite Hd in Htime. cbn [mbind outcome_bind] in Htime.
  destruct (getResourceUses _ _ _ _ _) as [uses| |] eqn:Hu; [|done..].
  apply andb_true_iff in Htime as [Hmax Hno]. apply Z.leb_le in Hmax.
  assert (0 <= currentCycle st) as Hcur by (by eapply Forall_lookup_1 in Hcyc).
  assert (simd pl < 2 * n)%nat as Hsimd.
  { exact (at_index_Forall _ _ _ _ Hpl Hp). }
  destruct (commitWithResources_total n st op (resources mw) pl desc stall)
    as (r & st' & res' & Hc & Hok'); [done..| |].
  { intros us Hus. replace us with uses by congruence.
    apply Forall_forall. intros u Hin. rewrite forallb_forall in Hno.
    apply Z.leb_le, Hno, list_elem_of_In, Hin. }
  destruct (commitWithResources_issueCycle graph arch config _ _ _ _ _ _ _ Hc)
    as (Hi & _ & desc' & Hd' & Hq' & Hcur').
  replace desc' with desc in * by congruence.
  assert (result_stall r = stall) as Hst by congruence. rewrite Hst in Hi.
  destruct (describe_inv graph arch config _ _ _ Hd) as [cls Hcls].
  pose proof (getInstructionSpan_pos arch config _ _ _ _ Hcls (proj1 Hdel)).
  apply queryWithResources_wf in Hq as Hswf. apply stall_wf_nonneg in Hswf.
  unfold commitWave. rewrite Hw, Hp. cbn [mbind outcome_bind].
  rewrite Hc. cbn [mbind outcome_bind].
  rewrite (desc_class _ _ _ _ _ _ Hcls). cbn [mbind outcome_bind].
  eexists _, _, st, stall. split_and!; [reflexivity| |done|done|done].
  split; simpl; [done| |done|by rewrite length_insert].
  apply Forall_insert; [done|]. rewrite Hcur'. case_match; [lia|].
  apply saturatingAdd_nonneg; lia.
Qed.

Lemma fold_max_ge (l : list InstructionExecutionState) : forall a,
  a <= fold_left (fun cycle wave => Z.max cycle (currentCycle wave)) l a
  /\ Forall (fun w => currentCycle w <=
       fold_left (fun cycle wave => Z.max cycle (currentCycle wave)) l a) l.
Proof.
  induction l as [|w l IH]; intros a; simpl; [split; [lia|constructor]|].
  destruct (IH (Z.max a (currentCycle w))) as [H1 H2].
  split; [lia|]. constructor; [lia|done].
Qed.

Lemma advanceAll_ok cycle l : forall acc,
  Forall (fun w => currentCycle w <= cycle) l ->
  foldM (fun advanced wave =>
    wave ← advanceToCycle cycle wave; Ok (advanced ++ [wave])) acc l
  = Ok (acc ++ ((fun w => pruneRetiredEvents cycle (set_currentCycle cycle w)) <$> l)).
Proof.
  induction l as [|w l IH]; intros acc Hl; simpl; [by rewrite app_nil_r|].
  apply Forall_cons in Hl as [Hw Hl]. unfold advanceToCycle at 1.
  rewrite assertion_holds by lia. cbn [mbind outcome_bind].
  rewrite IH by done. by rewrite <-app_assoc.
Qed.

(** A rendezvous always succeeds and brings every wave to the latest cycle. *)
Lemma rendezvous_unfold mw :
  let cycle := fold_left (fun cycle wave => Z.max cycle (currentCycle wave)) (waves mw) 0 in
  rendezvous mw = Ok (mkMultiWave (placements mw)
    ((fun w => pruneRetiredEvents cycle (set_currentCycle cycle w)) <$> waves mw)
    (roundRobinCursor mw) (resources mw)).
Proof.
  intros cycle. unfold rendezvous. fold cycle.
  rewrite advanceAll_ok by apply (fold_max_ge (waves mw) 0). done.
Qed.

Lemma rendezvous_ok n mw mw' :
  multiWave_ok n mw -> rendezvous mw = Ok mw' -> multiWave_ok n mw'.
Proof.
  intros [H1 H2 H3 H4]. rewrite rendezvous_unfold. intros [= <-].
  split; simpl; [done| |done|by rewrite length_fmap].
  apply Forall_fmap, Forall_forall. intros w _. apply (fold_max_ge (waves mw) 0).
Qed.

Lemma mw_bindValue_ok n mw wave result sources mw' :
  multiWave_ok n mw -> mw_bindValue mw wave result sources = Ok mw' ->
  multiWave_ok n mw'.
Proof.
  intros [H1 H2 H3 H4] Hb. apply outcome_bind_Ok in Hb as (st & Hst & [= <-]).
  split; simpl; [done| |done|by rewrite length_insert].
  apply Forall_insert; [done|].
  change (0 <= currentCycle st). exact (at_index_Forall _ _ _ _ H2 Hst).
Qed.

Lemma makeMultiWave_ok ps mw :
  resources_wf -> simdsPerCU arch < 2147483648 ->
  0 <= valuMaxInFlight config /\ 0 <= saluMaxInFlight config
    /\ 0 <= xdlMaxInFlight config ->
  Forall (inCU arch) ps -> makeMultiWave arch config ps = Ok mw ->
  multiWave_ok (Z.to_nat (simdsPerCU arch / 2)) mw.
Proof.
  intros [Hs Hp _ _] Hsmall Hcaps Hin Hm.
  apply outcome_bind_Ok in Hm as (res & Hres & Hm).
  apply outcome_bind_Ok in Hm as ([] & _ & [= <-]).
  apply makeResourceState_sound in Hres as (H1 & H2 & H3 & _); [..|done|done| | |];
    try (unfold getResourceCapacities; case_match; simpl; lia).
  split; simpl; [by split; [..|lia]| | |by rewrite length_fmap].
  - apply Forall_fmap, Forall_forall. done.
  - eapply Forall_impl; [exact Hin|]. intros p [Hps _].
    rewrite Z.rem_mod_nonneg in Hp by lia.
    pose proof (Z.div_mod (simdsPerCU arch) 2). lia.
Qed.

(** The states a simulation of resident waves goes through: any wave may issue
    any operation, values may be bound between operations, and all waves may
    meet. *)
Inductive multiReachable : MultiWaveExecutionState -> Prop :=
| mr_make ps mw :
    Forall (inCU arch) ps -> makeMultiWave arch config ps = Ok mw ->
    multiReachable mw
| mr_commit mw wave op r mw' :
    multiReachable mw -> delay_fits op -> issuesInTime mw wave op = true ->
    commitWave graph arch config mw wave op = Ok (r, mw') -> multiReachable mw'
| mr_bind mw wave result sources mw' :
    multiReachable mw -> mw_bindValue mw wave result sources = Ok mw' ->
    multiReachable mw'
| mr_rendezvous mw mw' :
    multiReachable mw -> rendezvous mw = Ok mw' -> multiReachable mw'.

Record shared_wf : Prop := {
  sw_resources : resources_wf;
  sw_small : simdsPerCU arch < 2147483648;
  sw_caps : 0 <= valuMaxInFlight config /\ 0 <= saluMaxInFlight config
            /\ 0 <= xdlMaxInFlight config
}.

Lemma multiReachable_ok mw :
  shared_wf -> multiReachable mw ->
  multiWave_ok (Z.to_nat (simdsPerCU arch / 2)) mw.
Proof.
  intros [H1 H2 H3]. induction 1 as [ps mw Hp Hm|mw wave op r mw' _ IH Hd Ht Hc
    |mw wave v vs mw' _ IH Hb|mw mw' _ IH Hr].
  - by eapply makeMultiWave_ok.
  - destruct (commitWave_ok _ mw wave op H1 Hd IH Ht) as (r1 & mw1 & _ & _ & Hc1 & Hok & _).
    by replace mw' with mw1 by congruence.
  - by eapply mw_bindValue_ok.
  - by eapply rendezvous_ok.
Qed.
End Shared.

(** ** Properties *)

(** C21: whatever operations the resident waves of a compute unit issue, in
    whatever order, with values bound and waves meeting in between, no shared
    issue port, pipe or queue ever holds more than its capacity, at any
    cycle. *)
Theorem waves_never_oversubscribe `{TGT : LLVMTarget} graph arch config mw
    (Hwf : shared_wf arch config) (Hmw : multiReachable graph arch config mw) :
  all_calendars within_capacity (resources mw).
Proof.
  destruct (ro_sound _ _ (mo_resources _ _ (multiReachable_ok _ _ _ _ Hwf Hmw)))
    as (?&?&?).
  unfold all_calendars. split_and!;
    repeat (eapply Forall_impl; [eassumption|]; intros ? ?); naive_solver.
Qed.

(** C22: a query predicts the commit: in a reachable state, when [query] answers
    with a stall for an operation of a wave, [commitWave] succeeds (no
    assertion on the shared calendars fires) and issues the operation after
    exactly that stall. *)
Theorem commitWave_follows_query `{TGT : LLVMTarget} graph arch config mw wave op
    st stall (Hwf : shared_wf arch config)
    (Hmw : multiReachable graph arch config mw) (Hop : delay_fits op)
    (Hst : waves mw !! wave = Some st)
    (Hq : mw_query graph arch config mw wave op = Ok stall)
    (Htime : issuesInTime graph arch config mw wave op = true) :
  exists r mw', commitWave graph arch config mw wave op = Ok (r, mw')
    /\ issueCycle r = currentCycle st + stall_cycles stall.
Proof.
  destruct (commitWave_ok graph arch config _ mw wave op (sw_resources _ _ Hwf) Hop
              (multiReachable_ok _ _ _ _ Hwf Hmw) Htime)
    as (r & mw' & st1 & stall1 & Hc & _ & Hs & Hq1 & Hi).
  exists r, mw'. split; [done|]. congruence.
Qed.

(** A rendezvous brings every wave to the cycle of the latest one: no wave
    moves back, all agree, and the shared resources are untouched. *)
Theorem rendezvous_aligns `{TGT : LLVMTarget} mw :
  exists mw' cycle, rendezvous mw = Ok mw'
    /\ Forall (fun w => currentCycle w = cycle) (waves mw')
    /\ Forall (fun w => currentCycle w <= cycle) (waves mw)
    /\ resources mw' = resources mw /\ placements mw' = placements mw
    /\ length (waves mw') = length (waves mw).
Proof.
  rewrite rendezvous_unfold. do 2 eexists. split_and!; [reflexivity|..]; simpl;
    [|apply (fold_max_ge (waves mw) 0)|done|done|by rewrite length_fmap].
  apply Forall_fmap, Forall_forall. intros w _. done.
Qed.

Definition twoPlacements : list WavePlacement :=
  [mkWavePlacement 0 0; mkWavePlacement 0 1].
Definition twoResident : MultiWaveExecutionState :=
  match makeMultiWave kGfx942 sampleConfig twoPlacements with
  | Ok mw => mw
  | _ => mkMultiWave [] [] [] exampleState
  end.

Lemma sample_shared_wf : shared_wf kGfx942 sampleConfig.
Proof. split; [split|..]; simpl; try lia; vm_compute; reflexivity. Qed.

Lemma twoResident_reachable : multiReachable [] kGfx942 sampleConfig twoResident.
Proof.
  apply (mr_make _ _ _ twoPlacements); [|vm_compute; reflexivity].
  repeat constructor; simpl; lia.
Qed.

Lemma waves_never_oversubscribe_witness : exists mw r,
  commitWave [] kGfx942 sampleConfig twoResident 0 fmaOp = Ok (r, mw)
  /\ all_calendars within_capacity (resources mw).
Proof.
  destruct (commitWave [] kGfx942 sampleConfig twoResident 0 fmaOp)
    as [[r mw]| |] eqn:Hc; [|vm_compute in Hc; discriminate..].
  exists mw, r. split; [done|].
  apply (waves_never_oversubscribe [] kGfx942 sampleConfig); [apply sample_shared_wf|].
  apply (mr_commit _ _ _ twoResident 0 fmaOp r); [apply twoResident_reachable|split; exact I
                    |vm_compute; reflexivity|exact Hc].
Defined.

Lemma commitWave_follows_query_witness : exists r mw',
  commitWave [] kGfx942 sampleConfig twoResident 1 loadOp = Ok (r, mw')
  /\ issueCycle r = 0.
Proof.
  apply (commitWave_follows_query [] kGfx942 sampleConfig twoResident 1 loadOp
           initialState noStall);
    [apply sample_shared_wf|apply twoResident_reachable|split; exact I
    |vm_compute; reflexivity..].
Defined.
