(* ===== verification/TicketIR.v ===== *)
(** * What the wait-insertion pass reads

    Machine operations as [WaveAMDMachineWaitcnt.cpp] sees them: the operation
    of [MachineIR] with its MLIR interfaces, physical register spans and their
    text ([WaveAMDMachineInstrInfo.cpp], [WaveAMDRegisterLimits.cpp]), the save
    slots of masked regions ([WaveAMDExecIfUtils.cpp]), the hardware counters of
    a target. *)

From Stdlib Require Import Ascii.
From stdpp Require Import base tactics list strings sorting.
From S2P Require Import Prelude CostEnums ArchData MachineIR.

Definition UINT_MAX : Z := 4294967295.

(** ** Integer values of the enumerations *)

Definition counterValue (c : WaitcntCounter.t) : Z :=
  match c with
  | WaitcntCounter.None => 0 | WaitcntCounter.Vmem => 1
  | WaitcntCounter.Lgkm => 2 | WaitcntCounter.Vscnt => 3
  | WaitcntCounter.Load => 4 | WaitcntCounter.Store => 5
  | WaitcntCounter.Ds => 6 | WaitcntCounter.Km => 7 | WaitcntCounter.X => 8
  | WaitcntCounter.Tensor => 9 | WaitcntCounter.Async => 10
  end.

(** The loops [for (i = 1; i < kNumCounters; ++i)]. *)
Definition allCounters : list WaitcntCounter.t :=
  [WaitcntCounter.Vmem; WaitcntCounter.Lgkm; WaitcntCounter.Vscnt;
   WaitcntCounter.Load; WaitcntCounter.Store; WaitcntCounter.Ds;
   WaitcntCounter.Km; WaitcntCounter.X; WaitcntCounter.Tensor;
   WaitcntCounter.Async].

Definition eventMask (event : WaitcntEvent.t) : Z :=
  match event with
  | WaitcntEvent.None => 0 | WaitcntEvent.Vmem => 1
  | WaitcntEvent.VmemStore => 2 | WaitcntEvent.Lds => 4
  | WaitcntEvent.Smem => 8 | WaitcntEvent.Flat => 16 | WaitcntEvent.Gds => 32
  | WaitcntEvent.Message => 64 | WaitcntEvent.ScratchStore => 128
  | WaitcntEvent.Async => 256 | WaitcntEvent.Tensor => 512
  | WaitcntEvent.SccWrite => 1024
  end.

Definition regClassValue (c : RegClass.t) : Z :=
  match c with
  | RegClass.SGPR => 0 | RegClass.VGPR => 1 | RegClass.AGPR => 2
  | RegClass.SCC => 3 | RegClass.VCC => 4
  end.

Module ExpertCounter.
Inductive t : Set := VaRead | VaWrite | VmSource.
#[global] Instance t_eq_dec : EqDecision t.
Proof. solve_decision. Defined.
Definition value (c : t) : Z :=
  match c with VaRead => 0 | VaWrite => 1 | VmSource => 2 end.
(** The loops [for (i = 0; i < kNumExpertCounters; ++i)]. *)
Definition all : list t := [VaRead; VaWrite; VmSource].
End ExpertCounter.

Module ExpertEvent.
Inductive t : Set := None | CSMACC | DPMACC | Trans | Xdl | Lds | Flat | Vmem.
#[global] Instance t_eq_dec : EqDecision t.
Proof. solve_decision. Defined.
Definition value (e : t) : Z :=
  match e with
  | None => 0 | CSMACC => 1 | DPMACC => 2 | Trans => 4 | Xdl => 8 | Lds => 16
  | Flat => 32 | Vmem => 64
  end.
End ExpertEvent.

(** ** Register spans ([PhysicalRegisterSpan]) *)

Record RegSpan : Set := mkSpan {
  span_regClass : RegClass.t;
  span_begin : Z;
  span_end : Z
}.
#[export] Instance RegSpan_eq_dec : EqDecision RegSpan.
Proof. solve_decision. Defined.

Definition overlaps (lhs rhs : RegSpan) : bool :=
  bool_decide (span_regClass lhs = span_regClass rhs)
  && (span_begin lhs <? span_end rhs) && (span_begin rhs <? span_end lhs).

Definition getAllocatedRegSpan (value : Value) : option RegSpan :=
  match value_type value with
  | RegType regClass width (Some index) =>
      if index <? 0 then None else Some (mkSpan regClass index (index + width))
  | _ => None
  end.

Definition hasSameAllocatedReg (lhs rhs : Value) : bool :=
  match value_type lhs, value_type rhs with
  | RegType lc lw (Some li), RegType rc rw (Some ri) =>
      bool_decide (lc = rc) && (lw =? rw) && (0 <=? li) && (li =? ri)
  | _, _ => false
  end.

Definition isVGPRSpan (span : RegSpan) : bool :=
  bool_decide (span_regClass span = RegClass.VGPR).

(** ** Counters of a target *)

(** LLVM's description of the counters, and [StringRef::getAsInteger]. *)
Class WaitLLVM := {
  getVmcntBitMask : IsaVersion -> Z;
  getLgkmcntBitMask : IsaVersion -> Z;
  getStorecntBitMask : IsaVersion -> Z;
  getLoadcntBitMask : IsaVersion -> Z;
  getDscntBitMask : IsaVersion -> Z;
  getKmcntBitMask : IsaVersion -> Z;
  getXcntBitMask : IsaVersion -> Z;
  getAsynccntBitMask : IsaVersion -> Z;
  getVaVdstBitMask : Z;
  getVmVsrcBitMask : Z;
  getAsInteger : list Ascii.ascii -> option Z
}.

Record WaitTarget : Set := mkWaitTarget {
  execIfSaveBase : option Z;
  target_isa : IsaVersion;
  target_wavefrontSize : Z;
  family : WaitCounterFamily.t;
  waitXcnt : bool;
  requiresNopBeforeDeallocVGPRs : bool;
  expertScheduling : bool
}.

Section Counters.
Context `{WaitLLVM}.

Definition getAMDGPUTensorcntBitMask (isa : IsaVersion) : Z :=
  getAsynccntBitMask isa.

Definition getLegacyCounterMax (counter : WaitcntCounter.t)
    (isa : IsaVersion) : outcome Z :=
  match counter with
  | WaitcntCounter.Vmem => Ok (getVmcntBitMask isa)
  | WaitcntCounter.Lgkm => Ok (getLgkmcntBitMask isa)
  | WaitcntCounter.Vscnt =>
      let storeMax := getStorecntBitMask isa in
      Ok (if negb (storeMax =? 0) then storeMax else getVmcntBitMask isa)
  | _ => Fatal "expected legacy wait counter"
  end.

Definition getSplitCounterMax (counter : WaitcntCounter.t)
    (isa : IsaVersion) : outcome Z :=
  match counter with
  | WaitcntCounter.Store => Ok (getStorecntBitMask isa)
  | WaitcntCounter.Load => Ok (getLoadcntBitMask isa)
  | WaitcntCounter.Ds => Ok (getDscntBitMask isa)
  | WaitcntCounter.Km => Ok (getKmcntBitMask isa)
  | WaitcntCounter.X => Ok (getXcntBitMask isa)
  | WaitcntCounter.Async => Ok (getAsynccntBitMask isa)
  | WaitcntCounter.Tensor => Ok (getAMDGPUTensorcntBitMask isa)
  | _ => Fatal "expected split wait counter"
  end.

Definition getCounterMax (counter : WaitcntCounter.t) (isa : IsaVersion) :
    outcome Z :=
  match counter with
  | WaitcntCounter.None => Ok 0
  | WaitcntCounter.Vmem | WaitcntCounter.Lgkm | WaitcntCounter.Vscnt =>
      getLegacyCounterMax counter isa
  | _ => getSplitCounterMax counter isa
  end.

Definition getExpertCounterMax (counter : ExpertCounter.t) : Z :=
  match counter with
  | ExpertCounter.VaRead | ExpertCounter.VaWrite => getVaVdstBitMask
  | ExpertCounter.VmSource => getVmVsrcBitMask
  end.
End Counters.

(** ** The text of scalar registers *)

Module RegisterText.

Open Scope char_scope.
Open Scope Z_scope.

(** A [StringRef] is the list of its characters. *)
Definition Text : Type := list ascii.

Definition digitChar (d : Z) : ascii := ascii_of_N (Z.to_N (48 + d)).

(** The decimal digits that [Twine] prints for an [unsigned]; the fuel is the
    number itself. *)
Fixpoint decimalDigits (fuel : nat) (n : Z) : Text :=
  match fuel with
  | O => []
  | S fuel' =>
      if n <? 10 then [digitChar n]
      else decimalDigits fuel' (n / 10) ++ [digitChar (n mod 10)]
  end.
Definition decimal (n : Z) : Text := decimalDigits (S (Z.to_nat n)) n.

(** [getWaveAMDSGPRName], of a tuple that is not empty; [index + width - 1] is
    unsigned arithmetic. *)
Definition getWaveAMDSGPRName (index width : Z) : Text :=
  if width =? 1 then "s" :: decimal index
  else ["s"; "["] ++ decimal index ++ [":"]
       ++ decimal (u32 (index + width - 1)) ++ ["]"].

(** [StringRef::trim], [consume_front] of one character and [split]. *)
Definition isSpace (c : ascii) : bool :=
  bool_decide (c ∈ [" "; "009"; "010"; "011"; "012"; "013"]).
Fixpoint trimFront (text : Text) : Text :=
  match text with
  | c :: text' => if isSpace c then trimFront text' else text
  | [] => []
  end.
Definition trim (text : Text) : Text :=
  reverse (trimFront (reverse (trimFront text))).
Definition consumeFront (c : ascii) (text : Text) : option Text :=
  match text with
  | c' :: text' => if decide (c' = c) then Some text' else None
  | [] => None
  end.
Fixpoint split (c : ascii) (text : Text) : Text * Text :=
  match text with
  | [] => ([], [])
  | c' :: text' =>
      if decide (c' = c) then ([], text')
      else let '(before, after) := split c text' in (c' :: before, after)
  end.

Section Parse.
Context `{WaitLLVM}.

Definition parseRegisterIndex (text : Text) : option Z :=
  match text with
  | [] => None
  | _ =>
      match getAsInteger text with
      | None => None
      | Some index =>
          if (index <? 0) || (index =? INT64_MAX) then None else Some index
      end
  end.

Definition parseSGPRRegisterPair (text : Text) : option RegSpan :=
  let '(beginText, text) := split ":" text in
  let '(endText, text) := split "]" text in
  match text with
  | [] =>
      match parseRegisterIndex beginText, parseRegisterIndex endText with
      | Some first, Some last =>
          if last <? first then None
          else Some (mkSpan RegClass.SGPR first (last + 1))
      | _, _ => None
      end
  | _ => None
  end.

Definition parseSingleSGPRRegister (text : Text) : option RegSpan :=
  match parseRegisterIndex text with
  | None => None
  | Some reg => Some (mkSpan RegClass.SGPR reg (reg + 1))
  end.

Definition parseSGPRRegisterSpan (text : Text) : option RegSpan :=
  let text := trim text in
  match consumeFront "s" text with
  | None => None
  | Some text =>
      match consumeFront "[" text with
      | Some text => parseSGPRRegisterPair text
      | None => parseSingleSGPRRegister text
      end
  end.
End Parse.
End RegisterText.

(** ** Operations *)

(** An enclosing [exec_if]: its condition and its [mask_width]. *)
Record ExecIf : Type := mkExecIf {
  execIf_condition : Value;
  execIf_maskWidth : option Z
}.

(** An operation with the interfaces and attributes that the pass reads:
    [controlFlow] says that it implements a region-branch, region-terminator or
    branch interface, [branchInterface] the last one; [execIfNest] lists the
    [exec_if] operations around it from the innermost (itself, if it is one);
    [yieldResults] holds the results of the [exec_if] that a yield ends. *)
Record TicketOp : Type := mkTicketOp {
  base_op :> Operation;
  controlFlow : bool;
  branchInterface : bool;
  callInterface : bool;
  mmaInterface : bool;
  fixedDefs : list RegSpan;
  inKernel : bool;
  baseRegister : option RegisterText.Text;
  entryCond : bool;
  barrierScope : Z;
  waitAlu_va_vdst : option Z;
  waitAlu_vm_vsrc : option Z;
  execIfNest : list ExecIf;
  yieldResults : option (list Value)
}.

(** An operation without any of these. *)
Definition plainOp (op : Operation) : TicketOp :=
  mkTicketOp op false false false false [] false None false 0 None None [] None.

(** ** Save slots of masked regions *)

(** Without the assertion, a zero alignment divides by zero. *)
Definition alignWaveAMDExecIfSaveSlot (value align : Z) : outcome Z :=
  if align =? 0 then Fatal "alignment must be nonzero"
  else Ok (u32 (u32 (value + align - 1) / align * align)).

Definition getWaveAMDExecIfMaskDwords (execIf : ExecIf) : outcome Z :=
  match value_type (execIf_condition execIf) with
  | RegType RegClass.SGPR width _ => Ok width
  | RegType _ _ _ =>
      match execIf_maskWidth execIf with
      | Some width => Ok (u32 (Z.quot width 32))
      | None => Fatal "verified VCC exec_if must carry mask_width"
      end
  | _ => Fatal "exec_if condition is a register"
  end.

Definition saveSlotStep (acc : Z * Z * Z) (nested : ExecIf) :
    outcome (Z * Z * Z) :=
  let '(cursor, _, _) := acc in
  width ← getWaveAMDExecIfMaskDwords nested;
  saveSlot ← alignWaveAMDExecIfSaveSlot cursor width;
  Ok (u32 (saveSlot + width), saveSlot, width).

(** [getExecIfSaveSpan] of an [exec_if]. *)
Definition getExecIfSaveSpan (op : TicketOp) (target : WaitTarget) :
    outcome (option RegSpan) :=
  match execIfSaveBase target with
  | None => Ok None
  | Some base =>
      '(_, saveSlot, width) ← foldM saveSlotStep (0, 0, 1)
                                (rev (execIfNest op));
      Ok (Some (mkSpan RegClass.SGPR (u32 (base + saveSlot))
                  (u32 (u32 (base + saveSlot) + width))))
  end.
