(* ===== verification/TicketState.v ===== *)
(** * Tickets and the wait state ([WaveAMDMachineWaitcnt.cpp], first part)

    A token says that an operation on a hardware counter may still be
    outstanding: whose result it is, or which physical register it still
    reads, which events it carries and after how many later issues on its
    counter ([position]).  The wait state keeps the tokens in key order. *)

From stdpp Require Import base tactics list strings sorting.
From S2P Require Import Prelude CostEnums ArchData MachineIR TicketIR.

(** ** Event masks *)

Definition hasMultipleEvents (mask : Z) : bool :=
  negb (mask =? 0) && negb (Z.land mask (mask - 1) =? 0).

Definition vmemSourceEventMask : Z :=
  Z.lor (Z.lor (eventMask WaitcntEvent.Vmem) (eventMask WaitcntEvent.VmemStore))
    (eventMask WaitcntEvent.ScratchStore).

(** [x & mask] as a condition. *)
Definition hasBits (x mask : Z) : bool := negb (Z.land x mask =? 0).

Definition xSourceGroup (events : Z) : Z :=
  let group := if hasBits events vmemSourceEventMask
               then eventMask WaitcntEvent.Vmem else 0 in
  if hasBits events (eventMask WaitcntEvent.Smem)
  then Z.lor group (eventMask WaitcntEvent.Smem) else group.

Definition hasMixedXGroups (mask : Z) : bool :=
  hasBits mask vmemSourceEventMask && hasBits mask (eventMask WaitcntEvent.Smem).

Definition requiresZeroWait (counter : WaitcntCounter.t) (activeEvents : Z) :
    bool :=
  match counter with
  | WaitcntCounter.Km =>
      hasBits activeEvents (eventMask WaitcntEvent.Smem)
      || hasMultipleEvents activeEvents
  | WaitcntCounter.Lgkm => hasMultipleEvents activeEvents
  | WaitcntCounter.X => hasMixedXGroups activeEvents
  | _ => false
  end.

(** ** Tokens *)

(** What a token is about: the result [id] of an operation ([OfValue None] is
    the null [id] of the unknown sentinel), a physical register that is still
    to be read ([source]), or the EXEC mask ([execSource]). *)
Inductive TokenSubject : Set :=
  | OfValue (id : option Value)
  | OfSource (source : RegSpan)
  | OfExec.
#[export] Instance TokenSubject_eq_dec : EqDecision TokenSubject.
Proof. solve_decision. Defined.

Record Token : Set := mkToken {
  subject : TokenSubject;
  events : Z;
  position : Z;
  counter : WaitcntCounter.t;
  tok_outOfOrder : bool;
  writesMemory : bool
}.

Definition isSource (t : Token) : bool :=
  match subject t with OfValue _ => false | _ => true end.
Definition isUnknown (t : Token) : bool :=
  match subject t with OfValue None => true | _ => false end.

(** The address that [getAsOpaquePointer] gives. *)
Definition opaquePointer (id : option Value) : Z :=
  match id with None => 0 | Some v => 1 + Z.of_N (value_id v) end.

Definition sortSpan (a b : RegSpan) (tie : bool) : bool :=
  if negb (bool_decide (span_regClass a = span_regClass b))
  then regClassValue (span_regClass a) <? regClassValue (span_regClass b)
  else if negb (span_begin a =? span_begin b)
  then span_begin a <? span_begin b
  else if negb (span_end a =? span_end b) then span_end a <? span_end b
  else tie.

Definition sortKey (a b : Token) : bool :=
  if negb (bool_decide (counter a = counter b))
  then counterValue (counter a) <? counterValue (counter b)
  else match subject a, subject b with
  | OfValue ida, OfValue idb => opaquePointer ida <? opaquePointer idb
  | OfValue _, _ => true
  | _, OfValue _ => false
  | OfSource _, OfExec => true
  | OfExec, OfSource _ => false
  | OfExec, OfExec => xSourceGroup (events a) <? xSourceGroup (events b)
  | OfSource sa, OfSource sb =>
      sortSpan sa sb (xSourceGroup (events a) <? xSourceGroup (events b))
  end.

Definition sameKey (a b : Token) : bool :=
  bool_decide (counter a = counter b)
  && match subject a, subject b with
     | OfValue ida, OfValue idb => opaquePointer ida =? opaquePointer idb
     | OfSource sa, OfSource sb =>
         bool_decide (sa = sb)
         && (xSourceGroup (events a) =? xSourceGroup (events b))
     | OfExec, OfExec => xSourceGroup (events a) =? xSourceGroup (events b)
     | _, _ => false
     end.

Definition sameTokenState (a b : Token) : bool :=
  sameKey a b && (events a =? events b) && (position a =? position b)
  && eqb (tok_outOfOrder a) (tok_outOfOrder b)
  && eqb (writesMemory a) (writesMemory b).

(** ** Tokens of the expert scheduling mode *)

Record ExpertToken : Set := mkExpertToken {
  ex_source : option RegSpan;
  ex_event : ExpertEvent.t;
  ex_position : Z;
  ex_counter : ExpertCounter.t
}.

Definition sourceToken (source : RegSpan) (counter : ExpertCounter.t)
    (position : Z) : ExpertToken :=
  mkExpertToken (Some source) ExpertEvent.None position counter.
Definition eventToken (event : ExpertEvent.t) (counter : ExpertCounter.t)
    (position : Z) : ExpertToken :=
  mkExpertToken None event position counter.

Definition isEventMarker (t : ExpertToken) : bool :=
  match ex_source t with None => true | Some _ => false end.

Definition sortExpertKey (lhs rhs : ExpertToken) : bool :=
  if negb (bool_decide (ex_counter lhs = ex_counter rhs))
  then ExpertCounter.value (ex_counter lhs) <? ExpertCounter.value (ex_counter rhs)
  else match ex_source lhs, ex_source rhs with
  | None, Some _ => true
  | Some _, None => false
  | None, None => ExpertEvent.value (ex_event lhs) <? ExpertEvent.value (ex_event rhs)
  | Some a, Some b => sortSpan a b false
  end.

Definition sameExpertKey (lhs rhs : ExpertToken) : bool :=
  bool_decide (ex_counter lhs = ex_counter rhs)
  && match ex_source lhs, ex_source rhs with
     | None, None => bool_decide (ex_event lhs = ex_event rhs)
     | Some a, Some b => bool_decide (a = b)
     | _, _ => false
     end.

Definition sameExpertTokenState (a b : ExpertToken) : bool :=
  sameExpertKey a b && (ex_position a =? ex_position b).

(** ** Required counts

    One optional count per counter; [requireDrain] keeps the least. *)

Definition WaitRequirement : Type := WaitcntCounter.t -> option Z.
Definition ExpertWaitRequirement : Type := ExpertCounter.t -> option Z.

Definition noWait : WaitRequirement := fun _ => None.
Definition noExpertWait : ExpertWaitRequirement := fun _ => None.

Definition hasWait (req : WaitRequirement) : bool :=
  existsb (fun c => bool_decide (is_Some (req c)))
    (WaitcntCounter.None :: allCounters).
Definition hasExpertWait (req : ExpertWaitRequirement) : bool :=
  existsb (fun c => bool_decide (is_Some (req c))) ExpertCounter.all.

Definition minSlot (slot : option Z) (position : Z) : option Z :=
  match slot with
  | Some count => Some (if position <? count then position else count)
  | None => Some position
  end.

Definition requireDrain (req : WaitRequirement) (counter : WaitcntCounter.t)
    (position : Z) : WaitRequirement :=
  fun c => if decide (c = counter) then minSlot (req c) position else req c.
Definition requireExpertDrain (req : ExpertWaitRequirement)
    (counter : ExpertCounter.t) (position : Z) : ExpertWaitRequirement :=
  fun c => if decide (c = counter) then minSlot (req c) position else req c.

(** ** The wait state *)

Record WaitState : Set := mkWaitState {
  tokens : list Token;
  expertTokens : list ExpertToken
}.
Definition emptyWaitState : WaitState := mkWaitState [] [].

Fixpoint sameTokenSequence {T} (equal : T -> T -> bool) (lhs rhs : list T) :
    bool :=
  match lhs, rhs with
  | [], [] => true
  | a :: lhs', b :: rhs' => equal a b && sameTokenSequence equal lhs' rhs'
  | _, _ => false
  end.

(** [WaitState::operator==] *)
Definition sameWaitState (lhs rhs : WaitState) : bool :=
  sameTokenSequence sameTokenState (tokens lhs) (tokens rhs)
  && sameTokenSequence sameExpertTokenState (expertTokens lhs)
       (expertTokens rhs).

(** ** Keyed vectors

    [llvm::lower_bound] on a vector in key order splits it before the first
    element that is not less; [upsert] changes the element with the key of
    [tok], or inserts [tok].  [merge] returns whether it changed the element. *)

Section Keyed.
Context {T : Type} (less same : T -> T -> bool).

Fixpoint lowerBound (tokens : list T) (tok : T) : list T * list T :=
  match tokens with
  | [] => ([], [])
  | t :: tokens' =>
      if less t tok
      then let '(before, rest) := lowerBound tokens' tok in (t :: before, rest)
      else ([], tokens)
  end.

Definition upsert (merge : T -> T -> bool * T) (tokens : list T) (tok : T) :
    bool * list T :=
  let '(before, rest) := lowerBound tokens tok in
  match rest with
  | it :: rest' =>
      if same it tok
      then let '(changed, it) := merge it tok in (changed, before ++ it :: rest')
      else (true, before ++ tok :: rest)
  | [] => (true, before ++ [tok])
  end.

(** Insertions one after the other, whether any changed. *)
Definition upsertAll (merge : T -> T -> bool * T) (tokens toks : list T) :
    bool * list T :=
  fold_left (fun '(changed, tokens) tok =>
    let '(changed', tokens) := upsert merge tokens tok in
    (changed || changed', tokens)) toks (false, tokens).
End Keyed.

(** [remove_if] and [erase] *)
Definition eraseIf {T} (drop : T -> bool) (tokens : list T) : list T :=
  base.filter (fun t => drop t = false) tokens.

Definition saturatingBump (position delta : Z) : Z :=
  if UINT_MAX - position <? delta then UINT_MAX else position + delta.

(** ** The namespace [lat] *)

Definition set_position (p : Z) (t : Token) : Token :=
  mkToken (subject t) (events t) p (counter t) (tok_outOfOrder t)
    (writesMemory t).
Definition set_events (e : Z) (t : Token) : Token :=
  mkToken (subject t) e (position t) (counter t) (tok_outOfOrder t)
    (writesMemory t).

Module lat.

Record TokenAggregate : Set := mkAggregate {
  agg_position : option Z;
  agg_events : Z;
  agg_outOfOrder : bool;
  agg_writesMemory : bool
}.
Definition emptyAggregate : TokenAggregate := mkAggregate None 0 false false.

Definition mergeInto (agg : TokenAggregate) (token : Token) : TokenAggregate :=
  mkAggregate (minSlot (agg_position agg) (position token))
    (Z.lor (agg_events agg) (events token))
    (agg_outOfOrder agg || tok_outOfOrder token)
    (agg_writesMemory agg || writesMemory token).

(** The token of an aggregate that saw some token. *)
Definition aggregateToken (id : option Value) (c : WaitcntCounter.t)
    (agg : TokenAggregate) : list Token :=
  match agg_position agg with
  | None => []
  | Some p => [mkToken (OfValue id) (agg_events agg) p c (agg_outOfOrder agg)
                 (agg_writesMemory agg)]
  end.

Definition minToken (it tok : Token) : bool * Token :=
  let events' := Z.lor (events it) (events tok) in
  let changed := (position tok <? position it) || negb (events' =? events it)
    || (tok_outOfOrder tok && negb (tok_outOfOrder it))
    || (writesMemory tok && negb (writesMemory it)) in
  (changed,
   mkToken (subject it) events'
     (if position tok <? position it then position tok else position it)
     (counter it) (tok_outOfOrder it || tok_outOfOrder tok)
     (writesMemory it || writesMemory tok)).

Definition insertOrMin : list Token -> Token -> bool * list Token :=
  upsert sortKey sameKey minToken.

Definition replaceToken (it tok : Token) : bool * Token :=
  if negb (events it =? events tok) || negb (position it =? position tok)
     || negb (eqb (tok_outOfOrder it) (tok_outOfOrder tok))
     || negb (eqb (writesMemory it) (writesMemory tok))
  then (true, tok) else (false, it).

Definition insertOrReplace : list Token -> Token -> bool * list Token :=
  upsert sortKey sameKey replaceToken.

Definition bumpCounter (tokens : list Token) (c : WaitcntCounter.t)
    (delta : Z) : list Token :=
  (fun t => if decide (counter t <> c) then t
            else set_position (saturatingBump (position t) delta) t) <$> tokens.

Definition activeEventMask (tokens : list Token) (c : WaitcntCounter.t) : Z :=
  fold_left (fun mask token =>
    if decide (counter token = c) then Z.lor mask (events token) else mask)
    tokens 0.

Definition dropDrained (tokens : list Token) (c : WaitcntCounter.t)
    (threshold : Z) : list Token :=
  let liveEvents := activeEventMask tokens c in
  eraseIf (fun t =>
    if bool_decide (counter t <> c) || (position t <? threshold) then false
    else if threshold =? 0 then true
    else negb (tok_outOfOrder t || requiresZeroWait (counter t) liveEvents))
    tokens.

Definition dropXGroup (tokens : list Token) (group threshold : Z) :
    list Token :=
  eraseIf (fun t =>
    bool_decide (counter t = WaitcntCounter.X)
    && hasBits (xSourceGroup (events t)) group
    && (threshold <=? position t)) tokens.

(** [llvm::is_contained(ids, token.id)]: a source token has a null [id]. *)
Definition tokenId (t : Token) : option Value :=
  match subject t with OfValue id => id | _ => None end.

Definition matchesIssuedEvent (token : Token) (c : WaitcntCounter.t)
    (ids : list Value) (mask : Z) : bool :=
  bool_decide (counter token = c)
  && match tokenId token with
     | Some v => existsb (fun id => (value_id id =? value_id v)%N) ids
     | None => false
     end
  && hasBits (events token) mask.

Definition completedPosition (tokens : list Token) (c : WaitcntCounter.t)
    (ids : list Value) (mask : Z) : option Z :=
  fold_left (fun completed token =>
    if matchesIssuedEvent token c ids mask
    then minSlot completed (position token) else completed) tokens None.

Definition dropIssuedEvent (tokens : list Token) (c : WaitcntCounter.t)
    (ids : list Value) (event : WaitcntEvent.t) : list Token :=
  let mask := eventMask event in
  let completed := completedPosition tokens c ids mask in
  let tokens := (fun token =>
    if matchesIssuedEvent token c ids mask
    then set_events (Z.land (events token) (Z.lnot mask)) token
    else token) <$> tokens in
  let tokens := eraseIf (fun token => events token =? 0) tokens in
  match completed with
  | None => tokens
  | Some completed =>
      (fun token =>
        if bool_decide (counter token = c) && (completed <? position token)
        then set_position (position token - 1) token else token) <$> tokens
  end.

Definition applyWait (tokens : list Token) (req : WaitRequirement) :
    list Token :=
  let tokens := fold_left (fun tokens c =>
    if decide (c = WaitcntCounter.X) then tokens
    else match req c with
         | Some count => dropDrained tokens c count
         | None => tokens
         end) allCounters tokens in
  let tokens :=
    if decide (req WaitcntCounter.Km = Some 0)
    then dropXGroup tokens (eventMask WaitcntEvent.Smem) 0 else tokens in
  let pendingStore := existsb (fun t =>
    bool_decide (counter t = WaitcntCounter.Store)) tokens in
  let tokens :=
    match req WaitcntCounter.Load with
    | Some load =>
        if negb pendingStore
        then dropXGroup tokens (eventMask WaitcntEvent.Vmem) load else tokens
    | None => tokens
    end in
  match req WaitcntCounter.X with
  | Some xcnt => dropDrained tokens WaitcntCounter.X xcnt
  | None => tokens
  end.

Definition clearCounter (tokens : list Token) (c : WaitcntCounter.t) :
    list Token :=
  eraseIf (fun t => bool_decide (counter t = c)) tokens.

Definition keyToken (c : WaitcntCounter.t) (id : option Value) : Token :=
  mkToken (OfValue id) 0 0 c false false.

Definition find (tokens : list Token) (c : WaitcntCounter.t) (id : Value) :
    option Token :=
  let key := keyToken c (Some id) in
  match (lowerBound sortKey tokens key).2 with
  | it :: _ => if sameKey it key then Some it else None
  | [] => None
  end.

(** [collapseEscaping] for the target block: [dominates id] says that the value
    has a defining block and that it dominates the target. *)
Definition keepsToken (dominates : Value -> bool) (t : Token) : bool :=
  match subject t with
  | OfValue (Some id) => dominates id
  | _ => true
  end.

Definition collectEscaping (dominates : Value -> bool) (tokens : list Token)
    (c : WaitcntCounter.t) : TokenAggregate :=
  fold_left (fun agg t =>
    if keepsToken dominates t || negb (bool_decide (counter t = c)) then agg
    else mergeInto agg t) tokens emptyAggregate.

Definition collapseEscaping (dominates : Value -> bool) (tokens : list Token) :
    list Token :=
  let kept := base.filter (fun t => keepsToken dominates t = true) tokens in
  fold_left (fun kept c =>
    fold_left (fun kept t => (insertOrMin kept t).2)
      (aggregateToken None c (collectEscaping dominates tokens c)) kept)
    allCounters kept.

Definition issue (tokens : list Token) (c : WaitcntCounter.t) (count mask : Z)
    (outOfOrder_ writes : bool) (tagged : list Value) : bool * list Token :=
  let count := if count =? 0 then 1 else count in
  let tokens := bumpCounter tokens c count in
  match tagged with
  | [] => insertOrMin tokens (mkToken (OfValue None) mask 0 c outOfOrder_ writes)
  | _ =>
      upsertAll sortKey sameKey replaceToken tokens
        ((fun v => mkToken (OfValue (Some v)) mask 0 c outOfOrder_ writes)
           <$> tagged)
  end.

(** The units of a span: [for (unit = begin; unit < end; ++unit)]. *)
Definition spanUnits (source : RegSpan) : list RegSpan :=
  (fun unit => mkSpan (span_regClass source) unit (unit + 1))
    <$> seqZ (span_begin source) (span_end source - span_begin source).

Definition issueSources (tokens : list Token) (c : WaitcntCounter.t)
    (count mask : Z) (outOfOrder_ : bool) (sources : list RegSpan)
    (execSource : bool) : bool * list Token :=
  let count := if count =? 0 then 1 else count in
  let tokens := bumpCounter tokens c count in
  upsertAll sortKey sameKey replaceToken tokens
    ((if execSource then [mkToken OfExec mask 0 c outOfOrder_ false] else [])
     ++ ((fun unit => mkToken (OfSource unit) mask 0 c outOfOrder_ false)
           <$> (sources ≫= spanUnits))).

(** The aggregate of one counter, over the sources and then the tokens. *)
Definition mergeSource (tokens : list Token) (c : WaitcntCounter.t)
    (agg : TokenAggregate) (src : Value) : TokenAggregate :=
  fold_left (fun agg t =>
    match subject t with
    | OfValue (Some id) =>
        if (value_id id =? value_id src)%N && bool_decide (counter t = c)
        then mergeInto agg t else agg
    | _ => agg
    end) tokens agg.

Definition mergeSources (tokens : list Token) (sources : list Value)
    (result : Value) : list Token :=
  allCounters ≫= fun c =>
    aggregateToken (Some result) c
      (fold_left (mergeSource tokens c) sources emptyAggregate).

End lat.

(** ** The namespace [expert] *)

Module expert.

Definition set_position (p : Z) (t : ExpertToken) : ExpertToken :=
  mkExpertToken (ex_source t) (ex_event t) p (ex_counter t).

Definition minToken (it token : ExpertToken) : bool * ExpertToken :=
  if ex_position it <=? ex_position token then (false, it)
  else (true, set_position (ex_position token) it).
Definition insertOrMin : list ExpertToken -> ExpertToken ->
    bool * list ExpertToken := upsert sortExpertKey sameExpertKey minToken.

Definition replaceToken (it token : ExpertToken) : bool * ExpertToken :=
  if ex_position token =? ex_position it then (false, it) else (true, token).
Definition insertOrReplace : list ExpertToken -> ExpertToken ->
    bool * list ExpertToken := upsert sortExpertKey sameExpertKey replaceToken.

Definition bumpCounter (tokens : list ExpertToken) (c : ExpertCounter.t)
    (delta : Z) : list ExpertToken :=
  (fun t => if decide (ex_counter t <> c) then t
            else set_position (saturatingBump (ex_position t) delta) t)
    <$> tokens.

Definition issue (tokens : list ExpertToken) (c : ExpertCounter.t) (count : Z)
    (event : ExpertEvent.t) (sources : list RegSpan) : list ExpertToken :=
  if count =? 0 then tokens
  else
    (upsertAll sortExpertKey sameExpertKey replaceToken
       (bumpCounter tokens c count)
       (eventToken event c 0
        :: ((fun unit => sourceToken unit c 0)
              <$> (sources ≫= lat.spanUnits)))).2.

Definition activeEventMask (tokens : list ExpertToken) (c : ExpertCounter.t) :
    Z :=
  fold_left (fun mask token =>
    if bool_decide (ex_counter token = c) && isEventMarker token
    then Z.lor mask (ExpertEvent.value (ex_event token)) else mask) tokens 0.

Definition requireSpan (req : ExpertWaitRequirement) (span : RegSpan)
    (c : ExpertCounter.t) (tokens : list ExpertToken) :
    ExpertWaitRequirement :=
  let mixed := hasMultipleEvents (activeEventMask tokens c) in
  fold_left (fun req token =>
    match ex_source token with
    | Some source =>
        if bool_decide (ex_counter token = c) && overlaps span source
        then requireExpertDrain req c (if mixed then 0 else ex_position token)
        else req
    | None => req
    end) tokens req.

Definition requireAll (req : ExpertWaitRequirement) (c : ExpertCounter.t)
    (tokens : list ExpertToken) : ExpertWaitRequirement :=
  if existsb (fun token => bool_decide (ex_counter token = c)) tokens
  then requireExpertDrain req c 0 else req.

Definition applyCounterWait (tokens : list ExpertToken) (c : ExpertCounter.t)
    (threshold : Z) : list ExpertToken :=
  eraseIf (fun token => bool_decide (ex_counter token = c)
                        && (threshold <=? ex_position token)) tokens.

Definition applyWait (tokens : list ExpertToken) (req : ExpertWaitRequirement) :
    list ExpertToken :=
  fold_left (fun tokens c =>
    match req c with
    | Some count => applyCounterWait tokens c count
    | None => tokens
    end) ExpertCounter.all tokens.

End expert.

(** ** The join of the lattice: the joined state, and whether it changed *)

Definition joinWith (state incoming : WaitState) : bool * WaitState :=
  let '(changed, toks) :=
    upsertAll sortKey sameKey lat.minToken (tokens state) (tokens incoming) in
  let '(changed', expertToks) :=
    upsertAll sortExpertKey sameExpertKey expert.minToken (expertTokens state)
      (expertTokens incoming) in
  (changed || changed', mkWaitState toks expertToks).

Definition waitPosition (tokens : list Token) (token : Token) : Z :=
  if tok_outOfOrder token then 0
  else if requiresZeroWait (counter token)
            (lat.activeEventMask tokens (counter token)) then 0
  else position token.
