(* ===== verification/TicketWaits.v ===== *)
(** * Requirements, transfer and materialisation of waits
    ([WaveAMDMachineWaitcnt.cpp], second part)

    For each operation the pass computes the counts to wait for, drains the
    state by them and records what the operation issues; the analysis runs the
    transfer over the blocks, the rewrite emits the waits. *)

From stdpp Require Import base tactics list strings sorting.
From S2P Require Import Prelude CostEnums ArchData MachineIR LatencyTable.
From S2P Require Import OpClassifier TicketIR TicketState.

(** ** Classification *)

Definition isWaitcntOp (op : Operation) : bool := hasTrait op Trait.WaitcntOp.

Definition isTokenOnlyOp (op : Operation) : bool :=
  hasTrait op Trait.TokenOp || hasTrait op Trait.TokenJoinOp.

Definition isMemoryIssuer (op : Operation) : bool := isIssuer (getWaitcntInfo op).

Definition isMemoryWriteIssuer (op : Operation) : bool :=
  hasTrait op Trait.LDSStoreOp || hasTrait op Trait.LDSDmaOp
  || hasTrait op Trait.VMEMStoreOp.

Definition isReadOnlyIssuer (op : Operation) : bool :=
  isMemoryIssuer op && negb (isMemoryWriteIssuer op).

Definition isTupleMemoryOp (op : Operation) : bool :=
  hasTrait op Trait.TupleMemoryOp.

Definition emitsMachineInst (op : Operation) : bool :=
  negb (hasTrait op Trait.NoMachineInst).

Definition isControlFlowOp (op : TicketOp) : bool := controlFlow op.

(** The classes of the pass; the name tells them from the operation classes
    of the dialect. *)
Module WaitOpKind.
Inductive t : Set :=
  | Skip | Issuer | BarrierIssuer | Barrier | CompletionNeutral
  | CompletionFree | TokenOp | Call | Return | Endpgm | Generic.
#[global] Instance t_eq_dec : EqDecision t.
Proof. solve_decision. Defined.
End WaitOpKind.

Definition isSSetpc (op : Operation) : bool :=
  match op_kind op with SSetpcB64Op => true | _ => false end.
Definition isSEndpgm (op : Operation) : bool :=
  match op_kind op with SEndpgmOp => true | _ => false end.
Definition isSignalIsFirst (op : Operation) : bool :=
  match op_kind op with SBarrierSignalIsFirstOp => true | _ => false end.

Definition classifyProtocolOp (op : TicketOp) : option WaitOpKind.t :=
  if hasTrait op Trait.CompletionNeutralTokenOp
  then Some WaitOpKind.CompletionNeutral
  else if hasTrait op Trait.CompletionFreeTokenOp
  then Some WaitOpKind.CompletionFree
  else if isTokenOnlyOp op then Some WaitOpKind.TokenOp
  else if callInterface op then Some WaitOpKind.Call
  else if isSSetpc op then Some WaitOpKind.Return
  else if isSEndpgm op then Some WaitOpKind.Endpgm
  else None.

Definition classifyWaitOp (op : TicketOp) : WaitOpKind.t :=
  if isWaitcntOp op || isControlFlowOp op then WaitOpKind.Skip
  else match op_kind op with
  | GlobalAtomicAddAcqRelU32Op => WaitOpKind.Barrier
  | kind =>
      if isMemoryIssuer op && isSignalIsFirst op then WaitOpKind.BarrierIssuer
      else if isMemoryIssuer op then WaitOpKind.Issuer
      else match kind with
      | ClusterBarrierOp | SBarrierOp | SBarrierSignalOp | SBarrierWaitOp =>
          WaitOpKind.Barrier
      | _ => default WaitOpKind.Generic (classifyProtocolOp op)
      end
  end.

Definition isExpertVALU (op : Operation) : bool :=
  hasTrait op Trait.VALUOp || hasTrait op Trait.ExpertVALUOp.

Definition classifyExpertVALUEvent (op : TicketOp) : ExpertEvent.t :=
  if hasTrait op Trait.MFMAOp || hasTrait op Trait.WMMAOp || mmaInterface op
  then ExpertEvent.Xdl
  else if hasTrait op Trait.TransOp then ExpertEvent.Trans
  else if hasTrait op Trait.DPMACCOp then ExpertEvent.DPMACC
  else ExpertEvent.CSMACC.

Definition classifyExpertMemoryEvent (op : Operation) : ExpertEvent.t :=
  if hasTrait op Trait.TensorMemoryOp then ExpertEvent.None
  else if hasTrait op Trait.FlatMemoryOp then ExpertEvent.Flat
  else if hasTrait op Trait.DSOp then ExpertEvent.Lds
  else if hasTrait op Trait.VMEMLoadOp || hasTrait op Trait.VMEMStoreOp
  then ExpertEvent.Vmem
  else ExpertEvent.None.

Definition classifyExpertEvent (op : TicketOp) : ExpertEvent.t :=
  if negb (op_isMachine op) || hasTrait op Trait.NoMachineInst
  then ExpertEvent.None
  else if isExpertVALU op then classifyExpertVALUEvent op
  else classifyExpertMemoryEvent op.

Definition isVALUExpertEvent (event : ExpertEvent.t) : bool :=
  match event with
  | ExpertEvent.CSMACC | ExpertEvent.DPMACC | ExpertEvent.Trans
  | ExpertEvent.Xdl => true
  | _ => false
  end.

(** ** What an operation has to wait for *)

Definition requireValue (req : WaitRequirement) (value : Value)
    (toks : list Token) : WaitRequirement :=
  fold_left (fun req c =>
    if decide (c = WaitcntCounter.X) then req
    else match lat.find toks c value with
         | Some t => requireDrain req c (waitPosition toks t)
         | None => req
         end) allCounters req.

Definition requireIssuerToken (req : WaitRequirement) (value : Value)
    (toks : list Token) (issuer : Operation) : WaitRequirement :=
  if negb (isReadOnlyIssuer issuer) then requireValue req value toks
  else fold_left (fun req c =>
    if decide (c = WaitcntCounter.X) then req
    else match lat.find toks c value with
         | Some t => if writesMemory t
                     then requireDrain req c (waitPosition toks t) else req
         | None => req
         end) allCounters req.

Definition pendingSpan (t : Token) : option RegSpan :=
  match subject t with
  | OfSource source => Some source
  | OfValue (Some id) => getAllocatedRegSpan id
  | _ => None
  end.

Definition requireOverlappingRegisterDef (req : WaitRequirement)
    (def : RegSpan) (toks : list Token) : WaitRequirement :=
  fold_left (fun req t =>
    match pendingSpan t with
    | Some span => if overlaps def span
                   then requireDrain req (counter t) (waitPosition toks t)
                   else req
    | None => req
    end) toks req.

(** The spans an operation defines: its allocated results, then the registers
    it names itself. *)
Definition definedSpans (op : TicketOp) : list RegSpan :=
  omap getAllocatedRegSpan (op_results op) ++ fixedDefs op.

Definition requireOverlappingRegisterDefs (req : WaitRequirement)
    (op : TicketOp) (toks : list Token) : WaitRequirement :=
  if negb (emitsMachineInst op) then req
  else fold_left (fun req span => requireOverlappingRegisterDef req span toks)
         (definedSpans op) req.

Definition requireExecDef (req : WaitRequirement) (toks : list Token) :
    WaitRequirement :=
  fold_left (fun req t =>
    match subject t with
    | OfExec => requireDrain req (counter t) (waitPosition toks t)
    | _ => req
    end) toks req.

Section Waits.
Context `{LLVMTarget} `{WaitLLVM}.
(** [Value::getDefiningOp] *)
Context (definingOp : Value -> option TicketOp).

Definition definedByUninit (value : Value) : bool :=
  match definingOp value with
  | Some op => match op_kind op with UninitOp => true | _ => false end
  | None => false
  end.

(** The loop body of [requireExecIfYieldTransition]. *)
Definition requireYieldedValue (toks : list Token) (req : WaitRequirement)
    (resultValue : Value * Value) : WaitRequirement :=
  let '(result, value) := resultValue in
  if isMemToken result then req
  else if definedByUninit value then req
  else if hasSameAllocatedReg result value then req
  else
    let req := requireValue req value toks in
    match getAllocatedRegSpan result with
    | Some span => requireOverlappingRegisterDef req span toks
    | None => req
    end.

(** [zip_equal] of results and yielded values, which the verifier makes equally
    many. *)
Definition requireExecIfYieldTransition (req : WaitRequirement)
    (yield : TicketOp) (toks : list Token) : WaitRequirement :=
  match yieldResults yield with
  | None => req
  | Some results =>
      fold_left (requireYieldedValue toks) (zip results (op_operands yield))
        (requireExecDef req toks)
  end.

(** [getCondition]: the first operand of [exec_if] and [uniform_if]. *)
Definition requireCondition (req : WaitRequirement) (op : Operation)
    (toks : list Token) : WaitRequirement :=
  match op_operands op with
  | condition :: _ => requireValue req condition toks
  | [] => req
  end.

Definition computeControlFlowRequirement (op : TicketOp) (toks : list Token)
    (target : WaitTarget) : outcome WaitRequirement :=
  req ← match op_kind op with
        | ExecIfOp =>
            let req := requireCondition noWait op toks in
            save ← getExecIfSaveSpan op target;
            Ok (match save with
                | Some span => requireOverlappingRegisterDef req span toks
                | None => req
                end)
        | UniformIfOp => Ok (requireCondition noWait op toks)
        | YieldOp => Ok (requireExecIfYieldTransition noWait op toks)
        | _ => Ok noWait
        end;
  Ok (if hasTrait op Trait.WritesExecOp then requireExecDef req toks else req).

(** [$preserved] is the second operand of [buffer_load_u8_d16_hi]. *)
Definition isD16LowPreservedOperand (op : Operation) (operandIndex : nat)
    (operand : Value) : bool :=
  match op_kind op with
  | BufferLoadU8D16HiOp =>
      (operandIndex =? 1)%nat
      && match definingOp operand with
         | Some def => match op_kind def with
                       | BufferLoadU8D16Op => true
                       | _ => false
                       end
         | None => false
         end
  | _ => false
  end.

Definition boundaryCounters : list WaitcntCounter.t :=
  [WaitcntCounter.Load; WaitcntCounter.Store; WaitcntCounter.Ds;
   WaitcntCounter.Km].

Definition computeCallableBoundaryRequirement (toks : list Token) :
    WaitRequirement :=
  fold_left (fun req c =>
    if existsb (fun t => bool_decide (counter t = c)) toks
    then requireDrain req c 0 else req) boundaryCounters noWait.

Definition isDmaIssueDelayOp (op : Operation) : bool :=
  match op_kind op with DmaIssueDelayOp _ _ _ _ => true | _ => false end.

(** The loop body of [requireOperationOperands]. *)
Definition requireOperand (op : TicketOp) (toks : list Token)
    (req : WaitRequirement) (indexed : nat * Value) : WaitRequirement :=
  let '(operandIndex, operand) := indexed in
  let issuer := isMemoryIssuer op && negb (isSignalIsFirst op) in
  if isD16LowPreservedOperand op operandIndex operand then req
  else if isMemToken operand && isDmaIssueDelayOp op then req
  else if issuer && isMemToken operand
  then requireIssuerToken req operand toks op
  else requireValue req operand toks.

Definition requireOperationOperands (req : WaitRequirement) (op : TicketOp)
    (toks : list Token) : WaitRequirement :=
  fold_left (requireOperand op toks) (imap (fun i v => (i, v)) (op_operands op))
    req.

Definition computeRequirement (op : TicketOp) (toks : list Token)
    (target : WaitTarget) : outcome WaitRequirement :=
  if isControlFlowOp op then computeControlFlowRequirement op toks target
  else if isSEndpgm op then Ok noWait
  else if expertScheduling target && (callInterface op || isSSetpc op)
  then Ok (computeCallableBoundaryRequirement toks)
  else
    let req := requireOperationOperands noWait op toks in
    let req := requireOverlappingRegisterDefs req op toks in
    Ok (if hasTrait op Trait.WritesExecOp then requireExecDef req toks else req).

(** *** Expert mode *)

Definition requireExpertDef (toks : list ExpertToken)
    (req : ExpertWaitRequirement) (span : RegSpan) : ExpertWaitRequirement :=
  if negb (isVGPRSpan span) then req
  else
    let req := expert.requireSpan req span ExpertCounter.VaWrite toks in
    let req := expert.requireSpan req span ExpertCounter.VaRead toks in
    expert.requireSpan req span ExpertCounter.VmSource toks.

Definition computeExpertReturnRequirement (toks : list ExpertToken) :
    ExpertWaitRequirement :=
  fold_left (fun req c => expert.requireAll req c toks) ExpertCounter.all
    noExpertWait.

Definition requireExpertOperands (req : ExpertWaitRequirement)
    (op : Operation) (toks : list ExpertToken) : ExpertWaitRequirement :=
  fold_left (fun req operand =>
    match getAllocatedRegSpan operand with
    | Some span =>
        if isVGPRSpan span
        then expert.requireSpan req span ExpertCounter.VaWrite toks else req
    | None => req
    end) (op_operands op) req.

Definition requireExpertDefinitions (req : ExpertWaitRequirement)
    (op : TicketOp) (toks : list ExpertToken) : ExpertWaitRequirement :=
  fold_left (requireExpertDef toks) (definedSpans op) req.

Definition computeExpertRequirement (op : TicketOp) (toks : list ExpertToken)
    (target : WaitTarget) : ExpertWaitRequirement :=
  if negb (expertScheduling target) || isSEndpgm op then noExpertWait
  else if callInterface op || isSSetpc op
  then computeExpertReturnRequirement toks
  else
    let req := requireExpertOperands noExpertWait op toks in
    let req := requireExpertDefinitions req op toks in
    if isExpertVALU op
    then fun c => match c with
                  | ExpertCounter.VaRead | ExpertCounter.VaWrite => None
                  | ExpertCounter.VmSource => req c
                  end
    else req.

(** ** What an operation issues *)

Definition collectIssuerSources (op : TicketOp) : list RegSpan :=
  omap getAllocatedRegSpan (op_operands op)
  ++ match op_kind op with
     | SLoadB32Op | SLoadB64Op | SLoadB128Op =>
         match baseRegister op with
         | Some base => option_list (RegisterText.parseSGPRRegisterSpan base)
         | None => []
         end
     | _ => []
     end.

Definition isVmemSourceEvent (event : WaitcntEvent.t) : bool :=
  bool_decide (event = WaitcntEvent.Vmem)
  || bool_decide (event = WaitcntEvent.VmemStore)
  || bool_decide (event = WaitcntEvent.ScratchStore).

Definition isSmemSourceEvent (event : WaitcntEvent.t) : bool :=
  bool_decide (event = WaitcntEvent.Smem).

Definition applyImplicitXGroupSwitch (op : Operation) (toks : list Token)
    (target : WaitTarget) : list Token :=
  if negb (waitXcnt target) || negb (isMemoryIssuer op) then toks
  else
    let ev := event (getWaitcntInfo op) in
    if isVmemSourceEvent ev
    then lat.dropXGroup toks (eventMask WaitcntEvent.Smem) 0
    else if isSmemSourceEvent ev
    then lat.dropXGroup toks (eventMask WaitcntEvent.Vmem) 0
    else toks.

Definition counterMapping (target : WaitTarget) (ev : WaitcntEvent.t) :
    option WaitcntCounterMapping :=
  getWaitcntCounterMapping ev (family target) (waitXcnt target).

(** [getArrival]: the operand of [s_barrier_wait]. *)
Definition applyBarrierWaitCompletion (op : TicketOp) (toks : list Token)
    (target : WaitTarget) : list Token :=
  match op_kind op, op_operands op with
  | SBarrierWaitOp, arrival :: _ =>
      match definingOp arrival with
      | Some signal =>
          if negb (isSignalIsFirst signal)
             || negb (barrierScope signal =? barrierScope op) then toks
          else match counterMapping target WaitcntEvent.SccWrite with
               | None => toks
               | Some mapping =>
                   lat.dropIssuedEvent toks (completion mapping)
                     (op_results signal) WaitcntEvent.SccWrite
               end
      | None => toks
      end
  | _, _ => toks
  end.

Definition recordIssue (op : TicketOp) (toks : list Token)
    (target : WaitTarget) : list Token :=
  let info := getWaitcntInfo op in
  match counterMapping target (event info) with
  | None => toks
  | Some mapping =>
      let toks := (lat.issue toks (completion mapping) (issueCount info)
                     (eventMask (event info)) (outOfOrder info)
                     (isMemoryWriteIssuer op) (op_results op)).2 in
      if decide (source mapping = WaitcntCounter.None) then toks
      else (lat.issueSources toks (source mapping) (issueCount info)
              (eventMask (event info)) (outOfOrder info)
              (collectIssuerSources op) (isVmemSourceEvent (event info))).2
  end.

Definition collectExpertSpans (values : list Value) : list RegSpan :=
  base.filter (fun span => isVGPRSpan span = true)
    (omap getAllocatedRegSpan values).

Definition recordExpertIssue (op : TicketOp) (toks : list ExpertToken)
    (target : WaitTarget) : outcome (list ExpertToken) :=
  if negb (expertScheduling target) then Ok toks
  else if decide (classifyWaitOp op = WaitOpKind.Barrier) then Ok toks
  else
    let ev := classifyExpertEvent op in
    if decide (ev = ExpertEvent.None) then Ok toks
    else
      count ← getInstructionIssueCount op (target_isa target)
                (target_wavefrontSize target);
      Ok (if count =? 0 then toks
          else
            let operands := collectExpertSpans (op_operands op) in
            if negb (isVALUExpertEvent ev)
            then expert.issue toks ExpertCounter.VmSource 1 ev operands
            else
              let results := collectExpertSpans (op_results op) in
              expert.issue
                (expert.issue toks ExpertCounter.VaRead count ev operands)
                ExpertCounter.VaWrite count ev results).

Definition insertAllMin (toks added : list Token) : list Token :=
  (upsertAll sortKey sameKey lat.minToken toks added).2.

Definition deriveIssuerDependencyTokens (op : Operation) (toks : list Token) :
    list Token :=
  if negb (isReadOnlyIssuer op) then toks
  else match base.filter (fun v => isMemToken v = true) (op_operands op) with
  | [] => toks
  | dependencies =>
      fold_left (fun toks result =>
        if negb (isMemToken result) then toks
        else insertAllMin toks (lat.mergeSources toks dependencies result))
        (op_results op) toks
  end.

Definition deriveResultTokens (op : Operation) (toks : list Token) :
    list Token :=
  fold_left (fun toks result =>
    insertAllMin toks (lat.mergeSources toks (op_operands op) result))
    (op_results op) toks.

Definition implicitlyDrainsXcnt (op : TicketOp) : bool :=
  branchInterface op ||
  match op_kind op with
  | ExecIfOp | UniformIfOp | ContinueIfOp | SCBranchExeczOp | SCBranchScc0Op
  | SCBranchScc1Op => true
  | UniformLoopOp _ _ => entryCond op
  | BarrierArriveOp | BarrierWaitOp | ClusterBarrierOp
  | SBarrierSignalIsFirstOp | SBarrierSignalOp | SBarrierWaitOp | SBarrierOp
  | SEndpgmOp | SGetregHwIdOp | SGetregShaderCyclesOp
  | SSendmsgDeallocVgprsOp | SSetpcB64Op | SSetVgprMsbOp => true
  | _ => false
  end.

(** ** Counts that the hardware can wait for *)

Definition normalizeExpertWait (req : ExpertWaitRequirement) :
    ExpertWaitRequirement :=
  let vaRead := req ExpertCounter.VaRead in
  let vaWrite := req ExpertCounter.VaWrite in
  let va := if bool_decide (is_Some vaRead) || bool_decide (is_Some vaWrite)
            then Some (Z.min (default UINT_MAX vaRead)
                         (default UINT_MAX vaWrite))
            else None in
  fun c =>
    let count := match c, va with
                 | (ExpertCounter.VaRead | ExpertCounter.VaWrite), Some _ => va
                 | _, _ => req c
                 end in
    match count with
    | None => None
    | Some count =>
        let max := getExpertCounterMax c in
        Some (if max <=? count then u32 (max - 1) else count)
    end.

(** [clampSaturatedCounterFields], on the entry of one counter. *)
Definition clampCount (target : WaitTarget) (c : WaitcntCounter.t)
    (count : option Z) : outcome (option Z) :=
  max ← getCounterMax c (target_isa target);
  Ok (match count with
      | None => None
      | Some count =>
          if decide (c = WaitcntCounter.Vscnt)
          then Some (if max <? count then max else count)
          else Some (if (0 <? max) && (max <=? count) then max - 1 else count)
      end).

Definition clampSaturatedCounterFields (req : WaitRequirement)
    (target : WaitTarget) : outcome WaitRequirement :=
  foldM (fun req' c =>
    count ← clampCount target c (req c);
    Ok (fun c' => if decide (c' = c) then count else req' c'))
    req allCounters.

(** ** Existing waits *)

(** The two conditions on a [vmcnt] or [lgkmcnt] field. *)
Definition observeField (req : WaitRequirement) (c : WaitcntCounter.t)
    (count : option Z) (max : Z) : WaitRequirement :=
  match count with
  | Some n => if n <? max then requireDrain req c n else req
  | None => req
  end.

Definition observedCounts (op : Operation) (target : WaitTarget) :
    outcome WaitRequirement :=
  match op_kind op with
  | SWaitcntOp vmcnt _ lgkmcnt =>
      vmMax ← getCounterMax WaitcntCounter.Vmem (target_isa target);
      lgMax ← getCounterMax WaitcntCounter.Lgkm (target_isa target);
      Ok (observeField (observeField noWait WaitcntCounter.Vmem vmcnt vmMax)
            WaitcntCounter.Lgkm lgkmcnt lgMax)
  | SWaitcntVscntOp vscnt => Ok (requireDrain noWait WaitcntCounter.Vscnt vscnt)
  | SWaitcntSplitOp loadcnt storecnt dscnt kmcnt xcnt asynccnt tensorcnt =>
      Ok (fold_left (fun req '(c, count) =>
            match (count : option Z) with
            | Some n => requireDrain req c n
            | None => req
            end)
          [(WaitcntCounter.Load, loadcnt); (WaitcntCounter.Store, storecnt);
           (WaitcntCounter.Ds, dscnt); (WaitcntCounter.Km, kmcnt);
           (WaitcntCounter.X, xcnt); (WaitcntCounter.Async, asynccnt);
           (WaitcntCounter.Tensor, tensorcnt)] noWait)
  | _ => Ok noWait
  end.

Definition observeRegularWaitcnt (op : Operation) (toks : list Token)
    (target : WaitTarget) : outcome (list Token) :=
  observed ← observedCounts op target; Ok (lat.applyWait toks observed).

Definition observeExpertWaitcnt (op : TicketOp) (toks : list ExpertToken)
    (target : WaitTarget) : list ExpertToken :=
  if negb (expertScheduling target) then toks
  else match op_kind op with
  | SWaitAluOp =>
      let req := match waitAlu_va_vdst op with
                 | Some va =>
                     requireExpertDrain
                       (requireExpertDrain noExpertWait ExpertCounter.VaRead va)
                       ExpertCounter.VaWrite va
                 | None => noExpertWait
                 end in
      let req := match waitAlu_vm_vsrc op with
                 | Some vm => requireExpertDrain req ExpertCounter.VmSource vm
                 | None => req
                 end in
      expert.applyWait toks req
  | _ => toks
  end.

Definition observeExistingWaitcnt (op : TicketOp) (state : WaitState)
    (target : WaitTarget) : outcome WaitState :=
  toks ← observeRegularWaitcnt op (tokens state) target;
  Ok (mkWaitState toks (observeExpertWaitcnt op (expertTokens state) target)).

(** ** Transfer

    The result of a transfer is the wait it hands to [emit], if any, and the
    state after it. *)

Definition Wait : Type := WaitRequirement * ExpertWaitRequirement.

Definition applyDrain (op : TicketOp) (state : WaitState)
    (target : WaitTarget) : outcome (Wait * WaitState) :=
  req ← computeRequirement op (tokens state) target;
  let expertReq := computeExpertRequirement op (expertTokens state) target in
  req ← clampSaturatedCounterFields req target;
  let expertReq := normalizeExpertWait expertReq in
  Ok ((req, expertReq),
      mkWaitState (lat.applyWait (tokens state) req)
        (expert.applyWait (expertTokens state) expertReq)).

Definition applyImplicitXDrain (op : TicketOp) (state : WaitState)
    (target : WaitTarget) : WaitState :=
  if waitXcnt target && implicitlyDrainsXcnt op
  then mkWaitState (lat.clearCounter (tokens state) WaitcntCounter.X)
         (expertTokens state)
  else state.

Definition onTokens (f : list Token -> list Token) (state : WaitState) :
    WaitState := mkWaitState (f (tokens state)) (expertTokens state).

(** [recordExpertIssue] and [applyImplicitXDrain], the end of a transfer. *)
Definition finishTransfer (op : TicketOp) (wait : option Wait)
    (state : WaitState) (target : WaitTarget) :
    outcome (option Wait * WaitState) :=
  expertToks ← recordExpertIssue op (expertTokens state) target;
  Ok (wait, applyImplicitXDrain op (mkWaitState (tokens state) expertToks)
              target).

Definition transferCall (op : TicketOp) (state : WaitState)
    (target : WaitTarget) : outcome (Wait * WaitState) :=
  '(wait, state) ← applyDrain op state target;
  Ok (wait,
      if negb (expertScheduling target) then state
      else mkWaitState (fold_left lat.clearCounter boundaryCounters
                          (tokens state)) []).

Definition runTransfer (op : TicketOp) (state : WaitState)
    (target : WaitTarget) : outcome (option Wait * WaitState) :=
  match classifyWaitOp op with
  | WaitOpKind.Skip =>
      if isWaitcntOp op
      then state ← observeExistingWaitcnt op state target; Ok (None, state)
      else '(wait, state) ← applyDrain op state target;
           finishTransfer op (Some wait) state target
  | WaitOpKind.CompletionNeutral | WaitOpKind.TokenOp =>
      finishTransfer op None (onTokens (deriveResultTokens op) state) target
  | WaitOpKind.CompletionFree => finishTransfer op None state target
  | WaitOpKind.Endpgm => Ok (None, emptyWaitState)
  | WaitOpKind.Issuer =>
      '(wait, state) ← applyDrain op state target;
      let state := onTokens (fun toks =>
        deriveIssuerDependencyTokens op
          (recordIssue op (applyImplicitXGroupSwitch op toks target) target))
        state in
      finishTransfer op (Some wait) state target
  | WaitOpKind.BarrierIssuer =>
      '(wait, state) ← applyDrain op state target;
      finishTransfer op (Some wait)
        (onTokens (fun toks => recordIssue op toks target) state) target
  | WaitOpKind.Barrier =>
      let state := onTokens (fun toks =>
        applyBarrierWaitCompletion op toks target) state in
      '(wait, state) ← applyDrain op state target;
      let state := onTokens (fun toks =>
        deriveResultTokens op (applyImplicitXGroupSwitch op toks target))
        state in
      finishTransfer op (Some wait) state target
  | WaitOpKind.Call =>
      '(wait, state) ← transferCall op state target;
      finishTransfer op (Some wait) state target
  | WaitOpKind.Return =>
      '(wait, state) ← applyDrain op state target;
      finishTransfer op (Some wait) (mkWaitState (tokens state) []) target
  | WaitOpKind.Generic =>
      '(wait, state) ← applyDrain op state target;
      finishTransfer op (Some wait) state target
  end.

(** ** Edges *)

(** [propagateOperandsThrough]: the operands' tokens are found first, then
    entered for the destinations. *)
Definition propagateOperandsThrough (operands destinations : list Value)
    (toks : list Token) : list Token :=
  insertAllMin toks
    (zip operands destinations ≫= fun '(operand, dst) =>
       allCounters ≫= fun c =>
         match lat.find toks c operand with
         | Some t => [mkToken (OfValue (Some dst)) (events t) (position t) c
                        (tok_outOfOrder t) (writesMemory t)]
         | None => []
         end).

(** The state on an edge to a block whose arguments are [destinations]:
    [visitBlockTransfer] and [markCFGSuccessorsLive]. *)
Definition edgeTransfer (operands destinations : list Value)
    (dominates : Value -> bool) (state : WaitState) : WaitState :=
  onTokens (fun toks =>
    lat.collapseEscaping dominates
      (propagateOperandsThrough operands destinations toks)) state.

(** [visitRegionBranchControlFlowTransfer]: into a region of [branch], or out
    of it. *)
Definition regionTransfer (branch : TicketOp) (entersRegion : bool)
    (operands destinations : list Value) (dominates : Value -> bool)
    (target : WaitTarget) (state : WaitState) : WaitState :=
  onTokens (fun toks =>
    let toks := propagateOperandsThrough operands destinations toks in
    let toks := if entersRegion && waitXcnt target && implicitlyDrainsXcnt branch
                then lat.clearCounter toks WaitcntCounter.X else toks in
    lat.collapseEscaping dominates toks) state.

(** ** Materialisation *)

(** The wait operations that [emitWaits] creates. *)
Definition emitWaits (req : WaitRequirement) (target : WaitTarget) :
    list OpKind :=
  if decide (family target = WaitCounterFamily.Split)
  then [SWaitcntSplitOp (req WaitcntCounter.Load) (req WaitcntCounter.Store)
          (req WaitcntCounter.Ds) (req WaitcntCounter.Km)
          (req WaitcntCounter.X) (req WaitcntCounter.Async)
          (req WaitcntCounter.Tensor)]
  else
    (if bool_decide (is_Some (req WaitcntCounter.Vmem))
        || bool_decide (is_Some (req WaitcntCounter.Lgkm))
     then [SWaitcntOp (req WaitcntCounter.Vmem) None (req WaitcntCounter.Lgkm)]
     else [])
    ++ match req WaitcntCounter.Vscnt with
       | Some vscnt => [SWaitcntVscntOp vscnt]
       | None => []
       end.

(** An operation that the rewrite creates; [s_wait_alu] with its fields
    [va_vdst] and [vm_vsrc]. *)
Inductive Created : Type :=
  | CreatedOp (kind : OpKind)
  | CreatedWaitAlu (va vm : option Z).

Definition emitExpertWait (req : ExpertWaitRequirement) : list Created :=
  match req ExpertCounter.VaRead, req ExpertCounter.VmSource with
  | None, None => []
  | va, vm => [CreatedWaitAlu va vm]
  end.

(** [emit] of [rewriteOp]. *)
Definition emittedWaits (wait : option Wait) (target : WaitTarget) :
    list Created :=
  match wait with
  | Some (req, expertReq) =>
      (if hasWait req then CreatedOp <$> emitWaits req target else [])
      ++ (if hasExpertWait expertReq then emitExpertWait expertReq else [])
  | None => []
  end.

Definition hasPendingEvent (toks : list Token) (c : WaitcntCounter.t)
    (ev : WaitcntEvent.t) : bool :=
  hasBits (lat.activeEventMask toks c) (eventMask ev).

Definition canDeallocVGPRs (toks : list Token) (target : WaitTarget) : bool :=
  let storeCounter :=
    if decide (family target = WaitCounterFamily.Split)
    then WaitcntCounter.Store else WaitcntCounter.Vscnt in
  existsb (fun t => bool_decide (counter t = storeCounter)) toks
  && negb (hasPendingEvent toks storeCounter WaitcntEvent.ScratchStore).

(** ** Validation *)

Definition validateWaitOpFamily (op : Operation) (target : WaitTarget) :
    outcome unit :=
  let split := bool_decide (family target = WaitCounterFamily.Split) in
  match op_kind op with
  | SWaitcntOp _ _ _ | SWaitcntVscntOp _ => if split then Failure else Ok tt
  | SWaitcntSplitOp _ _ _ _ _ _ _ => if split then Ok tt else Failure
  | _ => Ok tt
  end.

Definition validateWaitLoweringPreconditions (op : TicketOp) : outcome unit :=
  if isTupleMemoryOp op then Failure
  else match op_kind op with
  | ArgOp => if inKernel op then Failure else Ok tt
  | SLoadB32Op | SLoadB64Op | SLoadB128Op =>
      if bool_decide (is_Some (baseRegister op)) then Ok tt else Failure
  | _ => Ok tt
  end.

Definition validateWaitEvent (op : Operation) (target : WaitTarget) :
    outcome unit :=
  let info := getWaitcntInfo op in
  if isIssuer info
     && negb (bool_decide (is_Some (counterMapping target (event info))))
  then Failure else Ok tt.

Definition unallocatedVGPR (value : Value) : bool :=
  match value_type value with
  | RegType RegClass.VGPR _ index =>
      match index with Some i => i <? 0 | None => true end
  | _ => false
  end.

Definition validateExpertScheduling (op : Operation) (target : WaitTarget) :
    outcome unit :=
  if negb (expertScheduling target) then Ok tt
  else if existsb unallocatedVGPR (op_operands op ++ op_results op)
  then Failure else Ok tt.

Definition validateWaveAMDMachineOp (op : TicketOp) (target : WaitTarget) :
    outcome unit :=
  if negb (op_isMachine op) then Ok tt
  else
    _ ← validateWaitOpFamily op target;
    _ ← validateWaitLoweringPreconditions op;
    _ ← validateWaitEvent op target;
    _ ← validateExpertScheduling op target;
    validateInstructionIssueCountTarget op (target_isa target).

(** [visitOperation], up to the join. *)
Definition visitOperation (op : TicketOp) (before : WaitState)
    (target : WaitTarget) : outcome WaitState :=
  _ ← validateWaveAMDMachineOp op target;
  '(_, next) ← runTransfer op before target;
  Ok next.

(** The immediate operand of the [s_nop] is left out. *)
Definition emitVGPRDealloc (target : WaitTarget) : list Created :=
  (if requiresNopBeforeDeallocVGPRs target then [CreatedOp SNopOp] else [])
  ++ [CreatedOp SSendmsgDeallocVgprsOp].

(** One operation of the rewrite: what is created before it.  A control-flow
    operation hands over to [post], the state the solver has after it. *)
Definition rewriteOp (post : TicketOp -> option WaitState) (op : TicketOp)
    (local : WaitState) (target : WaitTarget) (vgprLimited : bool) :
    outcome (list Created * WaitState) :=
  let dealloc := if vgprLimited && isSEndpgm op
                    && canDeallocVGPRs (tokens local) target
                 then emitVGPRDealloc target else [] in
  '(wait, after) ← runTransfer op local target;
  Ok (dealloc ++ emittedWaits wait target,
      if isControlFlowOp op then default after (post op) else after).

Fixpoint rewriteBlock (post : TicketOp -> option WaitState)
    (ops : list TicketOp) (local : WaitState) (target : WaitTarget)
    (vgprLimited : bool) : outcome (list (list Created * TicketOp)) :=
  match ops with
  | [] => Ok []
  | op :: ops' =>
      '(created, local) ← rewriteOp post op local target vgprLimited;
      rest ← rewriteBlock post ops' local target vgprLimited;
      Ok ((created, op) :: rest)
  end.
End Waits.
