(* ===== verification/TicketLattice.v ===== *)
(** * The lattice of wait states

    Vectors in key order behave as finite maps: insertion keeps the order and
    changes one key.  With a join on the elements of a key they form a join
    semilattice, whose order is [below]; [joinWith] is its least upper bound,
    its change flag is exact, and chains of changes are bounded. *)

From stdpp Require Import base tactics list strings sorting.
From S2P Require Import Prelude CostEnums ArchData MachineIR TicketIR TicketState.

(** ** Keys: lists of integers in lexicographic order *)

Fixpoint lexlt (k l : list Z) : Prop :=
  match k, l with
  | [], [] => False
  | [], _ :: _ => True
  | _ :: _, [] => False
  | x :: k', y :: l' => x < y \/ (x = y /\ lexlt k' l')
  end.

Lemma lexlt_irrefl k : ~ lexlt k k.
Proof. induction k as [|x k IH]; simpl; [tauto|]. intros [?|[_ ?]]; [lia|done]. Qed.

Lemma lexlt_trans k l m : lexlt k l -> lexlt l m -> lexlt k m.
Proof.
  revert l m. induction k as [|x k IH]; intros [|y l] [|z m]; simpl; try tauto.
  intros [?|[-> ?]] [?|[-> ?]]; [left; lia|left; lia|left; lia|right; eauto].
Qed.

Lemma lexlt_total k l : lexlt k l \/ k = l \/ lexlt l k.
Proof.
  revert l. induction k as [|x k IH]; intros [|y l]; simpl; auto.
  destruct (Z.lt_trichotomy x y) as [?|[->|?]]; auto.
  destruct (IH l) as [?|[->|?]]; auto.
Qed.

(** ** Keyed vectors *)

Section Vector.
Context {T : Type} (key : T -> list Z) (less same : T -> T -> bool).
Hypothesis less_key : forall a b, less a b = true <-> lexlt (key a) (key b).
Hypothesis same_key : forall a b, same a b = true <-> key a = key b.

(** In key order, each key once. *)
Definition keySorted (ts : list T) : Prop :=
  StronglySorted (fun a b => lexlt (key a) (key b)) ts.

Lemma keySorted_app_inv l1 l2 :
  keySorted (l1 ++ l2) ->
  keySorted l1 /\ keySorted l2 /\
  (forall a b, a ∈ l1 -> b ∈ l2 -> lexlt (key a) (key b)).
Proof using Type.
  clear. unfold keySorted. induction l1 as [|x l1 IH]; simpl.
  - intros H. split_and!; [constructor|done|]. intros a b Ha. by apply elem_of_nil in Ha.
  - inversion 1 as [|? ? Hs Hall]; subst. destruct (IH Hs) as (H1 & H2 & H3).
    rewrite Forall_app in Hall. destruct Hall as [Ha1 Ha2].
    split_and!; [by constructor|done|]. intros a b [->|Ha]%elem_of_cons Hb; [|by apply H3].
    rewrite Forall_forall in Ha2. auto.
Qed.

Lemma keySorted_app l1 l2 :
  keySorted l1 -> keySorted l2 ->
  (forall a b, a ∈ l1 -> b ∈ l2 -> lexlt (key a) (key b)) -> keySorted (l1 ++ l2).
Proof using Type.
  clear. unfold keySorted. induction l1 as [|x l1 IH]; simpl; [done|].
  inversion 1 as [|? ? Hs Hall]; subst. intros H2 H3. constructor.
  - apply IH; [done|done|]. intros a b Ha Hb. apply H3; [by apply elem_of_cons; right|done].
  - apply Forall_app. split; [done|]. apply Forall_forall. intros b Hb. apply H3; [|done].
    by apply elem_of_cons; left.
Qed.

(** A key names one element. *)
Lemma keySorted_inj ts a b :
  keySorted ts -> a ∈ ts -> b ∈ ts -> key a = key b -> a = b.
Proof using Type.
  clear. induction 1 as [|x ts Hs IH Hall]; [by intros ?%elem_of_nil|].
  rewrite Forall_forall in Hall.
  intros [->|Ha]%elem_of_cons [->|Hb]%elem_of_cons Hk; auto.
  - specialize (Hall b Hb). simpl in Hall. rewrite Hk in Hall. by apply lexlt_irrefl in Hall.
  - specialize (Hall a Ha). simpl in Hall. rewrite Hk in Hall. by apply lexlt_irrefl in Hall.
Qed.

Lemma keySorted_filter (P : T -> Prop) `{!forall t, Decision (P t)} ts :
  keySorted ts -> keySorted (base.filter P ts).
Proof using Type.
  clear -P. induction 1 as [|x ts Hs IH Hall]; [constructor|].
  rewrite filter_cons. case_decide; [|done]. constructor; [done|].
  rewrite Forall_forall in *. intros y [_ Hy]%list_elem_of_filter. auto.
Qed.

Lemma keySorted_eraseIf drop ts : keySorted ts -> keySorted (eraseIf drop ts).
Proof using Type. apply keySorted_filter. Qed.

Lemma keySorted_fmap (f : T -> T) ts :
  (forall t, key (f t) = key t) -> keySorted ts -> keySorted (f <$> ts).
Proof using Type.
  clear. intros Hf. induction 1 as [|x ts Hs IH Hall]; [constructor|]. csimpl.
  constructor; [done|]. apply Forall_fmap. eapply Forall_impl; [exact Hall|].
  intros y. simpl. by rewrite !Hf.
Qed.

Lemma lowerBound_spec ts tok before rest :
  keySorted ts -> lowerBound less ts tok = (before, rest) ->
  ts = before ++ rest /\
  (forall t, t ∈ before -> lexlt (key t) (key tok)) /\
  (forall t, t ∈ rest -> t = hd tok rest \/ lexlt (key tok) (key t)) /\
  (forall t, t ∈ rest -> ~ lexlt (key t) (key tok)).
Proof using less_key.
  clear -less_key. intros Hs. revert before rest.
  induction Hs as [|x ts Hs IH Hall]; simpl; intros before rest.
  { intros [= <- <-]. split_and!; try done; by intros ? ?%elem_of_nil. }
  destruct (less x tok) eqn:Hl.
  - destruct (lowerBound less ts tok) as [b r] eqn:Hlb. intros [= <- <-].
    destruct (IH b r eq_refl) as (-> & H1 & H2 & H3). split_and!; [done| |done|done].
    intros t [->|Ht]%elem_of_cons; [by apply less_key|auto].
  - intros [= <- <-]. rewrite Forall_forall in Hall.
    assert (~ lexlt (key x) (key tok)) as Hx by (rewrite <-less_key; by rewrite Hl).
    assert (forall t, t ∈ ts -> lexlt (key tok) (key t)) as Hrest.
    { intros t Ht. specialize (Hall t Ht). simpl in Hall.
      destruct (lexlt_total (key tok) (key x)) as [H|[H|H]]; [|by rewrite H|done].
      by eapply lexlt_trans. }
    split_and!; [done|by intros ? ?%elem_of_nil| |].
    + intros t [->|Ht]%elem_of_cons; [by left|right; auto].
    + intros t [->|Ht]%elem_of_cons; [done|]. intros Hc.
      eapply lexlt_irrefl, lexlt_trans; [exact Hc|auto].
Qed.

(** What an insertion does, for a [merge] that keeps the key. *)
Lemma upsert_spec merge ts tok :
  keySorted ts ->
  (forall it, it ∈ ts -> key it = key tok -> key (merge it tok).2 = key it) ->
  let r := (upsert less same merge ts tok).2 in
  let changed := (upsert less same merge ts tok).1 in
  keySorted r /\
  ((exists it, it ∈ ts /\ key it = key tok /\ changed = (merge it tok).1 /\
     (forall t, t ∈ r <-> t = (merge it tok).2 \/ (t ∈ ts /\ key t <> key tok)) /\
     ((merge it tok).2 = it -> r = ts))
   \/ ((forall t, t ∈ ts -> key t <> key tok) /\ changed = true /\
       (forall t, t ∈ r <-> t = tok \/ t ∈ ts))).
Proof using less_key same_key.
  intros Hs Hmerge. unfold upsert.
  destruct (lowerBound less ts tok) as [before rest] eqn:Hlb.
  destruct (lowerBound_spec _ _ _ _ Hs Hlb) as (-> & Hb & Hr1 & Hr2).
  destruct (keySorted_app_inv _ _ Hs) as (Hsb & Hsr & Hbr).
  assert (forall t, t ∈ before -> key t <> key tok) as Hbne.
  { intros t Ht Hk. specialize (Hb t Ht). rewrite Hk in Hb. by apply lexlt_irrefl in Hb. }
  destruct rest as [|it rest]; simpl in Hr1.
  { split; simpl.
    - apply keySorted_app; [done|repeat constructor|].
      intros a b Ha ->%list_elem_of_singleton. auto.
    - right. rewrite app_nil_r. split_and!; [done|done|].
      intros t. rewrite elem_of_app, list_elem_of_singleton. naive_solver. }
  assert (it ∈ it :: rest) as Hit by (apply elem_of_cons; by left).
  inversion Hsr as [|? ? Hsr' Hall]; subst. rewrite Forall_forall in Hall.
  destruct (same it tok) eqn:Hsame.
  - apply same_key in Hsame.
    assert (it ∈ before ++ it :: rest) as Hin by (apply elem_of_app; by right).
    specialize (Hmerge it Hin Hsame).
    destruct (merge it tok) as [ch it'] eqn:Hm. simpl in *.
    assert (forall t, t ∈ rest -> key t <> key tok) as Hrne.
    { intros t Ht Hk. specialize (Hall t Ht). simpl in Hall.
      rewrite Hk, Hsame in Hall. by apply lexlt_irrefl in Hall. }
    split.
    + apply keySorted_app; [done| |].
      * constructor; [done|]. apply Forall_forall. intros t Ht. rewrite Hmerge. auto.
      * intros a b Ha [->|Hb']%elem_of_cons; [rewrite Hmerge; auto|].
        apply Hbr; [done|by apply elem_of_cons; right].
    + left. exists it. rewrite Hm. simpl. split_and!; [done|done|done| |by intros ->].
      intros t. rewrite !elem_of_app, !elem_of_cons. naive_solver.
  - assert (key it <> key tok) as Hne by (rewrite <-same_key; by rewrite Hsame).
    assert (lexlt (key tok) (key it)) as Hlt.
    { destruct (lexlt_total (key tok) (key it)) as [H|[H|H]]; [done|congruence|].
      by apply Hr2 in H. }
    assert (forall t, t ∈ it :: rest -> lexlt (key tok) (key t)) as Hafter.
    { intros t [->|Ht]%elem_of_cons; [done|].
      eapply lexlt_trans; [exact Hlt|]. by apply Hall. }
    split; simpl.
    + apply keySorted_app; [done| |].
      * constructor; [done|]. by apply Forall_forall.
      * intros a b Ha [->|Hb']%elem_of_cons; auto.
    + right. split_and!; [|done|].
      * intros t [Ht|Ht]%elem_of_app; [auto|]. intros Hk. specialize (Hafter t Ht).
        rewrite Hk in Hafter. by apply lexlt_irrefl in Hafter.
      * intros t. rewrite !elem_of_app, !elem_of_cons. naive_solver.
Qed.
End Vector.

(** ** The semilattice of vectors

    [cov a b]: the element [a] stands for everything that [b] stands for.  A
    [join] gives the least element that covers both, and reports a change
    exactly when the old one did not cover the new. *)

Class JoinElement (T : Type) (key : T -> list Z) (cov : relation T)
    (join : T -> T -> bool * T) : Prop := {
  cov_preorder :: PreOrder cov;
  cov_key : forall a b, cov a b -> key a = key b;
  join_upper_l : forall a b, key a = key b -> cov (join a b).2 a;
  join_upper_r : forall a b, key a = key b -> cov (join a b).2 b;
  join_least : forall a b c, cov c a -> cov c b -> cov c (join a b).2;
  join_unchanged : forall a b, key a = key b -> (join a b).1 = false ->
    (join a b).2 = a;
  join_changed : forall a b, key a = key b -> cov a b -> (join a b).1 = false
}.

Section Semilattice.
Context {T : Type} (key : T -> list Z) (less same : T -> T -> bool).
Context (cov : relation T) (join : T -> T -> bool * T).
Context `{JE : !JoinElement T key cov join}.
Hypothesis less_key : forall a b, less a b = true <-> lexlt (key a) (key b).
Hypothesis same_key : forall a b, same a b = true <-> key a = key b.

(** Everything in [s] is covered in [t]. *)
Definition below (s t : list T) : Prop :=
  forall a, a ∈ s -> exists b, b ∈ t /\ cov b a.

#[global] Instance below_preorder : PreOrder below.
Proof using JE.
  split.
  - intros s a Ha. exists a. split; [done|reflexivity].
  - intros s t u H1 H2 a Ha. destruct (H1 a Ha) as (b & Hb & Hba).
    destruct (H2 b Hb) as (c & Hc & Hcb). exists c. split; [done|]. by transitivity b.
Qed.

Lemma cov_same_key a b : cov a b -> key a = key b.
Proof using JE. apply (cov_key (key := key) (join := join)). Qed.

Lemma join_key a b : key a = key b -> key (join a b).2 = key a.
Proof using JE. intros Hk. by apply cov_same_key, (join_upper_l (key := key)). Qed.

Lemma upsert_join ts tok :
  keySorted key ts ->
  let r := (upsert less same join ts tok).2 in
  keySorted key r /\ below ts r /\ (exists b, b ∈ r /\ cov b tok) /\
  (forall u, below ts u -> (exists b, b ∈ u /\ cov b tok) -> keySorted key u ->
     below r u) /\
  ((upsert less same join ts tok).1 = false -> r = ts) /\
  ((exists b, b ∈ ts /\ cov b tok) -> (upsert less same join ts tok).1 = false).
Proof using JE less_key same_key.
  intros Hs.
  destruct (upsert_spec key less same less_key same_key join ts tok Hs)
    as (Hr & Hcase); [intros; by apply join_key|].
  split; [exact Hr|].
  destruct Hcase as [(it & Hit & Hk & Hch & Hin & Hsame)|(Hne & Hch & Hin)].
  - assert (cov (join it tok).2 it) as U1 by (by apply join_upper_l).
    assert (cov (join it tok).2 tok) as U2 by (by apply join_upper_r).
    split_and!.
    + intros a Ha. destruct (decide (key a = key tok)) as [Ha'|Ha'].
      * assert (a = it) as -> by (eapply keySorted_inj; [exact Hs|..]; congruence).
        exists (join it tok).2. split; [|done]. apply Hin. by left.
      * exists a. split; [apply Hin; by right|reflexivity].
    + exists (join it tok).2. split; [apply Hin; by left|done].
    + intros u Hu (b & Hb & Hcb) Hsu a Ha. apply Hin in Ha as [->|[Ha _]]; [|auto].
      destruct (Hu it Hit) as (c & Hc & Hcc).
      assert (c = b) as ->.
      { eapply keySorted_inj; [exact Hsu|done|done|].
        rewrite (cov_same_key _ _ Hcc), (cov_same_key _ _ Hcb). done. }
      exists b. split; [done|]. by apply join_least.
    + rewrite Hch. intros Hf. by apply Hsame, join_unchanged.
    + rewrite Hch. intros (b & Hb & Hcb).
      assert (b = it) as ->.
      { eapply keySorted_inj; [exact Hs|done|done|].
        rewrite (cov_same_key _ _ Hcb). congruence. }
      by apply join_changed.
  - split_and!.
    + intros a Ha. exists a. split; [apply Hin; by right|reflexivity].
    + exists tok. split; [apply Hin; by left|reflexivity].
    + intros u Hu (b & Hb & Hcb) _ a Ha. apply Hin in Ha as [->|Ha]; [by exists b|auto].
    + by rewrite Hch.
    + intros (b & Hb & Hcb). exfalso. apply (Hne b Hb), (cov_same_key _ _ Hcb).
Qed.

Lemma upsertAll_cons merge ts tok toks :
  upsertAll less same merge ts (tok :: toks) =
  let '(c1, ts1) := upsert less same merge ts tok in
  let '(c2, ts2) := upsertAll less same merge ts1 toks in (c1 || c2, ts2).
Proof using Type.
  unfold upsertAll. simpl. destruct (upsert less same merge ts tok) as [c1 ts1].
  assert (forall l c ts', fold_left (fun '(changed, tokens) tok =>
    let '(changed', tokens) := upsert less same merge tokens tok in
    (changed || changed', tokens)) l (c, ts')
   = let '(c2, ts2) := fold_left (fun '(changed, tokens) tok =>
       let '(changed', tokens) := upsert less same merge tokens tok in
       (changed || changed', tokens)) l (false, ts') in (c || c2, ts2)) as Hl.
  { induction l as [|x l IH]; intros c ts'; simpl; [by rewrite orb_false_r|].
    destruct (upsert less same merge ts' x) as [c' ts''].
    rewrite IH, (IH c'). destruct (fold_left _ l (false, ts'')).
    by rewrite orb_assoc. }
  rewrite Hl. done.
Qed.

Lemma upsertAll_join toks : forall ts,
  keySorted key ts ->
  let r := (upsertAll less same join ts toks).2 in
  keySorted key r /\ below ts r /\ below toks r /\
  (forall u, keySorted key u -> below ts u -> below toks u -> below r u) /\
  ((upsertAll less same join ts toks).1 = false -> r = ts) /\
  (below toks ts -> (upsertAll less same join ts toks).1 = false).
Proof using JE less_key same_key.
  induction toks as [|tok toks IH]; intros ts Hs.
  { simpl. split_and!; [done|reflexivity|by intros ? ?%elem_of_nil|done|done|done]. }
  rewrite upsertAll_cons. pose proof (upsert_join ts tok Hs) as Hu.
  destruct (upsert less same join ts tok) as [c1 ts1]. simpl in Hu.
  destruct Hu as (Hs1 & Hb1 & (b & Hb & Hcb) & Hl1 & Hn1 & Hy1).
  specialize (IH ts1 Hs1). destruct (upsertAll less same join ts1 toks) as [c2 ts2].
  simpl in *. destruct IH as (Hs2 & Hb2 & Ht2 & Hl2 & Hn2 & Hy2). split_and!.
  - done.
  - by transitivity ts1.
  - intros a [->|Ha]%elem_of_cons; [|auto].
    destruct (Hb2 b Hb) as (c & Hc & Hcc). exists c. split; [done|]. by transitivity b.
  - intros u Hsu H1 H2. apply Hl2; [done| |].
    + apply Hl1; [done| |done]. destruct (H2 tok) as (c & Hc & Hcc); [by apply elem_of_cons; left|].
      by exists c.
    + intros a Ha. apply H2. by apply elem_of_cons; right.
  - intros [-> ->]%orb_false_iff. rewrite Hn2 by done. auto.
  - intros Hbelow.
    assert (c1 = false) as ->.
    { apply Hy1. destruct (Hbelow tok) as (c & Hc & Hcc); [by apply elem_of_cons; left|].
      by exists c. }
    simpl. apply Hy2. rewrite Hn1 by done.
    intros a Ha. apply Hbelow. by apply elem_of_cons; right.
Qed.
End Semilattice.

(** ** Tokens *)

Definition spanKey (s : RegSpan) : list Z :=
  [regClassValue (span_regClass s); span_begin s; span_end s].

Definition tokenKey (t : Token) : list Z :=
  counterValue (counter t) ::
  match subject t with
  | OfValue id => [0; opaquePointer id]
  | OfSource s => [1; 0] ++ spanKey s ++ [xSourceGroup (events t)]
  | OfExec => [1; 1; xSourceGroup (events t)]
  end.

Definition expertKey (t : ExpertToken) : list Z :=
  ExpertCounter.value (ex_counter t) ::
  match ex_source t with
  | None => [0; ExpertEvent.value (ex_event t)]
  | Some s => 1 :: spanKey s
  end.

Lemma counterValue_inj c d : counterValue c = counterValue d -> c = d.
Proof. by destruct c, d. Qed.
Lemma regClassValue_inj c d : regClassValue c = regClassValue d -> c = d.
Proof. by destruct c, d. Qed.
Lemma expertCounter_inj c d : ExpertCounter.value c = ExpertCounter.value d -> c = d.
Proof. by destruct c, d. Qed.
Lemma expertEvent_inj c d : ExpertEvent.value c = ExpertEvent.value d -> c = d.
Proof. by destruct c, d. Qed.

Lemma spanKey_inj a b : spanKey a = spanKey b -> a = b.
Proof.
  destruct a, b. unfold spanKey; simpl. intros [= H%regClassValue_inj -> ->].
  by subst.
Qed.

Lemma sortSpan_key a b tie k l :
  (tie = true <-> lexlt k l) ->
  sortSpan a b tie = true <-> lexlt (spanKey a ++ k) (spanKey b ++ l).
Proof.
  intros Htie. unfold sortSpan. simpl.
  case_bool_decide as Hc; simpl; [rewrite Hc|].
  2:{ rewrite Z.ltb_lt. split; [tauto|]. intros [?|[? _]]; [done|].
      by apply regClassValue_inj in H. }
  destruct (Z.eqb_spec (span_begin a) (span_begin b)) as [->|]; simpl;
    [|rewrite Z.ltb_lt; lia].
  destruct (Z.eqb_spec (span_end a) (span_end b)) as [->|]; simpl;
    [rewrite Htie|rewrite Z.ltb_lt]; [|lia]. intuition lia.
Qed.

Lemma sortKey_key a b : sortKey a b = true <-> lexlt (tokenKey a) (tokenKey b).
Proof.
  unfold sortKey, tokenKey. case_bool_decide as Hc; simpl.
  2:{ rewrite Z.ltb_lt. split; [tauto|]. intros [?|[H _]]; [done|].
      by apply counterValue_inj in H. }
  rewrite Hc. destruct (subject a), (subject b); simpl;
    rewrite ?Z.ltb_lt; try (intuition (try discriminate; lia)).
  rewrite (sortSpan_key _ _ _ [xSourceGroup (events a)] [xSourceGroup (events b)])
    by (rewrite Z.ltb_lt; simpl; lia).
  simpl. intuition lia.
Qed.

Lemma sameKey_key a b : sameKey a b = true <-> tokenKey a = tokenKey b.
Proof.
  unfold sameKey, tokenKey. rewrite andb_true_iff, bool_decide_eq_true.
  destruct (subject a), (subject b); simpl; rewrite ?andb_true_iff, ?Z.eqb_eq,
    ?bool_decide_eq_true; split; try (intros [-> H]; try destruct H; congruence);
    try (by intros [_ ?]);
    intros H; simplify_eq/=; repeat match goal with
    | Hc : counterValue _ = counterValue _ |- _ => apply counterValue_inj in Hc
    end; split_and?; try done.
  by apply spanKey_inj; unfold spanKey; congruence.
Qed.

Lemma sortExpertKey_key a b :
  sortExpertKey a b = true <-> lexlt (expertKey a) (expertKey b).
Proof.
  unfold sortExpertKey, expertKey. case_bool_decide as Hc; simpl.
  2:{ rewrite Z.ltb_lt. split; [tauto|]. intros [?|[H _]]; [done|].
      by apply expertCounter_inj in H. }
  rewrite Hc. destruct (ex_source a), (ex_source b); simpl;
    rewrite ?Z.ltb_lt; try (intuition (try discriminate; lia)).
  rewrite (sortSpan_key _ _ _ [] []) by (simpl; intuition discriminate).
  simpl. intuition lia.
Qed.

Lemma sameExpertKey_key a b :
  sameExpertKey a b = true <-> expertKey a = expertKey b.
Proof.
  unfold sameExpertKey, expertKey. rewrite andb_true_iff, bool_decide_eq_true.
  destruct (ex_source a) as [sa|], (ex_source b) as [sb|]; simpl; rewrite ?bool_decide_eq_true;
    split; try (intros [-> H]; congruence); try (by intros [_ ?]);
    intros H; simplify_eq/=;
    repeat match goal with
    | Hc : ExpertCounter.value _ = ExpertCounter.value _ |- _ => apply expertCounter_inj in Hc
    | Hc : ExpertEvent.value _ = ExpertEvent.value _ |- _ => apply expertEvent_inj in Hc
    end; split_and?; try done.
  by apply spanKey_inj; unfold spanKey; congruence.
Qed.

(** ** Coverage of tokens

    A token covers one of the same key with a later position, fewer events and
    fewer flags. *)

Definition bitsWithin (e e' : Z) : Prop := Z.lor e' e = e'.

Record covers (a b : Token) : Prop := {
  covers_key : tokenKey a = tokenKey b;
  covers_position : position a <= position b;
  covers_events : bitsWithin (events b) (events a);
  covers_outOfOrder : tok_outOfOrder b = true -> tok_outOfOrder a = true;
  covers_writesMemory : writesMemory b = true -> writesMemory a = true
}.

Record expertCovers (a b : ExpertToken) : Prop := {
  expertCovers_key : expertKey a = expertKey b;
  expertCovers_position : ex_position a <= ex_position b
}.

Lemma bitsWithin_refl e : bitsWithin e e.
Proof. apply Z.lor_diag. Qed.
Lemma bitsWithin_trans e f g : bitsWithin e f -> bitsWithin f g -> bitsWithin e g.
Proof. unfold bitsWithin. intros H1 H2. by rewrite <-H2, <-Z.lor_assoc, H1. Qed.
Lemma bitsWithin_lor_l e f : bitsWithin e (Z.lor e f).
Proof. unfold bitsWithin. rewrite (Z.lor_comm _ e), Z.lor_assoc, Z.lor_diag. done. Qed.
Lemma bitsWithin_lor_r e f : bitsWithin e (Z.lor f e).
Proof. unfold bitsWithin. by rewrite <-Z.lor_assoc, Z.lor_diag. Qed.
Lemma bitsWithin_lor e f g : bitsWithin e g -> bitsWithin f g -> bitsWithin (Z.lor e f) g.
Proof. unfold bitsWithin. intros H1 H2. by rewrite Z.lor_assoc, H1. Qed.
Lemma bitsWithin_testbit e f :
  bitsWithin e f <-> (forall i, Z.testbit e i = true -> Z.testbit f i = true).
Proof.
  unfold bitsWithin. split.
  - intros <- i Hi. rewrite Z.lor_spec, Hi. apply orb_true_r.
  - intros H. apply Z.bits_inj'. intros i _. rewrite Z.lor_spec.
    specialize (H i). destruct (Z.testbit e i); [by rewrite H|by rewrite orb_false_r].
Qed.
Create HintDb tickets.
#[export] Hint Resolve bitsWithin_refl bitsWithin_lor_l bitsWithin_lor_r
  bitsWithin_lor : tickets.

Lemma hasBits_lor e f m : hasBits (Z.lor e f) m = hasBits e m || hasBits f m.
Proof.
  unfold hasBits. rewrite Z.land_lor_distr_l.
  destruct (Z.eqb_spec (Z.land e m) 0) as [->|He]; [by rewrite Z.lor_0_l|].
  destruct (Z.eqb_spec (Z.lor (Z.land e m) (Z.land f m)) 0) as [H|]; [|done].
  by apply Z.lor_eq_0_iff in H as [? _].
Qed.

Lemma hasBits_within e f m : bitsWithin e f -> hasBits e m = true -> hasBits f m = true.
Proof. intros <- He. rewrite hasBits_lor, He. apply orb_true_r. Qed.

Lemma xSourceGroup_eq e f :
  xSourceGroup e = xSourceGroup f <->
  hasBits e vmemSourceEventMask = hasBits f vmemSourceEventMask /\
  hasBits e (eventMask WaitcntEvent.Smem) = hasBits f (eventMask WaitcntEvent.Smem).
Proof.
  unfold xSourceGroup.
  destruct (hasBits e vmemSourceEventMask), (hasBits f vmemSourceEventMask),
    (hasBits e (eventMask WaitcntEvent.Smem)), (hasBits f (eventMask WaitcntEvent.Smem));
    simpl; split; (done || intros [??]; done).
Qed.

Lemma xSourceGroup_lor e f :
  xSourceGroup e = xSourceGroup f -> xSourceGroup (Z.lor e f) = xSourceGroup e.
Proof.
  rewrite !xSourceGroup_eq, !hasBits_lor. intros [-> ->]. by rewrite !orb_diag.
Qed.

(** The key after a change of the events that keeps the source group. *)
Lemma tokenKey_change a t :
  subject t = subject a -> counter t = counter a ->
  xSourceGroup (events t) = xSourceGroup (events a) -> tokenKey t = tokenKey a.
Proof. unfold tokenKey. by intros -> -> ->. Qed.

Lemma tokenKey_group a b :
  tokenKey a = tokenKey b -> isSource a = true ->
  xSourceGroup (events a) = xSourceGroup (events b).
Proof.
  unfold tokenKey, isSource. destruct (subject a), (subject b); intros H; try done;
    unfold spanKey in H; simpl in H; congruence.
Qed.

Lemma tokenKey_value_events t e :
  isSource t = false -> tokenKey (set_events e t) = tokenKey t.
Proof. unfold tokenKey, isSource. simpl. by destruct (subject t). Qed.

Lemma tokenKey_counter a b : tokenKey a = tokenKey b -> counter a = counter b.
Proof. unfold tokenKey. intros [= H _]. by apply counterValue_inj. Qed.

Lemma minToken_key a b : tokenKey a = tokenKey b -> tokenKey (lat.minToken a b).2 = tokenKey a.
Proof.
  intros Hk. destruct (isSource a) eqn:Hs.
  - apply tokenKey_change; [done|done|]. simpl.
    by apply xSourceGroup_lor, tokenKey_group.
  - unfold tokenKey, lat.minToken; simpl. unfold isSource in Hs. by destruct (subject a).
Qed.

#[export] Instance token_join : JoinElement Token tokenKey covers lat.minToken.
Proof.
  split.
  - split; [split; auto with tickets; lia|].
    intros a b c [] []. split; [congruence|lia|by eapply bitsWithin_trans|auto|auto].
  - by intros a b [].
  - intros a b Hk. split; simpl; [by apply minToken_key|case_match; lia|auto with tickets|..];
      intros ->; done.
  - intros a b Hk. split; [by rewrite minToken_key|simpl..]; [case_match; lia|auto with tickets|..];
      intros ->; apply orb_true_r.
  - intros a b c [] []. split; [rewrite minToken_key; congruence|simpl..].
    + case_match; lia.
    + auto with tickets.
    + intros [?|?]%orb_true_iff; auto.
    + intros [?|?]%orb_true_iff; auto.
  - intros a b Hk Hch. unfold lat.minToken in *; simpl in *.
    rewrite !orb_false_iff in Hch. destruct Hch as [[[Hp He] Ho] Hw].
    rewrite Hp. apply negb_false_iff, Z.eqb_eq in He. rewrite He.
    destruct a as [s e p c [] []]; simpl in *; f_equal;
      destruct (tok_outOfOrder b), (writesMemory b); done.
  - intros a b Hk [_ Hp He Ho Hw]. unfold bitsWithin in He. simpl. rewrite He, Z.eqb_refl. simpl.
    destruct (Z.ltb_spec (position b) (position a)); [lia|].
    destruct (tok_outOfOrder b); [rewrite Ho by done|];
      (destruct (writesMemory b); [rewrite Hw by done|]); done.
Qed.

#[export] Instance expertToken_join :
  JoinElement ExpertToken expertKey expertCovers expert.minToken.
Proof.
  assert (forall a b, expertKey (expert.minToken a b).2 = expertKey a) as Hkey.
  { intros a b. unfold expert.minToken. by case_match. }
  split.
  - split; [by split|]. intros a b c [] []. split; [congruence|lia].
  - by intros a b [].
  - intros a b Hk. split; [apply Hkey|]. unfold expert.minToken.
    destruct (Z.leb_spec (ex_position a) (ex_position b)); simpl; lia.
  - intros a b Hk. split; [by rewrite Hkey|]. unfold expert.minToken.
    destruct (Z.leb_spec (ex_position a) (ex_position b)); simpl; lia.
  - intros a b c [] []. split; [rewrite Hkey; congruence|]. unfold expert.minToken.
    case_match; simpl; lia.
  - intros a b Hk. unfold expert.minToken. by case_match.
  - intros a b Hk []. unfold expert.minToken.
    by destruct (Z.leb_spec (ex_position a) (ex_position b)); [|lia].
Qed.

(** ** The join of wait states *)

Definition tokensSorted : list Token -> Prop := keySorted tokenKey.
Definition expertSorted : list ExpertToken -> Prop := keySorted expertKey.

Record stateSorted (st : WaitState) : Prop := {
  sorted_tokens : tokensSorted (tokens st);
  sorted_expertTokens : expertSorted (expertTokens st)
}.

Record stateBelow (s t : WaitState) : Prop := {
  below_tokens : below covers (tokens s) (tokens t);
  below_expertTokens : below expertCovers (expertTokens s) (expertTokens t)
}.

#[export] Instance stateBelow_preorder : PreOrder stateBelow.
Proof.
  split; [by split|]. intros s t u [] []. split; by etransitivity.
Qed.

Lemma emptyWaitState_sorted : stateSorted emptyWaitState.
Proof. split; constructor. Qed.

Lemma joinWith_unfold s t :
  joinWith s t =
  ((upsertAll sortKey sameKey lat.minToken (tokens s) (tokens t)).1
   || (upsertAll sortExpertKey sameExpertKey expert.minToken (expertTokens s)
         (expertTokens t)).1,
   mkWaitState
     (upsertAll sortKey sameKey lat.minToken (tokens s) (tokens t)).2
     (upsertAll sortExpertKey sameExpertKey expert.minToken (expertTokens s)
        (expertTokens t)).2).
Proof. unfold joinWith. by repeat case_match. Qed.

Definition tokens_join toks ts Hs :=
  upsertAll_join tokenKey sortKey sameKey covers lat.minToken sortKey_key
    sameKey_key toks ts Hs.
Definition expertTokens_join toks ts Hs :=
  upsertAll_join expertKey sortExpertKey sameExpertKey expertCovers
    expert.minToken sortExpertKey_key sameExpertKey_key toks ts Hs.

(** C27: [joinWith] is the least upper bound of the wait lattice: the joined
    state stays in key order, stands for everything that either state stands
    for, and every state that stands for both stands for it; and it reports a
    change exactly when the state did not stand for the incoming one already,
    in which case alone the state differs. *)
Theorem joinWith_least_upper_bound s t
    (Hs : stateSorted s) (Ht : stateSorted t) :
  let r := (joinWith s t).2 in
  stateSorted r /\ stateBelow s r /\ stateBelow t r /\
  (forall u, stateSorted u -> stateBelow s u -> stateBelow t u -> stateBelow r u) /\
  ((joinWith s t).1 = false <-> stateBelow t s) /\
  ((joinWith s t).1 = false -> r = s).
Proof.
  rewrite joinWith_unfold. simpl. destruct Hs as [S1 S2], Ht as [T1 T2].
  destruct (tokens_join (tokens t) (tokens s) S1) as (A1 & A2 & A3 & A4 & A5 & A6).
  destruct (expertTokens_join (expertTokens t) (expertTokens s) S2)
    as (B1 & B2 & B3 & B4 & B5 & B6).
  split_and!; [by split|by split|by split| | |].
  - intros u [] [] []. split; simpl; auto.
  - rewrite orb_false_iff. split.
    + intros [H1 H2]. specialize (A5 H1). specialize (B5 H2).
      split; [by rewrite <-A5|by rewrite <-B5].
    + intros []. auto.
  - intros [H1 H2]%orb_false_iff. rewrite A5, B5 by done. by destruct s.
Qed.

(** Tokens of an example: a load of [v1] two issues ago and an LDS read. *)
Definition exampleValue (n : N) : Value := mkValue n MemTokenType.
Definition exampleToken (n : N) (ev : WaitcntEvent.t) (p : Z)
    (c : WaitcntCounter.t) : Token :=
  mkToken (OfValue (Some (exampleValue n))) (eventMask ev) p c false false.
Definition exampleLeft : WaitState :=
  mkWaitState [exampleToken 1 WaitcntEvent.Vmem 2 WaitcntCounter.Vmem;
               exampleToken 2 WaitcntEvent.Lds 0 WaitcntCounter.Lgkm] [].
Definition exampleRight : WaitState :=
  mkWaitState [exampleToken 1 WaitcntEvent.Flat 1 WaitcntCounter.Vmem] [].

Lemma exampleLeft_sorted : stateSorted exampleLeft.
Proof. split; repeat constructor; simpl; lia. Qed.
Lemma exampleRight_sorted : stateSorted exampleRight.
Proof. split; repeat constructor. Qed.

Lemma joinWith_least_upper_bound_witness :
  (joinWith exampleLeft exampleRight).1 = true /\
  stateBelow exampleRight (joinWith exampleLeft exampleRight).2.
Proof.
  split; [by vm_compute|].
  apply (joinWith_least_upper_bound exampleLeft exampleRight exampleLeft_sorted
           exampleRight_sorted).
Defined.

(** ** Termination of the analysis

    The height of a state grows with every change and is bounded, so that a
    lattice element can only change a bounded number of times. *)

Definition tokenHeight (t : Token) : Z :=
  1 + (UINT_MAX - position t) + events t + Z.b2z (tok_outOfOrder t)
  + Z.b2z (writesMemory t).
Definition expertHeight (t : ExpertToken) : Z := 1 + (UINT_MAX - ex_position t).

Definition height (st : WaitState) : Z :=
  sum_list_Z (tokenHeight <$> tokens st)
  + sum_list_Z (expertHeight <$> expertTokens st).

(** Positions are [unsigned], events a mask of the eleven events. *)
Definition tokenBounded (t : Token) : Prop :=
  0 <= position t <= UINT_MAX /\ 0 <= events t < 2048.
Definition expertBounded (t : ExpertToken) : Prop :=
  0 <= ex_position t <= UINT_MAX.
Record stateBounded (st : WaitState) : Prop := {
  bounded_tokens : Forall tokenBounded (tokens st);
  bounded_expertTokens : Forall expertBounded (expertTokens st)
}.

Lemma sum_fmap_cons {T} (h : T -> Z) t ts :
  sum_list_Z (h <$> t :: ts) = h t + sum_list_Z (h <$> ts).
Proof. done. Qed.

Section Height.
Context {T : Type} (less same : T -> T -> bool) (merge : T -> T -> bool * T).
Context (h : T -> Z) (ok : T -> Prop).
Hypothesis h_pos : forall t, ok t -> 0 < h t.
Hypothesis merge_ok : forall it tok, ok it -> ok tok -> ok (merge it tok).2.
Hypothesis merge_height : forall it tok, ok it -> ok tok ->
  h it + Z.b2z (merge it tok).1 <= h (merge it tok).2.

Lemma lowerBound_app ts tok before rest :
  lowerBound less ts tok = (before, rest) -> ts = before ++ rest.
Proof using Type.
  clear. revert before rest. induction ts as [|t ts IH]; simpl; intros before rest.
  - by intros [= <- <-].
  - destruct (less t tok); [|by intros [= <- <-]].
    destruct (lowerBound less ts tok) as [b r]. intros [= <- <-].
    by rewrite (IH b r).
Qed.

Lemma upsert_shape ts tok :
  (exists before it rest, ts = before ++ it :: rest /\ same it tok = true /\
     upsert less same merge ts tok
     = ((merge it tok).1, before ++ (merge it tok).2 :: rest))
  \/ (exists before rest, ts = before ++ rest /\
        upsert less same merge ts tok = (true, before ++ tok :: rest)).
Proof using Type.
  clear. unfold upsert. destruct (lowerBound less ts tok) as [before rest] eqn:Hl.
  apply lowerBound_app in Hl. subst ts. destruct rest as [|it rest].
  - right. by exists before, [].
  - destruct (same it tok) eqn:Hs.
    + left. exists before, it, rest. split_and!; [done|done|]. by destruct (merge it tok).
    + right. by exists before, (it :: rest).
Qed.

Lemma upsert_height ts tok :
  Forall ok ts -> ok tok ->
  Forall ok (upsert less same merge ts tok).2 /\
  sum_list_Z (h <$> ts) + Z.b2z (upsert less same merge ts tok).1
    <= sum_list_Z (h <$> (upsert less same merge ts tok).2).
Proof using h_pos merge_ok merge_height.
  intros Hts Htok.
  destruct (upsert_shape ts tok) as [(b & it & r & -> & Hsame & ->)|(b & r & -> & ->)]; simpl.
  - apply Forall_app in Hts as [Hb Hr]. apply Forall_cons in Hr as [Hit Hr].
    split; [rewrite Forall_app, Forall_cons; auto|].
    rewrite !fmap_app, !sum_list_Z_app, !sum_fmap_cons. specialize (merge_height it tok Hit Htok). lia.
  - apply Forall_app in Hts as [Hb Hr].
    split; [rewrite Forall_app, Forall_cons; auto|].
    rewrite !fmap_app, !sum_list_Z_app, !sum_fmap_cons. specialize (h_pos tok Htok). lia.
Qed.

Lemma upsertAll_height toks : forall ts,
  Forall ok ts -> Forall ok toks ->
  Forall ok (upsertAll less same merge ts toks).2 /\
  sum_list_Z (h <$> ts) + Z.b2z (upsertAll less same merge ts toks).1
    <= sum_list_Z (h <$> (upsertAll less same merge ts toks).2).
Proof using h_pos merge_ok merge_height.
  induction toks as [|tok toks IH]; intros ts Hts Htoks; [simpl; split; [done|lia]|].
  apply Forall_cons in Htoks as [Htok Htoks]. rewrite upsertAll_cons.
  destruct (upsert_height ts tok Hts Htok) as [H1 H2].
  destruct (upsert less same merge ts tok) as [c1 ts1]. simpl in *.
  destruct (IH ts1 H1 Htoks) as [H3 H4].
  destruct (upsertAll less same merge ts1 toks) as [c2 ts2]. simpl in *.
  split; [done|]. destruct c1, c2; simpl in *; lia.
Qed.

Lemma upsertAll_keys {K} (key : T -> K) (keys : list K) toks : forall ts,
  (forall it tok, same it tok = true -> key it ∈ keys ->
     key (merge it tok).2 ∈ keys) ->
  Forall (fun t => key t ∈ keys) ts -> Forall (fun t => key t ∈ keys) toks ->
  Forall (fun t => key t ∈ keys) (upsertAll less same merge ts toks).2.
Proof using Type.
  clear. induction toks as [|tok toks IH]; intros ts Hm Hts Htoks; [done|].
  apply Forall_cons in Htoks as [Htok Htoks]. rewrite upsertAll_cons.
  assert (Forall (fun t => key t ∈ keys) (upsert less same merge ts tok).2) as H1.
  { destruct (upsert_shape ts tok) as [(b & it & r & -> & Hsame & ->)|(b & r & -> & ->)]; simpl;
      rewrite Forall_app in Hts; destruct Hts as [Hb Hr];
      [apply Forall_cons in Hr as [? Hr]|];
      apply Forall_app; split; try done; apply Forall_cons; split; auto. }
  destruct (upsert less same merge ts tok) as [c1 ts1]. simpl in *.
  specialize (IH ts1 Hm H1 Htoks).
  by destruct (upsertAll less same merge ts1 toks).
Qed.
End Height.

Lemma keySorted_NoDup {T} (key : T -> list Z) ts : keySorted key ts -> NoDup (key <$> ts).
Proof.
  induction 1 as [|t ts Hs IH Hall]; csimpl; constructor; [|done].
  intros (u & Hk & Hu)%list_elem_of_fmap. rewrite Forall_forall in Hall.
  specialize (Hall u Hu). simpl in Hall. rewrite Hk in Hall. by apply lexlt_irrefl in Hall.
Qed.

(** A sorted vector over finitely many keys has bounded height. *)
Lemma sum_bounded {T} (key : T -> list Z) (h : T -> Z) (bound : Z) keys ts :
  keySorted key ts -> Forall (fun t => key t ∈ keys) ts ->
  Forall (fun t => h t <= bound) ts -> 0 <= bound ->
  sum_list_Z (h <$> ts) <= Z.of_nat (length keys) * bound.
Proof.
  intros Hs Hk Hh Hb.
  assert (length ts <= length keys)%nat as Hlen.
  { rewrite <-(length_fmap key). apply submseteq_length, NoDup_submseteq;
      [by apply keySorted_NoDup|].
    intros k (t & -> & Ht)%list_elem_of_fmap. rewrite Forall_forall in Hk. auto. }
  assert (sum_list_Z (h <$> ts) <= Z.of_nat (length ts) * bound) as Hsum.
  { clear -Hh. induction Hh as [|t ts Ht Hh IH]; [done|].
    rewrite sum_fmap_cons. cbn [length]. rewrite Nat2Z.inj_succ, Z.mul_succ_l. lia. }
  nia.
Qed.

Lemma lor_add e f : Z.lor e f = e + Z.ldiff f e.
Proof.
  assert (Z.land e (Z.ldiff f e) = 0) as Hd.
  { apply Z.bits_inj'. intros i _. rewrite Z.land_spec, Z.ldiff_spec, Z.bits_0.
    by destruct (Z.testbit e i), (Z.testbit f i). }
  rewrite Z.add_nocarry_lxor, Z.lxor_lor by done.
  apply Z.bits_inj'. intros i _. rewrite !Z.lor_spec, Z.ldiff_spec.
  by destruct (Z.testbit e i), (Z.testbit f i).
Qed.

Lemma lor_ge e f : 0 <= f -> e <= Z.lor e f.
Proof. intros. rewrite lor_add. assert (0 <= Z.ldiff f e) by (apply Z.ldiff_nonneg; auto). lia. Qed.

Lemma lor_lt e f n : 0 <= n -> 0 <= e < 2 ^ n -> 0 <= f < 2 ^ n -> 0 <= Z.lor e f < 2 ^ n.
Proof.
  intros Hn He Hf. assert (0 <= Z.lor e f) by (apply Z.lor_nonneg; lia). split; [done|].
  destruct (decide (Z.lor e f = 0)) as [->|Hne]; [by apply Z.pow_pos_nonneg|].
  apply Z.log2_lt_pow2; [lia|]. rewrite Z.log2_lor by lia.
  apply Z.max_lub_lt.
  - destruct (decide (e = 0)) as [->|]; [|apply Z.log2_lt_pow2; lia].
    simpl. destruct (decide (n = 0)) as [->|]; [|lia]. exfalso. apply Hne.
    by replace f with 0 by lia.
  - destruct (decide (f = 0)) as [->|]; [|apply Z.log2_lt_pow2; lia].
    simpl. destruct (decide (n = 0)) as [->|]; [|lia]. exfalso. apply Hne.
    by replace e with 0 by lia.
Qed.

Lemma minToken_bounded a b :
  tokenBounded a -> tokenBounded b -> tokenBounded (lat.minToken a b).2.
Proof.
  intros [Pa Ea] [Pb Eb]. split; simpl; [case_match; lia|].
  apply (lor_lt _ _ 11); [lia|done|done].
Qed.

Lemma minToken_height a b :
  tokenBounded a -> tokenBounded b ->
  tokenHeight a + Z.b2z (lat.minToken a b).1 <= tokenHeight (lat.minToken a b).2.
Proof.
  intros [Pa Ea] [Pb Eb]. unfold tokenHeight; simpl.
  pose proof (lor_ge (events a) (events b) ltac:(lia)).
  destruct (Z.ltb_spec (position b) (position a)); simpl;
    (destruct (Z.eqb_spec (Z.lor (events a) (events b)) (events a)) as [He|He]; simpl);
    destruct (tok_outOfOrder a), (tok_outOfOrder b), (writesMemory a), (writesMemory b);
    simpl; lia.
Qed.

Lemma expertMinToken_height a b :
  expertHeight a + Z.b2z (expert.minToken a b).1 <= expertHeight (expert.minToken a b).2.
Proof.
  unfold expertHeight, expert.minToken.
  destruct (Z.leb_spec (ex_position a) (ex_position b)); simpl; lia.
Qed.

(** How often a sequence of joins into one lattice element changes it. *)
Fixpoint joinChanges (s : WaitState) (incoming : list WaitState) : Z :=
  match incoming with
  | [] => 0
  | t :: incoming' =>
      let '(changed, s') := joinWith s t in
      Z.b2z changed + joinChanges s' incoming'
  end.

(** The tokens are about the given keys only. *)
Record stateWithin (keys expertKeys : list (list Z)) (st : WaitState) : Prop := {
  within_tokens : Forall (fun t => tokenKey t ∈ keys) (tokens st);
  within_expertTokens : Forall (fun t => expertKey t ∈ expertKeys) (expertTokens st)
}.

Lemma joinWith_height keys expertKeys s t :
  stateSorted s -> stateBounded s -> stateWithin keys expertKeys s ->
  stateBounded t -> stateWithin keys expertKeys t ->
  let r := (joinWith s t).2 in
  stateSorted r /\ stateBounded r /\ stateWithin keys expertKeys r /\
  height s + Z.b2z (joinWith s t).1 <= height r.
Proof.
  rewrite joinWith_unfold. simpl. intros [S1 S2] [B1 B2] [W1 W2] [C1 C2] [X1 X2].
  destruct (tokens_join (tokens t) (tokens s) S1) as (A1 & _).
  destruct (expertTokens_join (expertTokens t) (expertTokens s) S2) as (A2 & _).
  destruct (upsertAll_height sortKey sameKey lat.minToken tokenHeight tokenBounded
    ltac:(intros ? [? ?]; unfold tokenHeight; destruct tok_outOfOrder, writesMemory; simpl; lia)
    minToken_bounded minToken_height (tokens t) (tokens s) B1 C1) as [D1 E1].
  destruct (upsertAll_height sortExpertKey sameExpertKey expert.minToken expertHeight
    expertBounded ltac:(intros ? [? ?]; unfold expertHeight; lia)
    ltac:(intros ?? [??] [??]; unfold expert.minToken; case_match; split; simpl; lia)
    (fun a b _ _ => expertMinToken_height a b) (expertTokens t) (expertTokens s) B2 C2)
    as [D2 E2].
  split_and!; [by split|by split|split|].
  - apply upsertAll_keys; [|done|done]. intros a b Hsame Ha.
    rewrite minToken_key; [done|]. by apply sameKey_key.
  - apply upsertAll_keys; [|done|done]. intros a b _ Ha.
    assert (expertKey (expert.minToken a b).2 = expertKey a) as ->; [|done].
    unfold expert.minToken. by case_match.
  - unfold height. simpl. destruct (upsertAll sortKey _ _ _ _).1,
      (upsertAll sortExpertKey _ _ _ _).1; simpl in *; lia.
Qed.

Definition heightBound (keys expertKeys : list (list Z)) : Z :=
  Z.of_nat (length keys) * (UINT_MAX + 2050)
  + Z.of_nat (length expertKeys) * (UINT_MAX + 1).

Lemma height_bounded keys expertKeys s :
  stateSorted s -> stateBounded s -> stateWithin keys expertKeys s ->
  0 <= height s <= heightBound keys expertKeys.
Proof.
  intros [S1 S2] [B1 B2] [W1 W2]. unfold height, heightBound.
  assert (forall t, tokenBounded t -> 0 <= tokenHeight t <= UINT_MAX + 2050) as Ht.
  { intros t [Hp He]. unfold tokenHeight.
    destruct tok_outOfOrder, writesMemory; simpl; lia. }
  assert (forall t, expertBounded t -> 0 <= expertHeight t <= UINT_MAX + 1) as He.
  { intros t [Hp Hp']. unfold expertHeight. lia. }
  split.
  - apply Z.add_nonneg_nonneg; apply sum_list_Z_nonneg, Forall_fmap;
      [eapply Forall_impl; [exact B1|]|eapply Forall_impl; [exact B2|]]; intros t Hb;
      [by apply Ht|by apply He].
  - apply Z.add_le_mono;
      [eapply sum_bounded; [exact S1|exact W1|eapply Forall_impl; [exact B1|]|]
      |eapply sum_bounded; [exact S2|exact W2|eapply Forall_impl; [exact B2|]|]];
      try (unfold UINT_MAX; lia); intros t Hb; [by apply Ht|by apply He].
Qed.

(** C29: the analysis terminates: over the values and registers of a function
    the state of a program point changes a bounded number of times, whatever
    states are joined into it and in whatever order. *)
Theorem joinWith_changes_bounded keys expertKeys s incoming
    (Hs : stateSorted s) (Hb : stateBounded s) (Hw : stateWithin keys expertKeys s)
    (Hin : Forall (fun t => stateBounded t /\ stateWithin keys expertKeys t) incoming) :
  joinChanges s incoming <= heightBound keys expertKeys.
Proof.
  enough (forall s, stateSorted s -> stateBounded s -> stateWithin keys expertKeys s ->
            height s + joinChanges s incoming <= heightBound keys expertKeys) as H.
  { specialize (H s Hs Hb Hw). pose proof (height_bounded _ _ s Hs Hb Hw). lia. }
  clear s Hs Hb Hw. induction Hin as [|t incoming [Ht1 Ht2] _ IH]; intros s Hs Hb Hw.
  - simpl. pose proof (height_bounded _ _ s Hs Hb Hw). lia.
  - destruct (joinWith_height _ _ s t Hs Hb Hw Ht1 Ht2) as (H1 & H2 & H3 & H4).
    cbn [joinChanges]. destruct (joinWith s t) as [c s']. simpl in *.
    specialize (IH s' H1 H2 H3). lia.
Qed.

Lemma joinWith_changes_bounded_witness :
  joinChanges exampleLeft [exampleRight; exampleRight] = 1 /\
  joinChanges exampleLeft [exampleRight; exampleRight]
    <= heightBound (tokenKey <$> tokens exampleLeft) [].
Proof.
  split; [by vm_compute|].
  apply (joinWith_changes_bounded (tokenKey <$> tokens exampleLeft) []).
  - apply exampleLeft_sorted.
  - split; repeat constructor; simpl; unfold UINT_MAX; lia.
  - split; repeat constructor.
  - repeat constructor; simpl; unfold UINT_MAX; lia.
Defined.
