(* ===== verification/TicketInv.v ===== *)
(** * The wait state stays well formed

    Tokens stay in key order, each key once, and on the counters that the
    target has, through every transfer and on every edge; the counts that are
    emitted can be waited for by the hardware, and an emitted wait, read back,
    drains what it was emitted for. *)

From stdpp Require Import base tactics list strings sorting sets.
From S2P Require Import Prelude CostEnums ArchData MachineIR LatencyTable.
From S2P Require Import OpClassifier TicketIR TicketState TicketWaits TicketLattice.

Definition familyCounters (target : WaitTarget) : list WaitcntCounter.t :=
  match family target with
  | WaitCounterFamily.Legacy =>
      [WaitcntCounter.Vmem; WaitcntCounter.Lgkm; WaitcntCounter.Vscnt]
  | WaitCounterFamily.Split =>
      [WaitcntCounter.Load; WaitcntCounter.Store; WaitcntCounter.Ds;
       WaitcntCounter.Km; WaitcntCounter.X; WaitcntCounter.Async;
       WaitcntCounter.Tensor]
  end.

Record expertWf (ts : list ExpertToken) : Prop := {
  wf_expertSorted : expertSorted ts;
  wf_expertBounded : Forall expertBounded ts
}.

(** The values of the program under analysis; [fun _ => True] where only the
    other parts matter. *)
Section Wf.
Context (inProgram : Value -> Prop) (target : WaitTarget).

(** A token is on a counter of the target, its position and events are in
    range, and the value that it is about is one of the program. *)
Record tokenOk (t : Token) : Prop := {
  ok_family : counter t ∈ familyCounters target;
  ok_bounded : tokenBounded t;
  ok_value : forall v, subject t = OfValue (Some v) -> inProgram v
}.

Record tokensWf (ts : list Token) : Prop := {
  wf_sorted : tokensSorted ts;
  wf_ok : Forall tokenOk ts
}.

Record stateWf (st : WaitState) : Prop := {
  wf_tokens : tokensWf (tokens st);
  wf_expert : expertWf (expertTokens st)
}.

Lemma stateWf_sorted st : stateWf st -> stateSorted st.
Proof. intros [[] []]. by split. Qed.

Lemma stateWf_bounded st : stateWf st -> stateBounded st.
Proof.
  intros [[_ Hok] []]. split; [|done]. eapply Forall_impl; [exact Hok|].
  intros t. apply ok_bounded.
Qed.

Lemma emptyWaitState_wf : stateWf emptyWaitState.
Proof. by repeat constructor. Qed.

Lemma tokensWf_elem ts t : tokensWf ts -> t ∈ ts -> tokenOk t.
Proof. intros [_ Hok] Ht. rewrite Forall_forall in Hok. auto. Qed.

(** ** The primitives *)

Lemma minToken_ok it tok :
  tokenOk it -> tokenOk tok -> tokenOk (lat.minToken it tok).2.
Proof.
  intros [F1 B1 V1] [F2 B2 V2]. split; [done| |done]. by apply minToken_bounded.
Qed.

Lemma replaceToken_ok it tok :
  tokenOk it -> tokenOk tok -> tokenOk (lat.replaceToken it tok).2.
Proof. intros H1 H2. unfold lat.replaceToken. by case_match. Qed.

Lemma replaceToken_key it tok :
  tokenKey it = tokenKey tok -> tokenKey (lat.replaceToken it tok).2 = tokenKey it.
Proof. unfold lat.replaceToken. by case_match. Qed.

Lemma upsert_wf merge ts tok :
  (forall it, tokenKey it = tokenKey tok ->
     tokenKey (merge it tok).2 = tokenKey it) ->
  (forall it, tokenOk it -> tokenOk (merge it tok).2) ->
  tokensWf ts -> tokenOk tok -> tokensWf (upsert sortKey sameKey merge ts tok).2.
Proof.
  intros Hm Hok [Hs Hf] Ht.
  destruct (upsert_spec tokenKey sortKey sameKey sortKey_key sameKey_key merge ts tok Hs)
    as [Hr Hcase]; [auto|]. split; [exact Hr|].
  apply Forall_forall. intros t Hin. rewrite Forall_forall in Hf.
  destruct Hcase as [(it & Hit & Hk & _ & Hmem & _)|(_ & _ & Hmem)].
  - apply Hmem in Hin as [->|[Hin _]]; auto.
  - apply Hmem in Hin as [->|Hin]; auto.
Qed.

Lemma upsertAll_wf merge toks : forall ts,
  (forall it tok, tokenKey it = tokenKey tok ->
     tokenKey (merge it tok).2 = tokenKey it) ->
  (forall it tok, tokenOk it -> tokenOk tok -> tokenOk (merge it tok).2) ->
  tokensWf ts -> Forall tokenOk toks ->
  tokensWf (upsertAll sortKey sameKey merge ts toks).2.
Proof.
  induction toks as [|tok toks IH]; intros ts Hm Hok Hts Htoks; [done|].
  apply Forall_cons in Htoks as [Ht Htoks]. rewrite upsertAll_cons.
  pose proof (upsert_wf merge ts tok ltac:(auto) ltac:(auto) Hts Ht) as H1.
  destruct (upsert sortKey sameKey merge ts tok) as [c1 ts1].
  specialize (IH ts1 Hm Hok H1 Htoks).
  by destruct (upsertAll sortKey sameKey merge ts1 toks).
Qed.

Lemma filter_wf (P : Token -> Prop) `{!forall t, Decision (P t)} ts :
  tokensWf ts -> tokensWf (base.filter P ts).
Proof.
  intros [Hs Hf]. split; [by apply keySorted_filter|].
  apply Forall_forall. intros t [_ Ht]%list_elem_of_filter.
  rewrite Forall_forall in Hf. auto.
Qed.

Lemma eraseIf_wf drop ts : tokensWf ts -> tokensWf (eraseIf drop ts).
Proof. apply filter_wf. Qed.

Lemma fmap_wf f ts :
  (forall t, tokenKey (f t) = tokenKey t) ->
  (forall t, t ∈ ts -> tokenOk t -> tokenOk (f t)) ->
  tokensWf ts -> tokensWf (f <$> ts).
Proof.
  intros Hk Hok [Hs Hf]. split; [by apply keySorted_fmap|].
  rewrite Forall_forall in Hf. apply Forall_fmap, Forall_forall. simpl. auto.
Qed.

Lemma set_position_ok p t :
  0 <= p <= UINT_MAX -> tokenOk t -> tokenOk (set_position p t).
Proof. intros Hp [F [B1 B2] V]. by split. Qed.

Lemma bumpCounter_wf ts c delta :
  0 <= delta -> tokensWf ts -> tokensWf (lat.bumpCounter ts c delta).
Proof.
  intros Hd. apply fmap_wf; intros t; [by case_decide|]. intros _ Ht.
  case_decide; [done|]. apply set_position_ok; [|done].
  destruct (ok_bounded _ Ht). unfold saturatingBump, UINT_MAX in *. case_match; lia.
Qed.

Lemma foldl_wf {A} (f : list Token -> A -> list Token) l : forall ts,
  (forall ts a, a ∈ l -> tokensWf ts -> tokensWf (f ts a)) ->
  tokensWf ts -> tokensWf (fold_left f l ts).
Proof.
  induction l as [|a l IH]; intros ts Hf Hts; [done|]. simpl. apply IH.
  - intros ts' a' Ha. apply Hf. by apply elem_of_cons; right.
  - apply Hf; [by apply elem_of_cons; left|done].
Qed.

Lemma applyWait_wf ts req : tokensWf ts -> tokensWf (lat.applyWait ts req).
Proof.
  intros Hts. unfold lat.applyWait.
  assert (tokensWf (fold_left (fun tokens c =>
    if decide (c = WaitcntCounter.X) then tokens
    else match req c with
         | Some count => lat.dropDrained tokens c count
         | None => tokens
         end) allCounters ts)) as H1.
  { apply foldl_wf; [|done]. intros ts' c _ H'. repeat case_match; try done.
    by apply eraseIf_wf. }
  cbv zeta. set (ts1 := fold_left _ _ ts) in *.
  assert (tokensWf (if decide (req WaitcntCounter.Km = Some 0)
    then lat.dropXGroup ts1 (eventMask WaitcntEvent.Smem) 0 else ts1)) as H2.
  { case_decide; [by apply eraseIf_wf|done]. }
  set (ts2 := if decide _ then _ else ts1) in *.
  assert (tokensWf (match req WaitcntCounter.Load with
    | Some load =>
        if negb (existsb (fun t => bool_decide (counter t = WaitcntCounter.Store)) ts2)
        then lat.dropXGroup ts2 (eventMask WaitcntEvent.Vmem) load else ts2
    | None => ts2 end)) as H3.
  { repeat case_match; try done. by apply eraseIf_wf. }
  set (ts3 := match req WaitcntCounter.Load with Some _ => _ | None => _ end) in *.
  destruct (req WaitcntCounter.X); [by apply eraseIf_wf|done].
Qed.

Lemma completedPosition_ok ts c ids mask p :
  Forall tokenOk ts -> lat.completedPosition ts c ids mask = Some p -> 0 <= p.
Proof.
  intros Hts. unfold lat.completedPosition.
  assert (forall acc, (forall p, acc = Some p -> 0 <= p) ->
    fold_left (fun completed token =>
      if lat.matchesIssuedEvent token c ids mask
      then minSlot completed (position token) else completed) ts acc = Some p ->
    0 <= p) as H; [|by apply H].
  induction Hts as [|t ts Ht _ IH]; intros acc Hacc; [by apply Hacc|]. simpl.
  apply IH. intros q. case_match; [|by apply Hacc].
  destruct (ok_bounded _ Ht) as [[Hp _] _].
  unfold minSlot. destruct acc as [a|]; [|intros [= <-]; done].
  specialize (Hacc a eq_refl). case_match; intros [= <-]; lia.
Qed.

Lemma land_bounded x y : 0 <= x < 2048 -> 0 <= Z.land x y < 2048.
Proof.
  intros Hx. assert (0 <= Z.land x y) by (apply Z.land_nonneg; lia). split; [done|].
  destruct (Z.eq_dec (Z.land x y) 0) as [->|Hne]; [done|].
  change 2048 with (2 ^ 11). apply Z.log2_lt_pow2; [lia|].
  destruct (Z.ltb_spec (Z.log2 (Z.land x y)) 11) as [?|Hge]; [done|].
  pose proof (Z.bit_log2 (Z.land x y) ltac:(lia)) as Hb.
  rewrite Z.land_spec in Hb. apply andb_true_iff in Hb as [Hb _].
  rewrite Z.bits_above_log2 in Hb; [done|lia|].
  eapply Z.lt_le_trans; [|exact Hge].
  destruct (Z.eq_dec x 0) as [->|]; [done|]. apply Z.log2_lt_pow2; [lia|]. apply Hx.
Qed.

Lemma dropIssuedEvent_wf ts c ids ev :
  tokensWf ts -> tokensWf (lat.dropIssuedEvent ts c ids ev).
Proof.
  intros Hts. unfold lat.dropIssuedEvent. cbv zeta.
  set (ts1 := _ <$> ts).
  assert (tokensWf ts1) as H1.
  { unfold ts1. apply fmap_wf; [| |done].
    - intros t. destruct (lat.matchesIssuedEvent t c ids (eventMask ev)) eqn:Hm; [|done].
      apply tokenKey_value_events. unfold lat.matchesIssuedEvent, lat.tokenId in Hm.
      unfold isSource. by destruct (subject t); rewrite ?andb_false_r in Hm.
    - intros t _ Ht. case_match; [|done]. destruct Ht as [F [B1 B2] V].
      split; [done| |done]. split; [done|]. by apply land_bounded. }
  destruct (lat.completedPosition ts c ids (eventMask ev)) as [p|] eqn:Hp;
    [|by apply eraseIf_wf].
  apply completedPosition_ok in Hp; [|apply Hts].
  apply fmap_wf; [| |by apply eraseIf_wf]; intros t; [by case_match|].
  intros _ Ht. case_match; [|done]. apply set_position_ok; [|done].
  destruct (ok_bounded _ Ht). lia.
Qed.

(** *** Aggregates *)

Record aggOk (c : WaitcntCounter.t) (agg : lat.TokenAggregate) : Prop := {
  agg_ok_position : forall p, lat.agg_position agg = Some p ->
    0 <= p <= UINT_MAX /\ c ∈ familyCounters target;
  agg_ok_events : 0 <= lat.agg_events agg < 2048
}.

Lemma emptyAggregate_ok c : aggOk c lat.emptyAggregate.
Proof. by split. Qed.

Lemma mergeInto_ok agg t : aggOk (counter t) agg -> tokenOk t ->
  aggOk (counter t) (lat.mergeInto agg t).
Proof.
  intros [A1 A2] [F [B1 B2] _]. split.
  - intros p. simpl. unfold minSlot. case_match; [|by intros [= <-]].
    destruct (A1 _ eq_refl). case_match; by intros [= <-].
  - simpl. change 2048 with (2 ^ 11) in *. by apply lor_lt.
Qed.

Lemma mergeFold_ok (pick : Token -> bool) c ts : forall agg,
  (forall t, pick t = true -> counter t = c) ->
  Forall tokenOk ts -> aggOk c agg ->
  aggOk c (fold_left (fun agg t => if pick t then lat.mergeInto agg t else agg) ts agg).
Proof.
  intros agg Hpick Hts. revert agg.
  induction Hts as [|t ts Ht _ IH]; intros agg Hagg; [done|]. simpl. apply IH.
  destruct (pick t) eqn:Hp; [|done]. rewrite <-(Hpick t Hp) in *. by apply mergeInto_ok.
Qed.

Lemma aggregateToken_ok id c agg :
  (forall v, id = Some v -> inProgram v) -> aggOk c agg ->
  Forall tokenOk (lat.aggregateToken id c agg).
Proof.
  intros Hid [A1 A2]. unfold lat.aggregateToken.
  destruct (lat.agg_position agg) as [p|]; constructor; [|constructor].
  destruct (A1 p eq_refl) as [Hp Hc]. split; [done|by split|].
  simpl. intros v [= ->]. by apply Hid.
Qed.

(** The two folds over the tokens of a counter, as selections. *)
Definition escapes (dominates : Value -> bool) (c : WaitcntCounter.t)
    (t : Token) : bool :=
  negb (lat.keepsToken dominates t || negb (bool_decide (counter t = c))).
Definition isSourceToken (c : WaitcntCounter.t) (src : Value) (t : Token) : bool :=
  match subject t with
  | OfValue (Some id) => (value_id id =? value_id src)%N && bool_decide (counter t = c)
  | _ => false
  end.

Lemma fold_left_ext {A B} (f g : A -> B -> A) l : forall acc,
  (forall acc x, f acc x = g acc x) -> fold_left f l acc = fold_left g l acc.
Proof. induction l as [|x l IH]; intros acc Hfg; [done|]. simpl. rewrite Hfg. auto. Qed.

Lemma collectEscaping_fold dominates ts c :
  lat.collectEscaping dominates ts c =
  fold_left (fun agg t => if escapes dominates c t then lat.mergeInto agg t else agg)
    ts lat.emptyAggregate.
Proof.
  apply fold_left_ext. intros agg t. unfold escapes.
  by destruct (lat.keepsToken dominates t || negb (bool_decide (counter t = c))).
Qed.

Lemma mergeSource_fold ts c agg src :
  lat.mergeSource ts c agg src =
  fold_left (fun agg t => if isSourceToken c src t then lat.mergeInto agg t else agg)
    ts agg.
Proof.
  apply fold_left_ext. intros agg' t. unfold isSourceToken.
  by destruct (subject t) as [[id|]| |].
Qed.

Lemma escapes_counter dominates c t : escapes dominates c t = true -> counter t = c.
Proof.
  unfold escapes. intros H%negb_true_iff. apply orb_false_iff in H as [_ H].
  by apply negb_false_iff, bool_decide_eq_true in H.
Qed.

Lemma isSourceToken_counter c src t : isSourceToken c src t = true -> counter t = c.
Proof.
  unfold isSourceToken. destruct (subject t) as [[id|]| |]; try done.
  by intros [_ H%bool_decide_eq_true]%andb_true_iff.
Qed.

Lemma collapseEscaping_wf dominates ts :
  tokensWf ts -> tokensWf (lat.collapseEscaping dominates ts).
Proof.
  intros Hts. unfold lat.collapseEscaping. cbv zeta. apply foldl_wf; [|by apply filter_wf].
  intros ts' c _ H'. apply foldl_wf; [|done]. intros ts'' t Ht H''.
  assert (tokenOk t) as Htok.
  { eapply Forall_forall; [|exact Ht]. apply aggregateToken_ok; [done|].
    rewrite collectEscaping_fold.
    apply mergeFold_ok; [apply escapes_counter|apply Hts|apply emptyAggregate_ok]. }
  apply upsert_wf; try done; intros; [by apply minToken_key|by apply minToken_ok].
Qed.

Lemma issued_ok s mask c ooo w :
  c ∈ familyCounters target -> 0 <= mask < 2048 ->
  (forall v, s = OfValue (Some v) -> inProgram v) ->
  tokenOk (mkToken s mask 0 c ooo w).
Proof. intros Hc Hm Hv. split; [done| |done]. by split; simpl; [unfold UINT_MAX; lia|]. Qed.

Lemma issue_wf ts c count mask ooo w tagged :
  c ∈ familyCounters target -> 0 <= count -> 0 <= mask < 2048 ->
  Forall inProgram tagged -> tokensWf ts ->
  tokensWf (lat.issue ts c count mask ooo w tagged).2.
Proof.
  intros Hc Hcount Hmask Htag Hts. unfold lat.issue. cbv zeta.
  assert (tokensWf (lat.bumpCounter ts c (if count =? 0 then 1 else count))) as Hb.
  { apply bumpCounter_wf; [case_match; lia|done]. }
  destruct tagged as [|v vs].
  - apply upsert_wf; [by intros; apply minToken_key| |done|by apply issued_ok].
    intros. by apply minToken_ok, issued_ok.
  - apply upsertAll_wf; [apply replaceToken_key|apply replaceToken_ok|done|].
    apply Forall_fmap. eapply Forall_impl; [exact Htag|]. intros u Hu.
    apply issued_ok; [done..|]. by intros ? [= <-].
Qed.

Lemma issueSources_wf ts c count mask ooo sources execSource :
  c ∈ familyCounters target -> 0 <= count -> 0 <= mask < 2048 -> tokensWf ts ->
  tokensWf (lat.issueSources ts c count mask ooo sources execSource).2.
Proof.
  intros Hc Hcount Hmask Hts. unfold lat.issueSources. cbv zeta.
  apply upsertAll_wf; [apply replaceToken_key|apply replaceToken_ok| |].
  { apply bumpCounter_wf; [case_match; lia|done]. }
  apply Forall_app. split.
  - destruct execSource; repeat constructor; by apply issued_ok.
  - apply Forall_fmap, Forall_forall. intros. by apply issued_ok.
Qed.

Lemma mergeSources_ok ts sources result :
  inProgram result -> Forall tokenOk ts ->
  Forall tokenOk (lat.mergeSources ts sources result).
Proof.
  intros Hres Hts. apply Forall_forall. intros t (c & Ht & _)%list_elem_of_bind.
  eapply Forall_forall; [|exact Ht]. apply aggregateToken_ok; [by intros ? [= <-]|].
  clear Ht. generalize (emptyAggregate_ok c). generalize lat.emptyAggregate.
  induction sources as [|src sources IH]; intros agg Hagg; [done|]. simpl. apply IH.
  rewrite mergeSource_fold. apply mergeFold_ok; [apply isSourceToken_counter|done..].
Qed.

Lemma insertAllMin_wf ts added :
  tokensWf ts -> Forall tokenOk added -> tokensWf (insertAllMin ts added).
Proof. apply upsertAll_wf; intros; [by apply minToken_key|by apply minToken_ok]. Qed.

Lemma derive_wf ts sources result :
  inProgram result -> tokensWf ts ->
  tokensWf (insertAllMin ts (lat.mergeSources ts sources result)).
Proof.
  intros Hr Hts. apply insertAllMin_wf; [done|]. by apply mergeSources_ok, Hts.
Qed.

Lemma deriveResultTokens_wf op ts :
  Forall inProgram (op_results op) -> tokensWf ts -> tokensWf (deriveResultTokens op ts).
Proof.
  intros Hop Hts. rewrite Forall_forall in Hop. apply foldl_wf; [|done].
  intros. apply derive_wf; auto.
Qed.

Lemma deriveIssuerDependencyTokens_wf op ts :
  Forall inProgram (op_results op) -> tokensWf ts ->
  tokensWf (deriveIssuerDependencyTokens op ts).
Proof.
  intros Hop Hts. rewrite Forall_forall in Hop. unfold deriveIssuerDependencyTokens.
  case_match; [done|]. case_match; [done|]. apply foldl_wf; [|done]. intros.
  case_match; [done|]. apply derive_wf; auto.
Qed.

Lemma find_elem ts c v t : lat.find ts c v = Some t -> t ∈ ts /\ counter t = c /\
  tokenKey t = tokenKey (lat.keyToken c (Some v)).
Proof.
  unfold lat.find. destruct (lowerBound sortKey ts (lat.keyToken c (Some v))) as [b r] eqn:Hl.
  apply lowerBound_app in Hl. subst ts. destruct r as [|it r]; [done|]. simpl.
  destruct (sameKey it _) eqn:Hs; [|done]. intros [= <-].
  apply sameKey_key in Hs. split_and!; [apply elem_of_app; right; by left| |done].
  by apply tokenKey_counter in Hs.
Qed.

Lemma propagateOperandsThrough_wf operands destinations ts :
  Forall inProgram destinations -> tokensWf ts ->
  tokensWf (propagateOperandsThrough operands destinations ts).
Proof.
  intros Hdst Hts. apply insertAllMin_wf; [done|]. apply Forall_forall.
  intros t ([op dst] & Ht & Hzip)%list_elem_of_bind.
  apply list_elem_of_bind in Ht as (c & Ht & _).
  destruct (lat.find ts c op) as [u|] eqn:Hf; [|by apply elem_of_nil in Ht].
  apply list_elem_of_singleton in Ht as ->. apply find_elem in Hf as (Hu & Hc & _).
  destruct (tokensWf_elem _ _ Hts Hu) as [F B _]. split; simpl; [by rewrite <-Hc|done|].
  intros v [= <-]. rewrite Forall_forall in Hdst. eapply Hdst, elem_of_zip_r, Hzip.
Qed.

(** ** Expert tokens *)

Lemma expertReplace_wf toks : forall ts,
  expertWf ts -> Forall expertBounded toks ->
  expertWf (upsertAll sortExpertKey sameExpertKey expert.replaceToken ts toks).2.
Proof.
  assert (forall it tok, expertKey it = expertKey tok ->
    expertKey (expert.replaceToken it tok).2 = expertKey it) as Hm.
  { intros it tok Hk. unfold expert.replaceToken. by case_match. }
  induction toks as [|tok toks IH]; intros ts [Hs Hb] Ht; [done|]. rewrite upsertAll_cons.
  apply Forall_cons in Ht as [Ht Htoks].
  destruct (upsert_spec expertKey sortExpertKey sameExpertKey sortExpertKey_key
    sameExpertKey_key expert.replaceToken ts tok Hs) as [Hr Hcase]; [auto|].
  assert (expertWf (upsert sortExpertKey sameExpertKey expert.replaceToken ts tok).2) as H1.
  { split; [exact Hr|]. rewrite Forall_forall in Hb. apply Forall_forall. intros t Hin.
    destruct Hcase as [(it & Hit & _ & _ & Hmem & _)|(_ & _ & Hmem)].
    - apply Hmem in Hin as [->|[Hin _]]; [|auto].
      unfold expert.replaceToken. case_match; simpl; auto.
    - apply Hmem in Hin as [->|Hin]; auto. }
  destruct (upsert sortExpertKey sameExpertKey expert.replaceToken ts tok) as [c1 ts1].
  specialize (IH ts1 H1 Htoks).
  by destruct (upsertAll sortExpertKey sameExpertKey expert.replaceToken ts1 toks).
Qed.

Lemma expertIssue_wf ts c count ev sources :
  0 <= count -> expertWf ts -> expertWf (expert.issue ts c count ev sources).
Proof.
  intros Hc [Hs Hb]. unfold expert.issue. case_match; [done|].
  apply expertReplace_wf.
  - split; [apply keySorted_fmap; [|done]; intros t; by case_decide|].
    apply Forall_fmap. eapply Forall_impl; [exact Hb|]. intros t Ht. simpl.
    case_decide; [done|]. unfold expertBounded, saturatingBump, UINT_MAX in *. simpl.
    case_match; lia.
  - unfold expertBounded. constructor; simpl; [unfold UINT_MAX; lia|].
    apply Forall_fmap, Forall_forall. intros u _. simpl. unfold UINT_MAX. lia.
Qed.

Lemma expertApplyWait_wf ts req : expertWf ts -> expertWf (expert.applyWait ts req).
Proof.
  unfold expert.applyWait. generalize ExpertCounter.all. intros l. revert ts.
  induction l as [|c l IH]; intros ts Hts; [done|]. simpl. apply IH.
  case_match; [|done]. destruct Hts as [Hs Hb].
  split; [by apply keySorted_eraseIf|]. rewrite Forall_forall in Hb.
  apply Forall_forall. intros t [_ Ht]%list_elem_of_filter. auto.
Qed.
End Wf.

(** ** The counters of the events *)

Lemma findCounterMapping_spec ev rules x m :
  findCounterMapping ev rules x = Some m ->
  exists rule, rule ∈ rules /\ rule_event rule = ev /\
    completion m = rule_completion rule /\
    source m = (if x && usesXSource rule then WaitcntCounter.X else WaitcntCounter.None).
Proof.
  induction rules as [|rule rules IH]; [done|]. simpl. case_decide as Hd.
  - intros H. destruct (IH H) as (r & Hr & ?). exists r. split; [by right|done].
  - intros [= <-]. exists rule. split_and!; [by left| |done|done].
    by destruct (decide (rule_event rule = ev)).
Qed.

Lemma counterMapping_family target ev m :
  counterMapping target ev = Some m -> ev <> WaitcntEvent.None ->
  completion m ∈ familyCounters target /\
  (source m = WaitcntCounter.None \/ source m ∈ familyCounters target).
Proof.
  unfold counterMapping, getWaitcntCounterMapping, familyCounters. intros Hm Hev.
  rewrite decide_False in Hm by done.
  destruct (family target);
    [rewrite decide_True in Hm by done|rewrite decide_False in Hm by done].
  - apply findCounterMapping_spec in Hm as (rule & Hr & _ & -> & ->). split; [|by left].
    unfold legacyRules in Hr.
    repeat (apply elem_of_cons in Hr as [->|Hr]; [simpl; set_solver|]).
    by apply elem_of_nil in Hr.
  - apply findCounterMapping_spec in Hm as (rule & Hr & _ & -> & ->).
    unfold splitRules in Hr.
    repeat (apply elem_of_cons in Hr as [->|Hr];
      [simpl; destruct (waitXcnt target); simpl; split;
         first [set_solver|by left|right; set_solver]|]).
    by apply elem_of_nil in Hr.
Qed.

Lemma classify_issuer op :
  classifyWaitOp op = WaitOpKind.Issuer \/ classifyWaitOp op = WaitOpKind.BarrierIssuer ->
  event (getWaitcntInfo op) <> WaitcntEvent.None.
Proof.
  intros H He.
  assert (isMemoryIssuer op = false) as Hm.
  { unfold isMemoryIssuer, isIssuer. rewrite He. by vm_compute. }
  unfold classifyWaitOp in H. rewrite Hm in H. simpl in H.
  destruct (isWaitcntOp op || isControlFlowOp op); [by destruct H|].
  assert (forall k, default WaitOpKind.Generic (classifyProtocolOp op) = k ->
    k = WaitOpKind.Issuer \/ k = WaitOpKind.BarrierIssuer -> False) as Hp.
  { unfold classifyProtocolOp. intros k <-. repeat case_match; by intros [?|?]. }
  destruct (op_kind op); first [by destruct H|by eapply Hp].
Qed.

Section Transfer.
Context `{LLVMTarget} `{WaitLLVM} (definingOp : Value -> option TicketOp).
Context (inProgram : Value -> Prop).
Implicit Types op : TicketOp.

(** An operation of the program: [issueCount] is unsigned. *)
Record opWf op : Prop := {
  wf_results : Forall inProgram (op_results op);
  wf_issueCount : 0 <= issueCount (getWaitcntInfo op)
}.

Lemma recordIssue_wf op ts target :
  event (getWaitcntInfo op) <> WaitcntEvent.None -> opWf op ->
  tokensWf inProgram target ts -> tokensWf inProgram target (recordIssue op ts target).
Proof.
  intros Hev [Hop Hn] Hts. unfold recordIssue. cbv zeta.
  assert (0 <= eventMask (event (getWaitcntInfo op)) < 2048) as Hmask
    by (destruct (event (getWaitcntInfo op)); simpl; lia).
  destruct (counterMapping target _) as [m|] eqn:Hm; [|done].
  destruct (counterMapping_family _ _ _ Hm Hev) as [Hc Hs].
  case_decide as Hsrc; [by apply issue_wf|]. destruct Hs as [?|Hs]; [done|].
  apply issueSources_wf; [done..|]. by apply issue_wf.
Qed.

Lemma applyImplicitXGroupSwitch_wf op ts target :
  tokensWf inProgram target ts -> tokensWf inProgram target (applyImplicitXGroupSwitch op ts target).
Proof.
  intros Hts. unfold applyImplicitXGroupSwitch. repeat case_match; try done;
    by apply eraseIf_wf.
Qed.

Lemma applyBarrierWaitCompletion_wf op ts target :
  tokensWf inProgram target ts -> tokensWf inProgram target (applyBarrierWaitCompletion definingOp op ts target).
Proof.
  intros Hts. unfold applyBarrierWaitCompletion. repeat case_match; try done;
    by apply dropIssuedEvent_wf.
Qed.

Lemma applyDrain_wf op st target w st' :
  stateWf inProgram target st -> applyDrain definingOp op st target = Ok (w, st') ->
  stateWf inProgram target st'.
Proof.
  intros [H1 H2] Hd. unfold applyDrain in Hd.
  apply outcome_bind_Ok in Hd as (req & _ & Hd).
  apply outcome_bind_Ok in Hd as (req' & _ & [= <- <-]).
  split; simpl; [by apply applyWait_wf|by apply expertApplyWait_wf].
Qed.

Lemma finishTransfer_wf op w st target w' st' :
  stateWf inProgram target st -> finishTransfer op w st target = Ok (w', st') ->
  stateWf inProgram target st'.
Proof.
  intros [H1 H2] Hf. unfold finishTransfer in Hf.
  apply outcome_bind_Ok in Hf as (ex & He & [= <- <-]).
  assert (expertWf ex) as Hex.
  { unfold recordExpertIssue in He.
    destruct (negb (expertScheduling target)); [by injection He as <-|].
    case_decide; [by injection He as <-|].
    case_decide; [by injection He as <-|].
    apply outcome_bind_Ok in He as (n & Hn & [= <-]).
    apply getInstructionIssueCount_pos in Hn.
    repeat case_match; try done; repeat apply expertIssue_wf; try done; lia. }
  unfold applyImplicitXDrain. case_match; split; simpl; try done. by apply eraseIf_wf.
Qed.

Lemma onTokens_wf f st target :
  (forall ts, tokensWf inProgram target ts -> tokensWf inProgram target (f ts)) ->
  stateWf inProgram target st -> stateWf inProgram target (onTokens f st).
Proof. intros Hf []. split; simpl; auto. Qed.

(** C28: the transfer of every operation keeps the state well formed: tokens in
    key order, each key once, on counters that the target has, about values of
    the program; positions saturate instead of wrapping around, so that they
    stay within 32 bits, and events stay within the mask of eleven events. *)
Theorem runTransfer_wf op st target w st'
    (Hop : opWf op)
    (Hst : stateWf inProgram target st)
    (Hrun : runTransfer definingOp op st target = Ok (w, st')) :
  stateWf inProgram target st'.
Proof.
  unfold runTransfer in Hrun. destruct (classifyWaitOp op) eqn:Hk.
  - destruct (isWaitcntOp op).
    + apply outcome_bind_Ok in Hrun as (st1 & Ho & [= <- <-]).
      unfold observeExistingWaitcnt, observeRegularWaitcnt in Ho.
      apply outcome_bind_Ok in Ho as (ts & Ht & [= <-]).
      apply outcome_bind_Ok in Ht as (req & _ & [= <-]). destruct Hst.
      split; simpl; [by apply applyWait_wf|].
      unfold observeExpertWaitcnt. repeat case_match; try done;
        by apply expertApplyWait_wf.
    + apply outcome_bind_Ok in Hrun as ([w1 st1] & Hd & Hf).
      eapply finishTransfer_wf; [|exact Hf]. by eapply applyDrain_wf.
  - apply outcome_bind_Ok in Hrun as ([w1 st1] & Hd & Hf).
    eapply finishTransfer_wf; [|exact Hf]. eapply onTokens_wf; [|by eapply applyDrain_wf].
    intros ts Hts. apply deriveIssuerDependencyTokens_wf, recordIssue_wf;
      [apply Hop|apply classify_issuer; by left|done|]. by apply applyImplicitXGroupSwitch_wf.
  - apply outcome_bind_Ok in Hrun as ([w1 st1] & Hd & Hf).
    eapply finishTransfer_wf; [|exact Hf]. eapply onTokens_wf; [|by eapply applyDrain_wf].
    intros ts Hts. apply recordIssue_wf; [apply classify_issuer; by right|done..].
  - apply outcome_bind_Ok in Hrun as ([w1 st1] & Hd & Hf).
    eapply finishTransfer_wf; [|exact Hf]. eapply onTokens_wf.
    + intros ts Hts. apply deriveResultTokens_wf; [apply Hop|]. by apply applyImplicitXGroupSwitch_wf.
    + eapply applyDrain_wf; [|exact Hd]. apply onTokens_wf; [|done].
      intros ts. apply applyBarrierWaitCompletion_wf.
  - eapply finishTransfer_wf; [|exact Hrun]. apply onTokens_wf; [|done].
    intros ts. by apply deriveResultTokens_wf, Hop.
  - by eapply finishTransfer_wf.
  - eapply finishTransfer_wf; [|exact Hrun]. apply onTokens_wf; [|done].
    intros ts. by apply deriveResultTokens_wf, Hop.
  - apply outcome_bind_Ok in Hrun as ([w1 st1] & Hd & Hf).
    eapply finishTransfer_wf; [|exact Hf]. unfold transferCall in Hd.
    apply outcome_bind_Ok in Hd as ([w2 st2] & Hd & [= <- <-]).
    assert (stateWf inProgram target st2) as Hst2 by (by eapply applyDrain_wf).
    case_match; [done|]. split; simpl; [|by repeat constructor].
    by repeat apply eraseIf_wf; destruct Hst2.
  - apply outcome_bind_Ok in Hrun as ([w1 st1] & Hd & Hf).
    eapply finishTransfer_wf; [|exact Hf].
    destruct (applyDrain_wf _ _ _ _ _ Hst Hd). split; simpl; [done|by repeat constructor].
  - injection Hrun as <- <-. apply emptyWaitState_wf.
  - apply outcome_bind_Ok in Hrun as ([w1 st1] & Hd & Hf).
    eapply finishTransfer_wf; [|exact Hf]. by eapply applyDrain_wf.
Qed.

Lemma edgeTransfer_wf operands destinations dominates st target :
  Forall inProgram destinations ->
  stateWf inProgram target st ->
  stateWf inProgram target (edgeTransfer operands destinations dominates st).
Proof.
  intros Hdst. apply onTokens_wf. intros ts Hts. by apply collapseEscaping_wf, propagateOperandsThrough_wf.
Qed.
End Transfer.
