(* ===== verification/TicketDrain.v ===== *)
(** * What a drain waits for, and what it leaves

    The requirement of an operation is the least wait position, counter by
    counter, of the tokens it depends on; the drain removes all of them; the
    waits that are created, read back, do the same. *)

From stdpp Require Import base tactics list strings sorting sets.
From S2P Require Import Prelude CostEnums ArchData MachineIR LatencyTable.
From S2P Require Import OpClassifier TicketIR TicketState TicketWaits.
From S2P Require Import TicketLattice TicketInv.

(** ** Requirements *)

Section Builds.
Context (ts : list Token).

(** [req'] asks, besides what [req] asks, for the tokens with [P], each at its
    wait position, and for nothing else. *)
Record builds (P : Token -> Prop) (req req' : WaitRequirement) : Prop := {
  builds_keeps : forall c n, req c = Some n -> exists m, req' c = Some m /\ m <= n;
  builds_waits : forall t, t ∈ ts -> P t ->
    exists m, req' (counter t) = Some m /\ m <= waitPosition ts t;
  builds_only : forall c m, req' c = Some m ->
    req c = Some m \/
    exists t, t ∈ ts /\ P t /\ counter t = c /\ m = waitPosition ts t
}.

Lemma builds_none req : builds (fun _ => False) req req.
Proof. split; [|done|by left]. intros c n Hn. exists n. split; [done|lia]. Qed.

Lemma builds_weaken (P Q : Token -> Prop) req req' :
  (forall t, t ∈ ts -> P t <-> Q t) -> builds P req req' -> builds Q req req'.
Proof.
  intros HPQ [H1 H2 H3]. split; [done| |].
  - intros t Ht HQ. apply H2; [done|]. by apply HPQ.
  - intros c m Hm. destruct (H3 c m Hm) as [?|(t & Ht & HP & Hc)]; [by left|].
    right. exists t. split; [done|]. split; [by apply HPQ|done].
Qed.

Lemma builds_trans P Q req1 req2 req3 :
  builds P req1 req2 -> builds Q req2 req3 ->
  builds (fun t => P t \/ Q t) req1 req3.
Proof.
  intros [A1 A2 A3] [B1 B2 B3]. split.
  - intros c n Hn. destruct (A1 c n Hn) as (m & Hm & ?).
    destruct (B1 c m Hm) as (k & Hk & ?). exists k. split; [done|lia].
  - intros t Ht [HP|HQ]; [|auto]. destruct (A2 t Ht HP) as (m & Hm & ?).
    destruct (B1 _ _ Hm) as (k & Hk & ?). exists k. split; [done|lia].
  - intros c m Hm. destruct (B3 c m Hm) as [Hm2|(t & Ht & HQ & ?)].
    + destruct (A3 c m Hm2) as [?|(t & Ht & HP & ?)]; [by left|].
      right. exists t. auto.
    + right. exists t. auto.
Qed.

Lemma builds_fold {A} (f : WaitRequirement -> A -> WaitRequirement)
    (P : A -> Token -> Prop) l : forall req,
  (forall req a, a ∈ l -> builds (P a) req (f req a)) ->
  builds (fun t => exists a, a ∈ l /\ P a t) req (fold_left f l req).
Proof.
  induction l as [|a l IH]; intros req Hf; simpl.
  - eapply builds_weaken; [|apply builds_none]. intros t _. split; [done|].
    intros (a & Ha & _). by apply elem_of_nil in Ha.
  - eapply builds_weaken; [|eapply builds_trans; [apply Hf; by left|apply IH]].
    + intros t _. split.
      * intros [HP|(b & Hb & HP)]; [exists a; split; [by left|done]|].
        exists b. split; [by right|done].
      * intros (b & [->|Hb]%elem_of_cons & HP); [by left|]. right. by exists b.
    + intros req' b Hb. apply Hf. by right.
Qed.

Lemma requireDrain_builds req t :
  t ∈ ts -> builds (eq t) req (requireDrain req (counter t) (waitPosition ts t)).
Proof.
  intros Ht. unfold requireDrain, minSlot. split.
  - intros c n Hn. case_decide as Hc; [|exists n; split; [done|lia]].
    rewrite Hn. eexists. split; [done|]. case_match; lia.
  - intros u _ <-. rewrite decide_True by done.
    destruct (req (counter t)); eexists; (split; [done|]); [case_match|]; lia.
  - intros c m Hm. case_decide as Hc; [|by left].
    destruct (req c) as [n|] eqn:Hn.
    + destruct (Z.ltb_spec (waitPosition ts t) n); simplify_eq; [|by left].
      right. exists t. auto.
    + simplify_eq. right. exists t. auto.
Qed.

(** A token asked for under a test. *)
Lemma requireDrain_if_builds (b : bool) req t :
  t ∈ ts -> builds (fun u => b = true /\ u = t) req
              (if b then requireDrain req (counter t) (waitPosition ts t) else req).
Proof.
  intros Ht. destruct b.
  - eapply builds_weaken; [|by apply requireDrain_builds]. naive_solver.
  - eapply builds_weaken; [|apply builds_none]. naive_solver.
Qed.
End Builds.

(** *** Which tokens an operation depends on *)

(** The token of a value on a completion counter. *)
Definition valueToken (v : Value) (t : Token) : Prop :=
  counter t <> WaitcntCounter.X /\
  tokenKey t = tokenKey (lat.keyToken (counter t) (Some v)).

Definition overlapToken (span : RegSpan) (t : Token) : Prop :=
  exists pending, pendingSpan t = Some pending /\ overlaps span pending = true.

Definition execToken (t : Token) : Prop := subject t = OfExec.

Lemma find_complete ts c v t :
  tokensSorted ts -> t ∈ ts -> tokenKey t = tokenKey (lat.keyToken c (Some v)) ->
  lat.find ts c v = Some t.
Proof.
  intros Hs Ht Hk. unfold lat.find.
  destruct (lowerBound sortKey ts (lat.keyToken c (Some v))) as [b r] eqn:Hl.
  destruct (lowerBound_spec tokenKey sortKey sortKey_key _ _ _ _ Hs Hl) as (-> & Hb & Hr & Hr').
  apply elem_of_app in Ht as [Ht|Ht].
  { specialize (Hb t Ht). rewrite Hk in Hb. by apply lexlt_irrefl in Hb. }
  destruct r as [|it r]; [by apply elem_of_nil in Ht|]. simpl.
  destruct (Hr t Ht) as [->|Hlt].
  - simpl. by rewrite (proj2 (sameKey_key it _) Hk).
  - rewrite Hk in Hlt. by apply lexlt_irrefl in Hlt.
Qed.

Lemma counter_all t target :
  counter t ∈ familyCounters target -> counter t ∈ allCounters /\ counter t <> WaitcntCounter.None.
Proof.
  unfold familyCounters, allCounters. destruct (counter t), (family target);
    intros Ht; split; try done; try set_solver; exfalso; set_solver.
Qed.

Section Requirements.
Context (inProgram : Value -> Prop) (target : WaitTarget) (ts : list Token).
Hypothesis Hts : tokensWf inProgram target ts.

Lemma findFold_builds (pick : Token -> bool) v req :
  builds ts (fun t => valueToken v t /\ pick t = true) req
    (fold_left (fun req c =>
       if decide (c = WaitcntCounter.X) then req
       else match lat.find ts c v with
            | Some t => if pick t then requireDrain req c (waitPosition ts t) else req
            | None => req
            end) allCounters req).
Proof using Hts.
  eapply builds_weaken; [|apply builds_fold with
    (P := fun c t => c <> WaitcntCounter.X /\ lat.find ts c v = Some t /\ pick t = true)].
  - intros t Ht. unfold valueToken. split.
    + intros (c & _ & Hx & Hf & Hp). apply find_elem in Hf as (_ & <- & Hk). done.
    + intros [[Hx Hk] Hp]. exists (counter t).
      destruct (tokensWf_elem _ _ _ _ Hts Ht) as [Hfam _ _].
      split; [by apply (counter_all t target)|]. split_and!; [done| |done].
      by apply find_complete; [apply Hts|..].
  - intros req' c _. case_decide as Hx.
    { eapply builds_weaken; [|apply builds_none]. naive_solver. }
    destruct (lat.find ts c v) as [t|] eqn:Hf.
    + pose proof (find_elem _ _ _ _ Hf) as (Ht & Hc & _).
      eapply builds_weaken; [|rewrite <-Hc; by apply requireDrain_if_builds].
      intros u _. split; [by intros [? ->]|]. intros (_ & Hu & ?).
      assert (u = t) as -> by congruence. done.
    + eapply builds_weaken; [|apply builds_none].
      intros u _. split; [done|]. intros (_ & ? & _). congruence.
Qed.

Lemma requireValue_builds v req :
  builds ts (valueToken v) req (requireValue req v ts).
Proof using Hts.
  eapply builds_weaken; [|apply (findFold_builds (fun _ => true))]. naive_solver.
Qed.

Lemma requireIssuerToken_builds v issuer req :
  builds ts (fun t => valueToken v t /\
               (isReadOnlyIssuer issuer = true -> writesMemory t = true))
    req (requireIssuerToken req v ts issuer).
Proof using Hts.
  unfold requireIssuerToken. destruct (isReadOnlyIssuer issuer); simpl.
  - eapply builds_weaken; [|apply (findFold_builds writesMemory)]. naive_solver.
  - eapply builds_weaken; [|apply requireValue_builds]. naive_solver.
Qed.

Lemma requireOverlappingRegisterDef_builds span req :
  builds ts (overlapToken span) req (requireOverlappingRegisterDef req span ts).
Proof using Type.
  eapply builds_weaken; [|apply builds_fold with
    (P := fun u t => u = t /\ overlapToken span t)].
  - intros t Ht. split; [naive_solver|]. intros Ho. exists t. auto.
  - intros req' t Ht. unfold overlapToken. destruct (pendingSpan t) as [p|] eqn:Hp.
    + eapply builds_weaken; [|by apply requireDrain_if_builds]. naive_solver.
    + eapply builds_weaken; [|apply builds_none]. naive_solver.
Qed.

Lemma requireExecDef_builds req : builds ts execToken req (requireExecDef req ts).
Proof using Type.
  unfold execToken. eapply builds_weaken; [|apply builds_fold with
    (P := fun u t => u = t /\ subject t = OfExec)].
  - intros t Ht. split; [by intros (? & _ & _ & ?)|]. intros Ho. by exists t.
  - intros req' t Ht. destruct (subject t) eqn:Hs;
      [eapply builds_weaken; [|apply builds_none]; intros u _; split; [done|];
       intros [-> ?]; congruence..|].
    eapply builds_weaken; [|by apply requireDrain_builds].
    intros u _. split; [by intros ->|by intros [-> _]].
Qed.
End Requirements.

(** The operand tokens that an operation waits for: not the half that a
    [d16_hi] load preserves, not the tokens of a DMA delay, and of the memory
    tokens of a read-only issuer only those of a write. *)
Definition waitedOperand (definingOp : Value -> option TicketOp) (op : TicketOp)
    (i : nat) (v : Value) : Prop :=
  op_operands op !! i = Some v /\
  isD16LowPreservedOperand definingOp op i v = false /\
  (isMemToken v && isDmaIssueDelayOp op) = false.

Definition orderedOnly (op : TicketOp) (v : Value) : Prop :=
  (isMemoryIssuer op && negb (isSignalIsFirst op) && isMemToken v
   && isReadOnlyIssuer op) = true.

Section Requires.
Context `{LLVMTarget} `{WaitLLVM} (definingOp : Value -> option TicketOp).
Implicit Types op : TicketOp.

Definition operandToken op (t : Token) : Prop :=
  exists i v, waitedOperand definingOp op i v /\ valueToken v t /\
    (orderedOnly op v -> writesMemory t = true).

Definition defToken op (t : Token) : Prop :=
  emitsMachineInst op = true /\
  exists span, span ∈ definedSpans op /\ overlapToken span t.

Definition conditionToken op (t : Token) : Prop :=
  exists v, head (op_operands op) = Some v /\ valueToken v t.

Definition yieldToken (results : list Value) op (t : Token) : Prop :=
  exists rv, rv ∈ zip results (op_operands op) /\
    isMemToken rv.1 = false /\ definedByUninit definingOp rv.2 = false /\
    hasSameAllocatedReg rv.1 rv.2 = false /\
    (valueToken rv.2 t \/
     exists span, getAllocatedRegSpan rv.1 = Some span /\ overlapToken span t).

Definition controlFlowToken op (target : WaitTarget) (t : Token) : Prop :=
  match op_kind op with
  | ExecIfOp =>
      conditionToken op t \/
      exists span, getExecIfSaveSpan op target = Ok (Some span) /\ overlapToken span t
  | UniformIfOp => conditionToken op t
  | YieldOp =>
      exists results, yieldResults op = Some results /\
        (execToken t \/ yieldToken results op t)
  | _ => False
  end.

(** The tokens that an operation depends on. *)
Definition requires op (target : WaitTarget) (t : Token) : Prop :=
  if isControlFlowOp op
  then controlFlowToken op target t
       \/ (hasTrait op Trait.WritesExecOp = true /\ execToken t)
  else if isSEndpgm op then False
  else if expertScheduling target && (callInterface op || isSSetpc op)
  then counter t ∈ boundaryCounters
  else operandToken op t \/ defToken op t
       \/ (hasTrait op Trait.WritesExecOp = true /\ execToken t).

Context (inProgram : Value -> Prop) (target : WaitTarget) (ts : list Token).
Hypothesis Hts : tokensWf inProgram target ts.

Lemma builds_false (P : Token -> Prop) req :
  (forall t, t ∈ ts -> ~ P t) -> builds ts P req req.
Proof using Type.
  intros HP. eapply builds_weaken; [|apply builds_none].
  intros t Ht. split; [done|]. by apply HP.
Qed.

Lemma requireOperationOperands_builds op req :
  builds ts (operandToken op) req (requireOperationOperands definingOp req op ts).
Proof using Hts.
  eapply builds_weaken; [|apply builds_fold with (P := fun iv t =>
    waitedOperand definingOp op iv.1 iv.2 /\ valueToken iv.2 t /\
    (orderedOnly op iv.2 -> writesMemory t = true))].
  - intros t Ht. split.
    + intros ([i v] & _ & Hp). by exists i, v.
    + intros (i & v & Hw & Hp). exists (i, v). split; [|done].
      apply list_elem_of_lookup. exists i. rewrite list_lookup_imap.
      by rewrite (proj1 Hw).
  - intros req' [i v] Hin. apply list_elem_of_lookup in Hin as (j & Hj).
    rewrite list_lookup_imap in Hj.
    destruct (op_operands op !! j) as [w|] eqn:Hw; [|done]. simpl in Hj. simplify_eq.
    unfold requireOperand, waitedOperand. simpl.
    destruct (isD16LowPreservedOperand definingOp op i v) eqn:Hd.
    { apply builds_false. intros t _ [(_ & ? & _) _]. done. }
    destruct (isMemToken v && isDmaIssueDelayOp op) eqn:Hdma.
    { apply builds_false. intros t _ [(_ & _ & ?) _]. done. }
    unfold orderedOnly.
    destruct (isMemoryIssuer op && negb (isSignalIsFirst op) && isMemToken v) eqn:Hi.
    + eapply builds_weaken; [|by apply (requireIssuerToken_builds inProgram target ts Hts v op)].
      intros t _. simpl. tauto.
    + eapply builds_weaken; [|by apply (requireValue_builds inProgram target ts Hts v)].
      intros t _. simpl. split; [|tauto]. intros ?. split_and!; try done.
Qed.

Lemma requireOverlappingRegisterDefs_builds op req :
  builds ts (defToken op) req (requireOverlappingRegisterDefs req op ts).
Proof using Type.
  unfold requireOverlappingRegisterDefs, defToken.
  destruct (emitsMachineInst op); simpl.
  - eapply builds_weaken; [|apply builds_fold with (P := overlapToken)].
    + intros t _. split; [tauto|]. by intros [_ ?].
    + intros req' span _. apply requireOverlappingRegisterDef_builds.
  - apply builds_false. by intros t _ [? _].
Qed.

Lemma requireCondition_builds op req :
  builds ts (conditionToken op) req (requireCondition req op ts).
Proof using Hts.
  unfold requireCondition, conditionToken. destruct (op_operands op) as [|v vs]; simpl.
  - apply builds_false. by intros t _ (v & ? & _).
  - eapply builds_weaken; [|by apply (requireValue_builds inProgram target ts Hts v)].
    intros t _. split; [intros ?; by exists v|]. by intros (w & [= ->] & ?).
Qed.

Lemma requireExec_if_builds op req :
  builds ts (fun t => hasTrait op Trait.WritesExecOp = true /\ execToken t) req
    (if hasTrait op Trait.WritesExecOp then requireExecDef req ts else req).
Proof using Type.
  destruct (hasTrait op Trait.WritesExecOp).
  - eapply builds_weaken; [|apply requireExecDef_builds]. intros t _. tauto.
  - apply builds_false. by intros t _ [? _].
Qed.

Lemma requireOptionalSpan_builds span req :
  builds ts (fun t => exists s, span = Some s /\ overlapToken s t) req
    (match span with
     | Some s => requireOverlappingRegisterDef req s ts
     | None => req
     end).
Proof using Type.
  destruct span as [s|].
  - eapply builds_weaken; [|apply requireOverlappingRegisterDef_builds].
    intros t _. split; [intros ?; by exists s|]. by intros (? & [= ->] & ?).
  - apply builds_false. by intros t _ (? & ? & _).
Qed.

Lemma requireYieldedValue_builds rv req :
  builds ts (fun t => isMemToken rv.1 = false /\ definedByUninit definingOp rv.2 = false /\
    hasSameAllocatedReg rv.1 rv.2 = false /\
    (valueToken rv.2 t \/
     exists span, getAllocatedRegSpan rv.1 = Some span /\ overlapToken span t))
    req (requireYieldedValue definingOp ts req rv).
Proof using Hts.
  destruct rv as [r v]. unfold requireYieldedValue. simpl.
  destruct (isMemToken r); [apply builds_false; by intros t _ [? _]|].
  destruct (definedByUninit definingOp v); [apply builds_false; by intros t _ (_ & ? & _)|].
  destruct (hasSameAllocatedReg r v); [apply builds_false; by intros t _ (_ & _ & ? & _)|].
  eapply builds_weaken; [|eapply builds_trans;
    [by apply (requireValue_builds inProgram target ts Hts v)|apply requireOptionalSpan_builds]].
  intros t _. simpl. tauto.
Qed.

Lemma requireExecIfYieldTransition_builds op req :
  builds ts (fun t => exists results, yieldResults op = Some results /\
               (execToken t \/ yieldToken results op t))
    req (requireExecIfYieldTransition definingOp req op ts).
Proof using Hts.
  unfold requireExecIfYieldTransition. destruct (yieldResults op) as [results|].
  - eapply builds_weaken; [|eapply builds_trans; [apply requireExecDef_builds|
      apply builds_fold; intros req' rv _; apply requireYieldedValue_builds]].
    intros t _. split.
    + intros [He|Hy]; exists results; split; auto.
    + intros (? & [= <-] & [He|Hy]); [by left|by right].
  - apply builds_false. by intros t _ (? & ? & _).
Qed.

(** At a call boundary every counter that is in use is drained. *)
Lemma boundary_spec c :
  computeCallableBoundaryRequirement ts c =
  if bool_decide (c ∈ boundaryCounters)
     && existsb (fun t => bool_decide (counter t = c)) ts
  then Some 0 else None.
Proof using Type.
  unfold computeCallableBoundaryRequirement, boundaryCounters. simpl.
  destruct (existsb (fun t => bool_decide (counter t = WaitcntCounter.Load)) ts) eqn:H1,
    (existsb (fun t => bool_decide (counter t = WaitcntCounter.Store)) ts) eqn:H2,
    (existsb (fun t => bool_decide (counter t = WaitcntCounter.Ds)) ts) eqn:H3,
    (existsb (fun t => bool_decide (counter t = WaitcntCounter.Km)) ts) eqn:H4;
    destruct c; try reflexivity; simpl; rewrite ?H1, ?H2, ?H3, ?H4; reflexivity.
Qed.

Lemma waitPosition_nonneg t : t ∈ ts -> 0 <= waitPosition ts t.
Proof using Hts.
  intros Ht. destruct (tokensWf_elem _ _ _ _ Hts Ht) as [_ [Hp _] _].
  unfold waitPosition. repeat case_match; lia.
Qed.

Lemma boundary_match c :
  match computeCallableBoundaryRequirement ts c with
  | Some m => m = 0 /\ c ∈ boundaryCounters /\ exists t, t ∈ ts /\ counter t = c
  | None => c ∈ boundaryCounters -> forall t, t ∈ ts -> counter t <> c
  end.
Proof using Type.
  rewrite boundary_spec. destruct (bool_decide (c ∈ boundaryCounters)) eqn:Hc; cbn [andb].
  - apply bool_decide_eq_true in Hc. cbn [andb].
    destruct (existsb (fun t => bool_decide (counter t = c)) ts) eqn:He.
    + split; [done|]. split; [done|]. apply existsb_exists in He as (t & Ht & Htc%bool_decide_eq_true).
      exists t. split; [by apply list_elem_of_In|done].
    + intros _ t Ht Htc. apply not_true_iff_false in He. apply He, existsb_exists. exists t.
      split; [by apply list_elem_of_In|by apply bool_decide_eq_true].
  - by apply bool_decide_eq_false in Hc.
Qed.

Lemma computeControlFlowRequirement_builds op req :
  computeControlFlowRequirement definingOp op ts target = Ok req ->
  builds ts (fun t => controlFlowToken op target t
               \/ (hasTrait op Trait.WritesExecOp = true /\ execToken t)) noWait req.
Proof using Hts.
  unfold computeControlFlowRequirement. intros Hr.
  apply outcome_bind_Ok in Hr as (req1 & H1 & [= <-]).
  eapply builds_trans; [|apply requireExec_if_builds].
  unfold controlFlowToken. destruct (op_kind op); try (injection H1 as <-;
    first [apply builds_none | apply requireCondition_builds
          | apply requireExecIfYieldTransition_builds]).
  apply outcome_bind_Ok in H1 as (save & Hs & [= <-]). rewrite Hs.
  eapply builds_weaken; [|eapply builds_trans;
    [apply requireCondition_builds|apply requireOptionalSpan_builds]].
  intros t _. split; (intros [?|(s & Heq & ?)]; [by left|]); right; exists s;
    split; congruence.
Qed.

(** A call or a return in expert mode, which drains the counters. *)
Definition drainsAll op : bool :=
  negb (isControlFlowOp op) && negb (isSEndpgm op)
  && (expertScheduling target && (callInterface op || isSSetpc op)).

(** The requirement of another operation is, counter by counter, the least wait
    position of the tokens that it depends on. *)
Lemma computeRequirement_builds op req :
  computeRequirement definingOp op ts target = Ok req ->
  if drainsAll op then req = computeCallableBoundaryRequirement ts /\
    forall t, requires op target t <-> counter t ∈ boundaryCounters
  else builds ts (requires op target) noWait req.
Proof using Hts.
  unfold computeRequirement, drainsAll, requires. intros Hr.
  destruct (isControlFlowOp op); [by apply computeControlFlowRequirement_builds|].
  destruct (isSEndpgm op); [injection Hr as <-; apply builds_none|]. cbn [negb andb].
  destruct (expertScheduling target && (callInterface op || isSSetpc op)); injection Hr as <-; [done|].
  eapply builds_weaken; [|eapply builds_trans; [apply requireOperationOperands_builds|
    eapply builds_trans; [apply requireOverlappingRegisterDefs_builds|
      apply requireExec_if_builds]]].
  intros t _. tauto.
Qed.

Lemma computeRequirement_waits op req t :
  computeRequirement definingOp op ts target = Ok req -> t ∈ ts -> requires op target t ->
  exists m, req (counter t) = Some m /\ m <= waitPosition ts t.
Proof using Hts.
  intros Hr%computeRequirement_builds Ht Hreq. destruct (drainsAll op); [|by apply (builds_waits _ _ _ _ Hr)].
  destruct Hr as [-> Hb]. apply Hb in Hreq. pose proof (boundary_match (counter t)) as Hm.
  destruct (computeCallableBoundaryRequirement ts (counter t)) as [m|]; [|by destruct (Hm Hreq t Ht)].
  exists m. split; [done|]. destruct Hm as [-> _]. by apply waitPosition_nonneg.
Qed.
Lemma computeRequirement_only op req c m :
  computeRequirement definingOp op ts target = Ok req -> req c = Some m ->
  exists t, t ∈ ts /\ requires op target t /\ counter t = c /\ 0 <= m <= waitPosition ts t.
Proof using Hts.
  intros Hr%computeRequirement_builds Hm. destruct (drainsAll op).
  - destruct Hr as [-> Hb]. pose proof (boundary_match c) as Hc. rewrite Hm in Hc.
    destruct Hc as (-> & Hc & t & Ht & <-). exists t. split; [done|]. split; [by apply Hb|]. split; [done|].
    split; [lia|by apply waitPosition_nonneg].
  - destruct (builds_only _ _ _ _ Hr c m Hm) as [?|(t & Ht & Hreq & <- & ->)]; [done|].
    exists t. split_and!; try done. by apply waitPosition_nonneg.
Qed.
End Requires.

(** ** What the drain removes *)

(** The test of [dropDrained], under the events that are live on the counter. *)
Definition drained (liveEvents n : Z) (t : Token) : bool :=
  if position t <? n then false
  else if n =? 0 then true
  else negb (tok_outOfOrder t || requiresZeroWait (counter t) liveEvents).

Lemma activeEventMask_cons ts t c :
  lat.activeEventMask (t :: ts) c =
  Z.lor (if decide (counter t = c) then events t else 0) (lat.activeEventMask ts c).
Proof.
  assert (forall ts m, fold_left (fun mask token =>
    if decide (counter token = c) then Z.lor mask (events token) else mask) ts m =
    Z.lor m (lat.activeEventMask ts c)) as H.
  { clear. unfold lat.activeEventMask. induction ts as [|t ts IH]; intros m; simpl.
    - by rewrite Z.lor_0_r.
    - rewrite IH. case_decide; [|by rewrite IH, Z.lor_0_l].
      by rewrite (IH (Z.lor 0 _)), Z.lor_0_l, Z.lor_assoc. }
  unfold lat.activeEventMask at 1. simpl. rewrite H.
  case_decide; by rewrite ?Z.lor_0_l.
Qed.

Lemma activeEventMask_elem ts t :
  t ∈ ts -> bitsWithin (events t) (lat.activeEventMask ts (counter t)).
Proof.
  induction ts as [|u ts IH]; intros [->|Ht]%elem_of_cons || intros Ht.
  - by apply elem_of_nil in Ht.
  - rewrite activeEventMask_cons, decide_True by done. apply bitsWithin_lor_l.
  - rewrite activeEventMask_cons. eapply bitsWithin_trans; [by apply IH|].
    apply bitsWithin_lor_r.
Qed.

(** Only the tokens of a counter count for its events. *)
Lemma activeEventMask_filter ts c (drop : Token -> bool) :
  (forall t, t ∈ ts -> counter t = c -> drop t = false) ->
  lat.activeEventMask (eraseIf drop ts) c = lat.activeEventMask ts c.
Proof.
  induction ts as [|t ts IH]; intros Hd; [done|]. unfold eraseIf in *.
  rewrite filter_cons, activeEventMask_cons.
  rewrite <-IH by (intros u Hu; apply Hd; by right).
  case_decide as Ht; [by rewrite activeEventMask_cons|].
  case_decide as Hc; [|by rewrite Z.lor_0_l]. rewrite Hd in Ht; [done|by left|done].
Qed.

Lemma elem_of_eraseIf {T} (drop : T -> bool) ts t :
  t ∈ eraseIf drop ts <-> t ∈ ts /\ drop t = false.
Proof. unfold eraseIf. rewrite list_elem_of_filter. tauto. Qed.

Lemma dropDrained_elem ts c n t :
  t ∈ lat.dropDrained ts c n <->
  t ∈ ts /\ (counter t = c -> drained (lat.activeEventMask ts c) n t = false).
Proof.
  unfold lat.dropDrained, drained. cbv zeta. rewrite elem_of_eraseIf.
  destruct (decide (counter t = c)) as [Hc|Hc].
  - rewrite (bool_decide_false (counter t <> c)) by tauto. simpl.
    by case_match; tauto.
  - rewrite (bool_decide_true (counter t <> c)) by done. simpl. tauto.
Qed.

Lemma dropDrained_mask ts c n c' :
  c <> c' -> lat.activeEventMask (lat.dropDrained ts c n) c' = lat.activeEventMask ts c'.
Proof.
  intros Hne. apply activeEventMask_filter. intros t _ <-.
  by rewrite (bool_decide_true (counter t <> c)).
Qed.

Definition drainCounter (req : WaitRequirement) (ts : list Token)
    (c : WaitcntCounter.t) : list Token :=
  if decide (c = WaitcntCounter.X) then ts
  else match req c with Some n => lat.dropDrained ts c n | None => ts end.

Definition keptBy (req : WaitRequirement) (ts : list Token) (t : Token) : Prop :=
  forall n, req (counter t) = Some n ->
    drained (lat.activeEventMask ts (counter t)) n t = false.

Lemma drainCounters_elem req l : forall ts t, NoDup l ->
  t ∈ fold_left (drainCounter req) l ts <->
  t ∈ ts /\ (counter t ∈ l -> counter t <> WaitcntCounter.X -> keptBy req ts t).
Proof.
  induction l as [|c l IH]; intros ts t Hnd; simpl.
  { split; [|tauto]. intros ?. split; [done|]. intros Hin. by apply elem_of_nil in Hin. }
  apply NoDup_cons in Hnd as [Hc Hnd]. rewrite IH by done. unfold keptBy, drainCounter.
  destruct (decide (c = WaitcntCounter.X)) as [->|Hx].
  { rewrite elem_of_cons. intuition congruence. }
  destruct (req c) as [n|] eqn:Hn.
  - rewrite dropDrained_elem. split.
    + intros ([Ht Hd] & Hl). split; [done|]. intros [Hcc|Hin]%elem_of_cons HX m Hm.
      * rewrite Hcc in Hm |- *. rewrite Hn in Hm. simplify_eq. auto.
      * specialize (Hl Hin HX m Hm). rewrite dropDrained_mask in Hl; [done|].
        intros ->. done.
    + intros [Ht Hl]. split_and!; [done| |].
      * intros <-. by apply Hl; [left|..].
      * intros Hin HX m Hm. rewrite dropDrained_mask by (by intros ->).
        apply Hl; [by right|done..].
  - rewrite elem_of_cons. split; (intros [Ht Hl]; split; [done|]; intros Hin HX m Hm).
    + destruct Hin as [Hcc|Hin]; [rewrite Hcc in Hm; congruence|]. by apply Hl.
    + apply Hl; auto.
Qed.

Lemma dropXGroup_elem ts g n t :
  t ∈ lat.dropXGroup ts g n -> t ∈ ts.
Proof. intros Ht. by apply elem_of_eraseIf in Ht as [? _]. Qed.

Lemma dropXGroup_keeps ts g n t :
  counter t <> WaitcntCounter.X -> t ∈ ts -> t ∈ lat.dropXGroup ts g n.
Proof.
  intros HX Ht. apply elem_of_eraseIf. split; [done|].
  cbv beta. by rewrite bool_decide_false by done.
Qed.

(** Off the X counter the drain removes exactly the tokens that the count of
    their counter covers. *)
Lemma applyWait_elem req ts t :
  counter t <> WaitcntCounter.X -> counter t ∈ allCounters ->
  t ∈ lat.applyWait ts req <-> t ∈ ts /\ keptBy req ts t.
Proof.
  intros HX Hc. unfold lat.applyWait. fold (drainCounter req).
  set (ts1 := fold_left _ allCounters ts).
  assert (t ∈ ts1 <-> t ∈ ts /\ keptBy req ts t) as H1.
  { unfold ts1. change (t ∈ fold_left (drainCounter req) allCounters ts <->
      t ∈ ts /\ keptBy req ts t). rewrite drainCounters_elem; [tauto|].
    apply (bool_decide_unpack (NoDup allCounters)). by vm_compute. }
  rewrite <-H1. cbv zeta.
  set (ts2 := if decide (req WaitcntCounter.Km = Some 0) then _ else ts1).
  assert (t ∈ ts2 <-> t ∈ ts1) as H2.
  { unfold ts2. case_decide; [|done].
    split; [apply dropXGroup_elem|by apply dropXGroup_keeps]. }
  rewrite <-H2. set (ts3 := match req WaitcntCounter.Load with Some _ => _ | None => ts2 end).
  assert (t ∈ ts3 <-> t ∈ ts2) as H3.
  { unfold ts3. repeat case_match; try done.
    split; [apply dropXGroup_elem|by apply dropXGroup_keeps]. }
  rewrite <-H3. destruct (req WaitcntCounter.X) as [n|]; [|done].
  rewrite dropDrained_elem. split; [tauto|]. intros ?. split; [done|].
  intros Hc'. by destruct HX.
Qed.

Lemma applyWait_sub req ts t : t ∈ lat.applyWait ts req -> t ∈ ts.
Proof.
  unfold lat.applyWait. cbv zeta. intros Ht.
  assert (forall l ts, t ∈ fold_left (fun tokens c =>
    if decide (c = WaitcntCounter.X) then tokens
    else match req c with
         | Some count => lat.dropDrained tokens c count
         | None => tokens
         end) l ts -> t ∈ ts) as Hf.
  { clear. induction l as [|c l IH]; intros ts Ht; [done|]. apply IH in Ht.
    repeat case_match; try done. by apply dropDrained_elem in Ht as [? _]. }
  set (ts1 := fold_left _ _ ts) in Ht. apply (Hf allCounters). fold ts1.
  destruct (req WaitcntCounter.X);
    [apply dropDrained_elem in Ht as [Ht _]|];
    (destruct (req WaitcntCounter.Load); [case_match; [apply dropXGroup_elem in Ht|]|]);
    (case_decide; [by apply dropXGroup_elem in Ht|done]).
Qed.

(** A token goes only when the count reaches its wait position. *)
Lemma drained_position ts t n :
  drained (lat.activeEventMask ts (counter t)) n t = true -> 0 <= position t ->
  n <= waitPosition ts t /\ (n = 0 \/ waitPosition ts t = position t).
Proof.
  unfold drained, waitPosition. destruct (Z.ltb_spec (position t) n) as [?|Hn]; [done|].
  destruct (Z.eqb_spec n 0) as [->|]; [intros _ Hp; split; [|by left]|].
  - repeat case_match; lia.
  - intros [-> ->]%negb_true_iff%orb_false_iff _. split; [lia|by right].
Qed.

Lemma drained_reached ts t n :
  0 <= position t -> 0 <= n <= waitPosition ts t ->
  drained (lat.activeEventMask ts (counter t)) n t = true.
Proof.
  unfold drained, waitPosition. intros Hp Hn.
  destruct (Z.ltb_spec (position t) n) as [?|_]; [repeat case_match; lia|].
  destruct (Z.eqb_spec n 0) as [->|]; [done|].
  destruct (tok_outOfOrder t) eqn:Ho; [lia|].
  destruct (requiresZeroWait _ _) eqn:Hz; [lia|done].
Qed.

(** ** The counts that are waited for *)

Section Clamp.
Context `{WaitLLVM} (target : WaitTarget).

Lemma clampFold_spec req l : forall acc req', NoDup l ->
  foldM (fun req' c =>
    count ← clampCount target c (req c);
    Ok (fun c' => if decide (c' = c) then count else req' c')) acc l = Ok req' ->
  (forall c, c ∈ l -> clampCount target c (req c) = Ok (req' c)) /\
  (forall c, c ∉ l -> req' c = acc c).
Proof using Type.
  induction l as [|c l IH]; intros acc req' Hnd Hf; simpl in Hf.
  { injection Hf as <-. split; [intros c Hc; by apply elem_of_nil in Hc|done]. }
  apply NoDup_cons in Hnd as [Hc Hnd].
  apply outcome_bind_Ok in Hf as (acc1 & H1 & Hf).
  apply outcome_bind_Ok in H1 as (count & Hcount & [= <-]).
  destruct (IH _ _ Hnd Hf) as [Hin Hout]. split.
  - intros d [->|Hd]%elem_of_cons; [|by apply Hin].
    rewrite Hout by done. by rewrite decide_True.
  - intros d Hd. rewrite Hout by (intros ?; apply Hd; by right).
    rewrite decide_False; [done|]. intros ->. apply Hd. by left.
Qed.

Lemma clamp_spec req req' :
  clampSaturatedCounterFields req target = Ok req' ->
  forall c, c ∈ allCounters -> clampCount target c (req c) = Ok (req' c).
Proof using Type.
  intros Hf. apply clampFold_spec in Hf as [Hin _]; [done|].
  apply (bool_decide_unpack (NoDup allCounters)). by vm_compute.
Qed.

(** Clamping keeps the counters that are waited for and never lets more
    operations outstanding. *)
Lemma clamp_le req req' c n :
  clampSaturatedCounterFields req target = Ok req' -> c ∈ allCounters ->
  req c = Some n -> exists m, req' c = Some m /\ m <= n.
Proof using Type.
  intros Hf Hc Hn. pose proof (clamp_spec _ _ Hf c Hc) as Hs. rewrite Hn in Hs.
  unfold clampCount in Hs. apply outcome_bind_Ok in Hs as (max & _ & Hs).
  injection Hs as Hs. symmetry in Hs. rewrite Hs.
  case_decide; eexists; (split; [done|]); case_match; lia.
Qed.

Lemma clamp_none req req' c :
  clampSaturatedCounterFields req target = Ok req' -> c ∈ allCounters ->
  req c = None -> req' c = None.
Proof using Type.
  intros Hf Hc Hn. pose proof (clamp_spec _ _ Hf c Hc) as Hs. rewrite Hn in Hs.
  unfold clampCount in Hs. apply outcome_bind_Ok in Hs as (max & _ & Hs).
  by injection Hs.
Qed.

(** A count that is emitted fits its field, and is not the value that stands
    for no wait, except on [vscnt], which has no such value. *)
Lemma clamp_bounds req req' c n :
  clampSaturatedCounterFields req target = Ok req' -> c ∈ allCounters ->
  req' c = Some n -> (forall m, req c = Some m -> 0 <= m) ->
  exists max, getCounterMax c (target_isa target) = Ok max /\
    (0 < max -> 0 <= n <= max /\ (c <> WaitcntCounter.Vscnt -> n < max)).
Proof using Type.
  intros Hf Hc Hn Hpos. pose proof (clamp_spec _ _ Hf c Hc) as Hs. rewrite Hn in Hs.
  unfold clampCount in Hs. apply outcome_bind_Ok in Hs as (max & Hmax & Hs).
  exists max. split; [done|]. intros Hm. destruct (req c) as [m|]; [|done].
  specialize (Hpos m eq_refl). case_decide; injection Hs as Hs.
  - revert Hs. case_match; intros <-; split; [lia|done|lia|done].
  - rewrite <-Hs. destruct (Z.ltb_spec 0 max); [|lia]. simpl.
    destruct (Z.leb_spec max m); split; lia.
Qed.
End Clamp.

Section Drained.
Context `{LLVMTarget} `{WaitLLVM} (definingOp : Value -> option TicketOp)
  (target : WaitTarget).

(** The requirement of an operation and the state after waiting for it. *)
Lemma applyDrain_inv (op : TicketOp) st w st' :
  applyDrain definingOp op st target = Ok (w, st') ->
  exists req0, computeRequirement definingOp op (tokens st) target = Ok req0 /\
    clampSaturatedCounterFields req0 target = Ok w.1 /\
    w.2 = normalizeExpertWait (computeExpertRequirement op (expertTokens st) target) /\
    st' = mkWaitState (lat.applyWait (tokens st) w.1)
            (expert.applyWait (expertTokens st) w.2).
Proof using Type.
  unfold applyDrain. intros Hd. apply outcome_bind_Ok in Hd as (req0 & Hr & Hd).
  apply outcome_bind_Ok in Hd as (req & Hc & [= <- <-]). by exists req0.
Qed.
End Drained.
