(* ===== verification/TicketReadback.v ===== *)
(** * The waits that are created, read back

    The rewrite turns the counts of a drain into wait operations; observing them
    again drains the state in the same way.  A drain leaves nothing to wait for,
    and its counts fit the fields of the instructions. *)

From stdpp Require Import base tactics list strings sorting sets.
From S2P Require Import Prelude CostEnums ArchData MachineIR LatencyTable.
From S2P Require Import OpClassifier TicketIR TicketState TicketWaits TicketLattice.
From S2P Require Import TicketInv TicketDrain.

(** The operation that the builder makes of a created wait. *)
Definition waitOperation (kind : OpKind) : Operation :=
  mkOperation 0 kind true [Trait.WaitcntOp] None None false [] [].
Definition createdOp (c : Created) : TicketOp :=
  match c with
  | CreatedOp kind => plainOp (waitOperation kind)
  | CreatedWaitAlu va vm =>
      mkTicketOp (waitOperation SWaitAluOp) false false false false [] false None false 0
        va vm [] None
  end.

(** ** Waits, by their counts *)

Lemma applyWait_ext ts req req' :
  (forall c, c ∈ allCounters -> req c = req' c) ->
  lat.applyWait ts req = lat.applyWait ts req'.
Proof.
  intros Heq. unfold lat.applyWait.
  assert (forall l ts, (forall c, c ∈ l -> req c = req' c) ->
    fold_left (drainCounter req) l ts = fold_left (drainCounter req') l ts) as Hf.
  { induction l as [|c l IH]; intros ts' Hl; [done|]. simpl.
    unfold drainCounter at 2 4. rewrite (Hl c) by (by left).
    apply IH. intros d Hd. apply Hl. by right. }
  specialize (Hf allCounters ts Heq). unfold drainCounter in Hf. rewrite Hf.
  rewrite !Heq; [done|unfold allCounters; set_solver..].
Qed.

Lemma expertApplyWait_ext ts req req' :
  (forall c, req c = req' c) -> expert.applyWait ts req = expert.applyWait ts req'.
Proof. intros Heq. unfold expert.applyWait, ExpertCounter.all. simpl. by rewrite !Heq. Qed.

Lemma applyWait_none ts req :
  (forall c, c ∈ allCounters -> req c = None) -> lat.applyWait ts req = ts.
Proof.
  intros Hn. rewrite (applyWait_ext ts req noWait) by done. done.
Qed.

Lemma expertApplyWait_none ts : expert.applyWait ts noExpertWait = ts.
Proof. done. Qed.

(** A wait on the counters of the legacy targets, in the two operations. *)
Lemma applyWait_legacy ts req vm lgkm vscnt :
  req WaitcntCounter.Vmem = vm -> req WaitcntCounter.Lgkm = lgkm ->
  req WaitcntCounter.Vscnt = vscnt ->
  (forall c, c ∈ allCounters -> c ∉ [WaitcntCounter.Vmem; WaitcntCounter.Lgkm;
     WaitcntCounter.Vscnt] -> req c = None) ->
  let first c := match c with
    | WaitcntCounter.Vmem => vm | WaitcntCounter.Lgkm => lgkm | _ => None end in
  let second c := match c with WaitcntCounter.Vscnt => vscnt | _ => None end in
  lat.applyWait (lat.applyWait ts first) second = lat.applyWait ts req.
Proof.
  intros H1 H2 H3 Hn first second.
  rewrite (applyWait_ext ts req (fun c => match c with
    | WaitcntCounter.Vmem => vm | WaitcntCounter.Lgkm => lgkm
    | WaitcntCounter.Vscnt => vscnt | _ => None end)).
  - done.
  - intros c Hc. destruct c; try done; apply Hn; try done; set_solver.
Qed.

Section Readback.
Context `{LLVMTarget} `{WaitLLVM} (definingOp : Value -> option TicketOp).
Context (inProgram : Value -> Prop) (target : WaitTarget).
Abbreviation stateWf := (stateWf inProgram target).
Implicit Types op : TicketOp.

(** ** The counts of a drain *)

(** The counts are those of tokens, on the counters of the target. *)
Lemma drain_counts op st req c n :
  stateWf st -> computeRequirement definingOp op (tokens st) target = Ok req ->
  req c = Some n -> 0 <= n /\ c ∈ familyCounters target.
Proof using Type.
  intros [Hwf _] Hr Hn.
  destruct (computeRequirement_only definingOp inProgram target (tokens st) Hwf op req c n Hr Hn)
    as (t & Ht & _ & <- & Hpos).
  destruct (tokensWf_elem _ _ _ _ Hwf Ht) as [Hf _ _]. split; [lia|done].
Qed.

Lemma clamped_counts op st w st' c :
  stateWf st -> applyDrain definingOp op st target = Ok (w, st') -> c ∈ allCounters ->
  c ∉ familyCounters target -> w.1 c = None.
Proof using Type.
  intros Hwf Hd Hc Hf. apply applyDrain_inv in Hd as (req0 & Hr & Hcl & _).
  apply (clamp_none target req0); [done..|].
  destruct (req0 c) as [n|] eqn:Hn; [|done].
  by destruct (drain_counts op st req0 c n Hwf Hr Hn).
Qed.

(** ** Reading back *)

Definition observeAll (st : WaitState) (ops : list Created) : outcome WaitState :=
  foldM (fun st c => observeExistingWaitcnt (createdOp c) st target) st ops.

Lemma observe_created kind st req :
  observedCounts (waitOperation kind) target = Ok req -> kind <> SWaitAluOp ->
  observeExistingWaitcnt (createdOp (CreatedOp kind)) st target =
  Ok (mkWaitState (lat.applyWait (tokens st) req) (expertTokens st)).
Proof using Type.
  intros Hr Hk. unfold observeExistingWaitcnt, observeRegularWaitcnt. simpl.
  rewrite Hr. simpl. unfold observeExpertWaitcnt.
  destruct (expertScheduling target); simpl; [|done]. by destruct kind.
Qed.

Lemma observeAll_created kind ops st req :
  observedCounts (waitOperation kind) target = Ok req -> kind <> SWaitAluOp ->
  observeAll st (CreatedOp kind :: ops) =
  observeAll (mkWaitState (lat.applyWait (tokens st) req) (expertTokens st)) ops.
Proof using Type.
  intros Hr Hk. unfold observeAll. cbn [foldM]. by rewrite (observe_created kind st req).
Qed.

Lemma observeAll_app st ops ops' st1 :
  observeAll st ops = Ok st1 -> observeAll st (ops ++ ops') = observeAll st1 ops'.
Proof using Type.
  unfold observeAll. revert st. induction ops as [|c ops IH]; intros st Hst; simpl in *.
  - by injection Hst as <-.
  - destruct (observeExistingWaitcnt (createdOp c) st target); [by apply IH|done..].
Qed.

Lemma requireOptional_at (req : WaitRequirement) c' (count : option Z) c :
  match count with Some n => requireDrain req c' n | None => req end c =
  if decide (c = c') then match count with Some n => minSlot (req c) n | None => req c end
  else req c.
Proof using Type. destruct count; [done|]. by case_decide. Qed.

Lemma observeSplit_req (counts : WaitRequirement) c :
  c ∈ [WaitcntCounter.Load; WaitcntCounter.Store; WaitcntCounter.Ds; WaitcntCounter.Km;
       WaitcntCounter.X; WaitcntCounter.Async; WaitcntCounter.Tensor] \/ counts c = None ->
  forall req, observedCounts (waitOperation (SWaitcntSplitOp (counts WaitcntCounter.Load)
      (counts WaitcntCounter.Store) (counts WaitcntCounter.Ds) (counts WaitcntCounter.Km)
      (counts WaitcntCounter.X) (counts WaitcntCounter.Async)
      (counts WaitcntCounter.Tensor))) target = Ok req -> req c = counts c.
Proof using Type.
  intros Hc req [= <-]. simpl. rewrite !requireOptional_at.
  destruct c; simpl; unfold noWait; simpl;
    try (destruct Hc as [Hc|Hc]; [exfalso; set_solver|by rewrite Hc]);
    by case_match.
Qed.

Lemma observeSplit op st w st' :
  stateWf st -> family target = WaitCounterFamily.Split ->
  applyDrain definingOp op st target = Ok (w, st') ->
  observeAll st (CreatedOp <$> emitWaits w.1 target) =
  Ok (mkWaitState (lat.applyWait (tokens st) w.1) (expertTokens st)).
Proof using Type.
  intros Hwf Hfam Hd. unfold emitWaits. rewrite decide_True by done. rewrite list_fmap_singleton.
  erewrite observeAll_created; [|reflexivity|done]. unfold observeAll. cbn [foldM]. do 2 f_equal.
  apply applyWait_ext. intros c Hc. eapply observeSplit_req; [|reflexivity].
  destruct (decide (c ∈ familyCounters target)) as [Hin|Hout];
    [left; by unfold familyCounters in Hin; rewrite Hfam in Hin|].
  right. by eapply clamped_counts.
Qed.

Lemma observeFields (vm lgkm : option Z) vmMax lgMax :
  (forall n, vm = Some n -> n < vmMax) -> (forall n, lgkm = Some n -> n < lgMax) ->
  forall c, observeField (observeField noWait WaitcntCounter.Vmem vm vmMax)
              WaitcntCounter.Lgkm lgkm lgMax c =
    match c with WaitcntCounter.Vmem => vm | WaitcntCounter.Lgkm => lgkm | _ => None end.
Proof using Type.
  intros Hvm Hlg c. unfold observeField.
  destruct vm as [n|]; [rewrite (proj2 (Z.ltb_lt n vmMax)) by auto|];
    (destruct lgkm as [m|]; [rewrite (proj2 (Z.ltb_lt m lgMax)) by auto|]); by destruct c.
Qed.

Lemma observeLegacy op st w st' :
  stateWf st -> family target = WaitCounterFamily.Legacy ->
  0 < getVmcntBitMask (target_isa target) -> 0 < getLgkmcntBitMask (target_isa target) ->
  applyDrain definingOp op st target = Ok (w, st') ->
  observeAll st (CreatedOp <$> emitWaits w.1 target) =
  Ok (mkWaitState (lat.applyWait (tokens st) w.1) (expertTokens st)).
Proof using Type.
  intros Hwf Hfam Hvm Hlg Hd.
  assert (forall c, c ∈ allCounters -> c ∉ [WaitcntCounter.Vmem; WaitcntCounter.Lgkm;
    WaitcntCounter.Vscnt] -> w.1 c = None) as Hnone.
  { intros c Hc Hout. eapply clamped_counts; [done|done|done|].
    unfold familyCounters. by rewrite Hfam. }
  apply applyDrain_inv in Hd as (req0 & Hr & Hcl & _ & _).
  assert (forall c max n, c ∈ allCounters -> w.1 c = Some n ->
    getCounterMax c (target_isa target) = Ok max -> 0 < max ->
    c <> WaitcntCounter.Vscnt -> n < max) as Hfit.
  { intros c max n Hc Hn Hmax Hpos Hv.
    destruct (clamp_bounds target req0 w.1 c n Hcl Hc Hn) as (max' & Hmax' & Hb).
    - intros m Hm. by destruct (drain_counts op st req0 c m Hwf Hr Hm).
    - assert (max' = max) as -> by congruence. by apply (Hb Hpos). }
  unfold emitWaits. rewrite decide_False by (by rewrite Hfam).
  pose proof (applyWait_legacy (tokens st) w.1 _ _ _ eq_refl eq_refl eq_refl Hnone) as Hleg.
  set (first := fun c : WaitcntCounter.t => match c with
    | WaitcntCounter.Vmem => _ | WaitcntCounter.Lgkm => _ | _ => None end) in Hleg.
  set (second := fun c : WaitcntCounter.t => match c with
    | WaitcntCounter.Vscnt => _ | _ => None end) in Hleg. cbv zeta in Hleg.
  rewrite fmap_app. rewrite (observeAll_app st _ _
    (mkWaitState (lat.applyWait (tokens st) first) (expertTokens st))).
  - destruct (w.1 WaitcntCounter.Vscnt) as [vs|] eqn:Hvs.
    + rewrite list_fmap_singleton. erewrite observeAll_created; [|reflexivity|done].
      unfold observeAll. cbn [foldM tokens expertTokens]. rewrite <-Hleg.
      rewrite (applyWait_ext _ _ second); [done|]. intros c _. by destruct c.
    + unfold observeAll. cbn [foldM fmap list_fmap]. rewrite <-Hleg.
      rewrite (applyWait_none _ second); [done|]. intros c _. by destruct c.
  - assert (forall b, b = bool_decide (is_Some (w.1 WaitcntCounter.Vmem))
        || bool_decide (is_Some (w.1 WaitcntCounter.Lgkm)) ->
      observeAll st (CreatedOp <$> (if b then [SWaitcntOp (w.1 WaitcntCounter.Vmem) None
        (w.1 WaitcntCounter.Lgkm)] else [])) =
      Ok (mkWaitState (lat.applyWait (tokens st) first) (expertTokens st))) as Hfirst;
      [|by apply Hfirst].
    intros [] Hb.
    + rewrite list_fmap_singleton. erewrite observeAll_created; [|reflexivity|done].
      unfold observeAll. cbn [foldM].
      rewrite (applyWait_ext _ _ first); [done|]. intros c _.
      apply observeFields; intros n Hn; eapply Hfit; try done; unfold allCounters; set_solver.
    + symmetry in Hb. apply orb_false_iff in Hb as [B1 B2].
      apply bool_decide_eq_false in B1, B2. rewrite <-eq_None_not_Some in B1, B2.
      unfold observeAll. cbn [foldM fmap list_fmap]. destruct st as [toks ex]. simpl.
      rewrite (applyWait_none _ first); [done|]. intros c _. by destruct c.
Qed.

(** ** Expert mode *)

Lemma normalizeExpertWait_va req :
  normalizeExpertWait req ExpertCounter.VaRead = normalizeExpertWait req ExpertCounter.VaWrite.
Proof using Type.
  unfold normalizeExpertWait.
  destruct (req ExpertCounter.VaRead) eqn:H1, (req ExpertCounter.VaWrite) eqn:H2; done.
Qed.

Lemma hasExpertWait_none req :
  hasExpertWait req = false -> forall c, req c = None.
Proof using Type.
  unfold hasExpertWait, ExpertCounter.all. simpl. intros H1 c.
  rewrite !orb_false_iff, !bool_decide_eq_false, <-!eq_None_not_Some in H1.
  destruct H1 as (? & ? & ? & _). by destruct c.
Qed.

Lemma hasWait_none req : hasWait req = false -> forall c, c ∈ allCounters -> req c = None.
Proof using Type.
  intros Hw c Hc. destruct (req c) as [n|] eqn:Hn; [|done].
  assert (hasWait req = true); [|congruence]. apply existsb_exists. exists c.
  split; [right; by apply list_elem_of_In|]. apply bool_decide_eq_true. by exists n.
Qed.

Lemma observe_waitAlu st va vm :
  expertScheduling target = true ->
  observeExistingWaitcnt (createdOp (CreatedWaitAlu va vm)) st target =
  Ok (mkWaitState (tokens st) (expert.applyWait (expertTokens st)
        (fun c => match c with ExpertCounter.VmSource => vm | _ => va end))).
Proof using Type.
  intros He. unfold observeExistingWaitcnt, observeRegularWaitcnt, observeExpertWaitcnt.
  simpl. rewrite He. simpl. do 2 f_equal. apply expertApplyWait_ext.
  intros c. unfold requireExpertDrain. destruct va, vm, c; done.
Qed.

Lemma observeExpert op st w st' (toks : list Token) :
  applyDrain definingOp op st target = Ok (w, st') ->
  observeAll (mkWaitState toks (expertTokens st))
    (if hasExpertWait w.2 then emitExpertWait w.2 else []) =
  Ok (mkWaitState toks (expert.applyWait (expertTokens st) w.2)).
Proof using Type.
  intros Hd. apply applyDrain_inv in Hd as (_ & _ & _ & Hw & _).
  assert (w.2 ExpertCounter.VaRead = w.2 ExpertCounter.VaWrite) as Hva
    by (rewrite Hw; apply normalizeExpertWait_va).
  assert (forall c, expertScheduling target = false -> w.2 c = None) as Hoff.
  { intros c He. rewrite Hw. unfold computeExpertRequirement. rewrite He. by destruct c. }
  destruct (hasExpertWait w.2) eqn:Hhas.
  - destruct (expertScheduling target) eqn:He.
    + unfold emitExpertWait.
      assert (forall va vm, w.2 ExpertCounter.VaRead = va -> w.2 ExpertCounter.VmSource = vm ->
        observeAll (mkWaitState toks (expertTokens st)) [CreatedWaitAlu va vm] =
        Ok (mkWaitState toks (expert.applyWait (expertTokens st) w.2))) as Hobs.
      { intros va vm Hv Hm. unfold observeAll. cbn [foldM].
        rewrite observe_waitAlu by done. cbn [tokens expertTokens].
        rewrite (expertApplyWait_ext _ _ w.2); [done|]. intros c. destruct c; congruence. }
      destruct (w.2 ExpertCounter.VaRead) eqn:Hread; [by apply Hobs|].
      destruct (w.2 ExpertCounter.VmSource) eqn:Hvm; [by apply Hobs|].
      assert (hasExpertWait w.2 = false); [|congruence].
      unfold hasExpertWait, ExpertCounter.all. simpl. by rewrite <-Hva, Hread, Hvm.
    + assert (hasExpertWait w.2 = false); [|congruence].
      unfold hasExpertWait, ExpertCounter.all. simpl. by rewrite !Hoff.
  - unfold observeAll. cbn [foldM]. rewrite (expertApplyWait_ext _ w.2 noExpertWait); [done|].
    intros c. by apply hasExpertWait_none.
Qed.

(** ** Properties *)

(** C25: the wait operations that the rewrite creates for a drain, read back by
    the pass itself, take the state to the state that the drain computed: the
    encoding of the counts into [s_waitcnt], [s_waitcnt_vscnt],
    [s_waitcnt_split] and [s_wait_alu] loses nothing. *)
Theorem created_waits_read_back op st w st'
    (Hwf : stateWf st)
    (Hvm : 0 < getVmcntBitMask (target_isa target))
    (Hlg : 0 < getLgkmcntBitMask (target_isa target))
    (Hd : applyDrain definingOp op st target = Ok (w, st')) :
  observeAll st (emittedWaits (Some w) target) = Ok st'.
Proof using Type.
  assert (emittedWaits (Some w) target =
    (if hasWait w.1 then CreatedOp <$> emitWaits w.1 target else [])
    ++ (if hasExpertWait w.2 then emitExpertWait w.2 else [])) as -> by (by destruct w).
  rewrite (observeAll_app st _ _
    (mkWaitState (lat.applyWait (tokens st) w.1) (expertTokens st))).
  - rewrite (observeExpert op st w st' _ Hd).
    by apply applyDrain_inv in Hd as (_ & _ & _ & _ & ->).
  - destruct (hasWait w.1) eqn:Hhas.
    + destruct (family target) eqn:Hfam;
        [by eapply observeLegacy|by eapply observeSplit].
    + unfold observeAll. cbn [foldM]. rewrite applyWait_none by (by apply hasWait_none).
      by destruct st.
Qed.

(** Until which position a token has to be waited for: its own where its counter
    counts down in order, and else the last one. *)
Definition positionAwaited (toks : list Token) (t : Token) : Z :=
  if tok_outOfOrder t || requiresZeroWait (counter t) (lat.activeEventMask toks (counter t)) then 0
  else position t.

(** C26: the requirement of an operation is, counter by counter, the least position
    awaited by the tokens that it depends on, and nothing on a counter on which
    it depends on none: it waits for each of them and for nothing else, and is not
    longer than one of them takes. Only a call or a return in expert mode drains
    the counters that are in use at such a boundary, completely. *)
Theorem computeRequirement_least op st req
    (Hwf : stateWf st)
    (Hr : computeRequirement definingOp op (tokens st) target = Ok req) :
  forall c,
    if drainsAll target op
    then match req c with
         | Some n => n = 0 /\ c ∈ boundaryCounters /\ exists t, t ∈ tokens st /\ counter t = c
         | None => c ∈ boundaryCounters -> forall t, t ∈ tokens st -> counter t <> c
         end
    else match req c with
         | Some n =>
             (exists t, t ∈ tokens st /\ requires definingOp op target t /\ counter t = c /\
                n = positionAwaited (tokens st) t) /\
             forall t, t ∈ tokens st -> requires definingOp op target t -> counter t = c ->
               n <= positionAwaited (tokens st) t
         | None => forall t, t ∈ tokens st -> requires definingOp op target t -> counter t <> c
         end.
Proof using Type.
  assert (forall t, waitPosition (tokens st) t = positionAwaited (tokens st) t) as Hpos
    by (intros t; unfold waitPosition, positionAwaited; by destruct (tok_outOfOrder t)).
  intros c. pose proof (computeRequirement_builds definingOp inProgram target (tokens st)
    (wf_tokens _ _ _ Hwf) op req Hr) as Hb.
  destruct (drainsAll target op); [destruct Hb as [-> _]; apply boundary_match|].
  destruct Hb as [_ Hwaits Honly]. destruct (req c) as [n|] eqn:Hn.
  - split.
    + destruct (Honly c n Hn) as [?|(t & Ht & Hreq & Hc & ->)]; [done|]. by exists t.
    + intros t Ht Hreq <-. destruct (Hwaits t Ht Hreq) as (m & Hm & Hle). rewrite <-Hpos.
      by assert (m = n) as <- by congruence.
  - intros t Ht Hreq <-. destruct (Hwaits t Ht Hreq) as (m & Hm & _). congruence.
Qed.

(** C30: the counts that are emitted fit the fields of the wait instructions:
    they are never negative or above the field, and, but for [vscnt], below the
    value that stands for no wait. *)
Theorem emitted_counts_fit op st w st' c n
    (Hwf : stateWf st)
    (Hd : applyDrain definingOp op st target = Ok (w, st'))
    (Hc : c ∈ allCounters) (Hn : w.1 c = Some n) :
  exists max, getCounterMax c (target_isa target) = Ok max /\
    (0 < max -> 0 <= n <= max /\ (c <> WaitcntCounter.Vscnt -> n < max)).
Proof using Type.
  apply applyDrain_inv in Hd as (req0 & Hr & Hcl & _ & _).
  apply (clamp_bounds target req0 w.1 c n Hcl Hc Hn).
  intros m Hm. by destruct (drain_counts op st req0 c m Hwf Hr Hm).
Qed.

(** ** Nothing left *)

Lemma mixed_within e f : bitsWithin e f -> hasMixedXGroups e = true -> hasMixedXGroups f = true.
Proof using Type.
  unfold hasMixedXGroups. intros Hb [H1 H2]%andb_true_iff. apply andb_true_iff.
  split; by eapply hasBits_within.
Qed.

Lemma activeEventMask_sub ts ts' c :
  (forall t, t ∈ ts' -> t ∈ ts) ->
  bitsWithin (lat.activeEventMask ts' c) (lat.activeEventMask ts c).
Proof using Type.
  intros Hsub. induction ts' as [|t ts' IH].
  - unfold bitsWithin. apply Z.lor_0_r.
  - rewrite activeEventMask_cons. apply bitsWithin_lor.
    + case_decide as Hc; [|unfold bitsWithin; apply Z.lor_0_r]. subst c.
      apply activeEventMask_elem, Hsub. by left.
    + apply IH. intros u Hu. apply Hsub. by right.
Qed.

(** The last step of [applyWait] is the drain of the X counter. *)
Lemma applyWait_X req ts t n :
  t ∈ lat.applyWait ts req -> counter t = WaitcntCounter.X ->
  req WaitcntCounter.X = Some n -> 0 <= position t -> ~ 0 <= n <= waitPosition ts t.
Proof using Type.
  intros Ht Hc Hn Hp Hle.
  assert (exists ts', (forall u, u ∈ ts' -> u ∈ ts) /\
    t ∈ lat.dropDrained ts' WaitcntCounter.X n) as (ts' & Hsub & Hin).
  { pose proof (fun u => applyWait_sub (fun c => if decide (c = WaitcntCounter.X) then None
      else req c) ts u) as Hsub.
    exists (lat.applyWait ts (fun c => if decide (c = WaitcntCounter.X) then None else req c)).
    split; [exact Hsub|]. unfold lat.applyWait in Ht |- *. rewrite Hn in Ht. exact Ht. }
  apply dropDrained_elem in Hin as [Hin Hd]. specialize (Hd Hc).
  unfold drained in Hd. unfold waitPosition in Hle. rewrite Hc in *.
  destruct (Z.ltb_spec (position t) n) as [Hlt|_]; [repeat case_match; lia|].
  destruct (Z.eqb_spec n 0) as [|Hn0]; [done|].
  destruct (tok_outOfOrder t); [lia|]. simpl in *.
  destruct (hasMixedXGroups (lat.activeEventMask ts WaitcntCounter.X)) eqn:Hm; [lia|].
  destruct (hasMixedXGroups (lat.activeEventMask ts' WaitcntCounter.X)) eqn:Hm'; [|done].
  rewrite (mixed_within _ _ (activeEventMask_sub ts ts' _ Hsub) Hm') in Hm. done.
Qed.

Lemma applyWait_drops req ts t n :
  counter t ∈ allCounters -> 0 <= position t -> req (counter t) = Some n ->
  0 <= n <= waitPosition ts t -> t ∉ lat.applyWait ts req.
Proof using Type.
  intros Hc Hp Hn Hle Ht. destruct (decide (counter t = WaitcntCounter.X)) as [Hx|Hx].
  - rewrite Hx in Hn. by eapply applyWait_X.
  - apply applyWait_elem in Ht as [_ Hk]; [|done..]. specialize (Hk n Hn).
    rewrite drained_reached in Hk; done.
Qed.

(** A drain leaves nothing to wait for: after the waits of an operation, the
    operation asks for no wait, so that no wait is inserted twice. *)
Theorem drain_leaves_no_wait op st w st' req
    (Hwf : stateWf st)
    (Hmax : forall c max, getCounterMax c (target_isa target) = Ok max -> 0 <= max)
    (Hd : applyDrain definingOp op st target = Ok (w, st'))
    (Hr : computeRequirement definingOp op (tokens st') target = Ok req) :
  forall c, req c = None.
Proof using Type.
  intros c. destruct (req c) as [m|] eqn:Hm; [|done]. exfalso.
  pose proof (applyDrain_wf definingOp inProgram op st target w st' Hwf Hd) as Hwf'.
  destruct (computeRequirement_only definingOp inProgram target (tokens st')
    (wf_tokens _ _ _ Hwf') op req c m Hr Hm) as (t & Ht & Hreq & <- & _).
  apply applyDrain_inv in Hd as (req0 & Hr0 & Hcl & _ & ->). simpl in Ht.
  pose proof (applyWait_sub _ _ _ Ht) as Ht0.
  destruct (tokensWf_elem _ _ _ _ (wf_tokens _ _ _ Hwf) Ht0) as [Hf [Hp _] _].
  destruct (counter_all t target Hf) as [Hall _].
  destruct (computeRequirement_waits definingOp inProgram target (tokens st)
    (wf_tokens _ _ _ Hwf) op req0 t Hr0 Ht0 Hreq) as (n & Hn & Hle).
  destruct (clamp_le target req0 w.1 (counter t) n Hcl Hall Hn) as (n' & Hn' & Hle').
  assert (0 <= n') as Hpos.
  { pose proof (clamp_spec target req0 w.1 Hcl (counter t) Hall) as Hs. rewrite Hn in Hs.
    unfold clampCount in Hs. apply outcome_bind_Ok in Hs as (max & Hmx & Hs).
    specialize (Hmax _ _ Hmx). destruct (drain_counts op st req0 _ _ Hwf Hr0 Hn) as [Hn0 _].
    injection Hs as Hs. rewrite Hn' in Hs. revert Hs.
    case_decide; intros [= <-]; case_match; lia. }
  eapply (applyWait_drops w.1 (tokens st) t n'); try done; lia.
Qed.
End Readback.
