(* ===== verification/TicketText.v ===== *)
(** * Scalar registers as text

    The names that register allocation prints for scalar registers
    ([WaveAMDRegisterLimits.cpp]) are parsed back by the wait pass
    ([WaveAMDMachineInstrInfo.cpp]) when it looks for the base of a load. *)

From Stdlib Require Import Ascii.
From stdpp Require Import base tactics list strings sets.
From S2P Require Import Prelude CostEnums ArchData MachineIR TicketIR.

Import RegisterText.
Open Scope char_scope.
Open Scope Z_scope.

Definition isDigit (c : ascii) : Prop := exists d, 0 <= d < 10 /\ c = digitChar d.

Lemma digit_cases c : isDigit c ->
  c ∈ ["0"; "1"; "2"; "3"; "4"; "5"; "6"; "7"; "8"; "9"].
Proof.
  intros (d & Hd & ->).
  assert (d = 0 \/ d = 1 \/ d = 2 \/ d = 3 \/ d = 4 \/ d = 5 \/ d = 6 \/ d = 7 \/ d = 8 \/ d = 9)
    as Hc by lia.
  repeat destruct Hc as [->|Hc]; try subst d; apply (bool_decide_unpack (_ ∈ _)); vm_compute; done.
Qed.

(** A digit is none of the characters that the parser looks for. *)
Lemma digit_not c e : isDigit c -> e ∈ ["s"; "["; ":"; "]"] -> c <> e.
Proof.
  intros Hc%digit_cases He.
  assert (Forall (fun e => Forall (fun c => c <> e)
    ["0"; "1"; "2"; "3"; "4"; "5"; "6"; "7"; "8"; "9"]) ["s"; "["; ":"; "]"]) as Hall
    by (apply (bool_decide_unpack (Forall _ _)); by vm_compute).
  rewrite Forall_forall in Hall. specialize (Hall e He). rewrite Forall_forall in Hall. auto.
Qed.

Lemma digit_not_space c : isDigit c -> isSpace c = false.
Proof.
  intros Hc%digit_cases.
  repeat (apply elem_of_cons in Hc as [->|Hc]; [by vm_compute|]). by apply elem_of_nil in Hc.
Qed.

Lemma decimalDigits_digits fuel : forall n, 0 <= n -> Forall isDigit (decimalDigits fuel n).
Proof.
  induction fuel as [|fuel IH]; intros n Hn; simpl; [constructor|].
  destruct (Z.ltb_spec n 10).
  - repeat constructor. by exists n.
  - apply Forall_app. split; [apply IH, Z.div_pos; lia|]. repeat constructor.
    exists (n mod 10). split; [apply Z.mod_pos_bound; lia|done].
Qed.

Lemma decimal_digits n : 0 <= n -> Forall isDigit (decimal n).
Proof. apply decimalDigits_digits. Qed.

(** The digits end in one, so that they are not empty. *)
Lemma decimal_last n : 0 <= n -> exists ds d, decimal n = ds ++ [d] /\ isDigit d.
Proof.
  intros Hn. pose proof (decimal_digits n Hn) as Hd. unfold decimal in *.
  remember (Z.to_nat n) as fuel eqn:Hf. clear Hf.
  cbn [decimalDigits] in *. destruct (n <? 10).
  - apply Forall_cons in Hd as [Hd _]. by exists [], (digitChar n).
  - apply Forall_app in Hd as [_ Hd]. apply Forall_cons in Hd as [Hd _].
    by exists (decimalDigits fuel (n / 10)), (digitChar (n mod 10)).
Qed.

(** ** The pieces of the parser *)

Lemma split_at c before after :
  Forall (fun x => x <> c) before -> split c (before ++ c :: after) = (before, after).
Proof.
  induction 1 as [|x before Hx _ IH]; simpl.
  - by rewrite decide_True.
  - by rewrite decide_False, IH.
Qed.

Lemma trimFront_id c text : isSpace c = false -> trimFront (c :: text) = c :: text.
Proof. intros Hc. simpl. by rewrite Hc. Qed.

(** Text that neither starts nor ends in a space. *)
Lemma trim_id c middle d :
  isSpace c = false -> isSpace d = false ->
  trim (c :: middle ++ [d]) = c :: middle ++ [d].
Proof.
  intros Hc Hd. unfold trim. rewrite trimFront_id by done.
  assert (reverse (c :: middle ++ [d]) = d :: reverse (c :: middle)) as Hr.
  { rewrite (app_comm_cons middle [d] c), reverse_app. done. }
  rewrite Hr, trimFront_id by done. by rewrite <-Hr, reverse_involutive.
Qed.

Lemma digits_apart e text :
  e ∈ ["s"; "["; ":"; "]"] -> Forall isDigit text -> Forall (fun x => x <> e) text.
Proof.
  intros He Ht. eapply Forall_impl; [exact Ht|]. intros x Hx. by apply digit_not.
Qed.

Section Roundtrip.
Context `{WaitLLVM}.
(** [StringRef::getAsInteger] reads the decimal digits of an [unsigned]. *)
Hypothesis getAsInteger_decimal : forall n, 0 <= n <= UINT_MAX ->
  getAsInteger (decimal n) = Some n.

Lemma parse_decimal n : 0 <= n <= UINT_MAX -> parseRegisterIndex (decimal n) = Some n.
Proof using getAsInteger_decimal.
  intros Hn. unfold parseRegisterIndex.
  destruct (decimal_last n) as (ds & d & Hds & _); [lia|].
  destruct (decimal n) as [|c text] eqn:Ht; [by destruct ds|]. rewrite <-Ht.
  rewrite getAsInteger_decimal by done.
  destruct (Z.ltb_spec n 0); [lia|]. simpl.
  destruct (Z.eqb_spec n INT64_MAX) as [Heq|]; [|done].
  unfold INT64_MAX, UINT_MAX in *. lia.
Qed.

(** The name that register allocation gives a tuple of scalar registers
    is parsed back as the span of that tuple. *)
Theorem sgpr_name_parses index width
    (Hi : 0 <= index) (Hw : 0 < width) (Hm : index + width - 1 <= UINT_MAX) :
  parseSGPRRegisterSpan (getWaveAMDSGPRName index width) =
  Some (mkSpan RegClass.SGPR index (index + width)).
Proof using getAsInteger_decimal.
  unfold getWaveAMDSGPRName, parseSGPRRegisterSpan.
  destruct (Z.eqb_spec width 1) as [->|Hne].
  - destruct (decimal_last index Hi) as (ds & d & Hds & Hd).
    rewrite Hds, trim_id; [|by vm_compute|by apply digit_not_space]. rewrite <-Hds.
    cbn [consumeFront]. rewrite decide_True by done.
    assert (consumeFront "[" (decimal index) = None) as ->.
    { pose proof (digits_apart "[" _ ltac:(set_solver) (decimal_digits index Hi)) as Hf.
      destruct (decimal index) as [|c text]; [done|]. simpl. rewrite decide_False; [done|].
      by apply Forall_cons in Hf as [? _]. }
    unfold parseSingleSGPRRegister. by rewrite parse_decimal by lia.
  - assert (u32 (index + width - 1) = index + width - 1) as ->
      by (apply Z.mod_small; unfold UINT_MAX in Hm; lia).
    set (last := index + width - 1) in *. assert (0 <= last) as Hl by (unfold last; lia).
    change (["s"; "["] ++ decimal index ++ [":"] ++ decimal last ++ ["]"])
      with ("s" :: "[" :: decimal index ++ ":" :: decimal last ++ ["]"]).
    assert (trim ("s" :: "[" :: decimal index ++ ":" :: decimal last ++ ["]"]) =
      "s" :: "[" :: decimal index ++ ":" :: decimal last ++ ["]"]) as ->.
    { pose proof (trim_id "s" ("[" :: decimal index ++ ":" :: decimal last) "]"
        eq_refl eq_refl) as Ht. rewrite <-!app_comm_cons, <-app_assoc in Ht. exact Ht. }
    cbn [consumeFront]. rewrite decide_True by done. cbv beta iota.
    cbn [consumeFront]. rewrite decide_True by done. cbv beta iota.
    unfold parseSGPRRegisterPair.
    rewrite split_at by (apply digits_apart; [set_solver|by apply decimal_digits]).
    cbv beta iota. rewrite split_at by (apply digits_apart; [set_solver|by apply decimal_digits]).
    rewrite !parse_decimal by lia. destruct (Z.ltb_spec last index); [lia|].
    do 2 f_equal. unfold last. lia.
Qed.
End Roundtrip.

(** ** A reader of decimal digits *)

Definition digitValue (c : ascii) : option Z :=
  let d := Z.of_N (N_of_ascii c) - 48 in
  if (0 <=? d) && (d <? 10) then Some d else None.
Definition readDecimal (text : Text) : option Z :=
  match text with
  | [] => None
  | _ => foldl (fun acc c =>
           acc ← acc; d ← digitValue c; Some (10 * acc + d)) (Some 0) text
  end.

Lemma digitValue_digitChar d : 0 <= d < 10 -> digitValue (digitChar d) = Some d.
Proof.
  intros Hd.
  assert (d = 0 \/ d = 1 \/ d = 2 \/ d = 3 \/ d = 4 \/ d = 5 \/ d = 6 \/ d = 7 \/ d = 8 \/ d = 9)
    as Hc by lia.
  by repeat destruct Hc as [->|Hc]; subst.
Qed.

Lemma readDecimal_decimal n : 0 <= n -> readDecimal (decimal n) = Some n.
Proof.
  intros Hn. destruct (decimal_last n Hn) as (ds & d & Hds & _).
  unfold readDecimal. destruct (decimal n) as [|c text] eqn:Ht; [by destruct ds|].
  rewrite <-Ht. clear c text ds d Ht Hds. unfold decimal.
  assert (n < Z.of_nat (S (Z.to_nat n))) as Hfuel by lia.
  remember (S (Z.to_nat n)) as fuel eqn:Hf. clear Hf.
  revert n Hn Hfuel. induction fuel as [|fuel IH]; intros n Hn Hfuel; [lia|].
  cbn [decimalDigits]. destruct (Z.ltb_spec n 10).
  - simpl. by rewrite digitValue_digitChar.
  - rewrite foldl_app, IH; [|apply Z.div_pos; lia|].
    + simpl. rewrite digitValue_digitChar by (apply Z.mod_pos_bound; lia). simpl. f_equal.
      pose proof (Z.div_mod n 10). lia.
    + apply Z.div_lt_upper_bound; lia.
Qed.
