(* ===== verification/TicketSound.v ===== *)
(** * The counters of the hardware, and the transfer that stays sound for them

    An abstract specification of the hardware that [WaveAMDMachineWaitcnt.cpp]
    inserts waits for: each counter has a queue of tickets, which complete in
    order except where the instruction set allows otherwise; a wait lets at most
    so many tickets be outstanding.  [sound] relates a wait state to a state of
    this hardware; time, waits, issues, derived tokens and barrier waits all
    preserve it. *)

From stdpp Require Import base tactics list sorting strings sets.
From S2P Require Import Prelude CostEnums ArchData MachineIR LatencyTable OpClassifier.
From S2P Require Import TicketIR TicketState TicketWaits TicketLattice TicketInv.
From S2P Require Import TicketDrain.

(** ** Queues of tickets *)

(** One outstanding count: the issue it belongs to, and whether the memory
    system has completed it. *)
Record Ticket : Type := mkTicket {
  tk_id : nat;
  tk_op : TicketOp;
  tk_done : bool
}.

Definition tk_event (k : Ticket) : WaitcntEvent.t := event (getWaitcntInfo (tk_op k)).

(** Queues are newest first; [deps] lists the issues that have to be complete
    before a value is there. *)
Record Machine : Type := mkMachine {
  queue : WaitcntCounter.t -> list Ticket;
  deps : N -> list nat;
  nextId : nat
}.

Definition initialMachine : Machine := mkMachine (fun _ => []) (fun _ => []) 0.

(** Which tickets of a counter may complete out of order: on [lgkmcnt] and
    [kmcnt], those of different kinds, and scalar loads among themselves. *)
Definition unordered (c : WaitcntCounter.t) (a b : Ticket) : Prop :=
  (c = WaitcntCounter.Lgkm \/ c = WaitcntCounter.Km) /\
  (tk_event a <> tk_event b \/ tk_event a = WaitcntEvent.Smem).

Definition inOrder (c : WaitcntCounter.t) (q : list Ticket) : Prop :=
  forall i j a b, (i < j)%nat -> q !! i = Some a -> q !! j = Some b ->
    tk_done a = true -> tk_done b = false -> unordered c a b.

(** A ticket completes; others of its queue may have completed before. *)
Definition sameTicket (k k' : Ticket) : Prop :=
  tk_id k = tk_id k' /\ tk_op k = tk_op k' /\ (tk_done k = true -> tk_done k' = true).

(** Time passes: tickets complete in an order that is allowed. *)
Record completes (m m' : Machine) : Prop := {
  completes_queue : forall c, Forall2 sameTicket (queue m c) (queue m' c);
  completes_order : forall c, inOrder c (queue m' c);
  completes_deps : deps m' = deps m;
  completes_nextId : nextId m' = nextId m
}.

Definition isPending (k : Ticket) : bool := negb (tk_done k).
Definition pendingCount (q : list Ticket) : Z :=
  Z.of_nat (length (base.filter (fun k => isPending k = true) q)).

(** What a wait instruction waits for. *)
Definition waited (req : WaitRequirement) (m : Machine) : Prop :=
  forall c n, req c = Some n -> pendingCount (queue m c) <= n.

(** ** Operations on the hardware *)

Definition push (c : WaitcntCounter.t) (count : nat) (op : TicketOp) (m : Machine) :
    Machine :=
  mkMachine
    (fun c' => if decide (c' = c)
               then replicate count (mkTicket (nextId m) op false) ++ queue m c'
               else queue m c')
    (deps m) (S (nextId m)).

(** The results of an operation get dependencies. *)
Definition define (results : list Value) (f : Value -> list nat) (m : Machine) :
    Machine :=
  mkMachine (queue m)
    (fun id => match list_find (fun v => value_id v = id) results with
               | Some (_, v) => f v
               | None => deps m id
               end)
    (nextId m).

Definition depsOf (m : Machine) (values : list Value) : list nat :=
  values ≫= fun v => deps m (value_id v).

(** An issue takes at least one count. *)
Definition issueTickets (op : TicketOp) : nat :=
  Z.to_nat (let n := issueCount (getWaitcntInfo op) in if n =? 0 then 1 else n).

Definition issueMachine (op : TicketOp) (target : WaitTarget) (m : Machine) : Machine :=
  match counterMapping target (event (getWaitcntInfo op)) with
  | Some mapping => push (completion mapping) (issueTickets op) op m
  | None => m
  end.

(** The memory token of a read is there when what it is ordered after is. *)
Definition orderedAfter (op : TicketOp) (m : Machine) (result : Value) : list nat :=
  if isReadOnlyIssuer op && isMemToken result
  then depsOf m (base.filter (fun v => isMemToken v = true) (op_operands op))
  else [].

(** The signal that a [s_barrier_wait] completes, and the counter it is on. *)
Definition completedSignal (definingOp : Value -> option TicketOp) (op : TicketOp)
    (target : WaitTarget) : option (TicketOp * WaitcntCounter.t) :=
  match op_kind op, op_operands op with
  | SBarrierWaitOp, arrival :: _ =>
      match definingOp arrival with
      | Some signal =>
          if negb (isSignalIsFirst signal)
             || negb (barrierScope signal =? barrierScope op) then None
          else (fun mapping => (signal, completion mapping))
                 <$> counterMapping target WaitcntEvent.SccWrite
      | None => None
      end
  | _, _ => None
  end.

(** The write of SCC by a signal. *)
Definition signalTicket (m : Machine) (signal : TicketOp) (k : Ticket) : bool :=
  bool_decide (tk_event k = WaitcntEvent.SccWrite)
  && (bool_decide (tk_id k ∈ depsOf m (op_results signal))
      || existsb (fun v => existsb (fun v' => (value_id v =? value_id v')%N)
                             (op_results signal)) (op_results (tk_op k))).

Definition retire (definingOp : Value -> option TicketOp) (op : TicketOp)
    (target : WaitTarget) (m : Machine) : Machine :=
  match completedSignal definingOp op target with
  | Some (signal, c) =>
      mkMachine
        (fun c' => if decide (c' = c)
                   then base.filter (fun k => signalTicket m signal k = false) (queue m c')
                   else queue m c')
        (deps m) (nextId m)
  | None => m
  end.

(** The barrier protocol: the signal that a barrier wait ends has one ticket, that
    of its last execution, and has written SCC when the wait is over. *)
Definition barrierOk (definingOp : Value -> option TicketOp) (op : TicketOp)
    (target : WaitTarget) (m : Machine) : Prop :=
  forall signal c, completedSignal definingOp op target = Some (signal, c) ->
    (forall i j a b, queue m c !! i = Some a -> queue m c !! j = Some b ->
       signalTicket m signal a = true -> signalTicket m signal b = true -> i = j) /\
    (forall k, k ∈ queue m c -> signalTicket m signal k = true ->
       tk_done k = true /\ tk_id k ∈ depsOf m (op_results signal)).

Definition machineStep (definingOp : Value -> option TicketOp) (op : TicketOp)
    (target : WaitTarget) (m : Machine) : Machine :=
  match classifyWaitOp op with
  | WaitOpKind.Issuer =>
      define (op_results op) (fun r => nextId m :: orderedAfter op m r)
        (issueMachine op target m)
  | WaitOpKind.BarrierIssuer =>
      define (op_results op) (fun _ => [nextId m]) (issueMachine op target m)
  | WaitOpKind.Barrier =>
      define (op_results op) (fun _ => depsOf m (op_operands op))
        (retire definingOp op target m)
  | WaitOpKind.CompletionNeutral | WaitOpKind.TokenOp =>
      define (op_results op) (fun _ => depsOf m (op_operands op)) m
  | _ => define (op_results op) (fun _ => []) m
  end.

(** ** What a wait state says *)

(** Some ticket at the index or older is outstanding. *)
Definition liveAt (q : list Ticket) (i : nat) : Prop :=
  exists j k, (i <= j)%nat /\ q !! j = Some k /\ tk_done k = false.

Record ticketCovered (t : Token) (i : nat) (k : Ticket) : Prop := {
  cov_position : position t <= Z.of_nat i;
  cov_events : bitsWithin (eventMask (tk_event k)) (events t);
  cov_outOfOrder : tk_event k = WaitcntEvent.Smem -> tok_outOfOrder t = true;
  cov_writes : isMemoryWriteIssuer (tk_op k) = true -> writesMemory t = true
}.

(** The state has a token of [id] on [c] that covers the ticket. *)
Definition hasToken (ts : list Token) (c : WaitcntCounter.t) (id : option Value)
    (i : nat) (k : Ticket) : Prop :=
  exists t, t ∈ ts /\ tokenKey t = tokenKey (lat.keyToken c id) /\ ticketCovered t i k.

Section Sound.
(** The operation that defines a value, and the value of an identity. *)
Context (definingOp : Value -> option TicketOp) (valueOf : N -> Value).

(** A value of the program: its identity determines it. *)
Definition inProgram (v : Value) : Prop := valueOf (value_id v) = v.

(** An operation of the program, in SSA form; scalar loads are marked to
    complete out of order. *)
Record opOk (op : TicketOp) : Prop := {
  ok_opWf : opWf inProgram op;
  ok_defining : forall v, v ∈ op_results op -> definingOp v = Some op;
  ok_operands : forall v, v ∈ op_operands op -> forall r, r ∈ op_results op ->
    value_id v <> value_id r;
  ok_call : callInterface op = true -> isSEndpgm op = false;
  ok_smem : event (getWaitcntInfo op) = WaitcntEvent.Smem ->
    outOfOrder (getWaitcntInfo op) = true
}.

(** The values in [D] are those whose definitions dominate the program point. *)
Record sound (D : Value -> Prop) (ts : list Token) (m : Machine) : Prop := {
  sound_order : forall c, inOrder c (queue m c);
  sound_tickets : forall c i k, c <> WaitcntCounter.X ->
    queue m c !! i = Some k -> liveAt (queue m c) i ->
    hasToken ts c None i k \/
    exists v, v ∈ op_results (tk_op k) /\ hasToken ts c (Some v) i k;
  sound_values : forall c i k v, c <> WaitcntCounter.X -> D v ->
    queue m c !! i = Some k -> liveAt (queue m c) i ->
    tk_id k ∈ deps m (value_id v) -> hasToken ts c (Some v) i k;
  sound_ops : forall c k, k ∈ queue m c ->
    opOk (tk_op k) /\ (tk_id k < nextId m)%nat /\ tk_event k <> WaitcntEvent.None;
  sound_deps : forall id n, n ∈ deps m id -> (n < nextId m)%nat
}.
End Sound.

(** ** The transfer keeps the wait state sound

    Every state that the pass computes describes the hardware that runs the
    operations with the waits of the pass: time, waits, issues, derived tokens
    and barrier waits all preserve [sound]. *)

(** ** Events and masks *)

Lemma two_bits m a b :
  (0 <= a < b)%Z -> Z.testbit m a = true -> Z.testbit m b = true ->
  hasMultipleEvents m = true.
Proof.
  intros Hab Ha Hb. unfold hasMultipleEvents.
  assert (m <> 0) as Hm by (intros ->; by rewrite Z.testbit_0_l in Ha).
  destruct (Z.eqb_spec m 0) as [|_]; [done|]. simpl. apply negb_true_iff, Z.eqb_neq.
  intros Hz.
  assert (Z.testbit (Z.land m (m - 1)) b = true) as Hbit; [|by rewrite Hz, Z.testbit_0_l in Hbit].
  rewrite Z.land_spec, Hb. simpl.
  assert (m mod 2 ^ b <> 0) as Hmod.
  { intros Hmod. apply Z.mod_divide in Hmod as [q ->]; [|lia].
    rewrite Z.mul_pow2_bits_low in Ha by lia. done. }
  assert (0 < 2 ^ b) as Hpow by lia.
  pose proof (Z.mod_pos_bound m (2 ^ b) Hpow) as Hr.
  rewrite Z.testbit_odd, Z.shiftr_div_pow2 in Hb |- * by lia.
  rewrite <-Hb. f_equal. symmetry. apply (Z.div_unique_pos _ _ _ (m mod 2 ^ b - 1)); [lia|].
  pose proof (Z.div_mod m (2 ^ b) ltac:(lia)). lia.
Qed.

Definition eventBit (ev : WaitcntEvent.t) : Z := Z.log2 (eventMask ev).

Lemma eventMask_bit ev : ev <> WaitcntEvent.None ->
  0 <= eventBit ev /\ forall m, bitsWithin (eventMask ev) m -> Z.testbit m (eventBit ev) = true.
Proof.
  intros Hev. split; [apply Z.log2_nonneg|]. intros m Hm. rewrite bitsWithin_testbit in Hm.
  apply Hm. by destruct ev.
Qed.

Lemma eventBit_inj e f : e <> WaitcntEvent.None -> f <> WaitcntEvent.None ->
  eventBit e = eventBit f -> e = f.
Proof. by destruct e, f. Qed.

Lemma two_events m e f :
  e <> WaitcntEvent.None -> f <> WaitcntEvent.None -> e <> f ->
  bitsWithin (eventMask e) m -> bitsWithin (eventMask f) m ->
  hasMultipleEvents m = true.
Proof.
  intros He Hf Hne Hem Hfm.
  destruct (eventMask_bit e He) as [Pe Be], (eventMask_bit f Hf) as [Pf Bf].
  destruct (Z.lt_trichotomy (eventBit e) (eventBit f)) as [Hlt|[Heq|Hlt]].
  - by apply (two_bits m (eventBit e) (eventBit f)); auto.
  - by apply eventBit_inj in Heq.
  - by apply (two_bits m (eventBit f) (eventBit e)); auto.
Qed.

Lemma smem_bit m : bitsWithin (eventMask WaitcntEvent.Smem) m ->
  hasBits m (eventMask WaitcntEvent.Smem) = true.
Proof. intros Hm. by eapply hasBits_within. Qed.

(** ** Pending tickets *)

Lemma pendingCount_cons k q :
  pendingCount (k :: q) = (if isPending k then 1 else 0) + pendingCount q.
Proof.
  unfold pendingCount. rewrite filter_cons. case_decide as Hk.
  - rewrite Hk. simpl. lia.
  - destruct (isPending k); [done|]. lia.
Qed.

Lemma pendingCount_nonneg q : 0 <= pendingCount q.
Proof. unfold pendingCount. lia. Qed.

(** A pending ticket that is waited for has a newer ticket that is done. *)
Lemma pending_newer q : forall j k,
  q !! j = Some k -> tk_done k = false -> pendingCount q <= Z.of_nat j ->
  exists a ka, (a < j)%nat /\ q !! a = Some ka /\ tk_done ka = true.
Proof.
  induction q as [|x q IH]; intros j k Hj Hk Hn; [done|].
  rewrite pendingCount_cons in Hn. pose proof (pendingCount_nonneg q) as Hq.
  destruct j as [|j]; simpl in Hj.
  { simplify_eq. unfold isPending in Hn. rewrite Hk in Hn. simpl in Hn. lia. }
  destruct (tk_done x) eqn:Hx.
  - exists 0%nat, x. split_and!; [lia|done|done].
  - unfold isPending in Hn. rewrite Hx in Hn. simpl in Hn.
    destruct (IH j k Hj Hk) as (a & ka & Ha & Hla & Hd); [lia|].
    exists (S a), ka. split_and!; [lia|done|done].
Qed.

Lemma pending_positive q j k :
  q !! j = Some k -> tk_done k = false -> 1 <= pendingCount q.
Proof.
  intros Hj Hk. destruct (Z.le_gt_cases 1 (pendingCount q)) as [|Hn]; [done|].
  revert j Hj. induction q as [|x q IH]; intros j Hj; [done|].
  rewrite pendingCount_cons in Hn. pose proof (pendingCount_nonneg q).
  destruct j as [|j]; simpl in Hj.
  - simplify_eq. unfold isPending in Hn. rewrite Hk in Hn. simpl in Hn. lia.
  - exfalso. assert (1 <= pendingCount q); [|destruct (isPending x); lia].
    eapply IH; [|exact Hj]. destruct (isPending x); lia.
Qed.

Lemma liveAt_le q i i' : (i <= i')%nat -> liveAt q i' -> liveAt q i.
Proof. intros Hi (j & k & Hj & Hl & Hd). exists j, k. split_and!; [lia|done|done]. Qed.

(** ** Coverage *)

Lemma ticketCovered_covers t t' i k :
  covers t' t -> ticketCovered t i k -> ticketCovered t' i k.
Proof.
  intros [_ Hp He Ho Hw] [Cp Ce Co Cw]. split; [lia|by eapply bitsWithin_trans|auto|auto].
Qed.

Lemma hasToken_below ts ts' c id i k :
  below covers ts ts' -> hasToken ts c id i k -> hasToken ts' c id i k.
Proof.
  intros Hb (t & Ht & Hk & Hc). destruct (Hb t Ht) as (t' & Ht' & Hcov).
  exists t'. split; [done|]. split; [by rewrite (covers_key _ _ Hcov)|].
  by eapply ticketCovered_covers.
Qed.

Lemma hasToken_counter ts c id i k :
  hasToken ts c id i k ->
  exists t, t ∈ ts /\ counter t = c /\ ticketCovered t i k.
Proof.
  intros (t & Ht & Hk & Hc). exists t. split_and!; [done| |done].
  by apply (tokenKey_counter t (lat.keyToken c id)).
Qed.

Section Sound.
Context (definingOp : Value -> option TicketOp) (valueOf : N -> Value).
Abbreviation sound := (sound definingOp valueOf).
Abbreviation inProgram := (inProgram valueOf).
Abbreviation opOk := (opOk definingOp valueOf).
Implicit Types op : TicketOp.

(** Coverage by any token of the counter. *)
Lemma sound_covered D ts m c i k :
  sound D ts m -> c <> WaitcntCounter.X ->
  queue m c !! i = Some k -> liveAt (queue m c) i ->
  exists t, t ∈ ts /\ counter t = c /\ ticketCovered t i k.
Proof using Type.
  intros Hs Hc Hk Hl. destruct (sound_tickets _ _ _ _ _ Hs c i k Hc Hk Hl)
    as [H|(v & _ & H)]; by eapply hasToken_counter.
Qed.

Lemma sound_event D ts m c i k :
  sound D ts m -> c <> WaitcntCounter.X ->
  queue m c !! i = Some k -> liveAt (queue m c) i ->
  bitsWithin (eventMask (tk_event k)) (lat.activeEventMask ts c) /\
  tk_event k <> WaitcntEvent.None.
Proof using Type.
  intros Hs Hc Hk Hl. destruct (sound_covered D ts m c i k Hs Hc Hk Hl)
    as (t & Ht & <- & [_ He _ _]).
  split; [eapply bitsWithin_trans; [exact He|by apply activeEventMask_elem]|].
  apply (sound_ops _ _ _ _ _ Hs (counter t) k). by eapply list_elem_of_lookup_2.
Qed.

(** A wait for the position of a token that covers a ticket leaves nothing
    outstanding at the ticket or older. *)
Lemma wait_reaches D ts m t i k n :
  sound D ts m -> counter t <> WaitcntCounter.X ->
  t ∈ ts -> ticketCovered t i k -> queue m (counter t) !! i = Some k ->
  pendingCount (queue m (counter t)) <= n -> n <= waitPosition ts t ->
  ~ liveAt (queue m (counter t)) i.
Proof using Type.
  intros Hs Hc Ht [Hp _ Hooo _] Hk Hn Hpos Hlive.
  pose proof Hlive as (j & kj & Hij & Hj & Hdone).
  pose proof (pending_positive _ _ _ Hj Hdone) as Hone.
  unfold waitPosition in Hpos.
  destruct (tok_outOfOrder t) eqn:Ho; [lia|].
  destruct (requiresZeroWait (counter t) _) eqn:Hz; [lia|].
  destruct (pending_newer _ j kj Hj Hdone) as (a & ka & Haj & Ha & Hda); [lia|].
  assert (liveAt (queue m (counter t)) a) as Hla
    by (exists j, kj; split_and!; [lia|done|done]).
  assert (liveAt (queue m (counter t)) j) as Hlj
    by (exists j, kj; split_and!; [lia|done|done]).
  destruct (sound_event D ts m _ i k Hs Hc Hk Hlive) as [Ei Ni].
  destruct (sound_event D ts m _ j kj Hs Hc Hj Hlj) as [Ej Nj].
  destruct (sound_event D ts m _ a ka Hs Hc Ha Hla) as [Ea Na].
  destruct (sound_order _ _ _ _ _ Hs (counter t) a j ka kj Haj Ha Hj Hda Hdone)
    as [Hcnt Hev].
  assert (hasMultipleEvents (lat.activeEventMask ts (counter t)) = true) as Hmulti.
  { destruct (decide (tk_event ka = tk_event kj)) as [Heq|Hne];
      [|by apply (two_events _ (tk_event ka) (tk_event kj))].
    destruct Hev as [Hev|Hev]; [done|].
    apply (two_events _ (tk_event k) (tk_event ka)); try done.
    intros Heq'. rewrite Hev in Heq'. specialize (Hooo Heq'). congruence. }
  unfold requiresZeroWait in Hz. rewrite Hmulti in Hz.
  destruct Hcnt as [Hcnt|Hcnt]; rewrite Hcnt in Hz; [done|].
  by rewrite orb_true_r in Hz.
Qed.

(** ** Time passes *)

Lemma completes_pending m m' c :
  completes m m' -> pendingCount (queue m' c) <= pendingCount (queue m c).
Proof using Type.
  intros [Hq _ _ _]. specialize (Hq c). induction Hq as [|k k' q q' [_ [_ Hd]] _ IH]; [done|].
  rewrite !pendingCount_cons. unfold isPending.
  destruct (tk_done k), (tk_done k'); simpl; try lia; by specialize (Hd eq_refl).
Qed.

Lemma waited_completes req m m' : completes m m' -> waited req m -> waited req m'.
Proof using Type.
  intros Hc Hw c n Hn. pose proof (completes_pending m m' c Hc). specialize (Hw c n Hn). lia.
Qed.

Lemma completes_lookup m m' c i k' :
  completes m m' -> queue m' c !! i = Some k' ->
  exists k, queue m c !! i = Some k /\ sameTicket k k'.
Proof using Type. intros [Hq _ _ _] Hk. by eapply Forall2_lookup_r. Qed.

Lemma completes_live m m' c i :
  completes m m' -> liveAt (queue m' c) i -> liveAt (queue m c) i.
Proof using Type.
  intros Hc (j & k' & Hij & Hj & Hd). destruct (completes_lookup m m' c j k' Hc Hj)
    as (k & Hk & (_ & _ & Hdone)). exists j, k. split_and!; [done|done|].
  destruct (tk_done k); [|done]. by rewrite Hdone in Hd.
Qed.

Lemma ticketCovered_same t i k k' :
  sameTicket k k' -> ticketCovered t i k -> ticketCovered t i k'.
Proof using Type.
  intros (_ & Hop & _) [Hp He Ho Hw]. unfold tk_event in *. rewrite Hop in *. by split.
Qed.

Lemma hasToken_same ts c id i k k' :
  sameTicket k k' -> hasToken ts c id i k -> hasToken ts c id i k'.
Proof using Type.
  intros Hs (t & Ht & Hk & Hc). exists t. split_and!; [done..|].
  by eapply ticketCovered_same.
Qed.

Lemma sound_completes D ts m m' : sound D ts m -> completes m m' -> sound D ts m'.
Proof using Type.
  intros [S1 S2 S3 S4 S5] Hc. split.
  - intros c. apply Hc.
  - intros c i k' Hx Hk' Hl. destruct (completes_lookup m m' c i k' Hc Hk') as (k & Hk & Hsame).
    pose proof Hsame as (Hid & Hop & _).
    destruct (S2 c i k Hx Hk (completes_live _ _ _ _ Hc Hl)) as [Ht|(v & Hv & Ht)].
    + left. by eapply hasToken_same.
    + right. exists v. split; [by rewrite <-Hop|]. by eapply hasToken_same.
  - intros c i k' v Hx HD Hk' Hl Hin.
    destruct (completes_lookup m m' c i k' Hc Hk') as (k & Hk & Hsame).
    pose proof Hsame as (Hid & Hop & _). eapply hasToken_same; [exact Hsame|].
    rewrite (completes_deps _ _ Hc), <-Hid in Hin.
    apply (S3 c); try done. by apply (completes_live m m').
  - intros c k' Hin. apply list_elem_of_lookup in Hin as (i & Hk').
    destruct (completes_lookup m m' c i k' Hc Hk') as (k & Hk & (Hid & Hop & _)).
    destruct (S4 c k) as (? & ? & ?); [by eapply list_elem_of_lookup_2|].
    rewrite (completes_nextId _ _ Hc). unfold tk_event in *. by rewrite <-Hid, <-Hop.
  - intros id n. rewrite (completes_deps _ _ Hc), (completes_nextId _ _ Hc). apply S5.
Qed.

(** ** Other tokens *)

(** A state stays sound when the tokens that cover live tickets have others
    that cover them. *)
Lemma sound_tokens (D : Value -> Prop) ts ts' m :
  sound D ts m ->
  (forall c id i k, c <> WaitcntCounter.X -> queue m c !! i = Some k ->
     liveAt (queue m c) i -> hasToken ts c id i k -> hasToken ts' c id i k) ->
  sound D ts' m.
Proof using Type.
  intros [S1 S2 S3 S4 S5] Ht. split; [done| | |done|done].
  - intros c i k Hx Hk Hl. destruct (S2 c i k Hx Hk Hl) as [?|(v & Hv & ?)].
    + left. by apply Ht.
    + right. exists v. split; [done|]. by apply Ht.
  - intros c i k v Hx HD Hk Hl Hin. apply Ht; auto.
Qed.

Lemma sound_below D ts ts' m : below covers ts ts' -> sound D ts m -> sound D ts' m.
Proof using Type.
  intros Hb Hs. apply (sound_tokens D ts); [done|]. intros. by eapply hasToken_below.
Qed.

(** Only the tokens off the X counter count. *)
Lemma sound_filtered D ts ts' m :
  (forall t, counter t <> WaitcntCounter.X -> t ∈ ts -> t ∈ ts') ->
  sound D ts m -> sound D ts' m.
Proof using Type.
  intros Hb Hs. apply (sound_tokens D ts); [done|].
  intros c id i k Hx _ _ (t & Ht & Hk & Hc). exists t. split_and!; [|done|done].
  apply Hb; [|done]. rewrite (tokenKey_counter t (lat.keyToken c id)) by done. done.
Qed.

Lemma sound_weaken (D D' : Value -> Prop) ts m :
  (forall v, D' v -> D v) -> sound D ts m -> sound D' ts m.
Proof using Type. intros HD [S1 S2 S3 S4 S5]. split; auto. Qed.

(** ** Waits *)

Lemma sound_wait target D ts m req :
  tokensWf inProgram target ts -> sound D ts m -> waited req m ->
  sound D (lat.applyWait ts req) m.
Proof using Type.
  intros Hwf Hs Hw. apply (sound_tokens D ts); [done|].
  intros c id i k Hx Hk Hl (t & Ht & Htk & Hcov).
  assert (counter t = c) as Hc by (by apply (tokenKey_counter t (lat.keyToken c id))).
  exists t. split_and!; [|done|done]. subst c.
  destruct (tokensWf_elem _ _ _ _ Hwf Ht) as [Hf [Hp _] _].
  apply applyWait_elem; [done|by apply (counter_all t target)|]. split; [done|].
  intros n Hn. destruct (drained _ n t) eqn:Hd; [|done]. exfalso.
  apply drained_position in Hd as [Hd _]; [|apply Hp].
  by apply (wait_reaches D ts m t i k n); auto.
Qed.
End Sound.
