(* ===== verification/TicketIssue.v ===== *)
(** * Issues, derived tokens and edges keep the wait state sound *)

From stdpp Require Import base tactics list strings sorting sets.
From S2P Require Import Prelude CostEnums ArchData MachineIR LatencyTable OpClassifier.
From S2P Require Import TicketIR TicketState TicketWaits TicketLattice TicketInv.
From S2P Require Import TicketDrain TicketSound.

(** ** Replacing tokens *)

(** What a token says besides its subject. *)
Definition says (e p : Z) (o w : bool) (t : Token) : Prop :=
  events t = e /\ position t = p /\ tok_outOfOrder t = o /\ writesMemory t = w.

Lemma replaceToken_says e p o w it tok :
  says e p o w tok -> says e p o w (lat.replaceToken it tok).2.
Proof.
  intros (<- & <- & <- & <-). unfold lat.replaceToken.
  destruct (Z.eqb_spec (events it) (events tok)); [|done].
  destruct (Z.eqb_spec (position it) (position tok)); [|done].
  destruct (tok_outOfOrder it) eqn:?, (tok_outOfOrder tok) eqn:?,
    (writesMemory it) eqn:?, (writesMemory tok) eqn:?; simpl; by split_and!.
Qed.

Lemma replaceAll_spec e p o w toks : forall ts, tokensSorted ts ->
  Forall (says e p o w) toks ->
  let r := (upsertAll sortKey sameKey lat.replaceToken ts toks).2 in
  tokensSorted r /\
  (forall t, t ∈ ts -> (forall tok, tok ∈ toks -> tokenKey tok <> tokenKey t) -> t ∈ r) /\
  (forall tok, tok ∈ toks \/ (tok ∈ ts /\ says e p o w tok) ->
     exists t, t ∈ r /\ tokenKey t = tokenKey tok /\ says e p o w t).
Proof.
  induction toks as [|tok toks IH]; intros ts Hs Htoks.
  { simpl. split_and!; [done|by auto|]. intros t [Ht|[Ht Hsays]].
    - by apply elem_of_nil in Ht.
    - by exists t. }
  apply Forall_cons in Htoks as [Htok Htoks]. rewrite upsertAll_cons.
  destruct (upsert_spec tokenKey sortKey sameKey sortKey_key sameKey_key
    lat.replaceToken ts tok Hs) as [Hs1 Hcase]; [intros it _; apply replaceToken_key|].
  destruct (upsert sortKey sameKey lat.replaceToken ts tok) as [c1 ts1]. simpl in Hs1, Hcase.
  assert ((forall t, t ∈ ts -> tokenKey tok <> tokenKey t -> t ∈ ts1) /\
    (exists t, t ∈ ts1 /\ tokenKey t = tokenKey tok /\ says e p o w t)) as [Hkeep Hnew].
  { destruct Hcase as [(it & Hit & Hk & _ & Hmem & _)|(_ & _ & Hmem)].
    - split.
      + intros t Ht Hne. apply Hmem. right. split; [done|congruence].
      + exists (lat.replaceToken it tok).2. split_and!; [apply Hmem; by left| |].
        * rewrite replaceToken_key; congruence.
        * by apply replaceToken_says.
    - split; [intros t Ht _; apply Hmem; by right|].
      exists tok. split_and!; [apply Hmem; by left|done|done]. }
  destruct (IH ts1 Hs1 Htoks) as (Hr & Hkr & Hnr).
  destruct (upsertAll sortKey sameKey lat.replaceToken ts1 toks) as [c2 r]. simpl in *.
  split_and!; [done| |].
  - intros t Ht Hne. apply Hkr; [apply Hkeep; [done|apply Hne; by left]|].
    intros u Hu. apply Hne. by right.
  - intros u [[->|Hu]%elem_of_cons|[Hu Hsays]].
    + destruct Hnew as (t & Ht & Hk & Hsays).
      destruct (Hnr t) as (t' & Ht' & Hk' & Hs'); [by right|].
      exists t'. split_and!; [done|congruence|done].
    + apply Hnr. by left.
    + destruct (decide (tokenKey tok = tokenKey u)) as [Heq|Hne].
      * destruct Hnew as (t & Ht & Hk & Hsays').
        destruct (Hnr t) as (t' & Ht' & Hk' & Hs'); [by right|].
        exists t'. split_and!; [done|congruence|done].
      * apply Hnr. right. auto.
Qed.

(** ** Aggregates *)

Record aggCovers (agg : lat.TokenAggregate) (t : Token) : Prop := {
  agg_cov_position : exists p, lat.agg_position agg = Some p /\ p <= position t;
  agg_cov_events : bitsWithin (events t) (lat.agg_events agg);
  agg_cov_outOfOrder : tok_outOfOrder t = true -> lat.agg_outOfOrder agg = true;
  agg_cov_writes : writesMemory t = true -> lat.agg_writesMemory agg = true
}.

Lemma mergeInto_covers agg t : aggCovers (lat.mergeInto agg t) t.
Proof.
  split; simpl; [|auto with tickets|by intros ->; apply orb_true_r..].
  unfold minSlot. destruct (lat.agg_position agg) as [q|]; eexists; (split; [done|]);
    [case_match|]; lia.
Qed.

Lemma mergeInto_mono agg t u : aggCovers agg u -> aggCovers (lat.mergeInto agg t) u.
Proof.
  intros [(p & Hp & Hle) He Ho Hw]. split; simpl.
  - rewrite Hp. simpl. eexists; split; [done|]. case_match; lia.
  - eapply bitsWithin_trans; [exact He|auto with tickets].
  - intros H. by rewrite Ho.
  - intros H. by rewrite Hw.
Qed.

Lemma mergeFold_covers (pick : Token -> bool) ts t : forall agg,
  (t ∈ ts /\ pick t = true) \/ aggCovers agg t ->
  aggCovers (fold_left (fun agg t => if pick t then lat.mergeInto agg t else agg) ts agg) t.
Proof.
  induction ts as [|u ts IH]; intros agg [[Ht Hp]|Hc]; simpl.
  - by apply elem_of_nil in Ht.
  - done.
  - apply IH. apply elem_of_cons in Ht as [->|Ht]; [|by left]. right. rewrite Hp.
    apply mergeInto_covers.
  - apply IH. right. case_match; [by apply mergeInto_mono|done].
Qed.

(** The token of an aggregate covers what the aggregate has seen. *)
Lemma aggregate_hasToken agg t c id i k :
  aggCovers agg t -> ticketCovered t i k -> hasToken (lat.aggregateToken id c agg) c id i k.
Proof.
  intros [(p & Hp & Hle) He Ho Hw] [Cp Ce Co Cw]. unfold lat.aggregateToken. rewrite Hp.
  eexists. split; [by apply list_elem_of_singleton|]. split; [done|].
  split; simpl; [lia|by eapply bitsWithin_trans|auto|auto].
Qed.

Lemma hasToken_sub ts ts' c id i k :
  (forall t, t ∈ ts -> t ∈ ts') -> hasToken ts c id i k -> hasToken ts' c id i k.
Proof. intros Hsub (t & Ht & ?). exists t. auto. Qed.

Lemma tokenKey_value t c v :
  tokenKey t = tokenKey (lat.keyToken c (Some v)) <->
  counter t = c /\ exists v', subject t = OfValue (Some v') /\ value_id v' = value_id v.
Proof.
  split.
  - intros Hk. pose proof (tokenKey_counter t (lat.keyToken c (Some v)) Hk) as Hc.
    split; [done|]. injection Hk as _ Hk. destruct (subject t) as [[v'|]|s|]; try done.
    + exists v'. split; [done|]. injection Hk as Hk. lia.
    + injection Hk as Hk. lia.
  - intros (<- & v' & Hs & Hid). unfold tokenKey. simpl. by rewrite Hs, <-Hid.
Qed.

Lemma isSourceToken_key c src t :
  tokenKey t = tokenKey (lat.keyToken c (Some src)) -> isSourceToken c src t = true.
Proof.
  intros (Hc & v' & Hs & Hid)%tokenKey_value. unfold isSourceToken. rewrite Hs.
  apply andb_true_iff. split; [by apply N.eqb_eq|by apply bool_decide_eq_true].
Qed.

Lemma tokenKey_id c v v' :
  value_id v = value_id v' ->
  tokenKey (lat.keyToken c (Some v)) = tokenKey (lat.keyToken c (Some v')).
Proof. intros Hid. unfold tokenKey. simpl. by rewrite Hid. Qed.

Lemma mergeSources_hasToken ts sources src result c i k :
  c ∈ allCounters -> src ∈ sources -> hasToken ts c (Some src) i k ->
  hasToken (lat.mergeSources ts sources result) c (Some result) i k.
Proof.
  intros Hc Hsrc (t & Ht & Hk & Hcov).
  assert (aggCovers (fold_left (lat.mergeSource ts c) sources lat.emptyAggregate) t) as Hagg.
  { generalize lat.emptyAggregate. revert Hsrc.
    assert (forall l agg, aggCovers agg t -> aggCovers (fold_left (lat.mergeSource ts c) l agg) t)
      as Hmono.
    { induction l as [|u l IH]; intros agg Ha; [done|]. simpl. apply IH.
      rewrite mergeSource_fold. apply mergeFold_covers. by right. }
    induction sources as [|u l IH]; intros Hin agg; [by apply elem_of_nil in Hin|]. simpl.
    apply elem_of_cons in Hin as [<-|Hin]; [|by apply IH]. apply Hmono.
    rewrite mergeSource_fold. apply mergeFold_covers. left. split; [done|].
    by apply isSourceToken_key. }
  eapply hasToken_sub; [|by apply (aggregate_hasToken _ t c (Some result) i k Hagg)].
  intros u Hu. unfold lat.mergeSources. apply list_elem_of_bind. by exists c.
Qed.

Lemma insertAllMin_below ts added :
  tokensSorted ts ->
  below covers ts (insertAllMin ts added) /\ below covers added (insertAllMin ts added).
Proof. intros Hs. destruct (tokens_join added ts Hs) as (_ & ? & ? & _). done. Qed.

(** ** Pushes *)

Lemma push_queue c n op m c' :
  queue (push c n op m) c' =
  if decide (c' = c) then replicate n (mkTicket (nextId m) op false) ++ queue m c'
  else queue m c'.
Proof. done. Qed.

Lemma push_lookup c n op m i k :
  queue (push c n op m) c !! i = Some k ->
  ((i < n)%nat /\ k = mkTicket (nextId m) op false) \/
  ((n <= i)%nat /\ queue m c !! (i - n)%nat = Some k).
Proof.
  rewrite push_queue, decide_True by done. intros Hk.
  destruct (decide (i < n)%nat) as [Hi|Hi].
  - left. rewrite lookup_app_l in Hk by (by rewrite length_replicate).
    split; [done|]. by apply lookup_replicate in Hk as [-> _].
  - right. rewrite lookup_app_r in Hk by (rewrite length_replicate; lia).
    rewrite length_replicate in Hk. split; [lia|done].
Qed.

Lemma push_live c n op m i :
  (n <= i)%nat -> liveAt (queue (push c n op m) c) i -> liveAt (queue m c) (i - n).
Proof.
  intros Hi (j & k & Hj & Hk & Hd). apply push_lookup in Hk as [[? ->]|[? Hk]]; [lia|].
  exists (j - n)%nat, k. split_and!; [lia|done|done].
Qed.

Lemma push_inOrder c n op m :
  (forall c, inOrder c (queue m c)) -> forall c', inOrder c' (queue (push c n op m) c').
Proof.
  intros Ho c' i j a b Hij Ha Hb Hda Hdb. destruct (decide (c' = c)) as [->|Hne].
  - apply push_lookup in Ha as [[? ->]|[? Ha]]; [done|].
    apply push_lookup in Hb as [[? ->]|[? Hb]]; [lia|].
    apply (Ho c (i - n)%nat (j - n)%nat); try done. lia.
  - rewrite push_queue, decide_False in Ha, Hb by done. by eapply (Ho c' i j).
Qed.

Lemma bumpCounter_sorted ts c n : tokensSorted ts -> tokensSorted (lat.bumpCounter ts c n).
Proof. apply keySorted_fmap. intros t. by destruct (decide (counter t <> c)). Qed.

Lemma bumpCounter_elem ts c n t :
  t ∈ ts -> counter t = c ->
  set_position (saturatingBump (position t) n) t ∈ lat.bumpCounter ts c n.
Proof.
  intros Ht Hc. apply list_elem_of_fmap. exists t. split; [|done].
  rewrite decide_False; [done|]. tauto.
Qed.

Lemma bumpCounter_other ts c n t :
  t ∈ ts -> counter t <> c -> t ∈ lat.bumpCounter ts c n.
Proof.
  intros Ht Hc. apply list_elem_of_fmap. exists t. by rewrite decide_True.
Qed.

Lemma bump_covered t i n k :
  0 <= n -> ticketCovered t i k ->
  ticketCovered (set_position (saturatingBump (position t) n) t) (i + Z.to_nat n) k.
Proof.
  intros Hn [Cp Ce Co Cw]. split; simpl; [|done..].
  unfold saturatingBump. case_match; lia.
Qed.

Section Issue.
Context (definingOp : Value -> option TicketOp) (valueOf : N -> Value).
Abbreviation sound := (sound definingOp valueOf).
Abbreviation inProgram := (inProgram valueOf).
Abbreviation opOk := (opOk definingOp valueOf).
Implicit Types op : TicketOp.

(** Values that an operation does not redefine. *)
Definition apart op (v : Value) : Prop :=
  forall r, r ∈ op_results op -> value_id v <> value_id r.

(** What an issue records of itself. *)
Abbreviation issued op :=
  (says (eventMask (event (getWaitcntInfo op))) 0 (outOfOrder (getWaitcntInfo op))
     (isMemoryWriteIssuer op)).

Lemma issued_covered op t i k :
  opOk op -> tk_op k = op -> issued op t -> ticketCovered t i k.
Proof using Type.
  intros Hop Hk (He & Hp & Ho & Hw). split.
  - lia.
  - unfold tk_event. rewrite Hk, He. apply bitsWithin_refl.
  - unfold tk_event. rewrite Hk, Ho. by apply (ok_smem _ _ _ Hop).
  - rewrite Hk, Hw. done.
Qed.

Definition recordTokens op (c : WaitcntCounter.t) (ts : list Token) : list Token :=
  (lat.issue ts c (issueCount (getWaitcntInfo op))
     (eventMask (event (getWaitcntInfo op))) (outOfOrder (getWaitcntInfo op))
     (isMemoryWriteIssuer op) (op_results op)).2.

Lemma same_op op op' v v' :
  opOk op -> opOk op' -> v ∈ op_results op -> v' ∈ op_results op' ->
  value_id v = value_id v' -> op = op'.
Proof using Type.
  intros H1 H2 Hv Hv' Hid.
  pose proof (wf_results _ _ (ok_opWf _ _ _ H1)) as F1.
  pose proof (wf_results _ _ (ok_opWf _ _ _ H2)) as F2.
  rewrite Forall_forall in F1, F2. specialize (F1 v Hv). specialize (F2 v' Hv').
  unfold TicketSound.inProgram in F1, F2. assert (v = v') as -> by congruence.
  pose proof (ok_defining _ _ _ H1 v' Hv). pose proof (ok_defining _ _ _ H2 v' Hv').
  congruence.
Qed.

(** The tokens of earlier tickets after an issue. *)
Lemma recordTokens_old op c ts c' id i k :
  opOk op -> tokensSorted ts -> hasToken ts c' id i k ->
  (forall v r, c' = c -> id = Some v -> r ∈ op_results op ->
     value_id v = value_id r -> tk_op k = op) ->
  hasToken (recordTokens op c ts) c' id
    (if decide (c' = c) then i + issueTickets op else i)%nat k.
Proof using Type.
  intros Hop Hs (t & Ht & Hk & Hcov) Hsame.
  pose proof (tokenKey_counter t _ Hk) as Htc. simpl in Htc.
  pose proof (wf_issueCount _ _ (ok_opWf _ _ _ Hop)) as Hn.
  set (n := if issueCount (getWaitcntInfo op) =? 0 then 1
            else issueCount (getWaitcntInfo op)).
  assert (0 <= n) as Hn0 by (unfold n; case_match; lia).
  assert (hasToken (lat.bumpCounter ts c n) c' id
            (if decide (c' = c) then i + issueTickets op else i)%nat k) as Hb.
  { case_decide as Hc.
    - subst c'. exists (set_position (saturatingBump (position t) n) t).
      split_and!; [by apply bumpCounter_elem|done|by apply bump_covered].
    - exists t. split_and!; [|done|done]. apply bumpCounter_other; [done|congruence]. }
  assert (tokensSorted (lat.bumpCounter ts c n)) as Hsb.
  { by apply bumpCounter_sorted. }
  unfold recordTokens, lat.issue. fold n. destruct (op_results op) as [|r rs] eqn:Hres.
  - eapply hasToken_below; [|exact Hb].
    by apply (upsert_join tokenKey sortKey sameKey covers lat.minToken sortKey_key sameKey_key).
  - rewrite <-Hres in *. clear r rs Hres. cbv zeta.
    set (toks := _ <$> op_results op).
    assert (Forall (issued op) toks) as Htoks by (by apply Forall_fmap, Forall_forall).
    destruct (replaceAll_spec _ _ _ _ toks _ Hsb Htoks) as (_ & Hkeep & Hnew).
    destruct Hb as (u & Hu & Huk & Hucov).
    destruct (decide (tokenKey u ∈ tokenKey <$> toks)) as [Hin|Hout].
    + apply list_elem_of_fmap in Hin as (tok & Htk & Htok).
      destruct (Hnew tok) as (u' & Hu' & Hk' & Hsays); [by left|].
      exists u'. split_and!; [done|congruence|]. apply (issued_covered op); [done| |done].
      apply list_elem_of_fmap in Htok as (r & -> & Hr).
      change (tokenKey u = tokenKey (lat.keyToken c (Some r))) in Htk.
      rewrite Huk in Htk. injection Htk as Hcc Hid. apply counterValue_inj in Hcc.
      destruct id as [v|]; simpl in Hid; [|lia].
      apply (Hsame v r); [done|done|done|lia].
    + exists u. split_and!; [|done|done]. apply Hkeep; [done|].
      intros tok Htok Heq. apply Hout. apply list_elem_of_fmap. by exists tok.
Qed.

(** The tokens of the tickets of an issue. *)
Lemma recordTokens_new op c ts i k :
  opOk op -> tokensSorted ts -> tk_op k = op ->
  (op_results op = [] -> hasToken (recordTokens op c ts) c None i k) /\
  (forall r, r ∈ op_results op -> hasToken (recordTokens op c ts) c (Some r) i k).
Proof using Type.
  intros Hop Hs Hk. unfold recordTokens, lat.issue.
  set (b := lat.bumpCounter ts c _).
  assert (tokensSorted b) as Hsb.
  { by apply bumpCounter_sorted. }
  destruct (op_results op) as [|r rs] eqn:Hres.
  - split; [intros _|intros r Hr; by apply elem_of_nil in Hr].
    pose proof (upsert_join tokenKey sortKey sameKey covers lat.minToken sortKey_key
      sameKey_key b (mkToken (OfValue None) (eventMask (event (getWaitcntInfo op))) 0 c
        (outOfOrder (getWaitcntInfo op)) (isMemoryWriteIssuer op)) Hsb)
      as (_ & _ & (t & Ht & Hcov) & _).
    exists t. split_and!; [done|by rewrite (covers_key _ _ Hcov)|].
    eapply ticketCovered_covers; [exact Hcov|]. by apply (issued_covered op).
  - rewrite <-Hres. split; [by rewrite Hres|]. intros v Hv. cbv zeta.
    set (toks := _ <$> op_results op).
    assert (Forall (issued op) toks) as Htoks by (by apply Forall_fmap, Forall_forall).
    destruct (replaceAll_spec _ _ _ _ toks _ Hsb Htoks) as (_ & _ & Hnew).
    destruct (Hnew (mkToken (OfValue (Some v)) (eventMask (event (getWaitcntInfo op))) 0 c
        (outOfOrder (getWaitcntInfo op)) (isMemoryWriteIssuer op))) as (t & Ht & Htk & Hsays).
    { left. apply list_elem_of_fmap. by exists v. }
    exists t. split_and!; [done|done|]. by apply (issued_covered op).
Qed.

Lemma hasToken_later ts c id i j k :
  (i <= j)%nat -> hasToken ts c id i k -> hasToken ts c id j k.
Proof using Type.
  intros Hij (t & Ht & Hk & [Cp Ce Co Cw]). exists t. split_and!; [done|done|].
  split; [lia|done..].
Qed.

(** An issue: the new tickets are in front of the queue. *)
Lemma push_sound (D : Value -> Prop) ts m op c :
  opOk op -> tokensSorted ts -> event (getWaitcntInfo op) <> WaitcntEvent.None ->
  sound D ts m ->
  sound (fun v => D v /\ apart op v) (recordTokens op c ts) (push c (issueTickets op) op m).
Proof using Type.
  intros Hop Hts Hev Hs. pose proof Hs as [S1 S2 S3 S4 S5].
  assert (forall c' i k, queue (push c (issueTickets op) op m) c' !! i = Some k ->
    liveAt (queue (push c (issueTickets op) op m) c') i ->
    (c' = c /\ k = mkTicket (nextId m) op false) \/
    exists i', queue m c' !! i' = Some k /\ liveAt (queue m c') i' /\
      i = (if decide (c' = c) then i' + issueTickets op else i')%nat) as Hold.
  { intros c' i k Hk Hl. destruct (decide (c' = c)) as [->|Hne].
    - destruct (push_lookup _ _ _ _ _ _ Hk) as [[? ->]|[Hi Hk']]; [by left|]. right.
      exists (i - issueTickets op)%nat.
      split_and!; [done|by eapply push_live|lia].
    - right. exists i. rewrite push_queue, decide_False in Hk, Hl by done. done. }
  split.
  - by apply push_inOrder.
  - intros c' i k Hx Hk Hl. destruct (Hold c' i k Hk Hl) as [[-> ->]|(i' & Hk' & Hl' & ->)].
    + destruct (recordTokens_new op c ts i (mkTicket (nextId m) op false) Hop Hts eq_refl)
        as [Hnone Hsome].
      destruct (op_results op) as [|r rs] eqn:Hres; [left; auto|].
      right. exists r. simpl. rewrite Hres. split; [by left|]. apply Hsome. by left.
    + assert (opOk (tk_op k)) as Hopk by (apply (S4 c'); by eapply list_elem_of_lookup_2).
      destruct (S2 c' i' k Hx Hk' Hl') as [Ht|(v & Hv & Ht)].
      * left. by apply recordTokens_old.
      * right. exists v. split; [done|]. apply recordTokens_old; [done..|].
        intros v' r _ [= <-] Hr Hid. by apply (same_op _ _ v r).
  - intros c' i k v Hx [HD Hap] Hk Hl Hin.
    destruct (Hold c' i k Hk Hl) as [[-> ->]|(i' & Hk' & Hl' & ->)].
    + simpl in Hin. apply S5 in Hin. lia.
    + apply recordTokens_old; [done..|by apply (S3 c')|].
      intros v' r _ [= <-] Hr Hid. by destruct (Hap r Hr).
  - intros c' k Hk. apply list_elem_of_lookup in Hk as (i & Hk).
    rewrite push_queue in Hk. case_decide as Hc.
    + rewrite <-(decide_True (P := c' = c) (replicate (issueTickets op)
        (mkTicket (nextId m) op false) ++ queue m c') (queue m c')) in Hk by done.
      subst c'. apply (push_lookup c (issueTickets op) op m) in Hk as [[_ ->]|[_ Hk]].
      * simpl. split_and!; [done|lia|done].
      * apply list_elem_of_lookup_2 in Hk. destruct (S4 c k Hk) as (? & ? & ?).
        simpl. split_and!; [done|lia|done].
    + apply list_elem_of_lookup_2 in Hk. destruct (S4 c' k Hk) as (? & ? & ?).
      simpl. split_and!; [done|lia|done].
  - intros id n Hin. apply S5 in Hin. simpl. lia.
Qed.

(** ** Definitions of values *)

Lemma hasToken_id ts c v v' i k :
  value_id v = value_id v' -> hasToken ts c (Some v) i k -> hasToken ts c (Some v') i k.
Proof using Type.
  intros Hid (t & Ht & Hk & Hc). exists t. split_and!; [done| |done].
  by rewrite Hk, (tokenKey_id c v v').
Qed.

(** The results of an operation get dependencies that tokens cover. *)
Lemma define_sound (D D' : Value -> Prop) ts m results f :
  sound D ts m ->
  (forall v, D' v -> D v \/ exists r, r ∈ results /\ value_id v = value_id r) ->
  (forall r n, r ∈ results -> n ∈ f r -> (n < nextId m)%nat) ->
  (forall r c i k, r ∈ results -> c <> WaitcntCounter.X ->
     queue m c !! i = Some k -> liveAt (queue m c) i -> tk_id k ∈ f r ->
     hasToken ts c (Some r) i k) ->
  sound D' ts (define results f m).
Proof using Type.
  intros [S1 S2 S3 S4 S5] HD Hn Hf. split; [done|done| |done|].
  - intros c i k v Hx Hv Hk Hl Hin. simpl in *.
    destruct (list_find (fun u => value_id u = value_id v) results) as [[j r]|] eqn:Hfind.
    + apply list_find_Some in Hfind as (Hr & Hid & _).
      eapply hasToken_id; [exact Hid|]. apply Hf; try done. by eapply list_elem_of_lookup_2.
    + apply list_find_None in Hfind. rewrite Forall_forall in Hfind.
      apply S3; [done| |done..].
      destruct (HD v Hv) as [?|(r & Hr & Hid)]; [done|]. by destruct (Hfind r Hr).
  - intros id n Hin. simpl in *.
    destruct (list_find (fun u => value_id u = id) results) as [[j r]|] eqn:Hfind;
      [|by eapply S5].
    apply list_find_Some in Hfind as (Hr & _ & _). eapply (Hn r); [|done].
    by eapply list_elem_of_lookup_2.
Qed.

(** Results that are available at once. *)
Lemma define_none_sound (D : Value -> Prop) ts m results :
  sound D ts m -> sound (fun v => D v \/ v ∈ results) ts (define results (fun _ => []) m).
Proof using Type.
  intros Hs. apply (define_sound D); [done| | |].
  - intros v [?|Hv]; [by left|]. right. by exists v.
  - intros r n _ Hin. by apply elem_of_nil in Hin.
  - intros r c i k _ _ _ _ Hin. by apply elem_of_nil in Hin.
Qed.

Lemma depsOf_elem m values n :
  n ∈ depsOf m values <-> exists v, v ∈ values /\ n ∈ deps m (value_id v).
Proof using Type.
  unfold depsOf. rewrite list_elem_of_bind. split; intros (v & ? & ?); by exists v.
Qed.

(** ** Derived tokens *)

(** The fold over the results of an operation, of those that [pick] picks. *)
Definition deriveTokens (pick : Value -> bool) (sources results : list Value)
    (ts : list Token) : list Token :=
  fold_left (fun toks result =>
    if negb (pick result) then toks
    else insertAllMin toks (lat.mergeSources toks sources result)) results ts.

Lemma deriveTokens_spec pick target sources results : forall ts,
  Forall inProgram results -> tokensWf inProgram target ts ->
  let r := deriveTokens pick sources results ts in
  tokensWf inProgram target r /\ below covers ts r /\
  (forall v u c i k, v ∈ results -> pick v = true -> u ∈ sources -> c ∈ allCounters ->
     hasToken ts c (Some u) i k -> hasToken r c (Some v) i k).
Proof using Type.
  induction results as [|v results IH]; intros ts Hres Hts.
  { simpl. split_and!; [done|reflexivity|]. intros v u c i k Hv. by apply elem_of_nil in Hv. }
  apply Forall_cons in Hres as [Hv Hres]. simpl.
  destruct (pick v) eqn:Hpick; simpl.
  - set (ts1 := insertAllMin ts _).
    assert (tokensWf inProgram target ts1) as Hts1 by (by apply derive_wf).
    destruct (insertAllMin_below ts (lat.mergeSources ts sources v)) as [B1 B2]; [apply Hts|].
    fold ts1 in B1, B2.
    destruct (IH ts1 Hres Hts1) as (Hw & Hb & Ht). split_and!; [done|by etransitivity|].
    intros w u c i k [->|Hw']%elem_of_cons Hp Hu Hc Htok.
    + eapply hasToken_below; [exact Hb|]. eapply hasToken_below; [exact B2|].
      by eapply mergeSources_hasToken.
    + apply (Ht w u); [done..|]. eapply hasToken_below; [exact B1|done].
  - destruct (IH ts Hres Hts) as (Hw & Hb & Ht). split_and!; [done|done|].
    intros w u c i k [->|Hw']%elem_of_cons Hp; [congruence|]. by apply Ht.
Qed.

Lemma deriveResultTokens_eq op ts :
  deriveResultTokens op ts = deriveTokens (fun _ => true) (op_operands op) (op_results op) ts.
Proof using Type. done. Qed.

Lemma deriveIssuerDependencyTokens_eq op ts :
  deriveIssuerDependencyTokens op ts =
  if isReadOnlyIssuer op
  then match base.filter (fun v => isMemToken v = true) (op_operands op) with
       | [] => ts
       | sources => deriveTokens isMemToken sources (op_results op) ts
       end
  else ts.
Proof using Type.
  unfold deriveIssuerDependencyTokens. destruct (isReadOnlyIssuer op); [|done]. simpl.
  by destruct (base.filter (fun v => isMemToken v = true) (op_operands op)).
Qed.

(** Every ticket of a sound state is on a counter of the target. *)
Lemma hasToken_all target ts c id i k :
  tokensWf inProgram target ts -> hasToken ts c id i k -> c ∈ allCounters.
Proof using Type.
  intros Hwf (t & Ht & Hk & _).
  assert (counter t = c) as <- by (by apply (tokenKey_counter t (lat.keyToken c id))).
  destruct (tokensWf_elem _ _ _ _ Hwf Ht) as [Hf _ _]. by apply (counter_all t target).
Qed.

(** An operation that hands its operands' tokens to its results. *)
Lemma deriveResult_sound target (D : Value -> Prop) ts m op :
  opOk op -> tokensWf inProgram target ts -> sound D ts m ->
  (forall v, v ∈ op_operands op -> D v) ->
  sound (fun v => D v \/ v ∈ op_results op) (deriveResultTokens op ts)
    (define (op_results op) (fun _ => depsOf m (op_operands op)) m).
Proof using Type.
  intros Hop Hts Hs HD. rewrite deriveResultTokens_eq.
  destruct (deriveTokens_spec (fun _ => true) target (op_operands op) (op_results op) ts)
    as (Hw & Hb & Ht); [apply (ok_opWf _ _ _ Hop)|done|].
  apply (define_sound D); [by eapply sound_below| | |].
  - intros v [?|Hv]; [by left|]. right. by exists v.
  - intros r n _ (v & _ & Hin)%depsOf_elem. by eapply (sound_deps _ _ _ _ _ Hs).
  - intros r c i k Hr Hx Hk Hl (v & Hv & Hin)%depsOf_elem.
    assert (hasToken ts c (Some v) i k) as Htok by (apply (sound_values _ _ _ _ _ Hs c); auto).
    apply (Ht r v); [done|done|done| |done].
    by apply (hasToken_all target ts c (Some v) i k).
Qed.

(** ** Issuers *)

(** The tokens of an issuer on its completion counter, derived ones included. *)
Lemma issuer_sound (D : Value -> Prop) ts m op c
    (derived : list Token -> list Token) (after : Value -> list nat) :
  opOk op -> tokensSorted ts -> event (getWaitcntInfo op) <> WaitcntEvent.None ->
  sound D ts m -> (forall v, v ∈ op_operands op -> D v) ->
  (forall c' id i k, c' <> WaitcntCounter.X -> hasToken (recordTokens op c ts) c' id i k ->
     hasToken (derived (recordTokens op c ts)) c' id i k) ->
  (forall r n, r ∈ op_results op -> n ∈ after r ->
     exists u, u ∈ op_operands op /\ n ∈ deps m (value_id u) /\
       forall c' i k, c' <> WaitcntCounter.X ->
         hasToken (recordTokens op c ts) c' (Some u) i k ->
         hasToken (derived (recordTokens op c ts)) c' (Some r) i k) ->
  sound (fun v => D v \/ v ∈ op_results op) (derived (recordTokens op c ts))
    (define (op_results op) (fun r => nextId m :: after r)
       (push c (issueTickets op) op m)).
Proof using Type.
  intros Hop Hts Hev Hs HD Hb Hafter.
  pose proof (push_sound D ts m op c Hop Hts Hev Hs) as Hp.
  assert (forall u, u ∈ op_operands op -> D u /\ apart op u) as Hap.
  { intros u Hu. split; [auto|]. intros r Hr. by apply (ok_operands _ _ _ Hop). }
  eapply (define_sound _ _ _ (push c (issueTickets op) op m));
    [eapply sound_tokens; [exact Hp|auto]| | |].
  - intros v Hv. destruct (decide (Exists (fun r => value_id v = value_id r) (op_results op)))
      as [He|He].
    + right. by apply Exists_exists in He.
    + left. destruct Hv as [Hv|Hv].
      * split; [done|]. intros r Hr Heq. apply He, Exists_exists. by exists r.
      * exfalso. apply He, Exists_exists. by exists v.
  - intros r n Hr [->|Hin]%elem_of_cons; simpl; [lia|].
    destruct (Hafter r n Hr Hin) as (u & _ & Hd & _). apply (sound_deps _ _ _ _ _ Hs) in Hd. lia.
  - intros r c' i k Hr Hx Hk Hl [Hid|Hin]%elem_of_cons.
    + apply Hb; [done|].
      assert (c' = c /\ tk_op k = op) as [-> Hop'].
      { rewrite push_queue in Hk. case_decide as Hc.
        - subst c'. destruct (push_lookup c (issueTickets op) op m i k) as [[_ ->]|[_ Hk']];
            [by rewrite push_queue, decide_True|done|].
          apply list_elem_of_lookup_2 in Hk'.
          destruct (sound_ops _ _ _ _ _ Hs c k Hk') as (_ & ? & _). lia.
        - apply list_elem_of_lookup_2 in Hk.
          destruct (sound_ops _ _ _ _ _ Hs c' k Hk) as (_ & ? & _). lia. }
      by apply (recordTokens_new op c ts i k Hop Hts Hop').
    + destruct (Hafter r _ Hr Hin) as (u & Hu & Hd & Htok). apply Htok; [done|].
      apply (sound_values _ _ _ _ _ Hp c'); auto.
Qed.
End Issue.

(** ** The end of a barrier wait keeps the wait state sound

    [s_barrier_wait] completes the SCC write of the signal that it waits for:
    [dropIssuedEvent] takes the event off the signal's tokens and moves the
    tokens of older operations one place up. *)

(** ** Removal of the signal's ticket *)

Lemma filter_none {A} (S : A -> bool) (q : list A) :
  (forall i a, q !! i = Some a -> S a = false) ->
  base.filter (fun k => S k = false) q = q.
Proof.
  induction q as [|x q IH]; intros Hq; [done|]. rewrite filter_cons, decide_True.
  - f_equal. apply IH. intros i a Hi. by apply (Hq (Datatypes.S i)).
  - by apply (Hq 0%nat).
Qed.

(** Removing at most one element keeps the order of the others. *)
Lemma filter_embeds {A} (S : A -> bool) (q : list A) :
  (forall i j a b, q !! i = Some a -> q !! j = Some b -> S a = true -> S b = true -> i = j) ->
  exists f : nat -> nat,
    (forall i j, (i < j)%nat -> (f i < f j)%nat) /\
    (forall i, base.filter (fun k => S k = false) q !! i = q !! f i) /\
    (forall i, f i = i \/
       (f i = Datatypes.S i /\ exists s a, (s <= i)%nat /\ q !! s = Some a /\ S a = true)).
Proof.
  induction q as [|x q IH]; intros Hone.
  { exists (fun i => i). split_and!; [done|done|by left]. }
  rewrite filter_cons. destruct (S x) eqn:Hx.
  - rewrite decide_False by done. exists Datatypes.S. split_and!; [lia| |].
    + intros i. simpl. rewrite filter_none; [done|]. intros j a Ha.
      destruct (S a) eqn:Hsa; [|done]. by specialize (Hone 0%nat (Datatypes.S j) x a eq_refl Ha Hx Hsa).
    + intros i. right. split; [done|]. exists 0%nat, x. split_and!; [lia|done|done].
  - rewrite decide_True by done. destruct IH as (f & Hmono & Hlook & Hshape).
    { intros i j a b Ha Hb Hsa Hsb.
      by specialize (Hone (Datatypes.S i) (Datatypes.S j) a b Ha Hb Hsa Hsb) as [= ->]. }
    exists (fun i => match i with O => O | Datatypes.S i => Datatypes.S (f i) end). split_and!.
    + intros [|i] [|j] Hij; try lia. specialize (Hmono i j). lia.
    + intros [|i]; [done|]. simpl. apply Hlook.
    + intros [|i]; [by left|]. destruct (Hshape i) as [->|(-> & s & a & Hs & Ha & Hsa)].
      * by left.
      * right. split; [done|]. exists (Datatypes.S s), a. split_and!; [lia|done|done].
Qed.

Lemma pendingCount_filter (S : Ticket -> bool) q :
  pendingCount (base.filter (fun k => S k = false) q) <= pendingCount q.
Proof.
  induction q as [|x q IH]; [done|]. rewrite filter_cons, pendingCount_cons.
  case_decide; [rewrite pendingCount_cons|]; destruct (isPending x); lia.
Qed.

(** ** The tokens after the completion *)

Section Drop.
Context (c : WaitcntCounter.t) (ids : list Value).
Let mask := eventMask WaitcntEvent.SccWrite.
Let matches (t : Token) : bool := lat.matchesIssuedEvent t c ids mask.

Lemma eventMask_pow e : e <> WaitcntEvent.None -> eventMask e = 2 ^ eventBit e.
Proof using Type. by destruct e. Qed.

Lemma event_remains e ev :
  e <> WaitcntEvent.None -> e <> WaitcntEvent.SccWrite -> bitsWithin (eventMask e) ev ->
  bitsWithin (eventMask e) (Z.land ev (Z.lnot mask)).
Proof using Type.
  intros He Hne Hb. rewrite bitsWithin_testbit in Hb |- *. intros i Hi.
  rewrite Z.land_spec, Hb by done.
  destruct (Z.ltb_spec i 0) as [Hneg|Hpos]; [by rewrite Z.testbit_neg_r in Hi|].
  rewrite Z.lnot_spec by done. simpl. apply negb_true_iff.
  rewrite eventMask_pow, Z.pow2_bits_eqb in Hi by (done || apply Z.log2_nonneg).
  apply Z.eqb_eq in Hi as <-. by destruct e.
Qed.

Lemma event_nonzero e ev :
  e <> WaitcntEvent.None -> bitsWithin (eventMask e) ev -> ev <> 0.
Proof using Type.
  intros He Hb ->. destruct (eventMask_bit e He) as [_ H]. specialize (H 0 Hb).
  by rewrite Z.testbit_0_l in H.
Qed.

Lemma completedPosition_le ts t :
  t ∈ ts -> matches t = true ->
  exists p, lat.completedPosition ts c ids mask = Some p /\ p <= position t.
Proof using Type.
  intros Ht Hm. unfold lat.completedPosition.
  assert (forall ts acc, (t ∈ ts \/ exists q, acc = Some q /\ q <= position t) ->
    exists p, fold_left (fun completed token =>
      if lat.matchesIssuedEvent token c ids mask
      then minSlot completed (position token) else completed) ts acc = Some p
      /\ p <= position t) as H; [|by apply H; left].
  clear ts Ht. induction ts as [|u ts IH]; intros acc [Ht|(q & -> & Hq)]; simpl.
  - by apply elem_of_nil in Ht.
  - by exists q.
  - apply IH. apply elem_of_cons in Ht as [<-|Ht]; [|by left]. right.
    unfold matches in Hm. rewrite Hm. unfold minSlot.
    destruct acc; eexists; (split; [done|]); [case_match|]; lia.
  - apply IH. right. case_match; [|by exists q]. simpl.
    eexists. split; [done|]. case_match; lia.
Qed.

Lemma dropIssued_elem ts t :
  t ∈ ts ->
  let ev := if matches t then Z.land (events t) (Z.lnot mask) else events t in
  ev <> 0 ->
  exists t', t' ∈ lat.dropIssuedEvent ts c ids WaitcntEvent.SccWrite /\
    tokenKey t' = tokenKey t /\ events t' = ev /\
    tok_outOfOrder t' = tok_outOfOrder t /\ writesMemory t' = writesMemory t /\
    position t' <= position t /\
    (forall p, lat.completedPosition ts c ids mask = Some p -> counter t = c ->
       p < position t -> position t' = position t - 1).
Proof using Type.
  intros Ht ev Hev. set (t1 := if matches t then set_events ev t else t).
  assert (tokenKey t1 = tokenKey t) as Hk.
  { unfold t1, matches. destruct (lat.matchesIssuedEvent t c ids mask) eqn:Hm; [|done].
    apply tokenKey_value_events. unfold lat.matchesIssuedEvent, lat.tokenId in Hm.
    unfold isSource. by destruct (subject t); rewrite ?andb_false_r in Hm. }
  assert (events t1 = ev) as He by (unfold t1, ev; by destruct (matches t)).
  assert (t1 ∈ eraseIf (fun token => events token =? 0)
    ((fun token => if lat.matchesIssuedEvent token c ids mask
                   then set_events (Z.land (events token) (Z.lnot mask)) token
                   else token) <$> ts)) as Hin.
  { apply elem_of_eraseIf. split; [|rewrite He; by apply Z.eqb_neq].
    apply list_elem_of_fmap. exists t. split; [|done]. unfold t1, ev, matches.
    by destruct (lat.matchesIssuedEvent t c ids mask). }
  assert (position t1 = position t /\ counter t1 = counter t /\
    tok_outOfOrder t1 = tok_outOfOrder t /\ writesMemory t1 = writesMemory t)
    as (Hp & Hc & Ho & Hw) by (unfold t1; by destruct (matches t)).
  unfold lat.dropIssuedEvent. fold mask. cbv zeta.
  destruct (lat.completedPosition ts c ids mask) as [p|] eqn:Hcomp.
  - eexists. split; [apply list_elem_of_fmap; exists t1; split; [reflexivity|exact Hin]|].
    destruct (bool_decide (counter t1 = c) && (p <? position t1)) eqn:Hb.
    + simpl. rewrite <-Hp. split_and!; try done. lia.
    + rewrite Hp. split_and!; try done; try lia. intros q [= <-] Hcc Hlt. exfalso.
      rewrite Hc, Hp in Hb. rewrite bool_decide_true in Hb by done.
      apply Z.ltb_lt in Hlt. by rewrite Hlt in Hb.
  - exists t1. split_and!; try done. lia.
Qed.

(** A ticket that is not the signal's stays covered, at its new place. *)
Lemma dropIssued_hasToken ts c' id i i' k :
  hasToken ts c' id i k -> tk_event k <> WaitcntEvent.None ->
  (forall v r, c' = c -> id = Some v -> r ∈ ids -> value_id v = value_id r ->
     tk_event k <> WaitcntEvent.SccWrite) ->
  (i' = i \/ (c' = c /\ i = S i' /\
     exists p, lat.completedPosition ts c ids mask = Some p /\ p <= Z.of_nat i')) ->
  hasToken (lat.dropIssuedEvent ts c ids WaitcntEvent.SccWrite) c' id i' k.
Proof using Type.
  intros (t & Ht & Hk & [Cp Ce Co Cw]) Hev Hscc Hi.
  pose proof (tokenKey_counter t (lat.keyToken c' id) Hk) as Hc. simpl in Hc.
  assert (bitsWithin (eventMask (tk_event k))
    (if matches t then Z.land (events t) (Z.lnot mask) else events t)) as Hbits.
  { destruct (matches t) eqn:Hm; [|done]. unfold matches, lat.matchesIssuedEvent in Hm.
    apply andb_true_iff in Hm as [Hm _]. apply andb_true_iff in Hm as [Hcc Hm].
    apply bool_decide_eq_true in Hcc. unfold lat.tokenId in Hm.
    destruct (subject t) as [[v|]|s|] eqn:Hs; try done.
    apply existsb_exists in Hm as (r & Hr & Hid%N.eqb_eq). apply list_elem_of_In in Hr.
    apply event_remains; [done| |done].
    destruct id as [w|].
    - apply tokenKey_value in Hk as (_ & v' & Hv' & Hid'). rewrite Hs in Hv'. simplify_eq.
      by apply (Hscc w r); [|..|congruence].
    - exfalso. injection Hk as _ Hk. rewrite Hs in Hk. injection Hk. lia. }
  destruct (dropIssued_elem ts t Ht) as (t' & Ht' & Hk' & He & Ho & Hw & Hp & Hdec).
  { by eapply event_nonzero. }
  exists t'. split_and!; [done|congruence|]. split.
  - destruct Hi as [->|(-> & -> & p & Hcomp & Hle)]; [lia|].
    destruct (Z.le_gt_cases (position t) (Z.of_nat i')) as [|Hgt]; [lia|].
    rewrite (Hdec p Hcomp Hc) by lia. lia.
  - by rewrite He.
  - rewrite Ho. done.
  - rewrite Hw. done.
Qed.
End Drop.

(** ** The barrier wait *)

Section Retire.
Context (definingOp : Value -> option TicketOp) (valueOf : N -> Value).
Abbreviation sound := (sound definingOp valueOf).
Implicit Types (op signal : TicketOp) (m : Machine) (k a : Ticket).

Lemma applyBarrierWaitCompletion_eq op ts target :
  applyBarrierWaitCompletion definingOp op ts target =
  match completedSignal definingOp op target with
  | Some (signal, c) => lat.dropIssuedEvent ts c (op_results signal) WaitcntEvent.SccWrite
  | None => ts
  end.
Proof using Type.
  unfold applyBarrierWaitCompletion, completedSignal.
  destruct (op_kind op); try done. destruct (op_operands op) as [|arrival vs]; [done|].
  destruct (definingOp arrival) as [signal|]; [|done].
  destruct (negb (isSignalIsFirst signal) || negb (barrierScope signal =? barrierScope op)); [done|].
  by destruct (counterMapping target WaitcntEvent.SccWrite).
Qed.

(** The queues after the retirement are the queues before it at other indices. *)
Definition retiredQueue (m : Machine) (signal : TicketOp) (c c' : WaitcntCounter.t) :
    list Ticket :=
  if decide (c' = c) then base.filter (fun k => signalTicket m signal k = false) (queue m c')
  else queue m c'.

Abbreviation completed ts c signal :=
  (lat.completedPosition ts c (op_results signal) (eventMask WaitcntEvent.SccWrite)).

(** The ticket of the signal has a token that gives the completed position. *)
Lemma signal_position (D : Value -> Prop) ts m signal c s a :
  sound D ts m -> c <> WaitcntCounter.X -> (forall v, v ∈ op_results signal -> D v) ->
  queue m c !! s = Some a -> liveAt (queue m c) s ->
  signalTicket m signal a = true -> tk_id a ∈ depsOf m (op_results signal) ->
  exists p, completed ts c signal = Some p /\ p <= Z.of_nat s.
Proof using Type.
  intros Hs Hcx HD Ha Hl Hsa (v & Hv & Hdep)%depsOf_elem.
  destruct (sound_values _ _ _ _ _ Hs c s a v Hcx (HD v Hv) Ha Hl Hdep)
    as (t & Ht & Hk & [Cp Ce _ _]).
  destruct (completedPosition_le c (op_results signal) ts t Ht) as (p & Hp & Hle).
  - apply tokenKey_value in Hk as (Hc & v' & Hsub & Hid).
    unfold lat.matchesIssuedEvent, lat.tokenId. rewrite Hsub.
    rewrite bool_decide_true by done. simpl. apply andb_true_iff. split.
    + apply existsb_exists. exists v. split; [by apply list_elem_of_In|]. by apply N.eqb_eq.
    + unfold signalTicket in Hsa. apply andb_true_iff in Hsa as [Hev _].
      apply bool_decide_eq_true in Hev. rewrite Hev in Ce. by eapply hasBits_within.
  - exists p. split; [done|lia].
Qed.

Record retireMap (ts : list Token) (m : Machine) (signal : TicketOp)
    (c c' : WaitcntCounter.t) (g : nat -> nat) : Prop := {
  map_mono : forall i j, (i < j)%nat -> (g i < g j)%nat;
  map_lookup : forall i, retiredQueue m signal c c' !! i = queue m c' !! g i;
  map_place : forall i, liveAt (queue m c') (g i) -> i = g i \/ (c' = c /\ g i = S i /\
    exists p, completed ts c signal = Some p /\ p <= Z.of_nat i)
}.

Lemma retire_map (D : Value -> Prop) ts m op target signal c c' :
  sound D ts m -> barrierOk definingOp op target m ->
  completedSignal definingOp op target = Some (signal, c) -> c <> WaitcntCounter.X ->
  (forall v, v ∈ op_results signal -> D v) -> exists g, retireMap ts m signal c c' g.
Proof using Type.
  intros Hs Hbar Hsig Hcx HD. destruct (Hbar signal c Hsig) as [Hone Hdone].
  unfold retiredQueue. destruct (decide (c' = c)) as [->|Hne].
  - destruct (filter_embeds (signalTicket m signal) (queue m c) Hone)
      as (f & Hmono & Hlook & Hshape).
    exists f. split; [done|intros i; unfold retiredQueue; by rewrite decide_True|].
    intros i Hl. destruct (Hshape i) as [?|(Hfi & s & a & Hsi & Ha & Hsa)]; [by left|]. right.
    split_and!; [done|done|].
    destruct (Hdone a (list_elem_of_lookup_2 _ _ _ Ha) Hsa) as [_ Hdep].
    destruct (signal_position D ts m signal c s a) as (p & Hp & Hle); try done.
    { eapply liveAt_le; [|exact Hl]. lia. }
    exists p. split; [done|lia].
  - exists (fun i => i). split; [done|intros i; unfold retiredQueue; by rewrite decide_False|].
    by left.
Qed.

Lemma retireMap_live ts m signal c c' g i :
  retireMap ts m signal c c' g -> liveAt (retiredQueue m signal c c') i ->
  liveAt (queue m c') (g i).
Proof using Type.
  intros [Hg Hq _] (j & k & Hij & Hj & Hd). exists (g j), k. rewrite Hq in Hj.
  split_and!; [|done|done]. destruct (decide (i = j)) as [->|]; [done|].
  specialize (Hg i j). lia.
Qed.

(** What is left in the queue is not the signal's, by tag or by dependence. *)
Lemma retired_other m signal c i k v r :
  retiredQueue m signal c c !! i = Some k ->
  v ∈ op_results (tk_op k) \/ tk_id k ∈ deps m (value_id v) ->
  r ∈ op_results signal -> value_id v = value_id r ->
  tk_event k <> WaitcntEvent.SccWrite.
Proof using Type.
  intros Hk Htag Hr Hid Hscc. unfold retiredQueue in Hk. rewrite decide_True in Hk by done.
  apply list_elem_of_lookup_2, list_elem_of_filter in Hk as [Hk _].
  unfold signalTicket in Hk. rewrite bool_decide_true in Hk by done. simpl in Hk.
  apply orb_false_iff in Hk as [H1 H2]. apply bool_decide_eq_false in H1.
  destruct Htag as [Hv|Hdep].
  - assert (existsb (fun v => existsb (fun v' => (value_id v =? value_id v')%N)
      (op_results signal)) (op_results (tk_op k)) = true); [|congruence].
    apply existsb_exists. exists v. split; [by apply list_elem_of_In|].
    apply existsb_exists. exists r. split; [by apply list_elem_of_In|by apply N.eqb_eq].
  - apply H1, depsOf_elem. exists r. by rewrite <-Hid.
Qed.

Lemma retire_sound target (D : Value -> Prop) ts m op :
  sound D ts m -> barrierOk definingOp op target m ->
  (forall signal c, completedSignal definingOp op target = Some (signal, c) ->
     c <> WaitcntCounter.X /\ forall v, v ∈ op_results signal -> D v) ->
  sound D (applyBarrierWaitCompletion definingOp op ts target)
    (retire definingOp op target m).
Proof using Type.
  intros Hs Hbar HD. rewrite applyBarrierWaitCompletion_eq. unfold retire.
  destruct (completedSignal definingOp op target) as [[signal c]|] eqn:Hsig; [|done].
  destruct (HD signal c eq_refl) as [Hcx HDv].
  pose proof (fun c' => retire_map D ts m op target signal c c' Hs Hbar Hsig Hcx HDv) as Hmap.
  pose proof Hs as [S1 S2 S3 S4 S5].
  assert (forall c' i k id i0, queue m c' !! i0 = Some k -> retiredQueue m signal c c' !! i = Some k ->
    hasToken ts c' id i0 k ->
    (forall v, id = Some v -> v ∈ op_results (tk_op k) \/ tk_id k ∈ deps m (value_id v)) ->
    i = i0 \/ (c' = c /\ i0 = S i /\ exists p, completed ts c signal = Some p /\ p <= Z.of_nat i) ->
    hasToken (lat.dropIssuedEvent ts c (op_results signal) WaitcntEvent.SccWrite) c' id i k)
    as Hdrop.
  { intros c' i k id i0 Hk0 Hk Ht Htag Hi. eapply dropIssued_hasToken; [exact Ht| | |done].
    - apply (S4 c'). by eapply list_elem_of_lookup_2.
    - intros v r Hc Hid Hr Hv. subst c'. eapply retired_other; try done. by apply Htag. }
  split; simpl; fold (retiredQueue m signal c).
  - intros c' i j a b Hij Ha Hb. destruct (Hmap c') as (g & [Hg Hq _]).
    change (retiredQueue m signal c c' !! i = Some a) in Ha.
    change (retiredQueue m signal c c' !! j = Some b) in Hb.
    rewrite Hq in Ha, Hb. apply (S1 c' (g i) (g j)); auto.
  - intros c' i k Hx Hk Hl. destruct (Hmap c') as (g & Hg).
    pose proof (retireMap_live _ _ _ _ _ _ _ Hg Hl) as Hl'. pose proof Hk as Hk'.
    change (retiredQueue m signal c c' !! i = Some k) in Hk'. rewrite (map_lookup _ _ _ _ _ _ Hg) in Hk'.
    destruct (S2 c' (g i) k Hx Hk' Hl') as [Ht|(v & Hv & Ht)].
    + left. eapply (Hdrop c' i k None (g i)); try done. by apply (map_place _ _ _ _ _ _ Hg).
    + right. exists v. split; [done|]. eapply (Hdrop c' i k (Some v) (g i)); try done.
      * intros u [= <-]. by left.
      * by apply (map_place _ _ _ _ _ _ Hg).
  - intros c' i k v Hx HDD Hk Hl Hin. destruct (Hmap c') as (g & Hg).
    pose proof (retireMap_live _ _ _ _ _ _ _ Hg Hl) as Hl'. pose proof Hk as Hk'.
    change (retiredQueue m signal c c' !! i = Some k) in Hk'. rewrite (map_lookup _ _ _ _ _ _ Hg) in Hk'.
    eapply (Hdrop c' i k (Some v) (g i)); try done.
    + by apply (S3 c').
    + intros u [= <-]. by right.
    + by apply (map_place _ _ _ _ _ _ Hg).
  - intros c' k Hk. apply (S4 c'). case_decide; [|done].
    by apply list_elem_of_filter in Hk as [_ ?].
  - exact S5.
Qed.

Lemma retire_waited op target m req :
  waited req m -> waited req (retire definingOp op target m).
Proof using Type.
  intros Hw. unfold retire. destruct (completedSignal definingOp op target) as [[signal c]|];
    [|done]. intros c' n Hn. simpl. specialize (Hw c' n Hn).
  case_decide; [|done]. pose proof (pendingCount_filter (signalTicket m signal) (queue m c')). lia.
Qed.
End Retire.
