(* ===== verification/TicketMain.v ===== *)
(** * The inserted waits are sufficient

    The transfer of every operation and every edge keeps the wait state sound;
    so, when an operation executes after the waits that the pass puts before it,
    everything that it depends on is complete. *)

From stdpp Require Import base tactics list strings sorting sets.
From S2P Require Import Prelude CostEnums ArchData MachineIR LatencyTable.
From S2P Require Import OpClassifier TicketIR TicketState TicketWaits TicketLattice.
From S2P Require Import TicketInv TicketDrain TicketSound TicketIssue.

(** The hardware at an operation: it waits for the wait that the pass emits, and
    for what a wait operation says. *)
Definition stalls `{WaitLLVM} (op : TicketOp) (target : WaitTarget)
    (wait : option Wait) (m : Machine) : Prop :=
  (forall req expertReq, wait = Some (req, expertReq) -> waited req m) /\
  (forall req, isWaitcntOp op = true -> observedCounts op target = Ok req -> waited req m).

(** Control passes along an edge: the destinations get the operands. *)
Definition passValues (operands destinations : list Value) (m : Machine) : Machine :=
  mkMachine (queue m)
    (fun id => match list_find (fun od => value_id od.2 = id) (zip operands destinations) with
               | Some (_, (operand, _)) => deps m (value_id operand)
               | None => deps m id
               end)
    (nextId m).

Section Main.
Context `{LLVMTarget} `{WaitLLVM}.
Context (definingOp : Value -> option TicketOp) (valueOf : N -> Value).
Context (target : WaitTarget).
Abbreviation sound := (sound definingOp valueOf).
Abbreviation inProgram := (inProgram valueOf).
Abbreviation opOk := (opOk definingOp valueOf).
Abbreviation stateWf := (stateWf inProgram target).
Implicit Types op : TicketOp.
Implicit Types D : Value -> Prop.

(** ** The parts of a transfer *)

Lemma applyDrain_sound D op st w st' m :
  stateWf st -> sound D (tokens st) m ->
  applyDrain definingOp op st target = Ok (w, st') -> waited w.1 m ->
  sound D (tokens st') m.
Proof using Type.
  intros Hwf Hs Hd Hw. apply applyDrain_inv in Hd as (req0 & _ & _ & _ & ->).
  eapply sound_wait; [by apply Hwf|done|done].
Qed.

Lemma finishTransfer_inv op w st w' st' :
  finishTransfer op w st target = Ok (w', st') ->
  w' = w /\ forall t, counter t <> WaitcntCounter.X -> t ∈ tokens st -> t ∈ tokens st'.
Proof using Type.
  unfold finishTransfer. intros Hf. apply outcome_bind_Ok in Hf as (ex & _ & [= <- <-]).
  split; [done|]. intros t Hx Ht. unfold applyImplicitXDrain.
  destruct (waitXcnt target && implicitlyDrainsXcnt op); [|done]. simpl.
  apply elem_of_eraseIf. split; [done|]. by apply bool_decide_eq_false.
Qed.

Lemma finishTransfer_sound D op w st w' st' m :
  sound D (tokens st) m -> finishTransfer op w st target = Ok (w', st') ->
  sound D (tokens st') m.
Proof using Type.
  intros Hs [_ Hf]%finishTransfer_inv. by eapply sound_filtered.
Qed.

Lemma applyImplicitXGroupSwitch_keeps op ts t :
  counter t <> WaitcntCounter.X -> t ∈ ts -> t ∈ applyImplicitXGroupSwitch op ts target.
Proof using Type.
  intros Hx Ht. unfold applyImplicitXGroupSwitch. repeat case_match; try done;
    by apply dropXGroup_keeps.
Qed.

(** ** Issuers *)

Lemma issueSources_keeps ts count mask ooo sources execSource t :
  tokensSorted ts -> counter t <> WaitcntCounter.X -> t ∈ ts ->
  t ∈ (lat.issueSources ts WaitcntCounter.X count mask ooo sources execSource).2.
Proof using Type.
  intros Hs Hx Ht. unfold lat.issueSources. cbv zeta.
  destruct (replaceAll_spec mask 0 ooo false
    ((if execSource then [mkToken OfExec mask 0 WaitcntCounter.X ooo false] else [])
     ++ ((fun unit => mkToken (OfSource unit) mask 0 WaitcntCounter.X ooo false)
           <$> (sources ≫= lat.spanUnits)))
    (lat.bumpCounter ts WaitcntCounter.X (if count =? 0 then 1 else count)))
    as (_ & Hkeep & _); [by apply bumpCounter_sorted| |].
  - apply Forall_app. split; [by destruct execSource; repeat constructor|].
    by apply Forall_fmap, Forall_forall.
  - apply Hkeep; [by apply bumpCounter_other|]. intros tok Htok Heq.
    apply tokenKey_counter in Heq. apply Hx. rewrite <-Heq.
    apply elem_of_app in Htok as [Htok|Htok].
    + destruct execSource; [|by apply elem_of_nil in Htok].
      by apply list_elem_of_singleton in Htok as ->.
    + by apply list_elem_of_fmap in Htok as (u & -> & _).
Qed.

Lemma source_X ev mapping :
  counterMapping target ev = Some mapping -> source mapping <> WaitcntCounter.None ->
  source mapping = WaitcntCounter.X.
Proof using Type.
  unfold counterMapping, getWaitcntCounterMapping. case_decide; [by intros [= <-]|].
  intros Hm Hs. assert (exists rules x, findCounterMapping ev rules x = Some mapping) as (r & x & Hf).
  { case_decide; eauto. }
  apply findCounterMapping_spec in Hf as (rule & _ & _ & _ & Hsrc). rewrite Hsrc in Hs |- *.
  by destruct (x && usesXSource rule).
Qed.

Lemma recordIssue_keeps op ts mapping t :
  counterMapping target (event (getWaitcntInfo op)) = Some mapping ->
  tokensSorted (recordTokens op (completion mapping) ts) ->
  counter t <> WaitcntCounter.X -> t ∈ recordTokens op (completion mapping) ts ->
  t ∈ recordIssue op ts target.
Proof using Type.
  intros Hm Hs Hx Ht. unfold recordIssue. rewrite Hm. case_decide as Hsrc; [done|].
  rewrite (source_X _ _ Hm Hsrc). by apply issueSources_keeps.
Qed.

Lemma validateWaitEvent_mapping op :
  validateWaitEvent op target = Ok tt -> event (getWaitcntInfo op) <> WaitcntEvent.None ->
  exists mapping, counterMapping target (event (getWaitcntInfo op)) = Some mapping.
Proof using Type.
  unfold validateWaitEvent. intros Hv Hev.
  destruct (counterMapping target (event (getWaitcntInfo op))) as [mapping|]; [by exists mapping|].
  unfold isIssuer in Hv. rewrite bool_decide_true in Hv by done. done.
Qed.

Lemma hasToken_keeps ts ts' c id i k :
  (forall t, counter t <> WaitcntCounter.X -> t ∈ ts -> t ∈ ts') ->
  c <> WaitcntCounter.X -> hasToken ts c id i k -> hasToken ts' c id i k.
Proof using Type.
  intros Hsub Hx (t & Ht & Hk & Hc). exists t. split_and!; [|done|done].
  apply Hsub; [|done]. pose proof (tokenKey_counter t (lat.keyToken c id) Hk) as Htc.
  simpl in Htc. congruence.
Qed.

(** An issue, with the derived tokens of an issuer. *)
Lemma recordIssue_sound (derives : bool) D ts m op :
  opOk op -> tokensWf inProgram target ts ->
  event (getWaitcntInfo op) <> WaitcntEvent.None -> validateWaitEvent op target = Ok tt ->
  sound D ts m -> (forall v, v ∈ op_operands op -> D v) ->
  sound (fun v => D v \/ v ∈ op_results op)
    (if derives then deriveIssuerDependencyTokens op (recordIssue op ts target)
     else recordIssue op ts target)
    (define (op_results op)
       (fun r => nextId m :: if derives then orderedAfter op m r else [])
       (issueMachine op target m)).
Proof using Type.
  intros Hop Hwf Hev Hval Hs HD.
  destruct (validateWaitEvent_mapping op Hval Hev) as (mapping & Hm).
  unfold issueMachine. rewrite Hm. set (c := completion mapping).
  pose proof (wf_issueCount _ _ (ok_opWf _ _ _ Hop)) as Hn.
  assert (tokensWf inProgram target (recordTokens op c ts)) as Hrec.
  { apply issue_wf; [by apply (counterMapping_family _ _ _ Hm Hev)|done| |by apply Hop|done].
    destruct (event (getWaitcntInfo op)); simpl; lia. }
  assert (tokensWf inProgram target (recordIssue op ts target)) as Hiss
    by (apply recordIssue_wf; [done|apply Hop|done]).
  assert (forall c' id i k, c' <> WaitcntCounter.X -> hasToken (recordTokens op c ts) c' id i k ->
    hasToken (recordIssue op ts target) c' id i k) as Hkeep.
  { intros c' id i k Hx. apply hasToken_keeps; [|done].
    intros t. eapply recordIssue_keeps; [exact Hm|apply Hrec]. }
  set (sources := base.filter (fun v => isMemToken v = true) (op_operands op)).
  destruct (deriveTokens_spec valueOf isMemToken target sources (op_results op)
    (recordIssue op ts target)) as (_ & Hbel & Hder); [apply (ok_opWf _ _ _ Hop)|done|].
  apply (issuer_sound definingOp valueOf D ts m op c
    (fun _ => if derives then deriveIssuerDependencyTokens op (recordIssue op ts target)
              else recordIssue op ts target)); try done; [apply Hwf| |].
  - intros c' id i k Hx Htok. specialize (Hkeep c' id i k Hx Htok).
    destruct derives; [|done]. rewrite deriveIssuerDependencyTokens_eq. fold sources.
    destruct (isReadOnlyIssuer op); [|done]. destruct sources as [|u us]; [done|].
    by eapply hasToken_below.
  - intros r n Hr Hin. destruct derives; [|by apply elem_of_nil in Hin].
    unfold orderedAfter in Hin. fold sources in Hin.
    rewrite deriveIssuerDependencyTokens_eq. fold sources.
    destruct (isReadOnlyIssuer op); [|by apply elem_of_nil in Hin].
    destruct (isMemToken r) eqn:Hmem; [|by apply elem_of_nil in Hin].
    apply depsOf_elem in Hin as (u & Hu & Hd). exists u.
    pose proof Hu as Hu'. apply list_elem_of_filter in Hu' as [_ Hu'].
    split_and!; [done|done|]. intros c' i k Hx Htok. specialize (Hkeep c' _ i k Hx Htok).
    pose proof (hasToken_all _ target _ _ _ _ _ Hiss Hkeep) as Hall.
    destruct sources as [|w ws] eqn:Hsrc; [by apply elem_of_nil in Hu|].
    by apply (Hder r u).
Qed.

(** ** Calls *)

Lemma clearCounters_elem l : forall ts t,
  t ∈ fold_left lat.clearCounter l ts <-> t ∈ ts /\ counter t ∉ l.
Proof using Type.
  induction l as [|c l IH]; intros ts t; simpl.
  - split; [intros ?; split; [done|by apply not_elem_of_nil]|tauto].
  - rewrite IH. unfold lat.clearCounter. rewrite elem_of_eraseIf, not_elem_of_cons.
    rewrite bool_decide_eq_false. tauto.
Qed.

(** In expert mode a call waits for all that it forgets. *)
Lemma boundary_idle op st w st' m c t i k :
  stateWf st -> isControlFlowOp op = false -> isSEndpgm op = false ->
  expertScheduling target = true -> callInterface op || isSSetpc op = true ->
  applyDrain definingOp op st target = Ok (w, st') -> waited w.1 m ->
  c ∈ boundaryCounters -> t ∈ tokens st -> counter t = c ->
  queue m c !! i = Some k -> tk_done k = true.
Proof using Type.
  intros Hwf Hcf Hend Hex Hcall Hd Hw Hc Ht Htc Hk.
  destruct (tk_done k) eqn:Hdone; [done|].
  pose proof (pending_positive _ _ _ Hk Hdone) as Hone.
  apply applyDrain_inv in Hd as (req0 & Hr & Hcl & _).
  unfold computeRequirement in Hr. rewrite Hcf, Hend, Hex, Hcall in Hr.
  injection Hr as <-. destruct (clamp_le target _ _ c 0 Hcl) as (n & Hn & Hle).
  - destruct Hwf as [Hwf _]. destruct (tokensWf_elem _ _ _ _ Hwf Ht) as [Hf _ _].
    rewrite <-Htc. by apply (counter_all t target).
  - rewrite boundary_spec, bool_decide_true by done.
    rewrite (proj2 (existsb_exists _ _)); [done|]. exists t.
    split; [by apply list_elem_of_In|]. by apply bool_decide_eq_true.
  - specialize (Hw c n Hn). lia.
Qed.

Lemma transferCall_sound D op st w st' m :
  stateWf st -> isControlFlowOp op = false -> isSEndpgm op = false ->
  callInterface op = true -> sound D (tokens st) m ->
  transferCall definingOp op st target = Ok (w, st') -> waited w.1 m ->
  sound D (tokens st') m.
Proof using Type.
  intros Hwf Hcf Hend Hcall Hs Ht Hw. unfold transferCall in Ht.
  apply outcome_bind_Ok in Ht as ([w1 st1] & Hd & [= <- <-]).
  pose proof (applyDrain_sound D op st w1 st1 m Hwf Hs Hd Hw) as Hs1.
  destruct (expertScheduling target) eqn:Hex; [|done]. simpl.
  apply (sound_tokens _ _ D (tokens st1)); [done|].
  intros c id i k Hx Hk Hl (t & Htin & Htk & Hcov).
  pose proof (tokenKey_counter t (lat.keyToken c id) Htk) as Htc. simpl in Htc.
  exists t. split_and!; [|done|done].
  change (t ∈ fold_left lat.clearCounter boundaryCounters (tokens st1)).
  apply clearCounters_elem. split; [done|]. intros Hb. destruct Hl as (j & kj & _ & Hj & Hdone).
  assert (tk_done kj = true); [|congruence].
  pose proof (applyDrain_inv _ _ op st w1 st1 Hd) as (_ & _ & _ & _ & Heq).
  rewrite Heq in Htin. apply applyWait_sub in Htin.
  eapply (boundary_idle op st w1 st1 m (counter t) t j kj); try done; [by rewrite Hcall|congruence].
Qed.

(** ** The transfer of an operation *)

Lemma observe_sound D op st st' m :
  stateWf st -> sound D (tokens st) m ->
  observeExistingWaitcnt op st target = Ok st' -> isWaitcntOp op = true ->
  stalls op target None m -> sound D (tokens st') m.
Proof using Type.
  intros Hwf Hs Ho Hop [_ Hst]. unfold observeExistingWaitcnt, observeRegularWaitcnt in Ho.
  apply outcome_bind_Ok in Ho as (ts & Ho & [= <-]).
  apply outcome_bind_Ok in Ho as (req & Ho & [= <-]). simpl.
  eapply sound_wait; [apply Hwf|done|by apply Hst].
Qed.

(** The classes of operations, by what they tell of the operation. *)
Lemma classify_call op :
  classifyWaitOp op = WaitOpKind.Call ->
  callInterface op = true /\ isControlFlowOp op = false.
Proof using Type.
  unfold classifyWaitOp. destruct (isWaitcntOp op); [done|].
  destruct (isControlFlowOp op); [done|]. simpl. intros Hc. split; [|done].
  destruct (callInterface op) eqn:Hcall; [done|]. exfalso. revert Hc.
  assert (default WaitOpKind.Generic (classifyProtocolOp op) <> WaitOpKind.Call) as Hp
    by (unfold classifyProtocolOp; rewrite Hcall; by repeat case_match).
  destruct (op_kind op); repeat case_match; done.
Qed.

(** What the hardware has done and waited for when an operation executes. *)
Record ready (op : TicketOp) (wait : option Wait) (m : Machine) : Prop := {
  ready_stalls : stalls op target wait m;
  ready_barrier : barrierOk definingOp op target m
}.

(** The operation is one of the program, its operands are at hand, and so is the
    signal whose end it waits for. *)
Record executable D (op : TicketOp) : Prop := {
  exec_op : opOk op;
  exec_valid : validateWaitEvent op target = Ok tt;
  exec_operands : forall v, v ∈ op_operands op -> D v;
  exec_signal : forall signal c, completedSignal definingOp op target = Some (signal, c) ->
    forall v, v ∈ op_results signal -> D v
}.

Lemma completedSignal_counter op signal c :
  completedSignal definingOp op target = Some (signal, c) -> c <> WaitcntCounter.X.
Proof using Type.
  unfold completedSignal. destruct (op_kind op); try done.
  destruct (op_operands op); [done|]. destruct (definingOp v) as [s|]; [|done].
  destruct (_ || _); [done|]. destruct (counterMapping target WaitcntEvent.SccWrite) as [mp|] eqn:Hm;
    [|done]. intros [= _ <-]. revert Hm. unfold counterMapping, getWaitcntCounterMapping.
  destruct (family target); simpl; [done|]. by intros [= <-].
Qed.

Lemma waited_stalls op req m :
  stalls op target (Some req) m -> waited req.1 m.
Proof using Type. intros [Hst _]. destruct req as [r e]. by apply (Hst r e). Qed.

(** An operation that drains and issues nothing. *)
Lemma drainOnly_sound D op st w st1 w' st' m :
  stateWf st -> sound D (tokens st) m ->
  applyDrain definingOp op st target = Ok (w, st1) ->
  finishTransfer op (Some w) st1 target = Ok (w', st') ->
  stalls op target w' m ->
  sound (fun v => D v \/ v ∈ op_results op) (tokens st')
    (define (op_results op) (fun _ => []) m).
Proof using Type.
  intros Hwf Hs Hd Hf Hst. pose proof (finishTransfer_inv _ _ _ _ _ Hf) as [-> _].
  apply define_none_sound. eapply finishTransfer_sound; [|exact Hf].
  eapply applyDrain_sound; [exact Hwf|exact Hs|exact Hd|by apply waited_stalls with op].
Qed.

(** The drain and the issue of an issuer; [derives] tells one that derives tokens
    from a barrier signal, which does not. *)
Lemma issueTransfer_sound (derives : bool) D op st w st1 w' st' m
    (switch : list Token -> list Token) :
  stateWf st -> sound D (tokens st) m -> executable D op ->
  event (getWaitcntInfo op) <> WaitcntEvent.None ->
  (forall ts, tokensWf inProgram target ts -> tokensWf inProgram target (switch ts)) ->
  (forall ts t, counter t <> WaitcntCounter.X -> t ∈ ts -> t ∈ switch ts) ->
  applyDrain definingOp op st target = Ok (w, st1) ->
  finishTransfer op (Some w) (onTokens (fun toks =>
    if derives then deriveIssuerDependencyTokens op (recordIssue op (switch toks) target)
    else recordIssue op (switch toks) target) st1) target = Ok (w', st') ->
  stalls op target w' m ->
  sound (fun v => D v \/ v ∈ op_results op) (tokens st')
    (define (op_results op)
       (fun r => nextId m :: if derives then orderedAfter op m r else [])
       (issueMachine op target m)).
Proof using Type.
  intros Hwf Hs [Hop Hval HD _] Hev Hsw Hkeep Hd Hf Hst.
  pose proof (finishTransfer_inv _ _ _ _ _ Hf) as [-> _].
  eapply finishTransfer_sound; [|exact Hf]. simpl.
  pose proof (applyDrain_wf _ _ _ _ _ _ _ Hwf Hd) as [Hwf1 _].
  apply recordIssue_sound; [done|by apply Hsw|done|done| |done].
  eapply sound_filtered; [apply Hkeep|].
  eapply applyDrain_sound; [exact Hwf|exact Hs|exact Hd|by apply waited_stalls with op].
Qed.

(** A barrier: the end of the signal that it waits for, its drain, its results. *)
Lemma barrierTransfer_sound D op st w st1 w' st' m :
  stateWf st -> sound D (tokens st) m -> executable D op ->
  applyDrain definingOp op (onTokens (fun toks =>
    applyBarrierWaitCompletion definingOp op toks target) st) target = Ok (w, st1) ->
  finishTransfer op (Some w) (onTokens (fun toks =>
    deriveResultTokens op (applyImplicitXGroupSwitch op toks target)) st1) target
    = Ok (w', st') ->
  ready op w' m ->
  sound (fun v => D v \/ v ∈ op_results op) (tokens st')
    (define (op_results op) (fun _ => depsOf m (op_operands op))
       (retire definingOp op target m)).
Proof using Type.
  intros Hwf Hs [Hop Hval HD Hsig] Hd Hf [Hst Hbar].
  pose proof (finishTransfer_inv _ _ _ _ _ Hf) as [-> _].
  eapply finishTransfer_sound; [|exact Hf]. simpl.
  assert (stateWf (onTokens (fun toks =>
    applyBarrierWaitCompletion definingOp op toks target) st)) as Hwf0.
  { apply onTokens_wf; [|done]. intros ts. apply applyBarrierWaitCompletion_wf. }
  pose proof (applyDrain_wf _ _ _ _ _ _ _ Hwf0 Hd) as [Hwf1 _].
  assert (sound D (tokens st1) (retire definingOp op target m)) as Hs1.
  { eapply applyDrain_sound; [exact Hwf0| |exact Hd|by apply retire_waited, waited_stalls with op].
    apply retire_sound; [done|done|]. intros signal c Hc.
    split; [by eapply completedSignal_counter|by eapply Hsig]. }
  assert (depsOf (retire definingOp op target m) (op_operands op)
          = depsOf m (op_operands op)) as Heq.
  { unfold depsOf, retire. by destruct (completedSignal definingOp op target) as [[]|]. }
  rewrite <-Heq. eapply deriveResult_sound; [done|by apply applyImplicitXGroupSwitch_wf| |done].
  eapply sound_filtered; [apply applyImplicitXGroupSwitch_keeps|done].
Qed.

(** The transfer of every operation keeps the wait state sound for the hardware
    that has waited and then executed it. *)
Lemma runTransfer_sound D op st w st' m :
  stateWf st -> sound D (tokens st) m -> executable D op ->
  classifyWaitOp op <> WaitOpKind.Endpgm ->
  runTransfer definingOp op st target = Ok (w, st') -> ready op w m ->
  sound (fun v => D v \/ v ∈ op_results op) (tokens st')
    (machineStep definingOp op target m).
Proof using Type.
  intros Hwf Hs Hex Hend Hrun Hready. pose proof Hex as [Hop _ HD _].
  pose proof Hready as [Hst _].
  unfold runTransfer in Hrun. unfold machineStep.
  destruct (classifyWaitOp op) eqn:Hk; try done;
    try (apply outcome_bind_Ok in Hrun as ([w1 st1] & Hd & Hf)).
  - destruct (isWaitcntOp op) eqn:Hwait.
    + apply outcome_bind_Ok in Hrun as (st1 & Ho & [= <- <-]).
      apply define_none_sound. by eapply observe_sound.
    + apply outcome_bind_Ok in Hrun as ([w1 st1] & Hd & Hf). by eapply drainOnly_sound.
  - eapply (issueTransfer_sound true D op st w1 st1 w st' m
      (fun toks => applyImplicitXGroupSwitch op toks target)); try done.
    + apply classify_issuer. by left.
    + intros ts. apply applyImplicitXGroupSwitch_wf.
    + intros ts t. apply applyImplicitXGroupSwitch_keeps.
  - eapply (issueTransfer_sound false D op st w1 st1 w st' m (fun toks => toks)); try done.
    apply classify_issuer. by right.
  - by eapply barrierTransfer_sound.
  - eapply finishTransfer_sound; [|exact Hrun]. simpl.
    apply deriveResult_sound with target; auto. by apply Hwf.
  - apply define_none_sound. by eapply finishTransfer_sound.
  - eapply finishTransfer_sound; [|exact Hrun]. simpl.
    apply deriveResult_sound with target; auto. by apply Hwf.
  - pose proof (finishTransfer_inv _ _ _ _ _ Hf) as [-> _].
    apply define_none_sound. eapply finishTransfer_sound; [|exact Hf].
    destruct (classify_call op Hk) as [Hcall Hcf].
    eapply transferCall_sound; [exact Hwf|done|by apply (ok_call _ _ _ Hop)|done|done|exact Hd|].
    by apply waited_stalls with op.
  - pose proof (finishTransfer_inv _ _ _ _ _ Hf) as [-> _].
    apply define_none_sound. eapply finishTransfer_sound; [|exact Hf]. simpl.
    eapply applyDrain_sound; [exact Hwf|exact Hs|exact Hd|by apply waited_stalls with op].
  - by eapply drainOnly_sound.
Qed.
End Main.
