(* ===== verification/TicketProgram.v ===== *)
(** * Programs: the waits that are inserted along every path

    The solver's states satisfy the transfer along every edge; the hardware runs
    a path of the control-flow graph with the waits of the rewrite.  Whatever
    path it takes, an operation executes only when everything that it depends on
    is complete. *)

From stdpp Require Import base tactics list strings sorting sets.
From S2P Require Import Prelude CostEnums ArchData MachineIR LatencyTable.
From S2P Require Import OpClassifier TicketIR TicketState TicketWaits TicketLattice.
From S2P Require Import TicketInv TicketDrain TicketSound TicketIssue.
From S2P Require Import TicketMain.

Section Edges.
Context (definingOp : Value -> option TicketOp) (valueOf : N -> Value).
Context (target : WaitTarget).
Abbreviation sound := (sound definingOp valueOf).
Abbreviation inProgram := (inProgram valueOf).
Abbreviation stateWf := (stateWf inProgram target).
Implicit Types D : Value -> Prop.

(** ** Edges *)

Lemma propagate_spec operands destinations ts :
  tokensWf inProgram target ts ->
  below covers ts (propagateOperandsThrough operands destinations ts) /\
  forall operand dst c i k, (operand, dst) ∈ zip operands destinations ->
    hasToken ts c (Some operand) i k ->
    hasToken (propagateOperandsThrough operands destinations ts) c (Some dst) i k.
Proof using Type.
  intros Hwf. unfold propagateOperandsThrough. set (added := zip operands destinations ≫= _).
  destruct (insertAllMin_below ts added) as [B1 B2]; [apply Hwf|]. split; [done|].
  intros operand dst c i k Hin Ht. eapply hasToken_below; [exact B2|].
  pose proof (hasToken_all _ _ _ _ _ _ _ Hwf Ht) as Hc. destruct Ht as (t & Ht & Hk & Hcov).
  exists (mkToken (OfValue (Some dst)) (events t) (position t) c (tok_outOfOrder t)
            (writesMemory t)).
  split_and!; [|done|destruct Hcov; by split].
  apply list_elem_of_bind. exists (operand, dst). split; [|done].
  apply list_elem_of_bind. exists c. split; [|done].
  rewrite (find_complete ts c operand t); [|apply Hwf|done|done].
  by apply list_elem_of_singleton.
Qed.

Lemma passValues_sound D ts m operands destinations :
  tokensWf inProgram target ts -> sound D ts m ->
  (forall operand dst, (operand, dst) ∈ zip operands destinations -> D operand) ->
  length operands = length destinations ->
  sound (fun v => D v \/ v ∈ destinations)
    (propagateOperandsThrough operands destinations ts)
    (passValues operands destinations m).
Proof using Type.
  intros Hwf Hs HD Hlen. destruct (propagate_spec operands destinations ts Hwf) as [Hb Hp].
  pose proof (sound_below _ _ _ _ _ _ Hb Hs) as [S1 S2 S3 S4 S5].
  split; [done|done| |done|].
  - intros c i k v Hx Hv Hk Hl Hin. simpl in *.
    destruct (list_find (fun od => value_id od.2 = value_id v) (zip operands destinations))
      as [[j [o d]]|] eqn:Hfind.
    + apply list_find_Some in Hfind as (Hod & Hid & _). apply list_elem_of_lookup_2 in Hod.
      eapply hasToken_id; [exact Hid|]. apply (Hp o); [done|].
      apply (sound_values _ _ _ _ _ Hs c); eauto.
    + apply list_find_None in Hfind. rewrite Forall_forall in Hfind.
      apply S3; [done| |done..]. destruct Hv as [|Hv]; [done|]. exfalso.
      apply list_elem_of_lookup in Hv as (j & Hj).
      destruct (lookup_lt_is_Some_2 operands j) as [o Ho].
      { rewrite Hlen. by eapply lookup_lt_Some. }
      apply (Hfind (o, v)); [|done]. apply list_elem_of_lookup. exists j.
      apply lookup_zip_with_Some. by exists o, v.
  - intros id n Hin. simpl in *.
    destruct (list_find (fun od => value_id od.2 = id) (zip operands destinations))
      as [[j [o d]]|]; by eapply S5.
Qed.

Lemma insertMins_spec added : forall toks, tokensSorted toks ->
  let r := fold_left (fun kept t => (lat.insertOrMin kept t).2) added toks in
  tokensSorted r /\ below covers toks r /\ below covers added r.
Proof using Type.
  induction added as [|a added IH]; intros toks Hs.
  { split_and!; [done|reflexivity|]. intros u Hu. by apply elem_of_nil in Hu. }
  simpl. pose proof (upsert_join tokenKey sortKey sameKey covers lat.minToken
    sortKey_key sameKey_key toks a Hs) as (Hs1 & Hb1 & (b & Hbin & Hbc) & _).
  destruct (IH _ Hs1) as (Hs2 & Hb2 & Hb3). split_and!; [done|by etransitivity|].
  intros u [->|Hu]%elem_of_cons; [|by apply Hb3].
  destruct (Hb2 b Hbin) as (b' & Hb' & Hbc'). exists b'. split; [done|by etransitivity].
Qed.

Lemma insertGroups_spec (added : WaitcntCounter.t -> list Token) l : forall toks,
  tokensSorted toks ->
  let r := fold_left (fun kept c =>
    fold_left (fun kept t => (lat.insertOrMin kept t).2) (added c) kept) l toks in
  below covers toks r /\ forall c, c ∈ l -> below covers (added c) r.
Proof using Type.
  induction l as [|d l IH]; intros toks Hs.
  { split; [reflexivity|]. intros d Hd. by apply elem_of_nil in Hd. }
  simpl. destruct (insertMins_spec (added d) toks Hs) as (Hs1 & Hb1 & Ha1).
  destruct (IH _ Hs1) as (Hb2 & Ha2). split; [by etransitivity|].
  intros e [->|He]%elem_of_cons; [by etransitivity|by apply Ha2].
Qed.

(** What [collapseEscaping] keeps, it keeps covered; the rest is covered by the
    unknown token of its counter. *)
Lemma collapse_spec dominates ts t c i k id :
  tokensWf inProgram target ts -> t ∈ ts -> tokenKey t = tokenKey (lat.keyToken c id) ->
  ticketCovered t i k ->
  if lat.keepsToken dominates t
  then hasToken (lat.collapseEscaping dominates ts) c id i k
  else hasToken (lat.collapseEscaping dominates ts) c None i k.
Proof using Type.
  intros Hwf Ht Hk Hcov.
  pose proof (tokenKey_counter t (lat.keyToken c id) Hk) as Hc. simpl in Hc.
  assert (c ∈ allCounters) as Hall.
  { eapply hasToken_all; [exact Hwf|]. exists t. split_and!; [exact Ht|exact Hk|exact Hcov]. }
  unfold lat.collapseEscaping. cbv zeta. set (kept := base.filter _ ts).
  set (unknown := fun c => lat.aggregateToken None c (lat.collectEscaping dominates ts c)).
  destruct (insertGroups_spec unknown allCounters kept) as [Hkept Hunknown].
  { apply filter_wf with inProgram target. exact Hwf. }
  destruct (lat.keepsToken dominates t) eqn:Hkeep.
  - eapply hasToken_below; [exact Hkept|]. exists t. split_and!; [|done|done].
    by apply list_elem_of_filter.
  - eapply hasToken_below; [by apply Hunknown|]. unfold unknown.
    apply (aggregate_hasToken _ t); [|done]. rewrite collectEscaping_fold.
    apply mergeFold_covers. left. split; [done|]. unfold escapes.
    rewrite Hkeep, bool_decide_true by done. done.
Qed.

Lemma collapse_sound D D' dominates ts m :
  tokensWf inProgram target ts -> sound D ts m ->
  (forall v, D' v -> D v /\ dominates v = true /\ inProgram v) ->
  sound D' (lat.collapseEscaping dominates ts) m.
Proof using Type.
  intros Hwf [S1 S2 S3 S4 S5] HD. split; [done| | |done|done].
  - intros c i k Hx Hk Hl.
    destruct (S2 c i k Hx Hk Hl) as [(t & Ht & Htk & Hc)|(v & Hv & t & Ht & Htk & Hc)].
    + left. pose proof (collapse_spec dominates ts t c i k None Hwf Ht Htk Hc) as Hs.
      by destruct (lat.keepsToken dominates t).
    + pose proof (collapse_spec dominates ts t c i k (Some v) Hwf Ht Htk Hc) as Hs.
      destruct (lat.keepsToken dominates t); [right; by exists v|by left].
  - intros c i k v Hx Hv Hk Hl Hin. destruct (HD v Hv) as (HDv & Hdom & Hv').
    destruct (S3 c i k v Hx HDv Hk Hl Hin) as (t & Ht & Htk & Hc).
    pose proof (collapse_spec dominates ts t c i k (Some v) Hwf Ht Htk Hc) as Hs.
    assert (lat.keepsToken dominates t = true) as Hkeep; [|by rewrite Hkeep in Hs].
    apply tokenKey_value in Htk as (_ & v' & Hsub & Hid). unfold lat.keepsToken. rewrite Hsub.
    destruct (tokensWf_elem _ _ _ _ Hwf Ht) as [_ _ Hok]. specialize (Hok v' Hsub).
    unfold TicketSound.inProgram in Hok, Hv'. by replace v' with v by congruence.
Qed.

Lemma edge_sound D D' operands destinations dominates st m :
  stateWf st -> sound D (tokens st) m -> Forall inProgram destinations ->
  length operands = length destinations ->
  (forall v, v ∈ operands -> D v) ->
  (forall v, D' v -> (D v \/ v ∈ destinations) /\ dominates v = true /\ inProgram v) ->
  sound D' (tokens (edgeTransfer operands destinations dominates st))
    (passValues operands destinations m).
Proof using Type.
  intros [Hwf _] Hs Hdst Hlen Hops HD. simpl.
  eapply collapse_sound; [by apply propagateOperandsThrough_wf| |exact HD].
  apply passValues_sound; [done|done| |done].
  intros o d Hin. apply Hops. by eapply elem_of_zip_l.
Qed.
End Edges.

(** ** What an operation needs *)

(** Neither control flow, nor the end of the program, nor a call that drains
    everything. *)
Definition straight (op : TicketOp) (target : WaitTarget) : Prop :=
  isControlFlowOp op = false /\ isSEndpgm op = false /\
  (expertScheduling target && (callInterface op || isSSetpc op)) = false.

(** The values that have to be there before an operation executes: its operands,
    but not memory tokens that only order a read; the condition of a region; what
    a masked region yields into another register; and the former value of every
    register that the operation writes. *)
Inductive needs (definingOp : Value -> option TicketOp) (target : WaitTarget)
    (op : TicketOp) : Value -> Prop :=
  | needs_operand i v :
      straight op target -> waitedOperand definingOp op i v -> ~ orderedOnly op v ->
      needs definingOp target op v
  | needs_register span pending v :
      straight op target -> emitsMachineInst op = true -> span ∈ definedSpans op ->
      getAllocatedRegSpan v = Some pending -> overlaps span pending = true ->
      needs definingOp target op v
  | needs_condition v :
      isControlFlowOp op = true -> op_kind op = ExecIfOp \/ op_kind op = UniformIfOp ->
      head (op_operands op) = Some v -> needs definingOp target op v
  | needs_yield results result v :
      isControlFlowOp op = true -> op_kind op = YieldOp -> yieldResults op = Some results ->
      (result, v) ∈ zip results (op_operands op) -> isMemToken result = false ->
      definedByUninit definingOp v = false -> hasSameAllocatedReg result v = false ->
      needs definingOp target op v.

(** Of the writes among the issues that a value waits for, or of all of them,
    none is outstanding. *)
Definition arrived (m : Machine) (v : Value) : Prop :=
  forall c k, c <> WaitcntCounter.X -> k ∈ queue m c ->
    tk_id k ∈ deps m (value_id v) -> tk_done k = true.
Definition writesArrived (m : Machine) (v : Value) : Prop :=
  forall c k, c <> WaitcntCounter.X -> k ∈ queue m c ->
    tk_id k ∈ deps m (value_id v) -> isMemoryWriteIssuer (tk_op k) = true ->
    tk_done k = true.

Section Sufficient.
Context `{LLVMTarget} `{WaitLLVM}.
Context (definingOp : Value -> option TicketOp) (valueOf : N -> Value).
Context (target : WaitTarget).
Abbreviation sound := (sound definingOp valueOf).
Abbreviation inProgram := (inProgram valueOf).
Abbreviation stateWf := (stateWf inProgram target).
Implicit Types D : Value -> Prop.
Implicit Types op : TicketOp.

(** The drain leaves nothing outstanding of a token that the operation requires. *)
Lemma required_done D op st w st1 m t i k :
  stateWf st -> sound D (tokens st) m ->
  applyDrain definingOp op st target = Ok (w, st1) -> waited w.1 m ->
  t ∈ tokens st -> requires definingOp op target t -> counter t <> WaitcntCounter.X ->
  ticketCovered t i k -> queue m (counter t) !! i = Some k -> tk_done k = true.
Proof using Type.
  intros Hwf Hs Hd Hw Ht Hreq Hx Hcov Hk.
  destruct (tk_done k) eqn:Hdone; [done|]. exfalso.
  pose proof (wf_tokens _ _ _ Hwf) as Hts.
  apply applyDrain_inv in Hd as (req0 & Hr & Hcl & _).
  destruct (computeRequirement_waits definingOp inProgram target (tokens st) Hts op req0 t Hr Ht Hreq)
    as (n & Hn & Hle).
  destruct (tokensWf_elem _ _ _ _ Hts Ht) as [Hf _ _].
  destruct (clamp_le target req0 w.1 (counter t) n Hcl) as (n' & Hn' & Hle'); [|done|].
  { by apply (counter_all t target). }
  apply (wait_reaches definingOp valueOf D (tokens st) m t i k n' Hs Hx Ht Hcov Hk);
    [by apply Hw|lia|].
  exists i, k. split_and!; [lia|done|done].
Qed.

(** What a value waits for, when its tokens are required. *)
Lemma value_done D op st w st1 m v c k :
  stateWf st -> sound D (tokens st) m ->
  applyDrain definingOp op st target = Ok (w, st1) -> waited w.1 m ->
  D v -> c <> WaitcntCounter.X -> k ∈ queue m c -> tk_id k ∈ deps m (value_id v) ->
  (forall t, t ∈ tokens st -> valueToken v t ->
     (isMemoryWriteIssuer (tk_op k) = true -> writesMemory t = true) ->
     requires definingOp op target t) ->
  tk_done k = true.
Proof using Type.
  intros Hwf Hs Hd Hw HD Hx Hk Hin Hreq. apply list_elem_of_lookup in Hk as (i & Hk).
  destruct (tk_done k) eqn:Hdone; [done|]. exfalso.
  destruct (sound_values _ _ _ _ _ Hs c i k v Hx HD Hk) as (t & Ht & Htk & Hcov); [|done|].
  { exists i, k. split_and!; [lia|done|done]. }
  pose proof (tokenKey_counter t (lat.keyToken c (Some v)) Htk) as Htc. simpl in Htc.
  assert (tk_done k = true); [|congruence]. subst c.
  eapply (required_done D op st w st1 m t i k); try done.
  apply Hreq; [done|by split|]. apply (cov_writes _ _ _ Hcov).
Qed.

Lemma needs_requires op v t :
  inProgram v -> tokenOk inProgram target t -> valueToken v t ->
  needs definingOp target op v -> requires definingOp op target t.
Proof using Type.
  intros Hv Hok Hvt Hn. unfold requires.
  destruct Hn as [i v (Hcf & He & Hcall) Hw Ho|span pending v (Hcf & He & Hcall) Hem Hsp Hal Hov
                 |v Hcf Hkind Hhd|results result v Hcf Hkind Hres Hin Hmem Hun Hsame].
  - rewrite Hcf, He, Hcall. left. exists i, v. split_and!; [done|done|]. by intros ?.
  - rewrite Hcf, He, Hcall. right. left. split; [done|]. exists span. split; [done|].
    destruct Hvt as [_ (_ & v' & Hsub & Hid)%tokenKey_value].
    pose proof (ok_value _ _ _ Hok v' Hsub) as Hv'.
    unfold TicketSound.inProgram in Hv, Hv'. assert (v' = v) as -> by congruence.
    exists pending. unfold pendingSpan. rewrite Hsub. done.
  - rewrite Hcf. left. unfold controlFlowToken.
    destruct Hkind as [Hkind|Hkind]; rewrite Hkind; [left|]; by exists v.
  - rewrite Hcf. left. unfold controlFlowToken. rewrite Hkind.
    exists results. split; [done|]. right. exists (result, v). split_and!; auto.
Qed.

(** The drain of an operation. *)
Lemma drain_sufficient D op st w st1 m :
  stateWf st -> sound D (tokens st) m ->
  applyDrain definingOp op st target = Ok (w, st1) -> waited w.1 m ->
  (forall v, D v -> inProgram v -> needs definingOp target op v -> arrived m v) /\
  (forall i v, straight op target -> D v -> waitedOperand definingOp op i v ->
     writesArrived m v).
Proof using Type.
  intros Hwf Hs Hd Hw. split.
  - intros v HD Hv Hn c k Hx Hk Hin. eapply (value_done D op st w st1 m v c k); try done.
    intros t Ht Hvt _. eapply needs_requires; try done.
    by eapply tokensWf_elem; [apply Hwf|].
  - intros i v (Hcf & He & Hcall) HD Hop c k Hx Hk Hin Hwr.
    eapply (value_done D op st w st1 m v c k); try done.
    intros t Ht Hvt Hwt. unfold requires. rewrite Hcf, He, Hcall. left. exists i, v. auto.
Qed.

Lemma runTransfer_drain op st w st' :
  runTransfer definingOp op st target = Ok (Some w, st') ->
  exists st1, applyDrain definingOp op
    (if decide (classifyWaitOp op = WaitOpKind.Barrier)
     then onTokens (fun toks => applyBarrierWaitCompletion definingOp op toks target) st
     else st) target = Ok (w, st1).
Proof using Type.
  unfold runTransfer. intros Hr. destruct (classifyWaitOp op);
    try (rewrite decide_False by done); try (rewrite decide_True by done).
  1: destruct (isWaitcntOp op);
    [by apply outcome_bind_Ok in Hr as (? & _ & ?)|].
  5,6,7: apply finishTransfer_inv in Hr as [? _]; done.
  7: done.
  all: apply outcome_bind_Ok in Hr as ([w1 st1] & Hd & Hf);
    apply finishTransfer_inv in Hf as [[= ->] _].
  all: try by exists st1.
  unfold transferCall in Hd. apply outcome_bind_Ok in Hd as ([w2 st2] & Hd & [= -> _]).
  by exists st2.
Qed.

(** The wait of one operation suffices. *)
Lemma transfer_sufficient D op st w st' m :
  stateWf st -> sound D (tokens st) m -> executable definingOp valueOf target D op ->
  runTransfer definingOp op st target = Ok (Some w, st') ->
  ready definingOp target op (Some w) m ->
  (forall v, D v -> inProgram v -> needs definingOp target op v -> arrived m v) /\
  (forall i v, straight op target -> D v -> waitedOperand definingOp op i v ->
     writesArrived m v).
Proof using Type.
  intros Hwf Hs [_ _ _ Hsig] Hr [Hst Hbar]. pose proof (waited_stalls _ _ _ _ Hst) as Hw.
  apply runTransfer_drain in Hr as (st1 & Hd). case_decide as Hk;
    [|by eapply drain_sufficient].
  assert (stateWf (onTokens (fun toks =>
    applyBarrierWaitCompletion definingOp op toks target) st)) as Hwf0.
  { apply onTokens_wf; [|done]. intros ts. apply applyBarrierWaitCompletion_wf. }
  assert (forall v P, (forall c k, c <> WaitcntCounter.X ->
      k ∈ queue (retire definingOp op target m) c -> tk_id k ∈ deps m (value_id v) ->
      P k -> tk_done k = true) ->
    forall c k, c <> WaitcntCounter.X -> k ∈ queue m c -> tk_id k ∈ deps m (value_id v) ->
      P k -> tk_done k = true) as Hret.
  { intros v P Hp c k Hx Hin Hdep HP. unfold retire in Hp.
    destruct (completedSignal definingOp op target) as [[signal c']|] eqn:Hc; [|by eapply Hp].
    simpl in Hp. destruct (Hbar signal c' Hc) as [_ Hdone].
    destruct (decide (c = c')) as [->|Hne].
    - destruct (signalTicket m signal k) eqn:Hsk; [by apply Hdone|].
      apply (Hp c'); [done| |done..]. rewrite decide_True by done. by apply list_elem_of_filter.
    - apply (Hp c); [done| |done..]. by rewrite decide_False. }
  assert (deps (retire definingOp op target m) = deps m) as Hdeps.
  { unfold retire. by destruct (completedSignal definingOp op target) as [[]|]. }
  destruct (drain_sufficient D op _ w st1 (retire definingOp op target m) Hwf0) as [Hn Hwr];
    [|exact Hd|by apply retire_waited|].
  { apply retire_sound; [done|done|]. intros signal c Hc.
    split; [by eapply completedSignal_counter|by eapply Hsig]. }
  split.
  - intros v HD Hv Hneeds c k Hx Hin Hdep. apply (Hret v (fun _ => True)) with c; try done.
    intros c' k' Hx' Hin' Hdep' _. eapply (Hn v HD Hv Hneeds c'); [done|done|by rewrite Hdeps].
  - intros i v Hst' HD Hop c k Hx Hin Hdep Hwrk.
    apply (Hret v (fun k => isMemoryWriteIssuer (tk_op k) = true)) with c; try done.
    intros c' k' Hx' Hin' Hdep' Hwr'.
    eapply (Hwr i v Hst' HD Hop c'); [done|done|by rewrite Hdeps|done].
Qed.
End Sufficient.

(** ** Programs and their paths *)

(** An edge of the control-flow graph: where it goes, what it passes to the block
    arguments there, and which definitions dominate it. *)
Record Edge : Type := mkEdge {
  edge_to : nat;
  edge_operands : list Value;
  edge_destinations : list Value;
  edge_dominates : Value -> bool
}.

(** A function: blocks from the entry block 0, their edges, and the values that
    are available at the start of each. *)
Record Program : Type := mkProgram {
  blocks : nat -> list TicketOp;
  edges : nat -> list Edge;
  available : nat -> Value -> Prop
}.

Section Program.
Context `{LLVMTarget} `{WaitLLVM}.
Context (definingOp : Value -> option TicketOp) (valueOf : N -> Value).
Context (target : WaitTarget) (prog : Program).
Abbreviation sound := (sound definingOp valueOf).
Abbreviation inProgram := (inProgram valueOf).
Abbreviation stateWf := (stateWf inProgram target).
Implicit Types op : TicketOp.

(** What is available after some operations of a block. *)
Definition availableAfter (b : nat) (done : list TicketOp) (v : Value) : Prop :=
  available prog b v \/ v ∈ (done ≫= fun op => op_results op).

(** The program is in SSA form: every use is dominated by its definition. *)
Record programOk : Prop := {
  prog_values : forall b v, available prog b v -> inProgram v;
  prog_ops : forall b done op rest, blocks prog b = done ++ op :: rest ->
    executable definingOp valueOf target (availableAfter b done) op;
  prog_edges : forall b e, e ∈ edges prog b ->
    length (edge_operands e) = length (edge_destinations e) /\
    Forall inProgram (edge_destinations e) /\
    (forall v, v ∈ edge_operands e -> availableAfter b (blocks prog b) v) /\
    (forall v, available prog (edge_to e) v ->
       (availableAfter b (blocks prog b) v \/ v ∈ edge_destinations e) /\
       edge_dominates e v = true)
}.

(** The operations of a block, one after the other. *)
Definition transferBlock (ops : list TicketOp) (st : WaitState) : outcome WaitState :=
  foldM (fun st op => '(_, st') ← runTransfer definingOp op st target; Ok st') st ops.

(** The solver's result: no edge changes the state that it has for a block. *)
Record solution (entry : nat -> WaitState) : Prop := {
  solution_wf : forall b, stateWf (entry b);
  solution_edges : forall b e st, e ∈ edges prog b ->
    transferBlock (blocks prog b) (entry b) = Ok st ->
    (joinWith (entry (edge_to e))
       (edgeTransfer (edge_operands e) (edge_destinations e) (edge_dominates e) st)).1 = false
}.

(** The points that execution reaches: the block, what it has done of it, what is
    left, the state that the rewrite has there, and the hardware.  Time may pass
    before every operation. *)
Inductive reaches (entry : nat -> WaitState) :
    nat -> list TicketOp -> list TicketOp -> WaitState -> Machine -> Prop :=
  | reaches_entry :
      reaches entry 0 [] (blocks prog 0) (entry 0%nat) initialMachine
  | reaches_op b done op rest st m m' w st' :
      reaches entry b done (op :: rest) st m ->
      classifyWaitOp op <> WaitOpKind.Endpgm ->
      runTransfer definingOp op st target = Ok (w, st') ->
      completes m m' -> ready definingOp target op w m' ->
      reaches entry b (done ++ [op]) rest st' (machineStep definingOp op target m')
  | reaches_edge b done st m e :
      reaches entry b done [] st m -> e ∈ edges prog b ->
      reaches entry (edge_to e) [] (blocks prog (edge_to e)) (entry (edge_to e))
        (passValues (edge_operands e) (edge_destinations e) m).

Lemma transferBlock_snoc ops op st st1 w st2 :
  transferBlock ops st = Ok st1 -> runTransfer definingOp op st1 target = Ok (w, st2) ->
  transferBlock (ops ++ [op]) st = Ok st2.
Proof using Type.
  unfold transferBlock. revert st. induction ops as [|o ops IH]; intros st H1 H2; simpl in *.
  - injection H1 as <-. by rewrite H2.
  - destruct (runTransfer definingOp o st target) as [[w' st']| |]; try done. simpl in *.
    by apply IH.
Qed.

Lemma initial_sound D ts : sound D ts initialMachine.
Proof using Type.
  split; simpl.
  - by intros c i j a b _ Ha.
  - by intros c i k _ Hk.
  - by intros c i k v _ _ Hk.
  - intros c k Hk. by apply elem_of_nil in Hk.
  - intros id n Hn. by apply elem_of_nil in Hn.
Qed.

(** The states of the rewrite are well formed and sound at every point. *)
Lemma reaches_sound entry b done rest st m :
  programOk -> solution entry -> reaches entry b done rest st m ->
  blocks prog b = done ++ rest /\ transferBlock done (entry b) = Ok st /\
  stateWf st /\ sound (availableAfter b done) (tokens st) m.
Proof using Type.
  intros Hp Hsol Hr. induction Hr as [|b done op rest st m m' w st' _ IH Hk Hrun Hc Hready
    |b done st m e _ IH He].
  - split_and!; [done|done|by apply Hsol|apply initial_sound].
  - destruct IH as (Hb & Ht & Hwf & Hs).
    pose proof (prog_ops Hp b done op rest Hb) as Hex. split_and!.
    + by rewrite <-app_assoc.
    + by eapply transferBlock_snoc.
    + eapply runTransfer_wf; [apply (exec_op _ _ _ _ _ Hex)|exact Hwf|exact Hrun].
    + eapply sound_weaken; [|eapply runTransfer_sound; try done; by eapply sound_completes].
      intros v [Hv|Hv]; [by left; left|]. apply list_elem_of_bind in Hv as (o & Hv & Ho).
      apply elem_of_app in Ho as [Ho|Ho].
      * left. right. apply list_elem_of_bind. by exists o.
      * apply list_elem_of_singleton in Ho as ->. by right.
  - destruct IH as (Hb & Ht & Hwf & Hs). rewrite app_nil_r in Hb. subst done.
    destruct (prog_edges Hp b e He) as (Hlen & Hdst & Hops & Hav).
    split_and!; [done|done|by apply Hsol|].
    pose proof (solution_edges entry Hsol b e st He Ht) as Hj.
    set (st' := edgeTransfer _ _ _ st) in Hj.
    assert (stateWf st') as Hwf' by (by apply edgeTransfer_wf).
    destruct (joinWith_least_upper_bound (entry (edge_to e)) st') as (_ & _ & _ & _ & Hbelow & _).
    { eapply stateWf_sorted, Hsol. }
    { by eapply stateWf_sorted. }
    destruct (proj1 Hbelow Hj) as [Htok _].
    eapply sound_below; [exact Htok|].
    apply (edge_sound definingOp valueOf target (availableAfter b (blocks prog b))); try done.
    intros v [Hv|Hv]; [|by apply elem_of_nil in Hv].
    destruct (Hav v Hv) as [? ?]. split_and!; [done|done|by apply (prog_values Hp (edge_to e))].
Qed.

(** C2: the inserted waits are sufficient.  Whatever path the program takes and
    in whatever order the memory system completes what it may reorder, when an
    operation executes after the wait that the rewrite puts before it, the values
    that it needs and whose definitions dominate it ([availableAfter]) are there:
    every operand, condition and yielded value, and what such values held in
    registers that it writes; and of the operations that a memory token orders it
    after no write is outstanding.

    It says nothing of a value whose definition does not dominate the operation:
    what is outstanding for its register may still arrive
    ([TicketExamples.escaping_load_loses_register]).  Nor does it of the half of a
    register that a [d16_hi] load preserves, of the tokens of a DMA delay, of the
    counter X, and, but for conditions and yielded values, of control flow, of
    [s_endpgm] and of the calls and [s_setpc] of expert mode. *)
Theorem inserted_waits_sufficient entry b done op rest st m m' w st'
    (Hp : programOk) (Hsol : solution entry)
    (Hreach : reaches entry b done (op :: rest) st m)
    (Hrun : runTransfer definingOp op st target = Ok (Some w, st'))
    (Htime : completes m m') (Hready : ready definingOp target op (Some w) m') :
  (forall v, availableAfter b done v -> inProgram v ->
     needs definingOp target op v -> arrived m' v) /\
  (forall i v, straight op target -> availableAfter b done v ->
     waitedOperand definingOp op i v -> writesArrived m' v).
Proof using Type.
  destruct (reaches_sound _ _ _ _ _ _ Hp Hsol Hreach) as (Hb & _ & Hwf & Hs).
  eapply transfer_sufficient; [exact Hwf|by eapply sound_completes| |exact Hrun|exact Hready].
  by eapply prog_ops.
Qed.
End Program.
