(* ===== verification/TicketExamples.v ===== *)
(** * A sample program of the wait pass

    A load before a loop, its use and another load in the loop: the states that
    the solver has for it, and a run of the hardware, on which the theorems are
    instantiated. *)

From Stdlib Require Import Ascii.
From stdpp Require Import base tactics list strings sorting.
From S2P Require Import Prelude CostEnums ArchData MachineIR LatencyTable.
From S2P Require Import OpClassifier TicketIR TicketState TicketWaits TicketLattice.
From S2P Require Import TicketInv TicketDrain TicketSound TicketIssue.
From S2P Require Import TicketMain TicketProgram TicketReadback TicketText.

#[export] Existing Instance exampleTarget.

(** The field widths of gfx942, and decimal numbers. *)
#[export] Instance exampleWaits : WaitLLVM := {|
  getVmcntBitMask _ := 63;
  getLgkmcntBitMask _ := 15;
  getStorecntBitMask _ := 0;
  getLoadcntBitMask _ := 0;
  getDscntBitMask _ := 0;
  getKmcntBitMask _ := 0;
  getXcntBitMask _ := 0;
  getAsynccntBitMask _ := 0;
  getVaVdstBitMask := 15;
  getVmVsrcBitMask := 7;
  getAsInteger := readDecimal
|}.

Definition sampleTarget : WaitTarget :=
  mkWaitTarget None (mkIsaVersion 9 4 2) 64 WaitCounterFamily.Legacy false false false.

Definition vgprAt (id : N) (index : Z) : Value :=
  mkValue id (RegType RegClass.VGPR 1 (Some index)).

Definition sampleOp (id : N) (kind : OpKind) (traits : list Trait.t)
    (info : option WaitcntInfo) (operands results : list Value) : TicketOp :=
  plainOp (mkOperation id kind true traits info None false operands results).

Definition address : Value := vgprAt 1 0.
Definition loaded : Value := vgprAt 2 4.
Definition product : Value := vgprAt 4 6.
Definition reloaded : Value := vgprAt 6 8.

(** [global_load_b32], [v_mul_lo], [global_load_b32]. *)
Definition firstLoad : TicketOp :=
  sampleOp 1 OtherOp [Trait.VMEMLoadOp] (Some (mkWaitcntInfo WaitcntEvent.Vmem 1 false))
    [address] [loaded].
Definition useLoaded : TicketOp :=
  sampleOp 2 OtherOp [Trait.VALUOp] None [loaded; address] [product].
Definition secondLoad : TicketOp :=
  sampleOp 3 OtherOp [Trait.VMEMLoadOp] (Some (mkWaitcntInfo WaitcntEvent.Vmem 1 false))
    [product] [reloaded].

Definition sampleDefiningOp (v : Value) : option TicketOp :=
  match value_id v with
  | 2%N => Some firstLoad | 4%N => Some useLoaded | 6%N => Some secondLoad
  | _ => None
  end.
Definition sampleValueOf (id : N) : Value :=
  match id with
  | 1%N => address | 2%N => loaded | 4%N => product | _ => reloaded
  end.

Definition loopEdge : Edge := mkEdge 1 [] [] (fun _ => true).

Definition sampleProgram : Program := mkProgram
  (fun b => match b with
            | O => [firstLoad] | S O => [useLoaded; secondLoad] | _ => [] end)
  (fun b => match b with O | S O => [loopEdge] | _ => [] end)
  (fun b v => match b with
              | O => v = address | _ => v = address \/ v = loaded end).

(** The states of the solver at the two blocks. *)
Definition vmemToken (v : Value) (p : Z) : Token :=
  mkToken (OfValue (Some v)) 1 p WaitcntCounter.Vmem false false.
Definition sampleEntry (b : nat) : WaitState :=
  match b with
  | S O => mkWaitState [vmemToken loaded 0; vmemToken reloaded 0] []
  | _ => emptyWaitState
  end.

Abbreviation runSample := (transferBlock sampleDefiningOp sampleTarget).
Example sample_block0 :
  runSample (blocks sampleProgram 0) (sampleEntry 0) = Ok (mkWaitState [vmemToken loaded 0] []).
Proof. by vm_compute. Qed.
Example sample_block1 :
  runSample (blocks sampleProgram 1) (sampleEntry 1) =
  Ok (mkWaitState [vmemToken reloaded 0] []).
Proof. by vm_compute. Qed.

Lemma sample_stateWf b :
  stateWf (inProgram sampleValueOf) sampleTarget (sampleEntry b).
Proof.
  assert (forall v, inProgram sampleValueOf v ->
    tokenOk (inProgram sampleValueOf) sampleTarget (vmemToken v 0)) as Hok.
  { intros v Hv. split; simpl; [by left|unfold tokenBounded, UINT_MAX; simpl; lia|].
    by intros ? [= <-]. }
  assert (stateWf (inProgram sampleValueOf) sampleTarget (sampleEntry 1)) as H1.
  { split; [|by repeat constructor]. split.
    - repeat constructor; simpl; lia.
    - by repeat constructor; apply Hok. }
  destruct b as [|[|b]]; [apply emptyWaitState_wf|done|apply emptyWaitState_wf].
Qed.

(** Every operation of the sample is one of the program. *)
Lemma sample_opOk op :
  op = firstLoad \/ op = useLoaded \/ op = secondLoad ->
  opOk sampleDefiningOp sampleValueOf op.
Proof.
  intros Hop. split.
  - split; [|destruct Hop as [->|[->| ->]]; simpl; lia].
    destruct Hop as [->|[->| ->]]; by repeat constructor.
  - intros v Hv. destruct Hop as [->|[->| ->]]; by apply list_elem_of_singleton in Hv as ->.
  - intros v Hv r Hr. destruct Hop as [->|[->| ->]];
      apply list_elem_of_singleton in Hr as ->;
      repeat (apply elem_of_cons in Hv as [->|Hv]; [done|]); by apply elem_of_nil in Hv.
  - by destruct Hop as [->|[->| ->]].
  - by destruct Hop as [->|[->| ->]].
Qed.

Lemma sample_executable (D : Value -> Prop) op :
  op = firstLoad \/ op = useLoaded \/ op = secondLoad ->
  Forall D (op_operands op) -> executable sampleDefiningOp sampleValueOf sampleTarget D op.
Proof.
  intros Hop HD. rewrite Forall_forall in HD. split.
  - by apply sample_opOk.
  - by destruct Hop as [->|[->| ->]].
  - exact HD.
  - intros signal c. by destruct Hop as [->|[->| ->]].
Qed.

Lemma sampleProgram_ok : programOk sampleDefiningOp sampleValueOf sampleTarget sampleProgram.
Proof.
  split.
  - intros [|b] v; [by intros ->|by intros [->| ->]].
  - intros b done op rest Hb.
    assert ((b = 0%nat /\ done = [] /\ op = firstLoad) \/
      (b = 1%nat /\ done = [] /\ op = useLoaded) \/
      (b = 1%nat /\ done = [useLoaded] /\ op = secondLoad)) as Hcases.
    { destruct b as [|[|b]]; simpl in Hb.
      - destruct done as [|o done]; [by injection Hb as <- _; left|].
        injection Hb as _ Hb. by destruct done.
      - destruct done as [|o done]; [injection Hb as <- _; by right; left|].
        injection Hb as <- Hb. destruct done as [|o done]; [injection Hb as <- _; by right; right|].
        injection Hb as _ Hb. by destruct done.
      - by destruct done. }
    destruct Hcases as [(-> & -> & ->)|[(-> & -> & ->)|(-> & -> & ->)]];
      (apply sample_executable; [tauto|]); apply Forall_forall; intros v Hv;
      repeat (apply elem_of_cons in Hv as [->|Hv]); try (by apply elem_of_nil in Hv).
    + by left.
    + left. by right.
    + left. by left.
    + right. by apply elem_of_cons; left.
  - intros b e He. assert (e = loopEdge /\ (b = 0%nat \/ b = 1%nat)) as [-> Hb].
    { destruct b as [|[|b]]; simpl in He; try (apply list_elem_of_singleton in He as ->; auto).
      by apply elem_of_nil in He. }
    split_and!; [done|constructor|intros v Hv; by apply elem_of_nil in Hv|].
    intros v Hv. split; [|done]. left. unfold availableAfter.
    destruct Hb as [-> | ->]; simpl in *; [|tauto].
    destruct Hv as [->| ->]; [by left|right; by left].
Qed.

Lemma sample_solution :
  solution sampleDefiningOp sampleValueOf sampleTarget sampleProgram sampleEntry.
Proof.
  split; [apply sample_stateWf|]. intros b e st He Hst.
  destruct b as [|[|b]]; simpl in He; [| |by apply elem_of_nil in He];
    apply list_elem_of_singleton in He as ->.
  - pose proof sample_block0 as H0. rewrite H0 in Hst. injection Hst as <-. by vm_compute.
  - pose proof sample_block1 as H1. rewrite H1 in Hst. injection Hst as <-. by vm_compute.
Qed.

(** The hardware after the load, and when the load is complete. *)
Definition afterLoad : Machine := machineStep sampleDefiningOp firstLoad sampleTarget initialMachine.
Definition atLoop : Machine := passValues [] [] afterLoad.
Definition loadDone : Machine :=
  mkMachine
    (fun c => if decide (c = WaitcntCounter.Vmem) then [mkTicket 0 firstLoad true] else [])
    (deps atLoop) (nextId atLoop).

Lemma sample_time : completes atLoop loadDone.
Proof.
  split; [|intros c [|i] [|j] a b Hij Ha Hb|done|done].
  - intros c. simpl. unfold afterLoad. cbn. destruct c; simpl; by repeat constructor.
  - lia.
  - simpl in *. destruct (decide (c = WaitcntCounter.Vmem)); done.
  - simpl in *. lia.
  - simpl in *. destruct (decide (c = WaitcntCounter.Vmem)); done.
Qed.

(** The wait and the state of a transfer. *)
Definition waitOf (o : outcome (option Wait * WaitState)) : Wait :=
  match o with Ok (Some w, _) => w | _ => (noWait, noExpertWait) end.
Definition afterOf (o : outcome (option Wait * WaitState)) : WaitState :=
  match o with Ok (_, st) => st | _ => emptyWaitState end.

Definition transferLoad := runTransfer sampleDefiningOp firstLoad emptyWaitState sampleTarget.
Definition transferUse := runTransfer sampleDefiningOp useLoaded (sampleEntry 1) sampleTarget.

(** The load waits for nothing, the use for the load. *)
Example load_waits c : (waitOf transferLoad).1 c = None.
Proof. by destruct c. Qed.
Example use_waits c :
  (waitOf transferUse).1 c = if decide (c = WaitcntCounter.Vmem) then Some 0 else None.
Proof. by destruct c. Qed.

Lemma transferLoad_ok : transferLoad = Ok (Some (waitOf transferLoad), afterOf transferLoad).
Proof. reflexivity. Qed.
Lemma transferUse_ok : transferUse = Ok (Some (waitOf transferUse), afterOf transferUse).
Proof. reflexivity. Qed.

Lemma initial_time : completes initialMachine initialMachine.
Proof. by split; [constructor|intros c i j a b _ Ha|..]. Qed.

Lemma sample_ready (op : TicketOp) (w : Wait) m :
  isWaitcntOp op = false -> op_kind op = OtherOp -> waited w.1 m ->
  ready sampleDefiningOp sampleTarget op (Some w) m.
Proof.
  intros Hwait Hk Hw. split.
  - split; [by intros req ex [= ->]|]. intros req H. congruence.
  - intros signal c. unfold completedSignal. by rewrite Hk.
Qed.

Lemma sample_reaches :
  reaches sampleDefiningOp sampleTarget sampleProgram sampleEntry 1 []
    [useLoaded; secondLoad] (sampleEntry 1) atLoop.
Proof.
  apply (reaches_edge sampleDefiningOp sampleTarget sampleProgram sampleEntry 0 [firstLoad]
    (afterOf transferLoad) afterLoad loopEdge); [|by left].
  apply (reaches_op sampleDefiningOp sampleTarget sampleProgram sampleEntry 0 [] firstLoad []
    emptyWaitState initialMachine initialMachine (Some (waitOf transferLoad))).
  - apply reaches_entry.
  - done.
  - apply transferLoad_ok.
  - apply initial_time.
  - apply sample_ready; [done|done|]. intros c n Hn. by rewrite load_waits in Hn.
Qed.

Lemma sample_waited : waited (waitOf transferUse).1 loadDone.
Proof.
  intros c n Hn. rewrite use_waits in Hn. case_decide as Hc; [|done]. subst c.
  injection Hn as <-. done.
Qed.

Lemma inserted_waits_sufficient_witness :
  needs sampleDefiningOp sampleTarget useLoaded loaded /\ arrived loadDone loaded.
Proof.
  assert (needs sampleDefiningOp sampleTarget useLoaded loaded) as Hneeds.
  { by apply (needs_operand sampleDefiningOp sampleTarget useLoaded 0). }
  split; [exact Hneeds|].
  apply (inserted_waits_sufficient sampleDefiningOp sampleValueOf sampleTarget sampleProgram
    sampleEntry 1 [] useLoaded [secondLoad] (sampleEntry 1) atLoop loadDone
    (waitOf transferUse) (afterOf transferUse) sampleProgram_ok sample_solution
    sample_reaches transferUse_ok sample_time).
  - apply sample_ready; [done|done|apply sample_waited].
  - left. by right.
  - done.
  - exact Hneeds.
Defined.

(** ** The other theorems, on the sample *)

Lemma runTransfer_wf_witness :
  stateWf (inProgram sampleValueOf) sampleTarget (afterOf transferUse).
Proof.
  apply (runTransfer_wf sampleDefiningOp (inProgram sampleValueOf) useLoaded (sampleEntry 1)
    sampleTarget (Some (waitOf transferUse))).
  - apply (ok_opWf sampleDefiningOp sampleValueOf). apply sample_opOk. auto.
  - apply sample_stateWf.
  - apply transferUse_ok.
Defined.

Definition drainUse := applyDrain sampleDefiningOp useLoaded (sampleEntry 1) sampleTarget.
Lemma drainUse_ok : drainUse = Ok (waitOf transferUse, afterOf transferUse).
Proof. reflexivity. Qed.

Lemma created_waits_read_back_witness :
  hasWait (waitOf transferUse).1 = true /\
  observeAll sampleTarget (sampleEntry 1) (emittedWaits (Some (waitOf transferUse)) sampleTarget)
  = Ok (afterOf transferUse).
Proof.
  split; [by vm_compute|].
  apply (created_waits_read_back sampleDefiningOp (inProgram sampleValueOf) sampleTarget
    useLoaded); [apply sample_stateWf|done|done|apply drainUse_ok].
Defined.

Lemma computeRequirement_least_witness :
  match requireValue noWait loaded (tokens (sampleEntry 1)) WaitcntCounter.Vmem with
  | Some n =>
      (exists t, t ∈ tokens (sampleEntry 1) /\ requires sampleDefiningOp useLoaded sampleTarget t /\
         counter t = WaitcntCounter.Vmem /\ n = positionAwaited (tokens (sampleEntry 1)) t) /\
      forall t, t ∈ tokens (sampleEntry 1) -> requires sampleDefiningOp useLoaded sampleTarget t ->
        counter t = WaitcntCounter.Vmem -> n <= positionAwaited (tokens (sampleEntry 1)) t
  | None => False
  end.
Proof.
  pose proof (computeRequirement_least sampleDefiningOp (inProgram sampleValueOf) sampleTarget
    useLoaded (sampleEntry 1) (fun c => requireValue noWait loaded (tokens (sampleEntry 1)) c)
    ltac:(apply sample_stateWf) ltac:(vm_compute; reflexivity) WaitcntCounter.Vmem) as H.
  replace (drainsAll sampleTarget useLoaded) with false in H by (vm_compute; reflexivity).
  replace (requireValue noWait loaded (tokens (sampleEntry 1)) WaitcntCounter.Vmem) with (Some 0) in *
    by (vm_compute; reflexivity).
  exact H.
Defined.

Lemma emitted_counts_fit_witness :
  exists max, getCounterMax WaitcntCounter.Vmem (mkIsaVersion 9 4 2) = Ok max /\
    (0 < max -> 0 <= 0 <= max /\ (WaitcntCounter.Vmem <> WaitcntCounter.Vscnt -> 0 < max)).
Proof.
  apply (emitted_counts_fit sampleDefiningOp (inProgram sampleValueOf) sampleTarget useLoaded
    (sampleEntry 1) (waitOf transferUse) (afterOf transferUse) WaitcntCounter.Vmem 0).
  - apply sample_stateWf.
  - apply drainUse_ok.
  - by left.
  - by vm_compute.
Defined.

Lemma sample_masks c max :
  getCounterMax c (target_isa sampleTarget) = Ok max -> 0 <= max.
Proof. destruct c; simpl; intros [= <-]; lia. Qed.

Lemma drain_leaves_no_wait_witness :
  requireValue noWait loaded (tokens (afterOf transferUse)) WaitcntCounter.Vmem = None.
Proof.
  apply (drain_leaves_no_wait sampleDefiningOp (inProgram sampleValueOf) sampleTarget useLoaded
    (sampleEntry 1) (waitOf transferUse) (afterOf transferUse)
    (requireValue noWait loaded (tokens (afterOf transferUse)))).
  - apply sample_stateWf.
  - apply sample_masks.
  - apply drainUse_ok.
  - by vm_compute.
Defined.

Lemma sgpr_name_parses_witness :
  RegisterText.getWaveAMDSGPRName 12 2 = ["s"; "["; "1"; "2"; ":"; "1"; "3"; "]"]%char /\
  RegisterText.parseSGPRRegisterSpan (RegisterText.getWaveAMDSGPRName 12 2) =
  Some (mkSpan RegClass.SGPR 12 14).
Proof.
  split; [by vm_compute|]. apply (sgpr_name_parses (H := exampleWaits)); [|lia|lia|unfold UINT_MAX; lia].
  intros n [Hn _]. by apply readDecimal_decimal.
Defined.

(** ** A register that an escaping load still writes

    The load of [loaded] is outstanding on an edge to a block that its definition
    does not dominate; the register allocator is free to give v4 to another value
    there. *)

Definition overwrite : TicketOp :=
  sampleOp 4 OtherOp [Trait.VALUOp] None [address] [vgprAt 7 4].

Definition pendingLoad : WaitState := mkWaitState [vmemToken loaded 0] [].
Definition afterEdge : WaitState := edgeTransfer [] [] (fun _ => false) pendingLoad.

(** In the block of the load, and where its definition dominates, the write of
    v4 waits for the load; on the other side of the edge it does not, although
    the load is as outstanding as before. *)
Lemma escaping_load_loses_register :
  (exists req, computeRequirement sampleDefiningOp overwrite (tokens pendingLoad) sampleTarget
     = Ok req /\ req WaitcntCounter.Vmem = Some 0) /\
  tokens afterEdge = [mkToken (OfValue None) 1 0 WaitcntCounter.Vmem false false] /\
  (exists req, computeRequirement sampleDefiningOp overwrite (tokens afterEdge) sampleTarget
     = Ok req /\ forall c, req c = None).
Proof.
  split_and!.
  - eexists. split; [reflexivity|by vm_compute].
  - by vm_compute.
  - eexists. split; [reflexivity|]. intros c. by destruct c.
Qed.

(** The high half that keeps the low half of its register: the pass skips the
    operand, but the result lies in the register that the low load writes, so
    that it waits for the low load all the same. *)
Definition lowHalf : Value := vgprAt 2 4.
Definition lowLoad : TicketOp :=
  sampleOp 5 BufferLoadU8D16Op [Trait.VMEMLoadOp]
    (Some (mkWaitcntInfo WaitcntEvent.Vmem 1 false)) [address] [lowHalf].
Definition highLoad : TicketOp :=
  sampleOp 6 BufferLoadU8D16HiOp [Trait.VMEMLoadOp]
    (Some (mkWaitcntInfo WaitcntEvent.Vmem 1 false)) [address; lowHalf] [vgprAt 9 4].
Definition halfDefiningOp (v : Value) : option TicketOp :=
  if (value_id v =? 2)%N then Some lowLoad else None.

Lemma d16_hi_waits_for_low :
  isD16LowPreservedOperand halfDefiningOp highLoad 1 lowHalf = true /\
  exists req, computeRequirement halfDefiningOp highLoad [vmemToken lowHalf 0] sampleTarget
    = Ok req /\ req WaitcntCounter.Vmem = Some 0.
Proof. split; [by vm_compute|]. eexists. split; [reflexivity|by vm_compute]. Qed.
