(* ===== verification/GapIR.v ===== *)
(** * What the hazard passes read

    Machine operations as [WaveAMDHazardWaits.cpp] sees them, the
    configuration of a target, and what the passes cache about an operation
    ([HazardOpInfo]); the singleton resources of
    [WaveAMDHardwareResources.cpp]. *)

From stdpp Require Import base tactics list gmap numbers strings.
From S2P Require Import Prelude CostEnums ArchData MachineIR LatencyTable.
From S2P Require Import OpClassifier ExecState TicketIR.

(** ** Operations *)

(** [MMAOpInterface]. *)
Record MmaOperands : Set := mkMmaOperands {
  mma_A : Value;
  mma_B : Value;
  mma_Acc : Value;
  mma_AccResult : Value
}.

(** An operation with the interfaces and attributes that the passes read.
    [g_controlFlow]: it implements a region-branch, region-terminator or branch
    interface; [g_m0Value], [g_mma]: [M0WriteHazardOpInterface] and
    [MMAOpInterface]; [g_dstSelResult]: the result of
    [DstSelForwardingOpInterface], when there is one; [g_nopImmediate]: the
    value of the [ImmOp] that defines the operand of an [s_nop]; [g_waitAlu]:
    the fields [va_vdst], [sa_sdst] and [va_sdst] of an [s_wait_alu];
    [g_pure], [g_terminator], [g_regions]: MLIR's [isPure], [IsTerminator]
    and whether the operation has regions. *)
Record GapOp : Type := mkGapOp {
  g_op :> Operation;
  g_controlFlow : bool;
  g_m0Value : option Value;
  g_mma : option MmaOperands;
  g_dstSelResult : option Value;
  g_fixedDefs : list RegSpan;
  g_nopImmediate : option Z;
  g_waitAlu : option Z * option Z * option Z;
  g_pure : bool;
  g_terminator : bool;
  g_regions : bool
}.

Definition plainGapOp (op : Operation) : GapOp :=
  mkGapOp op false None None None [] None (None, None, None) false false false.

(** ** The configuration of a target *)

(** [llvm::MCSubtargetInfo] as far as the passes ask it, LLVM's codec of
    [s_waitcnt] and its numbers of the flat-scratch registers. *)
Record MCSubtargetInfo : Set := mkSubtargetInfo {
  sti_isa : IsaVersion;
  sti_isGFX11Plus : bool;
  sti_isGFX12Plus : bool
}.

Class GapLLVM := {
  decodeLgkmcnt : IsaVersion -> Z -> Z;
  getWaitcntBitMask : IsaVersion -> Z;
  llvm_SGPR0 : Z;
  llvm_SGPR102 : Z;
  llvm_SGPR103 : Z
}.

Definition isCDNA3Family (isa : IsaVersion) : bool :=
  (Major isa =? 9) && (Minor isa =? 4).
Definition isCDNA4Family (isa : IsaVersion) : bool :=
  (Major isa =? 9) && (Minor isa =? 5).

Definition getValuWriteSGPRVmemReadLatency : Z := 5.
Definition getValuWriteExecConsumerLatency (isa : IsaVersion) : Z :=
  if Major isa =? 9 then 4 else 0.

Definition encodeSDelayAluVALU (dependency : Z) : Z := dependency.

Record HazardConfig : Type := mkGapConfig {
  g_arch : option ArchData;
  isaVersion : IsaVersion;
  g_wavefrontSize : Z;
  defaultLgkmcnt : Z;
  valuDep1 : Z;
  m0PipelineDelay : Z;
  m0DmaCaptureDelay : Z;
  valuWriteVGPRMfmaLatency : Z;
  valuWriteVGPRReadlaneLatency : Z;
  valuWriteVGPRPermlane32SwapLatency : Z;
  valuWriteSGPRValuReadLatency : Z;
  valuWriteSGPRVmemReadLatency : Z;
  valuWriteExecConsumerLatency : Z;
  transForwardingWaitStates : Z;
  dstSelForwardingWaitStates : Z;
  hasDelayAlu : bool;
  lgkmWaitNeedsValuGap : bool;
  hasTransForwardingHazard : bool;
  hasDstSelForwardingHazard : bool;
  g_hasTransCoexecutionHazard : bool;
  g_hasWmmaCoexecutionHazard : bool;
  g_hasScratchBaseForwardingHazard : bool;
  legacyWaitCounters : bool
}.

Definition archFlag (arch : option ArchData) (flag : ArchData -> bool) : bool :=
  match arch with Some arch => flag arch | None => false end.

Definition makeHazardConfig `{LLVMTarget} `{GapLLVM} (sti : MCSubtargetInfo)
    (wavefrontSize : Z) : outcome HazardConfig :=
  let isaVersion := sti_isa sti in
  arch ← (if isArchSupported isaVersion
          then arch ← getArchData isaVersion; Ok (Some arch) else Ok None);
  let legacyWaitCounters := negb (sti_isGFX12Plus sti) in
  let issueHazards := getInstructionIssueSlotHazardConfig isaVersion in
  Ok (mkGapConfig arch isaVersion wavefrontSize
        (if legacyWaitCounters
         then decodeLgkmcnt isaVersion (getWaitcntBitMask isaVersion) else 0)
        (encodeSDelayAluVALU 1)
        1
        (if isCDNA4Family isaVersion then 1 else 0)
        getValuWriteVGPRMfmaHazardLatency
        (cfg_valuWriteVGPRScalarRead issueHazards)
        (cfg_valuWriteVGPRPermlane32Swap issueHazards)
        (cfg_valuWriteSGPRValuRead issueHazards)
        getValuWriteSGPRVmemReadLatency
        (getValuWriteExecConsumerLatency isaVersion)
        (cfg_transWriteVGPRValuRead issueHazards)
        1
        (sti_isGFX11Plus sti)
        (legacyWaitCounters && negb (isCDNA4Family isaVersion))
        (isCDNA3Family isaVersion || isCDNA4Family isaVersion)
        (isCDNA3Family isaVersion || isCDNA4Family isaVersion)
        (archFlag arch hasTransCoexecutionHazard)
        (archFlag arch hasWmmaCoexecutionHazard)
        (archFlag arch hasScratchBaseForwardingHazard)
        legacyWaitCounters).

(** ** The encoding of [s_nop] *)

Module SNop.

Definition getBitWidth (sti : MCSubtargetInfo) : Z :=
  if 12 <=? Major (sti_isa sti) then 7
  else if 8 <=? Major (sti_isa sti) then 4 else 3.

Definition getMaxCount (sti : MCSubtargetInfo) : Z :=
  u32 (Z.shiftl 1 (getBitWidth sti)).

(** Without its assertion a zero count wraps. *)
Definition encodeCount (count : Z) : Z := u32 (count - 1).

End SNop.

(** The immediates of the [s_nop]s that [insertNoops] creates; the fuel is the
    count. *)
Fixpoint noopImmediates (fuel : nat) (count maxCount : Z) : list Z :=
  match fuel with
  | O => []
  | S fuel' =>
      if count <=? 0 then []
      else
        let chunk := Z.min count maxCount in
        SNop.encodeCount chunk :: noopImmediates fuel' (count - chunk) maxCount
  end.
Definition insertNoops (count : Z) (sti : MCSubtargetInfo) : list Z :=
  noopImmediates (Z.to_nat count) count (SNop.getMaxCount sti).

(** ** Properties of operations *)

Definition emitsNoMachineInst (op : Operation) : bool :=
  hasTrait op Trait.NoMachineInst.
Definition isVMEMStore (op : Operation) : bool :=
  hasTrait op Trait.VMEMStoreOp.

Definition getLgkmWaitLimit (op : Operation) : option Z :=
  match op_kind op with
  | SWaitcntOp _ _ lgkmcnt => lgkmcnt
  | _ => None
  end.

Definition isSGPRSpan (span : RegSpan) : bool :=
  bool_decide (span_regClass span = RegClass.SGPR).

Definition hasSGPRDef (op : GapOp) : bool :=
  existsb (fun result =>
    match getAllocatedRegSpan result with
    | Some span => isSGPRSpan span
    | None => false
    end) (op_results op)
  || existsb isSGPRSpan (g_fixedDefs op).

Definition isMFMA (op : Operation) : bool := hasTrait op Trait.MFMAOp.

Definition isPermlane32Swap (op : Operation) : bool :=
  match op_kind op with VPermlane32SwapB32TupleOp => true | _ => false end.

Definition isExecWriteHazardConsumer (op : Operation) : bool :=
  isMFMA op || isPermlane32Swap op.

Definition isVALUForCoexecution (op : Operation) : bool :=
  hasTrait op Trait.VALUOp || hasTrait op Trait.LDSDmaOp.

Definition isVMEM (op : Operation) : bool :=
  hasTrait op Trait.VMEMLoadOp || hasTrait op Trait.VMEMStoreOp.

Definition isDS (op : Operation) : bool := hasTrait op Trait.DSOp.

Definition isLdsDmaIssue (op : Operation) : bool := hasTrait op Trait.LDSDmaOp.

Section Classified.
Context `{LLVMTarget} (cfg : HazardConfig).

Definition isXdlWmma (op : Operation) : outcome bool :=
  match g_arch cfg with
  | None => Ok false
  | Some arch =>
      if negb (hasTrait op Trait.WMMAOp) then Ok false
      else
        cls ← classifyOp op;
        if negb (isSchedClassSupported arch cls) then Ok false
        else unit ← funit arch cls;
             Ok (bool_decide (unit = FunctionalUnit.MFMA_XDL))
  end.

Definition gapIsLegacyVALU (op : Operation) : outcome bool :=
  if hasTrait op Trait.VALUOp && negb (isMFMA op)
  then xdl ← isXdlWmma op; Ok (negb xdl)
  else Ok false.

Definition isTransOp (op : Operation) : outcome bool :=
  legacy ← gapIsLegacyVALU op;
  if negb legacy then Ok false
  else cls ← classifyOp op; Ok (bool_decide (cls = SchedClass.WriteTrans32)).

Definition isCoexecutableVALU (op : Operation) : outcome bool :=
  trans ← isTransOp op;
  Ok (isVALUForCoexecution op && negb trans && negb (hasTrait op Trait.WMMAOp)
      && negb (hasTrait op Trait.LDSDmaOp)).

(** The [report_fatal_error] is [Fatal]. *)
Definition gapMfmaPassCount (op : Operation) : outcome Z :=
  cls ← classifyOp op;
  match cls with
  | SchedClass.Write2PassMAI => Ok 2
  | SchedClass.Write4PassMAI => Ok 4
  | SchedClass.Write8PassMAI => Ok 8
  | SchedClass.Write16PassMAI => Ok 16
  | _ => Fatal "MFMA op lacks MAI schedule class"
  end.

Definition getHazardWaitStateCount (op : GapOp) : outcome Z :=
  match op_kind op with
  | SNopOp =>
      match g_nopImmediate op with
      | None => Failure
      | Some encoded =>
          let bits := if 12 <=? Major (isaVersion cfg) then 7
                      else if 8 <=? Major (isaVersion cfg) then 4 else 3 in
          if Z.shiftl 1 bits <=? encoded then Failure
          else Ok (u32 (encoded + 1))
      end
  | _ => getInstructionIssueCount op (isaVersion cfg) (g_wavefrontSize cfg)
  end.
End Classified.

(** What the passes know about an operation.  The analysis of the insertion
    pass has no cache and computes each field where the repair pass reads the
    record; the model computes the record in both. *)
Record HazardOpInfo : Type := mkOpInfo {
  storeWriteData : option StoreWriteDataHazard;
  lgkmWaitLimit : option Z;
  info_waitcnt : WaitcntInfo;
  schedClass : SchedClass.t;
  waitStateCount : Z;
  info_mfmaPasses : Z;
  noMachineInst : bool;
  info_controlFlow : bool;
  mfma : bool;
  legacyValu : bool;
  trans : bool;
  xdlWmma : bool;
  valuForCoexec : bool;
  coexecValu : bool;
  sgprWrite : bool;
  scratchMemory : bool;
  vmem : bool;
  vmemStore : bool;
  execWriteConsumer : bool;
  valu : bool;
  writesExec : bool;
  xdlResultConsumer : bool;
  readFirstLane : bool;
  permlane32Swap : bool;
  ldsDmaIssue : bool;
  info_ds : bool
}.

(** The function that [collectHazardOpInfo] applies to every operation. *)
Definition getHazardOpInfo `{LLVMTarget} (op : GapOp) (cfg : HazardConfig) :
    outcome HazardOpInfo :=
  _ ← validateInstructionIssueCountTarget op (isaVersion cfg);
  storeWriteData ← getStoreWriteDataHazard op (isaVersion cfg);
  waitStates ← getHazardWaitStateCount cfg op;
  passes ← (if isMFMA op then gapMfmaPassCount op else Ok 0);
  legacyValu ← gapIsLegacyVALU cfg op;
  trans ← isTransOp cfg op;
  xdlWmma ← isXdlWmma cfg op;
  schedClass ← (if xdlWmma : bool then classifyOp op
                else Ok SchedClass.NumSchedClasses);
  coexecValu ← isCoexecutableVALU cfg op;
  Ok (mkOpInfo storeWriteData (getLgkmWaitLimit op) (getWaitcntInfo op)
        schedClass waitStates passes (emitsNoMachineInst op) (g_controlFlow op)
        (isMFMA op) legacyValu trans xdlWmma (isVALUForCoexecution op)
        coexecValu
        ((hasTrait op Trait.SALUOp || isVALUForCoexecution op) && hasSGPRDef op)
        (hasTrait op Trait.ScratchMemoryOp) (isVMEM op) (isVMEMStore op)
        (isExecWriteHazardConsumer op) (hasTrait op Trait.VALUOp)
        (hasTrait op Trait.WritesExecOp) (isXdlResultHazardConsumer op)
        (match op_kind op with VReadfirstlaneB32Op => true | _ => false end)
        (isPermlane32Swap op) (isLdsDmaIssue op) (isDS op)).

(** ** Singleton resources *)

Module HardwareResourceKind.
Inductive t : Set := SCC | VCC | EXEC | M0.
#[global] Instance t_eq_dec : EqDecision t.
Proof. solve_decision. Defined.
End HardwareResourceKind.

Record HardwareResourceEffects : Set := mkEffects {
  effect_reads : list HardwareResourceKind.t;
  effect_writes : list HardwareResourceKind.t
}.

Definition addUnique (values : list HardwareResourceKind.t)
    (kind : HardwareResourceKind.t) : list HardwareResourceKind.t :=
  if decide (kind ∈ values) then values else values ++ [kind].

Definition getHardwareResourceForValue (value : Value) :
    option HardwareResourceKind.t :=
  match value_type value with
  | M0Type => Some HardwareResourceKind.M0
  | RegType RegClass.SCC _ _ => Some HardwareResourceKind.SCC
  | RegType RegClass.VCC _ _ => Some HardwareResourceKind.VCC
  | _ => None
  end.

Definition addResources (acc : list HardwareResourceKind.t)
    (values : list Value) : list HardwareResourceKind.t :=
  fold_left (fun acc value =>
    match getHardwareResourceForValue value with
    | Some kind => addUnique acc kind
    | None => acc
    end) values acc.

Definition getHardwareResourceEffects (op : Operation) :
    HardwareResourceEffects :=
  let reads := addResources [] (op_operands op) in
  let writes := addResources [] (op_results op) in
  let reads := if hasTrait op Trait.ReadsExecOp
               then addUnique reads HardwareResourceKind.EXEC else reads in
  let writes := if hasTrait op Trait.WritesExecOp
                then addUnique writes HardwareResourceKind.EXEC else writes in
  let writes := match op_kind op with
                | ExecIfOp => addUnique writes HardwareResourceKind.SCC
                | _ => writes
                end in
  mkEffects reads writes.
