(* ===== verification/GapState.v ===== *)
(** * The state of the hazard analysis ([HazardState])

    Countdowns of the hazards that are open, on values, on physical registers
    and on singleton resources; their join and their ageing. *)

From stdpp Require Import base tactics list gmap numbers strings.
From S2P Require Import Prelude CostEnums ArchData MachineIR LatencyTable.
From S2P Require Import OpClassifier ExecState TicketIR GapIR.

(** [remaining > count ? remaining - count : 0]. *)
Definition age (count remaining : Z) : Z :=
  if count <? remaining then remaining - count else 0.

(** ** Hazards of values *)

Record ValueHazards : Set := mkValueHazards {
  vh_m0 : Z;
  vh_mfmaStore : Z;
  vh_permlane32Swap : Z
}.
#[export] Instance ValueHazards_eq_dec : EqDecision ValueHazards.
Proof. solve_decision. Defined.

Module vh.
Definition none : ValueHazards := mkValueHazards 0 0 0.
Definition empty (h : ValueHazards) : bool :=
  (vh_m0 h =? 0) && (vh_mfmaStore h =? 0) && (vh_permlane32Swap h =? 0).
Definition joined (h rhs : ValueHazards) : ValueHazards :=
  mkValueHazards (Z.max (vh_m0 h) (vh_m0 rhs))
    (Z.max (vh_mfmaStore h) (vh_mfmaStore rhs))
    (Z.max (vh_permlane32Swap h) (vh_permlane32Swap rhs)).
Definition joinWith (h rhs : ValueHazards) : ValueHazards * bool :=
  let next := joined h rhs in
  (next, negb (vh_m0 next =? vh_m0 h)
         || negb (vh_mfmaStore next =? vh_mfmaStore h)
         || negb (vh_permlane32Swap next =? vh_permlane32Swap h)).
Definition advance (count : Z) (h : ValueHazards) : ValueHazards :=
  mkValueHazards (age count (vh_m0 h)) (age count (vh_mfmaStore h))
    (age count (vh_permlane32Swap h)).
End vh.

(** ** Hazards of registers *)

Module PhysicalHazardKind.
Inductive t : Set :=
  | MfmaWrite | MfmaSrcCRead | TransWriteVGPR | DstSelWriteVGPR | ValuWriteVGPR
  | ValuWriteSGPR | StoreWriteData.
#[global] Instance t_eq_dec : EqDecision t.
Proof. solve_decision. Defined.
End PhysicalHazardKind.

Record PhysicalHazard : Set := mkPhysical {
  ph_span : RegSpan;
  ph_kind : PhysicalHazardKind.t;
  ph_limit : Z;
  ph_remaining : Z;
  ph_mfmaPasses : Z
}.
#[export] Instance PhysicalHazard_eq_dec : EqDecision PhysicalHazard.
Proof. solve_decision. Defined.

Module CoexecHazardKind.
Inductive t : Set := TransDef | TransUse | WmmaDef | WmmaUse.
#[global] Instance t_eq_dec : EqDecision t.
Proof. solve_decision. Defined.
End CoexecHazardKind.

Record CoexecHazard : Set := mkCoexec {
  ce_span : RegSpan;
  ce_kind : CoexecHazardKind.t;
  ce_wmmaRemaining : Z;
  ce_valuRemaining : Z
}.
#[export] Instance CoexecHazard_eq_dec : EqDecision CoexecHazard.
Proof. solve_decision. Defined.

(** [values] is the [DenseMap], [scratchBase] the array of two. *)
Record HazardState : Set := mkHazardState {
  lgkmToValu : Z;
  lgkmPending : Z;
  m0DmaCapture : Z;
  values : gmap N ValueHazards;
  physical : list PhysicalHazard;
  coexec : list CoexecHazard;
  scratchBase : Z * Z;
  valuWriteVcc : Z;
  execWriteHazard : Z
}.

Definition emptyHazardState : HazardState :=
  mkHazardState 0 0 0 ∅ [] [] (0, 0) 0 0.

(** Assignments to one member. *)
Definition set_lgkmToValu f st := mkHazardState (f (lgkmToValu st))
  (lgkmPending st) (m0DmaCapture st) (values st) (physical st) (coexec st)
  (scratchBase st) (valuWriteVcc st) (execWriteHazard st).
Definition set_lgkmPending f st := mkHazardState (lgkmToValu st)
  (f (lgkmPending st)) (m0DmaCapture st) (values st) (physical st) (coexec st)
  (scratchBase st) (valuWriteVcc st) (execWriteHazard st).
Definition set_m0DmaCapture f st := mkHazardState (lgkmToValu st)
  (lgkmPending st) (f (m0DmaCapture st)) (values st) (physical st) (coexec st)
  (scratchBase st) (valuWriteVcc st) (execWriteHazard st).
Definition set_values f st := mkHazardState (lgkmToValu st)
  (lgkmPending st) (m0DmaCapture st) (f (values st)) (physical st) (coexec st)
  (scratchBase st) (valuWriteVcc st) (execWriteHazard st).
Definition set_physical f st := mkHazardState (lgkmToValu st)
  (lgkmPending st) (m0DmaCapture st) (values st) (f (physical st)) (coexec st)
  (scratchBase st) (valuWriteVcc st) (execWriteHazard st).
Definition set_coexec f st := mkHazardState (lgkmToValu st)
  (lgkmPending st) (m0DmaCapture st) (values st) (physical st) (f (coexec st))
  (scratchBase st) (valuWriteVcc st) (execWriteHazard st).
Definition set_scratchBase f st := mkHazardState (lgkmToValu st)
  (lgkmPending st) (m0DmaCapture st) (values st) (physical st) (coexec st)
  (f (scratchBase st)) (valuWriteVcc st) (execWriteHazard st).
Definition set_valuWriteVcc f st := mkHazardState (lgkmToValu st)
  (lgkmPending st) (m0DmaCapture st) (values st) (physical st) (coexec st)
  (scratchBase st) (f (valuWriteVcc st)) (execWriteHazard st).
Definition set_execWriteHazard f st := mkHazardState (lgkmToValu st)
  (lgkmPending st) (m0DmaCapture st) (values st) (physical st) (coexec st)
  (scratchBase st) (valuWriteVcc st) (f (execWriteHazard st)).

(** ** Equality *)

Definition hasSamePhysicalHazards (st rhs : HazardState) : bool :=
  (length (physical st) =? length (physical rhs))%nat
  && forallb (fun hazard => bool_decide (hazard ∈ physical rhs)) (physical st).

Definition hasSameCoexecHazards (st rhs : HazardState) : bool :=
  (length (coexec st) =? length (coexec rhs))%nat
  && forallb (fun hazard => bool_decide (hazard ∈ coexec rhs)) (coexec st).

Definition sameHazardState (st rhs : HazardState) : bool :=
  (lgkmToValu st =? lgkmToValu rhs) && (lgkmPending st =? lgkmPending rhs)
  && (m0DmaCapture st =? m0DmaCapture rhs)
  && bool_decide (values st = values rhs)
  && hasSamePhysicalHazards st rhs && hasSameCoexecHazards st rhs
  && bool_decide (scratchBase st = scratchBase rhs)
  && (valuWriteVcc st =? valuWriteVcc rhs)
  && (execWriteHazard st =? execWriteHazard rhs).

(** ** Join *)

Definition joinMax (lhs rhs : Z) : Z * bool :=
  let next := Z.max lhs rhs in (next, negb (next =? lhs)).

Definition sameHazard (existing hazard : PhysicalHazard) : bool :=
  bool_decide (ph_span existing = ph_span hazard)
  && bool_decide (ph_kind existing = ph_kind hazard).

Definition sameCoexec (existing hazard : CoexecHazard) : bool :=
  bool_decide (ce_span existing = ce_span hazard)
  && bool_decide (ce_kind existing = ce_kind hazard).

(** The loop of [joinPhysicalHazard] with its [push_back]. *)
Fixpoint joinPhysicalHazard (physical : list PhysicalHazard)
    (hazard : PhysicalHazard) : list PhysicalHazard * bool :=
  match physical with
  | [] => ([hazard], true)
  | existing :: physical' =>
      if negb (sameHazard existing hazard)
      then let '(rest, changed) := joinPhysicalHazard physical' hazard in
           (existing :: rest, changed)
      else
        let '(limit, c1) := joinMax (ph_limit existing) (ph_limit hazard) in
        let '(remaining, c2) :=
          joinMax (ph_remaining existing) (ph_remaining hazard) in
        let '(mfmaPasses, c3) :=
          joinMax (ph_mfmaPasses existing) (ph_mfmaPasses hazard) in
        (mkPhysical (ph_span existing) (ph_kind existing) limit remaining
           mfmaPasses :: physical', c1 || c2 || c3)
  end.

Fixpoint joinCoexecHazard (coexec : list CoexecHazard) (hazard : CoexecHazard) :
    list CoexecHazard * bool :=
  match coexec with
  | [] => ([hazard], true)
  | existing :: coexec' =>
      if negb (sameCoexec existing hazard)
      then let '(rest, changed) := joinCoexecHazard coexec' hazard in
           (existing :: rest, changed)
      else
        let '(wmma, c1) :=
          joinMax (ce_wmmaRemaining existing) (ce_wmmaRemaining hazard) in
        let '(valu, c2) :=
          joinMax (ce_valuRemaining existing) (ce_valuRemaining hazard) in
        (mkCoexec (ce_span existing) (ce_kind existing) wmma valu :: coexec',
         c1 || c2)
  end.

(** [changed |= ...] over a list. *)
Definition joinAll {A B} (join : A -> B -> A * bool) (acc : A)
    (incoming : list B) : A * bool :=
  fold_left (fun acc hazard =>
    let '(next, changed) := join acc.1 hazard in (next, acc.2 || changed))
    incoming (acc, false).

(** One round of the loop over the incoming values. *)
Definition joinValue (vals : gmap N ValueHazards) (entry : N * ValueHazards) :
    gmap N ValueHazards * bool :=
  let '(value, hazards) := entry in
  if vh.empty hazards then (vals, false)
  else let '(next, changed) :=
         vh.joinWith (default vh.none (vals !! value)) hazards in
       (<[value := next]> vals, changed).

Definition joinWith (st rhs : HazardState) : HazardState * bool :=
  let '(toValu, c1) := joinMax (lgkmToValu st) (lgkmToValu rhs) in
  let '(pending, c2) := joinMax (lgkmPending st) (lgkmPending rhs) in
  let '(capture, c3) := joinMax (m0DmaCapture st) (m0DmaCapture rhs) in
  let '(vals, c4) := joinAll joinValue (values st) (map_to_list (values rhs)) in
  let '(phys, c5) := joinAll joinPhysicalHazard (physical st) (physical rhs) in
  let '(coex, c6) := joinAll joinCoexecHazard (coexec st) (coexec rhs) in
  let '(base0, c7) := joinMax (scratchBase st).1 (scratchBase rhs).1 in
  let '(base1, c8) := joinMax (scratchBase st).2 (scratchBase rhs).2 in
  let '(vcc, c9) := joinMax (valuWriteVcc st) (valuWriteVcc rhs) in
  let '(exec, c10) := joinMax (execWriteHazard st) (execWriteHazard rhs) in
  (mkHazardState toValu pending capture vals phys coex (base0, base1) vcc exec,
   c1 || c2 || c3 || c4 || c5 || c6 || c7 || c8 || c9 || c10).

(** [HazardLattice::reset]. *)
Definition resetHazards (st : HazardState) : HazardState * bool :=
  (emptyHazardState,
   negb (lgkmToValu st =? 0) || negb (lgkmPending st =? 0)
   || negb (m0DmaCapture st =? 0) || bool_decide (values st <> ∅)
   || bool_decide (physical st <> []) || bool_decide (coexec st <> [])
   || negb ((scratchBase st).1 =? 0) || negb ((scratchBase st).2 =? 0)
   || negb (valuWriteVcc st =? 0) || negb (execWriteHazard st =? 0)).

(** ** Updates *)

Definition mergeValueHazards (value : Value) (hazards : ValueHazards)
    (st : HazardState) : HazardState :=
  if vh.empty hazards then st
  else set_values (fun vals =>
         <[value_id value :=
             (vh.joinWith (default vh.none (vals !! value_id value)) hazards).1]>
           vals) st.

Definition lookupValueHazards (st : HazardState) (value : Value) :
    ValueHazards := default vh.none (values st !! value_id value).

Definition advanceValueHazards (count : Z) (st : HazardState) : HazardState :=
  if count =? 0 then st
  else set_values (omap (fun hazards =>
         let hazards := vh.advance count hazards in
         if vh.empty hazards then None else Some hazards)) st.

(** The loop of [mergePhysicalHazard]. *)
Fixpoint mergePhysical (physical : list PhysicalHazard)
    (hazard : PhysicalHazard) : list PhysicalHazard :=
  match physical with
  | [] => [hazard]
  | existing :: physical' =>
      if negb (sameHazard existing hazard)
      then existing :: mergePhysical physical' hazard
      else mkPhysical (ph_span existing) (ph_kind existing)
             (Z.max (ph_limit existing) (ph_limit hazard))
             (Z.max (ph_remaining existing) (ph_remaining hazard))
             (Z.max (ph_mfmaPasses existing) (ph_mfmaPasses hazard)) :: physical'
  end.

Definition mergePhysicalHazard (hazard : PhysicalHazard) (st : HazardState) :
    HazardState :=
  if ph_remaining hazard =? 0 then st
  else set_physical (fun physical => mergePhysical physical hazard) st.

(** The loop of [mergeCoexecHazard]. *)
Fixpoint mergeCoexec (coexec : list CoexecHazard) (hazard : CoexecHazard) :
    list CoexecHazard :=
  match coexec with
  | [] => [hazard]
  | existing :: coexec' =>
      if negb (sameCoexec existing hazard)
      then existing :: mergeCoexec coexec' hazard
      else mkCoexec (ce_span existing) (ce_kind existing)
             (Z.max (ce_wmmaRemaining existing) (ce_wmmaRemaining hazard))
             (Z.max (ce_valuRemaining existing) (ce_valuRemaining hazard))
             :: coexec'
  end.

Definition mergeCoexecHazard (hazard : CoexecHazard) (st : HazardState) :
    HazardState :=
  if (ce_wmmaRemaining hazard =? 0) && (ce_valuRemaining hazard =? 0) then st
  else set_coexec (fun coexec => mergeCoexec coexec hazard) st.

(** The loops that age a list and keep what is left. *)
Definition agePhysical (count : Z) (hazard : PhysicalHazard) :
    option PhysicalHazard :=
  let remaining := age count (ph_remaining hazard) in
  if remaining =? 0 then None
  else Some (mkPhysical (ph_span hazard) (ph_kind hazard) (ph_limit hazard)
               remaining (ph_mfmaPasses hazard)).

Definition advancePhysicalHazards (count : Z) (st : HazardState) :
    HazardState :=
  if count =? 0 then st
  else set_execWriteHazard (age count)
         (set_valuWriteVcc (age count)
            (set_physical (omap (agePhysical count)) st)).

Definition ageCoexec (count : Z) (hazard : CoexecHazard) :
    option CoexecHazard :=
  let wmma := age count (ce_wmmaRemaining hazard) in
  let valu := age count (ce_valuRemaining hazard) in
  if (wmma =? 0) && (valu =? 0) then None
  else Some (mkCoexec (ce_span hazard) (ce_kind hazard) wmma valu).

Definition advanceCoexecHazards (count : Z) (st : HazardState) : HazardState :=
  if count =? 0 then st else set_coexec (omap (ageCoexec count)) st.

Definition advanceScratchBaseHazards (count : Z) (st : HazardState) :
    HazardState :=
  set_scratchBase (fun bases => (age count bases.1, age count bases.2)) st.

Definition advanceHazards (count : Z) (advanceLgkm : bool) (st : HazardState) :
    HazardState :=
  let st := if advanceLgkm then set_lgkmToValu (age count) st else st in
  let st := set_m0DmaCapture (age count) st in
  advancePhysicalHazards count (advanceValueHazards count st).

(** The assertion that [remaining] is at most [limit] is the invariant
    [hazardWf] of [GapInv.v]. *)
Definition waitForHazardAge (hazard : PhysicalHazard) (required : Z) : Z :=
  let elapsed := u32 (ph_limit hazard - ph_remaining hazard) in
  if elapsed <? required then required - elapsed else 0.

(** ** Edges *)

(** [zip] stops at the shorter list. *)
Definition propagateValueHazards (sources targets : list Value)
    (st : HazardState) : HazardState :=
  fold_left (fun st '(source, target) =>
    mergeValueHazards target (lookupValueHazards st source) st)
    (zip sources targets) st.

(** The operand lists of the successor slots of a branch that lead to one
    block, one after the other; a block argument of the terminator that the
    terminator itself produces is no operand, and is left out. *)
Definition propagateBranchOperands (slots : list (list (option Value)))
    (arguments : list Value) (st : HazardState) : HazardState :=
  fold_left (fun st operands =>
    propagateValueHazards (omap id operands) arguments st) slots st.

(** [propagateRegionOperands], of the operands that the region interfaces give
    and the inputs of the successor. *)
Definition propagateRegionOperands (sources inputs : list Value)
    (st : HazardState) : HazardState := propagateValueHazards sources inputs st.

Definition inheritNoInstOperandHazards (op : GapOp) (st : HazardState) :
    HazardState :=
  if negb (emitsNoMachineInst op) || bool_decide (op_results op = []) then st
  else
    let joined := fold_left (fun joined operand =>
      (vh.joinWith joined (lookupValueHazards st operand)).1)
      (op_operands op) vh.none in
    fold_left (fun st result => mergeValueHazards result joined st)
      (op_results op) st.
