(* ===== verification/GapTransfer.v ===== *)
(** * What an operation waits for, and what hazards it opens

    The queries of [WaveAMDHazardWaits.cpp] on a [HazardState], the transfer
    function of its analysis and the mitigations of one operation. *)

From stdpp Require Import base tactics list gmap numbers strings.
From S2P Require Import Prelude CostEnums ArchData MachineIR LatencyTable.
From S2P Require Import OpClassifier ExecState TicketIR GapIR GapState.

Definition maxOf (l : list Z) : Z := fold_left Z.max l 0.

(** [if (unsigned wait = first) return wait; return second;]. *)
Definition firstWait (first second : Z) : Z :=
  if first =? 0 then second else first.

Section Waits.
Context (cfg : HazardConfig).

(** ** Latencies *)

Definition getXdlResultLatency (passes : Z) : Z :=
  getXdlResultHazardLatency (isaVersion cfg) passes.
Definition getXdlSrcCOverlapLatency (passes : Z) : Z :=
  getXdlSrcCOverlapHazardLatency (isaVersion cfg) passes.
Definition getXdlSrcCExactLatency (passes : Z) : Z :=
  getXdlSrcCExactHazardLatency (isaVersion cfg) passes.
Definition getXdlSrcCReadWarLatency (passes : Z) : Z :=
  if negb (isCDNA3Family (isaVersion cfg))
     && negb (isCDNA4Family (isaVersion cfg))
  then 0
  else if passes =? 2 then 1 else u32 (passes - 1).

Definition getVGPRWriteHazardLimit : Z :=
  Z.max (valuWriteVGPRMfmaLatency cfg)
    (Z.max (valuWriteVGPRReadlaneLatency cfg)
       (valuWriteVGPRPermlane32SwapLatency cfg)).
Definition getSGPRWriteHazardLimit : Z :=
  Z.max (valuWriteSGPRValuReadLatency cfg) (valuWriteSGPRVmemReadLatency cfg).

(** The assertion that an MFMA hazard carries a pass count is part of the
    invariant [hazardWf]. *)
Definition getHazardMfmaPassCount (hazard : PhysicalHazard) : Z :=
  ph_mfmaPasses hazard.

(** ** Waits for physical hazards *)

Definition getMfmaUseWait (operandIndex : nat) (use : RegSpan)
    (hazard : PhysicalHazard) : Z :=
  match ph_kind hazard with
  | PhysicalHazardKind.ValuWriteVGPR =>
      waitForHazardAge hazard (valuWriteVGPRMfmaLatency cfg)
  | PhysicalHazardKind.MfmaWrite =>
      let passes := getHazardMfmaPassCount hazard in
      if negb (operandIndex =? 2)%nat
      then waitForHazardAge hazard (getXdlResultLatency passes)
      else if decide (use = ph_span hazard)
      then waitForHazardAge hazard (getXdlSrcCExactLatency passes)
      else waitForHazardAge hazard (getXdlSrcCOverlapLatency passes)
  | _ => 0
  end.

Definition getTransForwardingUseWait (info : HazardOpInfo) (use : RegSpan)
    (hazard : PhysicalHazard) : Z :=
  if bool_decide (ph_kind hazard <> PhysicalHazardKind.TransWriteVGPR) then 0
  else if negb (isVGPRSpan use) || negb (legacyValu info) || trans info then 0
  else waitForHazardAge hazard (transForwardingWaitStates cfg).

Definition getDstSelForwardingWait (info : HazardOpInfo) (access : RegSpan)
    (hazard : PhysicalHazard) : Z :=
  if bool_decide (ph_kind hazard <> PhysicalHazardKind.DstSelWriteVGPR)
     || negb (isVGPRSpan access) || negb (valu info) then 0
  else waitForHazardAge hazard (dstSelForwardingWaitStates cfg).

Definition getValuWriteSGPRUseWait (info : HazardOpInfo) (use : RegSpan)
    (hazard : PhysicalHazard) : Z :=
  if bool_decide (ph_kind hazard <> PhysicalHazardKind.ValuWriteSGPR)
     || negb (isSGPRSpan use) then 0
  else if vmem info
  then waitForHazardAge hazard (valuWriteSGPRVmemReadLatency cfg)
  else if legacyValu info
  then waitForHazardAge hazard (valuWriteSGPRValuReadLatency cfg)
  else 0.

Definition getNonMfmaUseWait (info : HazardOpInfo) (use : RegSpan)
    (hazard : PhysicalHazard) : Z :=
  let kindIs k := bool_decide (ph_kind hazard = k) in
  if kindIs PhysicalHazardKind.MfmaWrite && xdlResultConsumer info
  then waitForHazardAge hazard
         (getXdlResultLatency (getHazardMfmaPassCount hazard))
  else if kindIs PhysicalHazardKind.ValuWriteVGPR && readFirstLane info
  then waitForHazardAge hazard (valuWriteVGPRReadlaneLatency cfg)
  else if kindIs PhysicalHazardKind.ValuWriteVGPR && permlane32Swap info
  then waitForHazardAge hazard (valuWriteVGPRPermlane32SwapLatency cfg)
  else firstWait (getTransForwardingUseWait info use hazard)
         (getValuWriteSGPRUseWait info use hazard).

Definition getPhysicalUseWait (info : HazardOpInfo) (operandIndex : nat)
    (use : RegSpan) (hazard : PhysicalHazard) : Z :=
  if negb (overlaps use (ph_span hazard)) then 0
  else firstWait (getDstSelForwardingWait info use hazard)
         (if mfma info then getMfmaUseWait operandIndex use hazard
          else getNonMfmaUseWait info use hazard).

Definition getPhysicalDefWait (info : HazardOpInfo) (def : RegSpan)
    (hazard : PhysicalHazard) : Z :=
  let kindIs k := bool_decide (ph_kind hazard = k) in
  if negb (overlaps def (ph_span hazard)) then 0
  else if kindIs PhysicalHazardKind.MfmaWrite && xdlResultConsumer info
  then waitForHazardAge hazard
         (getXdlResultLatency (getHazardMfmaPassCount hazard))
  else if kindIs PhysicalHazardKind.MfmaSrcCRead
          && (legacyValu info || (info_ds info || vmem info))
  then waitForHazardAge hazard
         (getXdlSrcCReadWarLatency (getHazardMfmaPassCount hazard))
  else if kindIs PhysicalHazardKind.StoreWriteData && valu info
          && isVGPRSpan def
  then waitForHazardAge hazard (ph_limit hazard)
  else getDstSelForwardingWait info def hazard.

Definition getOperandPhysicalWait (op : GapOp) (info : HazardOpInfo)
    (st : HazardState) : Z :=
  maxOf (imap (fun operandIndex operand =>
    match getAllocatedRegSpan operand with
    | None => 0
    | Some span =>
        maxOf (getPhysicalUseWait info operandIndex span <$> physical st)
    end) (op_operands op)).

Definition getResultPhysicalWait (op : GapOp) (info : HazardOpInfo)
    (st : HazardState) : Z :=
  Z.max
    (maxOf ((fun result =>
       match getAllocatedRegSpan result with
       | None => 0
       | Some span => maxOf (getPhysicalDefWait info span <$> physical st)
       end) <$> op_results op))
    (maxOf ((fun def => maxOf (getPhysicalDefWait info def <$> physical st))
              <$> g_fixedDefs op)).

Definition readsVcc (op : Operation) : bool :=
  existsb (fun operand => bool_decide (getRegClass operand = Some RegClass.VCC))
    (op_operands op).

Definition getVccReadWait (op : GapOp) (info : HazardOpInfo)
    (st : HazardState) : Z :=
  if negb (valu info) then 0
  else if readsVcc op then valuWriteVcc st else 0.

Definition getRequiredPhysicalWait (op : GapOp) (info : HazardOpInfo)
    (st : HazardState) : Z :=
  if info_controlFlow info then 0
  else
    let wait := if execWriteConsumer info then execWriteHazard st else 0 in
    let wait := Z.max wait (getOperandPhysicalWait op info st) in
    let wait := Z.max wait (getResultPhysicalWait op info st) in
    Z.max wait (getVccReadWait op info st).

(** ** Waits for hazards of values *)

Definition getRequiredSsaWait (op : GapOp) (info : HazardOpInfo)
    (st : HazardState) : Z :=
  if info_controlFlow info then 0
  else
    fold_left (fun wait operand =>
      let hazards := lookupValueHazards st operand in
      let wait := if decide (value_type operand = M0Type)
                  then Z.max wait (vh_m0 hazards) else wait in
      let wait := if vmemStore info
                  then Z.max wait (vh_mfmaStore hazards) else wait in
      if permlane32Swap info
      then Z.max wait (vh_permlane32Swap hazards) else wait)
    (op_operands op)
    (match g_m0Value op with Some _ => m0DmaCapture st | None => 0 end).

Definition needsValuMitigation (info : HazardOpInfo) (st : HazardState) : bool :=
  negb (lgkmToValu st =? 0) && valu info.

(** ** Waits for co-execution *)

Definition getCoexecValueWait (kind : CoexecHazardKind.t)
    (remaining : CoexecHazard -> Z) (st : HazardState) (value : Value) : Z :=
  match getAllocatedRegSpan value with
  | None => 0
  | Some span =>
      maxOf ((fun hazard =>
        if bool_decide (ce_kind hazard = kind) && overlaps span (ce_span hazard)
        then remaining hazard else 0) <$> coexec st)
  end.

Definition getCoexecValuesWait (kind : CoexecHazardKind.t)
    (remaining : CoexecHazard -> Z) (st : HazardState) (vals : list Value) : Z :=
  maxOf (getCoexecValueWait kind remaining st <$> vals).

Definition getTransCoexecWait (op : GapOp) (info : HazardOpInfo)
    (st : HazardState) : Z :=
  if negb (g_hasTransCoexecutionHazard cfg) || negb (valuForCoexec info)
     || trans info then 0
  else Z.max
    (getCoexecValuesWait CoexecHazardKind.TransDef ce_valuRemaining st
       (op_operands op))
    (getCoexecValuesWait CoexecHazardKind.TransUse ce_valuRemaining st
       (op_results op)).

(** [cast<MMAOpInterface>] of an operation without it is [Fatal]. *)
Definition castMma (op : GapOp) : outcome MmaOperands :=
  match g_mma op with
  | Some mma => Ok mma
  | None => Fatal "cast<MMAOpInterface>() argument of incompatible type"
  end.

Definition getWmmaCoexecWait (op : GapOp) (info : HazardOpInfo)
    (st : HazardState) : outcome Z :=
  if negb (g_hasWmmaCoexecutionHazard cfg) then Ok 0
  else if xdlWmma info then
    mma ← castMma op;
    Ok (Z.max
      (getCoexecValueWait CoexecHazardKind.WmmaDef ce_wmmaRemaining st (mma_A mma))
      (getCoexecValueWait CoexecHazardKind.WmmaDef ce_wmmaRemaining st (mma_B mma)))
  else if negb (coexecValu info) then Ok 0
  else
    let wait := getCoexecValuesWait CoexecHazardKind.WmmaDef ce_valuRemaining st
                  (op_operands op) in
    let wait := Z.max wait
      (getCoexecValuesWait CoexecHazardKind.WmmaDef ce_valuRemaining st
         (op_results op)) in
    Ok (Z.max wait
      (getCoexecValuesWait CoexecHazardKind.WmmaUse ce_valuRemaining st
         (op_results op))).

Definition getRequiredCoexecVNops (op : GapOp) (info : HazardOpInfo)
    (st : HazardState) : outcome Z :=
  if info_controlFlow info then Ok 0
  else wmma ← getWmmaCoexecWait op info st;
       Ok (Z.max (getTransCoexecWait op info st) wmma).

Definition needsScratchBaseWait (info : HazardOpInfo) (st : HazardState) : bool :=
  g_hasScratchBaseForwardingHazard cfg && scratchMemory info
  && (negb ((scratchBase st).1 =? 0) || negb ((scratchBase st).2 =? 0)).
End Waits.

(** ** Produced hazards *)

Section Produced.
Context (cfg : HazardConfig).

Definition addPhysicalHazard (span : RegSpan) (kind : PhysicalHazardKind.t)
    (limit : Z) (st : HazardState) : HazardState :=
  mergePhysicalHazard (mkPhysical span kind limit limit 0) st.

Definition addMfmaHazard (kind : PhysicalHazardKind.t) (latency passes : Z)
    (value : Value) (st : HazardState) : HazardState :=
  match getAllocatedRegSpan value with
  | Some span =>
      mergePhysicalHazard (mkPhysical span kind latency latency passes) st
  | None => st
  end.

Definition addProducedMfmaPhysicalHazards (op : GapOp) (info : HazardOpInfo)
    (st : HazardState) : HazardState :=
  let passes := info_mfmaPasses info in
  let resultLatency := getXdlResultLatency cfg passes in
  let st := fold_left (fun st result =>
    addMfmaHazard PhysicalHazardKind.MfmaWrite resultLatency passes result st)
    (op_results op) st in
  let srcCReadWarLatency := getXdlSrcCReadWarLatency cfg passes in
  if srcCReadWarLatency =? 0 then st
  else match g_mma op with
       | None => st
       | Some mma =>
           addMfmaHazard PhysicalHazardKind.MfmaSrcCRead srcCReadWarLatency
             passes (mma_Acc mma) st
       end.

Definition addProducedValuRegHazard (result : Value) (st : HazardState) :
    HazardState :=
  match value_type result with
  | RegType RegClass.VCC _ _ =>
      set_valuWriteVcc (Z.max (valuWriteSGPRValuReadLatency cfg)) st
  | RegType regClass _ _ =>
      let st := if decide (regClass = RegClass.VGPR)
                then mergeValueHazards result
                       (mkValueHazards 0 0
                          (valuWriteVGPRPermlane32SwapLatency cfg)) st
                else st in
      match getAllocatedRegSpan result with
      | None => st
      | Some span =>
          let st := if isVGPRSpan span
                    then addPhysicalHazard span PhysicalHazardKind.ValuWriteVGPR
                           (getVGPRWriteHazardLimit cfg) st
                    else st in
          if isSGPRSpan span
          then addPhysicalHazard span PhysicalHazardKind.ValuWriteSGPR
                 (getSGPRWriteHazardLimit cfg) st
          else st
      end
  | _ => st
  end.

Definition addVGPRHazard (kind : PhysicalHazardKind.t) (limit : Z)
    (result : Value) (st : HazardState) : HazardState :=
  match getAllocatedRegSpan result with
  | Some span =>
      if negb (isVGPRSpan span) then st else addPhysicalHazard span kind limit st
  | None => st
  end.

Definition addProducedTransRegHazard (result : Value) (st : HazardState) :
    HazardState :=
  if negb (hasTransForwardingHazard cfg) then st
  else addVGPRHazard PhysicalHazardKind.TransWriteVGPR
         (transForwardingWaitStates cfg) result st.

Definition addProducedDstSelForwardingHazard (op : GapOp) (st : HazardState) :
    HazardState :=
  if negb (hasDstSelForwardingHazard cfg) then st
  else match g_dstSelResult op with
       | None => st
       | Some result =>
           addVGPRHazard PhysicalHazardKind.DstSelWriteVGPR
             (dstSelForwardingWaitStates cfg) result st
       end.

Definition addProducedValuPhysicalHazards (op : GapOp) (info : HazardOpInfo)
    (st : HazardState) : HazardState :=
  let st := if writesExec info
            then set_execWriteHazard (Z.max (valuWriteExecConsumerLatency cfg)) st
            else st in
  let transOp := hasTransForwardingHazard cfg && trans info in
  fold_left (fun st result =>
    let st := if transOp then addProducedTransRegHazard result st else st in
    addProducedValuRegHazard result st) (op_results op) st.

Definition addProducedStorePhysicalHazards (info : HazardOpInfo)
    (st : HazardState) : HazardState :=
  match storeWriteData info with
  | None => st
  | Some hazard =>
      match getAllocatedRegSpan (hazard_data hazard) with
      | Some span =>
          addPhysicalHazard span PhysicalHazardKind.StoreWriteData
            (hazard_latency hazard) st
      | None => st
      end
  end.

Definition addProducedPhysicalHazards (op : GapOp) (info : HazardOpInfo)
    (st : HazardState) : HazardState :=
  if mfma info then addProducedMfmaPhysicalHazards op info st
  else
    let st := if legacyValu info
              then addProducedValuPhysicalHazards op info st else st in
    let st := addProducedDstSelForwardingHazard op st in
    addProducedStorePhysicalHazards info st.

Definition addProducedHazards (op : GapOp) (info : HazardOpInfo)
    (st : HazardState) : HazardState :=
  let st := if ldsDmaIssue info
            then set_m0DmaCapture (Z.max (m0DmaCaptureDelay cfg)) st else st in
  let st := match g_m0Value op with
            | Some value =>
                mergeValueHazards value
                  (mkValueHazards (m0PipelineDelay cfg) 0 0) st
            | None => st
            end in
  let st := if mfma info
            then
              let resultLatency :=
                getXdlResultLatency cfg (info_mfmaPasses info) in
              fold_left (fun st result =>
                mergeValueHazards result (mkValueHazards 0 resultLatency 0) st)
                (op_results op) st
            else st in
  addProducedPhysicalHazards op info st.

Definition addCoexecSpan (kind : CoexecHazardKind.t) (wmmaRemaining
    valuRemaining : Z) (st : HazardState) (value : Value) : HazardState :=
  match getAllocatedRegSpan value with
  | None => st
  | Some span =>
      mergeCoexecHazard (mkCoexec span kind wmmaRemaining valuRemaining) st
  end.

Section Wmma.
Context `{LLVMTarget}.

(** [divideCeil] of the latency as an unsigned number. *)
Definition getWmmaVALUWaitSlots (info : HazardOpInfo) : outcome Z :=
  match g_arch cfg with
  | None => Fatal "dereference of a null ArchData"
  | Some arch =>
      latency ← getLatency arch (schedClass info);
      if latency =? 4 then Ok 1
      else Ok ((u32 latency + 1) / 2)
  end.

Definition addProducedCoexecHazards (op : GapOp) (info : HazardOpInfo)
    (st : HazardState) : outcome HazardState :=
  let st :=
    if g_hasTransCoexecutionHazard cfg && trans info
    then
      let st := fold_left (addCoexecSpan CoexecHazardKind.TransDef 0 1)
                  (op_results op) st in
      fold_left (addCoexecSpan CoexecHazardKind.TransUse 0 1) (op_operands op) st
    else st in
  if negb (g_hasWmmaCoexecutionHazard cfg) || negb (xdlWmma info) then Ok st
  else
    mma ← castMma op;
    valuRemaining ← getWmmaVALUWaitSlots info;
    let st := addCoexecSpan CoexecHazardKind.WmmaDef (u32 (valuRemaining + 1))
                valuRemaining st (mma_AccResult mma) in
    let st := addCoexecSpan CoexecHazardKind.WmmaUse 0 valuRemaining st
                (mma_A mma) in
    Ok (addCoexecSpan CoexecHazardKind.WmmaUse 0 valuRemaining st (mma_B mma)).
End Wmma.

Section ScratchBase.
Context `{GapLLVM}.

Definition getSGPRSpan (llvmRegister : Z) : RegSpan :=
  let index := u32 (llvmRegister - llvm_SGPR0) in
  mkSpan RegClass.SGPR index (index + 1).
Definition getFlatScratchBaseSGPRSpans : RegSpan * RegSpan :=
  (getSGPRSpan llvm_SGPR102, getSGPRSpan llvm_SGPR103).
Definition getScratchBaseForwardingSGPRWriteLimit : Z := 10.

(** The lambda [addSpan]. *)
Definition addScratchSpan (st : HazardState) (span : RegSpan) : HazardState :=
  let bases := getFlatScratchBaseSGPRSpans in
  let limit := getScratchBaseForwardingSGPRWriteLimit in
  set_scratchBase (fun remaining =>
    (if overlaps span bases.1 then limit else remaining.1,
     if overlaps span bases.2 then limit else remaining.2)) st.

Definition addProducedScratchBaseHazards (op : GapOp) (info : HazardOpInfo)
    (st : HazardState) : HazardState :=
  if negb (g_hasScratchBaseForwardingHazard cfg) || negb (sgprWrite info) then st
  else
    let st := fold_left addScratchSpan
                (omap getAllocatedRegSpan (op_results op)) st in
    fold_left addScratchSpan (g_fixedDefs op) st.
End ScratchBase.

(** ** Waits that the program has *)

Definition isSWaitAlu (op : Operation) : bool :=
  match op_kind op with SWaitAluOp => true | _ => false end.

Definition applySWaitAlu (op : GapOp) (st : HazardState) : HazardState :=
  if negb (isSWaitAlu op) then st
  else
    let '(va_vdst, sa_sdst, va_sdst) := g_waitAlu op in
    let zero field := bool_decide (field = Some 0) in
    let erase kinds := set_physical (List.filter (fun hazard =>
      negb (bool_decide (ph_kind hazard ∈ kinds)))) in
    let st := if zero va_vdst
              then erase [PhysicalHazardKind.TransWriteVGPR;
                          PhysicalHazardKind.ValuWriteVGPR] st
              else st in
    let st := if zero va_sdst
              then erase [PhysicalHazardKind.ValuWriteSGPR] st else st in
    if zero sa_sdst && zero va_sdst
    then set_scratchBase (fun _ => (0, 0)) st else st.

Definition getMaxTrackedLgkmPending : Z := u32 (defaultLgkmcnt cfg + 1).

Definition addPendingLgkmIssue (info : HazardOpInfo) (st : HazardState) :
    HazardState :=
  if negb (legacyWaitCounters cfg) then st
  else
    let waitcnt := info_waitcnt info in
    if bool_decide (getLegacyWaitcntCounter (event waitcnt)
                    <> WaitcntCounter.Lgkm) || (issueCount waitcnt =? 0)
    then st
    else
      let maxTrackedPending := getMaxTrackedLgkmPending in
      set_lgkmPending (fun pending =>
        Z.min maxTrackedPending
          (u32 (pending + Z.min (issueCount waitcnt) maxTrackedPending))) st.

Definition applyLgkmWait (info : HazardOpInfo) (st : HazardState) :
    HazardState :=
  match lgkmWaitLimit info with
  | None => st
  | Some limit =>
      if defaultLgkmcnt cfg <=? limit then st
      else
        let drained := limit <? lgkmPending st in
        let st := set_lgkmPending (fun pending => Z.min pending limit) st in
        if drained && lgkmWaitNeedsValuGap cfg
        then set_lgkmToValu (Z.max 1) st else st
  end.

(** ** Transfer *)

Context `{LLVMTarget} `{GapLLVM}.

(** The part of [transferHazards] that ages the hazards. *)
Definition ageHazards (info : HazardOpInfo) (st : HazardState) : HazardState :=
  if noMachineInst info then st
  else
    let issueCount := waitStateCount info in
    let st := advanceHazards issueCount (negb (info_controlFlow info)) st in
    let st := if valuForCoexec info then advanceCoexecHazards issueCount st
              else st in
    if sgprWrite info then advanceScratchBaseHazards issueCount st else st.

Definition transferHazards (op : GapOp) (info : HazardOpInfo)
    (st : HazardState) : outcome HazardState :=
  let st := ageHazards info st in
  if info_controlFlow info then Ok st
  else
    let st := inheritNoInstOperandHazards op st in
    let st := applySWaitAlu op st in
    let st := addProducedHazards op info st in
    st ← addProducedCoexecHazards op info st;
    let st := addProducedScratchBaseHazards op info st in
    let st := addPendingLgkmIssue info st in
    Ok (applyLgkmWait info st).

(** ** Mitigation *)

(** The instructions that the rewrite creates before an operation. *)
Inductive Inserted : Set :=
  | InsertedSNop (immediate : Z)
  | InsertedSDelayAlu (immediate : Z)
  | InsertedVNop
  | InsertedSWaitAlu.

Definition insertValuMitigation (sti : MCSubtargetInfo) : list Inserted :=
  if hasDelayAlu cfg then [InsertedSDelayAlu (valuDep1 cfg)]
  else InsertedSNop <$> insertNoops 1 sti.

(** The steps that [rewriteOp] and [getRequiredMitigation] take one after the
    other: for each, how much is missing, and the state after it. *)
Definition slotStep (op : GapOp) (info : HazardOpInfo) (st : HazardState) :
    Z * HazardState :=
  let wait := Z.max (getRequiredSsaWait op info st)
                (getRequiredPhysicalWait cfg op info st) in
  (wait, if wait =? 0 then st else advanceHazards wait true st).

Definition valuStep (info : HazardOpInfo) (st : HazardState) :
    bool * HazardState :=
  if needsValuMitigation info st then (true, advanceHazards 1 true st)
  else (false, st).

Definition coexecStep (op : GapOp) (info : HazardOpInfo) (st : HazardState) :
    outcome (Z * HazardState) :=
  vnops ← getRequiredCoexecVNops cfg op info st;
  Ok (vnops, if vnops =? 0 then st
             else advanceCoexecHazards vnops (advanceHazards vnops true st)).

Definition scratchStep (info : HazardOpInfo) (st : HazardState) :
    bool * HazardState :=
  if needsScratchBaseWait cfg info st
  then (true, set_scratchBase (fun _ => (0, 0)) (advanceHazards 1 true st))
  else (false, st).

Definition getRequiredMitigation (op : GapOp) (info : HazardOpInfo)
    (st : HazardState) : outcome (Z * HazardState) :=
  let '(wait, st) := slotStep op info st in
  let '(needsValu, st) := valuStep info st in
  let count := u32 (wait + Z.b2z needsValu) in
  '(vnops, st) ← coexecStep op info st;
  let '(needsScratch, st) := scratchStep info st in
  Ok (u32 (u32 (count + vnops) + Z.b2z needsScratch), st).

(** [rewriteOp]: what is inserted before the operation and the state after
    it; [post] is the state that the solver has after the operation. *)
Definition rewriteOp (sti : MCSubtargetInfo) (op : GapOp)
    (post : option HazardState) (st : HazardState) :
    outcome (list Inserted * HazardState) :=
  if g_controlFlow op then Ok ([], default st post)
  else
    info ← getHazardOpInfo op cfg;
    let '(wait, st) := slotStep op info st in
    let '(needsValu, st) := valuStep info st in
    '(vnops, st) ← coexecStep op info st;
    let '(needsScratch, st) := scratchStep info st in
    st ← transferHazards op info st;
    Ok ((InsertedSNop <$> insertNoops wait sti)
        ++ (if needsValu then insertValuMitigation sti else [])
        ++ replicate (Z.to_nat vnops) InsertedVNop
        ++ (if needsScratch then [InsertedSWaitAlu] else []), st).

(** [rewriteBlock], from the state that the solver has at the block's entry;
    [post i] is the solver's state after the operation of number [i]. *)
Fixpoint rewriteOps (sti : MCSubtargetInfo) (i : nat) (ops : list GapOp)
    (post : nat -> option HazardState) (st : HazardState) :
    outcome (list (list Inserted) * HazardState) :=
  match ops with
  | [] => Ok ([], st)
  | op :: ops' =>
      '(inserted, st) ← rewriteOp sti op (post i) st;
      '(rest, st) ← rewriteOps sti (S i) ops' post st;
      Ok (inserted :: rest, st)
  end.
Definition rewriteBlock (sti : MCSubtargetInfo) (ops : list GapOp)
    (entry : option HazardState) (post : nat -> option HazardState) :
    outcome (list (list Inserted)) :=
  '(inserted, _) ← rewriteOps sti 0 ops post (default emptyHazardState entry);
  Ok inserted.

(** [visitRegionBranchControlFlowTransfer]: the edge from the operation
    itself counts it as one instruction. *)
Definition visitRegionBranch (fromParent : bool) (branch : GapOp)
    (sources inputs : list Value) (st : HazardState) : HazardState :=
  let st := if fromParent && negb (emitsNoMachineInst branch)
            then advanceHazards 1 false st else st in
  propagateRegionOperands sources inputs st.
End Produced.
