(* ===== verification/GapLattice.v ===== *)
(** * The lattice of hazard states

    Hazards are vectors with one element per key, in the order of their
    arrival.  Merging keeps the keys apart and takes maxima; so hazard states
    form a join semilattice with the order [hle], whose least upper bound is
    [joinWith], and [joinWith] reports a change exactly when there is one. *)

From stdpp Require Import base tactics list gmap numbers strings.
From S2P Require Import Prelude CostEnums ArchData MachineIR LatencyTable.
From S2P Require Import OpClassifier ExecState TicketIR GapIR GapState.

(** ** Vectors with one element per key *)

Section Keyed.
Context {T K : Type} (key : T -> K) (same : T -> T -> bool) (join : T -> T -> T)
  (le : relation T) `{!PreOrder le}.
Hypothesis same_key : forall a b, same a b = true <-> key a = key b.
Hypothesis join_key : forall a b, key (join a b) = key a.
Hypothesis le_key : forall a b, le a b -> key a = key b.
Hypothesis join_ub : forall a b, key a = key b -> le a (join a b) /\ le b (join a b).
Hypothesis join_least : forall a b c, le a c -> le b c -> le (join a b) c.

Fixpoint mergeKeyed (l : list T) (h : T) : list T :=
  match l with
  | [] => [h]
  | x :: l' => if negb (same x h) then x :: mergeKeyed l' h else join x h :: l'
  end.

(** Every element of [l] is below one of [m]. *)
Definition under (l m : list T) : Prop :=
  forall x, x ∈ l -> exists y, y ∈ m /\ le x y.

#[global] Instance under_preorder : PreOrder under.
Proof using PreOrder0.
  split.
  - intros l x Hx. by exists x.
  - intros l m n Hlm Hmn x Hx. destruct (Hlm x Hx) as (y & Hy & Hxy).
    destruct (Hmn y Hy) as (z & Hz & Hyz). exists z. split; [done|by etransitivity].
Qed.

Lemma under_cons x l m :
  under (x :: l) m <-> (exists y, y ∈ m /\ le x y) /\ under l m.
Proof using Type.
  unfold under. split.
  - intros H. split; [apply H, list_elem_of_here|]. intros y Hy. by apply H, list_elem_of_further.
  - intros [H1 H2] y [->|Hy]%elem_of_cons; auto.
Qed.

Lemma mergeKeyed_inv l h y :
  y ∈ mergeKeyed l h ->
  y ∈ l \/ y = h \/ exists x, x ∈ l /\ key x = key h /\ y = join x h.
Proof using same_key.
  induction l as [|x l IH]; simpl.
  - intros ->%list_elem_of_singleton. auto.
  - destruct (same x h) eqn:Hs; simpl; intros [->|Hy]%elem_of_cons.
    + right; right. exists x. split; [apply list_elem_of_here|].
      split; [by apply same_key|done].
    + left. by apply list_elem_of_further.
    + left. apply list_elem_of_here.
    + destruct (IH Hy) as [?|[?|(z & Hz & ?)]]; [left; by apply list_elem_of_further|auto|].
      right; right. exists z. split; [by apply list_elem_of_further|done].
Qed.

Lemma mergeKeyed_keys l h :
  (key <$> mergeKeyed l h) = (key <$> l) \/
  (~ (key h ∈ (key <$> l)) /\ (key <$> mergeKeyed l h) = (key <$> l) ++ [key h]).
Proof using same_key join_key.
  induction l as [|x l IH]; simpl; [right; split; [apply not_elem_of_nil|done]|].
  destruct (same x h) eqn:Hs; csimpl; [by rewrite join_key; left|].
  destruct IH as [->|[Hn ->]]; [by left|]. right. split; [|done].
  apply not_elem_of_cons. split; [|done]. intros Hk. symmetry in Hk.
  apply same_key in Hk. congruence.
Qed.

Lemma mergeKeyed_NoDup l h : NoDup (key <$> l) -> NoDup (key <$> mergeKeyed l h).
Proof using same_key join_key.
  intros Hd. destruct (mergeKeyed_keys l h) as [->|[Hn ->]]; [done|].
  apply NoDup_app. split_and!; [done| |apply NoDup_singleton].
  intros k Hk ->%list_elem_of_singleton. done.
Qed.

Lemma mergeKeyed_ub l h :
  under l (mergeKeyed l h) /\ exists y, y ∈ mergeKeyed l h /\ le h y.
Proof using same_key join_ub PreOrder0.
  induction l as [|x l [IH (y & Hy & Hhy)]]; simpl.
  - split; [by intros ? ?%elem_of_nil|]. exists h. split; [apply list_elem_of_here|done].
  - destruct (same x h) eqn:Hs; simpl.
    + apply same_key in Hs. destruct (join_ub x h Hs) as [H1 H2]. split.
      * intros z [->|Hz]%elem_of_cons; [exists (join x h)|exists z];
          (split; [|done]); [apply list_elem_of_here|by apply list_elem_of_further].
      * exists (join x h). split; [apply list_elem_of_here|done].
    + split.
      * intros z [->|Hz]%elem_of_cons; [exists x; split; [apply list_elem_of_here|done]|].
        destruct (IH z Hz) as (w & Hw & ?). exists w. split; [by apply list_elem_of_further|done].
      * exists y. split; [by apply list_elem_of_further|done].
Qed.

Lemma under_key_unique l x y z :
  NoDup (key <$> l) -> x ∈ l -> y ∈ l -> le z x -> le z y -> x = y.
Proof using le_key.
  intros Hd Hx Hy Hzx Hzy. apply list_elem_of_lookup in Hx as (i & Hi).
  apply list_elem_of_lookup in Hy as (j & Hj).
  assert (i = j) as ->; [|congruence].
  eapply NoDup_lookup; [exact Hd|rewrite list_lookup_fmap, Hi; done|].
  rewrite list_lookup_fmap, Hj. simpl. f_equal.
  rewrite <-(le_key _ _ Hzx). symmetry. by apply le_key.
Qed.

Lemma mergeKeyed_least l h m :
  NoDup (key <$> m) -> under l m -> (exists y, y ∈ m /\ le h y) ->
  under (mergeKeyed l h) m.
Proof using same_key join_least le_key.
  intros Hd Hl (z & Hz & Hhz) y Hy.
  apply mergeKeyed_inv in Hy as [Hy|[->|(x & Hx & Hk & ->)]]; [by apply Hl|by exists z|].
  destruct (Hl x Hx) as (w & Hw & Hxw).
  assert (w = z) as ->; [|exists z; split; [done|by apply join_least]].
  apply list_elem_of_lookup in Hw as (i & Hi). apply list_elem_of_lookup in Hz as (j & Hj).
  assert (i = j) as ->; [|congruence].
  eapply NoDup_lookup; [exact Hd|rewrite list_lookup_fmap, Hi; done|].
  rewrite list_lookup_fmap, Hj. simpl. f_equal.
  rewrite <-(le_key _ _ Hxw), Hk. symmetry. by apply le_key.
Qed.

(** *** A merge that reports changes *)

Context (mergeFlag : list T -> T -> list T * bool) (flag : T -> T -> bool).
Hypothesis mergeFlag_eq : forall l h,
  mergeFlag l h = match l with
                  | [] => ([h], true)
                  | x :: l' =>
                      if negb (same x h)
                      then let '(rest, c) := mergeFlag l' h in (x :: rest, c)
                      else (join x h :: l', flag x h)
                  end.
Hypothesis flag_false : forall x h, same x h = true -> flag x h = false <-> le h x.
Hypothesis join_absorb : forall x h, le h x -> join x h = x.

Lemma mergeFlag_list l h : (mergeFlag l h).1 = mergeKeyed l h.
Proof using mergeFlag_eq.
  induction l as [|x l IH]; rewrite mergeFlag_eq; [done|]. simpl.
  destruct (same x h); [done|]. simpl. rewrite <-IH. by destruct (mergeFlag l h).
Qed.

Lemma mergeFlag_false l h :
  NoDup (key <$> l) ->
  ((mergeFlag l h).2 = false <-> exists y, y ∈ l /\ le h y) /\
  ((mergeFlag l h).2 = false -> mergeKeyed l h = l).
Proof using mergeFlag_eq flag_false join_absorb same_key le_key.
  induction l as [|x l IH]; intros Hd; rewrite mergeFlag_eq.
  { split; [|done]. split; [done|]. by intros (y & Hy%elem_of_nil & _). }
  simpl. apply NoDup_cons in Hd as [Hx Hd]. destruct (same x h) eqn:Hs; simpl.
  - pose proof (flag_false x h Hs) as Hf. split.
    + rewrite Hf. split.
      * intros Hle. exists x. split; [apply list_elem_of_here|done].
      * intros (y & [->|Hy]%elem_of_cons & Hle); [done|]. exfalso. apply Hx.
        apply same_key in Hs. rewrite Hs, (le_key _ _ Hle). by apply list_elem_of_fmap_2.
    + intros Hc. rewrite Hf in Hc. by rewrite join_absorb.
  - destruct (IH Hd) as [H1 H2]. destruct (mergeFlag l h) as [rest c]. simpl in *. split.
    + rewrite H1. split; intros (y & Hy & Hle).
      * exists y. split; [by apply list_elem_of_further|done].
      * apply elem_of_cons in Hy as [->|Hy]; [|by exists y].
        apply le_key in Hle. symmetry in Hle. apply same_key in Hle. congruence.
    + intros Hc. by rewrite H2.
Qed.

End Keyed.

(** ** Joining a list of elements *)

(** [has b a]: [b] is part of [a]. *)
Section JoinAll.
Context {A B : Type} (join : A -> B -> A * bool) (le : relation A) `{!PreOrder le}
  (has : B -> A -> Prop) (ok : A -> Prop) (okB : B -> Prop).
Hypothesis has_mono : forall b a a', has b a -> le a a' -> has b a'.
Hypothesis join_upper : forall a b, ok a -> okB b ->
  ok (join a b).1 /\ le a (join a b).1 /\ has b (join a b).1.
Hypothesis join_lower : forall a b u, ok a -> okB b -> ok u ->
  le a u -> has b u -> le (join a b).1 u.
Hypothesis join_flag : forall a b, ok a -> okB b ->
  ((join a b).2 = false <-> has b a) /\ ((join a b).2 = false -> (join a b).1 = a).

Lemma joinAll_flag_mono bs : forall a f,
  fold_left (fun acc b => let '(next, c) := join acc.1 b in (next, acc.2 || c))
    bs (a, f) =
  ((joinAll join a bs).1, f || (joinAll join a bs).2).
Proof using Type.
  unfold joinAll. induction bs as [|b bs IH]; intros a f; simpl.
  { by rewrite orb_false_r. }
  destruct (join a b) as [a' c]. rewrite (IH a' (f || c)), (IH a' c). simpl.
  by rewrite orb_assoc.
Qed.

Lemma joinAll_cons a b bs :
  joinAll join a (b :: bs) =
  ((joinAll join (join a b).1 bs).1,
   (join a b).2 || (joinAll join (join a b).1 bs).2).
Proof using Type.
  unfold joinAll at 1. simpl. destruct (join a b) as [a' c]. simpl.
  by rewrite joinAll_flag_mono.
Qed.

Lemma hasAll_cons a b bs :
  (forall x, x ∈ b :: bs -> has x a) <-> has b a /\ (forall x, x ∈ bs -> has x a).
Proof using Type.
  clear. setoid_rewrite elem_of_cons. naive_solver.
Qed.

Lemma joinAll_spec bs : (forall b, b ∈ bs -> okB b) -> forall a, ok a ->
  let r := joinAll join a bs in
  ok r.1 /\ le a r.1 /\ (forall b, b ∈ bs -> has b r.1) /\
  (forall u, ok u -> le a u -> (forall b, b ∈ bs -> has b u) -> le r.1 u) /\
  (r.2 = false <-> (forall b, b ∈ bs -> has b a)) /\ (r.2 = false -> r.1 = a).
Proof using All.
  induction bs as [|b bs IH]; intros Hall a Ha.
  { simpl. split_and!; try done; [by intros b ?%elem_of_nil|]. split; [|done].
    intros _ b Hb. by apply elem_of_nil in Hb. }
  rewrite joinAll_cons.
  destruct (join_upper a b Ha) as (U1 & U2 & U3); [apply Hall, list_elem_of_here|].
  destruct (IH (fun b Hb => Hall b (list_elem_of_further _ _ _ Hb)) _ U1)
    as (R1 & R2 & R3 & R4 & R5 & R6).
  destruct (join_flag a b Ha) as [F1 F2]; [apply Hall, list_elem_of_here|].
  cbn zeta. cbn [fst snd]. split_and!.
  - done.
  - by etransitivity.
  - apply hasAll_cons. split; [|done]. by eapply has_mono.
  - intros u Hu Hau [Hbu Hbsu]%hasAll_cons. apply R4; [done| |done].
    apply join_lower; [done|apply Hall, list_elem_of_here|done..].
  - rewrite orb_false_iff, hasAll_cons, F1. split.
    + intros [H1 H2]. split; [done|]. rewrite R5 in H2. by rewrite (F2 (proj2 F1 H1)) in H2.
    + intros [H1 H2]. split; [done|]. rewrite R5. by rewrite (F2 (proj2 F1 H1)).
  - intros [H1 H2]%orb_false_iff. rewrite (R6 H2). by apply F2.
Qed.
End JoinAll.

(** ** The order of hazard states *)

Definition physicalKey (h : PhysicalHazard) : RegSpan * PhysicalHazardKind.t :=
  (ph_span h, ph_kind h).
Definition coexecKey (h : CoexecHazard) : RegSpan * CoexecHazardKind.t :=
  (ce_span h, ce_kind h).

Record physicalLe (a b : PhysicalHazard) : Prop := {
  ple_key : physicalKey a = physicalKey b;
  ple_limit : ph_limit a <= ph_limit b;
  ple_remaining : ph_remaining a <= ph_remaining b;
  ple_passes : ph_mfmaPasses a <= ph_mfmaPasses b
}.
#[export] Instance physicalLe_preorder : PreOrder physicalLe.
Proof.
  split; [intros a; split; try done; lia|].
  intros a b c [K1 L1 R1 P1] [K2 L2 R2 P2]. split; [congruence|lia..].
Qed.

Record coexecLe (a b : CoexecHazard) : Prop := {
  cle_key : coexecKey a = coexecKey b;
  cle_wmma : ce_wmmaRemaining a <= ce_wmmaRemaining b;
  cle_valu : ce_valuRemaining a <= ce_valuRemaining b
}.
#[export] Instance coexecLe_preorder : PreOrder coexecLe.
Proof.
  split; [intros a; split; try done; lia|].
  intros a b c [K1 L1 R1] [K2 L2 R2]. split; [congruence|lia..].
Qed.

Record vhLe (a b : ValueHazards) : Prop := {
  vle_m0 : vh_m0 a <= vh_m0 b;
  vle_mfmaStore : vh_mfmaStore a <= vh_mfmaStore b;
  vle_permlane32Swap : vh_permlane32Swap a <= vh_permlane32Swap b
}.
#[export] Instance vhLe_preorder : PreOrder vhLe.
Proof. split; [intros a; split; lia|]. intros a b c [] []. split; lia. Qed.

Definition hazardsAt (vals : gmap N ValueHazards) (v : N) : ValueHazards :=
  default vh.none (vals !! v).
Definition valuesLe (m n : gmap N ValueHazards) : Prop :=
  forall v, vhLe (hazardsAt m v) (hazardsAt n v).
#[export] Instance valuesLe_preorder : PreOrder valuesLe.
Proof. split; [by intros m v|]. intros m n o H1 H2 v. by transitivity (hazardsAt n v). Qed.

Record hle (a b : HazardState) : Prop := {
  hle_toValu : lgkmToValu a <= lgkmToValu b;
  hle_pending : lgkmPending a <= lgkmPending b;
  hle_capture : m0DmaCapture a <= m0DmaCapture b;
  hle_values : valuesLe (values a) (values b);
  hle_physical : under physicalLe (physical a) (physical b);
  hle_coexec : under coexecLe (coexec a) (coexec b);
  hle_scratch1 : (scratchBase a).1 <= (scratchBase b).1;
  hle_scratch2 : (scratchBase a).2 <= (scratchBase b).2;
  hle_vcc : valuWriteVcc a <= valuWriteVcc b;
  hle_exec : execWriteHazard a <= execWriteHazard b
}.
#[export] Instance hle_preorder : PreOrder hle.
Proof.
  split; [intros a; split; done || lia|].
  intros a b c [] []. split; lia || (by etransitivity).
Qed.

(** One element per key, and countdowns that are not negative. *)
Definition vhOk (h : ValueHazards) : Prop := vhLe vh.none h.
Definition valuesOk (m : gmap N ValueHazards) : Prop := forall v, vhOk (hazardsAt m v).
Record stateOk (st : HazardState) : Prop := {
  ok_values : valuesOk (values st);
  ok_physical : NoDup (physicalKey <$> physical st);
  ok_coexec : NoDup (coexecKey <$> coexec st)
}.

(** ** The join is the least upper bound *)

Lemma joinMax_spec a b :
  a <= (joinMax a b).1 /\ b <= (joinMax a b).1 /\
  (forall u, a <= u -> b <= u -> (joinMax a b).1 <= u) /\
  ((joinMax a b).2 = false <-> b <= a) /\ ((joinMax a b).2 = false -> (joinMax a b).1 = a).
Proof.
  unfold joinMax. simpl. rewrite negb_false_iff, Z.eqb_eq. split_and!; try lia.
Qed.

Section Physical.
Let joinE (a b : PhysicalHazard) : PhysicalHazard :=
  mkPhysical (ph_span a) (ph_kind a) (Z.max (ph_limit a) (ph_limit b))
    (Z.max (ph_remaining a) (ph_remaining b))
    (Z.max (ph_mfmaPasses a) (ph_mfmaPasses b)).
Let flag (a b : PhysicalHazard) : bool :=
  (joinMax (ph_limit a) (ph_limit b)).2
  || (joinMax (ph_remaining a) (ph_remaining b)).2
  || (joinMax (ph_mfmaPasses a) (ph_mfmaPasses b)).2.

Lemma sameHazard_key a b : sameHazard a b = true <-> physicalKey a = physicalKey b.
Proof using Type.
  unfold sameHazard, physicalKey. rewrite andb_true_iff, !bool_decide_eq_true.
  split; [by intros [-> ->]|by intros [=]].
Qed.

Lemma mergePhysical_keyed l h : mergePhysical l h = mergeKeyed sameHazard joinE l h.
Proof using Type. induction l as [|x l IH]; [done|]. simpl. by rewrite IH. Qed.

Lemma physicalJoin_ub a b :
  physicalKey a = physicalKey b -> physicalLe a (joinE a b) /\ physicalLe b (joinE a b).
Proof using Type. intros Hk. split; split; simpl; done || lia. Qed.

Lemma physicalJoin_least a b c :
  physicalLe a c -> physicalLe b c -> physicalLe (joinE a b) c.
Proof using Type. intros [K1 ? ? ?] [K2 ? ? ?]. split; simpl; done || lia. Qed.

Lemma physicalFlag_false x h :
  sameHazard x h = true -> flag x h = false <-> physicalLe h x.
Proof using Type.
  intros Hs%sameHazard_key. unfold flag. rewrite !orb_false_iff.
  destruct (joinMax_spec (ph_limit x) (ph_limit h)) as (_ & _ & _ & -> & _).
  destruct (joinMax_spec (ph_remaining x) (ph_remaining h)) as (_ & _ & _ & -> & _).
  destruct (joinMax_spec (ph_mfmaPasses x) (ph_mfmaPasses h)) as (_ & _ & _ & -> & _).
  split; [intros [[? ?] ?]; by split|intros []; split_and!; done].
Qed.

Lemma physicalJoin_absorb x h : physicalLe h x -> joinE x h = x.
Proof using Type. intros [K ? ? ?]. destruct x, h. unfold joinE. simpl in *. f_equal; lia. Qed.

Lemma joinPhysicalHazard_eq l h :
  joinPhysicalHazard l h = match l with
    | [] => ([h], true)
    | x :: l' =>
        if negb (sameHazard x h)
        then let '(rest, c) := joinPhysicalHazard l' h in (x :: rest, c)
        else (joinE x h :: l', flag x h)
    end.
Proof using Type. by destruct l. Qed.

Lemma mergePhysical_NoDup l h :
  NoDup (physicalKey <$> l) -> NoDup (physicalKey <$> mergePhysical l h).
Proof using Type.
  rewrite mergePhysical_keyed. apply mergeKeyed_NoDup; [apply sameHazard_key|done].
Qed.

Lemma mergePhysical_ub l h :
  under physicalLe l (mergePhysical l h) /\
  exists y, y ∈ mergePhysical l h /\ physicalLe h y.
Proof using Type.
  rewrite mergePhysical_keyed. apply (mergeKeyed_ub physicalKey); [apply _|apply sameHazard_key|].
  apply physicalJoin_ub.
Qed.

Lemma mergePhysical_inv l h y :
  y ∈ mergePhysical l h ->
  y ∈ l \/ y = h \/ exists x, x ∈ l /\ physicalKey x = physicalKey h /\
    y = mkPhysical (ph_span x) (ph_kind x) (Z.max (ph_limit x) (ph_limit h))
          (Z.max (ph_remaining x) (ph_remaining h))
          (Z.max (ph_mfmaPasses x) (ph_mfmaPasses h)).
Proof using Type.
  rewrite mergePhysical_keyed. apply (mergeKeyed_inv physicalKey). apply sameHazard_key.
Qed.

(** [joinPhysicalHazard] merges as [mergePhysicalHazard] does. *)
Lemma joinPhysicalHazard_merge l h : (joinPhysicalHazard l h).1 = mergePhysical l h.
Proof using Type.
  rewrite mergePhysical_keyed.
  apply (mergeFlag_list _ _ _ flag), joinPhysicalHazard_eq.
Qed.

Lemma joinPhysical_spec hs l :
  NoDup (physicalKey <$> l) ->
  let r := joinAll joinPhysicalHazard l hs in
  NoDup (physicalKey <$> r.1) /\ under physicalLe l r.1 /\ under physicalLe hs r.1 /\
  (forall u, NoDup (physicalKey <$> u) -> under physicalLe l u -> under physicalLe hs u ->
     under physicalLe r.1 u) /\
  (r.2 = false <-> under physicalLe hs l) /\ (r.2 = false -> r.1 = l).
Proof using Type.
  intros Hd.
  pose proof (joinAll_spec joinPhysicalHazard (under physicalLe)
    (fun h l => exists y, y ∈ l /\ physicalLe h y)
    (fun l => NoDup (physicalKey <$> l)) (fun _ => True)) as H.
  apply H; try done; clear H.
  - intros h l1 l2 (y & Hy & Hhy) Hu. destruct (Hu y Hy) as (z & Hz & Hyz).
    exists z. split; [done|by etransitivity].
  - intros a b Ha _. rewrite joinPhysicalHazard_merge.
    destruct (mergePhysical_ub a b). split_and!; [by apply mergePhysical_NoDup|done|done].
  - intros a b u Ha _ Hu Hau Hbu. rewrite joinPhysicalHazard_merge, mergePhysical_keyed.
    apply (mergeKeyed_least physicalKey); try done;
      [apply sameHazard_key|by intros ? ? []|apply physicalJoin_least].
  - intros a b Ha _. rewrite joinPhysicalHazard_merge, mergePhysical_keyed.
    apply (mergeFlag_false physicalKey sameHazard joinE physicalLe sameHazard_key)
      with (flag := flag); try done; [by intros ? ? []|apply joinPhysicalHazard_eq| |].
    + apply physicalFlag_false.
    + apply physicalJoin_absorb.
Qed.
End Physical.

Section Coexec.
Let joinE (a b : CoexecHazard) : CoexecHazard :=
  mkCoexec (ce_span a) (ce_kind a)
    (Z.max (ce_wmmaRemaining a) (ce_wmmaRemaining b))
    (Z.max (ce_valuRemaining a) (ce_valuRemaining b)).
Let flag (a b : CoexecHazard) : bool :=
  (joinMax (ce_wmmaRemaining a) (ce_wmmaRemaining b)).2
  || (joinMax (ce_valuRemaining a) (ce_valuRemaining b)).2.

Lemma sameCoexec_key a b : sameCoexec a b = true <-> coexecKey a = coexecKey b.
Proof using Type.
  unfold sameCoexec, coexecKey. rewrite andb_true_iff, !bool_decide_eq_true.
  split; [by intros [-> ->]|by intros [=]].
Qed.

Lemma mergeCoexec_keyed l h : mergeCoexec l h = mergeKeyed sameCoexec joinE l h.
Proof using Type. induction l as [|x l IH]; [done|]. simpl. by rewrite IH. Qed.

Lemma coexecJoin_ub a b :
  coexecKey a = coexecKey b -> coexecLe a (joinE a b) /\ coexecLe b (joinE a b).
Proof using Type. intros Hk. split; split; simpl; done || lia. Qed.

Lemma coexecJoin_least a b c : coexecLe a c -> coexecLe b c -> coexecLe (joinE a b) c.
Proof using Type. intros [K1 ? ?] [K2 ? ?]. split; simpl; done || lia. Qed.

Lemma coexecFlag_false x h :
  sameCoexec x h = true -> flag x h = false <-> coexecLe h x.
Proof using Type.
  intros Hs%sameCoexec_key. unfold flag. rewrite orb_false_iff.
  destruct (joinMax_spec (ce_wmmaRemaining x) (ce_wmmaRemaining h)) as (_ & _ & _ & -> & _).
  destruct (joinMax_spec (ce_valuRemaining x) (ce_valuRemaining h)) as (_ & _ & _ & -> & _).
  split; [intros [? ?]; by split|intros []; split_and!; done].
Qed.

Lemma coexecJoin_absorb x h : coexecLe h x -> joinE x h = x.
Proof using Type. intros [K ? ?]. destruct x, h. unfold joinE. simpl in *. f_equal; lia. Qed.

Lemma joinCoexecHazard_eq l h :
  joinCoexecHazard l h = match l with
    | [] => ([h], true)
    | x :: l' =>
        if negb (sameCoexec x h)
        then let '(rest, c) := joinCoexecHazard l' h in (x :: rest, c)
        else (joinE x h :: l', flag x h)
    end.
Proof using Type. by destruct l. Qed.

Lemma mergeCoexec_NoDup l h :
  NoDup (coexecKey <$> l) -> NoDup (coexecKey <$> mergeCoexec l h).
Proof using Type.
  rewrite mergeCoexec_keyed. apply mergeKeyed_NoDup; [apply sameCoexec_key|done].
Qed.

Lemma mergeCoexec_ub l h :
  under coexecLe l (mergeCoexec l h) /\ exists y, y ∈ mergeCoexec l h /\ coexecLe h y.
Proof using Type.
  rewrite mergeCoexec_keyed. apply (mergeKeyed_ub coexecKey); [apply _|apply sameCoexec_key|].
  apply coexecJoin_ub.
Qed.

Lemma joinCoexecHazard_merge l h : (joinCoexecHazard l h).1 = mergeCoexec l h.
Proof using Type.
  rewrite mergeCoexec_keyed. apply (mergeFlag_list _ _ _ flag), joinCoexecHazard_eq.
Qed.

Lemma joinCoexec_spec hs l :
  NoDup (coexecKey <$> l) ->
  let r := joinAll joinCoexecHazard l hs in
  NoDup (coexecKey <$> r.1) /\ under coexecLe l r.1 /\ under coexecLe hs r.1 /\
  (forall u, NoDup (coexecKey <$> u) -> under coexecLe l u -> under coexecLe hs u ->
     under coexecLe r.1 u) /\
  (r.2 = false <-> under coexecLe hs l) /\ (r.2 = false -> r.1 = l).
Proof using Type.
  intros Hd.
  pose proof (joinAll_spec joinCoexecHazard (under coexecLe)
    (fun h l => exists y, y ∈ l /\ coexecLe h y)
    (fun l => NoDup (coexecKey <$> l)) (fun _ => True)) as H.
  apply H; try done; clear H.
  - intros h l1 l2 (y & Hy & Hhy) Hu. destruct (Hu y Hy) as (z & Hz & Hyz).
    exists z. split; [done|by etransitivity].
  - intros a b Ha _. rewrite joinCoexecHazard_merge.
    destruct (mergeCoexec_ub a b). split_and!; [by apply mergeCoexec_NoDup|done|done].
  - intros a b u Ha _ Hu Hau Hbu. rewrite joinCoexecHazard_merge, mergeCoexec_keyed.
    apply (mergeKeyed_least coexecKey); try done;
      [apply sameCoexec_key|by intros ? ? []|apply coexecJoin_least].
  - intros a b Ha _. rewrite joinCoexecHazard_merge, mergeCoexec_keyed.
    apply (mergeFlag_false coexecKey sameCoexec joinE coexecLe sameCoexec_key)
      with (flag := flag); try done; [by intros ? ? []|apply joinCoexecHazard_eq| |].
    + apply coexecFlag_false.
    + apply coexecJoin_absorb.
Qed.
End Coexec.

(** *** Values *)

Lemma vhJoined_ub a b : vhLe a (vh.joined a b) /\ vhLe b (vh.joined a b).
Proof. split; split; simpl; lia. Qed.
Lemma vhJoined_least a b c : vhLe a c -> vhLe b c -> vhLe (vh.joined a b) c.
Proof. intros [] []. split; simpl; lia. Qed.
Lemma vhJoinWith_flag a b :
  ((vh.joinWith a b).2 = false <-> vhLe b a) /\
  ((vh.joinWith a b).2 = false -> (vh.joinWith a b).1 = a).
Proof.
  unfold vh.joinWith. simpl. rewrite !orb_false_iff, !negb_false_iff, !Z.eqb_eq. split.
  - split; [intros [[? ?] ?]; split; lia|intros []; lia].
  - intros [[? ?] ?]. destruct a, b. unfold vh.joined in *. simpl in *. congruence.
Qed.
Lemma vhEmpty_le a : vh.empty a = true <-> a = vh.none.
Proof.
  unfold vh.empty, vh.none. rewrite !andb_true_iff, !Z.eqb_eq. destruct a; simpl.
  split; [by intros [[-> ->] ->]|by intros [=]].
Qed.
Lemma vhLe_antisym a b : vhLe a b -> vhLe b a -> a = b.
Proof. intros [] []. destruct a, b; simpl in *. f_equal; lia. Qed.

Lemma hazardsAt_insert m v h w :
  hazardsAt (<[v := h]> m) w = if decide (v = w) then h else hazardsAt m w.
Proof.
  unfold hazardsAt. case_decide; [subst; by rewrite lookup_insert_eq|by rewrite lookup_insert_ne].
Qed.

Lemma joinValue_at m e w :
  hazardsAt (joinValue m e).1 w =
  if vh.empty e.2 then hazardsAt m w
  else if decide (e.1 = w) then vh.joined (hazardsAt m w) e.2 else hazardsAt m w.
Proof.
  destruct e as [v h]. unfold joinValue. simpl. destruct (vh.empty h); [done|].
  simpl. rewrite hazardsAt_insert. case_decide; [by subst|done].
Qed.

Lemma joinValue_flag m e :
  valuesOk m -> vhOk e.2 ->
  ((joinValue m e).2 = false <-> vhLe e.2 (hazardsAt m e.1)) /\
  ((joinValue m e).2 = false -> (joinValue m e).1 = m).
Proof.
  destruct e as [v h]. intros Hm Hh. unfold joinValue. simpl in *.
  destruct (vh.empty h) eqn:He; simpl.
  { apply vhEmpty_le in He as ->. split; [|done]. split; [intros _; apply Hm|done]. }
  destruct (vhJoinWith_flag (hazardsAt m v) h) as [F1 F2]. unfold hazardsAt in *.
  split; [done|]. intros Hf. specialize (F2 Hf). simpl in F2. rewrite F2.
  apply F1 in Hf. apply insert_id. destruct (m !! v) as [h'|]; [done|]. exfalso.
  simpl in Hf. pose proof (vhLe_antisym _ _ Hf Hh) as ->. done.
Qed.

Lemma joinValues_spec m n :
  valuesOk m -> valuesOk n ->
  let r := joinAll joinValue m (map_to_list n) in
  valuesOk r.1 /\ valuesLe m r.1 /\ valuesLe n r.1 /\
  (forall u, valuesOk u -> valuesLe m u -> valuesLe n u -> valuesLe r.1 u) /\
  (r.2 = false <-> valuesLe n m) /\ (r.2 = false -> r.1 = m).
Proof.
  intros Hm Hn.
  assert (forall u, valuesOk u -> (forall e, e ∈ map_to_list n -> vhLe e.2 (hazardsAt u e.1)) <->
    valuesLe n u) as Hin.
  { intros u Hu. split.
    - intros H v. unfold hazardsAt at 1. destruct (n !! v) as [h|] eqn:Hv; [|apply Hu].
      apply (H (v, h)). by apply elem_of_map_to_list.
    - intros H [v h] He%elem_of_map_to_list. specialize (H v). unfold hazardsAt at 1 in H.
      by rewrite He in H. }
  destruct (joinAll_spec joinValue valuesLe (fun e u => vhLe e.2 (hazardsAt u e.1)) valuesOk
    (fun e => vhOk e.2)) with (bs := map_to_list n) (a := m)
    as (R1 & R2 & R3 & R4 & R5 & R6); try done.
  - intros [v h] a a' H Hle. simpl in *. etransitivity; [exact H|apply Hle].
  - intros a e Ha He. assert (forall w, vhLe (hazardsAt a w) (hazardsAt (joinValue a e).1 w)) as H.
    { intros w. rewrite joinValue_at. repeat case_match; try done. apply vhJoined_ub. }
    split_and!; [|done|].
    + intros w. unfold vhOk. etransitivity; [apply Ha|apply H].
    + rewrite joinValue_at. destruct (vh.empty e.2) eqn:Hem.
      * apply vhEmpty_le in Hem. rewrite Hem. apply Ha.
      * rewrite decide_True by done. apply vhJoined_ub.
  - intros a e u Ha He Hu Hau Hb w. rewrite joinValue_at. case_match; [apply Hau|].
    case_decide as Hw; [subst w|apply Hau]. by apply vhJoined_least; [apply Hau|].
  - apply joinValue_flag.
  - intros [v h] He%elem_of_map_to_list. specialize (Hn v). unfold hazardsAt in Hn.
    by rewrite He in Hn.
  - cbn zeta. split_and!; [done|done|by apply Hin| |by rewrite <-Hin|done].
    intros u Hu Hmu Hnu. apply R4; [done..|]. by apply Hin.
Qed.

(** *** States *)

(** [joinWith] is the least upper bound of the hazard lattice: its result is
    above both states and below every state that is; it keeps one hazard per
    register and kind; it reports no change exactly when the incoming state was
    already covered, and then it changes nothing. *)
Lemma joinWith_spec st rhs (Hst : stateOk st) (Hrhs : stateOk rhs) :
  let r := joinWith st rhs in
  stateOk r.1 /\ hle st r.1 /\ hle rhs r.1 /\
  (forall u, stateOk u -> hle st u -> hle rhs u -> hle r.1 u) /\
  (r.2 = false <-> hle rhs st) /\ (r.2 = false -> r.1 = st).
Proof.
  destruct Hst as [V1 P1 C1], Hrhs as [V2 P2 C2].
  pose proof (joinValues_spec _ _ V1 V2) as HV.
  pose proof (joinPhysical_spec (physical rhs) _ P1) as HP.
  pose proof (joinCoexec_spec (coexec rhs) _ C1) as HC.
  pose proof (fun f : HazardState -> Z => joinMax_spec (f st) (f rhs)) as HM.
  pose proof (HM lgkmToValu) as M1. pose proof (HM lgkmPending) as M2.
  pose proof (HM m0DmaCapture) as M3. pose proof (HM (fun s => (scratchBase s).1)) as M4.
  pose proof (HM (fun s => (scratchBase s).2)) as M5. pose proof (HM valuWriteVcc) as M6.
  pose proof (HM execWriteHazard) as M7. clear HM. unfold joinWith. cbn beta in *.
  destruct (joinAll joinValue _ _) as [vals c4], (joinAll joinPhysicalHazard _ _) as [phys c5],
    (joinAll joinCoexecHazard _ _) as [coex c6].
  destruct (joinMax (lgkmToValu st) _) as [toValu c1], (joinMax (lgkmPending st) _) as [pend c2],
    (joinMax (m0DmaCapture st) _) as [capt c3], (joinMax (scratchBase st).1 _) as [b0 c7],
    (joinMax (scratchBase st).2 _) as [b1 c8], (joinMax (valuWriteVcc st) _) as [vcc c9],
    (joinMax (execWriteHazard st) _) as [exec c10]. cbn [fst snd] in *.
  destruct HV as (V3 & V4 & V5 & V6 & V7 & V8), HP as (P3 & P4 & P5 & P6 & P7 & P8),
    HC as (C3 & C4 & C5 & C6 & C7 & C8).
  destruct M1 as (A1 & B1 & D1 & E1 & F1), M2 as (A2 & B2 & D2 & E2 & F2),
    M3 as (A3 & B3 & D3 & E3 & F3), M4 as (A4 & B4 & D4 & E4 & F4),
    M5 as (A5 & B5 & D5 & E5 & F5), M6 as (A6 & B6 & D6 & E6 & F6), M7 as (A7 & B7 & D7 & E7 & F7).
  split_and!; [by split|by split|by split| | |].
  - intros u [] [] []. split; simpl; auto.
  - rewrite !orb_false_iff, E1, E2, E3, V7, P7, C7, E4, E5, E6, E7.
    split; [|by intros []; split_and!].
    by intros [[[[[[[[[? ?] ?] ?] ?] ?] ?] ?] ?] ?].
  - rewrite !orb_false_iff. intros [[[[[[[[[? ?] ?] ?] ?] ?] ?] ?] ?] ?].
    destruct st as [? ? ? ? ? ? [s1 s2] ? ?]. simpl in *. f_equal; auto. f_equal; auto.
Qed.
