(* ===== verification/GapMachine.v ===== *)
(** * The hardware that the hazard pass protects

    What has issued so far, with the wait states that have passed since; where
    the results are that values carry; the LGKM operations that are outstanding.
    A rule says how many wait states must lie between an operation and a later
    one that touches the same registers; the rules are those of the table in
    [docs/HazardMitigationDesign.md].  [describes] says when a [HazardState]
    knows every rule that is still to be obeyed. *)

From stdpp Require Import base tactics list gmap numbers strings.
From S2P Require Import Prelude CostEnums ArchData MachineIR LatencyTable.
From S2P Require Import OpClassifier ExecState TicketIR GapIR GapState GapTransfer GapLattice.

(** ** State *)

(** An operation that has issued: the wait states since then, the vector
    instructions among them that count for co-execution, the instructions among
    them that write scalar registers, and the results that an [s_wait_alu] has
    waited for. *)
Record Event : Type := mkEvent {
  ev_op : GapOp;
  ev_info : HazardOpInfo;
  ev_age : Z;
  ev_valuAge : Z;
  ev_sgprAge : Z;
  ev_vdstDone : bool;
  ev_sdstDone : bool;
  ev_baseDone : bool
}.

(** [content v]: the results whose bits the value holds, each with the number of
    its event in [past]; [drainAge]: the wait states since a wait drained the
    LGKM counter. *)
Record GapMachine : Type := mkGapMachine {
  past : list Event;
  content : N -> list (nat * Value);
  outstanding : Z;
  drainAge : option Z
}.

Definition initialGapMachine : GapMachine := mkGapMachine [] (fun _ => []) 0 None.

Definition ageEvent (n v s : Z) (e : Event) : Event :=
  mkEvent (ev_op e) (ev_info e) (ev_age e + n) (ev_valuAge e + v)
    (ev_sgprAge e + s) (ev_vdstDone e) (ev_sdstDone e) (ev_baseDone e).

(** [n] wait states pass, [v] of them for co-execution, [s] of them of
    instructions that write scalar registers. *)
Definition ageMachine (n v s : Z) (m : GapMachine) : GapMachine :=
  mkGapMachine (ageEvent n v s <$> past m) (content m) (outstanding m)
    ((fun a => a + n) <$> drainAge m).

Definition settleEvent (vdst sdst base : bool) (e : Event) : Event :=
  mkEvent (ev_op e) (ev_info e) (ev_age e) (ev_valuAge e) (ev_sgprAge e)
    (ev_vdstDone e || vdst) (ev_sdstDone e || sdst) (ev_baseDone e || base).
Definition settle (vdst sdst base : bool) (m : GapMachine) : GapMachine :=
  mkGapMachine (settleEvent vdst sdst base <$> past m) (content m)
    (outstanding m) (drainAge m).

Definition setOutstanding (n : Z) (m : GapMachine) : GapMachine :=
  mkGapMachine (past m) (content m) n (drainAge m).

(** ** Steps *)

Definition waitAluSettles (op : GapOp) (m : GapMachine) : GapMachine :=
  if isSWaitAlu op
  then let '(va_vdst, sa_sdst, va_sdst) := g_waitAlu op in
       let zero (field : option Z) := bool_decide (field = Some 0) in
       settle (zero va_vdst) (zero va_sdst) (zero sa_sdst && zero va_sdst) m
  else m.

(** An operation without an instruction only renames what its operands hold. *)
Definition record (op : GapOp) (info : HazardOpInfo) (m : GapMachine) :
    GapMachine :=
  let id := length (past m) in
  let inherited := if noMachineInst info
                   then op_operands op ≫= fun v => content m (value_id v) else [] in
  mkGapMachine (past m ++ [mkEvent op info 0 0 0 false false false])
    (fun v => match list_find (fun r => value_id r = v) (op_results op) with
              | Some _ =>
                  ((fun r => (id, r)) <$>
                     base.filter (fun r => value_id r = v) (op_results op))
                  ++ inherited
              | None => content m v
              end)
    (outstanding m) (drainAge m).

Section Hardware.
Context (cfg : HazardConfig).

Definition issuesLgkm (info : HazardOpInfo) : bool :=
  bool_decide (getLegacyWaitcntCounter (event (info_waitcnt info))
               = WaitcntCounter.Lgkm).

Definition lgkmIssues (info : HazardOpInfo) (m : GapMachine) : GapMachine :=
  if issuesLgkm info
  then setOutstanding (outstanding m + issueCount (info_waitcnt info)) m else m.

(** A wait that finds more outstanding than it allows drains the counter. *)
Definition lgkmWaits (info : HazardOpInfo) (m : GapMachine) : GapMachine :=
  match lgkmWaitLimit info with
  | Some limit =>
      if (limit <? defaultLgkmcnt cfg) && (limit <? outstanding m)
      then mkGapMachine (past m) (content m) limit (Some 0) else m
  | None => m
  end.

Definition passTime (info : HazardOpInfo) (m : GapMachine) : GapMachine :=
  if noMachineInst info then m
  else let n := waitStateCount info in
       ageMachine n (if valuForCoexec info then n else 0)
         (if sgprWrite info then n else 0) m.

(** An operation that is no control flow issues. *)
Definition issue (op : GapOp) (info : HazardOpInfo) (m : GapMachine) : GapMachine :=
  lgkmWaits info (lgkmIssues info
    (record op info (waitAluSettles op (passTime info m)))).

(** The mitigations issue. *)
Definition issueInserted (i : Inserted) (m : GapMachine) : GapMachine :=
  match i with
  | InsertedSNop immediate => ageMachine (immediate + 1) 0 0 m
  | InsertedSDelayAlu _ => ageMachine 1 0 0 m
  | InsertedVNop => ageMachine 1 1 0 m
  | InsertedSWaitAlu => settle false false true (ageMachine 1 0 0 m)
  end.
Definition issueAll (l : list Inserted) (m : GapMachine) : GapMachine :=
  fold_left (fun m i => issueInserted i m) l m.

(** Memory answers. *)
Inductive answers : GapMachine -> GapMachine -> Prop :=
  | answers_some m n : 0 <= n <= outstanding m -> answers m (setOutstanding n m).

(** ** Rules *)

Definition readsSpan (op : GapOp) (span : RegSpan) : Prop :=
  exists v, v ∈ op_operands op /\ getAllocatedRegSpan v = Some span.
Definition writesSpan (op : GapOp) (span : RegSpan) : Prop :=
  (exists v, v ∈ op_results op /\ getAllocatedRegSpan v = Some span)
  \/ span ∈ g_fixedDefs op.
Definition definesSpan (op : GapOp) (span : RegSpan) : Prop :=
  exists v, v ∈ op_results op /\ getAllocatedRegSpan v = Some span.
Definition touchesSpan (op : GapOp) (span : RegSpan) : Prop :=
  readsSpan op span \/ writesSpan op span.
Definition meets (span : RegSpan) (at_ : RegSpan -> Prop) : Prop :=
  exists access, at_ access /\ overlaps access span = true.

(** Vector results, of an operation that is no MFMA. *)
Definition vectorResult (e : Event) (span : RegSpan) : Prop :=
  legacyValu (ev_info e) = true /\ definesSpan (ev_op e) span /\
  isVGPRSpan span = true /\ ev_vdstDone e = false.

(** [gapRule e op info n]: the operation may issue only [n] wait states after
    the event. *)
Inductive gapRule (e : Event) (op : GapOp) (info : HazardOpInfo) : Z -> Prop :=
  | rule_mfma_chain i v use span :
      (** the accumulator of a matrix operation, the same registers or not, and
          its other operands *)
      mfma (ev_info e) = true -> definesSpan (ev_op e) span -> mfma info = true ->
      op_operands op !! i = Some v -> getAllocatedRegSpan v = Some use ->
      overlaps use span = true ->
      gapRule e op info
        (let passes := info_mfmaPasses (ev_info e) in
         if decide (i = 2%nat)
         then if decide (use = span) then getXdlSrcCExactLatency cfg passes
              else getXdlSrcCOverlapLatency cfg passes
         else getXdlResultLatency cfg passes)
  | rule_mfma_result span :
      (** vector, vector memory and LDS operations on a matrix result *)
      mfma (ev_info e) = true -> definesSpan (ev_op e) span ->
      xdlResultConsumer info = true ->
      (mfma info = false /\ meets span (readsSpan op)) \/ meets span (writesSpan op) ->
      gapRule e op info (getXdlResultLatency cfg (info_mfmaPasses (ev_info e)))
  | rule_mfma_accumulator mma span :
      (** a write of the accumulator that a matrix operation still reads *)
      mfma (ev_info e) = true -> g_mma (ev_op e) = Some mma ->
      getAllocatedRegSpan (mma_Acc mma) = Some span ->
      legacyValu info = true \/ info_ds info = true \/ vmem info = true ->
      meets span (writesSpan op) ->
      gapRule e op info (getXdlSrcCReadWarLatency cfg (info_mfmaPasses (ev_info e)))
  | rule_trans_forwarding span :
      hasTransForwardingHazard cfg = true -> trans (ev_info e) = true ->
      vectorResult e span -> legacyValu info = true -> trans info = false ->
      meets span (fun use => readsSpan op use /\ isVGPRSpan use = true) ->
      gapRule e op info (transForwardingWaitStates cfg)
  | rule_dst_sel_forwarding result span :
      hasDstSelForwardingHazard cfg = true -> mfma (ev_info e) = false ->
      g_dstSelResult (ev_op e) = Some result ->
      getAllocatedRegSpan result = Some span -> isVGPRSpan span = true ->
      valu info = true ->
      meets span (fun access => touchesSpan op access /\ isVGPRSpan access = true) ->
      gapRule e op info (dstSelForwardingWaitStates cfg)
  | rule_vgpr_mfma span :
      vectorResult e span -> mfma info = true -> meets span (readsSpan op) ->
      gapRule e op info (valuWriteVGPRMfmaLatency cfg)
  | rule_vgpr_readlane span :
      vectorResult e span -> mfma info = false -> readFirstLane info = true ->
      meets span (readsSpan op) ->
      gapRule e op info (valuWriteVGPRReadlaneLatency cfg)
  | rule_vgpr_permlane span :
      vectorResult e span -> mfma info = false ->
      permlane32Swap info = true -> meets span (readsSpan op) ->
      gapRule e op info (valuWriteVGPRPermlane32SwapLatency cfg)
  | rule_sgpr span :
      (** a scalar result of a vector operation *)
      legacyValu (ev_info e) = true -> definesSpan (ev_op e) span ->
      isSGPRSpan span = true -> ev_sdstDone e = false -> mfma info = false ->
      meets span (fun use => readsSpan op use /\ isSGPRSpan use = true) ->
      vmem info = true \/ legacyValu info = true ->
      gapRule e op info (if vmem info then valuWriteSGPRVmemReadLatency cfg
                         else valuWriteSGPRValuReadLatency cfg)
  | rule_vcc result :
      legacyValu (ev_info e) = true -> mfma (ev_info e) = false ->
      result ∈ op_results (ev_op e) -> getRegClass result = Some RegClass.VCC ->
      valu info = true -> readsVcc op = true ->
      gapRule e op info (valuWriteSGPRValuReadLatency cfg)
  | rule_exec :
      legacyValu (ev_info e) = true -> mfma (ev_info e) = false ->
      writesExec (ev_info e) = true -> execWriteConsumer info = true ->
      gapRule e op info (valuWriteExecConsumerLatency cfg)
  | rule_store_data hazard span :
      (** a store that still reads its data *)
      mfma (ev_info e) = false -> storeWriteData (ev_info e) = Some hazard ->
      getAllocatedRegSpan (hazard_data hazard) = Some span -> valu info = true ->
      meets span (fun def => writesSpan op def /\ isVGPRSpan def = true) ->
      gapRule e op info (hazard_latency hazard)
  | rule_m0_capture :
      ldsDmaIssue (ev_info e) = true -> is_Some (g_m0Value op) ->
      gapRule e op info (m0DmaCaptureDelay cfg).

(** [valueRule e result op info v n]: the same for the operand [v] that holds
    the result, whether registers are allocated or not. *)
Inductive valueRule (e : Event) (result : Value) (op : GapOp)
    (info : HazardOpInfo) (v : Value) : Z -> Prop :=
  | rule_m0 m0 :
      g_m0Value (ev_op e) = Some m0 -> value_id m0 = value_id result ->
      value_type v = M0Type ->
      valueRule e result op info v (m0PipelineDelay cfg)
  | rule_mfma_store :
      mfma (ev_info e) = true -> vmemStore info = true ->
      valueRule e result op info v
        (getXdlResultLatency cfg (info_mfmaPasses (ev_info e)))
  | rule_permlane :
      mfma (ev_info e) = false -> legacyValu (ev_info e) = true ->
      getRegClass result = Some RegClass.VGPR -> permlane32Swap info = true ->
      valueRule e result op info v (valuWriteVGPRPermlane32SwapLatency cfg).

(** [coexecRule e op info n]: [n] vector instructions must lie in between. *)
Inductive coexecRule `{LLVMTarget} (e : Event) (op : GapOp)
    (info : HazardOpInfo) : Z -> Prop :=
  | rule_trans_coexec span :
      g_hasTransCoexecutionHazard cfg = true -> trans (ev_info e) = true ->
      valuForCoexec info = true -> trans info = false ->
      (definesSpan (ev_op e) span /\ meets span (readsSpan op)) \/
      (readsSpan (ev_op e) span /\ meets span (definesSpan op)) ->
      coexecRule e op info 1
  | rule_wmma_wmma mma mine slots span v :
      g_hasWmmaCoexecutionHazard cfg = true -> xdlWmma (ev_info e) = true ->
      g_mma (ev_op e) = Some mma ->
      getAllocatedRegSpan (mma_AccResult mma) = Some span ->
      getWmmaVALUWaitSlots cfg (ev_info e) = Ok slots -> xdlWmma info = true ->
      g_mma op = Some mine -> v = mma_A mine \/ v = mma_B mine ->
      meets span (fun use => getAllocatedRegSpan v = Some use) ->
      coexecRule e op info (slots + 1)
  | rule_wmma_valu mma slots span :
      g_hasWmmaCoexecutionHazard cfg = true -> xdlWmma (ev_info e) = true ->
      g_mma (ev_op e) = Some mma ->
      getWmmaVALUWaitSlots cfg (ev_info e) = Ok slots -> xdlWmma info = false ->
      coexecValu info = true ->
      (getAllocatedRegSpan (mma_AccResult mma) = Some span /\
         meets span (fun access => readsSpan op access \/ definesSpan op access)) \/
      ((getAllocatedRegSpan (mma_A mma) = Some span \/
        getAllocatedRegSpan (mma_B mma) = Some span) /\ meets span (definesSpan op)) ->
      coexecRule e op info slots.

(** The scratch base must not be read while a write to it is in flight. *)
Definition scratchRule `{GapLLVM} (e : Event) (info : HazardOpInfo) : Prop :=
  g_hasScratchBaseForwardingHazard cfg = true /\ sgprWrite (ev_info e) = true /\
  ev_baseDone e = false /\ scratchMemory info = true /\
  (meets getFlatScratchBaseSGPRSpans.1 (writesSpan (ev_op e)) \/
   meets getFlatScratchBaseSGPRSpans.2 (writesSpan (ev_op e))).

(** An operation may issue as far as the rules of one sort go. *)
Definition freeRegisters (op : GapOp) (info : HazardOpInfo) (m : GapMachine) : Prop :=
  forall e n, e ∈ past m -> gapRule e op info n -> n <= ev_age e.
Definition freeValues (op : GapOp) (info : HazardOpInfo) (m : GapMachine) : Prop :=
  forall v id result e n, v ∈ op_operands op ->
    (id, result) ∈ content m (value_id v) -> past m !! id = Some e ->
    valueRule e result op info v n -> n <= ev_age e.
Definition freeCoexec `{LLVMTarget} (op : GapOp) (info : HazardOpInfo)
    (m : GapMachine) : Prop :=
  forall e n, e ∈ past m -> coexecRule e op info n -> n <= ev_valuAge e.
Definition freeScratch `{GapLLVM} (info : HazardOpInfo) (m : GapMachine) : Prop :=
  forall e, e ∈ past m -> scratchRule e info ->
    getScratchBaseForwardingSGPRWriteLimit <= ev_sgprAge e.
Definition freeLgkm (info : HazardOpInfo) (m : GapMachine) : Prop :=
  forall a, lgkmWaitNeedsValuGap cfg = true -> valu info = true ->
    drainAge m = Some a -> 1 <= a.

(** An operation may issue. *)
Record hazardFree `{LLVMTarget} `{GapLLVM} (op : GapOp) (info : HazardOpInfo)
    (m : GapMachine) : Prop := {
  free_registers : freeRegisters op info m;
  free_values : freeValues op info m;
  free_coexec : freeCoexec op info m;
  free_scratch : freeScratch info m;
  free_lgkm : freeLgkm info m
}.

(** ** What a state knows *)

(** The physical hazards that an operation opens. *)
Inductive opens (op : GapOp) (info : HazardOpInfo) : PhysicalHazard -> Prop :=
  | opens_mfma span :
      mfma info = true -> definesSpan op span ->
      let latency := getXdlResultLatency cfg (info_mfmaPasses info) in
      opens op info (mkPhysical span PhysicalHazardKind.MfmaWrite latency latency
                       (info_mfmaPasses info))
  | opens_accumulator mma span :
      mfma info = true -> g_mma op = Some mma ->
      getAllocatedRegSpan (mma_Acc mma) = Some span ->
      let latency := getXdlSrcCReadWarLatency cfg (info_mfmaPasses info) in
      opens op info (mkPhysical span PhysicalHazardKind.MfmaSrcCRead latency
                       latency (info_mfmaPasses info))
  | opens_trans span :
      mfma info = false -> hasTransForwardingHazard cfg = true -> trans info = true ->
      legacyValu info = true -> definesSpan op span -> isVGPRSpan span = true ->
      let limit := transForwardingWaitStates cfg in
      opens op info (mkPhysical span PhysicalHazardKind.TransWriteVGPR limit limit 0)
  | opens_dst_sel result span :
      mfma info = false -> hasDstSelForwardingHazard cfg = true ->
      g_dstSelResult op = Some result -> getAllocatedRegSpan result = Some span ->
      isVGPRSpan span = true ->
      let limit := dstSelForwardingWaitStates cfg in
      opens op info (mkPhysical span PhysicalHazardKind.DstSelWriteVGPR limit limit 0)
  | opens_vgpr span :
      mfma info = false -> legacyValu info = true -> definesSpan op span ->
      isVGPRSpan span = true ->
      let limit := getVGPRWriteHazardLimit cfg in
      opens op info (mkPhysical span PhysicalHazardKind.ValuWriteVGPR limit limit 0)
  | opens_sgpr span :
      mfma info = false -> legacyValu info = true -> definesSpan op span ->
      isSGPRSpan span = true ->
      let limit := getSGPRWriteHazardLimit cfg in
      opens op info (mkPhysical span PhysicalHazardKind.ValuWriteSGPR limit limit 0)
  | opens_store hazard span :
      mfma info = false -> storeWriteData info = Some hazard ->
      getAllocatedRegSpan (hazard_data hazard) = Some span ->
      let limit := hazard_latency hazard in
      opens op info (mkPhysical span PhysicalHazardKind.StoreWriteData limit limit 0).

(** The co-execution hazards that an operation opens. *)
Inductive opensCoexec `{LLVMTarget} (op : GapOp) (info : HazardOpInfo) :
    CoexecHazard -> Prop :=
  | opens_trans_def span :
      g_hasTransCoexecutionHazard cfg = true -> trans info = true ->
      definesSpan op span ->
      opensCoexec op info (mkCoexec span CoexecHazardKind.TransDef 0 1)
  | opens_trans_use span :
      g_hasTransCoexecutionHazard cfg = true -> trans info = true ->
      readsSpan op span ->
      opensCoexec op info (mkCoexec span CoexecHazardKind.TransUse 0 1)
  | opens_wmma_def mma slots span :
      g_hasWmmaCoexecutionHazard cfg = true -> xdlWmma info = true ->
      g_mma op = Some mma -> getWmmaVALUWaitSlots cfg info = Ok slots ->
      getAllocatedRegSpan (mma_AccResult mma) = Some span ->
      opensCoexec op info
        (mkCoexec span CoexecHazardKind.WmmaDef (u32 (slots + 1)) slots)
  | opens_wmma_use mma slots span :
      g_hasWmmaCoexecutionHazard cfg = true -> xdlWmma info = true ->
      g_mma op = Some mma -> getWmmaVALUWaitSlots cfg info = Ok slots ->
      getAllocatedRegSpan (mma_A mma) = Some span \/
        getAllocatedRegSpan (mma_B mma) = Some span ->
      opensCoexec op info (mkCoexec span CoexecHazardKind.WmmaUse 0 slots).

Definition settled (e : Event) (kind : PhysicalHazardKind.t) : bool :=
  match kind with
  | PhysicalHazardKind.TransWriteVGPR | PhysicalHazardKind.ValuWriteVGPR =>
      ev_vdstDone e
  | PhysicalHazardKind.ValuWriteSGPR => ev_sdstDone e
  | _ => false
  end.

(** [n] steps later. *)
Definition olderPhysical (n : Z) (h : PhysicalHazard) : PhysicalHazard :=
  mkPhysical (ph_span h) (ph_kind h) (ph_limit h) (ph_remaining h - n)
    (ph_mfmaPasses h).
Definition olderCoexec (n : Z) (h : CoexecHazard) : CoexecHazard :=
  mkCoexec (ce_span h) (ce_kind h) (ce_wmmaRemaining h - n)
    (ce_valuRemaining h - n).

(** The hazards of a value that holds a result of the event. *)
Definition valueCovered (e : Event) (result : Value) (h : ValueHazards) : Prop :=
  (forall m0, g_m0Value (ev_op e) = Some m0 -> value_id m0 = value_id result ->
     m0PipelineDelay cfg - ev_age e <= vh_m0 h) /\
  (mfma (ev_info e) = true ->
     getXdlResultLatency cfg (info_mfmaPasses (ev_info e)) - ev_age e
       <= vh_mfmaStore h) /\
  (mfma (ev_info e) = false -> legacyValu (ev_info e) = true ->
   getRegClass result = Some RegClass.VGPR ->
     valuWriteVGPRPermlane32SwapLatency cfg - ev_age e <= vh_permlane32Swap h).

(** The state knows every open hazard, and no shorter than it is. *)
Record describes `{LLVMTarget} `{GapLLVM} (st : HazardState) (m : GapMachine) :
    Prop := {
  desc_physical : forall e h, e ∈ past m -> opens (ev_op e) (ev_info e) h ->
    settled e (ph_kind h) = false -> ev_age e < ph_remaining h ->
    exists h', h' ∈ physical st /\ physicalLe (olderPhysical (ev_age e) h) h';
  desc_coexec : forall e h, e ∈ past m -> opensCoexec (ev_op e) (ev_info e) h ->
    ev_valuAge e < ce_wmmaRemaining h \/ ev_valuAge e < ce_valuRemaining h ->
    exists h', h' ∈ coexec st /\ coexecLe (olderCoexec (ev_valuAge e) h) h';
  desc_scratch : forall e, e ∈ past m ->
    g_hasScratchBaseForwardingHazard cfg = true -> sgprWrite (ev_info e) = true ->
    ev_baseDone e = false ->
    (meets getFlatScratchBaseSGPRSpans.1 (writesSpan (ev_op e)) ->
       getScratchBaseForwardingSGPRWriteLimit - ev_sgprAge e <= (scratchBase st).1) /\
    (meets getFlatScratchBaseSGPRSpans.2 (writesSpan (ev_op e)) ->
       getScratchBaseForwardingSGPRWriteLimit - ev_sgprAge e <= (scratchBase st).2);
  desc_vcc : forall e result, e ∈ past m -> legacyValu (ev_info e) = true ->
    mfma (ev_info e) = false -> result ∈ op_results (ev_op e) ->
    getRegClass result = Some RegClass.VCC ->
    valuWriteSGPRValuReadLatency cfg - ev_age e <= valuWriteVcc st;
  desc_exec : forall e, e ∈ past m -> legacyValu (ev_info e) = true ->
    mfma (ev_info e) = false -> writesExec (ev_info e) = true ->
    valuWriteExecConsumerLatency cfg - ev_age e <= execWriteHazard st;
  desc_capture : forall e, e ∈ past m -> ldsDmaIssue (ev_info e) = true ->
    m0DmaCaptureDelay cfg - ev_age e <= m0DmaCapture st;
  desc_values : forall v id result e, (id, result) ∈ content m v ->
    past m !! id = Some e -> valueCovered e result (hazardsAt (values st) v);
  desc_pending : legacyWaitCounters cfg = true ->
    outstanding m <= lgkmPending st \/ getMaxTrackedLgkmPending cfg <= lgkmPending st;
  desc_drained : forall a, lgkmWaitNeedsValuGap cfg = true -> drainAge m = Some a ->
    1 - a <= lgkmToValu st
}.
End Hardware.
