(* ===== verification/GapGrow.v ===== *)
(** * Well-formed hazard states

    What holds of the configuration of a target and of what the passes know
    about an operation; the invariant [gapWf] of hazard states, which is what
    the assertions of the code say and more, and its preservation. *)

From stdpp Require Import base tactics list gmap numbers strings.
From S2P Require Import Prelude CostEnums ArchData MachineIR LatencyTable OpClassifier.
From S2P Require Import ExecState TicketIR GapIR GapState GapTransfer GapLattice.
From S2P Require Import GapMachine.

(** ** Configurations and operations *)

Definition small (x : Z) : Prop := 0 <= x < 1073741824.

Record configOk (cfg : HazardConfig) : Prop := {
  cfg_lgkm : lgkmWaitNeedsValuGap cfg = true -> legacyWaitCounters cfg = true;
  cfg_default : small (defaultLgkmcnt cfg);
  cfg_m0 : small (m0PipelineDelay cfg);
  cfg_capture : small (m0DmaCaptureDelay cfg);
  cfg_vgprMfma : small (valuWriteVGPRMfmaLatency cfg);
  cfg_vgprReadlane : small (valuWriteVGPRReadlaneLatency cfg);
  cfg_vgprPermlane : small (valuWriteVGPRPermlane32SwapLatency cfg);
  cfg_sgprValu : small (valuWriteSGPRValuReadLatency cfg);
  cfg_sgprVmem : small (valuWriteSGPRVmemReadLatency cfg);
  cfg_exec : small (valuWriteExecConsumerLatency cfg);
  cfg_trans : small (transForwardingWaitStates cfg);
  cfg_dstSel : small (dstSelForwardingWaitStates cfg)
}.

(** Fields that the code keeps unsigned. *)
Record gapOpOk (op : GapOp) : Prop := {
  gop_nop : forall n, g_nopImmediate op = Some n -> 0 <= n;
  gop_issues : 0 <= issueCount (getWaitcntInfo op);
  gop_limit : forall n, getLgkmWaitLimit op = Some n -> 0 <= n;
  gop_count : forall f isa w, op_issueCount op = Some f -> f isa w < 1073741824
}.

Lemma makeHazardConfig_ok `{LLVMTarget} `{GapLLVM} sti w cfg :
  (forall isa x, small (decodeLgkmcnt isa x)) ->
  makeHazardConfig sti w = Ok cfg -> configOk cfg.
Proof.
  intros Hd Hm. unfold makeHazardConfig in Hm. apply outcome_bind_Ok in Hm as (arch & _ & [= <-]).
  unfold getInstructionIssueSlotHazardConfig, getValuWriteVGPRMfmaHazardLatency,
    getValuWriteSGPRVmemReadLatency, getValuWriteExecConsumerLatency.
  split; simpl; repeat case_match; simpl; try done; try (apply Hd);
    try (by rewrite andb_true_iff; intros [? _]); unfold small; try lia.
Qed.

(** The pass counts of the matrix operations that the classifier knows. *)
Lemma gapMfmaPassCount_values `{LLVMTarget} op n :
  gapMfmaPassCount op = Ok n -> n = 4 \/ n = 8.
Proof.
  unfold gapMfmaPassCount. intros Hn. apply outcome_bind_Ok in Hn as (cls & Hc & Hn).
  assert (cls <> SchedClass.Write2PassMAI /\ cls <> SchedClass.Write16PassMAI) as [H2 H16].
  { unfold classifyOp in Hc. apply outcome_bind_Ok in Hc as (c & Hc & Hf).
    assert (c <> SchedClass.Write2PassMAI /\ c <> SchedClass.Write16PassMAI) as Hcc.
    { unfold classifyMappedOp, classifyByType in Hc.
      repeat (case_match; simplify_eq; try done). }
    case_decide; [by injection Hf as <-|].
    unfold fallbackClassify in Hf. repeat (case_match; simplify_eq; try done). }
  destruct cls; simplify_eq; auto.
Qed.

(** What the passes know about an operation is consistent. *)
Record infoOk (cfg : HazardConfig) (op : GapOp) (info : HazardOpInfo) : Prop := {
  info_passes : mfma info = true -> info_mfmaPasses info = 4 \/ info_mfmaPasses info = 8;
  info_legacy : legacyValu info = true -> mfma info = false /\ valu info = true;
  info_trans : trans info = true -> legacyValu info = true /\ valuForCoexec info = true;
  info_coexec : coexecValu info = true -> valuForCoexec info = true /\ trans info = false;
  info_permlane : permlane32Swap info = true -> readFirstLane info = false;
  info_count : 0 <= waitStateCount info;
  info_issues : 0 <= issueCount (info_waitcnt info);
  info_limit : forall n, lgkmWaitLimit info = Some n -> 0 <= n;
  info_store : forall h, storeWriteData info = Some h ->
    hazard_latency h = 1 \/ hazard_latency h = 2;
  info_flow : info_controlFlow info = g_controlFlow op;
  info_noInst : noMachineInst info = emitsNoMachineInst op;
  info_vmemStore : vmemStore info = true -> vmem info = true
}.

Lemma getHazardWaitStateCount_nonneg `{LLVMTarget} cfg op n :
  getHazardWaitStateCount cfg op = Ok n -> 0 <= n.
Proof.
  unfold getHazardWaitStateCount. intros Hn. case_match;
    try (apply getInstructionIssueCount_pos in Hn; lia).
  case_match; [|done]. case_match; [done|]. injection Hn as <-. apply u32_nonneg.
Qed.

Lemma getStoreWriteDataHazard_latency op isa h :
  getStoreWriteDataHazard op isa = Ok (Some h) ->
  hazard_latency h = 1 \/ hazard_latency h = 2.
Proof.
  unfold getStoreWriteDataHazard. case_match; [done|]. intros Hh.
  apply outcome_bind_Ok in Hh as (d & _ & [= <-]). simpl. repeat case_match; auto.
Qed.

Lemma getHazardOpInfo_ok `{LLVMTarget} cfg op info :
  gapOpOk op -> getHazardOpInfo op cfg = Ok info -> infoOk cfg op info.
Proof.
  intros [O1 O2 O3 O4] Hi. unfold getHazardOpInfo in Hi.
  apply outcome_bind_Ok in Hi as (_ & _ & Hi).
  apply outcome_bind_Ok in Hi as (store & Hstore & Hi).
  apply outcome_bind_Ok in Hi as (ws & Hws & Hi).
  apply outcome_bind_Ok in Hi as (passes & Hp & Hi).
  apply outcome_bind_Ok in Hi as (legacy & Hl & Hi).
  apply outcome_bind_Ok in Hi as (tr & Ht & Hi).
  apply outcome_bind_Ok in Hi as (xdl & Hx & Hi).
  apply outcome_bind_Ok in Hi as (cls & Hc & Hi).
  apply outcome_bind_Ok in Hi as (co & Hco & [= <-]).
  assert (legacy = true -> isMFMA op = false /\ hasTrait op Trait.VALUOp = true) as HL.
  { intros ->. unfold gapIsLegacyVALU in Hl.
    destruct (hasTrait op Trait.VALUOp) eqn:Hv; [|done].
    by destruct (isMFMA op). }
  split; simpl; try done.
  - intros Hm. rewrite Hm in Hp. by eapply gapMfmaPassCount_values.
  - intros ->. unfold isTransOp in Ht. rewrite Hl in Ht. simpl in Ht.
    destruct legacy; [|done]. split; [done|]. unfold isVALUForCoexecution.
    by rewrite (proj2 (HL eq_refl)).
  - intros ->. unfold isCoexecutableVALU in Hco. rewrite Ht in Hco. simpl in Hco.
    injection Hco as Hco. apply andb_true_iff in Hco as [Hco _].
    apply andb_true_iff in Hco as [Hco _]. apply andb_true_iff in Hco as [Hv Htr].
    by apply negb_true_iff in Htr.
  - unfold isPermlane32Swap. by destruct (op_kind op).
  - by eapply getHazardWaitStateCount_nonneg.
  - intros h ->. by eapply getStoreWriteDataHazard_latency.
  - unfold isVMEMStore, isVMEM. intros ->. apply orb_true_r.
Qed.

(** ** The invariant *)

Section Invariant.
Context (cfg : HazardConfig) (Hcfg : configOk cfg).

(** The limit of a hazard of a kind; a store's limit depends on the store. *)
Definition limitOf (kind : PhysicalHazardKind.t) (passes : Z) : option Z :=
  match kind with
  | PhysicalHazardKind.MfmaWrite => Some (getXdlResultLatency cfg passes)
  | PhysicalHazardKind.MfmaSrcCRead => Some (getXdlSrcCReadWarLatency cfg passes)
  | PhysicalHazardKind.TransWriteVGPR => Some (transForwardingWaitStates cfg)
  | PhysicalHazardKind.DstSelWriteVGPR => Some (dstSelForwardingWaitStates cfg)
  | PhysicalHazardKind.ValuWriteVGPR => Some (getVGPRWriteHazardLimit cfg)
  | PhysicalHazardKind.ValuWriteSGPR => Some (getSGPRWriteHazardLimit cfg)
  | PhysicalHazardKind.StoreWriteData => None
  end.

Definition passesOk (kind : PhysicalHazardKind.t) (passes : Z) : Prop :=
  match kind with
  | PhysicalHazardKind.MfmaWrite | PhysicalHazardKind.MfmaSrcCRead =>
      passes = 4 \/ passes = 8
  | _ => passes = 0
  end.

Record hazardWf (h : PhysicalHazard) : Prop := {
  wf_remaining : 0 <= ph_remaining h <= ph_limit h;
  wf_small : small (ph_limit h);
  wf_limit : forall l, limitOf (ph_kind h) (ph_mfmaPasses h) = Some l -> ph_limit h = l;
  wf_passes : passesOk (ph_kind h) (ph_mfmaPasses h)
}.

Record coexecWf (h : CoexecHazard) : Prop := {
  cwf_wmma : 0 <= ce_wmmaRemaining h;
  cwf_valu : 0 <= ce_valuRemaining h
}.

Record gapWf (st : HazardState) : Prop := {
  gwf_ok : stateOk st;
  gwf_physical : Forall hazardWf (physical st);
  gwf_coexec : Forall coexecWf (coexec st);
  gwf_toValu : 0 <= lgkmToValu st;
  gwf_pending : 0 <= lgkmPending st <= getMaxTrackedLgkmPending cfg;
  gwf_capture : 0 <= m0DmaCapture st;
  gwf_scratch1 : 0 <= (scratchBase st).1 <= getScratchBaseForwardingSGPRWriteLimit;
  gwf_scratch2 : 0 <= (scratchBase st).2 <= getScratchBaseForwardingSGPRWriteLimit;
  gwf_vcc : 0 <= valuWriteVcc st;
  gwf_exec : 0 <= execWriteHazard st
}.

Lemma age_spec n x : 0 <= n -> 0 <= x -> age n x = Z.max 0 (x - n).
Proof using Type. unfold age. case_match; lia. Qed.

Lemma waitForHazardAge_spec h required :
  hazardWf h -> waitForHazardAge h required =
  Z.max 0 (required - (ph_limit h - ph_remaining h)).
Proof using Type.
  intros [Hr [Hs1 Hs2] _ _]. unfold waitForHazardAge.
  rewrite u32_small by lia. case_match; lia.
Qed.

(** *** Joins of well-formed hazards *)

Definition joinedHazard (x h : PhysicalHazard) : PhysicalHazard :=
  mkPhysical (ph_span x) (ph_kind x) (Z.max (ph_limit x) (ph_limit h))
    (Z.max (ph_remaining x) (ph_remaining h))
    (Z.max (ph_mfmaPasses x) (ph_mfmaPasses h)).

Lemma latency_u32 p q : p = 4 \/ p = 8 -> 0 <= q < 16 -> u32 (p + q) = p + q.
Proof using Type. intros Hp Hq. apply u32_small. lia. Qed.

Lemma xdlResult_eq p : p = 4 \/ p = 8 ->
  getXdlResultLatency cfg p =
  if isCDNA3Family (isaVersion cfg) then p + 3
  else if isCDNA4Family (isaVersion cfg) then p + 4 else 8.
Proof using Type.
  unfold getXdlResultLatency, getXdlResultHazardLatency, isCDNA3Family, isCDNA4Family.
  intros Hp. repeat case_match; try (rewrite u32_small by lia); try done; try lia.
Qed.

Lemma xdlOverlap_eq p : p = 4 \/ p = 8 ->
  getXdlSrcCOverlapLatency cfg p =
  if isCDNA3Family (isaVersion cfg) then p + 1
  else if isCDNA4Family (isaVersion cfg) then p + 2 else 6.
Proof using Type.
  unfold getXdlSrcCOverlapLatency, getXdlSrcCOverlapHazardLatency, isCDNA3Family, isCDNA4Family.
  intros Hp. repeat case_match; try (rewrite u32_small by lia); try done; try lia.
Qed.

Lemma xdlExact_eq p : p = 4 \/ p = 8 -> getXdlSrcCExactLatency cfg p = 0.
Proof using Type.
  unfold getXdlSrcCExactLatency, getXdlSrcCExactHazardLatency. intros Hp.
  destruct (Z.eqb_spec p 2); [lia|]. by rewrite andb_false_r.
Qed.

Lemma xdlWar_eq p : p = 4 \/ p = 8 ->
  getXdlSrcCReadWarLatency cfg p =
  if isCDNA3Family (isaVersion cfg) || isCDNA4Family (isaVersion cfg) then p - 1 else 0.
Proof using Type.
  unfold getXdlSrcCReadWarLatency. intros Hp. rewrite <-negb_orb.
  destruct (_ || _); simpl; [|done]. destruct (Z.eqb_spec p 2); [lia|].
  by rewrite u32_small by lia.
Qed.

Lemma limitOf_max kind p q :
  passesOk kind p -> passesOk kind q ->
  passesOk kind (Z.max p q) /\
  limitOf kind (Z.max p q) =
  (match limitOf kind p, limitOf kind q with
   | Some a, Some b => Some (Z.max a b)
   | _, _ => None
   end).
Proof using Type.
  intros Hp Hq. destruct kind; simpl in *; subst; (split; [lia|]);
    rewrite ?Z.max_id; try done; f_equal.
  - rewrite !xdlResult_eq by lia. repeat case_match; lia.
  - rewrite !xdlWar_eq by lia. repeat case_match; lia.
Qed.

Lemma joinedHazard_wf x h :
  hazardWf x -> hazardWf h -> physicalKey x = physicalKey h -> hazardWf (joinedHazard x h).
Proof using Type.
  intros [R1 S1 L1 P1] [R2 S2 L2 P2] [= Hs Hk].
  rewrite <-Hk in L2, P2. destruct (limitOf_max _ _ _ P1 P2) as [HP HL].
  split; simpl; [lia|unfold small in *; lia| |done].
  intros l Hl. rewrite HL in Hl.
  destruct (limitOf (ph_kind x) (ph_mfmaPasses x)) as [a|] eqn:Ha; [|done].
  destruct (limitOf (ph_kind x) (ph_mfmaPasses h)) as [b|] eqn:Hb; [|done].
  injection Hl as <-. by rewrite (L1 a eq_refl), (L2 b eq_refl).
Qed.

Lemma mergePhysical_wf l h :
  Forall hazardWf l -> hazardWf h -> Forall hazardWf (mergePhysical l h).
Proof using Type.
  rewrite !Forall_forall. intros Hl Hh y Hy.
  apply mergePhysical_inv in Hy as [Hy|[->|(x & Hx & Hk & ->)]]; [auto..|].
  apply joinedHazard_wf; auto.
Qed.

Lemma mergeCoexec_wf l h :
  Forall coexecWf l -> coexecWf h -> Forall coexecWf (mergeCoexec l h).
Proof using Type.
  intros Hl Hh. induction Hl as [|x l Hx Hl IH]; simpl; [by constructor|].
  destruct (sameCoexec x h); simpl; constructor; try done.
  destruct Hx, Hh. split; simpl; lia.
Qed.

(** *** The solver's operations *)

Lemma emptyHazardState_wf : gapWf emptyHazardState.
Proof using Hcfg.
  destruct Hcfg. split; simpl; try lia; try constructor; simpl; try constructor; try done.
  unfold getMaxTrackedLgkmPending. unfold small in *. rewrite u32_small; lia.
Qed.

Lemma joinAll_physical_wf hs : Forall hazardWf hs -> forall l, Forall hazardWf l ->
  Forall hazardWf (joinAll joinPhysicalHazard l hs).1.
Proof using Type.
  induction 1 as [|h hs Hh Hhs IH]; intros l Hl; [done|].
  rewrite joinAll_cons. simpl. apply IH. rewrite joinPhysicalHazard_merge.
  by apply mergePhysical_wf.
Qed.

Lemma joinAll_coexec_wf hs : Forall coexecWf hs -> forall l, Forall coexecWf l ->
  Forall coexecWf (joinAll joinCoexecHazard l hs).1.
Proof using Type.
  induction 1 as [|h hs Hh Hhs IH]; intros l Hl; [done|].
  rewrite joinAll_cons. simpl. apply IH. rewrite joinCoexecHazard_merge.
  by apply mergeCoexec_wf.
Qed.

Lemma joinWith_wf st rhs : gapWf st -> gapWf rhs -> gapWf (joinWith st rhs).1.
Proof using Type.
  intros [O1 P1 C1 ? ? ? ? ? ? ?] [O2 P2 C2 ? ? ? ? ? ? ?].
  destruct (joinWith_spec st rhs O1 O2) as [HO _].
  pose proof (joinAll_physical_wf _ P2 _ P1) as HP.
  pose proof (joinAll_coexec_wf _ C2 _ C1) as HC.
  unfold joinWith, joinMax in *.
  destruct (joinAll joinValue _ _), (joinAll joinPhysicalHazard _ _),
    (joinAll joinCoexecHazard _ _). simpl in *.
  split; simpl; try done; try lia.
Qed.
End Invariant.

(** ** Ageing and growing hazard states

    Ageing keeps the invariant; every part of the transfer that opens hazards
    only adds to the state ([grows]), and afterwards the state knows the hazard
    ([knows]). *)

Section Grow.
Context (cfg : HazardConfig) (Hcfg : configOk cfg).
Abbreviation gapWf := (gapWf cfg).
Abbreviation hazardWf := (hazardWf cfg).

(** ** Ageing *)

Lemma vhAdvance_at n m v :
  0 <= n -> valuesOk m ->
  hazardsAt (omap (fun h => let h := vh.advance n h in
                            if vh.empty h then None else Some h) m) v
  = vh.advance n (hazardsAt m v).
Proof using Type.
  intros Hn Hm. unfold hazardsAt. rewrite lookup_omap.
  destruct (m !! v) as [h|] eqn:Hv; simpl.
  - destruct (vh.empty (vh.advance n h)) eqn:He; [|done]. simpl. symmetry.
    by apply vhEmpty_le.
  - unfold vh.advance, vh.none, age. simpl. by destruct (Z.ltb_spec n 0); [lia|].
Qed.

Lemma vhAdvance_ok n h : 0 <= n -> vhOk h -> vhOk (vh.advance n h).
Proof using Type.
  intros Hn [H1 H2 H3]. simpl in *. unfold vh.advance.
  split; simpl; rewrite age_spec by lia; lia.
Qed.

Lemma advanceValueHazards_at n st v :
  0 <= n -> valuesOk (values st) ->
  hazardsAt (values (advanceValueHazards n st)) v = vh.advance n (hazardsAt (values st) v).
Proof using Type.
  intros Hn Hok. unfold advanceValueHazards. destruct (Z.eqb_spec n 0) as [->|].
  - pose proof (Hok v) as [H1 H2 H3]. simpl in *. destruct (hazardsAt (values st) v).
    unfold vh.advance. simpl in *. f_equal; rewrite age_spec by lia; lia.
  - simpl. by apply vhAdvance_at.
Qed.

Lemma agePhysical_Some n h h' :
  0 <= n -> hazardWf h -> agePhysical n h = Some h' ->
  h' = mkPhysical (ph_span h) (ph_kind h) (ph_limit h) (Z.max 0 (ph_remaining h - n))
         (ph_mfmaPasses h) /\ hazardWf h'.
Proof using Type.
  intros Hn [R S L P] Ha. unfold agePhysical in Ha. rewrite age_spec in Ha by lia.
  case_match; [done|]. injection Ha as <-. split; [done|]. split; simpl; try done. lia.
Qed.

Lemma omap_NoDup {A K} (key : A -> K) (f : A -> option A) l :
  (forall a b, f a = Some b -> key b = key a) -> NoDup (key <$> l) -> NoDup (key <$> omap f l).
Proof using Type.
  clear. intros Hf. induction l as [|a l IH]; csimpl; [done|]. intros [Ha Hl]%NoDup_cons.
  destruct (f a) as [b|] eqn:Hb; csimpl; [|by apply IH]. apply NoDup_cons.
  split; [|by apply IH]. rewrite (Hf a b Hb). intros Hin. apply Ha.
  apply list_elem_of_fmap in Hin as (c & -> & Hc). apply list_elem_of_omap in Hc as (d & Hd & Hc).
  rewrite (Hf d c Hc). by apply list_elem_of_fmap_2.
Qed.

Lemma advanceHazards_wf n b st : 0 <= n -> gapWf st -> gapWf (advanceHazards n b st).
Proof using Type.
  intros Hn [[V P C] P' C' T Pe Ca S1 S2 Vc Ex].
  assert (valuesOk (values (advanceValueHazards n st))) as HV.
  { intros v. rewrite advanceValueHazards_at by done. by apply vhAdvance_ok. }
  assert (forall b, valuesOk (values (advanceValueHazards n
    (set_m0DmaCapture (age n) (if b : bool then set_lgkmToValu (age n) st else st))))) as HV'.
  { intros b' v. rewrite advanceValueHazards_at; [|done|by destruct b'].
    destruct b'; by apply vhAdvance_ok. }
  unfold advanceHazards. cbv zeta. set (st0 := advanceValueHazards n _).
  assert (physical st0 = physical st /\ coexec st0 = coexec st /\
    lgkmToValu st0 = (if b then age n (lgkmToValu st) else lgkmToValu st) /\
    lgkmPending st0 = lgkmPending st /\ m0DmaCapture st0 = age n (m0DmaCapture st) /\
    scratchBase st0 = scratchBase st /\ valuWriteVcc st0 = valuWriteVcc st /\
    execWriteHazard st0 = execWriteHazard st) as (E1 & E2 & E3 & E4 & E5 & E6 & E7 & E8).
  { unfold st0, advanceValueHazards. case_match; by destruct b. }
  assert (0 <= (if b then age n (lgkmToValu st) else lgkmToValu st)) as HT.
  { destruct b; [rewrite age_spec by done|]; lia. }
  assert (0 <= age n (m0DmaCapture st)) as HC by (rewrite age_spec by done; lia).
  unfold advancePhysicalHazards. destruct (Z.eqb_spec n 0).
  - split; try (rewrite ?E1, ?E2, ?E3, ?E4, ?E5, ?E6, ?E7, ?E8; done).
    split; [apply HV'|rewrite E1|rewrite E2]; done.
  - split; simpl; rewrite ?E1, ?E2, ?E3, ?E4, ?E5, ?E6, ?E7, ?E8; try done;
      try (rewrite age_spec by done; lia).
    + split; simpl; rewrite ?E1, ?E2; [apply HV'| |done].
      apply omap_NoDup; [|done]. intros h h' Ha. unfold agePhysical in Ha.
      case_match; [done|]. by injection Ha as <-.
    + apply Forall_forall. intros h' Hh'. apply list_elem_of_omap in Hh' as (h & Hh & Ha).
      rewrite Forall_forall in P'. by eapply agePhysical_Some; [exact Hn|apply P'|].
Qed.

Lemma advanceCoexecHazards_wf n st :
  0 <= n -> gapWf st -> gapWf (advanceCoexecHazards n st).
Proof using Type.
  intros Hn [[V P C] P' C' T Pe Ca S1 S2 Vc Ex]. unfold advanceCoexecHazards.
  destruct (Z.eqb_spec n 0); [by repeat (split; try done)|].
  split; simpl; try done.
  - split; simpl; try done. apply omap_NoDup; [|done]. intros h h' Ha. unfold ageCoexec in Ha.
    case_match; [done|]. by injection Ha as <-.
  - apply Forall_forall. intros h' Hh'. apply list_elem_of_omap in Hh' as (h & Hh & Ha).
    rewrite Forall_forall in C'. destruct (C' h Hh) as [H1 H2].
    unfold ageCoexec in Ha. case_match; [done|]. injection Ha as <-.
    split; simpl; rewrite age_spec by done; lia.
Qed.

Lemma advanceScratchBaseHazards_wf n st :
  0 <= n -> gapWf st -> gapWf (advanceScratchBaseHazards n st).
Proof using Type.
  intros Hn [[V P C] P' C' T Pe Ca S1 S2 Vc Ex].
  split; simpl; try done; rewrite age_spec by lia; lia.
Qed.

Lemma clearScratch_wf st : gapWf st -> gapWf (set_scratchBase (fun _ => (0, 0)) st).
Proof using Type. intros [[V P C] P' C' T Pe Ca S1 S2 Vc Ex]. split; simpl; try done. Qed.

(** ** Growing *)

Definition grows (f : HazardState -> HazardState) : Prop :=
  forall st, gapWf st -> gapWf (f st) /\ hle st (f st).

Lemma grows_id : grows (fun st => st).
Proof using Type. intros st Hst. split; [done|reflexivity]. Qed.

Lemma grows_compose f g : grows f -> grows g -> grows (fun st => g (f st)).
Proof using Type.
  intros Hf Hg st Hst. destruct (Hf st Hst) as [W1 L1], (Hg (f st) W1) as [W2 L2].
  split; [done|by etransitivity].
Qed.

Lemma grows_if (b : bool) f g : grows f -> grows g -> grows (fun st => if b then f st else g st).
Proof using Type. by destruct b. Qed.

Lemma grows_fold {A} (f : HazardState -> A -> HazardState) l :
  (forall x, x ∈ l -> grows (fun st => f st x)) -> grows (fun st => fold_left f l st).
Proof using Type.
  induction l as [|x l IH]; intros Hf; [apply grows_id|].
  apply (grows_compose (fun st => f st x)).
  - apply Hf, list_elem_of_here.
  - apply IH. intros y Hy. by apply Hf, list_elem_of_further.
Qed.

(** What holds of every state above one that satisfies it. *)
Definition monotone (K : HazardState -> Prop) : Prop :=
  forall st st', gapWf st -> gapWf st' -> hle st st' -> K st -> K st'.

Lemma fold_knows {A} (f : HazardState -> A -> HazardState) l x K :
  monotone K -> (forall x, x ∈ l -> grows (fun st => f st x)) -> x ∈ l ->
  (forall st, gapWf st -> K (f st x)) ->
  forall st, gapWf st -> K (fold_left f l st).
Proof using Type.
  intros HK. induction l as [|y l IH]; intros Hf Hx Hfx st Hst; [by apply elem_of_nil in Hx|].
  assert (grows (fun st => fold_left f l st)) as Hl.
  { apply grows_fold. intros z Hz. by apply Hf, list_elem_of_further. }
  destruct (Hf y (list_elem_of_here _ _) st Hst) as [Wy _]. simpl.
  apply elem_of_cons in Hx as [->|Hx].
  - destruct (Hl _ Wy) as [W L]. eapply HK; [exact Wy|exact W|exact L|]. by apply Hfx.
  - apply IH; try done. intros z Hz. by apply Hf, list_elem_of_further.
Qed.

(** Then is kept by what follows. *)
Lemma knows_then K (f g : HazardState -> HazardState) st :
  monotone K -> grows f -> grows g -> gapWf st -> K (f st) -> K (g (f st)).
Proof using Type.
  intros HK Hf Hg Hst Hk. destruct (Hf st Hst) as [W1 _], (Hg _ W1) as [W2 L2].
  by apply (HK (f st)).
Qed.

Definition knowsPhysical (h : PhysicalHazard) (st : HazardState) : Prop :=
  0 < ph_remaining h -> exists h', h' ∈ physical st /\ physicalLe h h'.
Definition knowsCoexec (h : CoexecHazard) (st : HazardState) : Prop :=
  0 < ce_wmmaRemaining h \/ 0 < ce_valuRemaining h ->
  exists h', h' ∈ coexec st /\ coexecLe h h'.
Definition knowsValue (v : N) (h : ValueHazards) (st : HazardState) : Prop :=
  vhLe h (hazardsAt (values st) v).

Lemma knowsPhysical_mono h : monotone (knowsPhysical h).
Proof using Type.
  intros st st' _ _ [] Hk H0. destruct (Hk H0) as (h1 & H1 & L1).
  destruct (hle_physical h1 H1) as (h2 & H2 & L2). exists h2. split; [done|by etransitivity].
Qed.
Lemma knowsCoexec_mono h : monotone (knowsCoexec h).
Proof using Type.
  intros st st' _ _ [] Hk H0. destruct (Hk H0) as (h1 & H1 & L1).
  destruct (hle_coexec h1 H1) as (h2 & H2 & L2). exists h2. split; [done|by etransitivity].
Qed.
Lemma knowsValue_mono v h : monotone (knowsValue v h).
Proof using Type. intros st st' _ _ [] Hk. unfold knowsValue. etransitivity; [exact Hk|auto]. Qed.

(** *** The elementary additions *)

Lemma mergePhysicalHazard_grows h :
  (ph_remaining h <> 0 -> hazardWf h) ->
  grows (mergePhysicalHazard h) /\
  forall st, gapWf st -> 0 <= ph_remaining h -> knowsPhysical h (mergePhysicalHazard h st).
Proof using Type.
  intros Hh. split.
  - intros st Hst. unfold mergePhysicalHazard. destruct (Z.eqb_spec (ph_remaining h) 0).
    { split; [done|reflexivity]. }
    destruct Hst as [[V P C] P' C' T Pe Ca S1 S2 Vc Ex]. split.
    + split; simpl; try done; [|apply mergePhysical_wf; auto].
      split; simpl; try done. by apply mergePhysical_NoDup.
    + split; simpl; try done; apply mergePhysical_ub.
  - intros st _ H0 Hpos. unfold mergePhysicalHazard.
    destruct (Z.eqb_spec (ph_remaining h) 0); [lia|]. apply mergePhysical_ub.
Qed.

Lemma mergeCoexecHazard_grows h :
  coexecWf h ->
  grows (mergeCoexecHazard h) /\
  forall st, gapWf st -> knowsCoexec h (mergeCoexecHazard h st).
Proof using Type.
  intros Hh. unfold mergeCoexecHazard. split.
  - intros st Hst. destruct (_ && _); [split; [done|reflexivity]|].
    destruct Hst as [[V P C] P' C' T Pe Ca S1 S2 Vc Ex]. split.
    + split; simpl; try done; [|by apply mergeCoexec_wf].
      split; simpl; try done. by apply mergeCoexec_NoDup.
    + split; simpl; try done; apply mergeCoexec_ub.
  - intros st _ H0. destruct (Z.eqb_spec (ce_wmmaRemaining h) 0) as [E1|];
      destruct (Z.eqb_spec (ce_valuRemaining h) 0) as [E2|]; simpl; try lia;
      apply mergeCoexec_ub.
Qed.

Lemma mergeValueHazards_grows v h :
  vhOk h ->
  grows (mergeValueHazards v h) /\
  forall st, gapWf st -> knowsValue (value_id v) h (mergeValueHazards v h st).
Proof using Type.
  intros Hh. unfold mergeValueHazards, knowsValue. destruct (vh.empty h) eqn:He.
  { apply vhEmpty_le in He as ->. split; [apply grows_id|]. intros st Hst. apply Hst. }
  assert (forall st w, vhLe (hazardsAt (values st) w)
    (hazardsAt (<[value_id v := (vh.joinWith (default vh.none (values st !! value_id v)) h).1]>
       (values st)) w)) as Hle.
  { intros st w. rewrite hazardsAt_insert. case_decide as Hw; [|done]. subst w.
    apply vhJoined_ub. }
  split.
  - intros st [[V P C] P' C' T Pe Ca S1 S2 Vc Ex]. split.
    + split; simpl; try done. split; simpl; try done. intros w. unfold vhOk.
      etransitivity; [apply V|apply Hle].
    + split; simpl; try done; exact (Hle st).
  - intros st _. simpl. rewrite hazardsAt_insert, decide_True by done. apply vhJoined_ub.
Qed.

Lemma set_valuWriteVcc_grows n :
  0 <= n -> grows (set_valuWriteVcc (Z.max n)).
Proof using Type.
  intros Hn st [[V P C] P' C' T Pe Ca S1 S2 Vc Ex].
  split; split; simpl; try done; try reflexivity; lia.
Qed.
Lemma set_execWriteHazard_grows n :
  0 <= n -> grows (set_execWriteHazard (Z.max n)).
Proof using Type.
  intros Hn st [[V P C] P' C' T Pe Ca S1 S2 Vc Ex].
  split; split; simpl; try done; try reflexivity; lia.
Qed.
Lemma set_m0DmaCapture_grows n :
  0 <= n -> grows (set_m0DmaCapture (Z.max n)).
Proof using Type.
  intros Hn st [[V P C] P' C' T Pe Ca S1 S2 Vc Ex].
  split; split; simpl; try done; try reflexivity; lia.
Qed.
End Grow.

(** ** The hazards that an operation opens are in the state after it

    For every part of [addProducedHazards], [addProducedCoexecHazards] and
    [addProducedScratchBaseHazards]: it only adds to the state, and the state
    then knows what the operation opens. *)

Section Produce.
Context (cfg : HazardConfig) (Hcfg : configOk cfg).
Abbreviation gapWf := (gapWf cfg).
Abbreviation hazardWf := (hazardWf cfg).
Abbreviation grows := (grows cfg).
Abbreviation monotone := (monotone cfg).

Lemma opens_wf op info h : infoOk cfg op info -> opens cfg op info h -> hazardWf h.
Proof using Hcfg.
  intros Hi Ho. destruct Hcfg, Hi as [Hp _ _ _ _ _ _ _ Hst _ _ _].
  unfold small in *.
  destruct Ho as [span Hm|mma span Hm| | | | |hz span _ Hz]; split; simpl; unfold small; try done;
    try (intros ? [= <-]; done); try lia; try (specialize (Hst _ Hz); lia).
  all: try (unfold latency; clear latency); try (unfold limit; clear limit).
  all: try (rewrite xdlResult_eq by auto; repeat case_match; pose proof (Hp Hm); lia).
  all: try (rewrite xdlWar_eq by auto; repeat case_match; pose proof (Hp Hm); lia).
  all: try by apply Hp.
  all: try (unfold getVGPRWriteHazardLimit, getSGPRWriteHazardLimit; lia).
Qed.

Lemma addHazard_grows h :
  hazardWf h ->
  grows (mergePhysicalHazard h) /\
  forall st, gapWf st -> knowsPhysical h (mergePhysicalHazard h st).
Proof using Type.
  intros Hh. destruct (mergePhysicalHazard_grows cfg h (fun _ => Hh)) as [Hg Hk].
  split; [done|]. intros st Hst. apply Hk; [done|]. destruct Hh. lia.
Qed.

(** ** Matrix operations *)

Lemma addMfmaHazard_grows kind latency passes value :
  (forall span, getAllocatedRegSpan value = Some span ->
     hazardWf (mkPhysical span kind latency latency passes)) ->
  grows (addMfmaHazard kind latency passes value) /\
  forall span st, getAllocatedRegSpan value = Some span -> gapWf st ->
    knowsPhysical (mkPhysical span kind latency latency passes)
      (addMfmaHazard kind latency passes value st).
Proof using Type.
  intros Hh. unfold addMfmaHazard. destruct (getAllocatedRegSpan value) as [span|].
  - destruct (addHazard_grows _ (Hh span eq_refl)) as [Hg Hk]. split; [done|].
    intros ? st [= <-]. apply Hk.
  - split; [apply grows_id|done].
Qed.

Definition mfmaResults (op : GapOp) (info : HazardOpInfo) (st : HazardState) : HazardState :=
  fold_left (fun st result =>
    addMfmaHazard PhysicalHazardKind.MfmaWrite
      (getXdlResultLatency cfg (info_mfmaPasses info)) (info_mfmaPasses info) result st)
    (op_results op) st.
Definition mfmaAccumulator (op : GapOp) (info : HazardOpInfo) (st : HazardState) : HazardState :=
  if getXdlSrcCReadWarLatency cfg (info_mfmaPasses info) =? 0 then st
  else match g_mma op with
       | None => st
       | Some mma =>
           addMfmaHazard PhysicalHazardKind.MfmaSrcCRead
             (getXdlSrcCReadWarLatency cfg (info_mfmaPasses info))
             (info_mfmaPasses info) (mma_Acc mma) st
       end.

Section Op.
Context (op : GapOp) (info : HazardOpInfo) (Hinfo : infoOk cfg op info).

Lemma mfmaResult_grows result :
  mfma info = true -> result ∈ op_results op ->
  grows (addMfmaHazard PhysicalHazardKind.MfmaWrite
    (getXdlResultLatency cfg (info_mfmaPasses info)) (info_mfmaPasses info) result) /\
  forall span st, getAllocatedRegSpan result = Some span -> gapWf st ->
    knowsPhysical (mkPhysical span PhysicalHazardKind.MfmaWrite
      (getXdlResultLatency cfg (info_mfmaPasses info))
      (getXdlResultLatency cfg (info_mfmaPasses info)) (info_mfmaPasses info))
      (addMfmaHazard PhysicalHazardKind.MfmaWrite
        (getXdlResultLatency cfg (info_mfmaPasses info)) (info_mfmaPasses info) result st).
Proof using Hcfg Hinfo.
  intros Hm Hr. apply addMfmaHazard_grows. intros span Hs.
  apply (opens_wf op info); [done|]. apply opens_mfma; [done|]. by exists result.
Qed.

Lemma mfmaResults_grows : mfma info = true -> grows (mfmaResults op info).
Proof using Hcfg Hinfo.
  intros Hm. apply (grows_fold cfg (fun st result => addMfmaHazard _ _ _ result st)).
  intros r Hr. by apply mfmaResult_grows.
Qed.

Lemma mfmaAccumulator_grows : mfma info = true -> grows (mfmaAccumulator op info).
Proof using Hcfg Hinfo.
  intros Hm. unfold mfmaAccumulator. case_match; [apply grows_id|].
  destruct (g_mma op) as [mma|] eqn:Hmma; [|apply grows_id].
  apply addMfmaHazard_grows. intros span Hs. apply (opens_wf op info); [done|].
  by eapply opens_accumulator.
Qed.

Lemma mfmaHazards_known h st :
  mfma info = true -> opens cfg op info h -> gapWf st ->
  knowsPhysical h (addProducedMfmaPhysicalHazards cfg op info st).
Proof using Hcfg Hinfo.
  intros Hm Ho Hst.
  change (knowsPhysical h (mfmaAccumulator op info (mfmaResults op info st))).
  destruct Ho as [span _ (r & Hr & Hs)|mma span _ Hmma Hs| | | | |]; try congruence.
  - apply (knows_then cfg _ (mfmaResults op info) (mfmaAccumulator op info));
      [apply knowsPhysical_mono|by apply mfmaResults_grows|by apply mfmaAccumulator_grows|done|].
    unfold mfmaResults.
    apply (fold_knows cfg (fun st r => addMfmaHazard _ _ _ r st) _ r); try done;
      [apply knowsPhysical_mono|..].
    + intros x Hx. by apply mfmaResult_grows.
    + intros st' Hst'. by apply mfmaResult_grows.
  - unfold mfmaAccumulator. destruct (mfmaResults_grows Hm st Hst) as [Hst' _].
    intros Hpos. destruct (Z.eqb_spec (getXdlSrcCReadWarLatency cfg (info_mfmaPasses info)) 0);
      [simpl in Hpos; unfold latency in Hpos; lia|].
    rewrite Hmma. apply addMfmaHazard_grows; [|done..].
    intros span' Hs'. apply (opens_wf op info); [done|]. by eapply opens_accumulator.
Qed.

(** ** Vector operations *)

Lemma addFresh_grows span kind limit :
  hazardWf (mkPhysical span kind limit limit 0) ->
  grows (addPhysicalHazard span kind limit) /\
  forall st, gapWf st -> knowsPhysical (mkPhysical span kind limit limit 0)
                           (addPhysicalHazard span kind limit st).
Proof using Type. apply addHazard_grows. Qed.

Definition permlaneHazard : ValueHazards :=
  mkValueHazards 0 0 (valuWriteVGPRPermlane32SwapLatency cfg).

(** What the loop over the results does after the transcendental hazard. *)
Lemma valuReg_grows result :
  mfma info = false -> legacyValu info = true -> result ∈ op_results op ->
  grows (addProducedValuRegHazard cfg result) /\
  forall st, gapWf st ->
    (getRegClass result = Some RegClass.VCC ->
       valuWriteSGPRValuReadLatency cfg <= valuWriteVcc (addProducedValuRegHazard cfg result st)) /\
    (getRegClass result = Some RegClass.VGPR ->
       knowsValue (value_id result) permlaneHazard (addProducedValuRegHazard cfg result st)) /\
    (forall span, getAllocatedRegSpan result = Some span -> isVGPRSpan span = true ->
       let limit := getVGPRWriteHazardLimit cfg in
       knowsPhysical (mkPhysical span PhysicalHazardKind.ValuWriteVGPR limit limit 0)
         (addProducedValuRegHazard cfg result st)) /\
    (forall span, getAllocatedRegSpan result = Some span -> isSGPRSpan span = true ->
       let limit := getSGPRWriteHazardLimit cfg in
       knowsPhysical (mkPhysical span PhysicalHazardKind.ValuWriteSGPR limit limit 0)
         (addProducedValuRegHazard cfg result st)).
Proof using Hcfg Hinfo.
  intros Hm Hl Hr. unfold addProducedValuRegHazard, getRegClass.
  assert (vhOk permlaneHazard) as Hpl.
  { destruct Hcfg. unfold small in *. split; simpl; lia. }
  destruct (mergeValueHazards_grows cfg result permlaneHazard Hpl) as [Gv Kv].
  assert (forall span, getAllocatedRegSpan result = Some span -> isVGPRSpan span = true ->
    hazardWf (mkPhysical span PhysicalHazardKind.ValuWriteVGPR
      (getVGPRWriteHazardLimit cfg) (getVGPRWriteHazardLimit cfg) 0)) as WV.
  { intros span Hs Hv. apply (opens_wf op info); [done|]. apply opens_vgpr; try done.
    by exists result. }
  assert (forall span, getAllocatedRegSpan result = Some span -> isSGPRSpan span = true ->
    hazardWf (mkPhysical span PhysicalHazardKind.ValuWriteSGPR
      (getSGPRWriteHazardLimit cfg) (getSGPRWriteHazardLimit cfg) 0)) as WS.
  { intros span Hs Hv. apply (opens_wf op info); [done|]. apply opens_sgpr; try done.
    by exists result. }
  destruct (value_type result) as [cls w i| | | | |] eqn:Hty;
    try (split; [apply grows_id|intros st _]; unfold getAllocatedRegSpan; rewrite Hty;
         split_and!; done).
  assert (forall span, getAllocatedRegSpan result = Some span -> span_regClass span = cls) as Hcls.
  { unfold getAllocatedRegSpan. rewrite Hty. intros span. repeat case_match; try done.
    by intros [= <-]. }
  destruct (getAllocatedRegSpan result) as [span|] eqn:Hspan.
  2: { destruct cls; (split; [try apply grows_id; try done; try apply set_valuWriteVcc_grows|]);
         try (destruct Hcfg; unfold small in *; lia); intros st Hst; split_and!; try done;
         intros _; simpl; try lia; by apply Kv. }
  specialize (Hcls span eq_refl).
  assert (isVGPRSpan span = bool_decide (cls = RegClass.VGPR) /\
    isSGPRSpan span = bool_decide (cls = RegClass.SGPR)) as [EV ES].
  { unfold isVGPRSpan, isSGPRSpan. by rewrite Hcls. }
  rewrite EV, ES. destruct cls; simpl in *.
  - destruct (addFresh_grows span _ _ (WS span eq_refl ES)) as [G K].
    split; [done|]. intros st Hst. split_and!; try done; intros ? [= <-] ?; [congruence|by apply K].
  - destruct (addFresh_grows span _ _ (WV span eq_refl EV)) as [G K].
    split; [by apply (grows_compose cfg (mergeValueHazards result permlaneHazard))|].
    intros st Hst. destruct (Gv st Hst) as [Hst' _]. split_and!; try done.
    + intros _. destruct (G _ Hst') as [Hst'' L]. by apply (knowsValue_mono cfg _ _ _ _ Hst' Hst'' L), Kv.
    + intros ? [= <-] _. by apply K.
    + intros ? [= <-] ?. congruence.
  - split; [apply grows_id|]. intros st Hst. split_and!; try done; intros ? [= <-] ?; congruence.
  - split; [apply grows_id|]. intros st Hst. split_and!; try done; intros ? [= <-] ?; congruence.
  - split; [apply set_valuWriteVcc_grows; destruct Hcfg; unfold small in *; lia|].
    intros st Hst. split_and!; try done; try (intros ? [= <-] ?; congruence).
    intros _. simpl. lia.
Qed.

Definition valuExec (st : HazardState) : HazardState :=
  if writesExec info
  then set_execWriteHazard (Z.max (valuWriteExecConsumerLatency cfg)) st else st.
Definition valuResult (st : HazardState) (result : Value) : HazardState :=
  addProducedValuRegHazard cfg result
    (if hasTransForwardingHazard cfg && trans info
     then addProducedTransRegHazard cfg result st else st).

Lemma vgprHazard_grows kind limit result :
  (forall span, getAllocatedRegSpan result = Some span -> isVGPRSpan span = true ->
     hazardWf (mkPhysical span kind limit limit 0)) ->
  grows (addVGPRHazard kind limit result) /\
  forall span st, getAllocatedRegSpan result = Some span -> isVGPRSpan span = true ->
    gapWf st -> knowsPhysical (mkPhysical span kind limit limit 0)
                  (addVGPRHazard kind limit result st).
Proof using Type.
  intros Hh. unfold addVGPRHazard. destruct (getAllocatedRegSpan result) as [span|];
    [|split; [apply grows_id|done]].
  destruct (isVGPRSpan span) eqn:Hv; simpl.
  - destruct (addFresh_grows span kind limit (Hh span eq_refl Hv)) as [G K].
    split; [done|]. intros ? st [= <-] _. apply K.
  - split; [apply grows_id|]. intros ? st [= <-]. congruence.
Qed.

Lemma transReg_grows result :
  mfma info = false -> trans info = true -> result ∈ op_results op ->
  grows (addProducedTransRegHazard cfg result) /\
  forall span st, hasTransForwardingHazard cfg = true ->
    getAllocatedRegSpan result = Some span -> isVGPRSpan span = true -> gapWf st ->
    let limit := transForwardingWaitStates cfg in
    knowsPhysical (mkPhysical span PhysicalHazardKind.TransWriteVGPR limit limit 0)
      (addProducedTransRegHazard cfg result st).
Proof using Hcfg Hinfo.
  intros Hm Ht Hr. unfold addProducedTransRegHazard.
  destruct (hasTransForwardingHazard cfg) eqn:Hh; simpl; [|split; [apply grows_id|done]].
  destruct (vgprHazard_grows PhysicalHazardKind.TransWriteVGPR
    (transForwardingWaitStates cfg) result) as [G K].
  { intros span Hs Hv. apply (opens_wf op info); [done|]. apply opens_trans; try done.
    - by apply Hinfo.
    - by exists result. }
  split; [done|]. intros span st _. apply K.
Qed.

Lemma valuResult_grows result :
  mfma info = false -> legacyValu info = true -> result ∈ op_results op ->
  grows (fun st => valuResult st result).
Proof using Hcfg Hinfo.
  intros Hm Hl Hr.
  apply (grows_compose cfg (fun st => if hasTransForwardingHazard cfg && trans info
    then addProducedTransRegHazard cfg result st else st)); [|by apply valuReg_grows].
  destruct (_ && _) eqn:Ht; [|apply grows_id]. apply andb_true_iff in Ht as [_ Ht].
  by apply transReg_grows.
Qed.

Lemma valuExec_grows : grows valuExec.
Proof using Hcfg.
  unfold valuExec. destruct (writesExec info); [|apply grows_id].
  apply set_execWriteHazard_grows. destruct Hcfg. unfold small in *. lia.
Qed.

Lemma valuPhysical_eq st :
  addProducedValuPhysicalHazards cfg op info st
  = fold_left valuResult (op_results op) (valuExec st).
Proof using Type. done. Qed.

Lemma valuPhysical_grows :
  mfma info = false -> legacyValu info = true ->
  grows (addProducedValuPhysicalHazards cfg op info).
Proof using Hcfg Hinfo.
  intros Hm Hl. apply (grows_compose cfg valuExec); [apply valuExec_grows|].
  apply grows_fold. intros r Hr. by apply valuResult_grows.
Qed.

(** What a result of a vector operation leaves, it leaves at the end. *)
Lemma valuPhysical_knows K result :
  mfma info = false -> legacyValu info = true -> result ∈ op_results op -> monotone K ->
  (forall st, gapWf st -> K (valuResult st result)) ->
  forall st, gapWf st -> K (addProducedValuPhysicalHazards cfg op info st).
Proof using Hcfg Hinfo.
  intros Hm Hl Hr HK Hk st Hst. rewrite valuPhysical_eq.
  apply (fold_knows cfg valuResult _ result); try done.
  - intros x Hx. by apply valuResult_grows.
  - by apply valuExec_grows.
Qed.

Lemma valuReg_knows K result :
  mfma info = false -> legacyValu info = true -> result ∈ op_results op -> monotone K ->
  (forall st, gapWf st -> K (addProducedValuRegHazard cfg result st)) ->
  forall st, gapWf st -> K (addProducedValuPhysicalHazards cfg op info st).
Proof using Hcfg Hinfo.
  intros Hm Hl Hr HK Hk. apply (valuPhysical_knows K result); try done.
  intros st Hst. apply Hk. destruct (_ && _) eqn:Ht; [|done].
  apply andb_true_iff in Ht as [_ Ht]. by apply (transReg_grows result Hm Ht Hr).
Qed.

(** ** All hazards *)

Lemma dstSel_grows :
  mfma info = false -> grows (addProducedDstSelForwardingHazard cfg op) /\
  forall span result st, hasDstSelForwardingHazard cfg = true ->
    g_dstSelResult op = Some result -> getAllocatedRegSpan result = Some span ->
    isVGPRSpan span = true -> gapWf st ->
    let limit := dstSelForwardingWaitStates cfg in
    knowsPhysical (mkPhysical span PhysicalHazardKind.DstSelWriteVGPR limit limit 0)
      (addProducedDstSelForwardingHazard cfg op st).
Proof using Hcfg Hinfo.
  intros Hm. unfold addProducedDstSelForwardingHazard.
  destruct (hasDstSelForwardingHazard cfg) eqn:Hh; simpl; [|split; [apply grows_id|done]].
  destruct (g_dstSelResult op) as [r|] eqn:Hr; [|split; [apply grows_id|done]].
  destruct (vgprHazard_grows PhysicalHazardKind.DstSelWriteVGPR
    (dstSelForwardingWaitStates cfg) r) as [G K].
  { intros span Hs Hv. apply (opens_wf op info); [done|]. by eapply opens_dst_sel. }
  split; [done|]. intros span ? st _ [= <-]. apply K.
Qed.

Lemma store_grows :
  mfma info = false -> grows (addProducedStorePhysicalHazards info) /\
  forall hazard span st, storeWriteData info = Some hazard ->
    getAllocatedRegSpan (hazard_data hazard) = Some span -> gapWf st ->
    let limit := hazard_latency hazard in
    knowsPhysical (mkPhysical span PhysicalHazardKind.StoreWriteData limit limit 0)
      (addProducedStorePhysicalHazards info st).
Proof using Hcfg Hinfo.
  intros Hm. unfold addProducedStorePhysicalHazards.
  destruct (storeWriteData info) as [h|] eqn:Hst; [|split; [apply grows_id|done]].
  destruct (getAllocatedRegSpan (hazard_data h)) as [span|] eqn:Hs.
  - destruct (addFresh_grows span PhysicalHazardKind.StoreWriteData (hazard_latency h)) as [G K].
    { apply (opens_wf op info); [done|]. by eapply opens_store. }
    split; [done|]. intros ? ? st [= <-] Hs'. rewrite Hs in Hs'. injection Hs' as <-. apply K.
  - split; [apply grows_id|]. intros ? ? st [= <-]. congruence.
Qed.

Definition valuPart (st : HazardState) : HazardState :=
  if legacyValu info then addProducedValuPhysicalHazards cfg op info st else st.

Lemma valuPart_grows : mfma info = false -> grows valuPart.
Proof using Hcfg Hinfo.
  intros Hm. unfold valuPart. destruct (legacyValu info) eqn:Hl; [|apply grows_id].
  by apply valuPhysical_grows.
Qed.

Lemma physicalPart_eq st :
  mfma info = false -> addProducedPhysicalHazards cfg op info st =
  addProducedStorePhysicalHazards info (addProducedDstSelForwardingHazard cfg op (valuPart st)).
Proof using Type. intros Hm. unfold addProducedPhysicalHazards. by rewrite Hm. Qed.

Lemma physicalPart_grows : grows (addProducedPhysicalHazards cfg op info).
Proof using Hcfg Hinfo.
  destruct (mfma info) eqn:Hm.
  - intros st Hst. unfold addProducedPhysicalHazards. rewrite Hm.
    revert st Hst. apply (grows_compose cfg (mfmaResults op info) (mfmaAccumulator op info));
      [by apply mfmaResults_grows|by apply mfmaAccumulator_grows].
  - intros st Hst. rewrite physicalPart_eq by done. revert st Hst.
    apply (grows_compose cfg valuPart (fun st => addProducedStorePhysicalHazards info
      (addProducedDstSelForwardingHazard cfg op st))); [by apply valuPart_grows|].
    apply (grows_compose cfg (addProducedDstSelForwardingHazard cfg op)
      (addProducedStorePhysicalHazards info)); [by apply dstSel_grows|by apply store_grows].
Qed.

(** What the vector part leaves is there at the end. *)
Lemma valuPart_knows K :
  mfma info = false -> legacyValu info = true -> monotone K ->
  (forall st, gapWf st -> K (addProducedValuPhysicalHazards cfg op info st)) ->
  forall st, gapWf st -> K (addProducedPhysicalHazards cfg op info st).
Proof using Hcfg Hinfo.
  intros Hm Hl HK Hk st Hst. rewrite physicalPart_eq by done.
  apply (knows_then cfg K valuPart (fun st => addProducedStorePhysicalHazards info
    (addProducedDstSelForwardingHazard cfg op st))); try done; [by apply valuPart_grows|..].
  - apply (grows_compose cfg (addProducedDstSelForwardingHazard cfg op)
      (addProducedStorePhysicalHazards info)); [by apply dstSel_grows|by apply store_grows].
  - unfold valuPart. rewrite Hl. by apply Hk.
Qed.

Lemma physicalPart_knows h st :
  opens cfg op info h -> gapWf st ->
  knowsPhysical h (addProducedPhysicalHazards cfg op info st).
Proof using Hcfg Hinfo.
  intros Ho Hst. destruct (mfma info) eqn:Hm.
  { unfold addProducedPhysicalHazards. rewrite Hm. by apply mfmaHazards_known. }
  destruct Ho as [|?|span _ Hf Ht Hl (r & Hr & Hs) Hv|r span _ Hf Hr Hs Hv
    |span _ Hl (r & Hr & Hs) Hv|span _ Hl (r & Hr & Hs) Hv|hz span _ Hz Hs]; try congruence.
  - apply valuPart_knows; try done; [apply knowsPhysical_mono|].
    apply (valuPhysical_knows _ r); try done; [apply knowsPhysical_mono|].
    intros st' Hst'. unfold valuResult. rewrite Hf, Ht. simpl.
    apply (knows_then cfg _ (addProducedTransRegHazard cfg r)); [apply knowsPhysical_mono|..].
    + by apply transReg_grows.
    + by apply valuReg_grows.
    + done.
    + by apply transReg_grows.
  - rewrite physicalPart_eq by done.
    apply (knows_then cfg _ (addProducedDstSelForwardingHazard cfg op)
      (addProducedStorePhysicalHazards info)); [apply knowsPhysical_mono|..].
    + by apply dstSel_grows.
    + by apply store_grows.
    + by apply valuPart_grows.
    + eapply dstSel_grows; try done. by apply valuPart_grows.
  - apply valuPart_knows; try done; [apply knowsPhysical_mono|].
    apply (valuReg_knows _ r); try done; [apply knowsPhysical_mono|].
    intros st' Hst'. by eapply (valuReg_grows r Hm Hl Hr).
  - apply valuPart_knows; try done; [apply knowsPhysical_mono|].
    apply (valuReg_knows _ r); try done; [apply knowsPhysical_mono|].
    intros st' Hst'. by eapply (valuReg_grows r Hm Hl Hr).
  - rewrite physicalPart_eq by done. eapply store_grows; try done.
    apply dstSel_grows; [done|]. by apply valuPart_grows.
Qed.

Definition capturePart (st : HazardState) : HazardState :=
  if ldsDmaIssue info then set_m0DmaCapture (Z.max (m0DmaCaptureDelay cfg)) st else st.
Definition m0Part (st : HazardState) : HazardState :=
  match g_m0Value op with
  | Some value => mergeValueHazards value (mkValueHazards (m0PipelineDelay cfg) 0 0) st
  | None => st
  end.
Definition mfmaValuesPart (st : HazardState) : HazardState :=
  if mfma info
  then fold_left (fun st result => mergeValueHazards result
         (mkValueHazards 0 (getXdlResultLatency cfg (info_mfmaPasses info)) 0) st)
         (op_results op) st
  else st.

Lemma addProducedHazards_eq st :
  addProducedHazards cfg op info st
  = addProducedPhysicalHazards cfg op info (mfmaValuesPart (m0Part (capturePart st))).
Proof using Type. done. Qed.

Lemma capturePart_grows : grows capturePart.
Proof using Hcfg.
  unfold capturePart. destruct (ldsDmaIssue info); [|apply grows_id].
  apply set_m0DmaCapture_grows. destruct Hcfg. unfold small in *. lia.
Qed.

Lemma m0Hazard_ok : vhOk (mkValueHazards (m0PipelineDelay cfg) 0 0).
Proof using Hcfg. destruct Hcfg. unfold small in *. split; simpl; lia. Qed.

Lemma mfmaHazard_ok :
  mfma info = true ->
  vhOk (mkValueHazards 0 (getXdlResultLatency cfg (info_mfmaPasses info)) 0).
Proof using Hinfo.
  intros Hm. pose proof (info_passes _ _ _ Hinfo Hm) as Hp.
  rewrite xdlResult_eq by done. split; simpl; repeat case_match; lia.
Qed.

Lemma m0Part_grows : grows m0Part.
Proof using Hcfg.
  unfold m0Part. destruct (g_m0Value op); [|apply grows_id].
  apply mergeValueHazards_grows, m0Hazard_ok.
Qed.

Lemma mfmaValue_grows result :
  mfma info = true ->
  grows (mergeValueHazards result
    (mkValueHazards 0 (getXdlResultLatency cfg (info_mfmaPasses info)) 0)).
Proof using Hinfo. intros Hm. by apply mergeValueHazards_grows, mfmaHazard_ok. Qed.

Lemma mfmaValuesPart_grows : grows mfmaValuesPart.
Proof using Hinfo.
  unfold mfmaValuesPart. destruct (mfma info) eqn:Hm; [|apply grows_id].
  apply (grows_fold cfg (fun st r => mergeValueHazards r _ st)). intros r _.
  by apply mfmaValue_grows.
Qed.

Lemma addProducedHazards_grows : grows (addProducedHazards cfg op info).
Proof using Hcfg Hinfo.
  apply (grows_compose cfg capturePart (fun st => addProducedPhysicalHazards cfg op info
    (mfmaValuesPart (m0Part st)))); [apply capturePart_grows|].
  apply (grows_compose cfg m0Part (fun st => addProducedPhysicalHazards cfg op info
    (mfmaValuesPart st))); [apply m0Part_grows|].
  apply (grows_compose cfg mfmaValuesPart (addProducedPhysicalHazards cfg op info));
    [apply mfmaValuesPart_grows|apply physicalPart_grows].
Qed.

(** What the state after an operation knows of it. *)
Record produced (st : HazardState) : Prop := {
  prod_physical : forall h, opens cfg op info h -> knowsPhysical h st;
  prod_vcc : forall r, mfma info = false -> legacyValu info = true ->
    r ∈ op_results op -> getRegClass r = Some RegClass.VCC ->
    valuWriteSGPRValuReadLatency cfg <= valuWriteVcc st;
  prod_exec : mfma info = false -> legacyValu info = true -> writesExec info = true ->
    valuWriteExecConsumerLatency cfg <= execWriteHazard st;
  prod_capture : ldsDmaIssue info = true -> m0DmaCaptureDelay cfg <= m0DmaCapture st;
  prod_m0 : forall m0, g_m0Value op = Some m0 ->
    knowsValue (value_id m0) (mkValueHazards (m0PipelineDelay cfg) 0 0) st;
  prod_mfma : forall r, mfma info = true -> r ∈ op_results op ->
    knowsValue (value_id r)
      (mkValueHazards 0 (getXdlResultLatency cfg (info_mfmaPasses info)) 0) st;
  prod_permlane : forall r, mfma info = false -> legacyValu info = true ->
    r ∈ op_results op -> getRegClass r = Some RegClass.VGPR ->
    knowsValue (value_id r) permlaneHazard st
}.

Lemma produced_mono : monotone produced.
Proof using Type.
  intros st st' W W' L [P1 P2 P3 P4 P5 P6 P7]. destruct (L) as [_ _ L3 _ _ _ _ _ L9 L10].
  split.
  - intros h Ho. by apply (knowsPhysical_mono cfg h st st' W W' L), P1.
  - intros r Hm Hl Hr Hc. specialize (P2 r Hm Hl Hr Hc). lia.
  - intros Hm Hl He. specialize (P3 Hm Hl He). lia.
  - intros Hl. specialize (P4 Hl). lia.
  - intros m0 Hm0. by apply (knowsValue_mono cfg _ _ st st' W W' L), P5.
  - intros r Hm Hr. by apply (knowsValue_mono cfg _ _ st st' W W' L), P6.
  - intros r Hm Hl Hr Hc. by apply (knowsValue_mono cfg _ _ st st' W W' L), P7.
Qed.

(** What the parts before the physical hazards leave is there at the end. *)
Lemma valuesPart_knows K f st :
  monotone K -> grows f -> (forall st, gapWf st -> K (f st)) -> gapWf st ->
  K (addProducedPhysicalHazards cfg op info (f st)).
Proof using Hcfg Hinfo.
  intros HK Hf Hk Hst. apply (knows_then cfg K f); auto. apply physicalPart_grows.
Qed.

Lemma addProducedHazards_produced st :
  gapWf st -> produced (addProducedHazards cfg op info st).
Proof using Hcfg Hinfo.
  intros Hst. rewrite addProducedHazards_eq.
  destruct (capturePart_grows st Hst) as [W1 L1], (m0Part_grows _ W1) as [W2 L2],
    (mfmaValuesPart_grows _ W2) as [W3 L3], (physicalPart_grows _ W3) as [W4 L4].
  split.
  - intros h Ho. by apply physicalPart_knows.
  - intros r Hm Hl Hr Hc.
    apply (valuPart_knows (fun st => valuWriteSGPRValuReadLatency cfg <= valuWriteVcc st));
      try done; [intros ? ? _ _ [] ?; lia|].
    apply (valuReg_knows (fun st => valuWriteSGPRValuReadLatency cfg <= valuWriteVcc st) r);
      try done; [intros ? ? _ _ [] ?; lia|].
    intros st' Hst'. by apply (valuReg_grows r Hm Hl Hr).
  - intros Hm Hl He.
    apply (valuPart_knows (fun st => valuWriteExecConsumerLatency cfg <= execWriteHazard st));
      try done; [intros ? ? _ _ [] ?; lia|].
    intros st' Hst'. rewrite valuPhysical_eq.
    assert (grows (fun st => fold_left valuResult (op_results op) st)) as Hg.
    { apply grows_fold. intros r Hr. by apply valuResult_grows. }
    destruct (valuExec_grows st' Hst') as [W L], (Hg _ W) as [_ [_ _ _ _ _ _ _ _ _ Hx]].
    unfold valuExec in Hx at 1. rewrite He in Hx. simpl in Hx. lia.
  - intros Hl. destruct L2 as [_ _ H2 _ _ _ _ _ _ _], L3 as [_ _ H3 _ _ _ _ _ _ _],
      L4 as [_ _ H4 _ _ _ _ _ _ _].
    assert (m0DmaCaptureDelay cfg <= m0DmaCapture (capturePart st)); [|lia].
    unfold capturePart. rewrite Hl. simpl. lia.
  - intros m0 Hm0.
    apply (knowsValue_mono cfg _ _ (m0Part (capturePart st)) _ W2 W4);
      [by etransitivity|]. unfold m0Part. rewrite Hm0.
    apply (mergeValueHazards_grows cfg); [apply m0Hazard_ok|done].
  - intros r Hm Hr. apply (knowsValue_mono cfg _ _ _ _ W3 W4 L4).
    unfold mfmaValuesPart. rewrite Hm.
    apply (fold_knows cfg (fun st r => mergeValueHazards r _ st) _ r); try done.
    + apply knowsValue_mono.
    + intros x _. by apply mfmaValue_grows.
    + intros st' Hst'. apply (mergeValueHazards_grows cfg); [by apply mfmaHazard_ok|done].
  - intros r Hm Hl Hr Hc.
    apply (valuPart_knows (knowsValue (value_id r) permlaneHazard)); try done;
      [apply knowsValue_mono|].
    apply (valuReg_knows _ r); try done; [apply knowsValue_mono|].
    intros st' Hst'. by apply (valuReg_grows r Hm Hl Hr).
Qed.

(** ** Co-execution *)

Lemma addCoexecSpan_grows kind wmma valu value :
  0 <= wmma -> 0 <= valu ->
  grows (fun st => addCoexecSpan kind wmma valu st value) /\
  forall span st, getAllocatedRegSpan value = Some span -> gapWf st ->
    knowsCoexec (mkCoexec span kind wmma valu) (addCoexecSpan kind wmma valu st value).
Proof using Type.
  intros Hw Hv. unfold addCoexecSpan. destruct (getAllocatedRegSpan value) as [span|].
  - destruct (mergeCoexecHazard_grows cfg (mkCoexec span kind wmma valu)) as [G K]; [by split|].
    split; [done|]. intros ? st [= <-]. apply K.
  - split; [apply grows_id|done].
Qed.

Definition transPart (st : HazardState) : HazardState :=
  if g_hasTransCoexecutionHazard cfg && trans info
  then fold_left (addCoexecSpan CoexecHazardKind.TransUse 0 1) (op_operands op)
         (fold_left (addCoexecSpan CoexecHazardKind.TransDef 0 1) (op_results op) st)
  else st.

Lemma spans_grow kind l : grows (fun st => fold_left (addCoexecSpan kind 0 1) l st).
Proof using Type. apply grows_fold. intros v _. by apply addCoexecSpan_grows. Qed.

Lemma transPart_grows : grows transPart.
Proof using Type.
  unfold transPart. destruct (_ && _); [|apply grows_id].
  apply (grows_compose cfg (fun st => fold_left (addCoexecSpan _ 0 1) _ st)); apply spans_grow.
Qed.

Context `{LLVMTarget}.

Lemma getWmmaVALUWaitSlots_nonneg slots :
  getWmmaVALUWaitSlots cfg info = Ok slots -> 0 <= slots < 4294967295.
Proof using Type.
  unfold getWmmaVALUWaitSlots. destruct (g_arch cfg) as [arch|]; [|done].
  intros Hs. apply outcome_bind_Ok in Hs as (l & _ & Hs). case_match; injection Hs as <-; [lia|].
  pose proof (u32_nonneg l).
  assert (u32 l < 4294967296) by (apply Z.mod_pos_bound; lia).
  split; [apply Z.div_pos; lia|]. apply Z.div_lt_upper_bound; lia.
Qed.

(** The three spans of a matrix operation that co-executes. *)
Definition wmmaPart (mma : MmaOperands) (slots : Z) (st : HazardState) : HazardState :=
  addCoexecSpan CoexecHazardKind.WmmaUse 0 slots
    (addCoexecSpan CoexecHazardKind.WmmaUse 0 slots
       (addCoexecSpan CoexecHazardKind.WmmaDef (u32 (slots + 1)) slots st (mma_AccResult mma))
       (mma_A mma)) (mma_B mma).

Lemma addProducedCoexecHazards_inv st st' :
  addProducedCoexecHazards cfg op info st = Ok st' ->
  (st' = transPart st /\ g_hasWmmaCoexecutionHazard cfg && xdlWmma info = false) \/
  (exists mma slots, g_mma op = Some mma /\ getWmmaVALUWaitSlots cfg info = Ok slots /\
     st' = wmmaPart mma slots (transPart st)).
Proof using Type.
  unfold addProducedCoexecHazards. cbv zeta.
  replace (if g_hasTransCoexecutionHazard cfg && trans info then _ else st)
    with (transPart st) by done.
  destruct (g_hasWmmaCoexecutionHazard cfg), (xdlWmma info); simpl;
    try (intros [= <-]; by left).
  intros Hs. right. apply outcome_bind_Ok in Hs as (mma & Hmma & Hs).
  apply outcome_bind_Ok in Hs as (slots & Hslots & [= <-]). unfold castMma in Hmma.
  destruct (g_mma op) as [mma'|]; [|done]. injection Hmma as ->. by exists mma, slots.
Qed.

Lemma addProducedCoexecHazards_spec st st' :
  gapWf st -> addProducedCoexecHazards cfg op info st = Ok st' ->
  gapWf st' /\ hle st st' /\ forall h, opensCoexec cfg op info h -> knowsCoexec h st'.
Proof using Type.
  intros Hst Hs.
  assert (forall h, opensCoexec cfg op info h ->
    ce_kind h = CoexecHazardKind.TransDef \/ ce_kind h = CoexecHazardKind.TransUse ->
    knowsCoexec h (transPart st)) as Htrans.
  { intros h Ho Hk. unfold transPart.
    destruct Ho as [span Hf Ht (v & Hv & Hsp)|span Hf Ht (v & Hv & Hsp)| |];
      [| |by destruct Hk..]; rewrite Hf, Ht; simpl.
    - apply (knows_then cfg _ (fun st => fold_left (addCoexecSpan _ 0 1) (op_results op) st)
        (fun st => fold_left (addCoexecSpan _ 0 1) (op_operands op) st));
        [apply knowsCoexec_mono|apply spans_grow|apply spans_grow|done|].
      apply (fold_knows cfg _ _ v); try done; [apply knowsCoexec_mono|..].
      + intros x _. by apply addCoexecSpan_grows.
      + intros s Hs'. by apply addCoexecSpan_grows.
    - apply (fold_knows cfg _ _ v); try done; [apply knowsCoexec_mono|..].
      + intros x _. by apply addCoexecSpan_grows.
      + intros s Hs'. by apply addCoexecSpan_grows.
      + by apply spans_grow. }
  destruct (transPart_grows st Hst) as [W1 L1].
  apply addProducedCoexecHazards_inv in Hs as [[-> Hn]|(mma & slots & Hmma & Hslots & ->)].
  { split_and!; [done|done|]. intros h Ho. apply Htrans; [done|].
    destruct Ho; simpl; auto; exfalso;
      repeat match goal with H : _ = true |- _ => rewrite H in Hn end; done. }
  pose proof (getWmmaVALUWaitSlots_nonneg slots Hslots) as Hpos.
  pose proof (u32_nonneg (slots + 1)) as Hu.
  destruct (addCoexecSpan_grows CoexecHazardKind.WmmaDef (u32 (slots + 1)) slots
    (mma_AccResult mma)) as [G1 K1]; [lia..|].
  destruct (addCoexecSpan_grows CoexecHazardKind.WmmaUse 0 slots (mma_A mma))
    as [G2 K2]; [lia..|].
  destruct (addCoexecSpan_grows CoexecHazardKind.WmmaUse 0 slots (mma_B mma))
    as [G3 K3]; [lia..|].
  destruct (G1 _ W1) as [W2 L2], (G2 _ W2) as [W3 L3], (G3 _ W3) as [W4 L4].
  pose proof (transitivity L3 L4) as L34. pose proof (transitivity L2 L34) as L234.
  unfold wmmaPart. split_and!; [done|by etransitivity|].
  intros h Ho. destruct (Ho) as [? ?|? ?|mma' slots' span _ _ Hm Hsl Hsp
    |mma' slots' span _ _ Hm Hsl [Hsp|Hsp]];
    try (assert (mma' = mma) as -> by congruence; assert (slots' = slots) as -> by congruence).
  - apply (knowsCoexec_mono cfg _ _ _ W1 W4 L234), Htrans; auto.
  - apply (knowsCoexec_mono cfg _ _ _ W1 W4 L234), Htrans; auto.
  - apply (knowsCoexec_mono cfg _ _ _ W2 W4 L34). by apply K1.
  - apply (knowsCoexec_mono cfg _ _ _ W3 W4); [done|]. by apply K2.
  - by apply K3.
Qed.
End Op.
End Produce.
