(* ===== verification/GapSound.v ===== *)
(** * The transfer function keeps track of every open hazard

    If a state describes the hardware before an operation, [transferHazards]
    describes it afterwards; so do the mitigations, the edges and the join. *)

From stdpp Require Import base tactics list gmap numbers strings sets.
From S2P Require Import Prelude CostEnums ArchData MachineIR LatencyTable.
From S2P Require Import OpClassifier ExecState TicketIR GapIR GapState GapTransfer GapLattice.
From S2P Require Import GapGrow GapMachine.

(** What holds of the hardware itself. *)
Record machineOk (cfg : HazardConfig) (m : GapMachine) : Prop := {
  mok_events : forall e, e ∈ past m -> infoOk cfg (ev_op e) (ev_info e) /\
    0 <= ev_age e /\ 0 <= ev_valuAge e /\ 0 <= ev_sgprAge e;
  mok_content : forall v id r, (id, r) ∈ content m v -> (id < length (past m))%nat;
  mok_outstanding : 0 <= outstanding m;
  mok_drain : forall a, drainAge m = Some a -> 0 <= a
}.

Section Sound.
Context `{LLVMTarget} `{GapLLVM} (cfg : HazardConfig) (Hcfg : configOk cfg).
Abbreviation gapWf := (gapWf cfg).
Abbreviation describes := (describes cfg).
Abbreviation machineOk := (machineOk cfg).

Lemma initial_describes st : gapWf st -> describes st initialGapMachine.
Proof using Type.
  intros [_ _ _ T P _ _ _ _ _].
  split; simpl; try (by intros ? Hin; apply elem_of_nil in Hin);
    try (by intros ? ? Hin; apply elem_of_nil in Hin); try done.
  intros _. left. lia.
Qed.

Lemma initial_machineOk : machineOk initialGapMachine.
Proof using Type.
  split; simpl; try done; [by intros e ?%elem_of_nil|by intros v id r ?%elem_of_nil].
Qed.

Lemma describes_hle st st' m : hle st st' -> describes st m -> describes st' m.
Proof using Type.
  intros [L1 L2 L3 L4 L5 L6 L7 L8 L9 L10] [D1 D2 D3 D4 D5 D6 D7 D8 D9]. split.
  - intros e h He Ho Hs Ha. destruct (D1 e h He Ho Hs Ha) as (h1 & H1 & M1).
    destruct (L5 h1 H1) as (h2 & H2 & M2). exists h2. split; [done|by etransitivity].
  - intros e h He Ho Ha. destruct (D2 e h He Ho Ha) as (h1 & H1 & M1).
    destruct (L6 h1 H1) as (h2 & H2 & M2). exists h2. split; [done|by etransitivity].
  - intros e He Hf Hw Hd. destruct (D3 e He Hf Hw Hd) as [H1 H2].
    split; intros Hm; [specialize (H1 Hm)|specialize (H2 Hm)]; lia.
  - intros e r He H1 H2 H3 H4. specialize (D4 e r He H1 H2 H3 H4). lia.
  - intros e He H1 H2 H3. specialize (D5 e He H1 H2 H3). lia.
  - intros e He H1. specialize (D6 e He H1). lia.
  - intros v id r e Hin He. destruct (D7 v id r e Hin He) as (H1 & H2 & H3).
    destruct (L4 v) as [V1 V2 V3]. unfold valueCovered. split_and!.
    + intros m0 Hm Hid. specialize (H1 m0 Hm Hid). lia.
    + intros Hm. specialize (H2 Hm). lia.
    + intros Hm Hl Hr. specialize (H3 Hm Hl Hr). lia.
  - intros Hl. destruct (D8 Hl); [left|right]; lia.
  - intros a Hl Hd. specialize (D9 a Hl Hd). lia.
Qed.

(** ** Time *)

Lemma ageMachine_compose n v s n' v' s' m :
  ageMachine n v s (ageMachine n' v' s' m) = ageMachine (n' + n) (v' + v) (s' + s) m.
Proof using Type.
  unfold ageMachine. simpl. f_equal.
  - rewrite <-list_fmap_compose. apply list_fmap_ext. intros i e _. unfold ageEvent. simpl.
    f_equal; lia.
  - destruct (drainAge m); simpl; [f_equal; lia|done].
Qed.

Lemma ageMachine_zero m : ageMachine 0 0 0 m = m.
Proof using Type.
  unfold ageMachine. destruct m as [p c o d]. simpl. f_equal.
  - rewrite <-(list_fmap_id p) at 2. apply list_fmap_ext. intros i e _.
    destruct e. unfold ageEvent. simpl. f_equal; lia.
  - destruct d; simpl; [f_equal; lia|done].
Qed.

Lemma ageMachine_ok n v s m :
  0 <= n -> 0 <= v -> 0 <= s -> machineOk m -> machineOk (ageMachine n v s m).
Proof using Type.
  intros Hn Hv Hs [M1 M2 M3 M4]. split; simpl.
  - intros e He. apply list_elem_of_fmap in He as (e0 & -> & He).
    destruct (M1 e0 He) as (? & ? & ? & ?). simpl. split_and!; [done|lia..].
  - intros w id r Hin. rewrite length_fmap. by eapply M2.
  - done.
  - intros a Ha. destruct (drainAge m) as [b|]; [|done]. injection Ha as <-.
    specialize (M4 b eq_refl). lia.
Qed.

(** An event of the aged machine. *)
Ltac aged_event He e0 :=
  simpl in He; apply list_elem_of_fmap in He as (e0 & -> & He); simpl in *.

(** More time than the state knows of does no harm. *)
Lemma describes_older n v s st m :
  0 <= n -> 0 <= v -> 0 <= s -> gapWf st -> describes st m ->
  describes st (ageMachine n v s m).
Proof using Type.
  intros Hn Hv Hs Hst [D1 D2 D3 D4 D5 D6 D7 D8 D9]. split.
  - intros e h He Ho Hse Ha. aged_event He e0.
    destruct (D1 e0 h He Ho Hse) as (h' & Hh' & [K L R P]); [lia|].
    exists h'. split; [done|]. split; simpl in *; done || lia.
  - intros e h He Ho Ha. aged_event He e0.
    destruct (D2 e0 h He Ho) as (h' & Hh' & [K W V]); [lia|].
    exists h'. split; [done|]. split; simpl in *; done || lia.
  - intros e He Hf Hw Hd. aged_event He e0. destruct (D3 e0 He Hf Hw Hd) as [H1 H2].
    split; intros Hm; [specialize (H1 Hm)|specialize (H2 Hm)]; lia.
  - intros e r He H1 H2 H3 H4. aged_event He e0. specialize (D4 e0 r He H1 H2 H3 H4). lia.
  - intros e He H1 H2 H3. aged_event He e0. specialize (D5 e0 He H1 H2 H3). lia.
  - intros e He H1. aged_event He e0. specialize (D6 e0 He H1). lia.
  - intros w id r e Hin He. simpl in Hin, He. rewrite list_lookup_fmap in He.
    destruct (past m !! id) as [e0|] eqn:He0; [|done]. injection He as <-. simpl.
    destruct (D7 w id r e0 Hin He0) as (H1 & H2 & H3). unfold valueCovered. simpl.
    split_and!.
    + intros m0 Hm Hid. specialize (H1 m0 Hm Hid). lia.
    + intros Hm. specialize (H2 Hm). lia.
    + intros Hm Hl Hr. specialize (H3 Hm Hl Hr). lia.
  - done.
  - intros a Hl Hd. simpl in Hd. destruct (drainAge m) as [b|]; [|done]. injection Hd as <-.
    specialize (D9 b Hl eq_refl). lia.
Qed.

Lemma advanceHazards_fields n b st :
  0 <= n -> gapWf st ->
  let st' := advanceHazards n b st in
  lgkmToValu st' = (if b then age n (lgkmToValu st) else lgkmToValu st) /\
  lgkmPending st' = lgkmPending st /\ m0DmaCapture st' = age n (m0DmaCapture st) /\
  (forall v, hazardsAt (values st') v = vh.advance n (hazardsAt (values st) v)) /\
  physical st' = (if n =? 0 then physical st else omap (agePhysical n) (physical st)) /\
  coexec st' = coexec st /\ scratchBase st' = scratchBase st /\
  valuWriteVcc st' = age n (valuWriteVcc st) /\
  execWriteHazard st' = age n (execWriteHazard st).
Proof using Type.
  intros Hn [[V P C] P' C' T Pe Ca S1 S2 Vc Ex]. unfold advanceHazards. cbv zeta.
  set (st1 := set_m0DmaCapture _ _).
  assert (forall v, hazardsAt (values (advanceValueHazards n st1)) v =
    vh.advance n (hazardsAt (values st) v)) as HV.
  { intros v. rewrite advanceValueHazards_at; [|done|]; by destruct b. }
  assert (lgkmToValu (advanceValueHazards n st1) = lgkmToValu st1 /\
    lgkmPending (advanceValueHazards n st1) = lgkmPending st1 /\
    m0DmaCapture (advanceValueHazards n st1) = m0DmaCapture st1 /\
    physical (advanceValueHazards n st1) = physical st1 /\
    coexec (advanceValueHazards n st1) = coexec st1 /\
    scratchBase (advanceValueHazards n st1) = scratchBase st1 /\
    valuWriteVcc (advanceValueHazards n st1) = valuWriteVcc st1 /\
    execWriteHazard (advanceValueHazards n st1) = execWriteHazard st1)
    as (E1 & E2 & E3 & E4 & E5 & E6 & E7 & E8).
  { unfold advanceValueHazards. by case_match. }
  unfold advancePhysicalHazards. destruct (Z.eqb_spec n 0) as [->|]; simpl;
    rewrite ?E1, ?E2, ?E3, ?E4, ?E5, ?E6, ?E7, ?E8; destruct b; simpl; split_and!; try done;
    rewrite age_spec by done; lia.
Qed.

(** [n] wait states pass. *)
Lemma describes_slots n b st m :
  0 <= n -> gapWf st -> describes st m ->
  describes (advanceHazards n b st) (ageMachine n 0 0 m).
Proof using Type.
  intros Hn Hst [D1 D2 D3 D4 D5 D6 D7 D8 D9]. pose proof Hst as [_ WP _ WT _ WC _ _ WV WE].
  destruct (advanceHazards_fields n b st Hn Hst) as (F1 & F2 & F3 & F4 & F5 & F6 & F7 & F8 & F9).
  cbv zeta in *. split.
  - intros e h He Ho Hse Ha. aged_event He e0.
    destruct (D1 e0 h He Ho Hse) as (h' & Hh' & [K L R P]); [lia|]. simpl in *. rewrite F5.
    destruct (Z.eqb_spec n 0) as [->|Hn0].
    { exists h'. split; [done|]. split; simpl; done || lia. }
    assert (agePhysical n h' = Some (mkPhysical (ph_span h') (ph_kind h') (ph_limit h')
      (ph_remaining h' - n) (ph_mfmaPasses h'))) as Hage.
    { unfold agePhysical, age. destruct (Z.ltb_spec n (ph_remaining h')); [|lia].
      by destruct (Z.eqb_spec (ph_remaining h' - n) 0); [lia|]. }
    eexists. split; [apply list_elem_of_omap; exists h'; split; [done|exact Hage]|].
    split; simpl; try done; lia.
  - intros e h He Ho Ha. aged_event He e0. rewrite F6.
    destruct (D2 e0 h He Ho) as (h' & Hh' & [K W V]); [lia|].
    exists h'. split; [done|]. split; simpl in *; done || lia.
  - intros e He Hf Hw Hd. aged_event He e0. rewrite F7, Z.add_0_r. by apply D3.
  - intros e r He H1 H2 H3 H4. aged_event He e0. specialize (D4 e0 r He H1 H2 H3 H4).
    rewrite F8, age_spec by done. lia.
  - intros e He H1 H2 H3. aged_event He e0. specialize (D5 e0 He H1 H2 H3).
    rewrite F9, age_spec by done. lia.
  - intros e He H1. aged_event He e0. specialize (D6 e0 He H1).
    rewrite F3, age_spec by done. lia.
  - intros w id r e Hin He. simpl in Hin, He. rewrite list_lookup_fmap in He.
    destruct (past m !! id) as [e0|] eqn:He0; [|done]. injection He as <-. simpl.
    destruct (D7 w id r e0 Hin He0) as (H1 & H2 & H3). rewrite F4.
    destruct (ok_values _ (gwf_ok _ _ Hst) w) as [V1 V2 V3]. simpl in V1, V2, V3.
    unfold vh.advance, valueCovered. simpl. rewrite !age_spec by done. split_and!.
    + intros m0 Hm Hid. specialize (H1 m0 Hm Hid). lia.
    + intros Hm. specialize (H2 Hm). lia.
    + intros Hm Hl Hr. specialize (H3 Hm Hl Hr). lia.
  - rewrite F2. done.
  - intros a Hl Hd. simpl in Hd. destruct (drainAge m) as [d|]; [|done]. injection Hd as <-.
    specialize (D9 d Hl eq_refl). rewrite F1. destruct b; [rewrite age_spec by done|]; lia.
Qed.

(** [n] vector instructions pass. *)
Lemma describes_vector n st m :
  0 <= n -> gapWf st -> describes st m ->
  describes (advanceCoexecHazards n st) (ageMachine 0 n 0 m).
Proof using Type.
  intros Hn Hst Hd. pose proof (describes_older 0 n 0 st m) as Hold.
  destruct Hd as [D1 D2 D3 D4 D5 D6 D7 D8 D9] eqn:HD. clear HD.
  destruct Hold as [O1 O2 O3 O4 O5 O6 O7 O8 O9]; [lia..|done|by split|].
  unfold advanceCoexecHazards. destruct (Z.eqb_spec n 0) as [->|Hn0]; [by split|].
  split; try done. clear O1 O2 O3 O4 O5 O6 O7 O8 O9.
  intros e h He Ho Ha. aged_event He e0.
  destruct (D2 e0 h He Ho) as (h' & Hh' & [K W V]); [lia|]. simpl in *.
  pose proof (gwf_coexec _ _ Hst) as WC. rewrite Forall_forall in WC.
  destruct (WC h' Hh') as [W1 W2].
  assert (ageCoexec n h' = Some (mkCoexec (ce_span h') (ce_kind h')
    (age n (ce_wmmaRemaining h')) (age n (ce_valuRemaining h')))) as Hage.
  { unfold ageCoexec. rewrite !age_spec by done.
    destruct (Z.eqb_spec (Z.max 0 (ce_wmmaRemaining h' - n)) 0); [|done].
    destruct (Z.eqb_spec (Z.max 0 (ce_valuRemaining h' - n)) 0); [lia|done]. }
  eexists. split; [apply list_elem_of_omap; exists h'; split; [done|exact Hage]|].
  split; simpl; try done; rewrite age_spec by done; lia.
Qed.

(** [n] instructions that write scalar registers pass. *)
Lemma describes_scalar n st m :
  0 <= n -> gapWf st -> describes st m ->
  describes (advanceScratchBaseHazards n st) (ageMachine 0 0 n m).
Proof using Type.
  intros Hn Hst Hd. destruct (describes_older 0 0 n st m) as [O1 O2 O3 O4 O5 O6 O7 O8 O9];
    [lia..|done|done|]. split; try done. clear O1 O2 O3 O4 O5 O6 O7 O8 O9.
  pose proof Hst as [_ _ _ _ _ _ S1 S2 _ _].
  intros e He Hf Hw Hb. aged_event He e0.
  destruct (desc_scratch _ _ _ Hd e0 He Hf Hw Hb) as [H1 H2].
  rewrite !age_spec by lia. split; intros Hm; [specialize (H1 Hm)|specialize (H2 Hm)]; lia.
Qed.

Lemma ageHazards_wf op info st : infoOk cfg op info -> gapWf st -> gapWf (ageHazards info st).
Proof using Type.
  intros Hi Hst. unfold ageHazards. pose proof (info_count _ _ _ Hi). cbv zeta.
  repeat case_match; try done; repeat first
    [apply advanceScratchBaseHazards_wf|apply advanceCoexecHazards_wf|apply advanceHazards_wf];
    done.
Qed.

(** The part of the transfer that ages the hazards. *)
Lemma describes_passTime op info st m :
  infoOk cfg op info -> gapWf st -> describes st m ->
  describes (ageHazards info st) (passTime info m).
Proof using Type.
  intros Hi Hst Hd. unfold ageHazards, passTime. pose proof (info_count _ _ _ Hi) as Hn.
  destruct (noMachineInst info); [done|]. cbv zeta. set (n := waitStateCount info) in *.
  pose proof (advanceHazards_wf cfg n (negb (info_controlFlow info)) st Hn Hst) as W1.
  pose proof (describes_slots n (negb (info_controlFlow info)) st m Hn Hst Hd) as D1.
  set (st1 := advanceHazards _ _ st) in *.
  assert (gapWf (if valuForCoexec info then advanceCoexecHazards n st1 else st1) /\
    describes (if valuForCoexec info then advanceCoexecHazards n st1 else st1)
      (ageMachine n (if valuForCoexec info then n else 0) 0 m)) as [W2 D2].
  { destruct (valuForCoexec info); [|done]. split; [by apply advanceCoexecHazards_wf|].
    replace (ageMachine n n 0 m) with (ageMachine 0 n 0 (ageMachine n 0 0 m))
      by (rewrite ageMachine_compose; f_equal; lia). by apply describes_vector. }
  destruct (sgprWrite info); [|done]. set (v := if valuForCoexec info then n else 0) in *.
  replace (ageMachine n v n m) with (ageMachine 0 0 n (ageMachine n v 0 m))
    by (rewrite ageMachine_compose; f_equal; lia). by apply describes_scalar.
Qed.

Lemma passTime_ok op info m : infoOk cfg op info -> machineOk m -> machineOk (passTime info m).
Proof using Type.
  intros Hi Hm. unfold passTime. pose proof (info_count _ _ _ Hi). case_match; [done|].
  apply ageMachine_ok; [done|by case_match|by case_match|done].
Qed.

(** ** Waits that the program has *)

Definition fieldZero (field : option Z) : bool := bool_decide (field = Some 0).

(** The kinds of hazards that an [s_wait_alu] ends. *)
Definition endsKind (op : GapOp) (kind : PhysicalHazardKind.t) : bool :=
  let '(va_vdst, _, va_sdst) := g_waitAlu op in
  match kind with
  | PhysicalHazardKind.TransWriteVGPR | PhysicalHazardKind.ValuWriteVGPR => fieldZero va_vdst
  | PhysicalHazardKind.ValuWriteSGPR => fieldZero va_sdst
  | _ => false
  end.

Lemma applySWaitAlu_fields (op : GapOp) st :
  isSWaitAlu op = true ->
  let st' := applySWaitAlu op st in
  (forall h, h ∈ physical st' <-> h ∈ physical st /\ endsKind op (ph_kind h) = false) /\
  sublist (physical st') (physical st) /\
  scratchBase st' = (if fieldZero (g_waitAlu op).1.2 && fieldZero (g_waitAlu op).2
                     then (0, 0) else scratchBase st) /\
  coexec st' = coexec st /\ values st' = values st /\ lgkmToValu st' = lgkmToValu st /\
  lgkmPending st' = lgkmPending st /\ m0DmaCapture st' = m0DmaCapture st /\
  valuWriteVcc st' = valuWriteVcc st /\ execWriteHazard st' = execWriteHazard st.
Proof using Type.
  clear cfg Hcfg. intros Hw. unfold applySWaitAlu, endsKind. rewrite Hw. simpl.
  destruct (g_waitAlu op) as [[va_vdst sa_sdst] va_sdst]. unfold fieldZero. simpl.
  assert (forall (kinds : list PhysicalHazardKind.t) l, sublist (List.filter (fun h =>
    negb (bool_decide (ph_kind h ∈ kinds))) l) l) as Hsub.
  { intros kinds l. induction l as [|x l IH]; simpl; [done|].
    destruct (negb _); by constructor. }
  assert (forall (kinds : list PhysicalHazardKind.t) l (h : PhysicalHazard), h ∈ List.filter (fun h =>
    negb (bool_decide (ph_kind h ∈ kinds))) l <-> h ∈ l /\ ph_kind h ∉ kinds) as Hin.
  { intros kinds l h. rewrite list_elem_of_In, filter_In, <-list_elem_of_In, negb_true_iff.
    by rewrite bool_decide_eq_false. }
  destruct (bool_decide (va_vdst = Some 0)), (bool_decide (sa_sdst = Some 0)),
    (bool_decide (va_sdst = Some 0)); simpl; split_and!; try done;
    try (by intros h; rewrite ?Hin; destruct (ph_kind h); set_solver);
    repeat (etransitivity; [apply Hsub|]); try done.
Qed.

Lemma applySWaitAlu_wf (op : GapOp) st : gapWf st -> gapWf (applySWaitAlu op st).
Proof using Type.
  intros Hst. destruct (isSWaitAlu op) eqn:Hw; [|by unfold applySWaitAlu; rewrite Hw].
  destruct (applySWaitAlu_fields op st Hw)
    as (F1 & F2 & F3 & F4 & F5 & F6 & F7 & F8 & F9 & F10).
  destruct Hst as [[V P C] P' C' T Pe Ca S1 S2 Vc Ex].
  split; rewrite ?F4, ?F6, ?F7, ?F8, ?F9, ?F10; try done.
  - split; rewrite ?F4, ?F5; try done. eapply sublist_NoDup; [exact P|by apply fmap_sublist].
  - rewrite Forall_forall in *. intros h [Hh _]%F1. by apply P'.
  - rewrite F3. by case_match.
  - rewrite F3. by case_match.
Qed.

Lemma waitAluSettles_ok (op : GapOp) m : machineOk m -> machineOk (waitAluSettles op m).
Proof using Type.
  intros [M1 M2 M3 M4]. unfold waitAluSettles. case_match; [|by split].
  destruct (g_waitAlu op) as [[x y] z]. split; simpl; try done.
  - intros e He. apply list_elem_of_fmap in He as (e0 & -> & He). specialize (M1 e0 He); simpl; tauto.
  - intros v id r Hin. rewrite length_fmap. by eapply M2.
Qed.

Lemma describes_settles (op : GapOp) st m :
  gapWf st -> describes st m -> describes (applySWaitAlu op st) (waitAluSettles op m).
Proof using Type.
  intros Hst Hd. destruct (isSWaitAlu op) eqn:Hw;
    [|by unfold applySWaitAlu, waitAluSettles; rewrite Hw].
  destruct (applySWaitAlu_fields op st Hw)
    as (F1 & _ & F3 & F4 & F5 & F6 & F7 & F8 & F9 & F10).
  unfold waitAluSettles. rewrite Hw. unfold endsKind in F1.
  destruct (g_waitAlu op) as [[va_vdst sa_sdst] va_sdst].
  fold (fieldZero va_vdst) (fieldZero sa_sdst) (fieldZero va_sdst). simpl in *.
  destruct Hd as [D1 D2 D3 D4 D5 D6 D7 D8 D9].
  split; rewrite ?F4, ?F5, ?F6, ?F7, ?F8, ?F9, ?F10; simpl.
  - intros e h He Ho Hse Ha. apply list_elem_of_fmap in He as (e0 & -> & He). simpl in *.
    assert (settled e0 (ph_kind h) = false) as Hs0.
    { destruct (ph_kind h); simpl in *; try done; by apply orb_false_iff in Hse as [? _]. }
    destruct (D1 e0 h He Ho Hs0 Ha) as (h' & Hh' & Hle). exists h'. split; [|done].
    apply F1. split; [done|]. destruct Hle as [[= _ Hk] _ _ _]. rewrite <-Hk.
    destruct (ph_kind h); simpl in *; try done; by apply orb_false_iff in Hse as [_ ?].
  - intros e h He Ho Ha. apply list_elem_of_fmap in He as (e0 & -> & He). simpl in *.
    by apply D2.
  - intros e He Hf Hs Hb. apply list_elem_of_fmap in He as (e0 & -> & He). simpl in *.
    apply orb_false_iff in Hb as [Hb Hz]. rewrite F3, Hz. by apply D3.
  - intros e r He. apply list_elem_of_fmap in He as (e0 & -> & He). simpl in *. by apply D4.
  - intros e He. apply list_elem_of_fmap in He as (e0 & -> & He). simpl in *. by apply D5.
  - intros e He. apply list_elem_of_fmap in He as (e0 & -> & He). simpl in *. by apply D6.
  - intros v id r e Hin He. rewrite list_lookup_fmap in He.
    destruct (past m !! id) as [e0|] eqn:He0; [|done]. injection He as <-. simpl.
    by apply (D7 v id r e0).
  - done.
  - done.
Qed.

(** ** An operation issues *)

(** What the results of an operation without instruction inherit. *)
Lemma joinOperands_ub st l : forall acc,
  let j := fold_left (fun joined operand =>
    (vh.joinWith joined (lookupValueHazards st operand)).1) l acc in
  vhLe acc j /\ forall o, o ∈ l -> vhLe (hazardsAt (values st) (value_id o)) j.
Proof using Type.
  induction l as [|o l IH]; intros acc; simpl.
  { split; [done|]. by intros o ?%elem_of_nil. }
  destruct (IH (vh.joined acc (lookupValueHazards st o))) as [H1 H2].
  destruct (vhJoined_ub acc (lookupValueHazards st o)) as [U1 U2]. split.
  - by etransitivity.
  - intros x [->|Hx]%elem_of_cons; [by etransitivity|by apply H2].
Qed.

Lemma inherit_spec (op : GapOp) st :
  gapWf st ->
  gapWf (inheritNoInstOperandHazards op st) /\ hle st (inheritNoInstOperandHazards op st) /\
  (emitsNoMachineInst op = true -> forall r o, r ∈ op_results op -> o ∈ op_operands op ->
    vhLe (hazardsAt (values st) (value_id o))
      (hazardsAt (values (inheritNoInstOperandHazards op st)) (value_id r))).
Proof using Type.
  intros Hst. unfold inheritNoInstOperandHazards.
  destruct (emitsNoMachineInst op); simpl; [|by split_and!].
  case_bool_decide as Hres; [split_and!; [done|done|]; rewrite Hres; by intros _ ? ? ?%elem_of_nil|].
  destruct (joinOperands_ub st (op_operands op) vh.none) as [J1 J2].
  set (joined := fold_left _ (op_operands op) vh.none) in *.
  assert (forall v, grows cfg (mergeValueHazards v joined)) as Hg.
  { intros v. by apply mergeValueHazards_grows. }
  destruct (grows_fold cfg (fun st r => mergeValueHazards r joined st) (op_results op)
    (fun r _ => Hg r) st Hst) as [W L]. split_and!; [done|done|].
  intros _ r o Hr Ho. etransitivity; [by apply J2|].
  apply (fold_knows cfg (fun st r => mergeValueHazards r joined st) _ r
    (knowsValue (value_id r) joined)); try done.
  - apply knowsValue_mono.
  - intros st' Hst'. by apply (mergeValueHazards_grows cfg r joined).
Qed.

End Sound.
