(* ===== verification/GapStep.v ===== *)
(** * One operation

    The state after an operation describes the hardware after it
    ([transferHazards_sound]); when the mitigations of [rewriteOp] have issued,
    the operation may issue ([rewriteOp_hazardFree]). *)

From stdpp Require Import base tactics list gmap numbers strings sets.
From S2P Require Import Prelude CostEnums ArchData MachineIR LatencyTable OpClassifier.
From S2P Require Import ExecState TicketIR GapIR GapState GapTransfer GapLattice.
From S2P Require Import GapMachine GapGrow GapSound.

Section Step.
Context `{LLVMTarget} `{GapLLVM} (cfg : HazardConfig) (Hcfg : configOk cfg).
Abbreviation gapWf := (gapWf cfg).
Abbreviation describes := (describes cfg).
Abbreviation machineOk := (machineOk cfg).

(** ** The scratch base *)

Lemma addScratchSpan_grows span : grows cfg (fun st => addScratchSpan st span).
Proof using Type.
  intros st [[V P C] P' C' T Pe Ca S1 S2 Vc Ex].
  assert (0 <= getScratchBaseForwardingSGPRWriteLimit) by (unfold getScratchBaseForwardingSGPRWriteLimit; lia).
  split; split; simpl; try done; case_match; lia.
Qed.

Lemma scratchPart_spec op info :
  grows cfg (addProducedScratchBaseHazards cfg op info) /\
  forall st, gapWf st -> g_hasScratchBaseForwardingHazard cfg = true -> sgprWrite info = true ->
    (meets getFlatScratchBaseSGPRSpans.1 (writesSpan op) ->
       getScratchBaseForwardingSGPRWriteLimit
         <= (scratchBase (addProducedScratchBaseHazards cfg op info st)).1) /\
    (meets getFlatScratchBaseSGPRSpans.2 (writesSpan op) ->
       getScratchBaseForwardingSGPRWriteLimit
         <= (scratchBase (addProducedScratchBaseHazards cfg op info st)).2).
Proof using Type.
  pose proof (fun l => grows_fold cfg addScratchSpan l
    (fun span _ => addScratchSpan_grows span)) as Hg.
  unfold addProducedScratchBaseHazards. cbv zeta. split.
  { destruct (_ || _); [apply grows_id|].
    by apply (grows_compose cfg (fun st => fold_left addScratchSpan _ st)). }
  intros st Hst -> ->. simpl.
  assert (forall (K : HazardState -> Prop), monotone cfg K ->
    forall span, writesSpan op span -> (forall st, gapWf st -> K (addScratchSpan st span)) ->
    K (fold_left addScratchSpan (g_fixedDefs op)
         (fold_left addScratchSpan (omap getAllocatedRegSpan (op_results op)) st))) as Hk.
  { intros K HK span [(v & Hv & Hs)|Hs] Hspan.
    - apply (knows_then cfg K (fun st => fold_left addScratchSpan _ st)
        (fun st => fold_left addScratchSpan _ st)); try done.
      apply (fold_knows cfg addScratchSpan _ span); try done.
      + intros x _. apply addScratchSpan_grows.
      + apply list_elem_of_omap. by exists v.
    - apply (fold_knows cfg addScratchSpan _ span); try done.
      + intros x _. apply addScratchSpan_grows.
      + by apply Hg. }
  split; intros (span & Hw & Ho); (eapply Hk; [|exact Hw|]).
  - intros s1 s2 _ _ []. lia.
  - intros s _. simpl. rewrite Ho. simpl. lia.
  - intros s1 s2 _ _ []. lia.
  - intros s _. simpl. rewrite Ho. simpl. lia.
Qed.

(** ** The operation is recorded *)

Lemma record_past op info m e :
  e ∈ past (record op info m) -> e ∈ past m \/ e = mkEvent op info 0 0 0 false false false.
Proof using Type.
  simpl. intros [He|He]%elem_of_app; [by left|right]. by apply list_elem_of_singleton in He.
Qed.

Lemma record_ok op info m :
  infoOk cfg op info -> machineOk m -> machineOk (record op info m).
Proof using Type.
  intros Hi [M1 M2 M3 M4]. split; try done.
  - intros e [He| ->]%record_past; [by apply M1|]. simpl. split_and!; [done|lia..].
  - intros v id r Hin. simpl in *. rewrite length_app. simpl.
    assert (forall w, (id, r) ∈ content m w -> (id < length (past m) + 1)%nat) as Hold.
    { intros w Hw. specialize (M2 w id r Hw). lia. }
    destruct (list_find _ (op_results op)) as [x|]; [|by eapply Hold].
    apply elem_of_app in Hin as [Hin|Hin].
    + apply list_elem_of_fmap in Hin as (r' & [= -> _] & _). lia.
    + case_match; [|by apply elem_of_nil in Hin].
      apply list_elem_of_bind in Hin as (o & Hin & _). by eapply Hold.
Qed.

(** What a value holds afterwards: new results, what they inherit, or what it
    held. *)
Lemma record_content op info m v id r e :
  machineOk m -> (id, r) ∈ content (record op info m) v ->
  past (record op info m) !! id = Some e ->
  (e = mkEvent op info 0 0 0 false false false /\ r ∈ op_results op /\ value_id r = v) \/
  (past m !! id = Some e /\ (id, r) ∈ content m v) \/
  (past m !! id = Some e /\ noMachineInst info = true /\ exists x o, x ∈ op_results op /\
     value_id x = v /\ o ∈ op_operands op /\ (id, r) ∈ content m (value_id o)).
Proof using Type.
  intros [_ M2 _ _] Hin He. simpl in *.
  assert (forall w, (id, r) ∈ content m w -> past m !! id = Some e) as Hold.
  { intros w Hw. specialize (M2 w id r Hw). by rewrite lookup_app_l in He. }
  destruct (list_find _ (op_results op)) as [[i x]|] eqn:Hf; [|right; left; eauto].
  apply list_find_Some in Hf as (Hx & Hid & _). apply list_elem_of_lookup_2 in Hx.
  apply elem_of_app in Hin as [Hin|Hin].
  - apply list_elem_of_fmap in Hin as (r' & [= -> ->] & Hr).
    apply list_elem_of_filter in Hr as [Hv Hr]. left.
    rewrite lookup_app_r, Nat.sub_diag in He by done. simpl in He. by injection He as <-.
  - destruct (noMachineInst info); [|by apply elem_of_nil in Hin].
    apply list_elem_of_bind in Hin as (o & Hin & Ho). right; right.
    split_and!; [by eapply Hold|done|]. by exists x, o.
Qed.

Lemma record_describes op info st st' m :
  infoOk cfg op info -> machineOk m -> gapWf st -> gapWf st' -> hle st st' ->
  describes st m ->
  (noMachineInst info = true -> forall x o, x ∈ op_results op -> o ∈ op_operands op ->
     forall id r e, (id, r) ∈ content m (value_id o) -> past m !! id = Some e ->
       valueCovered cfg e r (hazardsAt (values st') (value_id x))) ->
  produced cfg op info st' ->
  (forall h, opensCoexec cfg op info h -> knowsCoexec h st') ->
  (g_hasScratchBaseForwardingHazard cfg = true -> sgprWrite info = true ->
    (meets getFlatScratchBaseSGPRSpans.1 (writesSpan op) ->
       getScratchBaseForwardingSGPRWriteLimit <= (scratchBase st').1) /\
    (meets getFlatScratchBaseSGPRSpans.2 (writesSpan op) ->
       getScratchBaseForwardingSGPRWriteLimit <= (scratchBase st').2)) ->
  describes st' (record op info m).
Proof using Type.
  intros Hi Hm Wst Wst' Hle Hd Hinh Hprod Hco Hsc.
  pose proof (describes_hle cfg _ _ _ Hle Hd) as [D1 D2 D3 D4 D5 D6 D7 D8 D9].
  destruct Hprod as [P1 P2 P3 P4 P5 P6 P7]. split.
  - intros e h [He| ->]%record_past Ho Hs Ha; [by apply D1|]. simpl in *.
    destruct (P1 h Ho Ha) as (h' & Hh' & [K L R P]). exists h'. split; [done|].
    split; simpl; done || lia.
  - intros e h [He| ->]%record_past Ho Ha; [by apply D2|]. simpl in *.
    destruct (Hco h Ho Ha) as (h' & Hh' & [K W V]). exists h'. split; [done|].
    split; simpl; done || lia.
  - intros e [He| ->]%record_past Hf Hs Hb; [by apply D3|]. simpl in *.
    rewrite Z.sub_0_r. by apply Hsc.
  - intros e r [He| ->]%record_past H1 H2 H3 H4; [by eapply D4|]. simpl in *.
    specialize (P2 r H2 H1 H3 H4). lia.
  - intros e [He| ->]%record_past H1 H2 H3; [by apply D5|]. simpl in *.
    specialize (P3 H2 H1 H3). lia.
  - intros e [He| ->]%record_past H1; [by apply D6|]. simpl in *. specialize (P4 H1). lia.
  - intros v id r e Hin He.
    destruct (record_content op info m v id r e Hm Hin He)
      as [(-> & Hr & <-)|[[He' Hin']|(He' & Hno & x & o & Hx & <- & Ho & Hin')]].
    + split_and!; simpl; rewrite ?Z.sub_0_r.
      * intros m0 Hm0 <-. destruct (P5 m0 Hm0) as [? _ _]. done.
      * intros Hmf. by destruct (P6 r Hmf Hr) as [_ ? _].
      * intros Hmf Hl Hc. by destruct (P7 r Hmf Hl Hr Hc) as [_ _ ?].
    + by apply (D7 v id r e).
    + by apply (Hinh Hno x o Hx Ho id r e).
  - done.
  - done.
Qed.

(** ** The LGKM counter *)

Lemma maxTracked_eq :
  getMaxTrackedLgkmPending cfg = defaultLgkmcnt cfg + 1 /\ small (defaultLgkmcnt cfg).
Proof using Hcfg.
  destruct Hcfg. split; [|done]. unfold getMaxTrackedLgkmPending, small in *.
  by rewrite u32_small by lia.
Qed.

Lemma addPendingLgkmIssue_cases info st :
  addPendingLgkmIssue cfg info st = st \/
  exists n, addPendingLgkmIssue cfg info st = set_lgkmPending (fun _ => n) st /\
    legacyWaitCounters cfg = true /\ issuesLgkm info = true /\
    n = Z.min (getMaxTrackedLgkmPending cfg)
          (u32 (lgkmPending st + Z.min (issueCount (info_waitcnt info))
                                   (getMaxTrackedLgkmPending cfg))).
Proof using Type.
  unfold addPendingLgkmIssue, issuesLgkm. destruct (legacyWaitCounters cfg); [|by left]. simpl.
  case_bool_decide as Hl; [by left|]. simpl.
  destruct (issueCount (info_waitcnt info) =? 0); [by left|]. right.
  eexists. split_and!; [reflexivity|done| |reflexivity]. apply bool_decide_eq_true.
  by destruct (decide (getLegacyWaitcntCounter (event (info_waitcnt info)) = WaitcntCounter.Lgkm)).
Qed.

Lemma pendingLgkm_sound op info st m :
  infoOk cfg op info -> gapWf st -> machineOk m -> describes st m ->
  gapWf (addPendingLgkmIssue cfg info st) /\ machineOk (lgkmIssues info m) /\
  describes (addPendingLgkmIssue cfg info st) (lgkmIssues info m).
Proof using Hcfg.
  intros Hi Hst Hm Hd. destruct maxTracked_eq as [Hmax Hs]. unfold small in Hs.
  pose proof (info_issues _ _ _ Hi) as Hk. pose proof (gwf_pending _ _ Hst) as Hp.
  assert (machineOk (lgkmIssues info m)) as Hm'.
  { unfold lgkmIssues. case_match; [|done]. destruct Hm. split; simpl; try done. lia. }
  split_and!; [|done|].
  - destruct (addPendingLgkmIssue_cases info st) as [->|(n & -> & _ & _ & Hn)]; [done|].
    destruct Hst as [[V P C] P' C' T Pe Ca S1 S2 Vc Ex]. split; simpl; try done.
    subst n. rewrite u32_small by lia. lia.
  - destruct Hd as [D1 D2 D3 D4 D5 D6 D7 D8 D9].
    assert (legacyWaitCounters cfg = true ->
      outstanding (lgkmIssues info m) <= lgkmPending (addPendingLgkmIssue cfg info st) \/
      getMaxTrackedLgkmPending cfg <= lgkmPending (addPendingLgkmIssue cfg info st)) as D8'.
    { intros Hl. specialize (D8 Hl). unfold lgkmIssues, addPendingLgkmIssue, issuesLgkm.
      rewrite Hl. simpl. case_bool_decide as He; rewrite bool_decide_decide; simpl.
      - rewrite decide_False by tauto. simpl.
        destruct (Z.eqb_spec (issueCount (info_waitcnt info)) 0) as [->|]; simpl; [lia|].
        rewrite u32_small by lia. lia.
      - by rewrite decide_True. }
    destruct (addPendingLgkmIssue_cases info st) as [Heq|(n & Heq & _ & _ & Hn)];
      rewrite Heq in *; unfold lgkmIssues in *; (case_match; split; done).
Qed.

Lemma lgkmWaits_sound op info st m :
  infoOk cfg op info -> gapWf st -> machineOk m -> describes st m ->
  gapWf (applyLgkmWait cfg info st) /\ machineOk (lgkmWaits cfg info m) /\
  describes (applyLgkmWait cfg info st) (lgkmWaits cfg info m).
Proof using Hcfg.
  intros Hi Hst Hm Hd. destruct maxTracked_eq as [Hmax Hs]. unfold small in Hs.
  pose proof (info_limit _ _ _ Hi) as Hlim. unfold applyLgkmWait, lgkmWaits.
  destruct (lgkmWaitLimit info) as [limit|]; [|done]. specialize (Hlim limit eq_refl).
  destruct (Z.leb_spec (defaultLgkmcnt cfg) limit) as [Hle|Hlt].
  { destruct (Z.ltb_spec limit (defaultLgkmcnt cfg)); [lia|]. done. }
  destruct (Z.ltb_spec limit (defaultLgkmcnt cfg)); [|lia]. simpl. cbv zeta.
  set (st' := if (limit <? lgkmPending st) && lgkmWaitNeedsValuGap cfg
    then set_lgkmToValu (Z.max 1) _ else _).
  assert (lgkmPending st' = Z.min (lgkmPending st) limit /\
    (lgkmWaitNeedsValuGap cfg = true -> limit < lgkmPending st -> 1 <= lgkmToValu st') /\
    lgkmToValu st <= lgkmToValu st' /\ physical st' = physical st /\ coexec st' = coexec st /\
    values st' = values st /\ scratchBase st' = scratchBase st /\
    m0DmaCapture st' = m0DmaCapture st /\ valuWriteVcc st' = valuWriteVcc st /\
    execWriteHazard st' = execWriteHazard st)
    as (E1 & E2 & E3 & E4 & E5 & E6 & E7 & E8 & E9 & E10).
  { unfold st'. destruct (Z.ltb_spec limit (lgkmPending st)), (lgkmWaitNeedsValuGap cfg);
      simpl; split_and!; try done; try lia; intros; lia. }
  destruct Hd as [D1 D2 D3 D4 D5 D6 D7 D8 D9]. split_and!.
  - destruct Hst as [[V P C] P' C' T Pe Ca S1 S2 Vc Ex].
    split; rewrite ?E1, ?E4, ?E5, ?E6, ?E7, ?E8, ?E9, ?E10; try done; try lia.
    split; by rewrite ?E4, ?E5, ?E6.
  - case_match; [|done]. destruct Hm. split; simpl; try done. by intros a [= <-].
  - assert (forall m', past m' = past m -> content m' = content m ->
      (legacyWaitCounters cfg = true -> outstanding m' <= lgkmPending st' \/
         getMaxTrackedLgkmPending cfg <= lgkmPending st') ->
      (forall a, lgkmWaitNeedsValuGap cfg = true -> drainAge m' = Some a ->
         1 - a <= lgkmToValu st') -> describes st' m') as Hsame.
    { intros m' Hpm Hcm D8' D9'. split; rewrite ?Hpm, ?Hcm, ?E4, ?E5, ?E6, ?E7, ?E8, ?E9, ?E10;
        done. }
    destruct (Z.ltb_spec limit (outstanding m)) as [Hdr|Hdr]; apply Hsame; try done; simpl.
    + intros Hl. rewrite E1. destruct (D8 Hl); left; lia.
    + intros a Hn [= <-]. rewrite Z.sub_0_r. apply E2; [done|].
      destruct (D8 (cfg_lgkm _ Hcfg Hn)); lia.
    + intros Hl. rewrite E1. destruct (D8 Hl); left; lia.
    + intros a Hn Ha. specialize (D9 a Hn Ha). lia.
Qed.

(** ** The transfer *)

Lemma transferHazards_sound op info st st' m :
  infoOk cfg op info -> info_controlFlow info = false -> gapWf st -> machineOk m ->
  describes st m -> transferHazards cfg op info st = Ok st' ->
  gapWf st' /\ machineOk (issue cfg op info m) /\ describes st' (issue cfg op info m).
Proof using Hcfg.
  intros Hi Hcf Hst Hm Hd Ht. unfold transferHazards in Ht. rewrite Hcf in Ht. cbv zeta in Ht.
  pose proof (ageHazards_wf cfg op info st Hi Hst) as W0.
  pose proof (describes_passTime cfg op info st m Hi Hst Hd) as D0.
  pose proof (passTime_ok cfg op info m Hi Hm) as M0.
  set (st0 := ageHazards info st) in *. set (m0 := passTime info m) in *.
  destruct (inherit_spec cfg op st0 W0) as (W1 & L1 & I1).
  pose proof (describes_hle cfg _ _ _ L1 D0) as D1.
  set (st1 := inheritNoInstOperandHazards op st0) in *.
  pose proof (applySWaitAlu_wf cfg op st1 W1) as W2.
  pose proof (describes_settles cfg op st1 m0 W1 D1) as D2.
  pose proof (waitAluSettles_ok cfg op m0 M0) as M2.
  assert (values (applySWaitAlu op st1) = values st1) as V2.
  { destruct (isSWaitAlu op) eqn:Hw; [by apply applySWaitAlu_fields|].
    unfold applySWaitAlu. by rewrite Hw. }
  set (st2 := applySWaitAlu op st1) in *. set (m2 := waitAluSettles op m0) in *.
  destruct (addProducedHazards_grows cfg Hcfg op info Hi st2 W2) as [W3 L3].
  pose proof (addProducedHazards_produced cfg Hcfg op info Hi st2 W2) as P3.
  set (st3 := addProducedHazards cfg op info st2) in *.
  apply outcome_bind_Ok in Ht as (st4 & H4 & [= <-]).
  destruct (addProducedCoexecHazards_spec cfg op info st3 st4 W3 H4) as (W4 & L4 & C4).
  destruct (scratchPart_spec op info) as [G5 K5]. destruct (G5 st4 W4) as [W5 L5].
  set (st5 := addProducedScratchBaseHazards cfg op info st4) in *.
  pose proof (transitivity L3 (transitivity L4 L5)) as L25.
  assert (describes st5 (record op info m2)) as D5.
  { apply (record_describes op info st2); try done.
    - intros Hno x o Hx Ho id r e Hin He.
      assert (content m2 = content m0 /\ exists e0, past m0 !! id = Some e0 /\
        ev_op e = ev_op e0 /\ ev_info e = ev_info e0 /\ ev_age e = ev_age e0)
        as (Hc & e0 & He0 & Eop & Einfo & Eage).
      { unfold m2, waitAluSettles in *. case_match; [|split; [done|]; by exists e].
        destruct (g_waitAlu op) as [[? ?] ?]. split; [done|]. simpl in He.
        rewrite list_lookup_fmap in He. destruct (past m0 !! id) as [e0|]; [|done].
        injection He as <-. by exists e0. }
      rewrite Hc in Hin. destruct (desc_values _ _ _ D0 _ _ _ _ Hin He0) as (H1 & H2 & H3).
      assert (vhLe (hazardsAt (values st0) (value_id o)) (hazardsAt (values st5) (value_id x)))
        as [V3 V4 V5].
      { etransitivity; [apply (I1 (eq_trans (eq_sym (info_noInst _ _ _ Hi)) Hno) x o Hx Ho)|].
        rewrite <-V2. apply L25. }
      unfold valueCovered. rewrite Eop, Einfo, Eage. split_and!.
      + intros a Ha Hid. specialize (H1 a Ha Hid). lia.
      + intros Hmf. specialize (H2 Hmf). lia.
      + intros Hmf Hl Hr. specialize (H3 Hmf Hl Hr). lia.
    - by apply (produced_mono cfg op info st3 st5 W3 W5 (transitivity L4 L5)).
    - intros h Ho. by apply (knowsCoexec_mono cfg h st4 st5 W4 W5 L5), C4.
    - intros Hf Hs. by apply K5. }
  pose proof (record_ok op info m2 Hi M2) as M5.
  destruct (pendingLgkm_sound op info st5 _ Hi W5 M5 D5) as (W6 & M6 & D6).
  by destruct (lgkmWaits_sound op info _ _ Hi W6 M6 D6) as (W7 & M7 & D7).
Qed.
End Step.

(** ** The mitigations are enough

    The waits that the state asks for cover every rule that is still to be
    obeyed; the [s_nop]s that are created encode exactly the wait states asked
    for; so an operation issues after its mitigations without a hazard. *)

(** ** Maxima *)

Lemma foldMax_ub l : forall acc, acc <= fold_left Z.max l acc /\
  forall x, x ∈ l -> x <= fold_left Z.max l acc.
Proof.
  induction l as [|y l IH]; intros acc; simpl.
  { split; [lia|]. by intros x ?%elem_of_nil. }
  destruct (IH (Z.max acc y)) as [H1 H2]. split; [lia|].
  intros x [->|Hx]%elem_of_cons; [lia|by apply H2].
Qed.

Lemma maxOf_nonneg l : 0 <= maxOf l.
Proof. exact (proj1 (foldMax_ub l 0)). Qed.
Lemma maxOf_ub x l : x ∈ l -> x <= maxOf l.
Proof. intros Hx. exact (proj2 (foldMax_ub l 0) x Hx). Qed.

Lemma foldMax_least l b : forall acc, acc <= b -> (forall x, x ∈ l -> x <= b) ->
  fold_left Z.max l acc <= b.
Proof.
  induction l as [|y l IH]; intros acc Ha Hl; [done|]. simpl. apply IH.
  - pose proof (Hl y (list_elem_of_here _ _)). lia.
  - intros x Hx. by apply Hl, list_elem_of_further.
Qed.

Lemma maxOf_least l b : 0 <= b -> (forall x, x ∈ l -> x <= b) -> maxOf l <= b.
Proof. apply foldMax_least. Qed.

Lemma firstWait_ub a b : 0 <= a -> 0 <= b -> a <= firstWait a b /\ (a = 0 -> firstWait a b = b).
Proof. intros. unfold firstWait. destruct (Z.eqb_spec a 0); lia. Qed.

(** ** The [s_nop]s *)

Definition slotsOf (immediates : list Z) : Z := sum_list_Z (Z.add 1 <$> immediates).

Lemma noopImmediates_spec fuel maxCount : forall count,
  0 < maxCount < 4294967296 -> count <= Z.of_nat fuel ->
  slotsOf (noopImmediates fuel count maxCount) = Z.max 0 count /\
  Forall (fun imm => 0 <= imm < maxCount) (noopImmediates fuel count maxCount).
Proof.
  induction fuel as [|fuel IH]; intros count Hm Hc.
  { split; [unfold slotsOf; simpl; lia|constructor]. }
  cbn [noopImmediates]. destruct (Z.leb_spec count 0); [split; [unfold slotsOf; simpl; lia|constructor]|].
  cbv zeta. destruct (IH (count - Z.min count maxCount) Hm) as [H1 H2]; [lia|].
  unfold SNop.encodeCount. rewrite u32_small by lia. split.
  - unfold slotsOf in *. csimpl. rewrite H1. lia.
  - constructor; [lia|done].
Qed.

Lemma getMaxCount_pow sti :
  SNop.getMaxCount sti = 2 ^ SNop.getBitWidth sti /\ 0 < SNop.getMaxCount sti < 4294967296.
Proof.
  unfold SNop.getMaxCount, SNop.getBitWidth. by repeat case_match.
Qed.

Lemma insertNoops_slots sti count :
  0 <= count -> slotsOf (insertNoops count sti) = count.
Proof.
  intros Hc. unfold insertNoops.
  destruct (noopImmediates_spec (Z.to_nat count) (SNop.getMaxCount sti) count) as [H1 _];
    [apply getMaxCount_pow|lia|]. lia.
Qed.

Section Mitigate.
Context `{LLVMTarget} `{GapLLVM} (cfg : HazardConfig) (Hcfg : configOk cfg).
Abbreviation gapWf := (gapWf cfg).
Abbreviation describes := (describes cfg).
Abbreviation machineOk := (machineOk cfg).
Implicit Types op : GapOp.

(** The instructions that are created decode to the wait states asked for. *)
Lemma insertNoops_decode sti op count :
  isaVersion cfg = sti_isa sti -> op_kind op = SNopOp -> 0 <= count ->
  Forall (fun imm => g_nopImmediate op = Some imm ->
            getHazardWaitStateCount cfg op = Ok (imm + 1)) (insertNoops count sti).
Proof using Type.
  intros Hisa Hk Hc. unfold insertNoops.
  destruct (noopImmediates_spec (Z.to_nat count) (SNop.getMaxCount sti) count) as [_ Hf];
    [apply getMaxCount_pow|lia|].
  eapply Forall_impl; [exact Hf|]. intros imm Himm Hn. simpl in Himm.
  unfold getHazardWaitStateCount. rewrite Hk, Hn, Hisa. cbv zeta.
  unfold SNop.getMaxCount, SNop.getBitWidth in Himm. revert Himm.
  set (bits := if 12 <=? Major (sti_isa sti) then _ else _).
  assert (0 < Z.shiftl 1 bits < 4294967296) as Hb by (unfold bits; by repeat case_match).
  rewrite (u32_small (Z.shiftl 1 bits)) by lia. intros Himm.
  destruct (Z.leb_spec (Z.shiftl 1 bits) imm); [lia|]. by rewrite u32_small by lia.
Qed.

(** ** Rules and waits *)

Lemma waitForHazardAge_nonneg h required : 0 <= waitForHazardAge h required.
Proof using Type. unfold waitForHazardAge. case_match; lia. Qed.

Lemma useWait_nonneg info i use h : 0 <= getPhysicalUseWait cfg info i use h.
Proof using Type.
  unfold getPhysicalUseWait, getDstSelForwardingWait, getMfmaUseWait, getNonMfmaUseWait,
    getTransForwardingUseWait, getValuWriteSGPRUseWait, firstWait.
  repeat case_match; try lia; apply waitForHazardAge_nonneg.
Qed.

Lemma operandWait_ub op info st i v use h :
  op_operands op !! i = Some v -> getAllocatedRegSpan v = Some use -> h ∈ physical st ->
  getPhysicalUseWait cfg info i use h <= getOperandPhysicalWait cfg op info st.
Proof using Type.
  intros Hi Hu Hh. unfold getOperandPhysicalWait.
  etransitivity; [|apply maxOf_ub, elem_of_lookup_imap_2, Hi]. rewrite Hu.
  apply maxOf_ub, list_elem_of_fmap. by exists h.
Qed.

Lemma resultWait_ub op info st def h :
  writesSpan op def -> h ∈ physical st ->
  getPhysicalDefWait cfg info def h <= getResultPhysicalWait cfg op info st.
Proof using Type.
  intros [(v & Hv & Hs)|Hd] Hh; unfold getResultPhysicalWait.
  - etransitivity; [|apply Z.le_max_l].
    etransitivity; [|apply maxOf_ub, list_elem_of_fmap_2, Hv]. rewrite Hs.
    apply maxOf_ub, list_elem_of_fmap. by exists h.
  - etransitivity; [|apply Z.le_max_r].
    etransitivity; [|apply maxOf_ub, list_elem_of_fmap_2, Hd].
    apply maxOf_ub, list_elem_of_fmap. by exists h.
Qed.

Lemma physicalWait_ub op info st :
  info_controlFlow info = false ->
  getOperandPhysicalWait cfg op info st <= getRequiredPhysicalWait cfg op info st /\
  getResultPhysicalWait cfg op info st <= getRequiredPhysicalWait cfg op info st /\
  getVccReadWait op info st <= getRequiredPhysicalWait cfg op info st /\
  (execWriteConsumer info = true ->
     execWriteHazard st <= getRequiredPhysicalWait cfg op info st) /\
  0 <= getRequiredPhysicalWait cfg op info st.
Proof using Type.
  intros Hcf. unfold getRequiredPhysicalWait. rewrite Hcf. cbv zeta.
  assert (0 <= getOperandPhysicalWait cfg op info st) by apply maxOf_nonneg.
  case_match; split_and!; try lia; done.
Qed.

(** An open hazard of an event is in the state, unless it is over. *)
Lemma known_hazard st m e h :
  gapWf st -> describes st m -> e ∈ past m -> opens cfg (ev_op e) (ev_info e) h ->
  settled e (ph_kind h) = false -> ph_remaining h = ph_limit h ->
  ph_limit h <= ev_age e \/
  exists h', h' ∈ physical st /\ hazardWf cfg h' /\ ph_span h' = ph_span h /\
    ph_kind h' = ph_kind h /\ ph_limit h <= ph_limit h' /\
    ph_limit h - ev_age e <= ph_remaining h'.
Proof using Type.
  intros Hst Hd He Ho Hs Hr. destruct (Z.le_gt_cases (ph_limit h) (ev_age e)); [by left|right].
  destruct (desc_physical _ _ _ Hd e h He Ho Hs) as (h' & Hh' & [[= Hsp Hk] L R P]); [lia|].
  simpl in *. exists h'. pose proof (gwf_physical _ _ Hst) as Hwf. rewrite Forall_forall in Hwf.
  split_and!; try done; [by apply Hwf|lia].
Qed.

(** The hazard of a kind with one limit is waited for as long as it must. *)
Lemma constant_wait h' kind limit required a :
  hazardWf cfg h' -> ph_kind h' = kind -> (forall p, limitOf cfg kind p = Some limit) ->
  limit - a <= ph_remaining h' -> required - a <= waitForHazardAge h' required.
Proof using Type.
  intros Hwf Hk Hl Hr. rewrite (waitForHazardAge_spec cfg) by done.
  rewrite (wf_limit _ _ Hwf limit) by (by rewrite Hk). lia.
Qed.

(** Neither is a matrix result, however the pass counts were joined. *)
Lemma mfma_wait h' p f a :
  hazardWf cfg h' -> ph_kind h' = PhysicalHazardKind.MfmaWrite -> p = 4 \/ p = 8 -> 0 <= a ->
  getXdlResultLatency cfg p - a <= ph_remaining h' ->
  f = getXdlResultLatency cfg \/ f = getXdlSrcCOverlapLatency cfg \/
    f = getXdlSrcCExactLatency cfg ->
  f p - a <= waitForHazardAge h' (f (getHazardMfmaPassCount h')).
Proof using Type.
  intros Hwf Hk Hp Ha Hr Hf. rewrite (waitForHazardAge_spec cfg) by done.
  pose proof (wf_passes _ _ Hwf) as Hq. rewrite Hk in Hq. simpl in Hq.
  pose proof (wf_limit _ _ Hwf (getXdlResultLatency cfg (ph_mfmaPasses h'))) as Hl.
  rewrite Hl by (by rewrite Hk). unfold getHazardMfmaPassCount.
  set (q := ph_mfmaPasses h') in *.
  destruct Hf as [-> | [-> | ->]]; rewrite ?xdlResult_eq, ?xdlOverlap_eq, ?xdlExact_eq in * by done;
    repeat case_match; lia.
Qed.

(** A wait for a hazard on a register that the operation reads. *)
Lemma use_wait op info st h' i v use :
  op_operands op !! i = Some v -> getAllocatedRegSpan v = Some use ->
  h' ∈ physical st -> overlaps use (ph_span h') = true ->
  ph_kind h' <> PhysicalHazardKind.DstSelWriteVGPR -> info_controlFlow info = false ->
  (if mfma info then getMfmaUseWait cfg i use h' else getNonMfmaUseWait cfg info use h')
    <= getRequiredPhysicalWait cfg op info st.
Proof using Type.
  intros Hi Hu Hh Ho Hk Hcf. destruct (physicalWait_ub op info st Hcf) as [H1 _].
  pose proof (operandWait_ub op info st i v use h' Hi Hu Hh) as H2.
  unfold getPhysicalUseWait in H2. rewrite Ho in H2. simpl in H2.
  unfold getDstSelForwardingWait in H2. rewrite bool_decide_true in H2 by done.
  simpl in H2. unfold firstWait in H2. simpl in H2. lia.
Qed.

Lemma def_wait op info st h' def :
  writesSpan op def -> h' ∈ physical st -> info_controlFlow info = false ->
  getPhysicalDefWait cfg info def h' <= getRequiredPhysicalWait cfg op info st.
Proof using Type.
  intros Hw Hh Hcf. destruct (physicalWait_ub op info st Hcf) as [_ [H1 _]].
  pose proof (resultWait_ub op info st def h' Hw Hh). lia.
Qed.

(** The wait for values covers every operand. *)
Lemma ssaWait_fold (info : HazardOpInfo) st l : forall acc,
  let w := fold_left (fun wait operand =>
      let hazards := lookupValueHazards st operand in
      let wait := if decide (value_type operand = M0Type)
                  then Z.max wait (vh_m0 hazards) else wait in
      let wait := if vmemStore info
                  then Z.max wait (vh_mfmaStore hazards) else wait in
      if permlane32Swap info
      then Z.max wait (vh_permlane32Swap hazards) else wait) l acc in
  acc <= w /\ forall v, v ∈ l ->
    (value_type v = M0Type -> vh_m0 (hazardsAt (values st) (value_id v)) <= w) /\
    (vmemStore info = true -> vh_mfmaStore (hazardsAt (values st) (value_id v)) <= w) /\
    (permlane32Swap info = true ->
       vh_permlane32Swap (hazardsAt (values st) (value_id v)) <= w).
Proof using Type.
  clear Hcfg cfg. induction l as [|v l IH]; intros acc; simpl.
  { split; [done|]. by intros v ?%elem_of_nil. }

  set (acc' := if permlane32Swap info then _ else _). destruct (IH acc') as [H1 H2].
  set (w := fold_left _ l acc') in *.
  assert (acc <= acc' /\
    (value_type v = M0Type -> vh_m0 (hazardsAt (values st) (value_id v)) <= acc') /\
    (vmemStore info = true -> vh_mfmaStore (hazardsAt (values st) (value_id v)) <= acc') /\
    (permlane32Swap info = true ->
       vh_permlane32Swap (hazardsAt (values st) (value_id v)) <= acc')) as (A1 & A2 & A3 & A4).
  { unfold acc', hazardsAt, lookupValueHazards. case_decide; destruct (vmemStore info), (permlane32Swap info);
      split_and!; intros; try done; lia. }
  split; [lia|]. intros u [->|Hu]%elem_of_cons; [|by apply H2].
  split_and!; intros Hx; [specialize (A2 Hx)|specialize (A3 Hx)|specialize (A4 Hx)]; lia.
Qed.

Lemma ssaWait_operand op info st v :
  info_controlFlow info = false -> v ∈ op_operands op ->
  let w := getRequiredSsaWait op info st in
  (value_type v = M0Type -> vh_m0 (hazardsAt (values st) (value_id v)) <= w) /\
  (vmemStore info = true -> vh_mfmaStore (hazardsAt (values st) (value_id v)) <= w) /\
  (permlane32Swap info = true ->
     vh_permlane32Swap (hazardsAt (values st) (value_id v)) <= w).
Proof using Type.
  intros Hcf Hv. unfold getRequiredSsaWait. rewrite Hcf. by apply ssaWait_fold.
Qed.

Lemma ssaWait_capture op info st :
  info_controlFlow info = false -> is_Some (g_m0Value op) ->
  m0DmaCapture st <= getRequiredSsaWait op info st.
Proof using Type.
  intros Hcf [m0 Hm0]. unfold getRequiredSsaWait. rewrite Hcf, Hm0. apply ssaWait_fold.
Qed.

Lemma ssaWait_nonneg op info st : gapWf st -> 0 <= getRequiredSsaWait op info st.
Proof using Type.
  intros Hst. unfold getRequiredSsaWait. case_match; [done|].
  etransitivity; [|exact (proj1 (ssaWait_fold info st (op_operands op) _))].
  case_match; [|done]. apply (gwf_capture _ _ Hst).
Qed.

Section Rules.
Context (op : GapOp) (info : HazardOpInfo) (st : HazardState) (m : GapMachine) (e : Event).
Context (Hi : infoOk cfg op info) (Hcf : info_controlFlow info = false).
Context (Hst : gapWf st) (Hm : machineOk m) (Hd : describes st m) (He : e ∈ past m).
Abbreviation wait := (getRequiredPhysicalWait cfg op info st).

Lemma event_ok : infoOk cfg (ev_op e) (ev_info e) /\ 0 <= ev_age e.
Proof using Hm He. by destruct (mok_events _ _ Hm e He) as (? & ? & _). Qed.

Lemma wait_nonneg : 0 <= wait.
Proof using Hcf. by destruct (physicalWait_ub op info st Hcf) as (_ & _ & _ & _ & ?). Qed.

(** An open hazard whose rule is met by every well-formed hazard of its kind
    is waited for. *)
Lemma opened_wait h n :
  opens cfg (ev_op e) (ev_info e) h -> settled e (ph_kind h) = false ->
  ph_remaining h = ph_limit h -> n <= ph_limit h ->
  (forall h', h' ∈ physical st -> hazardWf cfg h' -> ph_span h' = ph_span h ->
     ph_kind h' = ph_kind h -> ph_limit h - ev_age e <= ph_remaining h' ->
     n - ev_age e <= wait) ->
  n - ev_age e <= wait.
Proof using Hcf Hst Hd He.
  intros Ho Hs Hr Hn Hw. pose proof wait_nonneg.
  destruct (known_hazard st m e h Hst Hd He Ho Hs Hr) as [Ha|(h' & Hh & Hwf & Hsp & Hk & _ & Hrem)];
    [lia|]. by apply (Hw h').
Qed.

Lemma latency_le p : p = 4 \/ p = 8 ->
  getXdlSrcCOverlapLatency cfg p <= getXdlResultLatency cfg p /\
  getXdlSrcCExactLatency cfg p <= getXdlResultLatency cfg p.
Proof using Type.
  intros Hp. rewrite xdlResult_eq, xdlOverlap_eq, xdlExact_eq by done.
  repeat case_match; lia.
Qed.

Lemma mfma_chain_wait i v use span :
  mfma (ev_info e) = true -> definesSpan (ev_op e) span -> mfma info = true ->
  op_operands op !! i = Some v -> getAllocatedRegSpan v = Some use ->
  overlaps use span = true ->
  (let passes := info_mfmaPasses (ev_info e) in
   if decide (i = 2%nat)
   then if decide (use = span) then getXdlSrcCExactLatency cfg passes
        else getXdlSrcCOverlapLatency cfg passes
   else getXdlResultLatency cfg passes) - ev_age e <= wait.
Proof using Hcf Hst Hm Hd He.
  intros Hme Hdef Hmi Hv Hu Hov. destruct event_ok as [Hie Ha].
  pose proof (info_passes _ _ _ Hie Hme) as Hp. destruct (latency_le _ Hp) as [L1 L2].
  eapply opened_wait; [by apply (opens_mfma cfg _ _ span)|done..|simpl; repeat case_match; lia|].
  intros h' Hh' Hwf Hsp Hk Hrem. simpl in *.
  etransitivity; [|apply (use_wait op info st h' i v use); rewrite ?Hsp, ?Hk; done].
  rewrite Hmi. unfold getMfmaUseWait. rewrite Hk. cbv zeta. rewrite Hsp.
  destruct (decide (i = 2%nat)) as [->|Hi2]; simpl.
  - case_decide; (eapply mfma_wait; [done|done|done|done|done|tauto]).
  - destruct (Nat.eqb_spec i 2); [done|]. simpl.
    eapply mfma_wait; [done|done|done|done|done|tauto].
Qed.

Lemma mfma_result_wait span :
  mfma (ev_info e) = true -> definesSpan (ev_op e) span -> xdlResultConsumer info = true ->
  (mfma info = false /\ meets span (readsSpan op)) \/ meets span (writesSpan op) ->
  getXdlResultLatency cfg (info_mfmaPasses (ev_info e)) - ev_age e <= wait.
Proof using Hcf Hst Hm Hd He.
  intros Hme Hdef Hx Hmeet. destruct event_ok as [Hie Ha].
  pose proof (info_passes _ _ _ Hie Hme) as Hp.
  eapply opened_wait; [by apply (opens_mfma cfg _ _ span)|done..|].
  intros h' Hh' Hwf Hsp Hk Hrem. simpl in *.
  assert (getXdlResultLatency cfg (info_mfmaPasses (ev_info e)) - ev_age e <=
    waitForHazardAge h' (getXdlResultLatency cfg (getHazardMfmaPassCount h'))) as Hw.
  { eapply mfma_wait; [done|done|done|done|done|tauto]. }
  etransitivity; [exact Hw|].
  destruct Hmeet as [[Hmi (use & (v & Hv & Hu) & Hov)]|(def & Hdf & Hov)].
  - apply list_elem_of_lookup in Hv as [i Hv].
    etransitivity; [|apply (use_wait op info st h' i v use); rewrite ?Hsp, ?Hk; done].
    rewrite Hmi. unfold getNonMfmaUseWait. by rewrite Hk, Hx.
  - etransitivity; [|by apply (def_wait op info st h' def)].
    unfold getPhysicalDefWait. by rewrite Hsp, Hov, Hk, Hx.
Qed.

Lemma mfma_accumulator_wait mma span :
  mfma (ev_info e) = true -> g_mma (ev_op e) = Some mma ->
  getAllocatedRegSpan (mma_Acc mma) = Some span ->
  legacyValu info = true \/ info_ds info = true \/ vmem info = true ->
  meets span (writesSpan op) ->
  getXdlSrcCReadWarLatency cfg (info_mfmaPasses (ev_info e)) - ev_age e <= wait.
Proof using Hcf Hst Hm Hd He.
  intros Hme Hmma Hacc Hkind (def & Hdf & Hov). destruct event_ok as [Hie Ha].
  eapply opened_wait; [by apply (opens_accumulator cfg _ _ mma span)|done..|].
  intros h' Hh' Hwf Hsp Hk Hrem. simpl in *.
  etransitivity; [|by apply (def_wait op info st h' def)].
  unfold getPhysicalDefWait. rewrite Hsp, Hov, Hk. simpl.
  replace (legacyValu info || (info_ds info || vmem info)) with true
    by (destruct Hkind as [-> | [-> | ->]]; by rewrite ?orb_true_r).
  rewrite (waitForHazardAge_spec cfg) by done. unfold getHazardMfmaPassCount.
  rewrite (wf_limit _ _ Hwf (getXdlSrcCReadWarLatency cfg (ph_mfmaPasses h')))
    by (by rewrite Hk). lia.
Qed.

(** The same for hazards of one limit, met by a register that is read. *)
Lemma read_wait span kind limit n (P : RegSpan -> Prop) :
  opens cfg (ev_op e) (ev_info e) (mkPhysical span kind limit limit 0) ->
  settled e kind = false -> n <= limit -> kind <> PhysicalHazardKind.DstSelWriteVGPR ->
  (forall p, limitOf cfg kind p = Some limit) ->
  meets span (fun use => readsSpan op use /\ P use) ->
  (forall i use h', ph_kind h' = kind -> P use ->
     (if mfma info then getMfmaUseWait cfg i use h' else getNonMfmaUseWait cfg info use h')
     = waitForHazardAge h' n) ->
  n - ev_age e <= wait.
Proof using Hcf Hst Hd He.
  intros Ho Hs Hn Hk Hl (use & [(v & Hv & Hu) HP] & Hov) Heq.
  eapply opened_wait; [exact Ho|done..|]. intros h' Hh' Hwf Hsp Hk' Hrem. simpl in *.
  apply list_elem_of_lookup in Hv as [i Hv].
  etransitivity; [|apply (use_wait op info st h' i v use); rewrite ?Hsp; congruence].
  rewrite (Heq i use h' Hk' HP). by apply (constant_wait h' kind limit).
Qed.

Lemma meets_reads span :
  meets span (readsSpan op) -> meets span (fun use => readsSpan op use /\ True).
Proof using Type. intros (use & Hr & Ho). by exists use. Qed.

Lemma vector_result_opens span :
  vectorResult e span ->
  opens cfg (ev_op e) (ev_info e)
    (mkPhysical span PhysicalHazardKind.ValuWriteVGPR (getVGPRWriteHazardLimit cfg)
       (getVGPRWriteHazardLimit cfg) 0) /\ ev_vdstDone e = false.
Proof using Hm He.
  intros (Hl & Hdef & Hv & Hs). destruct event_ok as [Hie _]. split; [|done].
  apply opens_vgpr; try done. by apply (info_legacy _ _ _ Hie).
Qed.

Lemma vgpr_wait span n :
  vectorResult e span -> n <= getVGPRWriteHazardLimit cfg -> meets span (readsSpan op) ->
  (forall i use h', ph_kind h' = PhysicalHazardKind.ValuWriteVGPR ->
     (if mfma info then getMfmaUseWait cfg i use h' else getNonMfmaUseWait cfg info use h')
     = waitForHazardAge h' n) ->
  n - ev_age e <= wait.
Proof using Hcf Hst Hm Hd He.
  intros Hv Hn Hmeet Heq. destruct (vector_result_opens span Hv) as [Ho Hs].
  apply (read_wait span PhysicalHazardKind.ValuWriteVGPR (getVGPRWriteHazardLimit cfg) n
    (fun _ => True)); try done; [by apply meets_reads|]. intros i use h' Hk _. by apply Heq.
Qed.

Lemma trans_wait span :
  hasTransForwardingHazard cfg = true -> trans (ev_info e) = true ->
  vectorResult e span -> legacyValu info = true -> trans info = false ->
  meets span (fun use => readsSpan op use /\ isVGPRSpan use = true) ->
  transForwardingWaitStates cfg - ev_age e <= wait.
Proof using Hi Hcf Hst Hm Hd He.
  intros Hf Ht (Hl & Hdef & Hv & Hs) Hli Hti Hmeet. destruct event_ok as [Hie _].
  pose proof (proj1 (info_legacy _ _ _ Hie Hl)) as Hme.
  pose proof (proj1 (info_legacy _ _ _ Hi Hli)) as Hmi.
  eapply (read_wait span PhysicalHazardKind.TransWriteVGPR _ _ _); [|done..|exact Hmeet|].
  { by apply opens_trans. }
  simpl. intros i use h' Hk Hu. rewrite Hmi. unfold getNonMfmaUseWait,
    getTransForwardingUseWait, getValuWriteSGPRUseWait. rewrite Hk, Hu, Hli, Hti. simpl.
  unfold firstWait. case_match eqn:Hz; [|done]. by apply Z.eqb_eq in Hz.
Qed.

Lemma sgpr_wait span :
  legacyValu (ev_info e) = true -> definesSpan (ev_op e) span -> isSGPRSpan span = true ->
  ev_sdstDone e = false -> mfma info = false ->
  meets span (fun use => readsSpan op use /\ isSGPRSpan use = true) ->
  vmem info = true \/ legacyValu info = true ->
  (if vmem info then valuWriteSGPRVmemReadLatency cfg else valuWriteSGPRValuReadLatency cfg)
    - ev_age e <= wait.
Proof using Hcf Hst Hm Hd He.
  intros Hl Hdef Hs Hdone Hmi Hmeet Hkind. destruct event_ok as [Hie _].
  pose proof (proj1 (info_legacy _ _ _ Hie Hl)) as Hme.
  eapply (read_wait span PhysicalHazardKind.ValuWriteSGPR (getSGPRWriteHazardLimit cfg));
    [|done| |done|done|exact Hmeet|].
  { by apply opens_sgpr. }
  { unfold getSGPRWriteHazardLimit. case_match; lia. }
  simpl. intros i use h' Hk Hu. rewrite Hmi. unfold getNonMfmaUseWait,
    getTransForwardingUseWait, getValuWriteSGPRUseWait. rewrite Hk, Hu. simpl.
  unfold firstWait. simpl. destruct (vmem info); [done|]. destruct Hkind as [|Hk']; [done|].
  by rewrite Hk'.
Qed.

Lemma dst_sel_wait result span :
  hasDstSelForwardingHazard cfg = true -> mfma (ev_info e) = false ->
  g_dstSelResult (ev_op e) = Some result -> getAllocatedRegSpan result = Some span ->
  isVGPRSpan span = true -> valu info = true ->
  meets span (fun access => touchesSpan op access /\ isVGPRSpan access = true) ->
  dstSelForwardingWaitStates cfg - ev_age e <= wait.
Proof using Hcf Hst Hm Hd He.
  intros Hf Hme Hr Hsp Hv Hvalu (access & [Ht Ha] & Hov).
  eapply opened_wait; [by apply (opens_dst_sel cfg _ _ result span)|done..|].
  intros h' Hh' Hwf Hsp' Hk Hrem. simpl in *. etransitivity.
  { eapply (constant_wait h' PhysicalHazardKind.DstSelWriteVGPR); [done|done|done|exact Hrem]. }
  assert (getDstSelForwardingWait cfg info access h' =
    waitForHazardAge h' (dstSelForwardingWaitStates cfg)) as Heq.
  { unfold getDstSelForwardingWait. by rewrite Hk, Ha, Hvalu. }
  rewrite <-Heq. destruct Ht as [(v & Hin & Hu)|Hw].
  - apply list_elem_of_lookup in Hin as [i Hin].
    destruct (physicalWait_ub op info st Hcf) as [H1 _]. etransitivity; [|exact H1].
    etransitivity; [|by apply (operandWait_ub op info st i v access h')].
    unfold getPhysicalUseWait. rewrite Hsp', Hov. simpl.
    assert (0 <= (if mfma info then getMfmaUseWait cfg i access h'
      else getNonMfmaUseWait cfg info access h')).
    { unfold getMfmaUseWait, getNonMfmaUseWait, getTransForwardingUseWait,
        getValuWriteSGPRUseWait. rewrite Hk. simpl. by case_match. }
    apply firstWait_ub; [|done]. rewrite Heq. apply waitForHazardAge_nonneg.
  - etransitivity; [|by apply (def_wait op info st h' access)].
    unfold getPhysicalDefWait. by rewrite Hsp', Hov, Hk.
Qed.

Lemma store_wait hazard span :
  mfma (ev_info e) = false -> storeWriteData (ev_info e) = Some hazard ->
  getAllocatedRegSpan (hazard_data hazard) = Some span -> valu info = true ->
  meets span (fun def => writesSpan op def /\ isVGPRSpan def = true) ->
  hazard_latency hazard - ev_age e <= wait.
Proof using Hcf Hst Hm Hd He.
  intros Hme Hs Hsp Hvalu (def & [Hw Hv] & Hov).
  eapply opened_wait; [by apply (opens_store cfg _ _ hazard span)|done..|].
  intros h' Hh' Hwf Hsp' Hk Hrem. simpl in *.
  etransitivity; [|by apply (def_wait op info st h' def)].
  unfold getPhysicalDefWait. rewrite Hsp', Hov, Hk, Hvalu, Hv. simpl.
  rewrite (waitForHazardAge_spec cfg) by done. lia.
Qed.

(** Every rule on registers is waited for. *)
Lemma gapRule_wait n :
  gapRule cfg e op info n ->
  n - ev_age e <= Z.max (getRequiredSsaWait op info st) wait.
Proof using Hi Hcf Hst Hm Hd He.
  intros Hr. destruct event_ok as [Hie Ha].
  destruct (physicalWait_ub op info st Hcf) as (_ & _ & Hvcc & Hexec & _).
  destruct Hr as [i v use span H1 H2 H3 H4 H5 H6|span H1 H2 H3 H4|mma span H1 H2 H3 H4 H5
    |span H1 H2 H3 H4 H5 H6|result span H1 H2 H3 H4 H5 H6 H7|span H1 H2 H3|span H1 H2 H3 H4
    |span H1 H2 H3 H4|span H1 H2 H3 H4 H5 H6 H7|result H1 H2 H3 H4 H5 H6|H1 H2 H3 H4
    |hazard span H1 H2 H3 H4 H5|H1 H2];
    [etransitivity; [|apply Z.le_max_r]..|etransitivity; [|apply Z.le_max_l]].
  - by eapply mfma_chain_wait.
  - by eapply mfma_result_wait.
  - by eapply mfma_accumulator_wait.
  - by eapply trans_wait.
  - by eapply dst_sel_wait.
  - apply (vgpr_wait span); [done|unfold getVGPRWriteHazardLimit; lia|done|].
    intros i use h' Hk. rewrite H2. unfold getMfmaUseWait. by rewrite Hk.
  - apply (vgpr_wait span); [done|unfold getVGPRWriteHazardLimit; lia|done|].
    intros i use h' Hk. rewrite H2. unfold getNonMfmaUseWait. by rewrite Hk, H3.
  - apply (vgpr_wait span); [done|unfold getVGPRWriteHazardLimit; lia|done|].
    intros i use h' Hk. rewrite H2. unfold getNonMfmaUseWait.
    by rewrite Hk, H3, (info_permlane _ _ _ Hi H3).
  - by eapply sgpr_wait.
  - etransitivity; [|exact Hvcc]. unfold getVccReadWait. rewrite H5, H6. simpl.
    by apply (desc_vcc _ _ _ Hd e result).
  - etransitivity; [|by apply Hexec]. by apply (desc_exec _ _ _ Hd e).
  - by eapply store_wait.
  - etransitivity; [|by apply ssaWait_capture]. by apply (desc_capture _ _ _ Hd e).
Qed.

(** Every rule on values is waited for. *)
Lemma valueRule_wait v id result n :
  v ∈ op_operands op -> (id, result) ∈ content m (value_id v) -> past m !! id = Some e ->
  valueRule cfg e result op info v n ->
  n - ev_age e <= Z.max (getRequiredSsaWait op info st) wait.
Proof using Hcf Hd.
  intros Hv Hc Hid Hr. etransitivity; [|apply Z.le_max_l].
  destruct (ssaWait_operand op info st v Hcf Hv) as (S1 & S2 & S3).
  destruct (desc_values _ _ _ Hd _ _ _ _ Hc Hid) as (V1 & V2 & V3).
  destruct Hr as [m0 H1 H2 H3|H1 H2|H1 H2 H3 H4].
  - etransitivity; [by apply (V1 m0)|by apply S1].
  - etransitivity; [by apply V2|by apply S2].
  - etransitivity; [by apply V3|by apply S3].
Qed.
End Rules.
End Mitigate.
