(* ===== verification/GapFree.v ===== *)
(** * An operation issues without a hazard

    The steps of [rewriteOp] one after the other: the state describes the
    hardware after the instructions that each creates, and what was free of
    hazards stays so. *)

From stdpp Require Import base tactics list gmap numbers strings sets.
From S2P Require Import Prelude CostEnums ArchData MachineIR LatencyTable.
From S2P Require Import OpClassifier ExecState TicketIR GapIR GapState GapTransfer GapLattice.
From S2P Require Import GapGrow GapMachine GapSound GapStep.

Section Free.
Context `{LLVMTarget} `{GapLLVM} (cfg : HazardConfig) (Hcfg : configOk cfg).
Abbreviation gapWf := (gapWf cfg).
Abbreviation describes := (describes cfg).
Abbreviation machineOk := (machineOk cfg).
Implicit Types op : GapOp.

(** ** Rules as time passes *)

(** The same event, later or with more of its results settled. *)
Record laterEvent (e e' : Event) : Prop := {
  later_op : ev_op e' = ev_op e;
  later_info : ev_info e' = ev_info e;
  later_age : ev_age e <= ev_age e';
  later_valu : ev_valuAge e <= ev_valuAge e';
  later_sgpr : ev_sgprAge e <= ev_sgprAge e';
  later_vdst : ev_vdstDone e = true -> ev_vdstDone e' = true;
  later_sdst : ev_sdstDone e = true -> ev_sdstDone e' = true;
  later_base : ev_baseDone e = true -> ev_baseDone e' = true
}.

Lemma vectorResult_later e e' span :
  laterEvent e e' -> vectorResult e' span -> vectorResult e span.
Proof using Type.
  clear cfg Hcfg. intros [Eo Ei _ _ _ Ev _ _]. unfold vectorResult. rewrite Eo, Ei.
  intros (? & ? & ? & Hd). split_and!; try done.
  destruct (ev_vdstDone e); [|done]. rewrite Ev in Hd; done.
Qed.

Lemma gapRule_later e e' op info n :
  laterEvent e e' -> gapRule cfg e' op info n -> gapRule cfg e op info n.
Proof using Type.
  intros Hl Hr. pose proof (fun span => vectorResult_later e e' span Hl) as HV.
  destruct Hl as [Eo Ei _ _ _ _ Es _].
  assert (ev_sdstDone e' = false -> ev_sdstDone e = false) as HS.
  { destruct (ev_sdstDone e); [|done]. by rewrite Es. }
  destruct e as [o i a b c d1 d2 d3], e' as [o' i' a' b' c' d1' d2' d3']. simpl in *. subst o' i'.
  destruct Hr; simpl in *.
  - by eapply rule_mfma_chain.
  - by eapply rule_mfma_result.
  - by eapply rule_mfma_accumulator.
  - by eapply rule_trans_forwarding; try done; apply HV.
  - by eapply rule_dst_sel_forwarding.
  - by eapply rule_vgpr_mfma; try done; apply HV.
  - by eapply rule_vgpr_readlane; try done; apply HV.
  - by eapply rule_vgpr_permlane; try done; apply HV.
  - eapply rule_sgpr; try done. by apply HS.
  - by eapply rule_vcc.
  - by eapply rule_exec.
  - by eapply rule_store_data.
  - by eapply rule_m0_capture.
Qed.

Lemma valueRule_later e e' r op info v n :
  laterEvent e e' -> valueRule cfg e' r op info v n -> valueRule cfg e r op info v n.
Proof using Type.
  intros [Eo Ei _ _ _ _ _ _] Hr.
  destruct e as [o i a b c d1 d2 d3], e' as [o' i' a' b' c' d1' d2' d3']. simpl in *. subst o' i'.
  destruct Hr; simpl in *; [by eapply rule_m0|by apply rule_mfma_store|by apply rule_permlane].
Qed.

Lemma coexecRule_later e e' op info n :
  laterEvent e e' -> coexecRule cfg e' op info n -> coexecRule cfg e op info n.
Proof using Type.
  intros [Eo Ei _ _ _ _ _ _] Hr.
  destruct e as [o i a b c d1 d2 d3], e' as [o' i' a' b' c' d1' d2' d3']. simpl in *. subst o' i'.
  destruct Hr; simpl in *;
    [by eapply rule_trans_coexec|by eapply rule_wmma_wmma|by eapply rule_wmma_valu].
Qed.

Lemma scratchRule_later e e' info :
  laterEvent e e' -> scratchRule cfg e' info -> scratchRule cfg e info.
Proof using Type.
  intros [Eo Ei _ _ _ _ _ Eb]. unfold scratchRule. rewrite Eo, Ei.
  intros (? & ? & Hd & ? & ?). split_and!; try done.
  destruct (ev_baseDone e); [|done]. by rewrite Eb in Hd.
Qed.

(** The same hardware, later, with nothing issued but mitigations. *)
Record laterMachine (m m' : GapMachine) : Prop := {
  later_past : exists f, (forall e, e ∈ past m -> laterEvent e (f e)) /\ past m' = f <$> past m;
  later_content : content m' = content m;
  later_drain : forall a', drainAge m' = Some a' -> exists a, drainAge m = Some a /\ a <= a';
  later_outstanding : outstanding m' <= outstanding m
}.

Lemma later_event m m' e' :
  laterMachine m m' -> e' ∈ past m' -> exists e, e ∈ past m /\ laterEvent e e'.
Proof using Type.
  clear cfg Hcfg. intros [(f & Hf & ->) _ _ _] He. apply list_elem_of_fmap in He as (e & -> & He). eauto.
Qed.

#[global] Instance laterEvent_preorder : PreOrder laterEvent.
Proof using Type.
  clear. split; [by split|]. intros a b c [? ? ? ? ? ? ? ?] [? ? ? ? ? ? ? ?].
  split; try congruence; try lia; auto.
Qed.

#[global] Instance laterMachine_preorder : PreOrder laterMachine.
Proof using Type.
  clear. split.
  - intros m. split; [|done|by intros a ->; exists a; split; [done|lia]|done].
    exists id. split; [done|]. by rewrite list_fmap_id.
  - intros a b c [(f & Hf & Ef) C1 D1 O1] [(g & Hg & Eg) C2 D2 O2]. split; [|congruence| |lia].
    + exists (g ∘ f). split.
      * intros e He. simpl. etransitivity; [by apply Hf|]. apply Hg. rewrite Ef.
        by apply list_elem_of_fmap_2.
      * by rewrite Eg, Ef, list_fmap_compose.
    + intros x Hx. destruct (D2 x Hx) as (y & Hy & ?). destruct (D1 y Hy) as (z & Hz & ?).
      exists z. split; [done|lia].
Qed.

Lemma ageMachine_later n v s m :
  0 <= n -> 0 <= v -> 0 <= s -> laterMachine m (ageMachine n v s m).
Proof using Type.
  clear. intros Hn Hv Hs. split; simpl; try done.
  - exists (ageEvent n v s). split; [|done]. intros e He. split; simpl; done || lia.
  - intros a' Ha. destruct (drainAge m) as [a|]; [|done]. injection Ha as <-.
    exists a. split; [done|lia].
Qed.

Lemma settle_later x y z m : laterMachine m (settle x y z m).
Proof using Type.
  clear. split; simpl; try done.
  - exists (settleEvent x y z). split; [|done]. intros e He.
    split; simpl; try done; by intros ->.
  - intros a' Ha. by exists a'.
Qed.

Lemma freeRegisters_later op info m m' :
  laterMachine m m' -> freeRegisters cfg op info m -> freeRegisters cfg op info m'.
Proof using Type.
  intros Hl Hf e' n He Hr. destruct (later_event _ _ _ Hl He) as (e & Hin & Hle).
  specialize (Hf e n Hin (gapRule_later _ _ _ _ _ Hle Hr)). destruct Hle. lia.
Qed.

Lemma freeValues_later op info m m' :
  laterMachine m m' -> freeValues cfg op info m -> freeValues cfg op info m'.
Proof using Type.
  intros [(f & Hf & Ef) Hc _ _] Hfree v id r e' n Hv Hin He Hr. rewrite Hc in Hin.
  rewrite Ef, list_lookup_fmap in He. destruct (past m !! id) as [e|] eqn:Hid; [|done].
  injection He as <-. assert (laterEvent e (f e)) as Hle.
  { apply Hf. by eapply list_elem_of_lookup_2. }
  specialize (Hfree v id r e n Hv Hin Hid (valueRule_later _ _ _ _ _ _ _ Hle Hr)).
  destruct Hle. lia.
Qed.

Lemma freeCoexec_later op info m m' :
  laterMachine m m' -> freeCoexec cfg op info m -> freeCoexec cfg op info m'.
Proof using Type.
  intros Hl Hf e' n He Hr. destruct (later_event _ _ _ Hl He) as (e & Hin & Hle).
  specialize (Hf e n Hin (coexecRule_later _ _ _ _ _ Hle Hr)). destruct Hle. lia.
Qed.

Lemma freeLgkm_later info m m' :
  laterMachine m m' -> freeLgkm cfg info m -> freeLgkm cfg info m'.
Proof using Type.
  intros Hl Hf a Hn Hv Ha. destruct (later_drain _ _ Hl a Ha) as (b & Hb & ?).
  specialize (Hf b Hn Hv Hb). lia.
Qed.

(** ** What is missing for co-execution *)

Lemma coexecValueWait_ub kind remaining st value span h :
  getAllocatedRegSpan value = Some span -> h ∈ coexec st -> ce_kind h = kind ->
  overlaps span (ce_span h) = true ->
  remaining h <= getCoexecValueWait kind remaining st value.
Proof using Type.
  clear. intros Hs Hh Hk Ho. unfold getCoexecValueWait. rewrite Hs.
  apply maxOf_ub, list_elem_of_fmap. exists h. by rewrite Hk, Ho, bool_decide_true.
Qed.

Lemma coexecValuesWait_ub kind remaining st vals value :
  value ∈ vals ->
  getCoexecValueWait kind remaining st value <= getCoexecValuesWait kind remaining st vals.
Proof using Type. clear. intros Hv. by apply maxOf_ub, list_elem_of_fmap_2. Qed.

Lemma coexecValueWait_nonneg kind remaining st value :
  0 <= getCoexecValueWait kind remaining st value.
Proof using Type. clear. unfold getCoexecValueWait. case_match; [apply maxOf_nonneg|done]. Qed.

Lemma transCoexecWait_nonneg op info st : 0 <= getTransCoexecWait cfg op info st.
Proof using Type.
  unfold getTransCoexecWait. case_match; [done|].
  pose proof (maxOf_nonneg (getCoexecValueWait CoexecHazardKind.TransDef ce_valuRemaining st
    <$> op_operands op)). unfold getCoexecValuesWait. lia.
Qed.

(** The waits of [getRequiredCoexecVNops] in full. *)
Lemma coexecVNops_ub op info st vnops :
  info_controlFlow info = false -> getRequiredCoexecVNops cfg op info st = Ok vnops ->
  getTransCoexecWait cfg op info st <= vnops /\
  (g_hasWmmaCoexecutionHazard cfg = true -> xdlWmma info = true -> forall mma v,
     g_mma op = Some mma -> v = mma_A mma \/ v = mma_B mma ->
     getCoexecValueWait CoexecHazardKind.WmmaDef ce_wmmaRemaining st v <= vnops) /\
  (g_hasWmmaCoexecutionHazard cfg = true -> xdlWmma info = false ->
   coexecValu info = true ->
     (forall v, v ∈ op_operands op ->
        getCoexecValueWait CoexecHazardKind.WmmaDef ce_valuRemaining st v <= vnops) /\
     (forall v, v ∈ op_results op ->
        getCoexecValueWait CoexecHazardKind.WmmaDef ce_valuRemaining st v <= vnops /\
        getCoexecValueWait CoexecHazardKind.WmmaUse ce_valuRemaining st v <= vnops)).
Proof using Type.
  intros Hcf Hn. unfold getRequiredCoexecVNops in Hn. rewrite Hcf in Hn.
  apply outcome_bind_Ok in Hn as (w & Hw & [= <-]). split; [lia|].
  unfold getWmmaCoexecWait in Hw. split.
  - intros Hg Hx mma v Hm Hv. rewrite Hg, Hx in Hw. simpl in Hw. unfold castMma in Hw.
    rewrite Hm in Hw. simpl in Hw. injection Hw as <-. destruct Hv as [-> | ->]; lia.
  - intros Hg Hx Hc. rewrite Hg, Hx, Hc in Hw. simpl in Hw. injection Hw as <-.
    split; [|split]; intros; [etransitivity; [by apply (coexecValuesWait_ub _ _ _ (op_operands op))|]
      |etransitivity; [by apply (coexecValuesWait_ub _ _ _ (op_results op))|]..]; lia.
Qed.

Lemma coexecRule_wait op info st m e n vnops :
  info_controlFlow info = false -> getRequiredCoexecVNops cfg op info st = Ok vnops ->
  machineOk m -> describes st m -> e ∈ past m -> coexecRule cfg e op info n ->
  n - ev_valuAge e <= vnops.
Proof using Type.
  intros Hcf Hn Hm Hd He Hr.
  destruct (coexecVNops_ub op info st vnops Hcf Hn) as (C1 & C2 & C3).
  assert (0 <= vnops) as Hv0 by (pose proof (transCoexecWait_nonneg op info st); lia).
  assert (0 <= ev_valuAge e) as Ha by apply (mok_events _ _ Hm e He).
  assert (forall h, opensCoexec cfg (ev_op e) (ev_info e) h ->
    (ce_wmmaRemaining h - ev_valuAge e <= vnops /\ ce_valuRemaining h - ev_valuAge e <= vnops) \/
    exists h', h' ∈ coexec st /\ ce_span h' = ce_span h /\ ce_kind h' = ce_kind h /\
      ce_wmmaRemaining h - ev_valuAge e <= ce_wmmaRemaining h' /\
      ce_valuRemaining h - ev_valuAge e <= ce_valuRemaining h') as Hknown.
  { intros h Ho. destruct (decide (ev_valuAge e < ce_wmmaRemaining h \/
      ev_valuAge e < ce_valuRemaining h)) as [Hlt|Hge]; [right|left; lia].
    destruct (desc_coexec _ _ _ Hd e h He Ho Hlt) as (h' & Hin & [[= K1 K2] W V]).
    exists h'. simpl in *. by split_and!. }
  destruct Hr as [span Hf Ht Hv Hnt Hcase|mma mine slots span v Hf Hx Hmma Hsp Hsl Hxi Hmine
    Hv (use & Hu & Hov)|mma slots span Hf Hx Hmma Hsl Hxi Hco Hcase].
  - assert (getTransCoexecWait cfg op info st =
      Z.max (getCoexecValuesWait CoexecHazardKind.TransDef ce_valuRemaining st (op_operands op))
        (getCoexecValuesWait CoexecHazardKind.TransUse ce_valuRemaining st (op_results op)))
      as Heq by (unfold getTransCoexecWait; by rewrite Hf, Hv, Hnt).
    destruct Hcase as [[Hdef (use & (v & Hin & Hu) & Hov)]|[Huse (use & (v & Hin & Hu) & Hov)]].
    + destruct (Hknown (mkCoexec span CoexecHazardKind.TransDef 0 1))
        as [[_ ?]|(h' & Hh & Hs & Hk & _ & Hrem)]; [by constructor|done|]. simpl in *.
      rewrite <-Hs in Hov.
      pose proof (coexecValueWait_ub _ ce_valuRemaining st v use h' Hu Hh Hk Hov).
      pose proof (coexecValuesWait_ub CoexecHazardKind.TransDef ce_valuRemaining st _ v Hin). lia.
    + destruct (Hknown (mkCoexec span CoexecHazardKind.TransUse 0 1))
        as [[_ ?]|(h' & Hh & Hs & Hk & _ & Hrem)]; [by constructor|done|]. simpl in *.
      rewrite <-Hs in Hov.
      pose proof (coexecValueWait_ub _ ce_valuRemaining st v use h' Hu Hh Hk Hov).
      pose proof (coexecValuesWait_ub CoexecHazardKind.TransUse ce_valuRemaining st _ v Hin). lia.
  - pose proof (getWmmaVALUWaitSlots_nonneg cfg _ _ Hsl) as Hpos.
    destruct (Hknown (mkCoexec span CoexecHazardKind.WmmaDef (u32 (slots + 1)) slots))
      as [[? _]|(h' & Hh & Hs & Hk & Hrem & _)]; [by eapply opens_wmma_def|..]; simpl in *;
      rewrite u32_small in * by lia; [done|]. rewrite <-Hs in Hov.
    pose proof (coexecValueWait_ub _ ce_wmmaRemaining st v use h' Hu Hh Hk Hov).
    specialize (C2 Hf Hxi mine v Hmine Hv). lia.
  - destruct (C3 Hf Hxi Hco) as [C4 C5].
    assert (forall kind h v access, opensCoexec cfg (ev_op e) (ev_info e) h ->
      ce_kind h = kind -> ce_valuRemaining h = slots ->
      getAllocatedRegSpan v = Some access -> overlaps access (ce_span h) = true ->
      getCoexecValueWait kind ce_valuRemaining st v <= vnops -> slots - ev_valuAge e <= vnops)
      as Hone.
    { intros kind h v access Ho Hk Hr Hacc Hov Hw.
      destruct (Hknown h Ho) as [[_ ?]|(h' & Hh & Hs & Hk' & _ & Hrem)]; [lia|].
      rewrite <-Hs in Hov. rewrite Hk in Hk'.
      pose proof (coexecValueWait_ub _ ce_valuRemaining st v access h' Hacc Hh Hk' Hov). lia. }
    destruct Hcase as [[Hsp (access & [(v & Hin & Hu)|(v & Hin & Hu)] & Hov)]
      |[Hsp (access & (v & Hin & Hu) & Hov)]].
    + eapply (Hone _ (mkCoexec span CoexecHazardKind.WmmaDef (u32 (slots + 1)) slots) v);
        [by eapply opens_wmma_def|done..|by apply C4].
    + eapply (Hone _ (mkCoexec span CoexecHazardKind.WmmaDef (u32 (slots + 1)) slots) v);
        [by eapply opens_wmma_def|done..|by apply C5].
    + eapply (Hone _ (mkCoexec span CoexecHazardKind.WmmaUse 0 slots) v);
        [by eapply opens_wmma_use|done..|by apply C5].
Qed.

(** ** The instructions that are created *)

Lemma issueAll_app l1 l2 m : issueAll (l1 ++ l2) m = issueAll l2 (issueAll l1 m).
Proof using Type. clear. unfold issueAll. by rewrite fold_left_app. Qed.

Lemma issueAll_noops l : forall m,
  issueAll (InsertedSNop <$> l) m = ageMachine (slotsOf l) 0 0 m.
Proof using Type.
  clear. induction l as [|imm l IH]; intros m; simpl.
  { symmetry. apply ageMachine_zero. }
  unfold issueAll in IH. rewrite IH, ageMachine_compose. f_equal.
  unfold slotsOf. csimpl. lia.
Qed.

Lemma issueAll_vnops n : forall m,
  issueAll (replicate n InsertedVNop) m = ageMachine (Z.of_nat n) (Z.of_nat n) 0 m.
Proof using Type.
  clear. induction n as [|n IH]; intros m.
  { symmetry. apply ageMachine_zero. }
  cbn [replicate]. unfold issueAll in *. simpl. rewrite IH, ageMachine_compose. f_equal; lia.
Qed.

Lemma issueAll_valu sti m :
  issueAll (insertValuMitigation cfg sti) m = ageMachine 1 0 0 m.
Proof using Type.
  unfold insertValuMitigation. case_match; [done|].
  rewrite issueAll_noops, insertNoops_slots; done.
Qed.

(** ** The steps *)

(** The state knows the hardware. *)
Record tracks (st : HazardState) (m : GapMachine) : Prop := {
  tracks_wf : gapWf st;
  tracks_ok : machineOk m;
  tracks_describes : describes st m
}.

Lemma advance_tracks n st m :
  0 <= n -> tracks st m -> tracks (advanceHazards n true st) (ageMachine n 0 0 m).
Proof using Type.
  intros Hn [Hw Hm Hd]. split; [by apply advanceHazards_wf|by apply ageMachine_ok|].
  by apply describes_slots.
Qed.

Section Steps.
Context (op : GapOp) (info : HazardOpInfo).
Context (Hi : infoOk cfg op info) (Hcf : info_controlFlow info = false).

Lemma slotStep_sound st m wait st' :
  tracks st m -> slotStep cfg op info st = (wait, st') ->
  let m' := ageMachine wait 0 0 m in
  0 <= wait /\ tracks st' m' /\ laterMachine m m' /\ freeRegisters cfg op info m' /\
  freeValues cfg op info m'.
Proof using Hcf Hi.
  intros Ht Hs. pose proof Ht as [Hw Hm Hd]. unfold slotStep in Hs. injection Hs as Hwait Hst.
  pose proof (ssaWait_nonneg cfg op info st Hw) as Hss.
  assert (0 <= wait) as Hn by lia. split; [done|].
  assert (tracks st' (ageMachine wait 0 0 m)) as Ht'.
  { rewrite <-Hst, Hwait. destruct (Z.eqb_spec wait 0) as [->|]; [by rewrite ageMachine_zero|].
    by apply advance_tracks. }
  split; [done|]. split; [by apply ageMachine_later|]. split.
  - intros e n He Hr. simpl in He. apply list_elem_of_fmap in He as (e0 & -> & He).
    assert (gapRule cfg e0 op info n) as Hr0.
    { eapply gapRule_later; [|exact Hr]. split; simpl; done || lia. }
    pose proof (gapRule_wait cfg op info st m e0 Hi Hcf Hw Hm Hd He n Hr0). simpl. lia.
  - intros v id r e n Hv Hin He Hr. simpl in Hin, He. rewrite list_lookup_fmap in He.
    destruct (past m !! id) as [e0|] eqn:He0; [|done]. injection He as <-.
    assert (valueRule cfg e0 r op info v n) as Hr0.
    { eapply valueRule_later; [|exact Hr]. split; simpl; done || lia. }
    pose proof (valueRule_wait cfg op info st m e0 Hcf Hd v id r n Hv Hin He0 Hr0).
    simpl. lia.
Qed.

Lemma valuStep_sound sti st m needs st' :
  tracks st m -> valuStep info st = (needs, st') ->
  let m' := issueAll (if needs : bool then insertValuMitigation cfg sti else []) m in
  tracks st' m' /\ laterMachine m m' /\ freeLgkm cfg info m'.
Proof using Hcf Hi.
  intros Ht Hs. pose proof Ht as [Hw Hm Hd]. unfold valuStep in Hs. cbv zeta.
  destruct (needsValuMitigation info st) eqn:Hneed; injection Hs as <- <-.
  - rewrite issueAll_valu. split; [by apply advance_tracks|].
    split; [by apply ageMachine_later|]. intros a _ _ Ha. simpl in Ha.
    destruct (drainAge m) as [d|] eqn:Hdr; [|done]. injection Ha as <-.
    pose proof (mok_drain _ _ Hm d Hdr). lia.
  - simpl. split; [done|]. split; [done|]. intros a Hg Hv Ha.
    unfold needsValuMitigation in Hneed. rewrite Hv, andb_true_r in Hneed.
    apply negb_false_iff, Z.eqb_eq in Hneed.
    pose proof (desc_drained _ _ _ Hd a Hg Ha). lia.
Qed.

Lemma coexecStep_sound st m vnops st' :
  tracks st m -> coexecStep cfg op info st = Ok (vnops, st') ->
  let m' := issueAll (replicate (Z.to_nat vnops) InsertedVNop) m in
  tracks st' m' /\ laterMachine m m' /\ freeCoexec cfg op info m'.
Proof using Hcf Hi.
  intros Ht Hs. pose proof Ht as [Hw Hm Hd]. unfold coexecStep in Hs.
  apply outcome_bind_Ok in Hs as (n & Hn & [= -> <-]). cbv zeta.
  assert (0 <= vnops) as Hpos.
  { destruct (coexecVNops_ub op info st vnops Hcf Hn) as [C _].
    pose proof (transCoexecWait_nonneg op info st). lia. }
  rewrite issueAll_vnops, Z2Nat.id by done. split; [|split].
  - destruct (Z.eqb_spec vnops 0) as [->|]; [by rewrite ageMachine_zero|].
    pose proof (advance_tracks vnops st m Hpos Ht) as [W M D].
    replace (ageMachine vnops vnops 0 m) with (ageMachine 0 vnops 0 (ageMachine vnops 0 0 m))
      by (rewrite ageMachine_compose; f_equal; lia).
    split; [by apply advanceCoexecHazards_wf|by apply ageMachine_ok|by apply describes_vector].
  - by apply ageMachine_later.
  - intros e k He Hr. simpl in He. apply list_elem_of_fmap in He as (e0 & -> & He).
    assert (coexecRule cfg e0 op info k) as Hr0.
    { eapply coexecRule_later; [|exact Hr]. split; simpl; done || lia. }
    pose proof (coexecRule_wait op info st m e0 k vnops Hcf Hn Hm Hd He Hr0). simpl. lia.
Qed.

Lemma describes_clearScratch st m :
  gapWf st -> describes st m ->
  describes (set_scratchBase (fun _ => (0, 0)) st) (settle false false true m).
Proof using Type.
  intros Hw [D1 D2 D3 D4 D5 D6 D7 D8 D9]. split; try done; simpl.
  - intros e h He Ho Hs Ha. apply list_elem_of_fmap in He as (e0 & -> & He). simpl in *.
    apply D1; try done. destruct (ph_kind h); simpl in *; by rewrite ?orb_false_r in Hs.
  - intros e h He. apply list_elem_of_fmap in He as (e0 & -> & He). simpl in *. by apply D2.
  - intros e He _ _ Hb. apply list_elem_of_fmap in He as (e0 & -> & He). simpl in Hb.
    by rewrite orb_true_r in Hb.
  - intros e r He. apply list_elem_of_fmap in He as (e0 & -> & He). simpl in *. by apply D4.
  - intros e He. apply list_elem_of_fmap in He as (e0 & -> & He). simpl in *. by apply D5.
  - intros e He. apply list_elem_of_fmap in He as (e0 & -> & He). simpl in *. by apply D6.
  - intros v id r e Hin He. rewrite list_lookup_fmap in He.
    destruct (past m !! id) as [e0|] eqn:He0; [|done]. injection He as <-.
    by apply (D7 v id r e0).
Qed.

Lemma settle_ok x y z m : machineOk m -> machineOk (settle x y z m).
Proof using Type.
  intros [M1 M2 M3 M4]. split; simpl; try done.
  - intros e He. apply list_elem_of_fmap in He as (e0 & -> & He). simpl. by apply M1.
  - intros v id r Hin. rewrite length_fmap. by eapply M2.
Qed.

Lemma scratchStep_sound st m needs st' :
  tracks st m -> scratchStep cfg info st = (needs, st') ->
  let m' := issueAll (if needs : bool then [InsertedSWaitAlu] else []) m in
  tracks st' m' /\ laterMachine m m' /\ freeScratch cfg info m'.
Proof using Hcf Hi.
  intros Ht Hs. pose proof Ht as [Hw Hm Hd]. unfold scratchStep in Hs. cbv zeta.
  destruct (needsScratchBaseWait cfg info st) eqn:Hneed; injection Hs as <- <-; simpl.
  - pose proof (advance_tracks 1 st m ltac:(lia) Ht) as [W M D]. split; [|split].
    + split; [by apply clearScratch_wf|by apply settle_ok|by apply describes_clearScratch].
    + etransitivity; [|apply settle_later]. by apply ageMachine_later.
    + intros e He (_ & _ & Hb & _). simpl in He. apply list_elem_of_fmap in He as (e0 & -> & _).
      simpl in Hb. by rewrite orb_true_r in Hb.
  - split; [done|]. split; [done|]. intros e He (Hf & Hw' & Hb & Hsc & Hmeet).
    destruct (desc_scratch _ _ _ Hd e He Hf Hw' Hb) as [H1 H2].
    unfold needsScratchBaseWait in Hneed. rewrite Hf, Hsc in Hneed. simpl in Hneed.
    apply orb_false_iff in Hneed as [N1 N2].
    apply negb_false_iff, Z.eqb_eq in N1, N2.
    destruct Hmeet as [Hx|Hx]; [specialize (H1 Hx)|specialize (H2 Hx)]; lia.
Qed.
End Steps.

(** When the mitigations have issued, the operation may issue; the state after
    it is that of the transfer from one that knows the hardware before it. *)
Lemma rewriteOp_sound sti op info post st inserted st' m :
  gapOpOk op -> getHazardOpInfo op cfg = Ok info -> info_controlFlow info = false ->
  tracks st m -> rewriteOp cfg sti op post st = Ok (inserted, st') ->
  hazardFree cfg op info (issueAll inserted m) /\ laterMachine m (issueAll inserted m) /\
  machineOk (issueAll inserted m) /\
  exists st1, tracks st1 (issueAll inserted m) /\ transferHazards cfg op info st1 = Ok st'.
Proof using Hcfg.
  intros Hop Hinfo Hcf Ht Hr. pose proof (getHazardOpInfo_ok cfg op info Hop Hinfo) as Hi.
  unfold rewriteOp in Hr. rewrite <-(info_flow _ _ _ Hi), Hcf, Hinfo in Hr.
  change (Ok info ≫= ?k) with (k info) in Hr. cbv beta in Hr.
  destruct (slotStep cfg op info st) as [wait st1] eqn:H1.
  destruct (valuStep info st1) as [needs st2] eqn:H2.
  apply outcome_bind_Ok in Hr as ([vnops st3] & H3 & Hr).
  destruct (scratchStep cfg info st3) as [scratch st4] eqn:H4.
  apply outcome_bind_Ok in Hr as (st5 & H5 & [= <- <-]).
  destruct (slotStep_sound op info Hi Hcf st m wait st1 Ht H1) as (Hpos & T1 & L1 & FR & FV).
  rewrite !issueAll_app, issueAll_noops, insertNoops_slots by done.
  set (m1 := ageMachine wait 0 0 m) in *.
  destruct (valuStep_sound op info Hi Hcf sti st1 m1 needs st2 T1 H2) as (T2 & L2 & FL).
  set (m2 := issueAll _ m1) in *.
  destruct (coexecStep_sound op info Hi Hcf st2 m2 vnops st3 T2 H3) as (T3 & L3 & FC).
  set (m3 := issueAll _ m2) in *.
  destruct (scratchStep_sound op info Hi Hcf st3 m3 scratch st4 T3 H4) as (T4 & L4 & FS).
  set (m4 := issueAll _ m3) in *.
  pose proof (transitivity L3 L4) as L34. pose proof (transitivity L2 L34) as L24.
  split_and!; [|by etransitivity|by destruct T4|by exists st4].
  split; [by apply (freeRegisters_later _ _ m1)|by apply (freeValues_later _ _ m1)
    |by apply (freeCoexec_later _ _ m3)|done|by apply (freeLgkm_later _ m2)].
Qed.
End Free.
