(* ===== verification/GapProgram.v ===== *)
(** * The hazard analysis of a function and the rewrite

    A function as blocks of operations and the edges between their program
    points; the rounds of MLIR's dense solver with the transfer functions of
    [HazardAnalysis]; the runs of the rewritten function.  Where no round
    changes a state, every operation of every run issues free of hazards. *)

From stdpp Require Import base tactics list gmap numbers strings sets.
From S2P Require Import Prelude CostEnums ArchData MachineIR LatencyTable.
From S2P Require Import OpClassifier ExecState TicketIR GapIR GapState GapTransfer GapLattice.
From S2P Require Import GapGrow GapMachine GapSound GapStep GapFree.

(** ** Functions *)

(** The start of a block, and the points after its operations. *)
Inductive Point : Set :=
  | Entry (block : nat)
  | After (block index : nat).
#[export] Instance Point_eq_dec : EqDecision Point.
Proof. solve_decision. Defined.

Definition pointBefore (block index : nat) : Point :=
  match index with
  | O => Entry block
  | S i => After block i
  end.

(** [BranchEdge]: from a branch to its successor, with the operand lists of the
    successor slots that lead there and the arguments of the block.
    [RegionEdge]: an edge of a region-branch operation, from itself or from a
    terminator of its regions, with the operands and inputs that its interface
    gives. *)
Inductive EdgeKind : Type :=
  | BranchEdge (slots : list (list (option Value))) (arguments : list Value)
  | RegionEdge (fromParent : bool) (branch : GapOp) (sources inputs : list Value).

Record GapEdge : Type := mkGapEdge {
  edge_from : Point;
  edge_to : Point;
  edge_kind : EdgeKind
}.

Record GapFunction : Type := mkGapFunction {
  f_blocks : list (list GapOp);
  f_edges : list GapEdge
}.

Definition opAt (f : GapFunction) (block index : nat) : option GapOp :=
  f_blocks f !! block ≫= fun ops => ops !! index.

(** A region-branch operation; the solver has no transfer for it, only edges. *)
Definition isRegionBranch (op : GapOp) : bool := g_controlFlow op && g_regions op.

(** Edges lead to the start of a block or behind a region branch. *)
Definition edgeOk (f : GapFunction) (e : GapEdge) : Prop :=
  match edge_to e with
  | Entry _ => True
  | After block index =>
      exists op, opAt f block index = Some op /\ isRegionBranch op = true
  end.

Record functionOk (f : GapFunction) : Prop := {
  fok_edges : forall e, e ∈ f_edges f -> edgeOk f e;
  fok_ops : forall b i op, opAt f b i = Some op -> gapOpOk op
}.

(** ** The solver *)

Definition States := Point -> HazardState.
Definition updateState (p : Point) (st : HazardState) (states : States) : States :=
  fun q => if decide (q = p) then st else states q.

Definition edgeState (kind : EdgeKind) (st : HazardState) : HazardState :=
  match kind with
  | BranchEdge slots arguments => propagateBranchOperands slots arguments st
  | RegionEdge fromParent branch sources inputs =>
      visitRegionBranch fromParent branch sources inputs st
  end.

Section Solver.
Context `{LLVMTarget} `{GapLLVM} (cfg : HazardConfig) (f : GapFunction).

(** [visitOperation], [visitBlockTransfer] and
    [visitRegionBranchControlFlowTransfer]: the state [next] is joined into the
    state of the point. *)
Inductive visits (states : States) : Point -> HazardState -> Prop :=
  | visit_operation block index op info next :
      opAt f block index = Some op -> isRegionBranch op = false ->
      getHazardOpInfo op cfg = Ok info ->
      transferHazards cfg op info (states (pointBefore block index)) = Ok next ->
      visits states (After block index) next
  | visit_edge e :
      e ∈ f_edges f ->
      visits states (edge_to e) (edgeState (edge_kind e) (states (edge_from e))).

(** What the solver may have computed, in whatever order it visits. *)
Inductive computed : States -> Prop :=
  | computed_start : computed (fun _ => emptyHazardState)
  | computed_visit states p next :
      computed states -> visits states p next ->
      computed (updateState p (joinWith (states p) next).1 states).

(** Every operation has a transfer, and no visit changes anything. *)
Record solved (states : States) : Prop := {
  solved_computed : computed states;
  solved_transfer : forall block index op, opAt f block index = Some op ->
    isRegionBranch op = false -> exists info next,
    getHazardOpInfo op cfg = Ok info /\
    transferHazards cfg op info (states (pointBefore block index)) = Ok next;
  solved_fixed : forall p next, visits states p next ->
    (joinWith (states p) next).2 = false
}.

(** [rewriteWithSolver], from the block of number [block] on. *)
Fixpoint rewriteBlocks (sti : MCSubtargetInfo) (states : States) (block : nat)
    (blocks : list (list GapOp)) : outcome (list (list (list Inserted))) :=
  match blocks with
  | [] => Ok []
  | ops :: blocks' =>
      inserted ← rewriteBlock cfg sti ops (Some (states (Entry block)))
        (fun index => Some (states (After block index)));
      rest ← rewriteBlocks sti states (S block) blocks';
      Ok (inserted :: rest)
  end.
Definition rewriteFunction (sti : MCSubtargetInfo) (states : States) :
    outcome (list (list (list Inserted))) :=
  rewriteBlocks sti states 0 (f_blocks f).

(** ** Runs *)

(** The pipeline stalls and memory answers. *)
Inductive waits : GapMachine -> GapMachine -> Prop :=
  | waits_none m : waits m m
  | waits_stall m n m' : 0 <= n -> waits (ageMachine n 0 0 m) m' -> waits m m'
  | waits_answer m m1 m' : answers m m1 -> waits m1 m' -> waits m m'.

(** The values of [pairs] are assigned at once. *)
Definition assign (pairs : list (Value * Value)) (m : GapMachine) : GapMachine :=
  mkGapMachine (past m)
    (fun v => match base.filter (fun pair => value_id pair.2 = v) pairs with
              | [] => content m v
              | sources => sources ≫= fun pair => content m (value_id pair.1)
              end)
    (outstanding m) (drainAge m).

(** A branch takes one of its successor slots; a region-branch operation with
    an instruction issues at least one. *)
Inductive crosses : EdgeKind -> GapMachine -> GapMachine -> Prop :=
  | cross_branch slots arguments operands m :
      operands ∈ slots ->
      crosses (BranchEdge slots arguments) m
        (assign (zip (omap id operands) arguments) m)
  | cross_region fromParent (branch : GapOp) sources inputs n m :
      0 <= n -> (fromParent = true -> emitsNoMachineInst branch = false -> 1 <= n) ->
      crosses (RegionEdge fromParent branch sources inputs) m
        (assign (zip sources inputs) (ageMachine n 0 0 m)).

Context (rewritten : list (list (list Inserted))).

Definition insertedAt (block index : nat) : option (list Inserted) :=
  rewritten !! block ≫= fun ops => ops !! index.

(** [runs p m]: a run of the rewritten function may be at the point with the
    hardware as it is.  Control flow has no result that a rule knows. *)
Inductive runs : Point -> GapMachine -> Prop :=
  | runs_start : runs (Entry 0) initialGapMachine
  | runs_wait p m m' : runs p m -> waits m m' -> runs p m'
  | runs_operation block index op info inserted m m' :
      runs (pointBefore block index) m ->
      opAt f block index = Some op -> g_controlFlow op = false ->
      getHazardOpInfo op cfg = Ok info ->
      insertedAt block index = Some inserted ->
      waits (issueAll inserted m) m' ->
      runs (After block index) (issue cfg op info m')
  | runs_control block index op info m :
      runs (pointBefore block index) m ->
      opAt f block index = Some op -> g_controlFlow op = true ->
      isRegionBranch op = false -> getHazardOpInfo op cfg = Ok info ->
      runs (After block index) (passTime info m)
  | runs_edge e m m' :
      e ∈ f_edges f -> runs (edge_from e) m -> crosses (edge_kind e) m m' ->
      runs (edge_to e) m'.
End Solver.

(** ** Soundness *)

Section Sound.
Context `{LLVMTarget} `{GapLLVM} (cfg : HazardConfig) (Hcfg : configOk cfg).
Abbreviation gapWf := (gapWf cfg).
Abbreviation describes := (describes cfg).
Abbreviation machineOk := (machineOk cfg).
Abbreviation tracks := (tracks cfg).

Lemma settled_later e e' kind :
  laterEvent e e' -> settled e' kind = false -> settled e kind = false.
Proof using Type.
  clear. intros [_ _ _ _ _ Hv Hs _]. destruct kind; simpl; try done; intros Hd;
    [destruct (ev_vdstDone e)|destruct (ev_vdstDone e)|destruct (ev_sdstDone e)]; try done;
    by rewrite ?Hv, ?Hs in Hd.
Qed.

(** A state that knows the hardware knows it later. *)
Lemma describes_later st m m' : laterMachine m m' -> describes st m -> describes st m'.
Proof using Type.
  intros Hl [D1 D2 D3 D4 D5 D6 D7 D8 D9].
  pose proof (fun e => later_event m m' e Hl) as HE. destruct Hl as [Hf Hc Hdr Ho]. split.
  - intros e' h He Hop Hs Ha. destruct (HE e' He) as (e & Hin & L).
    rewrite (later_op _ _ L), (later_info _ _ L) in Hop.
    destruct (D1 e h Hin Hop (settled_later _ _ _ L Hs)) as (h' & Hh & [K Li R P]);
      [destruct L; lia|]. exists h'. split; [done|]. destruct L. split; simpl in *; done || lia.
  - intros e' h He Hop Ha. destruct (HE e' He) as (e & Hin & L).
    rewrite (later_op _ _ L), (later_info _ _ L) in Hop.
    destruct (D2 e h Hin Hop) as (h' & Hh & [K W V]); [destruct L; lia|].
    exists h'. split; [done|]. destruct L. split; simpl in *; done || lia.
  - intros e' He Hf' Hw Hb. destruct (HE e' He) as (e & Hin & L).
    rewrite (later_info _ _ L) in Hw. rewrite (later_op _ _ L).
    assert (ev_baseDone e = false) as Hb0.
    { destruct (ev_baseDone e) eqn:Hd; [|done]. by rewrite (later_base _ _ L Hd) in Hb. }
    destruct (D3 e Hin Hf' Hw Hb0) as [H1 H2]. destruct L.
    split; intros Hm; [specialize (H1 Hm)|specialize (H2 Hm)]; lia.
  - intros e' r He. destruct (HE e' He) as (e & Hin & L).
    rewrite (later_op _ _ L), (later_info _ _ L). intros H1 H2 H3 H4.
    specialize (D4 e r Hin H1 H2 H3 H4). destruct L. lia.
  - intros e' He. destruct (HE e' He) as (e & Hin & L). rewrite (later_info _ _ L).
    intros H1 H2 H3. specialize (D5 e Hin H1 H2 H3). destruct L. lia.
  - intros e' He. destruct (HE e' He) as (e & Hin & L). rewrite (later_info _ _ L).
    intros H1. specialize (D6 e Hin H1). destruct L. lia.
  - intros v id r e' Hin He. rewrite Hc in Hin. destruct Hf as (g & Hg & Hp).
    rewrite Hp, list_lookup_fmap in He. destruct (past m !! id) as [e|] eqn:Hid; [|done].
    injection He as <-. pose proof (Hg e ltac:(by eapply list_elem_of_lookup_2)) as [Eo Ei Ea _ _ _ _ _].
    destruct (D7 v id r e Hin Hid) as (V1 & V2 & V3). unfold valueCovered. rewrite Eo, Ei.
    split_and!.
    + intros m0 Hm Hi. specialize (V1 m0 Hm Hi). lia.
    + intros Hm. specialize (V2 Hm). lia.
    + intros Hm Hl Hr. specialize (V3 Hm Hl Hr). lia.
  - intros Hlw. destruct (D8 Hlw); [left|right]; lia.
  - intros a' Hn Ha. destruct (Hdr a' Ha) as (a & Hda & ?). specialize (D9 a Hn Hda). lia.
Qed.

Lemma waits_later m m' :
  waits m m' -> laterMachine m m' /\ (machineOk m -> machineOk m').
Proof using Type.
  induction 1 as [m|m n m' Hn _ [IH1 IH2]|m m1 m' Ha _ [IH1 IH2]]; [done|..].
  - split.
    + etransitivity; [|exact IH1]. by apply ageMachine_later.
    + intros Hm. by apply IH2, ageMachine_ok.
  - destruct Ha as [m n Hn]. split.
    + etransitivity; [|exact IH1]. split; simpl; [|done|eauto with lia|lia].
      exists id. by rewrite list_fmap_id.
    + intros [M1 M2 M3 M4]. apply IH2. split; simpl; try done. lia.
Qed.


(** ** Edges *)

Lemma propagatePairs_spec l : forall st, gapWf st ->
  let st' := fold_left (fun st '(source, target) =>
    mergeValueHazards target (lookupValueHazards st source) st) l st in
  gapWf st' /\ hle st st' /\ forall source target, (source, target) ∈ l ->
    vhLe (hazardsAt (values st) (value_id source)) (hazardsAt (values st') (value_id target)).
Proof using Type.
  induction l as [|[s t] l IH]; intros st Hst; cbn zeta.
  { split_and!; [done|done|]. by intros ? ? ?%elem_of_nil. }
  simpl. set (st1 := mergeValueHazards t (lookupValueHazards st s) st).
  destruct (mergeValueHazards_grows cfg t (lookupValueHazards st s)) as [G K].
  { apply (ok_values _ (gwf_ok _ _ Hst)). }
  destruct (G st Hst) as [W1 L1]. destruct (IH st1 W1) as (W2 & L2 & V2).
  split_and!; [done|by etransitivity|]. intros source target [[= -> ->]|Hin]%elem_of_cons.
  - etransitivity; [|apply L2]. apply (K st Hst).
  - etransitivity; [apply L1|by apply V2].
Qed.

Lemma assign_later pairs m v id r :
  (id, r) ∈ content (assign pairs m) v ->
  (id, r) ∈ content m v \/
  exists source target, (source, target) ∈ pairs /\ value_id target = v /\
    (id, r) ∈ content m (value_id source).
Proof using Type.
  clear. unfold assign. simpl.
  destruct (base.filter (fun pair : Value * Value => value_id pair.2 = v) pairs)
    as [|q l] eqn:Hf; [by left|]. intros Hin. right.
  change ((id, r) ∈ (q :: l) ≫= fun pair => content m (value_id pair.1)) in Hin.
  rewrite <-Hf in Hin.
  apply list_elem_of_bind in Hin as ([source target] & Hin & Hs).
  apply list_elem_of_filter in Hs as [Hv Hs]. simpl in *. eauto.
Qed.

(** Values that are assigned at once are covered by the fold over the pairs. *)
Lemma assign_tracks l pairs st st' m :
  tracks st m -> gapWf st' -> hle st st' -> pairs ⊆ l ->
  (forall source target, (source, target) ∈ l ->
    vhLe (hazardsAt (values st) (value_id source)) (hazardsAt (values st') (value_id target))) ->
  tracks st' (assign pairs m).
Proof using Type.
  intros [W [M1 M2 M3 M4] D] W' L Hsub HV. split; [done|split; try done|].
  - intros v id r Hin. destruct (assign_later _ _ _ _ _ Hin) as [|(? & ? & _ & _ & ?)];
      by eapply M2.
  - destruct (describes_hle cfg _ _ _ L D) as [D1 D2 D3 D4 D5 D6 D7 D8 D9].
    split; try done. intros v id r e Hin He.
    destruct (assign_later _ _ _ _ _ Hin) as [Hc|(source & target & Hp & <- & Hc)];
      [by apply (D7 v id r e)|].
    destruct (desc_values _ _ _ D _ _ _ _ Hc He) as (V1 & V2 & V3).
    destruct (HV source target (Hsub _ Hp)) as [H1 H2 H3]. split_and!.
    + intros m0 Hm Hi. specialize (V1 m0 Hm Hi). lia.
    + intros Hm. specialize (V2 Hm). lia.
    + intros Hm Hl Hr. specialize (V3 Hm Hl Hr). lia.
Qed.

Lemma propagateBranch_spec slots arguments : forall st, gapWf st ->
  let st' := propagateBranchOperands slots arguments st in
  gapWf st' /\ hle st st' /\ forall operands, operands ∈ slots -> forall source target,
    (source, target) ∈ zip (omap id operands) arguments ->
    vhLe (hazardsAt (values st) (value_id source)) (hazardsAt (values st') (value_id target)).
Proof using Type.
  unfold propagateBranchOperands. induction slots as [|o slots IH]; intros st Hst; simpl.
  { split_and!; [done|done|]. by intros ? ?%elem_of_nil. }
  destruct (propagatePairs_spec (zip (omap id o) arguments) st Hst) as (W1 & L1 & V1).
  destruct (IH _ W1) as (W2 & L2 & V2). unfold propagateValueHazards in *.
  split_and!; [done|by etransitivity|].
  intros operands [->|Hin]%elem_of_cons source target Hp.
  - etransitivity; [by apply V1|apply L2].
  - etransitivity; [apply L1|by eapply V2].
Qed.

(** The state that crosses an edge knows the hardware behind it. *)
Lemma crosses_tracks kind st m m' :
  crosses kind m m' -> tracks st m -> tracks (edgeState kind st) m'.
Proof using Type.
  intros Hc Ht. pose proof Ht as [W M D].
  destruct Hc as [slots arguments operands m Ho|fromParent branch sources inputs n m Hn Hp]; simpl.
  - destruct (propagateBranch_spec slots arguments st W) as (W1 & L1 & V1).
    by apply (assign_tracks (zip (omap id operands) arguments) _ st); [..|by apply V1].
  - unfold visitRegionBranch. set (st1 := if _ && _ then _ else st).
    assert (tracks st1 (ageMachine n 0 0 m)) as Ht1.
    { unfold st1. destruct (fromParent && negb (emitsNoMachineInst branch)) eqn:Hb.
      - apply andb_true_iff in Hb as [Hf He%negb_true_iff]. specialize (Hp Hf He).
        replace (ageMachine n 0 0 m) with (ageMachine (n - 1) 0 0 (ageMachine 1 0 0 m))
          by (rewrite ageMachine_compose; f_equal; lia).
        assert (gapWf (advanceHazards 1 false st)) by by apply advanceHazards_wf.
        split; [done|repeat apply ageMachine_ok; done || lia|].
        apply describes_older; try done; [lia|]. by apply describes_slots.
      - split; [done|by apply ageMachine_ok|]. by apply describes_older. }
    destruct (propagatePairs_spec (zip sources inputs) st1 (tracks_wf _ _ _ Ht1)) as (W1 & L1 & V1).
    by apply (assign_tracks (zip sources inputs) _ st1).
Qed.

Lemma edgeState_wf kind st : gapWf st -> gapWf (edgeState kind st).
Proof using Type.
  intros Hst. destruct kind as [slots arguments|fromParent branch sources inputs]; simpl.
  - by apply propagateBranch_spec.
  - unfold visitRegionBranch, propagateRegionOperands, propagateValueHazards.
    apply propagatePairs_spec. case_match; [by apply advanceHazards_wf|done].
Qed.

Lemma transferHazards_wf op info st st' :
  infoOk cfg op info -> gapWf st -> transferHazards cfg op info st = Ok st' -> gapWf st'.
Proof using Hcfg.
  intros Hi Hst Ht. destruct (info_controlFlow info) eqn:Hcf.
  - unfold transferHazards in Ht. rewrite Hcf in Ht. injection Ht as <-. by eapply ageHazards_wf.
  - eapply (transferHazards_sound cfg Hcfg op info st st' initialGapMachine); try done;
      [apply initial_machineOk|by apply initial_describes].
Qed.

(** ** The states of the solver *)

Context (f : GapFunction) (Hf : functionOk f).

Lemma visits_wf states p next :
  (forall q, gapWf (states q)) -> visits cfg f states p next -> gapWf next.
Proof using Hcfg Hf.
  intros Hs Hv. destruct Hv as [b i op info next Hop _ Hi Ht|e He]; [|by apply edgeState_wf].
  eapply transferHazards_wf; [|apply Hs|exact Ht]. eapply getHazardOpInfo_ok; [|exact Hi].
  by eapply fok_ops.
Qed.

Lemma computed_wf states : computed cfg f states -> forall p, gapWf (states p).
Proof using Hcfg Hf.
  induction 1 as [|states p next _ IH Hv]; intros q; [by apply emptyHazardState_wf|].
  unfold updateState. case_decide as Hq; [|apply IH]. subst q.
  apply joinWith_wf; [apply IH|by eapply visits_wf].
Qed.

Section Solved.
Context (states : States) (Hsol : solved cfg f states).

Lemma state_wf p : gapWf (states p).
Proof using Hcfg Hf Hsol. apply computed_wf, Hsol. Qed.

Lemma visit_le p next : visits cfg f states p next -> hle next (states p).
Proof using Hcfg Hf Hsol.
  intros Hv. pose proof (solved_fixed _ _ _ Hsol p next Hv) as Hc.
  pose proof (state_wf p) as [Ok1 _ _ _ _ _ _ _ _ _].
  pose proof (visits_wf states p next state_wf Hv) as [Ok2 _ _ _ _ _ _ _ _ _].
  by apply (joinWith_spec _ _ Ok1 Ok2).
Qed.

Lemma tracks_le st st' m : tracks st m -> gapWf st' -> hle st st' -> tracks st' m.
Proof using Type. intros [W M D] W' L. split; [done|done|by eapply describes_hle]. Qed.

Lemma tracks_visit p next m : visits cfg f states p next -> tracks next m -> tracks (states p) m.
Proof using Hcfg Hf Hsol.
  intros Hv Ht. apply (tracks_le next); [done|apply state_wf|by apply visit_le].
Qed.

Lemma tracks_later st m m' : laterMachine m m' -> machineOk m' -> tracks st m -> tracks st m'.
Proof using Type. intros Hl Hm [W _ D]. split; [done|done|by eapply describes_later]. Qed.

Lemma opInfo_ok block index op info :
  opAt f block index = Some op -> getHazardOpInfo op cfg = Ok info -> infoOk cfg op info.
Proof using Hf. intros Hop Hi. eapply getHazardOpInfo_ok; [|exact Hi]. by eapply fok_ops. Qed.

(** ** The states of the rewrite *)

Context (sti : MCSubtargetInfo) (rewritten : list (list (list Inserted))).
Context (Hrewrite : rewriteFunction cfg f sti states = Ok rewritten).

(** [locals k] is the state that [rewriteBlock] has before operation [k]. *)
Definition isLocals (block : nat) (ops : list GapOp) (locals : nat -> HazardState) : Prop :=
  locals 0%nat = states (Entry block) /\
  forall k op, ops !! k = Some op -> exists inserted,
    insertedAt rewritten block k = Some inserted /\
    rewriteOp cfg sti op (Some (states (After block k))) (locals k)
      = Ok (inserted, locals (S k)).

Lemma rewriteOps_locals post ops : forall i st inserted st',
  rewriteOps cfg sti i ops post st = Ok (inserted, st') ->
  exists locals : nat -> HazardState, locals 0%nat = st /\
    forall k op, ops !! k = Some op -> exists l, inserted !! k = Some l /\
      rewriteOp cfg sti op (post (i + k)%nat) (locals k) = Ok (l, locals (S k)).
Proof using Type.
  induction ops as [|op ops IH]; intros i st inserted st' Hr.
  { exists (fun _ => st). split; [done|]. by intros k op. }
  simpl in Hr. apply outcome_bind_Ok in Hr as ([l st1] & H1 & Hr).
  apply outcome_bind_Ok in Hr as ([rest st2] & H2 & [= <- <-]).
  destruct (IH _ _ _ _ H2) as (locals & L0 & L).
  exists (fun k => match k with O => st | S k => locals k end). split; [done|].
  intros [|k] o Ho; simpl in Ho.
  - injection Ho as <-. exists l. split; [done|]. by rewrite Nat.add_0_r, L0.
  - destruct (L k o Ho) as (l' & Hl & Hk). exists l'. split; [done|].
    by rewrite Nat.add_succ_r.
Qed.

Lemma rewriteBlocks_at blocks : forall i out b ops,
  rewriteBlocks cfg sti states i blocks = Ok out -> blocks !! b = Some ops ->
  exists inserted st', out !! b = Some inserted /\
    rewriteOps cfg sti 0 ops (fun index => Some (states (After (i + b) index)))
      (states (Entry (i + b))) = Ok (inserted, st').
Proof using Type.
  induction blocks as [|ops blocks IH]; intros i out b o Hr Hb; [done|].
  simpl in Hr. apply outcome_bind_Ok in Hr as (inserted & H1 & Hr).
  apply outcome_bind_Ok in Hr as (rest & H2 & [= <-]).
  destruct b as [|b]; simpl in Hb.
  - injection Hb as <-. unfold rewriteBlock in H1. simpl in H1.
    apply outcome_bind_Ok in H1 as ([l st'] & H1 & [= <-]).
    exists l, st'. by rewrite Nat.add_0_r.
  - destruct (IH _ _ _ _ H2 Hb) as (l & st' & Hl & H3). exists l, st'.
    by rewrite Nat.add_succ_r.
Qed.

Lemma locals_exist block ops :
  f_blocks f !! block = Some ops -> exists locals, isLocals block ops locals.
Proof using Hrewrite.
  intros Hb. destruct (rewriteBlocks_at _ _ _ _ _ Hrewrite Hb) as (inserted & st' & Hin & Hr).
  simpl in Hr. destruct (rewriteOps_locals _ _ _ _ _ _ Hr) as (locals & L0 & L).
  exists locals. split; [done|]. intros k op Hop. destruct (L k op Hop) as (l & Hl & Hk).
  exists l. split; [|done]. unfold insertedAt. by rewrite Hin.
Qed.

(** What is known at a point: by the solver, and by the rewrite of the block. *)
Definition known (p : Point) (m : GapMachine) : Prop :=
  tracks (states p) m /\
  forall block ops locals index, f_blocks f !! block = Some ops -> isLocals block ops locals ->
    pointBefore block index = p -> (index <= length ops)%nat -> tracks (locals index) m.

Lemma known_later p m m' : laterMachine m m' -> machineOk m' -> known p m -> known p m'.
Proof using Type.
  intros Hl Hm [K1 K2]. split; [by eapply tracks_later|].
  intros b ops locals i Hb HL Hp Hi. eapply tracks_later; [done..|by eapply K2].
Qed.

(** Before an operation that is no control flow, the local state is known. *)
Lemma known_local block index op m :
  opAt f block index = Some op -> known (pointBefore block index) m ->
  exists locals inserted, insertedAt rewritten block index = Some inserted /\
    tracks (locals index) m /\
    rewriteOp cfg sti op (Some (states (After block index))) (locals index)
      = Ok (inserted, locals (S index)) /\
    forall locals' ops, f_blocks f !! block = Some ops -> isLocals block ops locals' ->
      forall k, (k <= length ops)%nat -> locals' k = locals k.
Proof using Hrewrite.
  intros Hop [_ K]. unfold opAt in Hop. destruct (f_blocks f !! block) as [ops|] eqn:Hb; [|done].
  simpl in Hop. destruct (locals_exist block ops Hb) as (locals & HL).
  destruct (proj2 HL index op Hop) as (l & Hl & Hr). exists locals, l.
  split; [done|]. split; [|split; [done|]].
  - eapply K; [done|done|done|]. apply lookup_lt_Some in Hop. lia.
  - intros locals' ops' [= <-] HL' k. induction k as [|k IH]; intros Hk.
    + by rewrite (proj1 HL'), (proj1 HL).
    + destruct (lookup_lt_is_Some_2 ops k) as [o Ho]; [lia|].
      destruct (proj2 HL' k o Ho) as (l1 & _ & R1), (proj2 HL k o Ho) as (l2 & _ & R2).
      rewrite IH in R1 by lia. rewrite R1 in R2. by injection R2.
Qed.

Lemma pointBefore_after block index block' index' :
  pointBefore block index = After block' index' -> block = block' /\ index = S index'.
Proof using Type. clear. destruct index as [|i]; simpl; [done|]. by intros [= -> ->]. Qed.

(** What the rewrite knows after an operation that it has rewritten. *)
Lemma known_next block index op m :
  opAt f block index = Some op -> tracks (states (After block index)) m ->
  (forall ops locals inserted, f_blocks f !! block = Some ops -> isLocals block ops locals ->
     insertedAt rewritten block index = Some inserted ->
     rewriteOp cfg sti op (Some (states (After block index))) (locals index)
       = Ok (inserted, locals (S index)) -> tracks (locals (S index)) m) ->
  known (After block index) m.
Proof using Type.
  intros Hop Ht Hl. split; [done|]. intros b ops locals i Hb HL Hp Hi.
  apply pointBefore_after in Hp as [-> ->]. unfold opAt in Hop. rewrite Hb in Hop. simpl in Hop.
  destruct (proj2 HL index op Hop) as (l & Hins & Hr). by eapply Hl.
Qed.

Lemma rewriteOp_control op st inserted st' st0 :
  g_controlFlow op = true -> rewriteOp cfg sti op (Some st) st0 = Ok (inserted, st') -> st' = st.
Proof using Type. intros Hc. unfold rewriteOp. rewrite Hc. by intros [= _ <-]. Qed.

Lemma operation_runs block index op info inserted m m' :
  known (pointBefore block index) m -> opAt f block index = Some op ->
  g_controlFlow op = false -> getHazardOpInfo op cfg = Ok info ->
  insertedAt rewritten block index = Some inserted -> waits (issueAll inserted m) m' ->
  hazardFree cfg op info m' /\ known (After block index) (issue cfg op info m').
Proof using Hcfg Hf Hsol Hrewrite.
  intros HK Hop Hcf Hinfo Hins Hw. pose proof (opInfo_ok _ _ _ _ Hop Hinfo) as Hi.
  assert (info_controlFlow info = false) as Hcf' by by rewrite (info_flow _ _ _ Hi).
  destruct (known_local _ _ _ _ Hop HK) as (locals & l & Hl & Ht & Hr & Huniq).
  assert (l = inserted) as -> by congruence.
  destruct (rewriteOp_sound cfg Hcfg sti op info _ _ _ _ m (fok_ops _ Hf _ _ _ Hop) Hinfo Hcf'
    Ht Hr) as (Hfree & Hlater & Hok & st1 & Ht1 & Htr).
  destruct (waits_later _ _ Hw) as [Hl' Hok']. specialize (Hok' Hok).
  pose proof (transitivity Hlater Hl') as Hl2. split.
  { destruct Hfree as [F1 F2 F3 F4 F5].
    split; [by apply (freeRegisters_later _ _ _ _ _ Hl')|by apply (freeValues_later _ _ _ _ _ Hl')
      |by apply (freeCoexec_later _ _ _ _ _ Hl')| |by apply (freeLgkm_later _ _ _ _ Hl')].
    intros e' He Hrule. destruct (later_event _ _ _ Hl' He) as (e & Hin & HLe).
    specialize (F4 e Hin (scratchRule_later cfg _ _ _ HLe Hrule)). destruct HLe. lia. }
  assert (isRegionBranch op = false) as Hrb by (unfold isRegionBranch; by rewrite Hcf).
  apply (known_next block index op); [done|..].
  - destruct (solved_transfer _ _ _ Hsol _ _ _ Hop Hrb) as (info' & next & Hi' & Hnext).
    assert (info' = info) as -> by congruence.
    apply (tracks_visit _ next); [by eapply visit_operation|].
    pose proof (tracks_later _ m m' Hl2 Hok' (proj1 HK)) as [W M D].
    by destruct (transferHazards_sound cfg Hcfg op info _ next m' Hi Hcf' W M D Hnext)
      as (? & ? & ?).
  - intros ops locals' l' Hb HL' _ Hr'.
    assert (index < length ops)%nat as Hlen.
    { unfold opAt in Hop. rewrite Hb in Hop. by eapply lookup_lt_Some. }
    rewrite (Huniq locals' ops Hb HL' (S index)) by lia.
    destruct (tracks_later st1 _ m' Hl' Hok' Ht1) as [W M D].
    by destruct (transferHazards_sound cfg Hcfg op info st1 _ m' Hi Hcf' W M D Htr)
      as (? & ? & ?).
Qed.

Lemma control_runs block index op info m :
  known (pointBefore block index) m -> opAt f block index = Some op ->
  g_controlFlow op = true -> isRegionBranch op = false -> getHazardOpInfo op cfg = Ok info ->
  known (After block index) (passTime info m).
Proof using Hcfg Hf Hsol.
  intros HK Hop Hcf Hrb Hinfo. pose proof (opInfo_ok _ _ _ _ Hop Hinfo) as Hi.
  assert (tracks (states (After block index)) (passTime info m)) as Ht.
  { destruct (solved_transfer _ _ _ Hsol _ _ _ Hop Hrb) as (info' & next & Hi' & Hnext).
    assert (info' = info) as -> by congruence.
    apply (tracks_visit _ next); [by eapply visit_operation|].
    unfold transferHazards in Hnext. rewrite (info_flow _ _ _ Hi), Hcf in Hnext.
    injection Hnext as <-. destruct HK as [[W M D] _].
    split; [by eapply ageHazards_wf|by eapply passTime_ok|by eapply describes_passTime]. }
  apply (known_next block index op); [done|done|].
  intros ops locals l _ _ _ Hr. by rewrite (rewriteOp_control _ _ _ _ _ Hcf Hr).
Qed.

Lemma edge_runs e m m' :
  known (edge_from e) m -> e ∈ f_edges f -> crosses (edge_kind e) m m' -> known (edge_to e) m'.
Proof using Hcfg Hf Hsol.
  intros [K _] He Hc.
  assert (tracks (states (edge_to e)) m') as Ht.
  { eapply tracks_visit; [by apply visit_edge|by eapply crosses_tracks]. }
  pose proof (fok_edges _ Hf e He) as Hok. unfold edgeOk in Hok.
  destruct (edge_to e) as [block|block index].
  - split; [done|]. intros b ops locals i _ HL Hp _.
    destruct i as [|i]; simpl in Hp; [|done]. injection Hp as ->. by rewrite (proj1 HL).
  - destruct Hok as (op & Hop & Hrb). unfold isRegionBranch in Hrb.
    apply andb_true_iff in Hrb as [Hcf _]. apply (known_next block index op); [done|done|].
    intros ops locals l _ _ _ Hr. by rewrite (rewriteOp_control _ _ _ _ _ Hcf Hr).
Qed.

Lemma runs_known p m : runs cfg f rewritten p m -> known p m.
Proof using Hcfg Hf Hsol Hrewrite.
  induction 1 as [|p m m' _ IH Hw|b i op info inserted m m' _ IH Hop Hcf Hinfo Hins Hw
    |b i op info m _ IH Hop Hcf Hrb Hinfo|e m m' He _ IH Hc].
  - assert (tracks (states (Entry 0)) initialGapMachine) as Ht.
    { split; [apply state_wf|apply initial_machineOk|apply initial_describes, state_wf]. }
    split; [done|]. intros b ops locals i _ HL Hp _.
    destruct i as [|i]; simpl in Hp; [|done]. injection Hp as ->. by rewrite (proj1 HL).
  - destruct (waits_later _ _ Hw) as [Hl Hok]. eapply known_later; [done| |done].
    apply Hok. apply IH.
  - apply (operation_runs _ _ _ _ _ _ _ IH Hop Hcf Hinfo Hins Hw).
  - by eapply control_runs.
  - by eapply edge_runs.
Qed.
End Solved.
End Sound.

(** C3: no operation of the rewritten function issues inside a hazard window:
    wherever the rounds of the solver have come to rest, whatever path a run of
    the rewritten function takes and however long it stalls and memory takes,
    when the instructions that the pass inserted before an operation have
    issued, every wait state that the hardware asks for between the operation
    and those before it has passed. *)
Theorem rewritten_function_has_no_hazard `{LLVMTarget} `{GapLLVM} sti wavefrontSize cfg f states
    rewritten block index op info inserted m m'
    (Hdecode : forall isa x, small (decodeLgkmcnt isa x))
    (Hcfg : makeHazardConfig sti wavefrontSize = Ok cfg)
    (Hf : functionOk f)
    (Hsolved : solved cfg f states)
    (Hrewrite : rewriteFunction cfg f sti states = Ok rewritten)
    (Hrun : runs cfg f rewritten (pointBefore block index) m)
    (Hop : opAt f block index = Some op)
    (Hflow : g_controlFlow op = false)
    (Hinfo : getHazardOpInfo op cfg = Ok info)
    (Hinserted : insertedAt rewritten block index = Some inserted)
    (Hwaits : waits (issueAll inserted m) m') :
  hazardFree cfg op info m'.
Proof.
  pose proof (makeHazardConfig_ok _ _ _ Hdecode Hcfg) as Hok.
  pose proof (runs_known cfg Hok f Hf states Hsolved sti rewritten Hrewrite _ _ Hrun) as HK.
  by eapply (proj1 (operation_runs cfg Hok f Hf states Hsolved sti rewritten Hrewrite
    _ _ _ _ _ _ _ HK Hop Hflow Hinfo Hinserted Hwaits)).
Qed.
