(* ===== verification/GapSpec.v ===== *)
(** * What the hazard pass promises

    Beyond the absence of hazards ([rewritten_function_has_no_hazard]): the
    join, the invariant that the assertions of the code state, that the rewrite
    does not fail, that it waits no longer than it must, that its instructions
    encode what they should, and that the repair pass predicts it.  The first
    part is about the least waits: [n] wait states make the required wait [n]
    shorter, and never longer than that. *)

From stdpp Require Import base tactics list gmap numbers strings sets.
From S2P Require Import Prelude CostEnums ArchData MachineIR LatencyTable OpClassifier.
From S2P Require Import ExecState TicketIR GapIR GapState GapTransfer GapLattice.
From S2P Require Import GapMachine GapGrow GapSound GapStep.
From S2P Require Import GapFree GapProgram.

(** ** Maxima of what ages *)

Lemma maxOf_cons x l : maxOf (x :: l) = Z.max (Z.max 0 x) (maxOf l).
Proof.
  apply Z.le_antisymm.
  - apply maxOf_least; [lia|]. intros y [->|Hy]%elem_of_cons; [lia|].
    pose proof (maxOf_ub y l Hy). lia.
  - pose proof (maxOf_ub x (x :: l) (list_elem_of_here _ _)).
    pose proof (maxOf_nonneg (x :: l)).
    assert (maxOf l <= maxOf (x :: l)); [|lia]. apply maxOf_least; [done|].
    intros y Hy. by apply maxOf_ub, list_elem_of_further.
Qed.

(** [aged n x y]: what is missing goes from [x] to [y] in [n] wait states. *)
Definition aged (n x y : Z) : Prop := y = Z.max 0 (x - n).

Lemma aged_max n a b a' b' :
  0 <= n -> aged n a a' -> aged n b b' -> aged n (Z.max a b) (Z.max a' b').
Proof. unfold aged. lia. Qed.

Lemma aged_zero n : 0 <= n -> aged n 0 0.
Proof. unfold aged. lia. Qed.

Lemma aged_maxOf {A} n (g g' : A -> Z) l :
  0 <= n -> (forall x, x ∈ l -> aged n (g x) (g' x)) ->
  aged n (maxOf (g <$> l)) (maxOf (g' <$> l)).
Proof.
  intros Hn. induction l as [|x l IH]; intros Hl; csimpl; [by apply aged_zero|].
  rewrite !maxOf_cons. repeat apply aged_max; try done; [by apply aged_zero| |].
  - apply Hl, list_elem_of_here.
  - apply IH. intros y Hy. by apply Hl, list_elem_of_further.
Qed.

Lemma aged_maxOf_imap {A} n (g g' : nat -> A -> Z) l :
  0 <= n -> (forall i x, x ∈ l -> aged n (g i x) (g' i x)) ->
  aged n (maxOf (imap g l)) (maxOf (imap g' l)).
Proof.
  intros Hn. revert g g'. induction l as [|x l IH]; intros g g' Hl; [by apply aged_zero|].
  rewrite !imap_cons, !maxOf_cons. repeat apply aged_max; try done; [by apply aged_zero| |].
  - apply Hl, list_elem_of_here.
  - apply IH. intros i y Hy. by apply Hl, list_elem_of_further.
Qed.

(** A list whose elements age and drop out when nothing is left of them. *)
Lemma aged_omap {A} n (w : A -> Z) (f : A -> option A) l :
  0 <= n ->
  (forall h, h ∈ l -> aged n (w h) (match f h with Some h' => w h' | None => 0 end)) ->
  aged n (maxOf (w <$> l)) (maxOf (w <$> omap f l)).
Proof.
  intros Hn. induction l as [|h l IH]; intros Hw; [by apply aged_zero|].
  pose proof (Hw h (list_elem_of_here _ _)) as Ha.
  assert (aged n (maxOf (w <$> l)) (maxOf (w <$> omap f l))) as IH'.
  { apply IH. intros x Hx. by apply Hw, list_elem_of_further. }
  csimpl. rewrite maxOf_cons. destruct (f h) as [h'|]; csimpl.
  - rewrite maxOf_cons. repeat apply aged_max; try done. by apply aged_zero.
  - unfold aged in *. lia.
Qed.

Section Exact.
Context `{LLVMTarget} `{GapLLVM} (cfg : HazardConfig) (Hcfg : configOk cfg).
Abbreviation gapWf := (gapWf cfg).
Implicit Types op : GapOp.

(** ** Hazards of registers *)

Definition withRemaining (h : PhysicalHazard) (r : Z) : PhysicalHazard :=
  mkPhysical (ph_span h) (ph_kind h) (ph_limit h) r (ph_mfmaPasses h).

(** A wait that depends on the age of the hazard as [waitForHazardAge] does,
    for an age that the hazard reaches. *)
Definition agesWith (w : PhysicalHazard -> Z) (h : PhysicalHazard) : Prop :=
  exists required, required <= ph_limit h /\
    forall r, w (withRemaining h r) = waitForHazardAge (withRemaining h r) required.

Lemma agesWith_zero h : hazardWf cfg h -> agesWith (fun _ => 0) h.
Proof using Type.
  intros [Hr _ _ _]. exists 0. split; [lia|]. intros r. unfold waitForHazardAge. simpl.
  pose proof (u32_nonneg (ph_limit h - r)). case_match eqn:Hlt; [|done].
  apply Z.ltb_lt in Hlt. lia.
Qed.

Lemma agesWith_const h required :
  required <= ph_limit h -> agesWith (fun h => waitForHazardAge h required) h.
Proof using Type. intros Hr. by exists required. Qed.

Lemma agesWith_aged n h w :
  0 <= n -> hazardWf cfg h -> agesWith w h ->
  aged n (w h) (match agePhysical n h with Some h' => w h' | None => 0 end).
Proof using Type.
  intros Hn Hwf (req & Hreq & Hw). pose proof Hwf as [Hr Hs Hl Hp].
  assert (w h = waitForHazardAge h req) as Hwh.
  { specialize (Hw (ph_remaining h)). by destruct h. }
  rewrite (waitForHazardAge_spec cfg) in Hwh by done. unfold agePhysical.
  rewrite age_spec by lia. destruct (Z.eqb_spec (Z.max 0 (ph_remaining h - n)) 0) as [Hz|Hz].
  { unfold aged. lia. }
  fold (withRemaining h (Z.max 0 (ph_remaining h - n))). rewrite Hw.
  rewrite (waitForHazardAge_spec cfg) by (split; simpl; try done; lia).
  unfold aged. simpl. lia.
Qed.

Lemma aged_hazards n w l :
  0 <= n -> Forall (hazardWf cfg) l -> (forall h, h ∈ l -> agesWith w h) ->
  aged n (maxOf (w <$> l)) (maxOf (w <$> omap (agePhysical n) l)).
Proof using Type.
  intros Hn Hwf Hw. rewrite Forall_forall in Hwf. apply aged_omap; [done|].
  intros h Hh. apply agesWith_aged; auto.
Qed.

Lemma firstWait_zero_r x : firstWait x 0 = x.
Proof using Type. unfold firstWait. case_match eqn:E; [by apply Z.eqb_eq in E|done]. Qed.

(** The limit of a kind is as long as any rule of it. *)
Lemma limit_of h l :
  hazardWf cfg h -> limitOf cfg (ph_kind h) (ph_mfmaPasses h) = Some l -> ph_limit h = l.
Proof using Type. intros Hw. apply (wf_limit _ _ Hw). Qed.

Lemma mfma_limit h :
  hazardWf cfg h -> ph_kind h = PhysicalHazardKind.MfmaWrite ->
  getXdlResultLatency cfg (ph_mfmaPasses h) <= ph_limit h /\
  getXdlSrcCExactLatency cfg (ph_mfmaPasses h) <= ph_limit h /\
  getXdlSrcCOverlapLatency cfg (ph_mfmaPasses h) <= ph_limit h.
Proof using Type.
  intros Hw Hk. rewrite (limit_of h _ Hw) by (by rewrite Hk).
  pose proof (wf_passes _ _ Hw) as Hp. rewrite Hk in Hp.
  destruct (latency_le cfg _ Hp). lia.
Qed.

Lemma agesWith_ext w w' h :
  (forall r, w (withRemaining h r) = w' (withRemaining h r)) -> agesWith w' h -> agesWith w h.
Proof using Type. intros He (req & Hr & Hw). exists req. split; [done|]. intros r. by rewrite He. Qed.

Lemma agesWith_if (b : bool) w1 w2 h :
  agesWith w1 h -> agesWith w2 h -> agesWith (fun h => if b then w1 h else w2 h) h.
Proof using Type. by destruct b. Qed.

Lemma agesWith_passes f h :
  f (ph_mfmaPasses h) <= ph_limit h ->
  agesWith (fun h => waitForHazardAge h (f (ph_mfmaPasses h))) h.
Proof using Type. intros Hf. exists (f (ph_mfmaPasses h)). split; [done|by intros r]. Qed.

(** For a kind of hazard, each of the functions is one of a few. *)
Lemma useWait_ages info i use h :
  hazardWf cfg h -> agesWith (getPhysicalUseWait cfg info i use) h.
Proof using Type.
  intros Hwf. pose proof (agesWith_zero h Hwf) as Hz.
  pose proof (limit_of h) as Hlim. specialize (fun l => Hlim l Hwf).
  pose proof (mfma_limit h Hwf) as Hm.
  destruct (overlaps use (ph_span h)) eqn:Ho; cycle 1.
  { eapply agesWith_ext; [|exact Hz]. intros r. unfold getPhysicalUseWait. simpl. by rewrite Ho. }
  set (w k x := match k with
     | PhysicalHazardKind.MfmaWrite =>
         if mfma info then
           if negb (i =? 2)%nat then waitForHazardAge x (getXdlResultLatency cfg (ph_mfmaPasses x))
           else if decide (use = ph_span h)
           then waitForHazardAge x (getXdlSrcCExactLatency cfg (ph_mfmaPasses x))
           else waitForHazardAge x (getXdlSrcCOverlapLatency cfg (ph_mfmaPasses x))
         else if xdlResultConsumer info
         then waitForHazardAge x (getXdlResultLatency cfg (ph_mfmaPasses x)) else 0
     | PhysicalHazardKind.MfmaSrcCRead | PhysicalHazardKind.StoreWriteData => 0
     | PhysicalHazardKind.TransWriteVGPR =>
         if mfma info then 0
         else if negb (isVGPRSpan use) || negb (legacyValu info) || trans info then 0
         else waitForHazardAge x (transForwardingWaitStates cfg)
     | PhysicalHazardKind.DstSelWriteVGPR =>
         if negb (isVGPRSpan use) || negb (valu info) then 0
         else waitForHazardAge x (dstSelForwardingWaitStates cfg)
     | PhysicalHazardKind.ValuWriteVGPR =>
         if mfma info then waitForHazardAge x (valuWriteVGPRMfmaLatency cfg)
         else if readFirstLane info then waitForHazardAge x (valuWriteVGPRReadlaneLatency cfg)
         else if permlane32Swap info
         then waitForHazardAge x (valuWriteVGPRPermlane32SwapLatency cfg) else 0
     | PhysicalHazardKind.ValuWriteSGPR =>
         if mfma info then 0
         else if negb (isSGPRSpan use) then 0
         else if vmem info then waitForHazardAge x (valuWriteSGPRVmemReadLatency cfg)
         else if legacyValu info then waitForHazardAge x (valuWriteSGPRValuReadLatency cfg) else 0
     end).
  apply (agesWith_ext _ (w (ph_kind h))).
  { intros r. unfold getPhysicalUseWait, getDstSelForwardingWait, getMfmaUseWait,
      getNonMfmaUseWait, getTransForwardingUseWait, getValuWriteSGPRUseWait, w.
    simpl. rewrite Ho. simpl. unfold getHazardMfmaPassCount. simpl.
    destruct (ph_kind h); simpl; try (by repeat case_match); repeat case_match; simpl;
      rewrite ?firstWait_zero_r; try done. }
  unfold w. destruct (ph_kind h) eqn:Hk; simpl in *;
    repeat (apply agesWith_if || case_decide); try done;
    try (apply agesWith_const; rewrite (Hlim _ eq_refl);
         unfold getVGPRWriteHazardLimit, getSGPRWriteHazardLimit; lia);
    destruct (Hm eq_refl) as (M1 & M2 & M3);
    first [by apply (agesWith_passes (getXdlResultLatency cfg))
      |by apply (agesWith_passes (getXdlSrcCExactLatency cfg))
      |by apply (agesWith_passes (getXdlSrcCOverlapLatency cfg))].
Qed.

Lemma defWait_ages info def h :
  hazardWf cfg h -> agesWith (getPhysicalDefWait cfg info def) h.
Proof using Type.
  intros Hwf. pose proof (agesWith_zero h Hwf) as Hz.
  pose proof (limit_of h) as Hlim. specialize (fun l => Hlim l Hwf).
  pose proof (mfma_limit h Hwf) as Hm.
  destruct (overlaps def (ph_span h)) eqn:Ho; cycle 1.
  { eapply agesWith_ext; [|exact Hz]. intros r. unfold getPhysicalDefWait. simpl. by rewrite Ho. }
  set (w k h := match k with
     | PhysicalHazardKind.MfmaWrite =>
         if xdlResultConsumer info
         then waitForHazardAge h (getXdlResultLatency cfg (ph_mfmaPasses h)) else 0
     | PhysicalHazardKind.MfmaSrcCRead =>
         if legacyValu info || (info_ds info || vmem info)
         then waitForHazardAge h (getXdlSrcCReadWarLatency cfg (ph_mfmaPasses h)) else 0
     | PhysicalHazardKind.StoreWriteData =>
         if valu info && isVGPRSpan def then waitForHazardAge h (ph_limit h) else 0
     | PhysicalHazardKind.DstSelWriteVGPR =>
         if negb (isVGPRSpan def) || negb (valu info) then 0
         else waitForHazardAge h (dstSelForwardingWaitStates cfg)
     | _ => 0
     end).
  apply (agesWith_ext _ (w (ph_kind h))).
  { intros r. unfold getPhysicalDefWait, getDstSelForwardingWait, w.
    simpl. rewrite Ho. simpl. unfold getHazardMfmaPassCount. simpl.
    by destruct (ph_kind h); simpl; repeat case_match. }
  unfold w. destruct (ph_kind h) eqn:Hk; simpl in *; repeat apply agesWith_if; try done.
  - apply (agesWith_passes (getXdlResultLatency cfg)). by apply Hm.
  - apply (agesWith_passes (getXdlSrcCReadWarLatency cfg)). by rewrite (Hlim _ eq_refl).
  - apply agesWith_const. by rewrite (Hlim _ eq_refl).
  - exists (ph_limit h). by split.
Qed.

(** ** An operation *)

(** [n] wait states shorten what an operation waits for by as much. *)
Lemma slotWait_aged op info st n :
  0 <= n -> gapWf st ->
  aged n (slotStep cfg op info st).1 (slotStep cfg op info (advanceHazards n true st)).1.
Proof using Type.
  intros Hn Hst. unfold slotStep. simpl.
  destruct (advanceHazards_fields cfg n true st Hn Hst)
    as (F1 & F2 & F3 & F4 & F5 & F6 & F7 & F8 & F9). cbv zeta in *.
  set (st' := advanceHazards n true st) in *.
  pose proof Hst as [WO WP _ _ _ WC _ _ WV WE].
  assert (forall w, (forall h, hazardWf cfg h -> agesWith w h) ->
    aged n (maxOf (w <$> physical st)) (maxOf (w <$> physical st'))) as Hphys.
  { intros w Hw. rewrite F5. destruct (Z.eqb_spec n 0) as [->|].
    - pose proof (maxOf_nonneg (w <$> physical st)). unfold aged. lia.
    - apply aged_hazards; [done|done|]. intros h Hh. apply Hw.
      rewrite Forall_forall in WP. by apply WP. }
  apply aged_max; [done|..].
  - unfold getRequiredSsaWait. destruct (info_controlFlow info); [by apply aged_zero|].
    assert (forall l a a', aged n a a' ->
      aged n (fold_left (fun wait operand =>
          let hazards := lookupValueHazards st operand in
          let wait := if decide (value_type operand = M0Type)
                      then Z.max wait (vh_m0 hazards) else wait in
          let wait := if vmemStore info
                      then Z.max wait (vh_mfmaStore hazards) else wait in
          if permlane32Swap info
          then Z.max wait (vh_permlane32Swap hazards) else wait) l a)
        (fold_left (fun wait operand =>
          let hazards := lookupValueHazards st' operand in
          let wait := if decide (value_type operand = M0Type)
                      then Z.max wait (vh_m0 hazards) else wait in
          let wait := if vmemStore info
                      then Z.max wait (vh_mfmaStore hazards) else wait in
          if permlane32Swap info
          then Z.max wait (vh_permlane32Swap hazards) else wait) l a')) as Hfold.
    { induction l as [|v l IH]; intros a a' Ha; [done|]. simpl. apply IH.
      change (lookupValueHazards st v) with (hazardsAt (values st) (value_id v)).
      change (lookupValueHazards st' v) with (hazardsAt (values st') (value_id v)).
      rewrite F4. destruct (ok_values _ WO (value_id v)) as [V1 V2 V3]. simpl in *.
      unfold vh.advance, aged in *. simpl. rewrite !age_spec by done.
      case_decide; destruct (vmemStore info), (permlane32Swap info); lia. }
    apply Hfold. destruct (g_m0Value op); [|by apply aged_zero].
    unfold aged. by rewrite F3, age_spec.
  - unfold getRequiredPhysicalWait. destruct (info_controlFlow info); [by apply aged_zero|].
    repeat apply aged_max; try done.
    + destruct (execWriteConsumer info); [|by apply aged_zero].
      unfold aged. by rewrite F9, age_spec.
    + unfold getOperandPhysicalWait. apply aged_maxOf_imap; [done|]. intros i v _.
      destruct (getAllocatedRegSpan v); [|by apply aged_zero]. apply Hphys. intros h Hh.
      by apply useWait_ages.
    + apply aged_maxOf; [done|]. intros v _.
      destruct (getAllocatedRegSpan v); [|by apply aged_zero].
      apply Hphys. intros h Hh. by apply defWait_ages.
    + apply aged_maxOf; [done|]. intros def _. apply Hphys. intros h Hh. by apply defWait_ages.
    + unfold getVccReadWait. destruct (valu info); [|by apply aged_zero]. simpl.
      destruct (readsVcc op); [|by apply aged_zero]. unfold aged. by rewrite F8, age_spec.
Qed.

(** ** Co-execution *)

Lemma coexecValueWait_aged kind remaining n st value :
  0 <= n -> gapWf st -> remaining = ce_wmmaRemaining \/ remaining = ce_valuRemaining ->
  aged n (getCoexecValueWait kind remaining st value)
    (getCoexecValueWait kind remaining (advanceCoexecHazards n st) value).
Proof using Type.
  intros Hn Hst Hrem. unfold getCoexecValueWait.
  destruct (getAllocatedRegSpan value) as [span|]; [|by apply aged_zero].
  unfold advanceCoexecHazards. destruct (Z.eqb_spec n 0) as [->|Hn0].
  { unfold aged. match goal with |- ?x = _ => pose proof (maxOf_nonneg
      ((fun hazard => if bool_decide (ce_kind hazard = kind) && overlaps span (ce_span hazard)
        then remaining hazard else 0) <$> coexec st)) end. lia. }
  simpl. apply aged_omap; [done|]. intros h Hh.
  pose proof (gwf_coexec _ _ Hst) as Hwf. rewrite Forall_forall in Hwf.
  destruct (Hwf h Hh) as [W1 W2]. unfold ageCoexec, aged. rewrite !age_spec by done.
  destruct (_ && _) eqn:Hz; simpl.
  - apply andb_true_iff in Hz as [Z1 Z2]. apply Z.eqb_eq in Z1, Z2.
    case_match; [|lia]. destruct Hrem as [-> | ->]; lia.
  - case_match; [|lia]. destruct Hrem as [-> | ->]; simpl; lia.
Qed.

Lemma coexecVNops_aged op info st n vnops :
  0 <= n -> gapWf st -> getRequiredCoexecVNops cfg op info st = Ok vnops ->
  getRequiredCoexecVNops cfg op info (advanceCoexecHazards n st) = Ok (Z.max 0 (vnops - n)).
Proof using Type.
  intros Hn Hst Hv. unfold getRequiredCoexecVNops in *.
  destruct (info_controlFlow info); [injection Hv as <-; f_equal; lia|].
  apply outcome_bind_Ok in Hv as (w & Hw & [= <-]).
  assert (forall kind remaining l,
    remaining = ce_wmmaRemaining \/ remaining = ce_valuRemaining ->
    aged n (getCoexecValuesWait kind remaining st l)
      (getCoexecValuesWait kind remaining (advanceCoexecHazards n st) l)) as Hval.
  { intros kind remaining l Hr. apply aged_maxOf; [done|]. intros v _.
    by apply coexecValueWait_aged. }
  assert (aged n (getTransCoexecWait cfg op info st)
    (getTransCoexecWait cfg op info (advanceCoexecHazards n st))) as Ht.
  { unfold getTransCoexecWait. case_match; [by apply aged_zero|].
    apply aged_max; [done|..]; apply Hval; auto. }
  assert (exists w', getWmmaCoexecWait cfg op info (advanceCoexecHazards n st) = Ok w' /\
    aged n w w') as (w' & -> & Hw').
  { unfold getWmmaCoexecWait in *. destruct (g_hasWmmaCoexecutionHazard cfg); simpl in *;
      [|injection Hw as <-; exists 0; split; [done|by apply aged_zero]].
    destruct (xdlWmma info).
    - apply outcome_bind_Ok in Hw as (mma & -> & [= <-]). simpl. eexists. split; [done|].
      apply aged_max; [done|..]; apply coexecValueWait_aged; auto.
    - destruct (coexecValu info); simpl in *; injection Hw as <-;
        [|exists 0; split; [done|by apply aged_zero]].
      eexists. split; [done|]. repeat apply aged_max; try done; apply Hval; auto. }
  simpl. f_equal. by apply aged_max.
Qed.

(** ** The rewrite succeeds *)

(** What the transfer of an operation needs, it needs in every state. *)
Lemma transferHazards_total op info st st1 st' :
  info_controlFlow info = false -> transferHazards cfg op info st = Ok st1 ->
  (exists n, getRequiredCoexecVNops cfg op info st' = Ok n) /\
  (exists st2, transferHazards cfg op info st' = Ok st2).
Proof using Type.
  intros Hcf Ht. unfold transferHazards in *. rewrite Hcf in *. cbv zeta in *.
  apply outcome_bind_Ok in Ht as (s & Hs & _).
  assert (g_hasWmmaCoexecutionHazard cfg = true -> xdlWmma info = true ->
    exists mma slots, g_mma op = Some mma /\ getWmmaVALUWaitSlots cfg info = Ok slots) as Hmma.
  { intros Hg Hx. apply addProducedCoexecHazards_inv in Hs as [[_ Hn]|(mma & slots & ? & ? & _)];
      [by rewrite Hg, Hx in Hn|eauto]. }
  split.
  - unfold getRequiredCoexecVNops, getWmmaCoexecWait. rewrite Hcf.
    destruct (g_hasWmmaCoexecutionHazard cfg); simpl; [|eauto].
    destruct (xdlWmma info); [|destruct (coexecValu info); simpl; eauto].
    destruct (Hmma eq_refl eq_refl) as (mma & slots & Hm & _).
    unfold castMma. rewrite Hm. simpl. eauto.
  - set (st3 := addProducedHazards cfg op info _). unfold addProducedCoexecHazards. cbv zeta.
    destruct (g_hasWmmaCoexecutionHazard cfg), (xdlWmma info); simpl; try (eexists; reflexivity).
    destruct (Hmma eq_refl eq_refl) as (mma & slots & Hm & Hsl).
    unfold castMma. rewrite Hm. simpl. rewrite Hsl. simpl. eexists; reflexivity.
Qed.

Lemma rewriteOp_total sti op post st st1 info :
  getHazardOpInfo op cfg = Ok info -> infoOk cfg op info ->
  transferHazards cfg op info st1 = Ok st -> forall st',
  exists r, rewriteOp cfg sti op post st' = Ok r.
Proof using Type.
  intros Hinfo Hi Ht st'. unfold rewriteOp. destruct (g_controlFlow op) eqn:Hcf; [by eexists|].
  rewrite <-(info_flow _ _ _ Hi) in Hcf. rewrite Hinfo.
  change (Ok info ≫= ?k) with (k info). cbv beta.
  destruct (slotStep cfg op info st') as [wait s1]. destruct (valuStep info s1) as [needs s2].
  destruct (transferHazards_total op info st1 st s2 Hcf Ht) as [[n Hn] _].
  unfold coexecStep. rewrite Hn. simpl.
  destruct (scratchStep cfg info _) as [scratch s4].
  destruct (transferHazards_total op info st1 st s4 Hcf Ht) as [_ [s5 ->]]. by eexists.
Qed.

Lemma rewriteOps_total sti post ops : forall i st,
  (forall k op, ops !! k = Some op -> forall st, exists r,
     rewriteOp cfg sti op (post (i + k)%nat) st = Ok r) ->
  exists r, rewriteOps cfg sti i ops post st = Ok r.
Proof using Type.
  induction ops as [|op ops IH]; intros i st Hops; simpl; [by eexists|].
  destruct (Hops 0%nat op eq_refl st) as [[l st1] Hr]. rewrite Nat.add_0_r in Hr.
  rewrite Hr. simpl. destruct (IH (S i) st1) as [[rest st2] ->]; [|by eexists].
  intros k o Ho. rewrite Nat.add_succ_comm. by apply Hops.
Qed.
End Exact.

Section Total.
Context `{LLVMTarget} `{GapLLVM} (cfg : HazardConfig).

Lemma rewriteBlocks_total sti states blocks : forall i,
  (forall k ops j op, blocks !! k = Some ops -> ops !! j = Some op -> forall st, exists r,
     rewriteOp cfg sti op (Some (states (After (i + k) j))) st = Ok r) ->
  exists r, rewriteBlocks cfg sti states i blocks = Ok r.
Proof.
  induction blocks as [|ops blocks IH]; intros i Hb; simpl; [by eexists|].
  unfold rewriteBlock.
  destruct (rewriteOps_total cfg sti (fun index => Some (states (After i index))) ops 0
    (default emptyHazardState (Some (states (Entry i))))) as [[l st] ->].
  { intros k op Ho st. pose proof (Hb 0%nat ops k op eq_refl Ho st) as Hr.
    by rewrite Nat.add_0_r in Hr. }
  simpl. destruct (IH (S i)) as [rest ->]; [|by eexists].
  intros k o j op Ho Hop. rewrite Nat.add_succ_comm. by apply Hb with (ops := o).
Qed.
End Total.

(** ** What the hazard pass promises

    Beyond the absence of hazards ([rewritten_function_has_no_hazard]): the
    join, the invariant that the assertions of the code state, that the rewrite
    does not fail, that it waits no longer than it must, that its instructions
    encode what they should, and that the repair pass predicts it. *)

(** [joinWith] is the least upper bound of the hazard lattice: its result is
    above both states and below every state that is; it keeps one hazard per
    register and kind; it reports no change exactly when the incoming state was
    already covered, and then it changes nothing. *)
Theorem hazard_join_least_upper_bound st rhs (Hst : stateOk st) (Hrhs : stateOk rhs) :
  let r := joinWith st rhs in
  stateOk r.1 /\ hle st r.1 /\ hle rhs r.1 /\
  (forall u, stateOk u -> hle st u -> hle rhs u -> hle r.1 u) /\
  (r.2 = false <-> hle rhs st) /\ (r.2 = false -> r.1 = st).
Proof. by apply joinWith_spec. Qed.

Lemma NoDup_key_inj {A K} (key : A -> K) l x y :
  NoDup (key <$> l) -> x ∈ l -> y ∈ l -> key x = key y -> x = y.
Proof.
  induction l as [|z l IH]; intros Hn Hx Hy Hk; [by apply elem_of_nil in Hx|].
  rewrite fmap_cons, NoDup_cons in Hn. destruct Hn as [Hz Hn].
  apply elem_of_cons in Hx as [->|Hx], Hy as [->|Hy]; try done; [..|by apply IH]; exfalso.
  - apply Hz. rewrite Hk. by apply list_elem_of_fmap_2.
  - apply Hz. rewrite <-Hk. by apply list_elem_of_fmap_2.
Qed.

(** Whatever order the solver visits in, each of its states satisfies what
    the code asserts of it: one hazard per register and kind, countdowns within
    their limits, a pass count on every hazard of a matrix operation. *)
Theorem solver_states_keep_assertions `{LLVMTarget} `{GapLLVM} sti wavefrontSize cfg f states p h
    (Hdecode : forall isa x, small (decodeLgkmcnt isa x))
    (Hcfg : makeHazardConfig sti wavefrontSize = Ok cfg)
    (Hf : functionOk f) (Hcomputed : computed cfg f states)
    (Hh : h ∈ physical (states p)) :
  0 <= ph_remaining h <= ph_limit h /\
  (ph_kind h = PhysicalHazardKind.MfmaWrite \/ ph_kind h = PhysicalHazardKind.MfmaSrcCRead ->
     getHazardMfmaPassCount h <> 0) /\
  (forall h', h' ∈ physical (states p) -> sameHazard h h' = true -> h' = h).
Proof.
  pose proof (makeHazardConfig_ok _ _ _ Hdecode Hcfg) as Hok.
  pose proof (computed_wf cfg Hok f Hf states Hcomputed p) as Hwf.
  pose proof (gwf_physical _ _ Hwf) as HP. rewrite Forall_forall in HP.
  destruct (HP h Hh) as [Hr Hs Hl Hp]. split_and!; [lia|lia|..].
  - unfold getHazardMfmaPassCount. intros [Hk|Hk]; rewrite Hk in Hp; simpl in Hp; lia.
  - intros h' Hh' Hsame. apply sameHazard_key in Hsame.
    apply (NoDup_key_inj physicalKey (physical (states p))); [apply Hwf|done..].
Qed.

(** Where the analysis came to rest, the rewrite of every block succeeds. *)
Theorem rewrite_succeeds `{LLVMTarget} `{GapLLVM} cfg f sti states
    (Hf : functionOk f) (Hsolved : solved cfg f states) :
  exists rewritten, rewriteFunction cfg f sti states = Ok rewritten.
Proof.
  apply rewriteBlocks_total. intros b ops i op Hb Hi st.
  assert (opAt f b i = Some op) as Hop by (unfold opAt; by rewrite Hb).
  destruct (isRegionBranch op) eqn:Hrb.
  { unfold isRegionBranch in Hrb. apply andb_true_iff in Hrb as [Hc _].
    unfold rewriteOp. rewrite Hc. by eexists. }
  destruct (solved_transfer _ _ _ Hsolved b i op Hop Hrb) as (info & next & Hinfo & Hnext).
  eapply rewriteOp_total; [exact Hinfo| |exact Hnext].
  eapply getHazardOpInfo_ok; [|exact Hinfo]. by eapply fok_ops.
Qed.

(** The wait states and the co-execution slots that the pass inserts before
    an operation are exactly those that are missing: after [k] of them the rest
    is still asked for, and after all of them nothing is. *)
Theorem mitigations_are_exact `{LLVMTarget} `{GapLLVM} sti wavefrontSize cfg op info st k vnops
    (Hdecode : forall isa x, small (decodeLgkmcnt isa x))
    (Hcfg : makeHazardConfig sti wavefrontSize = Ok cfg)
    (Hst : gapWf cfg st) (Hk : 0 <= k)
    (Hvnops : getRequiredCoexecVNops cfg op info st = Ok vnops) :
  let wait := (slotStep cfg op info st).1 in
  (slotStep cfg op info (advanceHazards k true st)).1 = Z.max 0 (wait - k) /\
  getRequiredCoexecVNops cfg op info (advanceCoexecHazards k st) = Ok (Z.max 0 (vnops - k)).
Proof.
  split; [by apply slotWait_aged|by apply coexecVNops_aged].
Qed.

(** The [s_nop]s that are created for a count of wait states are all
    encodable, the analysis decodes each to the wait states that it stands for,
    and together they are the count. *)
Theorem noops_decode_to_count `{LLVMTarget} cfg sti count (nop : Z -> GapOp)
    (Hisa : isaVersion cfg = sti_isa sti) (Hcount : 0 <= count)
    (Hnop : forall imm, op_kind (nop imm) = SNopOp /\ g_nopImmediate (nop imm) = Some imm) :
  exists counts,
    Forall2 (fun imm n => getHazardWaitStateCount cfg (nop imm) = Ok n)
      (insertNoops count sti) counts /\
    sum_list_Z counts = count /\
    Forall (fun n => 1 <= n <= SNop.getMaxCount sti) counts.
Proof.
  exists (Z.add 1 <$> insertNoops count sti). split_and!.
  - apply Forall2_fmap_r, Forall_Forall2_diag, Forall_forall. intros imm Him.
    destruct (Hnop imm) as [Hk Hi].
    pose proof (insertNoops_decode cfg sti (nop imm) count Hisa Hk Hcount) as Hd.
    rewrite Forall_forall in Hd. rewrite (Hd imm Him Hi). f_equal. lia.
  - by apply insertNoops_slots.
  - apply Forall_fmap. eapply Forall_impl.
    { apply noopImmediates_spec; [apply getMaxCount_pow|lia]. }
    intros imm Him. simpl in *. lia.
Qed.

(** The issue slots of an instruction that is created. *)
Definition insertedSlots (i : Inserted) : Z :=
  match i with
  | InsertedSNop immediate => immediate + 1
  | _ => 1
  end.

(** C33: at an operation that is not control flow, and from the same state, what
    the repair pass counts as the cost of the operation is what the insertion pass
    inserts before it, and they go on from the same state.  The repair traces a
    block from a state of its own: its count is that of the insertion only where the
    two states agree.  At control flow the insertion takes the state of the solver. *)
Theorem repair_predicts_insertion `{LLVMTarget} `{GapLLVM} sti wavefrontSize cfg op info post st
    count st1 inserted st2
    (Hdecode : forall isa x, small (decodeLgkmcnt isa x))
    (Hcfg : makeHazardConfig sti wavefrontSize = Ok cfg)
    (Hop : gapOpOk op) (Hinfo : getHazardOpInfo op cfg = Ok info)
    (Hflow : g_controlFlow op = false) (Hst : gapWf cfg st)
    (Hmitigation : getRequiredMitigation cfg op info st = Ok (count, st1))
    (Hrewrite : rewriteOp cfg sti op post st = Ok (inserted, st2)) :
  u32 (sum_list_Z (insertedSlots <$> inserted)) = count /\
  transferHazards cfg op info st1 = Ok st2.
Proof.
  pose proof (getHazardOpInfo_ok cfg op info Hop Hinfo) as Hi.
  unfold getRequiredMitigation in Hmitigation. unfold rewriteOp in Hrewrite.
  rewrite Hflow, Hinfo in Hrewrite. change (Ok info ≫= ?k) with (k info) in Hrewrite.
  cbv beta in Hrewrite.
  destruct (slotStep cfg op info st) as [wait s1] eqn:H1.
  destruct (valuStep info s1) as [needs s2] eqn:H2.
  apply outcome_bind_Ok in Hmitigation as ([vnops s3] & H3 & Hm). rewrite H3 in Hrewrite.
  simpl in Hrewrite. destruct (scratchStep cfg info s3) as [scratch s4] eqn:H4.
  injection Hm as <- <-. apply outcome_bind_Ok in Hrewrite as (s5 & H5 & [= <- <-]).
  split; [|done].
  assert (0 <= wait) as Hw.
  { unfold slotStep in H1. injection H1 as <- _.
    pose proof (ssaWait_nonneg cfg op info st Hst). lia. }
  assert (0 <= vnops) as Hv.
  { unfold coexecStep in H3. apply outcome_bind_Ok in H3 as (n & Hn & [= <- _]).
    rewrite <-(info_flow _ _ _ Hi) in Hflow.
    destruct (coexecVNops_ub cfg op info s2 n Hflow Hn) as [C _].
    pose proof (transCoexecWait_nonneg cfg op info s2). lia. }
  rewrite !fmap_app, !sum_list_Z_app.
  assert (forall l, sum_list_Z (insertedSlots <$> (InsertedSNop <$> l)) = slotsOf l) as Hnops.
  { intros l. unfold slotsOf. rewrite <-list_fmap_compose. f_equal.
    apply list_fmap_ext. intros i x _. simpl. lia. }
  rewrite Hnops, insertNoops_slots by done.
  assert (sum_list_Z (insertedSlots <$> (if needs : bool then insertValuMitigation cfg sti else []))
    = Z.b2z needs) as ->.
  { destruct needs; [|done]. unfold insertValuMitigation. case_match; [done|].
    rewrite Hnops. by apply insertNoops_slots. }
  assert (sum_list_Z (insertedSlots <$> replicate (Z.to_nat vnops) InsertedVNop) = vnops) as ->.
  { rewrite fmap_replicate. simpl.
    assert (forall n, sum_list_Z (replicate n 1) = Z.of_nat n) as Hr.
    { induction n; simpl in *; lia. }
    rewrite Hr. lia. }
  assert (sum_list_Z (insertedSlots <$> (if scratch : bool then [InsertedSWaitAlu] else []))
    = Z.b2z scratch) as -> by by destruct scratch.
  unfold u32. rewrite Zplus_mod_idemp_l, <-Z.add_assoc, Zplus_mod_idemp_l. f_equal. lia.
Qed.
