(* ===== verification/GapEquiv.v ===== *)
(** * Hazard states up to the order of their hazards

    [operator==] compares the lists of hazards as sets.  The relation [heq] that
    it decides is respected by the waits and by the transfer function, so that a
    trace that has come back to a state of another trace goes on as that one. *)

From stdpp Require Import base tactics list gmap numbers strings.
From S2P Require Import Prelude CostEnums ArchData MachineIR LatencyTable.
From S2P Require Import OpClassifier ExecState TicketIR GapIR GapState GapTransfer GapLattice.
From S2P Require Import GapGrow GapMachine GapStep.

(** Equal but for the order of the hazards, of which there is one per key. *)
Record heq (a b : HazardState) : Prop := {
  heq_physical_nodup : NoDup (physicalKey <$> physical a);
  heq_coexec_nodup : NoDup (coexecKey <$> coexec a);
  heq_toValu : lgkmToValu a = lgkmToValu b;
  heq_pending : lgkmPending a = lgkmPending b;
  heq_capture : m0DmaCapture a = m0DmaCapture b;
  heq_values : values a = values b;
  heq_physical : physical a ≡ₚ physical b;
  heq_coexec : coexec a ≡ₚ coexec b;
  heq_scratch : scratchBase a = scratchBase b;
  heq_vcc : valuWriteVcc a = valuWriteVcc b;
  heq_exec : execWriteHazard a = execWriteHazard b
}.

Lemma heq_refl a : stateOk a -> heq a a.
Proof. by intros [_ ? ?]. Qed.

(** [operator==] decides it. *)
Lemma sameLists {A} `{EqDecision A} {K} (key : A -> K) l1 l2 :
  NoDup (key <$> l1) -> (length l1 =? length l2)%nat = true ->
  forallb (fun x => bool_decide (x ∈ l2)) l1 = true -> l1 ≡ₚ l2.
Proof.
  intros Hn Hl Hin. apply Nat.eqb_eq in Hl. apply submseteq_length_Permutation; [|lia].
  apply NoDup_submseteq; [by eapply NoDup_fmap_1|].
  rewrite forallb_forall in Hin. intros x Hx. apply list_elem_of_In in Hx.
  by apply Hin, bool_decide_eq_true in Hx.
Qed.

Lemma sameHazardState_heq a b : stateOk a -> sameHazardState a b = true -> heq a b.
Proof.
  intros [_ P C] Hs. unfold sameHazardState in Hs.
  rewrite !andb_true_iff, !bool_decide_eq_true, !Z.eqb_eq in Hs.
  destruct Hs as [[[[[[[[H1 H2] H3] H4] H5] H6] H7] H8] H9].
  unfold hasSamePhysicalHazards, hasSameCoexecHazards in *. rewrite andb_true_iff in H5, H6.
  split; try done; [by eapply (sameLists physicalKey); [|apply H5..]
    |by eapply (sameLists coexecKey); [|apply H6..]].
Qed.

(** ** Lists *)

Lemma maxOf_perm l l' : l ≡ₚ l' -> maxOf l = maxOf l'.
Proof.
  intros Hp. apply Z.le_antisymm; apply maxOf_least; try apply maxOf_nonneg;
    intros x Hx; apply maxOf_ub; [by rewrite <-Hp|by rewrite Hp].
Qed.

Lemma omap_perm {A B} (f : A -> option B) l l' : l ≡ₚ l' -> omap f l ≡ₚ omap f l'.
Proof. intros Hp. by rewrite Hp. Qed.

Lemma filter_perm {A} (f : A -> bool) l l' : l ≡ₚ l' -> List.filter f l ≡ₚ List.filter f l'.
Proof.
  induction 1 as [|x l l' _ IH|x y l|l1 l2 l3 _ IH1 _ IH2]; simpl; [done|..].
  - case_match; [by constructor|done].
  - repeat case_match; done || constructor.
  - by etransitivity.
Qed.

Section KeyedPerm.
Context {E K : Type} (key : E -> K) (same : E -> E -> bool) (join : E -> E -> E).
Context (same_key : forall a b, same a b = true <-> key a = key b).

Lemma mergeKeyed_perm l l' h :
  NoDup (key <$> l) -> l ≡ₚ l' -> mergeKeyed same join l h ≡ₚ mergeKeyed same join l' h.
Proof using same_key.
  intros Hn Hp. induction Hp as [|x l l' Hp IH|x y l|l1 l2 l3 H12 IH1 H23 IH2]; simpl; [done|..].
  - rewrite fmap_cons, NoDup_cons in Hn. destruct Hn as [_ Hn].
    destruct (same x h); simpl; constructor; [done|by apply IH].
  - rewrite !fmap_cons, !NoDup_cons in Hn. destruct Hn as (Hx & _).
    destruct (same x h) eqn:Ex, (same y h) eqn:Ey; simpl; try constructor; try done.
    exfalso. apply same_key in Ex, Ey. apply Hx. rewrite Ey, <-Ex. apply list_elem_of_here.
  - etransitivity; [by apply IH1|]. apply IH2. by rewrite <-H12.
Qed.
End KeyedPerm.

Lemma mergePhysical_perm l l' h :
  NoDup (physicalKey <$> l) -> l ≡ₚ l' -> mergePhysical l h ≡ₚ mergePhysical l' h.
Proof. rewrite !mergePhysical_keyed. apply mergeKeyed_perm, sameHazard_key. Qed.

Lemma mergeCoexec_perm l l' h :
  NoDup (coexecKey <$> l) -> l ≡ₚ l' -> mergeCoexec l h ≡ₚ mergeCoexec l' h.
Proof. rewrite !mergeCoexec_keyed. apply mergeKeyed_perm, sameCoexec_key. Qed.

(** ** The elementary updates *)

Lemma fold_heq {A} (f g : HazardState -> A -> HazardState) l :
  (forall a b x, heq a b -> heq (f a x) (g b x)) ->
  forall a b, heq a b -> heq (fold_left f l a) (fold_left g l b).
Proof. intros Hf. induction l as [|x l IH]; intros a b Hab; simpl; [done|]. by apply IH, Hf. Qed.

Lemma if_heq (c : bool) a b a' b' :
  heq a a' -> heq b b' -> heq (if c then a else b) (if c then a' else b').
Proof. by destruct c. Qed.

Lemma set_lgkmToValu_heq f a b : heq a b -> heq (set_lgkmToValu f a) (set_lgkmToValu f b).
Proof. intros []. split; simpl; congruence || done. Qed.
Lemma set_lgkmPending_heq f a b : heq a b -> heq (set_lgkmPending f a) (set_lgkmPending f b).
Proof. intros []. split; simpl; congruence || done. Qed.
Lemma set_m0DmaCapture_heq f a b : heq a b -> heq (set_m0DmaCapture f a) (set_m0DmaCapture f b).
Proof. intros []. split; simpl; congruence || done. Qed.
Lemma set_values_heq f a b : heq a b -> heq (set_values f a) (set_values f b).
Proof. intros []. split; simpl; congruence || done. Qed.
Lemma set_scratchBase_heq f a b : heq a b -> heq (set_scratchBase f a) (set_scratchBase f b).
Proof. intros []. split; simpl; congruence || done. Qed.
Lemma set_valuWriteVcc_heq f a b : heq a b -> heq (set_valuWriteVcc f a) (set_valuWriteVcc f b).
Proof. intros []. split; simpl; congruence || done. Qed.
Lemma set_execWriteHazard_heq f a b :
  heq a b -> heq (set_execWriteHazard f a) (set_execWriteHazard f b).
Proof. intros []. split; simpl; congruence || done. Qed.

Lemma mergePhysicalHazard_heq h a b :
  heq a b -> heq (mergePhysicalHazard h a) (mergePhysicalHazard h b).
Proof.
  intros Hab. unfold mergePhysicalHazard. case_match; [done|]. destruct Hab.
  split; simpl; try done; [by apply mergePhysical_NoDup|by apply mergePhysical_perm].
Qed.

Lemma mergeCoexecHazard_heq h a b :
  heq a b -> heq (mergeCoexecHazard h a) (mergeCoexecHazard h b).
Proof.
  intros Hab. unfold mergeCoexecHazard. case_match; [done|]. destruct Hab.
  split; simpl; try done; [by apply mergeCoexec_NoDup|by apply mergeCoexec_perm].
Qed.

Lemma mergeValueHazards_heq v h a b :
  heq a b -> heq (mergeValueHazards v h a) (mergeValueHazards v h b).
Proof. intros Hab. unfold mergeValueHazards. case_match; [done|]. by apply set_values_heq. Qed.

Create HintDb heq.
#[export] Hint Resolve if_heq set_lgkmToValu_heq set_lgkmPending_heq
  set_m0DmaCapture_heq set_values_heq set_scratchBase_heq set_valuWriteVcc_heq
  set_execWriteHazard_heq mergePhysicalHazard_heq mergeCoexecHazard_heq
  mergeValueHazards_heq : heq.

Lemma agePhysical_key n h h' : agePhysical n h = Some h' -> physicalKey h' = physicalKey h.
Proof. unfold agePhysical. case_match; [done|]. by intros [= <-]. Qed.
Lemma ageCoexec_key n h h' : ageCoexec n h = Some h' -> coexecKey h' = coexecKey h.
Proof. unfold ageCoexec. case_match; [done|]. by intros [= <-]. Qed.

Lemma advanceHazards_heq n l a b : heq a b -> heq (advanceHazards n l a) (advanceHazards n l b).
Proof.
  intros Hab. unfold advanceHazards, advancePhysicalHazards, advanceValueHazards. cbv zeta.
  set (a1 := if l then _ else a). set (b1 := if l then _ else b).
  assert (heq a1 b1) as H1 by (unfold a1, b1; eauto with heq).
  destruct (n =? 0); [by apply set_m0DmaCapture_heq|].
  apply set_execWriteHazard_heq, set_valuWriteVcc_heq.
  assert (forall c d, heq c d ->
    heq (set_physical (omap (agePhysical n)) c) (set_physical (omap (agePhysical n)) d)) as Hp.
  { intros c d []. split; simpl; try done; [|by apply omap_perm].
    by apply omap_NoDup; [apply agePhysical_key|]. }
  apply Hp, set_values_heq, set_m0DmaCapture_heq, H1.
Qed.

Lemma advanceCoexecHazards_heq n a b :
  heq a b -> heq (advanceCoexecHazards n a) (advanceCoexecHazards n b).
Proof.
  intros Hab. unfold advanceCoexecHazards. case_match; [done|]. destruct Hab.
  split; simpl; try done; [|by apply omap_perm].
  by apply omap_NoDup; [apply ageCoexec_key|].
Qed.

Lemma advanceScratchBaseHazards_heq n a b :
  heq a b -> heq (advanceScratchBaseHazards n a) (advanceScratchBaseHazards n b).
Proof. apply set_scratchBase_heq. Qed.

#[export] Hint Resolve advanceHazards_heq advanceCoexecHazards_heq
  advanceScratchBaseHazards_heq : heq.

(** ** The transfer *)

Section Transfer.
Context `{LLVMTarget} `{GapLLVM} (cfg : HazardConfig).
Implicit Types (op : GapOp) (info : HazardOpInfo).

Lemma ageHazards_heq info a b : heq a b -> heq (ageHazards info a) (ageHazards info b).
Proof using Type.
  intros Hab. unfold ageHazards. cbv zeta. eauto 12 with heq.
Qed.

Lemma inherit_heq op a b :
  heq a b -> heq (inheritNoInstOperandHazards op a) (inheritNoInstOperandHazards op b).
Proof using Type.
  intros Hab. unfold inheritNoInstOperandHazards, lookupValueHazards.
  rewrite (heq_values _ _ Hab). apply if_heq; [done|]. apply fold_heq; [|done].
  intros c d v. apply mergeValueHazards_heq.
Qed.

Lemma applySWaitAlu_heq op a b : heq a b -> heq (applySWaitAlu op a) (applySWaitAlu op b).
Proof using Type.
  intros Hab. unfold applySWaitAlu. apply if_heq; [done|].
  destruct (g_waitAlu op) as [[x y] z]. cbv zeta.
  assert (forall (kinds : list PhysicalHazardKind.t) c d, heq c d -> heq
    (set_physical (List.filter (fun hazard : PhysicalHazard =>
       negb (bool_decide (ph_kind hazard ∈ kinds)))) c)
    (set_physical (List.filter (fun hazard : PhysicalHazard =>
       negb (bool_decide (ph_kind hazard ∈ kinds)))) d)) as He.
  { intros kinds c d []. split; simpl; try done; [|by apply filter_perm].
    eapply sublist_NoDup; [done|]. apply fmap_sublist.
    clear. generalize (physical c). induction l as [|h l IH]; simpl; [done|].
    case_match; by constructor. }
  repeat first [assumption | apply if_heq | apply set_scratchBase_heq | apply He].
Qed.

Lemma addVGPRHazard_heq kind limit v a b :
  heq a b -> heq (addVGPRHazard kind limit v a) (addVGPRHazard kind limit v b).
Proof using Type.
  intros Hab. unfold addVGPRHazard, addPhysicalHazard.
  destruct (getAllocatedRegSpan v); [|done]. apply if_heq; eauto with heq.
Qed.

Lemma addMfmaHazard_heq kind latency passes v a b :
  heq a b -> heq (addMfmaHazard kind latency passes v a) (addMfmaHazard kind latency passes v b).
Proof using Type.
  intros Hab. unfold addMfmaHazard. destruct (getAllocatedRegSpan v); eauto with heq.
Qed.

Lemma addProducedValuRegHazard_heq v a b :
  heq a b -> heq (addProducedValuRegHazard cfg v a) (addProducedValuRegHazard cfg v b).
Proof using Type.
  intros Hab. unfold addProducedValuRegHazard, addPhysicalHazard.
  cbv zeta. repeat case_match; eauto 6 with heq.
Qed.

Lemma addProducedPhysicalHazards_heq op info a b :
  heq a b -> heq (addProducedPhysicalHazards cfg op info a) (addProducedPhysicalHazards cfg op info b).
Proof using Type.
  intros Hab. unfold addProducedPhysicalHazards. apply if_heq.
  - unfold addProducedMfmaPhysicalHazards. cbv zeta.
    set (a1 := fold_left _ _ a). set (b1 := fold_left _ _ b).
    assert (heq a1 b1) as H1.
    { apply fold_heq; [|done]. intros c d v. apply addMfmaHazard_heq. }
    apply if_heq; [done|]. destruct (g_mma op); [|done]. by apply addMfmaHazard_heq.
  - unfold addProducedStorePhysicalHazards, addProducedDstSelForwardingHazard,
      addProducedValuPhysicalHazards. cbv zeta.
    set (a1 := if legacyValu info then _ else a). set (b1 := if legacyValu info then _ else b).
    assert (heq a1 b1) as H1.
    { apply if_heq; [|done]. apply fold_heq; [|by eauto with heq]. intros c d v Hcd.
      apply addProducedValuRegHazard_heq, if_heq; [|done].
      unfold addProducedTransRegHazard. apply if_heq; [done|]. by apply addVGPRHazard_heq. }
    set (a2 := if negb (hasDstSelForwardingHazard cfg) then a1 else _).
    set (b2 := if negb (hasDstSelForwardingHazard cfg) then b1 else _).
    assert (heq a2 b2) as H2.
    { apply if_heq; [done|]. destruct (g_dstSelResult op); [|done]. by apply addVGPRHazard_heq. }
    destruct (storeWriteData info) as [h|]; [|done].
    destruct (getAllocatedRegSpan (hazard_data h)); [|done]. by apply mergePhysicalHazard_heq.
Qed.

Lemma addProducedHazards_heq op info a b :
  heq a b -> heq (addProducedHazards cfg op info a) (addProducedHazards cfg op info b).
Proof using Type.
  intros Hab. unfold addProducedHazards. cbv zeta. apply addProducedPhysicalHazards_heq, if_heq.
  - apply fold_heq; [intros c d v; apply mergeValueHazards_heq|].
    destruct (g_m0Value op); eauto with heq.
  - destruct (g_m0Value op); eauto with heq.
Qed.

Lemma addCoexecSpan_heq kind w v value a b :
  heq a b -> heq (addCoexecSpan kind w v a value) (addCoexecSpan kind w v b value).
Proof using Type.
  intros Hab. unfold addCoexecSpan. destruct (getAllocatedRegSpan value); eauto with heq.
Qed.

(** Outcomes whose states are equal up to order. *)
Definition heqOutcome (x y : outcome HazardState) : Prop :=
  match x, y with
  | Ok a, Ok b => heq a b
  | Failure, Failure => True
  | Fatal s, Fatal t => s = t
  | _, _ => False
  end.

Lemma addProducedCoexecHazards_heq op info a b :
  heq a b ->
  heqOutcome (addProducedCoexecHazards cfg op info a) (addProducedCoexecHazards cfg op info b).
Proof using Type.
  intros Hab. unfold addProducedCoexecHazards. cbv zeta.
  set (a1 := if g_hasTransCoexecutionHazard cfg && trans info then _ else a).
  set (b1 := if g_hasTransCoexecutionHazard cfg && trans info then _ else b).
  assert (heq a1 b1) as H1.
  { apply if_heq; [|done]. repeat (apply fold_heq; [intros c d v; apply addCoexecSpan_heq|]).
    done. }
  destruct (_ || _); [done|]. destruct (castMma op) as [mma| |]; simpl; try done.
  destruct (getWmmaVALUWaitSlots cfg info) as [slots| |]; simpl; try done.
  by repeat apply addCoexecSpan_heq.
Qed.

Lemma transferHazards_heq op info a b :
  heq a b -> heqOutcome (transferHazards cfg op info a) (transferHazards cfg op info b).
Proof using Type.
  intros Hab. unfold transferHazards. cbv zeta.
  pose proof (ageHazards_heq info a b Hab) as H1. destruct (info_controlFlow info); [done|].
  apply (inherit_heq op), (applySWaitAlu_heq op), (addProducedHazards_heq op info),
    (addProducedCoexecHazards_heq op info) in H1.
  destruct (addProducedCoexecHazards cfg op info _) as [c| |],
    (addProducedCoexecHazards cfg op info _) as [d| |]; simpl in *; try done.
  unfold applyLgkmWait, addPendingLgkmIssue, addProducedScratchBaseHazards. cbv zeta.
  set (c1 := if negb (g_hasScratchBaseForwardingHazard cfg) || negb (sgprWrite info)
    then c else _).
  set (d1 := if negb (g_hasScratchBaseForwardingHazard cfg) || negb (sgprWrite info)
    then d else _).
  assert (heq c1 d1) as H2.
  { apply if_heq; [done|].
    repeat (apply fold_heq; [intros x y s; apply set_scratchBase_heq|]). done. }
  clearbody c1 d1.
  set (c2 := if negb (legacyWaitCounters cfg) then c1 else _).
  set (d2 := if negb (legacyWaitCounters cfg) then d1 else _).
  assert (heq c2 d2) as H3 by (repeat apply if_heq; eauto with heq).
  destruct (lgkmWaitLimit info) as [limit|]; [|done].
  rewrite (heq_pending _ _ H3). apply if_heq; [done|]. apply if_heq; eauto with heq.
Qed.

(** ** The waits *)

Lemma slotStep_heq op info a b :
  heq a b -> (slotStep cfg op info a).1 = (slotStep cfg op info b).1 /\
  heq (slotStep cfg op info a).2 (slotStep cfg op info b).2.
Proof using Type.
  intros Hab.
  assert (forall w : PhysicalHazard -> Z,
    maxOf (w <$> physical a) = maxOf (w <$> physical b)) as Hm.
  { intros w. apply maxOf_perm. by rewrite (heq_physical _ _ Hab). }
  assert (getRequiredSsaWait op info a = getRequiredSsaWait op info b) as Hs.
  { unfold getRequiredSsaWait, lookupValueHazards.
    by rewrite (heq_values _ _ Hab), (heq_capture _ _ Hab). }
  assert (getRequiredPhysicalWait cfg op info a = getRequiredPhysicalWait cfg op info b) as Hp.
  { unfold getRequiredPhysicalWait, getVccReadWait. rewrite (heq_exec _ _ Hab), (heq_vcc _ _ Hab).
    assert (getOperandPhysicalWait cfg op info a = getOperandPhysicalWait cfg op info b) as ->.
    { unfold getOperandPhysicalWait. f_equal. apply imap_ext. intros i v _.
      destruct (getAllocatedRegSpan v); [apply Hm|done]. }
    assert (getResultPhysicalWait cfg op info a = getResultPhysicalWait cfg op info b) as ->.
    { unfold getResultPhysicalWait. f_equal; f_equal; apply list_fmap_ext; intros i v _.
      - destruct (getAllocatedRegSpan v); [apply Hm|done].
      - apply Hm. }
    done. }
  unfold slotStep. rewrite Hs, Hp. simpl. split; [done|]. apply if_heq; eauto with heq.
Qed.

Lemma valuStep_heq info a b :
  heq a b -> (valuStep info a).1 = (valuStep info b).1 /\
  heq (valuStep info a).2 (valuStep info b).2.
Proof using Type.
  intros Hab. unfold valuStep, needsValuMitigation. rewrite (heq_toValu _ _ Hab).
  case_match; simpl; split; eauto with heq.
Qed.

Lemma coexecVNops_heq op info a b :
  heq a b -> getRequiredCoexecVNops cfg op info a = getRequiredCoexecVNops cfg op info b.
Proof using Type.
  intros Hab.
  assert (forall kind remaining v,
    getCoexecValueWait kind remaining a v = getCoexecValueWait kind remaining b v) as Hv.
  { intros kind remaining v. unfold getCoexecValueWait.
    destruct (getAllocatedRegSpan v); [|done]. apply maxOf_perm. by rewrite (heq_coexec _ _ Hab). }
  assert (forall kind remaining l,
    getCoexecValuesWait kind remaining a l = getCoexecValuesWait kind remaining b l) as Hl.
  { intros kind remaining l. unfold getCoexecValuesWait. f_equal. apply list_fmap_ext.
    intros i v _. apply Hv. }
  unfold getRequiredCoexecVNops, getTransCoexecWait, getWmmaCoexecWait. rewrite !Hl.
  destruct (castMma op); simpl; [|done..]. by rewrite !Hv.
Qed.

Lemma scratchStep_heq info a b :
  heq a b -> (scratchStep cfg info a).1 = (scratchStep cfg info b).1 /\
  heq (scratchStep cfg info a).2 (scratchStep cfg info b).2.
Proof using Type.
  intros Hab. unfold scratchStep, needsScratchBaseWait. rewrite (heq_scratch _ _ Hab).
  case_match; simpl; split; eauto with heq.
Qed.

(** States equal up to order ask for the same. *)
Lemma getRequiredMitigation_heq op info a b count a' :
  heq a b -> getRequiredMitigation cfg op info a = Ok (count, a') ->
  exists b', getRequiredMitigation cfg op info b = Ok (count, b') /\ heq a' b'.
Proof using Type.
  intros Hab. unfold getRequiredMitigation.
  destruct (slotStep_heq op info a b Hab) as [E1 H1].
  destruct (slotStep cfg op info a) as [w a1], (slotStep cfg op info b) as [w' b1].
  simpl in E1, H1. subst w'. destruct (valuStep_heq info a1 b1 H1) as [E2 H2].
  destruct (valuStep info a1) as [n a2], (valuStep info b1) as [n' b2].
  simpl in E2, H2. subst n'. unfold coexecStep. rewrite (coexecVNops_heq op info a2 b2 H2).
  destruct (getRequiredCoexecVNops cfg op info b2) as [v| |]; simpl; try done.
  set (a3 := if v =? 0 then a2 else _). set (b3 := if v =? 0 then b2 else _).
  assert (heq a3 b3) as H3 by (apply if_heq; eauto with heq).
  destruct (scratchStep_heq info a3 b3 H3) as [E4 H4].
  destruct (scratchStep cfg info a3) as [s a4], (scratchStep cfg info b3) as [s' b4].
  simpl in E4, H4. subst s'. intros [= <- <-]. by exists b4.
Qed.
End Transfer.
