(* ===== verification/GapRepair.v ===== *)
(** * The repair pass ([WaveAMDHazardRepairPass])

    Before waits are inserted, [repairBlock] moves pure operations of a block,
    or of the block around it, to where an instruction would only wait.  A move
    is kept when no operation waits longer for it, the target waits less, and
    the moved operation does not wait at all. *)

From stdpp Require Import base tactics list gmap numbers strings.
From S2P Require Import Prelude CostEnums ArchData MachineIR LatencyTable.
From S2P Require Import OpClassifier ExecState TicketIR GapIR GapState GapTransfer.

(** What the pass asks MLIR about uses and dominance.  [usedInside]: the values
    used in the regions of an operation; [hasUses], [isCarry]: a value has uses,
    and is a carry of a [continue_if]; the dominance queries are for the block
    around and the block as they are at the query; [loopOrIsolated]: the
    operation is a loop or isolated from above. *)
Class GapUses := {
  usedInside : GapOp -> list N;
  hasUses : Value -> bool;
  isCarry : Value -> bool;
  loopOrIsolated : GapOp -> bool;
  properlyDominates : list GapOp -> list GapOp -> GapOp -> GapOp -> bool;
  operandsDominateTarget : list GapOp -> list GapOp -> GapOp -> GapOp -> bool;
  resultsRemainDominated : list GapOp -> list GapOp -> GapOp -> GapOp -> bool
}.

(** ** Traces *)

(** The maps have the operations' numbers as keys. *)
Record BlockHazardTrace : Type := mkTrace {
  tr_waits : gmap N Z;
  tr_before : gmap N HazardState;
  totalWaits : Z
}.
Definition lookupWait (trace : BlockHazardTrace) (op : N) : Z :=
  default 0 (tr_waits trace !! op).

Section Repair.
Context `{LLVMTarget} `{GapLLVM} `{GapUses} (cfg : HazardConfig).

(** The loop of [computeBlockHazardTrace]. *)
Fixpoint traceOps (ops : list GapOp) (st : HazardState)
    (trace : BlockHazardTrace) : outcome BlockHazardTrace :=
  match ops with
  | [] => Ok trace
  | op :: ops' =>
      info ← getHazardOpInfo op cfg;
      let before := match tr_before trace !! op_id op with
                    | Some _ => tr_before trace
                    | None => <[op_id op := st]> (tr_before trace)
                    end in
      '(wait, st) ← getRequiredMitigation cfg op info st;
      let trace :=
        if wait =? 0 then mkTrace (tr_waits trace) before (totalWaits trace)
        else mkTrace (<[op_id op := wait]> (tr_waits trace)) before
               (u32 (totalWaits trace + wait)) in
      st ← transferHazards cfg op info st;
      traceOps ops' st trace
  end.
Definition computeBlockHazardTrace (block : list GapOp) :
    outcome BlockHazardTrace :=
  traceOps block emptyHazardState (mkTrace ∅ ∅ 0).

(** ** Candidates *)

Definition touchesBlockedSingletonReg (op : Operation) : bool :=
  existsb (fun value => bool_decide (is_Some (getHardwareResourceForValue value)))
    (op_operands op)
  || existsb (fun value =>
       match getHardwareResourceForValue value with
       | None => false
       | Some kind =>
           bool_decide (kind <> HardwareResourceKind.SCC) || hasUses value
       end) (op_results op).

Definition definesLoopCarry (op : Operation) : bool :=
  existsb isCarry (op_results op).

Definition isRepairCandidate (op : GapOp) : bool :=
  if emitsNoMachineInst op || negb (g_pure op)
     || bool_decide (is_Some (g_mma op)) then false
  else if negb (hasTrait op Trait.VALUOp) && negb (hasTrait op Trait.SALUOp)
  then false
  else if definesLoopCarry op then false
  else negb (touchesBlockedSingletonReg op).

Record RepairCandidate : Type := mkCandidate {
  rc_op : GapOp;
  rc_ordinal : nat;
  rc_targetBegin : nat;
  rc_targetEnd : nat
}.

Definition canMoveCandidateTo (candidate : RepairCandidate) (targetOrdinal : nat) : bool :=
  negb (rc_ordinal candidate =? targetOrdinal)%nat
  && (rc_targetBegin candidate <=? targetOrdinal)%nat
  && (targetOrdinal <? rc_targetEnd candidate)%nat.

Definition definesValue (op : Operation) (value : Value) : bool :=
  bool_decide (value_id value ∈ value_id <$> op_results op).
(** The operation or one in its regions uses the value: it is the ancestor in
    the block of a user. *)
Definition usesValue (op : GapOp) (value : Value) : bool :=
  bool_decide (value_id value ∈ (value_id <$> op_operands op) ++ usedInside op).

Definition indexRepairCandidate (ordinal : nat) (candidate : GapOp)
    (block : list GapOp) : RepairCandidate :=
  let targetBegin := fold_left (fun targetBegin operand =>
    match list_find (fun op : GapOp => definesValue op operand = true) block with
    | Some (def, _) => Nat.max targetBegin (def + 1)
    | None => targetBegin
    end) (op_operands candidate) 0%nat in
  let targetEnd := fold_left (fun targetEnd result =>
    fold_left (fun targetEnd '(user, op) =>
      if usesValue op result then Nat.min targetEnd (user + 1) else targetEnd)
      (imap pair block) targetEnd)
    (op_results candidate) (length block) in
  mkCandidate candidate ordinal targetBegin targetEnd.

(** ** A move within the block *)

(** [hasRejoinedHazardTrace]: [canRejoin] and the result. *)
Definition hasRejoinedHazardTrace (next : option GapOp) (rejoinBefore : option N)
    (canRejoin targetImproved candidateClear : bool) (st : HazardState)
    (oldTrace : BlockHazardTrace) : outcome (bool * bool) :=
  let canRejoin := canRejoin || bool_decide (op_id ∘ g_op <$> next = rejoinBefore) in
  match next with
  | None => Ok (canRejoin, false)
  | Some next =>
      if negb canRejoin || negb targetImproved || negb candidateClear
      then Ok (canRejoin, false)
      else match tr_before oldTrace !! op_id next with
           | Some before => Ok (canRejoin, sameHazardState st before)
           | None => Fatal "missing rejoin hazard state"
           end
  end.

(** The loop from [startOp] to the end of the block. *)
Fixpoint movedHazardsAccepted (ops : list GapOp) (st : HazardState)
    (candidate target : N) (rejoinBefore : option N) (oldTargetWait : Z)
    (oldTrace : BlockHazardTrace)
    (targetImproved candidateClear canRejoin : bool) : outcome bool :=
  match ops with
  | [] => Ok (targetImproved && candidateClear)
  | op :: ops' =>
      info ← getHazardOpInfo op cfg;
      '(wait, st) ← getRequiredMitigation cfg op info st;
      if lookupWait oldTrace (op_id op) <? wait then Ok false
      else
        let targetImproved := if (op_id op =? target)%N then wait <? oldTargetWait
                              else targetImproved in
        let candidateClear := if (op_id op =? candidate)%N then wait =? 0
                              else candidateClear in
        st ← transferHazards cfg op info st;
        '(canRejoin, rejoined) ←
          hasRejoinedHazardTrace (head ops') rejoinBefore canRejoin
            targetImproved candidateClear st oldTrace;
        if rejoined : bool then Ok true
        else movedHazardsAccepted ops' st candidate target rejoinBefore
               oldTargetWait oldTrace targetImproved candidateClear canRejoin
  end.

(** [candidate->moveBefore(target)]. *)
Definition moveBefore (block : list GapOp) (candidate target : nat) :
    list GapOp :=
  match block !! candidate with
  | None => block
  | Some op =>
      let removed := delete candidate block in
      let position := if (target <? candidate)%nat then target
                      else (target - 1)%nat in
      take position removed ++ op :: drop position removed
  end.

Definition getMovedRepairStart (candidate : GapOp) (restoreBefore : option GapOp)
    (target : GapOp) (candidateAfterTarget : bool) : option GapOp :=
  if candidateAfterTarget
     || bool_decide (op_id ∘ g_op <$> restoreBefore = Some (op_id target))
  then Some candidate else restoreBefore.

(** The operations from one on, to the end of the block. *)
Fixpoint fromOp (start : option GapOp) (ops : list GapOp) : list GapOp :=
  match ops with
  | [] => []
  | op :: ops' =>
      if bool_decide (op_id ∘ g_op <$> start = Some (op_id op)) then ops
      else fromOp start ops'
  end.

(** The block with the candidate moved, when the move is accepted. *)
Definition tryMoveRepairCandidate (block : list GapOp)
    (candidate : RepairCandidate) (target : GapOp) (targetOrdinal : nat)
    (oldTrace : BlockHazardTrace) : outcome (option (list GapOp)) :=
  if negb (canMoveCandidateTo candidate targetOrdinal) then Ok None
  else
    let ordinal := rc_ordinal candidate in
    let candidateAfterTarget := (targetOrdinal <? ordinal)%nat in
    match tr_before oldTrace
            !! (if candidateAfterTarget then op_id target
                else op_id (rc_op candidate)) with
    | None => Fatal "missing hazard prefix state"
    | Some prefixState =>
        let restoreBefore := block !! S ordinal in
        let moved := moveBefore block ordinal targetOrdinal in
        let rejoinBefore := op_id ∘ g_op <$>
          (if candidateAfterTarget then restoreBefore
           else block !! S targetOrdinal) in
        accept ← movedHazardsAccepted
          (fromOp (getMovedRepairStart (rc_op candidate) restoreBefore target
                     candidateAfterTarget) moved) prefixState
          (op_id (rc_op candidate)) (op_id target) rejoinBefore
          (lookupWait oldTrace (op_id target)) oldTrace false false false;
        Ok (if accept : bool then Some moved else None)
    end.

(** ** A move out of the block around *)

(** [rb_block]; and, when it is the body of an operation that lies in a block,
    the operations before that operation, itself, and those after it. *)
Record RepairBlock : Type := mkRepairBlock {
  rb_block : list GapOp;
  rb_outer : list GapOp;
  rb_parent : option GapOp;
  rb_after : list GapOp
}.

Definition canPullIntoRegion (parent : option GapOp) : bool :=
  match parent with
  | Some parent => negb (loopOrIsolated parent)
  | None => false
  end.

Definition sourceBlock (rb : RepairBlock) : list GapOp :=
  rb_outer rb ++ option_list (rb_parent rb) ++ rb_after rb.

Definition canPullOuterRepairCandidate (rb : RepairBlock)
    (candidate target : GapOp) : bool :=
  canPullIntoRegion (rb_parent rb)
  && properlyDominates (rb_outer rb) (rb_block rb) candidate target
  && existsb (fun result =>
       bool_decide (value_id result ∈ value_id <$> op_operands target))
       (op_results candidate)
  && operandsDominateTarget (rb_outer rb) (rb_block rb) candidate target
  && resultsRemainDominated (rb_outer rb) (rb_block rb) candidate target.

Definition hazardsDoNotIncrease (before after : BlockHazardTrace) : bool :=
  forallb (fun '(op, wait) => wait <=? lookupWait before op)
    (map_to_list (tr_waits after)).

(** [candidate] is the number of an operation of [rb_outer]. *)
Definition tryPullOuterRepairCandidate (rb : RepairBlock) (candidate : nat)
    (target : GapOp) (targetOrdinal : nat) (targetTrace : BlockHazardTrace) :
    outcome (option RepairBlock) :=
  match rb_outer rb !! candidate with
  | None => Ok None
  | Some op =>
      if negb (canPullOuterRepairCandidate rb op target) then Ok None
      else
        sourceTrace ← computeBlockHazardTrace (sourceBlock rb);
        let moved := mkRepairBlock
          (take targetOrdinal (rb_block rb) ++ op :: drop targetOrdinal (rb_block rb))
          (delete candidate (rb_outer rb)) (rb_parent rb) (rb_after rb) in
        movedTargetTrace ← computeBlockHazardTrace (rb_block moved);
        movedSourceTrace ← computeBlockHazardTrace (sourceBlock moved);
        let accept :=
          (lookupWait movedTargetTrace (op_id target)
             <? lookupWait targetTrace (op_id target))
          && (lookupWait movedTargetTrace (op_id op) =? 0)
          && hazardsDoNotIncrease targetTrace movedTargetTrace
          && hazardsDoNotIncrease sourceTrace movedSourceTrace in
        Ok (if accept then Some moved else None)
  end.

(** From the operation before the parent back to the start of its block. *)
Definition collectOuterRepairCandidates (rb : RepairBlock) : list nat :=
  if negb (canPullIntoRegion (rb_parent rb)) then []
  else omap (fun '(ordinal, op) =>
         if isRepairCandidate op then Some ordinal else None)
         (reverse (imap pair (rb_outer rb))).

(** ** The index of a block *)

Record RepairBlockIndex : Type := mkIndex {
  ix_ops : list GapOp;
  localCandidates : list RepairCandidate;
  outerCandidates : list nat;
  waitOrdinals : list nat
}.

Definition buildRepairBlockIndex (rb : RepairBlock) (trace : BlockHazardTrace) :
    RepairBlockIndex :=
  let ops := imap pair (rb_block rb) in
  mkIndex (rb_block rb)
    (omap (fun '(ordinal, op) =>
       if isRepairCandidate op
       then Some (indexRepairCandidate ordinal op (rb_block rb)) else None) ops)
    (collectOuterRepairCandidates rb)
    (omap (fun '(ordinal, op) =>
       if negb (lookupWait trace (op_id (g_op op)) =? 0) then Some ordinal else None)
       ops).

(** The ordinals are sorted, so that [lower_bound] is the first that is not
    smaller. *)
Definition getCandidateOrdinalRange (index : RepairBlockIndex)
    (targetOrdinal : nat) : nat * nat :=
  (default 0%nat (last (List.filter (fun n => n <? targetOrdinal)%nat
                          (waitOrdinals index))),
   match head (List.filter (fun n => targetOrdinal <? n)%nat (waitOrdinals index)) with
   | Some next => (next + 1)%nat
   | None => length (ix_ops index)
   end).

Definition localRange (index : RepairBlockIndex) (targetOrdinal : nat) :
    list RepairCandidate :=
  let '(first, last) := getCandidateOrdinalRange index targetOrdinal in
  List.filter (fun candidate =>
    (first <=? rc_ordinal candidate)%nat && (rc_ordinal candidate <? last)%nat)
    (localCandidates index).

(** The loops over candidates return after the first that is accepted. *)
Fixpoint tryLocal (block : list GapOp) (candidates : list RepairCandidate)
    (target : GapOp) (targetOrdinal : nat) (trace : BlockHazardTrace) :
    outcome (option (list GapOp)) :=
  match candidates with
  | [] => Ok None
  | candidate :: candidates' =>
      moved ← tryMoveRepairCandidate block candidate target targetOrdinal trace;
      match moved with
      | Some block' => Ok (Some block')
      | None => tryLocal block candidates' target targetOrdinal trace
      end
  end.
Definition tryLocalRepairCandidates (block : list GapOp) (target : GapOp)
    (targetOrdinal : nat) (index : RepairBlockIndex) (trace : BlockHazardTrace) :
    outcome (option (list GapOp)) :=
  tryLocal block (localRange index targetOrdinal) target targetOrdinal trace.

Fixpoint tryOuter (rb : RepairBlock) (candidates : list nat) (target : GapOp)
    (targetOrdinal : nat) (trace : BlockHazardTrace) :
    outcome (option RepairBlock) :=
  match candidates with
  | [] => Ok None
  | candidate :: candidates' =>
      moved ← tryPullOuterRepairCandidate rb candidate target targetOrdinal trace;
      match moved with
      | Some rb' => Ok (Some rb')
      | None => tryOuter rb candidates' target targetOrdinal trace
      end
  end.
Definition tryOuterRepairCandidates (rb : RepairBlock) (target : GapOp)
    (targetOrdinal : nat) (index : RepairBlockIndex) (trace : BlockHazardTrace) :
    outcome (option RepairBlock) :=
  tryOuter rb (outerCandidates index) target targetOrdinal trace.

(** ** The rounds *)

(** [tryRepairHazardOp] without the count of moves. *)
Definition tryRepairHazardOp (rb : RepairBlock) (op : GapOp) (ordinal : nat)
    (index : RepairBlockIndex) (trace : BlockHazardTrace) :
    outcome (option RepairBlock) :=
  if lookupWait trace (op_id op) =? 0 then Ok None
  else
    moved ← tryLocalRepairCandidates (rb_block rb) op ordinal index trace;
    match moved with
    | Some block =>
        Ok (Some (mkRepairBlock block (rb_outer rb) (rb_parent rb) (rb_after rb)))
    | None => tryOuterRepairCandidates rb op ordinal index trace
    end.

(** The loop over the operations of the index, up to the first move. *)
Fixpoint repairRound (rb : RepairBlock) (ops : list (nat * GapOp))
    (index : RepairBlockIndex) (trace : BlockHazardTrace) :
    outcome (option RepairBlock) :=
  match ops with
  | [] => Ok None
  | (ordinal, op) :: ops' =>
      moved ← tryRepairHazardOp rb op ordinal index trace;
      match moved with
      | Some rb' => Ok (Some rb')
      | None => repairRound rb ops' index trace
      end
  end.

(** How [repairBlock] ends: the block, whether it changed, and whether the
    warning "waveamd-hazard-repair did not converge" was emitted. *)
Record RepairResult : Type := mkRepairResult {
  rr_block : RepairBlock;
  rr_changed : bool;
  rr_warned : bool
}.

(** The loop of [repairBlock]; [None] when the fuel runs out. *)
Fixpoint repairLoop (fuel : nat) (rb : RepairBlock) (trace : BlockHazardTrace)
    (moves maxMoves : Z) (changed : bool) : outcome (option RepairResult) :=
  match fuel with
  | O => Ok None
  | S fuel' =>
      let index := buildRepairBlockIndex rb trace in
      moved ← repairRound rb (imap pair (ix_ops index)) index trace;
      match moved with
      | None => Ok (Some (mkRepairResult rb changed false))
      | Some rb' =>
          let moves := u32 (moves + 1) in
          if maxMoves <? moves then Ok (Some (mkRepairResult rb' true true))
          else
            trace ← computeBlockHazardTrace (rb_block rb');
            repairLoop fuel' rb' trace moves maxMoves true
      end
  end.

Definition repairBlock (fuel : nat) (rb : RepairBlock) :
    outcome (option RepairResult) :=
  trace ← computeBlockHazardTrace (rb_block rb);
  repairLoop fuel rb trace 0 (totalWaits trace) false.
End Repair.
