(* ===== verification/GapTrace.v ===== *)
(** * Traces of a block

    What [computeBlockHazardTrace] computes, and what an accepted move within a
    block does to it. *)

From stdpp Require Import base tactics list gmap numbers strings.
From S2P Require Import Prelude CostEnums ArchData MachineIR LatencyTable.
From S2P Require Import OpClassifier ExecState TicketIR GapIR GapState GapTransfer GapLattice.
From S2P Require Import GapGrow GapMachine GapSound GapStep.
From S2P Require Import GapFree GapProgram GapSpec GapEquiv GapRepair.

Definition opIds (ops : list GapOp) : list N := op_id ∘ g_op <$> ops.
#[global] Arguments opIds : simpl never.

Lemma opIds_cons (op : GapOp) ops : opIds (op :: ops) = op_id op :: opIds ops.
Proof. done. Qed.
Lemma opIds_app l1 l2 : opIds (l1 ++ l2) = opIds l1 ++ opIds l2.
Proof. apply fmap_app. Qed.

Section Trace.
Context `{LLVMTarget} `{GapLLVM} (cfg : HazardConfig) (Hcfg : configOk cfg).
Abbreviation gapWf := (gapWf cfg).
Implicit Types op : GapOp.

(** ** Operations one after the other *)

(** What both loops of the repair pass do with an operation. *)
Definition gapRunOp op (st : HazardState) : outcome (Z * HazardState) :=
  info ← getHazardOpInfo op cfg;
  '(wait, st) ← getRequiredMitigation cfg op info st;
  st ← transferHazards cfg op info st;
  Ok (wait, st).

Fixpoint gapRunOps (ops : list GapOp) (st : HazardState) : outcome (list Z * HazardState) :=
  match ops with
  | [] => Ok ([], st)
  | op :: ops' =>
      '(wait, st) ← gapRunOp op st;
      '(waits, st) ← gapRunOps ops' st;
      Ok (wait :: waits, st)
  end.

(** Operations on which the transfer of the analysis is defined. *)
Record opReady op : Prop := {
  ready_ok : gapOpOk op;
  ready_runs : exists info st st', getHazardOpInfo op cfg = Ok info /\
    transferHazards cfg op info st = Ok st'
}.

Lemma getRequiredMitigation_wf op info st count st' :
  infoOk cfg op info -> gapWf st -> getRequiredMitigation cfg op info st = Ok (count, st') ->
  0 <= count /\ gapWf st'.
Proof using Type.
  intros Hi Hst Hm. unfold getRequiredMitigation in Hm.
  destruct (slotStep cfg op info st) as [wait s1] eqn:H1.
  destruct (valuStep info s1) as [needs s2] eqn:H2.
  apply outcome_bind_Ok in Hm as ([vnops s3] & H3 & Hm).
  destruct (scratchStep cfg info s3) as [scratch s4] eqn:H4. injection Hm as <- <-.
  split; [apply u32_nonneg|].
  assert (gapWf s1) as W1.
  { unfold slotStep in H1. injection H1 as <- <-.
    pose proof (ssaWait_nonneg cfg op info st Hst). case_match; [done|].
    apply advanceHazards_wf; [lia|done]. }
  assert (gapWf s2) as W2.
  { unfold valuStep in H2. case_match; injection H2 as _ <-; [by apply advanceHazards_wf|done]. }
  assert (gapWf s3) as W3.
  { unfold coexecStep in H3. apply outcome_bind_Ok in H3 as (n & Hn & [= <- <-]).
    assert (0 <= n) as Hpos.
    { destruct (info_controlFlow info) eqn:Hcf.
      - unfold getRequiredCoexecVNops in Hn. rewrite Hcf in Hn. injection Hn as <-. lia.
      - destruct (coexecVNops_ub cfg op info s2 n Hcf Hn) as [C _].
        pose proof (transCoexecWait_nonneg cfg op info s2). lia. }
    case_match; [done|]. by apply advanceCoexecHazards_wf, advanceHazards_wf. }
  unfold scratchStep in H4. case_match; injection H4 as _ <-; [|done].
  by apply clearScratch_wf, advanceHazards_wf.
Qed.

Lemma gapRunOp_wf op st w st' :
  gapOpOk op -> gapWf st -> gapRunOp op st = Ok (w, st') -> 0 <= w /\ gapWf st'.
Proof using Hcfg.
  intros Hop Hst Hr. unfold gapRunOp in Hr. apply outcome_bind_Ok in Hr as (info & Hi & Hr).
  apply outcome_bind_Ok in Hr as ([w' s1] & Hm & Hr).
  apply outcome_bind_Ok in Hr as (s2 & Ht & [= <- <-]).
  pose proof (getHazardOpInfo_ok cfg op info Hop Hi) as Hok.
  destruct (getRequiredMitigation_wf op info st w' s1 Hok Hst Hm) as [Hw Hs].
  split; [done|]. by eapply transferHazards_wf.
Qed.

Lemma gapRunOp_total op st : opReady op -> exists r, gapRunOp op st = Ok r.
Proof using Type.
  intros [Hop (info & s & s' & Hi & Ht)]. unfold gapRunOp. rewrite Hi. simpl.
  assert (exists r, getRequiredMitigation cfg op info st = Ok r) as [[w s1] ->].
  { unfold getRequiredMitigation. destruct (slotStep cfg op info st) as [wait t1].
    destruct (valuStep info t1) as [needs t2].
    assert (exists n, getRequiredCoexecVNops cfg op info t2 = Ok n) as [n Hn].
    { destruct (info_controlFlow info) eqn:Hcf; [|by eapply transferHazards_total].
      unfold getRequiredCoexecVNops. rewrite Hcf. by eexists. }
    unfold coexecStep. rewrite Hn. simpl. destruct (scratchStep cfg info _). by eexists. }
  simpl. assert (exists s2, transferHazards cfg op info s1 = Ok s2) as [s2 ->]; [|by eexists].
  destruct (info_controlFlow info) eqn:Hcf; [|by eapply transferHazards_total].
  unfold transferHazards. rewrite Hcf. by eexists.
Qed.

Lemma gapRunOp_heq op a b w a' :
  heq a b -> gapRunOp op a = Ok (w, a') -> exists b', gapRunOp op b = Ok (w, b') /\ heq a' b'.
Proof using Type.
  intros Hab Hr. unfold gapRunOp in *. destruct (getHazardOpInfo op cfg) as [info| |]; [|done..].
  simpl in *. apply outcome_bind_Ok in Hr as ([w' a1] & Hm & Hr).
  destruct (getRequiredMitigation_heq cfg op info a b w' a1 Hab Hm) as (b1 & -> & H1). simpl.
  apply outcome_bind_Ok in Hr as (a2 & Ht & [= <- <-]).
  pose proof (transferHazards_heq cfg op info a1 b1 H1) as Hh. rewrite Ht in Hh.
  destruct (transferHazards cfg op info b1) as [b2| |]; simpl in *; [|done..]. by exists b2.
Qed.

Lemma gapRunOps_app l1 l2 st :
  gapRunOps (l1 ++ l2) st =
  ('(w1, st) ← gapRunOps l1 st; '(w2, st) ← gapRunOps l2 st; Ok (w1 ++ w2, st)).
Proof using Type.
  revert st. induction l1 as [|op l1 IH]; intros st; simpl.
  { by destruct (gapRunOps l2 st) as [[]| |]. }
  destruct (gapRunOp op st) as [[w s]| |]; simpl; [|done..]. rewrite IH.
  destruct (gapRunOps l1 s) as [[w1 s1]| |]; simpl; [|done..].
  by destruct (gapRunOps l2 s1) as [[]| |].
Qed.

Lemma gapRunOps_total ops : Forall opReady ops -> forall st, gapWf st ->
  exists ws st', gapRunOps ops st = Ok (ws, st') /\ gapWf st' /\ Forall (fun w => 0 <= w) ws /\
    length ws = length ops.
Proof using Hcfg.
  induction 1 as [|op ops Hop _ IH]; intros st Hst; simpl; [by exists [], st|].
  destruct (gapRunOp_total op st Hop) as [[w s] Hr]. rewrite Hr. simpl.
  destruct (gapRunOp_wf op st w s (ready_ok _ Hop) Hst Hr) as [Hw Hs].
  destruct (IH s Hs) as (ws & s' & -> & Hs' & Hws & Hlen). simpl.
  exists (w :: ws), s'. split_and!; [done|done|by constructor|simpl; lia].
Qed.

Lemma gapRunOps_heq ops : forall a b ws a', heq a b -> gapRunOps ops a = Ok (ws, a') ->
  exists b', gapRunOps ops b = Ok (ws, b').
Proof using Type.
  induction ops as [|op ops IH]; intros a b ws a' Hab Hr; simpl in *.
  { injection Hr as <- <-. by exists b. }
  apply outcome_bind_Ok in Hr as ([w s] & H1 & Hr).
  apply outcome_bind_Ok in Hr as ([ws' s'] & H2 & [= <- <-]).
  destruct (gapRunOp_heq op a b w s Hab H1) as (t & -> & Hst). simpl.
  destruct (IH _ _ _ _ Hst H2) as (t' & ->). by exists t'.
Qed.

(** ** Traces *)

(** The sum of the waits of a block. *)
Definition sumWaits (tr : BlockHazardTrace) (block : list GapOp) : Z :=
  sum_list_Z (lookupWait tr <$> opIds block).

Record isTrace (block : list GapOp) (tr : BlockHazardTrace) : Prop := {
  it_runs : exists st, gapRunOps block emptyHazardState = Ok (lookupWait tr <$> opIds block, st);
  it_before : forall l1 op l2, block = l1 ++ op :: l2 -> exists ws st,
    gapRunOps l1 emptyHazardState = Ok (ws, st) /\ tr_before tr !! op_id op = Some st;
  it_other : forall id, id ∉ opIds block -> tr_waits tr !! id = None;
  it_nonneg : forall id, 0 <= lookupWait tr id;
  it_total : totalWaits tr = u32 (sumWaits tr block)
}.

(** The loop, from a trace of the operations before. *)
Lemma traceOps_spec ops : forall st tr, Forall opReady ops -> gapWf st -> NoDup (opIds ops) ->
  (forall id, id ∈ opIds ops -> tr_before tr !! id = None /\ tr_waits tr !! id = None) ->
  exists tr' st', traceOps cfg ops st tr = Ok tr' /\
    gapRunOps ops st = Ok (lookupWait tr' <$> opIds ops, st') /\
    (forall id, id ∉ opIds ops ->
       tr_before tr' !! id = tr_before tr !! id /\ tr_waits tr' !! id = tr_waits tr !! id) /\
    (forall l1 op l2, ops = l1 ++ op :: l2 -> exists ws s,
       gapRunOps l1 st = Ok (ws, s) /\ tr_before tr' !! op_id op = Some s) /\
    (forall id, id ∈ opIds ops -> 0 <= lookupWait tr' id) /\
    (totalWaits tr = u32 (totalWaits tr) ->
     totalWaits tr' = u32 (totalWaits tr + sumWaits tr' ops)).
Proof using Hcfg.
  induction ops as [|op ops IH]; intros st tr Hr Hst Hnd Hnew; simpl.
  { exists tr, st. split_and!; try done.
    - by intros [|] ? ?.
    - by intros id ?%elem_of_nil.
    - unfold sumWaits. simpl. by rewrite Z.add_0_r. }
  apply Forall_cons in Hr as [Hop Hr].
  destruct (gapRunOp_total op st Hop) as [[w s] Hrun].
  destruct (gapRunOp_wf op st w s (ready_ok _ Hop) Hst Hrun) as [Hw Hs].
  pose proof Hrun as Hrun'. unfold gapRunOp in Hrun'.
  apply outcome_bind_Ok in Hrun' as (info & -> & Hrun').
  apply outcome_bind_Ok in Hrun' as ([w' s1] & Hm & Hrun').
  apply outcome_bind_Ok in Hrun' as (s2 & Ht & [= -> ->]). simpl. rewrite Hm. simpl. rewrite Ht.
  rewrite opIds_cons, NoDup_cons in Hnd. destruct Hnd as [Hid Hnd].
  destruct (Hnew (op_id op)) as [N1 N2]; [by apply list_elem_of_here|]. rewrite N1.
  set (tr1 := if w =? 0 then _ else _). simpl.
  assert (forall id, id <> op_id op ->
    tr_before tr1 !! id = tr_before tr !! id /\ tr_waits tr1 !! id = tr_waits tr !! id) as H1.
  { intros id Hne. unfold tr1. case_match; simpl; by rewrite ?lookup_insert_ne by done. }
  assert (tr_before tr1 !! op_id op = Some st) as H2.
  { unfold tr1. case_match; simpl; by rewrite lookup_insert_eq. }
  assert (lookupWait tr1 (op_id op) = w) as H3.
  { unfold tr1, lookupWait. destruct (Z.eqb_spec w 0) as [->|]; simpl;
      by rewrite ?N2, ?lookup_insert_eq. }
  assert (u32 (totalWaits tr1) = u32 (totalWaits tr + w) /\
    (totalWaits tr = u32 (totalWaits tr) -> totalWaits tr1 = u32 (totalWaits tr1))) as [H4 H4'].
  { unfold tr1. destruct (Z.eqb_spec w 0) as [->|]; simpl; [by rewrite Z.add_0_r|].
    unfold u32. by rewrite Z.mod_mod by lia. }
  clearbody tr1. rewrite Hrun. simpl.
  destruct (IH s tr1 Hr Hs Hnd) as (tr' & st' & Htr & Hruns & Hother & Hbef & Hnn & Htot).
  { intros id Hin. destruct (H1 id) as [-> ->]; [by intros ->|].
    apply Hnew. by apply list_elem_of_further. }
  exists tr', st'. destruct (Hother (op_id op) Hid) as [B1 B2].
  assert (lookupWait tr' (op_id op) = w) as H5 by (unfold lookupWait in *; by rewrite B2).
  split_and!.
  - done.
  - rewrite Hruns. simpl. by rewrite <-H5.
  - intros id Hn. rewrite opIds_cons in Hn. apply not_elem_of_cons in Hn as [Hne Hn].
    destruct (Hother id Hn) as [-> ->]. by apply H1.
  - intros [|x l1] y l2 Hsplit; simpl in Hsplit; injection Hsplit as -> Hrest.
    + exists [], st. split; [done|]. by rewrite B1.
    + destruct (Hbef l1 y l2 Hrest) as (ws & s' & Hl & Hb). exists (w :: ws), s'.
      split; [|done]. simpl. rewrite Hrun. simpl. by rewrite Hl.
  - intros id Hin. rewrite opIds_cons in Hin.
    apply elem_of_cons in Hin as [->|Hin]; [|by apply Hnn]. simpl. rewrite H5. lia.
  - intros Hu. rewrite Htot by auto. unfold sumWaits. rewrite opIds_cons, fmap_cons. simpl.
    rewrite H5. unfold u32 in *. rewrite Zplus_mod, H4, <-Zplus_mod. f_equal. lia.
Qed.

Lemma computeBlockHazardTrace_isTrace block :
  Forall opReady block -> NoDup (opIds block) ->
  exists tr, computeBlockHazardTrace cfg block = Ok tr /\ isTrace block tr.
Proof using Hcfg.
  intros Hr Hnd.
  destruct (traceOps_spec block emptyHazardState (mkTrace ∅ ∅ 0) Hr) as
    (tr & st & Htr & Hruns & Hother & Hbef & Hnn & Htot); [by apply emptyHazardState_wf|done| |].
  { intros id _. simpl. by rewrite !lookup_empty. }
  exists tr. split; [done|]. split.
  - by exists st.
  - done.
  - intros id Hn. destruct (Hother id Hn) as [_ ->]. apply lookup_empty.
  - intros id. destruct (decide (id ∈ opIds block)) as [Hin|Hn]; [by apply Hnn|].
    unfold lookupWait. destruct (Hother id Hn) as [_ ->]. simpl. by rewrite lookup_empty.
  - by rewrite Htot.
Qed.

(** The rest of a block runs as its trace says. *)
Lemma isTrace_suffix block tr l1 op l2 :
  isTrace block tr -> block = l1 ++ op :: l2 -> exists ws st st',
    gapRunOps l1 emptyHazardState = Ok (ws, st) /\ tr_before tr !! op_id op = Some st /\
    ws = lookupWait tr <$> opIds l1 /\
    gapRunOps (op :: l2) st = Ok (lookupWait tr <$> opIds (op :: l2), st').
Proof using Type.
  intros [(st' & Hr) Hb _ _ _] ->. destruct (Hb l1 op l2 eq_refl) as (ws & st & Hl & Hbef).
  rewrite gapRunOps_app, Hl in Hr. change (Ok (ws, st) ≫= ?k) with (k (ws, st)) in Hr.
  cbv beta iota in Hr. apply outcome_bind_Ok in Hr as ([w2 s2] & H2 & [= Hws ->]).
  rewrite opIds_app, fmap_app in Hws.
  assert (length ws = length (lookupWait tr <$> opIds l1)) as Hlen.
  { clear -Hl. unfold opIds. rewrite !length_fmap. revert Hl. generalize emptyHazardState.
    revert ws st. induction l1 as [|x l1 IH]; intros ws st s Hl; simpl in Hl; [by injection Hl as <- _|].
    apply outcome_bind_Ok in Hl as ([w s1] & _ & Hl).
    apply outcome_bind_Ok in Hl as ([ws' s2] & Hr & [= <- _]). simpl. f_equal. by eapply IH. }
  apply app_inj_1 in Hws as [-> ->]; [|done]. by exists (lookupWait tr <$> opIds l1), st, st'.
Qed.

(** ** The loop that accepts a move *)

Section Accept.
Context (block : list GapOp) (tr : BlockHazardTrace) (Htr : isTrace block tr).
Context (Hready : Forall opReady block).
Context (candidate target : N) (rejoinBefore : option N) (oldTargetWait : Z).

Lemma trace_before_ok l1 op l2 :
  block = l1 ++ op :: l2 -> exists st, tr_before tr !! op_id op = Some st /\ stateOk st.
Proof using Hcfg Hready Htr.
  intros Hb. destruct (isTrace_suffix block tr l1 op l2 Htr Hb) as (ws & st & st' & Hl & Hbef & _ & _).
  exists st. split; [done|]. pose proof Hready as Hr. rewrite Hb in Hr.
  apply Forall_app in Hr as [Hr _].
  destruct (gapRunOps_total l1 Hr emptyHazardState) as (ws' & s & Hl' & Hwf & _);
    [by apply emptyHazardState_wf|].
  assert (s = st) as -> by congruence. by apply Hwf.
Qed.

(** Where the trace may go on as the old one, the operations are those of the
    old block. *)
Definition rejoinOk (ops : list GapOp) (canRejoin : bool) : Prop :=
  (canRejoin = true -> exists l, block = l ++ ops) /\
  (forall l1 op l2, ops = l1 ++ op :: l2 -> rejoinBefore = Some (op_id op) ->
     exists l, block = l ++ op :: l2).

Lemma rejoinOk_tail op ops canRejoin :
  rejoinOk (op :: ops) canRejoin ->
  rejoinOk ops (canRejoin || bool_decide (op_id ∘ g_op <$> head ops = rejoinBefore)).
Proof using Type.
  clear Htr Hready. intros [H1 H2].
  split; [|by intros l1 x l2 ->; eapply (H2 (op :: l1))].
  intros Hc. destruct canRejoin; simpl in Hc.
  - destruct (H1 eq_refl) as [l ->]. exists (l ++ [op]). by rewrite <-app_assoc.
  - apply bool_decide_eq_true in Hc. destruct ops as [|x ops].
    + exists block. by rewrite app_nil_r.
    + by eapply (H2 [op] x ops).
Qed.

Lemma head_rejoins st ops canRejoin improved clear rejoined canRejoin' :
  hasRejoinedHazardTrace (head ops) rejoinBefore canRejoin improved clear st tr
    = Ok (canRejoin', rejoined) ->
  canRejoin' = canRejoin || bool_decide (op_id ∘ g_op <$> head ops = rejoinBefore) /\
  (rejoined = true -> canRejoin' = true /\ improved = true /\ exists op ops' old,
     ops = op :: ops' /\ tr_before tr !! op_id op = Some old /\ sameHazardState st old = true).
Proof using Type.
  unfold hasRejoinedHazardTrace. cbv zeta.
  set (c := canRejoin || _). destruct ops as [|op ops']; simpl; [by intros [= <- <-]|].
  destruct c, improved, clear; simpl; try (by intros [= <- <-]).
  destruct (tr_before tr !! op_id op) as [old|] eqn:Hold; [|done]. intros [= <- <-].
  split; [done|]. intros Hs. split_and!; [done|done|]. by exists op, ops', old.
Qed.

Lemma rejoin_total st ops canRejoin improved clear :
  rejoinOk ops (canRejoin || bool_decide (op_id ∘ g_op <$> head ops = rejoinBefore)) ->
  exists r, hasRejoinedHazardTrace (head ops) rejoinBefore canRejoin improved clear st tr = Ok r.
Proof using Hcfg Hready Htr.
  intros [H1 _]. unfold hasRejoinedHazardTrace. cbv zeta. set (c := canRejoin || _) in *.
  destruct ops as [|op ops']; simpl; [by eexists|].
  destruct c; simpl; [|by eexists]. destruct (H1 eq_refl) as [l Hl].
  destruct improved, clear; simpl; try by eexists.
  destruct (trace_before_ok l op ops' Hl) as (old & -> & _). by eexists.
Qed.

(** Every operation waits no longer than before; the target waits less. *)
Lemma movedHazardsAccepted_spec ops : forall st improved clear canRejoin,
  Forall opReady ops -> gapWf st -> rejoinOk ops canRejoin ->
  exists b, movedHazardsAccepted cfg ops st candidate target rejoinBefore oldTargetWait tr
    improved clear canRejoin = Ok b /\
  (b = true -> exists ws st', gapRunOps ops st = Ok (ws, st') /\
     Forall2 (fun id w => w <= lookupWait tr id) (opIds ops) ws /\
     (improved = true \/ exists i w, opIds ops !! i = Some target /\ ws !! i = Some w /\
        w < oldTargetWait)).
Proof using Hcfg Hready Htr.
  induction ops as [|op ops IH]; intros st improved clear canRejoin Hr Hst Hj; simpl.
  { exists (improved && clear). split; [done|]. intros [-> _]%andb_true_iff.
    exists [], st. split_and!; [done|constructor|by left]. }
  apply Forall_cons in Hr as [Hop Hr]. destruct (gapRunOp_total op st Hop) as [[w s] Hrun].
  destruct (gapRunOp_wf op st w s (ready_ok _ Hop) Hst Hrun) as [Hw Hs].
  pose proof Hrun as Hrun'. unfold gapRunOp in Hrun'.
  apply outcome_bind_Ok in Hrun' as (info & -> & Hrun').
  apply outcome_bind_Ok in Hrun' as ([w' s1] & Hm & Hrun').
  apply outcome_bind_Ok in Hrun' as (s2 & Ht & [= -> ->]). simpl. rewrite Hm. simpl.
  destruct (Z.ltb_spec (lookupWait tr (op_id op)) w) as [Hlt|Hle]; [by exists false|].
  rewrite Ht. simpl. set (improved' := if (op_id op =? target)%N then _ else improved).
  set (clear' := if (op_id op =? candidate)%N then _ else clear).
  pose proof (rejoinOk_tail op ops canRejoin Hj) as Hj'.
  destruct (rejoin_total s ops canRejoin improved' clear' Hj') as [[c r] Hre].
  rewrite Hre. simpl. destruct (head_rejoins _ _ _ _ _ _ _ Hre) as [-> Hrj].
  assert (forall ws st', gapRunOps ops s = Ok (ws, st') ->
    gapRunOps (op :: ops) st = Ok (w :: ws, st')) as Hcons.
  { intros ws st' Hops. simpl. rewrite Hrun. simpl. by rewrite Hops. }
  assert (improved' = true -> improved = true \/ (op_id op = target /\ w < oldTargetWait)) as Himp.
  { unfold improved'. destruct (N.eqb_spec (op_id op) target); [|by left].
    intros Hlt%Z.ltb_lt. by right. }
  destruct r.
  - exists true. split; [done|]. intros _.
    destruct (Hrj eq_refl) as (Hc & Hi & x & ops' & old & -> & Hold & Hsame).
    destruct Hj' as [Hsuf _]. destruct (Hsuf Hc) as [l Hl].
    destruct (isTrace_suffix block tr l x ops' Htr Hl) as (ws0 & old' & st' & _ & Hold' & _ & Hrest).
    assert (old' = old) as -> by congruence.
    destruct (gapRunOps_total (x :: ops') Hr s Hs) as (ws & s' & Hruns & _ & _ & _).
    assert (heq s old) as Hh by (apply sameHazardState_heq; [apply Hs|done]).
    destruct (gapRunOps_heq _ _ _ _ _ Hh Hruns) as [s'' Hruns'].
    assert (ws = lookupWait tr <$> opIds (x :: ops')) as -> by congruence.
    eexists _, s'. split; [by apply Hcons|]. split.
    + rewrite opIds_cons. constructor; [done|].
      apply Forall2_fmap_r, Forall_Forall2_diag, Forall_forall. intros y _. simpl. lia.
    + destruct (Himp Hi) as [?|[? ?]]; [by left|]. right. exists 0%nat, w.
      rewrite opIds_cons. simpl. by subst.
  - destruct (IH s improved' clear' _ Hr Hs Hj') as (b & -> & Hb). exists b. split; [done|].
    intros Ht'. destruct (Hb Ht') as (ws & st' & Hruns & Hall & Hor).
    exists (w :: ws), st'. split; [by apply Hcons|]. rewrite opIds_cons.
    split; [by constructor|]. destruct Hor as [Hi|(i & w' & Hid & Hws & Hlt)].
    + destruct (Himp Hi) as [?|[? ?]]; [by left|]. right. exists 0%nat, w. simpl. by subst.
    + right. by exists (S i), w'.
Qed.
End Accept.
End Trace.
