(* ===== verification/GapRepairSpec.v ===== *)
(** * The repair of a block

    Every accepted move makes the waits of the block shorter and none longer;
    so the rounds of [repairBlock] end before the bound at which it would warn. *)

From stdpp Require Import base tactics list gmap numbers strings.
From S2P Require Import Prelude CostEnums ArchData MachineIR LatencyTable OpClassifier.
From S2P Require Import ExecState TicketIR GapIR GapState GapTransfer GapLattice.
From S2P Require Import GapMachine GapGrow GapSound GapStep GapFree GapProgram GapSpec.
From S2P Require Import GapEquiv GapRepair GapTrace.

(** ** Positions in a block *)

Lemma NoDup_ids_split l1 (x : GapOp) l2 l1' y l2' :
  NoDup (opIds (l1 ++ x :: l2)) -> l1 ++ x :: l2 = l1' ++ y :: l2' -> op_id x = op_id y ->
  l1 = l1' /\ x = y /\ l2 = l2'.
Proof.
  intros Hnd Heq Hid.
  assert (opIds (l1 ++ x :: l2) !! length l1 = Some (op_id x)) as H1.
  { unfold opIds. rewrite list_lookup_fmap, list_lookup_middle by done. done. }
  assert (opIds (l1 ++ x :: l2) !! length l1' = Some (op_id x)) as H2.
  { rewrite Heq, Hid. unfold opIds. rewrite list_lookup_fmap, list_lookup_middle by done. done. }
  pose proof (NoDup_lookup _ _ _ _ Hnd H1 H2) as Hlen.
  apply app_inj_1 in Heq as [-> Heq]; [|done]. by injection Heq as -> ->.
Qed.

Lemma fromOp_app start l1 (x : GapOp) l2 :
  NoDup (opIds (l1 ++ x :: l2)) -> op_id ∘ g_op <$> start = Some (op_id x) ->
  fromOp start (l1 ++ x :: l2) = x :: l2.
Proof.
  intros Hnd Hs. induction l1 as [|y l1 IH]; simpl.
  - by rewrite bool_decide_true.
  - simpl in Hnd. rewrite opIds_cons, NoDup_cons in Hnd. destruct Hnd as [Hy Hnd].
    rewrite bool_decide_false; [by apply IH|]. rewrite Hs. intros [= Hid]. apply Hy.
    rewrite <-Hid, opIds_app, opIds_cons. set_solver.
Qed.

(** A move to an earlier and to a later place. *)
Lemma moveBefore_earlier (l1 : list GapOp) target l2 candidate l3 :
  moveBefore (l1 ++ target :: l2 ++ candidate :: l3) (S (length l1 + length l2)) (length l1)
  = l1 ++ candidate :: target :: l2 ++ l3.
Proof.
  set (block := l1 ++ target :: l2 ++ candidate :: l3).
  assert (block = (l1 ++ target :: l2) ++ candidate :: l3) as Hb
    by (unfold block; by rewrite <-app_assoc).
  assert (length (l1 ++ target :: l2) = S (length l1 + length l2)) as Hlen
    by (rewrite length_app; simpl; lia).
  unfold moveBefore. rewrite Hb, <-Hlen, list_lookup_middle by done.
  rewrite delete_middle. replace (length l1 <? _)%nat with true
    by (symmetry; apply Nat.ltb_lt; lia).
  rewrite <-app_assoc. rewrite take_app_length, drop_app_length. done.
Qed.

Lemma moveBefore_later (l1 : list GapOp) candidate l2 target l3 :
  moveBefore (l1 ++ candidate :: l2 ++ target :: l3) (length l1) (S (length l1 + length l2))
  = l1 ++ l2 ++ candidate :: target :: l3.
Proof.
  unfold moveBefore. rewrite list_lookup_middle by done. rewrite delete_middle.
  replace (_ <? length l1)%nat with false by (symmetry; apply Nat.ltb_ge; lia).
  replace (S (length l1 + length l2) - 1)%nat with (length (l1 ++ l2))
    by (rewrite length_app; lia).
  rewrite app_assoc, take_app_length, drop_app_length, <-app_assoc. done.
Qed.

Section Repair.
Context `{LLVMTarget} `{GapLLVM} `{GapUses} (cfg : HazardConfig) (Hcfg : configOk cfg).
Abbreviation gapWf := (gapWf cfg).
Abbreviation opReady := (opReady cfg).
Abbreviation isTrace := (isTrace cfg).
Implicit Types op : GapOp.

(** A block whose waits are no longer than before, and somewhere shorter. *)
Definition improves (tr : BlockHazardTrace) (block block' : list GapOp) : Prop :=
  exists tr', computeBlockHazardTrace cfg block' = Ok tr' /\ isTrace block' tr' /\
    (forall id, lookupWait tr' id <= lookupWait tr id) /\
    (exists id, id ∈ opIds block /\ lookupWait tr' id < lookupWait tr id).

Lemma rejoinOk_app block rejoinBefore l l1 l2 :
  NoDup (opIds (l1 ++ l2)) -> block = l ++ l2 ->
  rejoinBefore = op_id ∘ g_op <$> head l2 -> rejoinOk block rejoinBefore (l1 ++ l2) false.
Proof using Type.
  intros Hnd -> ->. split; [done|]. intros k1 op k2 Heq Hid.
  destruct l2 as [|x l2]; [done|]. simpl in Hid. injection Hid as Hid.
  destruct (NoDup_ids_split _ _ _ _ _ _ Hnd Heq Hid) as (_ & -> & ->). by exists l.
Qed.

(** The part of a block from the first change on, when it is accepted. *)
Lemma accepted_improves block tr l suffix suffix' x rest target rejoinBefore st :
  isTrace block tr -> NoDup (opIds block) -> Forall opReady block ->
  block = l ++ suffix -> suffix ≡ₚ suffix' -> suffix = x :: rest ->
  tr_before tr !! op_id x = Some st -> target ∈ opIds block ->
  rejoinOk block rejoinBefore suffix' false ->
  exists b, (forall candidate, movedHazardsAccepted cfg suffix' st candidate target rejoinBefore
    (lookupWait tr target) tr false false false = Ok (b candidate) /\
    (b candidate = true -> improves tr block (l ++ suffix'))).
Proof using Hcfg.
  intros Htr Hnd Hready Hb Hperm Hx Hst Htarget Hj.
  assert (block ≡ₚ l ++ suffix') as Hp by (rewrite Hb; by f_equiv).
  assert (Forall opReady (l ++ suffix')) as Hready' by by rewrite <-Hp.
  assert (NoDup (opIds (l ++ suffix'))) as Hnd'.
  { unfold opIds in *. by rewrite <-Hp. }
  pose proof Hready' as [Hl Hs]%Forall_app.
  rewrite Hx in Hb. destruct (isTrace_suffix cfg block tr l x rest Htr Hb)
    as (ws & st' & _ & Hrun & Hst' & Hws & _).
  assert (st' = st) as -> by congruence.
  assert (gapWf st) as Hwf.
  { destruct (gapRunOps_total cfg Hcfg l Hl emptyHazardState) as (ws' & s & Hrun' & Hwf & _);
      [by apply emptyHazardState_wf|]. assert (s = st) as -> by congruence. done. }
  assert (forall candidate, exists b, movedHazardsAccepted cfg suffix' st candidate target
    rejoinBefore (lookupWait tr target) tr false false false = Ok b /\
    (b = true -> improves tr block (l ++ suffix'))) as Hone.
  { intros candidate.
    destruct (movedHazardsAccepted_spec cfg Hcfg block tr Htr Hready candidate target rejoinBefore
      (lookupWait tr target) suffix' st false false false Hs Hwf Hj) as (b & Hb' & Hacc).
    exists b. split; [done|]. intros Htrue.
    destruct (Hacc Htrue) as (ws2 & st2 & Hruns & Hall & [?|(i & w & Hi & Hw & Hlt)]); [done|].
    destruct (computeBlockHazardTrace_isTrace cfg Hcfg _ Hready' Hnd') as (tr' & Hc & Htr').
    exists tr'. split; [done|]. split; [done|].
    destruct (it_runs _ _ _ Htr') as [s' Hr']. rewrite gapRunOps_app, Hrun in Hr'.
    change (Ok (ws, st) ≫= ?k) with (k (ws, st)) in Hr'. cbv beta iota in Hr'.
    rewrite Hruns in Hr'. simpl in Hr'. injection Hr' as Hlk _.
    rewrite opIds_app, fmap_app, Hws in Hlk.
    apply app_inj_1 in Hlk as [E1 E2]; [|by rewrite !length_fmap].
    assert (forall id, lookupWait tr' id <= lookupWait tr id) as Hle.
    { intros id. destruct (decide (id ∈ opIds (l ++ suffix'))) as [Hin|Hn].
      - rewrite opIds_app in Hin. apply elem_of_app in Hin as [Hin|Hin];
          apply list_elem_of_lookup in Hin as [k Hk].
        + assert ((lookupWait tr <$> opIds l) !! k = (lookupWait tr' <$> opIds l) !! k) as E
            by by rewrite E1. rewrite !list_lookup_fmap, Hk in E. simpl in E. injection E. lia.
        + destruct (Forall2_lookup_l _ _ _ _ _ Hall Hk) as (w' & Hw' & Hle).
          rewrite E2, list_lookup_fmap, Hk in Hw'. injection Hw' as <-. done.
      - pose proof (it_other _ _ _ Htr' id Hn) as Ho. unfold lookupWait at 1. rewrite Ho. simpl.
        apply (it_nonneg _ _ _ Htr). }
    split; [done|]. exists target. split; [done|].
    rewrite E2, list_lookup_fmap, Hi in Hw. injection Hw as <-. done. }
  exists (fun candidate => match movedHazardsAccepted cfg suffix' st candidate target rejoinBefore
    (lookupWait tr target) tr false false false with Ok b => b | _ => false end).
  intros candidate. destruct (Hone candidate) as (b & -> & Hb'). done.
Qed.

Lemma split_two (block : list GapOp) i j x y :
  (i < j)%nat -> block !! i = Some x -> block !! j = Some y -> exists l1 l2 l3,
    block = l1 ++ x :: l2 ++ y :: l3 /\ length l1 = i /\ S (length l1 + length l2) = j.
Proof using Type.
  intros Hij Hx Hy. apply list_elem_of_split_length in Hx as (l1 & r & -> & ->).
  rewrite lookup_app_r in Hy by lia.
  replace (j - length l1)%nat with (S (j - length l1 - 1)) in Hy by lia. simpl in Hy.
  apply list_elem_of_split_length in Hy as (l2 & l3 & -> & Hlen).
  exists l1, l2, l3. split; [done|]. split; [done|lia].
Qed.

Lemma lookup_behind (l1 : list GapOp) x l2 y l3 :
  (l1 ++ x :: l2 ++ y :: l3) !! S (S (length l1 + length l2)) = head l3.
Proof using Type.
  rewrite lookup_app_r by lia.
  replace (S (S (length l1 + length l2)) - length l1)%nat with (S (S (length l2))) by lia.
  simpl. rewrite lookup_app_r by lia.
  replace (S (length l2) - length l2)%nat with 1%nat by lia. by destruct l3.
Qed.

(** A move within a block is decided, and an accepted one only permutes the
    block and makes its waits shorter. *)
Lemma tryMoveRepairCandidate_spec block tr candidate target targetOrdinal :
  isTrace block tr -> NoDup (opIds block) -> Forall opReady block ->
  block !! rc_ordinal candidate = Some (rc_op candidate) ->
  block !! targetOrdinal = Some target ->
  exists r, tryMoveRepairCandidate cfg block candidate target targetOrdinal tr = Ok r /\
    forall block', r = Some block' ->
      block' = moveBefore block (rc_ordinal candidate) targetOrdinal /\
      block' ≡ₚ block /\ improves tr block block' /\
      canMoveCandidateTo candidate targetOrdinal = true.
Proof using Hcfg.
  intros Htr Hnd Hready Hc Ht. unfold tryMoveRepairCandidate.
  destruct (canMoveCandidateTo candidate targetOrdinal) eqn:Hcan; simpl; [|by exists None].
  pose proof Hcan as Hcan0.
  unfold canMoveCandidateTo in Hcan. rewrite !andb_true_iff, negb_true_iff, Nat.eqb_neq in Hcan.
  destruct Hcan as [[Hne _] _]. cbv zeta.
  destruct candidate as [c ordinal first last]. simpl in *.
  assert (target ∈ block) as Hin by by eapply list_elem_of_lookup_2.
  assert (op_id target ∈ opIds block) as Hid by (by apply (list_elem_of_fmap_2 (op_id ∘ g_op))).
  destruct (Nat.ltb_spec targetOrdinal ordinal) as [Hlt|Hge].
  - destruct (split_two block targetOrdinal ordinal target c Hlt Ht Hc)
      as (l1 & l2 & l3 & Hb & <- & <-).
    assert (block !! S (S (length l1 + length l2)) = head l3) as ->
      by (rewrite Hb; apply lookup_behind). pose proof (moveBefore_earlier l1 target l2 c l3) as Hmove.
    rewrite <-Hb in Hmove. rewrite Hmove. unfold getMovedRepairStart. simpl.
    assert (target :: l2 ++ c :: l3 ≡ₚ c :: target :: l2 ++ l3) as Hp.
    { rewrite <-Permutation_middle. apply perm_swap. }
    assert (block ≡ₚ l1 ++ c :: target :: l2 ++ l3) as Hperm by (rewrite Hb; by f_equiv).
    assert (NoDup (opIds (l1 ++ c :: target :: l2 ++ l3))) as Hnd'.
    { unfold opIds in *. by rewrite <-Hperm. }
    rewrite (fromOp_app (Some c) l1 c) by done.
    destruct (isTrace_suffix cfg block tr l1 target _ Htr Hb) as (ws & st & _ & _ & Hst & _).
    rewrite Hst.
    destruct (accepted_improves block tr l1 (target :: l2 ++ c :: l3) (c :: target :: l2 ++ l3)
      target (l2 ++ c :: l3) (op_id target) (op_id ∘ g_op <$> head l3) st) as (b & Hacc); try done.
    { apply (rejoinOk_app _ _ (l1 ++ target :: l2 ++ [c]) (c :: target :: l2) l3); [|..|done].
      - rewrite opIds_app in Hnd'. apply NoDup_app in Hnd' as (_ & _ & Hnd'). done.
      - rewrite Hb. by rewrite <-!app_assoc, <-app_comm_cons, <-app_assoc. }
    destruct (Hacc (op_id c)) as [Hb' Himp]. rewrite Hb'. simpl.
    eexists. split; [done|]. intros block' Hblock'.
    destruct (b (op_id c)); [|done]. injection Hblock' as <-.
    split_and!; [done|by symmetry|by apply Himp|done].
  - assert (ordinal < targetOrdinal)%nat as Hlt by lia.
    destruct (split_two block ordinal targetOrdinal c target Hlt Hc Ht)
      as (l1 & l2 & l3 & Hb & <- & <-).
    assert (block !! S (S (length l1 + length l2)) = head l3) as ->
      by (rewrite Hb; apply lookup_behind).
    assert (block !! S (length l1) = head (l2 ++ target :: l3)) as ->.
    { rewrite Hb, lookup_app_r by lia. replace (S (length l1) - length l1)%nat with 1%nat by lia.
      simpl. by destruct l2. }
    pose proof (moveBefore_later l1 c l2 target l3) as Hmove. rewrite <-Hb in Hmove.
    rewrite Hmove.
    assert (c :: l2 ++ target :: l3 ≡ₚ l2 ++ c :: target :: l3) as Hp
      by apply Permutation_middle.
    assert (block ≡ₚ l1 ++ l2 ++ c :: target :: l3) as Hperm by (rewrite Hb; by f_equiv).
    assert (NoDup (opIds (l1 ++ l2 ++ c :: target :: l3))) as Hnd'.
    { unfold opIds in *. by rewrite <-Hperm. }
    assert (fromOp (getMovedRepairStart c (head (l2 ++ target :: l3)) target false)
      (l1 ++ l2 ++ c :: target :: l3) = l2 ++ c :: target :: l3) as ->.
    { unfold getMovedRepairStart. simpl. destruct l2 as [|y l2]; simpl.
      - rewrite bool_decide_true by done. by apply (fromOp_app (Some c)).
      - rewrite bool_decide_false; [by apply (fromOp_app (Some y))|]. intros [= Hy].
        simpl in Hnd'. rewrite opIds_app, opIds_cons in Hnd'.
        apply NoDup_app in Hnd' as (_ & _ & Hnd'). apply NoDup_cons in Hnd' as [Hn _].
        apply Hn. rewrite Hy, opIds_app, !opIds_cons. set_solver. }
    destruct (isTrace_suffix cfg block tr l1 c _ Htr Hb) as (ws & st & _ & _ & Hst & _).
    rewrite Hst.
    destruct (accepted_improves block tr l1 (c :: l2 ++ target :: l3) (l2 ++ c :: target :: l3)
      c (l2 ++ target :: l3) (op_id target) (op_id ∘ g_op <$> head l3) st) as (b & Hacc); try done.
    { replace (l2 ++ c :: target :: l3) with ((l2 ++ [c; target]) ++ l3) by by rewrite <-app_assoc.
      apply (rejoinOk_app _ _ (l1 ++ c :: l2 ++ [target])); [|..|done].
      - rewrite <-app_assoc. rewrite opIds_app in Hnd'. by apply NoDup_app in Hnd' as (_ & _ & Hnd').
      - rewrite Hb. by rewrite <-!app_assoc, <-app_comm_cons, <-app_assoc. }
    destruct (Hacc (op_id c)) as [Hb' Himp]. rewrite Hb'. simpl.
    eexists. split; [done|]. intros block' Hblock'.
    destruct (b (op_id c)); [|done]. injection Hblock' as <-.
    split_and!; [done|by symmetry|by apply Himp|done].
Qed.

(** ** One move *)

(** All operations of the block and of the one around it. *)
Definition allOps (rb : RepairBlock) : list GapOp := rb_block rb ++ sourceBlock rb.

Record repairOk (rb : RepairBlock) : Prop := {
  rok_ids : NoDup (opIds (allOps rb));
  rok_ready : Forall opReady (allOps rb)
}.

(** The blocks have the same operations; no wait of the block is longer, and
    the sum of them is smaller. *)
Record better (tr : BlockHazardTrace) (rb rb' : RepairBlock) : Prop := {
  bt_ops : allOps rb' ≡ₚ allOps rb;
  bt_trace : exists tr', computeBlockHazardTrace cfg (rb_block rb') = Ok tr' /\
    isTrace (rb_block rb') tr' /\
    (forall id, lookupWait tr' id <= lookupWait tr id) /\
    sumWaits tr' (rb_block rb') < sumWaits tr (rb_block rb)
}.

Lemma repairOk_perm rb rb' : allOps rb' ≡ₚ allOps rb -> repairOk rb -> repairOk rb'.
Proof using Type. intros Hp [Hi Hr]. split; unfold opIds in *; by rewrite Hp. Qed.

Lemma repairOk_block rb : repairOk rb ->
  NoDup (opIds (rb_block rb)) /\ Forall opReady (rb_block rb) /\
  NoDup (opIds (sourceBlock rb)) /\ Forall opReady (sourceBlock rb).
Proof using Type.
  intros [Hi Hr]. unfold allOps in *. rewrite opIds_app in Hi.
  apply NoDup_app in Hi as (? & _ & ?). by apply Forall_app in Hr as [? ?].
Qed.

Lemma sum_le (w w' : N -> Z) l :
  (forall id, w' id <= w id) -> sum_list_Z (w' <$> l) <= sum_list_Z (w <$> l).
Proof using Type. intros Hle. induction l as [|x l IH]; csimpl; [done|]. specialize (Hle x). lia. Qed.

Lemma sum_lt (w w' : N -> Z) l id :
  (forall id, w' id <= w id) -> id ∈ l -> w' id < w id ->
  sum_list_Z (w' <$> l) < sum_list_Z (w <$> l).
Proof using Type.
  intros Hle Hin Hlt. induction l as [|x l IH]; csimpl; [by apply elem_of_nil in Hin|].
  pose proof (sum_le w w' l Hle). pose proof (Hle x).
  apply elem_of_cons in Hin as [->|Hin]; [lia|]. specialize (IH Hin). lia.
Qed.

Lemma local_better rb tr block' :
  improves tr (rb_block rb) block' -> block' ≡ₚ rb_block rb ->
  better tr rb (mkRepairBlock block' (rb_outer rb) (rb_parent rb) (rb_after rb)).
Proof using Type.
  intros (tr' & Hc & Ht & Hle & id & Hin & Hlt) Hp. split.
  - by apply Permutation_app.
  - exists tr'. split_and!; try done. simpl. unfold sumWaits, opIds.
    rewrite (sum_list_Z_Permutation _ (lookupWait tr' <$> (op_id ∘ g_op <$> rb_block rb)))
      by by rewrite Hp. by apply (sum_lt _ _ _ id).
Qed.

Lemma tryLocal_spec rb tr candidates target targetOrdinal :
  isTrace (rb_block rb) tr -> repairOk rb -> rb_block rb !! targetOrdinal = Some target ->
  Forall (fun c => rb_block rb !! rc_ordinal c = Some (rc_op c)) candidates ->
  exists r, tryLocal cfg (rb_block rb) candidates target targetOrdinal tr = Ok r /\
    forall block', r = Some block' ->
      better tr rb (mkRepairBlock block' (rb_outer rb) (rb_parent rb) (rb_after rb)).
Proof using Hcfg.
  intros Htr Hok Ht Hc. destruct (repairOk_block rb Hok) as (Hnd & Hready & _).
  induction Hc as [|c candidates Hc _ IH]; simpl; [by exists None|].
  destruct (tryMoveRepairCandidate_spec _ _ c target targetOrdinal Htr Hnd Hready Hc Ht)
    as (r & -> & Hr). simpl. destruct r as [block'|]; [|done].
  eexists. split; [done|]. intros b [= <-]. destruct (Hr block' eq_refl) as (_ & Hp & Hi & _).
  by apply local_better.
Qed.

Lemma doNotIncrease before after :
  (forall id, 0 <= lookupWait before id) -> hazardsDoNotIncrease before after = true ->
  forall id, lookupWait after id <= lookupWait before id.
Proof using Type.
  intros Hpos Hf id. unfold hazardsDoNotIncrease in Hf. rewrite forallb_forall in Hf.
  unfold lookupWait at 1. destruct (tr_waits after !! id) as [w|] eqn:Hw; [|apply Hpos].
  assert (In (id, w) (map_to_list (tr_waits after))) as Hin
    by by apply list_elem_of_In, elem_of_map_to_list.
  apply Hf in Hin. by apply Z.leb_le in Hin.
Qed.

Lemma exchange_perm op (b b' o o' s : list GapOp) :
  b' ≡ₚ op :: b -> o ≡ₚ op :: o' -> b' ++ o' ++ s ≡ₚ b ++ o ++ s.
Proof using Type. intros -> ->. simpl. by rewrite Permutation_middle. Qed.

Lemma tryPull_spec rb tr candidate target targetOrdinal :
  isTrace (rb_block rb) tr -> repairOk rb -> rb_block rb !! targetOrdinal = Some target ->
  exists r, tryPullOuterRepairCandidate cfg rb candidate target targetOrdinal tr = Ok r /\
    forall rb', r = Some rb' -> better tr rb rb'.
Proof using Hcfg.
  intros Htr Hok Ht. unfold tryPullOuterRepairCandidate.
  destruct (rb_outer rb !! candidate) as [op|] eqn:Hop; [|by exists None].
  destruct (canPullOuterRepairCandidate rb op target); simpl; [|by exists None].
  destruct (repairOk_block rb Hok) as (Hnd & Hready & Hnd2 & Hready2).
  destruct (computeBlockHazardTrace_isTrace cfg Hcfg _ Hready2 Hnd2) as (str & -> & Hstr). simpl.
  set (rb' := mkRepairBlock _ _ _ _).
  assert (rb_block rb' ≡ₚ op :: rb_block rb) as Hblock.
  { unfold rb'. simpl. rewrite <-Permutation_middle. by rewrite take_drop. }
  assert (rb_outer rb ≡ₚ op :: rb_outer rb') as Houter by (by apply delete_Permutation).
  assert (allOps rb' ≡ₚ allOps rb) as Hall.
  { exact (exchange_perm op (rb_block rb) (rb_block rb') (rb_outer rb) (rb_outer rb')
      (option_list (rb_parent rb) ++ rb_after rb) Hblock Houter). }
  pose proof (repairOk_perm _ _ Hall Hok) as Hok'.
  destruct (repairOk_block rb' Hok') as (Hnd' & Hready' & Hnd2' & Hready2').
  destruct (computeBlockHazardTrace_isTrace cfg Hcfg _ Hready' Hnd') as (mt & Hmt & Hmtr).
  destruct (computeBlockHazardTrace_isTrace cfg Hcfg _ Hready2' Hnd2') as (ms & Hms & Hmsr).
  replace (computeBlockHazardTrace cfg (take _ _ ++ _)) with (Ok mt) by by rewrite <-Hmt.
  simpl. rewrite Hms. simpl. eexists. split; [done|].
  destruct (_ && _) eqn:Hacc; [|done]. intros ? [= <-].
  rewrite !andb_true_iff in Hacc. destruct Hacc as [[[Hlt Hzero] Hinc] _].
  apply Z.ltb_lt in Hlt. apply Z.eqb_eq in Hzero.
  pose proof (doNotIncrease tr mt (it_nonneg _ _ _ Htr) Hinc) as Hle.
  split; [done|]. exists mt. split_and!; try done.
  unfold sumWaits, opIds.
  rewrite (sum_list_Z_Permutation _ (lookupWait mt <$> (op_id ∘ g_op <$> op :: rb_block rb)))
    by by rewrite Hblock. csimpl. rewrite Hzero. simpl.
  apply (sum_lt _ _ _ (op_id target)); [done| |done].
  apply (list_elem_of_fmap_2 (op_id ∘ g_op)). by eapply list_elem_of_lookup_2.
Qed.

Lemma tryOuter_spec rb tr candidates target targetOrdinal :
  isTrace (rb_block rb) tr -> repairOk rb -> rb_block rb !! targetOrdinal = Some target ->
  exists r, tryOuter cfg rb candidates target targetOrdinal tr = Ok r /\
    forall rb', r = Some rb' -> better tr rb rb'.
Proof using Hcfg.
  intros Htr Hok Ht. induction candidates as [|c candidates IH]; simpl; [by exists None|].
  destruct (tryPull_spec rb tr c target targetOrdinal Htr Hok Ht) as (r & -> & Hr). simpl.
  destruct r as [rb'|]; [|done]. by exists (Some rb').
Qed.

(** ** Rounds *)

Lemma local_candidates_at rb tr :
  Forall (fun c => rb_block rb !! rc_ordinal c = Some (rc_op c))
    (localCandidates (buildRepairBlockIndex rb tr)).
Proof using Type.
  apply Forall_forall. intros c Hc. simpl in Hc.
  apply list_elem_of_omap in Hc as ([i op] & Hin & Hs).
  apply elem_of_lookup_imap in Hin as (j & x & [= -> ->] & Hj).
  destruct (isRepairCandidate x); [|done]. by injection Hs as <-.
Qed.

Lemma tryRepairHazardOp_spec rb tr op ordinal :
  isTrace (rb_block rb) tr -> repairOk rb -> rb_block rb !! ordinal = Some op ->
  exists r, tryRepairHazardOp cfg rb op ordinal (buildRepairBlockIndex rb tr) tr = Ok r /\
    forall rb', r = Some rb' -> better tr rb rb'.
Proof using Hcfg.
  intros Htr Hok Ho. unfold tryRepairHazardOp. case_match; [by exists None|].
  unfold tryLocalRepairCandidates, localRange.
  destruct (getCandidateOrdinalRange _ ordinal) as [first last].
  destruct (tryLocal_spec rb tr (List.filter (fun candidate =>
      (first <=? rc_ordinal candidate)%nat && (rc_ordinal candidate <? last)%nat)
    (localCandidates (buildRepairBlockIndex rb tr))) op ordinal Htr Hok Ho) as (r & -> & Hr).
  { pose proof (local_candidates_at rb tr) as Hc. rewrite Forall_forall in *.
    intros c Hin. apply list_elem_of_In, filter_In in Hin as [Hin _].
    by apply Hc, list_elem_of_In. }
  simpl. destruct r as [block|].
  - eexists. split; [done|]. intros rb' [= <-]. by apply Hr.
  - by apply tryOuter_spec.
Qed.

Lemma repairRound_spec rb tr ops :
  isTrace (rb_block rb) tr -> repairOk rb ->
  Forall (fun '(ordinal, op) => rb_block rb !! ordinal = Some op) ops ->
  exists r, repairRound cfg rb ops (buildRepairBlockIndex rb tr) tr = Ok r /\
    forall rb', r = Some rb' -> better tr rb rb'.
Proof using Hcfg.
  intros Htr Hok Ho. induction Ho as [|[ordinal op] ops Ho _ IH]; simpl; [by exists None|].
  destruct (tryRepairHazardOp_spec rb tr op ordinal Htr Hok Ho) as (r & -> & Hr). simpl.
  destruct r as [rb'|]; [|done]. by exists (Some rb').
Qed.

(** The number of rounds is bounded by the sum of the waits that are left. *)
Lemma repairLoop_converges maxMoves fuel : forall rb tr moves changed,
  computeBlockHazardTrace cfg (rb_block rb) = Ok tr -> isTrace (rb_block rb) tr ->
  repairOk rb -> 0 <= moves -> maxMoves < 4294967296 ->
  moves + sumWaits tr (rb_block rb) <= maxMoves ->
  sumWaits tr (rb_block rb) < Z.of_nat fuel ->
  exists r tr', repairLoop cfg fuel rb tr moves maxMoves changed = Ok (Some r) /\
    rr_warned r = false /\ allOps (rr_block r) ≡ₚ allOps rb /\
    isTrace (rb_block (rr_block r)) tr' /\
    computeBlockHazardTrace cfg (rb_block (rr_block r)) = Ok tr' /\
    (forall id, lookupWait tr' id <= lookupWait tr id) /\
    sumWaits tr' (rb_block (rr_block r)) <= sumWaits tr (rb_block rb) /\
    (rr_changed r = changed \/
     sumWaits tr' (rb_block (rr_block r)) < sumWaits tr (rb_block rb)).
Proof using Hcfg.
  induction fuel as [|fuel IH]; intros rb tr moves changed Hc0 Htr Hok Hm Hmax Hsum Hfuel.
  { assert (0 <= sumWaits tr (rb_block rb)); [|lia]. unfold sumWaits.
    apply sum_list_Z_nonneg, Forall_fmap, Forall_forall. intros id _. apply (it_nonneg _ _ _ Htr). }
  cbn [repairLoop]. cbv zeta.
  destruct (repairRound_spec rb tr (imap pair (ix_ops (buildRepairBlockIndex rb tr))) Htr Hok)
    as (r & -> & Hr).
  { apply Forall_forall. intros [i op] Hin.
    by apply elem_of_lookup_imap in Hin as (j & x & [= -> ->] & Hj). }
  change (Ok r ≫= ?k) with (k r). cbv beta. destruct r as [rb'|].
  - destruct (Hr rb' eq_refl) as [Hops (tr' & Hc & Htr' & Hle & Hlt)].
    assert (0 <= sumWaits tr' (rb_block rb')) as Hpos.
    { unfold sumWaits. apply sum_list_Z_nonneg, Forall_fmap, Forall_forall.
      intros id _. apply (it_nonneg _ _ _ Htr'). }
    rewrite u32_small by lia. destruct (Z.ltb_spec maxMoves (moves + 1)); [lia|].
    rewrite Hc. change (Ok tr' ≫= ?k) with (k tr'). cbv beta.
    destruct (IH rb' tr' (moves + 1) true Hc Htr' (repairOk_perm _ _ Hops Hok))
      as (res & tr'' & J2 & J3 & J4 & J5 & J6 & J7 & J8 & _); [lia..|].
    exists res, tr''. split_and!; try done.
    + by rewrite J4.
    + intros id. specialize (J7 id). specialize (Hle id). lia.
    + lia.
    + right. lia.
  - eexists _, tr. split; [done|]. simpl. split_and!; try done. by left.
Qed.
End Repair.

(** C31: the repair of a block converges: within one round per wait of the block
    it ends, and the warning that it did not is never emitted; the operations
    of the block and of the one around it are the same, no operation of the
    block waits longer than before, and when it changed the block the waits are
    fewer. *)
Theorem repair_converges `{LLVMTarget} `{GapLLVM} `{GapUses} sti wavefrontSize cfg rb trace
    (Hdecode : forall isa x, small (decodeLgkmcnt isa x))
    (Hcfg : makeHazardConfig sti wavefrontSize = Ok cfg)
    (Hok : repairOk cfg rb)
    (Htrace : computeBlockHazardTrace cfg (rb_block rb) = Ok trace)
    (Hsum : sumWaits trace (rb_block rb) < 4294967296) :
  exists r trace',
    repairBlock cfg (S (Z.to_nat (totalWaits trace))) rb = Ok (Some r) /\
    rr_warned r = false /\
    allOps (rr_block r) ≡ₚ allOps rb /\
    computeBlockHazardTrace cfg (rb_block (rr_block r)) = Ok trace' /\
    (forall op, lookupWait trace' op <= lookupWait trace op) /\
    (rr_changed r = true -> totalWaits trace' < totalWaits trace).
Proof.
  pose proof (makeHazardConfig_ok _ _ _ Hdecode Hcfg) as Hcok.
  destruct (repairOk_block cfg rb Hok) as (Hnd & Hready & _).
  destruct (computeBlockHazardTrace_isTrace cfg Hcok _ Hready Hnd) as (tr & Htr & Ht).
  assert (tr = trace) as -> by congruence.
  assert (forall b t, isTrace cfg b t -> 0 <= sumWaits t b) as Hpos.
  { intros b t Hb. unfold sumWaits. apply sum_list_Z_nonneg, Forall_fmap, Forall_forall.
    intros id _. apply (it_nonneg _ _ _ Hb). }
  pose proof (Hpos _ _ Ht) as Hp. pose proof (it_total _ _ _ Ht) as Htot.
  rewrite u32_small in Htot by lia.
  destruct (repairLoop_converges cfg Hcok (totalWaits trace) (S (Z.to_nat (totalWaits trace)))
    rb trace 0 false Htrace Ht Hok) as (r & tr' & R1 & R2 & R3 & R4 & R5 & R6 & R7 & R8);
    [lia..|].
  exists r, tr'. unfold repairBlock. rewrite Htrace. change (Ok trace ≫= ?k) with (k trace).
  split_and!; try done. intros Hch. destruct R8 as [R8|R8]; [congruence|].
  rewrite (it_total _ _ _ R4), u32_small, Htot; [done|]. pose proof (Hpos _ _ R4). lia.
Qed.

(** ** Moves keep definitions before uses

    The range of ordinals that [indexRepairCandidate] gives a candidate lets it
    go only where its operands are defined and its results not yet used. *)

Section Order.
Context `{LLVMTarget} `{GapLLVM} `{GapUses} (cfg : HazardConfig) (Hcfg : configOk cfg).
Implicit Types x y op : GapOp.

(** A result of the first is used in the second or in its regions. *)
Definition feeds x y : Prop :=
  exists result, result ∈ op_results x /\ usesValue y result = true.

(** No operation is fed by itself or by a later one. *)
Fixpoint ordered (block : list GapOp) : Prop :=
  match block with
  | [] => True
  | y :: block' => (forall x, x ∈ block -> ~ feeds x y) /\ ordered block'
  end.

(** Every value has one definition in the block. *)
Definition definedOnce (block : list GapOp) : Prop :=
  forall i j x y v, block !! i = Some x -> block !! j = Some y ->
    definesValue x v = true -> definesValue y v = true -> i = j.

Lemma ordered_app l1 l2 :
  ordered (l1 ++ l2) <-> ordered l1 /\ ordered l2 /\
    (forall y x, y ∈ l1 -> x ∈ l2 -> ~ feeds x y).
Proof using Type.
  induction l1 as [|y l1 IH]; simpl.
  { split; [|tauto]. intros Ho. split_and!; [done|done|]. by intros ? ? ?%elem_of_nil. }
  rewrite IH. split.
  - intros (Hy & H1' & H2' & H3'). split_and!; try done.
    + intros x Hx. apply Hy. apply elem_of_cons in Hx as [->|Hx];
        [apply list_elem_of_here|]. apply list_elem_of_further, elem_of_app. by left.
    + intros z x [->|Hz]%elem_of_cons Hx; [|by apply H3'].
      apply Hy, list_elem_of_further, elem_of_app. by right.
  - intros ((Hy & H1') & H2' & H3'). split_and!; try done.
    + intros x [->|[Hx|Hx]%elem_of_app]%elem_of_cons.
      * apply Hy, list_elem_of_here.
      * by apply Hy, list_elem_of_further.
      * apply H3'; [apply list_elem_of_here|done].
    + intros z x Hz Hx. apply H3'; [by apply list_elem_of_further|done].
Qed.

Lemma ordered_cons y l : ordered (y :: l) <-> ~ feeds y y /\ ordered l /\
  (forall x, x ∈ l -> ~ feeds x y).
Proof using Type.
  simpl. split.
  - intros [Hy Hl]. split_and!; [apply Hy, list_elem_of_here|done|].
    intros x Hx. by apply Hy, list_elem_of_further.
  - intros (H1' & H2' & H3'). split; [|done]. by intros x [->|Hx]%elem_of_cons; auto.
Qed.

(** ** The range of a candidate *)

Lemma ordinal_max_ge {A} (f : A -> option nat) l : forall acc,
  let m := fold_left (fun m (x : A) => match f x with Some d => Nat.max m d | None => m end) l acc in
  (acc <= m)%nat /\ forall (x : A) d, x ∈ l -> f x = Some d -> (d <= m)%nat.
Proof using Type.
  clear. induction l as [|y l IH]; intros acc; simpl.
  { split; [done|]. by intros ? ? ?%elem_of_nil. }
  destruct (IH (match f y with Some d => Nat.max acc d | None => acc end)) as [I1 I2].
  split; [etransitivity; [|exact I1]; clear; destruct (f y); lia|]. intros x d [->|Hx]%elem_of_cons Hf; [|by eapply I2].
  rewrite Hf in I1 |- *. etransitivity; [apply Nat.le_max_r|exact I1].
Qed.

Lemma ordinal_min_le {A} (f : A -> option nat) l : forall acc,
  let m := fold_left (fun m (x : A) => match f x with Some d => Nat.min m d | None => m end) l acc in
  (m <= acc)%nat /\ forall (x : A) d, x ∈ l -> f x = Some d -> (m <= d)%nat.
Proof using Type.
  clear. induction l as [|y l IH]; intros acc; simpl.
  { split; [done|]. by intros ? ? ?%elem_of_nil. }
  destruct (IH (match f y with Some d => Nat.min acc d | None => acc end)) as [I1 I2].
  split; [etransitivity; [exact I1|]; clear; destruct (f y); lia|]. intros x d [->|Hx]%elem_of_cons Hf; [|by eapply I2].
  rewrite Hf in I1 |- *. etransitivity; [exact I1|apply Nat.le_min_r].
Qed.

Lemma targetBegin_spec ordinal candidate block i x :
  definedOnce block -> usedInside candidate = [] ->
  block !! i = Some x -> feeds x candidate ->
  (i < rc_targetBegin (indexRepairCandidate ordinal candidate block))%nat.
Proof using Type.
  intros Honce Hin Hi (r & Hr & Hu). unfold usesValue in Hu.
  rewrite Hin, app_nil_r, bool_decide_eq_true in Hu.
  apply list_elem_of_fmap in Hu as (operand & Hid & Hop).
  assert (definesValue x operand = true) as Hdef.
  { unfold definesValue. rewrite bool_decide_eq_true, <-Hid. by apply list_elem_of_fmap_2. }
  destruct (list_find_elem_of (fun op : GapOp => definesValue op operand = true) block x)
    as [[d y] Hd]; [by eapply list_elem_of_lookup_2|done|].
  pose proof Hd as Hd'. apply list_find_Some in Hd' as (Hdy & Hdef' & _).
  pose proof (Honce _ _ _ _ _ Hi Hdy Hdef Hdef') as ->.
  destruct (ordinal_max_ge (fun operand =>
    (fun '(def, _) => (def + 1)%nat) <$>
      list_find (fun op : GapOp => definesValue op operand = true) block)
    (op_operands candidate) 0%nat) as [_ Hmax].
  specialize (Hmax operand (d + 1)%nat Hop). rewrite Hd in Hmax. specialize (Hmax eq_refl).
  unfold indexRepairCandidate. simpl.
  assert (forall l acc, fold_left (fun targetBegin operand =>
    match list_find (fun op : GapOp => definesValue op operand = true) block with
    | Some (def, _) => Nat.max targetBegin (def + 1)
    | None => targetBegin
    end) l acc = fold_left (fun m (operand : Value) => match (fun '(def, _) => (def + 1)%nat) <$>
      list_find (fun op : GapOp => definesValue op operand = true) block with
    | Some d => Nat.max m d | None => m end) l acc) as Hext.
  { induction l as [|z l IH]; intros acc; simpl; [done|]. rewrite IH.
    f_equal. by destruct (list_find (fun op : GapOp => definesValue op z = true) block) as [[? ?]|]. }
  rewrite Hext. lia.
Qed.

Lemma targetEnd_spec ordinal candidate block i y :
  block !! i = Some y -> feeds candidate y ->
  (rc_targetEnd (indexRepairCandidate ordinal candidate block) <= i + 1)%nat.
Proof using Type.
  intros Hi (r & Hr & Hu). unfold indexRepairCandidate. simpl.
  set (inner := fun targetEnd result => fold_left _ (imap pair block) targetEnd).
  assert (forall acc result, (inner acc result <= acc)%nat /\
    (usesValue y result = true -> (inner acc result <= i + 1)%nat)) as Hinner.
  { intros acc result. destruct (ordinal_min_le (fun '(user, op) =>
      if usesValue op result then Some (user + 1)%nat else None) (imap pair block) acc)
      as [I1 I2].
    assert (inner acc result = fold_left (fun m (x : nat * GapOp) => match (fun '(user, op) =>
      if usesValue op result then Some (user + 1)%nat else None) x with
      | Some d => Nat.min m d | None => m end) (imap pair block) acc) as ->.
    { unfold inner. generalize (imap pair block) acc. intros l.
      induction l as [|[u o] l IH]; intros a; simpl; [done|]. rewrite IH.
      by destruct (usesValue o result). }
    split; [exact I1|]. intros Huse. apply (I2 (i, y)).
    - apply elem_of_lookup_imap. by exists i, y.
    - by rewrite Huse. }
  generalize (length block). revert Hr. generalize (op_results candidate).
  induction l as [|z l IH]; intros Hin acc; [by apply elem_of_nil in Hin|]. simpl.
  assert (forall l acc, (fold_left inner l acc <= acc)%nat) as Hle.
  { clear -Hinner. induction l as [|a l IH]; intros acc; simpl; [done|].
    etransitivity; [apply IH|]. apply Hinner. }
  apply elem_of_cons in Hin as [<-|Hin]; [|by apply IH].
  etransitivity; [apply Hle|]. by apply Hinner.
Qed.

(** ** The move *)

Lemma moved_ordered block ordinal candidate targetOrdinal target :
  ordered block -> definedOnce block -> usedInside candidate = [] ->
  block !! ordinal = Some candidate -> block !! targetOrdinal = Some target ->
  canMoveCandidateTo (indexRepairCandidate ordinal candidate block) targetOrdinal = true ->
  ordered (moveBefore block ordinal targetOrdinal).
Proof using Type.
  intros Ho Honce Hin Hc Ht Hcan. unfold canMoveCandidateTo in Hcan.
  rewrite !andb_true_iff, negb_true_iff, Nat.eqb_neq, Nat.leb_le, Nat.ltb_lt in Hcan.
  destruct Hcan as [[Hne Hbegin] Hend].
  change (rc_ordinal (indexRepairCandidate ordinal candidate block)) with ordinal in Hne.
  pose proof (targetBegin_spec ordinal candidate block) as HB.
  pose proof (targetEnd_spec ordinal candidate block) as HE.
  destruct (Nat.lt_ge_cases targetOrdinal ordinal) as [Hlt|Hge].
  - destruct (split_two block targetOrdinal ordinal target candidate Hlt Ht Hc)
      as (l1 & l2 & l3 & Hb & <- & <-).
    rewrite Hb at 1. rewrite moveBefore_earlier. rewrite Hb in Ho.
    assert (forall x, x ∈ target :: l2 -> ~ feeds x candidate) as Hnew.
    { intros x Hx Hf. apply list_elem_of_lookup in Hx as [k Hk].
      assert (block !! (length l1 + k)%nat = Some x) as Hbk.
      { rewrite Hb, lookup_app_r by lia. replace (length l1 + k - length l1)%nat with k by lia.
        rewrite app_comm_cons, lookup_app_l; [done|]. by apply lookup_lt_Some in Hk. }
      pose proof (HB _ _ Honce Hin Hbk Hf). lia. }
    rewrite ordered_app in Ho. destruct Ho as (O1 & O2 & O3).
    rewrite app_comm_cons, ordered_app, (ordered_cons candidate) in O2.
    destruct O2 as (O4 & (O5 & O6 & O7) & O8).
    rewrite ordered_app, (ordered_cons candidate), app_comm_cons, ordered_app. split_and!; try done.
    + intros y x Hy Hx. apply O8; [done|]. by apply list_elem_of_further.
    + intros x [Hx|Hx]%elem_of_app; [by apply Hnew|by apply O7].
    + intros y x Hy Hx. apply O3; [done|].
      apply elem_of_cons in Hx as [->|[Hx|Hx]%elem_of_app]; rewrite app_comm_cons, elem_of_app;
        [right; apply list_elem_of_here|by left|right; by apply list_elem_of_further].
  - assert (ordinal < targetOrdinal)%nat as Hlt by lia.
    destruct (split_two block ordinal targetOrdinal candidate target Hlt Hc Ht)
      as (l1 & l2 & l3 & Hb & <- & <-).
    rewrite Hb at 1. rewrite moveBefore_later. rewrite Hb in Ho.
    assert (forall y, y ∈ l2 -> ~ feeds candidate y) as Hnew.
    { intros y Hy Hf. apply list_elem_of_lookup in Hy as [k Hk].
      pose proof (lookup_lt_Some _ _ _ Hk) as Hkl.
      assert (block !! S (length l1 + k)%nat = Some y) as Hbk.
      { rewrite Hb, lookup_app_r by lia.
        replace (S (length l1 + k) - length l1)%nat with (S k) by lia. simpl.
        by rewrite lookup_app_l. }
      pose proof (HE _ _ Hbk Hf). lia. }
    rewrite ordered_app in Ho. destruct Ho as (O1 & O2 & O3).
    rewrite (ordered_cons candidate), ordered_app in O2. destruct O2 as (O4 & (O5 & O6 & O7) & O8).
    rewrite !ordered_app, (ordered_cons candidate). split_and!; try done.
    + intros x Hx. apply O8, elem_of_app. by right.
    + intros y x Hy [->|Hx]%elem_of_cons; [by apply Hnew|by apply O7].
    + intros y x Hy Hx. apply O3; [done|].
      apply elem_of_app in Hx as [Hx|[->|Hx]%elem_of_cons].
      * apply list_elem_of_further, elem_of_app. by left.
      * apply list_elem_of_here.
      * apply list_elem_of_further, elem_of_app. by right.
Qed.
End Order.

(** C32: a move within a block leaves every definition before its uses. *)
Theorem repair_keeps_definitions_first `{LLVMTarget} `{GapLLVM} `{GapUses} sti wavefrontSize cfg rb
    trace target targetOrdinal block'
    (Hdecode : forall isa x, small (decodeLgkmcnt isa x))
    (Hcfg : makeHazardConfig sti wavefrontSize = Ok cfg)
    (Hok : repairOk cfg rb)
    (Htrace : computeBlockHazardTrace cfg (rb_block rb) = Ok trace)
    (Hordered : ordered (rb_block rb)) (Honce : definedOnce (rb_block rb))
    (Hregions : forall op, op ∈ rb_block rb -> isRepairCandidate op = true ->
      usedInside op = [])
    (Htarget : rb_block rb !! targetOrdinal = Some target)
    (Hmoved : tryLocalRepairCandidates cfg (rb_block rb) target targetOrdinal
      (buildRepairBlockIndex rb trace) trace = Ok (Some block')) :
  ordered block' /\ block' ≡ₚ rb_block rb.
Proof.
  pose proof (makeHazardConfig_ok _ _ _ Hdecode Hcfg) as Hcok.
  destruct (repairOk_block cfg rb Hok) as (Hnd & Hready & _).
  destruct (computeBlockHazardTrace_isTrace cfg Hcok _ Hready Hnd) as (tr & Htr & Ht).
  assert (tr = trace) as -> by congruence.
  unfold tryLocalRepairCandidates, localRange in Hmoved.
  destruct (getCandidateOrdinalRange _ targetOrdinal) as [first last].
  assert (forall candidates, (forall c, c ∈ candidates ->
      c ∈ localCandidates (buildRepairBlockIndex rb trace)) ->
    tryLocal cfg (rb_block rb) candidates target targetOrdinal trace = Ok (Some block') ->
    ordered block' /\ block' ≡ₚ rb_block rb) as Hall.
  { induction candidates as [|c candidates IH]; intros Hsub Hr; simpl in Hr; [done|].
    pose proof (Hsub c (list_elem_of_here _ _)) as Hc. simpl in Hc.
    apply list_elem_of_omap in Hc as ([i op] & Hin & Hs).
    apply elem_of_lookup_imap in Hin as (j & x & [= -> ->] & Hj).
    destruct (isRepairCandidate x) eqn:Hx; [|done]. injection Hs as <-.
    destruct (tryMoveRepairCandidate_spec cfg Hcok (rb_block rb) trace
      (indexRepairCandidate j x (rb_block rb)) target targetOrdinal Ht Hnd Hready Hj Htarget)
      as (r & Hr' & Hspec). rewrite Hr' in Hr. simpl in Hr.
    destruct r as [b|].
    - injection Hr as ->. destruct (Hspec block' eq_refl) as (-> & Hp & _ & Hcan).
      split; [|done]. eapply moved_ordered; try done. apply Hregions; [|done].
      by eapply list_elem_of_lookup_2.
    - apply IH; [|done]. intros c' Hc'. by apply Hsub, list_elem_of_further. }
  eapply Hall; [|exact Hmoved]. intros c Hc.
  by apply list_elem_of_In, filter_In in Hc as [Hc%list_elem_of_In _].
Qed.
