(* ===== verification/GapExamples.v ===== *)
(** * Samples of the hazard and repair passes

    A matrix operation before a loop whose first operation reads its result:
    the states of the solver, the rewritten function, and a run of it, on which
    the theorems are instantiated; and a block with a matrix operation, a reader
    of its result, and an operation that the repair moves between them. *)

From stdpp Require Import base tactics list gmap numbers strings sets.
From S2P Require Import Prelude CostEnums ArchData MachineIR LatencyTable OpClassifier.
From S2P Require Import ExecState TicketIR GapIR GapState GapTransfer GapLattice.
From S2P Require Import GapMachine GapGrow GapSound GapStep.
From S2P Require Import GapFree GapProgram GapSpec GapEquiv.
From S2P Require Import GapRepair GapTrace GapRepairSpec.

#[export] Existing Instance exampleTarget.

(** LLVM's codec of [s_waitcnt] and register numbers on gfx950. *)
#[export] Instance exampleGap : GapLLVM := {|
  decodeLgkmcnt _ waitcnt := Z.land (Z.shiftr waitcnt 8) 15;
  getWaitcntBitMask _ := 53119;
  llvm_SGPR0 := 100;
  llvm_SGPR102 := 202;
  llvm_SGPR103 := 203
|}.

Lemma exampleGap_small isa x : small (decodeLgkmcnt isa x).
Proof.
  unfold small. simpl. change 15 with (Z.ones 4). rewrite Z.land_ones by lia.
  assert (0 <= Z.shiftr x 8 mod 2 ^ 4 < 2 ^ 4) by (apply Z.mod_pos_bound; lia). lia.
Qed.

Definition gapIsa : IsaVersion := mkIsaVersion 9 5 0.
Definition gapSti : MCSubtargetInfo := mkSubtargetInfo gapIsa false false.

Definition gapCfg : HazardConfig :=
  Eval vm_compute in
    match makeHazardConfig gapSti 64 with
    | Ok cfg => cfg
    | _ => mkGapConfig None gapIsa 0 0 0 0 0 0 0 0 0 0 0 0 0 false false false false false
             false false false
    end.

Lemma gapCfg_made : makeHazardConfig gapSti 64 = Ok gapCfg.
Proof. vm_compute. reflexivity. Defined.

Definition gapReg (id : N) (width index : Z) : Value :=
  mkValue id (RegType RegClass.VGPR width (Some index)).
Definition gapA : Value := gapReg 1 4 0.
Definition gapB : Value := gapReg 2 4 4.
Definition gapAcc : Value := gapReg 3 4 8.
Definition gapResult : Value := gapReg 4 4 8.
Definition gapSum : Value := gapReg 5 1 12.

(** [v_mfma_f32_16x16x32_f16], a branch, [v_add] of its result, the branch of
    the loop. *)
Definition gapMfma : GapOp :=
  mkGapOp (mkOperation 1 MfmaF32_16x16x32_F16Op true [Trait.MFMAOp; Trait.VALUOp] None None
             false [gapA; gapB; gapAcc] [gapResult])
    false None (Some (mkMmaOperands gapA gapB gapAcc gapResult)) None [] None
    (None, None, None) true false false.
Definition gapAdd : GapOp :=
  plainGapOp (mkOperation 2 OtherOp true [Trait.VALUOp] None None false
                [gapResult; gapA] [gapSum]).
Definition gapBranch (id : N) : GapOp :=
  mkGapOp (mkOperation id OtherOp true [] None None false [] [])
    true None None None [] None (None, None, None) false true false.

Definition toLoop : GapEdge := mkGapEdge (After 0 1) (Entry 1) (BranchEdge [[]] []).
Definition backEdge : GapEdge := mkGapEdge (After 1 1) (Entry 1) (BranchEdge [[]] []).
Definition gapFunction : GapFunction :=
  mkGapFunction [[gapMfma; gapBranch 3]; [gapAdd; gapBranch 4]] [toLoop; backEdge].

Definition infoOf (op : GapOp) : HazardOpInfo :=
  match getHazardOpInfo op gapCfg with
  | Ok info => info
  | _ => mkOpInfo None None (mkWaitcntInfo WaitcntEvent.None 0 false)
           SchedClass.NumSchedClasses 0 0 false false false false false false false
           false false false false false false false false false false false false false
  end.

Definition transferOf (op : GapOp) (st : HazardState) : HazardState :=
  match transferHazards gapCfg op (infoOf op) st with Ok st' => st' | _ => emptyHazardState end.

Lemma transferOf_Ok op st :
  info_controlFlow (infoOf op) = true \/ info_controlFlow (infoOf op) = false ->
  transferHazards gapCfg op (infoOf op) st = Ok (transferOf op st).
Proof.
  intros Hc. unfold transferOf, transferHazards, addProducedCoexecHazards. cbv zeta.
  change (g_hasWmmaCoexecutionHazard gapCfg) with false. simpl. by destruct Hc as [-> | ->].
Qed.

(** The visits that the solver makes, and rounds of them. *)
Definition gapVisits : list (States -> Point * HazardState) :=
  [fun states => (After 0 0, transferOf gapMfma (states (Entry 0)));
   fun states => (After 0 1, transferOf (gapBranch 3) (states (After 0 0)));
   fun states => (Entry 1, edgeState (edge_kind toLoop) (states (After 0 1)));
   fun states => (After 1 0, transferOf gapAdd (states (Entry 1)));
   fun states => (After 1 1, transferOf (gapBranch 4) (states (After 1 0)));
   fun states => (Entry 1, edgeState (edge_kind backEdge) (states (After 1 1)))].

Definition visitOnce (states : States) (visit : States -> Point * HazardState) : States :=
  let '(p, next) := visit states in updateState p (joinWith (states p) next).1 states.
Definition gapRound (states : States) : States := fold_left visitOnce gapVisits states.
Definition gapStates : States :=
  Nat.iter 3 gapRound (fun _ => emptyHazardState).

Lemma gapVisits_valid visit states :
  visit ∈ gapVisits -> visits gapCfg gapFunction states (visit states).1 (visit states).2.
Proof.
  unfold gapVisits. intros Hv.
  repeat (apply elem_of_cons in Hv as [->|Hv]; simpl); [..|by apply elem_of_nil in Hv];
    first [by apply (visit_edge gapCfg gapFunction states toLoop); repeat constructor
      |by apply (visit_edge gapCfg gapFunction states backEdge); repeat constructor
      |by apply (visit_operation gapCfg gapFunction states 0 0 gapMfma (infoOf gapMfma));
         [..|apply transferOf_Ok; auto]
      |by apply (visit_operation gapCfg gapFunction states 0 1 (gapBranch 3) (infoOf (gapBranch 3)));
         [..|apply transferOf_Ok; auto]
      |by apply (visit_operation gapCfg gapFunction states 1 0 gapAdd (infoOf gapAdd));
         [..|apply transferOf_Ok; auto]
      |by apply (visit_operation gapCfg gapFunction states 1 1 (gapBranch 4) (infoOf (gapBranch 4)));
         [..|apply transferOf_Ok; auto]].
Qed.

Lemma gapRound_computed n :
  computed gapCfg gapFunction (Nat.iter n gapRound (fun _ => emptyHazardState)).
Proof.
  induction n as [|n IH]; simpl; [constructor|]. unfold gapRound.
  assert (forall l, l ⊆ gapVisits -> forall states, computed gapCfg gapFunction states ->
    computed gapCfg gapFunction (fold_left visitOnce l states)) as Hl; [|by apply Hl].
  induction l as [|v l IHl]; intros Hsub states Hs; [done|]. simpl.
  apply IHl; [set_solver|]. unfold visitOnce.
  pose proof (gapVisits_valid v states (Hsub v (list_elem_of_here _ _))) as Hv.
  destruct (v states) as [p next]. by apply computed_visit.
Qed.

(** Every visit is one of those. *)
Lemma gapVisits_all states p next :
  visits gapCfg gapFunction states p next ->
  exists visit, visit ∈ gapVisits /\ visit states = (p, next).
Proof.
  intros Hv. destruct Hv as [b i op info next Hop Hrb Hi Ht|e He].
  - unfold opAt, gapFunction in Hop. simpl in Hop.
    destruct b as [|[|b]]; simpl in Hop; [| |done].
    + destruct i as [|[|i]]; simpl in Hop; [..|done]; injection Hop as <-;
        assert (Hinfo : info = infoOf _) by (unfold infoOf; rewrite Hi; reflexivity);
        rewrite Hinfo, transferOf_Ok in Ht by auto; injection Ht as <-.
      * by eexists; split; [apply list_elem_of_here|].
      * by eexists; split; [apply list_elem_of_further, list_elem_of_here|].
    + destruct i as [|[|i]]; simpl in Hop; [..|done]; injection Hop as <-;
        assert (Hinfo : info = infoOf _) by (unfold infoOf; rewrite Hi; reflexivity);
        rewrite Hinfo, transferOf_Ok in Ht by auto; injection Ht as <-.
      * by eexists; split; [do 3 apply list_elem_of_further; apply list_elem_of_here|].
      * by eexists; split; [do 4 apply list_elem_of_further; apply list_elem_of_here|].
  - simpl in He. apply elem_of_cons in He as [->|He];
      [|apply elem_of_cons in He as [->|He]; [|by apply elem_of_nil in He]].
    + by eexists; split; [do 2 apply list_elem_of_further; apply list_elem_of_here|].
    + by eexists; split; [do 5 apply list_elem_of_further; apply list_elem_of_here|].
Qed.

Lemma gapStates_solved : solved gapCfg gapFunction gapStates.
Proof.
  split.
  - apply gapRound_computed.
  - intros b i op Hop _. exists (infoOf op). unfold opAt, gapFunction in Hop. simpl in Hop.
    assert (getHazardOpInfo op gapCfg = Ok (infoOf op)) as Hi.
    { destruct b as [|[|b]]; simpl in Hop; [| |done];
        destruct i as [|[|i]]; simpl in Hop; (done || (injection Hop as <-; vm_compute; reflexivity)). }
    eexists. split; [exact Hi|]. apply transferOf_Ok.
    destruct (info_controlFlow (infoOf op)); auto.
  - assert (forallb (fun visit : States -> Point * HazardState => let '(p, next) := visit gapStates in
      negb (joinWith (gapStates p) next).2) gapVisits = true) as Hall
      by (vm_compute; reflexivity).
    intros p next Hv. apply gapVisits_all in Hv as (visit & Hin & Hv).
    rewrite forallb_forall in Hall. apply list_elem_of_In in Hin. specialize (Hall visit Hin).
    rewrite Hv in Hall. by apply negb_true_iff in Hall.
Qed.

Lemma gapFunction_ok : functionOk gapFunction.
Proof.
  split.
  - intros e He. simpl in He. apply elem_of_cons in He as [->|He];
      [|apply elem_of_cons in He as [->|He]; [|by apply elem_of_nil in He]]; exact I.
  - intros b i op Hop. unfold opAt, gapFunction in Hop. simpl in Hop.
    destruct b as [|[|b]]; simpl in Hop; [| |done];
      destruct i as [|[|i]]; simpl in Hop; (done || (injection Hop as <-; by split)).
Qed.

(** The loop starts with the seven wait states that the branch left over. *)
Definition gapRewritten : list (list (list Inserted)) :=
  [[[]; []]; [[InsertedSNop 6]; []]].
Lemma gapRewritten_eq : rewriteFunction gapCfg gapFunction gapSti gapStates = Ok gapRewritten.
Proof. vm_compute. reflexivity. Qed.

(** A run into the loop. *)
Definition gapMachine0 : GapMachine :=
  issue gapCfg gapMfma (infoOf gapMfma) initialGapMachine.
Definition gapMachine1 : GapMachine := passTime (infoOf (gapBranch 3)) gapMachine0.
Definition gapMachine2 : GapMachine := assign (zip (omap id []) []) gapMachine1.

Lemma gap_run : runs gapCfg gapFunction gapRewritten (pointBefore 1 0) gapMachine2.
Proof.
  apply (runs_edge gapCfg gapFunction gapRewritten toLoop gapMachine1).
  - apply list_elem_of_here.
  - apply (runs_control gapCfg gapFunction gapRewritten 0 1 (gapBranch 3));
      [|reflexivity|reflexivity|reflexivity|vm_compute; reflexivity].
    apply (runs_operation gapCfg gapFunction gapRewritten 0 0 gapMfma (infoOf gapMfma) []
      initialGapMachine initialGapMachine);
      [constructor|reflexivity|reflexivity|vm_compute; reflexivity|reflexivity|constructor].
  - constructor. apply list_elem_of_here.
Qed.

Lemma rewritten_function_has_no_hazard_witness :
  hazardFree gapCfg gapAdd (infoOf gapAdd) (issueAll [InsertedSNop 6] gapMachine2).
Proof.
  apply (rewritten_function_has_no_hazard gapSti 64 gapCfg gapFunction gapStates gapRewritten
    1 0 gapAdd (infoOf gapAdd) [InsertedSNop 6] gapMachine2).
  - exact exampleGap_small.
  - exact gapCfg_made.
  - exact gapFunction_ok.
  - exact gapStates_solved.
  - exact gapRewritten_eq.
  - exact gap_run.
  - reflexivity.
  - reflexivity.
  - vm_compute. reflexivity.
  - reflexivity.
  - constructor.
Defined.

(** Without the [s_nop] the operation would not be free of hazards. *)
Lemma gap_needs_mitigation : ~ hazardFree gapCfg gapAdd (infoOf gapAdd) gapMachine2.
Proof.
  intros [Hfree _ _ _ _].
  set (e := mkEvent gapMfma (infoOf gapMfma) 1 0 0 false false false).
  assert (e ∈ past gapMachine2) as He.
  { apply list_elem_of_In. vm_compute. by left. }
  assert (8 <= ev_age e); [|by vm_compute in *].
  apply (Hfree e 8 He). apply (rule_mfma_result gapCfg e gapAdd (infoOf gapAdd)
    (mkSpan RegClass.VGPR 8 12)); [reflexivity| |reflexivity|].
  - exists gapResult. split; [apply list_elem_of_here|reflexivity].
  - left. split; [reflexivity|]. exists (mkSpan RegClass.VGPR 8 12). split; [|reflexivity].
    exists gapResult. split; [apply list_elem_of_here|reflexivity].
Qed.

Lemma stateOk_of_wf st : gapWf gapCfg st -> stateOk st.
Proof. by intros []. Qed.

Lemma gapCfg_ok : configOk gapCfg.
Proof. exact (makeHazardConfig_ok _ _ _ exampleGap_small gapCfg_made). Qed.

Lemma gapStates_wf p : gapWf gapCfg (gapStates p).
Proof. exact (state_wf gapCfg gapCfg_ok gapFunction gapFunction_ok _ gapStates_solved p). Qed.

Lemma hazard_join_least_upper_bound_witness :
  let r := joinWith (gapStates (Entry 1)) (gapStates (After 1 1)) in
  stateOk r.1 /\ hle (gapStates (Entry 1)) r.1 /\ hle (gapStates (After 1 1)) r.1 /\
  (forall u, stateOk u -> hle (gapStates (Entry 1)) u -> hle (gapStates (After 1 1)) u ->
     hle r.1 u) /\
  (r.2 = false <-> hle (gapStates (After 1 1)) (gapStates (Entry 1))) /\
  (r.2 = false -> r.1 = gapStates (Entry 1)).
Proof.
  apply hazard_join_least_upper_bound; apply stateOk_of_wf, gapStates_wf.
Defined.

Definition gapHazard : PhysicalHazard :=
  mkPhysical (mkSpan RegClass.VGPR 8 12) PhysicalHazardKind.MfmaWrite 8 7 4.

Lemma solver_states_keep_assertions_witness :
  gapHazard ∈ physical (gapStates (Entry 1)) /\ 0 <= ph_remaining gapHazard <= ph_limit gapHazard.
Proof.
  assert (gapHazard ∈ physical (gapStates (Entry 1))) as Hin.
  { apply list_elem_of_In. vm_compute. by left. }
  split; [exact Hin|].
  exact (proj1 (solver_states_keep_assertions gapSti 64 gapCfg gapFunction gapStates (Entry 1)
    gapHazard exampleGap_small gapCfg_made gapFunction_ok (gapRound_computed 3) Hin)).
Defined.

Lemma rewrite_succeeds_witness :
  exists rewritten, rewriteFunction gapCfg gapFunction gapSti gapStates = Ok rewritten.
Proof.
  exact (rewrite_succeeds gapCfg gapFunction gapSti gapStates gapFunction_ok gapStates_solved).
Defined.

Lemma mitigations_are_exact_witness :
  (slotStep gapCfg gapAdd (infoOf gapAdd) (gapStates (Entry 1))).1 = 7 /\
  (slotStep gapCfg gapAdd (infoOf gapAdd)
     (advanceHazards 6 true (gapStates (Entry 1)))).1 = Z.max 0 (7 - 6).
Proof.
  assert ((slotStep gapCfg gapAdd (infoOf gapAdd) (gapStates (Entry 1))).1 = 7) as Hw
    by (vm_compute; reflexivity).
  split; [exact Hw|]. rewrite <-Hw.
  exact (proj1 (mitigations_are_exact gapSti 64 gapCfg gapAdd (infoOf gapAdd)
    (gapStates (Entry 1)) 6 0 exampleGap_small gapCfg_made (gapStates_wf _) ltac:(lia)
    ltac:(vm_compute; reflexivity))).
Defined.

Definition gapNop (imm : Z) : GapOp :=
  mkGapOp (mkOperation 9 SNopOp true [] None None false [] [])
    false None None None [] (Some imm) (None, None, None) false false false.

(** 17 wait states take two instructions. *)
Lemma noops_decode_to_count_witness :
  insertNoops 17 gapSti = [15; 0] /\
  exists counts,
    Forall2 (fun imm n => getHazardWaitStateCount gapCfg (gapNop imm) = Ok n)
      (insertNoops 17 gapSti) counts /\
    sum_list_Z counts = 17 /\
    Forall (fun n => 1 <= n <= SNop.getMaxCount gapSti) counts.
Proof.
  split; [vm_compute; reflexivity|].
  apply (noops_decode_to_count gapCfg gapSti 17 gapNop); [reflexivity|lia|].
  intros imm. split; reflexivity.
Defined.

Definition gapMitigation : Z * HazardState :=
  match getRequiredMitigation gapCfg gapAdd (infoOf gapAdd) (gapStates (Entry 1)) with
  | Ok r => r | _ => (0, emptyHazardState) end.
Definition gapRewrite : list Inserted * HazardState :=
  match rewriteOp gapCfg gapSti gapAdd None (gapStates (Entry 1)) with
  | Ok r => r | _ => ([], emptyHazardState) end.

Lemma repair_predicts_insertion_witness :
  u32 (sum_list_Z (insertedSlots <$> gapRewrite.1)) = gapMitigation.1 /\
  transferHazards gapCfg gapAdd (infoOf gapAdd) gapMitigation.2 = Ok gapRewrite.2.
Proof.
  apply (repair_predicts_insertion gapSti 64 gapCfg gapAdd (infoOf gapAdd) None
    (gapStates (Entry 1))).
  - exact exampleGap_small.
  - exact gapCfg_made.
  - by split.
  - vm_compute. reflexivity.
  - reflexivity.
  - exact (gapStates_wf _).
  - vm_compute. reflexivity.
  - vm_compute. reflexivity.
Defined.

(** ** A sample block of the repair pass

    A matrix operation, a reader of its result, and an operation that neither
    needs: the pass moves the last between the first two. *)

(** A block without operations that have regions. *)
#[export] Instance exampleUses : GapUses := {|
  usedInside _ := [];
  hasUses _ := true;
  isCarry _ := false;
  loopOrIsolated _ := false;
  properlyDominates _ _ _ _ := false;
  operandsDominateTarget _ _ _ _ := false;
  resultsRemainDominated _ _ _ _ := false
|}.

Definition gapFree : GapOp :=
  mkGapOp (mkOperation 5 OtherOp true [Trait.VALUOp] None None false
             [gapReg 6 1 20] [gapReg 7 1 21])
    false None None None [] None (None, None, None) true false false.
Definition sampleBlock : RepairBlock := mkRepairBlock [gapMfma; gapAdd; gapFree] [] None [].
Definition sampleTrace : BlockHazardTrace :=
  match computeBlockHazardTrace gapCfg (rb_block sampleBlock) with
  | Ok trace => trace
  | _ => mkTrace ∅ ∅ 0
  end.
(** The reader waits eight slots, then seven behind the moved operation. *)
Example sample_waits : lookupWait sampleTrace 2 = 8 /\ totalWaits sampleTrace = 8.
Proof. vm_compute. done. Qed.

Lemma sampleTrace_eq : computeBlockHazardTrace gapCfg (rb_block sampleBlock) = Ok sampleTrace.
Proof. vm_compute. reflexivity. Defined.

Lemma sampleBlock_ready op :
  op ∈ [gapMfma; gapAdd; gapFree] -> opReady gapCfg op.
Proof.
  intros Hin. split.
  - repeat (apply elem_of_cons in Hin as [->|Hin]); [by split..|by apply elem_of_nil in Hin].
  - exists (infoOf op), emptyHazardState. eexists. split; [|apply transferOf_Ok].
    + repeat (apply elem_of_cons in Hin as [->|Hin]; [vm_compute; reflexivity|]).
      by apply elem_of_nil in Hin.
    + destruct (info_controlFlow (infoOf op)); auto.
Qed.

Lemma sampleBlock_ok : repairOk gapCfg sampleBlock.
Proof.
  split.
  - vm_compute. repeat (constructor; [set_solver|]). constructor.
  - apply Forall_forall. intros op Hop. by apply sampleBlock_ready.
Qed.

Lemma repair_converges_witness :
  exists r trace',
    repairBlock gapCfg 9 sampleBlock = Ok (Some r) /\ rr_warned r = false /\
    allOps (rr_block r) ≡ₚ allOps sampleBlock /\
    computeBlockHazardTrace gapCfg (rb_block (rr_block r)) = Ok trace' /\
    (forall op, lookupWait trace' op <= lookupWait sampleTrace op) /\
    (rr_changed r = true -> totalWaits trace' < totalWaits sampleTrace).
Proof.
  apply (repair_converges gapSti 64 gapCfg sampleBlock sampleTrace exampleGap_small gapCfg_made
    sampleBlock_ok sampleTrace_eq).
  vm_compute. reflexivity.
Defined.

Definition repairedBlock : list GapOp := [gapMfma; gapFree; gapAdd].
Example sample_repaired :
  repairBlock gapCfg 9 sampleBlock =
    Ok (Some (mkRepairResult (mkRepairBlock repairedBlock [] None []) true false)).
Proof. vm_compute. reflexivity. Qed.

Lemma sample_ordered : ordered (rb_block sampleBlock).
Proof.
  simpl. split_and!; [..|done]; intros x Hx (r & Hr & Hu);
    repeat (apply elem_of_cons in Hx as [->|Hx]; [
      apply list_elem_of_singleton in Hr as ->; by vm_compute in Hu|]);
    by apply elem_of_nil in Hx.
Qed.

Lemma sample_once : definedOnce (rb_block sampleBlock).
Proof.
  intros i j x y v Hi Hj Hx Hy. unfold definesValue in Hx, Hy.
  rewrite bool_decide_eq_true in Hx, Hy.
  destruct i as [|[|[|i]]], j as [|[|[|j]]]; simpl in Hi, Hj; try done;
    injection Hi as <-; injection Hj as <-; 
    apply list_elem_of_singleton in Hx, Hy; rewrite Hx in Hy; by vm_compute in Hy.
Qed.

Lemma repair_keeps_definitions_first_witness :
  ordered repairedBlock /\ repairedBlock ≡ₚ rb_block sampleBlock.
Proof.
  apply (repair_keeps_definitions_first gapSti 64 gapCfg sampleBlock sampleTrace gapAdd 1
    repairedBlock exampleGap_small gapCfg_made sampleBlock_ok sampleTrace_eq sample_ordered
    sample_once).
  - done.
  - reflexivity.
  - vm_compute. reflexivity.
Defined.
