(* ===== verification/QuoIR.v ===== *)
(** * Integer values of the wave dialect

    Values as the trees of the operations that define them, what they evaluate
    to, and the folds of [wave.binary] ([BinaryOp::fold] of [Wave.cpp]), whose
    calculations on constants are the meaning of the operations.

    Every operation here is elementwise, so that the value of a SIMD operation
    on a lane depends on its operands on that lane only: evaluation is for one
    lane, and a splat is the identity. *)

From stdpp Require Import base tactics list gmap numbers strings.
From S2P Require Import Prelude.

(** ** Types *)

Inductive Element : Set := IndexT | IntT (width : Z).
#[global] Instance Element_eq_dec : EqDecision Element.
Proof. solve_decision. Defined.

Inductive WType : Set :=
  | ScalarT (element : Element)
  | SimdT (element : Element) (width : Z)
  | MaskT (width : Z).
#[global] Instance WType_eq_dec : EqDecision WType.
Proof. solve_decision. Defined.

(** [getWaveConstantValueType]; [scalarElementType] on what is not a mask. *)
Definition getWaveConstantValueType (type : WType) : Element :=
  match type with
  | ScalarT element | SimdT element _ => element
  | MaskT _ => IntT 1
  end.
Definition elementWidth (element : Element) : Z :=
  match element with IndexT => 64 | IntT width => width end.
Definition elementBits (type : WType) : Z :=
  elementWidth (getWaveConstantValueType type).

Definition i1 : WType := ScalarT (IntT 1).

(** ** Operations *)

Module BinaryKind.
Inductive t : Set :=
  | AddI | SubI | MulI | ShLI | ShRUI | ShRSI | AndI | OrI | XOrI
  | DivUI | DivSI | RemUI | RemSI | MulHUI.
#[global] Instance t_eq_dec : EqDecision t.
Proof. solve_decision. Defined.
End BinaryKind.

(** [arith::IntegerOverflowFlags]. *)
Record OverflowFlags : Set := mkFlags { flag_nsw : bool; flag_nuw : bool }.
#[global] Instance OverflowFlags_eq_dec : EqDecision OverflowFlags.
Proof. solve_decision. Defined.
Definition noFlags : OverflowFlags := mkFlags false false.

Module CmpIPredicate.
Inductive t : Set := eq | ne | slt | sle | sgt | sge | ult | ule | ugt | uge.
#[global] Instance t_eq_dec : EqDecision t.
Proof. solve_decision. Defined.
End CmpIPredicate.

Module CastExtension.
Inductive t : Set := Zero | Sign.
#[global] Instance t_eq_dec : EqDecision t.
Proof. solve_decision. Defined.
End CastExtension.

(** A value, as the tree of the operation that defines it.  Two operations of
    the same kind on the same operands are the same tree.  [VConst]: a constant
    of [arith] or [wave] with its integer attribute; [VCast]: an [intconvert]
    with the extension of its policy; [VIndexCast]: [arith.index_cast];
    [VAssume]: [wave.assume] with its symbol and the handles of its predicates;
    [VLoopIv]: the induction variable of an [scf.for]; [VWaveId]: a lane,
    workgroup or workitem number; [VIndexExpr]: [wave.index_expr]; [VOther]:
    any other operation or an argument.  The number of the last four tells
    values apart. *)
Inductive WValue : Set :=
  | VConst (type : WType) (attr : Z)
  | VSplat (type : WType) (source : WValue)
  | VBinary (type : WType) (kind : BinaryKind.t) (flags : OverflowFlags)
      (lhs rhs : WValue)
  | VCmp (type : WType) (predicate : CmpIPredicate.t) (lhs rhs : WValue)
  | VSelect (type : WType) (condition trueValue falseValue : WValue)
  | VURecip (type : WType) (source : WValue)
  | VCtz (type : WType) (source : WValue)
  | VCast (type : WType) (extension : option CastExtension.t) (source : WValue)
  | VIndexCast (type : WType) (source : WValue)
  | VAssume (source : WValue) (name : string) (assumptions : list N)
  | VLoopIv (type : WType) (id : N) (unsignedCmp : bool)
      (lowerBound upperBound step : WValue)
  | VWaveId (type : WType) (id : N)
  | VIndexExpr (type : WType) (id : N)
  | VOther (type : WType) (id : N).
#[global] Instance WValue_eq_dec : EqDecision WValue.
Proof. solve_decision. Defined.

Fixpoint typeOf (value : WValue) : WType :=
  match value with
  | VConst type _ | VSplat type _ | VBinary type _ _ _ _ | VCmp type _ _ _
  | VSelect type _ _ _ | VURecip type _ | VCtz type _ | VCast type _ _
  | VIndexCast type _ | VLoopIv type _ _ _ _ _ | VWaveId type _
  | VIndexExpr type _ | VOther type _ => type
  | VAssume source _ _ => typeOf source
  end.

(** ** Numbers of a width ([llvm::APInt]) *)

Definition toBits (bits x : Z) : Z := x mod 2 ^ bits.
Definition signedValue (bits x : Z) : Z :=
  if x <? 2 ^ (bits - 1) then x else x - 2 ^ bits.
Definition sextOrTrunc (source bits x : Z) : Z :=
  if source <? bits then toBits bits (signedValue source x) else toBits bits x.

Definition applyCmpPredicate (predicate : CmpIPredicate.t) (bits a b : Z) : bool :=
  let sa := signedValue bits a in
  let sb := signedValue bits b in
  match predicate with
  | CmpIPredicate.eq => a =? b
  | CmpIPredicate.ne => negb (a =? b)
  | CmpIPredicate.slt => sa <? sb
  | CmpIPredicate.sle => sa <=? sb
  | CmpIPredicate.sgt => sb <? sa
  | CmpIPredicate.sge => sb <=? sa
  | CmpIPredicate.ult => a <? b
  | CmpIPredicate.ule => a <=? b
  | CmpIPredicate.ugt => b <? a
  | CmpIPredicate.uge => b <=? a
  end.

(** ** Folds of constants

    [None]: the operation is not folded. *)

Definition foldWaveAddSubMulConstants (kind : BinaryKind.t) (bits a b : Z) : option Z :=
  match kind with
  | BinaryKind.AddI => Some (toBits bits (a + b))
  | BinaryKind.SubI => Some (toBits bits (a - b))
  | BinaryKind.MulI => Some (toBits bits (a * b))
  | _ => None
  end.

Definition foldWaveShiftConstants (kind : BinaryKind.t) (bits a b : Z) : option Z :=
  let bounded := b <? bits in
  match kind with
  | BinaryKind.ShLI => if bounded then Some (toBits bits (Z.shiftl a b)) else None
  | BinaryKind.ShRUI => if bounded then Some (Z.shiftr a b) else None
  | BinaryKind.ShRSI =>
      if bounded then Some (toBits bits (Z.shiftr (signedValue bits a) b)) else None
  | _ => None
  end.

Definition foldWaveBitwiseConstants (kind : BinaryKind.t) (a b : Z) : option Z :=
  match kind with
  | BinaryKind.AndI => Some (Z.land a b)
  | BinaryKind.OrI => Some (Z.lor a b)
  | BinaryKind.XOrI => Some (Z.lxor a b)
  | _ => None
  end.

Definition foldWaveDivUIConstants (a b : Z) : option Z :=
  if b =? 0 then None else Some (a / b).
(** [sdiv_ov]: the smallest number divided by minus one overflows. *)
Definition foldWaveDivSIConstants (bits a b : Z) : option Z :=
  if b =? 0 then None
  else
    let quotient := Z.quot (signedValue bits a) (signedValue bits b) in
    if quotient =? 2 ^ (bits - 1) then None else Some (toBits bits quotient).
Definition foldWaveRemUIConstants (a b : Z) : option Z :=
  if b =? 0 then None else Some (a mod b).
Definition foldWaveRemSIConstants (bits a b : Z) : option Z :=
  if b =? 0 then None
  else Some (toBits bits (Z.rem (signedValue bits a) (signedValue bits b))).

Definition foldWaveDivRemConstants (kind : BinaryKind.t) (bits a b : Z) : option Z :=
  match kind with
  | BinaryKind.DivUI => foldWaveDivUIConstants a b
  | BinaryKind.DivSI => foldWaveDivSIConstants bits a b
  | BinaryKind.RemUI => foldWaveRemUIConstants a b
  | BinaryKind.RemSI => foldWaveRemSIConstants bits a b
  | _ => None
  end.

Definition foldWaveMulHUIConstants (kind : BinaryKind.t) (bits a b : Z) : option Z :=
  match kind with
  | BinaryKind.MulHUI => Some (Z.shiftr (a * b) bits)
  | _ => None
  end.

(** The folds are tried one after the other. *)
Definition orElse {A} (first second : option A) : option A :=
  match first with Some a => Some a | None => second end.

Definition foldWaveBinaryConstants (kind : BinaryKind.t) (bits a b : Z) : option Z :=
  orElse (foldWaveAddSubMulConstants kind bits a b)
    (orElse (foldWaveShiftConstants kind bits a b)
      (orElse (foldWaveBitwiseConstants kind a b)
        (orElse (foldWaveDivRemConstants kind bits a b)
          (foldWaveMulHUIConstants kind bits a b)))).

(** ** Folds of identities *)

(** [OpFoldResult]: a value, or the attribute of a constant. *)
Inductive FoldResult : Set := FoldValue (value : WValue) | FoldAttr (attr : Z).

(** The attribute that the fold adaptor has for an operand. *)
Definition constantAttr (value : WValue) : option Z :=
  match value with VConst _ attr => Some attr | _ => None end.

Definition matchZero (value : WValue) : bool := bool_decide (constantAttr value = Some 0).
Definition matchOne (value : WValue) : bool := bool_decide (constantAttr value = Some 1).
Definition isAllOnes (value : WValue) : bool :=
  bool_decide (constantAttr value = Some (2 ^ elementBits (typeOf value) - 1)).

Definition foldToResultValue (value : WValue) (resultType : WType) : option FoldResult :=
  if decide (typeOf value = resultType) then Some (FoldValue value) else None.

Section Identities.
Context (lhs rhs : WValue) (resultType : WType).

Definition foldWaveAddIdentity (kind : BinaryKind.t) : option FoldResult :=
  match kind with
  | BinaryKind.AddI =>
      if matchZero rhs then foldToResultValue lhs resultType
      else if matchZero lhs then foldToResultValue rhs resultType
      else None
  | _ => None
  end.

Definition foldWaveSubIdentity (kind : BinaryKind.t) : option FoldResult :=
  match kind with
  | BinaryKind.SubI =>
      if decide (lhs = rhs) then Some (FoldAttr 0)
      else if matchZero rhs then foldToResultValue lhs resultType
      else None
  | _ => None
  end.

Definition foldWaveAddSubIdentity (kind : BinaryKind.t) : option FoldResult :=
  orElse (foldWaveAddIdentity kind) (foldWaveSubIdentity kind).

Definition foldWaveAndIdentity (kind : BinaryKind.t) : option FoldResult :=
  match kind with
  | BinaryKind.AndI =>
      if matchZero rhs then foldToResultValue rhs resultType
      else if matchZero lhs then foldToResultValue lhs resultType
      else if isAllOnes rhs then foldToResultValue lhs resultType
      else if isAllOnes lhs then foldToResultValue rhs resultType
      else None
  | _ => None
  end.

Definition foldWaveOrIdentity (kind : BinaryKind.t) : option FoldResult :=
  match kind with
  | BinaryKind.OrI =>
      if matchZero rhs then foldToResultValue lhs resultType
      else if matchZero lhs then foldToResultValue rhs resultType
      else if isAllOnes rhs then foldToResultValue rhs resultType
      else if isAllOnes lhs then foldToResultValue lhs resultType
      else None
  | _ => None
  end.

Definition foldWaveMulIdentity (kind : BinaryKind.t) : option FoldResult :=
  match kind with
  | BinaryKind.MulI =>
      if matchZero rhs then foldToResultValue rhs resultType
      else if matchZero lhs then foldToResultValue lhs resultType
      else if matchOne rhs then foldToResultValue lhs resultType
      else if matchOne lhs then foldToResultValue rhs resultType
      else None
  | _ => None
  end.

Definition foldWaveShiftIdentity (kind : BinaryKind.t) : option FoldResult :=
  match kind with
  | BinaryKind.ShLI | BinaryKind.ShRUI | BinaryKind.ShRSI =>
      if matchZero rhs then foldToResultValue lhs resultType else None
  | _ => None
  end.

Definition foldWaveAndOrIdentity (kind : BinaryKind.t) : option FoldResult :=
  orElse (foldWaveAndIdentity kind) (foldWaveOrIdentity kind).

Definition foldWaveXOrIdentity (kind : BinaryKind.t) : option FoldResult :=
  match kind with
  | BinaryKind.XOrI =>
      if decide (lhs = rhs) then Some (FoldAttr 0)
      else if matchZero rhs then foldToResultValue lhs resultType
      else if matchZero lhs then foldToResultValue rhs resultType
      else None
  | _ => None
  end.

Definition foldWaveDivRemIdentity (kind : BinaryKind.t) : option FoldResult :=
  match kind with
  | BinaryKind.DivUI | BinaryKind.DivSI =>
      if matchOne rhs then foldToResultValue lhs resultType else None
  | BinaryKind.RemUI | BinaryKind.RemSI =>
      if matchOne rhs then Some (FoldAttr 0) else None
  | _ => None
  end.

Definition foldWaveBinaryIdentity (kind : BinaryKind.t) : option FoldResult :=
  orElse (foldWaveAddSubIdentity kind)
    (orElse (foldWaveMulIdentity kind)
      (orElse (foldWaveShiftIdentity kind)
        (orElse (foldWaveAndOrIdentity kind)
          (orElse (foldWaveXOrIdentity kind) (foldWaveDivRemIdentity kind))))).
End Identities.

(** [BinaryOp::fold]; the calculation takes the width of the attributes. *)
Definition foldBinary (kind : BinaryKind.t) (lhs rhs : WValue) (resultType : WType) :
    option FoldResult :=
  orElse (foldWaveBinaryIdentity lhs rhs resultType kind)
    (match constantAttr lhs, constantAttr rhs with
     | Some a, Some b =>
         FoldAttr <$> foldWaveBinaryConstants kind (elementBits (typeOf lhs)) a b
     | _, _ => None
     end).

(** ** Evaluation *)

(** A wrap that the flags exclude makes the result undefined. *)
Definition flagsHold (kind : BinaryKind.t) (flags : OverflowFlags) (bits a b : Z) : bool :=
  let exact (f : Z -> Z -> Z) (s : Z -> Z) (lo hi : Z) :=
    let r := f (s a) (s b) in (lo <=? r) && (r <? hi) in
  let check (f : Z -> Z -> Z) :=
    (negb (flag_nuw flags) || exact f id 0 (2 ^ bits))
    && (negb (flag_nsw flags)
        || exact f (signedValue bits) (- 2 ^ (bits - 1)) (2 ^ (bits - 1))) in
  match kind with
  | BinaryKind.AddI => check Z.add
  | BinaryKind.SubI => check Z.sub
  | BinaryKind.MulI => check Z.mul
  | BinaryKind.ShLI =>
      (negb (flag_nuw flags) || (Z.shiftl a b <? 2 ^ bits))
      && (negb (flag_nsw flags)
          || let r := Z.shiftl (signedValue bits a) b in
             (- 2 ^ (bits - 1) <=? r) && (r <? 2 ^ (bits - 1)))
  | _ => true
  end.

(** What the machine computes for [wave.urecip]. *)
Class WaveTarget := { urecip : Z -> Z }.

(** The number of trailing zeros. *)
Fixpoint trailingZeros (p : positive) : Z :=
  match p with
  | xO p' => 1 + trailingZeros p'
  | _ => 0
  end.

(** What an assumption says of the value it is about. *)
Definition Assumption : Type := N -> Z -> bool.

Section Eval.
Context `{WaveTarget} (holds : string -> Assumption) (env : N -> Z).

(** [None]: the value is undefined. *)
Fixpoint eval (value : WValue) : option Z :=
  match value with
  | VConst type attr => Some (toBits (elementBits type) attr)
  | VSplat _ source => eval source
  | VBinary type kind flags lhs rhs =>
      a ← eval lhs; b ← eval rhs;
      if flagsHold kind flags (elementBits type) a b
      then foldWaveBinaryConstants kind (elementBits type) a b else None
  | VCmp _ predicate lhs rhs =>
      a ← eval lhs; b ← eval rhs;
      Some (Z.b2z (applyCmpPredicate predicate (elementBits (typeOf lhs)) a b))
  | VSelect _ condition trueValue falseValue =>
      c ← eval condition;
      if c =? 0 then eval falseValue else eval trueValue
  | VURecip type source =>
      a ← eval source;
      if a =? 0 then None else Some (toBits (elementBits type) (urecip a))
  | VCtz type source =>
      a ← eval source;
      match a with Zpos p => Some (trailingZeros p) | _ => None end
  | VCast type extension source =>
      a ← eval source;
      Some (match extension with
            | Some CastExtension.Zero => toBits (elementBits type) a
            | _ => sextOrTrunc (elementBits (typeOf source)) (elementBits type) a
            end)
  | VIndexCast type source =>
      a ← eval source;
      Some (sextOrTrunc (elementBits (typeOf source)) (elementBits type) a)
  | VAssume source name assumptions =>
      a ← eval source;
      if forallb (fun pred =>
           holds name pred (signedValue (elementBits (typeOf source)) a)) assumptions
      then Some a else None
  | VLoopIv type id _ _ _ _ | VWaveId type id | VIndexExpr type id
  | VOther type id => Some (toBits (elementBits type) (env id))
  end.
End Eval.
