(* ===== verification/QuoExpand.v ===== *)
(** * Expansion of integer division and remainder

    [WaveExpandIntegerDivRem.cpp]: a division or remainder is replaced by
    operations that the machine has, chosen by what is known of its operands.
    The functions of the source that create operations return the value that
    the last of them defines. *)

From stdpp Require Import base tactics list gmap numbers strings.
From S2P Require Import Prelude QuoIR.

Record DivRemValues : Set := mkDivRem { quotient : WValue; remainder : WValue }.

Definition isDivRem (kind : BinaryKind.t) : bool :=
  match kind with
  | BinaryKind.DivUI | BinaryKind.DivSI | BinaryKind.RemUI | BinaryKind.RemSI => true
  | _ => false
  end.
Definition isSignedDivRem (kind : BinaryKind.t) : bool :=
  match kind with BinaryKind.DivSI | BinaryKind.RemSI => true | _ => false end.
Definition isDivision (kind : BinaryKind.t) : bool :=
  match kind with BinaryKind.DivUI | BinaryKind.DivSI => true | _ => false end.

Definition signedI32Max : Z := 2147483647.
Definition signedI32Min : Z := - Z.shiftl 1 31.

(** ** Types and constants *)

Definition scalarElementType (type : WType) : WType := ScalarT (getWaveConstantValueType type).

Definition i32Like (type : WType) : WType :=
  match type with
  | SimdT _ width => SimdT (IntT 32) width
  | _ => ScalarT (IntT 32)
  end.

Definition canNarrowDivRemTypeToI32 (type : WType) : bool :=
  match getWaveConstantValueType type with
  | IndexT => true
  | IntT width => width =? 64
  end.

Definition maskToBits (value bits : Z) : Z :=
  if bits =? 64 then value else Z.land value (Z.shiftl 1 bits - 1).

(** The constant of a splat is a constant too. *)
Fixpoint getConstantAPInt (value : WValue) (bits : Z) : option Z :=
  match value with
  | VSplat _ source => getConstantAPInt source bits
  | VConst type attr => Some (sextOrTrunc (elementBits type) bits attr)
  | _ => None
  end.

(** [raw] is a [uint64_t]. *)
Definition createScalarConstant (type : WType) (raw : Z) : WValue :=
  VConst type (maskToBits raw (elementBits type)).

Definition createConstantLike (type : WType) (raw : Z) : WValue :=
  match type with
  | SimdT element _ => VSplat type (createScalarConstant (ScalarT element) raw)
  | _ => createScalarConstant type raw
  end.

Definition asType (value : WValue) (type : WType) : WValue :=
  if decide (typeOf value = type) then value
  else match type with
       | SimdT element _ =>
           if decide (typeOf value = ScalarT element) then VSplat type value else value
       | _ => value
       end.

(** ** Single operations *)

Definition createBinary (resultType : WType) (kind : BinaryKind.t) (lhs rhs : WValue) :
    WValue := VBinary resultType kind noFlags lhs rhs.
Definition createAdd type := createBinary type BinaryKind.AddI.
Definition createSub type := createBinary type BinaryKind.SubI.
Definition createMul type := createBinary type BinaryKind.MulI.
Definition createMulHU type := createBinary type BinaryKind.MulHUI.
Definition createShl type := createBinary type BinaryKind.ShLI.
Definition createShrU type := createBinary type BinaryKind.ShRUI.
Definition createShrS type := createBinary type BinaryKind.ShRSI.
Definition createAnd type := createBinary type BinaryKind.AndI.
Definition createOr type := createBinary type BinaryKind.OrI.
Definition createXor type := createBinary type BinaryKind.XOrI.
Definition createNeg (type : WType) (value : WValue) : WValue :=
  createSub type (createConstantLike type 0) value.

Definition createCompare (predicate : CmpIPredicate.t) (lhs rhs : WValue)
    (valueType : WType) : WValue :=
  match valueType with
  | SimdT _ width =>
      VCmp (MaskT width) predicate (asType lhs valueType) (asType rhs valueType)
  | _ => VCmp i1 predicate lhs rhs
  end.

Definition createSelect (type : WType) (condition trueValue falseValue : WValue) : WValue :=
  VSelect type condition (asType trueValue type) (asType falseValue type).

Definition createShiftAmount (type : WType) (amount : Z) : WValue :=
  createScalarConstant (scalarElementType type) amount.

Definition createURecip (type : WType) (value : WValue) : WValue :=
  VURecip type (asType value type).

Definition createCtz (value : WValue) : WValue := VCtz (typeOf value) value.

(** ** Division by a constant *)

(** The high half of the product with a constant. *)
Definition createUMulHi (type : WType) (value : WValue) (multiplier : Z)
    (useNativeI32MulHi : bool) : WValue :=
  let bits := elementBits type in
  if useNativeI32MulHi && (bits =? 32)
  then createMulHU type value (createScalarConstant (scalarElementType type) multiplier)
  else
    let halfBits := bits / 2 in
    let halfMask := if halfBits =? 64 then u64 (-1) else Z.shiftl 1 halfBits - 1 in
    let mask := createScalarConstant (scalarElementType type) halfMask in
    let shift := createShiftAmount type halfBits in
    let x0 := createAnd type value mask in
    let x1 := createShrU type value shift in
    let m0 := createScalarConstant (scalarElementType type) (Z.land multiplier halfMask) in
    let m1 := createScalarConstant (scalarElementType type) (Z.shiftr multiplier halfBits) in
    let p00 := createMul type x0 m0 in
    let p01 := createMul type x0 m1 in
    let p10 := createMul type x1 m0 in
    let p11 := createMul type x1 m1 in
    let p00Hi := createShrU type p00 shift in
    let p01Lo := createAnd type p01 mask in
    let p10Lo := createAnd type p10 mask in
    let middle := createAdd type (createAdd type p00Hi p01Lo) p10Lo in
    let hi := createAdd type p11 (createShrU type p01 shift) in
    let hi := createAdd type hi (createShrU type p10 shift) in
    createAdd type hi (createShrU type middle shift).

(** [llvm::UnsignedDivisionByConstantInfo], for a width and a divisor. *)
Record UnsignedMagic : Set := mkMagic {
  Magic : Z;
  IsAdd : bool;
  PreShift : Z;
  PostShift : Z
}.
Class DivLLVM := { unsignedMagic : Z -> Z -> UnsignedMagic }.

(** [isPowerOf2_64]. *)
Definition isPowerOf2 (value : Z) : bool :=
  (0 <? value) && (Z.land value (value - 1) =? 0).

Section Constant.
Context `{DivLLVM}.

Definition createUnsignedMagicQuotient (type : WType) (numerator : WValue) (divisor : Z)
    (useNativeI32MulHi : bool) : WValue :=
  let bits := elementBits type in
  let magics := unsignedMagic bits (maskToBits divisor bits) in
  let q := if negb (PreShift magics =? 0)
           then createShrU type numerator (createShiftAmount type (PreShift magics))
           else numerator in
  let q := createUMulHi type q (Magic magics) useNativeI32MulHi in
  let q := if IsAdd magics
           then
             let npq := createSub type numerator q in
             let npq := createShrU type npq (createShiftAmount type 1) in
             createAdd type npq q
           else q in
  if negb (PostShift magics =? 0)
  then createShrU type q (createShiftAmount type (PostShift magics)) else q.

Definition tryCreateUnsignedConstDivRem (type : WType) (numerator : WValue) (divisor : Z)
    (useNativeI32MulHi : bool) : option DivRemValues :=
  let bits := elementBits type in
  let divisor := maskToBits divisor bits in
  if divisor =? 0 then None
  else if divisor =? 1 then Some (mkDivRem numerator (createConstantLike type 0))
  else if isPowerOf2 divisor then
    let shift := Z.log2 divisor in
    Some (mkDivRem
      (createShrU type numerator (createShiftAmount type shift))
      (createAnd type numerator
         (createScalarConstant (scalarElementType type) (divisor - 1))))
  else
    let quotient := createUnsignedMagicQuotient type numerator divisor useNativeI32MulHi in
    let scaled := createMul type quotient
                    (createScalarConstant (scalarElementType type) divisor) in
    Some (mkDivRem quotient (createSub type numerator scaled)).
End Constant.

(** ** Unsigned division *)

(** The body of the loop of [createUnsignedRestoringDivRem]. *)
Definition restoringStep (type : WType) (numerator divisor : WValue) (bit : Z)
    (result : DivRemValues) : DivRemValues :=
  let one := createScalarConstant (scalarElementType type) 1 in
  let shift := createShiftAmount type bit in
  let nextBit := createAnd type (createShrU type numerator shift) one in
  let shifted := createOr type
    (createShl type (remainder result) (createShiftAmount type 1)) nextBit in
  let reduced := createSub type shifted divisor in
  let withBit := createOr type (quotient result)
                   (createConstantLike type (Z.shiftl 1 bit)) in
  let take := createCompare CmpIPredicate.uge shifted divisor type in
  mkDivRem (createSelect type take withBit (quotient result))
    (createSelect type take reduced shifted).

(** From bit [n - 1] down to bit 0. *)
Fixpoint restoringLoop (type : WType) (numerator divisor : WValue) (n : nat)
    (result : DivRemValues) : DivRemValues :=
  match n with
  | O => result
  | S bit =>
      restoringLoop type numerator divisor bit
        (restoringStep type numerator divisor (Z.of_nat bit) result)
  end.
Definition createUnsignedRestoringDivRem (type : WType) (numerator divisor : WValue) :
    DivRemValues :=
  restoringLoop type numerator divisor (Z.to_nat (elementBits type))
    (mkDivRem (createConstantLike type 0) (createConstantLike type 0)).

(** The correction that [createUnsignedI32DivRem] makes twice. *)
Definition correctionStep (type : WType) (divisor : WValue) (result : DivRemValues) :
    DivRemValues :=
  let one := createConstantLike type 1 in
  let incrementedQuotient := createAdd type (quotient result) one in
  let reducedRemainder := createSub type (remainder result) divisor in
  let take := createCompare CmpIPredicate.uge (remainder result) divisor type in
  mkDivRem (createSelect type take incrementedQuotient (quotient result))
    (createSelect type take reducedRemainder (remainder result)).

Definition createUnsignedI32DivRem (type : WType) (numerator divisor : WValue) :
    DivRemValues :=
  let z := createURecip type divisor in
  let negDivisor := createNeg type divisor in
  let negYZ := createMul type negDivisor z in
  let z := createAdd type z (createMulHU type z negYZ) in
  let quotient := createMulHU type numerator z in
  let remainder := createSub type numerator (createMul type quotient divisor) in
  correctionStep type divisor (correctionStep type divisor (mkDivRem quotient remainder)).

Definition createUnsignedDivRem `{DivLLVM} (type : WType) (numerator divisor : WValue)
    (useNativeI32ConstMulHi : bool) : DivRemValues :=
  let numerator := asType numerator type in
  let divisor := asType divisor type in
  let dynamic :=
    if elementBits type =? 32 then createUnsignedI32DivRem type numerator divisor
    else createUnsignedRestoringDivRem type numerator divisor in
  match getConstantAPInt divisor (elementBits type) with
  | Some constant =>
      match tryCreateUnsignedConstDivRem type numerator constant useNativeI32ConstMulHi with
      | Some result => result
      | None => dynamic
      end
  | None => dynamic
  end.

(** ** What is proved of operands *)

(** The queries of the pass.  [provesLowerBound]: [isProvenSignedLowerBound];
    [provesI32Range]: [isProvenSignedI32RangeWithLowerBound]; [provesPow2]:
    [isProvenPositivePow2]; [provesAtMostSignedMin]:
    [isProvenUnsignedUpperAtMostSignedMin]. *)
Class DivProofs := {
  provesLowerBound : WValue -> Z -> bool;
  provesI32Range : WValue -> Z -> bool;
  provesPow2 : WValue -> bool;
  provesAtMostSignedMin : WValue -> bool
}.

Definition isProvenNonNegative `{DivProofs} (value : WValue) : bool :=
  provesLowerBound value 0.
Definition isProvenPositive `{DivProofs} (value : WValue) : bool :=
  provesLowerBound value 1.

Section Expand.
Context `{DivLLVM} `{DivProofs}.

(** The proofs are of [lhsProof] and [rhsProof], whose values are those of
    [lhs] and [rhs]. *)
Definition tryCreateDynamicPow2Value (type : WType) (kind : BinaryKind.t)
    (lhs rhs lhsProof rhsProof : WValue) : option WValue :=
  if bool_decide (is_Some (getConstantAPInt rhsProof (elementBits type))) then None
  else if negb (provesPow2 rhsProof) then None
  else if isSignedDivRem kind && negb (isProvenNonNegative lhsProof) then None
  else if isDivision kind then
    let lhs := asType lhs type in
    let shiftSource := match rhs with VSplat _ source => source | _ => rhs end in
    Some (createShrU type lhs (createCtz shiftSource))
  else
    let rhs := asType rhs type in
    let mask := createSub type rhs (createConstantLike type 1) in
    Some (createAnd type lhs mask).

Definition signedAbs (bits value : Z) : Z :=
  if signedValue bits value <? 0 then toBits bits (- value) else value.

(** ** Signed division *)

Definition tryCreateSignedPositivePow2Value (type : WType) (kind : BinaryKind.t)
    (lhs : WValue) (rhsConst : Z) : option WValue :=
  let bits := elementBits type in
  if (signedValue bits rhsConst <? 0) || (rhsConst =? 0) then None
  else
    let divisor := rhsConst in
    if negb (isPowerOf2 divisor) then None
    else
      let zero := createConstantLike type 0 in
      if divisor =? 1
      then Some (if bool_decide (kind = BinaryKind.DivSI) then asType lhs type else zero)
      else
        let lhsNeg := createCompare CmpIPredicate.slt lhs zero type in
        let bias := createSelect type lhsNeg (createConstantLike type (divisor - 1)) zero in
        let shift := Z.log2 divisor in
        let adjusted := createAdd type lhs bias in
        let quotient := createShrS type adjusted (createShiftAmount type shift) in
        if bool_decide (kind = BinaryKind.DivSI) then Some quotient
        else
          let scaled := createShl type quotient (createShiftAmount type shift) in
          Some (createSub type lhs scaled).

Definition createSignedDivRem (type : WType) (lhs rhs : WValue) (divisorPositive : bool) :
    DivRemValues :=
  let lhs := asType lhs type in
  let rhs := asType rhs type in
  let bits := elementBits type in
  let signShift := createShiftAmount type (bits - 1) in
  let lhsSign := createShrS type lhs signShift in
  let absLhs := createSub type (createXor type lhs lhsSign) lhsSign in
  let rhsConst := getConstantAPInt rhs bits in
  let '(absRhs, quotientSign) :=
    if divisorPositive then (rhs, lhsSign)
    else match rhsConst with
         | Some constant =>
             (createConstantLike type (signedAbs bits constant),
              if signedValue bits constant <? 0
              then createXor type lhsSign (createConstantLike type (u64 (-1)))
              else lhsSign)
         | None =>
             let rhsSign := createShrS type rhs signShift in
             (createSub type (createXor type rhs rhsSign) rhsSign,
              createXor type lhsSign rhsSign)
         end in
  let unsignedResult := createUnsignedDivRem type absLhs absRhs
                          (bool_decide (is_Some rhsConst)) in
  mkDivRem
    (createSub type (createXor type (quotient unsignedResult) quotientSign) quotientSign)
    (createSub type (createXor type (remainder unsignedResult) lhsSign) lhsSign).

(** ** Division of 64-bit values that fit 32 bits *)

Definition createI32View (value : WValue) : WValue :=
  let i32 := i32Like (typeOf value) in
  match getConstantAPInt value (elementBits (typeOf value)) with
  | Some constant => createConstantLike i32 constant
  | None => VCast i32 None value
  end.

Record NarrowDivRemResult : Set := mkNarrow {
  narrow_value : WValue;
  narrow_extension : CastExtension.t
}.

(** [opLhs] and [opRhs] are the operands of the operation, [lhs] and [rhs]
    their views in 32 bits. *)
Definition createNarrowDivRem (kind : BinaryKind.t) (opLhs opRhs lhs rhs : WValue) :
    option NarrowDivRemResult :=
  let i32 := typeOf lhs in
  if provesI32Range opLhs 0 && provesI32Range opRhs 0 then
    match tryCreateDynamicPow2Value i32 kind lhs rhs opLhs opRhs with
    | Some pow2 => Some (mkNarrow pow2 CastExtension.Zero)
    | None =>
        let result := createUnsignedDivRem i32 lhs rhs false in
        Some (mkNarrow (if isDivision kind then quotient result else remainder result)
                CastExtension.Zero)
    end
  else if negb (isSignedDivRem kind) || negb (provesI32Range opLhs signedI32Min)
          || negb (provesI32Range opRhs signedI32Min)
  then None
  else
    let divisorPositive := isProvenPositive opRhs in
    let result := createSignedDivRem i32 lhs rhs divisorPositive in
    Some (mkNarrow (if bool_decide (kind = BinaryKind.DivSI) then quotient result
                    else remainder result) CastExtension.Sign).

Definition createNarrow (type : WType) (kind : BinaryKind.t) (lhs rhs : WValue) :
    option NarrowDivRemResult :=
  if negb (canNarrowDivRemTypeToI32 type) then None
  else createNarrowDivRem kind lhs rhs (createI32View lhs) (createI32View rhs).

(** [replaceNarrowingUsers]: what a user of the operation becomes. *)
Definition replaceNarrowingUser (op user replacement : WValue) : WValue :=
  match user with
  | VCast type _ source =>
      if bool_decide (source = op) && (elementBits type =? 32) then replacement else user
  | _ => user
  end.

Definition tryExpandIndexDivRemAsI32 (type : WType) (kind : BinaryKind.t)
    (lhs rhs : WValue) : option WValue :=
  match createNarrow type kind lhs rhs with
  | None => None
  | Some narrow => Some (VCast type (Some (narrow_extension narrow)) (narrow_value narrow))
  end.

Definition tryCreateSignedAsUnsignedValue (type : WType) (kind : BinaryKind.t)
    (lhs rhs : WValue) : option WValue :=
  if negb (isSignedDivRem kind) || negb (isProvenNonNegative lhs)
     || negb (isProvenPositive rhs)
  then None
  else
    let result := createUnsignedDivRem type lhs rhs true in
    Some (if bool_decide (kind = BinaryKind.DivSI) then quotient result
          else remainder result).

Definition tryCreateSignedConstPow2Value (type : WType) (kind : BinaryKind.t)
    (lhs rhs : WValue) : option WValue :=
  if negb (isSignedDivRem kind) then None
  else match getConstantAPInt rhs (elementBits type) with
       | None => None
       | Some rhsConst => tryCreateSignedPositivePow2Value type kind lhs rhsConst
       end.

(** ** The expansion of one operation *)

Definition expandDivRem (type : WType) (kind : BinaryKind.t) (lhs rhs : WValue) : WValue :=
  match tryExpandIndexDivRemAsI32 type kind lhs rhs with
  | Some narrow => narrow
  | None =>
  match tryCreateDynamicPow2Value type kind lhs rhs lhs rhs with
  | Some pow2 => pow2
  | None =>
  match tryCreateSignedAsUnsignedValue type kind lhs rhs with
  | Some signedAsUnsigned => signedAsUnsigned
  | None =>
  match tryCreateSignedConstPow2Value type kind lhs rhs with
  | Some signedPow2 => signedPow2
  | None =>
      let result :=
        if isSignedDivRem kind
        then createSignedDivRem type lhs rhs (isProvenPositive rhs)
        else createUnsignedDivRem type lhs rhs false in
      if isDivision kind then quotient result else remainder result
  end end end end.

(** [WaveNormalizeIntegerDivRemPass]: the kind that an operation gets. *)
Definition normalizeDivRem (kind : BinaryKind.t) (lhs rhs : WValue) : BinaryKind.t :=
  if negb (isSignedDivRem kind) || negb (isProvenNonNegative lhs)
     || negb (isProvenPositive rhs)
  then kind
  else if bool_decide (kind = BinaryKind.DivSI) then BinaryKind.DivUI
       else BinaryKind.RemUI.
End Expand.
