(* ===== verification/QuoEval.v ===== *)
(** * Arithmetic, and what the created operations evaluate to

    Facts on numbers of a width that the expansions of division rest on, and the
    values of what the builders create. *)

From stdpp Require Import base tactics list numbers gmap strings.
From Stdlib Require Import ZArith Zquot.
From S2P Require Import Prelude QuoIR QuoExpand.

Lemma pow2_pos n : 0 <= n -> 0 < 2 ^ n.
Proof. intros. by apply Z.pow_pos_nonneg. Qed.

Lemma toBits_small bits x : 0 <= x < 2 ^ bits -> toBits bits x = x.
Proof. apply Z.mod_small. Qed.

Lemma toBits_range bits x : 0 <= bits -> 0 <= toBits bits x < 2 ^ bits.
Proof. intros. apply Z.mod_pos_bound, pow2_pos. done. Qed.

(** [y] stands for [x] when they differ by a multiple of the modulus. *)
Lemma toBits_unique bits x y k :
  0 <= y < 2 ^ bits -> x = y + k * 2 ^ bits -> toBits bits x = y.
Proof. intros Hy ->. unfold toBits. rewrite Z.mod_add by lia. by apply Z.mod_small. Qed.

Lemma toBits_eqm bits x y k : x = y + k * 2 ^ bits -> toBits bits x = toBits bits y.
Proof.
  intros ->. unfold toBits. destruct (Z.eq_dec (2 ^ bits) 0) as [->|]; [by rewrite Z.mul_0_r, Z.add_0_r|].
  by rewrite Z.mod_add.
Qed.

Lemma toBits_toBits bits x : toBits bits (toBits bits x) = toBits bits x.
Proof. apply Zmod_mod. Qed.

Lemma signedValue_spec bits x :
  0 < bits -> 0 <= x < 2 ^ bits ->
  - 2 ^ (bits - 1) <= signedValue bits x < 2 ^ (bits - 1) /\
  toBits bits (signedValue bits x) = x.
Proof.
  intros Hb Hx. assert (2 ^ bits = 2 * 2 ^ (bits - 1)) as Hp.
  { rewrite <-Z.pow_succ_r by lia. f_equal. lia. }
  unfold signedValue. destruct (Z.ltb_spec x (2 ^ (bits - 1))) as [H|H].
  - split; [lia|]. by apply toBits_small.
  - split; [lia|]. apply (toBits_unique _ _ _ (-1)); lia.
Qed.

Lemma signedValue_toBits bits x :
  0 < bits -> - 2 ^ (bits - 1) <= x < 2 ^ (bits - 1) ->
  signedValue bits (toBits bits x) = x.
Proof.
  intros Hb Hx. assert (2 ^ bits = 2 * 2 ^ (bits - 1)) as Hp.
  { rewrite <-Z.pow_succ_r by lia. f_equal. lia. }
  destruct (Z.lt_ge_cases x 0) as [H|H].
  - rewrite (toBits_unique bits x (x + 2 ^ bits) (-1)) by lia. unfold signedValue.
    destruct (Z.ltb_spec (x + 2 ^ bits) (2 ^ (bits - 1))); lia.
  - rewrite toBits_small by lia. unfold signedValue.
    destruct (Z.ltb_spec x (2 ^ (bits - 1))); lia.
Qed.

Lemma signedValue_nonneg bits x :
  0 < bits -> 0 <= x < 2 ^ bits -> 0 <= signedValue bits x -> signedValue bits x = x.
Proof. intros Hb Hx. unfold signedValue. destruct (Z.ltb_spec x (2 ^ (bits - 1))); lia. Qed.

(** ** Masks *)

Lemma mask_ones bits : 0 <= bits -> Z.shiftl 1 bits - 1 = Z.ones bits.
Proof. intros. rewrite Z.shiftl_1_l, Z.ones_equiv. lia. Qed.

Lemma land_mask x bits : 0 <= bits -> Z.land x (2 ^ bits - 1) = x mod 2 ^ bits.
Proof. intros. rewrite <-Z.land_ones by done. f_equal. rewrite Z.ones_equiv. lia. Qed.

Lemma lxor_ones n x : 0 <= n -> 0 <= x < 2 ^ n -> Z.lxor x (2 ^ n - 1) = 2 ^ n - 1 - x.
Proof.
  intros Hn Hx. assert (2 ^ n - 1 = Z.ones n) as Ho by (rewrite Z.ones_equiv; lia).
  assert (Z.land x (Z.lxor x (2 ^ n - 1)) = 0) as Hl.
  { apply Z.bits_inj'. intros i Hi. rewrite Z.land_spec, Z.lxor_spec, Z.bits_0, Ho.
    destruct (Z.lt_ge_cases i n).
    - rewrite Z.ones_spec_low by lia. by destruct (Z.testbit x i).
    - rewrite <-(Z.mod_small x (2 ^ n)), Z.mod_pow2_bits_high by lia. done. }
  pose proof (Z.add_nocarry_lxor _ _ Hl) as Ha.
  rewrite <-Z.lxor_assoc, Z.lxor_nilpotent, Z.lxor_0_l in Ha. lia.
Qed.

(** [(x ^ s) - s] negates where the sign mask [s] is set. *)
Lemma xor_sub_sign bits x s :
  0 < bits -> 0 <= x < 2 ^ bits -> s = 0 \/ s = 2 ^ bits - 1 ->
  toBits bits (Z.lxor x s - s) = if s =? 0 then x else toBits bits (- x).
Proof.
  intros Hb Hx [->| ->].
  - rewrite Z.lxor_0_r, Z.sub_0_r. by apply toBits_small.
  - rewrite lxor_ones by lia. assert (2 ^ 1 <= 2 ^ bits) by (apply Z.pow_le_mono_r; lia).
    destruct (Z.eqb_spec (2 ^ bits - 1) 0); [lia|].
    apply (toBits_eqm _ _ _ 0). lia.
Qed.

(** The sign mask of a value. *)
Lemma shiftr_sign bits x :
  0 < bits -> 0 <= x < 2 ^ bits ->
  toBits bits (Z.shiftr (signedValue bits x) (bits - 1)) =
    if signedValue bits x <? 0 then 2 ^ bits - 1 else 0.
Proof.
  intros Hb Hx. destruct (signedValue_spec bits x Hb Hx) as [Hs _].
  rewrite Z.shiftr_div_pow2 by lia. pose proof (pow2_pos (bits - 1)).
  assert (2 ^ 1 <= 2 ^ bits) by (apply Z.pow_le_mono_r; lia).
  destruct (Z.ltb_spec (signedValue bits x) 0).
  - replace (signedValue bits x / 2 ^ (bits - 1)) with (-1);
      [apply (toBits_unique _ _ _ (-1)); lia|].
    apply (Z.div_unique _ _ _ (signedValue bits x + 2 ^ (bits - 1))); lia.
  - rewrite Z.div_small by lia. apply toBits_small. lia.
Qed.

(** ** High products *)

Lemma umulhi_halves h x m :
  0 < h -> 0 <= x < 2 ^ (2 * h) -> 0 <= m < 2 ^ (2 * h) ->
  let H := 2 ^ h in
  let p00 := (x mod H) * (m mod H) in let p01 := (x mod H) * (m / H) in
  let p10 := (x / H) * (m mod H) in let p11 := (x / H) * (m / H) in
  let middle := p00 / H + p01 mod H + p10 mod H in
  p00 < H * H /\ p01 < H * H /\ p10 < H * H /\ p11 < H * H /\
  p00 / H + p01 mod H < H * H /\ middle < H * H /\ p11 + p01 / H < H * H /\
  p11 + p01 / H + p10 / H < H * H /\
  p11 + p01 / H + p10 / H + middle / H = x * m / (H * H) /\ x * m / (H * H) < H * H.
Proof.
  intros Hh Hx Hm H p00 p01 p10 p11 middle.
  assert (H * H = 2 ^ (2 * h)) as HH by (unfold H; rewrite <-Z.pow_add_r by lia; f_equal; lia).
  assert (2 <= H) as H2. { replace 2 with (2 ^ 1) by done. apply Z.pow_le_mono_r; lia. }
  rewrite <-HH in Hx, Hm.
  pose proof (Z.div_mod x H ltac:(lia)) as Dx. pose proof (Z.mod_pos_bound x H ltac:(lia)).
  pose proof (Z.div_mod m H ltac:(lia)) as Dm. pose proof (Z.mod_pos_bound m H ltac:(lia)).
  assert (0 <= x / H < H) by (split; [apply Z.div_pos; lia|apply Z.div_lt_upper_bound; lia]).
  assert (0 <= m / H < H) by (split; [apply Z.div_pos; lia|apply Z.div_lt_upper_bound; lia]).
  set (x0 := x mod H) in *. set (x1 := x / H) in *. set (m0 := m mod H) in *. set (m1 := m / H) in *.
  assert (forall a b, 0 <= a < H -> 0 <= b < H -> 0 <= a * b <= H * H - 2 * H + 1) as Hmul
    by (intros; nia).
  pose proof (Hmul x0 m0 ltac:(lia) ltac:(lia)). pose proof (Hmul x0 m1 ltac:(lia) ltac:(lia)).
  pose proof (Hmul x1 m0 ltac:(lia) ltac:(lia)). pose proof (Hmul x1 m1 ltac:(lia) ltac:(lia)).
  assert (middle = p00 / H + p01 mod H + p10 mod H) as Emiddle by done. clearbody middle.
  assert (p00 = x0 * m0) as P00 by done. assert (p01 = x0 * m1) as P01 by done.
  assert (p10 = x1 * m0) as P10 by done. assert (p11 = x1 * m1) as P11 by done.
  clearbody p00 p01 p10 p11. rewrite <-P00, <-P01, <-P10, <-P11 in *.
  assert (forall p, 0 <= p <= H * H - 2 * H + 1 ->
    0 <= p / H <= H - 2 /\ 0 <= p mod H < H /\ p = H * (p / H) + p mod H) as Hdiv.
  { intros p Hp. pose proof (Z.mod_pos_bound p H ltac:(lia)).
    pose proof (Z.div_mod p H ltac:(lia)). repeat split; try lia; nia. }
  destruct (Hdiv p00 ltac:(lia)) as (? & ? & E00). destruct (Hdiv p01 ltac:(lia)) as (? & ? & E01).
  destruct (Hdiv p10 ltac:(lia)) as (? & ? & E10).
  pose proof (Z.div_mod middle H ltac:(lia)) as Emid.
  pose proof (Z.mod_pos_bound middle H ltac:(lia)).
  assert (x * m = p11 * (H * H) + p01 * H + p10 * H + p00) as Hxm.
  { rewrite Dx, Dm, P00, P01, P10, P11. ring. }
  clear Hmul Hdiv Dx Dm P00 P01 P10 P11.
  set (a0 := p00 / H) in *. set (b0 := p00 mod H) in *.
  set (a1 := p01 / H) in *. set (b1 := p01 mod H) in *.
  set (a2 := p10 / H) in *. set (b2 := p10 mod H) in *.
  set (c := middle / H) in *. set (e := middle mod H) in *.
  assert (x * m = H * H * (p11 + a1 + a2 + c) + (e * H + b0)) as Hsum.
  { rewrite Hxm, E00, E01, E10.
    replace (H * a0 + b0) with (H * (middle - b1 - b2) + b0) by (f_equal; f_equal; lia).
    rewrite Emid. ring. }
  assert (0 <= e * H + b0 < H * H).
  { assert (0 <= e * H <= (H - 1) * H) by (split; [apply Z.mul_nonneg_nonneg|
      apply Z.mul_le_mono_nonneg_r]; lia). lia. }
  assert (p11 + a1 + a2 + c = x * m / (H * H)) as Hq
    by (apply (Z.div_unique_pos _ _ _ (e * H + b0)); [done|exact Hsum]).
  assert (x * m / (H * H) < H * H).
  { apply Z.div_lt_upper_bound; [lia|]. apply Z.mul_lt_mono_nonneg; lia. }
  assert (2 * H <= H * H) by (apply Z.mul_le_mono_nonneg_r; lia).
  assert (3 * H - 4 < H * H) by (clear -H2; nia).
  split_and!; try done; lia.
Qed.

(** ** Magic numbers *)

(** A multiplier [M] close above [2 ^ e / d] divides by [d]. *)
Lemma magic_div n d M e :
  0 <= n -> 0 < d -> 0 <= e -> 0 < M * d - 2 ^ e -> n * (M * d - 2 ^ e) < 2 ^ e ->
  n * M / 2 ^ e = n / d.
Proof.
  intros Hn Hd He Hpos Hsmall. pose proof (pow2_pos e He).
  pose proof (Z.div_mod n d ltac:(lia)) as Dn. pose proof (Z.mod_pos_bound n d ltac:(lia)).
  symmetry. apply (Z.div_unique_pos _ _ _ (n * M - (n / d) * 2 ^ e)); [|lia].
  set (q := n / d) in *. set (r := n mod d) in *. set (c := M * d - 2 ^ e) in *.
  assert (d * (n * M - q * 2 ^ e) = n * c + r * 2 ^ e) as Hd' by (unfold c; nia).
  split; [nia|]. assert (d * (n * M - q * 2 ^ e) < d * 2 ^ e); nia.
Qed.

(** The addition of the numerator that does not overflow. *)
Lemma add_half n q : 0 <= q <= n -> (n - q) / 2 + q = (n + q) / 2.
Proof.
  intros. replace (n + q) with (n - q + q * 2) by lia. by rewrite Z.div_add by lia.
Qed.

(** ** Reciprocals *)

(** An estimate [z0] of [2 ^ 32 / y], one step of Newton and Raphson, and the
    quotient that it gives, which is at most two too small. *)
Section Reciprocal.
Context (B y z0 : Z).
Context (Hy : 0 < y < B) (Hz0 : 0 < z0 < B) (Hunder : y * z0 <= B).
Context (Hclose : (B - y * z0) * (B - y * z0) <= B * y).

Definition newton : Z := z0 + z0 * (B - y * z0) / B.

Lemma newton_bounds : y * newton <= B /\ B - y * newton < 2 * y /\ 0 < newton /\
  (z0 < B -> newton < B).
Proof using All.
  set (r0 := B - y * z0) in *. unfold newton. fold r0.
  pose proof (Z.div_mod (z0 * r0) B ltac:(lia)) as Hd.
  pose proof (Z.mod_pos_bound (z0 * r0) B ltac:(lia)) as Hm.
  set (k := z0 * r0 / B) in *. set (m := (z0 * r0) mod B) in *.
  assert (0 <= r0 < B) by (unfold r0; nia).
  assert (0 <= k) by (unfold k; apply Z.div_pos; nia).
  assert (B * (y * (z0 + k)) = B * B - r0 * r0 - y * m) as He.
  { assert (B * k = z0 * r0 - m) by lia. unfold r0 in *. nia. }
  split; [nia|]. split; [|split; [lia|]].
  - assert (B * (B - y * (z0 + k)) < B * (2 * y)); nia.
  - intros _. destruct (Z.eq_dec r0 0) as [Hr|Hr].
    + assert (k = 0) by (unfold k; by rewrite Hr, Z.mul_0_r). lia.
    + assert (y * (z0 + k) < B) by nia. nia.
Qed.
End Reciprocal.

Lemma reciprocal_quotient B y z x :
  0 < y -> 0 <= z -> 0 <= x < B -> y * z <= B -> B - y * z < 2 * y ->
  0 <= x - x * z / B * y < 3 * y.
Proof.
  intros Hy Hz Hx Hu Hc.
  pose proof (Z.div_mod (x * z) B ltac:(lia)) as Hd.
  pose proof (Z.mod_pos_bound (x * z) B ltac:(lia)) as Hm.
  set (q := x * z / B) in *. set (m := (x * z) mod B) in *.
  assert (B * (x - q * y) = x * (B - y * z) + m * y) as He by nia.
  split; [nia|]. assert (B * (x - q * y) < B * (3 * y)); nia.
Qed.

(** ** Restoring division *)

Lemma div_pow2_succ x i : 0 <= i -> x / 2 ^ i = 2 * (x / 2 ^ (i + 1)) + (x / 2 ^ i) mod 2.
Proof.
  intros Hi. rewrite (Z.div_mod (x / 2 ^ i) 2) at 1 by lia.
  rewrite Z.div_div by (try apply Z.pow_nonzero; lia).
  by rewrite Z.pow_add_r, Z.pow_1_r by lia.
Qed.

(** One step keeps quotient and remainder of the leading bits. *)
Lemma restoring_spec n d :
  0 < d -> 0 <= n ->
  let q := n / 2 / d in let r := n / 2 mod d in
  let s := 2 * r + n mod 2 in
  n / d = 2 * q + Z.b2z (d <=? s) /\ n mod d = if d <=? s then s - d else s.
Proof.
  intros Hd Hn q r s.
  pose proof (Z.div_mod (n / 2) d ltac:(lia)) as Hq. fold q r in Hq.
  pose proof (Z.mod_pos_bound (n / 2) d ltac:(lia)) as Hr. fold r in Hr.
  pose proof (Z.div_mod n 2 ltac:(lia)) as H2. pose proof (Z.mod_pos_bound n 2 ltac:(lia)).
  assert (n = d * (2 * q) + s) as Hs by (unfold s; lia).
  destruct (Z.leb_spec d s) as [Hl|Hl]; simpl.
  - split; symmetry;
      [apply (Z.div_unique_pos _ _ _ (s - d))|apply (Z.mod_unique_pos _ _ (2 * q + 1))]; lia.
  - split; symmetry;
      [apply (Z.div_unique_pos _ _ _ s)|apply (Z.mod_unique_pos _ _ (2 * q))]; lia.
Qed.

(** ** Powers of two *)

Lemma isPowerOf2_log2 d : 0 < d -> Z.land d (d - 1) = 0 -> d = 2 ^ Z.log2 d.
Proof.
  intros Hd Hl. destruct (Z.log2_spec d Hd) as [H1 H2]. set (n := Z.log2 d) in *.
  assert (0 <= n) by apply Z.log2_nonneg.
  destruct (Z.eq_dec d (2 ^ n)) as [|Hne]; [done|]. exfalso.
  assert (Z.testbit (Z.land d (d - 1)) n = true) as Hb; [|rewrite Hl, Z.bits_0 in Hb; done].
  rewrite Z.land_spec. rewrite Z.pow_succ_r in H2 by done.
  assert (forall x, 2 ^ n <= x < 2 * 2 ^ n -> Z.testbit x n = true) as Hbit.
  { intros x Hx. rewrite Z.testbit_true by done.
    replace (x / 2 ^ n) with 1; [done|]. apply (Z.div_unique_pos _ _ _ (x - 2 ^ n)); lia. }
  rewrite !Hbit by lia. done.
Qed.

Lemma trailingZeros_pow2 n : 0 <= n -> exists p, 2 ^ n = Zpos p /\ trailingZeros p = n.
Proof.
  intros Hn. pattern n. apply natlike_ind; [by exists 1%positive| |done].
  intros k Hk (p & Hp & Ht). exists p~0%positive. rewrite Z.pow_succ_r, Hp by done.
  split; [done|]. simpl. lia.
Qed.

(** ** What the created operations evaluate to *)

Lemma flagsHold_none kind bits a b : flagsHold kind noFlags bits a b = true.
Proof. by destruct kind. Qed.

Create HintDb quo.

Section Eval.
Context `{WaveTarget} (holds : string -> Assumption) (env : N -> Z).
Abbreviation ev := (eval holds env).
Context (type : WType) (Hbits : 0 < elementBits type).
Abbreviation bits := (elementBits type).

Lemma ev_binary kind a b x y :
  ev a = Some x -> ev b = Some y ->
  ev (createBinary type kind a b) = foldWaveBinaryConstants kind bits x y.
Proof using Type. intros Ha Hb. simpl. rewrite Ha, Hb. simpl. by rewrite flagsHold_none. Qed.

Lemma ev_add a b x y : ev a = Some x -> ev b = Some y ->
  ev (createAdd type a b) = Some (toBits bits (x + y)).
Proof using Type. intros Ha Hb. exact (ev_binary _ _ _ _ _ Ha Hb). Qed.
Lemma ev_sub a b x y : ev a = Some x -> ev b = Some y ->
  ev (createSub type a b) = Some (toBits bits (x - y)).
Proof using Type. intros Ha Hb. exact (ev_binary _ _ _ _ _ Ha Hb). Qed.
Lemma ev_mul a b x y : ev a = Some x -> ev b = Some y ->
  ev (createMul type a b) = Some (toBits bits (x * y)).
Proof using Type. intros Ha Hb. exact (ev_binary _ _ _ _ _ Ha Hb). Qed.
Lemma ev_mulhu a b x y : ev a = Some x -> ev b = Some y ->
  ev (createMulHU type a b) = Some (x * y / 2 ^ bits).
Proof using Hbits. intros Ha Hb. etransitivity; [exact (ev_binary _ _ _ _ _ Ha Hb)|]. unfold foldWaveBinaryConstants. simpl. by rewrite Z.shiftr_div_pow2 by lia. Qed.
Lemma ev_and a b x y : ev a = Some x -> ev b = Some y ->
  ev (createAnd type a b) = Some (Z.land x y).
Proof using Type. intros Ha Hb. exact (ev_binary _ _ _ _ _ Ha Hb). Qed.
Lemma ev_or a b x y : ev a = Some x -> ev b = Some y ->
  ev (createOr type a b) = Some (Z.lor x y).
Proof using Type. intros Ha Hb. exact (ev_binary _ _ _ _ _ Ha Hb). Qed.
Lemma ev_xor a b x y : ev a = Some x -> ev b = Some y ->
  ev (createXor type a b) = Some (Z.lxor x y).
Proof using Type. intros Ha Hb. exact (ev_binary _ _ _ _ _ Ha Hb). Qed.
Lemma ev_shl a b x y : ev a = Some x -> ev b = Some y -> 0 <= y < bits ->
  ev (createShl type a b) = Some (toBits bits (x * 2 ^ y)).
Proof using Type.
  intros Ha Hb Hy. etransitivity; [exact (ev_binary _ _ _ _ _ Ha Hb)|]. unfold foldWaveBinaryConstants. simpl.
  destruct (Z.ltb_spec y bits); [|lia]. simpl. by rewrite Z.shiftl_mul_pow2 by lia.
Qed.
Lemma ev_shru a b x y : ev a = Some x -> ev b = Some y -> 0 <= y < bits ->
  ev (createShrU type a b) = Some (x / 2 ^ y).
Proof using Type.
  intros Ha Hb Hy. etransitivity; [exact (ev_binary _ _ _ _ _ Ha Hb)|]. unfold foldWaveBinaryConstants. simpl.
  destruct (Z.ltb_spec y bits); [|lia]. simpl. by rewrite Z.shiftr_div_pow2 by lia.
Qed.
Lemma ev_shrs a b x y : ev a = Some x -> ev b = Some y -> 0 <= y < bits ->
  ev (createShrS type a b) = Some (toBits bits (Z.shiftr (signedValue bits x) y)).
Proof using Type.
  intros Ha Hb Hy. etransitivity; [exact (ev_binary _ _ _ _ _ Ha Hb)|]. unfold foldWaveBinaryConstants. simpl.
  by destruct (Z.ltb_spec y bits); [|lia].
Qed.

Lemma ev_asType a t : ev (asType a t) = ev a.
Proof using Type. unfold asType. repeat case_decide; try done; destruct t; by try case_decide. Qed.

Lemma ev_select c a b x y z : ev c = Some z -> ev a = Some x -> ev b = Some y ->
  ev (createSelect type c a b) = Some (if z =? 0 then y else x).
Proof using Type. intros Hc Ha Hb. simpl. rewrite Hc. simpl. rewrite !ev_asType. by destruct (z =? 0). Qed.

Lemma ev_uge a b t x y : ev a = Some x -> ev b = Some y ->
  ev (createCompare CmpIPredicate.uge a b t) = Some (Z.b2z (y <=? x)).
Proof using Type.
  intros Ha Hb. destruct t; simpl; rewrite ?ev_asType, Ha; simpl; by rewrite ?ev_asType, Hb.
Qed.

(** The comparison takes its width from an operand. *)
Lemma ev_slt a b t x y :
  ev a = Some x -> ev b = Some y -> getWaveConstantValueType (typeOf a) = getWaveConstantValueType t ->
  ev (createCompare CmpIPredicate.slt a b t) =
    Some (Z.b2z (signedValue (elementBits t) x <? signedValue (elementBits t) y)).
Proof using Type.
  intros Ha Hb Ht. assert (elementBits (typeOf a) = elementBits t) as Hw
    by (unfold elementBits; by rewrite Ht).
  destruct t as [e|e w|w]; simpl; rewrite ?ev_asType, Ha; simpl; rewrite ?ev_asType, Hb; simpl;
    [by rewrite Hw| |by rewrite Hw].
  assert (elementBits (typeOf (asType a (SimdT e w))) = elementBits (SimdT e w)) as ->; [|done].
  unfold asType. case_decide as Hd; [by rewrite Hd|]. by case_decide.
Qed.

(** ** Constants *)

Lemma ev_mask raw t : 0 < elementBits t <= 64 -> 0 <= raw < 2 ^ 64 ->
  ev (createScalarConstant t raw) = Some (toBits (elementBits t) raw).
Proof using Type.
  intros Ht Hr. unfold createScalarConstant, maskToBits. simpl. f_equal.
  destruct (Z.eqb_spec (elementBits t) 64) as [->|]; [done|].
  rewrite mask_ones, Z.land_ones by lia. apply toBits_toBits.
Qed.

Lemma scalar_bits t : elementBits (scalarElementType t) = elementBits t.
Proof using Type. done. Qed.

Context (H64 : elementBits type <= 64).

Lemma ev_constant raw : 0 <= raw < 2 ^ 64 ->
  ev (createScalarConstant (scalarElementType type) raw) = Some (toBits bits raw).
Proof using Hbits H64. intros. by rewrite ev_mask. Qed.

Lemma ev_constantLike raw : 0 <= raw < 2 ^ 64 ->
  ev (createConstantLike type raw) = Some (toBits bits raw).
Proof using Hbits H64.
  intros Hr. unfold createConstantLike. destruct type as [e|e w|w]; by rewrite <-ev_mask.
Qed.

Lemma bits_lt : bits < 2 ^ bits.
Proof using Hbits. apply Z.pow_gt_lin_r; lia. Qed.

Lemma ev_shiftAmount n : 0 <= n < bits -> ev (createShiftAmount type n) = Some n.
Proof using Hbits H64.
  intros Hn. unfold createShiftAmount. pose proof bits_lt.
  assert (2 ^ bits <= 2 ^ 64) by (apply Z.pow_le_mono_r; lia).
  rewrite ev_constant by lia. f_equal. apply toBits_small. lia.
Qed.

(** ** Range *)

Lemma fold_range kind x y z :
  0 <= x < 2 ^ bits -> 0 <= y < 2 ^ bits ->
  foldWaveBinaryConstants kind bits x y = Some z -> 0 <= z < 2 ^ bits.
Proof using Hbits.
  clear H64. intros Hx Hy Hz. pose proof (toBits_range bits) as Ht.
  assert (forall f, (forall i, Z.testbit (f x y) i = true ->
    Z.testbit x i = true \/ Z.testbit y i = true) -> 0 <= f x y -> 0 <= f x y < 2 ^ bits) as Hbit.
  { intros f Hf H0. split; [done|]. destruct (Z.lt_ge_cases (f x y) (2 ^ bits)) as [|Hge]; [done|].
    exfalso. assert (0 < f x y) by (pose proof (pow2_pos bits); lia).
    pose proof (Z.bit_log2 (f x y) ltac:(lia)) as Hb.
    assert (bits <= Z.log2 (f x y)) as Hl by (apply Z.log2_le_pow2; lia).
    specialize (Hf _ Hb). revert Hf Hl. generalize (Z.log2 (f x y)). intros i Hf Hl.
    destruct Hf as [Hf'|Hf'];
      [rewrite <-(Z.mod_small x (2 ^ bits)) in Hf' by lia
      |rewrite <-(Z.mod_small y (2 ^ bits)) in Hf' by lia];
      rewrite Z.mod_pow2_bits_high in Hf' by lia; done. }
  destruct kind; unfold foldWaveBinaryConstants in Hz; simpl in Hz;
    try (injection Hz as <-; apply Ht; lia).
  - destruct (y <? bits); simpl in Hz; [|done]. injection Hz as <-. apply Ht; lia.
  - destruct (Z.ltb_spec y bits); simpl in Hz; [|done]. injection Hz as <-.
    rewrite Z.shiftr_div_pow2 by lia. pose proof (pow2_pos y ltac:(lia)). split.
    + apply Z.div_pos; lia.
    + apply Z.div_lt_upper_bound; [done|]. pose proof (pow2_pos bits ltac:(lia)).
      assert (1 * 2 ^ bits <= 2 ^ y * 2 ^ bits) by (apply Z.mul_le_mono_nonneg_r; lia). lia.
  - destruct (y <? bits); simpl in Hz; [|done]. injection Hz as <-. apply Ht; lia.
  - injection Hz as <-. apply (Hbit Z.land); [|apply Z.land_nonneg; lia].
    intros i. rewrite Z.land_spec, andb_true_iff. tauto.
  - injection Hz as <-. apply (Hbit Z.lor); [|apply Z.lor_nonneg; lia].
    intros i. rewrite Z.lor_spec, orb_true_iff. tauto.
  - injection Hz as <-. apply (Hbit Z.lxor); [|apply Z.lxor_nonneg; lia].
    intros i. rewrite Z.lxor_spec. destruct (Z.testbit x i), (Z.testbit y i); auto.
  - unfold foldWaveDivUIConstants in Hz. destruct (Z.eqb_spec y 0); simpl in Hz; [done|].
    injection Hz as <-. split; [apply Z.div_pos; lia|]. apply Z.div_lt_upper_bound; [lia|].
    assert (1 * 2 ^ bits <= y * 2 ^ bits) by (apply Z.mul_le_mono_nonneg_r; lia). lia.
  - unfold foldWaveDivSIConstants in Hz. destruct (y =? 0); simpl in Hz; [done|].
    destruct (_ =? _); simpl in Hz; [done|]. injection Hz as <-. apply Ht; lia.
  - unfold foldWaveRemUIConstants in Hz. destruct (Z.eqb_spec y 0); simpl in Hz; [done|].
    injection Hz as <-. pose proof (Z.mod_pos_bound x y ltac:(lia)). lia.
  - unfold foldWaveRemSIConstants in Hz. destruct (y =? 0); simpl in Hz; [done|].
    injection Hz as <-. apply Ht; lia.
  - injection Hz as <-. rewrite Z.shiftr_div_pow2 by lia. split.
    + apply Z.div_pos; [nia|]. apply pow2_pos. lia.
    + apply Z.div_lt_upper_bound; [apply pow2_pos; lia|]. apply Z.mul_lt_mono_nonneg; lia.
Qed.
End Eval.

#[export] Hint Resolve ev_add ev_sub ev_mul ev_and ev_or ev_xor ev_select ev_uge : quo.
