(* ===== verification/QuoVerify.v ===== *)
(** * Verification of operations

    The [verify] functions of [Wave.cpp] for the operations of [QuoIR.v]; those
    of [arith] and [scf] operations as MLIR documents them. *)

From stdpp Require Import base tactics list gmap numbers strings.
From Stdlib Require Import ZArith.
From S2P Require Import Prelude QuoIR QuoExpand QuoEval.

Definition elementOk (element : Element) : bool := 0 <? elementWidth element.

(** ** [wave.splat], [wave.binary] *)

Definition verifySplat (type : WType) (source : WType) : bool :=
  match type with
  | SimdT element _ => bool_decide (source = ScalarT element)
  | _ => false
  end.

Record WaveBinaryOperandShape : Set := mkShape {
  elementType : Element;
  simdWidth : option Z
}.

Definition classifyWaveBinaryOperand (type : WType) : option WaveBinaryOperandShape :=
  match type with
  | ScalarT element => Some (mkShape element None)
  | SimdT element width => Some (mkShape element (Some width))
  | MaskT _ => None
  end.

Definition verifyWaveBinaryResult (resultType : WType) (element : Element)
    (simdWidth : option Z) : bool :=
  match simdWidth with
  | None => bool_decide (resultType = ScalarT element)
  | Some width =>
      match resultType with
      | SimdT resultElement resultWidth =>
          (resultWidth =? width) && bool_decide (resultElement = element)
      | _ => false
      end
  end.

Definition supportsWaveBinaryOverflowFlags (kind : BinaryKind.t) : bool :=
  match kind with
  | BinaryKind.AddI | BinaryKind.SubI | BinaryKind.MulI | BinaryKind.ShLI => true
  | _ => false
  end.

Definition verifyBinary (type : WType) (kind : BinaryKind.t) (flags : OverflowFlags)
    (lhsType rhsType : WType) : bool :=
  match classifyWaveBinaryOperand lhsType, classifyWaveBinaryOperand rhsType with
  | Some lhs, Some rhs =>
      bool_decide (elementType lhs = elementType rhs)
      && match simdWidth lhs, simdWidth rhs with
         | Some lhsWidth, Some rhsWidth => lhsWidth =? rhsWidth
         | _, _ => true
         end
      && (bool_decide (flags = noFlags) || supportsWaveBinaryOverflowFlags kind)
      && verifyWaveBinaryResult type (elementType lhs)
           (orElse (simdWidth lhs) (simdWidth rhs))
  | _, _ => false
  end.

(** ** Comparison and selection *)

(** [arith.cmpi] on scalars, [wave.cmpi] on SIMD values. *)
Definition verifyCmp (type lhsType rhsType : WType) : bool :=
  bool_decide (lhsType = rhsType)
  && match lhsType with
     | ScalarT _ => bool_decide (type = i1)
     | SimdT _ width => bool_decide (type = MaskT width)
     | MaskT _ => false
     end.

Definition verifySelect (type conditionType trueType falseType : WType) : bool :=
  bool_decide (trueType = type) && bool_decide (falseType = type)
  && match conditionType with
     | ScalarT element => bool_decide (element = IntT 1)
     | MaskT width =>
         match type with
         | SimdT _ resultWidth | MaskT resultWidth => resultWidth =? width
         | ScalarT _ => false
         end
     | SimdT _ _ => false
     end.

(** ** [wave.urecip], [wave.ctz], [wave.cast] *)

Definition isMask (type : WType) : bool :=
  match type with MaskT _ => true | _ => false end.

Definition verifyURecip (type source : WType) : bool :=
  bool_decide (source = type) && negb (isMask type)
  && bool_decide (getWaveConstantValueType type = IntT 32).

Definition verifyCtz (type source : WType) : bool :=
  bool_decide (source = type) && negb (isMask type)
  && match getWaveConstantValueType type with
     | IndexT => true
     | IntT width => (width =? 32) || (width =? 64)
     end.

(** The shape of an integer type; element kinds and vectors are those of other
    casts. *)
Record WaveCastShape : Set := mkCastShape {
  cast_elementBits : Z;
  cast_simdWidth : option Z
}.
Definition classifyWaveCastType (type : WType) : option WaveCastShape :=
  match type with
  | ScalarT element => Some (mkCastShape (elementWidth element) None)
  | SimdT element width => Some (mkCastShape (elementWidth element) (Some width))
  | MaskT _ => None
  end.

Definition verifyWaveCastExtensionPolicy (source result : WaveCastShape)
    (extension : option CastExtension.t) : bool :=
  let wideningIntConvert := cast_elementBits source <? cast_elementBits result in
  eqb wideningIntConvert (bool_decide (is_Some extension)).

Definition verifyCast (type source : WType) (extension : option CastExtension.t) : bool :=
  match classifyWaveCastType source, classifyWaveCastType type with
  | Some source, Some result =>
      bool_decide (cast_simdWidth source = cast_simdWidth result)
      && verifyWaveCastExtensionPolicy source result extension
  | _, _ => false
  end.

(** ** Values *)

Definition isScalar (type : WType) : bool :=
  match type with ScalarT _ => true | _ => false end.

Fixpoint verified (value : WValue) : bool :=
  elementOk (getWaveConstantValueType (typeOf value)) &&
  match value with
  | VConst type attr => (0 <=? attr) && (attr <? 2 ^ elementBits type)
  | VSplat type source => verifySplat type (typeOf source) && verified source
  | VBinary type kind flags lhs rhs =>
      verifyBinary type kind flags (typeOf lhs) (typeOf rhs) && verified lhs && verified rhs
  | VCmp type _ lhs rhs =>
      verifyCmp type (typeOf lhs) (typeOf rhs) && verified lhs && verified rhs
  | VSelect type condition trueValue falseValue =>
      verifySelect type (typeOf condition) (typeOf trueValue) (typeOf falseValue)
      && verified condition && verified trueValue && verified falseValue
  | VURecip type source => verifyURecip type (typeOf source) && verified source
  | VCtz type source => verifyCtz type (typeOf source) && verified source
  | VCast type extension source =>
      verifyCast type (typeOf source) extension && verified source
  | VIndexCast type source =>
      isScalar type && isScalar (typeOf source)
      && bool_decide (is_Some (match getWaveConstantValueType type,
                                     getWaveConstantValueType (typeOf source) with
                               | IndexT, IntT _ | IntT _, IndexT => Some tt
                               | _, _ => None
                               end))
      && verified source
  | VAssume source _ _ => negb (isMask (typeOf source)) && verified source
  | VLoopIv type _ _ lowerBound upperBound step =>
      isScalar type && bool_decide (typeOf lowerBound = type)
      && bool_decide (typeOf upperBound = type) && bool_decide (typeOf step = type)
      && verified lowerBound && verified upperBound && verified step
  | VWaveId type _ | VIndexExpr type _ | VOther type _ => true
  end.

Lemma verified_bits v : verified v = true -> 0 < elementBits (typeOf v).
Proof.
  intros Hv. assert (elementOk (getWaveConstantValueType (typeOf v)) = true) as He
    by (destruct v; simpl in Hv; apply andb_true_iff in Hv as [Hv _]; exact Hv).
  unfold elementOk in He. by apply Z.ltb_lt in He.
Qed.

Ltac verify H :=
  simpl in H; rewrite ?andb_true_iff, ?orb_true_iff, ?bool_decide_eq_true, ?Z.eqb_eq in H;
  destruct_and? H.

(** The element types of the operands are that of the result. *)
Lemma verifyBinary_elements type kind flags l r :
  verifyBinary type kind flags l r = true ->
  getWaveConstantValueType l = getWaveConstantValueType type /\
  getWaveConstantValueType r = getWaveConstantValueType type /\
  isMask type = false /\ isMask l = false /\ isMask r = false.
Proof.
  unfold verifyBinary, verifyWaveBinaryResult. intros Hv.
  destruct l as [el|el wl|wl], r as [er|er wr|wr], type as [et|et wt|wt];
    simpl in Hv; rewrite ?andb_false_r in Hv; try done;
    rewrite !andb_true_iff, ?bool_decide_eq_true in Hv;
    destruct_and? Hv; simplify_eq/=; done.
Qed.

(** ** Ranges and constants of verified values *)

Section Range.
Context `{WaveTarget} (holds : string -> Assumption) (env : N -> Z).
Abbreviation ev := (eval holds env).

Lemma trailingZeros_range p bits :
  Zpos p < 2 ^ bits -> 0 <= trailingZeros p < bits.
Proof.
  revert bits. induction p as [p IH|p IH|]; intros bits Hp; simpl.
  - split; [done|]. destruct (Z.lt_ge_cases 0 bits); [done|].
    assert (2 ^ bits <= 1); [|lia]. destruct (Z.eq_dec bits 0) as [->|]; [done|].
    rewrite Z.pow_neg_r; lia.
  - assert (0 < bits) as Hb.
    { destruct (Z.lt_ge_cases 0 bits); [done|].
      assert (2 ^ bits <= 1); [|lia]. destruct (Z.eq_dec bits 0) as [->|]; [done|].
      rewrite Z.pow_neg_r; lia. }
    assert (Zpos p < 2 ^ (bits - 1)) as Hp'.
    { replace bits with (Z.succ (bits - 1)) in Hp by lia. rewrite Z.pow_succ_r in Hp; lia. }
    apply IH in Hp'. lia.
  - split; [done|]. destruct (Z.lt_ge_cases 0 bits); [done|].
    assert (2 ^ bits <= 1); [|lia]. destruct (Z.eq_dec bits 0) as [->|]; [done|].
    rewrite Z.pow_neg_r; lia.
Qed.

Lemma ev_range v x : verified v = true -> ev v = Some x -> 0 <= x < 2 ^ elementBits (typeOf v).
Proof.
  revert x. induction v as [t attr|t s IH|t k f l IHl r IHr|t p l IHl r IHr|t c IHc a IHa b IHb
    |t s IH|t s IH|t e s IH|t s IH|s IH n ps|t i u lo IHlo up IHup st IHst|t i|t i|t i];
    intros x Hv Hx; pose proof (verified_bits _ Hv) as Hb; simpl in Hx, Hb |- *;
    try (injection Hx as <-; apply toBits_range; lia).
  - (* splat *)
    simpl in Hv. verify Hv. assert (elementBits (typeOf s) = elementBits t) as <-; [|by apply IH].
    unfold verifySplat in *. destruct t; try done.
    match goal with H : bool_decide _ = true |- _ => apply bool_decide_eq_true in H; rewrite H end.
    done.
  - (* binary *)
    simpl in Hv. rewrite !andb_true_iff in Hv. destruct Hv as (_ & (Hop & Hl) & Hr).
    destruct (verifyBinary_elements _ _ _ _ _ Hop) as (El & Er & _).
    destruct (ev l) as [a|]; simpl in Hx; [|done]. destruct (ev r) as [b|]; simpl in Hx; [|done].
    destruct (flagsHold _ _ _ _ _); [|done].
    apply (fold_range t Hb k a b); [| |done].
    + unfold elementBits. rewrite <-El. by apply IHl.
    + unfold elementBits. rewrite <-Er. by apply IHr.
  - (* comparison *)
    simpl in Hv. rewrite !andb_true_iff in Hv. destruct Hv as (_ & (Hop & _) & _).
    destruct (ev l) as [a|]; simpl in Hx; [|done]. destruct (ev r) as [b|]; simpl in Hx; [|done].
    injection Hx as <-. assert (2 ^ 1 <= 2 ^ elementBits t) by (apply Z.pow_le_mono_r; lia).
    destruct (applyCmpPredicate _ _ _ _); simpl; lia.
  - (* select *)
    simpl in Hv. rewrite !andb_true_iff in Hv. destruct Hv as (_ & ((Hop & _) & Ha) & Hb').
    destruct (ev c) as [z|]; simpl in Hx; [|done]. unfold verifySelect in Hop.
    rewrite !andb_true_iff, !bool_decide_eq_true in Hop. destruct Hop as ((Eq1 & Eq2) & _).
    destruct (z =? 0); [rewrite <-Eq2; by apply IHb|rewrite <-Eq1; by apply IHa].
  - destruct (ev s) as [a|]; simpl in Hx; [|done]. destruct (a =? 0); [done|].
    injection Hx as <-. apply toBits_range. lia.
  - (* ctz *)
    simpl in Hv. rewrite !andb_true_iff in Hv. destruct Hv as (_ & Hop & Hs).
    unfold verifyCtz in Hop. rewrite !andb_true_iff, bool_decide_eq_true in Hop.
    destruct Hop as ((Eq1 & _) & _).
    destruct (ev s) as [a|] eqn:Ha; simpl in Hx; [|done].
    pose proof (IH _ Hs eq_refl) as Hr. rewrite Eq1 in Hr.
    destruct a; try done. injection Hx as <-.
    pose proof (trailingZeros_range p (elementBits t) ltac:(lia)).
    pose proof (bits_lt t Hb). lia.
  - destruct (ev s) as [a|]; simpl in Hx; [|done]. injection Hx as <-.
    assert (forall w y, 0 <= sextOrTrunc w (elementBits t) y < 2 ^ elementBits t) as Hsx
      by (intros w y; unfold sextOrTrunc; destruct (w <? elementBits t); apply toBits_range; lia).
    destruct e as [[]|]; [apply toBits_range; lia|apply Hsx..].
  - destruct (ev s) as [a|]; simpl in Hx; [|done]. injection Hx as <-.
    unfold sextOrTrunc. destruct (_ <? _); apply toBits_range; lia.
  - simpl in Hv. rewrite !andb_true_iff in Hv. destruct Hv as (_ & _ & Hs).
    destruct (ev s) as [a|]; simpl in Hx; [|done]. destruct (forallb _ _); [|done].
    injection Hx as <-. by apply IH.
Qed.

(** A constant found for a value is what it evaluates to. *)
Lemma getConstantAPInt_ev v n :
  verified v = true -> getConstantAPInt v (elementBits (typeOf v)) = Some n ->
  ev v = Some n /\ 0 <= n < 2 ^ elementBits (typeOf v).
Proof.
  induction v as [t attr|t s IH| | | | | | | | | | | | ]; intros Hv Hc; try done.
  - simpl in Hv, Hc. rewrite !andb_true_iff, Z.leb_le, Z.ltb_lt in Hv. destruct Hv as (_ & H1 & H2).
    injection Hc as <-. unfold sextOrTrunc. destruct (Z.ltb_spec (elementBits t) (elementBits t)); [lia|].
    simpl. split; [done|]. rewrite toBits_small; lia.
  - simpl in Hv, Hc. rewrite !andb_true_iff in Hv. destruct Hv as (_ & Hs & Hvs).
    assert (elementBits (typeOf s) = elementBits t) as He.
    { unfold verifySplat in Hs. destruct t; try done. apply bool_decide_eq_true in Hs. by rewrite Hs. }
    simpl. rewrite <-He in *. by apply IH.
Qed.
End Range.
