(* ===== verification/QuoDivide.v ===== *)
(** * The unsigned expansions are correct

    Division by a constant (multiplication by a magic number), restoring
    division, and division through the reciprocal of the machine, each against
    quotient and remainder of integers.  What the code takes from LLVM and from
    the machine is in the classes [DivLLVMOk] and [WaveTargetOk]. *)

From stdpp Require Import base tactics list gmap numbers strings.
From Stdlib Require Import ZArith Zquot.
From S2P Require Import Prelude QuoIR QuoExpand QuoEval QuoVerify.

(** ** What LLVM and the machine promise *)

(** The largest dividend below [2 ^ bits] whose remainder is [divisor - 1]. *)
Definition largestDividend (bits divisor : Z) : Z := 2 ^ bits - 1 - 2 ^ bits mod divisor.

(** The multiplier has one more bit when [IsAdd] is set, and the error of the
    multiplier is small enough for every dividend that remains after the first
    shift. *)
Definition magicOk (bits divisor : Z) (m : UnsignedMagic) : Prop :=
  let multiplier := Magic m + (if IsAdd m then 2 ^ bits else 0) in
  let shift := bits + PostShift m + (if IsAdd m then 1 else 0) in
  0 <= Magic m < 2 ^ bits /\ 0 <= PreShift m < bits /\ 0 <= PostShift m < bits /\
  (IsAdd m = true -> PreShift m = 0) /\
  exists odd, divisor = odd * 2 ^ PreShift m /\
    0 < multiplier * odd - 2 ^ shift /\
    largestDividend (bits - PreShift m) odd * (multiplier * odd - 2 ^ shift) < 2 ^ shift.

Class DivLLVMOk `{DivLLVM} := unsignedMagic_ok bits divisor :
  0 < bits <= 64 -> 1 < divisor < 2 ^ bits -> isPowerOf2 divisor = false ->
  magicOk bits divisor (unsignedMagic bits divisor).

(** The estimate of [2 ^ 32 / y] is not too large, and its relative error is at
    most [sqrt (y / 2 ^ 32)]; or it is zero, for the largest divisors. *)
Definition recipOk (y z : Z) : Prop :=
  0 <= z < 2 ^ 32 /\ y * z <= 2 ^ 32 /\
  (0 < z /\ (2 ^ 32 - y * z) * (2 ^ 32 - y * z) <= 2 ^ 32 * y \/ z = 0 /\ 2 ^ 32 <= 3 * y).
Class WaveTargetOk `{WaveTarget} := urecip_ok y : 0 < y < 2 ^ 32 -> recipOk y (urecip y).

(** ** Magic numbers *)

Lemma largestDividend_spec k d n :
  0 <= k -> 0 < d <= 2 ^ k -> largestDividend k d < n < 2 ^ k ->
  d - 1 <= largestDividend k d /\ n mod d <= d - 2 /\ n - largestDividend k d <= d - 1.
Proof.
  intros Hk Hd Hn. unfold largestDividend in *.
  pose proof (Z.div_mod (2 ^ k) d ltac:(lia)) as Dk.
  pose proof (Z.mod_pos_bound (2 ^ k) d ltac:(lia)) as Hr.
  set (q := 2 ^ k / d) in *. set (r := 2 ^ k mod d) in *.
  assert (1 <= q) by nia. split; [nia|]. split; [|lia].
  assert (n mod d = n - d * q) as ->; [|lia].
  symmetry. apply (Z.mod_unique_pos _ _ q); lia.
Qed.

Lemma magic_div_nc n d M e k :
  0 <= k -> 0 <= n < 2 ^ k -> 0 < d <= 2 ^ k -> 0 <= e -> 0 < M * d - 2 ^ e ->
  largestDividend k d * (M * d - 2 ^ e) < 2 ^ e -> n * M / 2 ^ e = n / d.
Proof.
  intros Hk Hn Hd He Hpos Hsmall. pose proof (pow2_pos e He).
  destruct (Z.le_gt_cases n (largestDividend k d)) as [Hle|Hgt].
  { apply magic_div; try lia. eapply Z.le_lt_trans; [|exact Hsmall].
    apply Z.mul_le_mono_nonneg_r; lia. }
  destruct (largestDividend_spec k d n) as (Hnc & Hr & Hdiff); [lia..|].
  pose proof (Z.div_mod n d ltac:(lia)) as Dn. pose proof (Z.mod_pos_bound n d ltac:(lia)).
  set (nc := largestDividend k d) in *. set (c := M * d - 2 ^ e) in *.
  assert ((d - 1) * c <= nc * c) by (apply Z.mul_le_mono_nonneg_r; lia).
  assert ((n - nc) * c <= (d - 1) * c) by (apply Z.mul_le_mono_nonneg_r; lia).
  assert (n * c < 2 * 2 ^ e) by lia.
  assert ((n mod d) * 2 ^ e <= (d - 2) * 2 ^ e) by (apply Z.mul_le_mono_nonneg_r; lia).
  assert (0 <= n * c) by (apply Z.mul_nonneg_nonneg; lia).
  assert (0 <= (n mod d) * 2 ^ e) by (apply Z.mul_nonneg_nonneg; lia).
  symmetry. apply (Z.div_unique_pos _ _ _ (n * M - (n / d) * 2 ^ e)); [|lia].
  assert (d * (n * M - (n / d) * 2 ^ e) = n * c + (n mod d) * 2 ^ e) as Hd'.
  { unfold c. rewrite Dn at 1 3. ring. }
  split.
  - apply (Z.mul_nonneg_cancel_l d); lia.
  - apply (Z.mul_lt_mono_pos_l d); lia.
Qed.

(** ** The created operations *)

Section Unsigned.
Context `{WaveTarget} (holds : string -> Assumption) (env : N -> Z).
Abbreviation ev := (eval holds env).
Context (type : WType) (Hbits : 0 < elementBits type <= 64).
Abbreviation bits := (elementBits type).

Lemma ev_const n : 0 <= n < 2 ^ bits ->
  ev (createScalarConstant (scalarElementType type) n) = Some n.
Proof using Hbits.
  intros Hn. assert (2 ^ bits <= 2 ^ 64) by (apply Z.pow_le_mono_r; lia).
  rewrite ev_constant by lia. by rewrite toBits_small by lia.
Qed.

Lemma ev_like n : 0 <= n < 2 ^ bits -> ev (createConstantLike type n) = Some n.
Proof using Hbits.
  intros Hn. assert (2 ^ bits <= 2 ^ 64) by (apply Z.pow_le_mono_r; lia).
  rewrite ev_constantLike by lia. by rewrite toBits_small by lia.
Qed.

Lemma ev_amount n : 0 <= n < bits -> ev (createShiftAmount type n) = Some n.
Proof using Hbits. intros. apply ev_shiftAmount; lia. Qed.

(** Operations that do not wrap. *)
Lemma ev_add_exact a b x y :
  ev a = Some x -> ev b = Some y -> 0 <= x + y < 2 ^ bits ->
  ev (createAdd type a b) = Some (x + y).
Proof using Type. intros Ha Hb Hr. erewrite ev_add by done. by rewrite toBits_small. Qed.
Lemma ev_sub_exact a b x y :
  ev a = Some x -> ev b = Some y -> 0 <= x - y < 2 ^ bits ->
  ev (createSub type a b) = Some (x - y).
Proof using Type. intros Ha Hb Hr. erewrite ev_sub by done. by rewrite toBits_small. Qed.
Lemma ev_mul_exact a b x y :
  ev a = Some x -> ev b = Some y -> 0 <= x * y < 2 ^ bits ->
  ev (createMul type a b) = Some (x * y).
Proof using Type. intros Ha Hb Hr. erewrite ev_mul by done. by rewrite toBits_small. Qed.
Lemma ev_low a b x h :
  ev a = Some x -> ev b = Some (2 ^ h - 1) -> 0 <= h ->
  ev (createAnd type a b) = Some (x mod 2 ^ h).
Proof using Type. intros Ha Hb Hr. erewrite ev_and by done. by rewrite land_mask. Qed.

Lemma ev_umulhi value multiplier native x :
  Z.even bits = true -> ev value = Some x -> 0 <= x < 2 ^ bits ->
  0 <= multiplier < 2 ^ bits ->
  ev (createUMulHi type value multiplier native) = Some (x * multiplier / 2 ^ bits).
Proof using Hbits.
  intros Heven Hv Hx Hm. unfold createUMulHi.
  destruct (native && (bits =? 32)).
  { apply ev_mulhu; [lia|done|by apply ev_const]. }
  apply Z.even_spec in Heven as [h Hh].
  replace (bits / 2) with h by (rewrite Hh, Z.mul_comm, Z.div_mul; lia).
  destruct (Z.eqb_spec h 64); [lia|].
  rewrite mask_ones, Z.ones_equiv, Z.shiftr_div_pow2, <-Z.sub_1_r, land_mask by lia.
  pose proof (pow2_pos h ltac:(lia)) as Hp.
  assert (2 ^ bits = 2 ^ h * 2 ^ h) as Hpow by (rewrite Hh, <-Z.pow_add_r by lia; f_equal; lia).
  destruct (umulhi_halves h x multiplier ltac:(lia)) as (L00 & L01 & L10 & L11 & La & Lm & Lb & Lc & E & L);
    [by rewrite <-Hh..|].
  pose proof (Z.mod_pos_bound x (2 ^ h) Hp). pose proof (Z.mod_pos_bound multiplier (2 ^ h) Hp).
  assert (0 <= x / 2 ^ h) by (apply Z.div_pos; lia).
  assert (0 <= multiplier / 2 ^ h < 2 ^ h)
    by (split; [apply Z.div_pos|apply Z.div_lt_upper_bound]; lia).
  assert (1 * 2 ^ h <= 2 ^ h * 2 ^ h) by (apply Z.mul_le_mono_nonneg_r; lia).
  rewrite <-Hpow in *. rewrite <-E.
  assert (forall a b, 0 <= a -> 0 <= b -> 0 <= a * b) as Hmul by apply Z.mul_nonneg_nonneg.
  assert (forall a, 0 <= a -> 0 <= a / 2 ^ h) as Hdiv by (intros; apply Z.div_pos; lia).
  assert (forall a, 0 <= a mod 2 ^ h) as Hmod by (intros a; apply (Z.mod_pos_bound a _ Hp)).
  assert (forall a b, 0 <= a -> 0 <= b -> 0 <= a + b) as Hadd by lia.
  pose proof (ev_const (2 ^ h - 1) ltac:(lia)) as Emask.
  pose proof (ev_amount h ltac:(lia)) as Eshift.
  pose proof (ev_const (multiplier mod 2 ^ h) ltac:(lia)) as E0.
  pose proof (ev_const (multiplier / 2 ^ h) ltac:(lia)) as E1.
  repeat first
    [ exact Emask | exact Eshift | exact E0 | exact E1 | exact Hv
    | apply ev_add_exact | apply ev_mul_exact | apply ev_low | apply ev_shru
    | lia | split; [solve [auto 8 with lia]|lia] ].
Qed.

(** ** Division by a constant *)

Context `{HL : DivLLVM} {HLOk : DivLLVMOk}.

Lemma ev_magic numerator divisor native x :
  Z.even bits = true -> ev numerator = Some x -> 0 <= x < 2 ^ bits ->
  1 < divisor < 2 ^ bits -> isPowerOf2 divisor = false ->
  ev (createUnsignedMagicQuotient type numerator divisor native) = Some (x / divisor).
Proof using Hbits HLOk.
  intros Heven Hv Hx Hd Hp2. unfold createUnsignedMagicQuotient.
  assert (maskToBits divisor bits = divisor) as ->.
  { unfold maskToBits. destruct (bits =? 64); [done|].
    rewrite mask_ones, Z.land_ones by lia. apply Z.mod_small. lia. }
  assert (1 < bits) by (destruct (Z.eq_dec bits 1) as [E|]; [rewrite E in Hd|]; lia).
  pose proof (unsignedMagic_ok bits divisor Hbits Hd Hp2) as Hok.
  destruct (unsignedMagic bits divisor) as [M add pre post].
  destruct Hok as (HM & Hpre & Hpost & Hadd & odd & Hodd & Hpos & Hsmall). simpl in *.
  pose proof (pow2_pos pre ltac:(lia)) as Ppre.
  assert (0 < odd) by (destruct (Z.le_gt_cases odd 0); [|lia];
    assert (odd * 2 ^ pre <= 0) by (apply Z.mul_nonpos_nonneg; lia); lia).
  assert (2 ^ bits = 2 ^ (bits - pre) * 2 ^ pre) as Hb by (rewrite <-Z.pow_add_r by lia; f_equal; lia).
  pose proof (pow2_pos (bits - pre) ltac:(lia)) as Prest.
  assert (0 <= x / 2 ^ pre < 2 ^ (bits - pre)) as Hn
    by (split; [apply Z.div_pos|apply Z.div_lt_upper_bound]; lia).
  assert (odd < 2 ^ (bits - pre)) by (apply (Z.mul_lt_mono_pos_r (2 ^ pre)); lia).
  assert (0 <= bits + post + (if add then 1 else 0)) as Hs by (destruct add; lia).
  pose proof (magic_div_nc (x / 2 ^ pre) odd _ _ (bits - pre) ltac:(lia) Hn ltac:(lia)
    Hs Hpos Hsmall) as Hdiv.
  rewrite Z.div_div, (Z.mul_comm (2 ^ pre)), <-Hodd in Hdiv by lia. rewrite <-Hdiv.
  assert (2 ^ (bits - pre) <= 2 ^ bits) by (apply Z.pow_le_mono_r; lia).
  assert (ev (if negb (pre =? 0) then createShrU type numerator (createShiftAmount type pre)
              else numerator) = Some (x / 2 ^ pre)) as Hq.
  { destruct (Z.eqb_spec pre 0) as [->|]; simpl negb; cbv iota; [by rewrite Z.pow_0_r, Z.div_1_r|].
    apply ev_shru; [done|by apply ev_amount|lia]. }
  pose proof (ev_umulhi _ M native _ Heven Hq ltac:(lia) HM) as Hhi.
  destruct add; cbv iota in *.
  - rewrite (Hadd eq_refl) in *. rewrite Z.pow_0_r, Z.div_1_r in *.
    assert (0 <= x * M / 2 ^ bits <= x) as Hle.
    { split; [apply Z.div_pos; [apply Z.mul_nonneg_nonneg|]; lia|].
      apply Z.div_le_upper_bound; [lia|]. rewrite (Z.mul_comm (2 ^ bits)).
      apply Z.mul_le_mono_nonneg_l; lia. }
    set (q := x * M / 2 ^ bits) in *.
    assert (x * (M + 2 ^ bits) / 2 ^ (bits + post + 1) = ((x - q) / 2 + q) / 2 ^ post) as Hfinal.
    { rewrite add_half by lia. replace (bits + post + 1) with (bits + 1 + post) by lia.
      rewrite !Z.pow_add_r, <-!Z.div_div by (try apply Z.pow_nonzero; lia). rewrite Z.pow_1_r.
      f_equal. f_equal. unfold q.
      replace (x * (M + 2 ^ bits)) with (x * M + x * 2 ^ bits) by ring.
      rewrite Z.div_add by lia. lia. }
    rewrite Hfinal.
    assert (0 <= (x - q) / 2 <= x - q).
    { split; [apply Z.div_pos; lia|]. apply Z.div_le_upper_bound; lia. }
    pose proof (ev_sub_exact _ _ _ _ Hv Hhi ltac:(lia)) as Hsub.
    pose proof (ev_shru holds env type _ _ _ 1 Hsub (ev_amount 1 ltac:(lia)) ltac:(lia)) as Hh.
    rewrite Z.pow_1_r in Hh.
    pose proof (ev_add_exact _ _ _ _ Hh Hhi ltac:(lia)) as Ha.
    destruct (Z.eqb_spec post 0) as [->|]; simpl negb; cbv iota; [by rewrite Z.pow_0_r, Z.div_1_r|].
    apply ev_shru; [done|by apply ev_amount|lia].
  - rewrite !Z.add_0_r, Z.pow_add_r, <-Z.div_div
      by (try apply Z.pow_nonzero; try apply pow2_pos; lia).
    destruct (Z.eqb_spec post 0) as [->|]; simpl negb; cbv iota; [by rewrite Z.pow_0_r, Z.div_1_r|].
    apply ev_shru; [done|by apply ev_amount|lia].
Qed.

(** What both results evaluate to. *)
Definition evaluates (result : DivRemValues) (q r : Z) : Prop :=
  ev (quotient result) = Some q /\ ev (remainder result) = Some r.

Lemma div_range x d : 0 <= x < 2 ^ bits -> 0 < d -> 0 <= x / d <= x /\ 0 <= x / d * d <= x.
Proof using Type.
  intros Hx Hd. split; [split; [apply Z.div_pos; lia|]|].
  - apply Z.div_le_upper_bound; [done|]. assert (1 * x <= d * x) by (apply Z.mul_le_mono_nonneg_r; lia). lia.
  - pose proof (Z.mul_div_le x d Hd). assert (0 <= x / d) by (apply Z.div_pos; lia).
    split; [apply Z.mul_nonneg_nonneg; lia|lia].
Qed.

Lemma const_divrem numerator divisor native x result :
  Z.even bits = true -> ev numerator = Some x -> 0 <= x < 2 ^ bits ->
  0 < divisor < 2 ^ bits ->
  tryCreateUnsignedConstDivRem type numerator divisor native = Some result ->
  evaluates result (x / divisor) (x mod divisor).
Proof using Hbits HLOk.
  intros Heven Hv Hx Hd Hr. unfold tryCreateUnsignedConstDivRem in Hr.
  assert (maskToBits divisor bits = divisor) as Hmask.
  { unfold maskToBits. destruct (bits =? 64); [done|].
    rewrite mask_ones, Z.land_ones by lia. apply Z.mod_small. lia. }
  rewrite Hmask in Hr. destruct (Z.eqb_spec divisor 0); [lia|].
  destruct (Z.eqb_spec divisor 1) as [->|H1].
  { simplify_eq. split; cbn [quotient remainder]; [by rewrite Z.div_1_r|]. rewrite Z.mod_1_r. apply ev_like.
    pose proof (pow2_pos bits). lia. }
  destruct (isPowerOf2 divisor) eqn:Hp2; simplify_eq.
  - unfold isPowerOf2 in Hp2. apply andb_true_iff in Hp2 as [_ Hp2%Z.eqb_eq].
    pose proof (isPowerOf2_log2 divisor ltac:(lia) Hp2) as Hlog.
    pose proof (Z.log2_nonneg divisor).
    assert (Z.log2 divisor < bits) by (apply Z.log2_lt_pow2; lia).
    split; cbn [quotient remainder].
    + replace (x / divisor) with (x / 2 ^ Z.log2 divisor) by (by rewrite <-Hlog).
      apply ev_shru; [done|by apply ev_amount|lia].
    + replace (x mod divisor) with (x mod 2 ^ Z.log2 divisor) by (by rewrite <-Hlog).
      apply ev_low; [done| |done]. rewrite <-Hlog. apply ev_const. lia.
  - pose proof (ev_magic _ divisor native _ Heven Hv Hx ltac:(lia) Hp2) as Hq.
    destruct (div_range x divisor Hx ltac:(lia)) as [Hqr Hqd].
    split; cbn [quotient remainder]; [done|]. rewrite Z.mod_eq, (Z.mul_comm divisor) by lia.
    apply ev_sub_exact; [done| |lia]. apply ev_mul_exact; [done|apply ev_const; lia|lia].
Qed.

Lemma const_divrem_some numerator divisor native :
  0 < divisor < 2 ^ bits ->
  is_Some (tryCreateUnsignedConstDivRem type numerator divisor native).
Proof using Hbits.
  clear HLOk. intros Hd. unfold tryCreateUnsignedConstDivRem.
  assert (maskToBits divisor bits = divisor) as ->.
  { unfold maskToBits. destruct (bits =? 64); [done|].
    rewrite mask_ones, Z.land_ones by lia. apply Z.mod_small. lia. }
  destruct (Z.eqb_spec divisor 0); [lia|]. destruct (divisor =? 1); [done|].
  by destruct (isPowerOf2 divisor).
Qed.

(** ** Restoring division *)

Lemma b2z_if (A : Type) (b : bool) (x y : A) : (if Z.b2z b =? 0 then y else x) = if b then x else y.
Proof. by destruct b. Qed.

(** The quotient and the remainder of the bits from [i] up. *)
Definition restored (x y i : Z) (result : DivRemValues) : Prop :=
  evaluates result (2 ^ i * (x / 2 ^ i / y)) (x / 2 ^ i mod y).

Lemma lor_low q b i : 0 <= i -> 0 <= b < 2 ^ i -> Z.lor (2 ^ i * q) b = 2 ^ i * q + b.
Proof.
  intros Hi Hb. assert (Z.land (2 ^ i * q) b = 0) as Hl.
  { apply Z.bits_inj'. intros j Hj. rewrite Z.land_spec, Z.bits_0.
    destruct (Z.lt_ge_cases j i).
    - by rewrite Z.mul_comm, Z.mul_pow2_bits_low by lia.
    - rewrite <-(Z.mod_small b (2 ^ i)), Z.mod_pow2_bits_high by lia. apply andb_false_r. }
  pose proof (Z.add_nocarry_lxor _ _ Hl) as Ha. rewrite <-Z.lxor_lor by done. lia.
Qed.

Lemma restoring_step numerator divisor x y i result :
  1 < bits -> 0 < y < 2 ^ bits -> 0 <= i < bits -> ev numerator = Some x ->
  ev divisor = Some y -> 0 <= x < 2 ^ bits -> restored x y (i + 1) result ->
  restored x y i (restoringStep type numerator divisor i result).
Proof using Hbits.
  intros H1 Hy Hi Hx Hd Hxr [Hq Hr].
  pose proof (pow2_pos i ltac:(lia)) as Hp. pose proof (bits_lt type ltac:(lia)).
  assert (0 <= x / 2 ^ i <= x /\ 0 <= x / 2 ^ i * 2 ^ i <= x) as [Hn Hn'] by (apply div_range; lia).
  assert (x / 2 ^ i / 2 = x / 2 ^ (i + 1)) as E
    by (rewrite Z.div_div, Z.pow_add_r, Z.pow_1_r by lia; done).
  destruct (restoring_spec (x / 2 ^ i) y ltac:(lia) ltac:(lia)) as [Sq Sr]. rewrite E in Sq, Sr.
  pose proof (div_pow2_succ x i ltac:(lia)) as Hnn.
  set (n := x / 2 ^ i) in *. set (n' := x / 2 ^ (i + 1)) in *.
  pose proof (Z.mod_pos_bound n 2 ltac:(lia)) as Hbit.
  pose proof (Z.mod_pos_bound n' y ltac:(lia)) as Hm.
  assert (n' mod y <= n') by (apply Z.mod_le; lia).
  set (s := 2 * (n' mod y) + n mod 2) in *. assert (0 <= s < 2 ^ bits) as Hs by lia.
  pose proof (ev_const 1 ltac:(lia)) as Eone. pose proof (ev_amount i ltac:(lia)) as Ei.
  pose proof (ev_amount 1 ltac:(lia)) as E1.
  assert (ev (createOr type (createShl type (remainder result) (createShiftAmount type 1))
    (createAnd type (createShrU type numerator (createShiftAmount type i))
       (createScalarConstant (scalarElementType type) 1))) = Some s) as Hshifted.
  { erewrite ev_or; [|apply ev_shl; [done..|lia]|
      apply (ev_low _ _ n 1); [apply ev_shru; [done..|lia]|done|done]].
    rewrite toBits_small, Z.pow_1_r, (Z.mul_comm (n' mod y)) by (rewrite Z.pow_1_r; lia).
    f_equal. change 2 with (2 ^ 1) at 1. apply lor_low; [done|]. rewrite Z.pow_1_r. lia. }
  assert (2 ^ i < 2 ^ bits) by (apply Z.pow_lt_mono_r; lia).
  assert (2 ^ (i + 1) = 2 * 2 ^ i) as Hi2 by (rewrite Z.pow_add_r by lia; lia).
  pose proof (ev_uge holds env _ divisor type _ _ Hshifted Hd) as Hcmp.
  unfold restored. fold n. split; cbn [restoringStep quotient remainder].
  - erewrite ev_select; [|exact Hcmp| |exact Hq].
    2:{ apply ev_or; [exact Hq|]. apply ev_like. rewrite Z.shiftl_1_l. lia. }
    rewrite b2z_if, Sq, Z.shiftl_1_l. f_equal.
    destruct (y <=? s); simpl; [rewrite lor_low by lia|]; rewrite Hi2; ring.
  - erewrite ev_select; [|exact Hcmp|by apply ev_sub|exact Hshifted].
    rewrite b2z_if, Sr. f_equal. destruct (Z.leb_spec y s); [|done]. apply toBits_small. lia.
Qed.

Lemma restoring_loop numerator divisor x y n result :
  1 < bits -> 0 < y < 2 ^ bits -> Z.of_nat n <= bits -> ev numerator = Some x ->
  ev divisor = Some y -> 0 <= x < 2 ^ bits -> restored x y (Z.of_nat n) result ->
  evaluates (restoringLoop type numerator divisor n result) (x / y) (x mod y).
Proof using Hbits.
  intros H1 Hy. revert result. induction n as [|n IH]; intros result Hn Hx Hd Hxr Hr; simpl.
  - unfold restored in Hr. simpl in Hr. rewrite Z.pow_0_r, Z.div_1_r, Z.mul_1_l in Hr. done.
  - apply IH; try done; [lia|]. apply restoring_step; try done; [lia|].
    by replace (Z.of_nat n + 1) with (Z.of_nat (S n)) by lia.
Qed.

Lemma restoring_divrem numerator divisor x y :
  1 < bits -> 0 < y < 2 ^ bits -> ev numerator = Some x -> ev divisor = Some y ->
  0 <= x < 2 ^ bits ->
  evaluates (createUnsignedRestoringDivRem type numerator divisor) (x / y) (x mod y).
Proof using Hbits.
  intros H1 Hy Hx Hd Hxr. apply restoring_loop; try done; rewrite Z2Nat.id by lia; [done|].
  pose proof (pow2_pos bits ltac:(lia)).
  unfold restored. rewrite (Z.div_small x) by done. rewrite Z.div_0_l, Z.mod_0_l, Z.mul_0_r by lia.
  split; apply ev_like; lia.
Qed.

(** ** Division through the reciprocal *)

(** The quotient is too small by at most [k]. *)
Definition estimated (x y k : Z) (result : DivRemValues) : Prop :=
  exists q r, evaluates result q r /\ x = q * y + r /\ 0 <= q /\ 0 <= r < (k + 1) * y.

Lemma correction_step divisor x y k result :
  0 < k -> 0 < y -> ev divisor = Some y -> 0 <= x < 2 ^ bits ->
  estimated x y k result -> estimated x y (k - 1) (correctionStep type divisor result).
Proof using Hbits.
  intros Hk Hy Hd Hx (q & r & [Hq Hr] & Hxq & Hq0 & Hr0).
  pose proof (bits_lt type ltac:(lia)).
  assert (1 * q <= y * q) by (apply Z.mul_le_mono_nonneg_r; lia).
  assert (1 * y <= k * y) by (apply Z.mul_le_mono_nonneg_r; lia).
  pose proof (ev_uge holds env _ divisor type _ _ Hr Hd) as Hcmp.
  exists (if y <=? r then q + 1 else q), (if y <=? r then r - y else r).
  split; [split; cbn [correctionStep quotient remainder]|].
  - erewrite ev_select; [|exact Hcmp|apply ev_add; [exact Hq|apply ev_like; lia]|exact Hq].
    rewrite b2z_if. destruct (Z.leb_spec y r); [|done]. f_equal. apply toBits_small. lia.
  - erewrite ev_select; [|exact Hcmp|by apply ev_sub|exact Hr].
    rewrite b2z_if. destruct (Z.leb_spec y r); [|done]. f_equal. apply toBits_small. lia.
  - destruct (Z.leb_spec y r); split_and!; lia.
Qed.

Lemma estimated_exact x y result :
  0 < y -> estimated x y 0 result -> evaluates result (x / y) (x mod y).
Proof using Type.
  intros Hy (q & r & Hqr & Hx & Hq & Hr).
  by rewrite <-(Z.div_unique_pos x y q r), <-(Z.mod_unique_pos x y q r) by lia.
Qed.

Context {HTOk : WaveTargetOk}.

(** The estimate after one step of Newton and Raphson, from the estimate of the
    machine. *)
Lemma refined_recip y z0 :
  0 < y < 2 ^ 32 -> recipOk y z0 ->
  let z := z0 + z0 * toBits 32 (toBits 32 (0 - y) * z0) / 2 ^ 32 in
  0 <= z < 2 ^ 32 /\ y * z <= 2 ^ 32 /\
  (2 ^ 32 - y * z < 2 * y \/ z = 0 /\ 2 ^ 32 <= 3 * y).
Proof using Type.
  intros Hy (Hr & Hu & [[Hz Hc]|[-> H3]]) z; [|subst z; rewrite Z.mul_0_l, Z.div_0_l, Z.add_0_l by lia; split_and!; lia].
  assert (toBits 32 (toBits 32 (0 - y) * z0) = toBits 32 (2 ^ 32 - y * z0)) as E.
  { unfold toBits. rewrite Zmult_mod_idemp_l. apply (toBits_eqm 32 _ _ (- 1)). ring. }
  assert (0 < y * z0) by (apply Z.mul_pos_pos; lia).
  rewrite (toBits_small 32 (2 ^ 32 - _)) in E by lia. subst z. rewrite E.
  destruct (newton_bounds (2 ^ 32) y z0) as (N1 & N2 & N3 & N4); [lia..|].
  unfold newton in *. specialize (N4 ltac:(lia)). split_and!; lia.
Qed.

Lemma i32_divrem numerator divisor x y :
  bits = 32 -> 0 < y < 2 ^ bits -> ev numerator = Some x -> ev divisor = Some y ->
  0 <= x < 2 ^ bits ->
  evaluates (createUnsignedI32DivRem type numerator divisor) (x / y) (x mod y).
Proof using Hbits HTOk.
  intros Hb Hy Hx Hd Hxr. apply estimated_exact; [lia|].
  change 0 with (1 - 1). apply (correction_step _ _ y); [lia|lia|exact Hd|exact Hxr|].
  change 1 with (2 - 1). apply (correction_step _ _ y); [lia|lia|exact Hd|exact Hxr|].
  pose proof Hy as Hy'. pose proof Hxr as Hx'. rewrite Hb in Hy', Hx'.
  pose proof (urecip_ok y Hy') as Hok.
  assert (ev (createURecip type divisor) = Some (urecip y)) as Hz0.
  { simpl. rewrite ev_asType, Hd. simpl. destruct (Z.eqb_spec y 0); [lia|].
    rewrite Hb, toBits_small; [done|apply Hok]. }
  destruct (refined_recip y _ Hy' Hok) as (Hz & Hyz & Hclose).
  set (z := urecip y + _) in *.
  assert (0 <= x * z / 2 ^ 32) as Hq0 by (apply Z.div_pos; [apply Z.mul_nonneg_nonneg|]; lia).
  assert (0 <= x - x * z / 2 ^ 32 * y < 3 * y) as Hr.
  { destruct Hclose as [Hc|[Hc H3]]; [by apply reciprocal_quotient; try lia|].
    rewrite Hc, Z.mul_0_r, Z.div_0_l; lia. }
  assert (0 <= x * z / 2 ^ 32 * y) by (apply Z.mul_nonneg_nonneg; lia).
  eexists (x * z / 2 ^ 32), (x - x * z / 2 ^ 32 * y). split; [|split_and!; lia].
  assert (ev (createNeg type divisor) = Some (toBits 32 (0 - y))) as Hneg
    by (rewrite <-Hb; apply ev_sub; [apply ev_like; lia|done]).
  pose proof (ev_mul holds env type _ _ _ _ Hneg Hz0) as Hyz0. rewrite Hb in Hyz0.
  pose proof (ev_mulhu holds env type ltac:(lia) _ _ _ _ Hz0 Hyz0) as Hhi. rewrite Hb in Hhi.
  pose proof (ev_add_exact _ _ _ _ Hz0 Hhi ltac:(rewrite Hb; exact Hz)) as Hz1.
  pose proof (ev_mulhu holds env type ltac:(lia) _ _ _ _ Hx Hz1) as Hq. rewrite Hb in Hq.
  split; [exact Hq|]. apply ev_sub_exact; [exact Hx| |lia].
  apply ev_mul_exact; [exact Hq|exact Hd|]. lia.
Qed.

(** ** The choice between them *)

(** What is found to be a constant is that constant. *)
Definition constantOk (value : WValue) (x : Z) : Prop :=
  forall n, getConstantAPInt value bits = Some n -> n = x.

Lemma getConstant_asType value t :
  getConstantAPInt (asType value t) bits = getConstantAPInt value bits.
Proof using Type. unfold asType. repeat case_decide; try done; destruct t; by try case_decide. Qed.

Theorem unsigned_divrem numerator divisor native x y :
  Z.even bits = true -> ev numerator = Some x -> ev divisor = Some y ->
  0 <= x < 2 ^ bits -> 0 < y < 2 ^ bits -> constantOk divisor y ->
  evaluates (createUnsignedDivRem type numerator divisor native) (x / y) (x mod y).
Proof using Hbits HLOk HTOk.
  intros Heven Hx Hd Hxr Hy Hc.
  assert (1 < bits) by (destruct (Z.eq_dec bits 1) as [E|]; [by rewrite E in Heven|lia]).
  assert (evaluates (if bits =? 32
     then createUnsignedI32DivRem type (asType numerator type) (asType divisor type)
     else createUnsignedRestoringDivRem type (asType numerator type) (asType divisor type))
     (x / y) (x mod y)) as Hdyn.
  { destruct (Z.eqb_spec bits 32); [apply i32_divrem|apply restoring_divrem];
      rewrite ?ev_asType; done. }
  unfold createUnsignedDivRem. rewrite getConstant_asType.
  destruct (getConstantAPInt divisor bits) as [n|] eqn:En; [|done].
  apply Hc in En as ->.
  destruct (tryCreateUnsignedConstDivRem _ _ _ _) as [result|] eqn:Er; [|done].
  eapply const_divrem in Er; rewrite ?ev_asType; eauto.
Qed.
End Unsigned.

(** ** The signed expansions are correct

    Signed division takes the magnitudes of the operands, divides without
    signs and gives the results their signs; a constant power of two takes a
    biased shift. *)

(** All ones where [negative]. *)
Definition signMask (bits : Z) (negative : bool) : Z := if negative then 2 ^ bits - 1 else 0.

Section Numbers.
Context (bits : Z) (Hbits : 0 < bits).

Lemma pow2_half : 2 ^ bits = 2 * 2 ^ (bits - 1).
Proof using Hbits. rewrite <-Z.pow_succ_r by lia. f_equal. lia. Qed.

Lemma signMask_range b : 0 <= signMask bits b < 2 ^ bits.
Proof using Hbits. pose proof (pow2_pos bits). destruct b; simpl; lia. Qed.

Lemma signMask_xor a b :
  Z.lxor (signMask bits a) (signMask bits b) = signMask bits (xorb a b).
Proof using Type.
  destruct a, b; simpl; by rewrite ?Z.lxor_nilpotent, ?Z.lxor_0_r, ?Z.lxor_0_l.
Qed.

Lemma apply_sign x b :
  0 <= x < 2 ^ bits ->
  toBits bits (Z.lxor x (signMask bits b) - signMask bits b) = toBits bits (if b then - x else x).
Proof using Hbits.
  intros Hx. rewrite xor_sub_sign by (try lia; destruct b; simpl; auto).
  assert (2 ^ 1 <= 2 ^ bits) by (apply Z.pow_le_mono_r; lia).
  destruct b; simpl.
  - destruct (Z.eqb_spec (2 ^ bits - 1) 0); [lia|done].
  - by rewrite toBits_small.
Qed.

(** The magnitude of a number. *)
Lemma magnitude x :
  0 <= x < 2 ^ bits ->
  toBits bits (if signedValue bits x <? 0 then - x else x) = Z.abs (signedValue bits x) /\
  Z.abs (signedValue bits x) < 2 ^ bits.
Proof using Hbits.
  intros Hx. destruct (signedValue_spec bits x Hbits Hx) as [Hs _]. pose proof pow2_half.
  split; [|lia]. unfold signedValue in *. destruct (x <? 2 ^ (bits - 1)) eqn:E.
  - destruct (Z.ltb_spec x 0); [lia|]. rewrite toBits_small; lia.
  - destruct (Z.ltb_spec (x - 2 ^ bits) 0); [|lia]. apply (toBits_unique _ _ _ (-1)); lia.
Qed.

Lemma signed_zero x : 0 <= x < 2 ^ bits -> x <> 0 -> signedValue bits x <> 0.
Proof using Hbits.
  intros Hx H0. unfold signedValue. pose proof pow2_half.
  destruct (Z.ltb_spec x (2 ^ (bits - 1))); lia.
Qed.

(** Quotient and remainder of the magnitudes, with their signs. *)
Lemma signed_quot a b :
  b <> 0 ->
  Z.quot a b = if xorb (a <? 0) (b <? 0) then - (Z.abs a / Z.abs b) else Z.abs a / Z.abs b.
Proof using Type.
  intros Hb. rewrite Z.quot_div by done.
  destruct (Z.ltb_spec a 0), (Z.ltb_spec b 0); simpl;
    destruct (Z.sgn_spec a) as [[? ->]|[[? ->]|[? ->]]],
      (Z.sgn_spec b) as [[? ->]|[[? ->]|[? ->]]]; try lia; subst; simpl Z.abs;
    rewrite ?Z.div_0_l by lia; lia.
Qed.
Lemma signed_rem a b :
  b <> 0 ->
  Z.rem a b = if a <? 0 then - (Z.abs a mod Z.abs b) else Z.abs a mod Z.abs b.
Proof using Type.
  intros Hb. rewrite Z.rem_mod by done.
  destruct (Z.ltb_spec a 0), (Z.sgn_spec a) as [[? ->]|[[? ->]|[? ->]]]; try lia; subst;
    simpl Z.abs; rewrite ?Z.mod_0_l by lia; lia.
Qed.
End Numbers.

Section Signed.
Context `{WaveTarget} (holds : string -> Assumption) (env : N -> Z).
Abbreviation ev := (eval holds env).
Context (type : WType) (Hbits : 0 < elementBits type <= 64).
Abbreviation bits := (elementBits type).

Lemma ev_sign value x :
  ev value = Some x -> 0 <= x < 2 ^ bits ->
  ev (createShrS type value (createShiftAmount type (bits - 1))) =
    Some (signMask bits (signedValue bits x <? 0)).
Proof using Hbits.
  intros Hv Hx. erewrite ev_shrs; [|done|apply ev_amount; lia|lia]. f_equal.
  rewrite shiftr_sign by lia. unfold signMask. done.
Qed.

Lemma ev_applySign value sign x b :
  ev value = Some x -> ev sign = Some (signMask bits b) -> 0 <= x < 2 ^ bits ->
  ev (createSub type (createXor type value sign) sign) = Some (toBits bits (if b then - x else x)).
Proof using Hbits.
  intros Hv Hs Hx. erewrite ev_sub; [|apply ev_xor; eassumption|exact Hs].
  by rewrite apply_sign by lia.
Qed.

(** A created constant is found again. *)
Lemma constantLike_ok n : constantOk type (createConstantLike type n) (toBits bits n).
Proof using Hbits.
  intros m Hm.
  assert (toBits bits (maskToBits n bits) = toBits bits n) as E.
  { unfold maskToBits. destruct (bits =? 64); [done|].
    rewrite mask_ones, Z.land_ones by lia. apply toBits_toBits. }
  assert (getConstantAPInt (createConstantLike type n) bits =
    Some (sextOrTrunc bits bits (maskToBits n bits))) as E'
    by (by destruct type).
  rewrite E' in Hm. unfold sextOrTrunc in Hm. rewrite Z.ltb_irrefl in Hm. congruence.
Qed.

Context `{HL : DivLLVM} {HLOk : DivLLVMOk} {HTOk : WaveTargetOk}.

(** The magnitude of the divisor and the sign of the quotient. *)
Definition signedDivisor (lhsSign rhs : WValue) (divisorPositive : bool) : WValue * WValue :=
  if divisorPositive then (rhs, lhsSign)
  else match getConstantAPInt rhs bits with
       | Some constant =>
           (createConstantLike type (signedAbs bits constant),
            if signedValue bits constant <? 0
            then createXor type lhsSign (createConstantLike type (u64 (-1)))
            else lhsSign)
       | None =>
           let rhsSign := createShrS type rhs (createShiftAmount type (bits - 1)) in
           (createSub type (createXor type rhs rhsSign) rhsSign,
            createXor type lhsSign rhsSign)
       end.

Lemma signedDivisor_ev lhsSign rhs divisorPositive negative y :
  ev lhsSign = Some (signMask bits negative) -> ev rhs = Some y -> 0 <= y < 2 ^ bits ->
  constantOk type rhs y -> (divisorPositive = true -> 0 < signedValue bits y) ->
  let result := signedDivisor lhsSign rhs divisorPositive in
  ev (fst result) = Some (Z.abs (signedValue bits y)) /\
  ev (snd result) = Some (signMask bits (xorb negative (signedValue bits y <? 0))) /\
  constantOk type (fst result) (Z.abs (signedValue bits y)).
Proof using Hbits.
  intros Hs Hy Hyr Hc Hpos. destruct (magnitude bits ltac:(lia) y Hyr) as [Hmag Hlt].
  unfold signedDivisor. destruct divisorPositive; cbn [fst snd].
  - specialize (Hpos eq_refl). destruct (Z.ltb_spec (signedValue bits y) 0); [lia|].
    rewrite (toBits_small _ y) in Hmag by done. rewrite <-Hmag, xorb_false_r. done.
  - destruct (getConstantAPInt rhs bits) as [n|] eqn:En; cbn [fst snd].
    + pose proof (Hc _ En) as ->.
      assert (signedAbs bits y = Z.abs (signedValue bits y)) as ->.
      { unfold signedAbs. rewrite <-Hmag. destruct (signedValue bits y <? 0); [done|].
        by rewrite toBits_small. }
      split; [apply ev_like; lia|]. split.
      * destruct (signedValue bits y <? 0); [|by rewrite xorb_false_r].
        assert (ev (createConstantLike type (u64 (-1))) = Some (signMask bits true)) as Hm.
        { rewrite ev_constantLike by (try lia; vm_compute; intuition congruence).
          f_equal. change (u64 (-1)) with (2 ^ 64 - 1). simpl.
          apply (toBits_unique _ _ _ (2 ^ (64 - bits) - 1)); [pose proof (pow2_pos bits); lia|].
          replace (2 ^ 64) with (2 ^ (64 - bits) * 2 ^ bits); [ring|].
          rewrite <-Z.pow_add_r by lia. f_equal. lia. }
        by rewrite (ev_xor _ _ _ _ _ _ _ Hs Hm), signMask_xor.
      * pose proof (constantLike_ok (Z.abs (signedValue bits y))) as Hk.
        by rewrite toBits_small in Hk by lia.
    + pose proof (ev_sign _ _ Hy Hyr) as Hrs.
      split; [|split; [|done]].
      * by rewrite (ev_applySign _ _ _ _ Hy Hrs Hyr), Hmag.
      * by rewrite (ev_xor _ _ _ _ _ _ _ Hs Hrs), signMask_xor.
Qed.

(** The results for every divisor but zero; the quotient that overflows wraps. *)
Theorem signed_divrem lhs rhs divisorPositive x y :
  Z.even bits = true -> ev lhs = Some x -> ev rhs = Some y ->
  0 <= x < 2 ^ bits -> 0 < y < 2 ^ bits -> constantOk type rhs y ->
  (divisorPositive = true -> 0 < signedValue bits y) ->
  evaluates holds env (createSignedDivRem type lhs rhs divisorPositive)
    (toBits bits (Z.quot (signedValue bits x) (signedValue bits y)))
    (toBits bits (Z.rem (signedValue bits x) (signedValue bits y))).
Proof using Hbits HLOk HTOk.
  intros Heven Hx Hy Hxr Hyr Hc Hpos.
  pose proof (signed_zero bits ltac:(lia) y ltac:(lia) ltac:(lia)) as Hnz.
  assert (ev (asType lhs type) = Some x) as Hl by (by rewrite ev_asType).
  assert (ev (asType rhs type) = Some y) as Hr by (by rewrite ev_asType).
  assert (constantOk type (asType rhs type) y) as Hc'
    by (intros n Hn; rewrite getConstant_asType in Hn; by apply Hc).
  pose proof (ev_sign _ _ Hl Hxr) as Hls.
  pose proof (ev_applySign _ _ _ _ Hl Hls Hxr) as Habs.
  destruct (magnitude bits ltac:(lia) x Hxr) as [Hmag Hmx]. rewrite Hmag in Habs.
  destruct (magnitude bits ltac:(lia) y ltac:(lia)) as [_ Hmy].
  destruct (signedDivisor_ev _ _ divisorPositive _ y Hls Hr ltac:(lia) Hc' Hpos)
    as (Hdiv & Hqs & Hdc).
  change (createSignedDivRem type lhs rhs divisorPositive) with
    (let lhsSign := createShrS type (asType lhs type) (createShiftAmount type (bits - 1)) in
     let divisor := signedDivisor lhsSign (asType rhs type) divisorPositive in
     let '(absRhs, quotientSign) := divisor in
     let unsignedResult := createUnsignedDivRem type
       (createSub type (createXor type (asType lhs type) lhsSign) lhsSign) absRhs
       (bool_decide (is_Some (getConstantAPInt (asType rhs type) bits))) in
     mkDivRem
       (createSub type (createXor type (quotient unsignedResult) quotientSign) quotientSign)
       (createSub type (createXor type (remainder unsignedResult) lhsSign) lhsSign)).
  cbv zeta. destruct (signedDivisor _ _ _) as [absRhs quotientSign]. simpl fst in *. simpl snd in *.
  destruct (unsigned_divrem holds env type Hbits _ _
    (bool_decide (is_Some (getConstantAPInt (asType rhs type) bits))) _ _
    Heven Habs Hdiv ltac:(lia) ltac:(lia) Hdc) as [Hq Hrem].
  set (a := signedValue bits x) in *. set (b := signedValue bits y) in *.
  assert (0 <= Z.abs a / Z.abs b < 2 ^ bits).
  { destruct (div_range type (Z.abs a) (Z.abs b) ltac:(lia) ltac:(lia)). lia. }
  pose proof (Z.mod_pos_bound (Z.abs a) (Z.abs b) ltac:(lia)).
  split; cbn [quotient remainder].
  - by rewrite (ev_applySign _ _ _ _ Hq Hqs), signed_quot by lia.
  - by rewrite (ev_applySign _ _ _ _ Hrem Hls), signed_rem by lia.
Qed.

(** ** Powers of two *)

(** The biased shift rounds towards zero. *)
Lemma biased_shift a k :
  0 <= k -> Z.shiftr (a + if a <? 0 then 2 ^ k - 1 else 0) k = Z.quot a (2 ^ k).
Proof.
  intros Hk. pose proof (pow2_pos k Hk) as Hp. rewrite Z.shiftr_div_pow2 by done.
  rewrite signed_quot by lia. destruct (Z.ltb_spec (2 ^ k) 0); [lia|].
  rewrite (Z.abs_eq (2 ^ k)) by lia.
  destruct (Z.ltb_spec a 0); simpl xorb; cbv iota; [|rewrite Z.add_0_r, Z.abs_eq by lia; done].
  rewrite Z.abs_neq by lia.
  pose proof (Z.div_mod (- a) (2 ^ k) ltac:(lia)). pose proof (Z.mod_pos_bound (- a) (2 ^ k) Hp).
  symmetry. apply (Z.div_unique_pos _ _ _ (2 ^ k - 1 - (- a) mod 2 ^ k)); lia.
Qed.

Lemma signed_pow2 kind lhs n x result :
  ev lhs = Some x -> 0 <= x < 2 ^ bits -> 0 <= n < 2 ^ bits ->
  getWaveConstantValueType (typeOf lhs) = getWaveConstantValueType type ->
  tryCreateSignedPositivePow2Value type kind lhs n = Some result ->
  ev result = Some (toBits bits
    (if decide (kind = BinaryKind.DivSI)
     then Z.quot (signedValue bits x) (signedValue bits n)
     else Z.rem (signedValue bits x) (signedValue bits n))).
Proof using Hbits.
  clear HLOk HTOk. intros Hx Hxr Hn Ht Hres. unfold tryCreateSignedPositivePow2Value in Hres.
  destruct (Z.ltb_spec (signedValue bits n) 0) as [|Hn0]; [done|].
  destruct (Z.eqb_spec n 0) as [|Hnz]; [done|]. cbn [orb] in Hres.
  pose proof (signedValue_nonneg bits n ltac:(lia) Hn Hn0) as En. rewrite En in *.
  destruct (signedValue_spec bits n ltac:(lia) Hn) as [Hnr _]. rewrite En in Hnr.
  destruct (signedValue_spec bits x ltac:(lia) Hxr) as [Hsx Etx].
  destruct (isPowerOf2 n) eqn:Hp2; [|done]. cbn [negb] in Hres.
  unfold isPowerOf2 in Hp2. apply andb_true_iff in Hp2 as [_ Hp2%Z.eqb_eq].
  destruct (Z.eqb_spec n 1) as [->|H1].
  { case_bool_decide; case_decide; try done; simplify_eq.
    - by rewrite ev_asType, Z.quot_1_r, Etx.
    - rewrite Z.rem_1_r, toBits_small by lia. apply ev_like; lia. }
  pose proof (isPowerOf2_log2 n ltac:(lia) Hp2) as Hlog. pose proof (Z.log2_nonneg n).
  assert (Z.log2 n < bits) by (apply Z.log2_lt_pow2; lia).
  set (k := Z.log2 n) in *. set (a := signedValue bits x) in *.
  pose proof (ev_amount holds env type Hbits k ltac:(lia)) as Ek.
  pose proof (ev_like holds env type Hbits 0 ltac:(lia)) as Ezero.
  pose proof (ev_like holds env type Hbits (n - 1) ltac:(lia)) as Ebias.
  pose proof (ev_slt holds env lhs _ type _ _ Hx Ezero Ht) as Hneg.
  pose proof (ev_select holds env type _ _ _ _ _ _ Hneg Ebias Ezero) as Hb.
  pose proof (ev_add holds env type _ _ _ _ Hx Hb) as Hadj.
  set (v := createAdd type _ _) in *.
  assert (ev v = Some (toBits bits (a + if a <? 0 then n - 1 else 0))) as Hv.
  { rewrite Hadj. f_equal. fold a. rewrite b2z_if.
    assert (signedValue bits 0 = 0) as E0.
    { unfold signedValue. pose proof (pow2_pos (bits - 1)). destruct (Z.ltb_spec 0 (2 ^ (bits - 1))); lia. }
    rewrite E0. unfold toBits. rewrite Zplus_mod, <-Etx. fold (toBits bits a). unfold toBits.
    rewrite Zmod_mod, <-Zplus_mod. done. }
  pose proof (ev_shrs holds env type _ _ _ _ Hv Ek ltac:(lia)) as Hq.
  rewrite signedValue_toBits in Hq by (destruct (Z.ltb_spec a 0); lia).
  assert (Z.shiftr (a + if a <? 0 then n - 1 else 0) k = Z.quot a n) as Eq
    by (rewrite Hlog at 1 2; by apply biased_shift).
  rewrite Eq in Hq.
  case_bool_decide; case_decide; try done; injection Hres as <-; [exact Hq|].
  pose proof (ev_shl holds env type _ _ _ _ Hq Ek ltac:(lia)) as Hs.
  rewrite <-Hlog in Hs. erewrite ev_sub by done. f_equal.
  rewrite Z.rem_eq by lia. rewrite <-Etx. fold a. unfold toBits.
  rewrite Zmult_mod_idemp_l, Zminus_mod_idemp_l, Zminus_mod_idemp_r. f_equal. ring.
Qed.
End Signed.
