(* ===== verification/QuoFold.v ===== *)
(** * The folds of the wave dialect keep values

    [BinaryOp::fold] replaces an operation by an operand or a constant; so do
    the folds of splats, selections, comparisons and integer casts, defined
    here.  Wherever the operation has a value, what replaces it has the same
    value, and the same type. *)

From stdpp Require Import base tactics list gmap numbers strings.
From Stdlib Require Import ZArith Zquot.
From S2P Require Import Prelude QuoIR QuoExpand QuoEval QuoVerify QuoDivide.

(** ** Splats, selections, comparisons and casts *)

(** [SplatOp::fold]. *)
Definition foldSplat (source : WValue) : option FoldResult := FoldAttr <$> constantAttr source.

(** [SelectOp::fold]. *)
Definition foldSelect (condition trueValue falseValue : WValue) : option FoldResult :=
  if decide (trueValue = falseValue) then Some (FoldValue trueValue)
  else if matchOne condition then
    Some (match constantAttr trueValue with
          | Some attr => FoldAttr attr
          | None => FoldValue trueValue
          end)
  else if matchZero condition then
    Some (match constantAttr falseValue with
          | Some attr => FoldAttr attr
          | None => FoldValue falseValue
          end)
  else None.

(** [foldWaveCmpIAttrs], for attributes of a width. *)
Definition foldWaveCmpIAttrs (predicate : CmpIPredicate.t) (bits : Z) (lhs rhs : option Z) :
    option bool :=
  match lhs, rhs with
  | Some a, Some b => Some (applyCmpPredicate predicate bits a b)
  | _, _ => None
  end.

(** [CmpIOp::fold]; [APInt(1, 0)] is the zero of one bit. *)
Definition foldCmpI (predicate : CmpIPredicate.t) (lhs rhs : WValue) : option FoldResult :=
  let result :=
    if decide (lhs = rhs) then Some (applyCmpPredicate predicate 1 0 0)
    else foldWaveCmpIAttrs predicate (elementBits (typeOf lhs)) (constantAttr lhs)
           (constantAttr rhs) in
  (fun b => FoldAttr (Z.b2z b)) <$> result.

(** The constant of a splat or of a [wave.constant]. *)
Definition getSplatInteger (value : WValue) : option Z :=
  match value with
  | VSplat _ source => constantAttr source
  | VConst (SimdT _ _) attr => Some attr
  | _ => None
  end.

(** [FoldCmpIOfBooleanSelect]: the selection that is compared, the other operand
    and whether the selection is on the left. *)
Record ComparedSelect : Set := mkCompared {
  compared_condition : WValue;
  compared_true : WValue;
  compared_false : WValue;
  compared_other : WValue;
  selectIsLhs : bool
}.
Definition comparedSelect (lhs rhs : WValue) : option ComparedSelect :=
  match lhs with
  | VSelect _ condition trueValue falseValue =>
      Some (mkCompared condition trueValue falseValue rhs true)
  | _ =>
      match rhs with
      | VSelect _ condition trueValue falseValue =>
          Some (mkCompared condition trueValue falseValue lhs false)
      | _ => None
      end
  end.

(** The condition that replaces a comparison. *)
Definition foldCmpIOfBooleanSelect (type : WType) (predicate : CmpIPredicate.t)
    (lhs rhs : WValue) : option WValue :=
  match comparedSelect lhs rhs with
  | None => None
  | Some select =>
      if negb (bool_decide (typeOf (compared_condition select) = type)) then None
      else
        match getSplatInteger (compared_true select), getSplatInteger (compared_false select),
              getSplatInteger (compared_other select) with
        | Some trueInt, Some falseInt, Some otherInt =>
            let bits := elementBits (typeOf lhs) in
            let compare selected :=
              if selectIsLhs select then applyCmpPredicate predicate bits selected otherInt
              else applyCmpPredicate predicate bits otherInt selected in
            if negb (compare trueInt) || compare falseInt then None
            else Some (compared_condition select)
        | _, _, _ => None
        end
  end.

(** [foldWaveIntConvert], on an attribute as wide as the source. *)
Definition foldWaveIntConvert (sourceBits resultBits : Z) (extension : option CastExtension.t)
    (value : Z) : Z :=
  if sourceBits <? resultBits then
    match extension with
    | Some CastExtension.Zero => value
    | _ => toBits resultBits (signedValue sourceBits value)
    end
  else if resultBits <? sourceBits then toBits resultBits value
  else value.

(** [foldNarrowingIntConvert]; the operation whose operand the source replaces
    is returned with the new operand. *)
Definition foldNarrowingIntConvert (type : WType) (extension : option CastExtension.t)
    (source : WValue) : option FoldResult :=
  let sourceBits := elementBits (typeOf source) in
  let resultBits := elementBits type in
  if sourceBits <=? resultBits then None
  else
    match source with
    | VCast _ _ innerSource =>
        let innerSourceBits := elementBits (typeOf innerSource) in
        if (innerSourceBits =? resultBits) && bool_decide (typeOf innerSource = type)
        then Some (FoldValue innerSource)
        else if innerSourceBits <=? resultBits then None
        else Some (FoldValue (VCast type extension innerSource))
    | _ => None
    end.

(** [CastOp::fold] of an [intconvert]. *)
Definition foldCast (type : WType) (extension : option CastExtension.t) (source : WValue) :
    option FoldResult :=
  if decide (typeOf source = type) then Some (FoldValue source)
  else
    match foldNarrowingIntConvert type extension source with
    | Some narrowed => Some narrowed
    | None =>
        (fun value => FoldAttr (foldWaveIntConvert (elementBits (typeOf source))
                                  (elementBits type) extension value)) <$> constantAttr source
    end.

(** ** Values *)

Section Fold.
Context `{WaveTarget} (holds : string -> Assumption) (env : N -> Z).
Abbreviation ev := (eval holds env).

(** What a fold gives stands for, in place of an operation of a type. *)
Definition foldEval (type : WType) (result : FoldResult) : option Z :=
  match result with
  | FoldValue value => ev value
  | FoldAttr attr => Some (toBits (elementBits type) attr)
  end.
Definition foldTyped (type : WType) (result : FoldResult) : Prop :=
  match result with
  | FoldValue value => typeOf value = type /\ verified value = true
  | FoldAttr attr => 0 <= attr < 2 ^ elementBits type
  end.

Lemma constantAttr_ev value attr :
  verified value = true -> constantAttr value = Some attr ->
  ev value = Some attr /\ 0 <= attr < 2 ^ elementBits (typeOf value).
Proof using Type.
  destruct value; try done. intros Hv Ha. injection Ha as ->. simpl in *.
  rewrite !andb_true_iff, Z.leb_le, Z.ltb_lt in Hv. split; [|lia]. f_equal. apply toBits_small. lia.
Qed.

Lemma matchZero_ev value : verified value = true -> matchZero value = true -> ev value = Some 0.
Proof using Type.
  unfold matchZero. intros Hv Hm. apply bool_decide_eq_true in Hm. by apply constantAttr_ev.
Qed.
Lemma matchOne_ev value : verified value = true -> matchOne value = true -> ev value = Some 1.
Proof using Type.
  unfold matchOne. intros Hv Hm. apply bool_decide_eq_true in Hm. by apply constantAttr_ev.
Qed.
Lemma isAllOnes_ev value :
  verified value = true -> isAllOnes value = true ->
  ev value = Some (2 ^ elementBits (typeOf value) - 1).
Proof using Type.
  unfold isAllOnes. intros Hv Hm. apply bool_decide_eq_true in Hm. by apply constantAttr_ev.
Qed.

Lemma foldToResultValue_inv value type r :
  foldToResultValue value type = Some r -> r = FoldValue value /\ typeOf value = type.
Proof using Type. unfold foldToResultValue. case_decide; intros; by simplify_eq. Qed.

(** *** [wave.binary] *)

Section Binary.
Context (type : WType) (kind : BinaryKind.t) (flags : OverflowFlags) (lhs rhs : WValue).
Context (Hv : verified (VBinary type kind flags lhs rhs) = true).
Abbreviation bits := (elementBits type).
Context (x y z : Z) (Hx : ev lhs = Some x) (Hy : ev rhs = Some y).
Context (Hz : foldWaveBinaryConstants kind bits x y = Some z).

Lemma binary_operands :
  elementBits (typeOf lhs) = bits /\ elementBits (typeOf rhs) = bits /\
  verified lhs = true /\ verified rhs = true /\ 0 < bits /\
  0 <= x < 2 ^ bits /\ 0 <= y < 2 ^ bits.
Proof using Hv Hx Hy.
  pose proof (verified_bits _ Hv) as Hb. simpl in Hv. rewrite !andb_true_iff in Hv.
  destruct Hv as (_ & (Hop & Hl) & Hr). apply verifyBinary_elements in Hop as (El & Er & _).
  pose proof (ev_range holds env _ _ Hl Hx) as Rx. pose proof (ev_range holds env _ _ Hr Hy) as Ry.
  unfold elementBits in *. rewrite El in *. by rewrite Er in *.
Qed.

(** What the leaves of the folds know of the operands. *)
Lemma zero_lhs : matchZero lhs = true -> x = 0.
Proof using Hv Hx Hy. destruct binary_operands as (_ & _ & Hl & _). intros Hm. pose proof (matchZero_ev _ Hl Hm). congruence. Qed.
Lemma zero_rhs : matchZero rhs = true -> y = 0.
Proof using Hv Hx Hy. destruct binary_operands as (_ & _ & _ & Hr & _). intros Hm. pose proof (matchZero_ev _ Hr Hm). congruence. Qed.
Lemma one_lhs : matchOne lhs = true -> x = 1.
Proof using Hv Hx Hy. destruct binary_operands as (_ & _ & Hl & _). intros Hm. pose proof (matchOne_ev _ Hl Hm). congruence. Qed.
Lemma one_rhs : matchOne rhs = true -> y = 1.
Proof using Hv Hx Hy. destruct binary_operands as (_ & _ & _ & Hr & _). intros Hm. pose proof (matchOne_ev _ Hr Hm). congruence. Qed.
Lemma ones_lhs : isAllOnes lhs = true -> x = 2 ^ bits - 1.
Proof using Hv Hx Hy. destruct binary_operands as (El & _ & Hl & _). intros Hm. pose proof (isAllOnes_ev _ Hl Hm). rewrite El in *. congruence. Qed.
Lemma ones_rhs : isAllOnes rhs = true -> y = 2 ^ bits - 1.
Proof using Hv Hx Hy. destruct binary_operands as (_ & Er & _ & Hr & _). intros Hm. pose proof (isAllOnes_ev _ Hr Hm). rewrite Er in *. congruence. Qed.

(** An operand of the type of the result, or zero, replaces the operation. *)
Definition replaces (r : FoldResult) : Prop := foldEval type r = Some z /\ foldTyped type r.

Lemma replaces_lhs r : foldToResultValue lhs type = Some r -> z = x -> replaces r.
Proof using Hv Hx Hy.
  destruct binary_operands as (_ & _ & Hl & _). intros Hf Ez.
  apply foldToResultValue_inv in Hf as [-> ?]. unfold replaces. simpl. rewrite Ez. auto.
Qed.
Lemma replaces_rhs r : foldToResultValue rhs type = Some r -> z = y -> replaces r.
Proof using Hv Hx Hy.
  destruct binary_operands as (_ & _ & _ & Hr & _). intros Hf Ez.
  apply foldToResultValue_inv in Hf as [-> ?]. unfold replaces. simpl. rewrite Ez. auto.
Qed.
Lemma replaces_zero r : Some (FoldAttr 0) = Some r -> z = 0 -> replaces r.
Proof using Hv Hx Hy.
  destruct binary_operands as (_ & _ & _ & _ & Hb & _). intros Hf Ez. injection Hf as <-.
  pose proof (pow2_pos bits ltac:(lia)). split; simpl; [|lia]. rewrite Ez, toBits_small by lia. done.
Qed.

Lemma land_ones_small a : 0 < bits -> 0 <= a < 2 ^ bits -> Z.land a (2 ^ bits - 1) = a.
Proof using Type. intros. rewrite land_mask by lia. apply Z.mod_small. lia. Qed.
Lemma lor_ones_small a : 0 < bits -> 0 <= a < 2 ^ bits -> Z.lor a (2 ^ bits - 1) = 2 ^ bits - 1.
Proof using Type.
  intros Hb Ha. assert (2 ^ bits - 1 = Z.ones bits) as E by (rewrite Z.ones_equiv; lia).
  rewrite E. apply Z.lor_ones_low; [lia|].
  destruct (Z.eq_dec a 0) as [->|]; [done|apply Z.log2_lt_pow2; lia].
Qed.

(** The signed value of one is one, or minus one in a single bit. *)
Lemma signed_one : 0 < bits -> signedValue bits 1 = 1 \/ signedValue bits 1 = - 1 /\ bits = 1.
Proof using Type.
  intros Hb. destruct (Z.eq_dec bits 1) as [->|]; [by right|left].
  unfold signedValue. assert (2 ^ 1 <= 2 ^ (bits - 1)) by (apply Z.pow_le_mono_r; lia).
  destruct (Z.ltb_spec 1 (2 ^ (bits - 1))); lia.
Qed.

Lemma div_one : y = 1 ->
  match kind with
  | BinaryKind.DivUI | BinaryKind.DivSI => z = x
  | BinaryKind.RemUI | BinaryKind.RemSI => z = 0
  | _ => True
  end.
Proof using Hv Hx Hy Hz.
  destruct binary_operands as (_ & _ & _ & _ & Hb & Hxr & Hyr). intros ->.
  destruct (signedValue_spec bits x Hb Hxr) as [Rx Ex].
  destruct kind; try done; unfold foldWaveBinaryConstants in Hz; simpl in Hz.
  - injection Hz as <-. apply Z.div_1_r.
  - unfold foldWaveDivSIConstants in Hz. simpl in Hz.
    destruct (Z.eqb_spec (Z.quot (signedValue bits x) (signedValue bits 1)) (2 ^ (bits - 1)))
      as [|Hne]; simpl in Hz; [done|]. injection Hz as <-.
    destruct (signed_one Hb) as [E|[E E1]]; rewrite E in *.
    + by rewrite Z.quot_1_r.
    + rewrite E1 in *. simpl in Hne. change (-1) with (- (1)) in *.
      rewrite Z.quot_opp_r, Z.quot_1_r in * by lia. change (2 ^ (1 - 1)) with 1 in Rx.
      assert (signedValue 1 x = 0) as E0 by lia. rewrite E0 in *. by rewrite <-Ex.
  - injection Hz as <-. apply Z.mod_1_r.
  - unfold foldWaveRemSIConstants in Hz. simpl in Hz. injection Hz as <-.
    destruct (signed_one Hb) as [E|[E _]]; rewrite E; change (-1) with (- (1));
      rewrite ?Z.rem_opp_r, Z.rem_1_r by lia; done.
Qed.

End Binary.

#[local] Arguments orElse {A} !first second / : simpl nomatch.

Lemma orElse_None_r {A} (o : option A) : orElse o None = o.
Proof using Type. by destruct o. Qed.

Lemma orElse_None_l {A} (o : option A) : orElse None o = o.
Proof using Type. done. Qed.

(** The arithmetic of the identities. *)
Create Rewrite HintDb identities.
Hint Rewrite Z.add_0_r Z.add_0_l Z.sub_0_r Z.sub_diag Z.mul_0_r Z.mul_0_l Z.mul_1_r Z.mul_1_l
  Z.land_0_r Z.land_0_l Z.lor_0_r Z.lor_0_l Z.lxor_0_r Z.lxor_0_l Z.lxor_nilpotent
  Z.shiftl_0_r Z.shiftr_0_r : identities.

Lemma identity_sound type kind flags lhs rhs x y z r :
  verified (VBinary type kind flags lhs rhs) = true -> ev lhs = Some x -> ev rhs = Some y ->
  foldWaveBinaryConstants kind (elementBits type) x y = Some z ->
  foldWaveBinaryIdentity lhs rhs type kind = Some r -> replaces type z r.
Proof using Type.
  intros Hv Hx Hy Hz. set (bits := elementBits type) in *.
  pose proof (div_one _ _ _ _ _ Hv _ _ _ Hx Hy Hz) as Hone.
  destruct (binary_operands _ _ _ _ _ Hv _ _ Hx Hy) as (El & Er & Hl & Hr & Hb & Hxr & Hyr).
  fold bits in Hb, Hxr, Hyr.
  destruct (signedValue_spec bits x Hb Hxr) as [_ Ex].
  assert (lhs = rhs -> x = y) as Heq by (intros E; rewrite E in Hx; congruence).
  pose proof (zero_lhs _ _ _ _ _ Hv _ _ Hx Hy). pose proof (zero_rhs _ _ _ _ _ Hv _ _ Hx Hy).
  pose proof (one_lhs _ _ _ _ _ Hv _ _ Hx Hy). pose proof (one_rhs _ _ _ _ _ Hv _ _ Hx Hy).
  pose proof (ones_lhs _ _ _ _ _ Hv _ _ Hx Hy). pose proof (ones_rhs _ _ _ _ _ Hv _ _ Hx Hy).
  pose proof (replaces_lhs _ _ _ _ _ Hv _ _ z Hx Hy r) as Rl.
  pose proof (replaces_rhs _ _ _ _ _ Hv _ _ z Hx Hy r) as Rr.
  pose proof (replaces_zero _ _ _ _ _ Hv _ _ z Hx Hy r) as Rz.
  unfold foldWaveBinaryIdentity, foldWaveAddSubIdentity, foldWaveAndOrIdentity.
  intros Hf. unfold foldWaveBinaryConstants in Hz.
  destruct kind; simpl in Hone, Hf, Hz;
    rewrite ?orElse_None_l, ?orElse_None_r in Hf; rewrite ?orElse_None_r in Hz;
    repeat match goal with
    | H : (if ?b then _ else _) = Some _ |- _ =>
        match type of b with
        | bool => destruct b eqn:?
        | _ => destruct b
        end
    | H : ?b = true -> ?v = _, H' : ?b = true |- _ => specialize (H H')
    | H : true = true -> _ |- _ => specialize (H eq_refl)
    | H : lhs = rhs -> _, H' : lhs = rhs |- _ => specialize (H H')
    end; try done;
    try first [apply Rz; [exact Hf|]|apply Rl; [exact Hf|]|apply Rr; [exact Hf|]];
    subst bits.
  all: try (destruct (Z.ltb_spec y (elementBits type)); [|done]; simpl in Hz).
  all: try lia; try (injection Hz as <-); subst; autorewrite with identities;
    rewrite ?toBits_small by lia; try done;
    rewrite ?(Z.land_comm (2 ^ _ - 1)), ?(Z.lor_comm (2 ^ _ - 1));
    rewrite ?land_ones_small, ?lor_ones_small by lia; try done.
Qed.

Lemma foldBinary_sound type kind flags lhs rhs z r :
  verified (VBinary type kind flags lhs rhs) = true ->
  ev (VBinary type kind flags lhs rhs) = Some z ->
  foldBinary kind lhs rhs type = Some r -> replaces type z r.
Proof using Type.
  intros Hv Hz Hf. pose proof (ev_range holds env _ z Hv Hz) as Hr. simpl in Hz.
  destruct (ev lhs) as [x|] eqn:Hx; simpl in Hz; [|done].
  destruct (ev rhs) as [y|] eqn:Hy; simpl in Hz; [|done].
  destruct (flagsHold _ _ _ _ _); [|done]. unfold foldBinary, orElse in Hf.
  destruct (foldWaveBinaryIdentity lhs rhs type kind) as [r'|] eqn:Ei.
  { injection Hf as <-. by eapply identity_sound. }
  destruct (binary_operands _ _ _ _ _ Hv _ _ Hx Hy) as (El & _ & Hl & Hr' & _).
  destruct (constantAttr lhs) as [a|] eqn:Ca; [|done].
  destruct (constantAttr rhs) as [b|] eqn:Cb; [|done].
  destruct (constantAttr_ev _ _ Hl Ca) as [Ea _]. destruct (constantAttr_ev _ _ Hr' Cb) as [Eb _].
  rewrite Hx in Ea. rewrite Hy in Eb. simplify_eq. rewrite El, Hz in Hf. simpl in Hf.
  simplify_eq. unfold replaces. simpl in *. by rewrite toBits_small.
Qed.

(** *** The other folds *)

(** What replaces an operation with the value [z]. *)
Lemma replaces_constant type a :
  verified (VConst type a) = true -> replaces type a (FoldAttr a).
Proof using Type.
  simpl. rewrite !andb_true_iff, Z.leb_le, Z.ltb_lt. intros (_ & ? & ?).
  unfold replaces. simpl. by rewrite toBits_small.
Qed.

Lemma constant_replaces type value attr z :
  verified value = true -> elementBits (typeOf value) = elementBits type ->
  constantAttr value = Some attr -> ev value = Some z -> replaces type z (FoldAttr attr).
Proof using Type.
  intros Hv Ht Ha Hz. destruct (constantAttr_ev _ _ Hv Ha) as [E Hr]. rewrite Hz in E. simplify_eq.
  rewrite Ht in Hr. unfold replaces. simpl. by rewrite toBits_small.
Qed.

Lemma foldSplat_sound type source z r :
  verified (VSplat type source) = true -> ev (VSplat type source) = Some z ->
  foldSplat source = Some r -> replaces type z r.
Proof using Type.
  intros Hv Hz Hf. unfold foldSplat in Hf. destruct (constantAttr source) as [a|] eqn:Ca; [|done].
  simpl in *. simplify_eq. rewrite !andb_true_iff in Hv. destruct Hv as (_ & Hs & Hvs).
  apply (constant_replaces _ source); try done. unfold verifySplat in Hs.
  destruct type; try done. apply bool_decide_eq_true in Hs. by rewrite Hs.
Qed.

Lemma foldSelect_sound type condition trueValue falseValue z r :
  verified (VSelect type condition trueValue falseValue) = true ->
  ev (VSelect type condition trueValue falseValue) = Some z ->
  foldSelect condition trueValue falseValue = Some r -> replaces type z r.
Proof using Type.
  intros Hv Hz Hf. simpl in Hv. rewrite !andb_true_iff in Hv. destruct Hv as (_ & ((Hs & Hc) & Ht) & Hl).
  unfold verifySelect in Hs. rewrite !andb_true_iff, !bool_decide_eq_true in Hs.
  destruct Hs as ((Tt & Tf) & _). simpl in Hz.
  destruct (ev condition) as [c|] eqn:Ec; simpl in Hz; [|done].
  assert (forall value, verified value = true -> typeOf value = type -> ev value = Some z ->
    replaces type z (match constantAttr value with
                     | Some attr => FoldAttr attr | None => FoldValue value end)) as Harm.
  { intros value Hv Htype He. destruct (constantAttr value) as [a|] eqn:Ca; [|done].
    apply (constant_replaces _ value); try done. by rewrite Htype. }
  unfold foldSelect in Hf. case_decide as Eq.
  { simplify_eq. by destruct (c =? 0). }
  destruct (matchOne condition) eqn:M1.
  { apply matchOne_ev in M1; [|done]. simplify_eq. simpl in Hz. by apply Harm. }
  destruct (matchZero condition) eqn:M0; [|done].
  apply matchZero_ev in M0; [|done]. simplify_eq. simpl in Hz. by apply Harm.
Qed.

(** A number compares with itself as zero does. *)
Lemma compare_self predicate bits a :
  applyCmpPredicate predicate bits a a = applyCmpPredicate predicate 1 0 0.
Proof using Type.
  destruct predicate; simpl; rewrite ?Z.eqb_refl, ?Z.ltb_irrefl, ?Z.leb_refl; done.
Qed.

Lemma foldCmpI_sound type predicate lhs rhs z r :
  verified (VCmp type predicate lhs rhs) = true -> ev (VCmp type predicate lhs rhs) = Some z ->
  foldCmpI predicate lhs rhs = Some r -> replaces type z r.
Proof using Type.
  intros Hv Hz Hf. pose proof (verified_bits _ Hv) as Hb. simpl in Hv.
  rewrite !andb_true_iff in Hv. destruct Hv as (_ & (Hop & Hl) & Hr). simpl in Hz, Hb.
  destruct (ev lhs) as [x|] eqn:Hx; simpl in Hz; [|done].
  destruct (ev rhs) as [y|] eqn:Hy; simpl in Hz; [|done].
  assert (forall b, replaces type (Z.b2z b) (FoldAttr (Z.b2z b))) as Hbool.
  { intros b. assert (2 ^ 1 <= 2 ^ elementBits type) by (apply Z.pow_le_mono_r; lia).
    assert (0 <= Z.b2z b < 2 ^ elementBits type) by (destruct b; simpl; lia).
    unfold replaces. simpl. by rewrite toBits_small. }
  injection Hz as <-. unfold foldCmpI in Hf. case_decide as Eq.
  - subst rhs. rewrite Hx in Hy. simplify_eq/=. rewrite compare_self. apply Hbool.
  - unfold foldWaveCmpIAttrs in Hf.
    destruct (constantAttr lhs) as [a|] eqn:Ca; [|done]. destruct (constantAttr rhs) as [b|] eqn:Cb; [|done].
    destruct (constantAttr_ev _ _ Hl Ca) as [Ea _]. destruct (constantAttr_ev _ _ Hr Cb) as [Eb _].
    simplify_eq/=. apply Hbool.
Qed.

Lemma getSplatInteger_ev value n :
  verified value = true -> getSplatInteger value = Some n -> ev value = Some n.
Proof using Type.
  intros Hv Hn. destruct value as [t attr|t s| | | | | | | | | | | | ]; try done; simpl in Hn.
  - destruct t; try done. by apply constantAttr_ev.
  - simpl in Hv. rewrite !andb_true_iff in Hv. destruct Hv as (_ & _ & Hs). exact (proj1 (constantAttr_ev s n Hs Hn)).
Qed.

Lemma comparedSelect_inv lhs rhs select :
  comparedSelect lhs rhs = Some select ->
  exists t, let value := VSelect t (compared_condition select) (compared_true select)
                           (compared_false select) in
    if selectIsLhs select then lhs = value /\ compared_other select = rhs
    else rhs = value /\ compared_other select = lhs.
Proof using Type.
  intros Hs. destruct lhs; simpl in Hs;
    try (injection Hs as <-; eexists; split; reflexivity);
    destruct rhs; try discriminate Hs; injection Hs as <-; eexists; split; reflexivity.
Qed.

Lemma foldCmpIOfBooleanSelect_sound type predicate lhs rhs z condition :
  verified (VCmp type predicate lhs rhs) = true -> ev (VCmp type predicate lhs rhs) = Some z ->
  foldCmpIOfBooleanSelect type predicate lhs rhs = Some condition ->
  replaces type z (FoldValue condition).
Proof using Type.
  intros Hv Hz Hf. pose proof Hv as Hv'. simpl in Hv. rewrite !andb_true_iff in Hv.
  destruct Hv as (_ & (Hop & Hl) & Hr).
  assert (elementBits type = 1) as Hbits.
  { unfold verifyCmp in Hop. rewrite andb_true_iff in Hop. destruct Hop as [_ Hop].
    destruct (typeOf lhs); try done; apply bool_decide_eq_true in Hop; by rewrite Hop. }
  (* the condition of a selection whose arms compare as its lanes do *)
  assert (forall c t a b, verified (VSelect t c a b) = true -> typeOf c = type ->
    ev (VSelect t c a b) <> None ->
    exists n, ev c = Some n /\ (n = 0 \/ n = 1) /\
      ev (VSelect t c a b) = (if n =? 0 then ev b else ev a) /\
      verified c = true /\ verified a = true /\ verified b = true) as Hsel.
  { intros c t a b Hs Ht Hdef. simpl in Hs, Hdef. rewrite !andb_true_iff in Hs.
    destruct Hs as (_ & ((_ & Hc) & Ha) & Hb). simpl.
    destruct (ev c) as [n|] eqn:Ec; [|done]. exists n. split; [done|]. split; [|done].
    pose proof (ev_range holds env c n Hc Ec) as Hn. rewrite Ht, Hbits in Hn. lia. }
  simpl in Hz. destruct (ev lhs) as [x|] eqn:Hx; simpl in Hz; [|done].
  destruct (ev rhs) as [y|] eqn:Hy; simpl in Hz; [|done]. injection Hz as <-.
  unfold foldCmpIOfBooleanSelect in Hf.
  destruct (comparedSelect lhs rhs) as [[c t f other isLhs]|] eqn:Em; [|done].
  apply comparedSelect_inv in Em as [ts Em]. simpl in Em.
  destruct (bool_decide _) eqn:Ht; [|done]. apply bool_decide_eq_true in Ht. simpl in Ht, Hf.
  destruct (getSplatInteger t) as [tn|] eqn:Et; [|done].
  destruct (getSplatInteger f) as [fn|] eqn:Ef; [|done].
  destruct (getSplatInteger other) as [on|] eqn:Eo; [|done].
  assert (exists n, ev c = Some n /\ (n = 0 \/ n = 1) /\ verified c = true /\
    if isLhs then x = (if n =? 0 then fn else tn) /\ y = on
    else y = (if n =? 0 then fn else tn) /\ x = on) as (n & En & Hn & Hvc & Hxy).
  { destruct isLhs; destruct Em as [Es ->];
      [pose proof Hl as Hs; pose proof Hx as Hvs|pose proof Hr as Hs; pose proof Hy as Hvs];
      rewrite Es in Hs, Hvs;
      (destruct (Hsel _ _ _ _ Hs Ht ltac:(by rewrite Hvs)) as (n & En & Hn & Eq & ? & Ha & Hb));
      exists n; split_and!; try done;
      try (rewrite Hvs, (getSplatInteger_ev _ _ Ha Et), (getSplatInteger_ev _ _ Hb Ef) in Eq;
           destruct (n =? 0); congruence).
    - pose proof (getSplatInteger_ev _ _ Hr Eo). congruence.
    - pose proof (getSplatInteger_ev _ _ Hl Eo). congruence. }
  destruct (negb _ || _) eqn:Ecmp; [done|]. injection Hf as <-.
  apply orb_false_iff in Ecmp as [Ect%negb_false_iff Ecf].
  split; [|done]. simpl. rewrite En. f_equal.
  destruct isLhs, Hxy as [-> ->], Hn as [-> | ->]; simpl in *; by rewrite ?Ect, ?Ecf.
Qed.

(** *** Casts *)

Lemma foldWaveIntConvert_eval sourceBits resultBits extension x :
  0 < sourceBits -> 0 < resultBits -> 0 <= x < 2 ^ sourceBits ->
  let folded := foldWaveIntConvert sourceBits resultBits extension x in
  (sourceBits < resultBits \/ extension = None) ->
  folded = (match extension with
            | Some CastExtension.Zero => toBits resultBits x
            | _ => sextOrTrunc sourceBits resultBits x
            end) /\ 0 <= folded < 2 ^ resultBits.
Proof using Type.
  intros Hs Hr Hx folded Hext. unfold folded, foldWaveIntConvert, sextOrTrunc.
  destruct (Z.ltb_spec sourceBits resultBits) as [Hlt|Hge].
  - assert (2 ^ sourceBits <= 2 ^ resultBits) by (apply Z.pow_le_mono_r; lia).
    destruct extension as [[]|]; [|split; [done|apply toBits_range; lia]..].
    rewrite toBits_small; lia.
  - destruct Hext as [| ->]; [lia|].
    destruct (Z.ltb_spec resultBits sourceBits); [split; [done|apply toBits_range; lia]|].
    assert (resultBits = sourceBits) as -> by lia. rewrite toBits_small; lia.
Qed.

(** A truncation sees the bits of the source of an extension. *)
Lemma narrow_of_cast a b c e x :
  0 < c < b -> 0 < a -> c <= a -> 0 <= x < 2 ^ a ->
  toBits c (match e with
            | Some CastExtension.Zero => toBits b x
            | _ => sextOrTrunc a b x
            end) = toBits c x.
Proof using Type.
  intros Hcb Ha Hca Hx.
  assert (forall y, toBits c (toBits b y) = toBits c y) as Hn.
  { intros y. unfold toBits. apply Z.mod_mod_divide. exists (2 ^ (b - c)).
    rewrite <-Z.pow_add_r by lia. f_equal. lia. }
  assert (toBits c (signedValue a x) = toBits c x) as Hs.
  { unfold signedValue. destruct (x <? 2 ^ (a - 1)); [done|].
    apply (toBits_eqm _ _ _ (- 2 ^ (a - c))).
    replace (2 ^ a) with (2 ^ (a - c) * 2 ^ c) by (rewrite <-Z.pow_add_r by lia; f_equal; lia). lia. }
  destruct e as [[]|]; unfold sextOrTrunc; [apply Hn|destruct (a <? b); by rewrite Hn, ?Hs..].
Qed.

Lemma cast_operand type extension source :
  verified (VCast type extension source) = true ->
  verified source = true /\ 0 < elementBits (typeOf source) /\ 0 < elementBits type /\
  ((elementBits (typeOf source) < elementBits type) <-> is_Some extension).
Proof using Type.
  intros Hv. pose proof (verified_bits _ Hv) as Hb. simpl in Hv, Hb. rewrite !andb_true_iff in Hv.
  destruct Hv as (_ & Hop & Hs). pose proof (verified_bits _ Hs). split_and!; try done.
  unfold verifyCast in Hop.
  destruct (classifyWaveCastType (typeOf source)) as [ss|] eqn:Es; [|done].
  destruct (classifyWaveCastType type) as [st|] eqn:Et; [|done].
  assert (cast_elementBits ss = elementBits (typeOf source)) as <-
    by (unfold elementBits; destruct (typeOf source); simpl in *; by simplify_eq).
  assert (cast_elementBits st = elementBits type) as <-
    by (unfold elementBits; destruct type; simpl in *; by simplify_eq).
  apply andb_true_iff in Hop as [_ Hop%eqb_prop].
  by rewrite <-Z.ltb_lt, <-(bool_decide_eq_true (is_Some extension)), <-Hop.
Qed.

Lemma verifyCast_trans type mid inner e :
  verifyCast type mid None = true -> verifyCast mid inner e = true ->
  elementBits type < elementBits inner -> verifyCast type inner None = true.
Proof using Type.
  unfold verifyCast. intros H1 H2 Hlt.
  destruct (classifyWaveCastType mid) as [sm|]; [|done].
  destruct (classifyWaveCastType type) as [st|] eqn:Et; [|done].
  destruct (classifyWaveCastType inner) as [si|] eqn:Ei; [|done].
  assert (cast_elementBits st < cast_elementBits si).
  { unfold elementBits in Hlt. destruct type, inner; simpl in *; by simplify_eq. }
  rewrite !andb_true_iff, !bool_decide_eq_true in *. destruct H1 as [E1 _], H2 as [E2 _].
  split; [congruence|]. unfold verifyWaveCastExtensionPolicy.
  destruct (Z.ltb_spec (cast_elementBits si) (cast_elementBits st)); [lia|done].
Qed.

Lemma foldNarrowing_sound type extension source z r :
  verified (VCast type extension source) = true -> ev (VCast type extension source) = Some z ->
  foldNarrowingIntConvert type extension source = Some r -> replaces type z r.
Proof using Type.
  intros Hv Hz Hf. pose proof (cast_operand _ _ _ Hv) as (Hs & Hsb & Htb & Hext).
  unfold foldNarrowingIntConvert in Hf.
  destruct (Z.leb_spec (elementBits (typeOf source)) (elementBits type)) as [|Hlt]; [done|].
  assert (extension = None) as -> by (destruct extension; [|done]; destruct Hext as [_ Hext];
    specialize (Hext ltac:(eauto)); lia).
  destruct source as [| | | | | | |mid e inner| | | | | |]; try done.
  pose proof (cast_operand _ _ _ Hs) as (Hi & Hib & Hmb & Hext'). simpl in Hz, Hlt.
  destruct (ev inner) as [x|] eqn:Hx; simpl in Hz; [|done].
  pose proof (ev_range holds env inner x Hi Hx) as Hxr.
  simpl in Hf. set (a := elementBits (typeOf inner)) in *. set (b := elementBits mid) in *.
  set (c := elementBits type) in *.
  assert (c <= a -> z = toBits c x) as Hval.
  { intros Hca. rewrite <-(narrow_of_cast a b c e x) by lia. injection Hz as <-.
    unfold sextOrTrunc at 1. destruct (Z.ltb_spec b c); [lia|done]. }
  destruct ((a =? c) && bool_decide (typeOf inner = type)) eqn:Esame.
  { apply andb_true_iff in Esame as [Ea%Z.eqb_eq Et%bool_decide_eq_true]. injection Hf as <-.
    split; [|done]. simpl. rewrite Hx, (Hval ltac:(lia)), toBits_small; [done|]. by rewrite <-Ea. }
  destruct (Z.leb_spec a c) as [|Hca]; [done|]. injection Hf as <-. split; [|split; [done|]].
  - simpl. rewrite Hx, (Hval ltac:(lia)). simpl. unfold sextOrTrunc. fold a c.
    destruct (Z.ltb_spec a c); [lia|done].
  - simpl in Hv, Hs |- *. rewrite !andb_true_iff in Hv, Hs. rewrite !andb_true_iff.
    destruct Hv as (Hok & Hop & _), Hs as (_ & Hop' & _). split_and!; try done.
    by apply (verifyCast_trans _ mid _ e).
Qed.

Lemma foldCast_sound type extension source z r :
  verified (VCast type extension source) = true -> ev (VCast type extension source) = Some z ->
  foldCast type extension source = Some r -> replaces type z r.
Proof using Type.
  intros Hv Hz Hf. pose proof (cast_operand _ _ _ Hv) as (Hs & Hsb & Htb & Hext).
  unfold foldCast in Hf. case_decide as Et.
  { injection Hf as <-. subst type. simpl in Hz. destruct (ev source) as [x|] eqn:Hx; simpl in Hz; [|done].
    pose proof (ev_range holds env source x Hs Hx) as Hxr.
    assert (extension = None) as -> by (destruct extension; [|done]; destruct Hext as [_ Hext];
      specialize (Hext ltac:(eauto)); lia).
    split; [|done]. simpl. rewrite Hx, <-Hz. unfold sextOrTrunc. by rewrite Z.ltb_irrefl, toBits_small. }
  destruct (foldNarrowingIntConvert type extension source) as [r'|] eqn:En.
  { injection Hf as <-. by eapply foldNarrowing_sound. }
  destruct (constantAttr source) as [a|] eqn:Ca; [|done]. simpl in Hf. injection Hf as <-.
  destruct (constantAttr_ev _ _ Hs Ca) as [Ea Ra]. simpl in Hz. rewrite Ea in Hz. injection Hz as <-.
  destruct (foldWaveIntConvert_eval _ _ extension a Hsb Htb Ra) as [<- Hr].
  { destruct extension; [left; by apply Hext|by right]. }
  unfold replaces. simpl. by rewrite toBits_small.
Qed.

(** *** All of them *)

(** The fold of an operation of the dialect; comparisons of SIMD values have a
    canonicalization as well. *)
Definition foldOp (value : WValue) : option FoldResult :=
  match value with
  | VSplat _ source => foldSplat source
  | VBinary type kind _ lhs rhs => foldBinary kind lhs rhs type
  | VCmp (MaskT width) predicate lhs rhs =>
      match foldCmpI predicate lhs rhs with
      | Some result => Some result
      | None => FoldValue <$> foldCmpIOfBooleanSelect (MaskT width) predicate lhs rhs
      end
  | VSelect _ condition trueValue falseValue => foldSelect condition trueValue falseValue
  | VCast type extension source => foldCast type extension source
  | _ => None
  end.

Lemma foldOp_sound value z r :
  verified value = true -> ev value = Some z -> foldOp value = Some r ->
  replaces (typeOf value) z r.
Proof using Type.
  intros Hv Hz Hf. destruct value as [t a|t s|t k f l r'|t p l r'|t c a b|t s|t s|t e s| | | | | | ];
    try done; simpl in Hf.
  - by eapply foldSplat_sound.
  - by eapply foldBinary_sound.
  - destruct t as [|ta|w]; try done. destruct (foldCmpI p l r') as [r0|] eqn:Ec.
    + injection Hf as <-. by eapply foldCmpI_sound.
    + destruct (foldCmpIOfBooleanSelect _ p l r') as [c|] eqn:Eb; [|done]. injection Hf as <-.
      by eapply foldCmpIOfBooleanSelect_sound.
  - by eapply foldSelect_sound.
  - by eapply foldCast_sound.
Qed.
End Fold.
