(* ===== verification/QuoSpec.v ===== *)
(** * The expansion computes the operation

    Every branch of [expandDivRem] evaluates to the result of the operation it
    replaces, under what the analyses prove of operands ([DivProofsOk]); but for
    one pair of operands of the signed division in 32 bits, for which it does
    not. *)

From stdpp Require Import base tactics list gmap numbers strings.
From Stdlib Require Import ZArith Zquot.
From S2P Require Import Prelude QuoIR QuoExpand QuoEval QuoVerify QuoDivide.

(** ** The results of division and remainder *)

Definition divRemResult (kind : BinaryKind.t) (bits x y : Z) : Z :=
  match kind with
  | BinaryKind.DivUI => x / y
  | BinaryKind.RemUI => x mod y
  | BinaryKind.DivSI => toBits bits (Z.quot (signedValue bits x) (signedValue bits y))
  | _ => toBits bits (Z.rem (signedValue bits x) (signedValue bits y))
  end.

Lemma divRem_defined kind bits x y z :
  isDivRem kind = true -> foldWaveBinaryConstants kind bits x y = Some z ->
  y <> 0 /\ z = divRemResult kind bits x y.
Proof.
  intros Hk Hz. destruct kind; try done; unfold foldWaveBinaryConstants in Hz; simpl in Hz;
    [unfold foldWaveDivUIConstants in Hz|unfold foldWaveDivSIConstants in Hz
    |unfold foldWaveRemUIConstants in Hz|unfold foldWaveRemSIConstants in Hz];
    destruct (Z.eqb_spec y 0); simpl in Hz; try done;
    try destruct (_ =? _); simpl in Hz; try done; by injection Hz as <-.
Qed.

Lemma divRem_range kind bits x y :
  0 < bits -> 0 <= x < 2 ^ bits -> 0 <= y < 2 ^ bits -> y <> 0 ->
  0 <= divRemResult kind bits x y < 2 ^ bits.
Proof.
  intros Hb Hx Hy Hy0. pose proof (Z.mod_pos_bound x y ltac:(lia)).
  destruct (div_range (ScalarT (IntT bits)) x y Hx ltac:(lia)).
  destruct kind; simpl; try (apply toBits_range; lia); lia.
Qed.

(** For numbers that are not negative the signs do not matter. *)
Lemma divRem_nonneg kind bits x y :
  isDivRem kind = true -> 0 < bits -> 0 <= x < 2 ^ (bits - 1) -> 0 < y < 2 ^ (bits - 1) ->
  divRemResult kind bits x y = if isDivision kind then x / y else x mod y.
Proof.
  intros Hk Hb Hx Hy. pose proof (pow2_half bits Hb).
  assert (forall z, 0 <= z < 2 ^ (bits - 1) -> signedValue bits z = z) as Hs.
  { intros z Hz. unfold signedValue. destruct (Z.ltb_spec z (2 ^ (bits - 1))); lia. }
  assert (0 <= x / y <= x).
  { split; [apply Z.div_pos; lia|]. apply Z.div_le_upper_bound; [lia|].
    assert (1 * x <= y * x) by (apply Z.mul_le_mono_nonneg_r; lia). lia. }
  pose proof (Z.mod_pos_bound x y ltac:(lia)).
  destruct kind; try done; simpl; rewrite !Hs by lia;
    rewrite ?Z.quot_div_nonneg, ?Z.rem_mod_nonneg by lia; apply toBits_small; lia.
Qed.

(** The smallest number as a divisor is a power of two as well. *)
Lemma divRem_pow2 kind bits x k :
  isDivRem kind = true -> 0 < bits -> 0 <= x < 2 ^ bits -> 0 <= k < bits ->
  (isSignedDivRem kind = true -> 0 <= signedValue bits x) ->
  divRemResult kind bits x (2 ^ k) = if isDivision kind then x / 2 ^ k else x mod 2 ^ k.
Proof.
  intros Hk Hb Hx Hkb Hs. pose proof (pow2_half bits Hb). pose proof (pow2_pos k ltac:(lia)).
  destruct (isSignedDivRem kind) eqn:Esigned; [|by destruct kind].
  specialize (Hs eq_refl). pose proof (signedValue_nonneg _ _ Hb Hx Hs) as Ex.
  destruct (signedValue_spec bits x Hb Hx) as [Hxr _]. rewrite Ex in Hxr.
  destruct (Z.eq_dec k (bits - 1)) as [->|Hne].
  - assert (signedValue bits (2 ^ (bits - 1)) = - 2 ^ (bits - 1)) as Ey.
    { unfold signedValue. rewrite Z.ltb_irrefl. lia. }
    rewrite (Z.div_small x), (Z.mod_small x) by lia.
    destruct kind; try done; simpl; rewrite Ex, Ey, ?Z.quot_opp_r, ?Z.rem_opp_r by lia.
    + rewrite Z.quot_small by lia. apply toBits_small. lia.
    + rewrite Z.rem_small by lia. apply toBits_small. lia.
  - apply divRem_nonneg; try done; [lia|]. split; [lia|]. apply Z.pow_lt_mono_r; lia.
Qed.

(** ** What the analyses promise *)

(** Of the values of a [program], and of bounds that are signed numbers of the
    width. *)
Class DivProofsOk `{WaveTarget} `{DivProofs} (holds : string -> Assumption) (env : N -> Z)
    (program : WValue -> Prop) := {
  provesLowerBound_ok v lower x :
    program v -> lower < 2 ^ (elementBits (typeOf v) - 1) ->
    provesLowerBound v lower = true -> eval holds env v = Some x ->
    lower <= signedValue (elementBits (typeOf v)) x;
  provesI32Range_ok v lower x :
    program v -> - 2 ^ 63 <= lower < 2 ^ (elementBits (typeOf v) - 1) ->
    provesI32Range v lower = true -> eval holds env v = Some x ->
    lower <= signedValue (elementBits (typeOf v)) x <= signedI32Max;
  provesPow2_ok v x :
    program v -> provesPow2 v = true -> eval holds env v = Some x ->
    exists k, 0 <= k /\ x = 2 ^ k;
  provesAtMostSignedMin_ok v x :
    program v -> provesAtMostSignedMin v = true -> eval holds env v = Some x ->
    x <= 2 ^ (elementBits (typeOf v) - 1)
}.

Section Spec.
Context `{WaveTarget} (holds : string -> Assumption) (env : N -> Z).
Abbreviation ev := (eval holds env).
Context `{HL : DivLLVM} {HLOk : DivLLVMOk} {HTOk : WaveTargetOk}.
Context `{HP : DivProofs} (program : WValue -> Prop) {HPOk : DivProofsOk holds env program}.

(** ** Division by a power of two that is not a constant *)

Section Type_.
Context (type : WType) (Hbits : 0 < elementBits type <= 64).
Abbreviation bits := (elementBits type).

Lemma ev_ctz value k :
  ev value = Some (2 ^ k) -> 0 <= k -> ev (createCtz value) = Some k.
Proof using Type.
  intros Hv Hk. simpl. rewrite Hv. simpl.
  destruct (trailingZeros_pow2 k Hk) as (p & -> & <-). done.
Qed.

Lemma dynamic_pow2 kind lhs rhs lhsProof rhsProof x y result :
  isDivRem kind = true -> ev lhs = Some x -> ev rhs = Some y ->
  0 <= x < 2 ^ bits -> 0 <= y < 2 ^ bits -> program rhsProof ->
  ev rhsProof = Some y -> (isProvenNonNegative lhsProof = true -> 0 <= signedValue bits x) ->
  tryCreateDynamicPow2Value type kind lhs rhs lhsProof rhsProof = Some result ->
  ev result = Some (divRemResult kind bits x y).
Proof using Hbits HPOk.
  clear HLOk HTOk. intros Hk Hx Hy Hxr Hyr Hprog Hyp Hxp Hres. unfold tryCreateDynamicPow2Value in Hres.
  case_bool_decide; [done|]. destruct (provesPow2 rhsProof) eqn:Hp2; [|done]. cbn [negb] in Hres.
  destruct (provesPow2_ok _ _ Hprog Hp2 Hyp) as (k & Hk0 & ->).
  assert (k < bits) by (apply (Z.pow_lt_mono_r_iff 2); lia).
  rewrite divRem_pow2; try lia; [|done|].
  2:{ intros Hs. rewrite Hs in Hres. destruct (isProvenNonNegative lhsProof); [auto|done]. }
  destruct (isSignedDivRem kind && negb (isProvenNonNegative lhsProof)); [done|].
  destruct (isDivision kind); injection Hres as <-.
  - apply ev_shru; [by rewrite ev_asType| |lia]. apply ev_ctz; [|done]. by destruct rhs.
  - apply ev_low; [done| |done]. apply ev_sub_exact; [by rewrite ev_asType|apply ev_like|];
      pose proof (pow2_pos k Hk0); pose proof (bits_lt type ltac:(lia)); lia.
Qed.
End Type_.

(** ** 64-bit values in 32 bits *)

Lemma i32Like_bits t : elementBits (i32Like t) = 32.
Proof using Type. by destruct t. Qed.

Lemma constantLike_type t n : isMask t = false -> typeOf (createConstantLike t n) = t.
Proof using Type. by destruct t. Qed.

Lemma i32View_type value : typeOf (createI32View value) = i32Like (typeOf value).
Proof using Type.
  unfold createI32View. destruct (getConstantAPInt _ _); [|done].
  apply constantLike_type. by destruct (typeOf value).
Qed.

Lemma ev_i32View value x :
  verified value = true -> elementBits (typeOf value) = 64 -> ev value = Some x ->
  ev (createI32View value) = Some (toBits 32 x) /\
  constantOk (i32Like (typeOf value)) (createI32View value) (toBits 32 x).
Proof using Type.
  intros Hv H64 Hx. unfold createI32View.
  destruct (getConstantAPInt value (elementBits (typeOf value))) as [n|] eqn:En.
  - destruct (getConstantAPInt_ev holds env value n Hv En) as [Hn Hnr]. rewrite H64 in Hnr.
    assert (n = x) as -> by congruence. split.
    + rewrite ev_constantLike by (rewrite ?i32Like_bits; lia). by rewrite i32Like_bits.
    + pose proof (constantLike_ok (i32Like (typeOf value))) as Hc.
      rewrite i32Like_bits in Hc. apply Hc. lia.
  - split; [|done]. simpl. rewrite Hx, H64, i32Like_bits. done.
Qed.

Lemma view_nonneg x : 0 <= x < 2 ^ 64 -> 0 <= signedValue 64 x <= signedI32Max ->
  toBits 32 x = x /\ x < 2 ^ 31.
Proof using Type.
  intros Hx Hs. unfold signedI32Max in Hs. pose proof (signedValue_nonneg 64 x ltac:(lia) Hx ltac:(lia)).
  split; [apply toBits_small|]; lia.
Qed.

(** The view keeps the signed value. *)
Lemma view_signed x :
  0 <= x < 2 ^ 64 -> signedI32Min <= signedValue 64 x <= signedI32Max ->
  signedValue 32 (toBits 32 x) = signedValue 64 x.
Proof using Type.
  intros Hx Hs. change signedI32Min with (- 2 ^ 31) in Hs. unfold signedI32Max in Hs.
  rewrite <-(signedValue_toBits 32 (signedValue 64 x)) by lia.
  f_equal. unfold signedValue at 1. destruct (Z.ltb_spec x (2 ^ (64 - 1))); [done|].
  unfold signedValue. destruct (Z.ltb_spec x (2 ^ (64 - 1))); [lia|].
  apply (toBits_eqm _ _ _ (2 ^ 32)). lia.
Qed.

(** The operands for which the signed quotient leaves the 32 bits. *)
Definition narrowOverflow (kind : BinaryKind.t) (x y : Z) : Prop :=
  kind = BinaryKind.DivSI /\ signedValue 64 x = - 2 ^ 31 /\ signedValue 64 y = - 1.

Lemma quot_i32 a b :
  - 2 ^ 31 <= a < 2 ^ 31 -> b <> 0 -> ~ (a = - 2 ^ 31 /\ b = - 1) ->
  - 2 ^ 31 <= Z.quot a b < 2 ^ 31.
Proof using Type.
  intros Ha Hb Hne. rewrite signed_quot by done.
  assert (0 <= Z.abs a / Z.abs b <= Z.abs a) as Hr.
  { split; [apply Z.div_pos; lia|]. apply Z.div_le_upper_bound; [lia|].
    assert (1 * Z.abs a <= Z.abs b * Z.abs a) by (apply Z.mul_le_mono_nonneg_r; lia). lia. }
  destruct (Z.ltb_spec a 0), (Z.ltb_spec b 0); simpl xorb; cbv iota; try lia.
  split; [lia|]. destruct (Z.eq_dec b (-1)) as [->|].
  - simpl Z.abs at 2. rewrite Z.div_1_r. lia.
  - apply Z.div_lt_upper_bound; lia.
Qed.

Lemma rem_i32 a b :
  - 2 ^ 31 <= a < 2 ^ 31 -> b <> 0 -> - 2 ^ 31 <= Z.rem a b < 2 ^ 31.
Proof using Type.
  intros Ha Hb. rewrite signed_rem by done.
  assert (0 <= Z.abs a mod Z.abs b <= Z.abs a).
  { split; [apply Z.mod_pos_bound; lia|]. apply Z.mod_le; lia. }
  pose proof (Z.mod_pos_bound (Z.abs a) (Z.abs b) ltac:(lia)).
  destruct (Z.ltb_spec a 0); [|lia]. destruct (Z.eq_dec a (- 2 ^ 31)); lia.
Qed.

(** What the narrow value must be for the extension to give the result. *)
Definition narrowed (narrow : NarrowDivRemResult) (z : Z) : Prop :=
  elementBits (typeOf (narrow_value narrow)) = 32 /\
  exists n, ev (narrow_value narrow) = Some n /\ 0 <= n < 2 ^ 32 /\
    match narrow_extension narrow with
    | CastExtension.Zero => z = n
    | CastExtension.Sign => z = toBits 64 (signedValue 32 n)
    end.

(** ** The types of the results *)

Definition ofType (type : WType) (result : DivRemValues) : Prop :=
  typeOf (quotient result) = type /\ typeOf (remainder result) = type.

Lemma restoringLoop_type type numerator divisor n result :
  ofType type result -> ofType type (restoringLoop type numerator divisor n result).
Proof using Type. revert result. induction n as [|n IH]; intros result Hr; [done|]. by apply IH. Qed.

Lemma magicQuotient_type type numerator divisor native :
  typeOf (createUnsignedMagicQuotient type numerator divisor native) = type.
Proof using Type.
  unfold createUnsignedMagicQuotient, createUMulHi.
  destruct (PostShift _ =? 0), (IsAdd _), (native && _); done.
Qed.

Lemma unsigned_type type numerator divisor native :
  isMask type = false -> typeOf (asType numerator type) = type ->
  ofType type (createUnsignedDivRem type numerator divisor native).
Proof using Type.
  intros Hm Hn. unfold createUnsignedDivRem.
  assert (ofType type (if elementBits type =? 32
     then createUnsignedI32DivRem type (asType numerator type) (asType divisor type)
     else createUnsignedRestoringDivRem type (asType numerator type) (asType divisor type))) as Hdyn.
  { destruct (_ =? 32); [done|]. apply restoringLoop_type. by split; apply constantLike_type. }
  destruct (getConstantAPInt _ _) as [n|]; [|done].
  unfold tryCreateUnsignedConstDivRem. destruct (_ =? 0); [done|].
  destruct (_ =? 1); [split; [done|by apply constantLike_type]|].
  destruct (isPowerOf2 _); [done|]. split; [apply magicQuotient_type|done].
Qed.

Lemma asType_i32View value :
  typeOf (asType (createI32View value) (i32Like (typeOf value))) = i32Like (typeOf value).
Proof using Type. unfold asType. rewrite i32View_type. case_decide; [apply i32View_type|done]. Qed.

Lemma i32Like_mask t : isMask (i32Like t) = false.
Proof using Type. by destruct t. Qed.

Lemma createSignedDivRem_type type lhs rhs positive :
  ofType type (createSignedDivRem type lhs rhs positive).
Proof using Type.
  unfold createSignedDivRem. destruct positive; [done|]. by destruct (getConstantAPInt _ _).
Qed.

Lemma pow2_type type kind lhs rhs lhsProof rhsProof result :
  tryCreateDynamicPow2Value type kind lhs rhs lhsProof rhsProof = Some result ->
  typeOf result = type.
Proof using Type.
  unfold tryCreateDynamicPow2Value. intros Hr. case_bool_decide; [done|].
  destruct (provesPow2 _); [|done]. destruct (_ && _); [done|]. cbn [negb] in Hr.
  by destruct (isDivision kind); injection Hr as <-.
Qed.

(** ** The narrow division *)

Lemma narrow_correct kind lhs rhs x y narrow :
  isDivRem kind = true -> program lhs -> program rhs ->
  verified lhs = true -> verified rhs = true ->
  elementBits (typeOf lhs) = 64 -> elementBits (typeOf rhs) = 64 ->
  ev lhs = Some x -> ev rhs = Some y -> y <> 0 -> ~ narrowOverflow kind x y ->
  createNarrowDivRem kind lhs rhs (createI32View lhs) (createI32View rhs) = Some narrow ->
  narrowed narrow (divRemResult kind 64 x y).
Proof using HLOk HTOk HPOk.
  intros Hk Hpl Hpr Hvl Hvr Hl Hr Hx Hy Hy0 Hov Hn. unfold createNarrowDivRem in Hn.
  assert (forall low, (- 2 ^ 63 <=? low) && (low <? 2 ^ 63) = true ->
    - 2 ^ 63 <= low < 2 ^ (elementBits (typeOf lhs) - 1)) as Hwl
    by (intros low; rewrite Hl; simpl Z.sub; lia).
  assert (forall low, (- 2 ^ 63 <=? low) && (low <? 2 ^ 63) = true ->
    - 2 ^ 63 <= low < 2 ^ (elementBits (typeOf rhs) - 1)) as Hwr
    by (intros low; rewrite Hr; simpl Z.sub; lia).
  rewrite i32View_type in Hn. set (i32 := i32Like (typeOf lhs)) in *.
  assert (elementBits i32 = 32) as H32 by apply i32Like_bits.
  pose proof (ev_range holds env lhs x Hvl Hx) as Hxr. rewrite Hl in Hxr.
  pose proof (ev_range holds env rhs y Hvr Hy) as Hyr. rewrite Hr in Hyr.
  destruct (ev_i32View lhs x Hvl Hl Hx) as [Hvx _].
  destruct (ev_i32View rhs y Hvr Hr Hy) as [Hvy Hcy].
  assert (constantOk i32 (createI32View rhs) (toBits 32 y)) as Hc.
  { unfold constantOk in *. rewrite i32Like_bits in Hcy. by rewrite H32. }
  pose proof (toBits_range 32 x ltac:(lia)). pose proof (toBits_range 32 y ltac:(lia)).
  assert (forall a, elementBits a = 32 -> 0 < elementBits a <= 64) as Hb32 by (intros; lia).
  destruct (provesI32Range lhs 0 && provesI32Range rhs 0) eqn:Hrange.
  - apply andb_true_iff in Hrange as [Hrl Hrr].
    pose proof (provesI32Range_ok _ _ _ Hpl (Hwl 0 eq_refl) Hrl Hx) as Hsx. rewrite Hl in Hsx.
    pose proof (provesI32Range_ok _ _ _ Hpr (Hwr 0 eq_refl) Hrr Hy) as Hsy. rewrite Hr in Hsy.
    destruct (view_nonneg x Hxr Hsx) as [Ex Lx]. destruct (view_nonneg y Hyr Hsy) as [Ey Ly].
    rewrite Ex in *. rewrite Ey in *.
    assert (divRemResult kind 32 x y = divRemResult kind 64 x y) as E6432
      by (rewrite !divRem_nonneg; try done; simpl; lia).
    assert (0 <= divRemResult kind 32 x y < 2 ^ 32) as Hrr32.
    { rewrite divRem_nonneg; [|done|lia..].
      destruct (div_range i32 x y ltac:(rewrite H32; lia) ltac:(lia)).
      pose proof (Z.mod_pos_bound x y ltac:(lia)). destruct (isDivision kind); lia. }
    rewrite <-E6432.
    destruct (tryCreateDynamicPow2Value _ _ _ _ _ _) as [pow2|] eqn:Hp2; injection Hn as <-.
    + pose proof (pow2_type _ _ _ _ _ _ _ Hp2) as Htype.
      eapply dynamic_pow2 in Hp2; try done; [|by apply Hb32|rewrite H32; lia..|].
      2:{ intros _. rewrite H32. unfold signedValue. destruct (Z.ltb_spec x (2 ^ (32 - 1))); lia. }
      rewrite H32 in Hp2. split; [by simpl; rewrite Htype|]. by exists (divRemResult kind 32 x y).
    + destruct (unsigned_divrem holds env i32 (Hb32 _ H32) (createI32View lhs)
        (createI32View rhs) false x y) as [Hq Hrem]; try done; try (rewrite H32; (done || lia)).
      destruct (unsigned_type i32 (createI32View lhs) (createI32View rhs) false) as [Tq Tr];
        [apply i32Like_mask|apply asType_i32View|].
      split; [simpl; destruct (isDivision kind); by rewrite ?Tq, ?Tr|].
      exists (divRemResult kind 32 x y). split; [|done]. rewrite divRem_nonneg by (done || lia).
      simpl. by destruct (isDivision kind).
  - destruct (isSignedDivRem kind) eqn:Hs; [|done]. cbn [negb orb] in Hn.
    destruct (provesI32Range lhs signedI32Min) eqn:Hrl; [|done].
    destruct (provesI32Range rhs signedI32Min) eqn:Hrr; [|done].
    cbn [negb orb] in Hn. injection Hn as <-.
    pose proof (provesI32Range_ok _ _ _ Hpl (Hwl signedI32Min eq_refl) Hrl Hx) as Hsx. rewrite Hl in Hsx.
    pose proof (provesI32Range_ok _ _ _ Hpr (Hwr signedI32Min eq_refl) Hrr Hy) as Hsy. rewrite Hr in Hsy.
    pose proof (view_signed x Hxr Hsx) as Ex. pose proof (view_signed y Hyr Hsy) as Ey.
    pose proof (signed_zero 64 ltac:(lia) y Hyr Hy0) as Hnz.
    assert (toBits 32 y <> 0) as Hy32.
    { intros E. rewrite E in Ey. change (signedValue 32 0) with 0 in Ey. lia. }
    destruct (signed_divrem holds env i32 (Hb32 _ H32) (createI32View lhs)
      (createI32View rhs) (isProvenPositive rhs) (toBits 32 x) (toBits 32 y))
      as [Hq Hrem]; try done; try (rewrite H32; (done || lia)).
    { intros Hp. rewrite H32, Ey. pose proof (provesLowerBound_ok _ _ _ Hpr (proj2 (Hwr 1 eq_refl)) Hp Hy) as Hlow.
      rewrite Hr in Hlow. lia. }
    rewrite H32, Ex, Ey in Hq, Hrem.
    destruct (createSignedDivRem_type i32 (createI32View lhs) (createI32View rhs)
      (isProvenPositive rhs)) as [Tq Tr].
    split; [simpl; case_bool_decide; by rewrite ?Tq, ?Tr|].
    change signedI32Min with (- 2 ^ 31) in *. unfold signedI32Max in *.
    simpl narrow_value. simpl narrow_extension. destruct kind; try done; case_bool_decide; try done.
    + eexists. split; [exact Hq|]. split; [by apply toBits_range|].
      rewrite signedValue_toBits; [done|done|].
      apply quot_i32; [lia|done|]. intros [? ?]. by apply Hov.
    + eexists. split; [exact Hrem|]. split; [by apply toBits_range|].
      rewrite signedValue_toBits; [done|done|]. apply rem_i32; lia.
Qed.

Lemma extended type narrow z :
  elementBits type = 64 -> 0 <= z < 2 ^ 64 -> narrowed narrow z ->
  ev (VCast type (Some (narrow_extension narrow)) (narrow_value narrow)) = Some z.
Proof using Type.
  intros H64 Hz (Hb & n & Hn & Hr & Hext). simpl. rewrite Hn. simpl. f_equal.
  rewrite Hb, H64. destruct (narrow_extension narrow); subst z; [|done].
  apply toBits_small. lia.
Qed.

(** A truncation of the replaced operation takes the narrow value. *)
Lemma replaced narrow z t op extension :
  narrowed narrow z -> elementBits (typeOf op) = 64 -> ev op = Some z ->
  let user := VCast t extension op in
  elementBits t <= 32 -> verified user = true ->
  ev (replaceNarrowingUser op user (narrow_value narrow)) = ev user.
Proof using Type.
  intros (Hb & n & Hn & Hr & Hext) H64 Hop user Ht Hv. unfold replaceNarrowingUser, user.
  case_bool_decide; [|done]. cbn [andb]. destruct (Z.eqb_spec (elementBits t) 32) as [E|]; [|done].
  cbn [andb]. rewrite Hn. simpl. rewrite Hop. simpl. rewrite E, H64. f_equal.
  assert (toBits 32 z = n) as Ez.
  { destruct (narrow_extension narrow); subst z; [by apply toBits_small|].
    destruct (signedValue_spec 32 n ltac:(lia) Hr) as [_ En]. rewrite <-En at 2.
    unfold toBits. apply Z.mod_mod_divide. by exists (2 ^ 32). }
  destruct extension as [[]|]; by rewrite <-?Ez.
Qed.

(** ** The expansion *)

Section Operation.
Context (type : WType) (kind : BinaryKind.t) (flags : OverflowFlags) (lhs rhs : WValue).
Context (Hkind : isDivRem kind = true).
Context (Hv : verified (VBinary type kind flags lhs rhs) = true).
Context (H64 : elementBits type <= 64) (Heven : Z.even (elementBits type) = true).
Abbreviation bits := (elementBits type).

Lemma operand_types :
  getWaveConstantValueType (typeOf lhs) = getWaveConstantValueType type /\
  getWaveConstantValueType (typeOf rhs) = getWaveConstantValueType type /\
  verified lhs = true /\ verified rhs = true /\ 0 < bits.
Proof using Hv.
  pose proof (verified_bits _ Hv) as Hb. simpl in Hv. rewrite !andb_true_iff in Hv.
  destruct Hv as (_ & (Hop & Hl) & Hr). apply verifyBinary_elements in Hop as (El & Er & _).
  done.
Qed.

Lemma operation_defined z :
  ev (VBinary type kind flags lhs rhs) = Some z ->
  exists x y, ev lhs = Some x /\ ev rhs = Some y /\ y <> 0 /\ z = divRemResult kind bits x y /\
    0 <= x < 2 ^ bits /\ 0 <= y < 2 ^ bits /\ 0 <= z < 2 ^ bits.
Proof using Hkind Hv.
  intros Hz. pose proof (ev_range holds env _ z Hv Hz) as Hr.
  destruct operand_types as (El & Er & Hvl & Hvr & Hb).
  simpl in Hz. destruct (ev lhs) as [x|] eqn:Hx; simpl in Hz; [|done].
  destruct (ev rhs) as [y|] eqn:Hy; simpl in Hz; [|done].
  destruct (flagsHold _ _ _ _ _); [|done].
  destruct (divRem_defined _ _ _ _ _ Hkind Hz) as [Hy0 ->].
  pose proof (ev_range holds env _ _ Hvl Hx) as Hxr. pose proof (ev_range holds env _ _ Hvr Hy) as Hyr.
  unfold elementBits in Hxr, Hyr. rewrite El in Hxr. rewrite Er in Hyr.
  by exists x, y.
Qed.

Lemma constant_operand y : ev rhs = Some y -> constantOk type rhs y.
Proof using Hv.
  intros Hy n Hn. destruct operand_types as (_ & Er & _ & Hvr & _).
  unfold elementBits in Hn. rewrite <-Er in Hn.
  destruct (getConstantAPInt_ev holds env rhs n Hvr Hn). congruence.
Qed.

(** The operands are defined, and the divisor is not zero. *)
Context (x y : Z) (Hx : ev lhs = Some x) (Hy : ev rhs = Some y) (Hy0 : y <> 0).
Context (Hxr : 0 <= x < 2 ^ bits) (Hyr : 0 <= y < 2 ^ bits).
Context (Hpl : program lhs) (Hpr : program rhs).

Lemma proven_operands low :
  low < 2 ^ (bits - 1) ->
  (provesLowerBound lhs low = true -> low <= signedValue bits x) /\
  (provesLowerBound rhs low = true -> low <= signedValue bits y).
Proof using Hv HPOk Hx Hy Hpl Hpr.
  destruct operand_types as (El & Er & _). intros Hlow.
  assert (elementBits (typeOf lhs) = bits) as Wl by (unfold elementBits; by rewrite El).
  assert (elementBits (typeOf rhs) = bits) as Wr by (unfold elementBits; by rewrite Er).
  split; intros Hp.
  - rewrite <-Wl. rewrite <-Wl in Hlow. by apply (provesLowerBound_ok lhs).
  - rewrite <-Wr. rewrite <-Wr in Hlow. by apply (provesLowerBound_ok rhs).
Qed.

Lemma even_bits : 1 < 2 ^ (bits - 1).
Proof using Hv Heven.
  clear Hyr Hy0. destruct operand_types as (_ & _ & _ & _ & Hb).
  apply Z.pow_gt_1; [done|]. destruct (Z.eq_dec bits 1) as [E|]; [|lia].
  by rewrite E in Heven.
Qed.

Lemma signed_as_unsigned result :
  tryCreateSignedAsUnsignedValue type kind lhs rhs = Some result ->
  ev result = Some (divRemResult kind bits x y).
Proof using All.
  intros Hr. destruct operand_types as (_ & _ & _ & _ & Hb). pose proof even_bits.
  unfold tryCreateSignedAsUnsignedValue in Hr.
  destruct (isSignedDivRem kind) eqn:Hs; [|done].
  destruct (isProvenNonNegative lhs) eqn:Hl; [|done].
  destruct (isProvenPositive rhs) eqn:Hp; [|done]. cbn [negb orb] in Hr. injection Hr as <-.
  apply (proj1 (proven_operands 0 ltac:(lia))) in Hl.
  apply (proj2 (proven_operands 1 ltac:(done))) in Hp.
  pose proof (signedValue_nonneg bits x Hb Hxr Hl) as Ex.
  pose proof (signedValue_nonneg bits y Hb Hyr ltac:(lia)) as Ey.
  destruct (signedValue_spec bits x Hb Hxr) as [Rx _].
  destruct (signedValue_spec bits y Hb Hyr) as [Ry _].
  destruct (unsigned_divrem holds env type ltac:(lia) lhs rhs true x y Heven Hx Hy Hxr ltac:(lia)
    (constant_operand y Hy)) as [Hq Hrem].
  rewrite divRem_nonneg by (done || lia). by destruct kind.
Qed.

Lemma signed_const_pow2 result :
  tryCreateSignedConstPow2Value type kind lhs rhs = Some result ->
  ev result = Some (divRemResult kind bits x y).
Proof using Hkind Hv H64 Hx Hy Hy0 Hxr Hyr.
  intros Hr. destruct operand_types as (El & _ & _ & _ & Hb).
  unfold tryCreateSignedConstPow2Value in Hr.
  destruct (isSignedDivRem kind) eqn:Hs; [|done]. cbn [negb] in Hr.
  destruct (getConstantAPInt rhs bits) as [n|] eqn:En; [|done].
  pose proof (constant_operand y Hy _ En) as ->.
  rewrite (signed_pow2 holds env type ltac:(lia) _ _ _ _ _ Hx Hxr Hyr El Hr).
  by destruct kind; try done; case_decide.
Qed.

Lemma general_divrem :
  ev (let result := if isSignedDivRem kind
                    then createSignedDivRem type lhs rhs (isProvenPositive rhs)
                    else createUnsignedDivRem type lhs rhs false in
      if isDivision kind then quotient result else remainder result) =
  Some (divRemResult kind bits x y).
Proof using All.
  destruct operand_types as (_ & _ & _ & _ & Hb).
  pose proof (constant_operand y Hy) as Hc.
  destruct (unsigned_divrem holds env type ltac:(lia) lhs rhs false x y Heven Hx Hy Hxr ltac:(lia) Hc)
    as [Uq Ur].
  destruct (signed_divrem holds env type ltac:(lia) lhs rhs (isProvenPositive rhs) x y Heven Hx Hy
    Hxr ltac:(lia) Hc) as [Sq Sr].
  { intros Hp. pose proof (proj2 (proven_operands 1 even_bits) Hp). lia. }
  by destruct kind.
Qed.

Theorem expandDivRem_spec :
  (is_Some (createNarrow type kind lhs rhs) -> ~ narrowOverflow kind x y) ->
  ev (expandDivRem type kind lhs rhs) = Some (divRemResult kind bits x y).
Proof using All.
  intros Hov. destruct operand_types as (El & Er & Hvl & Hvr & Hb).
  unfold expandDivRem, tryExpandIndexDivRemAsI32.
  destruct (createNarrow type kind lhs rhs) as [narrow|] eqn:En.
  { specialize (Hov ltac:(eauto)). unfold createNarrow in En.
    destruct (canNarrowDivRemTypeToI32 type) eqn:Hcan; [|done]. cbn [negb] in En.
    assert (bits = 64) as E64.
    { unfold canNarrowDivRemTypeToI32, elementBits in *.
      destruct (getWaveConstantValueType type); [done|]. by apply Z.eqb_eq in Hcan. }
    assert (elementBits (typeOf lhs) = 64) by (unfold elementBits in *; by rewrite El).
    assert (elementBits (typeOf rhs) = 64) by (unfold elementBits in *; by rewrite Er).
    apply (narrow_correct kind lhs rhs x y) in En; try done.
    rewrite E64. apply extended; try done. rewrite <-E64. by apply divRem_range. }
  destruct (tryCreateDynamicPow2Value _ _ _ _ _ _) as [pow2|] eqn:Ep.
  { apply (dynamic_pow2 type ltac:(lia) kind lhs rhs lhs rhs x y); try done.
    apply (proven_operands 0). pose proof even_bits. lia. }
  destruct (tryCreateSignedAsUnsignedValue _ _ _ _) eqn:Es; [by apply signed_as_unsigned|].
  destruct (tryCreateSignedConstPow2Value _ _ _ _) eqn:Ec; [by apply signed_const_pow2|].
  apply general_divrem.
Qed.
End Operation.

Lemma fold_divRem kind bits x y :
  isDivRem kind = true -> y <> 0 ->
  (kind = BinaryKind.DivSI ->
   Z.quot (signedValue bits x) (signedValue bits y) <> 2 ^ (bits - 1)) ->
  foldWaveBinaryConstants kind bits x y = Some (divRemResult kind bits x y).
Proof using Type.
  intros Hk Hy Hov.
  destruct kind; try done; unfold foldWaveBinaryConstants; simpl;
    [unfold foldWaveDivUIConstants|unfold foldWaveDivSIConstants
    |unfold foldWaveRemUIConstants|unfold foldWaveRemSIConstants];
    destruct (Z.eqb_spec y 0); simpl; try done.
  destruct (Z.eqb_spec (Z.quot (signedValue bits x) (signedValue bits y)) (2 ^ (bits - 1)));
    [by apply Hov in e|done].
Qed.

(** In one bit the operands are zero and one. *)
Lemma normalize_bit type kind flags lhs rhs x y :
  elementBits type = 1 -> isSignedDivRem kind = true -> ev lhs = Some x -> ev rhs = Some y ->
  y <> 0 -> 0 <= x < 2 ^ 1 -> 0 <= y < 2 ^ 1 -> signedValue 1 x = x ->
  ev (VBinary type (if bool_decide (kind = BinaryKind.DivSI) then BinaryKind.DivUI
                    else BinaryKind.RemUI) flags lhs rhs) = Some (divRemResult kind 1 x y).
Proof using Type.
  intros E1 Hk Hx Hy Hy0 Hxr Hyr Ex.
  assert (x = 0) as -> by (destruct (Z.eq_dec x 1) as [->|]; [done|lia]).
  assert (y = 1) as -> by lia. simpl. rewrite Hx, Hy, E1. simpl.
  by destruct kind, flags as [[] []].
Qed.

(** The normalised operation computes the same. *)
Lemma normalize_spec type kind flags lhs rhs z :
  isDivRem kind = true -> program lhs -> program rhs ->
  verified (VBinary type kind flags lhs rhs) = true ->
  ev (VBinary type kind flags lhs rhs) = Some z ->
  ev (VBinary type (normalizeDivRem kind lhs rhs) flags lhs rhs) = Some z.
Proof using HPOk.
  intros Hk Hpl Hpr Hv Hz. destruct (operation_defined type kind flags lhs rhs Hk Hv z Hz)
    as (x & y & Hx & Hy & Hy0 & -> & Hxr & Hyr & _).
  destruct (operand_types type kind flags lhs rhs Hv) as (_ & _ & _ & _ & Hb).
  unfold normalizeDivRem. destruct (isSignedDivRem kind) eqn:Hs; [|done].
  destruct (isProvenNonNegative lhs) eqn:Hl; [|done].
  destruct (isProvenPositive rhs) eqn:Hp; [|done]. cbn [negb orb].
  pose proof (proven_operands type kind flags lhs rhs Hv x y Hx Hy Hpl Hpr) as Hproven.
  apply (proj1 (Hproven 0 ltac:(apply pow2_pos; lia))) in Hl.
  destruct (Z.eq_dec (elementBits type) 1) as [E1|Hne].
  { apply signedValue_nonneg in Hl; [|done|done]. rewrite E1 in *.
    by eapply normalize_bit. }
  apply (proj2 (Hproven 1 ltac:(apply Z.pow_gt_1; lia))) in Hp.
  pose proof (signedValue_nonneg _ x Hb Hxr Hl) as Ex.
  pose proof (signedValue_nonneg _ y Hb Hyr ltac:(lia)) as Ey.
  destruct (signedValue_spec _ x Hb Hxr) as [Rx _].
  destruct (signedValue_spec _ y Hb Hyr) as [Ry _].
  rewrite divRem_nonneg by (done || lia). simpl. rewrite Hx, Hy. simpl.
  destruct kind; try done; case_bool_decide; try done; simpl;
    by rewrite fold_divRem.
Qed.
End Spec.
