(* ===== verification/QuoTyping.v ===== *)
(** * The expansion verifies

    The operations that the expansion creates pass their [verify] functions,
    and the last of them has the type of the operation that it replaces. *)

From stdpp Require Import base tactics list gmap numbers strings.
From Stdlib Require Import ZArith.
From S2P Require Import Prelude QuoIR QuoExpand QuoEval QuoVerify QuoDivide QuoSpec.

(** Scalar and SIMD types of a width that constants have. *)
Definition integerType (type : WType) : Prop :=
  isMask type = false /\ 0 < elementBits type <= 64.

(** A verified value of a type; an operand may also be of the element type. *)
Definition ofT (type : WType) (value : WValue) : Prop :=
  typeOf value = type /\ verified value = true.
Definition operandOf (type : WType) (value : WValue) : Prop :=
  ofT type value \/ ofT (scalarElementType type) value.
Definition bothOfT (type : WType) (result : DivRemValues) : Prop :=
  ofT type (quotient result) /\ ofT type (remainder result).

Create HintDb verify.

Lemma ofT_operand type value : ofT type value -> operandOf type value.
Proof. by left. Qed.

Lemma element_ok type : integerType type -> elementOk (getWaveConstantValueType type) = true.
Proof. intros [_ Hb]. apply Z.ltb_lt. apply Hb. Qed.

Lemma ofT_binary type kind a b :
  integerType type -> ofT type a -> operandOf type b -> ofT type (createBinary type kind a b).
Proof.
  intros Ht [Ta Va] Hb. pose proof (element_ok type Ht) as He.
  assert (verified b = true /\ (typeOf b = type \/ typeOf b = scalarElementType type)) as [Vb Tb]
    by (destruct Hb as [[? ?]|[? ?]]; auto).
  split; [done|]. simpl. rewrite Va, Vb, He, Ta, !andb_true_r. simpl.
  destruct Ht as [Hm _]. unfold scalarElementType in Tb.
  destruct type as [e|e w|w]; try done; simpl in Tb; destruct Tb as [Tb|Tb]; rewrite Tb;
    unfold verifyBinary; simpl; rewrite !bool_decide_eq_true_2 by done; rewrite ?Z.eqb_refl; done.
Qed.

Lemma ofT_binary_r type kind a b :
  integerType type -> operandOf type a -> ofT type b -> ofT type (createBinary type kind a b).
Proof.
  intros Ht Ha [Tb Vb]. pose proof (element_ok type Ht) as He.
  assert (verified a = true /\ (typeOf a = type \/ typeOf a = scalarElementType type)) as [Va Ta]
    by (destruct Ha as [[? ?]|[? ?]]; auto).
  split; [done|]. simpl. rewrite Va, Vb, He, Tb, !andb_true_r. simpl.
  destruct Ht as [Hm _]. unfold scalarElementType in Ta.
  destruct type as [e|e w|w]; try done; simpl in Ta; destruct Ta as [Ta|Ta]; rewrite Ta;
    unfold verifyBinary; simpl; rewrite !bool_decide_eq_true_2 by done; rewrite ?Z.eqb_refl; done.
Qed.

Lemma maskToBits_range bits raw :
  0 < bits <= 64 -> 0 <= raw < 2 ^ 64 -> 0 <= maskToBits raw bits < 2 ^ bits.
Proof.
  intros Hb Hr. unfold maskToBits. destruct (Z.eqb_spec bits 64) as [->|]; [lia|].
  rewrite mask_ones, Z.land_ones by lia. apply toBits_range. lia.
Qed.

Lemma scalar_ofT type raw :
  integerType type -> 0 <= raw < 2 ^ 64 ->
  ofT (scalarElementType type) (createScalarConstant (scalarElementType type) raw).
Proof.
  intros Ht Hr. split; [done|]. pose proof (maskToBits_range _ raw (proj2 Ht) Hr).
  simpl. change (elementBits (scalarElementType type)) with (elementBits type).
  rewrite !andb_true_iff, Z.leb_le, Z.ltb_lt. split; [by apply element_ok|done].
Qed.

Lemma scalar_operand type raw :
  integerType type -> 0 <= raw < 2 ^ 64 ->
  operandOf type (createScalarConstant (scalarElementType type) raw).
Proof. right. by apply scalar_ofT. Qed.

Lemma amount_operand type n :
  integerType type -> 0 <= n < elementBits type -> operandOf type (createShiftAmount type n).
Proof. intros Ht Hn. apply scalar_operand; [done|]. destruct Ht. lia. Qed.

Lemma splat_ofT e w value : ofT (ScalarT e) value -> ofT (SimdT e w) (VSplat (SimdT e w) value).
Proof.
  intros [Tv Vv]. split; [done|]. simpl. rewrite Vv, Tv, bool_decide_eq_true_2 by done.
  pose proof (verified_bits _ Vv) as Hb. rewrite Tv in Hb. unfold elementOk.
  apply Z.ltb_lt in Hb. unfold elementBits in Hb. simpl in Hb. by rewrite Hb.
Qed.

Lemma like_ofT type raw :
  integerType type -> 0 <= raw < 2 ^ 64 -> ofT type (createConstantLike type raw).
Proof.
  intros Ht Hr. pose proof (scalar_ofT type raw Ht Hr) as Hs. destruct Ht as [Hm _].
  destruct type as [e|e w|w]; [exact Hs|by apply splat_ofT|done].
Qed.

Lemma asType_ofT type value :
  isMask type = false -> operandOf type value -> ofT type (asType value type).
Proof.
  intros Hm Hv. unfold asType. case_decide as Ht.
  { destruct Hv as [Hv|[Tv Vv]]; [done|by split]. }
  destruct Hv as [[Tv _]|Hv]; [done|]. unfold scalarElementType in Hv.
  destruct type as [e|e w|w]; simpl in Hv; [by destruct Hv| |done].
  rewrite decide_True by apply Hv. by apply splat_ofT.
Qed.

(** Scalar comparisons take operands of one type. *)
Definition comparable (type : WType) (a b : WValue) : Prop :=
  if isScalar type then ofT type a /\ ofT type b else operandOf type a /\ operandOf type b.

Lemma ofT_comparable type a b : ofT type a -> ofT type b -> comparable type a b.
Proof. unfold comparable, operandOf. destruct (isScalar type); auto. Qed.

Lemma compare_verified type predicate a b :
  isMask type = false -> comparable type a b ->
  verified (createCompare predicate a b type) = true /\
  verifySelect type (typeOf (createCompare predicate a b type)) type type = true.
Proof.
  intros Hm Hab. unfold createCompare, comparable in *. destruct type as [e|e w|w]; [| |done].
  - simpl in Hab. destruct Hab as [[Ta Va] [Tb Vb]]. simpl. rewrite Ta, Tb, Va, Vb.
    unfold verifyCmp, verifySelect. rewrite !bool_decide_eq_true_2 by done. done.
  - simpl in Hab. destruct Hab as [Ha Hb].
    destruct (asType_ofT _ a Hm Ha) as [Ta Va]. destruct (asType_ofT _ b Hm Hb) as [Tb Vb].
    simpl. rewrite Ta, Tb, Va, Vb. unfold verifyCmp, verifySelect.
    rewrite !bool_decide_eq_true_2, Z.eqb_refl by done. done.
Qed.

Lemma ofT_select type predicate a b t f :
  integerType type -> comparable type a b -> operandOf type t -> operandOf type f ->
  ofT type (createSelect type (createCompare predicate a b type) t f).
Proof.
  intros Hi Hab Ht Hf. pose proof (element_ok type Hi) as He. destruct Hi as [Hm _].
  destruct (compare_verified type predicate a b Hm Hab) as [Vc Vs].
  destruct (asType_ofT type t Hm Ht) as [Tt Vt]. destruct (asType_ofT type f Hm Hf) as [Tf Vf].
  split; [done|]. simpl. rewrite Vc, Vt, Vf, Tt, Tf, Vs, He. done.
Qed.

#[export] Hint Resolve ofT_operand ofT_binary ofT_select ofT_comparable like_ofT : verify.

(** A constant found for a value is one of its width. *)
Lemma getConstantAPInt_range value n :
  verified value = true -> getConstantAPInt value (elementBits (typeOf value)) = Some n ->
  0 <= n < 2 ^ elementBits (typeOf value).
Proof.
  intros Hv Hn. by apply (@getConstantAPInt_ev {| urecip := id |} (fun _ _ _ => true) (fun _ => 0)).
Qed.

(** Constants below [2 ^ 64] as operands. *)
Ltac operands :=
  repeat first
    [ assumption
    | apply ofT_operand; assumption
    | apply scalar_operand; [assumption|]
    | apply like_ofT; [assumption|]
    | apply ofT_binary; [assumption| |]
    | apply ofT_select; [assumption| | |]
    | apply ofT_comparable
    | apply ofT_operand ].

Section Expansion.
Context `{HL : DivLLVM} {HLOk : DivLLVMOk}.
Context (type : WType) (Ht : integerType type).
Abbreviation bits := (elementBits type).

Lemma umulhi_ofT value multiplier native :
  ofT type value -> 0 <= multiplier < 2 ^ 64 ->
  ofT type (createUMulHi type value multiplier native).
Proof using Ht.
  intros Hv Hm. unfold createUMulHi. destruct (native && (bits =? 32)); [by operands|].
  pose proof (proj2 Ht) as Hb. set (h := bits / 2).
  assert (0 <= h <= 32) as Hh.
  { unfold h. split; [apply Z.div_pos; lia|]. apply Z.div_le_upper_bound; lia. }
  destruct (Z.eqb_spec h 64); [lia|]. rewrite mask_ones by lia.
  rewrite Z.ones_equiv, <-Z.sub_1_r, land_mask, Z.shiftr_div_pow2 by lia.
  pose proof (pow2_pos h ltac:(lia)).
  assert (2 ^ h <= 2 ^ 32) by (apply Z.pow_le_mono_r; lia).
  pose proof (Z.mod_pos_bound multiplier (2 ^ h) ltac:(lia)).
  assert (0 <= multiplier / 2 ^ h <= multiplier).
  { split; [apply Z.div_pos; lia|]. apply Z.div_le_upper_bound; [lia|].
    assert (1 * multiplier <= 2 ^ h * multiplier) by (apply Z.mul_le_mono_nonneg_r; lia). lia. }
  unfold createAdd, createAnd, createShrU, createMul, createShiftAmount.
  operands; lia.
Qed.

Lemma magic_ofT numerator divisor native :
  ofT type numerator -> 1 < divisor < 2 ^ bits -> isPowerOf2 divisor = false ->
  ofT type (createUnsignedMagicQuotient type numerator divisor native).
Proof using Ht HLOk.
  intros Hn Hd Hp. unfold createUnsignedMagicQuotient. pose proof (proj2 Ht) as Hb.
  assert (maskToBits divisor bits = divisor) as ->.
  { unfold maskToBits. destruct (bits =? 64); [done|].
    rewrite mask_ones, Z.land_ones by lia. apply Z.mod_small. lia. }
  pose proof (unsignedMagic_ok bits divisor Hb Hd Hp) as (HM & Hpre & Hpost & _).
  destruct (unsignedMagic bits divisor) as [M add pre post]. simpl in *.
  assert (2 ^ bits <= 2 ^ 64) by (apply Z.pow_le_mono_r; lia).
  unfold createAdd, createSub, createShrU, createShiftAmount.
  assert (forall v, ofT type v -> ofT type (createUMulHi type v M native)) as Hu
    by (intros; apply umulhi_ofT; [done|lia]).
  destruct (pre =? 0), add, (post =? 0); simpl negb; cbv iota;
    repeat first [progress operands|apply Hu|lia].
Qed.

Lemma const_ofT numerator divisor native result :
  ofT type numerator -> 0 <= divisor < 2 ^ 64 ->
  tryCreateUnsignedConstDivRem type numerator divisor native = Some result ->
  bothOfT type result.
Proof using Ht HLOk.
  intros Hn Hd Hr. unfold tryCreateUnsignedConstDivRem in Hr. pose proof (proj2 Ht) as Hb.
  pose proof (maskToBits_range bits divisor Hb Hd) as Hm.
  assert (2 ^ bits <= 2 ^ 64) by (apply Z.pow_le_mono_r; lia).
  set (d := maskToBits divisor bits) in *.
  destruct (Z.eqb_spec d 0); [done|].
  destruct (Z.eqb_spec d 1); [injection Hr as <-; split; [done|by operands]|].
  assert (0 <= Z.log2 d < 2 ^ 64).
  { split; [apply Z.log2_nonneg|]. pose proof (Z.log2_lt_lin d ltac:(lia)). lia. }
  destruct (isPowerOf2 d) eqn:Hp; injection Hr as <-.
  - split; cbn [quotient remainder]; unfold createShrU, createAnd, createShiftAmount; operands; lia.
  - pose proof (magic_ofT numerator d native Hn ltac:(lia) Hp) as Hq.
    split; cbn [quotient remainder]; [done|]. unfold createSub, createMul. operands; lia.
Qed.

Lemma restoring_ofT numerator divisor :
  ofT type numerator -> ofT type divisor ->
  bothOfT type (createUnsignedRestoringDivRem type numerator divisor).
Proof using Ht.
  intros Hn Hd. pose proof (proj2 Ht) as Hb. unfold createUnsignedRestoringDivRem.
  assert (forall n result, Z.of_nat n <= bits -> bothOfT type result ->
    bothOfT type (restoringLoop type numerator divisor n result)) as Hloop.
  { intros n. induction n as [|n IH]; intros result Hle [Hq Hr]; [by split|]. simpl. apply IH; [lia|].
    assert (0 <= Z.shiftl 1 (Z.of_nat n) < 2 ^ 64).
    { rewrite Z.shiftl_1_l. split; [apply Z.pow_nonneg; lia|]. apply Z.pow_lt_mono_r; lia. }
    split; cbn [restoringStep quotient remainder];
      unfold createAnd, createOr, createShrU, createShl, createSub, createShiftAmount; operands; lia. }
  apply Hloop; [lia|]. split; operands; lia.
Qed.

Lemma i32_ofT numerator divisor :
  getWaveConstantValueType type = IntT 32 -> ofT type numerator -> ofT type divisor ->
  bothOfT type (createUnsignedI32DivRem type numerator divisor).
Proof using Ht.
  intros H32 Hn Hd. unfold createUnsignedI32DivRem.
  assert (ofT type (createURecip type divisor)) as Hz.
  { unfold createURecip, asType. rewrite decide_True by apply Hd. destruct Hd as [Td Vd].
    split; [done|]. simpl. rewrite (element_ok type Ht), Td, Vd. unfold verifyURecip.
    rewrite (proj1 Ht), H32, !bool_decide_eq_true_2 by done. done. }
  assert (forall result, bothOfT type result -> bothOfT type (correctionStep type divisor result)) as Hstep.
  { intros result [Hq Hr]. split; cbn [correctionStep quotient remainder];
      unfold createAdd, createSub; operands; lia. }
  apply Hstep, Hstep. split; cbn [quotient remainder];
    unfold createNeg, createAdd, createSub, createMul, createMulHU; operands; lia.
Qed.

Lemma unsigned_ofT numerator divisor native :
  (bits = 32 -> getWaveConstantValueType type = IntT 32) ->
  operandOf type numerator -> operandOf type divisor ->
  bothOfT type (createUnsignedDivRem type numerator divisor native).
Proof using Ht HLOk.
  intros H32 Hn Hd. unfold createUnsignedDivRem. pose proof (proj2 Ht) as Hb.
  apply (asType_ofT type numerator (proj1 Ht)) in Hn. apply (asType_ofT type divisor (proj1 Ht)) in Hd.
  assert (bothOfT type (if bits =? 32
     then createUnsignedI32DivRem type (asType numerator type) (asType divisor type)
     else createUnsignedRestoringDivRem type (asType numerator type) (asType divisor type))) as Hdyn.
  { destruct (Z.eqb_spec bits 32); [apply i32_ofT|apply restoring_ofT]; auto. }
  destruct (getConstantAPInt (asType divisor type) bits) as [n|] eqn:En; [|done].
  destruct (tryCreateUnsignedConstDivRem _ _ _ _) as [result|] eqn:Er; [|done].
  apply const_ofT in Er; [done|done|].
  destruct Hd as [Td Vd]. rewrite <-Td in En at 2. apply getConstantAPInt_range in En; [|done].
  rewrite Td in En. assert (2 ^ bits <= 2 ^ 64) by (apply Z.pow_le_mono_r; lia). lia.
Qed.

(** ** Powers of two and signs *)

Context `{HP : DivProofs}.

Definition countable (type : WType) : Prop :=
  getWaveConstantValueType type = IndexT \/ bits = 32 \/ bits = 64.

Lemma ctz_ofT value :
  countable type -> operandOf type value -> operandOf type (createCtz value).
Proof using Ht.
  intros Hc Hv.
  assert (forall t, getWaveConstantValueType t = getWaveConstantValueType type -> isMask t = false ->
    ofT t value -> ofT t (createCtz value)) as Hctz.
  { intros t E Hm [Tv Vv]. split; [done|]. simpl. rewrite Tv, Vv, E, (element_ok type Ht).
    unfold verifyCtz. rewrite Hm, bool_decide_eq_true_2 by done.
    destruct Hc as [Hi|Hb]; [by rewrite E, Hi|]. unfold elementBits in Hb. rewrite E.
    destruct (getWaveConstantValueType type); [done|]. simpl in *. rewrite andb_true_r.
    by destruct Hb as [-> | ->]. }
  destruct Hv as [Hv|Hv]; [left; apply Hctz|right; apply Hctz]; try done. apply Ht.
Qed.

Lemma splat_source value t source :
  operandOf type value -> value = VSplat t source -> operandOf type source.
Proof using Ht.
  intros Hv ->. assert (verified (VSplat t source) = true) as V by (destruct Hv as [[_ V]|[_ V]]; done).
  simpl in V. rewrite !andb_true_iff in V. destruct V as (_ & Hs & V). unfold verifySplat in Hs.
  destruct t as [e|e w|w]; try done. apply bool_decide_eq_true in Hs.
  destruct Hv as [[T _]|[T _]]; simpl in T; [|done]. right. by rewrite <-T.
Qed.

Lemma dynamic_pow2_ofT kind lhs rhs lhsProof rhsProof result :
  operandOf type lhs -> operandOf type rhs -> (provesPow2 rhsProof = true -> countable type) ->
  tryCreateDynamicPow2Value type kind lhs rhs lhsProof rhsProof = Some result -> ofT type result.
Proof using Ht.
  intros Hl Hr Hc Hres. unfold tryCreateDynamicPow2Value in Hres. case_bool_decide; [done|].
  destruct (provesPow2 rhsProof) eqn:Hp; [|done]. specialize (Hc eq_refl). cbn [negb] in Hres.
  destruct (_ && _); [done|].
  pose proof (asType_ofT type lhs (proj1 Ht) Hl). pose proof (asType_ofT type rhs (proj1 Ht) Hr).
  destruct (isDivision kind); injection Hres as <-.
  - apply ofT_binary; [done..|]. apply ctz_ofT; [done|].
    destruct rhs as [|t s| | | | | | | | | | | | ]; try done. by apply (splat_source (VSplat t s) t).
  - apply ofT_binary_r; [done..|]. unfold createSub. operands. lia.
Qed.

Lemma signedPow2_ofT kind lhs n result :
  operandOf type lhs -> 0 <= n < 2 ^ 64 ->
  tryCreateSignedPositivePow2Value type kind lhs n = Some result -> ofT type result.
Proof using Ht.
  intros Hl Hn Hres. unfold tryCreateSignedPositivePow2Value in Hres. pose proof (proj2 Ht) as Hb.
  destruct ((signedValue bits n <? 0) || (n =? 0)) eqn:Hneg; [done|].
  apply orb_false_iff in Hneg as [_ Hn0%Z.eqb_neq].
  destruct (isPowerOf2 n); [|done]. cbn [negb] in Hres.
  pose proof (like_ofT type 0 Ht ltac:(lia)) as Hzero.
  destruct (Z.eqb_spec n 1).
  { case_bool_decide; injection Hres as <-; [apply asType_ofT; [apply Ht|done]|done]. }
  assert (0 <= Z.log2 n < 2 ^ 64).
  { split; [apply Z.log2_nonneg|]. pose proof (Z.log2_lt_lin n ltac:(lia)). lia. }
  assert (comparable type lhs (createConstantLike type 0)) as Hcmp.
  { unfold comparable. destruct (isScalar type) eqn:Es; [|split; [done|by left]]. split; [|done].
    destruct Hl as [Hl|Hl]; [done|]. by destruct type. }
  assert (ofT type (createShrS type (createAdd type lhs
    (createSelect type (createCompare CmpIPredicate.slt lhs (createConstantLike type 0) type)
       (createConstantLike type (n - 1)) (createConstantLike type 0)))
    (createShiftAmount type (Z.log2 n)))) as Hq.
  { unfold createShrS, createAdd, createShiftAmount. apply ofT_binary; [done| |by operands].
    apply ofT_binary_r; [done..|]. apply ofT_select; [done..| |by left]. operands. lia. }
  case_bool_decide; injection Hres as <-; [done|]. apply ofT_binary_r; [done..|].
  unfold createShl, createShiftAmount. by operands.
Qed.

Lemma signedDivRem_ofT lhs rhs positive :
  (bits = 32 -> getWaveConstantValueType type = IntT 32) ->
  operandOf type lhs -> operandOf type rhs ->
  bothOfT type (createSignedDivRem type lhs rhs positive).
Proof using Ht HLOk.
  intros H32 Hl Hr. unfold createSignedDivRem. pose proof (proj2 Ht) as Hb.
  apply (asType_ofT type lhs (proj1 Ht)) in Hl. apply (asType_ofT type rhs (proj1 Ht)) in Hr.
  set (l := asType lhs type) in *. set (r := asType rhs type) in *.
  assert (forall v, ofT type v -> ofT type (createShrS type v (createShiftAmount type (bits - 1)))) as Hsign.
  { intros v Hv. unfold createShrS, createShiftAmount. operands. lia. }
  set (sign := createShrS type l _). pose proof (Hsign l Hl) as Hs. fold sign in Hs.
  assert (forall v s, ofT type v -> ofT type s ->
    ofT type (createSub type (createXor type v s) s)) as Happly
    by (intros; unfold createSub, createXor; operands).
  assert (forall absRhs quotientSign, ofT type absRhs -> ofT type quotientSign ->
    bothOfT type
      (let u := createUnsignedDivRem type (createSub type (createXor type l sign) sign) absRhs
                  (bool_decide (is_Some (getConstantAPInt r bits))) in
       mkDivRem (createSub type (createXor type (quotient u) quotientSign) quotientSign)
         (createSub type (createXor type (remainder u) sign) sign))) as Hresult.
  { intros a q Ha Hq. cbv zeta.
    destruct (unsigned_ofT (createSub type (createXor type l sign) sign) a
      (bool_decide (is_Some (getConstantAPInt r bits))) H32) as [Uq Ur];
      [left; by apply Happly|by left|].
    split; cbn [quotient remainder]; by apply Happly. }
  destruct positive; [by apply Hresult|].
  destruct (getConstantAPInt r bits) as [n|] eqn:En.
  - assert (0 <= n < 2 ^ bits) as Hn.
    { destruct Hr as [Tr Vr]. rewrite <-Tr in En at 1. rewrite <-Tr. by apply getConstantAPInt_range. }
    assert (2 ^ bits <= 2 ^ 64) by (apply Z.pow_le_mono_r; lia).
    assert (0 <= signedAbs bits n < 2 ^ 64).
    { unfold signedAbs. pose proof (toBits_range bits (- n) ltac:(lia)). destruct (_ <? _); lia. }
    apply Hresult; [by operands|].
    destruct (signedValue bits n <? 0); [|done]. unfold createXor. operands. by vm_compute.
  - apply Hresult; [by apply Happly, Hsign|]. apply ofT_binary; [done..|left; by apply Hsign].
Qed.
End Expansion.

(** ** The expansion *)

Lemma i32Like_integer t : integerType (i32Like t).
Proof. split; [by destruct t|]. rewrite i32Like_bits. lia. Qed.

Lemma view_ofT value :
  verified value = true -> isMask (typeOf value) = false -> elementBits (typeOf value) = 64 ->
  ofT (i32Like (typeOf value)) (createI32View value).
Proof.
  intros Hv Hm H64. split; [apply i32View_type|]. unfold createI32View.
  destruct (getConstantAPInt value _) as [n|] eqn:En.
  - apply getConstantAPInt_range in En; [|done]. rewrite H64 in En.
    apply like_ofT; [apply i32Like_integer|done].
  - simpl. rewrite Hv, andb_true_r. unfold elementBits in H64.
    destruct (typeOf value) as [e|e w|w]; try done; simpl in *; unfold verifyCast; simpl;
      rewrite ?bool_decide_eq_true_2 by done; unfold verifyWaveCastExtensionPolicy; simpl; by rewrite H64.
Qed.

Lemma width32 t : elementBits t = 32 -> getWaveConstantValueType t = IntT 32.
Proof. unfold elementBits. destruct (getWaveConstantValueType t); simpl; [done|by intros ->]. Qed.

Lemma extend_ofT type extension value :
  integerType type -> elementBits type = 64 -> ofT (i32Like type) value ->
  ofT type (VCast type (Some extension) value).
Proof.
  intros Ht E64 [Tv Vv]. split; [done|]. simpl. rewrite Vv, Tv, (element_ok type Ht), andb_true_r.
  destruct Ht as [Hm _]. unfold elementBits in E64.
  destruct type as [e|e w|w]; try done; simpl in *; unfold verifyCast; simpl;
    rewrite ?bool_decide_eq_true_2 by done; unfold verifyWaveCastExtensionPolicy; simpl; by rewrite E64.
Qed.

Section Operation.
Context `{HL : DivLLVM} {HLOk : DivLLVMOk} `{HP : DivProofs}.
Context (type : WType) (kind : BinaryKind.t) (flags : OverflowFlags) (lhs rhs : WValue).
Context (Hv : verified (VBinary type kind flags lhs rhs) = true).
Context (H64 : elementBits type <= 64).

Lemma operands_of : integerType type /\ operandOf type lhs /\ operandOf type rhs.
Proof using Hv H64.
  pose proof (verified_bits _ Hv) as Hb. simpl in Hv. rewrite !andb_true_iff in Hv.
  destruct Hv as (_ & (Hop & Hl) & Hr). pose proof (verifyBinary_elements _ _ _ _ _ Hop) as (_ & _ & Hm & _).
  simpl in Hb. split; [done|]. unfold verifyBinary, verifyWaveBinaryResult in Hop. unfold operandOf, ofT, scalarElementType.
  destruct (typeOf lhs) as [el|el wl|wl], (typeOf rhs) as [er|er wr|wr], type as [et|et wt|wt];
    simpl in Hop; rewrite ?andb_false_r in Hop; try done;
    rewrite !andb_true_iff, ?bool_decide_eq_true, ?Z.eqb_eq in Hop;
    destruct_and? Hop; simplify_eq/=; auto.
Qed.

Lemma narrow_ofT narrow :
  typeOf lhs = type -> elementBits type = 64 ->
  createNarrowDivRem kind lhs rhs (createI32View lhs) (createI32View rhs) = Some narrow ->
  ofT (i32Like type) (narrow_value narrow).
Proof using Hv H64 HLOk.
  intros Tl E64 En. destruct operands_of as (Ht & Hl & Hr).
  assert (verified lhs = true) as Vl by (destruct Hl as [[_ ?]|[_ ?]]; done).
  assert (verified rhs = true) as Vr by (destruct Hr as [[_ ?]|[_ ?]]; done).
  pose proof (i32Like_integer type) as Hi. pose proof (width32 _ (i32Like_bits type)) as H32.
  assert (ofT (i32Like type) (createI32View lhs)) as Wl.
  { rewrite <-Tl. apply view_ofT; [done|rewrite Tl; apply Ht|by rewrite Tl]. }
  assert (operandOf (i32Like type) (createI32View rhs)) as Wr.
  { destruct Hr as [[Tr _]|[Tr _]].
    - left. rewrite <-Tr. apply view_ofT; [done|rewrite Tr; apply Ht|by rewrite Tr].
    - right. assert (scalarElementType (i32Like type) = i32Like (typeOf rhs)) as ->
        by (rewrite Tr; by destruct type).
      apply view_ofT; [done|by rewrite Tr|by rewrite Tr]. }
  unfold createNarrowDivRem in En. destruct Wl as [Tw Vw]. rewrite Tw in En.
  assert (ofT (i32Like type) (createI32View lhs)) as Wl by done.
  destruct (provesI32Range lhs 0 && provesI32Range rhs 0).
  - destruct (tryCreateDynamicPow2Value _ _ _ _ _ _) as [pow2|] eqn:Ep; injection En as <-; simpl.
    + apply dynamic_pow2_ofT in Ep; try done; [by left|]. intros _. right. left. apply i32Like_bits.
    + destruct (unsigned_ofT (i32Like type) Hi (createI32View lhs) (createI32View rhs) false
        (fun _ => H32) (or_introl Wl) Wr). by destruct (isDivision kind).
  - destruct (_ || _); [done|]. injection En as <-. simpl.
    destruct (signedDivRem_ofT (i32Like type) Hi (createI32View lhs) (createI32View rhs)
      (isProvenPositive rhs) (fun _ => H32) (or_introl Wl) Wr). by case_bool_decide.
Qed.

(** The operations verify when the left operand of a 64-bit operation has the
    type of the result, and numbers of a width that [wave.ctz] has are divided
    by a power of two. *)
Theorem expandDivRem_ofT :
  (elementBits type = 64 -> typeOf lhs = type) ->
  (provesPow2 rhs = true -> elementBits type = 32 \/ elementBits type = 64) ->
  ofT type (expandDivRem type kind lhs rhs).
Proof using Hv H64 HLOk.
  intros Hlhs Hpow2. destruct operands_of as (Ht & Hl & Hr). pose proof (proj2 Ht) as Hb.
  assert (verified rhs = true) as Vr by (destruct Hr as [[_ ?]|[_ ?]]; done).
  unfold expandDivRem, tryExpandIndexDivRemAsI32.
  destruct (createNarrow type kind lhs rhs) as [narrow|] eqn:En.
  { unfold createNarrow in En.
    destruct (canNarrowDivRemTypeToI32 type) eqn:Hcan; [|done]. cbn [negb] in En.
    assert (elementBits type = 64) as E64.
    { unfold canNarrowDivRemTypeToI32, elementBits in *.
      destruct (getWaveConstantValueType type); [done|]. by apply Z.eqb_eq in Hcan. }
    apply extend_ofT; [done..|]. apply narrow_ofT; auto. }
  destruct (tryCreateDynamicPow2Value _ _ _ _ _ _) as [pow2|] eqn:Ep.
  { apply (dynamic_pow2_ofT type Ht kind lhs rhs lhs rhs); try done. intros Hp. by right; apply Hpow2. }
  destruct (tryCreateSignedAsUnsignedValue _ _ _ _) as [unsigned|] eqn:Es.
  { unfold tryCreateSignedAsUnsignedValue in Es. destruct (_ || _); [done|]. injection Es as <-.
    destruct (unsigned_ofT type Ht lhs rhs true (width32 type) Hl Hr). by case_bool_decide. }
  destruct (tryCreateSignedConstPow2Value _ _ _ _) as [pow2|] eqn:Ec.
  { unfold tryCreateSignedConstPow2Value in Ec. destruct (negb _); [done|].
    destruct (getConstantAPInt rhs _) as [n|] eqn:Econst; [|done].
    apply (signedPow2_ofT type Ht kind lhs n); try done.
    assert (elementBits (typeOf rhs) = elementBits type) as Er by (destruct Hr as [[-> _]|[-> _]]; done).
    rewrite <-Er in Econst. apply getConstantAPInt_range in Econst; [|done]. rewrite Er in Econst.
    assert (2 ^ elementBits type <= 2 ^ 64) by (apply Z.pow_le_mono_r; lia). lia. }
  destruct (unsigned_ofT type Ht lhs rhs false (width32 type) Hl Hr) as [Uq Ur].
  destruct (signedDivRem_ofT type Ht lhs rhs (isProvenPositive rhs) (width32 type) Hl Hr) as [Sq Sr].
  by destruct (isSignedDivRem kind), (isDivision kind).
Qed.
End Operation.
