(* ===== verification/QuoModulo.v ===== *)
(** * Remainders of induction variables

    [WaveStrengthReduceModuloPass] of [WaveExpandIntegerDivRem.cpp]: the
    remainder of the induction variable of a loop by a constant becomes a value
    that the loop carries and advances by the step in each iteration, and
    remainders of sums with a constant follow from it. *)

From stdpp Require Import base tactics list gmap numbers strings.
From S2P Require Import Prelude QuoIR QuoExpand.

(** [scf.for], and the value of its induction variable. *)
Record ForLoop : Set := mkLoop {
  loop_type : WType;
  loop_id : N;
  unsignedCmp : bool;
  lowerBound : WValue;
  upperBound : WValue;
  loop_step : WValue
}.
Definition inductionVar (loop : ForLoop) : WValue :=
  VLoopIv (loop_type loop) (loop_id loop) (unsignedCmp loop) (lowerBound loop)
    (upperBound loop) (loop_step loop).

Record DerivedModulo : Set := mkDerived { derived_op : WValue; increment : Z }.

Record ModuloRecurrence : Set := mkRecurrence {
  baseOps : list WValue;
  derivedOps : list DerivedModulo;
  rec_divisor : Z;
  rec_step : Z;
  rec_kind : BinaryKind.t
}.

Record ModuloOffset : Set := mkOffset {
  offset_flags : OverflowFlags;
  offset_value : WValue;
  addsInduction : bool
}.

(** An operation as the pass sees it. *)
Record BinaryOp : Set := mkBinaryOp {
  op_type : WType;
  op_kind : BinaryKind.t;
  op_flags : OverflowFlags;
  op_lhs : WValue;
  op_rhs : WValue
}.
Definition op_value (op : BinaryOp) : WValue :=
  VBinary (op_type op) (op_kind op) (op_flags op) (op_lhs op) (op_rhs op).

Definition isModulo (kind : BinaryKind.t) : bool :=
  match kind with BinaryKind.RemUI | BinaryKind.RemSI => true | _ => false end.

Definition getPositiveConstant (value : WValue) (bits : Z) : option Z :=
  match getConstantAPInt value bits with
  | Some constant => if 0 <? signedValue bits constant then Some constant else None
  | None => None
  end.

Definition getModuloDivisor (value : WValue) (bits : Z) (kind : BinaryKind.t) : option Z :=
  match getConstantAPInt value bits with
  | Some constant =>
      if (constant =? 0)
         || (bool_decide (kind = BinaryKind.RemSI) && (signedValue bits constant <? 0))
      then None else Some constant
  | None => None
  end.

Definition isRecurrenceLegal `{DivProofs} (loop : ForLoop) (kind : BinaryKind.t)
    (nonNegative : bool) : bool :=
  if bool_decide (kind = BinaryKind.RemUI) then unsignedCmp loop || nonNegative
  else nonNegative && (negb (unsignedCmp loop) || provesAtMostSignedMin (upperBound loop)).

(** The recurrence of a kind and a divisor, with its position. *)
Definition isRecurrence (kind : BinaryKind.t) (divisor : Z) (recurrence : ModuloRecurrence) : bool :=
  bool_decide (rec_kind recurrence = kind) && (rec_divisor recurrence =? divisor).
Fixpoint findModuloRecurrence (recurrences : list ModuloRecurrence) (kind : BinaryKind.t)
    (divisor : Z) : option nat :=
  match recurrences with
  | [] => None
  | recurrence :: rest =>
      if isRecurrence kind divisor recurrence then Some O
      else S <$> findModuloRecurrence rest kind divisor
  end.

Definition isBaseModuloValue (value : WValue) (recurrence : ModuloRecurrence) : bool :=
  existsb (fun op => bool_decide (op = value)) (baseOps recurrence).

Definition matchModuloOffset (op : BinaryOp) (recurrence : ModuloRecurrence)
    (induction : WValue) : option ModuloOffset :=
  match op_lhs op with
  | VBinary _ BinaryKind.AddI flags lhs rhs =>
      if bool_decide (lhs = induction) then Some (mkOffset flags rhs true)
      else if bool_decide (rhs = induction) then Some (mkOffset flags lhs true)
      else if isBaseModuloValue lhs recurrence then Some (mkOffset flags rhs false)
      else if isBaseModuloValue rhs recurrence then Some (mkOffset flags lhs false)
      else None
  | _ => None
  end.

Definition isModuloOffsetLegal (offset : ModuloOffset) (recurrence : ModuloRecurrence)
    (constant bits : Z) (inductionNonNegative : bool) : bool :=
  if negb (addsInduction offset) then
    let maxValue := if bool_decide (rec_kind recurrence = BinaryKind.RemSI)
                    then 2 ^ (bits - 1) - 1 else 2 ^ bits - 1 in
    let baseMax := toBits bits (rec_divisor recurrence - 1) in
    constant <=? toBits bits (maxValue - baseMax)
  else
    let noUnsignedWrap := flag_nuw (offset_flags offset) in
    let noSignedWrap := flag_nsw (offset_flags offset) in
    if bool_decide (rec_kind recurrence = BinaryKind.RemSI) then noSignedWrap
    else noUnsignedWrap || (inductionNonNegative && noSignedWrap).

Definition getDerivedModuloIncrement (op : BinaryOp) (recurrence : ModuloRecurrence)
    (induction : WValue) (inductionNonNegative : bool) : option Z :=
  if isBaseModuloValue (op_lhs op) recurrence then Some 0
  else
    match matchModuloOffset op recurrence induction with
    | None => None
    | Some offset =>
        let bits := elementBits (op_type op) in
        match getConstantAPInt (offset_value offset) bits with
        | None => None
        | Some constant =>
            if bool_decide (rec_kind recurrence = BinaryKind.RemSI)
               && (signedValue bits constant <? 0)
            then None
            else if negb (isModuloOffsetLegal offset recurrence constant bits inductionNonNegative)
            then None
            else Some (constant mod toBits bits (rec_divisor recurrence))
        end
    end.

Section Collect.
Context `{DivProofs}.

Definition getBaseModuloDivisor (op : BinaryOp) (loop : ForLoop) (type : WType) (bits : Z)
    (nonNegative : bool) : option Z :=
  if negb (isModulo (op_kind op)) then None
  else if negb (bool_decide (op_type op = type)) then None
  else if negb (bool_decide (op_lhs op = inductionVar loop)) then None
  else
    match getModuloDivisor (op_rhs op) bits (op_kind op) with
    | None => None
    | Some divisor =>
        if divisor =? 1 then None
        else if isPowerOf2 divisor then None
        else if negb (isRecurrenceLegal loop (op_kind op) nonNegative) then None
        else Some divisor
    end.

Definition addBase (op : BinaryOp) (recurrence : ModuloRecurrence) : ModuloRecurrence :=
  mkRecurrence (baseOps recurrence ++ [op_value op]) (derivedOps recurrence)
    (rec_divisor recurrence) (rec_step recurrence) (rec_kind recurrence).

Definition collectBaseModulo (loop : ForLoop) (type : WType) (bits step : Z)
    (nonNegative : bool) (recurrences : list ModuloRecurrence) (op : BinaryOp) :
    list ModuloRecurrence :=
  match getBaseModuloDivisor op loop type bits nonNegative with
  | None => recurrences
  | Some divisor =>
      match findModuloRecurrence recurrences (op_kind op) divisor with
      | Some i => alter (addBase op) i recurrences
      | None =>
          recurrences ++
          [addBase op (mkRecurrence [] [] divisor (step mod divisor) (op_kind op))]
      end
  end.

Definition findDerivedModuloRecurrence (op : BinaryOp) (type : WType) (bits : Z)
    (recurrences : list ModuloRecurrence) : option nat :=
  if negb (isModulo (op_kind op)) || negb (bool_decide (op_type op = type)) then None
  else
    match getModuloDivisor (op_rhs op) bits (op_kind op) with
    | None => None
    | Some divisor =>
        match findModuloRecurrence recurrences (op_kind op) divisor with
        | None => None
        | Some i =>
            match recurrences !! i with
            | None => None
            | Some recurrence =>
                if isBaseModuloValue (op_value op) recurrence then None else Some i
            end
        end
    end.

Definition addDerived (derived : DerivedModulo) (recurrence : ModuloRecurrence) :
    ModuloRecurrence :=
  mkRecurrence (baseOps recurrence) (derivedOps recurrence ++ [derived])
    (rec_divisor recurrence) (rec_step recurrence) (rec_kind recurrence).

Definition collectDerivedModulo (loop : ForLoop) (type : WType) (bits : Z)
    (nonNegative : bool) (recurrences : list ModuloRecurrence) (op : BinaryOp) :
    list ModuloRecurrence :=
  match findDerivedModuloRecurrence op type bits recurrences with
  | None => recurrences
  | Some i =>
      match recurrences !! i with
      | None => recurrences
      | Some recurrence =>
          match getDerivedModuloIncrement op recurrence (inductionVar loop) nonNegative with
          | None => recurrences
          | Some increment =>
              alter (addDerived (mkDerived (op_value op) increment)) i recurrences
          end
      end
  end.

(** [ops] are the operations of the body, in the order of the walk. *)
Definition collectModuloRecurrences (loop : ForLoop) (ops : list BinaryOp) :
    list ModuloRecurrence :=
  let type := loop_type loop in
  if negb (match type with ScalarT _ => true | _ => false end) || (64 <? elementBits type)
  then []
  else
    let bits := elementBits type in
    match getPositiveConstant (loop_step loop) bits with
    | None => []
    | Some step =>
        let nonNegative := isProvenNonNegative (lowerBound loop) in
        let recurrences :=
          foldl (collectBaseModulo loop type bits step nonNegative) [] ops in
        match recurrences with
        | [] => []
        | _ => foldl (collectDerivedModulo loop type bits nonNegative) recurrences ops
        end
    end.
End Collect.

(** ** The rewriting *)

Definition createModuloIncrement (type : WType) (residue : WValue) (kind : BinaryKind.t)
    (divisor increment : Z) : WValue :=
  if increment =? 0 then residue
  else
    let threshold := createConstantLike type (divisor - increment) in
    let predicate := if bool_decide (kind = BinaryKind.RemUI)
                     then CmpIPredicate.uge else CmpIPredicate.sge in
    let wrap := createCompare predicate residue threshold type in
    let wrapped := createSub type residue threshold in
    let advanced := createAdd type residue (createConstantLike type increment) in
    createSelect type wrap wrapped advanced.

(** [sym::rangeAssumption] of the symbol ["r"]. *)
Class RangeAssumptions := { rangeAssumption : Z -> Z -> option N }.

(** What becomes of a recurrence: the value that the loop starts with, the one
    that it yields, and what replaces the operations. *)
Record LoopRewrite : Set := mkRewrite {
  initialResidue : WValue;
  yieldedResidue : WValue;
  replacements : list (WValue * WValue)
}.

(** [residue] is the argument that the loop carries. *)
Definition rewriteModuloRecurrence `{RangeAssumptions} (loop : ForLoop)
    (recurrence : ModuloRecurrence) (residue : WValue) : option LoopRewrite :=
  let type := loop_type loop in
  let divisor := createConstantLike type (rec_divisor recurrence) in
  let initial := createBinary type (rec_kind recurrence) (lowerBound loop) divisor in
  let yielded := createModuloIncrement type residue (rec_kind recurrence)
                   (rec_divisor recurrence) (rec_step recurrence) in
  let rewriteWith boundedResidue :=
    mkRewrite initial yielded
      (map (fun op => (op, boundedResidue)) (baseOps recurrence) ++
       map (fun derived =>
              (derived_op derived,
               createModuloIncrement type boundedResidue (rec_kind recurrence)
                 (rec_divisor recurrence) (increment derived)))
         (derivedOps recurrence)) in
  if rec_divisor recurrence - 1 <=? 9223372036854775807 then
    match rangeAssumption 0 (rec_divisor recurrence - 1) with
    | None => None
    | Some range => Some (rewriteWith (VAssume residue "r" [range]))
    end
  else Some (rewriteWith residue).

(** The recurrences with their arguments; [None]: the pass fails. *)
Fixpoint rewriteModuloRecurrences `{RangeAssumptions} (loop : ForLoop)
    (recurrences : list (ModuloRecurrence * WValue)) : option (list LoopRewrite) :=
  match recurrences with
  | [] => Some []
  | (recurrence, residue) :: rest =>
      match rewriteModuloRecurrence loop recurrence residue,
            rewriteModuloRecurrences loop rest with
      | Some rewrite, Some rewrites => Some (rewrite :: rewrites)
      | _, _ => None
      end
  end.
