(* ===== verification/QuoModuloSpec.v ===== *)
(** * The carried residues are the remainders

    In every iteration of a loop the value that [rewriteModuloRecurrence] makes
    the loop carry is the remainder of the induction variable, and what replaces
    a remainder evaluates to it. *)

From stdpp Require Import base tactics list gmap numbers strings.
From Stdlib Require Import ZArith Zquot.
From S2P Require Import Prelude QuoIR QuoExpand QuoEval QuoVerify QuoDivide QuoSpec QuoModulo.

(** ** One advance *)

Lemma add_mod_wrap r c d :
  0 <= r < d -> 0 <= c < d -> (r + c) mod d = if d - c <=? r then r - (d - c) else r + c.
Proof.
  intros Hr Hc. destruct (Z.leb_spec (d - c) r).
  - symmetry. apply (Z.mod_unique_pos _ _ 1); lia.
  - apply Z.mod_small. lia.
Qed.

Section Increment.
Context `{WaveTarget} (holds : string -> Assumption) (env : N -> Z).
Abbreviation ev := (eval holds env).

Lemma ev_sge a b t x y :
  ev a = Some x -> ev b = Some y ->
  getWaveConstantValueType (typeOf a) = getWaveConstantValueType t ->
  ev (createCompare CmpIPredicate.sge a b t) =
    Some (Z.b2z (signedValue (elementBits t) y <=? signedValue (elementBits t) x)).
Proof using Type.
  intros Ha Hb Ht. assert (elementBits (typeOf a) = elementBits t) as Hw
    by (unfold elementBits; by rewrite Ht).
  destruct t as [e|e w|w]; simpl; rewrite ?ev_asType, Ha; simpl; rewrite ?ev_asType, Hb; simpl;
    [by rewrite Hw| |by rewrite Hw].
  assert (elementBits (typeOf (asType a (SimdT e w))) = elementBits (SimdT e w)) as ->; [|done].
  unfold asType. case_decide as Hd; [by rewrite Hd|]. by case_decide.
Qed.

Context (type : WType) (Hbits : 0 < elementBits type <= 64).
Abbreviation bits := (elementBits type).

Lemma modulo_increment residue kind d c r :
  isModulo kind = true -> ev residue = Some r ->
  getWaveConstantValueType (typeOf residue) = getWaveConstantValueType type ->
  0 <= r < d -> 0 <= c < d -> d < 2 ^ bits -> (kind = BinaryKind.RemSI -> d < 2 ^ (bits - 1)) ->
  ev (createModuloIncrement type residue kind d c) = Some ((r + c) mod d).
Proof using Hbits.
  intros Hk Hr Ht Hrd Hcd Hd Hs. unfold createModuloIncrement.
  destruct (Z.eqb_spec c 0) as [->|]; [by rewrite Z.add_0_r, Z.mod_small|].
  pose proof (ev_like holds env type Hbits (d - c) ltac:(lia)) as Hthreshold.
  pose proof (ev_like holds env type Hbits c ltac:(lia)) as Hc.
  pose proof (ev_sub holds env type _ _ _ _ Hr Hthreshold) as Hwrapped.
  pose proof (ev_add holds env type _ _ _ _ Hr Hc) as Hadvanced.
  rewrite add_mod_wrap by lia.
  assert (ev (createCompare (if bool_decide (kind = BinaryKind.RemUI) then CmpIPredicate.uge
    else CmpIPredicate.sge) residue (createConstantLike type (d - c)) type) =
    Some (Z.b2z (d - c <=? r))) as Hcmp.
  { case_bool_decide as Ek; [by apply ev_uge|].
    rewrite (ev_sge _ _ _ _ _ Hr Hthreshold Ht).
    assert (d < 2 ^ (bits - 1)) by (apply Hs; by destruct kind).
    unfold signedValue. destruct (Z.ltb_spec (d - c) (2 ^ (bits - 1))); [|lia].
    destruct (Z.ltb_spec r (2 ^ (bits - 1))); [done|lia]. }
  rewrite (ev_select holds env type _ _ _ _ _ _ Hcmp Hwrapped Hadvanced), b2z_if. f_equal.
  destruct (Z.leb_spec (d - c) r); apply toBits_small; lia.
Qed.
End Increment.

(** ** The iterations of a loop *)

Lemma isScalar_mask t : isScalar t = true -> isMask t = false.
Proof. by destruct t. Qed.

Class RangeAssumptionsOk `{RangeAssumptions} (holds : string -> Assumption) :=
  rangeAssumption_ok lo hi pred v :
    rangeAssumption lo hi = Some pred -> lo <= v <= hi -> holds "r"%string pred v = true.

Section Loop.
Context `{WaveTarget} (holds : string -> Assumption) (env : N -> Z).
Context `{HP : DivProofs} (program : WValue -> Prop) {HPOk : DivProofsOk holds env program}.
Context `{HR : RangeAssumptions} {HROk : RangeAssumptionsOk holds}.
Context (loop : ForLoop) (residueId : N).
Abbreviation type := (loop_type loop).
Abbreviation bits := (elementBits type).
Abbreviation iv := (inductionVar loop).
Context (Hverified : verified iv = true) (H64 : bits <= 64).
Context (Hfresh : residueId <> loop_id loop).

(** The argument of the loop that carries the residue. *)
Definition residueArg : WValue := VOther type residueId.

(** A bound as the comparison of the loop reads it. *)
Definition boundValue (x : Z) : Z := if unsignedCmp loop then x else signedValue bits x.

(** The values of an iteration. *)
Definition iterationEnv (ivValue residue : Z) : N -> Z :=
  fun id => if decide (id = loop_id loop) then ivValue
            else if decide (id = residueId) then residue else env id.

Context (lb ub step : Z).
Context (Hlb : eval holds env (lowerBound loop) = Some lb).
Context (Hub : eval holds env (upperBound loop) = Some ub).
Context (Hstep : getPositiveConstant (loop_step loop) bits = Some step).
Context (Hpl : program (lowerBound loop)) (Hpu : program (upperBound loop)).

(** The induction variable of an iteration; the iterations are those for which
    it is below the upper bound. *)
Definition ivAt (n : nat) : Z := boundValue lb + Z.of_nat n * step.
Definition executes (n : nat) : Prop := ivAt n < boundValue ub.
Definition ivBits (n : nat) : Z := toBits bits (ivAt n).

(** The residue that the loop carries into an iteration. *)
Fixpoint residueAt (rewrite : LoopRewrite) (n : nat) : option Z :=
  match n with
  | O => eval holds env (initialResidue rewrite)
  | S m =>
      r ← residueAt rewrite m;
      eval holds (iterationEnv (ivBits m) r) (yieldedResidue rewrite)
  end.

Lemma loop_types :
  typeOf (lowerBound loop) = type /\ typeOf (upperBound loop) = type /\ isMask type = false /\
  0 < bits /\ verified (lowerBound loop) = true /\ verified (upperBound loop) = true.
Proof using Hverified.
  pose proof (verified_bits _ Hverified) as Hb. simpl in Hverified, Hb.
  rewrite !andb_true_iff, !bool_decide_eq_true in Hverified.
  destruct Hverified as (_ & (((((Hs & Hl) & Hu) & _) & Vl) & Vu) & _).
  split_and!; try assumption. by apply isScalar_mask.
Qed.

Lemma bounds_range : 0 <= lb < 2 ^ bits /\ 0 <= ub < 2 ^ bits.
Proof using Hverified Hlb Hub.
  destruct loop_types as (Tl & Tu & _ & _ & Vl & Vu).
  pose proof (ev_range holds env _ _ Vl Hlb) as Rl. pose proof (ev_range holds env _ _ Vu Hub) as Ru.
  by rewrite Tl in Rl; rewrite Tu in Ru.
Qed.

Lemma step_positive : 0 < step.
Proof using Hstep.
  clear Hfresh. unfold getPositiveConstant in Hstep.
  destruct (getConstantAPInt (loop_step loop) bits) as [c|] eqn:Ec; [|done].
  destruct (Z.ltb_spec 0 (signedValue bits c)) as [Hc|]; [|done]. injection Hstep as <-.
  unfold signedValue in Hc. destruct (Z.ltb_spec c (2 ^ (bits - 1))); [done|].
  destruct (Z.lt_ge_cases 0 c); [done|].
  destruct (Z.lt_ge_cases (bits - 1) 0) as [Hn|Hn].
  - rewrite (Z.pow_neg_r 2 (bits - 1)) in * by done. assert (0 <= 2 ^ bits) by (apply Z.pow_nonneg; lia). lia.
  - pose proof (pow2_pos (bits - 1) Hn). lia.
Qed.

(** Where the recurrence is legal, the induction variable does not wrap, and as
    the kind of the remainder reads it, it is not negative. *)
Definition legal (kind : BinaryKind.t) : Prop :=
  isRecurrenceLegal loop kind (isProvenNonNegative (lowerBound loop)) = true.

Lemma iv_range kind n :
  isModulo kind = true -> legal kind -> executes n ->
  0 <= ivAt n < 2 ^ bits /\ (kind = BinaryKind.RemSI -> ivAt n < 2 ^ (bits - 1)).
Proof using Hverified Hlb Hub Hstep HPOk Hpl Hpu.
  clear Hfresh H64. intros Hk Hlegal Hex. destruct loop_types as (Tl & Tu & _ & Hb & _).
  destruct bounds_range as [Rl Ru]. pose proof step_positive as Hs.
  assert (0 <= Z.of_nat n * step) by (apply Z.mul_nonneg_nonneg; lia).
  pose proof (pow2_half bits Hb) as Hhalf.
  destruct (signedValue_spec bits lb Hb Rl) as [Sl _].
  destruct (signedValue_spec bits ub Hb Ru) as [Su _].
  unfold executes, ivAt, boundValue in *. unfold legal, isRecurrenceLegal in Hlegal.
  assert (isProvenNonNegative (lowerBound loop) = true -> 0 <= signedValue bits lb) as Hnn.
  { intros Hp. pose proof (pow2_pos (bits - 1) ltac:(lia)) as Hpos.
    pose proof (provesLowerBound_ok _ 0 lb Hpl) as Hlow. rewrite Tl in Hlow. by apply Hlow. }
  assert (provesAtMostSignedMin (upperBound loop) = true -> ub <= 2 ^ (bits - 1)) as Hum.
  { intros Hp. pose proof (provesAtMostSignedMin_ok _ _ Hpu Hp Hub) as Hle. by rewrite Tu in Hle. }
  case_bool_decide as Ek.
  - split; [|intros ->; done]. destruct (unsignedCmp loop); [lia|]. apply Hnn in Hlegal. lia.
  - apply andb_true_iff in Hlegal as [Hl Hcmp]. apply Hnn in Hl.
    destruct (unsignedCmp loop); [|lia]. apply Hum in Hcmp. lia.
Qed.

(** The divisor of a recurrence. *)
Definition divisorOk (kind : BinaryKind.t) (d : Z) : Prop :=
  0 < d < 2 ^ bits /\ (kind = BinaryKind.RemSI -> d < 2 ^ (bits - 1)).

(** The remainder of a number that is not negative. *)
Lemma modulo_value kind x d :
  isModulo kind = true -> 0 < bits -> 0 <= x < 2 ^ bits -> divisorOk kind d ->
  (kind = BinaryKind.RemSI -> x < 2 ^ (bits - 1)) ->
  divRemResult kind bits x d = x mod d.
Proof using Type.
  clear Hfresh. intros Hk Hb Hx [Hd Hs] Hxs. destruct kind; try done.
  rewrite divRem_nonneg; [done|done|lia| |].
  - specialize (Hxs eq_refl). lia.
  - specialize (Hs eq_refl). lia.
Qed.

(** The invariant of the loop. *)
Lemma residue_invariant recurrence rewrite n :
  isModulo (rec_kind recurrence) = true -> legal (rec_kind recurrence) ->
  divisorOk (rec_kind recurrence) (rec_divisor recurrence) ->
  rec_step recurrence = step mod rec_divisor recurrence ->
  rewriteModuloRecurrence loop recurrence residueArg = Some rewrite ->
  executes n -> residueAt rewrite n = Some (ivAt n mod rec_divisor recurrence).
Proof using Hverified H64 Hfresh Hlb Hub Hstep HPOk Hpl Hpu.
  intros Hk Hlegal Hd Hs Hrw. destruct loop_types as (Tl & Tu & _ & Hb & _).
  set (d := rec_divisor recurrence) in *. set (kind := rec_kind recurrence) in *.
  assert (initialResidue rewrite = createBinary type kind (lowerBound loop) (createConstantLike type d) /\
    yieldedResidue rewrite = createModuloIncrement type residueArg kind d (rec_step recurrence)) as [Ei Ey].
  { unfold rewriteModuloRecurrence in Hrw. destruct (_ <=? _); [|by injection Hrw as <-].
    destruct (rangeAssumption _ _); [|done]. by injection Hrw as <-. }
  pose proof step_positive as Hsp. destruct Hd as [Hd Hds].
  induction n as [|n IH]; intros Hex.
  - destruct (iv_range kind 0 Hk Hlegal Hex) as [Rx Rs].
    assert (ivAt 0 = boundValue lb) as E0 by (unfold ivAt; lia). rewrite E0 in *.
    destruct bounds_range as [Rl _].
    assert (boundValue lb = lb) as Eb.
    { unfold boundValue in *. destruct (unsignedCmp loop); [done|]. apply signedValue_nonneg; lia. }
    rewrite Eb in *. simpl residueAt. rewrite Ei.
    rewrite (ev_binary holds env type kind _ _ _ _ Hlb (ev_like holds env type ltac:(lia) d ltac:(lia))).
    rewrite fold_divRem; [|by destruct kind|lia|intros ->; done].
    f_equal. by apply modulo_value.
  - assert (executes n) as Hex' by (unfold executes, ivAt in *; lia).
    specialize (IH Hex'). cbn [residueAt]. rewrite IH. simpl mbind. rewrite Ey, Hs.
    pose proof (Z.mod_pos_bound (ivAt n) d ltac:(lia)) as Hr.
    destruct (iv_range kind n Hk Hlegal Hex') as [Rn _].
    assert (0 <= ivAt n mod d < 2 ^ bits) as Hrb by lia.
    rewrite (modulo_increment holds _ type ltac:(lia) residueArg kind d _ (ivAt n mod d)); try done.
    + f_equal. rewrite <-Z.add_mod by lia. f_equal. unfold ivAt. lia.
    + simpl. unfold iterationEnv. rewrite decide_False, decide_True by done.
      f_equal. by apply toBits_small.
    + apply Z.mod_pos_bound. lia.
    + lia.
Qed.

(** ** What a collected recurrence satisfies *)

Abbreviation nonNegative := (isProvenNonNegative (lowerBound loop)).

(** A remainder of the kind and by the divisor of a recurrence. *)
Definition remainderBy (kind : BinaryKind.t) (d : Z) (op : BinaryOp) : Prop :=
  op_kind op = kind /\ op_type op = type /\ getModuloDivisor (op_rhs op) bits kind = Some d /\
  verified (op_value op) = true.

Record collected (recurrence : ModuloRecurrence) : Prop := {
  col_kind : isModulo (rec_kind recurrence) = true;
  col_legal : legal (rec_kind recurrence);
  col_step : rec_step recurrence = step mod rec_divisor recurrence;
  col_divisor : exists op, remainderBy (rec_kind recurrence) (rec_divisor recurrence) op;
  col_base value :
    value ∈ baseOps recurrence ->
    exists op, value = op_value op /\ op_lhs op = iv /\
      remainderBy (rec_kind recurrence) (rec_divisor recurrence) op;
  col_derived derived :
    derived ∈ derivedOps recurrence ->
    exists op, derived_op derived = op_value op /\
      remainderBy (rec_kind recurrence) (rec_divisor recurrence) op /\
      getDerivedModuloIncrement op recurrence iv nonNegative = Some (increment derived)
}.

Lemma remainder_operands kind d op :
  isModulo kind = true -> remainderBy kind d op ->
  divisorOk kind d /\ verified (op_lhs op) = true /\ typeOf (op_lhs op) = type /\
  forall envn, eval holds envn (op_rhs op) = Some d.
Proof using Hverified env.
  clear Hfresh H64 Hstep. destruct loop_types as (_ & _ & Hm & Hb & _).
  intros Hk (Ek & Et & Hd & Hv). unfold op_value in Hv. rewrite Et in Hv. simpl in Hv.
  rewrite !andb_true_iff in Hv. destruct Hv as (_ & (Hop & Vl) & Vr).
  assert (typeOf (op_lhs op) = type /\ typeOf (op_rhs op) = type) as [Tl Tr].
  { clear Hd. simpl in Hverified. rewrite !andb_true_iff in Hverified.
    destruct Hverified as (_ & (((((Hs & _) & _) & _) & _) & _) & _).
    unfold verifyBinary, verifyWaveBinaryResult in Hop.
    destruct (typeOf (op_lhs op)), (typeOf (op_rhs op)), (loop_type loop); simpl in Hop, Hs;
      rewrite ?andb_false_r in Hop; try done;
      rewrite !andb_true_iff, ?bool_decide_eq_true in Hop; destruct_and? Hop; by simplify_eq. }
  unfold getModuloDivisor in Hd.
  destruct (getConstantAPInt (op_rhs op) bits) as [c|] eqn:Ec; [|done].
  assert (getConstantAPInt (op_rhs op) (elementBits (typeOf (op_rhs op))) = Some c) as Ec'
    by (by rewrite Tr).
  destruct (getConstantAPInt_ev holds env _ _ Vr Ec') as [_ Rc]. rewrite Tr in Rc.
  destruct ((c =? 0) || _) eqn:Eg; [done|]. injection Hd as <-.
  apply orb_false_iff in Eg as [Hc0%Z.eqb_neq Hs].
  split; [|split; [done|split; [done|]]].
  - split; [lia|]. intros ->. simpl in Hs. apply Z.ltb_ge in Hs.
    pose proof (signedValue_nonneg bits c Hb ltac:(lia) Hs) as Es.
    destruct (signedValue_spec bits c Hb ltac:(lia)) as [Sc _]. lia.
  - intros envn. by apply (getConstantAPInt_ev holds envn _ _ Vr Ec').
Qed.

Section Iteration.
Context (recurrence : ModuloRecurrence) (Hcol : collected recurrence).
Context (n : nat) (Hex : executes n).
Abbreviation d := (rec_divisor recurrence).
Abbreviation kind := (rec_kind recurrence).
Abbreviation r := (ivAt n mod d).
Abbreviation envn := (iterationEnv (ivBits n) r).
Abbreviation evn := (eval holds envn).

Lemma recurrence_divisor : divisorOk kind d.
Proof using H holds env Hcol Hverified.
  destruct (col_divisor _ Hcol) as [op Hop].
  by destruct (remainder_operands _ _ _ (col_kind _ Hcol) Hop).
Qed.

(** What the operands are in the iteration. *)
Lemma iteration_values :
  evn iv = Some (ivAt n) /\ evn residueArg = Some r /\ 0 <= r < d /\
  0 <= ivAt n < 2 ^ bits /\ (kind = BinaryKind.RemSI -> ivAt n < 2 ^ (bits - 1)).
Proof using All.
  destruct recurrence_divisor as [Hd _].
  destruct (iv_range kind n (col_kind _ Hcol) (col_legal _ Hcol) Hex) as [Rx Rs].
  assert (ivBits n = ivAt n) as Eiv by (by apply toBits_small).
  pose proof (Z.mod_pos_bound (ivAt n) d ltac:(lia)) as Hr.
  split; [|split; [|done]]; simpl; unfold iterationEnv.
  - rewrite decide_True by done. f_equal. rewrite Eiv. by apply toBits_small.
  - rewrite decide_False, decide_True by done. f_equal. apply toBits_small. lia.
Qed.

(** A remainder of the recurrence, of an operand with the value [x]. *)
Lemma remainder_value op x z :
  remainderBy kind d op -> evn (op_lhs op) = Some x -> evn (op_value op) = Some z ->
  (kind = BinaryKind.RemSI -> x < 2 ^ (bits - 1)) -> z = x mod d.
Proof using All.
  intros Hop Hx Hz Hs. pose proof (col_kind _ Hcol) as Hk.
  destruct (remainder_operands _ _ _ Hk Hop) as (Hd & Vl & Tl & Hy).
  destruct Hop as (Ek & Et & _ & _).
  pose proof (ev_range holds _ _ _ Vl Hx) as Rx. rewrite Tl in Rx.
  destruct loop_types as (_ & _ & _ & Hb & _).
  unfold op_value in Hz. simpl in Hz. rewrite Hx, Hy in Hz. simpl in Hz.
  destruct (flagsHold _ _ _ _ _); [|done]. rewrite Ek, Et in Hz.
  apply divRem_defined in Hz as [_ ->]; [|by destruct kind].
  by apply modulo_value.
Qed.

(** The sum with a constant does not wrap in the iteration: the conditions that
    [isModuloOffsetLegal] leaves out. *)
Definition offsetSafe (offset : ModuloOffset) (c : Z) : Prop :=
  addsInduction offset = true -> kind = BinaryKind.RemUI ->
  flag_nuw (offset_flags offset) = true \/
  0 <= signedValue bits c /\ ivAt n < 2 ^ (bits - 1).

(** The sum of a matched offset: of the constant and the induction variable or
    its remainder. *)
Lemma offset_sum op offset c x :
  remainderBy kind d op -> evn (op_lhs op) = Some x ->
  matchModuloOffset op recurrence iv = Some offset ->
  getConstantAPInt (offset_value offset) bits = Some c ->
  (forall v, isBaseModuloValue v recurrence = true -> forall y, evn v = Some y -> y = r) ->
  let s := (if addsInduction offset then ivAt n else r) + c in
  x = toBits bits s /\ 0 <= c < 2 ^ bits /\
  (addsInduction offset = true ->
   (flag_nuw (offset_flags offset) = true -> s < 2 ^ bits) /\
   (flag_nsw (offset_flags offset) = true ->
    - 2 ^ (bits - 1) <= signedValue bits (ivAt n) + signedValue bits c < 2 ^ (bits - 1))).
Proof using All.
  intros Hop Hx Hm Hc Hbase s. destruct iteration_values as (Hiv & _ & _ & Rx & _).
  destruct (remainder_operands _ _ _ (col_kind _ Hcol) Hop) as (_ & Vl & Tl & _).
  unfold matchModuloOffset in Hm.
  destruct (op_lhs op) as [| |t k flags a b| | | | | | | | | | |] eqn:El; try done.
  destruct k; try done. simpl in Tl. subst t.
  assert (verified a = true /\ verified b = true /\ elementBits (typeOf a) = bits /\
    elementBits (typeOf b) = bits) as (Va & Vb & Ta & Tb).
  { simpl in Vl. rewrite !andb_true_iff in Vl. destruct Vl as (_ & (Ho & Va) & Vb).
    apply verifyBinary_elements in Ho as (Ea & Eb & _). unfold elementBits. by rewrite Ea, Eb. }
  assert (forall q y, verified q = true -> elementBits (typeOf q) = bits ->
    getConstantAPInt q bits = Some c -> evn q = Some y -> y = c /\ 0 <= c < 2 ^ bits) as Hconst.
  { intros q y Vq Tq Hq Hy. rewrite <-Tq in Hq.
    destruct (getConstantAPInt_ev holds envn _ _ Vq Hq) as [Eq Rq]. rewrite Tq in Rq.
    split; [congruence|done]. }
  simpl in Hx. destruct (evn a) as [xa|] eqn:Ea; [|done]. destruct (evn b) as [xb|] eqn:Eb; [|done].
  simpl in Hx. match type of Hx with (if ?f then _ else _) = _ => destruct f eqn:Hflags end; [|done].
  injection Hx as <-.
  assert (0 <= c < 2 ^ bits /\ exists p, p = (if addsInduction offset then ivAt n else r) /\
    (xa = p /\ xb = c \/ xa = c /\ xb = p) /\ offset_flags offset = flags) as (Rc & p & Ep & Hab & Ef).
  { case_bool_decide as E1; [|case_bool_decide as E2;
      [|destruct (isBaseModuloValue a recurrence) eqn:E3;
        [|destruct (isBaseModuloValue b recurrence) eqn:E4; [|done]]]];
      injection Hm as <-; cbn [addsInduction offset_flags offset_value] in *.
    - destruct (Hconst b xb Vb Tb Hc Eb) as [-> Rc]. split; [done|]. exists (ivAt n). subst a.
      assert (xa = ivAt n) by congruence. auto.
    - destruct (Hconst a xa Va Ta Hc Ea) as [-> Rc]. split; [done|]. exists (ivAt n). subst b.
      assert (xb = ivAt n) by congruence. auto.
    - destruct (Hconst b xb Vb Tb Hc Eb) as [-> Rc]. split; [done|]. exists r.
      rewrite (Hbase a E3 xa Ea). auto.
    - destruct (Hconst a xa Va Ta Hc Ea) as [-> Rc]. split; [done|]. exists r.
      rewrite (Hbase b E4 xb Eb). auto. }
  assert (xa + xb = s) as Es by (unfold s; rewrite <-Ep; lia).
  split; [by rewrite <-Es|]. split; [done|]. intros Hadds. rewrite Hadds in Ep. rewrite Ef.
  simpl in Hflags. apply andb_true_iff in Hflags as [Hnuw Hnsw].
  split; intros Hflag; rewrite Hflag in *; simpl in *.
  - unfold id in Hnuw. apply andb_true_iff in Hnuw as [_ Hlt%Z.ltb_lt]. lia.
  - apply andb_true_iff in Hnsw as [Hge%Z.leb_le Hlt%Z.ltb_lt].
    destruct Hab as [[-> ->]|[-> ->]]; subst p; lia.
Qed.

(** The remainder of the sum follows from the residue. *)
Lemma derived_value op c z :
  remainderBy kind d op -> evn (op_value op) = Some z ->
  getDerivedModuloIncrement op recurrence iv nonNegative = Some c ->
  (forall v, isBaseModuloValue v recurrence = true -> forall y, evn v = Some y -> y = r) ->
  (forall offset n, matchModuloOffset op recurrence iv = Some offset ->
     getConstantAPInt (offset_value offset) bits = Some n -> offsetSafe offset n) ->
  z = (r + c) mod d /\ 0 <= c < d.
Proof using All.
  intros Hop Hz Hc Hbase Hsafe. pose proof (col_kind _ Hcol) as Hk.
  destruct iteration_values as (Hiv & _ & Rr & Rx & Rs).
  destruct recurrence_divisor as [Hd Hds].
  destruct loop_types as (_ & _ & _ & Hb & _). pose proof (pow2_half bits Hb) as Hhalf.
  assert (exists x, evn (op_lhs op) = Some x) as [x Hx].
  { unfold op_value in Hz. simpl in Hz. destruct (evn (op_lhs op)) as [x|]; [by exists x|done]. }
  assert (op_type op = type) as Et by apply Hop.
  unfold getDerivedModuloIncrement in Hc. rewrite Et in Hc.
  destruct (isBaseModuloValue (op_lhs op) recurrence) eqn:Ebase.
  { injection Hc as <-. rewrite Z.add_0_r. pose proof (Hbase _ Ebase _ Hx) as ->.
    rewrite (remainder_value op r z Hop Hx Hz); [split; [done|lia]|]. intros E. specialize (Hds E). lia. }
  destruct (matchModuloOffset op recurrence iv) as [offset|] eqn:Em; [|done].
  destruct (getConstantAPInt (offset_value offset) bits) as [c0|] eqn:Ec; [|done].
  destruct (bool_decide (kind = BinaryKind.RemSI) && (signedValue bits c0 <? 0)) eqn:Eneg; [done|].
  destruct (isModuloOffsetLegal _ _ _ _ _) eqn:Elegal; [|done]. cbn [negb] in Hc.
  rewrite (toBits_small bits d) in Hc by lia. injection Hc as <-.
  destruct (offset_sum op offset c0 x Hop Hx Em Ec Hbase) as (Ex & Rc & Hadd).
  specialize (Hsafe offset c0 eq_refl Ec).
  destruct (signedValue_spec bits c0 Hb Rc) as [Sc _].
  assert (kind = BinaryKind.RemSI -> c0 < 2 ^ (bits - 1)) as Hc0.
  { intros E. rewrite bool_decide_eq_true_2 in Eneg by done. apply Z.ltb_ge in Eneg.
    pose proof (signedValue_nonneg bits c0 Hb Rc Eneg). lia. }
  set (base := if addsInduction offset then ivAt n else r) in *.
  assert (0 <= base + c0 < 2 ^ bits /\ (kind = BinaryKind.RemSI -> base + c0 < 2 ^ (bits - 1))) as [Hs Hss].
  { unfold isModuloOffsetLegal in Elegal. unfold offsetSafe in Hsafe.
    destruct (addsInduction offset) eqn:Eadds; cbn [negb] in Elegal.
    - destruct (Hadd eq_refl) as [Hnuw Hnsw]. specialize (Hsafe eq_refl). subst base.
      assert (forall y, 0 <= y -> y < 2 ^ (bits - 1) -> signedValue bits y = y) as Hsv.
      { intros y Hy0 Hy. unfold signedValue. destruct (Z.ltb_spec y (2 ^ (bits - 1))); lia. }
      destruct (decide (kind = BinaryKind.RemSI)) as [Ek|Ek].
      + rewrite bool_decide_eq_true_2 in Elegal by done. specialize (Hnsw Elegal).
        specialize (Hc0 Ek). specialize (Rs Ek). rewrite !Hsv in Hnsw by lia. lia.
      + rewrite bool_decide_eq_false_2 in Elegal by done. split; [|done].
        assert (kind = BinaryKind.RemUI) as Eu by (clear -Hk Ek; by destruct kind).
        destruct (flag_nuw (offset_flags offset)) eqn:Enuw; [specialize (Hnuw eq_refl); lia|].
        destruct (Hsafe Eu) as [|[Hc0n Hiv0]]; [done|].
        cbn [orb] in Elegal. apply andb_true_iff in Elegal as [_ Ensw]. specialize (Hnsw Ensw).
        rewrite (signedValue_nonneg bits c0 Hb Rc Hc0n) in Hnsw, Sc. rewrite Hsv in Hnsw by lia. lia.
    - apply Z.leb_le in Elegal. subst base. rewrite (toBits_small bits (d - 1)) in Elegal by lia.
      case_bool_decide as Ek.
      + specialize (Hds Ek). rewrite toBits_small in Elegal by lia. split; [lia|intros _; lia].
      + rewrite toBits_small in Elegal by lia. split; [lia|done]. }
  rewrite toBits_small in Ex by lia.
  pose proof (Z.mod_pos_bound c0 d ltac:(lia)) as Hcd. split; [|done].
  assert ((base + c0) mod d = (r + c0 mod d) mod d) as <-.
  { rewrite <-Z.add_mod_idemp_l by lia.
    assert (base mod d = r) as -> by (subst base; destruct (addsInduction offset); [done|]; by apply Z.mod_small).
    by rewrite Z.add_mod_idemp_r by lia. }
  rewrite <-Ex. apply (remainder_value op x z Hop Hx Hz). intros E. rewrite Ex. by apply Hss.
Qed.

Lemma isBase_inv v : isBaseModuloValue v recurrence = true -> v ∈ baseOps recurrence.
Proof using Type.
  unfold isBaseModuloValue. rewrite existsb_exists. intros (b & Hb & E).
  apply bool_decide_eq_true in E as ->. by apply list_elem_of_In.
Qed.

Lemma base_value v : v ∈ baseOps recurrence -> forall y, evn v = Some y -> y = r.
Proof using All.
  intros Hv y Hy. destruct (col_base _ Hcol v Hv) as (op & -> & El & Hop).
  destruct iteration_values as (Hiv & _ & _ & _ & Rs). rewrite <-El in Hiv.
  by apply (remainder_value op (ivAt n) y Hop Hiv Hy).
Qed.

(** The residue carries its range as an assumption, which holds of it as a
    signed number when the divisor is not above the signed numbers. *)
Lemma bounded_value range :
  rangeAssumption 0 (d - 1) = Some range -> d <= 2 ^ (bits - 1) ->
  evn (VAssume residueArg "r" [range]) = Some r.
Proof using All.
  intros Hrange Hd. destruct iteration_values as (_ & Hr & Rr & _).
  cbn [eval]. rewrite Hr. simpl mbind. unfold forallb. simpl typeOf.
  assert (signedValue bits r = r) as ->.
  { unfold signedValue. destruct (Z.ltb_spec r (2 ^ (bits - 1))); [done|lia]. }
  by rewrite (rangeAssumption_ok 0 (d - 1) range r Hrange) by lia.
Qed.

(** Where a replaced operation has a value in the iteration, what replaces it
    has the same. *)
Lemma replacement_value rewrite op replacement z :
  rewriteModuloRecurrence loop recurrence residueArg = Some rewrite ->
  (op, replacement) ∈ replacements rewrite -> evn op = Some z ->
  (d <= 2 ^ (bits - 1) \/ bits = 64) ->
  (forall derived b offset c, derived ∈ derivedOps recurrence -> derived_op derived = op ->
     op = op_value b -> matchModuloOffset b recurrence iv = Some offset ->
     getConstantAPInt (offset_value offset) bits = Some c -> offsetSafe offset c) ->
  evn replacement = Some z.
Proof using All.
  intros Hrw Hin Hz Hassume Hsafe. pose proof (col_kind _ Hcol) as Hk.
  destruct iteration_values as (Hiv & Hr & Rr & Rx & Rs).
  destruct recurrence_divisor as [Hd Hds].
  assert (exists bounded, evn bounded = Some r /\ getWaveConstantValueType (typeOf bounded) =
    getWaveConstantValueType type /\ replacements rewrite =
      map (fun op => (op, bounded)) (baseOps recurrence) ++
      map (fun derived => (derived_op derived, createModuloIncrement type bounded kind d (increment derived)))
        (derivedOps recurrence)) as (bounded & Hb & Tb & Er).
  { unfold rewriteModuloRecurrence in Hrw. destruct (Z.leb_spec (d - 1) 9223372036854775807).
    - destruct (rangeAssumption 0 (d - 1)) as [range|] eqn:Erange; [|done]. injection Hrw as <-.
      exists (VAssume residueArg "r" [range]). split; [|done]. apply bounded_value; [done|].
      destruct Hassume as [|E]; [done|]. rewrite E. change (2 ^ (64 - 1)) with 9223372036854775808. lia.
    - injection Hrw as <-. by exists residueArg. }
  rewrite Er, elem_of_app, !list_elem_of_fmap in Hin. destruct Hin as [(b & E & Hin)|(derived & E & Hin)];
    injection E as -> ->.
  - by rewrite (base_value b Hin z Hz).
  - destruct (col_derived _ Hcol derived Hin) as (b & Eb & Hop & Hinc). rewrite Eb in Hz.
    destruct (derived_value b (increment derived) z Hop Hz Hinc) as [-> Hc].
    + intros v Hv. by apply base_value, isBase_inv.
    + intros offset c Hm Ec. by apply (Hsafe derived b).
    + destruct loop_types as (_ & _ & _ & Hbits & _).
      apply modulo_increment; try done; lia.
Qed.
End Iteration.

(** ** Collection *)

Lemma foldl_invariant {A B} (P : A -> Prop) (f : A -> B -> A) (bs : list B) a :
  P a -> (forall a b, b ∈ bs -> P a -> P (f a b)) -> P (foldl f a bs).
Proof using Type.
  revert a. induction bs as [|b bs IH]; intros a Ha Hf; [done|]. simpl.
  apply IH; [apply Hf; [by left|done]|]. intros a' b' Hin. apply Hf. by right.
Qed.

Lemma findModuloRecurrence_lookup recurrences kind d i :
  findModuloRecurrence recurrences kind d = Some i ->
  exists recurrence, recurrences !! i = Some recurrence /\ rec_kind recurrence = kind /\
    rec_divisor recurrence = d.
Proof using Type.
  clear Hfresh. revert i. induction recurrences as [|x rest IH]; intros i Hi; [done|]. simpl in Hi.
  unfold isRecurrence in Hi.
  destruct (bool_decide (rec_kind x = kind) && (rec_divisor x =? d)) eqn:E.
  - injection Hi as <-. apply andb_true_iff in E as [Ek%bool_decide_eq_true Ed%Z.eqb_eq]. by exists x.
  - destruct (findModuloRecurrence rest kind d) as [j|] eqn:Ej; [|done]. injection Hi as <-.
    by apply IH.
Qed.

Context (ops : list BinaryOp) (Hops : Forall (fun op => verified (op_value op) = true) ops).

Lemma baseDivisor_remainder op d :
  op ∈ ops -> getBaseModuloDivisor op loop type bits nonNegative = Some d ->
  remainderBy (op_kind op) d op /\ op_lhs op = iv /\ isModulo (op_kind op) = true /\
  legal (op_kind op).
Proof using Hops.
  intros Hin Hd. rewrite Forall_forall in Hops. specialize (Hops _ Hin).
  unfold getBaseModuloDivisor in Hd. destruct (isModulo (op_kind op)) eqn:Ek; [|done].
  destruct (bool_decide (op_type op = type)) eqn:Et; [|done]. apply bool_decide_eq_true in Et.
  destruct (bool_decide (op_lhs op = iv)) eqn:El; [|done]. apply bool_decide_eq_true in El.
  cbn [negb] in Hd. destruct (getModuloDivisor _ _ _) as [c|] eqn:Ec; [|done].
  destruct (c =? 1); [done|]. destruct (isPowerOf2 c); [done|].
  destruct (isRecurrenceLegal _ _ _) eqn:Elegal; [|done]. injection Hd as <-. done.
Qed.

Lemma base_collected :
  Forall (fun r => collected r /\ derivedOps r = [])
    (foldl (collectBaseModulo loop type bits step nonNegative) [] ops).
Proof using Hops.
  apply foldl_invariant; [done|]. intros recs op Hin Hall. unfold collectBaseModulo.
  destruct (getBaseModuloDivisor op loop type bits nonNegative) as [d|] eqn:Ed; [|done].
  destruct (baseDivisor_remainder op d Hin Ed) as (Hop & El & Ek & Hl).
  destruct (findModuloRecurrence recs (op_kind op) d) as [i|] eqn:Ei.
  - destruct (findModuloRecurrence_lookup _ _ _ _ Ei) as (rec & Hi & Erk & Erd).
    apply Forall_alter; [done|]. intros x Hx [Hc Hnone]. assert (x = rec) as -> by congruence.
    split; [|done]. constructor; simpl; try apply Hc.
    + intros v Hv. apply elem_of_app in Hv as [Hv|Hv]; [by apply (col_base _ Hc)|].
      apply list_elem_of_singleton in Hv as ->. exists op. rewrite Erk, Erd. done.
    + intros derived Hd. rewrite Hnone in Hd. by apply not_elem_of_nil in Hd.
  - apply Forall_app. split; [done|]. apply Forall_singleton. split; [|done].
    constructor; simpl; try done.
    + by exists op.
    + intros v Hv. apply list_elem_of_singleton in Hv as ->. by exists op.
    + intros derived Hd. by apply not_elem_of_nil in Hd.
Qed.

Lemma derived_collected recurrences :
  Forall collected recurrences ->
  Forall collected (foldl (collectDerivedModulo loop type bits nonNegative) recurrences ops).
Proof using Hops.
  intros Hall. apply foldl_invariant; [done|]. clear recurrences Hall. intros recs op Hin Hall.
  pose proof (proj1 (Forall_forall _ _) Hops op Hin) as Hv.
  unfold collectDerivedModulo.
  destruct (findDerivedModuloRecurrence op type bits recs) as [i|] eqn:Ei; [|done].
  destruct (recs !! i) as [rec|] eqn:Hi; [|done].
  destruct (getDerivedModuloIncrement op rec iv nonNegative) as [c|] eqn:Ec; [|done].
  unfold findDerivedModuloRecurrence in Ei.
  destruct (isModulo (op_kind op)) eqn:Ek; [|done].
  destruct (bool_decide (op_type op = type)) eqn:Et; [|done]. apply bool_decide_eq_true in Et.
  cbn [negb orb] in Ei. destruct (getModuloDivisor (op_rhs op) bits (op_kind op)) as [d|] eqn:Ed; [|done].
  destruct (findModuloRecurrence recs (op_kind op) d) as [j|] eqn:Ej; [|done].
  destruct (findModuloRecurrence_lookup _ _ _ _ Ej) as (rec' & Hj & Erk & Erd).
  rewrite Hj in Ei. destruct (isBaseModuloValue (op_value op) rec'); [done|].
  injection Ei as ->. assert (rec' = rec) as -> by congruence.
  apply Forall_alter; [done|]. intros x Hx Hc. assert (x = rec) as -> by congruence.
  constructor; simpl; try apply Hc. intros derived Hd.
  apply elem_of_app in Hd as [Hd|Hd]; [by apply (col_derived _ Hc)|].
  apply list_elem_of_singleton in Hd as ->. exists op. rewrite Erk, Erd. done.
Qed.

Theorem collect_collected recurrence :
  recurrence ∈ collectModuloRecurrences loop ops -> collected recurrence.
Proof using Hops Hstep.
  intros Hin. unfold collectModuloRecurrences in Hin.
  destruct (_ || _); [by apply not_elem_of_nil in Hin|]. rewrite Hstep in Hin.
  pose proof base_collected as Hbase.
  set (recs := foldl (collectBaseModulo _ _ _ _ _) [] ops) in *.
  assert (Forall collected recs) as Hrecs by (eapply Forall_impl; [exact Hbase|by intros x [? _]]).
  pose proof (derived_collected recs Hrecs) as Hall.
  destruct recs; [by apply not_elem_of_nil in Hin|].
  by apply (proj1 (Forall_forall _ _) Hall).
Qed.
End Loop.
