(* ===== verification/QuoCorrect.v ===== *)
(** * What the passes on division and remainder guarantee

    First concrete functions for what the expansion takes from outside: the
    reciprocal rounded down, multipliers rounded up, an analysis that knows
    constants and shifts of one, and range assumptions that say what they
    assume.  Then the guarantees: the expansion computes the operation it
    replaces and verifies, the folds keep values, and the carried residues are
    the remainders; with the inputs for which the code departs from this. *)

From stdpp Require Import base tactics list gmap numbers strings.
From Stdlib Require Import ZArith.
From S2P Require Import Prelude QuoIR QuoExpand QuoEval QuoVerify QuoDivide.
From S2P Require Import QuoFold QuoSpec QuoTyping QuoModulo QuoModuloSpec.

(** ** The reciprocal, rounded down and below [2 ^ 32] *)

Definition floorTarget : WaveTarget := {| urecip := fun y => Z.min (2 ^ 32 / y) (2 ^ 32 - 1) |}.

Lemma floorTarget_ok : @WaveTargetOk floorTarget.
Proof.
  intros y Hy. unfold recipOk. simpl urecip.
  pose proof (Z.div_mod (2 ^ 32) y ltac:(lia)) as Hd. pose proof (Z.mod_pos_bound (2 ^ 32) y ltac:(lia)) as Hm.
  destruct (Z.eq_dec y 1) as [->|H1]; [change (Z.min _ _) with (2 ^ 32 - 1); split_and!; lia|].
  set (q := 2 ^ 32 / y) in *. set (e := 2 ^ 32 mod y) in *.
  assert (0 < q) by (apply Z.div_str_pos; lia).
  assert (2 * q <= y * q) by (apply Z.mul_le_mono_nonneg_r; lia).
  rewrite Z.min_l by lia.
  split_and!; [lia..|]. left. split; [done|].
  replace (2 ^ 32 - y * q) with e by lia.
  transitivity (2 ^ 32 * e); [apply Z.mul_le_mono_nonneg_r|apply Z.mul_le_mono_nonneg_l]; lia.
Qed.

(** ** Multipliers of one bit more than the width, rounded up *)

Definition roundUpMagic (bits divisor : Z) : UnsignedMagic :=
  let log := Z.log2_up divisor in
  mkMagic (2 ^ (bits + log) / divisor + 1 - 2 ^ bits) true 0 (log - 1).
Definition roundUpLLVM : DivLLVM := {| unsignedMagic := roundUpMagic |}.

Lemma roundUpLLVM_ok : @DivLLVMOk roundUpLLVM.
Proof.
  intros bits d Hb Hd _. unfold magicOk. simpl. set (log := Z.log2_up d).
  destruct (Z.log2_up_spec d ltac:(lia)) as [Hlow Hhigh]. fold log in Hlow, Hhigh.
  assert (0 < log) by (apply Z.log2_up_pos; lia).
  assert (log <= bits) by (unfold log; apply Z.log2_up_le_pow2; lia).
  assert (2 ^ log = 2 * 2 ^ Z.pred log) as Hpow
    by (rewrite <-Z.pow_succ_r by lia; f_equal; lia).
  rewrite Z.pow_add_r by lia.
  pose proof (pow2_pos bits ltac:(lia)) as PB. pose proof (pow2_pos log ltac:(lia)) as PL.
  set (B := 2 ^ bits) in *. set (L := 2 ^ log) in *.
  pose proof (Z.div_mod (B * L) d ltac:(lia)) as Hdm.
  pose proof (Z.mod_pos_bound (B * L) d ltac:(lia)) as Hm.
  set (q := B * L / d) in *. set (e := (B * L) mod d) in *.
  assert (B <= q).
  { apply Z.div_le_lower_bound; [lia|]. rewrite Z.mul_comm. apply Z.mul_le_mono_nonneg_l; lia. }
  assert (q < 2 * B - 1).
  { apply Z.div_lt_upper_bound; [lia|].
    assert (B * L <= B * (2 * (d - 1))) by (apply Z.mul_le_mono_nonneg_l; lia). lia. }
  split_and!; try done; try lia. exists d.
  replace (bits + (log - 1) + 1) with (bits + log) by lia. rewrite Z.pow_add_r by lia. fold B L.
  replace ((q + 1 - B + B) * d - B * L) with (d - e) by lia.
  rewrite Z.pow_0_r, Z.sub_0_r. split_and!; [lia..|].
  assert (0 <= largestDividend bits d <= B - 1).
  { unfold largestDividend. fold B. pose proof (Z.mod_pos_bound B d ltac:(lia)).
    pose proof (Z.mod_le B d ltac:(lia) ltac:(lia)).
    split; [|lia]. destruct (Z.eq_dec (B mod d) B) as [E|]; [|lia].
    apply Z.mod_small_iff in E; lia. }
  apply Z.le_lt_trans with ((B - 1) * L); [|lia].
  apply Z.mul_le_mono_nonneg; lia.
Qed.

(** ** An analysis of constants and of shifts of one *)

Definition constantOf (value : WValue) : option Z :=
  if verified value then getConstantAPInt value (elementBits (typeOf value)) else None.

(** [1 << n], also as a splat. *)
Definition isShiftOfOne (value : WValue) : bool :=
  match value with
  | VBinary type BinaryKind.ShLI flags one shift
  | VSplat _ (VBinary type BinaryKind.ShLI flags one shift) =>
      verified (VBinary type BinaryKind.ShLI flags one shift) && bool_decide (constantOf one = Some 1)
  | _ => false
  end.

Definition constantProofs : DivProofs := {|
  provesLowerBound value low :=
    match constantOf value with
    | Some n => low <=? signedValue (elementBits (typeOf value)) n
    | None => false
    end;
  provesI32Range value low :=
    match constantOf value with
    | Some n => (low <=? signedValue (elementBits (typeOf value)) n)
                && (signedValue (elementBits (typeOf value)) n <=? signedI32Max)
    | None => false
    end;
  provesPow2 := isShiftOfOne;
  provesAtMostSignedMin value :=
    match constantOf value with
    | Some n => n <=? 2 ^ (elementBits (typeOf value) - 1)
    | None => false
    end
|}.

Section Proofs.
Context `{WaveTarget} (holds : string -> Assumption) (env : N -> Z).

Lemma constantOf_ev value n x :
  constantOf value = Some n -> eval holds env value = Some x -> n = x.
Proof using Type.
  unfold constantOf. destruct (verified value) eqn:Hv; [|done]. intros Hn Hx.
  destruct (getConstantAPInt_ev holds env value n Hv Hn). congruence.
Qed.

Lemma shiftOfOne_ev type flags one shift x :
  verified (VBinary type BinaryKind.ShLI flags one shift) = true -> constantOf one = Some 1 ->
  eval holds env (VBinary type BinaryKind.ShLI flags one shift) = Some x ->
  exists k, 0 <= k /\ x = 2 ^ k.
Proof using Type.
  intros Hv H1 Hx. pose proof (verified_bits _ Hv) as Hb. simpl in Hv, Hb.
  rewrite !andb_true_iff in Hv. destruct Hv as (_ & _ & Vs). cbn [eval] in Hx.
  destruct (eval holds env one) as [a|] eqn:Ea; simpl mbind in Hx; [|done].
  pose proof (constantOf_ev _ _ _ H1 Ea) as <-.
  destruct (eval holds env shift) as [b|] eqn:Eb; simpl mbind in Hx; [|done].
  pose proof (ev_range holds env _ _ Vs Eb) as Rb.
  match type of Hx with (if ?f then _ else _) = _ => destruct f end; [|done].
  unfold foldWaveBinaryConstants in Hx. simpl in Hx.
  destruct (Z.ltb_spec b (elementBits type)); [|done]. injection Hx as <-.
  exists b. split; [lia|]. rewrite Z.shiftl_1_l. apply toBits_small.
  split; [apply Z.pow_nonneg; lia|]. apply Z.pow_lt_mono_r; lia.
Qed.

Lemma constantProofs_ok : @DivProofsOk _ constantProofs holds env (fun _ => True).
Proof using Type.
  constructor; simpl.
  - intros v low x _ _ Hp Hx. destruct (constantOf v) as [n|] eqn:En; [|done].
    rewrite <-(constantOf_ev _ _ _ En Hx). lia.
  - intros v low x _ _ Hp Hx. destruct (constantOf v) as [n|] eqn:En; [|done].
    rewrite <-(constantOf_ev _ _ _ En Hx). lia.
  - intros v x _ Hp Hx.
    assert (exists type flags one shift,
      verified (VBinary type BinaryKind.ShLI flags one shift) = true /\ constantOf one = Some 1 /\
      eval holds env (VBinary type BinaryKind.ShLI flags one shift) = Some x)
      as (type & flags & one & shift & Hv & H1 & Hx').
    { destruct v as [|t s|t k f l r| | | | | | | | | | | ]; try done.
      - destruct s as [| |t' k f l r| | | | | | | | | | |]; try done. destruct k; try done.
        apply andb_true_iff in Hp as [Hv H1%bool_decide_eq_true]. by exists t', f, l, r.
      - destruct k; try done. simpl in Hp.
        apply andb_true_iff in Hp as [Hv H1%bool_decide_eq_true]. by exists t, f, l, r. }
    by eapply shiftOfOne_ev.
  - intros v x _ Hp Hx. destruct (constantOf v) as [n|] eqn:En; [|done].
    rewrite <-(constantOf_ev _ _ _ En Hx). lia.
Qed.
End Proofs.

(** ** Range assumptions *)

(** A handle per upper bound, of ranges that start at zero. *)
Definition upToRanges : RangeAssumptions :=
  {| rangeAssumption lo hi := if lo =? 0 then Some (Z.to_N hi) else None |}.
Definition upToHolds : string -> Assumption :=
  fun _ pred v => (0 <=? v) && (v <=? Z.of_N pred).

Lemma upToRanges_ok : @RangeAssumptionsOk upToRanges upToHolds.
Proof.
  intros lo hi pred v Hr Hv. simpl in Hr. destruct (Z.eqb_spec lo 0) as [->|]; [|done].
  injection Hr as <-. unfold upToHolds. rewrite Z2N.id by lia. lia.
Qed.

(** ** What the passes on division and remainder guarantee

    The expansion computes the operation it replaces and verifies, the folds
    keep values, and the carried residues are the remainders; with the inputs
    for which the code departs from this. *)

(** ** Expansion *)

(** C4: The expansion of a division or remainder (of an even number of bits up to
    64) has the value of the operation,
    whichever of its branches is taken, wherever the operation has one; but for
    the signed quotient of the smallest 32-bit number and minus one, which the
    division in 32 bits of 64-bit operands does not compute
    ([narrow_division_overflows]). *)
Theorem expansion_computes_operation `{WaveTarget} `{DivLLVM} `{DivProofs} holds env program
    (Htarget : WaveTargetOk) (Hllvm : DivLLVMOk) (Hproofs : DivProofsOk holds env program)
    type kind flags lhs rhs z :
  isDivRem kind = true -> program lhs -> program rhs -> verified (VBinary type kind flags lhs rhs) = true ->
  elementBits type <= 64 -> Z.even (elementBits type) = true ->
  eval holds env (VBinary type kind flags lhs rhs) = Some z ->
  (forall x y, is_Some (createNarrow type kind lhs rhs) ->
     eval holds env lhs = Some x -> eval holds env rhs = Some y -> ~ narrowOverflow kind x y) ->
  eval holds env (expandDivRem type kind lhs rhs) = Some z.
Proof.
  intros Hk Hpl Hpr Hv H64 Heven Hz Hov.
  destruct (operation_defined holds env type kind flags lhs rhs Hk Hv z Hz)
    as (x & y & Hx & Hy & Hy0 & -> & Hxr & Hyr & _).
  apply (expandDivRem_spec holds env program type kind flags lhs rhs Hk Hv H64 Heven x y);
    try done. eauto.
Qed.

(** The normalisation of signed operations keeps the value. *)
Theorem normalization_keeps_value `{WaveTarget} `{DivProofs} holds env program
    (Hproofs : DivProofsOk holds env program) type kind flags lhs rhs z :
  isDivRem kind = true -> program lhs -> program rhs -> verified (VBinary type kind flags lhs rhs) = true ->
  eval holds env (VBinary type kind flags lhs rhs) = Some z ->
  eval holds env (VBinary type (normalizeDivRem kind lhs rhs) flags lhs rhs) = Some z.
Proof. intros. by apply (normalize_spec holds env program). Qed.

(** C9: What the expansion creates verifies, and has the type of the operation, if
    that has at most 64 bits, if the left operand has the type of an operation of
    64 bits, and if an operation with a divisor that is proved a power of two has
    32 or 64 bits.  Without the agreement of the types the expansion of a scalar
    index divided by a SIMD index does not verify
    ([narrow_mixed_types_unverified]). *)
Theorem expansion_verifies `{DivLLVM} `{DivProofs} (Hllvm : DivLLVMOk) type kind flags lhs rhs :
  verified (VBinary type kind flags lhs rhs) = true -> elementBits type <= 64 ->
  (elementBits type = 64 -> typeOf lhs = type) ->
  (provesPow2 rhs = true -> elementBits type = 32 \/ elementBits type = 64) ->
  typeOf (expandDivRem type kind lhs rhs) = type /\
  verified (expandDivRem type kind lhs rhs) = true.
Proof. intros Hv H64 Hl Hp. by apply (expandDivRem_ofT type kind flags lhs rhs). Qed.

(** ** Folds *)

(** C8: What a fold puts in the place of an operation has the value and the type of
    the operation. *)
Theorem folds_keep_values `{WaveTarget} holds env value z r :
  verified value = true -> eval holds env value = Some z -> foldOp value = Some r ->
  replaces holds env (typeOf value) z r.
Proof. intros. by apply foldOp_sound. Qed.

(** ** Residues *)

(** A loop, its arguments and the values it runs with. *)
Record LoopRun `{WaveTarget} (holds : string -> Assumption) (env : N -> Z) (loop : ForLoop)
    (residueId : N) (ops : list BinaryOp) (lb ub step : Z) : Prop := {
  run_verified : verified (inductionVar loop) = true;
  run_width : elementBits (loop_type loop) <= 64;
  run_fresh : residueId <> loop_id loop;
  run_lower : eval holds env (lowerBound loop) = Some lb;
  run_upper : eval holds env (upperBound loop) = Some ub;
  run_step : getPositiveConstant (loop_step loop) (elementBits (loop_type loop)) = Some step;
  run_ops : Forall (fun op => verified (op_value op) = true) ops
}.

(** C7: In every iteration the carried value of a collected recurrence is the
    remainder of the induction variable, which does not wrap. *)
Theorem carried_residue_is_remainder `{WaveTarget} `{DivProofs} `{RangeAssumptions} holds env
    program (Hproofs : DivProofsOk holds env program) loop residueId ops lb ub step recurrence rewrite n :
  program (lowerBound loop) -> program (upperBound loop) ->
  LoopRun holds env loop residueId ops lb ub step ->
  recurrence ∈ collectModuloRecurrences loop ops ->
  rewriteModuloRecurrence loop recurrence (residueArg loop residueId) = Some rewrite ->
  executes loop lb ub step n ->
  residueAt holds env loop residueId lb step rewrite n =
    Some (ivAt loop lb step n mod rec_divisor recurrence) /\
  0 <= ivAt loop lb step n < 2 ^ elementBits (loop_type loop).
Proof.
  intros Hpl Hpu [Hv H64 Hfresh Hlb Hub Hstep Hops] Hin Hrw Hex.
  pose proof (collect_collected loop step Hstep ops Hops recurrence Hin) as Hcol.
  pose proof (col_kind _ _ _ Hcol) as Hk. pose proof (col_legal _ _ _ Hcol) as Hl.
  split; [|by eapply (iv_range holds env program loop Hv lb ub step Hlb Hub Hstep Hpl Hpu)].
  eapply (residue_invariant holds env program loop residueId Hv H64 Hfresh lb ub step Hlb Hub
      Hstep Hpl Hpu); eauto.
  - by apply (recurrence_divisor holds env loop Hv step).
  - by apply Hcol.
Qed.

(** C6: What replaces a remainder has its value in every iteration, if the divisor
    is at most [2^(w-1)] where the width [w] is less than 64, and if the sums of the
    induction variable with a constant that have no unsigned flag are of numbers
    that are not negative.  Neither condition can be left out
    ([modulo_offset_wraps], [residue_range_excludes_residue]). *)
Theorem modulo_replacements_keep_values `{WaveTarget} `{DivProofs} `{RangeAssumptions} holds env
    program (Hproofs : DivProofsOk holds env program) (Hranges : RangeAssumptionsOk holds)
    loop residueId ops lb ub step recurrence rewrite n op replacement z residue :
  program (lowerBound loop) -> program (upperBound loop) ->
  LoopRun holds env loop residueId ops lb ub step ->
  recurrence ∈ collectModuloRecurrences loop ops ->
  rewriteModuloRecurrence loop recurrence (residueArg loop residueId) = Some rewrite ->
  executes loop lb ub step n ->
  residueAt holds env loop residueId lb step rewrite n = Some residue ->
  (op, replacement) ∈ replacements rewrite ->
  let envn := iterationEnv env loop residueId (ivBits loop lb step n) residue in
  eval holds envn op = Some z ->
  (rec_divisor recurrence <= 2 ^ (elementBits (loop_type loop) - 1) \/
   elementBits (loop_type loop) = 64) ->
  (forall b offset c, op = op_value b ->
     matchModuloOffset b recurrence (inductionVar loop) = Some offset ->
     getConstantAPInt (offset_value offset) (elementBits (loop_type loop)) = Some c ->
     offsetSafe loop lb step recurrence n offset c) ->
  eval holds envn replacement = Some z.
Proof.
  intros Hpl Hpu [Hv H64 Hfresh Hlb Hub Hstep Hops] Hin Hrw Hex Hres Hrep envn Hz Hd Hsafe.
  pose proof (collect_collected loop step Hstep ops Hops recurrence Hin) as Hcol.
  pose proof (col_kind _ _ _ Hcol) as Hk. pose proof (col_legal _ _ _ Hcol) as Hl.
  assert (residueAt holds env loop residueId lb step rewrite n =
    Some (ivAt loop lb step n mod rec_divisor recurrence)) as Hinv.
  { eapply (residue_invariant holds env program loop residueId Hv H64 Hfresh lb ub step Hlb Hub
      Hstep Hpl Hpu); eauto.
    - by apply (recurrence_divisor holds env loop Hv step).
    - by apply Hcol. }
  rewrite Hinv in Hres. injection Hres as <-.
  eapply (replacement_value holds env program loop residueId Hv H64 Hfresh lb ub step Hlb Hub Hstep
    Hpl Hpu recurrence Hcol n Hex rewrite op); eauto.
Qed.

(** ** Inputs *)

#[local] Existing Instances floorTarget roundUpLLVM constantProofs upToRanges.

Definition i32T : WType := ScalarT (IntT 32).
Definition indexT : WType := ScalarT IndexT.
Definition simd32T : WType := SimdT (IntT 32) 32.

(** Minus seven divided by two, both arguments. *)
Definition demoEnv : N -> Z := fun id => if decide (id = 0%N) then 4294967289 else 2.
Lemma expansion_computes_operation_witness :
  eval upToHolds demoEnv
    (expandDivRem simd32T BinaryKind.DivSI (VOther simd32T 0) (VOther simd32T 1)) =
  Some 4294967293.
Proof.
  apply (expansion_computes_operation upToHolds demoEnv (fun _ => True) floorTarget_ok roundUpLLVM_ok
    (constantProofs_ok upToHolds demoEnv) simd32T BinaryKind.DivSI noFlags); try reflexivity; try done.
  intros x y [narrow Hn]. vm_compute in Hn. discriminate Hn.
Defined.

Lemma normalization_keeps_value_witness :
  eval upToHolds demoEnv (VBinary i32T BinaryKind.DivUI noFlags (VConst i32T 7) (VConst i32T 2)) =
  Some 3.
Proof.
  apply (normalization_keeps_value upToHolds demoEnv _ (constantProofs_ok upToHolds demoEnv) i32T
    BinaryKind.DivSI noFlags (VConst i32T 7) (VConst i32T 2)); done.
Defined.

Lemma expansion_verifies_witness :
  typeOf (expandDivRem simd32T BinaryKind.RemUI (VOther simd32T 0) (VOther i32T 1)) = simd32T /\
  verified (expandDivRem simd32T BinaryKind.RemUI (VOther simd32T 0) (VOther i32T 1)) = true.
Proof.
  apply (expansion_verifies roundUpLLVM_ok simd32T BinaryKind.RemUI noFlags);
    [reflexivity|vm_compute; discriminate|vm_compute; discriminate|vm_compute; discriminate].
Defined.

Definition demoSum : WValue :=
  VBinary i32T BinaryKind.AddI noFlags (VOther i32T 1) (VConst i32T 0).
Lemma folds_keep_values_witness :
  replaces upToHolds demoEnv i32T 2 (FoldValue (VOther i32T 1)).
Proof. apply (folds_keep_values upToHolds demoEnv demoSum); reflexivity. Defined.

(** [for i = 2 to 20 step 3], with [i mod 5] and [(i + 4) mod 5]. *)
Definition demoLoop : ForLoop :=
  mkLoop i32T 10 false (VConst i32T 2) (VConst i32T 20) (VConst i32T 3).
Definition demoBase : BinaryOp :=
  mkBinaryOp i32T BinaryKind.RemUI noFlags (inductionVar demoLoop) (VConst i32T 5).
Definition demoDerived : BinaryOp :=
  mkBinaryOp i32T BinaryKind.RemUI noFlags
    (VBinary i32T BinaryKind.AddI (mkFlags false true) (inductionVar demoLoop) (VConst i32T 4))
    (VConst i32T 5).
Definition demoRecurrence : ModuloRecurrence :=
  mkRecurrence [op_value demoBase] [mkDerived (op_value demoDerived) 4] 5 3 BinaryKind.RemUI.
Definition demoArg : WValue := residueArg demoLoop 11.
Definition demoBounded : WValue := VAssume demoArg "r" [4%N].
Definition demoRewrite : LoopRewrite :=
  mkRewrite (createBinary i32T BinaryKind.RemUI (VConst i32T 2) (VConst i32T 5))
    (createModuloIncrement i32T demoArg BinaryKind.RemUI 5 3)
    [(op_value demoBase, demoBounded);
     (op_value demoDerived, createModuloIncrement i32T demoBounded BinaryKind.RemUI 5 4)].

Lemma demo_run : LoopRun upToHolds demoEnv demoLoop 11 [demoBase; demoDerived] 2 20 3.
Proof. by repeat constructor. Qed.
Lemma demo_collected :
  collectModuloRecurrences demoLoop [demoBase; demoDerived] = [demoRecurrence].
Proof. reflexivity. Qed.

Lemma carried_residue_is_remainder_witness :
  residueAt upToHolds demoEnv demoLoop 11 2 3 demoRewrite 4 = Some 4.
Proof.
  apply (carried_residue_is_remainder upToHolds demoEnv _ (constantProofs_ok upToHolds demoEnv)
    demoLoop 11 [demoBase; demoDerived] 2 20 3 demoRecurrence demoRewrite 4 I I demo_run);
    [rewrite demo_collected; by left|reflexivity|reflexivity].
Defined.

Lemma modulo_replacements_keep_values_witness :
  eval upToHolds (iterationEnv demoEnv demoLoop 11 (ivBits demoLoop 2 3 4) 4)
    (createModuloIncrement i32T demoBounded BinaryKind.RemUI 5 4) = Some 3.
Proof.
  apply (modulo_replacements_keep_values upToHolds demoEnv _ (constantProofs_ok upToHolds demoEnv)
    upToRanges_ok demoLoop 11 [demoBase; demoDerived] 2 20 3 demoRecurrence demoRewrite 4
    (op_value demoDerived)); try reflexivity; try exact demo_run.
  - rewrite demo_collected. by left.
  - right. by left.
  - left. vm_compute. discriminate.
  - intros [t k f l r] offset c Eb Hm _ _ _. left. injection Eb. intros. subst.
    injection Hm as <-. reflexivity.
Defined.

(** ** Where the code departs from this *)

(** The smallest 32-bit number divided by minus one, as indices: the quotient
    is a number of the index type, and the division in 32 bits negates it. *)
Definition minI32 : WValue := VConst indexT 18446744071562067968.
Definition minusOne : WValue := VConst indexT 18446744073709551615.
Example narrow_division_overflows :
  verified (VBinary indexT BinaryKind.DivSI noFlags minI32 minusOne) = true /\
  eval upToHolds demoEnv (VBinary indexT BinaryKind.DivSI noFlags minI32 minusOne) =
    Some 2147483648 /\
  eval upToHolds demoEnv (expandDivRem indexT BinaryKind.DivSI minI32 minusOne) =
    Some 18446744071562067968.
Proof. split_and!; reflexivity. Qed.

(** A scalar index divided by a splat: the operations in 32 bits are scalar. *)
Example narrow_mixed_types_unverified :
  let lhs := VConst indexT 100 in
  let rhs := VSplat (SimdT IndexT 32) (VConst indexT 7) in
  verified (VBinary (SimdT IndexT 32) BinaryKind.DivUI noFlags lhs rhs) = true /\
  verified (expandDivRem (SimdT IndexT 32) BinaryKind.DivUI lhs rhs) = false.
Proof. split; reflexivity. Qed.

(** [for i = 1 to 4]: [(i - 1) mod 3] with a signed flag only is replaced by the
    residue of [i] advanced by the residue of [2 ^ 32 - 1]. *)
Definition wrapLoop : ForLoop :=
  mkLoop i32T 10 false (VConst i32T 1) (VConst i32T 4) (VConst i32T 1).
Definition wrapBase : BinaryOp :=
  mkBinaryOp i32T BinaryKind.RemUI noFlags (inductionVar wrapLoop) (VConst i32T 3).
Definition wrapDerived : BinaryOp :=
  mkBinaryOp i32T BinaryKind.RemUI noFlags
    (VBinary i32T BinaryKind.AddI (mkFlags true false) (inductionVar wrapLoop)
       (VConst i32T 4294967295))
    (VConst i32T 3).
Example modulo_offset_wraps :
  exists recurrence rewrite replacement,
    collectModuloRecurrences wrapLoop [wrapBase; wrapDerived] = [recurrence] /\
    rewriteModuloRecurrence wrapLoop recurrence (residueArg wrapLoop 11) = Some rewrite /\
    residueAt upToHolds demoEnv wrapLoop 11 1 1 rewrite 0 = Some 1 /\
    (op_value wrapDerived, replacement) ∈ replacements rewrite /\
    let envn := iterationEnv demoEnv wrapLoop 11 (ivBits wrapLoop 1 1 0) 1 in
    eval upToHolds envn (op_value wrapDerived) = Some 0 /\
    eval upToHolds envn replacement = Some 1.
Proof.
  eexists _, _, _. split; [reflexivity|]. split; [reflexivity|]. split; [reflexivity|].
  split; [right; left|]. split; reflexivity.
Qed.

(** The residue by [3 * 10 ^ 9] of a loop over unsigned 32-bit numbers, in an
    iteration where as a signed number it is negative, outside the range that
    the rewriting assumes of it. *)
Definition wideLoop : ForLoop :=
  mkLoop i32T 10 true (VConst i32T 0) (VConst i32T 4294967295) (VConst i32T 1250000000).
Definition wideBase : BinaryOp :=
  mkBinaryOp i32T BinaryKind.RemUI noFlags (inductionVar wideLoop) (VConst i32T 3000000000).
Example residue_range_excludes_residue :
  exists recurrence rewrite replacement,
    collectModuloRecurrences wideLoop [wideBase] = [recurrence] /\
    rewriteModuloRecurrence wideLoop recurrence (residueArg wideLoop 11) = Some rewrite /\
    executes wideLoop 0 4294967295 1250000000 2 /\
    residueAt upToHolds demoEnv wideLoop 11 0 1250000000 rewrite 2 = Some 2500000000 /\
    (op_value wideBase, replacement) ∈ replacements rewrite /\
    let envn := iterationEnv demoEnv wideLoop 11 (ivBits wideLoop 0 1250000000 2) 2500000000 in
    eval upToHolds envn (op_value wideBase) = Some 2500000000 /\
    eval upToHolds envn replacement = None.
Proof.
  eexists _, _, _. split; [reflexivity|]. split; [reflexivity|]. split; [reflexivity|].
  split; [reflexivity|]. split; [left|]. split; reflexivity.
Qed.
