(* ===== verification/QuoSymbols.v ===== *)
(** * Symbolic facts about values

    The expressions and predicates behind [sym::Store] ([WaveSymbols.cpp]), which
    are nodes of the library ixsimpl, and the predicates that a value brings with
    it ([appendAssumePredicates] and what it calls, of [Wave.cpp]). *)

From stdpp Require Import base tactics list gmap numbers strings.
From Stdlib Require Import ZArith.
From S2P Require Import Prelude QuoIR QuoExpand.

(** ** Nodes *)

Module ExprBinaryOp.
Inductive t : Set := Add | Sub | Mul | Div | Mod | Xor | And | Or | Max | Min.
End ExprBinaryOp.

Module PredCmpOp.
Inductive t : Set := Lt | Le | Gt | Ge | Eq | Ne.
#[global] Instance t_eq_dec : EqDecision t.
Proof. solve_decision. Defined.
End PredCmpOp.

Module CheckResult.
Inductive t : Set := True | False | Unknown.
#[global] Instance t_eq_dec : EqDecision t.
Proof. solve_decision. Defined.
End CheckResult.

Module Pow2Fact.
Inductive t : Set := Unknown | OrZero | Positive.
#[global] Instance t_eq_dec : EqDecision t.
Proof. solve_decision. Defined.
End Pow2Fact.

Record RationalEndpoint : Set := mkEndpoint { numerator : Z; denominator : Z }.
Record InferredRange : Set := mkInferred {
  range_lower : option RationalEndpoint;
  range_upper : option RationalEndpoint
}.

(** What [PredView] shows of a predicate; a predicate is named by a handle. *)
Inductive PredView (Expr : Type) : Type :=
  | PredCmp (op : PredCmpOp.t) (lhs rhs : Expr)
  | PredAnd (args : list N)
  | PredOr (args : list N)
  | PredOther.
Arguments PredCmp {Expr}.
Arguments PredAnd {Expr}.
Arguments PredOr {Expr}.
Arguments PredOther {Expr}.

(** The library: nodes are made by [ixs_sym] and its like, and a set of facts is
    made of a list of predicates ([ixs_facts] fails on some of them). *)
Class SymLibrary := {
  Expr : Type;
  ixs_sym : string -> Expr;
  ixs_int : Z -> Expr;
  ixs_binary : ExprBinaryOp.t -> Expr -> Expr -> Expr;
  ixs_cmp : PredCmpOp.t -> Expr -> Expr -> N;
  ixs_and : N -> N -> N;
  ixs_or : N -> N -> N;
  ixs_subs : N -> Expr -> Expr -> N;
  ixs_range : Expr -> list N -> option InferredRange;
  ixs_get_pow2_fact : Expr -> list N -> Pow2Fact.t;
  predView : N -> PredView Expr;
  ixs_facts_create : list N -> bool;
  ixs_range_facts : list N -> Expr -> option InferredRange;
  ixs_check_facts : list N -> N -> CheckResult.t;
  ixs_check_predicate_facts : list N -> N -> CheckResult.t;
  ixs_equivalent_facts : list N -> Expr -> Expr -> CheckResult.t
}.

(** [IndexExprOp]: an expression over names that are bound to values. *)
Record IndexExprOp `{SymLibrary} : Type := mkIndexExpr {
  ie_expr : Expr;
  ie_names : list string;
  ie_bindings : list WValue;
  ie_assumptions : list N
}.

(** [ConstantIntRanges], without the smallest unsigned number. *)
Record ConstantIntRanges : Set := mkRanges {
  rangeBits : Z;
  umax : Z;
  smin : Z;
  smax : Z
}.

(** What a function has beside its values: the operation of every [VIndexExpr],
    how deep these nest, and the answers of MLIR's analysis of integer ranges. *)
Class FunctionFacts `{SymLibrary} := {
  indexExprOf : N -> IndexExprOp;
  indexExprDepth : nat;
  integerRange : WValue -> option ConstantIntRanges
}.

(** ** Endpoints *)

Definition compareEndpointToInteger (value : RationalEndpoint) (integer : Z) : Z :=
  let rhs := integer * denominator value in
  if numerator value <? rhs then -1 else if rhs <? numerator value then 1 else 0.

(** Division that rounds to zero, corrected. *)
Definition floorEndpoint (value : RationalEndpoint) : option Z :=
  if denominator value <=? 0 then None
  else
    let quotient := Z.quot (numerator value) (denominator value) in
    let remainder := Z.rem (numerator value) (denominator value) in
    Some (if negb (remainder =? 0) && (numerator value <? 0) then quotient - 1 else quotient).
Definition ceilEndpoint (value : RationalEndpoint) : option Z :=
  if denominator value <=? 0 then None
  else
    let quotient := Z.quot (numerator value) (denominator value) in
    let remainder := Z.rem (numerator value) (denominator value) in
    Some (if negb (remainder =? 0) && (0 <? numerator value) then quotient + 1 else quotient).

Definition hasLowerBoundAtLeast (range : InferredRange) (lower : Z) : bool :=
  match range_lower range with
  | Some endpoint => 0 <=? compareEndpointToInteger endpoint lower
  | None => false
  end.
Definition hasUpperBoundAtMost (range : InferredRange) (upper : Z) : bool :=
  match range_upper range with
  | Some endpoint => compareEndpointToInteger endpoint upper <=? 0
  | None => false
  end.

Section Symbols.
Context `{SymLibrary}.

Definition inferRange (expr : Expr) (assumptions : list N) : option InferredRange :=
  ixs_range expr assumptions.

(** ** Checks ([Analysis]) *)

(** [Analysis::check], of an analysis made of [facts]. *)
Definition check (facts : list N) (pred : N) : CheckResult.t :=
  match predView pred with
  | PredCmp PredCmpOp.Eq lhs rhs => ixs_equivalent_facts facts lhs rhs
  | PredCmp PredCmpOp.Ne lhs rhs =>
      match ixs_equivalent_facts facts lhs rhs with
      | CheckResult.True => CheckResult.False
      | CheckResult.False => CheckResult.True
      | CheckResult.Unknown => CheckResult.Unknown
      end
  | PredCmp _ _ _ => ixs_check_facts facts pred
  | _ => ixs_check_predicate_facts facts pred
  end.

Definition checkPredicate (pred : N) (assumptions : list N) : CheckResult.t :=
  if ixs_facts_create assumptions then check assumptions pred else CheckResult.Unknown.

Definition inferredRangeWithin (facts : list N) (expr : Expr) (lower upper : Z) : bool :=
  match ixs_range_facts facts expr with
  | Some range => hasLowerBoundAtLeast range lower && hasUpperBoundAtMost range upper
  | None => false
  end.
Definition proveRangePredicates (facts : list N) (expr : Expr) (lower upper : Z) : bool :=
  bool_decide (check facts (ixs_cmp PredCmpOp.Ge expr (ixs_int lower)) = CheckResult.True)
  && bool_decide (check facts (ixs_cmp PredCmpOp.Le expr (ixs_int upper)) = CheckResult.True).
Definition provablyInRange (expr : Expr) (assumptions : list N) (lower upper : Z) : bool :=
  ixs_facts_create assumptions
  && (inferredRangeWithin assumptions expr lower upper
      || proveRangePredicates assumptions expr lower upper).

(** [sym::rangeAssumption]. *)
Definition rangePredicate (name : string) (lo hi : Z) : N :=
  let symbol := ixs_sym name in
  ixs_and (ixs_cmp PredCmpOp.Ge symbol (ixs_int lo)) (ixs_cmp PredCmpOp.Le symbol (ixs_int hi)).

(** ** Lists of predicates *)

Definition appendUniquePredicate (predicates : list N) (pred : N) : list N :=
  if bool_decide (pred ∈ predicates) then predicates else predicates ++ [pred].

Definition isPredicateImplied (pred : N) (assumptions : list N) : bool :=
  bool_decide (pred ∈ assumptions)
  || bool_decide (checkPredicate pred assumptions = CheckResult.True).

Definition appendIndexExprPredicates (op : IndexExprOp) (assumptions : list N) : list N :=
  foldl appendUniquePredicate assumptions (ie_assumptions op).

Definition composeLogicPredicate (compose : N -> N -> N) (first : N) (rest : list N) : N :=
  foldl compose first rest.

(** The parts that the facts do not contradict; [None]: none is left.  The
    children of a node are older than the node, so that its number is fuel
    enough. *)
Fixpoint removeContradictedParts (fuel : nat) (facts : list N) (pred : N) : option N :=
  let prune compose args :=
    match fuel with
    | O => Some pred
    | S fuel =>
        let kept := map (removeContradictedParts fuel facts) args in
        match omap id kept with
        | [] => None
        | first :: rest =>
            if bool_decide (kept = map Some args) then Some pred
            else Some (composeLogicPredicate compose first rest)
        end
    end in
  match predView pred with
  | PredAnd args => prune ixs_and args
  | PredOr args => prune ixs_or args
  | _ => if bool_decide (check facts pred = CheckResult.False) then None else Some pred
  end.
Definition removeContradictedPredicateParts (facts : list N) (pred : N) : option N :=
  removeContradictedParts (S (N.to_nat pred)) facts pred.

Definition dropPredicatesContradictedBy (trusted : N) (assumptions : list N) : list N :=
  if negb (ixs_facts_create [trusted]) then assumptions
  else
    foldl (fun filtered pred =>
      if decide (pred = trusted) then appendUniquePredicate filtered pred
      else
        match removeContradictedPredicateParts [trusted] pred with
        | Some kept => appendUniquePredicate filtered kept
        | None => filtered
        end) [] assumptions.

(** ** Ranges of results *)

Definition fitsSignedWidth (value bits : Z) : bool :=
  (64 <=? bits) || ((- 2 ^ (bits - 1) <=? value) && (value <? 2 ^ (bits - 1))).

(** The width and the signed bounds of the range. *)
Definition buildIndexExprResultRange (expr : Expr) (resultType : WType) (assumptions : list N) :
    option (Z * Z * Z) :=
  match inferRange expr assumptions with
  | Some (mkInferred (Some lower) (Some upper)) =>
      match floorEndpoint lower, ceilEndpoint upper with
      | Some lo, Some hi =>
          let bits := elementBits resultType in
          if (bits =? 0) || negb (fitsSignedWidth lo bits) || negb (fitsSignedWidth hi bits)
          then None
          else Some (bits, lo, hi)
      | _, _ => None
      end
  | _ => None
  end.

(** [getSExtI64] has no number that does not fit 64 bits. *)
Definition buildIndexExprRangeAssumption (name : string) (bits lo hi : Z) : option N :=
  let fits x := (- 2 ^ 63 <=? x) && (x <? 2 ^ 63) in
  if (bits =? 0) || negb (fits lo && fits hi) then None
  else Some (rangePredicate name lo hi).

Fixpoint stripIndexExprRangeWrappers (value : WValue) : WValue :=
  match value with VSplat _ source => stripIndexExprRangeWrappers source | _ => value end.

(** ** Predicates of values *)

(** The loop of [appendAssumePredicatesImpl]: the predicates of a chain of
    assumptions, about [name]; and the value behind the chain. *)
Fixpoint appendAssumeChain (binding : WValue) (name : string) (assumptions : list N) :
    list N * WValue :=
  match binding with
  | VAssume source target preds =>
      appendAssumeChain source name
        (foldl (fun assumptions pred =>
           appendUniquePredicate assumptions
             (ixs_subs pred (ixs_sym target) (ixs_sym name))) assumptions preds)
  | _ => (assumptions, binding)
  end.

Context `{!FunctionFacts}.

(** [range] is the one of [buildIndexExprProducerRange]. *)
Definition appendIndexExprProducerRangePredicate (range : option (Z * Z * Z)) (name : string)
    (assumptions : list N) : list N :=
  match range with
  | None => assumptions
  | Some (bits, lo, hi) =>
      match buildIndexExprRangeAssumption name bits lo hi with
      | None => assumptions
      | Some assumption =>
          let assumptions := dropPredicatesContradictedBy assumption assumptions in
          if isPredicateImplied assumption assumptions then assumptions
          else appendUniquePredicate assumptions assumption
      end
  end.

(** [appendAssumePredicates] and [buildIndexExprProducerRange] call each other,
    once for every [index_expr] within the bindings of another: [depth]. *)
Fixpoint appendAssumePredicatesImpl (depth : nat) (binding : WValue) (name : string)
    (assumptions : list N) : list N :=
  let '(assumptions, binding) := appendAssumeChain binding name assumptions in
  let range :=
    match depth, stripIndexExprRangeWrappers binding with
    | S depth, VIndexExpr type id =>
        let producer := indexExprOf id in
        buildIndexExprResultRange (ie_expr producer) type
          (foldl (fun assumptions '(name, binding) =>
             appendAssumePredicatesImpl depth binding name assumptions)
             (appendIndexExprPredicates producer [])
             (zip (ie_names producer) (ie_bindings producer)))
    | _, _ => None
    end in
  appendIndexExprProducerRangePredicate range name assumptions.
Definition appendAssumePredicates (binding : WValue) (name : string) (assumptions : list N) :
    list N :=
  appendAssumePredicatesImpl indexExprDepth binding name assumptions.
End Symbols.
