(* ===== verification/QuoProve.v ===== *)
(** * The search for proofs

    What the passes on division find out about a value, from its definition, from
    assumptions, from index expressions, from loops and from the ranges of MLIR's
    analysis; in the order of [WaveExpandIntegerDivRem.cpp]. *)

From stdpp Require Import base tactics list gmap numbers strings pretty.
From Stdlib Require Import ZArith.
From S2P Require Import Prelude QuoIR QuoExpand QuoSymbols.

(** ** Ranges *)

(** [APInt(bits, value, /*isSigned=*/true)], as a signed number. *)
Definition signedOfWidth (bits value : Z) : Z := signedValue bits (toBits bits value).

Definition isFullSignedRange (range : ConstantIntRanges) : bool :=
  let width := rangeBits range in
  (width =? 0)
  || ((smin range =? - 2 ^ (width - 1)) && (smax range =? 2 ^ (width - 1) - 1)).

(** The largest 32-bit number, in another width. *)
Definition upperBoundOfWidth (width : Z) : Z :=
  signedValue width (sextOrTrunc 32 width signedI32Max).

Definition isSignedI32RangeWithLowerBound (range : ConstantIntRanges) (lower : Z) : bool :=
  let width := rangeBits range in
  (signedOfWidth width lower <=? smin range) && (smax range <=? upperBoundOfWidth width).

Definition isConstantInSignedI32RangeWithLowerBound (bits constant lower : Z) : bool :=
  (signedOfWidth bits lower <=? signedValue bits constant)
  && (signedValue bits constant <=? upperBoundOfWidth bits).

Definition isConstantPositive (value : WValue) : bool :=
  let bits := elementBits (typeOf value) in
  match getConstantAPInt value bits with
  | Some constant => 0 <? signedValue bits constant
  | None => false
  end.

Definition isSignedIndexCastFromNoWiderInt (value : WValue) (bits : Z) : bool :=
  match value with
  | VIndexCast _ source =>
      match scalarElementType (typeOf source) with
      | ScalarT (IntT width) => width <=? bits
      | _ => false
      end
  | _ => false
  end.

Definition isNonNegativeWaveId (value : WValue) : bool :=
  match value with VWaveId _ _ => true | _ => false end.

Section Search.
Context `{SymLibrary} `{!FunctionFacts}.

Definition finiteSignedRange (value : WValue) : option ConstantIntRanges :=
  match integerRange value with
  | Some range => if isFullSignedRange range then None else Some range
  | None => None
  end.

(** ** Assumptions *)

(** [isAssumedAtLeast] and [isAssumedAtMost] differ in the test of the range. *)
Fixpoint isAssumed (test : InferredRange -> bool) (value : WValue) : bool :=
  match value with
  | VAssume source name preds =>
      (match inferRange (ixs_sym name) (appendAssumePredicates source name preds) with
       | Some range => test range
       | None => false
       end) || isAssumed test source
  | _ => false
  end.
Definition isAssumedAtLeast (value : WValue) (lower : Z) : bool :=
  isAssumed (fun range => hasLowerBoundAtLeast range lower) value.
Definition isAssumedAtMost (value : WValue) (upper : Z) : bool :=
  isAssumed (fun range => hasUpperBoundAtMost range upper) value.

Definition isIndexExprProven (test : InferredRange -> bool) (value : WValue) : bool :=
  match value with
  | VIndexExpr _ id =>
      let index := indexExprOf id in
      let assumptions :=
        foldl (fun assumptions '(name, binding) =>
                 appendAssumePredicates binding name assumptions)
          (appendIndexExprPredicates index [])
          (zip (ie_names index) (ie_bindings index)) in
      match inferRange (ie_expr index) assumptions with
      | Some range => test range
      | None => false
      end
  | _ => false
  end.
Definition isIndexExprProvenAtLeast (value : WValue) (lower : Z) : bool :=
  isIndexExprProven (fun range => hasLowerBoundAtLeast range lower) value.
Definition isIndexExprProvenAtMost (value : WValue) (upper : Z) : bool :=
  isIndexExprProven (fun range => hasUpperBoundAtMost range upper) value.

(** ** Bounds *)

Fixpoint isProvenSignedUpperBound (value : WValue) (upper : Z) : bool :=
  match value with
  | VSplat _ source => isProvenSignedUpperBound source upper
  | _ =>
      let bits := elementBits (typeOf value) in
      match getConstantAPInt value bits with
      | Some constant => signedValue bits constant <=? signedOfWidth bits upper
      | None =>
          isAssumedAtMost value upper || isIndexExprProvenAtMost value upper
          || match finiteSignedRange value with
             | Some range => smax range <=? signedOfWidth (rangeBits range) upper
             | None => false
             end
      end
  end.

(** [isProvenUnsignedUpperAtMostSignedMin] of a value whose lower bounds are
    [lowerBound]. *)
Definition unsignedUpperAtMostSignedMin (lowerBound : Z -> bool) (value : WValue) : bool :=
  let bits := elementBits (typeOf value) in
  match getConstantAPInt value bits with
  | Some constant => constant <=? 2 ^ (bits - 1)
  | None =>
      (match integerRange value with
       | Some range => umax range <=? 2 ^ (bits - 1)
       | None => false
       end)
      || (lowerBound 0 && isProvenSignedUpperBound value (2 ^ (bits - 1) - 1))
  end.

(** With the functions that call it back written out: they follow below, and
    [isProvenSignedLowerBound_equation] folds them. *)
Fixpoint isProvenSignedLowerBound (value : WValue) (lower : Z) : bool :=
  let fromDef :=
    match value with
    | VSplat _ source => isProvenSignedLowerBound source lower
    | VIndexCast type source =>
        (lower <=? 0)
        && (if elementBits (typeOf source) <=? elementBits type
            then isProvenSignedLowerBound source lower
            else
              match source with
              | VLoopIv _ _ unsignedCmp lowerBound upperBound step =>
                  negb unsignedCmp && isConstantPositive step
                  && isProvenSignedLowerBound lowerBound 0
                  && isSignedIndexCastFromNoWiderInt upperBound (elementBits type)
              | _ => false
              end)
    | _ => (lower <=? 0) && isNonNegativeWaveId value
    end in
  let isScfForIvProvenAtLeast :=
    match value with
    | VLoopIv _ _ unsignedCmp lowerBound upperBound step =>
        isConstantPositive step && isProvenSignedLowerBound lowerBound lower
        && (negb unsignedCmp
            || (fix isProvenUnsignedUpperAtMostSignedMin value :=
                  match value with
                  | VSplat _ source => isProvenUnsignedUpperAtMostSignedMin source
                  | _ => unsignedUpperAtMostSignedMin (isProvenSignedLowerBound value) value
                  end) upperBound)
    | _ => false
    end in
  let bits := elementBits (typeOf value) in
  fromDef
  || match getConstantAPInt value bits with
     | Some constant => signedOfWidth bits lower <=? signedValue bits constant
     | None =>
         isAssumedAtLeast value lower || isIndexExprProvenAtLeast value lower
         || isScfForIvProvenAtLeast
         || match finiteSignedRange value with
            | Some range => signedOfWidth (rangeBits range) lower <=? smin range
            | None => false
            end
     end.

Fixpoint isProvenUnsignedUpperAtMostSignedMin (value : WValue) : bool :=
  match value with
  | VSplat _ source => isProvenUnsignedUpperAtMostSignedMin source
  | _ => unsignedUpperAtMostSignedMin (isProvenSignedLowerBound value) value
  end.

Definition isScfForIvProvenAtLeast (value : WValue) (lower : Z) : bool :=
  match value with
  | VLoopIv _ _ unsignedCmp lowerBound upperBound step =>
      isConstantPositive step && isProvenSignedLowerBound lowerBound lower
      && (negb unsignedCmp || isProvenUnsignedUpperAtMostSignedMin upperBound)
  | _ => false
  end.

Definition isNarrowSignedIndexCastOfNonNegativeLoopIv (type : WType) (source : WValue)
    (lower : Z) : bool :=
  (lower <=? 0)
  && (if elementBits (typeOf source) <=? elementBits type
      then isProvenSignedLowerBound source lower
      else
        match source with
        | VLoopIv _ _ unsignedCmp lowerBound upperBound step =>
            negb unsignedCmp && isConstantPositive step
            && isProvenSignedLowerBound lowerBound 0
            && isSignedIndexCastFromNoWiderInt upperBound (elementBits type)
        | _ => false
        end).

Definition isProvenSignedLowerBoundFromDef (value : WValue) (lower : Z) : bool :=
  match value with
  | VSplat _ source => isProvenSignedLowerBound source lower
  | VIndexCast type source => isNarrowSignedIndexCastOfNonNegativeLoopIv type source lower
  | _ => (lower <=? 0) && isNonNegativeWaveId value
  end.

Definition isProvenSignedLowerBoundByPredicate (value : WValue) (lower : Z) : bool :=
  isAssumedAtLeast value lower || isIndexExprProvenAtLeast value lower
  || isScfForIvProvenAtLeast value lower.

Lemma isProvenSignedLowerBound_equation value lower :
  isProvenSignedLowerBound value lower =
    isProvenSignedLowerBoundFromDef value lower
    || match getConstantAPInt value (elementBits (typeOf value)) with
       | Some constant =>
           signedOfWidth (elementBits (typeOf value)) lower
             <=? signedValue (elementBits (typeOf value)) constant
       | None =>
           isProvenSignedLowerBoundByPredicate value lower
           || match finiteSignedRange value with
              | Some range => signedOfWidth (rangeBits range) lower <=? smin range
              | None => false
              end
       end.
Proof. by destruct value. Qed.

(** ** Queries *)

(** [DynamicDivisorQueryBuilder], and [DynamicDivisorQuery] beside its result. *)
Record QueryState : Type := mkQuery {
  assumptions : list N;
  reserved : gmap string WValue;
  byValue : list (WValue * string)
}.

Fixpoint lookupValue (value : WValue) (names : list (WValue * string)) : option string :=
  match names with
  | [] => None
  | (other, name) :: rest => if decide (other = value) then Some name else lookupValue value rest
  end.

(** The first of [stem_0], [stem_1] and so on that is free; one of as many as
    there are names, and one more, is. *)
Fixpoint freshFrom (fuel : nat) (stem : string) (reserved : gmap string WValue)
    (nextIndex : N) : string :=
  let candidate := (stem +:+ "_" +:+ pretty nextIndex)%string in
  match fuel, reserved !! candidate with
  | S fuel, Some _ => freshFrom fuel stem reserved (nextIndex + 1)
  | _, _ => candidate
  end.
Definition getFreshIndexExprBindingName (stem : string) (reserved : gmap string WValue) : string :=
  freshFrom (size reserved) stem reserved 0.

Definition reserveIndexExprBindingName (requested : string) (value : WValue)
    (state : QueryState) : string * QueryState :=
  match lookupValue value (byValue state) with
  | Some name => (name, state)
  | None =>
      let name :=
        match reserved state !! requested with
        | Some other =>
            if decide (other = value) then requested
            else getFreshIndexExprBindingName requested (reserved state)
        | None => requested
        end in
      (name, mkQuery (assumptions state) (<[name := value]> (reserved state))
               ((value, name) :: byValue state))
  end.

Definition bindSymbol (value : WValue) (state : QueryState) : Expr * QueryState :=
  let stem := match value with VAssume _ name _ => name | _ => "d"%string end in
  let '(name, state) := reserveIndexExprBindingName stem value state in
  (ixs_sym name,
   mkQuery (appendAssumePredicates value name (assumptions state)) (reserved state)
     (byValue state)).

Definition convertBinaryKind (kind : BinaryKind.t) (flags : OverflowFlags) :
    option ExprBinaryOp.t :=
  let noSignedWrap op := if flag_nsw flags then Some op else None in
  match kind with
  | BinaryKind.AddI => noSignedWrap ExprBinaryOp.Add
  | BinaryKind.SubI => noSignedWrap ExprBinaryOp.Sub
  | BinaryKind.MulI => noSignedWrap ExprBinaryOp.Mul
  | BinaryKind.XOrI => Some ExprBinaryOp.Xor
  | _ => None
  end.

(** The constant shift that [buildShiftExpr] accepts. *)
Definition shiftAmount (flags : OverflowFlags) (rhs : WValue) : option Z :=
  let bits := elementBits (typeOf rhs) in
  if negb (flag_nsw flags) then None
  else
    match getConstantAPInt rhs bits with
    | Some shift => if (signedValue bits shift <? 0) || (63 <=? shift) then None else Some shift
    | None => None
    end.

Fixpoint buildValueExpr (depth : Z) (value : WValue) (state : QueryState) :
    option (Expr * QueryState) :=
  if 8 <? depth then None
  else
    let bits := elementBits (typeOf value) in
    match getConstantAPInt value bits with
    | Some constant => Some (ixs_int (signedValue bits constant), state)
    | None =>
        match value with
        | VSplat _ source => buildValueExpr (depth + 1) source state
        | VBinary _ BinaryKind.ShLI flags lhs rhs =>
            match shiftAmount flags rhs with
            | None => None
            | Some shift =>
                match buildValueExpr (depth + 1) lhs state with
                | None => None
                | Some (lhs, state) =>
                    Some (ixs_binary ExprBinaryOp.Mul lhs (ixs_int (Z.shiftl 1 shift)), state)
                end
            end
        | VBinary _ kind flags lhs rhs =>
            match convertBinaryKind kind flags with
            | None => None
            | Some op =>
                match buildValueExpr (depth + 1) lhs state with
                | None => None
                | Some (lhs, state) =>
                    match buildValueExpr (depth + 1) rhs state with
                    | None => None
                    | Some (rhs, state) => Some (ixs_binary op lhs rhs, state)
                    end
                end
            end
        | _ => Some (bindSymbol value state)
        end
    end.
Definition buildQuery (value : WValue) : option (Expr * list N) :=
  match buildValueExpr 0 value (mkQuery [] ∅ []) with
  | Some (expr, state) => Some (expr, assumptions state)
  | None => None
  end.

Fixpoint isProvenSignedI32RangeWithLowerBound (value : WValue) (lower : Z) : bool :=
  match value with
  | VSplat _ source => isProvenSignedI32RangeWithLowerBound source lower
  | _ =>
      let bits := elementBits (typeOf value) in
      match getConstantAPInt value bits with
      | Some constant => isConstantInSignedI32RangeWithLowerBound bits constant lower
      | None =>
          (match finiteSignedRange value with
           | Some range => isSignedI32RangeWithLowerBound range lower
           | None => false
           end)
          || (isProvenSignedLowerBound value lower && isProvenSignedUpperBound value signedI32Max)
          || match buildQuery value with
             | Some (expr, assumptions) => provablyInRange expr assumptions lower signedI32Max
             | None => false
             end
      end
  end.

Definition isProvenPositivePow2 (value : WValue) : bool :=
  match buildQuery value with
  | Some (expr, assumptions) =>
      bool_decide (ixs_get_pow2_fact expr assumptions = Pow2Fact.Positive)
  | None => false
  end.

(** What the passes are given. *)
#[export] Instance searchProofs : DivProofs := {|
  provesLowerBound := isProvenSignedLowerBound;
  provesI32Range := isProvenSignedI32RangeWithLowerBound;
  provesPow2 := isProvenPositivePow2;
  provesAtMostSignedMin := isProvenUnsignedUpperAtMostSignedMin
|}.
End Search.
