(* ===== verification/QuoSymbolsSpec.v ===== *)
(** * What the symbolic facts mean

    The meaning of expressions and predicates ([SymMeaning]), what the library
    promises of it ([SymLibraryOk]), and that the predicates collected of a value
    hold of it ([appendAssumePredicates_sound]). *)

From stdpp Require Import base tactics list gmap numbers strings.
From Stdlib Require Import ZArith.
From S2P Require Import Prelude QuoIR QuoExpand QuoEval QuoVerify QuoSymbols.

(** ** The library *)

(** What an endpoint bounds; [None] does not bound. *)
Definition atLeastEndpoint (endpoint : option RationalEndpoint) (q : Z) : Prop :=
  match endpoint with
  | Some e => 0 < denominator e /\ numerator e <= q * denominator e
  | None => True
  end.
Definition atMostEndpoint (endpoint : option RationalEndpoint) (q : Z) : Prop :=
  match endpoint with
  | Some e => 0 < denominator e /\ q * denominator e <= numerator e
  | None => True
  end.
Definition inRange (range : InferredRange) (q : Z) : Prop :=
  atLeastEndpoint (range_lower range) q /\ atMostEndpoint (range_upper range) q.

Definition exactBinary (op : ExprBinaryOp.t) (x y : Z) : option Z :=
  match op with
  | ExprBinaryOp.Add => Some (x + y)
  | ExprBinaryOp.Sub => Some (x - y)
  | ExprBinaryOp.Mul => Some (x * y)
  | ExprBinaryOp.Xor => Some (Z.lxor x y)
  | _ => None
  end.
Definition compares (op : PredCmpOp.t) (x y : Z) : bool :=
  match op with
  | PredCmpOp.Lt => x <? y
  | PredCmpOp.Le => x <=? y
  | PredCmpOp.Gt => y <? x
  | PredCmpOp.Ge => y <=? x
  | PredCmpOp.Eq => x =? y
  | PredCmpOp.Ne => negb (x =? y)
  end.

Definition Valuation : Type := string -> Z.
Definition rename (v : Valuation) (target replacement : string) : Valuation :=
  fun name => if decide (name = target) then v replacement else v name.

(** [denote]: the integer that an expression stands for, if it does; the error
    nodes that the library makes are [broken]. *)
Class SymMeaning `{SymLibrary} := {
  denote : Valuation -> Expr -> option Z;
  satisfied : Valuation -> N -> bool;
  equalValues : Valuation -> Expr -> Expr -> bool;
  exprBroken : Expr -> bool;
  predBroken : N -> bool;
  mentions : N -> list string
}.
Definition allSatisfied `{SymMeaning} (v : Valuation) (preds : list N) : Prop :=
  Forall (fun pred => satisfied v pred = true) preds.

Class SymLibraryOk `{SymMeaning} : Prop := {
  sym_denotes v name : denote v (ixs_sym name) = Some (v name);
  int_denotes v n : - 2 ^ 63 <= n < 2 ^ 63 -> denote v (ixs_int n) = Some n;
  broken_denotes v e : exprBroken e = true -> denote v e = None;
  binary_broken op a b :
    exprBroken (ixs_binary op a b) = false -> exprBroken a = false /\ exprBroken b = false;
  binary_denotes v op a b x y z :
    exprBroken (ixs_binary op a b) = false -> denote v a = Some x -> denote v b = Some y ->
    exactBinary op x y = Some z -> denote v (ixs_binary op a b) = Some z;
  cmp_broken op a b : predBroken (ixs_cmp op a b) = exprBroken a || exprBroken b;
  cmp_satisfied v op a b x y :
    denote v a = Some x -> denote v b = Some y -> satisfied v (ixs_cmp op a b) = compares op x y;
  and_sound p q : predBroken p = false -> predBroken q = false ->
    predBroken (ixs_and p q) = false /\
    forall v, satisfied v (ixs_and p q) = satisfied v p && satisfied v q;
  or_sound p q : predBroken p = false -> predBroken q = false ->
    predBroken (ixs_or p q) = false /\
    forall v, satisfied v (ixs_or p q) = satisfied v p || satisfied v q;
  view_and p args : predView p = PredAnd args -> args <> [] /\
    Forall (fun arg => predBroken arg = false /\ (arg < p)%N) args /\
    forall v, satisfied v p = forallb (satisfied v) args;
  view_or p args : predView p = PredOr args ->
    Forall (fun arg => predBroken arg = false /\ (arg < p)%N) args /\
    forall v, satisfied v p = existsb (satisfied v) args;
  view_cmp v p op a b : predView p = PredCmp op a b ->
    match op with
    | PredCmpOp.Eq => satisfied v p = equalValues v a b
    | PredCmpOp.Ne => satisfied v p = negb (equalValues v a b)
    | _ => True
    end;
  subs_satisfied v p target replacement :
    satisfied v (ixs_subs p (ixs_sym target) (ixs_sym replacement)) =
      satisfied (rename v target replacement) p;
  mentions_satisfied v w p :
    (forall name, name ∈ mentions p -> v name = w name) -> satisfied v p = satisfied w p;
  range_sound e preds range : ixs_range e preds = Some range ->
    exprBroken e = false /\
    forall v q, allSatisfied v preds -> denote v e = Some q -> inRange range q;
  pow2_sound e preds : ixs_get_pow2_fact e preds = Pow2Fact.Positive ->
    exprBroken e = false /\
    forall v q, allSatisfied v preds -> denote v e = Some q -> exists k, 0 <= k /\ q = 2 ^ k;
  range_facts_sound facts e range :
    ixs_facts_create facts = true -> ixs_range_facts facts e = Some range ->
    exprBroken e = false /\
    forall v q, allSatisfied v facts -> denote v e = Some q -> inRange range q;
  check_facts_sound facts p v : ixs_facts_create facts = true -> allSatisfied v facts ->
    match ixs_check_facts facts p with
    | CheckResult.True => satisfied v p = true
    | CheckResult.False => satisfied v p = false
    | CheckResult.Unknown => True
    end;
  check_predicate_facts_sound facts p v :
    ixs_facts_create facts = true -> allSatisfied v facts ->
    match ixs_check_predicate_facts facts p with
    | CheckResult.True => satisfied v p = true
    | CheckResult.False => satisfied v p = false
    | CheckResult.Unknown => True
    end;
  equivalent_facts_sound facts a b v :
    ixs_facts_create facts = true -> allSatisfied v facts ->
    match ixs_equivalent_facts facts a b with
    | CheckResult.True => equalValues v a b = true
    | CheckResult.False => equalValues v a b = false
    | CheckResult.Unknown => True
    end;
  check_valid facts p : ixs_facts_create facts = true ->
    check facts p = CheckResult.True -> predBroken p = false
}.

(** What a predicate of an assumption says of the number it is about. *)
Definition holdsOf `{SymMeaning} : string -> Assumption :=
  fun _ pred value => satisfied (fun _ => value) pred.

(** ** Endpoints *)

Lemma hasLowerBoundAtLeast_sound range lower q :
  hasLowerBoundAtLeast range lower = true -> inRange range q -> lower <= q.
Proof.
  unfold hasLowerBoundAtLeast, compareEndpointToInteger. destruct range as [[e|] u]; [|done].
  simpl. intros Ht [[Hd Hl] _]. simpl in *.
  assert (lower * denominator e <= numerator e)
    by (destruct (Z.ltb_spec (numerator e) (lower * denominator e)); [done|lia]).
  apply (Z.mul_le_mono_pos_r _ _ (denominator e)); lia.
Qed.
Lemma hasUpperBoundAtMost_sound range upper q :
  hasUpperBoundAtMost range upper = true -> inRange range q -> q <= upper.
Proof.
  unfold hasUpperBoundAtMost, compareEndpointToInteger. destruct range as [l [e|]]; [|done].
  simpl. intros Ht [_ [Hd Hl]]. simpl in *.
  assert (numerator e <= upper * denominator e).
  { destruct (Z.ltb_spec (numerator e) (upper * denominator e)); [lia|].
    by destruct (Z.ltb_spec (upper * denominator e) (numerator e)); [|lia]. }
  apply (Z.mul_le_mono_pos_r _ _ (denominator e)); lia.
Qed.

(** Division that rounds to zero, by a positive number. *)
Lemma quot_rem_pos n d : 0 < d ->
  n = d * Z.quot n d + Z.rem n d /\ (0 <= n -> 0 <= Z.rem n d < d) /\
  (n <= 0 -> - d < Z.rem n d <= 0).
Proof.
  intros Hd. split; [apply Z.quot_rem'|]. split; intros Hn.
  - by apply Z.rem_bound_pos.
  - pose proof (Z.rem_bound_pos (- n) d ltac:(lia) Hd) as Hr. rewrite Z.rem_opp_l in Hr by lia. lia.
Qed.

Lemma floorEndpoint_spec e :
  0 < denominator e -> floorEndpoint e = Some (numerator e / denominator e).
Proof.
  intros Hd. unfold floorEndpoint. destruct (Z.leb_spec (denominator e) 0); [lia|]. f_equal.
  destruct (quot_rem_pos (numerator e) (denominator e) Hd) as (E & Hp & Hn).
  revert E Hp Hn. generalize (Z.quot (numerator e) (denominator e)) (Z.rem (numerator e) (denominator e)).
  intros q r E Hp Hn. destruct (Z.eqb_spec r 0) as [->|], (Z.ltb_spec (numerator e) 0); simpl;
    first [apply Z.div_unique_pos with r; lia | apply Z.div_unique_pos with (r + denominator e); lia
          | apply Z.div_unique_pos with 0; lia].
Qed.
Lemma ceilEndpoint_spec e :
  0 < denominator e -> ceilEndpoint e = Some (- (- numerator e / denominator e)).
Proof.
  intros Hd. unfold ceilEndpoint. destruct (Z.leb_spec (denominator e) 0); [lia|]. f_equal.
  destruct (quot_rem_pos (numerator e) (denominator e) Hd) as (E & Hp & Hn).
  revert E Hp Hn. generalize (Z.quot (numerator e) (denominator e)) (Z.rem (numerator e) (denominator e)).
  intros q r E Hp Hn. apply Z.opp_inj. rewrite Z.opp_involutive.
  destruct (Z.eqb_spec r 0) as [->|], (Z.ltb_spec 0 (numerator e)); simpl;
    first [apply Z.div_unique_pos with (- r); lia | apply Z.div_unique_pos with (denominator e - r); lia
          | apply Z.div_unique_pos with 0; lia].
Qed.

Lemma inRange_integers lower upper q :
  inRange (mkInferred (Some lower) (Some upper)) q ->
  exists lo hi, floorEndpoint lower = Some lo /\ ceilEndpoint upper = Some hi /\ lo <= q <= hi.
Proof.
  intros [[Hdl Hl] [Hdu Hu]]; simpl in *. eexists _, _.
  split; [by apply floorEndpoint_spec|]. split; [by apply ceilEndpoint_spec|]. split.
  - apply Z.div_le_upper_bound; lia.
  - assert (- numerator upper / denominator upper <= - q); [|lia].
    apply Z.div_le_upper_bound; lia.
Qed.

(** ** Checks and lists of predicates *)

Section Symbols.
Context `{Hok : SymLibraryOk}.
#[local] Set Default Proof Using "All".

Lemma not_broken v e q : denote v e = Some q -> exprBroken e = false.
Proof.
  intros Hq. destruct (exprBroken e) eqn:Hb; [|done]. apply (broken_denotes v) in Hb. congruence.
Qed.

Lemma check_sound facts p v : ixs_facts_create facts = true -> allSatisfied v facts ->
  match check facts p with
  | CheckResult.True => satisfied v p = true
  | CheckResult.False => satisfied v p = false
  | CheckResult.Unknown => True
  end.
Proof.
  intros Hf Hs. unfold check. destruct (predView p) as [op a b|args|args|] eqn:Hp;
    try by apply check_predicate_facts_sound.
  pose proof (view_cmp v p op a b Hp) as Hv.
  destruct op; try by apply check_facts_sound.
  - rewrite Hv. by apply equivalent_facts_sound.
  - pose proof (equivalent_facts_sound facts a b v Hf Hs) as He. rewrite Hv.
    destruct (ixs_equivalent_facts facts a b); by try rewrite He.
Qed.

Lemma isPredicateImplied_sound p preds v :
  isPredicateImplied p preds = true -> allSatisfied v preds -> satisfied v p = true.
Proof.
  unfold isPredicateImplied, checkPredicate. intros Hi Hs.
  apply orb_true_iff in Hi as [Hi%bool_decide_eq_true|Hi%bool_decide_eq_true].
  - unfold allSatisfied in Hs. rewrite Forall_forall in Hs. by apply Hs.
  - destruct (ixs_facts_create preds) eqn:Hf; [|done].
    pose proof (check_sound preds p v Hf Hs) as Hc. by rewrite Hi in Hc.
Qed.

Lemma appendUnique_sound preds p v :
  allSatisfied v preds -> satisfied v p = true -> allSatisfied v (appendUniquePredicate preds p).
Proof.
  intros Hs Hp. unfold appendUniquePredicate. case_bool_decide; [done|].
  apply Forall_app. by repeat constructor.
Qed.
Lemma appendAll_sound preds new v :
  allSatisfied v preds -> allSatisfied v new -> allSatisfied v (foldl appendUniquePredicate preds new).
Proof.
  intros Hs Hn. revert preds Hs. induction Hn as [|p new Hp Hn IH]; simpl; intros preds Hs; [done|].
  apply IH. by apply appendUnique_sound.
Qed.

(** A chain of conjunctions or disjunctions. *)
Lemma compose_and_sound first rest :
  Forall (fun p => predBroken p = false) (first :: rest) ->
  predBroken (composeLogicPredicate ixs_and first rest) = false /\
  forall v, satisfied v (composeLogicPredicate ixs_and first rest) =
            forallb (satisfied v) (first :: rest).
Proof.
  unfold composeLogicPredicate. revert first. induction rest as [|p rest IH]; intros first Hall; simpl.
  - apply Forall_cons_1 in Hall as [Hb _]. split; [done|]. intros v. by rewrite andb_true_r.
  - apply Forall_cons_1 in Hall as [Hb [Hp Hr]%Forall_cons_1].
    destruct (and_sound first p Hb Hp) as [Hab Has]. destruct (IH (ixs_and first p)) as [Hib His].
    { by constructor. }
    split; [done|]. intros v. rewrite His. simpl. by rewrite Has, andb_assoc.
Qed.
Lemma compose_or_sound first rest :
  Forall (fun p => predBroken p = false) (first :: rest) ->
  predBroken (composeLogicPredicate ixs_or first rest) = false /\
  forall v, satisfied v (composeLogicPredicate ixs_or first rest) =
            existsb (satisfied v) (first :: rest).
Proof.
  unfold composeLogicPredicate. revert first. induction rest as [|p rest IH]; intros first Hall; simpl.
  - apply Forall_cons_1 in Hall as [Hb _]. split; [done|]. intros v. by rewrite orb_false_r.
  - apply Forall_cons_1 in Hall as [Hb [Hp Hr]%Forall_cons_1].
    destruct (or_sound first p Hb Hp) as [Hab Has]. destruct (IH (ixs_or first p)) as [Hib His].
    { by constructor. }
    split; [done|]. intros v. rewrite His. simpl. by rewrite Has, orb_assoc.
Qed.

(** What is left of a predicate that holds holds. *)
Definition weakened (v : Valuation) (p : N) (kept : option N) : Prop :=
  (satisfied v p = true -> exists k, kept = Some k /\ satisfied v k = true) /\
  (predBroken p = false -> forall k, kept = Some k -> predBroken k = false).

Lemma weakened_self v p : weakened v p (Some p).
Proof. split; [eauto|]. by intros ? ? [= ->]. Qed.

Lemma weakened_kept v (f : N -> option N) args :
  Forall (fun arg => predBroken arg = false) args -> (forall arg, weakened v arg (f arg)) ->
  let kept := omap id (map f args) in
  Forall (fun k => predBroken k = false) kept /\
  (forallb (satisfied v) args = true ->
   forallb (satisfied v) kept = true /\ (args <> [] -> kept <> [])) /\
  (existsb (satisfied v) args = true -> existsb (satisfied v) kept = true).
Proof.
  intros Hb Hw. induction Hb as [|arg args Harg Hb IH]; simpl in *; [done|].
  destruct IH as (IHb & IHa & IHo). destruct (Hw arg) as [Hsat Hnot].
  destruct (f arg) as [k|] eqn:Ek; simpl.
  - specialize (Hnot Harg k eq_refl). split; [by constructor|]. split.
    + rewrite !andb_true_iff. intros [H1 H2]. destruct (Hsat H1) as (k' & [= <-] & Hk).
      split; [|done]. split; [done|]. by apply IHa.
    + rewrite !orb_true_iff. intros [H1|H1]; [|by right; apply IHo].
      destruct (Hsat H1) as (k' & [= <-] & Hk). by left.
  - split; [done|]. split.
    + rewrite andb_true_iff. intros [H1 _]. by destruct (Hsat H1) as (? & ? & _).
    + rewrite orb_true_iff. intros [H1|H1]; [|by apply IHo].
      by destruct (Hsat H1) as (? & ? & _).
Qed.

Lemma removeContradictedParts_sound facts v :
  ixs_facts_create facts = true -> allSatisfied v facts ->
  forall fuel p, weakened v p (removeContradictedParts fuel facts p).
Proof.
  intros Hf Hs fuel. induction fuel as [|fuel IH]; intros p; simpl;
    destruct (predView p) as [op a b|args|args|] eqn:Hp; try apply weakened_self;
    try (case_bool_decide as Hc; [|apply weakened_self];
         pose proof (check_sound facts p v Hf Hs) as Hck; rewrite Hc in Hck;
         split; [by rewrite Hck|done]).
  - destruct (view_and p args Hp) as (Hargs0 & Hargs & Hsat).
    destruct (weakened_kept v (removeContradictedParts fuel facts) args) as (Hb & Ha & _).
    { eapply Forall_impl; [exact Hargs|]. by intros ? []. } { done. }
    destruct (omap id (map _ args)) as [|first rest] eqn:Ek.
    + split; [|done]. rewrite Hsat. intros Hall. destruct (Ha Hall) as [_ Hne].
      by destruct (Hne Hargs0).
    + case_bool_decide; [apply weakened_self|].
      destruct (compose_and_sound first rest Hb) as [Hcb Hcs].
      split; [|by intros _ k [= <-]]. rewrite Hsat. intros Hall. eexists. split; [done|].
      rewrite Hcs. by apply Ha.
  - destruct (view_or p args Hp) as [Hargs Hsat].
    destruct (weakened_kept v (removeContradictedParts fuel facts) args) as (Hb & _ & Ho).
    { eapply Forall_impl; [exact Hargs|]. by intros ? []. } { done. }
    destruct (omap id (map _ args)) as [|first rest] eqn:Ek.
    + split; [|done]. rewrite Hsat. intros Hall. by apply Ho in Hall.
    + case_bool_decide; [apply weakened_self|].
      destruct (compose_or_sound first rest Hb) as [Hcb Hcs].
      split; [|by intros _ k [= <-]]. rewrite Hsat. intros Hall. eexists. split; [done|].
      rewrite Hcs. by apply Ho.
Qed.

Lemma removeContradicted_sound facts p v :
  ixs_facts_create facts = true -> allSatisfied v facts -> satisfied v p = true ->
  exists k, removeContradictedPredicateParts facts p = Some k /\ satisfied v k = true.
Proof. intros Hf Hs Hp. by apply (removeContradictedParts_sound facts v Hf Hs). Qed.

Lemma dropPredicatesContradictedBy_sound trusted preds v :
  satisfied v trusted = true -> allSatisfied v preds ->
  allSatisfied v (dropPredicatesContradictedBy trusted preds).
Proof.
  intros Ht Hs. unfold dropPredicatesContradictedBy.
  destruct (ixs_facts_create [trusted]) eqn:Hf; simpl; [|done].
  set (facts := [trusted]) in *. assert (allSatisfied v facts) as Hfs by by repeat constructor.
  clearbody facts. assert (allSatisfied v []) as Hnil by constructor.
  revert Hnil. generalize (@nil N).
  induction Hs as [|p preds Hp Hs IH]; simpl; intros kept Hk; [done|]. apply IH.
  case_decide; [by apply appendUnique_sound|].
  destruct (removeContradicted_sound facts p v Hf Hfs Hp) as (k & -> & Hkk).
  by apply appendUnique_sound.
Qed.

Lemma rangePredicate_sound name lo hi v :
  - 2 ^ 63 <= lo < 2 ^ 63 -> - 2 ^ 63 <= hi < 2 ^ 63 ->
  satisfied v (rangePredicate name lo hi) = (lo <=? v name) && (v name <=? hi).
Proof.
  intros Hlo Hhi. unfold rangePredicate.
  pose proof (sym_denotes v name) as Dn. pose proof (int_denotes v lo Hlo) as Dl.
  pose proof (int_denotes v hi Hhi) as Dh.
  destruct (and_sound (ixs_cmp PredCmpOp.Ge (ixs_sym name) (ixs_int lo))
    (ixs_cmp PredCmpOp.Le (ixs_sym name) (ixs_int hi))) as [_ ->];
    [rewrite cmp_broken; by rewrite (not_broken _ _ _ Dn), ?(not_broken _ _ _ Dl), ?(not_broken _ _ _ Dh)..|].
  by rewrite !(cmp_satisfied v _ _ _ _ _ Dn Dl), !(cmp_satisfied v _ _ _ _ _ Dn Dh).
Qed.
End Symbols.

(** ** Values *)

(** The operands of the operation that defines a value. *)
Definition operandsOf (value : WValue) : list WValue :=
  match value with
  | VSplat _ source | VURecip _ source | VCtz _ source | VCast _ _ source
  | VIndexCast _ source | VAssume source _ _ => [source]
  | VBinary _ _ _ lhs rhs | VCmp _ _ lhs rhs => [lhs; rhs]
  | VSelect _ condition trueValue falseValue => [condition; trueValue; falseValue]
  | VLoopIv _ _ _ lowerBound upperBound step => [lowerBound; upperBound; step]
  | _ => []
  end.

Section Program.
Context `{Hok : SymLibraryOk} `{!FunctionFacts} `{WaveTarget} (env : N -> Z).
#[local] Set Default Proof Using "All".
Abbreviation ev := (eval holdsOf env).

(** A value as a signed number. *)
Definition signedOf (value : WValue) : option Z :=
  signedValue (elementBits (typeOf value)) <$> ev value.

(** The bounds of a loop around the values of one of its iterations. *)
Definition iterates (unsignedCmp : bool) (bits lb ub iv : Z) : Prop :=
  if unsignedCmp then lb <= iv < ub
  else signedValue bits lb <= signedValue bits iv < signedValue bits ub.

(** The values of a function at a point of its run: verified, of 64 bits at most,
    closed under operands, numbers of lanes and workgroups not negative, induction variables
    within their loops, and index expressions with the values of their
    expressions. *)
Record ProgramOk (program : WValue -> Prop) : Prop := {
  program_verified value : program value -> verified value = true;
  program_width value : program value -> elementBits (typeOf value) <= 64;
  program_operands value operand :
    program value -> operand ∈ operandsOf value -> program operand;
  program_assumes source name preds pred mentioned :
    program (VAssume source name preds) -> pred ∈ preds -> mentioned ∈ mentions pred ->
    mentioned = name;
  program_waveId type id z : program (VWaveId type id) ->
    signedOf (VWaveId type id) = Some z -> 0 <= z;
  program_loopIv type id unsignedCmp lowerBound upperBound step iv :
    program (VLoopIv type id unsignedCmp lowerBound upperBound step) ->
    ev (VLoopIv type id unsignedCmp lowerBound upperBound step) = Some iv ->
    exists lb ub, ev lowerBound = Some lb /\ ev upperBound = Some ub /\
      iterates unsignedCmp (elementBits type) lb ub iv;
  program_ranges value x range : program value -> ev value = Some x ->
    integerRange value = Some range ->
    rangeBits range = elementBits (typeOf value) /\ x <= umax range /\
    smin range <= signedValue (elementBits (typeOf value)) x <= smax range;
  program_bindings type id binding : program (VIndexExpr type id) ->
    binding ∈ ie_bindings (indexExprOf id) -> program binding;
  program_indexExpr type id z : program (VIndexExpr type id) ->
    signedOf (VIndexExpr type id) = Some z ->
    exists v, denote v (ie_expr (indexExprOf id)) = Some z /\
      allSatisfied v (ie_assumptions (indexExprOf id)) /\
      forall name binding,
        (name, binding) ∈ zip (ie_names (indexExprOf id)) (ie_bindings (indexExprOf id)) ->
        signedOf binding = Some (v name)
}.

Context (program : WValue -> Prop) (Hprogram : ProgramOk program).

Lemma signedOf_splat type source z :
  program (VSplat type source) -> signedOf (VSplat type source) = Some z ->
  signedOf source = Some z.
Proof.
  intros Hp. unfold signedOf. pose proof (program_verified _ Hprogram _ Hp) as Hv.
  cbn [verified] in Hv. rewrite !andb_true_iff in Hv. destruct Hv as (_ & Hs & _).
  unfold verifySplat in Hs. destruct type as [|element width|]; try done.
  apply bool_decide_eq_true in Hs. by rewrite Hs.
Qed.

(** An assumption has the value of its source, for which its predicates hold. *)
Lemma signedOf_assume source name preds z :
  signedOf (VAssume source name preds) = Some z ->
  signedOf source = Some z /\ Forall (fun pred => holdsOf name pred z = true) preds.
Proof.
  unfold signedOf. cbn [eval typeOf]. destruct (ev source) as [a|]; simpl; [|done].
  destruct (forallb _ preds) eqn:Hall; [|done]. simpl. intros [= <-]. split; [done|].
  rewrite Forall_forall. intros p Hp.
  rewrite forallb_forall in Hall. apply Hall. by apply list_elem_of_In.
Qed.

(** The predicates of an assumption, for any name that stands for its value. *)
Lemma assume_satisfied source name preds z v pred :
  program (VAssume source name preds) -> signedOf (VAssume source name preds) = Some z ->
  pred ∈ preds -> v name = z -> satisfied v pred = true.
Proof.
  intros Hp Hz Hpred Hv. apply signedOf_assume in Hz as [_ Hall].
  rewrite Forall_forall in Hall. specialize (Hall _ Hpred). unfold holdsOf in Hall.
  rewrite <-Hall. apply mentions_satisfied. intros m Hm.
  by rewrite (program_assumes _ Hprogram _ _ _ _ _ Hp Hpred Hm).
Qed.

Lemma appendAssumeChain_sound binding name preds z v :
  program binding -> signedOf binding = Some z -> v name = z -> allSatisfied v preds ->
  let '(preds', source) := appendAssumeChain binding name preds in
  allSatisfied v preds' /\ program source /\ signedOf source = Some z.
Proof.
  revert preds. induction binding as [| | | | | | | | |source IH target new| | | |];
    intros preds Hp Hz Hv Hs; try done. cbn [appendAssumeChain]. apply IH.
  - by apply (program_operands _ Hprogram _ _ Hp), list_elem_of_here.
  - by apply signedOf_assume in Hz as [Hz _].
  - done.
  - rewrite <-(foldl_fmap appendUniquePredicate). apply appendAll_sound; [done|].
    apply Forall_fmap, Forall_forall. intros p Hin. simpl. rewrite subs_satisfied.
    apply (assume_satisfied _ _ _ z (rename v target name) _ Hp Hz Hin).
    unfold rename. by rewrite decide_True.
Qed.

Lemma resultRange_sound expr type preds v q bits lo hi :
  buildIndexExprResultRange expr type preds = Some (bits, lo, hi) ->
  allSatisfied v preds -> denote v expr = Some q -> lo <= q <= hi.
Proof.
  unfold buildIndexExprResultRange, inferRange.
  destruct (ixs_range expr preds) as [[[lower|] [upper|]]|] eqn:Hr; try done. intros Hb Hs Hq.
  destruct (range_sound _ _ _ Hr) as [_ Hin].
  destruct (inRange_integers _ _ _ (Hin v q Hs Hq)) as (l & h & Hl & Hh & Hlh).
  rewrite Hl, Hh in Hb. destruct (_ || _); [done|]. by injection Hb as <- <- <-.
Qed.

Lemma producerRange_sound range name preds v :
  (forall bits lo hi, range = Some (bits, lo, hi) -> lo <= v name <= hi) ->
  allSatisfied v preds -> allSatisfied v (appendIndexExprProducerRangePredicate range name preds).
Proof.
  unfold appendIndexExprProducerRangePredicate, buildIndexExprRangeAssumption.
  intros Hr Hs. destruct range as [[[bits lo] hi]|]; [|done].
  destruct ((bits =? 0) || _) eqn:Eb; [done|]. specialize (Hr _ _ _ eq_refl).
  rewrite orb_false_iff, negb_false_iff, !andb_true_iff, !Z.leb_le, !Z.ltb_lt in Eb.
  destruct Eb as (_ & (? & ?) & ? & ?).
  assert (satisfied v (rangePredicate name lo hi) = true) as Hsat
    by (rewrite rangePredicate_sound by lia; lia).
  pose proof (dropPredicatesContradictedBy_sound _ _ v Hsat Hs) as Hd.
  destruct (isPredicateImplied _ _); [done|]. by apply appendUnique_sound.
Qed.

Lemma stripWrappers_sound value z :
  program value -> signedOf value = Some z ->
  program (stripIndexExprRangeWrappers value) /\
  signedOf (stripIndexExprRangeWrappers value) = Some z.
Proof.
  induction value as [|type source IH| | | | | | | | | | | |]; try done. cbn. intros Hp Hz.
  apply IH; [by apply (program_operands _ Hprogram _ _ Hp), list_elem_of_here|].
  by eapply signedOf_splat.
Qed.

(** What is collected of an index expression holds where the expression has the
    value of the operation. *)
Lemma indexExpr_sound (append : WValue -> string -> list N -> list N) type id z :
  (forall binding name preds x v, program binding -> signedOf binding = Some x -> v name = x ->
     allSatisfied v preds -> allSatisfied v (append binding name preds)) ->
  program (VIndexExpr type id) -> signedOf (VIndexExpr type id) = Some z ->
  exists v, denote v (ie_expr (indexExprOf id)) = Some z /\
    allSatisfied v
      (foldl (fun preds '(name, binding) => append binding name preds)
         (appendIndexExprPredicates (indexExprOf id) [])
         (zip (ie_names (indexExprOf id)) (ie_bindings (indexExprOf id)))).
Proof.
  intros Happ Hp Hz. destruct (program_indexExpr _ Hprogram _ _ _ Hp Hz) as (v & Hq & Hs & Hb).
  exists v. split; [done|].
  assert (allSatisfied v (appendIndexExprPredicates (indexExprOf id) [])) as Hinit
    by (apply appendAll_sound; [constructor|done]).
  assert (forall name binding,
    (name, binding) ∈ zip (ie_names (indexExprOf id)) (ie_bindings (indexExprOf id)) ->
    program binding) as Hpb.
  { intros name binding Hin. apply (program_bindings _ Hprogram _ _ _ Hp).
    by apply elem_of_zip_r in Hin. }
  revert Hinit. generalize (appendIndexExprPredicates (indexExprOf id) []).
  induction (zip (ie_names (indexExprOf id)) (ie_bindings (indexExprOf id)))
    as [|[name binding] rest IH]; simpl; intros preds Hpreds; [done|].
  apply IH; [by intros; apply Hb; right|by intros; eapply Hpb; right|].
  apply (Happ _ _ _ (v name)); [by eapply Hpb; left|by apply Hb; left|done|done].
Qed.

Lemma appendAssumePredicatesImpl_sound depth binding name preds z v :
  program binding -> signedOf binding = Some z -> v name = z -> allSatisfied v preds ->
  allSatisfied v (appendAssumePredicatesImpl depth binding name preds).
Proof.
  revert binding name preds z v. induction depth as [|depth IH]; intros binding name preds z v Hp Hz Hv Hs;
    cbn [appendAssumePredicatesImpl];
    pose proof (appendAssumeChain_sound binding name preds z v Hp Hz Hv Hs) as Hc;
    destruct (appendAssumeChain binding name preds) as [preds' source]; destruct Hc as (Hs' & Hps & Hzs).
  - by apply producerRange_sound.
  - apply producerRange_sound; [|done]. intros bits lo hi Hr.
    destruct (stripWrappers_sound source z Hps Hzs) as [Hpw Hzw].
    destruct (stripIndexExprRangeWrappers source) as [| | | | | | | | | | | |type id|]; try done.
    destruct (indexExpr_sound (appendAssumePredicatesImpl depth) type id z) as (w & Hq & Hw);
      [intros; by eapply IH|done|done|].
    rewrite Hv. by eapply resultRange_sound.
Qed.

Lemma appendAssumePredicates_sound binding name preds z v :
  program binding -> signedOf binding = Some z -> v name = z -> allSatisfied v preds ->
  allSatisfied v (appendAssumePredicates binding name preds).
Proof. apply appendAssumePredicatesImpl_sound. Qed.
End Program.

(** ** Depth *)

(** The index expression behind a binding. *)
Definition producerOf `{SymLibrary} (binding : WValue) : option N :=
  match stripIndexExprRangeWrappers (snd (appendAssumeChain binding EmptyString [])) with
  | VIndexExpr _ id => Some id
  | _ => None
  end.

Section Depth.
Context `{SymLibrary} `{!FunctionFacts}.

Lemma chain_source binding name name' preds preds' :
  snd (appendAssumeChain binding name preds) = snd (appendAssumeChain binding name' preds').
Proof.
  revert preds preds'. induction binding as [| | | | | | | | |source IH target new| | | |];
    intros preds preds'; try done. cbn [appendAssumeChain]. apply IH.
Qed.

(** More depth than the index expressions behind a binding nest changes
    nothing. *)
Lemma appendAssumePredicatesImpl_depth (rank : N -> nat) :
  (forall id binding id', binding ∈ ie_bindings (indexExprOf id) ->
     producerOf binding = Some id' -> (rank id' < rank id)%nat) ->
  forall depth binding name preds extra,
  (forall id, producerOf binding = Some id -> (rank id < depth)%nat) ->
  appendAssumePredicatesImpl (depth + extra) binding name preds =
    appendAssumePredicatesImpl depth binding name preds.
Proof.
  intros Hrank depth. induction depth as [|depth IH]; intros binding name preds extra Hd.
  - unfold producerOf in Hd. rewrite (chain_source binding _ name _ preds) in Hd.
    destruct extra; [done|]. cbn [Nat.add appendAssumePredicatesImpl].
    destruct (appendAssumeChain binding name preds) as [preds' source]. simpl in Hd.
    destruct (stripIndexExprRangeWrappers source) as [| | | | | | | | | | | |type id|]; try done.
    specialize (Hd id eq_refl). lia.
  - unfold producerOf in Hd. rewrite (chain_source binding _ name _ preds) in Hd.
    cbn [Nat.add appendAssumePredicatesImpl].
    destruct (appendAssumeChain binding name preds) as [preds' source]. simpl in Hd. f_equal.
    destruct (stripIndexExprRangeWrappers source) as [| | | | | | | | | | | |type id|]; try done.
    f_equal. specialize (Hd id eq_refl).
    assert (forall name b, (name, b) ∈ zip (ie_names (indexExprOf id)) (ie_bindings (indexExprOf id)) ->
      b ∈ ie_bindings (indexExprOf id)) as Hin by (intros n b; apply elem_of_zip_r).
    revert Hin. generalize (appendIndexExprPredicates (indexExprOf id) []).
    induction (zip (ie_names (indexExprOf id)) (ie_bindings (indexExprOf id)))
      as [|[n b] rest IHr]; simpl; intros l Hin; [done|].
    rewrite IH; [by apply IHr; intros; eapply Hin; right|].
    intros id' Hid'. pose proof (Hrank id b id' ltac:(eapply Hin; left) Hid'). lia.
Qed.
End Depth.
