(* ===== verification/QuoProveSpec.v ===== *)
(** * The searches prove what they claim

    A bound that the search finds holds of the value ([lowerBound_sound] and its
    like), and the expression of a query denotes it ([buildValueExpr_sound]), so
    that the searches are an instance of what the passes on division assume
    ([searchProofs_ok]). *)

From stdpp Require Import base tactics list gmap numbers strings pretty.
From Stdlib Require Import ZArith.
From S2P Require Import Prelude QuoIR QuoExpand QuoEval QuoVerify QuoSpec.
From S2P Require Import QuoSymbols QuoProve QuoSymbolsSpec.

(** ** Numbers in a width *)

Lemma signedOfWidth_small bits n :
  0 < bits -> - 2 ^ (bits - 1) <= n < 2 ^ (bits - 1) -> signedOfWidth bits n = n.
Proof. intros. by apply signedValue_toBits. Qed.

Section Widths.
Context (bits x : Z) (Hb : 0 < bits) (Hx : 0 <= x < 2 ^ bits).
#[local] Set Default Proof Using "All".

Lemma signedOfWidth_le n :
  n < 2 ^ (bits - 1) -> signedOfWidth bits n <= signedValue bits x -> n <= signedValue bits x.
Proof.
  intros Hn Hle. destruct (signedValue_spec bits x Hb Hx) as [Hr _].
  destruct (Z.le_gt_cases (- 2 ^ (bits - 1)) n); [|lia].
  by rewrite signedOfWidth_small in Hle.
Qed.

Lemma signedOfWidth_ge n :
  - 2 ^ (bits - 1) <= n -> signedValue bits x <= signedOfWidth bits n -> signedValue bits x <= n.
Proof.
  intros Hn Hle. destruct (signedValue_spec bits x Hb Hx) as [Hr _].
  destruct (Z.lt_ge_cases n (2 ^ (bits - 1))); [|lia].
  by rewrite signedOfWidth_small in Hle.
Qed.

Lemma upperBoundOfWidth_ge :
  signedValue bits x <= upperBoundOfWidth bits -> signedValue bits x <= signedI32Max.
Proof.
  unfold upperBoundOfWidth, sextOrTrunc. intros Hle.
  destruct (signedValue_spec bits x Hb Hx) as [Hr _].
  assert (signedI32Max = 2 ^ 31 - 1) as Hmax by done.
  destruct (Z.ltb_spec 32 bits).
  - change (signedValue 32 signedI32Max) with signedI32Max in Hle.
    rewrite signedValue_toBits in Hle; [done|done|].
    assert (2 ^ 31 <= 2 ^ (bits - 1)) by (apply Z.pow_le_mono_r; lia). lia.
  - assert (2 ^ (bits - 1) <= 2 ^ 31) by (apply Z.pow_le_mono_r; lia). lia.
Qed.
End Widths.

(** Exclusive or of numbers with their signs. *)
Lemma lxor_signed_range n a b :
  0 <= n -> - 2 ^ n <= a < 2 ^ n -> - 2 ^ n <= b < 2 ^ n -> - 2 ^ n <= Z.lxor a b < 2 ^ n.
Proof.
  intros Hn Ha Hb. pose proof (pow2_pos n Hn).
  assert (forall c, - 2 ^ n <= c < 2 ^ n <-> Z.shiftr c n = 0 \/ Z.shiftr c n = - 1) as Hsign.
  { intros c. rewrite Z.shiftr_div_pow2 by done.
    pose proof (Z.div_mod c (2 ^ n) ltac:(lia)). pose proof (Z.mod_pos_bound c (2 ^ n) ltac:(lia)).
    split; [|intros [E|E]; rewrite E in *; lia]. intros Hc.
    assert (- 1 <= c / 2 ^ n) by (apply Z.div_le_lower_bound; lia).
    assert (c / 2 ^ n < 1) by (apply Z.div_lt_upper_bound; lia). lia. }
  rewrite Hsign in *. rewrite Z.shiftr_lxor. by destruct Ha as [-> | ->], Hb as [-> | ->]; auto.
Qed.

Lemma signed_lxor bits x y :
  0 < bits -> 0 <= x < 2 ^ bits -> 0 <= y < 2 ^ bits ->
  signedValue bits (Z.lxor x y) = Z.lxor (signedValue bits x) (signedValue bits y).
Proof.
  intros Hb Hx Hy. destruct (signedValue_spec bits x Hb Hx) as [Rx Ex].
  destruct (signedValue_spec bits y Hb Hy) as [Ry Ey].
  rewrite <-(signedValue_toBits bits (Z.lxor (signedValue bits x) (signedValue bits y)));
    [|done|by apply lxor_signed_range; [lia|..]].
  f_equal. rewrite <-Ex at 1. rewrite <-Ey at 1. unfold toBits.
  rewrite <-!Z.land_ones by lia. apply Z.bits_inj'. intros i Hi.
  rewrite !Z.lxor_spec, !Z.land_spec, Z.lxor_spec.
  by destruct (Z.testbit (Z.ones bits) i); rewrite ?andb_true_r, ?andb_false_r.
Qed.

(** ** Names *)

(** There is a free name among one more than there are names. *)
Lemma freshFrom_fresh fuel stem (reserved : gmap string WValue) n :
  (size reserved <= fuel)%nat -> reserved !! freshFrom fuel stem reserved n = None.
Proof.
  intros Hsize. set (candidate (i : N) := (stem +:+ "_" +:+ pretty i)%string).
  assert (forall m i, reserved !! freshFrom m stem reserved i = None \/
    forall k, (k <= m)%nat -> candidate (i + N.of_nat k)%N ∈ dom reserved) as Htry.
  { intros m. induction m as [|m IH]; intros i; simpl; fold (candidate i).
    - destruct (reserved !! candidate i) eqn:E; [right|by left].
      intros k Hk. replace (i + N.of_nat k)%N with i by lia. by apply elem_of_dom.
    - destruct (reserved !! candidate i) eqn:E; [|by left].
      destruct (IH (i + 1)%N) as [|Hall]; [by left|right]. intros [|k] Hk.
      + replace (i + N.of_nat 0)%N with i by lia. by apply elem_of_dom.
      + replace (i + N.of_nat (S k))%N with (i + 1 + N.of_nat k)%N by lia. apply Hall. lia. }
  destruct (Htry fuel n) as [|Hall]; [done|exfalso].
  set (names := (fun k => candidate (n + N.of_nat k)%N) <$> seq 0 (S fuel)).
  assert (NoDup names) as Hnd.
  { apply NoDup_fmap_2_strong; [|apply NoDup_seq]. intros k l _ _ Heq.
    apply (inj (String.append stem)), (inj (String.append "_")), (inj pretty) in Heq. lia. }
  assert (names ⊆+ elements (dom reserved)) as Hsub.
  { apply NoDup_submseteq; [done|]. intros name Hin. apply elem_of_elements.
    apply list_elem_of_fmap in Hin as (k & -> & Hk). apply elem_of_seq in Hk. apply Hall. lia. }
  apply submseteq_length in Hsub. unfold names in Hsub. rewrite length_fmap, length_seq in Hsub.
  change (length (elements (dom reserved))) with (size (dom reserved)) in Hsub.
  rewrite size_dom in Hsub. lia.
Qed.

Lemma half_pos bits : 0 < bits -> 0 < 2 ^ (bits - 1).
Proof. intros. apply pow2_pos. lia. Qed.

(** ** Bounds *)

Section Bounds.
Context `{Hok : SymLibraryOk} `{!FunctionFacts} `{WaveTarget} (env : N -> Z).
Context (program : WValue -> Prop) (Hprogram : ProgramOk env program).
#[local] Set Default Proof Using "All".
Abbreviation ev := (eval holdsOf env).
Abbreviation signed := (signedOf env).
Abbreviation bitsOf value := (elementBits (typeOf value)).

Lemma program_value value x :
  program value -> ev value = Some x ->
  0 < bitsOf value <= 64 /\ 0 <= x < 2 ^ bitsOf value /\
  signed value = Some (signedValue (bitsOf value) x).
Proof.
  intros Hp Hx. pose proof (program_verified _ _ Hprogram _ Hp) as Hv.
  pose proof (program_width _ _ Hprogram _ Hp). pose proof (verified_bits _ Hv).
  split; [done|]. split; [by apply (ev_range holdsOf env)|]. unfold signedOf. by rewrite Hx.
Qed.

Lemma signed_value value z :
  program value -> signed value = Some z ->
  exists x, ev value = Some x /\ z = signedValue (bitsOf value) x /\
    0 < bitsOf value <= 64 /\ 0 <= x < 2 ^ bitsOf value /\
    - 2 ^ (bitsOf value - 1) <= z < 2 ^ (bitsOf value - 1).
Proof.
  intros Hp Hz. unfold signedOf in Hz. destruct (ev value) as [x|] eqn:Hx; [|done].
  simpl in Hz. injection Hz as <-. destruct (program_value _ _ Hp Hx) as (Hb & Hr & _).
  exists x. pose proof (proj1 (signedValue_spec _ x (proj1 Hb) Hr)). split_and!; try done; lia.
Qed.

Lemma operand_ok value operand : program value -> operand ∈ operandsOf value -> program operand.
Proof. apply Hprogram. Qed.

Lemma splat_ok type source :
  program (VSplat type source) -> program source /\ elementBits type = bitsOf source.
Proof.
  intros Hp. split; [apply (operand_ok _ _ Hp), list_elem_of_here|].
  pose proof (program_verified _ _ Hprogram _ Hp) as Hv.
  cbn [verified] in Hv. rewrite !andb_true_iff in Hv. destruct Hv as (_ & Hs & _).
  unfold verifySplat in Hs. destruct type as [|element width|]; try done.
  apply bool_decide_eq_true in Hs. by rewrite Hs.
Qed.

(** A constant. *)
Lemma constant_value value n z :
  program value -> getConstantAPInt value (bitsOf value) = Some n -> signed value = Some z ->
  z = signedValue (bitsOf value) n /\ ev value = Some n.
Proof.
  intros Hp Hn Hz. destruct (signed_value _ _ Hp Hz) as (x & Hx & -> & _).
  destruct (getConstantAPInt_ev holdsOf env _ _ (program_verified _ _ Hprogram _ Hp) Hn) as [Hn' _].
  by assert (n = x) as -> by congruence.
Qed.

Lemma finiteRange_value value range z :
  program value -> finiteSignedRange value = Some range -> signed value = Some z ->
  rangeBits range = bitsOf value /\ smin range <= z <= smax range.
Proof.
  unfold finiteSignedRange. intros Hp Hr Hz. destruct (signed_value _ _ Hp Hz) as (x & Hx & -> & _).
  destruct (integerRange value) as [r|] eqn:Er; [|done].
  destruct (isFullSignedRange r); [done|]. injection Hr as <-.
  by destruct (program_ranges _ _ Hprogram _ _ _ Hp Hx Er) as (? & _ & ?).
Qed.

Lemma isAssumed_sound (test : InferredRange -> bool) (P : Z -> Prop) value z :
  (forall range q, test range = true -> inRange range q -> P q) ->
  program value -> signed value = Some z -> isAssumed test value = true -> P z.
Proof.
  intros Ht. induction value as [| | | | | | | | |source IH name preds| | | |]; try done.
  intros Hp Hz. pose proof (operand_ok _ source Hp (list_elem_of_here _ _)) as Hps.
  destruct (signedOf_assume env program Hprogram _ _ _ _ Hz) as [Hzs _]. cbn [isAssumed].
  rewrite orb_true_iff. intros [Hr|Hr]; [|by apply IH].
  destruct (inferRange _ _) as [range|] eqn:Er; [|done].
  eapply Ht; [exact Hr|]. destruct (range_sound _ _ _ Er) as [_ Hin].
  apply (Hin (fun _ => z)); [|by rewrite sym_denotes].
  apply (appendAssumePredicates_sound env program Hprogram _ _ _ z); try done.
  apply Forall_forall. intros pred Hpred. by eapply (assume_satisfied env program Hprogram).
Qed.

Lemma isIndexExprProven_sound (test : InferredRange -> bool) (P : Z -> Prop) value z :
  (forall range q, test range = true -> inRange range q -> P q) ->
  program value -> signed value = Some z -> isIndexExprProven test value = true -> P z.
Proof.
  intros Ht. destruct value as [| | | | | | | | | | | |type id|]; try done. intros Hp Hz Hr.
  unfold isIndexExprProven in Hr. destruct (inferRange _ _) as [range|] eqn:Er; [|done].
  destruct (range_sound _ _ _ Er) as [_ Hin].
  destruct (indexExpr_sound env program Hprogram appendAssumePredicates type id z) as (v & Hq & Hs);
    [|done|done|].
  - intros. by eapply (appendAssumePredicates_sound env program Hprogram).
  - eapply Ht; [exact Hr|]. by apply (Hin v).
Qed.

Lemma upperBound_body value upper z :
  program value -> signed value = Some z -> - 2 ^ (bitsOf value - 1) <= upper ->
  (let bits := elementBits (typeOf value) in
   match getConstantAPInt value bits with
   | Some constant => signedValue bits constant <=? signedOfWidth bits upper
   | None =>
       isAssumedAtMost value upper || isIndexExprProvenAtMost value upper
       || match finiteSignedRange value with
          | Some range => smax range <=? signedOfWidth (rangeBits range) upper
          | None => false
          end
   end) = true -> z <= upper.
Proof.
  intros Hp Hz Hu Hr. destruct (signed_value _ _ Hp Hz) as (x & Hx & Ez & Hb & Hxr & _).
  cbv zeta in Hr. destruct (getConstantAPInt _ _) as [n|] eqn:En.
  - destruct (constant_value _ _ _ Hp En Hz) as [_ Hn]. assert (n = x) as -> by congruence.
    subst z. apply signedOfWidth_ge; [lia|done|done|]. by apply Z.leb_le.
  - apply orb_true_iff in Hr as [[Hr|Hr]%orb_true_iff|Hr].
    + by apply (isAssumed_sound _ (fun q => q <= upper) value z
        (fun range q => hasUpperBoundAtMost_sound range upper q)).
    + by apply (isIndexExprProven_sound _ (fun q => q <= upper) value z
        (fun range q => hasUpperBoundAtMost_sound range upper q)).
    + destruct (finiteSignedRange value) as [range|] eqn:Er; [|done].
      destruct (finiteRange_value _ _ _ Hp Er Hz) as [Hw Hrange]. rewrite Hw in Hr. subst z.
      apply signedOfWidth_ge; [lia|done|done|]. lia.
Qed.

Lemma upperBound_sound value upper z :
  program value -> signed value = Some z -> - 2 ^ (bitsOf value - 1) <= upper ->
  isProvenSignedUpperBound value upper = true -> z <= upper.
Proof.
  induction value as [|type source IH| | | | | | | | | | | |]; try exact (upperBound_body _ upper z).
  intros Hp Hz Hu. destruct (splat_ok _ _ Hp) as [Hps Hbits]. cbn [typeOf] in Hu.
  rewrite Hbits in Hu. apply IH; [done| |done]. by eapply signedOf_splat.
Qed.

(** A cast between integers and indices takes the signed number to the other
    width. *)
Lemma indexCast_signed type source z :
  program (VIndexCast type source) -> signed (VIndexCast type source) = Some z ->
  exists s, program source /\ signed source = Some s /\ 0 < elementBits type /\
    z = signedOfWidth (elementBits type) s.
Proof.
  intros Hp Hz. pose proof (operand_ok _ source Hp (list_elem_of_here _ _)) as Hps.
  destruct (signed_value _ _ Hp Hz) as (x & Hx & -> & Hb & Hr & _). cbn [typeOf eval] in *.
  destruct (ev source) as [a|] eqn:Ha; [|done]. cbn in Hx. injection Hx as <-.
  destruct (program_value _ _ Hps Ha) as (Hbs & Hra & Hs).
  eexists. split; [done|]. split; [done|]. split; [lia|].
  unfold signedOfWidth, sextOrTrunc. destruct (Z.ltb_spec (bitsOf source) (elementBits type)); [done|].
  f_equal. unfold signedValue. destruct (a <? _); [done|].
  apply (toBits_eqm _ _ _ (2 ^ (bitsOf source - elementBits type))).
  rewrite <-Z.pow_add_r, Z.sub_add by lia. lia.
Qed.

Lemma indexCast_widen type source z :
  program (VIndexCast type source) -> signed (VIndexCast type source) = Some z ->
  bitsOf source <= elementBits type -> program source /\ signed source = Some z.
Proof.
  intros Hp Hz Hle. destruct (indexCast_signed _ _ _ Hp Hz) as (s & Hps & Hs & Hb & ->).
  split; [done|]. rewrite Hs. f_equal. symmetry. apply signedValue_toBits; [done|].
  destruct (signed_value _ _ Hps Hs) as (_ & _ & _ & ? & _ & ?).
  assert (2 ^ (bitsOf source - 1) <= 2 ^ (elementBits type - 1)) by (apply Z.pow_le_mono_r; lia).
  lia.
Qed.

(** A number that was cast from an integer of [bits] bits at most. *)
Lemma castFromNoWider_bound value bits z :
  program value -> signed value = Some z -> 0 < bits <= bitsOf value ->
  isSignedIndexCastFromNoWiderInt value bits = true -> z < 2 ^ (bits - 1).
Proof.
  intros Hp Hz Hb Hr. destruct value as [| | | | | | | |type source| | | | |]; try done.
  unfold isSignedIndexCastFromNoWiderInt in Hr.
  destruct (scalarElementType (typeOf source)) as [[|width]| |] eqn:Es; try done.
  assert (bitsOf source = width) as Hw.
  { rewrite <-scalar_bits, Es. done. }
  apply Z.leb_le in Hr. cbn [typeOf] in Hb.
  destruct (indexCast_widen type source z Hp Hz) as [Hps Hs]; [lia|].
  destruct (signed_value _ _ Hps Hs) as (_ & _ & _ & ? & _ & ?).
  assert (2 ^ (bitsOf source - 1) <= 2 ^ (bits - 1)) by (apply Z.pow_le_mono_r; lia). lia.
Qed.

(** ** Loops *)

Section Loop.
Context (type : WType) (id : N) (unsignedCmp : bool) (lowerBound upperBound step : WValue).
Abbreviation iv := (VLoopIv type id unsignedCmp lowerBound upperBound step).
Context (Hp : program iv) (z : Z) (Hz : signed iv = Some z).

Lemma loop_bounds :
  program lowerBound /\ program upperBound /\
  typeOf lowerBound = type /\ typeOf upperBound = type.
Proof using Hok Hprogram Hp.
  split; [apply (operand_ok _ _ Hp); left|].
  split; [apply (operand_ok _ _ Hp); right; left|].
  pose proof (program_verified _ _ Hprogram _ Hp) as Hv. simpl in Hv.
  rewrite !andb_true_iff, !bool_decide_eq_true in Hv. tauto.
Qed.

(** The induction variable lies between the bounds as the loop compares. *)
Lemma loop_between :
  exists lb ub l u, ev lowerBound = Some lb /\ ev upperBound = Some ub /\
    signed lowerBound = Some l /\ signed upperBound = Some u /\
    (if unsignedCmp
     then lb <= toBits (elementBits type) z < ub /\ l = signedValue (elementBits type) lb /\
          0 <= lb
     else l <= z < u).
Proof.
  destruct (signed_value _ _ Hp Hz) as (x & Hx & Ez & Hb & Hr & _).
  destruct (program_loopIv _ _ Hprogram _ _ _ _ _ _ _ Hp Hx) as (lb & ub & Hlb & Hub & Hit).
  destruct loop_bounds as (Pl & Pu & Tl & Tu).
  destruct (program_value _ _ Pl Hlb) as (_ & Rl & Sl).
  destruct (program_value _ _ Pu Hub) as (_ & _ & Su). rewrite Tl in Sl, Rl. rewrite Tu in Su.
  cbn [typeOf] in *. eexists lb, ub, _, _. split_and!; [done..|].
  rewrite Ez. unfold iterates in Hit. destruct unsignedCmp; [|done].
  destruct (signedValue_spec _ x (proj1 Hb) Hr) as [_ ->]. split_and!; [lia..|done|lia].
Qed.

Lemma loop_lowerBound lower :
  (forall l, signed lowerBound = Some l -> lower <= l) ->
  (unsignedCmp = true -> forall ub, ev upperBound = Some ub -> ub <= 2 ^ (elementBits type - 1)) ->
  lower <= z.
Proof.
  intros Hl Hu. destruct loop_between as (lb & ub & l & u & Hlb & Hub & Sl & Su & Hbetween).
  specialize (Hl _ Sl). destruct unsignedCmp; [|lia].
  specialize (Hu eq_refl _ Hub). destruct Hbetween as (Hiv & -> & Hlb0).
  destruct (signed_value _ _ Hp Hz) as (x & Hx & Ez & Hb & Hr & _). cbn [typeOf] in *.
  destruct (signedValue_spec _ x (proj1 Hb) Hr) as [_ Ex]. rewrite Ez, Ex in Hiv. rewrite Ez.
  unfold signedValue in *.
  destruct (Z.ltb_spec x (2 ^ (elementBits type - 1))); [|lia].
  destruct (Z.ltb_spec lb (2 ^ (elementBits type - 1))); lia.
Qed.
End Loop.

(** ** Lower bounds *)

Definition lowerOk (value : WValue) : Prop := forall lower z,
  program value -> signed value = Some z -> lower < 2 ^ (bitsOf value - 1) ->
  isProvenSignedLowerBound value lower = true -> lower <= z.
Definition unsignedOk (value : WValue) : Prop := forall x,
  program value -> ev value = Some x -> isProvenUnsignedUpperAtMostSignedMin value = true ->
  x <= 2 ^ (bitsOf value - 1).

Lemma lower_body value lower z :
  program value -> signed value = Some z -> lower < 2 ^ (bitsOf value - 1) ->
  (isProvenSignedLowerBoundFromDef value lower = true -> lower <= z) ->
  (isScfForIvProvenAtLeast value lower = true -> lower <= z) ->
  isProvenSignedLowerBound value lower = true -> lower <= z.
Proof.
  intros Hp Hz Hl Hdef Hloop. destruct (signed_value _ _ Hp Hz) as (x & Hx & Ez & Hb & Hxr & _).
  rewrite isProvenSignedLowerBound_equation. rewrite orb_true_iff. intros [?|Hr]; [auto|].
  destruct (getConstantAPInt _ _) as [n|] eqn:En.
  - destruct (constant_value _ _ _ Hp En Hz) as [_ Hn]. assert (n = x) as -> by congruence.
    subst z. apply signedOfWidth_le; [lia|done|done|]. by apply Z.leb_le.
  - apply orb_true_iff in Hr as [[[Hr|Hr]%orb_true_iff|Hr]%orb_true_iff|Hr]; [| |auto|].
    + by apply (isAssumed_sound _ (fun q => lower <= q) value z
        (fun range q => hasLowerBoundAtLeast_sound range lower q)).
    + by apply (isIndexExprProven_sound _ (fun q => lower <= q) value z
        (fun range q => hasLowerBoundAtLeast_sound range lower q)).
    + destruct (finiteSignedRange value) as [range|] eqn:Er; [|done].
      destruct (finiteRange_value _ _ _ Hp Er Hz) as [Hw Hrange]. rewrite Hw in Hr. subst z.
      apply signedOfWidth_le; [lia|done|done|]. lia.
Qed.

Lemma unsigned_body value x :
  lowerOk value -> program value -> ev value = Some x ->
  unsignedUpperAtMostSignedMin (isProvenSignedLowerBound value) value = true ->
  x <= 2 ^ (bitsOf value - 1).
Proof.
  intros Hlow Hp Hx. destruct (program_value _ _ Hp Hx) as (Hb & Hr & Hz).
  pose proof (half_pos _ (proj1 Hb)) as Hpos.
  unfold unsignedUpperAtMostSignedMin. destruct (getConstantAPInt _ _) as [n|] eqn:En.
  - destruct (constant_value _ _ _ Hp En Hz) as [_ Hn]. assert (n = x) as -> by congruence. lia.
  - rewrite orb_true_iff, andb_true_iff. intros [Hu|[Hl Hu]].
    + destruct (integerRange value) as [range|] eqn:Er; [|done].
      destruct (program_ranges _ _ Hprogram _ _ _ Hp Hx Er) as (_ & ? & _). lia.
    + pose proof (Hlow 0 _ Hp Hz Hpos Hl) as Hz0.
      pose proof (upperBound_sound value (2 ^ (bitsOf value - 1) - 1) _ Hp Hz ltac:(lia) Hu) as Hz1.
      rewrite signedValue_nonneg in Hz1 by (done || lia). lia.
Qed.

Lemma unsigned_step value :
  lowerOk value -> (forall type source, value = VSplat type source -> unsignedOk source) ->
  unsignedOk value.
Proof.
  intros Hlow Hsplat x Hp Hx Hr.
  destruct value as [|type source| | | | | | | | | | | |]; try exact (unsigned_body _ x Hlow Hp Hx Hr).
  destruct (splat_ok _ _ Hp) as [Hps Hbits]. cbn [typeOf]. rewrite Hbits.
  by apply (Hsplat _ _ eq_refl).
Qed.

Lemma scfFor_sound type id unsignedCmp lowerBound upperBound step lower z :
  let iv := VLoopIv type id unsignedCmp lowerBound upperBound step in
  lowerOk lowerBound -> unsignedOk upperBound ->
  program iv -> signed iv = Some z -> lower < 2 ^ (elementBits type - 1) ->
  isScfForIvProvenAtLeast iv lower = true -> lower <= z.
Proof.
  intros iv Hlow Hup Hp Hz Hl. unfold isScfForIvProvenAtLeast, iv.
  rewrite !andb_true_iff, orb_true_iff. intros [[_ Hr] Hcmp].
  destruct (loop_bounds _ _ _ _ _ _ Hp) as (Pl & Pu & Tl & Tu).
  apply (loop_lowerBound _ _ _ _ _ _ Hp z Hz).
  - intros l Sl. apply Hlow; try done. by rewrite Tl.
  - intros -> ub Hub. destruct Hcmp as [|Hcmp]; [done|]. rewrite <-Tu. by apply Hup.
Qed.

Lemma indexCast_sound type source lower z :
  lowerOk source ->
  (forall t id u lowerBound upperBound step,
     source = VLoopIv t id u lowerBound upperBound step -> lowerOk lowerBound) ->
  program (VIndexCast type source) -> signed (VIndexCast type source) = Some z ->
  isNarrowSignedIndexCastOfNonNegativeLoopIv type source lower = true -> lower <= z.
Proof.
  intros Hsource Hloop Hp Hz. unfold isNarrowSignedIndexCastOfNonNegativeLoopIv.
  rewrite andb_true_iff, Z.leb_le. intros [Hl0 Hr].
  destruct (indexCast_signed _ _ _ Hp Hz) as (s & Hps & Hs & Hb & Ez).
  destruct (signed_value _ _ Hps Hs) as (_ & _ & _ & Hbs & _ & Hrs).
  pose proof (half_pos _ (proj1 Hbs)). pose proof (half_pos _ Hb).
  destruct (Z.leb_spec (bitsOf source) (elementBits type)).
  - destruct (indexCast_widen _ _ _ Hp Hz) as [_ Hs']; [done|]. apply Hsource; try done. lia.
  - destruct source as [| | | | | | | | | |t id u lowerBound upperBound step| | |]; try done.
    rewrite !andb_true_iff, negb_true_iff in Hr. destruct Hr as [[[-> _] Hlow] Hcast].
    destruct (loop_bounds _ _ _ _ _ _ Hps) as (Pl & Pu & Tl & Tu). cbn [typeOf] in *.
    destruct (loop_between _ _ _ _ _ _ Hps _ Hs) as (lb & ub & l & u & _ & _ & Sl & Su & Hbetween).
    assert (0 <= l).
    { apply (Hloop _ _ _ _ _ _ eq_refl 0); try done. by rewrite Tl. }
    assert (u < 2 ^ (elementBits type - 1)).
    { apply (castFromNoWider_bound upperBound); try done. rewrite Tu. lia. }
    rewrite Ez, signedOfWidth_small by lia. lia.
Qed.

Lemma waveId_sound value lower z :
  program value -> signed value = Some z ->
  (lower <=? 0) && isNonNegativeWaveId value = true -> lower <= z.
Proof.
  intros Hp Hz. rewrite andb_true_iff, Z.leb_le. intros [Hl Hw].
  destruct value; try done. pose proof (program_waveId _ _ Hprogram _ _ _ Hp Hz). lia.
Qed.

Lemma bounds_ok value :
  lowerOk value /\ unsignedOk value /\
  (forall t id u lowerBound upperBound step,
     value = VLoopIv t id u lowerBound upperBound step -> lowerOk lowerBound).
Proof.
  assert (forall v, lowerOk v -> (forall type source, v = VSplat type source -> unsignedOk source) ->
    (forall t id u l up st, v = VLoopIv t id u l up st -> lowerOk l) ->
    lowerOk v /\ unsignedOk v /\
    (forall t id u l up st, v = VLoopIv t id u l up st -> lowerOk l)) as Hclose.
  { intros v Hlow Hs Hl. split; [done|]. split; [by apply unsigned_step|done]. }
  induction value as [|type source IH| | | | | | |type source IH|
    |type id unsignedCmp lowerBound IHl upperBound IHu step _| | |]; apply Hclose; try done;
    try (intros lower z Hp Hz Hl; apply lower_body; try done; by apply waveId_sound).
  - intros lower z Hp Hz Hl. apply lower_body; try done. intros Hr.
    destruct (splat_ok _ _ Hp) as [Hps Hbits]. cbn [typeOf] in Hl. rewrite Hbits in Hl.
    apply IH; try done. by eapply signedOf_splat.
  - intros t s [= _ <-]. apply IH.
  - intros lower z Hp Hz Hl. apply lower_body; try done.
    apply indexCast_sound; try done; apply IH.
  - intros lower z Hp Hz Hl. apply lower_body; try done; [by apply waveId_sound|].
    apply scfFor_sound; try done; [apply IHl|apply IHu].
  - intros t i u l up st [= _ _ _ <- _ _]. apply IHl.
Qed.

(** ** Queries *)

Lemma binary_parts type kind flags lhs rhs z :
  program (VBinary type kind flags lhs rhs) ->
  signed (VBinary type kind flags lhs rhs) = Some z ->
  let bits := elementBits type in
  exists x y, program lhs /\ program rhs /\ ev lhs = Some x /\ ev rhs = Some y /\
    bitsOf lhs = bits /\ bitsOf rhs = bits /\ 0 < bits <= 64 /\
    0 <= x < 2 ^ bits /\ 0 <= y < 2 ^ bits /\ flagsHold kind flags bits x y = true /\
    signedValue bits <$> foldWaveBinaryConstants kind bits x y = Some z.
Proof.
  intros Hp Hz bits. destruct (signed_value _ _ Hp Hz) as (r & Hr & Ez & Hb & _).
  pose proof (program_verified _ _ Hprogram _ Hp) as Hv. cbn [verified typeOf eval] in *.
  rewrite !andb_true_iff in Hv. destruct Hv as (_ & (Hop & _) & _).
  apply verifyBinary_elements in Hop as (El & Er & _).
  pose proof (operand_ok _ lhs Hp (list_elem_of_here _ _)) as Pl.
  pose proof (operand_ok _ rhs Hp (list_elem_of_further _ _ _ (list_elem_of_here _ _))) as Pr.
  destruct (ev lhs) as [x|] eqn:Hx; [|done]. destruct (ev rhs) as [y|] eqn:Hy; [|done].
  cbn [mbind option_bind] in Hr. destruct (flagsHold _ _ _ _ _) eqn:Hf; [|done].
  destruct (program_value _ _ Pl Hx) as (_ & Rx & _). destruct (program_value _ _ Pr Hy) as (_ & Ry & _).
  assert (bitsOf lhs = bits) as Bl by (unfold bits, elementBits; by rewrite El).
  assert (bitsOf rhs = bits) as Br by (unfold bits, elementBits; by rewrite Er).
  rewrite Bl in Rx. rewrite Br in Ry. exists x, y.
  split_and!; try done; try apply Rx; try apply Ry; try lia. subst bits. by rewrite Hr, Ez.
Qed.

(** A result that does not overflow as a signed number. *)
Lemma exact_result bits w r k :
  0 < bits -> (- 2 ^ (bits - 1) <=? r) && (r <? 2 ^ (bits - 1)) = true ->
  w = r + k * 2 ^ bits -> signedValue bits (toBits bits w) = r.
Proof.
  intros Hb Hr Hk. rewrite (toBits_eqm _ _ _ _ Hk). apply signedValue_toBits; [done|lia].
Qed.
Lemma signedValue_eqm bits x : exists k, x = signedValue bits x + k * 2 ^ bits.
Proof. unfold signedValue. destruct (x <? _); [exists 0|exists 1]; lia. Qed.

Lemma binary_exact type kind flags lhs rhs z op :
  program (VBinary type kind flags lhs rhs) ->
  signed (VBinary type kind flags lhs rhs) = Some z ->
  convertBinaryKind kind flags = Some op ->
  exists a b, program lhs /\ program rhs /\ signed lhs = Some a /\ signed rhs = Some b /\
    exactBinary op a b = Some z.
Proof.
  intros Hp Hz Hop.
  destruct (binary_parts _ _ _ _ _ _ Hp Hz)
    as (x & y & Pl & Pr & Hx & Hy & Bl & Br & Hb & Rx & Ry & Hf & Hr).
  unfold signedOf. rewrite Hx, Hy, Bl, Br. eexists _, _. split_and!; [done..|].
  destruct Hb as [Hb _]. destruct kind; try done; cbn [convertBinaryKind] in Hop;
    try (destruct (flag_nsw flags) eqn:Hs; [|done]; cbn [flagsHold] in Hf; rewrite Hs in Hf;
         apply andb_true_iff in Hf as [_ Hf]; cbn [negb orb] in Hf);
    injection Hop as <-; cbn in Hr; injection Hr as <-; cbn [exactBinary]; f_equal; symmetry;
    [..|by apply signed_lxor];
    destruct (signedValue_eqm (elementBits type) x) as [k Ek];
    destruct (signedValue_eqm (elementBits type) y) as [l El].
  - apply (exact_result _ _ _ (k + l)); [done|done|lia].
  - apply (exact_result _ _ _ (k - l)); [done|done|lia].
  - apply (exact_result _ _ _ (k * y + l * signedValue (elementBits type) x)); [done|done|].
    rewrite Ek at 1. rewrite Z.mul_add_distr_r. rewrite El at 1. lia.
Qed.

Lemma shift_exact type flags lhs rhs z shift :
  program (VBinary type BinaryKind.ShLI flags lhs rhs) ->
  signed (VBinary type BinaryKind.ShLI flags lhs rhs) = Some z ->
  shiftAmount flags rhs = Some shift ->
  exists a, program lhs /\ signed lhs = Some a /\ 0 <= shift < 63 /\ z = a * Z.shiftl 1 shift.
Proof.
  intros Hp Hz Hshift.
  destruct (binary_parts _ _ _ _ _ _ Hp Hz)
    as (x & y & Pl & Pr & Hx & Hy & Bl & Br & [Hb _] & Rx & Ry & Hf & Hr).
  unfold shiftAmount in Hshift. destruct (flag_nsw flags) eqn:Hs; [|done]. cbn [negb] in Hshift.
  destruct (getConstantAPInt rhs (bitsOf rhs)) as [n|] eqn:En; [|done].
  destruct (getConstantAPInt_ev holdsOf env rhs n (program_verified _ _ Hprogram _ Pr) En) as [Hn _].
  assert (n = y) as -> by congruence.
  destruct (Z.ltb_spec (signedValue (bitsOf rhs) y) 0), (Z.leb_spec 63 y); try done.
  injection Hshift as <-.
  cbn in Hf. rewrite Hs in Hf. apply andb_true_iff in Hf as [_ Hf]. cbn [negb orb] in Hf.
  unfold foldWaveBinaryConstants in Hr. cbn in Hr. destruct (y <? elementBits type); [|done].
  injection Hr as <-. exists (signedValue (elementBits type) x). split_and!; [done| |lia..|].
  - unfold signedOf. by rewrite Hx, Bl.
  - destruct (signedValue_eqm (elementBits type) x) as [k Ek].
    rewrite Z.shiftl_1_l, <-Z.shiftl_mul_pow2 by lia.
    apply (exact_result _ _ _ (k * 2 ^ y)); [done|done|].
    rewrite !Z.shiftl_mul_pow2 by lia. rewrite Ek at 1. lia.
Qed.

(** Reserved names stand for values of the program, each for one. *)
Record queryOk (state : QueryState) : Prop := {
  query_values name value :
    reserved state !! name = Some value -> program value /\ is_Some (signed value);
  query_names value name :
    lookupValue value (byValue state) = Some name -> reserved state !! name = Some value
}.
Definition agrees (v : Valuation) (state : QueryState) : Prop :=
  forall name value, reserved state !! name = Some value -> signed value = Some (v name).

Lemma agrees_mono v state state' :
  reserved state ⊆ reserved state' -> agrees v state' -> agrees v state.
Proof. intros Hsub Ha name value Hn. apply Ha. by eapply lookup_weaken. Qed.

Lemma agrees_exists state : queryOk state -> exists v, agrees v state.
Proof.
  intros [Hv _]. exists (fun name => default 0 (reserved state !! name ≫= signed)).
  intros name value Hn. rewrite Hn. cbn. by destruct (Hv _ _ Hn) as [_ [z ->]].
Qed.

Lemma reserve_ok requested value state name state' :
  queryOk state -> program value -> is_Some (signed value) ->
  reserveIndexExprBindingName requested value state = (name, state') ->
  queryOk state' /\ reserved state ⊆ reserved state' /\ reserved state' !! name = Some value /\
  assumptions state' = assumptions state.
Proof.
  intros [Hv Hn] Hp Hz Hr. unfold reserveIndexExprBindingName in Hr.
  destruct (lookupValue value (byValue state)) as [old|] eqn:El.
  { injection Hr as <- <-. split_and!; try done. by apply Hn. }
  set (fresh := match reserved state !! requested with Some _ => _ | None => _ end) in Hr.
  assert (reserved state !! fresh = None \/ reserved state !! fresh = Some value) as Hfree.
  { unfold fresh. destruct (reserved state !! requested) as [other|] eqn:Er; [|by left].
    case_decide as E; [right; by rewrite Er, E|left]. by apply freshFrom_fresh. }
  injection Hr as <- <-. cbn [reserved assumptions byValue].
  assert (forall m w, reserved state !! m = Some w -> <[fresh:=value]> (reserved state) !! m = Some w)
    as Hkeep.
  { intros m w Hm. destruct (decide (m = fresh)) as [->|]; [|by rewrite lookup_insert_ne].
    rewrite lookup_insert_eq. destruct Hfree; congruence. }
  split_and!; [|by apply map_subseteq_spec|by rewrite lookup_insert_eq|done].
  split; cbn [reserved byValue].
  - intros m w. rewrite lookup_insert_Some. intros [[_ <-]|[_ Hm]]; [done|]. by eapply Hv.
  - intros w m. cbn [lookupValue]. case_decide as E.
    + intros [= <-]. subst w. by rewrite lookup_insert_eq.
    + intros Hm. apply Hkeep. by apply Hn.
Qed.

(** What a query builds from a state. *)
Definition builds (z : Z) (state : QueryState) (expr : Expr) (state' : QueryState) : Prop :=
  queryOk state' /\ reserved state ⊆ reserved state' /\
  forall v, agrees v state' -> allSatisfied v (assumptions state) ->
    allSatisfied v (assumptions state') /\ (exprBroken expr = false -> denote v expr = Some z).

Lemma bindSymbol_ok value state z :
  queryOk state -> program value -> signed value = Some z ->
  builds z state (fst (bindSymbol value state)) (snd (bindSymbol value state)).
Proof.
  intros Hq Hp Hz. unfold bindSymbol.
  destruct (reserveIndexExprBindingName _ value state) as [name state'] eqn:Hr. cbn [fst snd].
  destruct (reserve_ok _ _ _ _ _ Hq Hp ltac:(eauto) Hr) as (Hq' & Hsub & Hname & Has).
  split; [by destruct Hq'; constructor|]. split; [done|]. cbn [assumptions]. rewrite Has.
  intros v Hv Hs. pose proof (Hv _ _ Hname) as Hvz. assert (v name = z) as Ez by congruence. split.
  - by apply (appendAssumePredicates_sound env program Hprogram _ _ _ z).
  - intros _. by rewrite sym_denotes, Ez.
Qed.

Lemma builds_constant value n z state :
  queryOk state -> program value -> signed value = Some z ->
  getConstantAPInt value (bitsOf value) = Some n ->
  builds z state (ixs_int (signedValue (bitsOf value) n)) state.
Proof.
  intros Hq Hp Hz Hn. destruct (constant_value _ _ _ Hp Hn Hz) as [<- _].
  destruct (signed_value _ _ Hp Hz) as (_ & _ & _ & Hb & _ & Hr).
  assert (2 ^ (bitsOf value - 1) <= 2 ^ 63) by (apply Z.pow_le_mono_r; lia).
  split; [done|]. split; [done|]. intros v _ Hs. split; [done|]. intros _. apply int_denotes. lia.
Qed.

Lemma builds_binary op a b z st0 e1 st1 e2 st2 :
  builds a st0 e1 st1 -> builds b st1 e2 st2 -> exactBinary op a b = Some z ->
  builds z st0 (ixs_binary op e1 e2) st2.
Proof.
  intros (Q1 & S1 & H1') (Q2 & S2 & H2') Hop. split; [done|]. split; [by etrans|].
  intros v Hv Hs. destruct (H1' v (agrees_mono _ _ _ S2 Hv) Hs) as [Hs1 D1].
  destruct (H2' v Hv Hs1) as [Hs2 D2]. split; [done|]. intros Hbroken.
  destruct (binary_broken _ _ _ Hbroken) as [B1 B2]. by eapply binary_denotes; eauto.
Qed.

Lemma builds_int n state : - 2 ^ 63 <= n < 2 ^ 63 -> queryOk state -> builds n state (ixs_int n) state.
Proof.
  intros Hn Hq. split; [done|]. split; [done|]. intros v _ Hs. split; [done|].
  intros _. by apply int_denotes.
Qed.

Lemma buildValueExpr_ok value depth state z expr state' :
  queryOk state -> program value -> signed value = Some z ->
  buildValueExpr depth value state = Some (expr, state') -> builds z state expr state'.
Proof.
  revert depth state z expr state'.
  induction value as [|type source IH|type kind flags lhs IHl rhs IHr| | | | | | | | | | |];
    intros depth state z expr state' Hq Hp Hz He; cbn [buildValueExpr] in He;
    (destruct (8 <? depth); [done|]);
    (destruct (getConstantAPInt _ _) as [n|] eqn:En;
       [injection He as <- <-; exact (builds_constant _ _ _ _ Hq Hp Hz En)|]);
    try (injection He as He; pose proof (bindSymbol_ok _ _ _ Hq Hp Hz) as Hbind;
         rewrite He in Hbind; exact Hbind).
  - destruct (splat_ok _ _ Hp) as [Hps _]. eapply IH; [done|done| |done]. by eapply signedOf_splat.
  - assert (kind = BinaryKind.ShLI \/ exists op, convertBinaryKind kind flags = Some op /\
      match buildValueExpr (depth + 1) lhs state with
      | None => None
      | Some (lhs, state) =>
          match buildValueExpr (depth + 1) rhs state with
          | None => None
          | Some (rhs, state) => Some (ixs_binary op lhs rhs, state)
          end
      end = Some (expr, state')) as [->|(op & Hop & He')].
    { destruct kind; try (by left); right;
        (destruct (convertBinaryKind _ flags) as [op|]; [by exists op|done]). }
    + destruct (shiftAmount flags rhs) as [shift|] eqn:Es; [|done].
      destruct (shift_exact _ _ _ _ _ _ Hp Hz Es) as (a & Pl & Sl & Hs & ->).
      destruct (buildValueExpr (depth + 1) lhs state) as [[e1 st1]|] eqn:E1; [|done].
      injection He as <- <-. pose proof (IHl _ _ _ _ _ Hq Pl Sl E1) as B1.
      eapply builds_binary; [exact B1|apply builds_int; [|apply B1]|done].
      rewrite Z.shiftl_1_l. pose proof (pow2_pos shift ltac:(lia)).
      assert (2 ^ shift < 2 ^ 63) by (apply Z.pow_lt_mono_r; lia). lia.
    + destruct (binary_exact _ _ _ _ _ _ _ Hp Hz Hop) as (a & b & Pl & Pr & Sl & Sr & Hex).
      destruct (buildValueExpr (depth + 1) lhs state) as [[e1 st1]|] eqn:E1; [|done].
      destruct (buildValueExpr (depth + 1) rhs st1) as [[e2 st2]|] eqn:E2; [|done].
      injection He' as <- <-. pose proof (IHl _ _ _ _ _ Hq Pl Sl E1) as B1.
      eapply builds_binary; [exact B1| |exact Hex]. eapply IHr; try done. apply B1.
Qed.

(** The expression of a query stands for the value, and the assumptions beside it
    hold, for some values of its names. *)
Lemma buildQuery_sound value z expr preds :
  program value -> signed value = Some z -> buildQuery value = Some (expr, preds) ->
  exists v, allSatisfied v preds /\ (exprBroken expr = false -> denote v expr = Some z).
Proof.
  unfold buildQuery. intros Hp Hz Hq.
  destruct (buildValueExpr 0 value _) as [[e state]|] eqn:He; [|done]. injection Hq as <- <-.
  destruct (buildValueExpr_ok _ _ (mkQuery [] ∅ []) _ _ _ ltac:(by constructor) Hp Hz He)
    as (Hok' & _ & Hb).
  destruct (agrees_exists _ Hok') as [v Hv]. exists v. by apply Hb; [|constructor].
Qed.

Lemma provablyInRange_sound expr preds lower upper v z :
  - 2 ^ 63 <= lower < 2 ^ 63 -> - 2 ^ 63 <= upper < 2 ^ 63 ->
  allSatisfied v preds -> (exprBroken expr = false -> denote v expr = Some z) ->
  provablyInRange expr preds lower upper = true -> lower <= z <= upper.
Proof.
  intros Hl Hu Hs Hd. unfold provablyInRange. rewrite andb_true_iff, orb_true_iff.
  intros [Hf [Hr|Hr]].
  - unfold inferredRangeWithin in Hr. destruct (ixs_range_facts preds expr) as [range|] eqn:Er; [|done].
    destruct (range_facts_sound _ _ _ Hf Er) as [Hb Hin]. specialize (Hin v z Hs (Hd Hb)).
    apply andb_true_iff in Hr as [Hlo Hhi].
    split; [by eapply hasLowerBoundAtLeast_sound|by eapply hasUpperBoundAtMost_sound].
  - assert (forall op n, - 2 ^ 63 <= n < 2 ^ 63 ->
      check preds (ixs_cmp op expr (ixs_int n)) = CheckResult.True -> compares op z n = true) as Hcmp.
    { intros op n Hn Hc. pose proof (check_valid _ _ Hf Hc) as Hv. rewrite cmp_broken in Hv.
      apply orb_false_iff in Hv as [Hb _].
      rewrite <-(cmp_satisfied v op _ _ _ _ (Hd Hb) (int_denotes v n Hn)).
      pose proof (check_sound preds (ixs_cmp op expr (ixs_int n)) v Hf Hs) as Hck. by rewrite Hc in Hck. }
    apply andb_true_iff in Hr as [Hlo%bool_decide_eq_true Hhi%bool_decide_eq_true].
    apply Hcmp in Hlo; [|done]. apply Hcmp in Hhi; [|done]. simpl in *. lia.
Qed.

Lemma i32Range_body value lower z :
  program value -> signed value = Some z -> - 2 ^ 63 <= lower < 2 ^ (bitsOf value - 1) ->
  (let bits := elementBits (typeOf value) in
   match getConstantAPInt value bits with
   | Some constant => isConstantInSignedI32RangeWithLowerBound bits constant lower
   | None =>
       (match finiteSignedRange value with
        | Some range => isSignedI32RangeWithLowerBound range lower
        | None => false
        end)
       || (isProvenSignedLowerBound value lower && isProvenSignedUpperBound value signedI32Max)
       || match buildQuery value with
          | Some (expr, assumptions) => provablyInRange expr assumptions lower signedI32Max
          | None => false
          end
   end) = true -> lower <= z <= signedI32Max.
Proof.
  intros Hp Hz [Hl63 Hl] Hr. destruct (signed_value _ _ Hp Hz) as (x & Hx & Ez & Hb & Hxr & _).
  assert (2 ^ (bitsOf value - 1) <= 2 ^ 63) by (apply Z.pow_le_mono_r; lia).
  cbv zeta in Hr. destruct (getConstantAPInt _ _) as [n|] eqn:En.
  - destruct (constant_value _ _ _ Hp En Hz) as [_ Hn]. assert (n = x) as -> by congruence. subst z.
    apply andb_true_iff in Hr as [Hlo%Z.leb_le Hhi%Z.leb_le].
    split; [by apply signedOfWidth_le; [lia|..]|by apply upperBoundOfWidth_ge; [lia|..]].
  - apply orb_true_iff in Hr as [[Hr|Hr]%orb_true_iff|Hr].
    + destruct (finiteSignedRange value) as [range|] eqn:Er; [|done].
      destruct (finiteRange_value _ _ _ Hp Er Hz) as [Hw Hrange].
      unfold isSignedI32RangeWithLowerBound in Hr. rewrite Hw in Hr. subst z.
      apply andb_true_iff in Hr as [Hlo%Z.leb_le Hhi%Z.leb_le].
      split; [apply signedOfWidth_le; [lia|done|done|lia]|apply upperBoundOfWidth_ge; [lia|done|lia]].
    + apply andb_true_iff in Hr as [Hlo Hhi]. pose proof (half_pos _ (proj1 Hb)).
      split; [by apply (proj1 (bounds_ok value))|].
      apply (upperBound_sound value signedI32Max); try done. unfold signedI32Max. lia.
    + destruct (buildQuery value) as [[expr preds]|] eqn:Eq; [|done].
      destruct (buildQuery_sound _ _ _ _ Hp Hz Eq) as (v & Hs & Hd).
      eapply provablyInRange_sound; try done. lia.
Qed.

Lemma i32Range_sound value lower z :
  program value -> signed value = Some z -> - 2 ^ 63 <= lower < 2 ^ (bitsOf value - 1) ->
  isProvenSignedI32RangeWithLowerBound value lower = true -> lower <= z <= signedI32Max.
Proof.
  induction value as [|type source IH| | | | | | | | | | | |]; try exact (i32Range_body _ lower z).
  intros Hp Hz Hl. destruct (splat_ok _ _ Hp) as [Hps Hbits]. cbn [typeOf] in Hl.
  rewrite Hbits in Hl. apply IH; [done| |done]. by eapply signedOf_splat.
Qed.

Lemma positivePow2_sound value x :
  program value -> ev value = Some x -> isProvenPositivePow2 value = true ->
  exists k, 0 <= k /\ x = 2 ^ k.
Proof.
  unfold isProvenPositivePow2. intros Hp Hx Hr.
  destruct (program_value _ _ Hp Hx) as (Hb & Hxr & Hz).
  destruct (buildQuery value) as [[expr preds]|] eqn:Eq; [|done].
  apply bool_decide_eq_true in Hr. destruct (pow2_sound _ _ Hr) as [Hb0 Hpow].
  destruct (buildQuery_sound _ _ _ _ Hp Hz Eq) as (v & Hs & Hd).
  destruct (Hpow v _ Hs (Hd Hb0)) as (k & Hk & Ek). exists k. split; [done|].
  pose proof (pow2_pos k Hk). rewrite <-Ek. symmetry. apply signedValue_nonneg; lia.
Qed.

(** The searches are as the passes on division assume. *)
Lemma searchProofs_sound : DivProofsOk holdsOf env program.
Proof.
  constructor; cbn [provesLowerBound provesI32Range provesPow2 provesAtMostSignedMin searchProofs].
  - intros v lower x Hp Hl Hr Hx. destruct (program_value _ _ Hp Hx) as (_ & _ & Hz).
    by apply (proj1 (bounds_ok v)).
  - intros v lower x Hp Hl Hr Hx. destruct (program_value _ _ Hp Hx) as (_ & _ & Hz).
    by apply (i32Range_sound v).
  - intros v x Hp Hr Hx. by apply (positivePow2_sound v).
  - intros v x Hp Hr Hx. by apply (proj1 (proj2 (bounds_ok v))).
Qed.
End Bounds.
