(* ===== verification/QuoSearch.v ===== *)
(** * The guarantee of the searches

    First a small symbolic library, of comparisons and their conjunctions and
    disjunctions, with what it means: the laws of [SymLibraryOk] hold of it.
    Then the guarantee, and a program for it. *)

From stdpp Require Import base tactics list gmap numbers strings pretty.
From Stdlib Require Import ZArith.
From S2P Require Import Prelude QuoIR QuoExpand QuoEval QuoVerify QuoSpec.
From S2P Require Import QuoSymbols QuoProve QuoSymbolsSpec QuoProveSpec.

(** ** A small library *)

Module Small.

Inductive expr : Set :=
  | ESym (name : string)
  | EInt (n : Z)
  | EBinary (op : ExprBinaryOp.t) (lhs rhs : expr).
Inductive pred : Set :=
  | PCmp (op : PredCmpOp.t) (lhs rhs : expr)
  | PAnd (p q : pred)
  | POr (p q : pred).

Definition binaryOps : list ExprBinaryOp.t :=
  [ExprBinaryOp.Add; ExprBinaryOp.Sub; ExprBinaryOp.Mul; ExprBinaryOp.Div; ExprBinaryOp.Mod;
   ExprBinaryOp.Xor; ExprBinaryOp.And; ExprBinaryOp.Or; ExprBinaryOp.Max; ExprBinaryOp.Min].
Definition cmpOps : list PredCmpOp.t :=
  [PredCmpOp.Lt; PredCmpOp.Le; PredCmpOp.Gt; PredCmpOp.Ge; PredCmpOp.Eq; PredCmpOp.Ne].

#[global] Instance binaryOp_eq_dec : EqDecision ExprBinaryOp.t.
Proof. solve_decision. Defined.
#[global] Instance expr_eq_dec : EqDecision expr.
Proof. solve_decision. Defined.
#[global] Instance pred_eq_dec : EqDecision pred.
Proof. solve_decision. Defined.

Definition indexIn {A} `{EqDecision A} (l : list A) (a : A) : nat :=
  default 0%nat (fst <$> list_find (eq a) l).

(** Handles: trees are numbers by [gen_tree]. *)
Fixpoint exprTree (e : expr) : gen_tree (string + Z) :=
  match e with
  | ESym name => GenLeaf (inl name)
  | EInt n => GenLeaf (inr n)
  | EBinary op a b => GenNode (indexIn binaryOps op) [exprTree a; exprTree b]
  end.
Fixpoint treeExpr (t : gen_tree (string + Z)) : expr :=
  match t with
  | GenLeaf (inl name) => ESym name
  | GenLeaf (inr n) => EInt n
  | GenNode n [a; b] =>
      EBinary (default ExprBinaryOp.Add (binaryOps !! n)) (treeExpr a) (treeExpr b)
  | _ => EInt 0
  end.
Lemma treeExpr_exprTree e : treeExpr (exprTree e) = e.
Proof.
  induction e as [| |op a IHa b IHb]; simpl; [done..|]. rewrite IHa, IHb. f_equal. by destruct op.
Qed.
#[global] Instance expr_countable : Countable expr :=
  inj_countable' exprTree treeExpr treeExpr_exprTree.

Fixpoint predTree (p : pred) : gen_tree (PredCmpOp.t * (expr * expr)) :=
  match p with
  | PCmp op a b => GenLeaf (op, (a, b))
  | PAnd p q => GenNode 0 [predTree p; predTree q]
  | POr p q => GenNode 1 [predTree p; predTree q]
  end.
Fixpoint treePred (t : gen_tree (PredCmpOp.t * (expr * expr))) : pred :=
  match t with
  | GenLeaf (op, (a, b)) => PCmp op a b
  | GenNode 0 [p; q] => PAnd (treePred p) (treePred q)
  | GenNode _ [p; q] => POr (treePred p) (treePred q)
  | _ => PCmp PredCmpOp.Eq (EInt 0) (EInt 0)
  end.
Lemma treePred_predTree p : treePred (predTree p) = p.
Proof. induction p as [|p IHp q IHq|p IHp q IHq]; simpl; rewrite ?IHp, ?IHq; done. Qed.
#[global] Instance cmpOp_countable : Countable PredCmpOp.t.
Proof.
  refine (inj_countable' (indexIn cmpOps) (fun n => default PredCmpOp.Lt (cmpOps !! n)) _).
  by intros [].
Defined.
#[global] Instance pred_countable : Countable pred :=
  inj_countable' predTree treePred treePred_predTree.

Definition handle (p : pred) : N := Npos (encode p).
Definition pred_of (n : N) : option pred :=
  match n with Npos code => decode code | N0 => None end.
Lemma pred_of_handle p : pred_of (handle p) = Some p.
Proof. apply decode_encode. Qed.

(** ** What it answers *)

Fixpoint broken (e : expr) : bool :=
  match e with
  | ESym _ => false
  | EInt n => negb ((- 2 ^ 63 <=? n) && (n <? 2 ^ 63))
  | EBinary _ a b => broken a || broken b
  end.
Fixpoint brokenPred (p : pred) : bool :=
  match p with
  | PCmp _ a b => broken a || broken b
  | PAnd p q | POr p q => brokenPred p || brokenPred q
  end.
Definition brokenHandle (n : N) : bool :=
  match pred_of n with Some p => brokenPred p | None => true end.

Definition combine (c : pred -> pred -> pred) (m n : N) : N :=
  match pred_of m, pred_of n with
  | Some p, Some q => handle (c p q)
  | _, _ => m
  end.

Fixpoint substExpr (target replacement e : expr) : expr :=
  if decide (e = target) then replacement
  else match e with
       | EBinary op a b =>
           EBinary op (substExpr target replacement a) (substExpr target replacement b)
       | _ => e
       end.
Fixpoint substPred (target replacement : expr) (p : pred) : pred :=
  match p with
  | PCmp op a b => PCmp op (substExpr target replacement a) (substExpr target replacement b)
  | PAnd p q => PAnd (substPred target replacement p) (substPred target replacement q)
  | POr p q => POr (substPred target replacement p) (substPred target replacement q)
  end.

(** The comparisons that a list of predicates states. *)
Fixpoint stated (p : pred) : list (PredCmpOp.t * expr * expr) :=
  match p with
  | PCmp op a b => [(op, a, b)]
  | PAnd p q => stated p ++ stated q
  | POr _ _ => []
  end.
Definition allStated (facts : list N) : list (PredCmpOp.t * expr * expr) :=
  facts ≫= fun n => match pred_of n with Some p => stated p | None => [] end.
Definition boundOf (op : PredCmpOp.t) (e : expr) (facts : list N) : option Z :=
  head (omap (fun '(op', e', b) =>
    if decide ((op', e') = (op, e))
    then match b with EInt n => if broken b then None else Some n | _ => None end
    else None) (allStated facts)).
Definition endpoint (n : Z) : RationalEndpoint := mkEndpoint n 1.
Definition rangeOf (e : expr) (facts : list N) : option InferredRange :=
  if broken e then None
  else Some (mkInferred (endpoint <$> boundOf PredCmpOp.Ge e facts)
               (endpoint <$> boundOf PredCmpOp.Le e facts)).
Definition pow2Of (e : expr) (facts : list N) : Pow2Fact.t :=
  match boundOf PredCmpOp.Eq e facts with
  | Some n => if negb (broken e) && (0 <? n) && (Z.land n (n - 1) =? 0) then Pow2Fact.Positive
              else Pow2Fact.Unknown
  | None => Pow2Fact.Unknown
  end.
Definition knownIn (facts : list N) (n : N) : CheckResult.t :=
  if bool_decide (n ∈ facts) && negb (brokenHandle n) then CheckResult.True
  else CheckResult.Unknown.

Definition substHandle (n : N) (target replacement : expr) : N :=
  match pred_of n with Some p => handle (substPred target replacement p) | None => n end.

#[export] Instance smallLibrary : SymLibrary := {|
  Expr := expr;
  ixs_sym := ESym;
  ixs_int := EInt;
  ixs_binary := EBinary;
  ixs_cmp op a b := handle (PCmp op a b);
  ixs_and := combine PAnd;
  ixs_or := combine POr;
  ixs_subs := substHandle;
  ixs_range := rangeOf;
  ixs_get_pow2_fact := pow2Of;
  predView _ := PredOther;
  ixs_facts_create _ := true;
  ixs_range_facts facts e := rangeOf e facts;
  ixs_check_facts := knownIn;
  ixs_check_predicate_facts := knownIn;
  ixs_equivalent_facts _ _ _ := CheckResult.Unknown
|}.

(** ** What it means *)

Fixpoint value (v : Valuation) (e : expr) : option Z :=
  if broken e then None
  else match e with
       | ESym name => Some (v name)
       | EInt n => Some n
       | EBinary op a b => x ← value v a; y ← value v b; exactBinary op x y
       end.
Fixpoint holds (v : Valuation) (p : pred) : bool :=
  match p with
  | PCmp op a b =>
      match value v a, value v b with Some x, Some y => compares op x y | _, _ => false end
  | PAnd p q => holds v p && holds v q
  | POr p q => holds v p || holds v q
  end.
Fixpoint namesOf (e : expr) : list string :=
  match e with
  | ESym name => [name]
  | EInt _ => []
  | EBinary _ a b => namesOf a ++ namesOf b
  end.
Fixpoint predNames (p : pred) : list string :=
  match p with
  | PCmp _ a b => namesOf a ++ namesOf b
  | PAnd p q | POr p q => predNames p ++ predNames q
  end.

#[export] Instance smallMeaning : SymMeaning := {|
  denote := value;
  satisfied v n := match pred_of n with Some p => holds v p | None => true end;
  equalValues _ _ _ := true;
  exprBroken := broken;
  predBroken := brokenHandle;
  mentions n := match pred_of n with Some p => predNames p | None => [] end
|}.

Lemma value_broken v e : broken e = true -> value v e = None.
Proof. intros Hb. by destruct e; cbn [value]; rewrite Hb. Qed.

Lemma substExpr_value v target replacement e :
  value v (substExpr (ESym target) (ESym replacement) e) = value (rename v target replacement) e /\
  broken (substExpr (ESym target) (ESym replacement) e) = broken e.
Proof.
  induction e as [name|n|op a IHa b IHb]; cbn [substExpr]; case_decide as E; try done.
  - injection E as ->. split; [|done]. cbn. unfold rename. by rewrite decide_True.
  - split; [|done]. cbn. unfold rename. rewrite decide_False; [done|congruence].
  - destruct IHa as [Va Ba], IHb as [Vb Bb]. cbn [broken]. rewrite Ba, Bb. split; [|done].
    cbn [value broken]. by rewrite Ba, Bb, Va, Vb.
Qed.
Lemma substPred_holds v target replacement p :
  holds v (substPred (ESym target) (ESym replacement) p) = holds (rename v target replacement) p.
Proof.
  induction p as [op a b|p IHp q IHq|p IHp q IHq]; simpl; [|by rewrite IHp, IHq..].
  by rewrite !(proj1 (substExpr_value _ _ _ _)).
Qed.

Lemma value_names v w e : (forall n, n ∈ namesOf e -> v n = w n) -> value v e = value w e.
Proof.
  induction e as [name|n|op a IHa b IHb]; intros Hn; cbn [value]; try done.
  - cbn. by rewrite (Hn name) by (cbn; left).
  - rewrite IHa, IHb; [done|..]; intros n Hin; apply Hn; cbn; apply elem_of_app; auto.
Qed.
Lemma holds_names v w p : (forall n, n ∈ predNames p -> v n = w n) -> holds v p = holds w p.
Proof.
  induction p as [op a b|p IHp q IHq|p IHp q IHq]; intros Hn; simpl;
    [rewrite (value_names v w a), (value_names v w b); [done|..]|rewrite IHp, IHq; [done|..]..];
    intros n Hin; apply Hn; cbn; apply elem_of_app; auto.
Qed.

Lemma stated_holds v p op a b : holds v p = true -> (op, a, b) ∈ stated p -> holds v (PCmp op a b) = true.
Proof.
  induction p as [op' a' b'|p IHp q IHq|p IHp q IHq]; cbn [stated].
  - by intros Hh [= -> -> ->]%list_elem_of_singleton.
  - cbn [holds]. rewrite andb_true_iff, elem_of_app. intros [Hp Hq] [?|?]; auto.
  - by intros _ ?%elem_of_nil.
Qed.

Lemma boundOf_holds v op e facts n :
  allSatisfied v facts -> boundOf op e facts = Some n -> holds v (PCmp op e (EInt n)) = true.
Proof.
  intros Hs Hb. unfold boundOf in Hb.
  assert (n ∈ omap (fun '(op', e', b) =>
    if decide ((op', e') = (op, e))
    then match b with EInt n => if broken b then None else Some n | _ => None end
    else None) (allStated facts)) as Hin.
  { destruct (omap _ _); [done|]. injection Hb as ->. left. }
  apply list_elem_of_omap in Hin as ([[op' e'] b] & Hin & Heq). case_decide as E; [|done].
  injection E as -> ->. destruct b as [|m|]; try done. destruct (broken (EInt m)); [done|].
  injection Heq as ->. unfold allStated in Hin. apply list_elem_of_bind in Hin as (f & Hin & Hf).
  unfold allSatisfied in Hs. rewrite Forall_forall in Hs. specialize (Hs _ Hf). cbn in Hs.
  destruct (pred_of f) as [p|]; [|by apply elem_of_nil in Hin]. by eapply stated_holds.
Qed.

Lemma boundOf_value v op e facts n q :
  allSatisfied v facts -> boundOf op e facts = Some n -> value v e = Some q -> compares op q n = true.
Proof.
  intros Hs Hb Hq. pose proof (boundOf_holds _ _ _ _ _ Hs Hb) as Hh. cbn [holds] in Hh.
  rewrite Hq in Hh. destruct (value v (EInt n)) as [m|] eqn:Hm; [|done].
  cbn [value] in Hm. destruct (broken (EInt n)); [done|]. by injection Hm as <-.
Qed.

Lemma rangeOf_sound e facts range :
  rangeOf e facts = Some range ->
  broken e = false /\
  forall v q, allSatisfied v facts -> value v e = Some q -> inRange range q.
Proof.
  unfold rangeOf. destruct (broken e); [done|]. intros [= <-]. split; [done|]. intros v q Hs Hq.
  split; cbn [range_lower range_upper].
  - destruct (boundOf _ e facts) as [n|] eqn:Eb; [|done].
    pose proof (boundOf_value _ _ _ _ _ _ Hs Eb Hq). simpl in *. lia.
  - destruct (boundOf PredCmpOp.Le e facts) as [n|] eqn:Eb; [|done].
    pose proof (boundOf_value _ _ _ _ _ _ Hs Eb Hq). simpl in *. lia.
Qed.

Lemma knownIn_sound facts n v : allSatisfied v facts ->
  match knownIn facts n with
  | CheckResult.True => satisfied v n = true
  | CheckResult.False => satisfied v n = false
  | CheckResult.Unknown => True
  end.
Proof.
  unfold knownIn. intros Hs. case_bool_decide as Hin; [|done].
  destruct (brokenHandle n); [done|]. unfold allSatisfied in Hs. rewrite Forall_forall in Hs.
  by apply Hs.
Qed.

Lemma combine_spec (c : pred -> pred -> pred) m n :
  (forall p q, brokenPred (c p q) = brokenPred p || brokenPred q) ->
  brokenHandle m = false -> brokenHandle n = false ->
  exists p q, pred_of m = Some p /\ pred_of n = Some q /\ pred_of (combine c m n) = Some (c p q) /\
    brokenHandle (combine c m n) = false.
Proof.
  unfold brokenHandle, combine. intros Hc. destruct (pred_of m) as [p|], (pred_of n) as [q|]; try done.
  intros Hp Hq. exists p, q. rewrite pred_of_handle, Hc, Hp, Hq. done.
Qed.

#[export] Instance smallLibrary_ok : SymLibraryOk.
Proof.
  constructor; cbn -[handle pred_of]; try done.
  - intros v n Hn. destruct (_ && _) eqn:E; [done|].
    apply andb_false_iff in E as [?%Z.leb_gt|?%Z.ltb_ge]; lia.
  - intros v e. apply value_broken.
  - intros op a b. by rewrite orb_false_iff.
  - intros v op a b x y z Hb -> ->. cbn. by rewrite Hb.
  - intros op a b. unfold brokenHandle. by rewrite pred_of_handle.
  - intros v op a b x y Hx Hy. rewrite pred_of_handle. cbn. by rewrite Hx, Hy.
  - intros p q Hp Hq. destruct (combine_spec PAnd p q) as (a & b & -> & -> & -> & ->); done.
  - intros p q Hp Hq. destruct (combine_spec POr p q) as (a & b & -> & -> & -> & ->); done.
  - intros v p t r. unfold substHandle. destruct (pred_of p) as [a|] eqn:Ep; [|by rewrite Ep].
    rewrite pred_of_handle. apply substPred_holds.
  - intros v w p Hn. destruct (pred_of p); [by apply holds_names|done].
  - intros e preds range. apply rangeOf_sound.
  - intros e preds Hp. unfold pow2Of in Hp. destruct (boundOf _ e preds) as [n|] eqn:Eb; [|done].
    destruct (broken e); [done|]. destruct (Z.ltb_spec 0 n); [|done].
    destruct (Z.eqb_spec (Z.land n (n - 1)) 0); [|done]. split; [done|]. intros v q Hs Hq.
    pose proof (boundOf_value _ _ _ _ _ _ Hs Eb Hq) as ->%Z.eqb_eq.
    exists (Z.log2 n). split; [apply Z.log2_nonneg|by apply isPowerOf2_log2].
  - intros facts e range _. apply rangeOf_sound.
  - intros facts p v _. apply knownIn_sound.
  - intros facts p v _. apply knownIn_sound.
  - intros facts p _. unfold knownIn. destruct (bool_decide _); [|done]. by destruct (brokenHandle p).
Qed.
End Small.

(** ** The guarantees *)

(** C5: What the searches prove of a value of the program holds of it: lower bounds
    by assumptions, index expressions, loops, casts and ranges; ranges within
    32 bits and positive powers of two also by queries over the expression of
    the value.  These are the promises that the expansion and the residues of
    loops rest on. *)
Theorem searches_keep_their_promises `{SymLibraryOk} `{!FunctionFacts} `{WaveTarget} env program :
  ProgramOk env program -> DivProofsOk holdsOf env program.
Proof. intros Hprogram. by apply searchProofs_sound. Qed.

(** The search for the name of a binding ends within one step more than there
    are names, with a name that is free. *)
Theorem fresh_binding_name stem (reserved : gmap string WValue) :
  reserved !! getFreshIndexExprBindingName stem reserved = None.
Proof. by apply freshFrom_fresh. Qed.

(** ** A program *)

Section Demo.
Import Small.

Definition i32 : WType := ScalarT (IntT 32).
Definition compareSym (op : PredCmpOp.t) (name : string) (n : Z) : pred :=
  PCmp op (ESym name) (EInt n).

(** [n], between 0 and 100; [d], which is 8; [for i = 0 to n step 4]; and an index
    expression for [n]. *)
Definition demoN : WValue :=
  VAssume (VOther i32 0) "n"
    [handle (PAnd (compareSym PredCmpOp.Ge "n" 0) (compareSym PredCmpOp.Le "n" 100))].
Definition demoD : WValue := VAssume (VOther i32 1) "d" [handle (compareSym PredCmpOp.Eq "d" 8)].
Definition demoIv : WValue := VLoopIv i32 7 false (VConst i32 0) demoN (VConst i32 4).
Definition demoIndex : WValue := VIndexExpr i32 9.
Definition demoValues : list WValue :=
  [demoN; demoD; demoIv; demoIndex; VOther i32 0; VOther i32 1; VConst i32 0; VConst i32 4].
Definition demoProgram (v : WValue) : Prop := v ∈ demoValues.
Definition searchEnv (id : N) : Z :=
  match id with 0%N => 50 | 1%N => 8 | 7%N => 12 | _ => 50 end.
#[local] Instance demoFacts : FunctionFacts := {|
  indexExprOf _ := mkIndexExpr _ (ESym "n") ["n"] [demoN] [];
  indexExprDepth := 1;
  integerRange _ := None
|}.
#[local] Instance demoTarget : WaveTarget := {| urecip y := 2 ^ 32 / y |}.

Lemma demo_values (P : WValue -> Prop) : Forall P demoValues -> forall v, demoProgram v -> P v.
Proof. intros HP v. by apply Forall_forall. Qed.

Lemma demo_program : ProgramOk searchEnv demoProgram.
Proof.
  constructor.
  - apply demo_values. by repeat constructor.
  - apply demo_values. repeat constructor; done.
  - intros value operand Hv. revert value Hv operand.
    apply (demo_values (fun v => forall o, o ∈ operandsOf v -> demoProgram o)).
    unfold demoProgram, demoValues.
    rewrite !Forall_cons, Forall_nil. split_and!; [..|done]; intros o Ho; cbn in Ho;
      set_solver.
  - intros source name preds pred mentioned Hp Hpred. revert Hp.
    unfold demoProgram, demoValues. rewrite !elem_of_cons, elem_of_nil.
    intros [Hp|[Hp|Hp]]; [| |destruct_or?; discriminate || done];
      injection Hp as -> -> ->; apply list_elem_of_singleton in Hpred as ->;
      cbn -[handle pred_of]; rewrite pred_of_handle; cbn; set_solver.
  - intros type id z Hp. unfold demoProgram, demoValues in Hp.
    rewrite !elem_of_cons, elem_of_nil in Hp. destruct_or?; discriminate || done.
  - intros type id u l up st iv Hp Hiv. unfold demoProgram, demoValues in Hp.
    rewrite !elem_of_cons, elem_of_nil in Hp.
    destruct_or?; try done. injection Hp as -> -> -> -> -> ->.
    vm_compute in Hiv. injection Hiv as <-. exists 0, 50. repeat split; vm_compute; congruence.
  - done.
  - intros type id b _ Hb. apply list_elem_of_singleton in Hb as ->. left.
  - intros type id z Hp Hz. unfold demoProgram, demoValues in Hp.
    rewrite !elem_of_cons, elem_of_nil in Hp.
    destruct_or?; try done. injection Hp as -> ->.
    vm_compute in Hz. injection Hz as <-. exists (fun _ => 50).
    split; [reflexivity|]. split; [constructor|]. intros name b Hin. cbn in Hin.
    apply list_elem_of_singleton in Hin. injection Hin as -> ->. reflexivity.
Qed.

(** The searches find all of these. *)
Example demo_searches :
  provesLowerBound demoN 0 = true /\ provesLowerBound demoIv 0 = true /\
  provesLowerBound demoIndex 0 = true /\ provesLowerBound demoN 1 = false /\
  provesI32Range demoN 0 = true /\ provesPow2 demoD = true /\ provesPow2 demoN = false.
Proof. vm_compute. done. Qed.

Lemma searches_keep_their_promises_witness :
  0 <= signedValue 32 12 /\ (exists k, 0 <= k /\ 8 = 2 ^ k) /\ 0 <= signedValue 32 50 <= signedI32Max.
Proof.
  pose proof (searches_keep_their_promises searchEnv demoProgram demo_program) as Hok.
  split; [|split].
  - refine (provesLowerBound_ok demoIv 0 12 _ _ _ _); [|done|by vm_compute|done].
    right; right; left.
  - apply (provesPow2_ok demoD 8); [right; left|by vm_compute|by vm_compute].
  - refine (provesI32Range_ok demoN 0 50 _ _ _ _); [left|done|by vm_compute|by vm_compute].
Defined.

(** A stem that is taken. *)
Example taken_names :
  getFreshIndexExprBindingName "d" {["d" := demoN; "d_0" := demoD; "d_2" := demoIv]} = "d_1"%string.
Proof. vm_compute. reflexivity. Qed.
End Demo.
