(* ===== verification/LaneIR.v ===== *)
(** * Register allocation: live ranges, alias sets and reservations

    The data of the linear scan ([WaveAMDRegAllocTransformState.h],
    [WaveAMDRegAllocTransformLoop.cpp]): values with live ranges, the alias sets
    that are allocated as one tuple, what their operations say about them, the
    registers of the kernel's entry, and the structures that the scan keeps.

    Positions, lanes and widths are [unsigned] and are [Z] here: a function has
    far fewer positions, and a budget far fewer lanes, than would wrap. *)

From Stdlib Require Import Ascii.
From stdpp Require Import base tactics list gmap sorting strings.
From S2P Require Import Prelude MachineIR TicketIR.

(** ** Live ranges *)

Record LiveRange : Set := mkLive { live_start : Z; live_end : Z }.
#[export] Instance LiveRange_eq_dec : EqDecision LiveRange.
Proof. solve_decision. Defined.

Definition liveRangesOverlap (lhs rhs : LiveRange) : bool :=
  (live_start lhs <=? live_end rhs) && (live_start rhs <=? live_end lhs).

(** [llvm::lower_bound] for [range.end < position]. *)
Fixpoint lowerBoundEnd (ranges : list LiveRange) (position : Z) : list LiveRange :=
  match ranges with
  | [] => []
  | range :: rest => if live_end range <? position then lowerBoundEnd rest position else ranges
  end.

Definition liveRangesContainPosition (ranges : list LiveRange) (position : Z) : bool :=
  match lowerBoundEnd ranges position with
  | [] => false
  | range :: _ => live_start range <=? position
  end.

Definition liveRangesOverlapRange (ranges : list LiveRange) (start end_ : Z) : bool :=
  match lowerBoundEnd ranges start with
  | [] => false
  | range :: _ => live_start range <=? end_
  end.

(** Two sorted lists side by side: [visit] sees a pair, and what ends first is
    left behind. *)
Fixpoint walkRanges (visit : LiveRange -> LiveRange -> bool) (lhs : list LiveRange) :
    list LiveRange -> bool :=
  fix walk rhs :=
    match lhs, rhs with
    | l :: lhs', r :: rhs' =>
        visit l r
        || (if live_end l <? live_start r then walkRanges visit lhs' rhs else walk rhs')
    | _, _ => false
    end.
Definition liveRangeListsOverlap (lhs rhs : list LiveRange) : bool :=
  walkRanges liveRangesOverlap lhs rhs.

(** ** What an operation says *)

Module Axis.
Inductive t : Set := X | Y | Z.
#[global] Instance t_eq_dec : EqDecision t.
Proof. solve_decision. Defined.
End Axis.

(** The names of operations that the allocator tells apart. *)
Inductive OpName : Set :=
  | SWorkgroupId (axis : Axis.t)
  | VWorkitemId (axis : Axis.t)
  | KernargPreload (dwordOffset : Z)
  | SLoad (base : list ascii)
  | OtherName (name : nat).
Definition sameName (lhs rhs : OpName) : bool :=
  match lhs, rhs with
  | SWorkgroupId a, SWorkgroupId b | VWorkitemId a, VWorkitemId b => bool_decide (a = b)
  | KernargPreload _, KernargPreload _ | SLoad _, SLoad _ => true
  | OtherName a, OtherName b => bool_decide (a = b)
  | _, _ => false
  end.

(** An operand: the tracked value, by its number, and whether
    [canReuseKilledOperandForResult] of the operation's interface allows the
    result in its register. *)
Record LaneOperand : Set := mkLaneOperand {
  operandValue : option nat;
  operandReusable : bool
}.

(** [def_loops]: the ends of the operations around, the region of which is
    repetitive ([getOperationEnd], [RegAllocRegionFlow::isRepetitive]);
    [def_reuseInterface]: it has the interface for the reuse of killed operands. *)
Record LaneOp : Set := mkLaneOp {
  def_name : OpName;
  def_position : Z;
  def_loops : list Z;
  def_regions : nat;
  def_trackedResults : nat;
  def_reuseInterface : bool;
  def_operands : list LaneOperand
}.

Record LaneType : Set := mkLaneType {
  type_class : RegClass.t;
  type_width : Z;
  type_index : Z
}.
#[export] Instance LaneType_eq_dec : EqDecision LaneType.
Proof. solve_decision. Defined.

(** A value of the function; [pay_mcTuple]: some use of it needs a tuple of the
    assembler's ([requiresMCTupleEncoding]). *)
Record Payload : Set := mkPayload {
  pay_def : option LaneOp;
  pay_type : LaneType;
  pay_mcTuple : bool
}.

Definition isHardwareReadName (name : OpName) : bool :=
  match name with SWorkgroupId _ | VWorkitemId _ => true | _ => false end.
Definition isFixedHardwareRead (value : Payload) : bool :=
  match pay_def value with Some def => isHardwareReadName (def_name def) | None => false end.
Definition areEquivalentFixedHardwareReads (lhs rhs : Payload) : bool :=
  if negb (isFixedHardwareRead lhs) || negb (isFixedHardwareRead rhs) then false
  else if negb (bool_decide (pay_type lhs = pay_type rhs)) then false
  else
    match pay_def lhs, pay_def rhs with
    | Some l, Some r => sameName (def_name l) (def_name r)
    | _, _ => false
    end.

(** ** Values, sets and assignments *)

Module RegAllocTransformValueKind.
Inductive t : Set := BlockArgument | OpResult.
#[global] Instance t_eq_dec : EqDecision t.
Proof. solve_decision. Defined.
End RegAllocTransformValueKind.

Record RegAllocTransformValue : Set := mkLaneValue {
  v_ranges : list LiveRange;
  v_regClass : RegClass.t;
  v_kind : RegAllocTransformValueKind.t;
  v_fixed : option Z;
  v_id : nat;
  v_set : nat;
  v_start : Z;
  v_end : Z;
  v_width : Z;
  v_offset : Z;
  v_number : Z;
  v_path : list Z
}.

Record RegAllocTransformAliasSet : Set := mkLaneSet {
  s_members : list nat;
  s_ranges : list LiveRange;
  s_regClass : RegClass.t;
  s_id : nat;
  s_start : Z;
  s_end : Z;
  s_width : Z
}.

Record RegAllocTransformAssignment : Set := mkAssignment {
  a_regClass : RegClass.t;
  a_set : nat;
  a_base : Z;
  a_width : Z;
  a_start : Z;
  a_end : Z
}.

Record RegAllocTransformBudget : Set := mkBudget { budget_limit : Z; budget_mode : string }.

Definition valueRangeEndsAt (value : RegAllocTransformValue) (position : Z) : bool :=
  existsb (fun range => live_end range =? position) (v_ranges value).

Definition isVGPRFamilyClass (regClass : RegClass.t) : bool :=
  match regClass with RegClass.VGPR | RegClass.AGPR => true | _ => false end.

(** [llvm::alignTo] and [llvm::PowerOf2Ceil]. *)
Definition alignTo (value align : Z) : Z := (value + align - 1) / align * align.
Definition PowerOf2Ceil (value : Z) : Z := 2 ^ Z.log2_up value.

Definition getCombinedVGPRFamilyPressure (agprFootprint vgprFootprint : Z) : Z :=
  agprFootprint + alignTo vgprFootprint 4.

Definition assignedRangesOverlap (assignment : RegAllocTransformAssignment) (base width : Z) :
    bool :=
  let end_ := base + width in
  let assignedEnd := a_base assignment + a_width assignment in
  (base <? assignedEnd) && (a_base assignment <? end_).

Definition registerRangeFits (base width limit : Z) : bool :=
  (base <=? limit) && (width <=? limit - base).

Definition aliasSetLiveAtPosition (set : RegAllocTransformAliasSet) (position : Z) : bool :=
  liveRangesContainPosition (s_ranges set) position.
Definition aliasSetOverlapsRange (set : RegAllocTransformAliasSet) (start end_ : Z) : bool :=
  liveRangesOverlapRange (s_ranges set) start end_.

(** ** The live ranges of a set *)

Definition rangeLe (lhs rhs : LiveRange) : Prop :=
  live_start lhs < live_start rhs \/
  live_start lhs = live_start rhs /\ live_end lhs <= live_end rhs.
#[export] Instance rangeLe_dec lhs rhs : Decision (rangeLe lhs rhs).
Proof. unfold rangeLe. apply _. Defined.

(** [merged] has its last range first. *)
Definition mergeRange (merged : list LiveRange) (range : LiveRange) : list LiveRange :=
  match merged with
  | back :: rest =>
      if live_start range <=? live_end back
      then mkLive (live_start back) (Z.max (live_end back) (live_end range)) :: rest
      else range :: merged
  | [] => [range]
  end.
Definition collectRegAllocTransformAliasSetLiveRanges (members : list nat)
    (values : list RegAllocTransformValue) : list LiveRange :=
  let ranges := members ≫= fun id =>
    match values !! id with Some value => v_ranges value | None => [] end in
  reverse (foldl mergeRange [] (merge_sort rangeLe ranges)).

(** ** The registers of the kernel's entry *)

Record WaveAMDKernelEntryRegs : Set := mkEntryRegs {
  workgroupIdSGPR : Axis.t -> Z;
  workitemIdVGPR : Axis.t -> Z;
  kernargSegmentPtrSGPR : Z;
  kernargSegmentPtrWidth : Z;
  kernargPreloadDwords : Z;
  kernargPreloadOffsetDwords : Z;
  reservedSGPRs : Z;
  reservedVGPRs : Z
}.

(** [StringRef::getAsInteger] of an [unsigned] in base ten. *)
Class LaneLLVM := { getAsUnsigned : RegisterText.Text -> option Z }.

Definition ReservedLaneUses : Set := list (option Z).

Definition noteReservedLaneUse (lastUses : ReservedLaneUses) (lane position : Z) :
    ReservedLaneUses :=
  alter (fun lastUse => Some (match lastUse with Some last => Z.max last position | None => position end))
    (Z.to_nat lane) lastUses.
Definition noteReservedSpanUse (lastUses : ReservedLaneUses) (begin width position : Z) :
    ReservedLaneUses :=
  foldl (fun lastUses lane => noteReservedLaneUse lastUses lane position) lastUses
    (seqZ begin width).

(** The first lane and the width. *)
Definition parseSGPRSpan `{LaneLLVM} (text : RegisterText.Text) : option (Z * Z) :=
  match RegisterText.consumeFront "s"%char (RegisterText.trim text) with
  | None => None
  | Some text =>
      match RegisterText.consumeFront "["%char text with
      | Some text =>
          let '(beginText, text) := RegisterText.split ":"%char text in
          let '(endText, text) := RegisterText.split "]"%char text in
          match beginText, endText, text with
          | _ :: _, _ :: _, [] =>
              match getAsUnsigned beginText, getAsUnsigned endText with
              | Some begin, Some end_ =>
                  if end_ <? begin then None else Some (begin, u32 (end_ - begin + 1))
              | _, _ => None
              end
          | _, _, _ => None
          end
      | None =>
          match getAsUnsigned text with Some reg => Some (reg, 1) | None => None end
      end
  end.

Definition getSLoadBase (op : LaneOp) : option RegisterText.Text :=
  match def_name op with SLoad base => Some base | _ => None end.

Definition getImplicitABIUseEnd (op : LaneOp) : Z :=
  foldl Z.max (def_position op) (def_loops op).

Definition noteImplicitSGPRABIUse `{LaneLLVM} (regs : WaveAMDKernelEntryRegs)
    (sgprLastUses : ReservedLaneUses) (op : LaneOp) : ReservedLaneUses :=
  let base := getSLoadBase op in
  let isPreload := match def_name op with KernargPreload _ => true | _ => false end in
  let end_ := getImplicitABIUseEnd op in
  let sgprLastUses :=
    match base ≫= parseSGPRSpan with
    | Some (begin, width) => noteReservedSpanUse sgprLastUses begin width end_
    | None => sgprLastUses
    end in
  if isPreload
  then noteReservedSpanUse sgprLastUses (kernargSegmentPtrSGPR regs)
         (kernargSegmentPtrWidth regs) end_
  else sgprLastUses.

Definition getKernargPreloadBase (dwordOffset : Z) (type : LaneType)
    (regs : WaveAMDKernelEntryRegs) : option Z :=
  if negb (bool_decide (type_class type = RegClass.SGPR)) then None
  else if dwordOffset <? kernargPreloadOffsetDwords regs then None
  else
    let preloadOffset := dwordOffset - kernargPreloadOffsetDwords regs in
    if kernargPreloadDwords regs <? preloadOffset + type_width type then None
    else Some (kernargSegmentPtrWidth regs + preloadOffset).

Definition getWorkitemIdAxis (op : LaneOp) : option Axis.t :=
  match def_name op with VWorkitemId axis => Some axis | _ => None end.

Definition getEntryRegFixedBase (value : Payload) (regs : WaveAMDKernelEntryRegs) : option Z :=
  match pay_def value with
  | None => None
  | Some def =>
      match bool_decide (type_class (pay_type value) = RegClass.VGPR), getWorkitemIdAxis def with
      | true, Some axis => Some (workitemIdVGPR regs axis)
      | _, _ =>
          if negb (bool_decide (type_class (pay_type value) = RegClass.SGPR)) then None
          else
            match def_name def with
            | SWorkgroupId axis => Some (workgroupIdSGPR regs axis)
            | KernargPreload dwordOffset => getKernargPreloadBase dwordOffset (pay_type value) regs
            | _ => None
            end
      end
  end.

(** ** Limits of the target *)

(** [sgprTupleLegalBases]: the bases at which a tuple of a width may start. *)
Record WaveAMDRegisterLimits : Set := mkLimits {
  sgprTupleLegalBases : gmap Z (list bool);
  vgprTupleAlignment : Z
}.

Definition hasSGPRTupleLegalBases (limits : WaveAMDRegisterLimits) (width : Z) : bool :=
  bool_decide (is_Some (sgprTupleLegalBases limits !! width)).
Definition isSGPRTupleBaseLegal (limits : WaveAMDRegisterLimits) (width base : Z) : bool :=
  match sgprTupleLegalBases limits !! width with
  | Some bases => default false (bases !! Z.to_nat base)
  | None => false
  end.
Definition isWaveAMDRegisterTupleBaseLegal (limits : WaveAMDRegisterLimits)
    (regClass : RegClass.t) (width base : Z) : bool :=
  if width <=? 1 then true
  else if bool_decide (regClass = RegClass.SGPR) && hasSGPRTupleLegalBases limits width
       then isSGPRTupleBaseLegal limits width base
       else
         let alignment :=
           if bool_decide (regClass = RegClass.VGPR) && negb (vgprTupleAlignment limits =? 0)
           then vgprTupleAlignment limits
           else PowerOf2Ceil width in
         base mod alignment =? 0.

(** ** Reservations *)

(** The first element for which [f] answers. *)
Fixpoint firstSome {A B} (f : A -> option B) (l : list A) : option B :=
  match l with
  | [] => None
  | a :: l => match f a with Some b => Some b | None => firstSome f l end
  end.

Record FixedReservations : Type := mkReservations {
  reservations : list RegAllocTransformAssignment;
  reservationsByClass : RegClass.t -> list nat
}.
Definition noReservations : FixedReservations := mkReservations [] (fun _ => []).

(** A function of the classes with one entry changed. *)
Definition updateClass {A} (regClass : RegClass.t) (f : A -> A) (table : RegClass.t -> A) :
    RegClass.t -> A :=
  fun other => if decide (other = regClass) then f (table other) else table other.

Definition reservation_push_back (fixed : FixedReservations)
    (reservation : RegAllocTransformAssignment) : FixedReservations :=
  mkReservations (reservations fixed ++ [reservation])
    (updateClass (a_regClass reservation)
       (fun indices => indices ++ [length (reservations fixed)]) (reservationsByClass fixed)).
Definition reservationsOf (fixed : FixedReservations) (regClass : RegClass.t) :
    list RegAllocTransformAssignment :=
  omap (fun index => reservations fixed !! index) (reservationsByClass fixed regClass).

(** ** Assignments that are live *)

(** [byEnd] is a heap with the least end, then the least set, in front: here the
    list in the order in which the heap gives its elements up.  [activeLive] is
    the [BitVector]'s ones. *)
Record ActiveAssignments : Type := mkActive {
  activeOrdered : list nat;
  activeByEnd : list nat;
  activeByClass : RegClass.t -> list nat;
  activeByClassLane : RegClass.t -> list (list nat);
  activeLive : gset nat;
  activeBySet : gmap nat nat;
  activeStale : nat
}.
Definition noActive : ActiveAssignments :=
  mkActive [] [] (fun _ => []) (fun _ => []) ∅ ∅ 0.

Section Active.
Context (assignments : list RegAllocTransformAssignment).

(** [endHeapCompare]: [lhs] is given up after [rhs]. *)
Definition endHeapCompare (lhs rhs : nat) : bool :=
  match assignments !! lhs, assignments !! rhs with
  | Some l, Some r =>
      (a_end r <? a_end l) || ((a_end r =? a_end l) && (a_set r <? a_set l)%nat)
  | _, _ => false
  end.
Fixpoint pushByEnd (index : nat) (heap : list nat) : list nat :=
  match heap with
  | [] => [index]
  | front :: rest =>
      if endHeapCompare index front then front :: pushByEnd index rest else index :: heap
  end.

Definition active_isLive (active : ActiveAssignments) (index : nat) : bool :=
  bool_decide (index ∈ activeLive active).

Definition resizeLanes (lanes : list (list nat)) (size : nat) : list (list nat) :=
  lanes ++ replicate (size - length lanes) [].

Definition active_add (active : ActiveAssignments) (index : nat)
    (assignment : RegAllocTransformAssignment) : ActiveAssignments :=
  let begin := Z.to_nat (a_base assignment) in
  let end_ := Z.to_nat (a_base assignment + a_width assignment) in
  mkActive (activeOrdered active ++ [index])
    (pushByEnd index (activeByEnd active))
    (updateClass (a_regClass assignment) (fun indices => indices ++ [index])
       (activeByClass active))
    (updateClass (a_regClass assignment)
       (fun lanes =>
          imap (fun lane indices =>
                  if bool_decide (begin <= lane < end_)%nat then indices ++ [index] else indices)
            (resizeLanes lanes end_))
       (activeByClassLane active))
    ({[index]} ∪ activeLive active)
    (<[a_set assignment := index]> (activeBySet active))
    (activeStale active).

Definition eraseInactive (active : ActiveAssignments) (indices : list nat) : list nat :=
  base.filter (fun index => index ∈ activeLive active) indices.
Definition active_compact (active : ActiveAssignments) : ActiveAssignments :=
  mkActive (eraseInactive active (activeOrdered active))
    (activeByEnd active)
    (fun regClass => eraseInactive active (activeByClass active regClass))
    (fun regClass => map (eraseInactive active) (activeByClassLane active regClass))
    (activeLive active) (activeBySet active) 0.

(** What ended before [position] goes. *)
Fixpoint expireLoop (position : Z) (heap : list nat) (active : ActiveAssignments) :
    ActiveAssignments :=
  let with_heap heap active :=
    mkActive (activeOrdered active) heap (activeByClass active) (activeByClassLane active)
      (activeLive active) (activeBySet active) (activeStale active) in
  match heap with
  | [] => with_heap [] active
  | index :: rest =>
      match assignments !! index with
      | None => with_heap heap active
      | Some assignment =>
          if position <=? a_end assignment then with_heap heap active
          else if bool_decide (activeBySet active !! a_set assignment = Some index)
               then expireLoop position rest
                      (mkActive (activeOrdered active) (activeByEnd active)
                         (activeByClass active) (activeByClassLane active)
                         (activeLive active ∖ {[index]})
                         (delete (a_set assignment) (activeBySet active))
                         (S (activeStale active)))
               else expireLoop position rest active
      end
  end.
Definition active_expire (position : Z) (active : ActiveAssignments) : ActiveAssignments :=
  let active := expireLoop position (activeByEnd active) active in
  if (size (activeBySet active) <? activeStale active)%nat then active_compact active else active.

Definition active_lookup (active : ActiveAssignments) (setId : nat) :
    option RegAllocTransformAssignment :=
  activeBySet active !! setId ≫= fun index => assignments !! index.
Definition active_contains (active : ActiveAssignments) (setId : nat) : bool :=
  bool_decide (is_Some (activeBySet active !! setId)).

(** [forOrdered] and [forRegClass]: what they call their function with. *)
Definition liveAssignments (active : ActiveAssignments) (indices : list nat) :
    list RegAllocTransformAssignment :=
  omap (fun index => assignments !! index) (eraseInactive active indices).
Definition active_ordered (active : ActiveAssignments) : list RegAllocTransformAssignment :=
  liveAssignments active (activeOrdered active).
Definition active_regClass (active : ActiveAssignments) (regClass : RegClass.t) :
    list RegAllocTransformAssignment :=
  liveAssignments active (activeByClass active regClass).

(** [anyRegClassOverlappingRange]: a query marks what it visited, so that it sees
    an assignment once, on the first of its lanes. *)
Fixpoint visitLane {B} (f : RegAllocTransformAssignment -> option B) (active : ActiveAssignments)
    (visited : gset nat) (indices : list nat) : gset nat * option B :=
  match indices with
  | [] => (visited, None)
  | index :: rest =>
      if negb (active_isLive active index) || bool_decide (index ∈ visited)
      then visitLane f active visited rest
      else
        match assignments !! index ≫= f with
        | Some b => (visited, Some b)
        | None => visitLane f active ({[index]} ∪ visited) rest
        end
  end.
Fixpoint visitLanes {B} (f : RegAllocTransformAssignment -> option B) (active : ActiveAssignments)
    (visited : gset nat) (lanes : list (list nat)) : option B :=
  match lanes with
  | [] => None
  | indices :: lanes =>
      match visitLane f active visited indices with
      | (_, Some b) => Some b
      | (visited, None) => visitLanes f active visited lanes
      end
  end.
Definition anyRegClassOverlappingRange {B} (f : RegAllocTransformAssignment -> option B)
    (active : ActiveAssignments) (regClass : RegClass.t) (base width : Z) : option B :=
  visitLanes f active ∅
    (take (Z.to_nat width) (drop (Z.to_nat base) (activeByClassLane active regClass))).
End Active.
