(* ===== verification/LaneScan.v ===== *)
(** * Register allocation: the linear scan

    [RegAllocLinearScanner] of [WaveAMDRegAllocTransformLoop.cpp]: sets of
    aliased values are given registers in the order in which they start; a set
    takes the lowest base that is free, the base of an operand that its
    operation kills where that is lower, or the base it is fixed to. *)

From stdpp Require Import base tactics list gmap strings.
From S2P Require Import Prelude MachineIR TicketIR LaneIR.

Import RegAllocTransformValueKind.

(** ** The combined footprint of vector and accumulation registers *)

Record ActiveRange : Set := mkActiveRange {
  ar_footprint : Z;
  ar_end : Z;
  ar_sequence : nat
}.
Record FutureRange : Set := mkFutureRange {
  fr_regClass : RegClass.t;
  fr_footprint : Z;
  fr_start : Z;
  fr_end : Z;
  fr_sequence : nat
}.

(** The heaps are lists in the order in which they give up: ranges in use with
    the largest footprint first, ranges to come with the first start first. *)
Record CombinedFootprintTracker : Set := mkTracker {
  activeRanges : bool -> list ActiveRange;
  futureRanges : list FutureRange;
  currentPosition : option Z;
  nextSequence : nat
}.
Definition noFootprints : CombinedFootprintTracker := mkTracker (fun _ => []) [] None 0.

(** [getFamilyIndex]: whether it is the family of the accumulation registers. *)
Definition getFamilyIndex (regClass : RegClass.t) : bool := bool_decide (regClass = RegClass.AGPR).

(** [lhs] is given up after [rhs]. *)
Definition activeRangeLess (lhs rhs : ActiveRange) : bool :=
  (ar_footprint lhs <? ar_footprint rhs)
  || ((ar_footprint lhs =? ar_footprint rhs)
      && ((ar_end lhs <? ar_end rhs)
          || ((ar_end lhs =? ar_end rhs) && (ar_sequence lhs <? ar_sequence rhs)%nat))).
Definition futureRangeLess (lhs rhs : FutureRange) : bool :=
  (fr_start rhs <? fr_start lhs)
  || ((fr_start rhs =? fr_start lhs) && (fr_sequence rhs <? fr_sequence lhs)%nat).

(** [std::push_heap]. *)
Fixpoint pushHeap {A} (less : A -> A -> bool) (element : A) (heap : list A) : list A :=
  match heap with
  | [] => [element]
  | front :: rest =>
      if less element front then front :: pushHeap less element rest else element :: heap
  end.

Definition addActive (range : FutureRange) (tracker : CombinedFootprintTracker) :
    CombinedFootprintTracker :=
  let family := getFamilyIndex (fr_regClass range) in
  mkTracker
    (fun other =>
       if Bool.eqb other family
       then pushHeap activeRangeLess
              (mkActiveRange (fr_footprint range) (fr_end range) (fr_sequence range))
              (activeRanges tracker family)
       else activeRanges tracker other)
    (futureRanges tracker) (currentPosition tracker) (nextSequence tracker).

Fixpoint startRanges (position : Z) (future : list FutureRange)
    (tracker : CombinedFootprintTracker) : CombinedFootprintTracker :=
  match future with
  | range :: rest =>
      if fr_start range <=? position
      then startRanges position rest
             (if position <=? fr_end range then addActive range tracker else tracker)
      else mkTracker (activeRanges tracker) future (currentPosition tracker) (nextSequence tracker)
  | [] => mkTracker (activeRanges tracker) [] (currentPosition tracker) (nextSequence tracker)
  end.
Fixpoint dropEnded (position : Z) (ranges : list ActiveRange) : list ActiveRange :=
  match ranges with
  | range :: rest => if ar_end range <? position then dropEnded position rest else ranges
  | [] => []
  end.
Definition footprint_advance (position : Z) (tracker : CombinedFootprintTracker) :
    CombinedFootprintTracker :=
  let tracker :=
    startRanges position (futureRanges tracker)
      (mkTracker (activeRanges tracker) (futureRanges tracker) (Some position)
         (nextSequence tracker)) in
  mkTracker (fun family => dropEnded position (activeRanges tracker family))
    (futureRanges tracker) (currentPosition tracker) (nextSequence tracker).

Definition footprint_addRange (regClass : RegClass.t) (footprint : Z)
    (tracker : CombinedFootprintTracker) (range : LiveRange) : CombinedFootprintTracker :=
  let position := default 0 (currentPosition tracker) in
  if live_end range <? position then tracker
  else
    let future :=
      mkFutureRange regClass footprint (live_start range) (live_end range) (nextSequence tracker) in
    let tracker :=
      mkTracker (activeRanges tracker) (futureRanges tracker) (currentPosition tracker)
        (S (nextSequence tracker)) in
    if live_start range <=? position then addActive future tracker
    else
      mkTracker (activeRanges tracker) (pushHeap futureRangeLess future (futureRanges tracker))
        (currentPosition tracker) (nextSequence tracker).
Definition footprint_add (set : RegAllocTransformAliasSet) (base : Z)
    (tracker : CombinedFootprintTracker) : CombinedFootprintTracker :=
  if negb (isVGPRFamilyClass (s_regClass set)) then tracker
  else foldl (footprint_addRange (s_regClass set) (base + s_width set)) tracker (s_ranges set).

Definition footprint_get (regClass : RegClass.t) (tracker : CombinedFootprintTracker) : Z :=
  match activeRanges tracker (getFamilyIndex regClass) with
  | [] => 0
  | range :: _ => ar_footprint range
  end.

(** ** The input and the state of the scan *)

(** [RegAllocTransformDecodedState] with what the scan reads of the function:
    [in_ops] the operations that have a position, [in_isa] whether the target has
    an instruction set version. *)
Record ScanInput : Type := mkScanInput {
  in_hasState : bool;
  in_values : list RegAllocTransformValue;
  in_sets : list RegAllocTransformAliasSet;
  in_resolved : list (Payload * nat);
  in_ops : list LaneOp;
  in_entryRegs : WaveAMDKernelEntryRegs;
  in_budget : RegClass.t -> RegAllocTransformBudget;
  in_familyBudget : outcome (option RegAllocTransformBudget);
  in_limits : outcome (option WaveAMDRegisterLimits);
  in_isa : bool
}.

Record RegAllocScanFailure : Type := mkScanFailure {
  failed_overlaps : list RegAllocTransformAssignment;
  failed_regClass : RegClass.t;
  failed_className : string;
  failed_reason : string;
  failed_budgetMode : string;
  failed_set : nat;
  failed_position : Z;
  failed_pressure : Z;
  failed_limit : Z;
  failed_request : Z
}.

(** What [parseState] computes. *)
Record ScanTables : Type := mkTables {
  setIndexById : list (option nat);
  sparseSetIndexById : gmap nat nat;
  payloadValues : list (option Payload);
  familyBudget : option RegAllocTransformBudget;
  targetLimits : option WaveAMDRegisterLimits;
  fixedBases : list (option Z);
  fixedHardwareReadValues : gmap nat Payload;
  fixedReservations : FixedReservations
}.

Record ScanState : Type := mkScan {
  assignments : list RegAllocTransformAssignment;
  assignmentIndexBySet : gmap nat nat;
  active : ActiveAssignments;
  combinedFootprints : CombinedFootprintTracker;
  scanFailure : option RegAllocScanFailure
}.
Definition initialScan : ScanState := mkScan [] ∅ noActive noFootprints None.

Record ReusableInputBase : Set := mkReusable { reusable_base : Z; reusable_sourceSet : nat }.

(** ** The index of the sets *)

Section Index.
Context (sets : list RegAllocTransformAliasSet).

Definition denseStep (entries : list (option nat)) (entry : nat * RegAllocTransformAliasSet) :
    outcome (list (option nat)) :=
  let '(index, set) := entry in
  match entries !! s_id set with
  | Some (Some _) => Failure
  | _ => Ok (<[s_id set := Some index]> entries)
  end.
Definition sparseStep (entries : gmap nat nat) (entry : nat * RegAllocTransformAliasSet) :
    outcome (gmap nat nat) :=
  let '(index, set) := entry in
  match entries !! s_id set with
  | Some _ => Failure
  | None => Ok (<[s_id set := index]> entries)
  end.

(** A table, or a map where the numbers of the sets are far apart. *)
Definition buildSetIndex : outcome (list (option nat) * gmap nat nat) :=
  match sets with
  | [] => Ok ([], ∅)
  | _ =>
      let maxSetId := foldl Nat.max 0%nat (map s_id sets) in
      if (maxSetId <=? length sets * 4)%nat
      then entries ← foldM denseStep (replicate (S maxSetId) None) (imap pair sets);
           Ok (entries, ∅)
      else entries ← foldM sparseStep ∅ (imap pair sets);
           Ok ([], entries)
  end.
End Index.

Definition collectResolvedValues (values : list RegAllocTransformValue)
    (resolvedValues : list (Payload * nat)) : outcome (list (option Payload)) :=
  if negb (length resolvedValues =? length values)%nat then Failure
  else
    foldM (fun payloadValues '(payloadValue, id) =>
      if (length payloadValues <=? id)%nat then Failure
      else Ok (<[id := Some payloadValue]> payloadValues))
      (replicate (length values) None) resolvedValues.

(** ** Fixed bases and reservations *)

Section Scan.
Context `{LaneLLVM} (input : ScanInput).
Abbreviation values := (in_values input).
Abbreviation sets := (in_sets input).

Definition membersOf (set : RegAllocTransformAliasSet) : list RegAllocTransformValue :=
  omap (fun id => values !! id) (s_members set).

Section Constraints.
Context (payloadValues : list (option Payload)) (targetLimits : option WaveAMDRegisterLimits).

Definition hasTargetTupleConstraint (value : RegAllocTransformValue) : bool :=
  match targetLimits with
  | None => false
  | Some limits =>
      if v_width value <=? 1 then false
      else if bool_decide (v_regClass value = RegClass.SGPR)
           then match mjoin (payloadValues !! v_id value) with
                | Some payload => pay_mcTuple payload
                | None => false
                end
           else bool_decide (v_regClass value = RegClass.VGPR) && (1 <? vgprTupleAlignment limits)
  end.

Definition targetTupleBaseIsLegal (base : Z) (value : RegAllocTransformValue) : bool :=
  if negb (hasTargetTupleConstraint value) then false
  else
    match targetLimits with
    | None => false
    | Some limits =>
        if bool_decide (v_regClass value = RegClass.SGPR)
        then isSGPRTupleBaseLegal limits (v_width value) base
        else isWaveAMDRegisterTupleBaseLegal limits (v_regClass value) (v_width value) base
    end.

Definition setMembersMeetTargetConstraints (set : RegAllocTransformAliasSet) (base : Z) : bool :=
  forallb (fun value =>
    if negb (hasTargetTupleConstraint value) then true
    else
      let physicalBase := base + v_offset value in
      (physicalBase <=? UINT_MAX) && targetTupleBaseIsLegal physicalBase value) (membersOf set).

Definition getRequiredAlignment (set : RegAllocTransformAliasSet) : Z :=
  if s_width set <=? 1 then 1
  else if bool_decide (s_regClass set = RegClass.SGPR)
          && existsb hasTargetTupleConstraint (membersOf set)
       then 1
       else
         match targetLimits with
         | Some limits =>
             if bool_decide (s_regClass set = RegClass.VGPR)
                && negb (vgprTupleAlignment limits =? 0)
             then vgprTupleAlignment limits
             else PowerOf2Ceil (s_width set)
         | None => PowerOf2Ceil (s_width set)
         end.

Definition setBaseIsLegal (set : RegAllocTransformAliasSet) (base : Z) : bool :=
  (base mod getRequiredAlignment set =? 0) && setMembersMeetTargetConstraints set base.

Definition recordFixedFailure (set : RegAllocTransformAliasSet) (reason : string) :
    RegAllocScanFailure :=
  let budget := in_budget input (s_regClass set) in
  mkScanFailure [] (s_regClass set) "" reason (budget_mode budget) (s_id set) (s_start set)
    (s_width set) (budget_limit budget) (s_width set).

(** The base that the members are fixed to, if they are, and the reason why there
    is none. *)
Fixpoint fixedBaseOf (members : list RegAllocTransformValue) (fixedBase : option Z) :
    option Z * option string :=
  match members with
  | [] => (fixedBase, None)
  | value :: rest =>
      match v_fixed value with
      | None => fixedBaseOf rest fixedBase
      | Some fixed =>
          if fixed <? v_offset value then (fixedBase, Some "fixed-underflow"%string)
          else
            let base := fixed - v_offset value in
            match fixedBase with
            | Some other =>
                if negb (other =? base) then (fixedBase, Some "fixed-conflict"%string)
                else fixedBaseOf rest (Some base)
            | None => fixedBaseOf rest (Some base)
            end
      end
  end.
Definition computeFixedBase (set : RegAllocTransformAliasSet) : option Z * option RegAllocScanFailure :=
  match fixedBaseOf (membersOf set) None with
  | (fixedBase, Some reason) => (fixedBase, Some (recordFixedFailure set reason))
  | (Some base, None) =>
      (Some base,
       if negb (setMembersMeetTargetConstraints set base)
       then Some (recordFixedFailure set "fixed-alignment") else None)
  | (None, None) => (None, None)
  end.

(** A later failure is recorded over an earlier one. *)
Definition computeFixedBases : list (option Z) * option RegAllocScanFailure :=
  foldl (fun '(bases, failure) set =>
    let '(base, failed) := computeFixedBase set in
    (bases ++ [base], match failed with Some _ => failed | None => failure end))
    ([], None) sets.

Section Fixed.
Context (fixedBases : list (option Z)).

Definition collectFixedHardwareReadSets : gmap nat Payload :=
  foldl (fun reads '(index, set) =>
    match mjoin (fixedBases !! index), s_members set with
    | Some _, [valueId] =>
        match mjoin (payloadValues !! valueId) with
        | Some payload =>
            if isFixedHardwareRead payload then <[s_id set := payload]> reads else reads
        | None => reads
        end
    | _, _ => reads
    end) ∅ (imap pair sets).

Definition collectFixedReservations : FixedReservations :=
  foldl (fun fixed '(index, set) =>
    match mjoin (fixedBases !! index) with
    | None => fixed
    | Some fixedBase =>
        if negb (registerRangeFits fixedBase (s_width set)
                   (budget_limit (in_budget input (s_regClass set))))
        then fixed
        else foldl (fun fixed range =>
               reservation_push_back fixed
                 (mkAssignment (s_regClass set) (s_id set) fixedBase (s_width set)
                    (live_start range) (live_end range))) fixed (s_ranges set)
    end) noReservations (imap pair sets).

Definition collectEntryABIReservations (fixed : FixedReservations) : FixedReservations :=
  let regs := in_entryRegs input in
  if (reservedSGPRs regs =? 0) && (reservedVGPRs regs =? 0) then fixed
  else
    foldl (fun fixed stateValue =>
      match v_fixed stateValue, mjoin (payloadValues !! v_id stateValue) with
      | Some _, Some value =>
          match getEntryRegFixedBase value regs with
          | None => fixed
          | Some base =>
              let implicitEnd :=
                match pay_def value with
                | Some def => if isFixedHardwareRead value then getImplicitABIUseEnd def else 0
                | None => 0
                end in
              foldl (fun fixed '(index, range) =>
                let setId := (length sets + length (reservations fixed))%nat in
                let start := if (index =? 0)%nat then 0 else live_start range in
                reservation_push_back fixed
                  (mkAssignment (v_regClass stateValue) setId base (v_width stateValue) start
                     (Z.max (live_end range) implicitEnd))) fixed (imap pair (v_ranges stateValue))
          end
      | _, _ => fixed
      end) fixed values.

Definition collectImplicitABIReservations (fixed : FixedReservations) : FixedReservations :=
  let regs := in_entryRegs input in
  let sgprLastUses :=
    foldl (noteImplicitSGPRABIUse regs) (replicate (Z.to_nat (reservedSGPRs regs)) None)
      (in_ops input) in
  foldl (fun fixed '(lane, lastUse) =>
    match lastUse with
    | None => fixed
    | Some last =>
        let setId := (length sets + length (reservations fixed))%nat in
        reservation_push_back fixed (mkAssignment RegClass.SGPR setId (Z.of_nat lane) 1 0 last)
    end) fixed (imap pair sgprLastUses).
End Fixed.
End Constraints.

Definition parseState : outcome (ScanTables * option RegAllocScanFailure) :=
  if negb (in_hasState input) then Failure
  else
    '(setIndexById, sparseSetIndexById) ← buildSetIndex sets;
    payloadValues ← collectResolvedValues values (in_resolved input);
    familyBudget ← in_familyBudget input;
    targetLimits ← in_limits input;
    let '(fixedBases, failure) := computeFixedBases payloadValues targetLimits in
    let fixed :=
      collectImplicitABIReservations
        (collectEntryABIReservations payloadValues (collectFixedReservations fixedBases)) in
    Ok (mkTables setIndexById sparseSetIndexById payloadValues familyBudget targetLimits fixedBases
          (collectFixedHardwareReadSets payloadValues fixedBases) fixed, failure).
End Scan.

(** ** Queries

    About the set [set], the [index]-th, where [state] is the scan before it.
    Whether a member conflicts with the set is remembered for the time of the
    query ([memberConflicts]); here it is computed again. *)

Section Queries.
Context (input : ScanInput) (tables : ScanTables).
Abbreviation values := (in_values input).
Abbreviation sets := (in_sets input).

Definition payloadOf (id : nat) : option Payload := mjoin (payloadValues tables !! id).

Definition getSetById (setId : nat) : option RegAllocTransformAliasSet :=
  if (setId <? length (setIndexById tables))%nat
  then mjoin (setIndexById tables !! setId) ≫= fun index => sets !! index
  else sparseSetIndexById tables !! setId ≫= fun index => sets !! index.

Definition setLiveAtPosition (setId : nat) (position : Z) : bool :=
  match getSetById setId with
  | None => true
  | Some set => aliasSetLiveAtPosition set position
  end.

Section Set_.
Context (index : nat) (set : RegAllocTransformAliasSet) (state : ScanState).

Definition getFixedBase : option Z := mjoin (fixedBases tables !! index).

Definition getSingleResultValue : option RegAllocTransformValue :=
  match s_members set with
  | [valueId] =>
      value ← values !! valueId;
      if negb (bool_decide (v_kind value = OpResult)) || negb (v_start value =? s_start set)
         || negb (v_offset value =? 0) || negb (v_width value =? s_width set)
      then None else Some value
  | _ => None
  end.

(** [canReuseKilledOperandForResult], of a definition and the first of its operands
    that is the value. *)
Definition isReuseCandidate (def : LaneOp) : bool :=
  (def_regions def =? 0)%nat && (def_trackedResults def =? 1)%nat && def_reuseInterface def.
Definition firstUseReusable (def : LaneOp) (value : nat) : bool :=
  match list_find (fun operand => operandValue operand = Some value) (def_operands def) with
  | Some (_, operand) => isReuseCandidate def && in_isa input && operandReusable operand
  | None => false
  end.

Definition isDestructiveResultContinuation (member : RegAllocTransformValue) : bool :=
  match getSingleResultValue with
  | None => false
  | Some resultValue =>
      if negb (v_id resultValue <? length (payloadValues tables))%nat
         || negb (v_id member <? length (payloadValues tables))%nat
         || negb (bool_decide (v_kind member = OpResult))
         || negb (v_start member =? s_end set)
      then false
      else
        match payloadOf (v_id member) ≫= pay_def with
        | None => false
        | Some def => firstUseReusable def (v_id resultValue)
        end
  end.

Definition memberBlocksReusableResult (member : RegAllocTransformValue) : bool :=
  walkRanges (fun memberRange setRange =>
    liveRangesOverlap memberRange setRange
    && (s_start set <? Z.min (live_end memberRange) (live_end setRange))
    && (negb (Z.max (live_start memberRange) (live_start setRange) =? s_end set)
        || negb (Z.min (live_end memberRange) (live_end setRange) =? s_end set)
        || negb (isDestructiveResultContinuation member)))
    (v_ranges member) (s_ranges set).

(** [None]: an overlap elsewhere than at the end of the set. *)
Fixpoint continuationWalk (sawOverlap : bool) (lhs : list LiveRange) :
    list LiveRange -> option bool :=
  (fix walk sawOverlap rhs :=
    match lhs, rhs with
    | l :: lhs', r :: rhs' =>
        let overlaps := liveRangesOverlap l r in
        if overlaps && (negb (Z.max (live_start l) (live_start r) =? s_end set)
                        || negb (Z.min (live_end l) (live_end r) =? s_end set))
        then None
        else if live_end l <? live_start r
             then continuationWalk (sawOverlap || overlaps) lhs' rhs
             else walk (sawOverlap || overlaps) rhs'
    | _, _ => Some sawOverlap
    end) sawOverlap.
Definition memberOverlapIsDestructiveContinuation (member : RegAllocTransformValue) : bool :=
  match continuationWalk false (v_ranges member) (s_ranges set) with
  | Some sawOverlap => sawOverlap && isDestructiveResultContinuation member
  | None => false
  end.

Definition memberConflictsWithSet (member : RegAllocTransformValue) : bool :=
  liveRangeListsOverlap (v_ranges member) (s_ranges set)
  && negb (memberOverlapIsDestructiveContinuation member).

Definition getActiveAssignmentConflictEnd (assigned : RegAllocTransformAssignment) (base : Z) :
    option Z :=
  match getSetById (a_set assigned) with
  | None =>
      if aliasSetOverlapsRange set (a_start assigned) (a_end assigned)
      then Some (a_base assigned + a_width assigned) else None
  | Some assignedSet =>
      let setEnd := base + s_width set in
      firstSome (fun member =>
        let memberBegin := a_base assigned + v_offset member in
        let memberEnd := memberBegin + v_width member in
        if (setEnd <=? memberBegin) || (memberEnd <=? base) then None
        else if memberConflictsWithSet member then Some memberEnd else None)
        (membersOf input assignedSet)
  end.
Definition activeAssignmentConflicts (assigned : RegAllocTransformAssignment) (base : Z) : bool :=
  bool_decide (is_Some (getActiveAssignmentConflictEnd assigned base)).

Definition canShareFixedHardwareRead (assigned : RegAllocTransformAssignment) (base : Z) : bool :=
  match getFixedBase with
  | None => false
  | Some fixedBase =>
      if negb (fixedBase =? base) || negb (a_base assigned =? base)
         || negb (a_width assigned =? s_width set)
      then false
      else
        match fixedHardwareReadValues tables !! s_id set,
              fixedHardwareReadValues tables !! a_set assigned with
        | Some lhs, Some rhs => areEquivalentFixedHardwareReads lhs rhs
        | _, _ => false
        end
  end.

Definition findActiveConflictEnd (base : Z) : option Z :=
  anyRegClassOverlappingRange (assignments state) (fun assigned =>
    if negb (assignedRangesOverlap assigned base (s_width set)) then None
    else
      match getActiveAssignmentConflictEnd assigned base with
      | None => None
      | Some conflictEnd =>
          if canShareFixedHardwareRead assigned base then None else Some conflictEnd
      end) (active state) (s_regClass set) base (s_width set).
Definition conflictsWithActive (base : Z) : bool :=
  bool_decide (is_Some (findActiveConflictEnd base)).

Definition conflictsWithActiveIgnoring (base : Z) (ignoredSetId : nat) : bool :=
  bool_decide (is_Some (anyRegClassOverlappingRange (assignments state) (fun assigned =>
    if bool_decide (a_set assigned = ignoredSetId) then None
    else if negb (assignedRangesOverlap assigned base (s_width set))
            || negb (activeAssignmentConflicts assigned base)
         then None
         else if canShareFixedHardwareRead assigned base then None else Some tt)
    (active state) (s_regClass set) base (s_width set))).

Definition findFixedReservationConflictEnd (base : Z) : option Z :=
  firstSome (fun reserved =>
    if negb (assignedRangesOverlap reserved base (s_width set)) then None
    else if negb (aliasSetOverlapsRange set (a_start reserved) (a_end reserved)) then None
    else Some (a_base reserved + a_width reserved))
    (reservationsOf (fixedReservations tables) (s_regClass set)).

Definition reservationCoveredByIgnoredSource (reserved ignored : RegAllocTransformAssignment) :
    bool :=
  bool_decide (a_regClass reserved = a_regClass ignored)
  && (a_base reserved <=? a_base ignored)
  && (a_base ignored + a_width ignored <=? a_base reserved + a_width reserved)
  && (a_end reserved =? a_end ignored).

Definition conflictsWithFixedReservationIgnoring (base : Z)
    (ignored : RegAllocTransformAssignment) : bool :=
  existsb (fun reserved =>
    if negb (assignedRangesOverlap reserved base (s_width set)) then false
    else if bool_decide (a_set reserved = a_set ignored)
            || reservationCoveredByIgnoredSource reserved ignored
         then false
         else aliasSetOverlapsRange set (a_start reserved) (a_end reserved))
    (reservationsOf (fixedReservations tables) (s_regClass set)).

Definition getFixedReservationOverlaps : list RegAllocTransformAssignment :=
  base.filter (fun reserved =>
    ~ (a_set reserved = s_id set \/ active_contains (active state) (a_set reserved) = true) /\
    aliasSetOverlapsRange set (a_start reserved) (a_end reserved) = true)
    (reservationsOf (fixedReservations tables) (s_regClass set)).

(** ** The base of an operand that is killed *)

Definition sourceSubrangeDiesAtBoundary (sourceSet : RegAllocTransformAliasSet)
    (sourceValue : RegAllocTransformValue) : bool :=
  let begin := v_offset sourceValue in
  let end_ := begin + s_width set in
  forallb (fun member =>
    let memberEnd := v_offset member + v_width member in
    if (end_ <=? v_offset member) || (memberEnd <=? begin) then true
    else negb (memberBlocksReusableResult member)) (membersOf input sourceSet).

Definition reusableOperandMatchesSet (sourceValue : RegAllocTransformValue) : bool :=
  negb (bool_decide (v_set sourceValue = s_id set))
  && bool_decide (v_regClass sourceValue = s_regClass set)
  && (v_width sourceValue =? s_width set).
Definition reusableOperandCoversResult (sourceSet : RegAllocTransformAliasSet)
    (sourceValue : RegAllocTransformValue) : bool :=
  valueRangeEndsAt sourceValue (s_start set)
  && registerRangeFits (v_offset sourceValue) (s_width set) (s_width sourceSet)
  && sourceSubrangeDiesAtBoundary sourceSet sourceValue.

Abbreviation baseIsLegal base := (setBaseIsLegal input (payloadValues tables) (targetLimits tables) set base).

Definition reusableBaseIsAvailable (sourceSet : RegAllocTransformAliasSet)
    (sourceAssignment : RegAllocTransformAssignment) (base limit : Z) : bool :=
  registerRangeFits base (s_width set) limit
  && baseIsLegal base
  && negb (conflictsWithActiveIgnoring base (s_id sourceSet))
  && negb (conflictsWithFixedReservationIgnoring base sourceAssignment).

Definition getReusableOperandBase (sourceValue : RegAllocTransformValue) (limit : Z) :
    option ReusableInputBase :=
  if negb (reusableOperandMatchesSet sourceValue) then None
  else
    sourceSet ← getSetById (v_set sourceValue);
    sourceAssignment ← active_lookup (assignments state) (active state) (s_id sourceSet);
    if negb (reusableOperandCoversResult sourceSet sourceValue) then None
    else if negb (registerRangeFits (a_base sourceAssignment) (v_offset sourceValue) limit) then None
    else
      let base := a_base sourceAssignment + v_offset sourceValue in
      if negb (reusableBaseIsAvailable sourceSet sourceAssignment base limit) then None
      else Some (mkReusable base (s_id sourceSet)).

(** The lowest one; the first of them where two are equal. *)
Definition findReusableInputBaseForDef (limit : Z) (def : LaneOp) : option ReusableInputBase :=
  if negb (isReuseCandidate def) then None
  else if negb (in_isa input) then None
  else
    foldl (fun bestBase operand =>
      if negb (operandReusable operand) then bestBase
      else
        match operandValue operand ≫= (fun id => values !! id) with
        | None => bestBase
        | Some value =>
            match getReusableOperandBase value limit with
            | None => bestBase
            | Some base =>
                match bestBase with
                | None => Some base
                | Some best =>
                    if reusable_base base <? reusable_base best then Some base else bestBase
                end
            end
        end) None (def_operands def).

Definition findReusableInputBase (limit : Z) : option ReusableInputBase :=
  match getSingleResultValue with
  | None => None
  | Some resultValue =>
      if negb (v_id resultValue <? length (payloadValues tables))%nat || (limit <? s_width set)
      then None
      else
        match payloadOf (v_id resultValue) ≫= pay_def with
        | Some def => findReusableInputBaseForDef limit def
        | None => None
        end
  end.

(** ** The lowest base that is free *)

(** One round per base at most. *)
Fixpoint findFreeLoop (fuel : nat) (alignment base maxBase : Z) : option Z :=
  match fuel with
  | O => None
  | S fuel =>
      if maxBase <? base then None
      else if negb (baseIsLegal base) then findFreeLoop fuel alignment (base + alignment) maxBase
      else
        let conflictEnd :=
          match findActiveConflictEnd base with
          | Some conflictEnd => Some conflictEnd
          | None => findFixedReservationConflictEnd base
          end in
        match conflictEnd with
        | None => Some base
        | Some conflictEnd =>
            let next := alignTo conflictEnd alignment in
            let base :=
              if (base <? conflictEnd) && (base <? next) then next - alignment else base in
            findFreeLoop fuel alignment (base + alignment) maxBase
        end
  end.

Definition findFreeBase (limit : Z) (beforeBase : option Z) : option Z :=
  if limit <? s_width set then None
  else
    let maxBase := limit - s_width set in
    let alignment := getRequiredAlignment input (payloadValues tables) (targetLimits tables) set in
    match beforeBase with
    | Some before =>
        if before =? 0 then None
        else let maxBase := Z.min maxBase (before - 1) in
             findFreeLoop (S (Z.to_nat maxBase)) alignment 0 maxBase
    | None => findFreeLoop (S (Z.to_nat maxBase)) alignment 0 maxBase
    end.
End Set_.
End Queries.

(** ** Allocation *)

Section Allocate.
Context (input : ScanInput) (tables : ScanTables).
Abbreviation values := (in_values input).
Abbreviation sets := (in_sets input).

Definition addFamilyFootprint (regClass : RegClass.t) (base width : Z) (footprints : Z * Z) : Z * Z :=
  let '(agprFootprint, vgprFootprint) := footprints in
  (if bool_decide (regClass = RegClass.AGPR) then Z.max agprFootprint (base + width)
   else agprFootprint,
   if bool_decide (regClass = RegClass.VGPR) then Z.max vgprFootprint (base + width)
   else vgprFootprint).

Definition familyOnly (overlaps : list RegAllocTransformAssignment) :
    list RegAllocTransformAssignment :=
  base.filter (fun assigned => isVGPRFamilyClass (a_regClass assigned) = true) overlaps.

Definition fail (failure : RegAllocScanFailure) (state : ScanState) : ScanState :=
  mkScan (assignments state) (assignmentIndexBySet state) (active state)
    (combinedFootprints state) (Some failure).

Definition addAssignment (set : RegAllocTransformAliasSet) (base : Z) (state : ScanState) :
    ScanState :=
  let assigned :=
    mkAssignment (s_regClass set) (s_id set) base (s_width set) (s_start set) (s_end set) in
  let assignmentIndex := length (assignments state) in
  let assignments := assignments state ++ [assigned] in
  mkScan assignments
    (<[s_id set := assignmentIndex]> (assignmentIndexBySet state))
    (active_add assignments (active state) assignmentIndex assigned)
    (match familyBudget tables with
     | Some _ => footprint_add set base (combinedFootprints state)
     | None => combinedFootprints state
     end)
    (scanFailure state).

Section Set_.
Context (index : nat) (set : RegAllocTransformAliasSet).

(** The assignments of the class that are live where the set starts. *)
Definition liveAtStart (state : ScanState) : list RegAllocTransformAssignment :=
  base.filter (fun assigned =>
    setLiveAtPosition input tables (a_set assigned) (s_start set) = true)
    (active_regClass (assignments state) (active state) (s_regClass set)).

Definition getPressureAtFailure (state : ScanState)
    (fixedOverlaps : list RegAllocTransformAssignment) : Z :=
  foldl (fun pressure assigned => pressure + a_width assigned) (s_width set)
    (liveAtStart state ++ fixedOverlaps).

Definition recordPressureFailure (budget : RegAllocTransformBudget)
    (fixedOverlaps : list RegAllocTransformAssignment) (state : ScanState) : ScanState :=
  fail (mkScanFailure (liveAtStart state ++ fixedOverlaps) (s_regClass set) "" "pressure"
          (budget_mode budget) (s_id set) (s_start set)
          (getPressureAtFailure state fixedOverlaps) (budget_limit budget) (s_width set)) state.

(** The failure, if the family's budget is exceeded. *)
Definition checkCombinedPressureFailure (base : Z) (state : ScanState) :
    option RegAllocScanFailure :=
  match familyBudget tables with
  | None => None
  | Some budget =>
      if negb (isVGPRFamilyClass (s_regClass set)) then None
      else
        let '(agprFootprint, vgprFootprint) :=
          addFamilyFootprint (s_regClass set) base (s_width set)
            (footprint_get RegClass.AGPR (combinedFootprints state),
             footprint_get RegClass.VGPR (combinedFootprints state)) in
        let pressure := getCombinedVGPRFamilyPressure agprFootprint vgprFootprint in
        if pressure <=? budget_limit budget then None
        else
          Some (mkScanFailure (familyOnly (active_ordered (assignments state) (active state)))
                  (s_regClass set) "vgpr_agpr" "pressure" (budget_mode budget) (s_id set)
                  (s_start set) pressure (budget_limit budget) (s_width set))
  end.

Definition assignUnlessPressure (base : Z) (state : ScanState) : ScanState :=
  match checkCombinedPressureFailure base state with
  | Some failure => fail failure state
  | None => addAssignment set base state
  end.

Definition allocateFixedSet (budget : RegAllocTransformBudget) (fixedBase : Z)
    (state : ScanState) : ScanState :=
  let conflict :=
    conflictsWithActive input tables index set state fixedBase
    && match findReusableInputBase input tables index set state (budget_limit budget) with
       | Some reusableBase => negb (reusable_base reusableBase =? fixedBase)
       | None => true
       end in
  if negb (registerRangeFits fixedBase (s_width set) (budget_limit budget)) || conflict
  then recordPressureFailure budget [] state
  else assignUnlessPressure fixedBase state.

Definition allocateSet (state : ScanState) : ScanState :=
  let budget := in_budget input (s_regClass set) in
  match getFixedBase tables index with
  | Some fixedBase => allocateFixedSet budget fixedBase state
  | None =>
      let reusableBase := findReusableInputBase input tables index set state (budget_limit budget) in
      let beforeBase := reusable_base <$> reusableBase in
      let base :=
        match findFreeBase input tables index set state (budget_limit budget) beforeBase with
        | Some base => Some base
        | None => beforeBase
        end in
      match base with
      | None => recordPressureFailure budget (getFixedReservationOverlaps tables set state) state
      | Some base => assignUnlessPressure base state
      end
  end.
End Set_.

Definition beforeSet (set : RegAllocTransformAliasSet) (state : ScanState) : ScanState :=
  mkScan (assignments state) (assignmentIndexBySet state)
    (active_expire (assignments state) (s_start set) (active state))
    (match familyBudget tables with
     | Some _ => footprint_advance (s_start set) (combinedFootprints state)
     | None => combinedFootprints state
     end)
    (scanFailure state).

(** [scan]; it stops at the first failure. *)
Fixpoint scanSets (rest : list (nat * RegAllocTransformAliasSet)) (state : ScanState) : ScanState :=
  match rest with
  | [] => state
  | (index, set) :: rest =>
      let state := allocateSet index set (beforeSet set state) in
      match scanFailure state with
      | Some _ => state
      | None => scanSets rest state
      end
  end.
Definition scan : ScanState := scanSets (imap pair sets) initialScan.

(** The first assignment with which the registers of both classes, whether or not
    they are live at the same time, exceed the family's budget. *)
Fixpoint footprintLoop (budget : RegAllocTransformBudget) (prior rest : list RegAllocTransformAssignment)
    (footprints : Z * Z) : option RegAllocScanFailure :=
  match rest with
  | [] => None
  | assigned :: rest =>
      if negb (isVGPRFamilyClass (a_regClass assigned))
      then footprintLoop budget (prior ++ [assigned]) rest footprints
      else
        let footprints :=
          addFamilyFootprint (a_regClass assigned) (a_base assigned) (a_width assigned) footprints in
        let pressure := getCombinedVGPRFamilyPressure (fst footprints) (snd footprints) in
        if pressure <=? budget_limit budget
        then footprintLoop budget (prior ++ [assigned]) rest footprints
        else
          Some (mkScanFailure (familyOnly prior) (a_regClass assigned) "vgpr_agpr"
                  "allocated-footprint" (budget_mode budget) (a_set assigned) (a_start assigned)
                  pressure (budget_limit budget) (a_width assigned))
  end.
Definition checkCombinedFootprintFailure (state : ScanState) : option RegAllocScanFailure :=
  match familyBudget tables with
  | None => None
  | Some budget => footprintLoop budget [] (assignments state) (0, 0)
  end.

(** ** The types of the values *)

Definition getAssignmentBySet (state : ScanState) (setId : nat) : option RegAllocTransformAssignment :=
  assignmentIndexBySet state !! setId ≫= fun index => assignments state !! index.

(** The value, by its number, and its type with the register. *)
Definition buildPendingAssignments (state : ScanState) : outcome (list (nat * LaneType)) :=
  foldM (fun pending value =>
    match getAssignmentBySet state (v_set value) with
    | None => Failure
    | Some assignment =>
        Ok (pending ++ [(v_id value,
                         mkLaneType (v_regClass value) (v_width value)
                           (a_base assignment + v_offset value))])
    end) [] values.
End Allocate.

(** The types of the values of a function, by number; what its returns return. *)
Record FuncTypes : Type := mkFuncTypes {
  valueTypes : gmap nat LaneType;
  returnOperands : list (list nat);
  functionResults : option (list (option LaneType))
}.

(** [refreshFuncTypeFromBody]: the returns must agree; without one the results
    stay. *)
Definition refreshFuncTypeFromBody (func : FuncTypes) : option FuncTypes :=
  let typesOf operands := map (fun id => valueTypes func !! id) operands in
  match returnOperands func with
  | [] => Some func
  | first :: rest =>
      if forallb (fun operands => bool_decide (typesOf operands = typesOf first)) rest
      then Some (mkFuncTypes (valueTypes func) (returnOperands func) (Some (typesOf first)))
      else None
  end.

Definition setTypes (pending : list (nat * LaneType)) (types : gmap nat LaneType) :
    gmap nat LaneType :=
  foldl (fun types '(id, type) => <[id := type]> types) types pending.

(** The types that were, restored in reverse order. *)
Fixpoint oldTypes (pending : list (nat * LaneType)) (types : gmap nat LaneType) :
    list (nat * option LaneType) :=
  match pending with
  | [] => []
  | (id, type) :: rest => (id, types !! id) :: oldTypes rest (<[id := type]> types)
  end.
Definition restoreTypes (old : list (nat * option LaneType)) (types : gmap nat LaneType) :
    gmap nat LaneType :=
  foldl (fun types '(id, type) => partial_alter (fun _ => type) id types) types (reverse old).

Definition commitAssignments (pending : list (nat * LaneType)) (func : FuncTypes) :
    bool * FuncTypes :=
  let types := setTypes pending (valueTypes func) in
  match refreshFuncTypeFromBody (mkFuncTypes types (returnOperands func) (functionResults func)) with
  | Some func => (true, func)
  | None =>
      (false,
       mkFuncTypes (restoreTypes (oldTypes pending (valueTypes func)) types)
         (returnOperands func) (functionResults func))
  end.

(** ** The pass *)

(** The state attribute that is left: assignments, or the failure that the stages
    of relief read. *)
Inductive ScanResult : Type :=
  | LinearScanSuccess (assigned : list RegAllocTransformAssignment)
  | LinearScanFailure (failure : RegAllocScanFailure).

Definition run `{LaneLLVM} (input : ScanInput) (func : FuncTypes) : outcome (ScanResult * FuncTypes) :=
  '(tables, failure) ← parseState input;
  match failure with
  | Some failure => Ok (LinearScanFailure failure, func)
  | None =>
      let state := scan input tables in
      match scanFailure state with
      | Some failure => Ok (LinearScanFailure failure, func)
      | None =>
          match checkCombinedFootprintFailure tables state with
          | Some failure => Ok (LinearScanFailure failure, func)
          | None =>
              pending ← buildPendingAssignments input state;
              let '(committed, func) := commitAssignments pending func in
              if committed then Ok (LinearScanSuccess (assignments state), func) else Failure
          end
      end
  end.
