(* ===== verification/LaneSpec.v ===== *)
(** * Ranges, live assignments and first fit

    Walks over live ranges are about positions; the tables of [ActiveAssignments]
    hold what has not ended; the index of the sets finds them; and [findFreeBase]
    finds the lowest base that is free, although it steps over conflicts. *)

From stdpp Require Import base tactics list gmap sorting strings.
From S2P Require Import Prelude MachineIR TicketIR LaneIR LaneScan.

(** ** Live ranges *)

Definition liveAt (p : Z) (range : LiveRange) : Prop := live_start range <= p <= live_end range.
Definition inRanges (p : Z) (ranges : list LiveRange) : Prop := exists r, r ∈ ranges /\ liveAt p r.

(** Ranges in order, apart from each other. *)
Inductive rangesOk : list LiveRange -> Prop :=
  | rangesOk_nil : rangesOk []
  | rangesOk_cons r rest :
      live_start r <= live_end r -> rangesOk rest ->
      (forall r', r' ∈ rest -> live_end r < live_start r') -> rangesOk (r :: rest).

Lemma rangesOk_elem ranges r : rangesOk ranges -> r ∈ ranges -> live_start r <= live_end r.
Proof.
  induction 1 as [|r' rest Hr Hok IH Hlt]; [by intros ?%elem_of_nil|].
  intros [-> |Hin]%elem_of_cons; auto.
Qed.

Lemma inRanges_cons p r rest : inRanges p (r :: rest) <-> liveAt p r \/ inRanges p rest.
Proof.
  unfold inRanges. setoid_rewrite elem_of_cons. naive_solver.
Qed.
Lemma inRanges_nil p : ~ inRanges p [].
Proof. by intros (r & ?%elem_of_nil & _). Qed.

Lemma after_first r rest p : rangesOk (r :: rest) -> inRanges p rest -> live_end r < p.
Proof.
  intros Hok (r' & Hin & Hp). inversion_clear Hok as [|? ? Hr Hrest Hlt].
  specialize (Hlt _ Hin). unfold liveAt in Hp. lia.
Qed.

Lemma lowerBoundEnd_spec ranges p :
  rangesOk ranges ->
  rangesOk (lowerBoundEnd ranges p) /\
  (forall q, p <= q -> inRanges q ranges <-> inRanges q (lowerBoundEnd ranges p)) /\
  match lowerBoundEnd ranges p with r :: _ => p <= live_end r | [] => True end.
Proof.
  induction 1 as [|r rest Hr Hok IH Hlt]; simpl; [repeat split; try done; constructor|].
  destruct (Z.ltb_spec (live_end r) p).
  - destruct IH as (IHok & IHin & IHend). split; [done|]. split; [|done].
    intros q Hq. rewrite inRanges_cons, <-IHin by done. unfold liveAt. intuition lia.
  - split; [by constructor|]. done.
Qed.

Lemma containPosition_spec ranges p :
  rangesOk ranges -> liveRangesContainPosition ranges p = true <-> inRanges p ranges.
Proof.
  intros Hok. destruct (lowerBoundEnd_spec ranges p Hok) as (Hok' & Hin & Hend).
  rewrite (Hin p) by lia. unfold liveRangesContainPosition.
  destruct (lowerBoundEnd ranges p) as [|r rest]; [split; [done|by intros ?%inRanges_nil]|].
  rewrite Z.leb_le, inRanges_cons. split.
  - intros. left. unfold liveAt. lia.
  - intros [Hr|Hrest]; [unfold liveAt in Hr; lia|].
    pose proof (after_first _ _ _ Hok' Hrest). lia.
Qed.

Lemma overlapRange_false ranges s e p :
  rangesOk ranges -> liveRangesOverlapRange ranges s e = false -> s <= p <= e -> ~ inRanges p ranges.
Proof.
  intros Hok. destruct (lowerBoundEnd_spec ranges s Hok) as (Hok' & Hin & Hend).
  intros Hf Hp. rewrite (Hin p) by lia. unfold liveRangesOverlapRange in Hf.
  destruct (lowerBoundEnd ranges s) as [|r rest]; [apply inRanges_nil|].
  apply Z.leb_gt in Hf. rewrite inRanges_cons. intros [Hr|Hrest].
  - unfold liveAt in Hr. lia.
  - inversion_clear Hok' as [|? ? Hr Hok2 Hlt]. destruct Hrest as (r' & Hr' & Hl).
    specialize (Hlt _ Hr'). unfold liveAt in Hl. lia.
Qed.
Lemma overlapRange_true ranges s e :
  rangesOk ranges -> s <= e -> liveRangesOverlapRange ranges s e = true ->
  exists p, s <= p <= e /\ inRanges p ranges.
Proof.
  intros Hok Hse. destruct (lowerBoundEnd_spec ranges s Hok) as (Hok' & Hin & Hend).
  unfold liveRangesOverlapRange. destruct (lowerBoundEnd ranges s) as [|r rest] eqn:E; [done|].
  rewrite Z.leb_le. intros Hr. inversion_clear Hok' as [|? ? Hr' Hok2 Hlt].
  exists (Z.max s (live_start r)). split; [lia|]. rewrite Hin by lia. rewrite inRanges_cons.
  left. unfold liveAt. lia.
Qed.

Lemma overlap_spec l r : liveRangesOverlap l r = true <->
  live_start l <= live_end r /\ live_start r <= live_end l.
Proof. unfold liveRangesOverlap. rewrite andb_true_iff, !Z.leb_le. done. Qed.

(** ** Walks over two lists *)

Lemma walkRanges_cons visit l lhs r rhs :
  walkRanges visit (l :: lhs) (r :: rhs) =
    visit l r || (if live_end l <? live_start r then walkRanges visit lhs (r :: rhs)
                  else walkRanges visit (l :: lhs) rhs).
Proof. done. Qed.

(** A pair that overlaps is seen, or the second range was left behind at an
    earlier one that overlaps it, too. *)
Lemma walkRanges_false visit lhs rhs :
  rangesOk lhs -> rangesOk rhs -> walkRanges visit lhs rhs = false ->
  forall a b p, a ∈ lhs -> b ∈ rhs -> liveAt p a -> liveAt p b ->
  visit a b = false \/
  exists a0, a0 ∈ lhs /\ live_end a0 < live_start a /\ liveRangesOverlap a0 b = true /\
    visit a0 b = false.
Proof.
  intros Hl. revert rhs. induction Hl as [|l lhs Hlr Hl IHl Hlt].
  { intros rhs _ _ a b p ?%elem_of_nil. done. }
  intros rhs Hr. induction Hr as [|r rhs Hrr Hr IHr Hrt].
  { intros _ a b p _ ?%elem_of_nil. done. }
  rewrite walkRanges_cons, orb_false_iff. intros [Hv Hw] a b p Ha Hb Hpa Hpb.
  unfold liveAt in *. destruct (Z.ltb_spec (live_end l) (live_start r)) as [Hlt'|Hge].
  - apply elem_of_cons in Ha as [-> |Ha].
    + exfalso. apply elem_of_cons in Hb as [-> |Hb]; [lia|]. specialize (Hrt _ Hb). lia.
    + destruct (IHl (r :: rhs) ltac:(by constructor) Hw a b p Ha Hb Hpa Hpb)
        as [|(a0 & Ha0 & Hrest)]; [by left|].
      right. exists a0. split; [by right|done].
  - apply elem_of_cons in Hb as [-> |Hb]; [|by apply (IHr Hw a b p)].
    apply elem_of_cons in Ha as [-> |Ha]; [by left|]. specialize (Hlt _ Ha).
    destruct (liveRangesOverlap l r) eqn:Eo.
    + right. exists l. split; [left|]. done.
    + exfalso. apply not_true_iff_false in Eo. apply Eo, overlap_spec. lia.
Qed.

Lemma walkRanges_true visit lhs rhs :
  walkRanges visit lhs rhs = true -> exists a b, a ∈ lhs /\ b ∈ rhs /\ visit a b = true.
Proof.
  revert rhs. induction lhs as [|l lhs IHl]; [by intros []|].
  intros rhs. induction rhs as [|r rhs IHr]; [done|].
  rewrite walkRanges_cons, orb_true_iff. intros [Hv|Hw].
  - exists l, r. split; [left|]. by split; [left|].
  - destruct (live_end l <? live_start r).
    + destruct (IHl _ Hw) as (a & b & Ha & Hb & Hv). exists a, b. split; [by right|done].
    + destruct (IHr Hw) as (a & b & Ha & Hb & Hv). exists a, b. split; [done|]. by split; [right|].
Qed.

(** Two lists overlap where they have a position in common. *)
Lemma listsOverlap_spec lhs rhs :
  rangesOk lhs -> rangesOk rhs ->
  liveRangeListsOverlap lhs rhs = true <-> exists p, inRanges p lhs /\ inRanges p rhs.
Proof.
  intros Hl Hr. unfold liveRangeListsOverlap. split.
  - intros (a & b & Ha & Hb & Hv%overlap_spec)%walkRanges_true.
    pose proof (rangesOk_elem _ _ Hl Ha). pose proof (rangesOk_elem _ _ Hr Hb).
    exists (Z.max (live_start a) (live_start b)).
    split; [exists a|exists b]; (split; [done|]); unfold liveAt; lia.
  - intros (p & (a & Ha & Hpa) & (b & Hb & Hpb)).
    destruct (walkRanges liveRangesOverlap lhs rhs) eqn:Ew; [done|].
    destruct (walkRanges_false _ _ _ Hl Hr Ew a b p Ha Hb Hpa Hpb) as [Hv|(a0 & _ & _ & Ho & Hv)];
      [|congruence].
    apply not_true_iff_false in Hv. exfalso. apply Hv, overlap_spec. unfold liveAt in *. lia.
Qed.

Lemma continuationWalk_cons set saw l lhs r rhs :
  continuationWalk set saw (l :: lhs) (r :: rhs) =
    let overlaps := liveRangesOverlap l r in
    if overlaps && (negb (Z.max (live_start l) (live_start r) =? s_end set)
                    || negb (Z.min (live_end l) (live_end r) =? s_end set))
    then None
    else if live_end l <? live_start r
         then continuationWalk set (saw || overlaps) lhs (r :: rhs)
         else continuationWalk set (saw || overlaps) (l :: lhs) rhs.
Proof. done. Qed.

(** A walk that ends saw overlaps at the end of the set only. *)
Lemma continuationWalk_sound set saw lhs rhs result :
  rangesOk lhs -> rangesOk rhs -> (forall r, r ∈ rhs -> live_end r <= s_end set) ->
  continuationWalk set saw lhs rhs = Some result ->
  forall p, inRanges p lhs -> inRanges p rhs -> p = s_end set.
Proof.
  intros Hl. revert saw rhs. induction Hl as [|l lhs Hlr Hl IHl Hlt].
  { intros saw rhs _ _ _ p ?%inRanges_nil. done. }
  intros saw rhs Hr. revert saw. induction Hr as [|r rhs Hrr Hr IHr Hrt].
  { intros saw _ _ p _ ?%inRanges_nil. done. }
  intros saw Hend. rewrite continuationWalk_cons. cbv zeta.
  assert (forall r', r' ∈ rhs -> live_end r' <= s_end set) as Hend' by (intros; apply Hend; by right).
  pose proof (Hend r ltac:(left)) as Hrend.
  destruct (liveRangesOverlap l r) eqn:Eo; cbn [andb].
  - apply overlap_spec in Eo.
    destruct (Z.eqb_spec (Z.max (live_start l) (live_start r)) (s_end set)) as [Es|]; [|done].
    destruct (Z.eqb_spec (Z.min (live_end l) (live_end r)) (s_end set)) as [Ee|]; [|done].
    cbn [negb orb]. destruct (Z.ltb_spec (live_end l) (live_start r)); [lia|].
    intros Hw p [Hpl|Hpl]%inRanges_cons [Hpr|Hpr]%inRanges_cons; unfold liveAt in *.
    + lia.
    + apply (IHr _ Hend' Hw); [|done]. apply inRanges_cons. left. done.
    + destruct Hpl as (a & Ha & Hpa). specialize (Hlt _ Ha). unfold liveAt in *. lia.
    + apply (IHr _ Hend' Hw); [|done]. apply inRanges_cons. by right.
  - assert (~ (live_start l <= live_end r /\ live_start r <= live_end l)) as Hno
      by (rewrite <-overlap_spec; congruence).
    destruct (Z.ltb_spec (live_end l) (live_start r)) as [Hlr'|Hlr']; intros Hw p Hpl Hpr.
    + apply (IHl _ (r :: rhs) ltac:(by constructor) Hend Hw); [|done].
      apply inRanges_cons in Hpl as [Hpl|]; [|done]. exfalso. unfold liveAt in *.
      apply inRanges_cons in Hpr as [Hpr|(b & Hb & Hpb)]; unfold liveAt in *; [lia|].
      specialize (Hrt _ Hb). lia.
    + apply (IHr _ Hend' Hw); [done|].
      apply inRanges_cons in Hpr as [Hpr|]; [|done]. exfalso. unfold liveAt in *.
      apply inRanges_cons in Hpl as [Hpl|(a & Ha & Hpa)]; unfold liveAt in *; [lia|].
      specialize (Hlt _ Ha). lia.
Qed.

(** ** Merged ranges *)

Lemma rangesOk_snoc l r : rangesOk (l ++ [r]) <->
  rangesOk l /\ live_start r <= live_end r /\ forall r', r' ∈ l -> live_end r' < live_start r.
Proof.
  induction l as [|r0 l IH]; simpl.
  - split.
    + intros Hok. inversion_clear Hok. split; [constructor|]. split; [done|]. by intros ? ?%elem_of_nil.
    + intros (_ & Hr & _). constructor; [done|constructor|by intros ? ?%elem_of_nil].
  - split.
    + intros Hok. inversion_clear Hok as [|? ? Hr0 Hok' Hlt]. apply IH in Hok' as (Hl & Hr & Hbefore).
      assert (live_end r0 < live_start r) by (apply Hlt, elem_of_app; right; left).
      split; [constructor; [done|done|]|split; [done|]].
      * intros r' Hr'. apply Hlt, elem_of_app. by left.
      * intros r' [-> |Hr']%elem_of_cons; auto.
    + intros (Hok & Hr & Hbefore). inversion_clear Hok as [|? ? Hr0 Hl Hlt].
      constructor; [done| |].
      * apply IH. split; [done|]. split; [done|]. intros. apply Hbefore. by right.
      * intros r' [Hr'| ->%list_elem_of_singleton]%elem_of_app; [auto|]. apply Hbefore. left.
Qed.

Lemma mergeRange_ok merged r :
  rangesOk (reverse merged) -> live_start r <= live_end r ->
  (forall back rest, merged = back :: rest -> live_start back <= live_start r) ->
  rangesOk (reverse (mergeRange merged r)) /\
  (forall p, inRanges p (mergeRange merged r) <-> inRanges p merged \/ liveAt p r) /\
  (forall back rest, mergeRange merged r = back :: rest -> live_start back <= live_start r).
Proof.
  destruct merged as [|back rest]; intros Hok Hr Hstart; simpl.
  - split; [constructor; [done|constructor|by intros ? ?%elem_of_nil]|]. split.
    + intros p. rewrite inRanges_cons. intuition.
    + intros ? ? [= <- <-]. lia.
  - specialize (Hstart back rest eq_refl). rewrite reverse_cons in Hok.
    apply rangesOk_snoc in Hok as (Hrest & Hb & Hbefore).
    destruct (Z.leb_spec (live_start r) (live_end back)).
    + split; [rewrite reverse_cons; apply rangesOk_snoc; simpl; split; [done|split; [lia|done]]|].
      split; [|intros ? ? [= <- <-]; done].
      intros p. rewrite !inRanges_cons. unfold liveAt; simpl. intuition lia.
    + split; [|split; [|intros ? ? [= <- <-]; lia]].
      * rewrite reverse_cons. apply rangesOk_snoc. rewrite reverse_cons.
        split; [by apply rangesOk_snoc|]. split; [done|].
        intros r' [Hin| ->%list_elem_of_singleton]%elem_of_app; [|done].
        specialize (Hbefore _ Hin). lia.
      * intros p. rewrite !inRanges_cons. intuition.
Qed.

Lemma mergeRanges_ok sorted merged :
  StronglySorted rangeLe sorted -> Forall (fun r => live_start r <= live_end r) sorted ->
  rangesOk (reverse merged) ->
  (forall back rest r, merged = back :: rest -> r ∈ sorted -> live_start back <= live_start r) ->
  rangesOk (reverse (foldl mergeRange merged sorted)) /\
  forall p, inRanges p (foldl mergeRange merged sorted) <-> inRanges p merged \/ inRanges p sorted.
Proof.
  intros Hs. revert merged. induction Hs as [|r sorted Hs IH Hle]; intros merged Hf Hok Hstart; simpl.
  - split; [done|]. intros p. pose proof (inRanges_nil p). tauto.
  - apply Forall_cons in Hf as [Hr Hf]. rewrite Forall_forall in Hle.
    destruct (mergeRange_ok merged r Hok Hr) as (Hok' & Hin & Hback).
    { intros back rest Hm. apply (Hstart back rest); [done|left]. }
    destruct (IH (mergeRange merged r) Hf Hok') as [Hok2 Hin2].
    { intros back rest r' Hm Hr'. specialize (Hback _ _ Hm).
      specialize (Hle _ Hr'). unfold rangeLe in Hle. lia. }
    split; [done|]. intros p. rewrite Hin2, Hin, inRanges_cons. tauto.
Qed.

#[local] Instance rangeLe_total : Total rangeLe.
Proof. intros [a b] [c d]. unfold rangeLe; simpl. lia. Qed.
#[local] Instance rangeLe_trans : Transitive rangeLe.
Proof. intros [a b] [c d] [e f]. unfold rangeLe; simpl. lia. Qed.

(** The ranges of a set are in order, apart from each other, and cover what the
    members' ranges cover. *)
Lemma collected_ranges_ok members values :
  (forall id value r, id ∈ members -> values !! id = Some value -> r ∈ v_ranges value ->
     live_start r <= live_end r) ->
  rangesOk (collectRegAllocTransformAliasSetLiveRanges members values) /\
  forall p, inRanges p (collectRegAllocTransformAliasSetLiveRanges members values) <->
    exists id value, id ∈ members /\ values !! id = Some value /\ inRanges p (v_ranges value).
Proof.
  intros Hr. unfold collectRegAllocTransformAliasSetLiveRanges.
  set (ranges := members ≫= _).
  assert (forall r, r ∈ ranges <->
    exists id value, id ∈ members /\ values !! id = Some value /\ r ∈ v_ranges value) as Helem.
  { intros r. unfold ranges. rewrite list_elem_of_bind. split.
    - intros (id & Hin & Hid). destruct (values !! id) eqn:E; [|by apply elem_of_nil in Hin]. eauto.
    - intros (id & value & Hid & Hv & Hin). exists id. by rewrite Hv. }
  destruct (mergeRanges_ok (merge_sort rangeLe ranges) []) as [Hok Hin].
  - apply StronglySorted_merge_sort; apply _.
  - apply Forall_forall. intros r Hin. rewrite (merge_sort_Permutation rangeLe ranges) in Hin.
    apply Helem in Hin as (id & value & Hid & Hv & Hin). eauto.
  - constructor.
  - done.
  - split; [done|]. intros p. transitivity (inRanges p ranges).
    + transitivity (inRanges p (foldl mergeRange [] (merge_sort rangeLe ranges))).
      { unfold inRanges. by setoid_rewrite elem_of_reverse. }
      rewrite Hin. unfold inRanges. setoid_rewrite (merge_sort_Permutation rangeLe ranges).
      split; [|by right]. intros [(r & ?%elem_of_nil & _)|]; done.
    + unfold inRanges. setoid_rewrite Helem. naive_solver.
Qed.

(** ** Assignments that are live *)

Definition lanesOf (a : RegAllocTransformAssignment) (lane : Z) : Prop :=
  a_base a <= lane < a_base a + a_width a.

(** The tables of [active] hold what is live, each where it belongs. *)
Record activeOk (assignments : list RegAllocTransformAssignment) (active : ActiveAssignments) :
    Prop := {
  ok_live i : i ∈ activeLive active ->
    exists a, assignments !! i = Some a /\ activeBySet active !! a_set a = Some i;
  ok_bySet s i : activeBySet active !! s = Some i ->
    i ∈ activeLive active /\ exists a, assignments !! i = Some a /\ a_set a = s;
  ok_ordered i : i ∈ activeLive active -> i ∈ activeOrdered active;
  ok_class i a : i ∈ activeLive active -> assignments !! i = Some a ->
    i ∈ activeByClass active (a_regClass a);
  ok_classOf c i : i ∈ activeByClass active c ->
    exists a, assignments !! i = Some a /\ a_regClass a = c;
  ok_lane i a lane : i ∈ activeLive active -> assignments !! i = Some a ->
    lanesOf a (Z.of_nat lane) ->
    exists indices, activeByClassLane active (a_regClass a) !! lane = Some indices /\ i ∈ indices;
  ok_laneOf c lane indices i : activeByClassLane active c !! lane = Some indices -> i ∈ indices ->
    exists a, assignments !! i = Some a /\ a_regClass a = c /\ lanesOf a (Z.of_nat lane);
  ok_heap i : i ∈ activeLive active -> i ∈ activeByEnd active;
  ok_heapOf i : i ∈ activeByEnd active -> is_Some (assignments !! i);
  ok_sorted : StronglySorted (fun i j => forall a b,
    assignments !! i = Some a -> assignments !! j = Some b -> a_end a <= a_end b)
    (activeByEnd active)
}.

Lemma noActive_ok assignments : activeOk assignments noActive.
Proof.
  split; simpl; try set_solver; try constructor.
Qed.

Definition withHeap (heap : list nat) (active : ActiveAssignments) : ActiveAssignments :=
  mkActive (activeOrdered active) heap (activeByClass active) (activeByClassLane active)
    (activeLive active) (activeBySet active) (activeStale active).

(** What an assignment that ended leaves. *)
Definition withoutIndex (index set : nat) (active : ActiveAssignments) : ActiveAssignments :=
  mkActive (activeOrdered active) (activeByEnd active) (activeByClass active)
    (activeByClassLane active) (activeLive active ∖ {[index]})
    (delete set (activeBySet active)) (S (activeStale active)).

Lemma withoutIndex_ok assignments i a rest active :
  activeOk assignments (withHeap (i :: rest) active) -> assignments !! i = Some a ->
  activeBySet active !! a_set a = Some i ->
  activeOk assignments (withHeap rest (withoutIndex i (a_set a) active)).
Proof.
  intros [H1 H2 H3 H4 H5 H6 H7 H8 H9 H10] Ha Hs. simpl in *.
  split; simpl; try done.
  - intros j [Hj Hne]%elem_of_difference. destruct (H1 j Hj) as (b & Hb & Hbs).
    exists b. split; [done|]. rewrite lookup_delete_ne; [done|].
    intros Heq. rewrite <-Heq in Hbs. rewrite elem_of_singleton in Hne. congruence.
  - intros s j [Hne Hj]%lookup_delete_Some. destruct (H2 s j Hj) as (Hl & b & Hb & Hbs).
    split; [|by exists b]. apply elem_of_difference. split; [done|].
    intros ->%elem_of_singleton. simplify_eq.
  - intros j [Hj _]%elem_of_difference. by apply H3.
  - intros j b [Hj _]%elem_of_difference. by apply H4.
  - intros j b lane [Hj _]%elem_of_difference. by apply H6.
  - intros j [Hj Hne]%elem_of_difference. rewrite elem_of_singleton in Hne.
    apply H8, elem_of_cons in Hj as [|]; done.
  - intros j Hj. apply H9. by right.
  - by inversion_clear H10.
Qed.

Lemma withHeap_tail assignments i rest active :
  activeOk assignments (withHeap (i :: rest) active) -> i ∉ activeLive active ->
  activeOk assignments (withHeap rest active).
Proof.
  intros [H1 H2 H3 H4 H5 H6 H7 H8 H9 H10] Hi. simpl in *.
  split; simpl; try done.
  - intros j Hj. pose proof (H8 j Hj) as [-> |]%elem_of_cons; done.
  - intros j Hj. apply H9. by right.
  - by inversion_clear H10.
Qed.

Lemma expireLoop_ok assignments position heap active :
  activeOk assignments (withHeap heap active) ->
  activeOk assignments (expireLoop assignments position heap active) /\
  forall i, i ∈ activeLive (expireLoop assignments position heap active) <->
    i ∈ activeLive active /\ exists a, assignments !! i = Some a /\ position <= a_end a.
Proof.
  revert active. induction heap as [|i rest IH]; intros active Hok; cbn [expireLoop].
  - split; [done|]. intros i. simpl. split; [|tauto]. intros Hi.
    by apply (ok_heap _ _ Hok), elem_of_nil in Hi.
  - destruct (ok_heapOf _ _ Hok i ltac:(left)) as [a Ha]. rewrite Ha.
    pose proof (ok_sorted _ _ Hok) as Hsorted. simpl in Hsorted.
    apply StronglySorted_inv in Hsorted as [_ Hle]. rewrite Forall_forall in Hle.
    destruct (Z.leb_spec position (a_end a)) as [Hp|Hp].
    { split; [done|]. intros j. simpl. split; [|tauto]. intros Hj. split; [done|].
      destruct (ok_live _ _ Hok j Hj) as (b & Hb & _). exists b. split; [done|].
      apply (ok_heap _ _ Hok) in Hj. simpl in Hj. apply elem_of_cons in Hj as [-> |Hj].
      - simplify_eq. lia.
      - specialize (Hle j Hj a b Ha Hb). lia. }
    case_bool_decide as Hs.
    + pose proof (withoutIndex_ok _ _ _ _ _ Hok Ha Hs) as Hok'.
      destruct (IH _ Hok') as [Hok2 Hlive]. split; [done|]. intros j. rewrite Hlive. simpl.
      rewrite elem_of_difference, elem_of_singleton. split; [tauto|].
      intros (Hj & b & Hb & Hbe). split; [|by exists b]. split; [done|]. intros ->. simplify_eq. lia.
    + assert (i ∉ activeLive active) as Hi.
      { intros Hi. destruct (ok_live _ _ Hok i Hi) as (b & Hb & Hbs). simpl in Hbs. simplify_eq. }
      apply (IH active), (withHeap_tail _ _ _ _ Hok Hi).
Qed.

Lemma eraseInactive_elem active indices i :
  i ∈ eraseInactive active indices <-> i ∈ activeLive active /\ i ∈ indices.
Proof. unfold eraseInactive. by rewrite list_elem_of_filter. Qed.

Lemma active_compact_ok assignments active :
  activeOk assignments active -> activeOk assignments (active_compact active).
Proof.
  intros [H1 H2 H3 H4 H5 H6 H7 H8 H9 H10].
  split; simpl; try done.
  - intros i Hi. apply eraseInactive_elem. auto.
  - intros i a Hi Ha. apply eraseInactive_elem. auto.
  - intros c i [_ Hi]%eraseInactive_elem. auto.
  - intros i a lane Hi Ha Hlane. destruct (H6 i a lane Hi Ha Hlane) as (indices & Hl & Hin).
    exists (eraseInactive active indices). rewrite list_lookup_fmap, Hl. split; [done|].
    by apply eraseInactive_elem.
  - intros c lane indices i Hl Hin. rewrite list_lookup_fmap in Hl.
    destruct (activeByClassLane active c !! lane) as [all|] eqn:E; simplify_eq/=.
    apply eraseInactive_elem in Hin as [_ Hin]. by apply (H7 c lane all).
Qed.

(** Expiring keeps the tables, and keeps what ends at the position or later. *)
Lemma active_expire_ok assignments position active :
  activeOk assignments active ->
  activeOk assignments (active_expire assignments position active) /\
  forall i, i ∈ activeLive (active_expire assignments position active) <->
    i ∈ activeLive active /\ exists a, assignments !! i = Some a /\ position <= a_end a.
Proof.
  intros Hok. unfold active_expire.
  destruct (expireLoop_ok assignments position (activeByEnd active) active) as [Hok' Hlive].
  { by destruct active. }
  destruct (_ <? _)%nat; [|done]. split; [by apply active_compact_ok|]. done.
Qed.

Lemma pushByEnd_elem assignments i heap j :
  j ∈ pushByEnd assignments i heap <-> j = i \/ j ∈ heap.
Proof.
  induction heap as [|front rest IH]; simpl; [set_solver|].
  destruct (endHeapCompare _ _ _); set_solver.
Qed.

Lemma pushByEnd_sorted assignments i heap :
  let R := fun i j => forall a b : RegAllocTransformAssignment,
    assignments !! i = Some a -> assignments !! j = Some b -> a_end a <= a_end b in
  is_Some (assignments !! i) -> (forall j, j ∈ heap -> is_Some (assignments !! j)) ->
  StronglySorted R heap -> StronglySorted R (pushByEnd assignments i heap).
Proof.
  intros R [a Ha] Hsome. induction 1 as [|front rest Hs IH Hle]; simpl.
  { constructor; [constructor|by apply Forall_nil]. }
  destruct (Hsome front ltac:(left)) as [f Hf]. unfold endHeapCompare. rewrite Ha, Hf.
  pose proof (proj1 (Forall_forall _ _) Hle) as Hle'.
  destruct (_ || _) eqn:E.
  - constructor; [apply IH; intros; apply Hsome; by right|]. apply Forall_forall. intros j Hj.
    apply pushByEnd_elem in Hj as [-> |Hj]; [|by apply Hle'].
    intros x y Hx Hy. simplify_eq. apply orb_true_iff in E as [E%Z.ltb_lt|[E%Z.eqb_eq _]%andb_true_iff]; lia.
  - apply orb_false_iff in E as [E%Z.ltb_ge _].
    constructor; [by constructor|]. apply Forall_cons. split.
    + intros x y Hx Hy. simplify_eq. lia.
    + apply Forall_forall. intros j Hj x y Hx Hy. simplify_eq.
      specialize (Hle' j Hj f y Hf Hy). lia.
Qed.


Lemma resizeLanes_lookup lanes size lane :
  resizeLanes lanes size !! lane =
    match lanes !! lane with
    | Some indices => Some indices
    | None => if (lane <? size)%nat then Some [] else None
    end.
Proof.
  unfold resizeLanes. destruct (lanes !! lane) eqn:E.
  - by apply lookup_app_l_Some.
  - apply lookup_ge_None in E. rewrite lookup_app_r by done.
    destruct (Nat.ltb_spec lane size); [apply lookup_replicate_2; lia|].
    apply lookup_replicate_None. lia.
Qed.

(** A new assignment of a set that has none. *)
Lemma active_add_ok assignments active a :
  activeOk assignments active -> activeBySet active !! a_set a = None -> 0 <= a_base a ->
  0 <= a_width a ->
  activeOk (assignments ++ [a]) (active_add (assignments ++ [a]) active (length assignments) a).
Proof.
  intros [H1 H2 H3 H4 H5 H6 H7 H8 H9 H10] Hs Hbase Hwidth.
  set (n := length assignments).
  assert ((assignments ++ [a]) !! n = Some a) as Hnew by (by apply list_lookup_middle).
  assert (forall i b, assignments !! i = Some b -> (assignments ++ [a]) !! i = Some b /\ i <> n) as Hold.
  { intros i b Hi. split; [by apply lookup_app_l_Some|]. apply lookup_lt_Some in Hi. unfold n. lia. }
  assert (forall i, i ∈ activeLive active -> exists b, assignments !! i = Some b) as Hlive.
  { intros i Hi. destruct (H1 i Hi) as (b & ? & _). by exists b. }
  split; simpl.
  - intros i [ ->%elem_of_singleton|Hi]%elem_of_union.
    + exists a. split; [done|]. apply lookup_insert_eq.
    + destruct (H1 i Hi) as (b & Hb & Hbs). exists b. split; [by apply Hold|].
      rewrite lookup_insert_ne; [done|]. congruence.
  - intros s i [[<- <-]|[Hne Hi]]%lookup_insert_Some.
    + split; [set_solver|]. by exists a.
    + destruct (H2 s i Hi) as (Hl & b & Hb & Hbs). split; [set_solver|].
      exists b. split; [by apply Hold|done].
  - intros i [ ->%elem_of_singleton|Hi]%elem_of_union; apply elem_of_app; [right; left|left; auto].
  - intros i b [ ->%elem_of_singleton|Hi]%elem_of_union Hb; unfold updateClass.
    + simplify_eq. rewrite decide_True by done. apply elem_of_app. right. left.
    + destruct (Hlive i Hi) as [b' Hb']. pose proof (Hold i b' Hb') as [Hb'' _].
      assert (b' = b) as -> by congruence. specialize (H4 i b Hi Hb'). destruct (decide _); [apply elem_of_app; by left|done].
  - intros c i. unfold updateClass. destruct (decide (c = a_regClass a)) as [-> |].
    + intros [Hi| ->%list_elem_of_singleton]%elem_of_app; [|by exists a].
      destruct (H5 _ i Hi) as (b & Hb & Hc). exists b. split; [by apply Hold|done].
    + intros Hi. destruct (H5 _ i Hi) as (b & Hb & Hc). exists b. split; [by apply Hold|done].
  - intros i b lane Hi Hb Hlane. unfold updateClass.
    assert (i = n /\ b = a \/ i ∈ activeLive active /\ assignments !! i = Some b) as Hcase.
    { apply elem_of_union in Hi as [ ->%elem_of_singleton|Hi]; [left; by simplify_eq|right].
      destruct (Hlive i Hi) as [b' Hb']. pose proof (Hold i b' Hb') as [Hb'' _]. by simplify_eq. }
    destruct (decide (a_regClass b = a_regClass a)) as [Hc|Hc].
    + rewrite list_lookup_imap, resizeLanes_lookup.
      destruct Hcase as [[-> ->] | [Hl Hb']].
      * unfold lanesOf in Hlane.
        assert (Z.to_nat (a_base a) <= lane < Z.to_nat (a_base a + a_width a))%nat as Hr by lia.
        destruct (activeByClassLane active (a_regClass a) !! lane) as [indices|].
        -- exists (indices ++ [n]). simpl. rewrite bool_decide_true by done.
           split; [done|]. apply elem_of_app. right. left.
        -- rewrite (proj2 (Nat.ltb_lt _ _)) by lia. simpl. rewrite bool_decide_true by done.
           exists [n]. split; [done|left].
      * destruct (H6 i b lane Hl Hb' Hlane) as (indices & Hin & Hi'). rewrite Hin. simpl.
        destruct (bool_decide _); eexists; (split; [done|]); [apply elem_of_app; by left|done].
    + destruct Hcase as [[-> ->] | [Hl Hb']]; [done|]. by apply (H6 i b lane).
  - intros c lane indices i. unfold updateClass. destruct (decide (c = a_regClass a)) as [-> |].
    + rewrite list_lookup_imap, resizeLanes_lookup. intros Hl Hi.
      assert (i = n /\ lanesOf a (Z.of_nat lane) \/ exists b, assignments !! i = Some b /\
        a_regClass b = a_regClass a /\ lanesOf b (Z.of_nat lane)) as [[-> Hlane]|(b & Hb & Hc & Hlane)].
      { destruct (activeByClassLane active (a_regClass a) !! lane) as [old|] eqn:E; simpl in Hl.
        - case_bool_decide as Hr; simplify_eq; [|right; by apply (H7 _ lane indices)].
          apply elem_of_app in Hi as [Hi| ->%list_elem_of_singleton]; [right; by apply (H7 _ lane old)|].
          left. split; [done|]. unfold lanesOf. lia.
        - destruct (_ <? _)%nat; [|done]. simpl in Hl. case_bool_decide as Hr; simplify_eq.
          + apply list_elem_of_singleton in Hi as ->.
            left. split; [done|]. unfold lanesOf. lia.
          + by apply elem_of_nil in Hi. }
      * by exists a.
      * exists b. split; [by apply Hold|done].
    + intros Hl Hi. destruct (H7 _ lane indices i Hl Hi) as (b & Hb & Hr).
      exists b. split; [by apply Hold|done].
  - intros i [ ->%elem_of_singleton|Hi]%elem_of_union; apply pushByEnd_elem; [by left|right; auto].
  - intros i [-> |Hi]%pushByEnd_elem; [by exists a|]. destruct (H9 i Hi) as [b Hb].
    exists b. by apply Hold.
  - apply pushByEnd_sorted; [by exists a| |].
    + intros j Hj. destruct (H9 j Hj) as [b Hb]. exists b. by apply Hold.
    + clear -H9 H10 Hold. induction H10 as [|i rest Hs IH Hle]; constructor.
      * apply IH. intros. apply H9. by right.
      * rewrite Forall_forall in Hle. apply Forall_forall. intros j Hj x y Hx Hy.
        destruct (H9 i ltac:(left)) as [x' Hx']. destruct (H9 j ltac:(by right)) as [y' Hy'].
        pose proof (Hold i x' Hx') as [? _]. pose proof (Hold j y' Hy') as [? _]. simplify_eq.
        by apply (Hle j Hj).
Qed.

(** ** Queries over the lanes *)

Section Visit.
Context (assignments : list RegAllocTransformAssignment) (active : ActiveAssignments).
Context {B : Type} (f : RegAllocTransformAssignment -> option B).

Definition refused (i : nat) : Prop := assignments !! i ≫= f = None.

Lemma visitLane_spec visited indices :
  (forall i, i ∈ visited -> refused i) ->
  match visitLane assignments f active visited indices with
  | (_, Some b) =>
      exists i a, i ∈ indices /\ i ∈ activeLive active /\ assignments !! i = Some a /\ f a = Some b
  | (visited', None) =>
      (forall i, i ∈ visited' -> refused i) /\
      (forall i, i ∈ indices -> i ∈ activeLive active -> refused i)
  end.
Proof.
  revert visited. induction indices as [|i rest IH]; intros visited Hv; simpl.
  { split; [done|]. by intros i ?%elem_of_nil. }
  unfold active_isLive. destruct (negb _ || _) eqn:E.
  - specialize (IH visited Hv).
    destruct (visitLane _ _ _ _ rest) as [visited' [b|]].
    + destruct IH as (j & a & Hj & Hrest). exists j, a. split; [by right|done].
    + destruct IH as [Hv' Hrest]. split; [done|]. intros j [-> |Hj]%elem_of_cons Hlive; [|auto].
      rewrite bool_decide_true in E by done. apply Hv. by apply bool_decide_eq_true in E.
  - apply orb_false_iff in E as [E _]. apply negb_false_iff, bool_decide_eq_true in E.
    destruct (assignments !! i ≫= f) as [b|] eqn:Ef.
    + apply bind_Some in Ef as (a & Ha & Hf). exists i, a. split; [left|done].
    + specialize (IH ({[i]} ∪ visited)).
      destruct (visitLane _ _ _ _ rest) as [visited' [b|]].
      * destruct IH as (j & a & Hj & Hrest); [|exists j, a; split; [by right|done]].
        intros j [ ->%elem_of_singleton|]%elem_of_union; auto.
      * destruct IH as [Hv' Hrest].
        { intros j [ ->%elem_of_singleton|]%elem_of_union; auto. }
        split; [done|]. intros j [-> |Hj]%elem_of_cons Hlive; auto.
Qed.

Lemma visitLanes_spec visited lanes :
  (forall i, i ∈ visited -> refused i) ->
  match visitLanes assignments f active visited lanes with
  | Some b => exists lane indices i a, lanes !! lane = Some indices /\ i ∈ indices /\
      i ∈ activeLive active /\ assignments !! i = Some a /\ f a = Some b
  | None => forall lane indices i, lanes !! lane = Some indices -> i ∈ indices ->
      i ∈ activeLive active -> refused i
  end.
Proof.
  revert visited. induction lanes as [|indices lanes IH]; intros visited Hv; simpl.
  { intros lane indices i Hl. by rewrite lookup_nil in Hl. }
  pose proof (visitLane_spec visited indices Hv) as Hlane.
  destruct (visitLane _ _ _ _ indices) as [visited' [b|]].
  - destruct Hlane as (i & a & Hi). exists 0%nat, indices, i, a. done.
  - destruct Hlane as [Hv' Hr]. specialize (IH visited' Hv').
    destruct (visitLanes _ _ _ _ lanes) as [b|].
    + destruct IH as (lane & Hl). exists (S lane). done.
    + intros [|lane] indices' i Hl Hi Hlive; simplify_eq/=; [auto|]. by apply (IH lane indices').
Qed.

(** A query meets the live assignments of the class with a lane in the range. *)
Lemma anyOverlapping_spec c base width :
  activeOk assignments active -> 0 <= base ->
  match anyRegClassOverlappingRange assignments f active c base width with
  | Some b => exists i a, i ∈ activeLive active /\ assignments !! i = Some a /\
      a_regClass a = c /\ f a = Some b
  | None => forall i a lane, i ∈ activeLive active -> assignments !! i = Some a ->
      a_regClass a = c -> 0 <= lane -> lanesOf a lane -> base <= lane < base + width -> f a = None
  end.
Proof.
  intros Hok Hbase. unfold anyRegClassOverlappingRange.
  set (lanes := take (Z.to_nat width) (drop (Z.to_nat base) (activeByClassLane active c))).
  assert (forall k, lanes !! k = if (k <? Z.to_nat width)%nat
    then activeByClassLane active c !! (Z.to_nat base + k)%nat else None) as Hlookup.
  { intros k. unfold lanes. destruct (Nat.ltb_spec k (Z.to_nat width)).
    - rewrite lookup_take_lt by lia. by rewrite lookup_drop.
    - by rewrite lookup_take_ge by lia. }
  pose proof (visitLanes_spec ∅ lanes ltac:(intros i ?%elem_of_empty; done)) as Hspec.
  destruct (visitLanes _ _ _ _ _) as [b|].
  - destruct Hspec as (k & indices & i & a & Hk & Hi & Hlive & Ha & Hf).
    exists i, a. split; [done|]. split; [done|]. split; [|done]. rewrite Hlookup in Hk.
    destruct (_ <? _)%nat; [|done].
    destruct (ok_laneOf _ _ Hok _ _ _ _ Hk Hi) as (a' & Ha' & Hc & _). by simplify_eq.
  - intros i a lane Hlive Ha Hc Hlane Hin Hr.
    destruct (ok_lane _ _ Hok i a (Z.to_nat lane) Hlive Ha) as (indices & Hindices & Hi).
    { by rewrite Z2Nat.id. }
    assert (refused i) as Hno; [|by unfold refused in Hno; rewrite Ha in Hno].
    apply (Hspec (Z.to_nat lane - Z.to_nat base)%nat indices i); [|done|done].
    rewrite Hlookup, (proj2 (Nat.ltb_lt _ _)) by lia. rewrite <-Hc, <-Hindices. f_equal. lia.
Qed.
End Visit.

Lemma active_lookup_spec assignments active s a :
  activeOk assignments active -> active_lookup assignments active s = Some a ->
  exists i, i ∈ activeLive active /\ assignments !! i = Some a /\ a_set a = s.
Proof.
  intros Hok (i & Hs & Ha)%bind_Some. destruct (ok_bySet _ _ Hok s i Hs) as (Hlive & b & Hb & Hset).
  exists i. simplify_eq. done.
Qed.

(** ** The index of the sets *)

Section Index.
Context (sets : list RegAllocTransformAliasSet).

(** The table has the first [k] sets. *)
Definition indexed (table : nat -> option nat) (k : nat) : Prop :=
  forall id i, table id = Some i <-> (i < k)%nat /\ exists s, sets !! i = Some s /\ s_id s = id.

Lemma indexed_inj table k i j s s' :
  indexed table k -> sets !! i = Some s -> sets !! j = Some s' -> (i < k)%nat -> (j < k)%nat ->
  s_id s = s_id s' -> i = j.
Proof.
  intros Hi Hs Hs' Hik Hjk Heq.
  assert (table (s_id s) = Some i) by (apply Hi; split; [done|by exists s]).
  assert (table (s_id s) = Some j) by (apply Hi; split; [done|by exists s']). congruence.
Qed.

Lemma indexed_step table k s i :
  indexed table k -> sets !! k = Some s -> table (s_id s) = Some i ->
  ~ NoDup (map s_id sets).
Proof.
  intros Hi Hs (Hik & s' & Hs' & Heq)%Hi Hnodup.
  assert (i = k); [|lia]. apply (NoDup_lookup (map s_id sets) i k (s_id s) Hnodup).
  - by rewrite list_lookup_fmap, Hs', <-Heq.
  - by rewrite list_lookup_fmap, Hs.
Qed.

(** A loop that enters the sets one by one and fails where one is there. *)
Lemma indexFold {T} (step : T -> nat * RegAllocTransformAliasSet -> outcome T)
    (get : T -> nat -> option nat) (P : T -> Prop) :
  (forall t i s, P t -> s ∈ sets ->
    match step t (i, s) with
    | Ok t' => get t (s_id s) = None /\ P t' /\
        forall id, get t' id = if decide (id = s_id s) then Some i else get t id
    | Failure => is_Some (get t (s_id s))
    | Fatal _ => False
    end) ->
  forall rest k t, drop k sets = rest -> P t -> indexed (get t) k ->
  match foldM step t (imap (fun i s => ((k + i)%nat, s)) rest) with
  | Ok t' => indexed (get t') (length sets)
  | Failure => ~ NoDup (map s_id sets)
  | Fatal _ => False
  end.
Proof.
  intros Hstep. induction rest as [|s rest IH]; intros k t Hdrop HP Hi.
  - simpl. assert (length sets <= k)%nat as Hk.
    { apply (f_equal length) in Hdrop. rewrite length_drop in Hdrop. simpl in Hdrop. lia. }
    intros id i. rewrite (Hi id i). split; intros [_ (s & Hs & Hid)].
    + split; [by apply lookup_lt_Some in Hs|by exists s].
    + split; [apply lookup_lt_Some in Hs; lia|by exists s].
  - assert (sets !! k = Some s) as Hs.
    { rewrite <-(Nat.add_0_r k), <-lookup_drop, Hdrop. done. }
    rewrite imap_cons. cbn [foldM]. rewrite Nat.add_0_r.
    specialize (Hstep t k s HP ltac:(by apply list_elem_of_lookup_2 in Hs)).
    destruct (step t (k, s)) as [t'| |]; [|by destruct Hstep as [i Hg]; apply (indexed_step _ _ _ _ Hi Hs Hg)|done].
    destruct Hstep as (Hnone & HP' & Hget).
    rewrite (imap_ext _ (fun i s => ((S k + i)%nat, s))).
    2:{ intros i x _. simpl. f_equal. lia. }
    apply (IH (S k) t'); [|done|].
    { rewrite <-Nat.add_1_r, <-drop_drop, Hdrop. done. }
    intros id i. rewrite Hget. case_decide as Hid.
    + subst id. split.
      * intros [= <-]. split; [lia|by exists s].
      * intros (Hik & s' & Hs' & Heq). f_equal. destruct (decide (i = k)) as [|Hne]; [done|].
        assert (get t (s_id s) = Some i); [|congruence]. apply Hi. split; [lia|by exists s'].
    + rewrite (Hi id i). split; intros [Hik (s' & Hs' & Heq)].
      * split; [lia|by exists s'].
      * split; [|by exists s']. assert (i <> k); [|lia]. intros ->. congruence.
Qed.

Lemma maxSetId_ge s : s ∈ sets -> (s_id s <= foldl Nat.max 0 (map s_id sets))%nat.
Proof.
  assert (forall l m, (m <= foldl Nat.max m l)%nat /\
    forall x, x ∈ l -> (x <= foldl Nat.max m l)%nat) as Hmax.
  { induction l as [|y l IH]; intros m; simpl; [split; [done|by intros ? ?%elem_of_nil]|].
    destruct (IH (Nat.max m y)) as [Hle Hin]. split; [lia|].
    intros x [-> |Hx]%elem_of_cons; [lia|auto]. }
  intros Hs. apply Hmax. apply list_elem_of_fmap. by exists s.
Qed.

Definition tableGet (tables : list (option nat) * gmap nat nat) (id : nat) : option nat :=
  if (id <? length (fst tables))%nat then mjoin (fst tables !! id) else snd tables !! id.

Lemma imap_pair_shift {A} (l : list A) : imap pair l = imap (fun i s => ((0 + i)%nat, s)) l.
Proof. by apply imap_ext. Qed.

Lemma denseStep_ok size t i s :
  (s_id s < size)%nat -> length t = size ->
  match denseStep t (i, s) with
  | Ok t' => mjoin (t !! s_id s) = None /\ length t' = size /\
      forall id, mjoin (t' !! id) = if decide (id = s_id s) then Some i else mjoin (t !! id)
  | Failure => is_Some (mjoin (t !! s_id s))
  | Fatal _ => False
  end.
Proof.
  intros Hs Ht. unfold denseStep.
  destruct (lookup_lt_is_Some_2 t (s_id s)) as [e He]; [lia|].
  rewrite He. destruct e as [j|]; [by exists j|]. split; [done|].
  split; [by rewrite length_insert|]. intros id. case_decide as Hid.
  - subst id. rewrite list_lookup_insert_eq; [done|]. by apply lookup_lt_Some in He.
  - by rewrite list_lookup_insert_ne.
Qed.
Lemma sparseStep_ok t i s :
  match sparseStep t (i, s) with
  | Ok t' => t !! s_id s = None /\ True /\
      forall id, t' !! id = if decide (id = s_id s) then Some i else t !! id
  | Failure => is_Some (t !! s_id s)
  | Fatal _ => False
  end.
Proof.
  unfold sparseStep. destruct (t !! s_id s) as [j|] eqn:E; [by exists j|].
  split; [done|]. split; [done|]. intros id.
  case_decide; [subst; by rewrite lookup_insert_eq|]. by rewrite lookup_insert_ne.
Qed.

(** The index has every set at its place, and is refused where two sets have the
    same number. *)
Lemma buildSetIndex_spec :
  match buildSetIndex sets with
  | Ok tables => indexed (tableGet tables) (length sets)
  | Failure => ~ NoDup (map s_id sets)
  | Fatal _ => False
  end.
Proof.
  unfold buildSetIndex. destruct sets as [|s0 rest] eqn:Esets.
  { simpl. intros id i. unfold tableGet. simpl. rewrite lookup_empty. split; [done|]. simpl. lia. }
  rewrite <-Esets. set (maxSetId := foldl _ _ _).
  assert (forall s, s ∈ sets -> (s_id s < S maxSetId)%nat) as Hmax.
  { intros s Hs. pose proof (maxSetId_ge s Hs) as Hle. fold maxSetId in Hle. lia. }
  rewrite imap_pair_shift.
  destruct (maxSetId <=? length sets * 4)%nat.
  - assert (indexed (fun id => mjoin (replicate (S maxSetId) None !! id)) 0) as Hinit.
    { intros id i. split; [|lia].
      destruct (replicate (S maxSetId) None !! id) as [e|] eqn:E; [|done].
      apply lookup_replicate in E as [-> _]. done. }
    pose proof (indexFold denseStep (fun entries id => mjoin (entries !! id))
      (fun entries => length entries = S maxSetId)
      (fun t i s Ht Hs => denseStep_ok (S maxSetId) t i s (Hmax s Hs) Ht) sets 0%nat
      (replicate (S maxSetId) None) (drop_0 sets) (length_replicate _ _) Hinit) as Hfold.
    destruct (foldM denseStep _ _) as [entries| |]; simpl; [|done|done].
    intros id i. rewrite <-(Hfold id i). unfold tableGet. simpl.
    destruct (Nat.ltb_spec id (length entries)); [done|].
    rewrite lookup_empty. assert (entries !! id = None) as -> by (apply lookup_ge_None; lia). done.
  - assert (indexed (fun id => (∅ : gmap nat nat) !! id) 0) as Hinit.
    { intros id i. rewrite lookup_empty. split; [done|lia]. }
    pose proof (indexFold sparseStep (fun entries id => entries !! id) (fun _ => True)
      (fun t i s _ _ => sparseStep_ok t i s) sets 0%nat ∅ (drop_0 sets) I Hinit) as Hfold.
    by destruct (foldM sparseStep _ _) as [entries| |].
Qed.
End Index.

(** ** Well-formed input *)

(** A member lies within its set, in lanes and in time. *)
Record memberOk (set : RegAllocTransformAliasSet) (value : RegAllocTransformValue) : Prop := {
  member_set : v_set value = s_id set;
  member_offset : 0 <= v_offset value;
  member_width : 0 < v_width value;
  member_fits : v_offset value + v_width value <= s_width set;
  member_ranges : rangesOk (v_ranges value);
  member_covered p : inRanges p (v_ranges value) -> inRanges p (s_ranges set)
}.

Record setOk (values : list RegAllocTransformValue) (set : RegAllocTransformAliasSet) : Prop := {
  set_members id : id ∈ s_members set ->
    exists value, values !! id = Some value /\ memberOk set value;
  set_ranges : rangesOk (s_ranges set);
  set_bounds p : inRanges p (s_ranges set) -> s_start set <= p <= s_end set;
  set_width : 0 < s_width set
}.

(** What decoding the state establishes ([decodeRegAllocTransformState]): sets in
    the order in which they start. *)
Record inputOk (input : ScanInput) : Prop := {
  input_sets set : set ∈ in_sets input -> setOk (in_values input) set;
  input_sorted i j a b : in_sets input !! i = Some a -> in_sets input !! j = Some b ->
    (i <= j)%nat -> s_start a <= s_start b;
  input_limits limits : in_limits input = Ok (Some limits) -> 0 <= vgprTupleAlignment limits;
  input_offsets value : value ∈ in_values input -> 0 <= v_offset value
}.

(** What [parseState] computes where it records no failure. *)
Record tablesOk (input : ScanInput) (tables : ScanTables) : Prop := {
  tables_index : indexed (in_sets input)
    (tableGet (setIndexById tables, sparseSetIndexById tables)) (length (in_sets input));
  tables_limits : in_limits input = Ok (targetLimits tables);
  tables_fixed i set : in_sets input !! i = Some set ->
    fixedBases tables !! i =
      Some (fst (computeFixedBase input (payloadValues tables) (targetLimits tables) set)) /\
    snd (computeFixedBase input (payloadValues tables) (targetLimits tables) set) = None
}.

(** The assignments are of sets, each at a base, and the tables of what is live
    are right. *)
Definition assignmentOf (set : RegAllocTransformAliasSet) (base : Z) : RegAllocTransformAssignment :=
  mkAssignment (s_regClass set) (s_id set) base (s_width set) (s_start set) (s_end set).
Record stateOk (input : ScanInput) (state : ScanState) : Prop := {
  state_active : activeOk (assignments state) (active state);
  state_assigned i a : assignments state !! i = Some a ->
    exists set, in_sets input !! i = Some set /\ a = assignmentOf set (a_base a) /\ 0 <= a_base a
}.

Lemma firstSome_Some {A B} (f : A -> option B) l b :
  firstSome f l = Some b -> exists a, a ∈ l /\ f a = Some b.
Proof.
  induction l as [|a l IH]; simpl; [done|]. destruct (f a) eqn:E.
  - intros [= ->]. exists a. split; [left|done].
  - intros Hf. destruct (IH Hf) as (x & Hx & ?). exists x. split; [by right|done].
Qed.
Lemma firstSome_None {A B} (f : A -> option B) l a : firstSome f l = None -> a ∈ l -> f a = None.
Proof.
  induction l as [|x l IH]; simpl; [by intros _ ?%elem_of_nil|].
  destruct (f x) eqn:E; [done|]. intros Hf [-> |Hin]%elem_of_cons; auto.
Qed.

Lemma alignTo_ge value align : 0 < align -> value <= alignTo value align.
Proof.
  intros. unfold alignTo. pose proof (Z.div_mod (value + align - 1) align).
  pose proof (Z.mod_pos_bound (value + align - 1) align). lia.
Qed.
Lemma alignTo_divide value align : (align | alignTo value align).
Proof. exists ((value + align - 1) / align). done. Qed.
(** [alignTo] is the least multiple. *)
Lemma alignTo_least value align n :
  0 < align -> (align | n) -> value <= n -> alignTo value align <= n.
Proof.
  intros Ha [k ->] Hv. unfold alignTo.
  assert ((value + align - 1) / align < k + 1); [|nia].
  apply Z.div_lt_upper_bound; nia.
Qed.

Section Find.
Context (input : ScanInput) (tables : ScanTables) (Hin : inputOk input) (Htab : tablesOk input tables).
#[local] Set Default Proof Using "All".

Lemma getSetById_spec id set :
  getSetById input tables id = Some set <->
  exists i, in_sets input !! i = Some set /\ s_id set = id.
Proof.
  assert (getSetById input tables id =
    tableGet (setIndexById tables, sparseSetIndexById tables) id ≫= fun i => in_sets input !! i) as ->.
  { unfold getSetById, tableGet. simpl. by destruct (_ <? _)%nat. }
  rewrite bind_Some. split.
  - intros (i & (Hi & s & Hs & Hid)%(tables_index _ _ Htab) & Hset). exists i. by simplify_eq.
  - intros (i & Hs & Hid). exists i. split; [|done]. apply (tables_index _ _ Htab).
    split; [by apply lookup_lt_Some in Hs|by exists set].
Qed.

Lemma set_unique i j s s' :
  in_sets input !! i = Some s -> in_sets input !! j = Some s' -> s_id s = s_id s' -> i = j.
Proof.
  intros Hs Hs'. apply (indexed_inj _ _ _ _ _ _ _ (tables_index _ _ Htab) Hs Hs').
  - by apply lookup_lt_Some in Hs.
  - by apply lookup_lt_Some in Hs'.
Qed.

Lemma membersOf_elem set value :
  value ∈ membersOf input set <->
  exists id, id ∈ s_members set /\ in_values input !! id = Some value.
Proof. unfold membersOf. by rewrite list_elem_of_omap. Qed.

Lemma membersOf_ok set value :
  set ∈ in_sets input -> value ∈ membersOf input set -> memberOk set value.
Proof.
  intros Hs (id & Hid & Hv)%membersOf_elem.
  destruct (set_members _ _ (input_sets _ Hin _ Hs) id Hid) as (v & Hv' & Hok). by simplify_eq.
Qed.

Section Query.
Context (index : nat) (set : RegAllocTransformAliasSet) (state : ScanState).
Context (Hset : in_sets input !! index = Some set) (Hstate : stateOk input state).

Lemma set_in : set ∈ in_sets input.
Proof. by apply list_elem_of_lookup_2 in Hset. Qed.
Lemma set_wide : 0 < s_width set.
Proof. apply (set_width _ _ (input_sets _ Hin _ set_in)). Qed.

Lemma alignment_positive :
  0 < getRequiredAlignment input (payloadValues tables) (targetLimits tables) set.
Proof.
  assert (0 < PowerOf2Ceil (s_width set)) by (apply Z.pow_pos_nonneg; [lia|apply Z.log2_up_nonneg]).
  unfold getRequiredAlignment. destruct (_ <=? 1); [lia|]. destruct (_ && _); [lia|].
  pose proof (tables_limits _ _ Htab) as Hl.
  destruct (targetLimits tables) as [limits|]; [|done]. pose proof (input_limits _ Hin _ Hl) as Hlimits.
  destruct (_ && negb (vgprTupleAlignment limits =? 0)) eqn:E; [|done].
  apply andb_true_iff in E as [_ E%negb_true_iff%Z.eqb_neq]. lia.
Qed.

(** What is assigned, as a set of the input. *)
Lemma assigned_set i a :
  assignments state !! i = Some a ->
  exists s, in_sets input !! i = Some s /\ getSetById input tables (a_set a) = Some s /\
    a = assignmentOf s (a_base a) /\ 0 <= a_base a /\ 0 < a_width a.
Proof.
  intros Ha. destruct (state_assigned _ _ Hstate i a Ha) as (s & Hs & Heq & Hb).
  exists s. split; [done|]. split; [apply getSetById_spec; exists i; split; [done|by rewrite Heq]|].
  split; [done|]. split; [done|]. rewrite Heq. simpl.
  apply (set_width _ _ (input_sets _ Hin s ltac:(by apply list_elem_of_lookup_2 in Hs))).
Qed.

(** A conflict with an assignment lasts up to the end that the query names. *)
Lemma activeConflict_persists i a base e base' :
  assignments state !! i = Some a ->
  getActiveAssignmentConflictEnd input tables set a base = Some e ->
  base <= base' < e ->
  is_Some (getActiveAssignmentConflictEnd input tables set a base') /\
  assignedRangesOverlap a base' (s_width set) = true.
Proof.
  intros Ha Hc Hb. destruct (assigned_set i a Ha) as (s & Hs & Hget & Heq & Hbase & Hw).
  pose proof set_wide as Hwide.
  unfold getActiveAssignmentConflictEnd in *. rewrite Hget in *.
  apply firstSome_Some in Hc as (m & Hm & Hc).
  assert (memberOk s m) as Hok.
  { apply membersOf_ok; [|done]. by apply list_elem_of_lookup_2 in Hs. }
  destruct Hok as [_ Hoff Hmw Hfits _ _].
  destruct (_ || _) eqn:E in Hc; [done|]. apply orb_false_iff in E as [E1%Z.leb_gt E2%Z.leb_gt].
  destruct (memberConflictsWithSet _ _ _ m) eqn:Em; [|done]. injection Hc as <-.
  assert (a_width a = s_width s) as Haw by (by rewrite Heq).
  split.
  - destruct (firstSome _ _) eqn:Ef; [done|]. apply (firstSome_None _ _ m) in Ef; [|done].
    cbv beta in Ef. destruct (_ || _) eqn:E in Ef.
    + apply orb_true_iff in E as [E%Z.leb_le|E%Z.leb_le]; lia.
    + by rewrite Em in Ef.
  - unfold assignedRangesOverlap. apply andb_true_iff. rewrite !Z.ltb_lt. lia.
Qed.

Lemma overlap_lane a base :
  assignedRangesOverlap a base (s_width set) = true -> 0 < a_width a ->
  exists lane, lanesOf a lane /\ base <= lane < base + s_width set.
Proof.
  intros H Hw. pose proof set_wide. unfold assignedRangesOverlap in H.
  apply andb_true_iff in H as [H1%Z.ltb_lt H2%Z.ltb_lt].
  exists (Z.max (a_base a) base). unfold lanesOf. lia.
Qed.

(** No conflict: every assignment that is live is out of the way. *)
Lemma findActiveConflictEnd_None base i a :
  0 <= base ->
  findActiveConflictEnd input tables index set state base = None ->
  i ∈ activeLive (active state) -> assignments state !! i = Some a -> a_regClass a = s_regClass set ->
  assignedRangesOverlap a base (s_width set) = true ->
  getActiveAssignmentConflictEnd input tables set a base = None \/
  canShareFixedHardwareRead tables index set a base = true.
Proof.
  intros Hbase Hf Hlive Ha Hc Ho. destruct (assigned_set i a Ha) as (s & _ & _ & _ & Hab & Hw).
  destruct (overlap_lane a base Ho Hw) as (lane & Hlane & Hr).
  unfold findActiveConflictEnd in Hf. set (f := fun assigned => _) in Hf.
  pose proof (anyOverlapping_spec (assignments state) (active state) f (s_regClass set) base
    (s_width set) (state_active _ _ Hstate) Hbase) as Hspec.
  rewrite Hf in Hspec. specialize (Hspec i a lane Hlive Ha Hc).
  assert (f a = None) as Hfa by (apply Hspec; unfold lanesOf in *; lia).
  unfold f in Hfa. rewrite Ho in Hfa. simpl in Hfa.
  destruct (getActiveAssignmentConflictEnd _ _ _ _ _); [|by left].
  destruct (canShareFixedHardwareRead _ _ _ _ _); [by right|done].
Qed.

Lemma findActiveConflictEnd_Some base e :
  0 <= base ->
  findActiveConflictEnd input tables index set state base = Some e ->
  exists i a, i ∈ activeLive (active state) /\ assignments state !! i = Some a /\
    a_regClass a = s_regClass set /\ assignedRangesOverlap a base (s_width set) = true /\
    getActiveAssignmentConflictEnd input tables set a base = Some e /\
    canShareFixedHardwareRead tables index set a base = false.
Proof.
  intros Hbase Hf. unfold findActiveConflictEnd in Hf. set (f := fun assigned => _) in Hf.
  pose proof (anyOverlapping_spec (assignments state) (active state) f (s_regClass set) base
    (s_width set) (state_active _ _ Hstate) Hbase) as Hspec.
  rewrite Hf in Hspec. destruct Hspec as (i & a & Hlive & Ha & Hc & Hfa). exists i, a.
  unfold f in Hfa. destruct (assignedRangesOverlap a base (s_width set)); [|done]. simpl in Hfa.
  destruct (getActiveAssignmentConflictEnd _ _ _ _ _); [|done].
  destruct (canShareFixedHardwareRead _ _ _ _ _); [done|]. naive_solver.
Qed.

(** ** The lowest base that is free *)

Definition freeBase (base : Z) : Prop :=
  setBaseIsLegal input (payloadValues tables) (targetLimits tables) set base = true /\
  findActiveConflictEnd input tables index set state base = None /\
  findFixedReservationConflictEnd tables set base = None.

Context (Hunfixed : getFixedBase tables index = None).

Lemma unshared a base : canShareFixedHardwareRead tables index set a base = false.
Proof. unfold canShareFixedHardwareRead. by rewrite Hunfixed. Qed.

Lemma conflict_persists base base' e :
  0 <= base ->
  findActiveConflictEnd input tables index set state base = Some e -> base <= base' < e ->
  ~ freeBase base'.
Proof.
  intros Hb Hf Hb' (_ & Hnone & _).
  destruct (findActiveConflictEnd_Some base e Hb Hf) as (i & a & Hlive & Ha & Hc & _ & He & _).
  destruct (activeConflict_persists i a base e base' Ha He Hb') as [[e' He'] Ho].
  destruct (findActiveConflictEnd_None base' i a ltac:(lia) Hnone Hlive Ha Hc Ho) as [H|H].
  - by rewrite He' in H.
  - by rewrite unshared in H.
Qed.

Lemma reservation_persists base base' e :
  findFixedReservationConflictEnd tables set base = Some e -> base <= base' < e ->
  ~ freeBase base'.
Proof.
  intros Hf Hb' (_ & _ & Hnone). unfold findFixedReservationConflictEnd in *.
  apply firstSome_Some in Hf as (r & Hr & Hf). apply (firstSome_None _ _ r) in Hnone; [|done].
  pose proof set_wide. unfold assignedRangesOverlap in *.
  destruct (negb _) eqn:E1 in Hf; [done|]. apply negb_false_iff, andb_true_iff in E1 as [E1%Z.ltb_lt E2%Z.ltb_lt].
  destruct (negb (aliasSetOverlapsRange set (a_start r) (a_end r))) eqn:E3; [done|].
  injection Hf as <-. rewrite (proj2 (andb_true_iff _ _)) in Hnone; [done|].
  rewrite !Z.ltb_lt. lia.
Qed.

Abbreviation alignment :=
  (getRequiredAlignment input (payloadValues tables) (targetLimits tables) set).

Lemma freeBase_aligned base : freeBase base -> (alignment | base).
Proof.
  intros [Hlegal _]. unfold setBaseIsLegal in Hlegal. apply andb_true_iff in Hlegal as [H%Z.eqb_eq _].
  apply Z.mod_divide; [|done]. pose proof alignment_positive. lia.
Qed.

(** Between one aligned base and the next no base is free. *)
Lemma between_aligned base base' :
  (alignment | base) -> base < base' < base + alignment -> ~ freeBase base'.
Proof.
  intros [k Hk] Hb Hf. destruct (freeBase_aligned _ Hf) as [k' Hk'].
  pose proof alignment_positive as Hal. rewrite Hk, Hk' in Hb.
  assert (k < k') by nia. assert (k' < k + 1) by nia. lia.
Qed.

(** First fit: skipping to the end of a conflict leaves no free base out. *)
Lemma findFreeLoop_first_fit fuel base maxBase :
  0 <= base -> (alignment | base) -> maxBase - base < Z.of_nat fuel ->
  match findFreeLoop input tables index set state fuel alignment base maxBase with
  | Some found => base <= found <= maxBase /\ freeBase found /\
      forall lower, base <= lower < found -> ~ freeBase lower
  | None => forall lower, base <= lower <= maxBase -> ~ freeBase lower
  end.
Proof.
  pose proof alignment_positive as Hal.
  revert base. induction fuel as [|fuel IH]; intros base Hb Hdiv Hfuel; cbn [findFreeLoop].
  { intros lower Hl. lia. }
  destruct (Z.ltb_spec maxBase base); [intros lower Hl; lia|].
  assert (forall next, base <= next -> (alignment | next) ->
    (forall lower, base <= lower <= next -> ~ freeBase lower) ->
    match findFreeLoop input tables index set state fuel alignment (next + alignment) maxBase with
    | Some found => base <= found <= maxBase /\ freeBase found /\
        forall lower, base <= lower < found -> ~ freeBase lower
    | None => forall lower, base <= lower <= maxBase -> ~ freeBase lower
    end) as Hnext.
  { intros next Hn Hnd Hbelow. specialize (IH (next + alignment)).
    assert (forall lower, base <= lower < next + alignment -> ~ freeBase lower) as Hbelow'.
    { intros lower Hl. destruct (Z.le_gt_cases lower next); [apply Hbelow; lia|].
      apply (between_aligned next); [done|lia]. }
    destruct (findFreeLoop _ _ _ _ _ fuel _ _ _) as [found|].
    - destruct IH as (Hr & Hf & Hlow); [lia|by apply Z.divide_add_r; [|apply Z.divide_refl]|lia|].
      split; [lia|]. split; [done|]. intros lower Hl.
      destruct (Z.lt_ge_cases lower (next + alignment)); [apply Hbelow'; lia|apply Hlow; lia].
    - intros lower Hl. destruct (Z.lt_ge_cases lower (next + alignment)); [apply Hbelow'; lia|].
      apply IH; [lia|by apply Z.divide_add_r; [|apply Z.divide_refl]|lia|lia]. }
  destruct (setBaseIsLegal _ _ _ _ base) eqn:Elegal; cbn [negb].
  2:{ apply Hnext; [lia|done|]. intros lower Hl [Hlegal _]. assert (lower = base) as -> by lia. congruence. }
  assert (forall e, (forall base', base <= base' < e -> ~ freeBase base') -> ~ freeBase base ->
    match findFreeLoop input tables index set state fuel alignment
      ((if (base <? e) && (base <? alignTo e alignment) then alignTo e alignment - alignment
        else base) + alignment) maxBase with
    | Some found => base <= found <= maxBase /\ freeBase found /\
        forall lower, base <= lower < found -> ~ freeBase lower
    | None => forall lower, base <= lower <= maxBase -> ~ freeBase lower
    end) as Hskip.
  { intros e Hp Hnow. destruct (Z.ltb_spec base e); cbn [andb].
    2:{ apply Hnext; [lia|done|]. intros lower Hl. assert (lower = base) as -> by lia. done. }
    destruct (Z.ltb_spec base (alignTo e alignment)) as [Hlt|Hge].
    - assert (base <= alignTo e alignment - alignment) as Hle.
      { destruct Hdiv as [k Hk]. destruct (alignTo_divide e alignment) as [k' Hk'].
        rewrite Hk' in Hlt |- *. rewrite Hk in Hlt |- *. assert (k < k') by nia. nia. }
      apply Hnext; [done| |].
      + apply Z.divide_sub_r; [apply alignTo_divide|apply Z.divide_refl].
      + intros lower Hl Hf. destruct (Z.lt_ge_cases lower e); [by apply (Hp lower); [lia|]|].
        pose proof (alignTo_least e alignment lower Hal (freeBase_aligned _ Hf)). lia.
    - apply Hnext; [lia|done|]. intros lower Hl. assert (lower = base) as -> by lia. done. }
  destruct (findActiveConflictEnd _ _ _ _ _ base) as [e|] eqn:Eactive.
  - apply Hskip; [intros base'; by apply conflict_persists|]. intros (_ & Hn & _). congruence.
  - destruct (findFixedReservationConflictEnd _ _ base) as [e|] eqn:Efixed.
    + apply Hskip; [intros base'; by apply reservation_persists|]. intros (_ & _ & Hn). congruence.
    + split; [lia|]. split; [done|]. intros lower Hl. lia.
Qed.

(** The base that is found is the least free one below the bound. *)
Lemma findFreeBase_first_fit limit beforeBase :
  (forall before, beforeBase = Some before -> 0 <= before) ->
  let below base := 0 <= base /\ base + s_width set <= limit /\
    (forall before, beforeBase = Some before -> base < before) in
  match findFreeBase input tables index set state limit beforeBase with
  | Some found => below found /\ freeBase found /\
      forall lower, 0 <= lower < found -> ~ freeBase lower
  | None => forall base, below base -> ~ freeBase base
  end.
Proof.
  intros Hbefore below. pose proof set_wide as Hwide. unfold findFreeBase.
  destruct (Z.ltb_spec limit (s_width set)).
  { intros base (Hb & Hl & _). lia. }
  assert (forall maxBase, 0 <= maxBase -> (forall base, 0 <= base -> below base <-> base <= maxBase) ->
    match findFreeLoop input tables index set state (S (Z.to_nat maxBase)) alignment 0 maxBase with
    | Some found => below found /\ freeBase found /\
        forall lower, 0 <= lower < found -> ~ freeBase lower
    | None => forall base, below base -> ~ freeBase base
    end) as Hloop.
  { intros maxBase Hm Hbelow.
    pose proof (findFreeLoop_first_fit (S (Z.to_nat maxBase)) 0 maxBase ltac:(lia)
      (Z.divide_0_r _) ltac:(lia)) as Hspec.
    destruct (findFreeLoop _ _ _ _ _ _ _ _ _) as [found|].
    - destruct Hspec as (Hr & Hf & Hlow). split; [apply Hbelow; lia|done].
    - intros base Hb. apply Hspec. pose proof Hb as [H0 _]. apply Hbelow in Hb; lia. }
  destruct beforeBase as [before|].
  - specialize (Hbefore before eq_refl). destruct (Z.eqb_spec before 0) as [-> |].
    { intros base (Hb & _ & Hl). specialize (Hl 0 eq_refl). lia. }
    apply Hloop; [lia|]. intros base Hb. unfold below. split.
    + intros (_ & ? & Hl). specialize (Hl before eq_refl). lia.
    + intros Hl. split; [done|]. split; [lia|]. intros ? [= <-]. lia.
  - apply Hloop; [lia|]. intros base Hb. unfold below. split; [lia|]. intros Hl. split; [done|].
    split; [lia|]. done.
Qed.
End Query.
End Find.
