(* ===== verification/LaneSafe.v ===== *)
(** * Registers that are given twice

    Every set that the scan assigns gets a base within its budget that its
    constraints allow; and where two values of different sets have a register in
    common at the same position, it is because the code means them to
    ([Sharing]).  Where the scan gives up, no base was free. *)

From stdpp Require Import base tactics list gmap sorting strings.
From S2P Require Import Prelude MachineIR TicketIR LaneIR LaneScan LaneSpec.

(** ** What parsing the state gives *)

Lemma computeFixedBases_spec input payloads limits bases failure :
  computeFixedBases input payloads limits = (bases, failure) -> failure = None ->
  bases = map (fun set => fst (computeFixedBase input payloads limits set)) (in_sets input) /\
  forall set, set ∈ in_sets input -> snd (computeFixedBase input payloads limits set) = None.
Proof.
  unfold computeFixedBases.
  match goal with |- foldl ?f _ _ = _ -> _ => set (step := f) end.
  assert (forall sets bases0 failure0 bases failure,
    foldl step (bases0, failure0) sets = (bases, failure) -> failure = None ->
    bases = bases0 ++ map (fun set => fst (computeFixedBase input payloads limits set)) sets /\
    failure0 = None /\
    forall set, set ∈ sets -> snd (computeFixedBase input payloads limits set) = None) as Hgen.
  { induction sets as [|set sets IH]; intros bases0 failure0 bases' failure' Hf Hn; simpl in Hf.
    - simplify_eq. split; [by rewrite app_nil_r|]. split; [done|]. by intros ? ?%elem_of_nil.
    - destruct (computeFixedBase input payloads limits set) as [base failed] eqn:Ec.
      destruct (IH _ _ _ _ Hf Hn) as (-> & Hfail & Hrest). simpl. rewrite Ec. simpl.
      split; [by rewrite <-app_assoc|]. destruct failed; [done|]. split; [done|].
      intros s [-> |Hs]%elem_of_cons; [by rewrite Ec|auto]. }
  intros Hf Hn. destruct (Hgen _ _ _ _ _ Hf Hn) as (-> & _ & Hrest). done.
Qed.

Lemma parseState_ok `{LaneLLVM} input tables :
  parseState input = Ok (tables, None) -> tablesOk input tables.
Proof.
  unfold parseState. destruct (negb _); [done|]. pose proof (buildSetIndex_spec (in_sets input)) as Hi.
  destruct (buildSetIndex (in_sets input)) as [[dense sparse]| |]; [|done|done]. simpl.
  destruct (collectResolvedValues _ _) as [payloads| |]; [|done|done]. simpl.
  destruct (in_familyBudget input) as [budget| |]; [|done|done]. simpl.
  destruct (in_limits input) as [limits| |] eqn:Elimits; [|done|done]. simpl.
  destruct (computeFixedBases input payloads limits) as [bases failure] eqn:Ef.
  intros [= <- ->]. apply computeFixedBases_spec in Ef as [-> Hnone]; [|done].
  split; simpl; [done|done|]. intros i set Hs.
  rewrite list_lookup_fmap, Hs. split; [done|]. apply Hnone. by apply list_elem_of_lookup_2 in Hs.
Qed.

Lemma fixedBaseOf_spec members acc base :
  fixedBaseOf members acc = (Some base, None) ->
  (acc = Some base \/ exists v, v ∈ members /\ v_fixed v = Some (base + v_offset v)) /\
  (forall b, acc = Some b -> b = base) /\
  forall v fixed, v ∈ members -> v_fixed v = Some fixed -> fixed = base + v_offset v /\ 0 <= base.
Proof.
  revert acc. induction members as [|v members IH]; intros acc; simpl.
  { intros [= ->]. split; [by left|]. split; [by intros ? [= ->]|]. by intros ? ? ?%elem_of_nil. }
  destruct (v_fixed v) as [fixed|] eqn:Ev.
  - destruct (Z.ltb_spec fixed (v_offset v)); [done|]. intros Hf.
    assert (fixedBaseOf members (Some (fixed - v_offset v)) = (Some base, None) /\
      forall b, acc = Some b -> b = fixed - v_offset v) as [Hrest Hacc].
    { destruct acc as [other|]; [|done].
      destruct (Z.eqb_spec other (fixed - v_offset v)) as [-> |]; [|done].
      split; [done|]. by intros ? [= ->]. }
    destruct (IH _ Hrest) as (_ & Hb & Hall). specialize (Hb _ eq_refl) as Hbase.
    split; [right; exists v; split; [left|by rewrite Ev; f_equal; lia]|].
    split; [intros b Hb'; by rewrite (Hacc b Hb')|].
    intros w f [-> |Hw]%elem_of_cons Hwf; [simplify_eq; lia|auto].
  - intros Hf. destruct (IH _ Hf) as (H1 & H2 & H3). split; [|split; [done|]].
    + destruct H1 as [|(w & Hw & Hwf)]; [by left|]. right. exists w. split; [by right|done].
    + intros w f [-> |Hw]%elem_of_cons Hwf; [congruence|auto].
Qed.

Lemma fixedBase_spec input tables i set base :
  tablesOk input tables -> in_sets input !! i = Some set -> getFixedBase tables i = Some base ->
  0 <= base /\
  setMembersMeetTargetConstraints input (payloadValues tables) (targetLimits tables) set base = true /\
  (exists v, v ∈ membersOf input set /\ v_fixed v = Some (base + v_offset v)) /\
  forall v fixed, v ∈ membersOf input set -> v_fixed v = Some fixed -> fixed = base + v_offset v.
Proof.
  intros Htab Hs Hb. destruct (tables_fixed _ _ Htab i set Hs) as [Hf Hnone].
  unfold getFixedBase in Hb. rewrite Hf in Hb. simpl in Hb. unfold computeFixedBase in Hb, Hnone.
  destruct (fixedBaseOf (membersOf input set) None) as [[b|] [reason|]] eqn:E; simplify_eq/=.
  destruct (negb _) eqn:Em; [done|]. apply negb_false_iff in Em.
  destruct (fixedBaseOf_spec _ _ _ E) as ([|(v & Hv & Hvf)] & _ & Hall); [done|].
  split; [by apply (Hall v _ Hv Hvf)|]. split; [done|]. split; [by exists v|].
  intros w f Hw Hwf. by apply (Hall w f Hw Hwf).
Qed.

Lemma fixedBaseOf_none members : forall fixedBase,
  fixedBaseOf members fixedBase = (None, None) ->
  fixedBase = None /\ forall v, v ∈ members -> v_fixed v = None.
Proof.
  induction members as [|v members IH]; intros fixedBase H; cbn [fixedBaseOf] in H.
  { injection H as ->. split; [done|]. by intros v ?%elem_of_nil. }
  destruct (v_fixed v) as [fixed|] eqn:Ev.
  - destruct (fixed <? v_offset v); [done|]. destruct fixedBase as [other|].
    + destruct (negb _); [done|]. by apply IH in H as [? _].
    + by apply IH in H as [? _].
  - apply IH in H as [-> Hall]. split; [done|]. by intros w [-> |Hw]%elem_of_cons; [|apply Hall].
Qed.

(** ** Two values with a register in common *)

Section Safe.
Context (input : ScanInput) (tables : ScanTables) (Hin : inputOk input) (Htab : tablesOk input tables).

(** The result that is [set] is defined by an operation that may have it in the
    register of an operand that it kills: a value of the set [s], which has the
    base of [set], and one range of which ends where [set] starts. *)
Definition Overwrites (s : RegAllocTransformAliasSet) (base : Z) (set : RegAllocTransformAliasSet)
    (setBase : Z) : Prop :=
  exists result def operand id value range,
    getSingleResultValue input set = Some result /\
    payloadOf tables (v_id result) ≫= pay_def = Some def /\
    isReuseCandidate def = true /\
    operand ∈ def_operands def /\ operandReusable operand = true /\
    operandValue operand = Some id /\ in_values input !! id = Some value /\
    v_set value = s_id s /\ v_width value = s_width set /\ setBase = base + v_offset value /\
    range ∈ v_ranges value /\ live_end range = s_start set.

(** Why the member of [s], at [base], may have a register in common with [set], the
    [index]-th, at [setBase], while both are live at [p]. *)
Inductive Sharing (s : RegAllocTransformAliasSet) (base : Z) (member : RegAllocTransformValue)
    (index : nat) (set : RegAllocTransformAliasSet) (setBase p : Z) : Prop :=
  | sharing_killed :
      Overwrites s base set setBase -> p = s_start set -> Sharing s base member index set setBase p
  | sharing_resumed r r' :
      Overwrites s base set setBase ->
      r ∈ v_ranges member -> r' ∈ v_ranges member ->
      live_end r = s_start set -> live_end r < live_start r' -> liveAt p r' ->
      Sharing s base member index set setBase p
  | sharing_continued :
      isDestructiveResultContinuation input tables set member = true -> p = s_end set ->
      Sharing s base member index set setBase p
  | sharing_read lhs rhs :
      fixedHardwareReadValues tables !! s_id set = Some lhs ->
      fixedHardwareReadValues tables !! s_id s = Some rhs ->
      areEquivalentFixedHardwareReads lhs rhs = true ->
      getFixedBase tables index = Some setBase -> base = setBase -> s_width s = s_width set ->
      Sharing s base member index set setBase p.

Definition PairOk (s : RegAllocTransformAliasSet) (base : Z) (index : nat)
    (set : RegAllocTransformAliasSet) (setBase : Z) : Prop :=
  forall member p lane,
    member ∈ membersOf input s ->
    base + v_offset member <= lane < base + v_offset member + v_width member ->
    setBase <= lane < setBase + s_width set ->
    inRanges p (v_ranges member) -> inRanges p (s_ranges set) ->
    Sharing s base member index set setBase p.

#[local] Set Default Proof Using "All".

Section Step.
Context (index : nat) (set : RegAllocTransformAliasSet) (state : ScanState).
Context (Hset : in_sets input !! index = Some set) (Hstate : stateOk input state).

Lemma set_ok : setOk (in_values input) set.
Proof. apply (input_sets _ Hin). by apply list_elem_of_lookup_2 in Hset. Qed.

Lemma noConflict_sharing s base member setBase p :
  memberOk s member -> memberConflictsWithSet input tables set member = false ->
  inRanges p (v_ranges member) -> inRanges p (s_ranges set) ->
  Sharing s base member index set setBase p.
Proof.
  intros [_ _ _ _ Hr _] Hc Hp Hp'. destruct set_ok as [_ Hsr Hb _]. unfold memberConflictsWithSet in Hc.
  apply andb_false_iff in Hc as [Hc|Hc].
  - exfalso. apply not_true_iff_false in Hc. apply Hc, (listsOverlap_spec _ _ Hr Hsr). by exists p.
  - apply negb_false_iff in Hc. unfold memberOverlapIsDestructiveContinuation in Hc.
    destruct (continuationWalk set false (v_ranges member) (s_ranges set)) as [saw|] eqn:Ew; [|done].
    apply andb_true_iff in Hc as [_ Hc]. apply sharing_continued; [done|].
    apply (continuationWalk_sound _ _ _ _ _ Hr Hsr) with (p := p) in Ew; [done| |done|done].
    intros r Hr'. apply (Hb (live_end r)). exists r. split; [done|].
    pose proof (rangesOk_elem _ _ Hsr Hr'). unfold liveAt. lia.
Qed.

Lemma notBlocking_sharing s base member setBase p :
  memberOk s member -> memberBlocksReusableResult input tables set member = false ->
  Overwrites s base set setBase ->
  inRanges p (v_ranges member) -> inRanges p (s_ranges set) ->
  Sharing s base member index set setBase p.
Proof.
  intros [_ _ _ _ Hr _] Hb Ho (a & Ha & Hpa) (r & Hr' & Hpr).
  destruct set_ok as [_ Hsr Hbounds _].
  assert (forall q, liveAt q r -> s_start set <= q <= s_end set) as Hrb.
  { intros q Hq. apply Hbounds. by exists r. }
  pose proof (rangesOk_elem _ _ Hsr Hr') as Hrr. pose proof (rangesOk_elem _ _ Hr Ha) as Har.
  pose proof (Hrb (live_start r) ltac:(unfold liveAt; lia)) as Hrs.
  pose proof (Hrb (live_end r) ltac:(unfold liveAt; lia)) as Hre.
  unfold memberBlocksReusableResult in Hb.
  destruct (walkRanges_false _ _ _ Hr Hsr Hb a r p Ha Hr' Hpa Hpr) as [Hv|(a0 & Ha0 & Hlt & Hover & Hv)].
  - rewrite (proj2 (overlap_spec a r)) in Hv by (unfold liveAt in *; lia). cbn [andb] in Hv.
    unfold liveAt in *. apply andb_false_iff in Hv as [Hv%Z.ltb_ge|Hv].
    + apply sharing_killed; [done|]. lia.
    + apply orb_false_iff in Hv as [[H1%negb_false_iff%Z.eqb_eq H2%negb_false_iff%Z.eqb_eq]%orb_false_iff
        H3%negb_false_iff]. apply sharing_continued; [done|lia].
  - rewrite Hover in Hv. cbn [andb] in Hv. apply overlap_spec in Hover. unfold liveAt in *.
    apply andb_false_iff in Hv as [Hv%Z.ltb_ge|Hv].
    + apply (sharing_resumed _ _ _ _ _ _ _ a0 a); [done|done|done|lia|done|done].
    + apply orb_false_iff in Hv as [[H1%negb_false_iff%Z.eqb_eq H2%negb_false_iff%Z.eqb_eq]%orb_false_iff
        _]. lia.
Qed.

(** Lanes in common are an overlap of the assignments. *)
Lemma lanes_overlap s base member setBase lane :
  s ∈ in_sets input -> member ∈ membersOf input s ->
  base + v_offset member <= lane < base + v_offset member + v_width member ->
  setBase <= lane < setBase + s_width set ->
  lanesOf (assignmentOf s base) lane /\
  assignedRangesOverlap (assignmentOf s base) setBase (s_width set) = true.
Proof.
  intros Hs Hm Hl Hl'. destruct (membersOf_ok _ _ Hin Htab _ _ Hs Hm) as [_ Hoff _ Hfits _ _].
  unfold lanesOf, assignedRangesOverlap. simpl. rewrite andb_true_iff, !Z.ltb_lt. lia.
Qed.

Lemma unconflicted_pair i s base setBase :
  in_sets input !! i = Some s ->
  (forall lane, lanesOf (assignmentOf s base) lane -> setBase <= lane < setBase + s_width set ->
   assignedRangesOverlap (assignmentOf s base) setBase (s_width set) = true ->
   getActiveAssignmentConflictEnd input tables set (assignmentOf s base) setBase = None \/
   canShareFixedHardwareRead tables index set (assignmentOf s base) setBase = true) ->
  PairOk s base index set setBase.
Proof.
  intros Hi Hno member p lane Hm Hl Hl' Hp Hp'.
  assert (s ∈ in_sets input) as Hs by (by apply list_elem_of_lookup_2 in Hi).
  destruct (lanes_overlap _ _ _ _ _ Hs Hm Hl Hl') as [Hlane Ho].
  destruct (Hno lane Hlane Hl' Ho) as [Hn|Hshare].
  - apply noConflict_sharing; [by apply (membersOf_ok _ _ Hin Htab)| |done|done].
    unfold getActiveAssignmentConflictEnd in Hn.
    change (a_set (assignmentOf s base)) with (s_id s) in Hn.
    rewrite (proj2 (getSetById_spec _ _ Hin Htab (s_id s) s)) in Hn by (by exists i).
    apply (firstSome_None _ _ member) in Hn; [|done]. simpl in Hn.
    destruct (_ || _) eqn:E in Hn; [apply orb_true_iff in E as [E%Z.leb_le|E%Z.leb_le]; lia|].
    by destruct (memberConflictsWithSet _ _ _ _).
  - unfold canShareFixedHardwareRead in Hshare.
    destruct (getFixedBase tables index) as [fixed|] eqn:Ef; [|done].
    destruct (negb _ || _ || _) eqn:E; [done|].
    apply orb_false_iff in E as [[E1%negb_false_iff%Z.eqb_eq E2%negb_false_iff%Z.eqb_eq]%orb_false_iff
      E3%negb_false_iff%Z.eqb_eq].
    destruct (fixedHardwareReadValues tables !! s_id set) as [lhs|] eqn:El; [|done].
    simpl in *. destruct (fixedHardwareReadValues tables !! s_id s) as [rhs|] eqn:Er; [|done].
    apply (sharing_read _ _ _ _ _ _ _ lhs rhs); by subst.
Qed.

(** What ended before the set starts is out of the way. *)
Lemma ended_pair s base setBase :
  s ∈ in_sets input -> s_end s < s_start set -> PairOk s base index set setBase.
Proof.
  intros Hs He member p lane Hm _ _ Hp Hp'. exfalso.
  destruct (membersOf_ok _ _ Hin Htab _ _ Hs Hm) as [_ _ _ _ _ Hcov].
  pose proof (set_bounds _ _ (input_sets _ Hin _ Hs) p (Hcov p Hp)).
  pose proof (set_bounds _ _ set_ok p Hp'). lia.
Qed.

(** ** The base of an operand that is killed *)

Lemma reusableForDef_elem limit def base :
  findReusableInputBaseForDef input tables index set state limit def = Some base ->
  isReuseCandidate def = true /\
  exists operand id value, operand ∈ def_operands def /\ operandReusable operand = true /\
    operandValue operand = Some id /\ in_values input !! id = Some value /\
    getReusableOperandBase input tables index set state value limit = Some base.
Proof.
  unfold findReusableInputBaseForDef. destruct (negb (isReuseCandidate def)) eqn:Ec; [done|].
  apply negb_false_iff in Ec. destruct (negb (in_isa input)); [done|]. intros Hf. split; [done|].
  set (found := fun base => exists operand id value,
    operand ∈ def_operands def /\ operandReusable operand = true /\
    operandValue operand = Some id /\ in_values input !! id = Some value /\
    getReusableOperandBase input tables index set state value limit = Some base).
  change (found base).
  match type of Hf with foldl ?f _ _ = _ => set (step := f) in Hf end.
  assert (forall operands best, (forall operand, operand ∈ operands -> operand ∈ def_operands def) ->
    (forall b, best = Some b -> found b) -> forall b, foldl step best operands = Some b -> found b) as Hgen.
  { clear Hf. induction operands as [|operand operands IH]; intros best Hsub Hbest b Hb; [by apply Hbest|].
    simpl in Hb. apply (IH (step best operand)); [intros; apply Hsub; by right| |done].
    clear b Hb. intros b Hb. unfold step in Hb.
    destruct (operandReusable operand) eqn:Er; cbn [negb] in Hb; [|by apply Hbest].
    destruct (operandValue operand ≫= _) as [value|] eqn:Ev; [|by apply Hbest].
    apply bind_Some in Ev as (id & Hid & Hv).
    destruct (getReusableOperandBase _ _ _ _ _ value limit) as [b'|] eqn:Eb; [|by apply Hbest].
    assert (found b') as Hf'.
    { exists operand, id, value. split; [apply Hsub; left|done]. }
    destruct best as [best|]; [|by injection Hb as <-].
    destruct (_ <? _); [by injection Hb as <-|by apply Hbest]. }
  by apply (Hgen (def_operands def) None).
Qed.

(** Where the base is taken over, it is legal and within the budget, and every
    register in common is meant. *)
Lemma reuse_sound limit reusable :
  findReusableInputBase input tables index set state limit = Some reusable ->
  let setBase := reusable_base reusable in
  0 <= setBase /\ registerRangeFits setBase (s_width set) limit = true /\
  setBaseIsLegal input (payloadValues tables) (targetLimits tables) set setBase = true /\
  forall i a s, i ∈ activeLive (active state) -> assignments state !! i = Some a ->
    in_sets input !! i = Some s -> a = assignmentOf s (a_base a) -> s_regClass s = s_regClass set ->
    PairOk s (a_base a) index set setBase.
Proof.
  unfold findReusableInputBase. destruct (getSingleResultValue input set) as [result|] eqn:Eresult; [|done].
  destruct (_ || _); [done|].
  destruct (payloadOf tables (v_id result) ≫= pay_def) as [def|] eqn:Edef; [|done].
  intros (Hcand & operand & id & value & Hop & Hre & Hid & Hvalue & Hget)%reusableForDef_elem.
  unfold getReusableOperandBase in Hget.
  destruct (reusableOperandMatchesSet set value) eqn:Ematch; [|done]. simpl in Hget.
  apply bind_Some in Hget as (source & Hsource & Hget).
  apply bind_Some in Hget as (assigned & Hassigned & Hget).
  destruct (reusableOperandCoversResult _ _ _ _ _) eqn:Ecovers; [|done]. simpl in Hget.
  destruct (registerRangeFits (a_base assigned) _ _); [|done]. simpl in Hget.
  destruct (reusableBaseIsAvailable _ _ _ _ _ _ _ _ _) eqn:Eavail; [|done]. simpl in Hget.
  injection Hget as <-. simpl.
  apply (getSetById_spec _ _ Hin Htab) in Hsource as (k & Hk & Hkid).
  destruct (active_lookup_spec _ _ _ _ (state_active _ _ Hstate) Hassigned) as (j & Hj & Hja & Hjs).
  destruct (assigned_set _ _ Hin Htab _ _ _ Hset Hstate j assigned Hja) as (s' & Hs' & _ & Heq & Hb & Hw).
  assert (j = k) as ->.
  { apply (set_unique _ _ Hin Htab _ _ _ _ Hs' Hk). rewrite Heq in Hjs. done. }
  assert (s' = source) as -> by congruence.
  assert (0 <= v_offset value) as Hoff.
  { apply (input_offsets _ Hin). by apply list_elem_of_lookup_2 in Hvalue. }
  unfold reusableOperandMatchesSet in Ematch.
  apply andb_true_iff in Ematch as [[_ Eclass%bool_decide_eq_true]%andb_true_iff Ewidth%Z.eqb_eq].
  unfold reusableOperandCoversResult in Ecovers.
  apply andb_true_iff in Ecovers as [[Eend _]%andb_true_iff Edies].
  unfold reusableBaseIsAvailable in Eavail.
  apply andb_true_iff in Eavail as [[[Efits Elegal]%andb_true_iff Eignoring%negb_true_iff]%andb_true_iff _].
  split; [lia|]. split; [done|]. split; [done|].
  intros i a s Hlive Ha Hs Has Hclass.
  destruct (decide (i = k)) as [-> |Hne].
  - assert (s = source) as -> by congruence. assert (a = assigned) as -> by congruence.
    intros member p lane Hm Hl Hl' Hp Hp'.
    assert (source ∈ in_sets input) as Hsin by (by apply list_elem_of_lookup_2 in Hk).
    apply notBlocking_sharing; [by apply (membersOf_ok _ _ Hin Htab)| | |done|done].
    + unfold sourceSubrangeDiesAtBoundary in Edies. rewrite forallb_forall in Edies.
      specialize (Edies member (proj1 (list_elem_of_In _ _) Hm)). cbv beta zeta in Edies.
      destruct (_ || _) eqn:E in Edies; [apply orb_true_iff in E as [E%Z.leb_le|E%Z.leb_le]; lia|].
      by apply negb_true_iff in Edies.
    + unfold valueRangeEndsAt in Eend. apply existsb_exists in Eend as (r & Hr & Hre'%Z.eqb_eq).
      apply list_elem_of_In in Hr. exists result, def, operand, id, value, r. rewrite <-Hkid, Ewidth. done.
  - assert (a_set a <> s_id source) as Hids.
    { intros Heq'. apply Hne, (set_unique _ _ Hin Htab _ _ _ _ Hs Hk). rewrite <-Heq', Has. done. }
    rewrite Has. simpl. apply (unconflicted_pair i); [done|]. rewrite <-Has.
    intros lane Hlane Hr Ho. unfold conflictsWithActiveIgnoring in Eignoring.
    apply bool_decide_eq_false in Eignoring.
    match type of Eignoring with ~ is_Some (anyRegClassOverlappingRange _ ?g _ _ _ _) => set (f := g) in Eignoring end.
    pose proof (anyOverlapping_spec (assignments state) (active state) f (s_regClass set)
      (a_base assigned + v_offset value) (s_width set) (state_active _ _ Hstate) ltac:(lia)) as Hspec.
    destruct (anyRegClassOverlappingRange _ _ _ _ _ _) as [[]|]; [by exfalso; apply Eignoring; eexists|].
    destruct (state_assigned _ _ Hstate i a Ha) as (_ & _ & _ & Hab).
    assert (f a = None) as Hfa.
    { apply (Hspec i a lane Hlive Ha); [by rewrite Has| |done|done]. unfold lanesOf in Hlane. lia. }
    unfold f in Hfa. rewrite bool_decide_false in Hfa by done. rewrite Ho in Hfa. cbn [negb orb] in Hfa.
    unfold activeAssignmentConflicts in Hfa.
    destruct (getActiveAssignmentConflictEnd _ _ _ a _); [|by left]. simpl in Hfa. right.
    by destruct (canShareFixedHardwareRead _ _ _ a _).
Qed.

(** ** One set *)

Definition Placed (base : Z) : Prop :=
  0 <= base /\
  registerRangeFits base (s_width set) (budget_limit (in_budget input (s_regClass set))) = true /\
  match getFixedBase tables index with
  | Some fixedBase => base = fixedBase
  | None => setBaseIsLegal input (payloadValues tables) (targetLimits tables) set base = true
  end.

Context (Hended : forall i a, assignments state !! i = Some a ->
  i ∈ activeLive (active state) \/ a_end a < s_start set).

Lemma noConflict_pairs base i a s :
  0 <= base -> findActiveConflictEnd input tables index set state base = None ->
  assignments state !! i = Some a -> in_sets input !! i = Some s -> a = assignmentOf s (a_base a) ->
  s_regClass s = s_regClass set -> PairOk s (a_base a) index set base.
Proof.
  intros Hb Hnone Ha Hs Has Hc. destruct (Hended i a Ha) as [Hlive|He].
  - apply (unconflicted_pair i); [done|]. rewrite <-Has. intros lane _ _ Ho.
    apply (findActiveConflictEnd_None _ _ Hin Htab index set state Hset Hstate base i a); try done.
    by rewrite Has.
  - apply ended_pair; [by apply list_elem_of_lookup_2 in Hs|]. by rewrite Has in He.
Qed.

Lemma reuse_pairs limit reusable i a s :
  findReusableInputBase input tables index set state limit = Some reusable ->
  assignments state !! i = Some a -> in_sets input !! i = Some s -> a = assignmentOf s (a_base a) ->
  s_regClass s = s_regClass set -> PairOk s (a_base a) index set (reusable_base reusable).
Proof.
  intros Hr Ha Hs Has Hc. destruct (reuse_sound limit reusable Hr) as (_ & _ & _ & Hpairs).
  destruct (Hended i a Ha) as [Hlive|He]; [by apply (Hpairs i a s)|].
  apply ended_pair; [by apply list_elem_of_lookup_2 in Hs|]. by rewrite Has in He.
Qed.

Lemma assignUnlessPressure_done base :
  scanFailure (assignUnlessPressure tables set base state) = None ->
  checkCombinedPressureFailure tables set base state = None /\
  assignUnlessPressure tables set base state = addAssignment tables set base state.
Proof. unfold assignUnlessPressure. by destruct (checkCombinedPressureFailure _ _ _ _). Qed.

(** A set that is given a base has a legal one, and shares registers only as the
    code means it to. *)
Lemma allocateSet_done :
  scanFailure (allocateSet input tables index set state) = None ->
  exists base, allocateSet input tables index set state = addAssignment tables set base state /\
    checkCombinedPressureFailure tables set base state = None /\ Placed base /\
    forall i a s, assignments state !! i = Some a -> in_sets input !! i = Some s ->
      a = assignmentOf s (a_base a) -> s_regClass s = s_regClass set ->
      PairOk s (a_base a) index set base.
Proof.
  unfold allocateSet, Placed. set (limit := budget_limit _).
  destruct (getFixedBase tables index) as [fixedBase|] eqn:Efixed.
  - destruct (fixedBase_spec _ _ _ _ _ Htab Hset Efixed) as (Hb & _ & _).
    unfold allocateFixedSet. destruct (negb _ || _) eqn:E; [done|].
    apply orb_false_iff in E as [Efits%negb_false_iff Econf].
    intros [Hpressure Hadd]%assignUnlessPressure_done. exists fixedBase.
    split; [done|]. split; [done|]. split; [done|]. intros i a s Ha Hs Has Hc.
    apply andb_false_iff in Econf as [Econf|Econf].
    + apply bool_decide_eq_false in Econf. apply (noConflict_pairs fixedBase i); try done.
      destruct (findActiveConflictEnd _ _ _ _ _ _); [|done]. by exfalso; apply Econf; eexists.
    + destruct (findReusableInputBase _ _ _ _ _ _) as [reusable|] eqn:Er; [|done].
      apply negb_false_iff, Z.eqb_eq in Econf. rewrite <-Econf. by apply (reuse_pairs _ _ i _ _ Er).
  - set (reusable := findReusableInputBase _ _ _ _ _ _).
    assert (forall before, reusable_base <$> reusable = Some before -> 0 <= before) as Hbefore.
    { intros before (r & Hr & ->)%fmap_Some. by destruct (reuse_sound _ r Hr). }
    pose proof (findFreeBase_first_fit _ _ Hin Htab index set state Hset Hstate Efixed limit
      (reusable_base <$> reusable) Hbefore) as Hfit. cbv zeta in Hfit.
    destruct (findFreeBase _ _ _ _ _ _ _) as [base|].
    + intros [Hpressure Hadd]%assignUnlessPressure_done. exists base.
      destruct Hfit as ((Hb & Hl & _) & (Hlegal & Hnone & _) & _).
      split; [done|]. split; [done|]. split.
      * split; [done|]. split; [|done]. unfold registerRangeFits.
        pose proof (set_width _ _ set_ok). rewrite andb_true_iff, !Z.leb_le. lia.
      * intros i a s. by apply noConflict_pairs.
    + destruct reusable as [r|] eqn:Er; [|done]. simpl.
      intros [Hpressure Hadd]%assignUnlessPressure_done. exists (reusable_base r).
      destruct (reuse_sound _ r Er) as (Hb & Hfits & Hlegal & _).
      split; [done|]. split; [done|]. split; [done|]. intros i a s. by apply (reuse_pairs _ _ i _ _ Er).
Qed.
End Step.

(** ** The whole scan *)

Lemma beforeSet_ok set state :
  stateOk input state ->
  stateOk input (beforeSet tables set state) /\
  forall i a, assignments state !! i = Some a ->
    i ∈ activeLive (active state) \/ a_end a < s_start set ->
    i ∈ activeLive (active (beforeSet tables set state)) \/ a_end a < s_start set.
Proof.
  intros [Hact Hass]. destruct (active_expire_ok _ (s_start set) _ Hact) as [Hact' Hlive].
  split; [by split|]. intros i a Ha [Hl|He]; [|by right]. simpl. rewrite Hlive.
  destruct (Z.le_gt_cases (s_start set) (a_end a)); [left|right; lia].
  split; [done|]. by exists a.
Qed.

Lemma addAssignment_ok index set base state :
  in_sets input !! index = Some set -> length (assignments state) = index ->
  stateOk input state -> 0 <= base -> stateOk input (addAssignment tables set base state).
Proof.
  intros Hset Hlen [Hact Hass] Hb. split; simpl.
  - apply (active_add_ok _ _ (assignmentOf set base)); [done| |done|].
    + simpl. destruct (activeBySet (active state) !! s_id set) as [i|] eqn:E; [|done].
      destruct (ok_bySet _ _ Hact _ _ E) as (_ & a & Ha & Hid).
      destruct (Hass i a Ha) as (s & Hs & Has & _). rewrite Has in Hid. simpl in Hid.
      pose proof (set_unique _ _ Hin Htab _ _ _ _ Hs Hset Hid). apply lookup_lt_Some in Ha. lia.
    + apply Z.lt_le_incl, (set_width (in_values input)), (input_sets _ Hin).
      by apply list_elem_of_lookup_2 in Hset.
  - intros i a Ha. apply lookup_app_Some in Ha as [Ha|[Hge Ha]]; [by apply Hass|].
    apply list_lookup_singleton_Some in Ha as [Hi <-]. exists set. split; [|done].
    by replace i with index by lia.
Qed.

(** The scan after [k] sets. *)
Record scanOk (k : nat) (state : ScanState) : Prop := {
  scan_length : length (assignments state) = k;
  scan_state : stateOk input state;
  scan_ended i a : assignments state !! i = Some a ->
    i ∈ activeLive (active state) \/
    exists j s, (j < k)%nat /\ in_sets input !! j = Some s /\ a_end a < s_start s;
  scan_index : indexed (in_sets input) (fun id => assignmentIndexBySet state !! id) k;
  scan_placed i a s : assignments state !! i = Some a -> in_sets input !! i = Some s ->
    Placed i s (a_base a);
  scan_pairs i j a b s t : (i < j)%nat ->
    assignments state !! i = Some a -> in_sets input !! i = Some s ->
    assignments state !! j = Some b -> in_sets input !! j = Some t ->
    s_regClass s = s_regClass t -> PairOk s (a_base a) j t (a_base b)
}.

Lemma initialScan_ok : scanOk 0 initialScan.
Proof.
  split; simpl; try done.
  - split; simpl; [apply noActive_ok|done].
  - intros id i. simpl. rewrite lookup_empty. split; [done|lia].
Qed.

Lemma assignedOf state i a s :
  stateOk input state -> assignments state !! i = Some a -> in_sets input !! i = Some s ->
  a = assignmentOf s (a_base a).
Proof. intros Hok Ha Hs. destruct (state_assigned _ _ Hok i a Ha) as (s' & Hs' & Heq & _). by simplify_eq. Qed.

Lemma scanStep_ok k state set :
  scanOk k state -> in_sets input !! k = Some set ->
  scanFailure (allocateSet input tables k set (beforeSet tables set state)) = None ->
  scanOk (S k) (allocateSet input tables k set (beforeSet tables set state)).
Proof.
  intros [Hlen Hstate Hended Hindex Hplaced Hpairs] Hset Hfail.
  destruct (beforeSet_ok set state Hstate) as [Hstate' Hlive].
  assert (forall i a, assignments (beforeSet tables set state) !! i = Some a ->
    i ∈ activeLive (active (beforeSet tables set state)) \/ a_end a < s_start set) as Hended'.
  { intros i a Ha. apply Hlive; [done|]. destruct (Hended i a Ha) as [|(j & s & Hj & Hs & He)]; [by left|].
    right. pose proof (input_sorted _ Hin j k s set Hs Hset ltac:(lia)). lia. }
  destruct (allocateSet_done k set _ Hset Hstate' Hended' Hfail) as (base & -> & _ & Hplace & Hpair).
  assert (forall i a, (assignments state ++ [assignmentOf set base]) !! i = Some a ->
    assignments state !! i = Some a /\ (i < k)%nat \/ i = k /\ a = assignmentOf set base) as Hcases.
  { intros i a [Ha|[Hge Ha]]%lookup_app_Some; [left; split; [done|apply lookup_lt_Some in Ha; lia]|].
    apply list_lookup_singleton_Some in Ha as [Hi <-]. right. split; [lia|done]. }
  split; simpl.
  - rewrite length_app. simpl. lia.
  - apply (addAssignment_ok k); try done. by destruct Hplace.
  - intros i a [[Ha Hik]|[-> ->]]%Hcases.
    + destruct (Hended' i a Ha) as [Hl|He]; [left; apply elem_of_union; by right|].
      right. exists k, set. split; [lia|done].
    + left. rewrite Hlen. apply elem_of_union. left. by apply elem_of_singleton.
  - intros id i. rewrite Hlen. split.
    + intros [[<- <-]|[Hne (Hik & s & Hs & Hid)%Hindex]]%lookup_insert_Some.
      * split; [lia|by exists set].
      * split; [lia|by exists s].
    + intros (Hik & s & Hs & Hid). apply lookup_insert_Some. destruct (decide (i = k)) as [-> |Hne].
      * left. by simplify_eq.
      * right. split; [|apply Hindex; split; [lia|by exists s]].
        intros Heq. apply Hne. apply (set_unique _ _ Hin Htab _ _ _ _ Hs Hset). congruence.
  - intros i a s [[Ha Hik]|[-> ->]]%Hcases Hs; [by apply Hplaced|]. by simplify_eq.
  - intros i j a b s t Hij [[Ha Hik]|[-> ->]]%Hcases Hs [[Hb Hjk]|[-> ->]]%Hcases Ht Hc; try lia.
    + by apply (Hpairs i j).
    + simplify_eq. apply (Hpair i a s Ha Hs); [|done]. by apply (assignedOf state i).
Qed.

Lemma scanSets_ok rest : forall k state,
  scanOk k state -> scanFailure state = None ->
  rest = imap (fun i set => ((k + i)%nat, set)) (drop k (in_sets input)) ->
  scanFailure (scanSets input tables rest state) = None ->
  scanOk (length (in_sets input)) (scanSets input tables rest state).
Proof.
  induction rest as [|[index set] rest IH]; intros k state Hok Hnone Hrest Hfail; cbn [scanSets] in *.
  - apply (f_equal length) in Hrest. rewrite length_imap, length_drop in Hrest. simpl in Hrest.
    destruct Hok as [Hlen Hstate Hended Hindex Hplaced Hpairs].
    assert (k = length (in_sets input)) as <-; [|by split].
    destruct (decide (k = 0%nat)) as [-> |Hk]; [lia|].
    destruct (lookup_lt_is_Some_2 (assignments state) (k - 1)) as [a Ha]; [lia|].
    destruct (state_assigned _ _ Hstate _ _ Ha) as (s & Hs & _). apply lookup_lt_Some in Hs. lia.
  - destruct (drop k (in_sets input)) as [|set' sets'] eqn:Edrop; [done|].
    rewrite imap_cons in Hrest. injection Hrest as -> -> Hrest. rewrite Nat.add_0_r in *.
    assert (in_sets input !! k = Some set') as Hset.
    { rewrite <-(Nat.add_0_r k), <-lookup_drop, Edrop. done. }
    destruct (scanFailure (allocateSet input tables k set' (beforeSet tables set' state))) eqn:Ef;
      [congruence|].
    apply (IH (S k)); [by apply scanStep_ok|done| |done].
    rewrite Hrest, <-Nat.add_1_r, <-drop_drop, Edrop. apply imap_ext. intros. simpl. f_equal. lia.
Qed.

Lemma scan_ok :
  scanFailure (scan input tables) = None -> scanOk (length (in_sets input)) (scan input tables).
Proof.
  apply (scanSets_ok _ 0%nat); [apply initialScan_ok|done|]. rewrite drop_0. by apply imap_ext.
Qed.
End Safe.

(** The register [lane] of the class belongs to the value. *)
Definition holdsLane (base : Z) (value : RegAllocTransformValue) (lane : Z) : Prop :=
  base + v_offset value <= lane < base + v_offset value + v_width value.

(** ** The end of the pass *)

(** A run that succeeds scanned all sets, checked the footprint and committed. *)
Lemma run_success `{LaneLLVM} input func assigned func' :
  run input func = Ok (LinearScanSuccess assigned, func') ->
  exists tables pending, parseState input = Ok (tables, None) /\
    scanFailure (scan input tables) = None /\ assignments (scan input tables) = assigned /\
    checkCombinedFootprintFailure tables (scan input tables) = None /\
    buildPendingAssignments input (scan input tables) = Ok pending /\
    commitAssignments pending func = (true, func').
Proof.
  unfold run. destruct (parseState input) as [[tables [failure|]]| |]; [done| |done|done]. simpl.
  destruct (scanFailure (scan input tables)) eqn:Ef; [done|].
  destruct (checkCombinedFootprintFailure tables (scan input tables)) eqn:Ec; [done|].
  destruct (buildPendingAssignments input (scan input tables)) as [pending| |] eqn:Ep; [|done|done].
  simpl. destruct (commitAssignments pending func) as [[] func''] eqn:Ecommit; [|done].
  intros [= <- <-]. by exists tables, pending.
Qed.

(** ** The footprint of vector and accumulation registers *)

Lemma footprintLoop_bound budget prior rest agpr vgpr :
  footprintLoop budget prior rest (agpr, vgpr) = None ->
  exists agpr' vgpr', agpr <= agpr' /\ vgpr <= vgpr' /\
    (getCombinedVGPRFamilyPressure agpr' vgpr' <= budget_limit budget \/
     agpr' = agpr /\ vgpr' = vgpr) /\
    forall a, a ∈ rest ->
      (a_regClass a = RegClass.AGPR -> a_base a + a_width a <= agpr') /\
      (a_regClass a = RegClass.VGPR -> a_base a + a_width a <= vgpr').
Proof.
  revert prior agpr vgpr. induction rest as [|x rest IH]; intros prior agpr vgpr; simpl.
  { intros _. exists agpr, vgpr. split; [lia|]. split; [lia|]. split; [by right|]. by intros ? ?%elem_of_nil. }
  destruct (isVGPRFamilyClass (a_regClass x)) eqn:Ex; cbn [negb].
  - destruct (Z.leb_spec (getCombinedVGPRFamilyPressure
      (if bool_decide (a_regClass x = RegClass.AGPR) then Z.max agpr (a_base x + a_width x) else agpr)
      (if bool_decide (a_regClass x = RegClass.VGPR) then Z.max vgpr (a_base x + a_width x) else vgpr))
      (budget_limit budget)) as [Hle|]; [|done].
    intros Hrest. destruct (IH _ _ _ Hrest) as (agpr' & vgpr' & Ha & Hv & Hb & Hin).
    exists agpr', vgpr'. do 2 case_bool_decide; try congruence; (split; [lia|]; split; [lia|]; split;
      [destruct Hb as [|[-> ->]]; left; done|]); intros a [-> |Hin']%elem_of_cons; auto;
      split; intros; try congruence; lia.
  - intros Hrest. destruct (IH _ _ _ Hrest) as (agpr' & vgpr' & Ha & Hv & Hb & Hin).
    exists agpr', vgpr'. split; [done|]. split; [done|]. split; [done|].
    intros a [-> |Hin']%elem_of_cons; [|auto]. by split; intros E; rewrite E in Ex.
Qed.

(** ** The types *)

Lemma restore_setTypes pending types :
  restoreTypes (oldTypes pending types) (setTypes pending types) = types.
Proof.
  unfold restoreTypes. revert types. induction pending as [|[id type] pending IH]; intros types; [done|].
  simpl. rewrite reverse_cons, foldl_app, IH. simpl. apply map_eq. intros i.
  destruct (decide (i = id)) as [-> |Hne].
  - by rewrite lookup_partial_alter_eq.
  - by rewrite lookup_partial_alter_ne, lookup_insert_ne by done.
Qed.

Lemma setTypes_other pending types id :
  id ∉ map fst pending -> setTypes pending types !! id = types !! id.
Proof.
  revert types. induction pending as [|[i type] pending IH]; intros types Hid; [done|]. simpl in *.
  rewrite elem_of_cons in Hid. rewrite IH by tauto. apply lookup_insert_ne. intros ->. tauto.
Qed.
Lemma setTypes_elem pending types id type :
  NoDup (map fst pending) -> (id, type) ∈ pending -> setTypes pending types !! id = Some type.
Proof.
  revert types. induction pending as [|[i t] pending IH]; intros types Hnd; [by intros ?%elem_of_nil|].
  simpl in Hnd. apply NoDup_cons in Hnd as [Hi Hnd]. intros [[= -> ->]|Hin]%elem_of_cons; simpl.
  - rewrite setTypes_other by done. apply lookup_insert_eq.
  - by apply IH.
Qed.

Lemma commit_types pending func committed func' :
  commitAssignments pending func = (committed, func') ->
  valueTypes func' = if committed then setTypes pending (valueTypes func) else valueTypes func.
Proof.
  unfold commitAssignments, refreshFuncTypeFromBody. simpl.
  destruct (returnOperands func) as [|first rest]; [by intros [= <- <-]|].
  destruct (forallb _ rest); intros [= <- <-]; simpl; [done|]. apply restore_setTypes.
Qed.

(** The pending types, one per value. *)
Definition pendingOf (state : ScanState) (value : RegAllocTransformValue)
    (entry : nat * LaneType) : Prop :=
  exists a, getAssignmentBySet state (v_set value) = Some a /\
    entry = (v_id value, mkLaneType (v_regClass value) (v_width value) (a_base a + v_offset value)).

Lemma buildPending_spec input state pending :
  buildPendingAssignments input state = Ok pending ->
  Forall2 (pendingOf state) (in_values input) pending.
Proof.
  unfold buildPendingAssignments.
  match goal with |- foldM ?f _ _ = _ -> _ => set (step := f) end.
  assert (forall values acc pending, foldM step acc values = Ok pending ->
    exists rest, pending = acc ++ rest /\ Forall2 (pendingOf state) values rest) as Hgen.
  { induction values as [|value values IH]; intros acc pending'; cbn [foldM].
    - intros [= ->]. exists []. split; [by rewrite app_nil_r|constructor].
    - unfold step at 1. destruct (getAssignmentBySet state (v_set value)) as [a|] eqn:Ea; [|done].
      intros (rest & -> & Hrest)%IH. eexists (_ :: rest). split; [by rewrite <-app_assoc|].
      constructor; [by exists a|done]. }
  intros (rest & -> & Hrest)%Hgen. done.
Qed.

Lemma buildPending_total input state :
  (forall value, value ∈ in_values input -> is_Some (getAssignmentBySet state (v_set value))) ->
  exists pending, buildPendingAssignments input state = Ok pending.
Proof.
  unfold buildPendingAssignments.
  match goal with |- context [foldM ?f _ _] => set (step := f) end.
  generalize (@nil (nat * LaneType)). induction (in_values input) as [|value values IH]; intros acc Hall; cbn [foldM]; [by eexists|].
  unfold step at 1. destruct (Hall value ltac:(left)) as [a Ha]. rewrite Ha. apply IH. intros. apply Hall. by right.
Qed.

(** ** Properties *)

(** C10: where the pass succeeds and two values of different sets of a class have a
    register in common while both are live, it is in one of four cases ([Sharing]),
    and in no other.  The later set is the result of an operation that may overwrite
    an operand it kills, in the first position of the set.  Or the member is the
    result of an operation that overwrites the set in its last position.  Or both
    are reads of the same hardware register.  These the code means; it does not mean
    the fourth: the operand that is overwritten died where the set starts, but is
    live again in a later range of its own within the set
    ([LaneExamples.resumed_operand_is_overwritten]). *)
Theorem shared_registers_are_explained `{LaneLLVM} input func assigned func' :
  inputOk input -> run input func = Ok (LinearScanSuccess assigned, func') ->
  exists tables, parseState input = Ok (tables, None) /\
    forall i j a b s t member other lane p, (i < j)%nat ->
      assigned !! i = Some a -> in_sets input !! i = Some s ->
      assigned !! j = Some b -> in_sets input !! j = Some t -> s_regClass s = s_regClass t ->
      member ∈ membersOf input s -> other ∈ membersOf input t ->
      holdsLane (a_base a) member lane -> holdsLane (a_base b) other lane ->
      inRanges p (v_ranges member) -> inRanges p (v_ranges other) ->
      Sharing input tables s (a_base a) member j t (a_base b) p.
Proof.
  intros Hin (tables & pending & Hparse & Hscan & <- & _)%run_success. exists tables. split; [done|].
  pose proof (parseState_ok _ _ Hparse) as Htab.
  pose proof (scan_ok _ _ Hin Htab Hscan) as Hok.
  intros i j a b s t member other lane p Hij Ha Hs Hb Ht Hc Hm Ho Hl Hl' Hp Hp'.
  assert (t ∈ in_sets input) as Htin by (by apply list_elem_of_lookup_2 in Ht).
  destruct (membersOf_ok _ _ Hin Htab _ _ Htin Ho) as [_ Hoff _ Hfits _ Hcov].
  unfold holdsLane in *.
  apply (scan_pairs _ _ _ _ Hok i j a b s t Hij Ha Hs Hb Ht Hc member p lane); auto. lia.
Qed.

(** C13: where the pass succeeds, it assigned the sets one by one, each to its fixed
    base or to one that its members' constraints allow, within the budget of the
    class; and any accumulation and vector registers together, the latter rounded
    up to four, are within the budget of the family. *)
Theorem assigned_bases_fit `{LaneLLVM} input func assigned func' :
  inputOk input -> run input func = Ok (LinearScanSuccess assigned, func') ->
  exists tables, parseState input = Ok (tables, None) /\
    length assigned = length (in_sets input) /\
    (forall i s, in_sets input !! i = Some s -> exists base,
      assigned !! i = Some (assignmentOf s base) /\ 0 <= base /\
      base + s_width s <= budget_limit (in_budget input (s_regClass s)) /\
      setMembersMeetTargetConstraints input (payloadValues tables) (targetLimits tables) s base = true /\
      match getFixedBase tables i with
      | Some _ => forall value fixed, value ∈ membersOf input s -> v_fixed value = Some fixed ->
          fixed = base + v_offset value
      | None => (getRequiredAlignment input (payloadValues tables) (targetLimits tables) s | base)
      end) /\
    forall budget a b, familyBudget tables = Some budget -> a ∈ assigned -> b ∈ assigned ->
      a_regClass a = RegClass.AGPR -> a_regClass b = RegClass.VGPR ->
      getCombinedVGPRFamilyPressure (a_base a + a_width a) (a_base b + a_width b)
        <= budget_limit budget.
Proof.
  intros Hin (tables & pending & Hparse & Hscan & <- & Hfoot & _)%run_success. exists tables.
  split; [done|]. pose proof (parseState_ok _ _ Hparse) as Htab.
  pose proof (scan_ok _ _ Hin Htab Hscan) as Hok. split; [apply (scan_length _ _ _ _ Hok)|]. split.
  - intros i s Hs. destruct (lookup_lt_is_Some_2 (assignments (scan input tables)) i) as [a Ha].
    { rewrite (scan_length _ _ _ _ Hok). by apply lookup_lt_Some in Hs. }
    destruct (state_assigned _ _ (scan_state _ _ _ _ Hok) i a Ha) as (s' & Hs' & Has & Hb).
    simplify_eq. exists (a_base a). rewrite <-Has. split; [done|]. split; [done|].
    destruct (scan_placed _ _ _ _ Hok i a s Ha Hs) as (_ & Hfits & Hplace).
    unfold registerRangeFits in Hfits. apply andb_true_iff in Hfits as [_ Hfits%Z.leb_le].
    split; [lia|]. destruct (getFixedBase tables i) as [fixed|] eqn:Ef.
    + subst fixed. destruct (fixedBase_spec _ _ _ _ _ Htab Hs Ef) as (_ & Hm & _ & Hall). done.
    + pose proof Hplace as Hlegal. unfold setBaseIsLegal in Hlegal.
      apply andb_true_iff in Hlegal as [Halign%Z.eqb_eq Hm]. split; [done|].
      apply Z.mod_divide; [|done].
      pose proof (alignment_positive _ _ Hin Htab i s _ Hs (scan_state _ _ _ _ Hok)). lia.
  - intros budget a b Hbudget Ha Hb Hca Hcb. unfold checkCombinedFootprintFailure in Hfoot.
    rewrite Hbudget in Hfoot.
    destruct (footprintLoop_bound _ _ _ _ _ Hfoot) as (agpr & vgpr & Hagpr & Hvgpr & Hle & Hall).
    apply (Hall a Ha) in Hca as Hca'. apply (Hall b Hb) in Hcb as Hcb'.
    assert (0 < a_base a + a_width a).
    { apply list_elem_of_lookup in Ha as [i Ha].
      destruct (state_assigned _ _ (scan_state _ _ _ _ Hok) i a Ha) as (s & Hs & Has & ?).
      pose proof (set_width _ _ (input_sets _ Hin s ltac:(by apply list_elem_of_lookup_2 in Hs))).
      rewrite Has. simpl. lia. }
    destruct Hle as [Hle|[-> ->]]; [|lia].
    etransitivity; [|exact Hle]. unfold getCombinedVGPRFamilyPressure, alignTo.
    assert ((a_base b + a_width b + 4 - 1) / 4 <= (vgpr + 4 - 1) / 4) by (apply Z.div_le_mono; lia).
    lia.
Qed.

(** The base suits the set's constraints, no member of a set that is live conflicts
    on one of its registers, and no reservation of a time when the set is live. *)
Definition Unoccupied (input : ScanInput) (tables : ScanTables) (set : RegAllocTransformAliasSet)
    (state : ScanState) (base : Z) : Prop :=
  setBaseIsLegal input (payloadValues tables) (targetLimits tables) set base = true /\
  (forall i a s member lane, i ∈ activeLive (active state) -> assignments state !! i = Some a ->
    in_sets input !! i = Some s -> s_regClass s = s_regClass set -> member ∈ membersOf input s ->
    holdsLane (a_base a) member lane -> base <= lane < base + s_width set ->
    memberConflictsWithSet input tables set member = false) /\
  (forall r, r ∈ reservationsOf (fixedReservations tables) (s_regClass set) ->
    assignedRangesOverlap r base (s_width set) = true ->
    aliasSetOverlapsRange set (a_start r) (a_end r) = false).

Lemma freeBase_spec input tables index set state base :
  inputOk input -> tablesOk input tables -> in_sets input !! index = Some set ->
  stateOk input state -> getFixedBase tables index = None -> 0 <= base ->
  freeBase input tables index set state base <-> Unoccupied input tables set state base.
Proof.
  intros Hin Htab Hset Hstate Hunfixed Hb. unfold freeBase, Unoccupied.
  assert (forall i s, in_sets input !! i = Some s -> s ∈ in_sets input) as Hsets.
  { intros i s Hs. by apply list_elem_of_lookup_2 in Hs. }
  split; intros (Hlegal & Hactive & Hfixed); (split; [done|split]).
  - intros i a s member lane Hlive Ha Hs Hc Hm Hlane Hr.
    destruct (state_assigned _ _ Hstate i a Ha) as (s' & Hs' & Has & _). simplify_eq.
    pose proof (lanes_overlap _ _ Hin Htab _ _ _ Hset Hstate s (a_base a) member base lane
      (Hsets _ _ Hs) Hm Hlane Hr) as [_ Ho]. rewrite <-Has in Ho.
    destruct (findActiveConflictEnd_None _ _ Hin Htab index set state Hset Hstate base i a Hb Hactive
      Hlive Ha ltac:(by rewrite Has) Ho) as [Hn|Hn].
    + unfold getActiveAssignmentConflictEnd in Hn.
      rewrite (proj2 (getSetById_spec _ _ Hin Htab (a_set a) s)) in Hn
        by (exists i; split; [done|by rewrite Has]).
      apply (firstSome_None _ _ member) in Hn; [|done]. cbv beta zeta in Hn. unfold holdsLane in Hlane.
      destruct (_ || _) eqn:E in Hn; [apply orb_true_iff in E as [E%Z.leb_le|E%Z.leb_le]; lia|].
      by destruct (memberConflictsWithSet _ _ _ _).
    + unfold canShareFixedHardwareRead in Hn. by rewrite Hunfixed in Hn.
  - intros r Hr Ho. unfold findFixedReservationConflictEnd in Hfixed.
    apply (firstSome_None _ _ r) in Hfixed; [|done]. cbv beta in Hfixed. rewrite Ho in Hfixed. simpl in Hfixed.
    by destruct (aliasSetOverlapsRange set (a_start r) (a_end r)).
  - destruct (findActiveConflictEnd input tables index set state base) as [e|] eqn:E; [|done].
    apply (findActiveConflictEnd_Some _ _ Hin Htab index set state Hset Hstate base e Hb) in E
      as (i & a & Hlive & Ha & Hc & _ & Hend & _).
    destruct (state_assigned _ _ Hstate i a Ha) as (s & Hs & Has & _).
    unfold getActiveAssignmentConflictEnd in Hend.
    rewrite (proj2 (getSetById_spec _ _ Hin Htab (a_set a) s)) in Hend
      by (exists i; split; [done|by rewrite Has]).
    apply firstSome_Some in Hend as (member & Hm & Hend). cbv beta zeta in Hend.
    destruct (_ || _) eqn:E in Hend; [done|]. apply orb_false_iff in E as [E1%Z.leb_gt E2%Z.leb_gt].
    destruct (membersOf_ok _ _ Hin Htab _ _ (Hsets _ _ Hs) Hm) as [_ Hoff Hmw _ _ _].
    pose proof (set_width _ _ (input_sets _ Hin _ (Hsets _ _ Hset))) as Hw.
    rewrite (Hactive i a s member (Z.max (a_base a + v_offset member) base)) in Hend;
      [done|done|done|done|by rewrite Has in Hc|done|unfold holdsLane; lia|lia].
  - unfold findFixedReservationConflictEnd. destruct (firstSome _ _) eqn:E; [|done].
    apply firstSome_Some in E as (r & Hr & E). cbv beta in E.
    destruct (assignedRangesOverlap r base (s_width set)) eqn:Eo; [|done]. simpl in E.
    by rewrite (Hfixed r Hr Eo) in E.
Qed.

(** C11: the base that [findFreeBase] finds is the lowest one that is unoccupied,
    within the budget and below the bound; it finds none only where there is none.
    Stepping to the end of a conflict leaves none out. *)
Theorem lowest_base_is_found input tables index set state limit beforeBase :
  inputOk input -> tablesOk input tables -> in_sets input !! index = Some set ->
  stateOk input state -> getFixedBase tables index = None ->
  (forall before, beforeBase = Some before -> 0 <= before) ->
  let below base := 0 <= base /\ base + s_width set <= limit /\
    (forall before, beforeBase = Some before -> base < before) in
  match findFreeBase input tables index set state limit beforeBase with
  | Some found => below found /\ Unoccupied input tables set state found /\
      forall lower, 0 <= lower < found -> ~ Unoccupied input tables set state lower
  | None => forall base, below base -> ~ Unoccupied input tables set state base
  end.
Proof.
  intros Hin Htab Hset Hstate Hunfixed Hbefore below.
  pose proof (findFreeBase_first_fit _ _ Hin Htab index set state Hset Hstate Hunfixed limit
    beforeBase Hbefore) as Hfit. cbv zeta in Hfit. fold below in Hfit.
  assert (forall base, 0 <= base -> freeBase input tables index set state base <->
    Unoccupied input tables set state base) as Hspec by (intros; by apply freeBase_spec).
  destruct (findFreeBase _ _ _ _ _ _ _) as [found|].
  - destruct Hfit as (Hbelow & Hfree & Hlow). pose proof Hbelow as [? _].
    split; [done|]. split; [by apply Hspec|]. intros lower Hl. rewrite <-Hspec by lia. auto.
  - intros base Hbelow. pose proof Hbelow as [? _]. rewrite <-Hspec by lia. auto.
Qed.

(** The scan before the [index]-th set. *)
Definition scanBefore (input : ScanInput) (tables : ScanTables) (index : nat) : ScanState :=
  scanSets input tables (take index (imap pair (in_sets input))) initialScan.

Lemma scan_failed input tables rest : inputOk input -> tablesOk input tables ->
  forall k state failure,
  scanOk input tables k state -> scanFailure state = None ->
  rest = imap (fun i set => ((k + i)%nat, set)) (drop k (in_sets input)) ->
  scanFailure (scanSets input tables rest state) = Some failure ->
  exists n set, let before := scanSets input tables (take n rest) state in
    scanOk input tables (k + n) before /\ scanFailure before = None /\
    in_sets input !! (k + n)%nat = Some set /\
    scanFailure (allocateSet input tables (k + n) set (beforeSet tables set before)) = Some failure.
Proof.
  intros Hin Htab. induction rest as [|[index set] rest IH]; intros k state failure Hok Hnone Hrest Hfail;
    cbn [scanSets] in *; [congruence|].
  destruct (drop k (in_sets input)) as [|set' sets'] eqn:Edrop; [done|].
  rewrite imap_cons in Hrest. injection Hrest as -> -> Hrest. rewrite Nat.add_0_r in *.
  assert (in_sets input !! k = Some set') as Hset.
  { rewrite <-(Nat.add_0_r k), <-lookup_drop, Edrop. done. }
  destruct (scanFailure (allocateSet input tables k set' (beforeSet tables set' state))) eqn:Ef.
  - exists 0%nat, set'. cbv zeta. cbn [take scanSets]. rewrite Nat.add_0_r. split; [done|].
    split; [done|]. split; [done|]. congruence.
  - destruct (IH (S k) (allocateSet input tables k set' (beforeSet tables set' state)) failure)
      as (n & s & H); [by apply scanStep_ok|done| |done|].
    + rewrite Hrest, <-Nat.add_1_r, <-drop_drop, Edrop. apply imap_ext. intros. simpl. f_equal. lia.
    + exists (S n), s. cbv zeta in *. cbn [take scanSets]. rewrite Ef, Nat.add_succ_r. exact H.
Qed.

(** A run that gives up: when parsing, when scanning or at the footprint. *)
Lemma run_failure `{LaneLLVM} input func failure func' :
  run input func = Ok (LinearScanFailure failure, func') ->
  func' = func /\ exists tables,
    parseState input = Ok (tables, Some failure) /\ True \/
    parseState input = Ok (tables, None) /\
      (scanFailure (scan input tables) = Some failure \/
       scanFailure (scan input tables) = None /\
       checkCombinedFootprintFailure tables (scan input tables) = Some failure).
Proof.
  unfold run. destruct (parseState input) as [[tables [f|]]| |]; [| |done|done]; simpl.
  { intros [= -> ->]. split; [done|]. exists tables. by left. }
  destruct (scanFailure (scan input tables)) as [f|] eqn:Escan.
  { intros [= -> ->]. split; [done|]. exists tables. right. split; [done|]. by left. }
  destruct (checkCombinedFootprintFailure _ _) as [f|] eqn:Efoot.
  { intros [= -> ->]. split; [done|]. exists tables. right. split; [done|]. by right. }
  destruct (buildPendingAssignments _ _) as [pending| |]; [|done|done]. simpl.
  by destruct (commitAssignments pending func) as [[] func''].
Qed.

Lemma fixedBaseOf_reason members base fixedBase reason :
  fixedBaseOf members base = (fixedBase, Some reason) -> reason <> "pressure"%string.
Proof.
  revert base. induction members as [|v members IH]; intros base; simpl; [done|].
  destruct (v_fixed v); [|apply IH]. destruct (_ <? _); [by intros [= <- <-]|].
  destruct base; [|apply IH]. destruct (negb _); [by intros [= <- <-]|apply IH].
Qed.

(** Failures of parsing are about fixed bases. *)
Lemma parseState_failure `{LaneLLVM} input tables failure :
  parseState input = Ok (tables, Some failure) -> failed_reason failure <> "pressure"%string.
Proof.
  unfold parseState. destruct (negb _); [done|].
  destruct (buildSetIndex (in_sets input)) as [[dense sparse]| |]; [|done|done]. simpl.
  destruct (collectResolvedValues _ _) as [payloads| |]; [|done|done]. simpl.
  destruct (in_familyBudget input) as [budget| |]; [|done|done]. simpl.
  destruct (in_limits input) as [limits| |]; [|done|done]. simpl.
  destruct (computeFixedBases input payloads limits) as [bases failed] eqn:Ef.
  intros [= _ ->]. revert Ef. unfold computeFixedBases.
  match goal with |- foldl ?f _ _ = _ -> _ => set (step := f) end.
  assert (forall set f, snd (computeFixedBase input payloads limits set) = Some f ->
    failed_reason f <> "pressure"%string) as Hone.
  { intros set f. unfold computeFixedBase.
    destruct (fixedBaseOf (membersOf input set) None) as [[b|] [reason|]] eqn:E; simpl; [..|done].
    - intros [= <-]. simpl. by apply fixedBaseOf_reason in E.
    - destruct (negb _); [|done]. by intros [= <-].
    - intros [= <-]. simpl. by apply fixedBaseOf_reason in E. }
  assert (forall sets bases0 failure0, (forall f, failure0 = Some f -> failed_reason f <> "pressure"%string) ->
    foldl step (bases0, failure0) sets = (bases, Some failure) ->
    failed_reason failure <> "pressure"%string) as Hgen.
  { induction sets as [|set sets IH]; intros bases0 failure0 H0; simpl; [intros [= _ ->]; by apply H0|].
    destruct (computeFixedBase input payloads limits set) as [base failed] eqn:Ec.
    apply IH. intros f. destruct failed as [f'|]; [|apply H0]. intros [= ->].
    apply (Hone set). by rewrite Ec. }
  by apply Hgen.
Qed.

Lemma footprintLoop_reason budget prior rest footprints failure :
  footprintLoop budget prior rest footprints = Some failure ->
  failed_reason failure = "allocated-footprint"%string.
Proof.
  revert prior footprints. induction rest as [|a rest IH]; intros prior [agpr vgpr]; simpl; [done|].
  destruct (negb _); [apply IH|]. destruct (_ <=? _); [apply IH|]. by intros [= <-].
Qed.

(** *** What the tracker of footprints holds *)

(** A range of a set that an assignment has placed. *)
Definition TrackedRange (input : ScanInput) (state : ScanState) (family : bool) (footprint start end_ : Z) :
    Prop :=
  exists i a s range, assignments state !! i = Some a /\ in_sets input !! i = Some s /\
    isVGPRFamilyClass (s_regClass s) = true /\ getFamilyIndex (s_regClass s) = family /\
    range ∈ s_ranges s /\ footprint = a_base a + a_width a /\
    start = live_start range /\ end_ = live_end range.
Record trackerOk (input : ScanInput) (state : ScanState) (tracker : CombinedFootprintTracker) (bound : Z) :
    Prop := {
  tracker_active family range : range ∈ activeRanges tracker family -> exists start,
    TrackedRange input state family (ar_footprint range) start (ar_end range) /\
    currentPosition tracker <> None /\ start <= bound;
  tracker_future range : range ∈ futureRanges tracker ->
    TrackedRange input state (getFamilyIndex (fr_regClass range)) (fr_footprint range) (fr_start range)
      (fr_end range);
  tracker_position p : currentPosition tracker = Some p -> p <= bound
}.

Lemma elem_of_pushHeap {A} (less : A -> A -> bool) e heap x : x ∈ pushHeap less e heap -> x = e \/ x ∈ heap.
Proof.
  induction heap as [|front rest IH]; cbn [pushHeap]; [by intros ->%list_elem_of_singleton; left|].
  destruct (less e front); rewrite !elem_of_cons; [intros [->|[->|]%IH]|intros [->|[->|]]]; auto.
Qed.

Section Tracker.
Context (input : ScanInput) (state : ScanState).

Lemma addActive_ok range tracker bound :
  trackerOk input state tracker bound -> currentPosition tracker <> None ->
  TrackedRange input state (getFamilyIndex (fr_regClass range)) (fr_footprint range) (fr_start range) (fr_end range) ->
  fr_start range <= bound -> trackerOk input state (addActive range tracker) bound.
Proof.
  intros [Ha Hf Hp] Hcur Hrange Hle. split; [|done|done]. intros family r. cbn [addActive activeRanges].
  destruct (Bool.eqb family _) eqn:E; [|by apply Ha].
  apply eqb_prop in E as ->. intros [-> |Hr]%elem_of_pushHeap; [|by apply Ha]. exists (fr_start range). done.
Qed.

Lemma startRanges_ok position future : forall tracker,
  trackerOk input state tracker position -> currentPosition tracker = Some position ->
  (forall range, range ∈ future -> TrackedRange input state (getFamilyIndex (fr_regClass range))
    (fr_footprint range) (fr_start range) (fr_end range)) ->
  trackerOk input state (startRanges position future tracker) position /\
  currentPosition (startRanges position future tracker) = Some position.
Proof.
  induction future as [|range rest IH]; intros tracker Hok Hcur Hall; cbn [startRanges].
  - split; [|done]. destruct Hok as [Ha Hf Hp]. split; [done| |done]. by intros range ?%elem_of_nil.
  - destruct (Z.leb_spec (fr_start range) position) as [Hle|Hgt].
    + assert (forall r, r ∈ rest -> TrackedRange input state (getFamilyIndex (fr_regClass r)) (fr_footprint r)
        (fr_start r) (fr_end r)) as Hrest by (intros r Hr; apply Hall; by right).
      destruct (position <=? fr_end range); apply IH; try done.
      apply addActive_ok; [done|by rewrite Hcur|apply Hall; left|done].
    + split; [|done]. destruct Hok as [Ha Hf Hp]. split; [done|by apply Hall|done].
Qed.

Lemma elem_of_dropEnded position ranges range : range ∈ dropEnded position ranges -> range ∈ ranges.
Proof.
  induction ranges as [|r rest IH]; cbn [dropEnded]; [done|]. destruct (_ <? _); [|done]. intros H. right. by apply IH.
Qed.
Lemma dropEnded_head position ranges range rest :
  dropEnded position ranges = range :: rest -> position <= ar_end range.
Proof.
  induction ranges as [|r ranges IH]; cbn [dropEnded]; [done|]. destruct (Z.ltb_spec (ar_end r) position); [done|].
  by intros [= <- _].
Qed.

Lemma footprint_advance_ok tracker position bound :
  trackerOk input state tracker bound -> bound <= position ->
  trackerOk input state (footprint_advance position tracker) position.
Proof.
  intros [Ha Hf Hp] Hle. unfold footprint_advance.
  destruct (startRanges_ok position (futureRanges tracker)
    (mkTracker (activeRanges tracker) (futureRanges tracker) (Some position) (nextSequence tracker)))
    as [[Ha' Hf' Hp'] Hcur]; [|done|done|].
  - split; [|done|by intros ? [= <-]]. intros family range Hr. cbn [activeRanges currentPosition] in *.
    destruct (Ha family range Hr) as (start & Htr & _ & Hs). exists start. split; [done|]. split; [done|lia].
  - split; cbn [activeRanges futureRanges currentPosition]; [|done|done].
    intros family range Hr%elem_of_dropEnded. by apply Ha'.
Qed.

(** What is read of the tracker is the end of an assignment whose set is live. *)
Lemma footprint_get_live tracker position bound c :
  trackerOk input state tracker bound -> bound <= position ->
  let footprint := footprint_get c (footprint_advance position tracker) in
  footprint = 0 \/ exists i a s, assignments state !! i = Some a /\ in_sets input !! i = Some s /\
    isVGPRFamilyClass (s_regClass s) = true /\ getFamilyIndex (s_regClass s) = getFamilyIndex c /\
    inRanges position (s_ranges s) /\ footprint = a_base a + a_width a.
Proof.
  intros Hok Hle. pose proof (footprint_advance_ok tracker position bound Hok Hle) as [Ha _ _].
  cbv zeta. unfold footprint_get.
  destruct (activeRanges (footprint_advance position tracker) (getFamilyIndex c)) as [|range rest] eqn:E; [by left|right].
  destruct (Ha (getFamilyIndex c) range) as (start & Htr & _ & Hstart); [rewrite E; left|].
  destruct Htr as (i & a & s & r & Hi & Hs & Hfam & Hc & Hr & Hfoot & -> & Hend).
  exists i, a, s. split; [done|]. split; [done|]. split; [done|]. split; [done|]. split; [|done].
  exists r. split; [done|]. unfold footprint_advance in E. cbn [activeRanges] in E.
  apply dropEnded_head in E. unfold liveAt. lia.
Qed.
End Tracker.

Lemma trackerOk_grows input state state' tracker bound :
  (forall i a, assignments state !! i = Some a -> assignments state' !! i = Some a) ->
  trackerOk input state tracker bound -> trackerOk input state' tracker bound.
Proof.
  intros Hgrow [Ha Hf Hp].
  assert (forall family f st e, TrackedRange input state family f st e -> TrackedRange input state' family f st e)
    as Hmono by (intros ? ? ? ? (i & a & s & r & Hi & H); exists i, a, s, r; split; [by apply Hgrow|done]).
  split; [|intros range Hr; by apply Hmono, Hf|done].
  intros family range Hr. destruct (Ha family range Hr) as (start & Htr & H). exists start. split; [by apply Hmono|done].
Qed.

Lemma footprint_add_ok input tables index set base state bound :
  in_sets input !! index = Some set -> length (assignments state) = index ->
  trackerOk input state (combinedFootprints state) bound -> currentPosition (combinedFootprints state) = Some bound ->
  trackerOk input (addAssignment tables set base state) (footprint_add set base (combinedFootprints state)) bound.
Proof.
  intros Hset Hlen Hok Hcur. set (state' := addAssignment tables set base state).
  assert (assignments state' !! index = Some (assignmentOf set base)) as Hnew.
  { unfold state', addAssignment. cbn [assignments]. rewrite lookup_app_r by lia. by rewrite Hlen, Nat.sub_diag. }
  apply (trackerOk_grows input state state') in Hok.
  2: { intros i a Ha. unfold state', addAssignment. cbn [assignments]. by apply lookup_app_l_Some. }
  unfold footprint_add. destruct (isVGPRFamilyClass (s_regClass set)) eqn:Hfam; [|done]. cbn [negb].
  assert (forall ranges tracker, trackerOk input state' tracker bound -> currentPosition tracker = Some bound ->
    (forall r, r ∈ ranges -> r ∈ s_ranges set) ->
    trackerOk input state' (foldl (footprint_addRange (s_regClass set) (base + s_width set)) tracker ranges) bound)
    as Hgen; [|by apply Hgen].
  clear Hok Hcur. induction ranges as [|range ranges IH]; intros tracker Hok Hcur Hall; cbn [foldl]; [done|].
  assert (TrackedRange input state' (getFamilyIndex (s_regClass set)) (base + s_width set) (live_start range)
    (live_end range)) as Htr.
  { exists index, (assignmentOf set base), set, range. repeat (split; [done|]). split; [apply Hall; left|done]. }
  apply IH; [| |intros r Hr; apply Hall; by right]; unfold footprint_addRange;
    (replace (default 0 (currentPosition tracker)) with bound by by rewrite Hcur);
    destruct (_ <? _); try done; destruct (Z.leb_spec (live_start range) bound); try done.
  - apply addActive_ok; [destruct Hok as [Ha Hf Hp]; by split|by cbn; rewrite Hcur|exact Htr|done].
  - destruct Hok as [Ha Hf Hp]. split; [done| |done]. cbn [futureRanges].
    intros r [-> |Hr]%elem_of_pushHeap; [done|by apply Hf].
Qed.

Lemma noFootprints_ok input state bound : trackerOk input state noFootprints bound.
Proof. split; [intros family r H|intros r H|intros p H]; [by apply elem_of_nil in H..|done]. Qed.

Lemma scan_tracker input tables rest : inputOk input -> tablesOk input tables ->
  forall k state bound,
  scanOk input tables k state -> scanFailure state = None ->
  trackerOk input state (combinedFootprints state) bound ->
  (forall set, in_sets input !! k = Some set -> bound <= s_start set) ->
  rest = imap (fun i set => ((k + i)%nat, set)) (drop k (in_sets input)) ->
  forall n set, in_sets input !! (k + n)%nat = Some set ->
  scanFailure (scanSets input tables (take n rest) state) = None ->
  exists bound, bound <= s_start set /\
    trackerOk input (scanSets input tables (take n rest) state)
      (combinedFootprints (scanSets input tables (take n rest) state)) bound.
Proof.
  intros Hin Htab. induction rest as [|[index set'] rest IH]; intros k state bound Hok Hnone Htr Hbound Hrest n set Hset Hfail.
  - assert (drop k (in_sets input) = []) as Hnil by (by destruct (drop k (in_sets input))).
    apply (f_equal length) in Hnil. rewrite length_drop in Hnil. apply lookup_lt_Some in Hset as Hlt. simpl in Hnil. lia.
  - destruct n as [|n].
    { exists bound. split; [|done]. rewrite Nat.add_0_r in Hset. by apply Hbound. }
    destruct (drop k (in_sets input)) as [|set1 sets'] eqn:Edrop; [done|].
    rewrite imap_cons in Hrest. injection Hrest as -> -> Hrest. rewrite Nat.add_0_r in *.
    assert (in_sets input !! k = Some set1) as Hset1.
    { rewrite <-(Nat.add_0_r k), <-lookup_drop, Edrop. done. }
    cbn [take scanSets] in *.
    destruct (scanFailure (allocateSet input tables k set1 (beforeSet tables set1 state))) eqn:Ef; [congruence|].
    rewrite Nat.add_succ_r in Hset.
    pose proof (scanStep_ok _ _ Hin Htab k state set1 Hok Hset1 Ef) as Hok'.
    apply (IH (S k) _ (s_start set1)); try done.
    + destruct (beforeSet_ok _ _ Hin Htab set1 state (scan_state _ _ _ _ Hok)) as [Hstate' Hlive].
      assert (forall i a, assignments (beforeSet tables set1 state) !! i = Some a ->
        i ∈ activeLive (active (beforeSet tables set1 state)) \/ a_end a < s_start set1) as Hended'.
      { intros i a Ha. apply Hlive; [done|]. destruct (scan_ended _ _ _ _ Hok i a Ha) as [|(j & s & Hj & Hs & He)]; [by left|].
        right. pose proof (input_sorted _ Hin j k s set1 Hs Hset1 ltac:(lia)). lia. }
      destruct (allocateSet_done _ _ Hin Htab k set1 _ Hset1 Hstate' Hended' Ef) as (base & -> & _).
      destruct (familyBudget tables) as [budget|] eqn:Ebudget.
      * assert (combinedFootprints (addAssignment tables set1 base (beforeSet tables set1 state)) =
          footprint_add set1 base (combinedFootprints (beforeSet tables set1 state))) as ->
          by (unfold addAssignment; by rewrite Ebudget).
        assert (combinedFootprints (beforeSet tables set1 state) =
          footprint_advance (s_start set1) (combinedFootprints state)) as Eadv
          by (unfold beforeSet; by rewrite Ebudget).
        apply (footprint_add_ok _ _ k); [done|apply (scan_length _ _ _ _ Hok)| |].
        -- rewrite Eadv. apply (trackerOk_grows input state); [done|].
           apply (footprint_advance_ok input state _ _ bound Htr). by apply Hbound.
        -- rewrite Eadv. unfold footprint_advance. cbn [currentPosition].
           apply (startRanges_ok input state); [|done|by apply Htr].
           destruct Htr as [Ha Hf Hp]. split; [|done|by intros ? [= <-]].
           intros family range Hr. destruct (Ha family range Hr) as (start & H1 & _ & H2). exists start.
           split; [done|]. split; [done|]. specialize (Hbound set1 Hset1). lia.
      * assert (combinedFootprints (addAssignment tables set1 base (beforeSet tables set1 state)) =
          combinedFootprints state) as -> by (unfold addAssignment, beforeSet; by rewrite Ebudget).
        apply (trackerOk_grows input state).
        { intros i a Ha. unfold addAssignment. cbn [assignments beforeSet]. by apply lookup_app_l_Some. }
        destruct Htr as [Ha Hf Hp]. specialize (Hbound set1 Hset1). split; [|done|].
        -- intros family range Hr. destruct (Ha family range Hr) as (start & H1 & H2 & H3). exists start.
           split; [done|]. split; [done|lia].
        -- intros p Hcur. specialize (Hp p Hcur). lia.
    + intros s Hs. by apply (input_sorted _ Hin k (S k) set1 s); [| |lia].
    + rewrite Hrest, <-Nat.add_1_r, <-drop_drop, Edrop. apply imap_ext. intros. simpl. f_equal. lia.
Qed.

(** *** Why there is no base *)

(** A member of a set that was placed holds one of the registers, and both are live
    at a position. *)
Definition InTheWay (input : ScanInput) (placed : list RegAllocTransformAssignment)
    (set : RegAllocTransformAliasSet) (base : Z) : Prop :=
  exists i a s member lane p,
    placed !! i = Some a /\ in_sets input !! i = Some s /\ s_regClass s = s_regClass set /\
    member ∈ membersOf input s /\ holdsLane (a_base a) member lane /\ base <= lane < base + s_width set /\
    inRanges p (v_ranges member) /\ inRanges p (s_ranges set).
(** Its members or its class do not allow the base, or a register is in use, or
    reserved while the set is live. *)
Inductive Blocked (input : ScanInput) (tables : ScanTables)
    (placed : list RegAllocTransformAssignment) (set : RegAllocTransformAliasSet) (base : Z) : Prop :=
  | blocked_illegal :
      setBaseIsLegal input (payloadValues tables) (targetLimits tables) set base = false ->
      Blocked input tables placed set base
  | blocked_live : InTheWay input placed set base -> Blocked input tables placed set base
  | blocked_reserved r :
      r ∈ reservationsOf (fixedReservations tables) (s_regClass set) ->
      assignedRangesOverlap r base (s_width set) = true ->
      aliasSetOverlapsRange set (a_start r) (a_end r) = true -> Blocked input tables placed set base.
(** How far the registers of a class reach, of what is live where the set starts and
    of the set itself. *)
Definition Reaches (input : ScanInput) (placed : list RegAllocTransformAssignment)
    (set : RegAllocTransformAliasSet) (base : Z)
    (c : RegClass.t) (footprint : Z) : Prop :=
  footprint = 0 \/ s_regClass set = c /\ footprint = base + s_width set \/
  exists i a s, placed !! i = Some a /\ in_sets input !! i = Some s /\ s_regClass s = c /\
    inRanges (s_start set) (s_ranges s) /\ footprint = a_base a + a_width a.

Lemma conflict_inTheWay input tables index set state base e :
  inputOk input -> tablesOk input tables -> in_sets input !! index = Some set -> stateOk input state -> 0 <= base ->
  findActiveConflictEnd input tables index set state base = Some e -> InTheWay input (assignments state) set base.
Proof.
  intros Hin Htab Hset Hstate Hb E.
  apply (findActiveConflictEnd_Some _ _ Hin Htab index set state Hset Hstate base e Hb) in E
    as (i & a & Hlive & Ha & Hc & _ & Hend & _).
  destruct (state_assigned _ _ Hstate i a Ha) as (s & Hs & Has & _).
  unfold getActiveAssignmentConflictEnd in Hend.
  rewrite (proj2 (getSetById_spec _ _ Hin Htab (a_set a) s)) in Hend
    by (exists i; split; [done|by rewrite Has]).
  apply firstSome_Some in Hend as (member & Hm & Hend). cbv beta zeta in Hend.
  destruct (_ || _) eqn:E in Hend; [done|]. apply orb_false_iff in E as [E1%Z.leb_gt E2%Z.leb_gt].
  destruct (memberConflictsWithSet _ _ _ _) eqn:Econf in Hend; [|done].
  apply list_elem_of_lookup_2 in Hs as Hsin. apply list_elem_of_lookup_2 in Hset as Hsetin.
  destruct (membersOf_ok _ _ Hin Htab _ _ Hsin Hm) as [_ Hoff Hmw _ Hmr _].
  pose proof (input_sets _ Hin _ Hsetin) as [_ Hr _ Hw].
  unfold memberConflictsWithSet in Econf. apply andb_true_iff in Econf as [Hover _].
  apply listsOverlap_spec in Hover as (p & Hp & Hp'); [|done|done].
  exists i, a, s, member, (Z.max (a_base a + v_offset member) base), p. split; [done|]. split; [done|].
  split; [by rewrite Has in Hc|]. split; [done|]. split; [unfold holdsLane; lia|]. split; [lia|done].
Qed.

Lemma notFree_blocked input tables index set state base :
  inputOk input -> tablesOk input tables -> in_sets input !! index = Some set -> stateOk input state -> 0 <= base ->
  ~ freeBase input tables index set state base -> Blocked input tables (assignments state) set base.
Proof.
  intros Hin Htab Hset Hstate Hb Hfree. unfold freeBase in Hfree.
  destruct (setBaseIsLegal _ _ _ _ _) eqn:El; [|by apply blocked_illegal].
  destruct (findActiveConflictEnd input tables index set state base) eqn:E.
  { apply blocked_live. by eapply conflict_inTheWay. }
  destruct (findFixedReservationConflictEnd tables set base) eqn:Er; [|by exfalso; apply Hfree].
  unfold findFixedReservationConflictEnd in Er. apply firstSome_Some in Er as (r & Hr & Er). cbv beta in Er.
  destruct (assignedRangesOverlap r base (s_width set)) eqn:Eo; [|done]. cbn [negb] in Er.
  destruct (aliasSetOverlapsRange set (a_start r) (a_end r)) eqn:Ea; [|done]. by apply (blocked_reserved _ _ _ _ _ r).
Qed.

(** *** A set that gets no register *)

Section Failed.
Context (input : ScanInput) (tables : ScanTables) (index : nat) (set : RegAllocTransformAliasSet) (state : ScanState).
Context (Hin : inputOk input) (Htab : tablesOk input tables) (Hset : in_sets input !! index = Some set).
Context (Hstate : stateOk input state) (Hnone : scanFailure state = None).
Context (bound : Z) (Htracker : trackerOk input state (combinedFootprints state) bound) (Hbound : bound <= s_start set).
Abbreviation before := (beforeSet tables set state).
Abbreviation limit := (budget_limit (in_budget input (s_regClass set))).
#[local] Set Default Proof Using "All".

(** Why the set is not placed at a base that there is: the registers of both classes
    exceed the budget of the family. *)
Definition FamilyExceeded (base pressure : Z) : Prop :=
  exists budget agpr vgpr, familyBudget tables = Some budget /\
    Reaches input (assignments state) set base RegClass.AGPR agpr /\ Reaches input (assignments state) set base RegClass.VGPR vgpr /\
    pressure = getCombinedVGPRFamilyPressure agpr vgpr /\ budget_limit budget < pressure.

Lemma reaches_tracked c base : c = RegClass.AGPR \/ c = RegClass.VGPR -> familyBudget tables <> None ->
  Reaches input (assignments state) set base c (footprint_get c (combinedFootprints before)).
Proof.
  intros Hc Hbudget. unfold beforeSet. cbn [combinedFootprints].
  destruct (familyBudget tables); [|done].
  destruct (footprint_get_live input state (combinedFootprints state) (s_start set) bound c Htracker Hbound)
    as [H|(i & a & s & Ha & Hs & Hfam & Hcl & Hp & H)]; [by left|right; right].
  exists i, a, s. split; [done|]. split; [done|]. split; [|done].
  unfold getFamilyIndex in Hcl. by destruct Hc as [-> | ->], (s_regClass s).
Qed.

Lemma assign_failure base failure :
  scanFailure (assignUnlessPressure tables set base before) = Some failure ->
  failed_set failure = s_id set /\ failed_className failure = "vgpr_agpr"%string /\
  FamilyExceeded base (failed_pressure failure).
Proof.
  unfold assignUnlessPressure, checkCombinedPressureFailure.
  destruct (familyBudget tables) as [budget|] eqn:Eb; [|simpl; congruence].
  destruct (isVGPRFamilyClass (s_regClass set)); cbn [negb]; [|simpl; congruence].
  destruct (addFamilyFootprint _ _ _ _) as [agpr vgpr] eqn:Ef.
  destruct (Z.leb_spec (getCombinedVGPRFamilyPressure agpr vgpr) (budget_limit budget)); [simpl; congruence|].
  simpl. intros [= <-]. split; [done|]. split; [done|]. exists budget, agpr, vgpr. split; [done|].
  pose proof (reaches_tracked RegClass.AGPR base ltac:(by left) ltac:(by rewrite Eb)) as Ha.
  pose proof (reaches_tracked RegClass.VGPR base ltac:(by right) ltac:(by rewrite Eb)) as Hv.
  assert (forall c n m, Reaches input (assignments state) set base c n -> Reaches input (assignments state) set base c m ->
    Reaches input (assignments state) set base c (Z.max n m)) as Hmax
    by (intros c n m Hn Hm; by destruct (Z.max_spec n m) as [[_ ->]|[_ ->]]).
  unfold addFamilyFootprint in Ef. injection Ef as <- <-. split; [|split; [|done]].
  - destruct (bool_decide (s_regClass set = RegClass.AGPR)) eqn:E; [apply bool_decide_eq_true in E|exact Ha].
    apply Hmax; [exact Ha|right; by left].
  - destruct (bool_decide (s_regClass set = RegClass.VGPR)) eqn:E; [apply bool_decide_eq_true in E|exact Hv].
    apply Hmax; [exact Hv|right; by left].
Qed.

Lemma allocateSet_failed failure :
  scanFailure (allocateSet input tables index set before) = Some failure ->
  failed_set failure = s_id set /\
  (failed_className failure = ""%string /\
     match getFixedBase tables index with
     | Some fixed => limit < fixed + s_width set \/ InTheWay input (assignments state) set fixed
     | None => forall base, 0 <= base -> base + s_width set <= limit -> Blocked input tables (assignments state) set base
     end \/
   failed_className failure = "vgpr_agpr"%string /\ exists base,
     0 <= base /\ base + s_width set <= limit /\ FamilyExceeded base (failed_pressure failure) /\
     match getFixedBase tables index with
     | Some fixed => base = fixed
     | None => forall lower, 0 <= lower < base -> Blocked input tables (assignments state) set lower
     end).
Proof.
  destruct (beforeSet_ok _ _ Hin Htab set state Hstate) as [Hbefore _].
  assert (0 < s_width set) as Hw
    by (apply (set_width (in_values input)), (input_sets _ Hin); by apply list_elem_of_lookup_2 in Hset).
  unfold allocateSet. destruct (getFixedBase tables index) as [fixed|] eqn:Efixed.
  - destruct (fixedBase_spec _ _ _ _ _ Htab Hset Efixed) as (Hb & _).
    unfold allocateFixedSet. destruct (registerRangeFits fixed (s_width set) limit) eqn:Efits; cbn [negb orb].
    + unfold registerRangeFits in Efits. apply andb_true_iff in Efits as [_ Efits%Z.leb_le].
      destruct (_ && _) eqn:Econf.
      * apply andb_true_iff in Econf as [Econf%bool_decide_eq_true _]. destruct Econf as [e Econf].
        unfold recordPressureFailure, fail. cbn [scanFailure]. intros [= <-]. split; [done|]. left. split; [done|].
        right. by apply (conflict_inTheWay input tables index set before fixed e).
      * intros (H1 & H2 & H3)%assign_failure. split; [done|]. right. split; [done|]. exists fixed.
        split; [done|]. split; [lia|done].
    + unfold recordPressureFailure, fail. cbn [scanFailure]. intros [= <-]. split; [done|]. left. split; [done|].
      left. unfold registerRangeFits in Efits. apply andb_false_iff in Efits as [E%Z.leb_gt|E%Z.leb_gt]; lia.
  - set (reusable := findReusableInputBase _ _ _ _ _ _).
    assert (forall b, reusable_base <$> reusable = Some b -> 0 <= b /\ b + s_width set <= limit) as Hreuse.
    { intros b (r & Hr & ->)%fmap_Some. destruct (reuse_sound _ _ Hin Htab index set before Hset Hbefore _ r Hr) as (H1 & H2 & _).
      unfold registerRangeFits in H2. apply andb_true_iff in H2 as [_ H2%Z.leb_le]. split; [done|lia]. }
    pose proof (findFreeBase_first_fit _ _ Hin Htab index set before Hset Hbefore Efixed limit
      (reusable_base <$> reusable) ltac:(intros b Hb; by apply Hreuse)) as Hfit. cbv zeta in Hfit.
    destruct (findFreeBase _ _ _ _ _ _ _) as [base|].
    + intros (H1 & H2 & H3)%assign_failure. split; [done|]. right. split; [done|]. exists base.
      destruct Hfit as ((Hb & Hl & _) & _ & Hlow). split; [done|]. split; [done|]. split; [done|].
      intros lower Hl'. apply (notFree_blocked input tables index set before lower); try done; [lia|]. by apply Hlow.
    + destruct (reusable_base <$> reusable) as [base|] eqn:Er.
      * destruct (Hreuse base eq_refl) as [Hb Hl].
        intros (H1 & H2 & H3)%assign_failure. split; [done|]. right. split; [done|]. exists base.
        split; [done|]. split; [done|]. split; [done|].
        intros lower Hl'. apply (notFree_blocked input tables index set before lower); try done; [lia|]. apply Hfit. split; [lia|].
        split; [lia|]. intros b [= <-]. lia.
      * unfold recordPressureFailure, fail. cbn [scanFailure]. intros [= <-]. split; [done|]. left. split; [done|].
        intros base Hb Hl. apply (notFree_blocked input tables index set before base); try done. apply Hfit. split; [done|]. by split.
Qed.
End Failed.


(** Every value has the type of the register that the assignment of its set gives. *)
Lemma run_assigned `{LaneLLVM} input func assigned func' :
  NoDup (map v_id (in_values input)) -> run input func = Ok (LinearScanSuccess assigned, func') ->
  exists tables, parseState input = Ok (tables, None) /\ scanFailure (scan input tables) = None /\
    assignments (scan input tables) = assigned /\
    (forall value, value ∈ in_values input -> exists a,
      getAssignmentBySet (scan input tables) (v_set value) = Some a /\
      valueTypes func' !! v_id value =
        Some (mkLaneType (v_regClass value) (v_width value) (a_base a + v_offset value))) /\
    forall id, id ∉ map v_id (in_values input) -> valueTypes func' !! id = valueTypes func !! id.
Proof.
  intros Hnd (tables & pending & Hparse & Hscan & <- & _ & Hp%buildPending_spec & Hc%commit_types)%run_success.
  exists tables. split; [done|]. split; [done|]. split; [done|]. rewrite Hc.
  assert (map fst pending = map v_id (in_values input)) as Hids.
  { clear Hnd Hc. induction Hp as [|value entry values pending (a & _ & ->) _ IH]; [done|]. simpl. by rewrite IH. }
  split.
  - intros value Hv. apply list_elem_of_lookup in Hv as [i Hi].
    destruct (Forall2_lookup_l _ _ _ _ _ Hp Hi) as (entry & He & a & Ha & ->).
    exists a. split; [done|]. apply setTypes_elem; [by rewrite Hids|]. by apply list_elem_of_lookup_2 in He.
  - intros id Hid. apply setTypes_other. by rewrite Hids.
Qed.

(** A run that succeeds gives every value the type of its register; one that
    fails leaves the types as they were. *)
Theorem run_types `{LaneLLVM} input func result func' :
  NoDup (map v_id (in_values input)) -> run input func = Ok (result, func') ->
  match result with
  | LinearScanSuccess assigned =>
      (forall value, value ∈ in_values input -> exists a, a ∈ assigned /\ 
        valueTypes func' !! v_id value =
          Some (mkLaneType (v_regClass value) (v_width value) (a_base a + v_offset value))) /\
      (forall id, id ∉ map v_id (in_values input) -> valueTypes func' !! id = valueTypes func !! id)
  | LinearScanFailure _ => func' = func
  end.
Proof.
  intros Hnd Hrun. destruct result as [assigned|failure]; [|by apply run_failure in Hrun as [-> _]].
  destruct (run_assigned _ _ _ _ Hnd Hrun) as (tables & _ & _ & <- & Hvalues & Hothers).
  split; [|done]. intros value Hv. destruct (Hvalues value Hv) as (a & Ha & Ht). exists a. split; [|done].
  apply bind_Some in Ha as (k & _ & Ha). by apply list_elem_of_lookup_2 in Ha.
Qed.

(** The assignment that the set of a value has: at a base, which is the one that the
    value is fixed to if it is. *)
Lemma placed_value `{LaneLLVM} input tables s value a :
  inputOk input -> parseState input = Ok (tables, None) -> scanFailure (scan input tables) = None ->
  s ∈ in_sets input -> s_id s = v_set value -> value ∈ membersOf input s ->
  getAssignmentBySet (scan input tables) (v_set value) = Some a ->
  0 <= a_base a /\ forall fixed, v_fixed value = Some fixed -> fixed = a_base a + v_offset value.
Proof.
  intros Hin Hparse Hscan Hs Hid Hm Ha. pose proof (parseState_ok _ _ Hparse) as Htab.
  pose proof (scan_ok _ _ Hin Htab Hscan) as Hok. apply list_elem_of_lookup in Hs as [i Hi].
  assert (assignmentIndexBySet (scan input tables) !! v_set value = Some i) as Hindex.
  { apply (scan_index _ _ _ _ Hok). split; [by apply lookup_lt_Some in Hi|by exists s]. }
  unfold getAssignmentBySet in Ha. rewrite Hindex in Ha. simpl in Ha.
  destruct (scan_placed _ _ _ _ Hok i a s Ha Hi) as (Hb & _ & Hplace). split; [done|].
  intros fixed Hfixed. destruct (getFixedBase tables i) as [base|] eqn:Ef.
  - subst base. destruct (fixedBase_spec _ _ _ _ _ Htab Hi Ef) as (_ & _ & _ & Hall). by apply Hall.
  - exfalso. destruct (tables_fixed _ _ Htab i s Hi) as [Hf Hnone].
    unfold getFixedBase in Ef. rewrite Hf in Ef. cbn [mjoin option_join] in Ef.
    unfold computeFixedBase in Ef, Hnone.
    destruct (fixedBaseOf (membersOf input s) None) as [[b|] [reason|]] eqn:E; simplify_eq/=.
    apply fixedBaseOf_none in E as [_ Hall]. specialize (Hall value Hm). congruence.
Qed.

(** C14: commitment that fails, since two returns of the function disagree, restores
    every type that it had set, also where it set the same one twice. *)
Theorem failed_commit_restores pending func func' :
  commitAssignments pending func = (false, func') -> func' = func.
Proof.
  intros Hc. pose proof (commit_types _ _ _ _ Hc) as Ht. revert Hc Ht.
  unfold commitAssignments, refreshFuncTypeFromBody. simpl.
  destruct (returnOperands func) eqn:E; [done|]. destruct (forallb _ _); [done|].
  intros [= <-] Ht. simpl in *. destruct func; simpl in *. by rewrite Ht, E.
Qed.

(** Beyond what makes the state unreadable, the pass only fails where returns
    disagree after the types are set: every value finds its assignment. *)
Theorem run_fails_on_returns `{LaneLLVM} input func :
  inputOk input ->
  (forall value, value ∈ in_values input -> exists s, s ∈ in_sets input /\ s_id s = v_set value) ->
  run input func = Failure ->
  parseState input = Failure \/
  exists tables pending func', parseState input = Ok (tables, None) /\
    buildPendingAssignments input (scan input tables) = Ok pending /\
    commitAssignments pending func = (false, func').
Proof.
  intros Hin Hvalues Hrun. unfold run in Hrun.
  destruct (parseState input) as [[tables [f|]]| |] eqn:Eparse; [done| |by left|done].
  simpl in Hrun. destruct (scanFailure (scan input tables)) eqn:Escan; [done|].
  destruct (checkCombinedFootprintFailure _ _); [done|].
  pose proof (parseState_ok _ _ Eparse) as Htab. pose proof (scan_ok _ _ Hin Htab Escan) as Hok.
  destruct (buildPending_total input (scan input tables)) as [pending Hp].
  { intros value Hv. destruct (Hvalues value Hv) as (s & Hs & Hid).
    apply list_elem_of_lookup in Hs as [i Hs].
    assert (assignmentIndexBySet (scan input tables) !! v_set value = Some i) as Hi.
    { apply (scan_index _ _ _ _ Hok). split; [by apply lookup_lt_Some in Hs|by exists s]. }
    unfold getAssignmentBySet. rewrite Hi. simpl. apply lookup_lt_is_Some_2.
    rewrite (scan_length _ _ _ _ Hok). by apply lookup_lt_Some in Hs. }
  rewrite Hp in Hrun. simpl in Hrun. right. exists tables, pending.
  destruct (commitAssignments pending func) as [[] func'']; [done|]. by exists func''.
Qed.

(** The walk over two lists of ranges, each in order and apart, decides whether
    they have a position in common. *)
Theorem range_walk_decides_overlap lhs rhs :
  rangesOk lhs -> rangesOk rhs ->
  liveRangeListsOverlap lhs rhs = true <-> exists p, inRanges p lhs /\ inRanges p rhs.
Proof. apply listsOverlap_spec. Qed.

(** ** Examples *)

Module LaneExamples.
#[local] Instance noNumerals : LaneLLVM := {| getAsUnsigned _ := None |}.

Definition registers : WaveAMDKernelEntryRegs :=
  mkEntryRegs (fun _ => 0) (fun _ => 0) 0 0 0 0 0 0.
Definition vgprType : LaneType := mkLaneType RegClass.VGPR 1 0.

(** An operation at [position] that may have its result in the register of
    [source], if there is one. *)
Definition resultOf (position : Z) (source : option nat) : Payload :=
  mkPayload
    (Some (mkLaneOp (OtherName 0) position [] 0 1 true
             match source with
             | Some id => [mkLaneOperand (Some id) true]
             | None => []
             end)) vgprType false.

(** The [id]-th value, alone in its set. *)
Definition valueOf (id : nat) (ranges : list LiveRange) (start end_ : Z) : RegAllocTransformValue :=
  mkLaneValue ranges RegClass.VGPR RegAllocTransformValueKind.OpResult None id id start end_ 1 0 0 [].
Definition aloneIn (value : RegAllocTransformValue) : RegAllocTransformAliasSet :=
  mkLaneSet [v_id value] (v_ranges value) (v_regClass value) (v_set value) (v_start value)
    (v_end value) (v_width value).

Definition inputOf (limit : Z) (values : list RegAllocTransformValue) (payloads : list Payload) :
    ScanInput :=
  mkScanInput true values (map aloneIn values) (zip payloads (seq 0 (length payloads))) [] registers
    (fun _ => mkBudget limit "default") (Ok (Some (mkBudget 8 "default"))) (Ok None) true.

(** The third value takes over the register of the first, which its operation
    kills. *)
Definition values3 : list RegAllocTransformValue :=
  [valueOf 0 [mkLive 0 2] 0 2; valueOf 1 [mkLive 1 3] 1 3; valueOf 2 [mkLive 2 4] 2 4].
Definition input3 : ScanInput :=
  inputOf 8 values3 [resultOf 0 None; resultOf 1 None; resultOf 2 (Some 0%nat)].
Definition types3 : FuncTypes :=
  mkFuncTypes (<[0%nat := vgprType]> (<[1%nat := vgprType]> (<[2%nat := vgprType]> ∅))) [[2%nat]] None.

Example run_input3 :
  match run input3 types3 with
  | Ok (LinearScanSuccess assigned, func) =>
      map a_base assigned = [0; 1; 0] /\
      functionResults func = Some [Some (mkLaneType RegClass.VGPR 1 0)]
  | _ => False
  end.
Proof. vm_compute. done. Qed.

(** With one register less the second value has none. *)
Example run_input3_failure :
  match run (inputOf 1 values3 [resultOf 0 None; resultOf 1 None; resultOf 2 (Some 0%nat)]) types3 with
  | Ok (LinearScanFailure failure, _) =>
      failed_set failure = 1%nat /\ failed_reason failure = "pressure"%string /\ failed_pressure failure = 2
  | _ => False
  end.
Proof. vm_compute. done. Qed.

(** A member that ends where the result starts, and is live again within its range. *)
Definition resumed : list RegAllocTransformValue :=
  [valueOf 0 [mkLive 0 5; mkLive 7 9] 0 9; valueOf 1 [mkLive 5 8] 5 8].
Definition inputResumed : ScanInput := inputOf 8 resumed [resultOf 0 None; resultOf 5 (Some 0%nat)].

(** The result is given the register in which the member is live again. *)
Example resumed_operand_is_overwritten :
  match run inputResumed (mkFuncTypes ∅ [] None) with
  | Ok (LinearScanSuccess [a; b], _) => a_base a = a_base b
  | _ => False
  end /\ inRanges 7 [mkLive 0 5; mkLive 7 9] /\ inRanges 7 [mkLive 5 8].
Proof.
  split; [vm_compute; done|].
  split; [exists (mkLive 7 9)|exists (mkLive 5 8)]; (split; [set_solver|unfold liveAt; simpl; lia]).
Qed.

Lemma inputOf_ok limit values payloads :
  (forall i v, values !! i = Some v ->
    v_id v = i /\ v_offset v = 0 /\ 0 < v_width v /\ rangesOk (v_ranges v) /\
    forall r, r ∈ v_ranges v -> v_start v <= live_start r /\ live_end r <= v_end v) ->
  (forall i j a b, values !! i = Some a -> values !! j = Some b -> (i <= j)%nat ->
    v_start a <= v_start b) ->
  inputOk (inputOf limit values payloads).
Proof.
  intros Hvalues Hsorted. split; simpl.
  - intros set (v & -> & Hv)%list_elem_of_fmap. apply list_elem_of_lookup in Hv as [i Hi].
    destruct (Hvalues i v Hi) as (Hid & Hoff & Hw & Hr & Hb). split; simpl; [|done| |done].
    + intros id ->%list_elem_of_singleton. exists v. rewrite Hid. split; [done|].
      split; simpl; try done; lia.
    + intros p (r & Hin & Hp). specialize (Hb r Hin). unfold liveAt in Hp. lia.
  - intros i j a b Ha Hb Hij. rewrite list_lookup_fmap in Ha, Hb.
    apply fmap_Some in Ha as (v & Hv & ->). apply fmap_Some in Hb as (w & Hw & ->).
    by apply (Hsorted i j v w).
  - done.
  - intros v Hv. apply list_elem_of_lookup in Hv as [i Hi].
    destruct (Hvalues i v Hi) as (_ & -> & _). done.
Qed.

Lemma rangesOk_single s e : s <= e -> rangesOk [mkLive s e].
Proof. intros. constructor; [done|constructor|by intros ? ?%elem_of_nil]. Qed.

Lemma input3_ok limit payloads : inputOk (inputOf limit values3 payloads).
Proof.
  apply inputOf_ok.
  - intros [|[|[|i]]] v Hv; simplify_eq/=; (split; [done|]; split; [done|]; split; [lia|]);
      (split; [by apply rangesOk_single|]); intros r ->%list_elem_of_singleton; simpl; lia.
  - intros [|[|[|i]]] [|[|[|j]]] a b Ha Hb Hij; simplify_eq/=; lia.
Qed.

(** The results of running them. *)
Definition successOf (input : ScanInput) (func : FuncTypes) : list RegAllocTransformAssignment * FuncTypes :=
  match run input func with
  | Ok (LinearScanSuccess assigned, func) => (assigned, func)
  | _ => ([], func)
  end.
Definition failureOf (input : ScanInput) (func : FuncTypes) : RegAllocScanFailure :=
  match run input func with
  | Ok (LinearScanFailure failure, _) => failure
  | _ => mkScanFailure [] RegClass.VGPR "" "" "" 0 0 0 0 0
  end.
Definition tablesOf (input : ScanInput) : ScanTables :=
  match parseState input with
  | Ok (tables, _) => tables
  | _ => mkTables [] ∅ [] None None [] ∅ noReservations
  end.
Definition input3_small : ScanInput :=
  inputOf 1 values3 [resultOf 0 None; resultOf 1 None; resultOf 2 (Some 0%nat)].

Lemma shared_registers_are_explained_witness :
  exists tables, parseState input3 = Ok (tables, None) /\
    Sharing input3 tables (aloneIn (valueOf 0 [mkLive 0 2] 0 2)) 0 (valueOf 0 [mkLive 0 2] 0 2) 2
      (aloneIn (valueOf 2 [mkLive 2 4] 2 4)) 0 2.
Proof.
  destruct (shared_registers_are_explained input3 types3 (successOf input3 types3).1
    (successOf input3 types3).2 (input3_ok _ _) ltac:(vm_compute; reflexivity))
    as (tables & Hparse & Hsharing).
  exists tables. split; [exact Hparse|].
  apply (Hsharing 0%nat 2%nat
    (mkAssignment RegClass.VGPR 0 0 1 0 2) (mkAssignment RegClass.VGPR 2 0 1 2 4)
    (aloneIn (valueOf 0 [mkLive 0 2] 0 2)) (aloneIn (valueOf 2 [mkLive 2 4] 2 4))
    (valueOf 0 [mkLive 0 2] 0 2) (valueOf 2 [mkLive 2 4] 2 4) 0 2);
    try (vm_compute; reflexivity); try (unfold holdsLane; simpl; lia).
  - vm_compute. left.
  - vm_compute. left.
  - exists (mkLive 0 2). split; [left|unfold liveAt; simpl; lia].
  - exists (mkLive 2 4). split; [left|unfold liveAt; simpl; lia].
Defined.

Lemma assigned_bases_fit_witness :
  exists tables, parseState input3 = Ok (tables, None) /\
    exists base, (successOf input3 types3).1 !! 1%nat =
      Some (assignmentOf (aloneIn (valueOf 1 [mkLive 1 3] 1 3)) base) /\ 0 <= base <= 7.
Proof.
  destruct (assigned_bases_fit input3 types3 (successOf input3 types3).1
    (successOf input3 types3).2 (input3_ok _ _) ltac:(vm_compute; reflexivity))
    as (tables & Hparse & _ & Hbases & _).
  exists tables. split; [exact Hparse|].
  destruct (Hbases 1%nat (aloneIn (valueOf 1 [mkLive 1 3] 1 3)) eq_refl) as (base & Ha & Hb & Hl & _).
  exists base. split; [exact Ha|]. simpl in Hl. lia.
Defined.

(** Before the second set of the example. *)
Definition state3 : ScanState :=
  let set := aloneIn (valueOf 0 [mkLive 0 2] 0 2) in
  allocateSet input3 (tablesOf input3) 0 set (beforeSet (tablesOf input3) set initialScan).
Lemma tables3_ok : tablesOk input3 (tablesOf input3).
Proof. apply parseState_ok. vm_compute. reflexivity. Qed.
Lemma state3_ok : stateOk input3 state3.
Proof.
  apply (scan_state _ (tablesOf input3) 1).
  apply (scanStep_ok _ _ (input3_ok _ _) tables3_ok); [|done|by vm_compute].
  apply (initialScan_ok _ _ (input3_ok _ _) tables3_ok).
Qed.
Lemma lowest_base_is_found_witness :
  ~ Unoccupied input3 (tablesOf input3) (aloneIn (valueOf 1 [mkLive 1 3] 1 3)) state3 0.
Proof.
  pose proof (lowest_base_is_found input3 (tablesOf input3) 1
    (aloneIn (valueOf 1 [mkLive 1 3] 1 3)) state3 8 None (input3_ok _ _) tables3_ok eq_refl state3_ok
    ltac:(vm_compute; reflexivity) ltac:(discriminate)) as Hfit.
  cbv zeta in Hfit.
  replace (findFreeBase _ _ _ _ _ _ _) with (Some 1) in Hfit by (vm_compute; reflexivity).
  destruct Hfit as (_ & _ & Hlow). apply Hlow. lia.
Defined.


Lemma run_types_witness :
  exists a, a ∈ (successOf input3 types3).1 /\
    valueTypes (successOf input3 types3).2 !! 1%nat = Some (mkLaneType RegClass.VGPR 1 (a_base a + 0)).
Proof.
  pose proof (run_types input3 types3 (LinearScanSuccess (successOf input3 types3).1)
    (successOf input3 types3).2 ltac:(simpl; repeat constructor; set_solver)
    ltac:(vm_compute; reflexivity)) as [Hvalues _].
  destruct (Hvalues (valueOf 1 [mkLive 1 3] 1 3)) as (a & Ha & Ht); [right; left|].
  exists a. split; [exact Ha|exact Ht].
Defined.

(** Two returns, of values that get different registers. *)
Definition types_disagree : FuncTypes := mkFuncTypes (valueTypes types3) [[0%nat]; [1%nat]] None.

Lemma failed_commit_restores_witness :
  (commitAssignments [(0%nat, mkLaneType RegClass.VGPR 1 4); (0%nat, mkLaneType RegClass.VGPR 1 5)]
    types_disagree).2 = types_disagree.
Proof.
  apply (failed_commit_restores
    [(0%nat, mkLaneType RegClass.VGPR 1 4); (0%nat, mkLaneType RegClass.VGPR 1 5)]).
  vm_compute. reflexivity.
Defined.

Lemma run_fails_on_returns_witness :
  parseState input3 = Failure \/
  exists tables pending func', parseState input3 = Ok (tables, None) /\
    buildPendingAssignments input3 (scan input3 tables) = Ok pending /\
    commitAssignments pending types_disagree = (false, func').
Proof.
  apply (run_fails_on_returns input3 types_disagree (input3_ok _ _)).
  - intros value Hv. exists (aloneIn value). split; [by apply list_elem_of_fmap_2|done].
  - vm_compute. reflexivity.
Defined.

Lemma range_walk_decides_overlap_witness :
  liveRangeListsOverlap [mkLive 0 2; mkLive 6 9] [mkLive 3 4; mkLive 9 9] = true.
Proof.
  apply range_walk_decides_overlap.
  - constructor; [simpl; lia|by apply rangesOk_single|].
    intros r ->%list_elem_of_singleton. simpl. lia.
  - constructor; [simpl; lia|by apply rangesOk_single|].
    intros r ->%list_elem_of_singleton. simpl. lia.
  - exists 9. split; [exists (mkLive 6 9)|exists (mkLive 9 9)]; (split; [right; left|unfold liveAt; simpl; lia]).
Defined.
End LaneExamples.
