(* ===== verification/LanePack.v ===== *)
(** * Register allocation: alias sets and the packed state

    How the state that the scan reads comes about ([RegAllocAliasStateBuilder] of
    [WaveAMDRegAllocTransformLoop.cpp]): live ranges of values, sets of values that
    share registers, and the attribute in which they are stored
    ([RegAllocStateAttr], its verifier in [Wave.cpp], and its parser in
    [WaveAMDRegAllocTransformState.cpp]).

    A slab of records is a list of numbers; [recordAt] is a slice of it. *)

From stdpp Require Import base tactics list gmap sorting strings numbers.
From S2P Require Import Prelude MachineIR TicketIR LaneIR LaneScan.

(** ** Values, operations, edges and sets *)

Record RegAllocAliasValue : Set := mkAliasValue {
  av_path : list Z;
  av_ranges : list LiveRange;
  av_type : LaneType;
  av_id : nat;
  av_start : Z;
  av_end : Z;
  av_aliasSet : nat;
  av_number : Z;
  av_offset : Z;
  av_blockArgument : bool
}.
Record RegAllocAliasOp : Set := mkAliasOp { ao_path : list Z; ao_id : nat; ao_position : nat }.
Record RegAllocAliasEdge : Set := mkAliasEdge { edge_lhs : nat; edge_rhs : nat; edge_delta : Z }.
Record RegAllocAliasSet : Set := mkAliasSet { as_members : list nat; as_id : nat }.

Record AliasState : Set := mkAliasState {
  st_ops : list RegAllocAliasOp;
  st_values : list RegAllocAliasValue;
  st_edges : list RegAllocAliasEdge;
  st_aliasSets : list RegAllocAliasSet
}.
Definition emptyAliasState : AliasState := mkAliasState [] [] [] [].

Definition withRanges (value : RegAllocAliasValue) (ranges : list LiveRange) (start end_ : Z) :
    RegAllocAliasValue :=
  mkAliasValue (av_path value) ranges (av_type value) (av_id value) start end_ (av_aliasSet value)
    (av_number value) (av_offset value) (av_blockArgument value).
Definition withAliasSet (value : RegAllocAliasValue) (set : nat) : RegAllocAliasValue :=
  mkAliasValue (av_path value) (av_ranges value) (av_type value) (av_id value) (av_start value)
    (av_end value) set (av_number value) (av_offset value) (av_blockArgument value).
Definition withOffset (value : RegAllocAliasValue) (offset : Z) : RegAllocAliasValue :=
  mkAliasValue (av_path value) (av_ranges value) (av_type value) (av_id value) (av_start value)
    (av_end value) (av_aliasSet value) (av_number value) offset (av_blockArgument value).

(** A value that is not tracked has no type here. *)
Definition registerValue (type : option LaneType) (start : Z) (path : list Z) (blockArgument : bool)
    (number : Z) (values : list RegAllocAliasValue) : list RegAllocAliasValue :=
  match type with
  | None => values
  | Some type =>
      values ++ [mkAliasValue path [mkLive start start] type (length values) start start 0 number 0
                   blockArgument]
  end.

(** ** Live ranges *)

(** The ranges after [first] that begin before it ends become part of it. *)
Fixpoint absorbRanges (first : LiveRange) (rest : list LiveRange) : list LiveRange :=
  match rest with
  | next :: rest' =>
      if live_start next <=? live_end first
      then absorbRanges (mkLive (live_start first) (Z.max (live_end first) (live_end next))) rest'
      else first :: rest
  | [] => [first]
  end.
Fixpoint insertRange (ranges : list LiveRange) (start end_ : Z) : list LiveRange :=
  match ranges with
  | [] => [mkLive start end_]
  | range :: rest =>
      if live_end range <? start then range :: insertRange rest start end_
      else if end_ <? live_start range then mkLive start end_ :: ranges
      else absorbRanges (mkLive (Z.min (live_start range) start) (Z.max (live_end range) end_)) rest
  end.
Definition addLiveRange (record : RegAllocAliasValue) (start end_ : Z) : RegAllocAliasValue :=
  withRanges record (insertRange (av_ranges record) start end_)
    (Z.min (av_start record) start) (Z.max (av_end record) end_).

(** A region of which at most one of its operation's regions executes; [ctx_branch]
    numbers the operation. *)
Record ExclusiveRangeContext : Set := mkContext {
  ctx_parent : option nat;
  ctx_branch : nat;
  ctx_branchPosition : Z;
  ctx_entryPosition : Z
}.
Record ExclusiveRangeSegment : Set := mkSegment { seg_branch : Z; seg_entry : Z }.

Section Extend.
Context (contexts : list ExclusiveRangeContext) (isDefinedInside : nat -> bool).

(** From the innermost context outwards; a parent has a smaller number, so that the
    number of contexts is enough fuel. *)
Fixpoint collectSegments (fuel : nat) (context : option nat) : list ExclusiveRangeSegment :=
  match fuel, context with
  | S fuel, Some id =>
      match contexts !! id with
      | Some current =>
          (if isDefinedInside (ctx_branch current) then []
           else [mkSegment (ctx_branchPosition current) (ctx_entryPosition current)])
          ++ collectSegments fuel (ctx_parent current)
      | None => []
      end
  | _, _ => []
  end.

Fixpoint addSegments (record : RegAllocAliasValue) (segments : list ExclusiveRangeSegment)
    (end_ : Z) : RegAllocAliasValue :=
  match segments with
  | [] => record
  | segment :: rest =>
      let segmentEnd := match rest with next :: _ => seg_branch next | [] => end_ end in
      addSegments (addLiveRange record (seg_entry segment) segmentEnd) rest end_
  end.
(** [context]: the one of the user. *)
Definition extendValue (record : RegAllocAliasValue) (context : option nat) (end_ : Z) :
    RegAllocAliasValue :=
  match reverse (collectSegments (length contexts) context) with
  | [] => addLiveRange record (av_start record) end_
  | first :: rest =>
      addSegments (addLiveRange record (av_start record) (seg_branch first)) (first :: rest) end_
  end.
End Extend.

(** [valueRangeEndsAt] of the builder. *)
Definition recordRangeEndsAt (record : RegAllocAliasValue) (position : Z) : bool :=
  match lowerBoundEnd (av_ranges record) position with
  | range :: _ => (live_start range <=? position) && (live_end range =? position)
  | [] => false
  end.

(** ** Alias sets *)


Definition addAliasAdjacencyEdge (adjacency : list (list (nat * Z))) (edge : RegAllocAliasEdge) :
    outcome (list (list (nat * Z))) :=
  if bool_decide (edge_lhs edge = edge_rhs edge)
  then if edge_delta edge =? 0 then Ok adjacency else Failure
  else
    Ok (alter (fun l => l ++ [(edge_lhs edge, - edge_delta edge)]) (edge_rhs edge)
          (alter (fun l => l ++ [(edge_rhs edge, edge_delta edge)]) (edge_lhs edge) adjacency)).
Definition buildAliasAdjacency (size : nat) (edges : list RegAllocAliasEdge) :
    outcome (list (list (nat * Z))) :=
  foldM addAliasAdjacencyEdge (replicate size []) edges.

Record AliasWalk : Type := mkWalk {
  w_worklist : list nat;
  w_visited : gset nat;
  w_offsets : gmap nat Z;
  w_values : list RegAllocAliasValue
}.
Definition offsetOf (offsets : gmap nat Z) (value : nat) : Z := default 0 (offsets !! value).

Definition enqueueAliasNeighbor (setId current : nat) (walk : AliasWalk) (neighbor : nat * Z) :
    outcome AliasWalk :=
  let '(next, delta) := neighbor in
  let nextOffset := offsetOf (w_offsets walk) current + delta in
  if bool_decide (next ∈ w_visited walk)
  then if offsetOf (w_offsets walk) next =? nextOffset then Ok walk else Failure
  else
    Ok (mkWalk (w_worklist walk ++ [next]) ({[next]} ∪ w_visited walk)
          (<[next := nextOffset]> (w_offsets walk))
          (alter (fun value => withAliasSet value setId) next (w_values walk))).

(** Every value enters the worklist once. *)
Fixpoint visitLoop (adjacency : list (list (nat * Z))) (setId fuel cursor : nat) (walk : AliasWalk) :
    outcome AliasWalk :=
  match fuel, w_worklist walk !! cursor with
  | S fuel, Some current =>
      walk ← foldM (enqueueAliasNeighbor setId current) walk (default [] (adjacency !! current));
      visitLoop adjacency setId fuel (S cursor) walk
  | _, _ => Ok walk
  end.

Definition normalizeAliasOffsets (members : list nat) (offsets : gmap nat Z)
    (values : list RegAllocAliasValue) : list RegAllocAliasValue :=
  let minOffset := foldl (fun least member => Z.min least (offsetOf offsets member)) 0 members in
  foldl (fun values member =>
    alter (fun value => withOffset value (offsetOf offsets member - minOffset)) member values)
    values members.

Record AliasSetsState : Type := mkSets {
  ss_visited : gset nat;
  ss_offsets : gmap nat Z;
  ss_values : list RegAllocAliasValue;
  ss_aliasSets : list RegAllocAliasSet
}.
Definition visitAliasSet (adjacency : list (list (nat * Z))) (state : AliasSetsState) (root : nat) :
    outcome AliasSetsState :=
  let setId := length (ss_aliasSets state) in
  walk ← visitLoop adjacency setId (S (length (ss_values state))) 0
    (mkWalk [root] ({[root]} ∪ ss_visited state) (ss_offsets state)
       (alter (fun value => withAliasSet value setId) root (ss_values state)));
  Ok (mkSets (w_visited walk) (w_offsets walk)
        (normalizeAliasOffsets (w_worklist walk) (w_offsets walk) (w_values walk))
        (ss_aliasSets state ++ [mkAliasSet (w_worklist walk) setId])).

Definition assignAliasSets (state : AliasState) : outcome AliasState :=
  adjacency ← buildAliasAdjacency (length (st_values state)) (st_edges state);
  sets ← foldM (fun sets root =>
      if bool_decide (root ∈ ss_visited sets) then Ok sets else visitAliasSet adjacency sets root)
    (mkSets ∅ ∅ (st_values state) (st_aliasSets state)) (seq 0 (length (st_values state)));
  Ok (mkAliasState (st_ops state) (ss_values sets) (st_edges state) (ss_aliasSets sets)).

(** ** The packed state *)

Record RegAllocStateAttr : Set := mkPacked {
  pk_version : Z;
  pk_ops : list Z;
  pk_opPaths : list Z;
  pk_values : list Z;
  pk_valuePaths : list Z;
  pk_valueRanges : list Z;
  pk_aliasSets : list Z;
  pk_aliasMembers : list Z
}.
Definition kVersion : Z := 1.

(** The fields of the records, in their order. *)
Definition OpPathBegin : nat := 0.
Definition OpPathLength : nat := 1.
Definition OpFieldCount : nat := 2.
Definition ValueRegClass : nat := 0.
Definition ValueKind : nat := 1.
Definition ValueFixed : nat := 2.
Definition ValueSet : nat := 3.
Definition ValueStart : nat := 4.
Definition ValueEnd : nat := 5.
Definition ValueWidth : nat := 6.
Definition ValueOffset : nat := 7.
Definition ValueNumber : nat := 8.
Definition ValuePathBegin : nat := 9.
Definition ValuePathLength : nat := 10.
Definition ValueRangeBegin : nat := 11.
Definition ValueRangeCount : nat := 12.
Definition ValueFieldCount : nat := 13.
Definition RangeStart : nat := 0.
Definition RangeEnd : nat := 1.
Definition RangeFieldCount : nat := 2.
Definition AliasSetRegClass : nat := 0.
Definition AliasSetWidth : nat := 1.
Definition AliasSetMemberBegin : nat := 2.
Definition AliasSetMemberCount : nat := 3.
Definition AliasSetFieldCount : nat := 4.

Definition sliceOf (slab : list Z) (begin count : nat) : list Z := take count (drop begin slab).
Definition recordAt (slab : list Z) (fields index : nat) : list Z :=
  sliceOf slab (index * fields) fields.
Definition field (record : list Z) (index : nat) : Z := default 0 (record !! index).

Definition PackedSGPR : Z := 0.
Definition PackedVGPR : Z := 1.
Definition PackedAGPR : Z := 2.
Definition PackedBlockArgument : Z := 0.
Definition PackedOpResult : Z := 1.

Definition packRegAllocClass (regClass : RegClass.t) : outcome Z :=
  match regClass with
  | RegClass.SGPR => Ok PackedSGPR
  | RegClass.VGPR => Ok PackedVGPR
  | RegClass.AGPR => Ok PackedAGPR
  | _ => Fatal "untracked packed register class"
  end.

(** [packOps], [packValues] and [packAliasSets] append to the slabs. *)
Definition packOp (packed : RegAllocStateAttr) (record : RegAllocAliasOp) : RegAllocStateAttr :=
  let row := [Z.of_nat (length (pk_opPaths packed)); Z.of_nat (length (ao_path record))] in
  mkPacked (pk_version packed) (pk_ops packed ++ row) (pk_opPaths packed ++ ao_path record)
    (pk_values packed) (pk_valuePaths packed) (pk_valueRanges packed) (pk_aliasSets packed)
    (pk_aliasMembers packed).
Definition packRange (range : LiveRange) : list Z := [live_start range; live_end range].
Definition packValue (packed : RegAllocStateAttr) (record : RegAllocAliasValue) :
    outcome RegAllocStateAttr :=
  regClass ← packRegAllocClass (type_class (av_type record));
  let row :=
    [regClass; if av_blockArgument record then PackedBlockArgument else PackedOpResult;
     type_index (av_type record); Z.of_nat (av_aliasSet record); av_start record; av_end record;
     type_width (av_type record); av_offset record; av_number record;
     Z.of_nat (length (pk_valuePaths packed)); Z.of_nat (length (av_path record));
     Z.of_nat (length (pk_valueRanges packed) / RangeFieldCount);
     Z.of_nat (length (av_ranges record))] in
  Ok (mkPacked (pk_version packed) (pk_ops packed) (pk_opPaths packed) (pk_values packed ++ row)
        (pk_valuePaths packed ++ av_path record)
        (pk_valueRanges packed ++ (av_ranges record ≫= packRange)) (pk_aliasSets packed)
        (pk_aliasMembers packed)).
Definition packAliasSet (values : list RegAllocAliasValue) (packed : RegAllocStateAttr)
    (set : RegAllocAliasSet) : outcome RegAllocStateAttr :=
  front ← at_index (as_members set) 0;
  first ← at_index values front;
  regClass ← packRegAllocClass (type_class (av_type first));
  width ← foldM (fun width member =>
      value ← at_index values member;
      Ok (Z.max width (av_offset value + type_width (av_type value)))) 0 (as_members set);
  let row :=
    [regClass; width; Z.of_nat (length (pk_aliasMembers packed));
     Z.of_nat (length (as_members set))] in
  Ok (mkPacked (pk_version packed) (pk_ops packed) (pk_opPaths packed) (pk_values packed)
        (pk_valuePaths packed) (pk_valueRanges packed) (pk_aliasSets packed ++ row)
        (pk_aliasMembers packed ++ map Z.of_nat (as_members set))).
Definition buildPackedAttr (state : AliasState) : outcome RegAllocStateAttr :=
  let packed := foldl packOp (mkPacked kVersion [] [] [] [] [] [] []) (st_ops state) in
  packed ← foldM packValue packed (st_values state);
  foldM (packAliasSet (st_values state)) packed (st_aliasSets state).

(** ** The verifier *)

(** [emitError] unless the test holds. *)
Definition check (test : bool) : outcome () := if test then Ok () else Failure.

Definition isRegAllocPackedUnsigned (value : Z) : bool := (0 <=? value) && (value <=? UINT_MAX).
Definition verifyRegAllocPackedSlice (begin count : Z) (size : nat) : outcome () :=
  _ ← check (isRegAllocPackedUnsigned begin && isRegAllocPackedUnsigned count);
  check ((begin <=? Z.of_nat size) && (count <=? Z.of_nat size - begin)).
Definition verifyRegAllocPackedPathComponents (paths : list Z) : outcome () :=
  check (forallb isRegAllocPackedUnsigned paths).

Definition verifyRegAllocPackedOps (ops opPaths : list Z) : outcome () :=
  nextOpPath ← foldM (fun nextOpPath index =>
      let record := recordAt ops OpFieldCount index in
      _ ← check (field record OpPathBegin =? nextOpPath);
      _ ← verifyRegAllocPackedSlice (field record OpPathBegin) (field record OpPathLength)
            (length opPaths);
      _ ← check (negb (field record OpPathLength =? 0));
      Ok (nextOpPath + field record OpPathLength))
    0 (seq 0 (length ops / OpFieldCount));
  _ ← check (nextOpPath =? Z.of_nat (length opPaths));
  verifyRegAllocPackedPathComponents opPaths.

Definition verifyRegAllocPackedValueIdentity (record : list Z) (aliasSetCount : nat) : outcome () :=
  let regClass := field record ValueRegClass in
  _ ← check ((PackedSGPR <=? regClass) && (regClass <=? PackedAGPR));
  let kind := field record ValueKind in
  _ ← check ((PackedBlockArgument <=? kind) && (kind <=? PackedOpResult));
  let fixed := field record ValueFixed in
  _ ← check ((fixed =? -1) || isRegAllocPackedUnsigned fixed);
  check (isRegAllocPackedUnsigned (field record ValueSet)
         && (field record ValueSet <? Z.of_nat aliasSetCount)).
Definition verifyRegAllocPackedValueRangeFields (record : list Z) : outcome () :=
  _ ← check (isRegAllocPackedUnsigned (field record ValueStart)
             && isRegAllocPackedUnsigned (field record ValueEnd)
             && (field record ValueStart <=? field record ValueEnd));
  _ ← check (isRegAllocPackedUnsigned (field record ValueWidth)
             && negb (field record ValueWidth =? 0));
  check (isRegAllocPackedUnsigned (field record ValueOffset)
         && isRegAllocPackedUnsigned (field record ValueNumber)).
Definition verifyRegAllocPackedValueSlices (record : list Z) (valuePathSize rangeCount : nat)
    (next : Z * Z) : outcome (Z * Z) :=
  let '(nextValuePath, nextValueRange) := next in
  _ ← check (field record ValuePathBegin =? nextValuePath);
  _ ← verifyRegAllocPackedSlice (field record ValuePathBegin) (field record ValuePathLength)
        valuePathSize;
  _ ← check (negb (field record ValuePathLength =? 0));
  let nextValuePath := nextValuePath + field record ValuePathLength in
  _ ← check (field record ValueRangeBegin =? nextValueRange);
  _ ← verifyRegAllocPackedSlice (field record ValueRangeBegin) (field record ValueRangeCount)
        rangeCount;
  _ ← check (negb (field record ValueRangeCount =? 0));
  Ok (nextValuePath, nextValueRange + field record ValueRangeCount).
Definition verifyRegAllocPackedLiveRanges (record valueRanges : list Z) : outcome () :=
  let rangeBegin := Z.to_nat (field record ValueRangeBegin) in
  let rangeCount := Z.to_nat (field record ValueRangeCount) in
  _ ← foldM (fun priorEnd rangeIndex =>
      let range := recordAt valueRanges RangeFieldCount (rangeBegin + rangeIndex) in
      let start := field range RangeStart in
      let end_ := field range RangeEnd in
      _ ← check (isRegAllocPackedUnsigned start && isRegAllocPackedUnsigned end_
                 && (start <=? end_) && (priorEnd <? start));
      _ ← check (negb (rangeIndex =? 0)%nat || (start =? field record ValueStart));
      _ ← check (negb (S rangeIndex =? rangeCount)%nat || (end_ =? field record ValueEnd));
      Ok end_)
    (-1) (seq 0 rangeCount);
  Ok ().
Definition verifyRegAllocPackedValues (values valuePaths valueRanges : list Z)
    (aliasSetCount : nat) : outcome () :=
  let rangeCount := (length valueRanges / RangeFieldCount)%nat in
  '(nextValuePath, nextValueRange) ← foldM (fun next index =>
      let record := recordAt values ValueFieldCount index in
      _ ← verifyRegAllocPackedValueIdentity record aliasSetCount;
      _ ← verifyRegAllocPackedValueRangeFields record;
      next ← verifyRegAllocPackedValueSlices record (length valuePaths) rangeCount next;
      _ ← verifyRegAllocPackedLiveRanges record valueRanges;
      Ok next)
    (0, 0) (seq 0 (length values / ValueFieldCount));
  _ ← check (nextValuePath =? Z.of_nat (length valuePaths));
  _ ← check (nextValueRange =? Z.of_nat rangeCount);
  verifyRegAllocPackedPathComponents valuePaths.

Definition verifyRegAllocPackedAliasSetHeader (record : list Z) (aliasMemberSize : nat)
    (nextAliasMember : Z) : outcome Z :=
  let regClass := field record AliasSetRegClass in
  _ ← check ((PackedSGPR <=? regClass) && (regClass <=? PackedAGPR));
  _ ← check (isRegAllocPackedUnsigned (field record AliasSetWidth)
             && negb (field record AliasSetWidth =? 0));
  _ ← check (field record AliasSetMemberBegin =? nextAliasMember);
  _ ← verifyRegAllocPackedSlice (field record AliasSetMemberBegin)
        (field record AliasSetMemberCount) aliasMemberSize;
  _ ← check (negb (field record AliasSetMemberCount =? 0));
  Ok (nextAliasMember + field record AliasSetMemberCount).
Definition verifyRegAllocPackedAliasSetMembers (setIndex : nat) (record values aliasMembers : list Z)
    (seenValues : list bool) : outcome (list bool) :=
  let memberBegin := Z.to_nat (field record AliasSetMemberBegin) in
  let memberCount := Z.to_nat (field record AliasSetMemberCount) in
  '(seenValues, computedWidth) ← foldM (fun '(seenValues, computedWidth) memberIndex =>
      let valueId := field aliasMembers (memberBegin + memberIndex) in
      _ ← check (isRegAllocPackedUnsigned valueId
                 && (valueId <? Z.of_nat (length seenValues)));
      let unsignedValueId := Z.to_nat valueId in
      _ ← check (negb (default false (seenValues !! unsignedValueId)));
      let value := recordAt values ValueFieldCount unsignedValueId in
      _ ← check ((field value ValueSet =? Z.of_nat setIndex)
                 && (field value ValueRegClass =? field record AliasSetRegClass));
      Ok (<[unsignedValueId := true]> seenValues,
          Z.max computedWidth (field value ValueOffset + field value ValueWidth)))
    (seenValues, 0) (seq 0 memberCount);
  _ ← check (computedWidth =? field record AliasSetWidth);
  Ok seenValues.
Definition verifyRegAllocPackedAliasSets (values aliasSets aliasMembers : list Z) : outcome () :=
  let valueCount := (length values / ValueFieldCount)%nat in
  '(seenValues, nextAliasMember) ← foldM (fun '(seenValues, nextAliasMember) index =>
      let record := recordAt aliasSets AliasSetFieldCount index in
      nextAliasMember ← verifyRegAllocPackedAliasSetHeader record (length aliasMembers)
                          nextAliasMember;
      seenValues ← verifyRegAllocPackedAliasSetMembers index record values aliasMembers seenValues;
      Ok (seenValues, nextAliasMember))
    (replicate valueCount false, 0) (seq 0 (length aliasSets / AliasSetFieldCount));
  _ ← check (nextAliasMember =? Z.of_nat (length aliasMembers));
  check (negb (existsb negb seenValues)).

(** [RegAllocStateAttr::verify]. *)
Definition verifyState (packed : RegAllocStateAttr) : outcome () :=
  _ ← check (pk_version packed =? kVersion);
  _ ← check (length (pk_ops packed) mod OpFieldCount =? 0)%nat;
  _ ← check (length (pk_values packed) mod ValueFieldCount =? 0)%nat;
  _ ← check (length (pk_valueRanges packed) mod RangeFieldCount =? 0)%nat;
  _ ← check (length (pk_aliasSets packed) mod AliasSetFieldCount =? 0)%nat;
  _ ← verifyRegAllocPackedOps (pk_ops packed) (pk_opPaths packed);
  _ ← verifyRegAllocPackedValues (pk_values packed) (pk_valuePaths packed) (pk_valueRanges packed)
        (length (pk_aliasSets packed) / AliasSetFieldCount);
  verifyRegAllocPackedAliasSets (pk_values packed) (pk_aliasSets packed) (pk_aliasMembers packed).

(** ** The parser *)

Definition unpackRegAllocUnsigned (value : Z) : Z := u32 value.
Definition unpackRegAllocClass (value : Z) : outcome RegClass.t :=
  if value =? PackedSGPR then Ok RegClass.SGPR
  else if value =? PackedVGPR then Ok RegClass.VGPR
  else if value =? PackedAGPR then Ok RegClass.AGPR
  else Fatal "verified packed regalloc class is invalid".
Definition unpackRegAllocValueKind (value : Z) : outcome RegAllocTransformValueKind.t :=
  if value =? PackedBlockArgument then Ok RegAllocTransformValueKind.BlockArgument
  else if value =? PackedOpResult then Ok RegAllocTransformValueKind.OpResult
  else Fatal "verified packed regalloc value kind is invalid".

Definition parsePackedValue (packed : RegAllocStateAttr) (id : nat) : outcome RegAllocTransformValue :=
  let record := recordAt (pk_values packed) ValueFieldCount id in
  let unsigned index := unpackRegAllocUnsigned (field record index) in
  regClass ← unpackRegAllocClass (field record ValueRegClass);
  kind ← unpackRegAllocValueKind (field record ValueKind);
  let fixed := field record ValueFixed in
  let path :=
    sliceOf (pk_valuePaths packed) (Z.to_nat (unsigned ValuePathBegin))
      (Z.to_nat (unsigned ValuePathLength)) in
  let ranges :=
    map (fun rangeIndex =>
        let range :=
          recordAt (pk_valueRanges packed) RangeFieldCount
            (Z.to_nat (u32 (unsigned ValueRangeBegin + Z.of_nat rangeIndex))) in
        mkLive (unpackRegAllocUnsigned (field range RangeStart))
          (unpackRegAllocUnsigned (field range RangeEnd)))
      (seq 0 (Z.to_nat (unsigned ValueRangeCount))) in
  Ok (mkLaneValue ranges regClass kind
        (if 0 <=? fixed then Some (unpackRegAllocUnsigned fixed) else None) id
        (Z.to_nat (unsigned ValueSet)) (unsigned ValueStart) (unsigned ValueEnd)
        (unsigned ValueWidth) (unsigned ValueOffset) (unsigned ValueNumber) path).

(** [f] of every element, in order. *)
Definition mapOutcome {A B} (f : A -> outcome B) (l : list A) : outcome (list B) :=
  foldM (fun acc a => b ← f a; Ok (acc ++ [b])) [] l.

Definition parsePackedRegAllocTransformValues (packed : RegAllocStateAttr) :
    outcome (list RegAllocTransformValue) :=
  if negb (pk_version packed =? kVersion) then Failure
  else mapOutcome (parsePackedValue packed) (seq 0 (length (pk_values packed) / ValueFieldCount)).

(** What its members give a set: where it starts and ends, and its ranges. *)
Definition setOfMembers (members : list nat) (regClass : RegClass.t) (id : nat) (width : Z)
    (values : list RegAllocTransformValue) : outcome RegAllocTransformAliasSet :=
  '(start, end_) ← foldM (fun '(start, end_) valueId =>
      value ← at_index values valueId;
      Ok (Z.min start (v_start value), Z.max end_ (v_end value))) (UINT_MAX, 0) members;
  Ok (mkLaneSet members (collectRegAllocTransformAliasSetLiveRanges members values) regClass id
        start end_ width).

Definition parsePackedAliasSet (packed : RegAllocStateAttr) (values : list RegAllocTransformValue)
    (id : nat) : outcome RegAllocTransformAliasSet :=
  let record := recordAt (pk_aliasSets packed) AliasSetFieldCount id in
  let unsigned index := unpackRegAllocUnsigned (field record index) in
  regClass ← unpackRegAllocClass (field record AliasSetRegClass);
  let members :=
    map (fun member => Z.to_nat (unpackRegAllocUnsigned member))
      (sliceOf (pk_aliasMembers packed) (Z.to_nat (unsigned AliasSetMemberBegin))
         (Z.to_nat (unsigned AliasSetMemberCount))) in
  setOfMembers members regClass id (unsigned AliasSetWidth) values.

Definition setLe (lhs rhs : RegAllocTransformAliasSet) : Prop :=
  s_start lhs < s_start rhs \/ s_start lhs = s_start rhs /\ (s_id lhs <= s_id rhs)%nat.
#[export] Instance setLe_dec lhs rhs : Decision (setLe lhs rhs).
Proof. unfold setLe. apply _. Defined.

Definition parsePackedRegAllocTransformAliasSets (packed : RegAllocStateAttr)
    (values : list RegAllocTransformValue) : outcome (list RegAllocTransformAliasSet) :=
  if negb (length values =? length (pk_values packed) / ValueFieldCount)%nat then Failure
  else
    sets ← mapOutcome (parsePackedAliasSet packed values)
             (seq 0 (length (pk_aliasSets packed) / AliasSetFieldCount));
    Ok (merge_sort setLe sets).

(** The values and the sets of [RegAllocTransformDecodedState]. *)
Definition parseDecodedState (packed : RegAllocStateAttr) :
    outcome (list RegAllocTransformValue * list RegAllocTransformAliasSet) :=
  values ← parsePackedRegAllocTransformValues packed;
  sets ← parsePackedRegAllocTransformAliasSets packed values;
  Ok (values, sets).

(** ** The decoded state without the attribute *)

Definition decodedValue (record : RegAllocAliasValue) : RegAllocTransformValue :=
  let type := av_type record in
  mkLaneValue (av_ranges record) (type_class type)
    (if av_blockArgument record then RegAllocTransformValueKind.BlockArgument
     else RegAllocTransformValueKind.OpResult)
    (if 0 <=? type_index type then Some (u32 (type_index type)) else None)
    (av_id record) (av_aliasSet record) (av_start record) (av_end record) (u32 (type_width type))
    (u32 (av_offset record)) (av_number record) (av_path record).

Definition decodedAliasSet (values : list RegAllocTransformValue) (record : RegAllocAliasSet) :
    outcome RegAllocTransformAliasSet :=
  front ← at_index (as_members record) 0;
  first ← at_index values front;
  width ← foldM (fun width valueId =>
      value ← at_index values valueId;
      Ok (Z.max width (u32 (v_offset value + v_width value)))) 0 (as_members record);
  setOfMembers (as_members record) (v_regClass first) (as_id record) width values.

(** The number of sets before the first one of each start: [counts] are those of
    the starts, one after the other. *)
Fixpoint startOffsets (offset : nat) (counts : list nat) : list nat :=
  match counts with
  | [] => []
  | count :: rest => offset :: startOffsets (offset + count) rest
  end.
(** The sets in the order of their starts: a counting sort. *)
Definition startIndex (set : RegAllocTransformAliasSet) : nat := Z.to_nat (s_start set).
Definition countStarts (positions : nat) (setsById : list RegAllocTransformAliasSet) : list nat :=
  foldl (fun counts set => alter S (startIndex set) counts) (replicate positions 0%nat) setsById.
Definition placeSet (state : list nat * list nat) (entry : nat * RegAllocTransformAliasSet) :
    list nat * list nat :=
  let '(setOrder, next) := state in
  let start := startIndex entry.2 in
  (<[default 0%nat (next !! start) := entry.1]> setOrder, alter S start next).
Definition orderSets (positions : nat) (setsById : list RegAllocTransformAliasSet) : list nat :=
  (foldl placeSet
    (replicate (length setsById) 0%nat, startOffsets 0 (countStarts positions setsById))
    (imap pair setsById)).1.
Definition buildDecodedAliasSets (ops : nat) (aliasSets : list RegAllocAliasSet)
    (values : list RegAllocTransformValue) : outcome (list RegAllocTransformAliasSet) :=
  setsById ← mapOutcome (decodedAliasSet values) aliasSets;
  mapOutcome (at_index setsById) (orderSets (ops + 1) setsById).

Definition buildDecodedState (state : AliasState) :
    outcome (list RegAllocTransformValue * list RegAllocTransformAliasSet) :=
  let values := map decodedValue (st_values state) in
  sets ← buildDecodedAliasSets (length (st_ops state)) (st_aliasSets state) values;
  Ok (values, sets).
