(* ===== verification/LanePackSpec.v ===== *)
(** * Verified states and live ranges

    What the verifier of the attribute admits is parsed, and is what the scan assumes
    of its input ([inputOk]); extending a value to a use makes it live on the way to
    the use and nowhere else. *)

From stdpp Require Import base tactics list gmap sorting strings numbers.
From S2P Require Import Prelude MachineIR TicketIR LaneIR LaneScan LaneSpec LanePack.

(** ** Loops *)

Lemma foldM_each {A B} (P : A -> Prop) (f : A -> B -> outcome A) l : forall a r,
  P a -> (forall a b a', b ∈ l -> P a -> f a b = Ok a' -> P a') -> foldM f a l = Ok r ->
  forall b, b ∈ l -> exists a a', P a /\ f a b = Ok a'.
Proof.
  induction l as [|x l IH]; intros a r Ha Hp Hf b; [by intros ?%elem_of_nil|]. cbn [foldM] in Hf.
  destruct (f a x) as [a'| |] eqn:E; [|done|done]. intros [-> |Hb]%elem_of_cons; [by exists a, a'|].
  apply (IH a' r); [by apply (Hp a x); [left| |]|intros a0 b0 a1 Hb0; apply Hp; by right|done|done].
Qed.

Lemma check_Ok test r : check test = Ok r -> test = true.
Proof. by destruct test. Qed.

(** Peel the tests of a hypothesis. *)
Ltac checks :=
  repeat match goal with
  | H : mbind _ (check ?t) = Ok _ |- _ =>
      apply outcome_bind_Ok in H; destruct H as (? & ?%check_Ok & H)
  | H : check _ = Ok _ |- _ => apply check_Ok in H
  end.

Lemma mapOutcome_spec {A B} (f : A -> outcome B) l r :
  mapOutcome f l = Ok r <-> Forall2 (fun a b => f a = Ok b) l r.
Proof.
  unfold mapOutcome.
  assert (forall l acc r, foldM (fun acc a => b ← f a; Ok (acc ++ [b])) acc l = Ok r <->
    exists rest, r = acc ++ rest /\ Forall2 (fun a b => f a = Ok b) l rest) as Hgen.
  { clear. induction l as [|a l IH]; intros acc r; cbn [foldM].
    - split.
      + intros [= ->]. exists []. split; [by rewrite app_nil_r|constructor].
      + intros (rest & -> & Hf%Forall2_nil_inv_l). subst. by rewrite app_nil_r.
    - destruct (f a) as [b| |] eqn:E; simpl.
      + rewrite IH. split.
        * intros (rest & -> & Hf). exists (b :: rest). rewrite <-app_assoc. split; [done|by constructor].
        * intros (rest & -> & (b' & rest' & Hb & Hf & ->)%Forall2_cons_inv_l).
          exists rest'. rewrite <-app_assoc. split; [|done]. simpl. congruence.
      + split; [done|]. intros (rest & _ & (b' & rest' & Hb & _)%Forall2_cons_inv_l). congruence.
      + split; [done|]. intros (rest & _ & (b' & rest' & Hb & _)%Forall2_cons_inv_l). congruence. }
  rewrite Hgen. split; [intros (rest & -> & Hf); done|]. intros Hf. by exists r.
Qed.

Lemma mapOutcome_total {A B} (f : A -> outcome B) l :
  (forall a, a ∈ l -> exists b, f a = Ok b) -> exists r, mapOutcome f l = Ok r.
Proof.
  intros Hf. induction l as [|a l IH].
  - exists []. apply mapOutcome_spec. constructor.
  - destruct (Hf a ltac:(left)) as [b Hb]. destruct IH as [r Hr]; [intros; apply Hf; by right|].
    exists (b :: r). apply mapOutcome_spec. constructor; [done|by apply mapOutcome_spec].
Qed.

Lemma unsigned_range value :
  isRegAllocPackedUnsigned value = true -> 0 <= value < 4294967296 /\ unpackRegAllocUnsigned value = value.
Proof.
  unfold isRegAllocPackedUnsigned, UINT_MAX. rewrite andb_true_iff, !Z.leb_le. intros Hv.
  split; [lia|]. unfold unpackRegAllocUnsigned. apply u32_small. lia.
Qed.

(** ** What the verifier admits *)

Lemma rangesOk_lookup ranges i j r s :
  rangesOk ranges -> ranges !! i = Some r -> ranges !! j = Some s -> (i < j)%nat ->
  live_end r < live_start s.
Proof.
  intros Hok. revert i j. induction Hok as [|x rest Hx Hok IH Hlt]; intros [|i] [|j] Hi Hj Hij;
    simplify_eq/=; try lia.
  - apply Hlt. by apply list_elem_of_lookup_2 in Hj.
  - apply (IH i j); [done|done|lia].
Qed.

Definition rangeAt (slab : list Z) (index : nat) : LiveRange :=
  let range := recordAt slab RangeFieldCount index in
  mkLive (field range RangeStart) (field range RangeEnd).

Definition verifyRange (record valueRanges : list Z) (priorEnd : Z) (rangeIndex : nat) : outcome Z :=
  let range := rangeAt valueRanges (Z.to_nat (field record ValueRangeBegin) + rangeIndex) in
  _ ← check (isRegAllocPackedUnsigned (live_start range) && isRegAllocPackedUnsigned (live_end range)
             && (live_start range <=? live_end range) && (priorEnd <? live_start range));
  _ ← check (negb (rangeIndex =? 0)%nat || (live_start range =? field record ValueStart));
  _ ← check (negb (S rangeIndex =? Z.to_nat (field record ValueRangeCount))%nat
             || (live_end range =? field record ValueEnd));
  Ok (live_end range).

Lemma verifyRange_Ok record slab prior k r :
  verifyRange record slab prior k = Ok r ->
  let range := rangeAt slab (Z.to_nat (field record ValueRangeBegin) + k) in
  r = live_end range /\ prior < live_start range <= live_end range /\
  0 <= live_start range /\ live_end range < 4294967296 /\
  (k = 0%nat -> live_start range = field record ValueStart) /\
  (S k = Z.to_nat (field record ValueRangeCount) -> live_end range = field record ValueEnd).
Proof.
  unfold verifyRange. intros H. cbv zeta in H |- *. set (range := rangeAt _ _) in *. checks.
  injection H as <-.
  repeat match goal with H : _ && _ = true |- _ => apply andb_true_iff in H as [? ?] end.
  repeat match goal with H : isRegAllocPackedUnsigned _ = true |- _ => apply unsigned_range in H as [? ?] end.
  rewrite ?Z.leb_le, ?Z.ltb_lt in *. split; [done|]. split; [lia|]. split; [lia|]. split; [lia|].
  split; intros Hk.
  - destruct (Nat.eqb_spec k 0); [|done]. simpl in *. by apply Z.eqb_eq.
  - destruct (Nat.eqb_spec (S k) (Z.to_nat (field record ValueRangeCount))); [|done].
    simpl in *. by apply Z.eqb_eq.
Qed.

Lemma verifyRanges_ok record slab n : forall s prior r,
  foldM (verifyRange record slab) prior (seq s n) = Ok r ->
  let ranges := map (fun k => rangeAt slab (Z.to_nat (field record ValueRangeBegin) + k)) (seq s n) in
  rangesOk ranges /\ forall range, range ∈ ranges -> prior < live_start range.
Proof.
  induction n as [|n IH]; intros s prior r; cbv zeta; cbn [seq foldM map].
  { intros _. split; [constructor|by intros ? ?%elem_of_nil]. }
  destruct (verifyRange record slab prior s) as [e| |] eqn:E; [|done|done].
  apply verifyRange_Ok in E as (-> & Hr & _). intros Hf. destruct (IH _ _ _ Hf) as [Hok Hlt].
  split.
  - constructor; [lia|done|]. intros r' Hr'. by apply Hlt.
  - intros range [-> |Hr']%elem_of_cons; [lia|]. specialize (Hlt _ Hr'). lia.
Qed.

(** The ranges of a record that was verified. *)
Lemma verifyLiveRanges_ok record slab :
  verifyRegAllocPackedLiveRanges record slab = Ok () ->
  let n := Z.to_nat (field record ValueRangeCount) in
  let ranges := map (fun k => rangeAt slab (Z.to_nat (field record ValueRangeBegin) + k)) (seq 0 n) in
  rangesOk ranges /\
  (forall range, range ∈ ranges -> 0 <= live_start range /\ live_end range < 4294967296) /\
  forall p, inRanges p ranges -> field record ValueStart <= p <= field record ValueEnd.
Proof.
  intros H n ranges. unfold verifyRegAllocPackedLiveRanges in H. apply outcome_bind_Ok in H as (e & H & _).
  change (foldM (verifyRange record slab) (-1) (seq 0 n) = Ok e) in H.
  destruct (verifyRanges_ok _ _ _ _ _ _ H) as [Hok _]. fold ranges in Hok.
  assert (forall k, (k < n)%nat -> exists prior r, verifyRange record slab prior k = Ok r) as Heach.
  { intros k Hk. destruct (foldM_each (fun _ => True) _ _ _ _ I ltac:(done) H k) as (a & a' & _ & Ha);
      [apply elem_of_seq; lia|]. by exists a, a'. }
  assert (forall k range, ranges !! k = Some range -> (k < n)%nat /\
    range = rangeAt slab (Z.to_nat (field record ValueRangeBegin) + k)) as Hlookup.
  { intros k range Hk. unfold ranges in Hk. rewrite list_lookup_fmap in Hk.
    apply fmap_Some in Hk as (k' & Hk & ->). apply lookup_seq in Hk as [-> Hk]. done. }
  split; [done|]. split.
  - intros range Hr. apply list_elem_of_lookup in Hr as [k Hk].
    apply Hlookup in Hk as [Hk ->]. destruct (Heach k Hk) as (prior & r & Hv).
    apply verifyRange_Ok in Hv as (_ & _ & ? & ? & _). done.
  - intros p (range & Hr & Hp). apply list_elem_of_lookup in Hr as [k Hk].
    pose proof (Hlookup k range Hk) as [Hkn _]. unfold liveAt in Hp. split.
    + destruct (lookup_lt_is_Some_2 ranges 0) as [first Hfirst]; [apply lookup_lt_Some in Hk; lia|].
      pose proof (Hlookup _ _ Hfirst) as [H0 Heq]. destruct (Heach 0%nat H0) as (prior & r & Hv).
      apply verifyRange_Ok in Hv as (_ & Hle & _ & _ & Hs & _). rewrite <-Heq in *.
      specialize (Hs eq_refl).
      destruct (decide (k = 0%nat)) as [-> |Hne]; [simplify_eq; lia|].
      pose proof (rangesOk_lookup ranges 0 k first range Hok Hfirst Hk ltac:(lia)). lia.
    + destruct (lookup_lt_is_Some_2 ranges (n - 1)) as [last Hlast].
      { unfold ranges. rewrite length_map, length_seq. lia. }
      pose proof (Hlookup _ _ Hlast) as [H0 Heq]. destruct (Heach (n - 1)%nat H0) as (prior & r & Hv).
      apply verifyRange_Ok in Hv as (_ & Hle & _ & _ & _ & Hs). rewrite <-Heq in *.
      specialize (Hs ltac:(lia)).
      destruct (decide (k = (n - 1)%nat)) as [-> |Hne]; [simplify_eq; lia|].
      pose proof (rangesOk_lookup ranges k (n - 1) range last Hok Hk Hlast ltac:(lia)). lia.
Qed.

Definition valueRecord (packed : RegAllocStateAttr) (id : nat) : list Z :=
  recordAt (pk_values packed) ValueFieldCount id.
Definition valueCount (packed : RegAllocStateAttr) : nat := length (pk_values packed) / ValueFieldCount.
Definition setRecord (packed : RegAllocStateAttr) (id : nat) : list Z :=
  recordAt (pk_aliasSets packed) AliasSetFieldCount id.
Definition setCount (packed : RegAllocStateAttr) : nat :=
  length (pk_aliasSets packed) / AliasSetFieldCount.

(** A record of a value that the verifier admits. *)
Record valueRecordOk (packed : RegAllocStateAttr) (record : list Z) : Prop := {
  record_class : PackedSGPR <= field record ValueRegClass <= PackedAGPR;
  record_kind : PackedBlockArgument <= field record ValueKind <= PackedOpResult;
  record_fixed : field record ValueFixed = -1 \/
    isRegAllocPackedUnsigned (field record ValueFixed) = true;
  record_set : isRegAllocPackedUnsigned (field record ValueSet) = true /\
    field record ValueSet < Z.of_nat (setCount packed);
  record_start : isRegAllocPackedUnsigned (field record ValueStart) = true;
  record_end : isRegAllocPackedUnsigned (field record ValueEnd) = true;
  record_width : isRegAllocPackedUnsigned (field record ValueWidth) = true /\
    field record ValueWidth <> 0;
  record_offset : isRegAllocPackedUnsigned (field record ValueOffset) = true;
  record_number : isRegAllocPackedUnsigned (field record ValueNumber) = true;
  record_rangeBegin : isRegAllocPackedUnsigned (field record ValueRangeBegin) = true;
  record_rangeCount : isRegAllocPackedUnsigned (field record ValueRangeCount) = true;
  record_rangeFits : field record ValueRangeBegin + field record ValueRangeCount
    <= Z.of_nat (length (pk_valueRanges packed) / RangeFieldCount);
  record_ranges : verifyRegAllocPackedLiveRanges record (pk_valueRanges packed) = Ok ()
}.

(** Peel tests and binds, and split conjunctions of tests. *)
Ltac peel :=
  repeat match goal with
  | H : mbind _ _ = Ok _ |- _ => apply outcome_bind_Ok in H; destruct H as (? & ? & H)
  | H : check _ = Ok _ |- _ => apply check_Ok in H
  | H : _ && _ = true |- _ => apply andb_true_iff in H; destruct H
  | H : _ || _ = true |- _ => apply orb_true_iff in H
  | H : negb _ = true |- _ => apply negb_true_iff in H
  | H : (_ <=? _) = true |- _ => apply Z.leb_le in H
  | H : (_ <? _) = true |- _ => apply Z.ltb_lt in H
  | H : (_ =? _) = true |- _ => apply Z.eqb_eq in H
  | H : (_ =? _) = false |- _ => apply Z.eqb_neq in H
  | x : () |- _ => destruct x
  end.

Lemma slice_Ok begin count size r :
  verifyRegAllocPackedSlice begin count size = Ok r ->
  isRegAllocPackedUnsigned begin = true /\ isRegAllocPackedUnsigned count = true /\
  begin + count <= Z.of_nat size.
Proof. unfold verifyRegAllocPackedSlice. intros H. peel. split; [done|]. split; [done|lia]. Qed.

Lemma verified_values packed :
  verifyRegAllocPackedValues (pk_values packed) (pk_valuePaths packed) (pk_valueRanges packed)
    (setCount packed) = Ok () ->
  forall id, (id < valueCount packed)%nat -> valueRecordOk packed (valueRecord packed id).
Proof.
  intros H id Hid. unfold verifyRegAllocPackedValues in H. apply outcome_bind_Ok in H as (e & H & _).
  destruct (foldM_each (fun _ => True) _ _ _ _ I ltac:(done) H id) as (a & a' & _ & Hstep).
  { apply elem_of_seq. unfold valueCount in Hid. lia. }
  clear H. rename Hstep into H. fold (valueRecord packed id) in H. set (record := valueRecord packed id) in *.
  apply outcome_bind_Ok in H as (? & Hident & H). apply outcome_bind_Ok in H as (? & Hfields & H).
  apply outcome_bind_Ok in H as (? & Hslices & H). apply outcome_bind_Ok in H as ([] & Hranges & _).
  unfold verifyRegAllocPackedValueIdentity in Hident. unfold verifyRegAllocPackedValueRangeFields in Hfields.
  unfold verifyRegAllocPackedValueSlices in Hslices. destruct a as [nextPath nextRange].
  apply outcome_bind_Ok in Hslices as (? & _ & Hslices). apply outcome_bind_Ok in Hslices as (? & _ & Hslices).
  apply outcome_bind_Ok in Hslices as (? & _ & Hslices). apply outcome_bind_Ok in Hslices as (? & _ & Hslices).
  apply outcome_bind_Ok in Hslices as (? & Hslice & _). apply slice_Ok in Hslice as (? & ? & ?).
  peel. split; auto.
  match goal with H : _ \/ _ |- _ => destruct H as [?%Z.eqb_eq|]; auto end.
Qed.

(** It parses as a value with its ranges. *)
Lemma parsePackedValue_ok packed id :
  valueRecordOk packed (valueRecord packed id) ->
  Z.of_nat (length (pk_valueRanges packed)) <= 8589934592 ->
  exists value, parsePackedValue packed id = Ok value /\
    v_id value = id /\ Z.of_nat (v_set value) = field (valueRecord packed id) ValueSet /\
    v_offset value = field (valueRecord packed id) ValueOffset /\
    v_width value = field (valueRecord packed id) ValueWidth /\
    unpackRegAllocClass (field (valueRecord packed id) ValueRegClass) = Ok (v_regClass value) /\
    rangesOk (v_ranges value) /\
    forall p, inRanges p (v_ranges value) -> v_start value <= p <= v_end value.
Proof.
  intros [Hclass Hkind _ [Hset _] Hstart Hend [Hwidth _] Hoff _ Hrb Hrc Hfits Hranges] Hlen.
  set (record := valueRecord packed id) in *.
  apply unsigned_range in Hset as [? Hset], Hstart as [_ Hstart], Hend as [_ Hend],
    Hwidth as [_ Hwidth], Hoff as [_ Hoff], Hrb as [Hrb0 Hrb], Hrc as [Hrc0 Hrc].
  destruct (verifyLiveRanges_ok _ _ Hranges) as (Hok & Hbounds & Henv).
  assert (exists c, unpackRegAllocClass (field record ValueRegClass) = Ok c) as [c Hc].
  { unfold unpackRegAllocClass, PackedSGPR, PackedVGPR, PackedAGPR in *.
    repeat (case_match; [by eexists|]). rewrite ?Z.eqb_neq in *. lia. }
  assert (exists k, unpackRegAllocValueKind (field record ValueKind) = Ok k) as [k Hk].
  { unfold unpackRegAllocValueKind, PackedBlockArgument, PackedOpResult in *.
    repeat (case_match; [by eexists|]). rewrite ?Z.eqb_neq in *. lia. }
  unfold parsePackedValue. fold (valueRecord packed id). fold record. rewrite Hc, Hk. simpl.
  eexists. split; [done|]. simpl. rewrite Hset, Hoff, Hwidth, Hstart, Hend, Hrb, Hrc.
  match goal with |- context [rangesOk ?l] => assert (l = map (fun k =>
    rangeAt (pk_valueRanges packed) (Z.to_nat (field record ValueRangeBegin) + k))
    (seq 0 (Z.to_nat (field record ValueRangeCount)))) as -> end.
  - apply list_fmap_ext. intros i j Hj. apply lookup_seq in Hj as [-> Hj]. rewrite Nat.add_0_l.
    assert (Z.of_nat (length (pk_valueRanges packed) / RangeFieldCount) <= 4294967296) as Hcount.
    { unfold RangeFieldCount. rewrite Nat2Z.inj_div. change (Z.of_nat 2) with 2.
      apply Z.div_le_upper_bound; lia. }
    rewrite (u32_small (field record ValueRangeBegin + Z.of_nat i)) by lia.
    replace (Z.to_nat (field record ValueRangeBegin + Z.of_nat i))
      with (Z.to_nat (field record ValueRangeBegin) + i)%nat by lia.
    specialize (Hbounds (rangeAt (pk_valueRanges packed) (Z.to_nat (field record ValueRangeBegin) + i))).
    destruct Hbounds as [Hb1 Hb2].
    { apply list_elem_of_fmap. exists i. split; [done|]. apply elem_of_seq. lia. }
    assert (live_start (rangeAt (pk_valueRanges packed) (Z.to_nat (field record ValueRangeBegin) + i)) <=
      live_end (rangeAt (pk_valueRanges packed) (Z.to_nat (field record ValueRangeBegin) + i))) as Hle.
    { apply (rangesOk_elem _ _ Hok), list_elem_of_fmap. exists i. split; [done|]. apply elem_of_seq. lia. }
    unfold rangeAt in *. simpl in *. unfold unpackRegAllocUnsigned. by rewrite !u32_small by lia.
  - split; [done|]. split; [lia|]. done.
Qed.

(** One member of a set. *)
Definition verifyMember (setIndex : nat) (record values aliasMembers : list Z) :
    list bool * Z -> nat -> outcome (list bool * Z) := fun '(seenValues, computedWidth) memberIndex =>
  let valueId := field aliasMembers (Z.to_nat (field record AliasSetMemberBegin) + memberIndex) in
  _ ← check (isRegAllocPackedUnsigned valueId && (valueId <? Z.of_nat (length seenValues)));
  let unsignedValueId := Z.to_nat valueId in
  _ ← check (negb (default false (seenValues !! unsignedValueId)));
  let value := recordAt values ValueFieldCount unsignedValueId in
  _ ← check ((field value ValueSet =? Z.of_nat setIndex)
             && (field value ValueRegClass =? field record AliasSetRegClass));
  Ok (<[unsignedValueId := true]> seenValues,
      Z.max computedWidth (field value ValueOffset + field value ValueWidth)).

Lemma verifyMembers_ok setIndex record values members n : forall s seen width seen' width',
  foldM (verifyMember setIndex record values members) (seen, width) (seq s n) = Ok (seen', width') ->
  length seen' = length seen /\ width <= width' /\
  (forall k, (s <= k < s + n)%nat ->
    let id := field members (Z.to_nat (field record AliasSetMemberBegin) + k) in
    let value := recordAt values ValueFieldCount (Z.to_nat id) in
    isRegAllocPackedUnsigned id = true /\ id < Z.of_nat (length seen) /\
    field value ValueSet = Z.of_nat setIndex /\
    field value ValueRegClass = field record AliasSetRegClass /\
    field value ValueOffset + field value ValueWidth <= width') /\
  (forall id, seen' !! id = Some true -> seen !! id = Some true \/
    exists k, (s <= k < s + n)%nat /\
      Z.to_nat (field members (Z.to_nat (field record AliasSetMemberBegin) + k)) = id).
Proof.
  induction n as [|n IH]; intros s seen width seen' width'; cbn [seq foldM].
  { intros [= <- <-]. split; [done|]. split; [lia|]. split; [lia|]. by left. }
  destruct (verifyMember setIndex record values members (seen, width) s) as [[seen1 width1]| |] eqn:E;
    [|done|done].
  intros Hf. destruct (IH _ _ _ _ _ Hf) as (Hlen & Hw & Hk & Hseen). unfold verifyMember in E.
  set (id := field members _) in E. cbv zeta in E. peel. injection E as <- <-.
  rewrite length_insert in *. split; [done|]. split; [lia|]. split.
  - intros k Hr. destruct (decide (k = s)) as [-> |Hne].
    + fold id. cbv zeta. split; [done|]. split; [done|]. split; [done|]. split; [done|]. lia.
    + apply Hk. lia.
  - intros i [Hi|(k & Hr & Hid)]%Hseen.
    + destruct (decide (i = Z.to_nat id)) as [-> |Hne].
      * right. exists s. split; [lia|done].
      * left. by rewrite list_lookup_insert_ne in Hi.
    + right. exists k. split; [lia|done].
Qed.

(** A record of a set that the verifier admits. *)
Record setRecordOk (packed : RegAllocStateAttr) (id : nat) : Prop := {
  setRecord_class :
    PackedSGPR <= field (setRecord packed id) AliasSetRegClass <= PackedAGPR;
  setRecord_width : isRegAllocPackedUnsigned (field (setRecord packed id) AliasSetWidth) = true /\
    field (setRecord packed id) AliasSetWidth <> 0;
  setRecord_begin :
    isRegAllocPackedUnsigned (field (setRecord packed id) AliasSetMemberBegin) = true;
  setRecord_count :
    isRegAllocPackedUnsigned (field (setRecord packed id) AliasSetMemberCount) = true;
  setRecord_fits : field (setRecord packed id) AliasSetMemberBegin
    + field (setRecord packed id) AliasSetMemberCount <= Z.of_nat (length (pk_aliasMembers packed));
  setRecord_members k :
    (k < Z.to_nat (field (setRecord packed id) AliasSetMemberCount))%nat ->
    let member :=
      field (pk_aliasMembers packed)
        (Z.to_nat (field (setRecord packed id) AliasSetMemberBegin) + k) in
    let value := valueRecord packed (Z.to_nat member) in
    isRegAllocPackedUnsigned member = true /\ (Z.to_nat member < valueCount packed)%nat /\
    field value ValueSet = Z.of_nat id /\
    field value ValueRegClass = field (setRecord packed id) AliasSetRegClass /\
    field value ValueOffset + field value ValueWidth <= field (setRecord packed id) AliasSetWidth
}.

Definition verifySet (packed : RegAllocStateAttr) :
    list bool * Z -> nat -> outcome (list bool * Z) := fun '(seenValues, nextAliasMember) index =>
  nextAliasMember ← verifyRegAllocPackedAliasSetHeader (setRecord packed index)
                      (length (pk_aliasMembers packed)) nextAliasMember;
  seenValues ← verifyRegAllocPackedAliasSetMembers index (setRecord packed index)
                 (pk_values packed) (pk_aliasMembers packed) seenValues;
  Ok (seenValues, nextAliasMember).

Lemma verifySet_ok packed seen next index r :
  verifySet packed (seen, next) index = Ok r -> length seen = valueCount packed ->
  length r.1 = valueCount packed /\ setRecordOk packed index /\
  forall id, r.1 !! id = Some true -> seen !! id = Some true \/
    exists k, (k < Z.to_nat (field (setRecord packed index) AliasSetMemberCount))%nat /\
      Z.to_nat (field (pk_aliasMembers packed)
        (Z.to_nat (field (setRecord packed index) AliasSetMemberBegin) + k)) = id.
Proof.
  unfold verifySet. set (record := setRecord packed index). intros H Hlen.
  apply outcome_bind_Ok in H as (n & Hheader & H). apply outcome_bind_Ok in H as (seen' & Hmembers & H).
  injection H as <-. unfold verifyRegAllocPackedAliasSetHeader in Hheader.
  apply outcome_bind_Ok in Hheader as (? & Hclass & Hheader).
  apply outcome_bind_Ok in Hheader as (? & Hwidth & Hheader).
  apply outcome_bind_Ok in Hheader as (? & _ & Hheader).
  apply outcome_bind_Ok in Hheader as (? & Hslice%slice_Ok & Hheader).
  destruct Hslice as (Hbegin & Hcount & Hfits).
  unfold verifyRegAllocPackedAliasSetMembers in Hmembers.
  apply outcome_bind_Ok in Hmembers as ([seen1 width] & Hm & Hmembers).
  change (foldM (verifyMember index record (pk_values packed) (pk_aliasMembers packed)) (seen, 0)
    (seq 0 (Z.to_nat (field record AliasSetMemberCount))) = Ok (seen1, width)) in Hm.
  apply verifyMembers_ok in Hm as (Hlen1 & _ & Hk & Hseen).
  peel. injection Hmembers as <-. simpl. split; [congruence|]. split.
  - split; fold record; [lia|done|done|done|done|]. intros k Hkn member value.
    destruct (Hk k ltac:(lia)) as (Hm1 & Hm2 & Hm3 & Hm4 & Hm5). fold member in Hm1, Hm2, Hm3, Hm4, Hm5.
    pose proof (unsigned_range _ Hm1) as [? _].
    split; [done|]. split; [lia|]. split; [done|]. split; [done|].
    unfold value, valueRecord. lia.
  - intros id [|(k & ? & Hid)]%Hseen; [by left|]. right. exists k. split; [lia|done].
Qed.

Lemma verified_sets packed :
  verifyRegAllocPackedAliasSets (pk_values packed) (pk_aliasSets packed) (pk_aliasMembers packed) = Ok () ->
  (forall id, (id < setCount packed)%nat -> setRecordOk packed id) /\
  forall value, (value < valueCount packed)%nat ->
    exists id k, (id < setCount packed)%nat /\
      (k < Z.to_nat (field (setRecord packed id) AliasSetMemberCount))%nat /\
      Z.to_nat (field (pk_aliasMembers packed)
        (Z.to_nat (field (setRecord packed id) AliasSetMemberBegin) + k)) = value.
Proof.
  unfold verifyRegAllocPackedAliasSets. intros H. apply outcome_bind_Ok in H as ([seen next] & H & Hend).
  change (foldM (verifySet packed) (replicate (valueCount packed) false, 0) (seq 0 (setCount packed))
    = Ok (seen, next)) in H.
  split.
  - intros id Hid.
    assert (length (replicate (valueCount packed) false, 0).1 = valueCount packed) as Hinit
      by apply length_replicate.
    assert (forall state (b : nat) a', b ∈ seq 0 (setCount packed) ->
      length state.1 = valueCount packed -> verifySet packed state b = Ok a' ->
      length a'.1 = valueCount packed) as Hkeep.
    { intros [seen1 next1] b a' _ Hlen Hstep. by apply verifySet_ok in Hstep as (? & _). }
    destruct (foldM_each (fun state : list bool * Z => length state.1 = valueCount packed) _ _ _ _
      Hinit Hkeep H id) as ([seen1 next1] & r & Hlen & Hstep); [apply elem_of_seq; lia|].
    by apply verifySet_ok in Hstep as (_ & Hok & _).
  - intros value Hv. peel.
    assert (forall ids state r, (forall id, id ∈ ids -> (id < setCount packed)%nat) ->
      length state.1 = valueCount packed -> foldM (verifySet packed) state ids = Ok r ->
      length r.1 = valueCount packed /\ forall value, r.1 !! value = Some true -> state.1 !! value = Some true \/
        exists id k, (id < setCount packed)%nat /\
          (k < Z.to_nat (field (setRecord packed id) AliasSetMemberCount))%nat /\
          Z.to_nat (field (pk_aliasMembers packed)
            (Z.to_nat (field (setRecord packed id) AliasSetMemberBegin) + k)) = value) as Hgen.
    { induction ids as [|id ids IH]; intros [seen1 next1] r Hids Hlen; cbn [foldM].
      - intros [= <-]. split; [done|]. by left.
      - destruct (verifySet packed (seen1, next1) id) as [state'| |] eqn:E; [|done|done].
        apply verifySet_ok in E as (Hlen' & _ & Hseen); [|done]. intros Hf.
        apply IH in Hf as [Hlen2 Hf]; [|intros; apply Hids; by right|done]. split; [done|].
        intros v [[Hv'|(k & Hk & Hv')]%Hseen|Hv']%Hf; [by left| |by right].
        right. exists id, k. split; [apply Hids; left|done]. }
    destruct (Hgen (seq 0 (setCount packed)) (replicate (valueCount packed) false, 0) (seen, next))
      as [Hlen Hseen]; [intros id Hid; apply elem_of_seq in Hid; lia|apply length_replicate|done|]. simpl in Hlen, Hseen.
    destruct (lookup_lt_is_Some_2 seen value) as [b Hb]; [lia|].
    assert (b = true) as ->.
    { destruct b; [done|]. exfalso.
      match goal with H : existsb negb seen = false |- _ => rewrite <-not_true_iff_false in H; apply H end.
      apply existsb_exists. exists false. split; [|done]. apply list_elem_of_In.
      by apply list_elem_of_lookup_2 in Hb. }
    destruct (Hseen value Hb) as [Hno|]; [|done].
    apply lookup_replicate in Hno as [? _]. done.
Qed.

(** ** The state that is parsed *)

Lemma setOfMembers_ok members regClass id width values :
  (forall m, m ∈ members -> is_Some (values !! m)) ->
  exists set, setOfMembers members regClass id width values = Ok set /\
    s_members set = members /\ s_regClass set = regClass /\ s_id set = id /\ s_width set = width /\
    s_ranges set = collectRegAllocTransformAliasSetLiveRanges members values /\
    forall m v, m ∈ members -> values !! m = Some v -> s_start set <= v_start v /\ v_end v <= s_end set.
Proof.
  intros Hvalues. unfold setOfMembers.
  match goal with |- context [foldM ?f _ _] => set (step := f) end.
  assert (forall members start end_, (forall m, m ∈ members -> is_Some (values !! m)) ->
    exists start' end', foldM step (start, end_) members = Ok (start', end') /\
      start' <= start /\ end_ <= end' /\
      forall m v, m ∈ members -> values !! m = Some v -> start' <= v_start v /\ v_end v <= end') as Hgen.
  { clear Hvalues. induction members0 as [|m ms IH]; intros start end_ Hms; cbn [foldM].
    - exists start, end_. split; [done|]. split; [lia|]. split; [lia|]. by intros ? ? ?%elem_of_nil.
    - destruct (Hms m ltac:(left)) as [v Hv].
      assert (step (start, end_) m = Ok (Z.min start (v_start v), Z.max end_ (v_end v))) as ->
        by (unfold step, at_index; by rewrite Hv).
      destruct (IH (Z.min start (v_start v)) (Z.max end_ (v_end v))) as (s' & e' & -> & Hs & He & Hall).
      { intros. apply Hms. by right. }
      exists s', e'. split; [done|]. split; [lia|]. split; [lia|].
      intros m' v' [-> |Hm']%elem_of_cons Hv'; [simplify_eq; lia|by apply (Hall m')]. }
  destruct (Hgen members UINT_MAX 0 Hvalues) as (start & end_ & -> & _ & _ & Hall). simpl.
  eexists. split; [done|]. simpl. done.
Qed.

#[local] Instance setLe_total : Total setLe.
Proof. intros a b. unfold setLe. lia. Qed.
#[local] Instance setLe_trans : Transitive setLe.
Proof. intros a b c. unfold setLe. lia. Qed.

(** What a verified state parses as: values and sets on which the scan may run. *)
Record decodedOk (values : list RegAllocTransformValue) (sets : list RegAllocTransformAliasSet) :
    Prop := {
  decoded_ids i v : values !! i = Some v -> v_id v = i;
  decoded_offsets v : v ∈ values -> 0 <= v_offset v;
  decoded_sets set : set ∈ sets -> setOk values set;
  decoded_sorted : StronglySorted setLe sets;
  decoded_setIds : NoDup (map s_id sets);
  decoded_member v : v ∈ values -> exists set, set ∈ sets /\ s_id set = v_set v /\ v_id v ∈ s_members set;
  decoded_classes set m v : set ∈ sets -> m ∈ s_members set -> values !! m = Some v ->
    v_regClass v = s_regClass set
}.

(** The scan may run on them. *)
Lemma decodedOk_input input :
  decodedOk (in_values input) (in_sets input) ->
  (forall limits, in_limits input = Ok (Some limits) -> 0 <= vgprTupleAlignment limits) ->
  inputOk input.
Proof.
  intros [Hids Hoff Hsets Hsorted _ _ _] Hlimits. split; [done| |done|done].
  intros i j a b Ha Hb Hij. destruct (decide (i = j)) as [-> |Hne]; [simplify_eq; lia|].
  clear Hsets Hoff Hids. revert i j Ha Hb Hij Hne.
  induction Hsorted as [|x rest Hs IH Hle]; intros [|i] [|j] Ha Hb Hij Hne; simplify_eq/=; try lia.
  - rewrite Forall_forall in Hle. apply list_elem_of_lookup_2, list_elem_of_In in Hb. specialize (Hle _ Hb).
    unfold setLe in Hle. lia.
  - apply (IH i j); [done|done|lia|lia].
Qed.

Section Parse.
Context (packed : RegAllocStateAttr).
Context (Hverify : verifyState packed = Ok ()).
Context (Hlen : Z.of_nat (length (pk_valueRanges packed)) <= 8589934592).
#[local] Set Default Proof Using "All".

Lemma verified_parts :
  pk_version packed = kVersion /\
  (forall id, (id < valueCount packed)%nat -> valueRecordOk packed (valueRecord packed id)) /\
  (forall id, (id < setCount packed)%nat -> setRecordOk packed id) /\
  forall value, (value < valueCount packed)%nat ->
    exists id k, (id < setCount packed)%nat /\
      (k < Z.to_nat (field (setRecord packed id) AliasSetMemberCount))%nat /\
      Z.to_nat (field (pk_aliasMembers packed)
        (Z.to_nat (field (setRecord packed id) AliasSetMemberBegin) + k)) = value.
Proof.
  unfold verifyState in Hverify. pose proof Hverify as H. clear Hverify.
  apply outcome_bind_Ok in H as (? & Hversion%check_Ok%Z.eqb_eq & H).
  do 4 (apply outcome_bind_Ok in H as (? & _ & H)). apply outcome_bind_Ok in H as (? & _ & H).
  apply outcome_bind_Ok in H as ([] & Hvalues & Hsets).
  destruct (verified_sets _ Hsets) as [Hs Hm]. split; [done|]. split; [by apply verified_values|done].
Qed.

Lemma parsed_values :
  exists values, parsePackedRegAllocTransformValues packed = Ok values /\
    length values = valueCount packed /\
    forall id v, values !! id = Some v ->
      parsePackedValue packed id = Ok v /\ v_id v = id /\
      Z.of_nat (v_set v) = field (valueRecord packed id) ValueSet /\
      v_offset v = field (valueRecord packed id) ValueOffset /\
      v_width v = field (valueRecord packed id) ValueWidth /\
      unpackRegAllocClass (field (valueRecord packed id) ValueRegClass) = Ok (v_regClass v) /\
      rangesOk (v_ranges v) /\
      forall p, inRanges p (v_ranges v) -> v_start v <= p <= v_end v.
Proof.
  destruct verified_parts as (Hversion & Hvalues & _).
  unfold parsePackedRegAllocTransformValues. rewrite Hversion. cbn [negb Z.eqb kVersion Pos.eqb].
  fold (valueCount packed).
  destruct (mapOutcome_total (parsePackedValue packed) (seq 0 (valueCount packed))) as [values Hmap].
  { intros id Hid. apply elem_of_seq in Hid.
    destruct (parsePackedValue_ok packed id (Hvalues id ltac:(lia)) Hlen) as (v & Hv & _). by exists v. }
  exists values. split; [done|]. apply mapOutcome_spec in Hmap. split.
  - apply Forall2_length in Hmap. by rewrite length_seq in Hmap.
  - intros id v Hid. destruct (Forall2_lookup_r _ _ _ _ _ Hmap Hid) as (id' & Hseq & Hparse).
    apply lookup_seq in Hseq as [-> Hlt]. simpl in *. split; [done|].
    destruct (parsePackedValue_ok packed id (Hvalues id Hlt) Hlen) as (v' & Hv' & Hrest).
    assert (v' = v) as -> by congruence. done.
Qed.

Lemma unpackClass_total value : PackedSGPR <= value <= PackedAGPR ->
  exists c, unpackRegAllocClass value = Ok c.
Proof.
  unfold unpackRegAllocClass, PackedSGPR, PackedVGPR, PackedAGPR. intros Hv.
  repeat (case_match; [by eexists|]). rewrite ?Z.eqb_neq in *. lia.
Qed.

(** The members of a set, as they are parsed. *)
Definition membersAt (id : nat) : list nat :=
  map (fun k => Z.to_nat (field (pk_aliasMembers packed)
    (Z.to_nat (field (setRecord packed id) AliasSetMemberBegin) + k)))
    (seq 0 (Z.to_nat (field (setRecord packed id) AliasSetMemberCount))).

Lemma sliceOf_map slab begin count :
  (begin + count <= length slab)%nat ->
  sliceOf slab begin count = map (fun k => field slab (begin + k)) (seq 0 count).
Proof.
  intros Hfits. unfold sliceOf. apply list_eq. intros k. rewrite list_lookup_fmap.
  destruct (decide (k < count)%nat) as [Hk|Hk].
  - rewrite lookup_take_lt by done. rewrite lookup_drop, lookup_seq_lt by done. simpl.
    unfold field. destruct (slab !! (begin + k)%nat) eqn:E; [done|].
    apply lookup_ge_None in E. lia.
  - rewrite lookup_take_ge by lia. rewrite lookup_seq_ge by lia. done.
Qed.

Lemma parsed_set values id :
  parsePackedRegAllocTransformValues packed = Ok values -> (id < setCount packed)%nat ->
  exists set, parsePackedAliasSet packed values id = Ok set /\ s_id set = id /\
    s_members set = membersAt id /\ setOk values set /\
    unpackRegAllocClass (field (setRecord packed id) AliasSetRegClass) = Ok (s_regClass set).
Proof.
  intros Hparse Hid. destruct verified_parts as (_ & _ & Hsets & _).
  destruct parsed_values as (values' & Hparse' & Hlength & Hvalues).
  assert (values' = values) as -> by congruence.
  destruct (Hsets id Hid) as [Hclass [Hwidth Hne] Hbegin Hcount Hfits Hmembers].
  pose proof (unsigned_range _ Hwidth) as [Hwr Hw]. pose proof (unsigned_range _ Hbegin) as [Hbr Hb].
  pose proof (unsigned_range _ Hcount) as [Hcr Hc].
  destruct (unpackClass_total _ Hclass) as [c Hcl].
  unfold parsePackedAliasSet. fold (setRecord packed id). rewrite Hcl, Hb, Hc, Hw. simpl.
  assert (map (fun member => Z.to_nat (unpackRegAllocUnsigned member))
    (sliceOf (pk_aliasMembers packed) (Z.to_nat (field (setRecord packed id) AliasSetMemberBegin))
       (Z.to_nat (field (setRecord packed id) AliasSetMemberCount))) = membersAt id) as ->.
  { rewrite sliceOf_map by lia. rewrite map_map. apply map_ext_in. intros k Hk%in_seq.
    f_equal. apply unsigned_range. apply Hmembers. lia. }
  assert (forall m, m ∈ membersAt id -> (m < valueCount packed)%nat /\
    field (valueRecord packed m) ValueSet = Z.of_nat id /\
    field (valueRecord packed m) ValueRegClass = field (setRecord packed id) AliasSetRegClass /\
    field (valueRecord packed m) ValueOffset + field (valueRecord packed m) ValueWidth
      <= field (setRecord packed id) AliasSetWidth) as Hm.
  { intros m (k & -> & Hk)%list_elem_of_fmap. apply elem_of_seq in Hk.
    destruct (Hmembers k ltac:(lia)) as (_ & H1 & H2 & H3 & H4). done. }
  assert (forall m, m ∈ membersAt id -> is_Some (values !! m)) as Hsome.
  { intros m Hin. apply lookup_lt_is_Some_2. rewrite Hlength. by apply Hm. }
  destruct (setOfMembers_ok (membersAt id) c id (field (setRecord packed id) AliasSetWidth) values Hsome)
    as (set & Hset & Hsm & Hsc & Hsid & Hsw & Hsr & Hbounds).
  exists set. split; [done|]. split; [done|]. split; [done|]. split; [|congruence].
  assert (forall m v r, m ∈ membersAt id -> values !! m = Some v -> r ∈ v_ranges v ->
    live_start r <= live_end r) as Hranges.
  { intros m v r Hin Hv. destruct (Hvalues m v Hv) as (_ & _ & _ & _ & _ & _ & Hok & _).
    by apply rangesOk_elem. }
  destruct (collected_ranges_ok (membersAt id) values Hranges) as [Hok Hcover].
  split; rewrite ?Hsm, ?Hsr, ?Hsw; [|done| |lia].
  - intros m Hin. destruct (Hsome m Hin) as [v Hv]. exists v. split; [done|].
    destruct (Hvalues m v Hv) as (_ & _ & Hvs & Hvo & Hvw & _ & Hvr & _).
    destruct (Hm m Hin) as (Hlt & Hms & _ & Hmf).
    destruct verified_parts as (_ & Hrecords & _). destruct (Hrecords m Hlt) as [_ _ _ _ _ _ [Hrw Hrne] Hro _ _ _ _ _].
    pose proof (unsigned_range _ Hrw) as [? _]. pose proof (unsigned_range _ Hro) as [? _].
    split; rewrite ?Hsid, ?Hsw, ?Hsr; [lia|lia|lia|lia|done|].
    intros p Hp. apply Hcover. exists m, v. done.
  - intros p (m & v & Hin & Hv & Hp)%Hcover. destruct (Hbounds m v Hin Hv).
    destruct (Hvalues m v Hv) as (_ & _ & _ & _ & _ & _ & _ & Henv). specialize (Henv p Hp). lia.
Qed.

Lemma parsed_ok :
  exists values sets, parseDecodedState packed = Ok (values, sets) /\ decodedOk values sets.
Proof.
  destruct verified_parts as (_ & _ & _ & Hcovered).
  destruct parsed_values as (values & Hparse & Hlength & Hvalues).
  destruct (mapOutcome_total (parsePackedAliasSet packed values) (seq 0 (setCount packed)))
    as [sets Hmap].
  { intros id Hid. apply elem_of_seq in Hid.
    destruct (parsed_set values id Hparse ltac:(lia)) as (set & Hset & _). by exists set. }
  exists values, (merge_sort setLe sets). split.
  { assert (parsePackedRegAllocTransformAliasSets packed values = Ok (merge_sort setLe sets)) as Hsets.
    { unfold parsePackedRegAllocTransformAliasSets. fold (valueCount packed) (setCount packed).
      rewrite Hlength, Nat.eqb_refl. cbn [negb]. by rewrite Hmap. }
    unfold parseDecodedState. rewrite Hparse. simpl. by rewrite Hsets. }
  apply mapOutcome_spec in Hmap.
  assert (forall i set, sets !! i = Some set -> (i < setCount packed)%nat /\ s_id set = i /\
    s_members set = membersAt i /\ setOk values set /\
    unpackRegAllocClass (field (setRecord packed i) AliasSetRegClass) = Ok (s_regClass set)) as Hsets.
  { intros i set Hi. destruct (Forall2_lookup_r _ _ _ _ _ Hmap Hi) as (id & Hseq & Hset).
    apply lookup_seq in Hseq as [-> Hlt]. simpl in *. split; [done|].
    destruct (parsed_set values i Hparse Hlt) as (set' & Hset' & Hrest).
    assert (set' = set) as -> by congruence. done. }
  assert (forall set, set ∈ merge_sort setLe sets -> exists i, sets !! i = Some set) as Hin.
  { intros set Hs. rewrite (merge_sort_Permutation setLe sets) in Hs. by apply list_elem_of_lookup in Hs. }
  split.
  - intros i v Hi. by apply Hvalues in Hi as (_ & ? & _).
  - intros v (i & Hi)%list_elem_of_lookup. apply Hvalues in Hi as Hv.
    destruct Hv as (_ & _ & _ & -> & _). destruct verified_parts as (_ & Hrecords & _).
    destruct (Hrecords i) as [_ _ _ _ _ _ _ Hro _ _ _ _ _]; [rewrite <-Hlength; by apply lookup_lt_Some in Hi|].
    pose proof (unsigned_range _ Hro) as [? _]. lia.
  - intros set (i & Hi)%Hin. by apply Hsets in Hi as (_ & _ & _ & ? & _).
  - apply StronglySorted_merge_sort; apply _.
  - rewrite (merge_sort_Permutation setLe sets). apply NoDup_alt. intros i j id Hi Hj.
    rewrite list_lookup_fmap in Hi, Hj. apply fmap_Some in Hi as (s & Hs & ->).
    apply fmap_Some in Hj as (s' & Hs' & Heq). apply Hsets in Hs as (_ & <- & _).
    by apply Hsets in Hs' as (_ & <- & _).
  - intros v (i & Hi)%list_elem_of_lookup. apply Hvalues in Hi as Hv.
    destruct Hv as (_ & Hid & Hvs & _).
    assert (i < valueCount packed)%nat as Hlt by (rewrite <-Hlength; by apply lookup_lt_Some in Hi).
    destruct (Hcovered i Hlt) as (id & k & Hidlt & Hk & Hmember).
    destruct (lookup_lt_is_Some_2 sets id) as [set Hset].
    { apply Forall2_length in Hmap. rewrite length_seq in Hmap. lia. }
    destruct (Hsets id set Hset) as (_ & Hsid & Hsm & _).
    exists set. split; [rewrite (merge_sort_Permutation setLe sets); by apply list_elem_of_lookup_2 in Hset|].
    destruct verified_parts as (_ & _ & Hrecords & _).
    destruct (setRecord_members _ _ (Hrecords id Hidlt) k Hk) as (_ & _ & Hset' & _).
    rewrite Hmember in Hset'. split; [lia|]. rewrite Hsm, Hid. apply list_elem_of_fmap. exists k.
    split; [done|]. apply elem_of_seq. lia.
  - intros set m v (i & Hi)%Hin Hm Hv. destruct (Hsets i set Hi) as (Hlt & _ & Hsm & _ & Hclass).
    destruct (Hvalues m v Hv) as (_ & _ & _ & _ & _ & Hvc & _).
    rewrite Hsm in Hm. apply list_elem_of_fmap in Hm as (k & -> & Hk). apply elem_of_seq in Hk.
    destruct verified_parts as (_ & _ & Hrecords & _).
    destruct (setRecord_members _ _ (Hrecords i Hlt) k ltac:(lia)) as (_ & _ & _ & Hc & _).
    rewrite Hc in Hvc. congruence.
Qed.

(** C17: a state that the attribute's verifier admits is parsed, and what the scan
    assumes of its input holds of it: values numbered in order, sets numbered apart
    and in the order in which they start, every value in its set, within it in
    registers and in time, its ranges in order and apart. *)
Theorem verified_state_is_well_formed :
  exists values sets, parseDecodedState packed = Ok (values, sets) /\ decodedOk values sets /\
    forall input, in_values input = values -> in_sets input = sets ->
      (forall limits, in_limits input = Ok (Some limits) -> 0 <= vgprTupleAlignment limits) ->
      inputOk input.
Proof.
  destruct parsed_ok as (values & sets & Hparse & Hok). exists values, sets. split; [done|].
  split; [done|]. intros input <- <-. by apply decodedOk_input.
Qed.
End Parse.

(** ** Live ranges of the builder *)

Lemma absorbRanges_ok rest : forall first,
  live_start first <= live_end first -> rangesOk rest ->
  (forall r, r ∈ rest -> live_start first <= live_start r) ->
  rangesOk (absorbRanges first rest) /\
  (forall p, inRanges p (absorbRanges first rest) <-> liveAt p first \/ inRanges p rest) /\
  (forall r, r ∈ absorbRanges first rest -> live_start first <= live_start r).
Proof.
  induction rest as [|next rest IH]; intros first Hf Hok Hstart; simpl.
  - split; [constructor; [done|constructor|by intros ? ?%elem_of_nil]|]. split.
    + intros p. by rewrite inRanges_cons.
    + by intros r ->%list_elem_of_singleton.
  - inversion_clear Hok as [|? ? Hn Hrest Hlt]. pose proof (Hstart next ltac:(left)) as Hns.
    destruct (Z.leb_spec (live_start next) (live_end first)).
    + destruct (IH (mkLive (live_start first) (Z.max (live_end first) (live_end next)))) as (Hok & Hp & Hs);
        [simpl; lia|done|intros r Hr; simpl; apply Hstart; by right|].
      split; [done|]. split; [|done]. intros p. rewrite Hp, inRanges_cons. unfold liveAt. simpl.
      intuition lia.
    + split; [constructor; [done|by constructor|]|].
      * intros r [-> |Hr]%elem_of_cons; [lia|]. specialize (Hlt r Hr). lia.
      * split; [intros p; by rewrite !inRanges_cons|].
        intros r [-> |Hr]%elem_of_cons; [lia|by apply Hstart].
Qed.

Lemma insertRange_ok ranges start end_ :
  rangesOk ranges -> start <= end_ ->
  rangesOk (insertRange ranges start end_) /\
  (forall p, inRanges p (insertRange ranges start end_) <-> inRanges p ranges \/ start <= p <= end_) /\
  (forall low, low < start -> (forall r, r ∈ ranges -> low < live_start r) ->
   forall r, r ∈ insertRange ranges start end_ -> low < live_start r).
Proof.
  intros Hok Hse. induction Hok as [|range rest Hr Hok IH Hlt]; simpl.
  - split; [constructor; [done|constructor|by intros ? ?%elem_of_nil]|]. split.
    + intros p. rewrite inRanges_cons. unfold liveAt. simpl. tauto.
    + by intros low Hlow _ r ->%list_elem_of_singleton.
  - destruct IH as (IHok & IHp & IHlow). destruct (Z.ltb_spec (live_end range) start).
    + split; [constructor; [done|done|by apply IHlow]|]. split.
      * intros p. rewrite !inRanges_cons, IHp. tauto.
      * intros low Hlow Hall r [-> |Hin]%elem_of_cons; [apply Hall; left|].
        apply IHlow; [done|intros; apply Hall; by right|done].
    + destruct (Z.ltb_spec end_ (live_start range)).
      * split; [constructor; [done|by constructor|]|].
        { intros r [-> |Hin]%elem_of_cons; [done|]. specialize (Hlt r Hin). simpl. lia. }
        split; [intros p; rewrite !inRanges_cons; unfold liveAt; simpl; tauto|].
        intros low Hlow Hall r [-> |Hin]%elem_of_cons; [done|by apply Hall].
      * destruct (absorbRanges_ok rest
          (mkLive (Z.min (live_start range) start) (Z.max (live_end range) end_))) as (Hok' & Hp & Hs);
          [simpl; lia|done|intros r Hin; specialize (Hlt r Hin); simpl; lia|].
        split; [done|]. split.
        -- intros p. rewrite Hp, inRanges_cons. unfold liveAt. simpl. intuition lia.
        -- intros low Hlow Hall r Hin. specialize (Hs r Hin). specialize (Hall range ltac:(left)).
           simpl in Hs. lia.
Qed.

(** A record: ranges in order and apart, from the start to the end that it notes. *)
Record recordOk (record : RegAllocAliasValue) : Prop := {
  rec_ranges : rangesOk (av_ranges record);
  rec_within p : inRanges p (av_ranges record) -> av_start record <= p <= av_end record;
  rec_start : inRanges (av_start record) (av_ranges record);
  rec_end : inRanges (av_end record) (av_ranges record)
}.

Lemma addLiveRange_ok record start end_ :
  recordOk record -> start <= end_ ->
  recordOk (addLiveRange record start end_) /\
  av_start (addLiveRange record start end_) <= av_start record /\
  forall p, inRanges p (av_ranges (addLiveRange record start end_)) <->
    inRanges p (av_ranges record) \/ start <= p <= end_.
Proof.
  intros [Hok Hwithin Hstart Hend] Hse. destruct (insertRange_ok _ start end_ Hok Hse) as (Hok' & Hp & _).
  split; [|split; [simpl; lia|done]]. split; simpl; [done| | |].
  - intros p [Hin|]%Hp; [specialize (Hwithin p Hin)|]; lia.
  - apply Hp. destruct (Z.min_spec (av_start record) start) as [[? ->]|[? ->]]; [by left|right; lia].
  - apply Hp. destruct (Z.max_spec (av_end record) end_) as [[? ->]|[? ->]]; [right; lia|by left].
Qed.

(** Where a value lives on the way to a use: within each region that it enters, from
    the entry to the operation with the next one, or to the end. *)
Fixpoint spans (segments : list ExclusiveRangeSegment) (end_ : Z) : list LiveRange :=
  match segments with
  | [] => []
  | segment :: rest =>
      mkLive (seg_entry segment) (match rest with next :: _ => seg_branch next | [] => end_ end)
      :: spans rest end_
  end.
Definition useSpans (contexts : list ExclusiveRangeContext) (isDefinedInside : nat -> bool)
    (start : Z) (context : option nat) (end_ : Z) : list LiveRange :=
  match reverse (collectSegments contexts isDefinedInside (length contexts) context) with
  | [] => [mkLive start end_]
  | first :: rest => mkLive start (seg_branch first) :: spans (first :: rest) end_
  end.

Lemma addSegments_ok segments end_ : forall record,
  recordOk record -> (forall r, r ∈ spans segments end_ -> live_start r <= live_end r) ->
  recordOk (addSegments record segments end_) /\
  forall p, inRanges p (av_ranges (addSegments record segments end_)) <->
    inRanges p (av_ranges record) \/ inRanges p (spans segments end_).
Proof.
  induction segments as [|segment rest IH]; intros record Hok Hspans; cbn [addSegments spans].
  { split; [done|]. intros p. split; [by left|]. intros [|(r & Hr%elem_of_nil & _)]; done. }
  pose proof (Hspans _ ltac:(left)) as Hle. simpl in Hle.
  destruct (addLiveRange_ok record _ _ Hok Hle) as (Hok' & _ & Hp).
  destruct (IH _ Hok' ltac:(intros r Hr; apply Hspans; by right)) as [Hok'' Hp'].
  split; [done|]. intros p. rewrite Hp', Hp, inRanges_cons. unfold liveAt. simpl. tauto.
Qed.

(** C18: extending a value to a use keeps its ranges in order and apart, keeps the
    start and the end that its record notes exact, and makes it live on the way to
    the use and nowhere else: from its start to the use, or, where the use is in
    regions of which at most one executes, to the first of their operations and
    within each region from its entry on. *)
Theorem live_ranges_accumulate contexts isDefinedInside record context end_ :
  recordOk record ->
  (forall r, r ∈ useSpans contexts isDefinedInside (av_start record) context end_ ->
    live_start r <= live_end r) ->
  recordOk (extendValue contexts isDefinedInside record context end_) /\
  forall p, inRanges p (av_ranges (extendValue contexts isDefinedInside record context end_)) <->
    inRanges p (av_ranges record) \/
    inRanges p (useSpans contexts isDefinedInside (av_start record) context end_).
Proof.
  unfold extendValue, useSpans. destruct (reverse _) as [|first rest]; intros Hok Hspans.
  - pose proof (Hspans _ ltac:(left)) as Hle. simpl in Hle.
    destruct (addLiveRange_ok record _ _ Hok Hle) as (Hok' & _ & Hp). split; [done|]. intros p.
    rewrite Hp, inRanges_cons. unfold liveAt. simpl. split; [tauto|].
    intros [|[|(r & Hr%elem_of_nil & _)]]; tauto.
  - pose proof (Hspans _ ltac:(left)) as Hle. simpl in Hle.
    destruct (addLiveRange_ok record _ _ Hok Hle) as (Hok' & _ & Hp).
    destruct (addSegments_ok (first :: rest) end_ _ Hok') as [Hok'' Hp'];
      [intros r Hr; apply Hspans; by right|].
    split; [done|]. intros p. rewrite Hp', Hp, (inRanges_cons p (mkLive _ _)). unfold liveAt. simpl. tauto.
Qed.
