(* ===== verification/LaneAlias.v ===== *)
(** * Alias sets are the components of the alias edges

    [assignAliasSets] puts values into one set exactly if edges connect them, gives
    them offsets that agree with every edge, and fails exactly if no offsets do. *)

From stdpp Require Import base tactics sorting strings numbers list gmap.
From S2P Require Import Prelude MachineIR TicketIR LaneIR LaneScan LaneSpec LanePack LanePackSpec.

(** ** Adjacency *)

(** An edge relates [x] to [y], which lies [d] registers behind it. *)
Definition edgeBetween (edge : RegAllocAliasEdge) (x y : nat) (d : Z) : Prop :=
  edge_lhs edge = x /\ edge_rhs edge = y /\ edge_delta edge = d \/
  edge_rhs edge = x /\ edge_lhs edge = y /\ - edge_delta edge = d.
Definition linked (edges : list RegAllocAliasEdge) (x y : nat) (d : Z) : Prop :=
  exists edge, edge ∈ edges /\ edge_lhs edge <> edge_rhs edge /\ edgeBetween edge x y d.

Lemma linked_sym edges x y d : linked edges x y d -> linked edges y x (- d).
Proof.
  intros (e & He & Hne & Hb). exists e. split; [done|]. split; [done|].
  unfold edgeBetween in *. destruct Hb as [(-> & -> & ->)|(-> & -> & <-)]; [right|left];
    (split; [done|]); (split; [done|]); lia.
Qed.

Definition edgesOk (size : nat) (edges : list RegAllocAliasEdge) : Prop :=
  forall edge, edge ∈ edges -> (edge_lhs edge < size)%nat /\ (edge_rhs edge < size)%nat.

Record adjacencyOk (size : nat) (edges : list RegAllocAliasEdge) (adjacency : list (list (nat * Z))) : Prop := {
  adj_length : length adjacency = size;
  adj_spec x l : adjacency !! x = Some l -> forall y d, (y, d) ∈ l <-> linked edges x y d
}.

Lemma linked_snoc edges edge x y d :
  linked (edges ++ [edge]) x y d <->
  linked edges x y d \/ edge_lhs edge <> edge_rhs edge /\ edgeBetween edge x y d.
Proof.
  unfold linked. setoid_rewrite elem_of_app. setoid_rewrite list_elem_of_singleton. naive_solver.
Qed.

Lemma buildAdjacency_gen size rest : forall edges adjacency,
  adjacencyOk size edges adjacency -> edgesOk size rest ->
  match foldM addAliasAdjacencyEdge adjacency rest with
  | Ok adjacency' => adjacencyOk size (edges ++ rest) adjacency' /\
      forall edge, edge ∈ rest -> edge_lhs edge = edge_rhs edge -> edge_delta edge = 0
  | Failure => exists edge, edge ∈ rest /\ edge_lhs edge = edge_rhs edge /\ edge_delta edge <> 0
  | Fatal _ => False
  end.
Proof.
  induction rest as [|edge rest IH]; intros edges adjacency Hadj Hrest; cbn [foldM].
  { rewrite app_nil_r. split; [done|]. by intros ? ?%elem_of_nil. }
  assert (edgesOk size rest) as Hrest' by (intros e He; apply Hrest; by right).
  destruct (Hrest edge ltac:(left)) as [Hl Hr]. unfold addAliasAdjacencyEdge at 1.
  case_bool_decide as Heq.
  - destruct (Z.eqb_spec (edge_delta edge) 0) as [Hd|Hd].
    + specialize (IH (edges ++ [edge]) adjacency). rewrite <-app_assoc in IH. simpl in IH.
      assert (adjacencyOk size (edges ++ [edge]) adjacency) as Hadj'.
      { destruct Hadj as [Hlen Hspec]. split; [done|]. intros x l Hx y d.
        rewrite (Hspec x l Hx), linked_snoc. tauto. }
      specialize (IH Hadj' Hrest'). destruct (foldM _ _ rest); [| |done].
      * destruct IH as [Hok Hall]. split; [done|].
        intros e [-> |He]%elem_of_cons; [done|by apply Hall].
      * destruct IH as (e & He & Hrest2). exists e. split; [by right|done].
    + exists edge. split; [left|done].
  - set (adjacency' := alter _ _ _).
    assert (adjacencyOk size (edges ++ [edge]) adjacency') as Hadj'.
    { destruct Hadj as [Hlen Hspec]. split; [unfold adjacency'; by rewrite !length_alter|].
      intros x l Hx y d. rewrite linked_snoc. unfold adjacency' in Hx.
      destruct (lookup_lt_is_Some_2 adjacency x) as [l0 Hl0].
      { apply lookup_lt_Some in Hx. rewrite !length_alter in Hx. done. }
      rewrite <-(Hspec x l0 Hl0). unfold edgeBetween.
      destruct (decide (x = edge_rhs edge)) as [-> |Hnr].
      - rewrite list_lookup_alter_eq, list_lookup_alter_ne, Hl0 in Hx by done. simpl in Hx.
        injection Hx as <-. rewrite elem_of_app, list_elem_of_singleton. naive_solver.
      - rewrite list_lookup_alter_ne in Hx by done.
        destruct (decide (x = edge_lhs edge)) as [-> |Hnl].
        + rewrite list_lookup_alter_eq, Hl0 in Hx. simpl in Hx. injection Hx as <-.
          rewrite elem_of_app, list_elem_of_singleton. naive_solver.
        + rewrite list_lookup_alter_ne, Hl0 in Hx by done. injection Hx as <-. naive_solver. }
    specialize (IH _ _ Hadj' Hrest'). rewrite <-app_assoc in IH. simpl in IH.
    destruct (foldM _ adjacency' rest); [| |done].
    + destruct IH as [Hok Hall]. split; [done|]. intros e [-> |He]%elem_of_cons; [done|by apply Hall].
    + destruct IH as (e & He & Hrest2). exists e. split; [by right|done].
Qed.

Lemma buildAliasAdjacency_ok size edges :
  edgesOk size edges ->
  match buildAliasAdjacency size edges with
  | Ok adjacency => adjacencyOk size edges adjacency /\
      forall edge, edge ∈ edges -> edge_lhs edge = edge_rhs edge -> edge_delta edge = 0
  | Failure => exists edge, edge ∈ edges /\ edge_lhs edge = edge_rhs edge /\ edge_delta edge <> 0
  | Fatal _ => False
  end.
Proof.
  intros Hedges. apply (buildAdjacency_gen size edges []); [|done]. split; [apply length_replicate|].
  intros x l Hx y d. apply lookup_replicate in Hx as [-> _]. split; [by intros ?%elem_of_nil|].
  by intros (? & ?%elem_of_nil & _).
Qed.

(** A path of edges and the sum of their distances. *)
Inductive path (edges : list RegAllocAliasEdge) (x : nat) : nat -> Z -> Prop :=
  | path_nil : path edges x x 0
  | path_snoc y z d e : path edges x y d -> linked edges y z e -> path edges x z (d + e).

(** Offsets that agree with every edge. *)
Definition agrees (edges : list RegAllocAliasEdge) (f : nat -> Z) : Prop :=
  forall edge, edge ∈ edges -> f (edge_rhs edge) - f (edge_lhs edge) = edge_delta edge.

Lemma agrees_linked edges f x y d : agrees edges f -> linked edges x y d -> f y - f x = d.
Proof.
  intros Hf (e & He & _ & Hb). specialize (Hf e He).
  destruct Hb as [(<- & <- & <-)|(<- & <- & <-)]; lia.
Qed.
Lemma agrees_path edges f x y d : agrees edges f -> path edges x y d -> f y - f x = d.
Proof.
  intros Hf. induction 1 as [|y z d e Hp IH Hl]; [lia|].
  pose proof (agrees_linked _ _ _ _ _ Hf Hl). lia.
Qed.

Lemma path_trans edges x y z d e : path edges x y d -> path edges y z e -> path edges x z (d + e).
Proof.
  intros Hxy. induction 1 as [|w z e f Hp IH Hl]; [by rewrite Z.add_0_r|].
  rewrite Z.add_assoc. by apply (path_snoc _ _ w).
Qed.
Lemma path_linked edges x y d : linked edges x y d -> path edges x y d.
Proof. intros Hl. rewrite <-(Z.add_0_l d). apply (path_snoc _ _ x); [constructor|done]. Qed.
Lemma path_sym edges x y d : path edges x y d -> path edges y x (- d).
Proof.
  induction 1 as [|y z d e Hp IH Hl]; [constructor|].
  replace (- (d + e)) with (- e + - d) by lia.
  apply (path_trans _ _ y); [by apply path_linked, linked_sym|done].
Qed.

(** ** One set *)

Section Walk.
Context (size : nat) (edges : list RegAllocAliasEdge) (adjacency : list (list (nat * Z)))
  (Hadj : adjacencyOk size edges adjacency) (Hedges : edgesOk size edges).
Context (setId root : nat) (visited0 : gset nat) (offsets0 : gmap nat Z)
  (values0 : list RegAllocAliasValue).
Context (Hroot : (root < size)%nat) (Hfresh : root ∉ visited0) (Hzero : offsets0 !! root = None)
  (Hclosed : forall x y d, x ∈ visited0 -> linked edges x y d -> y ∈ visited0).
Set Default Proof Using "All".

Record walkInv (cursor : nat) (walk : AliasWalk) : Prop := {
  wi_nodup : NoDup (w_worklist walk);
  wi_cursor : (cursor <= length (w_worklist walk))%nat;
  wi_root : root ∈ w_worklist walk;
  wi_rootOffset : offsetOf (w_offsets walk) root = 0;
  wi_bound x : x ∈ w_worklist walk -> (x < size)%nat /\ x ∉ visited0;
  wi_visited x : x ∈ w_visited walk <-> x ∈ visited0 \/ x ∈ w_worklist walk;
  wi_path x : x ∈ w_worklist walk -> path edges root x (offsetOf (w_offsets walk) x);
  wi_offsets x : x ∉ w_worklist walk -> w_offsets walk !! x = offsets0 !! x;
  wi_done i x y d : (i < cursor)%nat -> w_worklist walk !! i = Some x -> linked edges x y d ->
    y ∈ w_worklist walk /\ offsetOf (w_offsets walk) y = offsetOf (w_offsets walk) x + d;
  wi_values x : w_values walk !! x =
    (if bool_decide (x ∈ w_worklist walk) then (fun value => withAliasSet value setId) <$> values0 !! x
     else values0 !! x)
}.

Lemma linked_bound x y d : linked edges x y d -> (y < size)%nat.
Proof. intros (e & He & _ & [(_ & <- & _)|(_ & <- & _)]); by apply Hedges. Qed.

Lemma enqueue_ok cursor current walk next d :
  walkInv cursor walk -> w_worklist walk !! cursor = Some current -> linked edges current next d ->
  match enqueueAliasNeighbor setId current walk (next, d) with
  | Ok walk' => walkInv cursor walk' /\ w_worklist walk `prefix_of` w_worklist walk' /\
      (forall x, x ∈ w_worklist walk -> offsetOf (w_offsets walk') x = offsetOf (w_offsets walk) x) /\
      next ∈ w_worklist walk' /\
      offsetOf (w_offsets walk') next = offsetOf (w_offsets walk) current + d
  | Failure => forall f, ~ agrees edges f
  | Fatal _ => False
  end.
Proof.
  intros Hinv Hcur Hl. unfold enqueueAliasNeighbor.
  assert (current ∈ w_worklist walk) as Hin by (by apply list_elem_of_lookup_2 in Hcur).
  pose proof (wi_bound _ _ Hinv _ Hin) as [_ Hcv].
  assert (next ∉ visited0) as Hnv.
  { intros Hn. apply Hcv. apply (Hclosed next current (- d)); [done|by apply linked_sym]. }
  case_bool_decide as Hvis.
  - apply (wi_visited _ _ Hinv) in Hvis as [?|Hnext]; [done|].
    destruct (Z.eqb_spec (offsetOf (w_offsets walk) next) (offsetOf (w_offsets walk) current + d)) as [E|E].
    + split; [done|]. split; [done|]. split; [done|]. done.
    + intros f Hf. apply E. pose proof (agrees_path _ _ _ _ _ Hf (wi_path _ _ Hinv _ Hin)).
      pose proof (agrees_path _ _ _ _ _ Hf (wi_path _ _ Hinv _ Hnext)).
      pose proof (agrees_linked _ _ _ _ _ Hf Hl). lia.
  - assert (next ∉ w_worklist walk) as Hnew.
    { intros Hn. apply Hvis. apply (wi_visited _ _ Hinv). by right. }
    assert (forall x, x ∈ w_worklist walk ->
      offsetOf (<[next := offsetOf (w_offsets walk) current + d]> (w_offsets walk)) x =
      offsetOf (w_offsets walk) x) as Hkeep.
    { intros x Hx. unfold offsetOf. rewrite lookup_insert_ne; [done|]. by intros ->. }
    assert (offsetOf (<[next := offsetOf (w_offsets walk) current + d]> (w_offsets walk)) next =
      offsetOf (w_offsets walk) current + d) as Hnext by (unfold offsetOf; by rewrite lookup_insert_eq).
    split; [|simpl; split; [by apply prefix_app_r|]; split; [done|]; split; [|done];
      apply elem_of_app; right; left].
    destruct Hinv as [Hnd Hc Hr Hro Hb Hv Hp Ho Hd Hval]. split; simpl.
    + apply NoDup_app. split; [done|]. split; [|apply NoDup_singleton].
      intros x Hx ->%list_elem_of_singleton. done.
    + rewrite length_app. lia.
    + apply elem_of_app. by left.
    + by rewrite Hkeep.
    + intros x [Hx| ->%list_elem_of_singleton]%elem_of_app; [by apply Hb|].
      split; [by apply linked_bound in Hl|done].
    + intros x. rewrite elem_of_union, elem_of_singleton, Hv, elem_of_app, list_elem_of_singleton. tauto.
    + intros x [Hx| ->%list_elem_of_singleton]%elem_of_app; [rewrite Hkeep by done; by apply Hp|].
      rewrite Hnext. apply (path_snoc _ _ current); [by apply Hp|done].
    + intros x Hx. rewrite elem_of_app, list_elem_of_singleton in Hx.
      rewrite lookup_insert_ne; [apply Ho; tauto|]. intros ->. tauto.
    + intros i x y e Hi Hx Hxy.
      rewrite lookup_app_l in Hx by lia. destruct (Hd i x y e Hi Hx Hxy) as [Hy Heq].
      split; [apply elem_of_app; by left|]. apply list_elem_of_lookup_2 in Hx. by rewrite !Hkeep.
    + intros x. destruct (decide (x = next)) as [-> |Hne].
      * rewrite list_lookup_alter_eq, Hval, !bool_decide_eq_false_2 by done.
        rewrite bool_decide_eq_true_2; [done|]. apply elem_of_app. right. left.
      * rewrite list_lookup_alter_ne, Hval by done.
        rewrite (bool_decide_ext (x ∈ w_worklist walk ++ [next]) (x ∈ w_worklist walk)); [done|].
        rewrite elem_of_app, list_elem_of_singleton. tauto.
Qed.

Lemma enqueueAll_ok cursor current rest : forall walk,
  walkInv cursor walk -> w_worklist walk !! cursor = Some current ->
  (forall y d, (y, d) ∈ rest -> linked edges current y d) ->
  match foldM (enqueueAliasNeighbor setId current) walk rest with
  | Ok walk' => walkInv cursor walk' /\ w_worklist walk `prefix_of` w_worklist walk' /\
      (forall x, x ∈ w_worklist walk -> offsetOf (w_offsets walk') x = offsetOf (w_offsets walk) x) /\
      forall y d, (y, d) ∈ rest -> y ∈ w_worklist walk' /\
        offsetOf (w_offsets walk') y = offsetOf (w_offsets walk') current + d
  | Failure => forall f, ~ agrees edges f
  | Fatal _ => False
  end.
Proof.
  induction rest as [|[next d] rest IH]; intros walk Hinv Hcur Hrest; cbn [foldM].
  { split; [done|]. split; [done|]. split; [done|]. by intros ? ? ?%elem_of_nil. }
  pose proof (enqueue_ok _ _ _ _ _ Hinv Hcur (Hrest next d ltac:(left))) as H.
  destruct (enqueueAliasNeighbor setId current walk (next, d)) as [walk1| |]; [|done|done].
  destruct H as (Hinv1 & Hpre & Hkeep & Hin & Hoff).
  assert (w_worklist walk1 !! cursor = Some current) as Hcur1 by (by apply (prefix_lookup_Some _ _ _ _ Hcur Hpre)).
  specialize (IH walk1 Hinv1 Hcur1 ltac:(intros; apply Hrest; by right)).
  destruct (foldM _ walk1 rest) as [walk2| |]; [|done|done].
  destruct IH as (Hinv2 & Hpre2 & Hkeep2 & Hall). split; [done|].
  split; [by transitivity (w_worklist walk1)|].
  assert (forall x, x ∈ w_worklist walk -> x ∈ w_worklist walk1) as Hsub 
    by (intros x Hx; by apply (elem_of_prefix _ _ _ Hx Hpre)).
  split; [intros x Hx; rewrite Hkeep2 by auto; by apply Hkeep|].
  intros y e [[= -> ->]|Hy]%elem_of_cons; [|by apply Hall].
  apply list_elem_of_lookup_2 in Hcur.
  split; [by apply (elem_of_prefix _ _ _ Hin Hpre2)|]. by rewrite !Hkeep2, Hoff, Hkeep by auto.
Qed.

Lemma walk_length cursor walk : walkInv cursor walk -> (length (w_worklist walk) <= size)%nat.
Proof.
  intros Hinv. rewrite <-(length_seq size 0). apply submseteq_length, NoDup_submseteq; [apply Hinv|].
  intros x Hx. apply elem_of_seq. apply (wi_bound _ _ Hinv) in Hx. lia.
Qed.

Lemma visitLoop_ok fuel : forall cursor walk,
  walkInv cursor walk -> (size < fuel + cursor)%nat ->
  match visitLoop adjacency setId fuel cursor walk with
  | Ok walk' => walkInv (length (w_worklist walk')) walk'
  | Failure => forall f, ~ agrees edges f
  | Fatal _ => False
  end.
Proof.
  induction fuel as [|fuel IH]; intros cursor walk Hinv Hfuel; cbn [visitLoop].
  { pose proof (walk_length _ _ Hinv). pose proof (wi_cursor _ _ Hinv). lia. }
  destruct (w_worklist walk !! cursor) as [current|] eqn:Hcur.
  - destruct (lookup_lt_is_Some_2 adjacency current) as [l Hl].
    { rewrite (adj_length _ _ _ Hadj). apply list_elem_of_lookup_2 in Hcur. apply (wi_bound _ _ Hinv _ Hcur). }
    rewrite Hl. simpl.
    pose proof (enqueueAll_ok cursor current l walk Hinv Hcur) as H.
    specialize (H ltac:(intros y d; apply (adj_spec _ _ _ Hadj _ _ Hl))).
    destruct (foldM _ walk l) as [walk1| |]; [|done|done]. simpl.
    destruct H as (Hinv1 & Hpre & _ & Hall). apply IH; [|lia].
    pose proof (prefix_lookup_Some _ _ _ _ Hcur Hpre) as Hcur1.
    destruct Hinv1 as [Hnd Hc Hr Hro Hb Hv Hp Ho Hd Hval]. split; try done.
    + apply lookup_lt_Some in Hcur1. lia.
    + intros i x y d Hi Hx Hxy. destruct (decide (i = cursor)) as [-> |Hne].
      * simplify_eq. apply Hall, (adj_spec _ _ _ Hadj _ _ Hl). done.
      * apply (Hd i); [lia|done|done].
  - apply lookup_ge_None in Hcur. pose proof (wi_cursor _ _ Hinv).
    by replace (length (w_worklist walk)) with cursor by lia.
Qed.

Lemma walkInv_init :
  walkInv 0 (mkWalk [root] ({[root]} ∪ visited0) offsets0
    (alter (fun value => withAliasSet value setId) root values0)).
Proof.
  split; simpl.
  - apply NoDup_singleton.
  - lia.
  - left.
  - unfold offsetOf. by rewrite Hzero.
  - by intros x ->%list_elem_of_singleton.
  - intros x. rewrite elem_of_union, elem_of_singleton, list_elem_of_singleton. tauto.
  - intros x ->%list_elem_of_singleton. unfold offsetOf. rewrite Hzero. constructor.
  - done.
  - lia.
  - intros x. destruct (decide (x = root)) as [-> |Hne].
    + rewrite list_lookup_alter_eq, bool_decide_eq_true_2; [done|left].
    + rewrite list_lookup_alter_ne, bool_decide_eq_false_2; [done| |done].
      by intros ?%list_elem_of_singleton.
Qed.
End Walk.

(** ** Offsets from zero *)

Definition leastOffset (members : list nat) (offsets : gmap nat Z) : Z :=
  foldl (fun least member => Z.min least (offsetOf offsets member)) 0 members.

Lemma foldl_min_spec (offsets : gmap nat Z) members : forall least,
  let r := foldl (fun least member => Z.min least (offsetOf offsets member)) least members in
  r <= least /\ (forall x, x ∈ members -> r <= offsetOf offsets x) /\
  (r = least \/ exists x, x ∈ members /\ offsetOf offsets x = r).
Proof.
  induction members as [|x members IH]; intros least; cbv zeta; simpl.
  { split; [done|]. split; [by intros ? ?%elem_of_nil|]. by left. }
  destruct (IH (Z.min least (offsetOf offsets x))) as (Hle & Hall & Hatt). split; [lia|]. split.
  - intros y [-> |Hy]%elem_of_cons; [lia|by apply Hall].
  - destruct Hatt as [Hr|(y & Hy & Hr)].
    + destruct (Z.le_ge_cases least (offsetOf offsets x)).
      * left. lia.
      * right. exists x. split; [left|lia].
    + right. exists y. split; [by right|done].
Qed.

Lemma normalize_lookup members offsets values x :
  NoDup members ->
  normalizeAliasOffsets members offsets values !! x =
  (if bool_decide (x ∈ members)
   then (fun value => withOffset value (offsetOf offsets x - leastOffset members offsets)) <$> values !! x
   else values !! x).
Proof.
  unfold normalizeAliasOffsets. fold (leastOffset members offsets).
  generalize (leastOffset members offsets) as least. intros least. revert values.
  induction members as [|y members IH]; intros values Hnd; cbn [foldl].
  { rewrite bool_decide_eq_false_2; [done|]. by intros ?%elem_of_nil. }
  apply NoDup_cons in Hnd as [Hy Hnd]. rewrite IH by done.
  destruct (decide (x = y)) as [-> |Hne].
  - rewrite bool_decide_eq_false_2 by done. rewrite bool_decide_eq_true_2 by left.
    by rewrite list_lookup_alter_eq.
  - rewrite list_lookup_alter_ne by done.
    rewrite (bool_decide_ext (x ∈ y :: members) (x ∈ members)); [done|].
    rewrite elem_of_cons. tauto.
Qed.

(** ** All sets *)

(** A set of the partition: its members' offsets begin at zero and are the lengths of
    paths between them. *)
Record aliasSetOk (edges : list RegAllocAliasEdge) (values : list RegAllocAliasValue) (k : nat)
    (set : RegAllocAliasSet) : Prop := {
  aset_id : as_id set = k;
  aset_nodup : NoDup (as_members set);
  aset_members x : x ∈ as_members set ->
    exists value, values !! x = Some value /\ av_aliasSet value = k /\ 0 <= av_offset value;
  aset_zero : exists x value, x ∈ as_members set /\ values !! x = Some value /\ av_offset value = 0;
  aset_path x y lhs rhs : x ∈ as_members set -> y ∈ as_members set ->
    values !! x = Some lhs -> values !! y = Some rhs ->
    path edges x y (av_offset rhs - av_offset lhs)
}.

Section Sets.
Context (edges : list RegAllocAliasEdge) (adjacency : list (list (nat * Z)))
  (values0 : list RegAllocAliasValue).
Let size := length values0.
Context (Hadj : adjacencyOk size edges adjacency) (Hedges : edgesOk size edges).
Set Default Proof Using "All".

Record setsInv (state : AliasSetsState) : Prop := {
  si_length : length (ss_values state) = size;
  si_same x value : ss_values state !! x = Some value -> exists value0, values0 !! x = Some value0 /\
    value = withOffset (withAliasSet value0 (av_aliasSet value)) (av_offset value);
  si_closed x y d : x ∈ ss_visited state -> linked edges x y d -> y ∈ ss_visited state;
  si_zero x : x ∉ ss_visited state -> ss_offsets state !! x = None;
  si_sets k set : ss_aliasSets state !! k = Some set ->
    aliasSetOk edges (ss_values state) k set /\ forall x, x ∈ as_members set -> x ∈ ss_visited state;
  si_member x : x ∈ ss_visited state -> exists value set, ss_values state !! x = Some value /\
    ss_aliasSets state !! av_aliasSet value = Some set /\ x ∈ as_members set;
  si_edges x y d lhs rhs : x ∈ ss_visited state -> linked edges x y d ->
    ss_values state !! x = Some lhs -> ss_values state !! y = Some rhs ->
    av_aliasSet rhs = av_aliasSet lhs /\ av_offset rhs - av_offset lhs = d
}.

Lemma visitAliasSet_ok state root :
  setsInv state -> (root < size)%nat -> root ∉ ss_visited state ->
  match visitAliasSet adjacency state root with
  | Ok state' => setsInv state' /\ root ∈ ss_visited state' /\ ss_visited state ⊆ ss_visited state'
  | Failure => forall f, ~ agrees edges f
  | Fatal _ => False
  end.
Proof.
  intros [Hlen Hsame Hclosed Hzero Hsets Hmember Hedge] Hroot Hfresh. unfold visitAliasSet.
  set (setId := length (ss_aliasSets state)).
  pose proof (visitLoop_ok size edges adjacency Hadj Hedges setId root (ss_visited state)
    (ss_offsets state) (ss_values state) Hroot Hfresh (Hzero _ Hfresh) Hclosed
    (S (length (ss_values state))) 0 _
    (walkInv_init size edges adjacency Hadj Hedges setId root (ss_visited state)
       (ss_offsets state) (ss_values state) Hroot Hfresh (Hzero _ Hfresh) Hclosed) ltac:(lia)) as Hloop.
  destruct (visitLoop adjacency setId _ 0 _) as [walk| |]; [|done|done].
  destruct Hloop as [Hnd _ Hr Hro Hb Hv Hp Ho Hd Hval]. simpl.
  set (members := w_worklist walk) in *. set (offsets := w_offsets walk) in *.
  set (least := leastOffset members offsets).
  assert (forall x, normalizeAliasOffsets members offsets (w_values walk) !! x =
    if bool_decide (x ∈ members)
    then (fun value => withOffset (withAliasSet value setId) (offsetOf offsets x - least))
      <$> ss_values state !! x
    else ss_values state !! x) as Hlookup.
  { intros x. rewrite normalize_lookup, Hval by done. case_bool_decide; [|done].
    fold least. by destruct (ss_values state !! x). }
  set (values := normalizeAliasOffsets members offsets (w_values walk)) in *.
  assert (forall x, x ∈ members -> exists value, values !! x =
    Some (withOffset (withAliasSet value setId) (offsetOf offsets x - least))) as Hin.
  { intros x Hx. destruct (lookup_lt_is_Some_2 (ss_values state) x) as [value Hvalue];
      [rewrite Hlen; by apply Hb|]. exists value. by rewrite Hlookup, bool_decide_eq_true_2, Hvalue. }
  assert (forall x, x ∉ members -> values !! x = ss_values state !! x) as Hout.
  { intros x Hx. by rewrite Hlookup, bool_decide_eq_false_2. }
  assert (forall x, x ∈ ss_visited state -> x ∉ members) as Hold.
  { intros x Hx Hm. by apply Hb in Hm as [_ Hm]. }
  assert (forall x y d, x ∈ members -> linked edges x y d ->
    y ∈ members /\ offsetOf offsets y = offsetOf offsets x + d) as Hdone.
  { intros x y d Hx. apply list_elem_of_lookup in Hx as [i Hi]. apply (Hd i); [|done].
    by apply lookup_lt_Some in Hi. }
  destruct (foldl_min_spec offsets members 0) as (_ & Hleast & Hatt). fold (leastOffset members offsets) in *.
  fold least in Hleast, Hatt.
  split; [|split; [apply Hv; by right|intros x Hx; apply Hv; by left]].
  split; simpl.
  - rewrite <-Hlen. apply Nat.le_antisymm; apply Nat.nlt_ge; intros Hlt.
    + apply lookup_lt_is_Some_2 in Hlt as [v Hlt]. rewrite Hlookup in Hlt.
      rewrite (lookup_ge_None_2 (ss_values state)) in Hlt by lia. by case_bool_decide.
    + apply lookup_lt_is_Some_2 in Hlt as [v Hlt]. pose proof (Hlookup (length values)) as H.
      rewrite Hlt, lookup_ge_None_2 in H by lia. by case_bool_decide.
  - intros x value Hx. rewrite Hlookup in Hx. case_bool_decide; [|by apply Hsame].
    apply fmap_Some in Hx as (value1 & Hx & ->). apply Hsame in Hx as (value0 & Hx & ->).
    by exists value0.
  - intros x y d [Hx|Hx]%Hv Hl; apply Hv.
    + left. by apply (Hclosed x y d).
    + right. by apply (Hdone x y d).
  - intros x Hx. rewrite Ho; [|intros ?; apply Hx, Hv; by right]. apply Hzero. intros ?. apply Hx, Hv. by left.
  - intros k set [Hk|[Hk Hset]]%lookup_app_Some.
    + destruct (Hsets _ _ Hk) as [[Hid Hnd' Hm Hz Hpath] Hvis].
      split; [|intros x Hx; apply Hv; left; by apply Hvis]. split; try done.
      * intros x Hx. rewrite Hout by auto. by apply Hm.
      * destruct Hz as (x & value & Hx & Hz). exists x, value. rewrite Hout by auto. done.
      * intros x y lhs rhs Hx Hy. rewrite !Hout by auto. by apply Hpath.
    + apply list_lookup_singleton_Some in Hset as [Hk0 <-].
      assert (k = setId) as -> by (unfold setId; lia).
      split; [|simpl; intros x Hx; apply Hv; by right]. split; simpl; try done.
      * intros x Hx. destruct (Hin x Hx) as [value Hvalue]. eexists. split; [done|]. simpl.
        split; [done|]. pose proof (Hleast x Hx). lia.
      * destruct Hatt as [Hatt|(x & Hx & Hatt)].
        -- destruct (Hin root Hr) as [value Hvalue]. exists root. eexists. split; [done|].
           split; [done|]. simpl. rewrite Hro. lia.
        -- destruct (Hin x Hx) as [value Hvalue]. exists x. eexists. split; [done|].
           split; [done|]. simpl. lia.
      * intros x y lhs rhs Hx Hy Hlhs Hrhs. destruct (Hin x Hx) as [v1 Hv1].
        destruct (Hin y Hy) as [v2 Hv2]. simplify_eq. simpl.
        replace (offsetOf offsets y - least - (offsetOf offsets x - least))
          with (- offsetOf offsets x + offsetOf offsets y) by lia.
        apply (path_trans _ _ root); [by apply path_sym, Hp|by apply Hp].
  - intros x [Hx|Hx]%Hv.
    + destruct (Hmember x Hx) as (value & set & Hvalue & Hset & Hxm). exists value, set.
      rewrite Hout by auto. split; [done|]. split; [|done]. by apply lookup_app_l_Some.
    + destruct (Hin x Hx) as [value Hvalue]. do 2 eexists. split; [done|]. simpl.
      split; [apply list_lookup_middle; done|]. done.
  - intros x y d lhs rhs [Hx|Hx]%Hv Hl.
    + rewrite !Hout; [by apply Hedge| |by apply Hold]. apply Hold. by apply (Hclosed x y d).
    + destruct (Hdone x y d Hx Hl) as [Hy Hoff]. destruct (Hin x Hx) as [v1 ->].
      destruct (Hin y Hy) as [v2 ->]. intros [= <-] [= <-]. simpl. split; [done|]. lia.
Qed.

Lemma setsInv_init : setsInv (mkSets ∅ ∅ values0 []).
Proof.
  split; simpl; try done.
  - intros x value Hx. exists value. split; [done|]. by destruct value.
Qed.

Lemma visitAll_ok roots : forall state,
  setsInv state -> (forall root, root ∈ roots -> (root < size)%nat) ->
  match foldM (fun sets root =>
      if bool_decide (root ∈ ss_visited sets) then Ok sets else visitAliasSet adjacency sets root)
    state roots with
  | Ok state' => setsInv state' /\ ss_visited state ⊆ ss_visited state' /\
      forall root, root ∈ roots -> root ∈ ss_visited state'
  | Failure => forall f, ~ agrees edges f
  | Fatal _ => False
  end.
Proof.
  induction roots as [|root roots IH]; intros state Hinv Hroots; cbn [foldM].
  { split; [done|]. split; [done|]. by intros ? ?%elem_of_nil. }
  assert (forall root, root ∈ roots -> (root < size)%nat) as Hroots' by (intros; apply Hroots; by right).
  case_bool_decide as Hvis.
  - specialize (IH state Hinv Hroots'). destruct (foldM _ state roots) as [state'| |]; [|done|done].
    destruct IH as (Hinv' & Hsub & Hall). split; [done|]. split; [done|].
    intros r [-> |Hr]%elem_of_cons; [by apply Hsub|by apply Hall].
  - pose proof (visitAliasSet_ok state root Hinv (Hroots root ltac:(left)) Hvis) as H.
    destruct (visitAliasSet adjacency state root) as [state1| |]; [|done|done].
    destruct H as (Hinv1 & Hin & Hsub1). specialize (IH state1 Hinv1 Hroots').
    destruct (foldM _ state1 roots) as [state'| |]; [|done|done].
    destruct IH as (Hinv' & Hsub & Hall). split; [done|]. split; [set_solver|].
    intros r [-> |Hr]%elem_of_cons; [by apply Hsub|by apply Hall].
Qed.
End Sets.

(** What [assignAliasSets] makes of [state]. *)
Definition assigned (state state' : AliasState) : Prop :=
  st_ops state' = st_ops state /\ st_edges state' = st_edges state /\
  length (st_values state') = length (st_values state) /\
  (forall x value, st_values state' !! x = Some value ->
    exists value0, st_values state !! x = Some value0 /\
      value = withOffset (withAliasSet value0 (av_aliasSet value)) (av_offset value)) /\
  (forall x value, st_values state' !! x = Some value ->
    exists set, st_aliasSets state' !! av_aliasSet value = Some set /\ x ∈ as_members set) /\
  (forall k set, st_aliasSets state' !! k = Some set ->
    aliasSetOk (st_edges state) (st_values state') k set) /\
  forall edge lhs rhs, edge ∈ st_edges state ->
    st_values state' !! edge_lhs edge = Some lhs -> st_values state' !! edge_rhs edge = Some rhs ->
    av_aliasSet rhs = av_aliasSet lhs /\ av_offset rhs - av_offset lhs = edge_delta edge.

Lemma assignAliasSets_ok state :
  st_aliasSets state = [] -> edgesOk (length (st_values state)) (st_edges state) ->
  match assignAliasSets state with
  | Ok state' => assigned state state'
  | Failure => forall f, ~ agrees (st_edges state) f
  | Fatal _ => False
  end.
Proof.
  intros Hempty Hedges. unfold assignAliasSets, assigned. rewrite Hempty.
  pose proof (buildAliasAdjacency_ok _ _ Hedges) as Hadj.
  destruct (buildAliasAdjacency _ _) as [adjacency| |]; [| |done]; simpl.
  2: { destruct Hadj as (edge & He & Heq & Hd). intros f Hf. specialize (Hf edge He).
    rewrite Heq in Hf. lia. }
  destruct Hadj as [Hadj Hself].
  pose proof (visitAll_ok _ _ _ Hadj Hedges (seq 0 (length (st_values state))) _
    (setsInv_init _ _ _ Hadj Hedges)) as H.
  specialize (H ltac:(intros root Hr%elem_of_seq; lia)).
  destruct (foldM _ _ (seq 0 _)) as [sets| |]; [|done|done]. simpl.
  destruct H as ([Hlen Hsame Hclosed Hzero Hsets Hmember Hedge] & _ & Hall).
  split; [done|]. split; [done|]. split; [done|]. split; [done|].
  assert (forall x value, ss_values sets !! x = Some value -> x ∈ ss_visited sets) as Hvis.
  { intros x value Hx%lookup_lt_Some. apply Hall, elem_of_seq. lia. }
  split; [|split].
  - intros x value Hx. destruct (Hmember x (Hvis _ _ Hx)) as (value' & set & Hx' & Hset).
    simplify_eq. by exists set.
  - intros k set Hk. by destruct (Hsets k set Hk).
  - intros edge lhs rhs He Hl Hr. destruct (decide (edge_lhs edge = edge_rhs edge)) as [Heq|Hne].
    + rewrite Heq in Hl. simplify_eq. rewrite (Hself edge He Heq). split; [done|lia].
    + apply (Hedge (edge_lhs edge) (edge_rhs edge)); [by apply (Hvis _ _ Hl)| |done|done].
      exists edge. split; [done|]. split; [done|]. by left.
Qed.

(** C15: Alias sets are the components of the alias edges. If [assignAliasSets]
    succeeds, every value is a member of the set whose number it has; a set's members
    are distinct and connected by edges, their offsets begin at zero, and the offset
    from one to another is the length of a path between them; and the ends of an edge
    are in one set at the distance of the edge. Nothing else about the values changes.
    It fails exactly if no offsets at all agree with the edges, and never otherwise. *)
Theorem alias_sets_are_components state :
  st_aliasSets state = [] -> edgesOk (length (st_values state)) (st_edges state) ->
  match assignAliasSets state with
  | Ok state' => assigned state state'
  | Failure => forall f, ~ agrees (st_edges state) f
  | Fatal _ => False
  end.
Proof. apply assignAliasSets_ok. Qed.
