(* ===== verification/LaneRound.v ===== *)
(** * The attribute parses back

    What is packed passes the attribute's verifier, and parses as the state that is
    installed without it: the counting sort of the one side gives the order of the
    other one. At the end a state on which the theorems about packing hold. *)

From stdpp Require Import base tactics sorting strings numbers list gmap.
From S2P Require Import Prelude MachineIR TicketIR LaneIR LaneScan LaneSpec LaneSafe LanePack.
From S2P Require Import LanePackSpec LaneAlias.

(** ** The counting sort sorts *)

Definition setLt (lhs rhs : RegAllocTransformAliasSet) : Prop :=
  s_start lhs < s_start rhs \/ s_start lhs = s_start rhs /\ (s_id lhs < s_id rhs)%nat.
#[local] Instance setLt_dec lhs rhs : Decision (setLt lhs rhs).
Proof. unfold setLt. apply _. Defined.

(** The number of elements with a property. *)
Definition count {A} (P : A -> Prop) `{forall x, Decision (P x)} (l : list A) : nat :=
  length (filter P l).

Lemma count_app {A} (P : A -> Prop) `{forall x, Decision (P x)} l k :
  count P (l ++ k) = (count P l + count P k)%nat.
Proof. unfold count. by rewrite filter_app, length_app. Qed.
Lemma count_perm {A} (P : A -> Prop) `{forall x, Decision (P x)} l k : l ≡ₚ k -> count P l = count P k.
Proof. unfold count. by intros ->. Qed.
Lemma count_cons {A} (P : A -> Prop) `{forall x, Decision (P x)} x l :
  count P (x :: l) = ((if decide (P x) then 1 else 0) + count P l)%nat.
Proof. unfold count. rewrite filter_cons. by destruct (decide (P x)). Qed.
Lemma count_none {A} (P : A -> Prop) `{forall x, Decision (P x)} l :
  (forall x, x ∈ l -> ~ P x) -> count P l = 0%nat.
Proof.
  induction l as [|x l IH]; intros Hl; [done|]. rewrite count_cons, decide_False by (apply Hl; left).
  rewrite IH; [done|]. intros y Hy. apply Hl. by right.
Qed.
Lemma count_all {A} (P : A -> Prop) `{forall x, Decision (P x)} l :
  (forall x, x ∈ l -> P x) -> count P l = length l.
Proof.
  induction l as [|x l IH]; intros Hl; [done|]. rewrite count_cons, decide_True by (apply Hl; left).
  simpl. rewrite IH; [done|]. intros y Hy. apply Hl. by right.
Qed.
(** Split by another property. *)
Lemma count_split {A} (P Q R : A -> Prop) `{forall x, Decision (P x), forall x, Decision (Q x),
    forall x, Decision (R x)} l :
  (forall x, x ∈ l -> P x <-> Q x \/ R x) -> (forall x, Q x -> ~ R x) ->
  count P l = (count Q l + count R l)%nat.
Proof.
  intros HP HQR. induction l as [|x l IH]; [done|].
  rewrite !count_cons, IH by (intros y Hy; apply HP; by right).
  specialize (HP x ltac:(left)). specialize (HQR x).
  destruct (decide (P x)), (decide (Q x)), (decide (R x)); try tauto; lia.
Qed.
Lemma count_ext {A} (P Q : A -> Prop) `{forall x, Decision (P x), forall x, Decision (Q x)} l :
  (forall x, x ∈ l -> P x <-> Q x) -> count P l = count Q l.
Proof.
  intros HP. induction l as [|x l IH]; [done|].
  rewrite !count_cons, IH by (intros y Hy; apply HP; by right). f_equal.
  specialize (HP x ltac:(left)). destruct (decide (P x)), (decide (Q x)); tauto.
Qed.

Section Order.
Context (positions : nat) (sets : list RegAllocTransformAliasSet).
Context (Hids : forall i set, sets !! i = Some set -> s_id set = i).
Context (Hstarts : forall set, set ∈ sets -> 0 <= s_start set /\ (startIndex set < positions)%nat).
#[local] Set Default Proof Using "All".

Definition sortedSets : list RegAllocTransformAliasSet := merge_sort setLe sets.

Lemma setLe_total' : Total setLe. Proof. intros a b. unfold setLe. lia. Qed.
Lemma setLe_trans' : Transitive setLe. Proof. intros a b c. unfold setLe. lia. Qed.

Lemma sets_inj a b : a ∈ sets -> b ∈ sets -> s_id a = s_id b -> a = b.
Proof.
  intros [i Hi]%list_elem_of_lookup [j Hj]%list_elem_of_lookup Heq.
  apply Hids in Hi as Hii. apply Hids in Hj as Hjj. congruence.
Qed.

(** The place of a set is the number of sets below it. *)
Lemma sorted_place p set : sortedSets !! p = Some set -> count (fun x => setLt x set) sets = p.
Proof.
  intros Hp. assert (sortedSets ≡ₚ sets) as Hperm by apply merge_sort_Permutation.
  rewrite <-(count_perm _ _ _ Hperm).
  assert (StronglySorted setLe sortedSets) as Hsorted.
  { pose proof setLe_total'. pose proof setLe_trans'. apply StronglySorted_merge_sort; apply _. }
  assert (NoDup (map s_id sortedSets)) as Hnd.
  { rewrite Hperm. apply NoDup_alt. intros i j id Hi Hj. rewrite list_lookup_fmap in Hi, Hj.
    apply fmap_Some in Hi as (s & Hs & ->). apply fmap_Some in Hj as (s' & Hs' & Heq).
    apply Hids in Hs, Hs'. congruence. }
  clear Hperm. revert p Hp. induction Hsorted as [|x rest Hsort IH Hle]; intros p Hp; [done|].
  simpl in Hnd. apply NoDup_cons in Hnd as [Hx Hnd]. rewrite Forall_forall in Hle.
  destruct p as [|p]; simpl in Hp.
  - injection Hp as ->. apply count_none. intros y [-> |Hy]%elem_of_cons; [unfold setLt; lia|].
    specialize (Hle y Hy). unfold setLe, setLt in *. lia.
  - rewrite count_cons, decide_True, (IH Hnd p Hp); [done|].
    apply list_elem_of_lookup_2 in Hp. specialize (Hle set Hp).
    assert (s_id x <> s_id set) as Hne.
    { intros E. apply Hx. rewrite E. by apply list_elem_of_fmap_2. }
    unfold setLe, setLt in *. lia.
Qed.

Definition startsAt (start : nat) (set : RegAllocTransformAliasSet) : Prop := startIndex set = start.
#[local] Instance startsAt_dec start set : Decision (startsAt start set).
Proof. unfold startsAt. apply _. Defined.
Definition startsBelow (start : nat) (set : RegAllocTransformAliasSet) : Prop :=
  (startIndex set < start)%nat.
#[local] Instance startsBelow_dec start set : Decision (startsBelow start set).
Proof. unfold startsBelow. apply _. Defined.

Lemma countStarts_lookup start :
  (start < positions)%nat -> countStarts positions sets !! start = Some (count (startsAt start) sets).
Proof.
  intros Hs. unfold countStarts.
  assert (forall l (counts : list nat) c, counts !! start = Some c ->
    foldl (fun counts set => alter S (startIndex set) counts) counts l !! start =
    Some (c + count (startsAt start) l)%nat) as Hgen.
  { clear. induction l as [|x l IH]; intros counts c Hc; cbn [foldl]; [by rewrite Nat.add_0_r|].
    rewrite count_cons. unfold startsAt at 1.
    destruct (decide (startIndex x = start)) as [<-|Hne].
    - rewrite (IH _ (S c)); [f_equal; lia|]. by rewrite list_lookup_alter_eq, Hc.
    - rewrite (IH _ c); [f_equal; lia|]. by rewrite list_lookup_alter_ne. }
  apply (Hgen sets _ 0%nat). by apply lookup_replicate.
Qed.
Lemma countStarts_length : length (countStarts positions sets) = positions.
Proof.
  unfold countStarts. assert (forall l (counts : list nat), length
    (foldl (fun counts set => alter S (startIndex set) counts) counts l) = length counts) as Hgen.
  { clear. induction l as [|x l IH]; intros counts; cbn [foldl]; [done|]. by rewrite IH, length_alter. }
  rewrite Hgen. apply length_replicate.
Qed.

Lemma startOffsets_lookup counts : forall offset start n,
  counts !! start = Some n ->
  startOffsets offset counts !! start = Some (offset + sum_list (take start counts))%nat.
Proof.
  induction counts as [|c counts IH]; intros offset [|start] n Hn; simplify_eq/=; [by rewrite Nat.add_0_r|].
  rewrite (IH _ _ _ Hn). f_equal. lia.
Qed.

(** Where the sets of a start begin. *)
Lemma startOffsets_count start :
  (start < positions)%nat ->
  startOffsets 0 (countStarts positions sets) !! start = Some (count (startsBelow start) sets).
Proof.
  intros Hs. rewrite (startOffsets_lookup _ _ _ _ (countStarts_lookup _ Hs)). f_equal. simpl.
  induction start as [|start IH].
  - rewrite take_0. symmetry. apply count_none. intros x _. unfold startsBelow. lia.
  - rewrite (take_S_r _ _ _ (countStarts_lookup start ltac:(lia))), sum_list_with_app.
    rewrite IH by lia. simpl.
    rewrite (count_split (startsBelow (S start)) (startsBelow start) (startsAt start));
      unfold startsBelow, startsAt; [simpl; lia|intros x _; lia|intros x; lia].
Qed.

(** Where a set is placed: after those of the same start with a smaller number. *)
Definition placeOf (i : nat) (set : RegAllocTransformAliasSet) : nat :=
  count (startsBelow (startIndex set)) sets + count (startsAt (startIndex set)) (take i sets).

Lemma placeOf_count i set : sets !! i = Some set ->
  placeOf i set = count (fun x => setLt x set) sets.
Proof.
  intros Hi. unfold placeOf. pose proof (Hids _ _ Hi) as Hid.
  assert (set ∈ sets) as Hin by (by apply list_elem_of_lookup_2 in Hi).
  pose proof (Hstarts set Hin) as [Hs _]. symmetry.
  rewrite (count_split (fun x => setLt x set) (startsBelow (startIndex set))
    (fun x => startsAt (startIndex set) x /\ (s_id x < i)%nat) sets).
  - f_equal. rewrite <-(take_drop i sets) at 1. rewrite count_app.
    rewrite (count_none _ (drop i sets)).
    + rewrite Nat.add_0_r. apply count_ext. intros x [j Hj]%list_elem_of_lookup.
      apply lookup_take_Some in Hj as [Hj Hlt]. apply Hids in Hj as ->. tauto.
    + intros x [j Hj]%list_elem_of_lookup. rewrite lookup_drop in Hj. apply Hids in Hj as ->. lia.
  - intros x Hx. pose proof (Hstarts x Hx) as [Hxs _].
    unfold setLt, startsBelow, startsAt, startIndex. rewrite Hid. lia.
  - unfold startsBelow, startsAt. intros x. lia.
Qed.

Lemma placeOf_sorted i set : sets !! i = Some set -> sortedSets !! placeOf i set = Some set.
Proof.
  intros Hi. assert (set ∈ sortedSets) as [p Hp]%list_elem_of_lookup.
  { unfold sortedSets. rewrite merge_sort_Permutation. by apply list_elem_of_lookup_2 in Hi. }
  by rewrite placeOf_count, (sorted_place p).
Qed.

(** After the first [n] sets they are in their places, and the next place of each
    start follows those of its sets so far. *)
Lemma place_all n :
  (n <= length sets)%nat ->
  let '(setOrder, next) :=
    foldl placeSet (replicate (length sets) 0%nat, startOffsets 0 (countStarts positions sets))
      (imap pair (take n sets)) in
  length setOrder = length sets /\
  (forall i set, (i < n)%nat -> sets !! i = Some set -> setOrder !! placeOf i set = Some i) /\
  forall start, (start < positions)%nat ->
    next !! start = Some (count (startsBelow start) sets + count (startsAt start) (take n sets))%nat.
Proof.
  induction n as [|n IH]; intros Hn.
  { rewrite take_0. simpl. split; [apply length_replicate|]. split; [lia|]. intros start Hs.
    rewrite startOffsets_count by done. f_equal. unfold count at 3. simpl. lia. }
  destruct (lookup_lt_is_Some_2 sets n) as [set Hset]; [lia|].
  rewrite (take_S_r _ _ _ Hset), imap_app, foldl_app. specialize (IH ltac:(lia)).
  destruct (foldl placeSet _ (imap pair (take n sets))) as [setOrder next].
  destruct IH as (Hlen & Hplaced & Hnext). simpl.
  assert (set ∈ sets) as Hin by (by apply list_elem_of_lookup_2 in Hset).
  pose proof (Hstarts set Hin) as [_ Hstart].
  rewrite length_take, Nat.min_l, Nat.add_0_r by lia.
  rewrite (Hnext _ Hstart). simpl. fold (placeOf n set). split; [by rewrite length_insert|]. split.
  - intros i x Hi Hx. destruct (decide (i = n)) as [-> |Hne].
    + assert (x = set) as -> by congruence. apply list_lookup_insert_eq. rewrite Hlen.
      apply placeOf_sorted, lookup_lt_Some in Hset. unfold sortedSets in Hset.
      by rewrite merge_sort_Permutation in Hset.
    + rewrite list_lookup_insert_ne; [apply Hplaced; [lia|done]|].
      intros Heq. apply Hne. apply placeOf_sorted in Hx as Hxp. apply placeOf_sorted in Hset as Hsp.
      rewrite Heq in Hsp. apply Hids in Hx, Hset. congruence.
  - intros start Hs. rewrite count_app. destruct (decide (startIndex set = start)) as [<-|Hne].
    + rewrite list_lookup_alter_eq, (Hnext _ Hs). simpl. f_equal.
      rewrite count_cons, decide_True by done. unfold count at 5. simpl. lia.
    + rewrite list_lookup_alter_ne, (Hnext _ Hs) by done. f_equal.
      rewrite count_cons, decide_False by done. unfold count at 5. simpl. lia.
Qed.

Lemma counting_sort : mapOutcome (at_index sets) (orderSets positions sets) = Ok sortedSets.
Proof.
  apply mapOutcome_spec. pose proof (place_all (length sets) ltac:(done)) as H.
  rewrite firstn_all in H. unfold orderSets. destruct (foldl placeSet _ _) as [setOrder next].
  destruct H as (Hlen & Hplaced & _). simpl. apply Forall2_same_length_lookup.
  assert (length sortedSets = length sets) as Hsl by (unfold sortedSets; by rewrite merge_sort_Permutation).
  split; [by rewrite Hlen, Hsl|]. intros p i set Hi Hset. apply at_index_Ok.
  assert (set ∈ sets) as [j Hj]%list_elem_of_lookup.
  { apply list_elem_of_lookup_2 in Hset. unfold sortedSets in Hset.
    by rewrite merge_sort_Permutation in Hset. }
  pose proof (Hplaced j set ltac:(by apply lookup_lt_Some in Hj) Hj) as Hp.
  rewrite placeOf_count, (sorted_place p) in Hp by done. congruence.
Qed.
End Order.

(** ** Slabs *)

Lemma foldM_app {A B} (f : A -> B -> outcome A) l k : forall a,
  foldM f a (l ++ k) = foldM f a l ≫= fun a => foldM f a k.
Proof. induction l as [|b l IH]; intros a; simpl; [done|]. by destruct (f a b). Qed.

(** A loop over positions with an invariant that says it goes on. *)
Lemma foldM_seq {A} (P : nat -> A -> Prop) (f : A -> nat -> outcome A) n : forall s a,
  P s a -> (forall k a, (s <= k < s + n)%nat -> P k a -> exists a', f a k = Ok a' /\ P (S k) a') ->
  exists r, foldM f a (seq s n) = Ok r /\ P (s + n)%nat r.
Proof.
  induction n as [|n IH]; intros s a Ha Hf; cbn [seq foldM].
  - exists a. by rewrite Nat.add_0_r.
  - destruct (Hf s a ltac:(lia) Ha) as (a' & -> & Ha').
    destruct (IH (S s) a' Ha') as (r & Hr & Hp); [intros k b Hk; apply Hf; lia|].
    exists r. split; [done|]. by replace (s + S n)%nat with (S s + n)%nat by lia.
Qed.

(** Where the part of the [k]-th element begins in a slab of parts. *)
Definition before {A B} (f : A -> list B) (l : list A) (k : nat) : nat := length (take k l ≫= f).

Lemma bind_middle {A B} (f : A -> list B) l k x :
  l !! k = Some x -> l ≫= f = (take k l ≫= f) ++ f x ++ (drop (S k) l ≫= f).
Proof. intros Hk. by rewrite <-bind_cons, <-bind_app, (take_drop_middle l k x Hk). Qed.
Lemma before_le {A B} (f : A -> list B) l k x :
  l !! k = Some x -> (before f l k + length (f x) <= length (l ≫= f))%nat.
Proof.
  intros Hk. unfold before. rewrite (bind_middle f l k x Hk), !length_app. lia.
Qed.
Lemma before_0 {A B} (f : A -> list B) l : before f l 0 = 0%nat.
Proof. unfold before. by rewrite take_0. Qed.
Lemma before_S {A B} (f : A -> list B) l k x :
  l !! k = Some x -> before f l (S k) = (before f l k + length (f x))%nat.
Proof.
  intros Hk. unfold before. rewrite (take_S_r _ _ _ Hk), bind_app, length_app, bind_cons.
  simpl. by rewrite app_nil_r.
Qed.
Lemma before_all {A B} (f : A -> list B) l : before f l (length l) = length (l ≫= f).
Proof. unfold before. by rewrite firstn_all. Qed.
Lemma before_app {A B} (f : A -> list B) l l' k : (k <= length l)%nat -> before f (l ++ l') k = before f l k.
Proof. intros Hk. unfold before. by rewrite take_app_le. Qed.

Lemma lookup_bind {A B} (f : A -> list B) l k x j y :
  l !! k = Some x -> f x !! j = Some y -> (l ≫= f) !! (before f l k + j)%nat = Some y.
Proof.
  intros Hk Hj. unfold before. rewrite (bind_middle f l k x Hk), lookup_app_r by lia.
  replace (length (take k l ≫= f) + j - length (take k l ≫= f))%nat with j by lia.
  by apply lookup_app_l_Some.
Qed.
Lemma slice_bind {A} (f : A -> list Z) l k x :
  l !! k = Some x -> sliceOf (l ≫= f) (before f l k) (length (f x)) = f x.
Proof.
  intros Hk. unfold before, sliceOf.
  by rewrite (bind_middle f l k x Hk), drop_app_length, take_app_length.
Qed.

(** Parts of one length. *)
Lemma before_const {A B} (f : A -> list B) n l k :
  (forall x, x ∈ l -> length (f x) = n) -> (k <= length l)%nat -> before f l k = (k * n)%nat.
Proof.
  intros Hn. induction k as [|k IH]; intros Hk; [apply before_0|].
  destruct (lookup_lt_is_Some_2 l k) as [x Hx]; [lia|]. rewrite (before_S _ _ _ _ Hx), IH by lia.
  rewrite Hn by (by apply list_elem_of_lookup_2 in Hx). lia.
Qed.
Lemma record_bind {A} (f : A -> list Z) n l k x :
  (forall x, x ∈ l -> length (f x) = n) -> l !! k = Some x -> recordAt (l ≫= f) n k = f x.
Proof.
  intros Hn Hk. unfold recordAt. rewrite <-(before_const f n l k Hn) by (apply lookup_lt_Some in Hk; lia).
  rewrite <-(Hn x) by (by apply list_elem_of_lookup_2 in Hk). by apply slice_bind.
Qed.
Lemma length_bind_const {A B} (f : A -> list B) n l :
  (forall x, x ∈ l -> length (f x) = n) -> length (l ≫= f) = (length l * n)%nat.
Proof. intros Hn. rewrite <-before_all. by apply before_const. Qed.

Lemma mjoin_bind {A} (l : list (list A)) : mjoin l = l ≫= id.
Proof. induction l as [|x l IH]; [done|]. rewrite bind_cons, <-IH. done. Qed.

(** Records with their positions. *)
Lemma record_imap {A} (row : nat -> A -> list Z) n l k x :
  (forall k x, length (row k x) = n) -> l !! k = Some x ->
  recordAt (mjoin (imap row l)) n k = row k x.
Proof.
  intros Hn Hk. rewrite mjoin_bind.
  rewrite (record_bind id n _ k (row k x)); [done| |by rewrite list_lookup_imap, Hk].
  intros r (i & y & -> & _)%elem_of_lookup_imap. apply Hn.
Qed.
Lemma length_imap_rows {A} (row : nat -> A -> list Z) n l :
  (forall k x, length (row k x) = n) -> length (mjoin (imap row l)) = (length l * n)%nat.
Proof.
  intros Hn. rewrite mjoin_bind.
  rewrite (length_bind_const id n), length_imap; [done|].
  intros r (i & y & -> & _)%elem_of_lookup_imap. apply Hn.
Qed.
Lemma imap_snoc_rows {A} (row : list A -> nat -> A -> list Z) l x :
  (forall k y, l !! k = Some y -> row (l ++ [x]) k y = row l k y) ->
  mjoin (imap (row (l ++ [x])) (l ++ [x])) = mjoin (imap (row l) l) ++ row (l ++ [x]) (length l) x.
Proof.
  intros Hrow. rewrite imap_app, join_app. simpl. rewrite Nat.add_0_r, app_nil_r.
  by rewrite (imap_ext _ (row l)).
Qed.

(** ** What is packed *)

Definition tracked (c : RegClass.t) : Prop := c = RegClass.SGPR \/ c = RegClass.VGPR \/ c = RegClass.AGPR.
Definition classCode (c : RegClass.t) : Z :=
  match c with RegClass.SGPR => PackedSGPR | RegClass.VGPR => PackedVGPR | _ => PackedAGPR end.
Lemma packRegAllocClass_ok c : tracked c -> packRegAllocClass c = Ok (classCode c).
Proof. by intros [-> |[-> | ->]]. Qed.
Lemma unpack_classCode c : tracked c -> unpackRegAllocClass (classCode c) = Ok c.
Proof. by intros [-> |[-> | ->]]. Qed.

Definition opRow (ops : list RegAllocAliasOp) (k : nat) (op : RegAllocAliasOp) : list Z :=
  [Z.of_nat (before ao_path ops k); Z.of_nat (length (ao_path op))].
Definition valueRow (values : list RegAllocAliasValue) (k : nat) (value : RegAllocAliasValue) : list Z :=
  [classCode (type_class (av_type value));
   if av_blockArgument value then PackedBlockArgument else PackedOpResult;
   type_index (av_type value); Z.of_nat (av_aliasSet value); av_start value; av_end value;
   type_width (av_type value); av_offset value; av_number value;
   Z.of_nat (before av_path values k); Z.of_nat (length (av_path value));
   Z.of_nat (before av_ranges values k); Z.of_nat (length (av_ranges value))].
Definition memberEnd (values : list RegAllocAliasValue) (member : nat) : Z :=
  match values !! member with
  | Some value => av_offset value + type_width (av_type value)
  | None => 0
  end.
Definition setWidth (values : list RegAllocAliasValue) (members : list nat) : Z :=
  foldl (fun width member => Z.max width (memberEnd values member)) 0 members.
Definition setClass (values : list RegAllocAliasValue) (members : list nat) : RegClass.t :=
  match members ≫= (fun member => option_list (values !! member)) with
  | value :: _ => type_class (av_type value)
  | [] => RegClass.SGPR
  end.
Definition setRow (values : list RegAllocAliasValue) (sets : list RegAllocAliasSet) (k : nat)
    (set : RegAllocAliasSet) : list Z :=
  [classCode (setClass values (as_members set)); setWidth values (as_members set);
   Z.of_nat (before as_members sets k); Z.of_nat (length (as_members set))].

Definition packedOf (state : AliasState) : RegAllocStateAttr :=
  let values := st_values state in
  mkPacked kVersion
    (mjoin (imap (opRow (st_ops state)) (st_ops state))) (st_ops state ≫= ao_path)
    (mjoin (imap (valueRow values) values)) (values ≫= av_path)
    ((values ≫= av_ranges) ≫= packRange)
    (mjoin (imap (setRow values (st_aliasSets state)) (st_aliasSets state)))
    ((st_aliasSets state ≫= as_members) ≫= fun member => [Z.of_nat member]).

Lemma packOps_closed ops :
  foldl packOp (mkPacked kVersion [] [] [] [] [] [] []) ops =
  mkPacked kVersion (mjoin (imap (opRow ops) ops)) (ops ≫= ao_path) [] [] [] [] [].
Proof.
  induction ops as [|op ops IH] using rev_ind; [done|]. rewrite foldl_app, IH. cbn [foldl].
  unfold packOp. simpl. f_equal.
  - rewrite (imap_snoc_rows opRow).
    + unfold opRow at 3. by rewrite before_app, before_all by done.
    + intros k y Hk. apply lookup_lt_Some in Hk. unfold opRow. by rewrite before_app by lia.
  - by rewrite bind_app, bind_cons, app_nil_r.
Qed.

Lemma length_packRanges ranges : length (ranges ≫= packRange) = (length ranges * 2)%nat.
Proof. by apply length_bind_const. Qed.

Lemma packValues_closed ops opPaths values :
  (forall value, value ∈ values -> tracked (type_class (av_type value))) ->
  foldM packValue (mkPacked kVersion ops opPaths [] [] [] [] []) values =
  Ok (mkPacked kVersion ops opPaths (mjoin (imap (valueRow values) values)) (values ≫= av_path)
        ((values ≫= av_ranges) ≫= packRange) [] []).
Proof.
  induction values as [|value values IH] using rev_ind; intros Htracked; [done|].
  rewrite foldM_app, IH by (intros; apply Htracked; set_solver). cbn [foldM mbind outcome_bind].
  unfold packValue. rewrite packRegAllocClass_ok by (apply Htracked; set_solver).
  cbn [mbind outcome_bind pk_version pk_ops pk_opPaths pk_values pk_valuePaths pk_valueRanges
    pk_aliasSets pk_aliasMembers]. do 2 f_equal.
  - rewrite (imap_snoc_rows valueRow).
    + f_equal. unfold valueRow. rewrite !before_app, !before_all by done.
      rewrite length_packRanges. unfold RangeFieldCount. by rewrite Nat.div_mul.
    + intros k y Hk. apply lookup_lt_Some in Hk. unfold valueRow. by rewrite !before_app by lia.
  - by rewrite bind_app, bind_cons, app_nil_r.
  - rewrite !bind_app, bind_cons. simpl. by rewrite app_nil_r.
Qed.

Lemma foldM_ext_in {A B} (f g : A -> B -> outcome A) l : forall a,
  (forall a b, b ∈ l -> f a b = g a b) -> foldM f a l = foldM g a l.
Proof.
  induction l as [|b l IH]; intros a Hfg; cbn [foldM]; [done|]. rewrite Hfg by left.
  destruct (g a b); [|done|done]. apply IH. intros. apply Hfg. by right.
Qed.
Lemma foldM_Ok {A B} (f : A -> B -> A) l : forall a, foldM (fun a b => Ok (f a b)) a l = Ok (foldl f a l).
Proof. induction l as [|b l IH]; intros a; [done|]. apply IH. Qed.

(** The members of a set are values of tracked classes. *)
Definition membersOk (values : list RegAllocAliasValue) (members : list nat) : Prop :=
  members <> [] /\ forall member, member ∈ members ->
    exists value, values !! member = Some value /\ tracked (type_class (av_type value)).

Lemma setClass_front values member members value :
  values !! member = Some value -> setClass values (member :: members) = type_class (av_type value).
Proof. intros Hv. unfold setClass. by rewrite bind_cons, Hv. Qed.

Lemma packAliasSets_closed values p sets :
  pk_aliasSets p = [] -> pk_aliasMembers p = [] ->
  Forall (fun set => membersOk values (as_members set)) sets ->
  foldM (packAliasSet values) p sets =
  Ok (mkPacked (pk_version p) (pk_ops p) (pk_opPaths p) (pk_values p) (pk_valuePaths p) (pk_valueRanges p)
        (mjoin (imap (setRow values sets) sets)) ((sets ≫= as_members) ≫= fun member => [Z.of_nat member])).
Proof.
  intros Hs Hm. induction sets as [|set sets IH] using rev_ind; intros Hok.
  { simpl. destruct p. simpl in *. by subst. }
  apply Forall_app in Hok as [Hok Hset]. apply Forall_singleton in Hset as [Hne Hmembers].
  rewrite foldM_app, IH by done. cbn [foldM mbind outcome_bind]. unfold packAliasSet.
  destruct (as_members set) as [|front rest] eqn:Hmem; [done|].
  destruct (Hmembers front ltac:(left)) as (first & Hfirst & Htracked).
  cbn [at_index lookup list_lookup mbind outcome_bind]. 
  rewrite (proj2 (at_index_Ok values front first) Hfirst). cbn [mbind outcome_bind].
  rewrite (packRegAllocClass_ok _ Htracked). cbn [mbind outcome_bind].
  rewrite (foldM_ext_in _ (fun width member => Ok (Z.max width (memberEnd values member)))).
  2: { intros width member Hin. destruct (Hmembers member Hin) as (value & Hv & _).
       rewrite (proj2 (at_index_Ok values member value) Hv). unfold memberEnd. by rewrite Hv. }
  rewrite foldM_Ok. cbn [mbind outcome_bind pk_version pk_ops pk_opPaths pk_values pk_valuePaths pk_valueRanges
    pk_aliasSets pk_aliasMembers]. do 2 f_equal.
  - rewrite (imap_snoc_rows (setRow values)).
    + f_equal. unfold setRow. rewrite Hmem, (setClass_front _ _ _ _ Hfirst), before_app, before_all by done.
      rewrite (length_bind_const _ 1) by done. by rewrite Nat.mul_1_r.
    + intros k y Hk. apply lookup_lt_Some in Hk. unfold setRow. by rewrite !before_app by lia.
  - rewrite !bind_app, bind_cons, Hmem. simpl. by rewrite app_nil_r.
Qed.

(** What the builder has when it packs. *)
Record valuePackable (positions : nat) (i : nat) (value : RegAllocAliasValue) : Prop := {
  vp_id : av_id value = i;
  vp_path : av_path value <> [] /\ forall c, c ∈ av_path value -> isRegAllocPackedUnsigned c = true;
  vp_record : recordOk value;
  vp_start : 0 <= av_start value <= Z.of_nat positions;
  vp_end : av_end value <= UINT_MAX;
  vp_class : tracked (type_class (av_type value));
  vp_index : type_index (av_type value) = -1 \/ isRegAllocPackedUnsigned (type_index (av_type value)) = true;
  vp_width : 0 < type_width (av_type value);
  vp_offset : 0 <= av_offset value;
  vp_fits : av_offset value + type_width (av_type value) <= UINT_MAX;
  vp_number : isRegAllocPackedUnsigned (av_number value) = true
}.

Record packable (state : AliasState) : Prop := {
  pb_ops op : op ∈ st_ops state ->
    ao_path op <> [] /\ forall c, c ∈ ao_path op -> isRegAllocPackedUnsigned c = true;
  pb_values i value : st_values state !! i = Some value -> valuePackable (length (st_ops state)) i value;
  pb_sets k set : st_aliasSets state !! k = Some set ->
    as_id set = k /\ as_members set <> [] /\ NoDup (as_members set) /\
    forall m, m ∈ as_members set ->
      exists value, st_values state !! m = Some value /\ av_aliasSet value = k;
  pb_member i value : st_values state !! i = Some value ->
    exists set, st_aliasSets state !! av_aliasSet value = Some set /\ i ∈ as_members set;
  pb_classes i j lhs rhs : st_values state !! i = Some lhs -> st_values state !! j = Some rhs ->
    av_aliasSet lhs = av_aliasSet rhs -> type_class (av_type lhs) = type_class (av_type rhs);
  pb_opPathSize : Z.of_nat (length (st_ops state ≫= ao_path)) <= UINT_MAX;
  pb_pathSize : Z.of_nat (length (st_values state ≫= av_path)) <= UINT_MAX;
  pb_rangeSize : Z.of_nat (length (st_values state ≫= av_ranges)) <= UINT_MAX;
  pb_valueSize : Z.of_nat (length (st_values state)) <= UINT_MAX
}.

Lemma unsigned_intro x : 0 <= x <= UINT_MAX -> isRegAllocPackedUnsigned x = true.
Proof. unfold isRegAllocPackedUnsigned. intros Hx. apply andb_true_iff. rewrite !Z.leb_le. lia. Qed.

Lemma slice_accept begin count size :
  (begin + count <= size)%nat -> Z.of_nat size <= UINT_MAX ->
  verifyRegAllocPackedSlice (Z.of_nat begin) (Z.of_nat count) size = Ok ().
Proof.
  intros Hfits Hsize. unfold verifyRegAllocPackedSlice. rewrite !unsigned_intro by lia. simpl.
  rewrite !(proj2 (Z.leb_le _ _)) by lia. done.
Qed.

Lemma length_nonzero {A} (l : list A) : l <> [] -> (Z.of_nat (length l) =? 0) = false.
Proof. destruct l; [done|]. intros _. apply Z.eqb_neq. simpl. lia. Qed.

Lemma paths_accept {A} (f : A -> list Z) l :
  (forall x, x ∈ l -> forall c, c ∈ f x -> isRegAllocPackedUnsigned c = true) ->
  verifyRegAllocPackedPathComponents (l ≫= f) = Ok ().
Proof.
  intros Hf. unfold verifyRegAllocPackedPathComponents.
  rewrite (proj2 (forallb_forall _ _)); [done|].
  intros c (x & Hc & Hx)%list_elem_of_In%list_elem_of_bind. by apply (Hf x).
Qed.

Lemma foldl_snoc {A B} (f : A -> B -> A) a l b : foldl f a (l ++ [b]) = f (foldl f a l) b.
Proof. by rewrite foldl_app. Qed.

Lemma foldl_max_ge {A} (f : A -> Z) l : forall a,
  a <= foldl (fun w x => Z.max w (f x)) a l /\
  forall x, x ∈ l -> f x <= foldl (fun w x => Z.max w (f x)) a l.
Proof.
  induction l as [|y l IH]; intros a; simpl; [split; [done|by intros ? ?%elem_of_nil]|].
  destruct (IH (Z.max a (f y))) as [Ha Hx]. split; [lia|].
  intros x [-> |Hin]%elem_of_cons; [lia|by apply Hx].
Qed.

Lemma foldl_max_le {A} (f : A -> Z) l b : forall a,
  a <= b -> (forall x, x ∈ l -> f x <= b) -> foldl (fun w x => Z.max w (f x)) a l <= b.
Proof.
  induction l as [|y l IH]; intros a Ha Hx; simpl; [done|]. apply IH.
  - specialize (Hx y ltac:(left)). lia.
  - intros x Hin. apply Hx. by right.
Qed.

Lemma unpack_nat n : Z.of_nat n <= UINT_MAX -> unpackRegAllocUnsigned (Z.of_nat n) = Z.of_nat n.
Proof. unfold UINT_MAX, unpackRegAllocUnsigned. intros. apply u32_small. lia. Qed.

Lemma unpack_small x : 0 <= x <= UINT_MAX -> unpackRegAllocUnsigned x = x.
Proof. unfold UINT_MAX, unpackRegAllocUnsigned. intros. apply u32_small. lia. Qed.

(** The first range begins, and the last one ends, where the record says. *)
Lemma record_bounds record : recordOk record ->
  (forall r, av_ranges record !! 0%nat = Some r -> live_start r = av_start record) /\
  (forall j r, av_ranges record !! j = Some r -> S j = length (av_ranges record) ->
     live_end r = av_end record) /\
  av_ranges record <> [].
Proof.
  intros [Hok Hwithin (rs & Hrs & Hs) (re & Hre & He)]. unfold liveAt in Hs, He.
  apply list_elem_of_lookup in Hrs as [js Hjs]. apply list_elem_of_lookup in Hre as [je Hje].
  assert (forall j r, av_ranges record !! j = Some r -> live_start r <= live_end r /\
    av_start record <= live_start r /\ live_end r <= av_end record) as Hin.
  { intros j r Hj%list_elem_of_lookup_2. pose proof (rangesOk_elem _ _ Hok Hj) as Hr. split; [done|].
    split; apply Hwithin; exists r; (split; [done|]); unfold liveAt; lia. }
  split; [|split].
  - intros r H0. destruct (Hin _ _ H0) as (? & ? & ?).
    destruct (decide (js = 0%nat)) as [-> |Hne]; [simplify_eq; lia|].
    pose proof (rangesOk_lookup _ 0 js r rs Hok H0 Hjs ltac:(lia)). lia.
  - intros j r Hj Hlast. destruct (Hin _ _ Hj) as (? & ? & ?).
    destruct (decide (je = j)) as [-> |Hne]; [simplify_eq; lia|].
    apply lookup_lt_Some in Hje as Hlt.
    pose proof (rangesOk_lookup _ je j re r Hok Hje Hj ltac:(lia)). lia.
  - intros E. by rewrite E in Hjs.
Qed.

Lemma setOfMembers_start members regClass id width decodedValues set :
  (forall v, v ∈ decodedValues -> 0 <= v_start v) ->
  setOfMembers members regClass id width decodedValues = Ok set -> 0 <= s_start set.
Proof.
  intros Hstart H. unfold setOfMembers in H. apply outcome_bind_Ok in H as ([start end_] & Hf & H).
  injection H as <-. cbn [s_start].
  apply (foldM_invariant (fun state => 0 <= state.1) _ _ _ (start, end_)) in Hf; [done| |by cbn].
  intros [s e] m a' _ Hs Hstep. apply outcome_bind_Ok in Hstep as (v & Hv%at_index_Ok & [= <-]).
  cbn [fst] in *. apply list_elem_of_lookup_2, Hstart in Hv. lia.
Qed.

Section Packed.
Context (state : AliasState) (Hstate : packable state).
#[local] Set Default Proof Using "All".
Let values := st_values state.
Let sets := st_aliasSets state.

Lemma set_members_ok set : set ∈ sets -> membersOk values (as_members set).
Proof.
  intros [k Hk]%list_elem_of_lookup. destruct (pb_sets _ Hstate _ _ Hk) as (_ & Hne & _ & Hm).
  split; [done|]. intros m Hin. destruct (Hm m Hin) as (value & Hv & _). exists value.
  split; [done|]. apply (vp_class _ _ _ (pb_values _ Hstate _ _ Hv)).
Qed.

Lemma buildPackedAttr_ok : buildPackedAttr state = Ok (packedOf state).
Proof.
  unfold buildPackedAttr. rewrite packOps_closed, packValues_closed.
  - cbn [mbind outcome_bind]. rewrite packAliasSets_closed; [done|done|done|]. apply Forall_forall, set_members_ok.
  - intros value [i Hi]%list_elem_of_lookup. apply (vp_class _ _ _ (pb_values _ Hstate _ _ Hi)).
Qed.

(** The sizes of the slabs of sets follow from that of the values. *)
Lemma members_nodup : NoDup (sets ≫= as_members).
Proof.
  apply NoDup_bind.
  - intros a b m [i Hi]%list_elem_of_lookup [j Hj]%list_elem_of_lookup Ha Hb.
    destruct (pb_sets _ Hstate _ _ Hi) as (_ & _ & _ & Hmi).
    destruct (pb_sets _ Hstate _ _ Hj) as (_ & _ & _ & Hmj).
    destruct (Hmi m Ha) as (v & Hv & <-). destruct (Hmj m Hb) as (v' & Hv' & <-). congruence.
  - intros set [k Hk]%list_elem_of_lookup. by destruct (pb_sets _ Hstate _ _ Hk) as (_ & _ & ? & _).
  - apply NoDup_alt. intros i j set Hi Hj.
    destruct (pb_sets _ Hstate _ _ Hi) as [<- _]. by destruct (pb_sets _ Hstate _ _ Hj) as [<- _].
Qed.
Lemma members_size : (length (sets ≫= as_members) <= length values)%nat.
Proof.
  rewrite <-(length_seq (length values) 0). apply submseteq_length, NoDup_submseteq; [apply members_nodup|].
  intros m (set & Hm & [k Hk]%list_elem_of_lookup)%list_elem_of_bind.
  destruct (pb_sets _ Hstate _ _ Hk) as (_ & _ & _ & Hmk). destruct (Hmk m Hm) as (v & Hv & _).
  apply elem_of_seq. apply lookup_lt_Some in Hv. unfold values. lia.
Qed.
Lemma sets_size : (length sets <= length (sets ≫= as_members))%nat.
Proof.
  assert (forall l, (forall set, set ∈ l -> as_members set <> []) ->
    length l <= length (l ≫= as_members))%nat as Hgen.
  { clear. induction l as [|set l IH]; intros Hne; [done|]. rewrite bind_cons, length_app.
    specialize (IH ltac:(intros; apply Hne; by right)). specialize (Hne set ltac:(left)).
    destruct (as_members set); [done|]. simpl. lia. }
  apply Hgen. intros set [k Hk]%list_elem_of_lookup. by apply (pb_sets _ Hstate _ _) in Hk as (_ & ? & _).
Qed.

(** *** The records of the slabs *)

Let p := packedOf state.

Lemma value_count : (length (pk_values p) / ValueFieldCount)%nat = length values /\
  (length (pk_values p) mod ValueFieldCount)%nat = 0%nat.
Proof.
  unfold p, packedOf. cbn [pk_values pk_aliasSets pk_ops]. rewrite (length_imap_rows _ ValueFieldCount) by done.
  split; [by apply Nat.div_mul|apply Nat.Div0.mod_mul].
Qed.
Lemma set_count : (length (pk_aliasSets p) / AliasSetFieldCount)%nat = length sets /\
  (length (pk_aliasSets p) mod AliasSetFieldCount)%nat = 0%nat.
Proof.
  unfold p, packedOf. cbn [pk_values pk_aliasSets pk_ops]. rewrite (length_imap_rows _ AliasSetFieldCount) by done.
  split; [by apply Nat.div_mul|apply Nat.Div0.mod_mul].
Qed.
Lemma op_count : (length (pk_ops p) / OpFieldCount)%nat = length (st_ops state) /\
  (length (pk_ops p) mod OpFieldCount)%nat = 0%nat.
Proof.
  unfold p, packedOf. cbn [pk_values pk_aliasSets pk_ops]. rewrite (length_imap_rows _ OpFieldCount) by done.
  split; [by apply Nat.div_mul|apply Nat.Div0.mod_mul].
Qed.
Lemma range_count : (length (pk_valueRanges p) / RangeFieldCount)%nat = length (values ≫= av_ranges) /\
  (length (pk_valueRanges p) mod RangeFieldCount)%nat = 0%nat.
Proof.
  unfold p, packedOf. cbn [pk_valueRanges]. rewrite length_packRanges. split; [by apply Nat.div_mul|apply Nat.Div0.mod_mul].
Qed.
Lemma member_count : length (pk_aliasMembers p) = length (sets ≫= as_members).
Proof. unfold p, packedOf. cbn [pk_aliasMembers]. rewrite (length_bind_const _ 1) by done. by rewrite Nat.mul_1_r. Qed.

Lemma value_record i value : values !! i = Some value ->
  recordAt (pk_values p) ValueFieldCount i = valueRow values i value.
Proof. intros Hi. by apply record_imap. Qed.
Lemma set_record k set : sets !! k = Some set ->
  recordAt (pk_aliasSets p) AliasSetFieldCount k = setRow values sets k set.
Proof. intros Hk. by apply record_imap. Qed.
Lemma op_record k op : st_ops state !! k = Some op ->
  recordAt (pk_ops p) OpFieldCount k = opRow (st_ops state) k op.
Proof. intros Hk. by apply record_imap. Qed.

Lemma range_record i value j range : values !! i = Some value -> av_ranges value !! j = Some range ->
  recordAt (pk_valueRanges p) RangeFieldCount (before av_ranges values i + j) = packRange range.
Proof. intros Hi Hj. apply record_bind; [done|]. by apply (lookup_bind av_ranges values i value). Qed.
Lemma member_field k set j m : sets !! k = Some set -> as_members set !! j = Some m ->
  field (pk_aliasMembers p) (before as_members sets k + j) = Z.of_nat m.
Proof.
  intros Hk Hj. unfold field.
  change (pk_aliasMembers p) with ((sets ≫= as_members) ≫= fun m => [Z.of_nat m]).
  pose proof (lookup_bind as_members sets k set j m Hk Hj) as H.
  pose proof (lookup_bind (fun m => [Z.of_nat m]) _ _ _ 0 _ H eq_refl) as H'.
  rewrite (before_const _ 1), Nat.mul_1_r, Nat.add_0_r in H'; [by rewrite H'|done|].
  apply lookup_lt_Some in H. unfold sets in *. lia.
Qed.

(** *** They pass the verifier *)

(** Read the fields of a record. *)
Ltac fields :=
  cbn [field lookup list_lookup from_option id OpPathBegin OpPathLength ValueRegClass ValueKind ValueFixed
    ValueSet ValueStart ValueEnd ValueWidth ValueOffset ValueNumber ValuePathBegin ValuePathLength
    ValueRangeBegin ValueRangeCount RangeStart RangeEnd AliasSetRegClass AliasSetWidth
    AliasSetMemberBegin AliasSetMemberCount valueRow setRow opRow packRange].
Ltac step := cbn [check mbind outcome_bind negb andb orb].

(** Run a loop of the verifier with an invariant. *)
Ltac run_loop P :=
  match goal with
  | |- context [foldM ?f ?a (seq ?s ?n)] =>
      let r := fresh "r" in let Hr := fresh "Hr" in let Hrun := fresh "Hrun" in
      destruct (foldM_seq P f n s a) as (r & Hrun & Hr); [| |rewrite Hrun; clear Hrun]
  end.

Lemma ops_accept : verifyRegAllocPackedOps (pk_ops p) (pk_opPaths p) = Ok ().
Proof.
  unfold verifyRegAllocPackedOps. rewrite (proj1 op_count).
  run_loop (fun k next => next = Z.of_nat (before ao_path (st_ops state) k)).
  - by rewrite before_0.
  - intros k next Hk ->. destruct (lookup_lt_is_Some_2 (st_ops state) k) as [op Hop]; [lia|].
    rewrite (op_record k op Hop). fields.
    rewrite Z.eqb_refl. cbn [check mbind outcome_bind].
    pose proof (before_le ao_path _ _ _ Hop). pose proof (pb_opPathSize _ Hstate).
    rewrite slice_accept by (done || (simpl; lia)). cbn [mbind outcome_bind].
    destruct (pb_ops _ Hstate op) as [Hne _]; [by apply list_elem_of_lookup_2 in Hop|].
    rewrite length_nonzero by done. cbn [check negb mbind outcome_bind]. eexists. split; [done|].
    rewrite (before_S _ _ _ _ Hop). lia.
  - simpl in Hr. subst. rewrite before_all. cbn [mbind outcome_bind]. simpl pk_opPaths.
    rewrite Z.eqb_refl. cbn [check mbind outcome_bind]. apply paths_accept.
    intros op Hop. by apply (pb_ops _ Hstate op).
Qed.

Lemma ranges_bounds i value r : values !! i = Some value -> r ∈ av_ranges value ->
  0 <= live_start r /\ live_start r <= live_end r /\ live_end r <= UINT_MAX.
Proof.
  intros Hi Hr. destruct (pb_values _ Hstate _ _ Hi) as [_ _ [Hok Hwithin _ _] Hstart Hend _ _ _ _ _ _].
  pose proof (rangesOk_elem _ _ Hok Hr) as Hle.
  assert (forall p, live_start r <= p <= live_end r -> av_start value <= p <= av_end value) as Hp.
  { intros q Hq. apply Hwithin. by exists r. }
  pose proof (Hp (live_start r) ltac:(lia)). pose proof (Hp (live_end r) ltac:(lia)). lia.
Qed.

Lemma live_ranges_accept i value : values !! i = Some value ->
  verifyRegAllocPackedLiveRanges (valueRow values i value) (pk_valueRanges p) = Ok ().
Proof.
  intros Hi. destruct (pb_values _ Hstate _ _ Hi) as [_ _ Hrecord _ _ _ _ _ _ _ _].
  destruct (record_bounds value Hrecord) as (Hfirst & Hlast & _).
  unfold verifyRegAllocPackedLiveRanges. fields. rewrite !Nat2Z.id.
  run_loop (fun j prior => (j = 0%nat -> prior = -1) /\
    forall j' r, j = S j' -> av_ranges value !! j' = Some r -> prior = live_end r).
  - by split.
  - intros j prior Hj [H0 HS]. destruct (lookup_lt_is_Some_2 (av_ranges value) j) as [r Hr]; [lia|].
    rewrite (range_record i value j r Hi Hr). fields.
    destruct (ranges_bounds i value r Hi) as (? & ? & ?); [by apply list_elem_of_lookup_2 in Hr|].
    rewrite !unsigned_intro by lia. rewrite (proj2 (Z.leb_le _ _)) by lia.
    assert (prior < live_start r) as Hlt.
    { destruct j as [|j']; [rewrite H0 by done; lia|].
      destruct (lookup_lt_is_Some_2 (av_ranges value) j') as [r' Hr']; [lia|].
      rewrite (HS j' r' eq_refl Hr'). apply (rangesOk_lookup (av_ranges value) j' (S j')); [apply Hrecord|done|done|lia]. }
    rewrite (proj2 (Z.ltb_lt _ _)) by lia. step.
    assert (negb (j =? 0)%nat || (live_start r =? av_start value) = true) as ->.
    { destruct (Nat.eqb_spec j 0) as [-> |]; [|done]. by rewrite (Hfirst r Hr), Z.eqb_refl. }
    assert (negb (S j =? length (av_ranges value))%nat || (live_end r =? av_end value) = true) as ->.
    { destruct (Nat.eqb_spec (S j) (length (av_ranges value))) as [E|]; [|done].
      by rewrite (Hlast j r Hr E), Z.eqb_refl. }
    step. eexists. split; [done|]. split; [done|]. intros j' r' [= <-] Hr'. congruence.
  - done.
Qed.

Lemma aliasSet_bound i value : values !! i = Some value ->
  (av_aliasSet value < length sets)%nat /\ Z.of_nat (length sets) <= UINT_MAX.
Proof.
  intros Hi. destruct (pb_member _ Hstate _ _ Hi) as (set & Hset & _). apply lookup_lt_Some in Hset.
  pose proof members_size. pose proof sets_size. pose proof (pb_valueSize _ Hstate).
  unfold sets, values in *. lia.
Qed.

Lemma identity_accept i value : values !! i = Some value ->
  verifyRegAllocPackedValueIdentity (valueRow values i value) (length sets) = Ok ().
Proof.
  intros Hi. destruct (pb_values _ Hstate _ _ Hi) as [_ _ _ _ _ Hclass Hindex _ _ _ _].
  destruct (aliasSet_bound i value Hi). unfold verifyRegAllocPackedValueIdentity. fields.
  assert ((PackedSGPR <=? classCode (type_class (av_type value))) &&
    (classCode (type_class (av_type value)) <=? PackedAGPR) = true) as ->.
  { by destruct Hclass as [-> |[-> | ->]]. }
  step. replace ((PackedBlockArgument <=? _) && _) with true by (by destruct (av_blockArgument value)).
  step. replace ((type_index (av_type value) =? -1) || _) with true
    by (destruct Hindex as [-> | ->]; [done|by rewrite orb_true_r]).
  step. rewrite unsigned_intro by lia. rewrite (proj2 (Z.ltb_lt _ _)) by lia. done.
Qed.
Lemma rangeFields_accept i value : values !! i = Some value ->
  verifyRegAllocPackedValueRangeFields (valueRow values i value) = Ok ().
Proof.
  intros Hi. destruct (pb_values _ Hstate _ _ Hi) as [_ _ Hrecord ? ? _ _ ? ? ? Hnumber].
  assert (av_start value <= av_end value) as Hle.
  { destruct (rec_start _ Hrecord) as (r & Hr & Hs).
    assert (inRanges (av_start value) (av_ranges value)) as Hin by (by exists r).
    apply (rec_within _ Hrecord) in Hin. lia. }
  unfold verifyRegAllocPackedValueRangeFields. fields. rewrite Hnumber, !unsigned_intro by lia.
  rewrite (proj2 (Z.leb_le _ _)) by lia. rewrite (proj2 (Z.eqb_neq _ _)) by lia. done.
Qed.
Lemma slices_accept i value : values !! i = Some value ->
  verifyRegAllocPackedValueSlices (valueRow values i value) (length (values ≫= av_path))
    (length (values ≫= av_ranges))
    (Z.of_nat (before av_path values i), Z.of_nat (before av_ranges values i)) =
  Ok (Z.of_nat (before av_path values (S i)), Z.of_nat (before av_ranges values (S i))).
Proof.
  intros Hi. destruct (pb_values _ Hstate _ _ Hi) as [_ [Hpath _] Hrecord _ _ _ _ _ _ _ _].
  destruct (record_bounds value Hrecord) as (_ & _ & Hranges).
  pose proof (before_le av_path _ _ _ Hi). pose proof (before_le av_ranges _ _ _ Hi).
  pose proof (pb_pathSize _ Hstate). pose proof (pb_rangeSize _ Hstate).
  unfold verifyRegAllocPackedValueSlices. fields. rewrite !Z.eqb_refl. step.
  rewrite slice_accept by (done || (unfold values in *; lia)). step. rewrite length_nonzero by done. step.
  rewrite slice_accept by (done || (unfold values in *; lia)). step. rewrite length_nonzero by done. step.
  rewrite !(before_S _ _ _ _ Hi). do 2 f_equal; lia.
Qed.

Lemma values_accept :
  verifyRegAllocPackedValues (pk_values p) (pk_valuePaths p) (pk_valueRanges p) (length sets) = Ok ().
Proof.
  unfold verifyRegAllocPackedValues. rewrite (proj1 value_count), (proj1 range_count).
  change (pk_valuePaths p) with (values ≫= av_path).
  run_loop (fun i next => next =
    (Z.of_nat (before av_path values i), Z.of_nat (before av_ranges values i))).
  - by rewrite !before_0.
  - intros i next Hi ->. destruct (lookup_lt_is_Some_2 values i) as [value Hvalue]; [lia|].
    rewrite (value_record i value Hvalue), (identity_accept i value Hvalue). step.
    rewrite (rangeFields_accept i value Hvalue). step. rewrite (slices_accept i value Hvalue). step.
    rewrite (live_ranges_accept i value Hvalue). step. by eexists.
  - simpl in Hr. subst. rewrite !before_all. step. rewrite !Z.eqb_refl. step. apply paths_accept.
    intros value [i Hi]%list_elem_of_lookup. by destruct (vp_path _ _ _ (pb_values _ Hstate _ _ Hi)).
Qed.

(** A value is seen once the set that has it is. *)
Definition seenAre (seen : list bool) (members : list nat) : Prop :=
  length seen = length values /\
  forall i, (i < length values)%nat -> seen !! i = Some (bool_decide (i ∈ members)).

Lemma seen_snoc seen members m :
  seenAre seen members -> seenAre (<[m := true]> seen) (members ++ [m]).
Proof.
  intros [Hlen Hseen]. split; [by rewrite length_insert|]. intros i Hi.
  destruct (decide (i = m)) as [-> |Hne].
  - rewrite list_lookup_insert_eq by lia. rewrite bool_decide_eq_true_2; [done|].
    apply elem_of_app. right. left.
  - rewrite list_lookup_insert_ne, Hseen by done. f_equal. apply bool_decide_ext.
    rewrite elem_of_app, list_elem_of_singleton. naive_solver.
Qed.

Lemma set_class set m value : set ∈ sets -> m ∈ as_members set -> values !! m = Some value ->
  setClass values (as_members set) = type_class (av_type value).
Proof.
  intros [k Hk]%list_elem_of_lookup Hm Hv. destruct (pb_sets _ Hstate _ _ Hk) as (_ & Hne & _ & Hmem).
  destruct (as_members set) as [|front rest]; [done|].
  destruct (Hmem front ltac:(left)) as (first & Hfirst & Hf). rewrite (setClass_front _ _ _ _ Hfirst).
  destruct (Hmem m Hm) as (value' & Hv' & Hs). unfold values in Hv. simplify_eq.
  by apply (pb_classes _ Hstate front m).
Qed.

Lemma set_members_accept k set seen : sets !! k = Some set ->
  seenAre seen (take k sets ≫= as_members) ->
  exists seen', verifyRegAllocPackedAliasSetMembers k (setRow values sets k set) (pk_values p)
      (pk_aliasMembers p) seen = Ok seen' /\ seenAre seen' (take (S k) sets ≫= as_members).
Proof.
  intros Hk Hseen. assert (set ∈ sets) as Hin by (by apply list_elem_of_lookup_2 in Hk).
  destruct (pb_sets _ Hstate _ _ Hk) as (_ & Hne & Hnd & Hmem).
  unfold verifyRegAllocPackedAliasSetMembers. fields. rewrite !Nat2Z.id.
  run_loop (fun j state => seenAre state.1 ((take k sets ≫= as_members) ++ take j (as_members set)) /\
    state.2 = setWidth values (take j (as_members set))).
  - rewrite take_0, app_nil_r. done.
  - intros j [seen1 width] Hj [Hseen1 Hw]. cbn [fst snd] in Hseen1, Hw. subst width. destruct (lookup_lt_is_Some_2 (as_members set) j) as [m Hm]; [lia|].
    assert (m ∈ as_members set) as Hmin by (by apply list_elem_of_lookup_2 in Hm).
    rewrite (member_field k set j m Hk Hm). destruct (Hmem m Hmin) as (value & Hvalue & Hset).
    apply lookup_lt_Some in Hvalue as Hlt. pose proof (pb_valueSize _ Hstate).
    rewrite Nat2Z.id, (value_record m value Hvalue), (proj1 Hseen1).
    rewrite unsigned_intro, (proj2 (Z.ltb_lt _ _)) by (unfold values; lia). step.
    rewrite (proj2 Hseen1 m Hlt). rewrite bool_decide_eq_false_2.
    2: { rewrite elem_of_app. intros [(set' & Hm' & Hs')%list_elem_of_bind|Hm'].
      - apply list_elem_of_lookup in Hs' as [k' Hk']. apply lookup_take_Some in Hk' as [Hk' Hlt'].
        destruct (pb_sets _ Hstate _ _ Hk') as (_ & _ & _ & Hmem'). destruct (Hmem' m Hm') as (v' & ? & ?).
        simplify_eq. lia.
      - apply list_elem_of_lookup in Hm' as [j' Hj']. apply lookup_take_Some in Hj' as [Hj' Hlt'].
        pose proof (NoDup_lookup _ _ _ _ Hnd Hm Hj'). lia. }
    cbn [from_option id]. step. fields. rewrite Hset, Z.eqb_refl, (set_class set m value Hin Hmin Hvalue), Z.eqb_refl.
    step. eexists. split; [done|]. cbn [fst snd]. rewrite (take_S_r _ _ _ Hm), app_assoc. split; [by apply seen_snoc|].
    unfold setWidth. rewrite foldl_snoc. unfold memberEnd at 3. unfold values at 3. by rewrite Hvalue.
  - destruct r as [seen' width]. destruct Hr as [Hseen' Hwidth]. simpl in Hseen', Hwidth.
    rewrite firstn_all in Hseen', Hwidth. step. rewrite Hwidth, Z.eqb_refl. step. exists seen'.
    split; [done|]. rewrite (take_S_r _ _ _ Hk), bind_app, bind_cons. simpl. by rewrite app_nil_r.
Qed.

Lemma setWidth_bounds set : set ∈ sets -> 0 < setWidth values (as_members set) <= UINT_MAX.
Proof.
  intros [k Hk]%list_elem_of_lookup. destruct (pb_sets _ Hstate _ _ Hk) as (_ & Hne & _ & Hmem).
  unfold setWidth. split.
  - destruct (as_members set) as [|m rest]; [done|]. destruct (Hmem m ltac:(left)) as (value & Hv & _).
    pose proof (proj2 (foldl_max_ge (memberEnd values) (m :: rest) 0) m ltac:(left)) as Hge.
    unfold memberEnd at 1 in Hge. unfold values at 1 in Hge. rewrite Hv in Hge.
    destruct (pb_values _ Hstate _ _ Hv) as [_ _ _ _ _ _ _ ? ? _ _]. lia.
  - apply foldl_max_le; [unfold UINT_MAX; lia|]. intros m Hm. destruct (Hmem m Hm) as (value & Hv & _).
    unfold memberEnd, values. rewrite Hv. apply (vp_fits _ _ _ (pb_values _ Hstate _ _ Hv)).
Qed.

Lemma header_accept k set : sets !! k = Some set ->
  verifyRegAllocPackedAliasSetHeader (setRow values sets k set) (length (pk_aliasMembers p))
    (Z.of_nat (before as_members sets k)) = Ok (Z.of_nat (before as_members sets (S k))).
Proof.
  intros Hk. assert (set ∈ sets) as Hin by (by apply list_elem_of_lookup_2 in Hk).
  destruct (pb_sets _ Hstate _ _ Hk) as (_ & Hne & _ & Hmem).
  unfold verifyRegAllocPackedAliasSetHeader. fields. rewrite member_count.
  assert ((PackedSGPR <=? classCode (setClass values (as_members set))) &&
    (classCode (setClass values (as_members set)) <=? PackedAGPR) = true) as ->.
  { destruct (as_members set) as [|m rest] eqn:E; [done|]. destruct (Hmem m ltac:(left)) as (value & Hv & _).
    rewrite (setClass_front _ _ _ _ Hv).
    by destruct (vp_class _ _ _ (pb_values _ Hstate _ _ Hv)) as [-> |[-> | ->]]. }
  step. pose proof (setWidth_bounds set Hin) as [? ?]. rewrite unsigned_intro by lia.
  rewrite (proj2 (Z.eqb_neq (setWidth values (as_members set)) 0)) by lia. step. rewrite Z.eqb_refl. step.
  pose proof (before_le as_members _ _ _ Hk). pose proof members_size. pose proof (pb_valueSize _ Hstate).
  rewrite slice_accept by (done || (unfold values in *; lia)). step. rewrite length_nonzero by done. step.
  rewrite (before_S _ _ _ _ Hk). f_equal. lia.
Qed.

Lemma sets_accept :
  verifyRegAllocPackedAliasSets (pk_values p) (pk_aliasSets p) (pk_aliasMembers p) = Ok ().
Proof.
  unfold verifyRegAllocPackedAliasSets. rewrite (proj1 value_count), (proj1 set_count).
  run_loop (fun k state => seenAre state.1 (take k sets ≫= as_members) /\
    state.2 = Z.of_nat (before as_members sets k)).
  - rewrite take_0, before_0. split; [|done]. split; [apply length_replicate|]. intros i Hi.
    cbn [fst]. by rewrite lookup_replicate_2.
  - intros k [seen next] Hk [Hseen Hn]. cbn [fst snd] in Hseen, Hn. subst next. destruct (lookup_lt_is_Some_2 sets k) as [set Hset]; [lia|].
    rewrite (set_record k set Hset), (header_accept k set Hset). step.
    destruct (set_members_accept k set seen Hset Hseen) as (seen' & -> & Hseen'). step.
    eexists. split; [done|]. done.
  - destruct r as [seen next]. destruct Hr as [Hseen Hnext]. simpl in Hseen, Hnext. step.
    rewrite Hnext, before_all, member_count, Z.eqb_refl. step. rewrite firstn_all in Hseen.
    assert (existsb negb seen = false) as ->; [|done]. apply not_true_iff_false. intros He.
    apply existsb_exists in He as (b & Hb & Hn). apply list_elem_of_In, list_elem_of_lookup in Hb as [i Hi].
    apply lookup_lt_Some in Hi as Hlt. rewrite (proj1 Hseen) in Hlt. rewrite (proj2 Hseen i Hlt) in Hi.
    destruct (lookup_lt_is_Some_2 values i Hlt) as [value Hv].
    destruct (pb_member _ Hstate _ _ Hv) as (set & Hset & Hm).
    rewrite bool_decide_eq_true_2 in Hi; [injection Hi as <-; done|].
    apply list_elem_of_bind. exists set. split; [done|]. by apply list_elem_of_lookup_2 in Hset.
Qed.

Lemma packed_accepted : verifyState p = Ok ().
Proof.
  unfold verifyState. change (pk_version p) with kVersion. rewrite Z.eqb_refl. step.
  rewrite (proj2 op_count), (proj2 value_count), (proj2 range_count), (proj2 set_count). step.
  change (0 =? 0)%nat with true. step.
  rewrite ops_accept. step. rewrite (proj1 set_count), values_accept. step. apply sets_accept.
Qed.

(** *** They parse as the decoded state *)

Let decoded := map decodedValue values.

Lemma parsed_value i value : values !! i = Some value ->
  parsePackedValue p i = Ok (decodedValue value).
Proof.
  intros Hi. destruct (pb_values _ Hstate _ _ Hi) as [Hid _ Hrecord Hstart Hend Hclass Hindex Hwidth Hoff Hfits Hnumber].
  assert (av_start value <= av_end value) as Hle.
  { destruct (rec_start _ Hrecord) as (r & Hr & Hs).
    assert (inRanges (av_start value) (av_ranges value)) as Hin by (by exists r).
    apply (rec_within _ Hrecord) in Hin. lia. }
  pose proof (before_le av_path _ _ _ Hi). pose proof (before_le av_ranges _ _ _ Hi).
  pose proof (pb_pathSize _ Hstate) as Hps. pose proof (pb_rangeSize _ Hstate) as Hrs.
  fold values in Hps, Hrs. destruct (aliasSet_bound i value Hi).
  apply unsigned_range in Hnumber as [_ Hnumber].
  unfold parsePackedValue. rewrite (value_record i value Hi). fields.
  rewrite (unpack_classCode _ Hclass). step.
  assert (unpackRegAllocValueKind (if av_blockArgument value then PackedBlockArgument else PackedOpResult) =
    Ok (if av_blockArgument value then RegAllocTransformValueKind.BlockArgument
        else RegAllocTransformValueKind.OpResult)) as -> by (by destruct (av_blockArgument value)).
  step. rewrite !unpack_nat by lia. rewrite Hnumber, (unpack_small (av_start value)),
    (unpack_small (av_end value)), (unpack_small (type_width (av_type value))),
    (unpack_small (av_offset value)), !Nat2Z.id by lia.
  change (pk_valuePaths p) with (values ≫= av_path). rewrite (slice_bind av_path values i value Hi).
  unfold decodedValue. rewrite Hid. f_equal.
  match goal with |- context [map ?f (seq 0 ?n)] => assert (map f (seq 0 n) = av_ranges value) as -> end.
  { apply list_eq. intros j. rewrite list_lookup_fmap. destruct (av_ranges value !! j) as [r|] eqn:Hj.
    - apply lookup_lt_Some in Hj as Hlt. rewrite lookup_seq_lt by done.
      cbn [fmap option_fmap option_map]. f_equal. rewrite Nat.add_0_l.
      rewrite (u32_small (Z.of_nat (before av_ranges values i) + Z.of_nat j)) by (unfold UINT_MAX in *; lia).
      replace (Z.to_nat (Z.of_nat (before av_ranges values i) + Z.of_nat j))
        with (before av_ranges values i + j)%nat by lia.
      rewrite (range_record i value j r Hi Hj). fields.
      destruct (ranges_bounds i value r Hi) as (? & ? & ?); [by apply list_elem_of_lookup_2 in Hj|].
      rewrite !unpack_small by lia. by destruct r.
    - apply lookup_ge_None in Hj. by rewrite lookup_seq_ge by lia. }
  f_equal; unfold unpackRegAllocUnsigned in *; try done; symmetry; apply u32_small; unfold UINT_MAX in *; lia.
Qed.

Lemma decoded_lookup i value : values !! i = Some value -> decoded !! i = Some (decodedValue value).
Proof. intros Hi. unfold decoded. rewrite list_lookup_fmap, Hi. done. Qed.

Lemma decoded_width value i : values !! i = Some value ->
  u32 (v_offset (decodedValue value) + v_width (decodedValue value)) = memberEnd values i.
Proof.
  intros Hi. destruct (pb_values _ Hstate _ _ Hi) as [_ _ _ _ _ _ _ ? ? ? _]. unfold UINT_MAX in *.
  unfold memberEnd. rewrite Hi. simpl.
  rewrite (u32_small (av_offset value)), (u32_small (type_width (av_type value))) by lia.
  apply u32_small. lia.
Qed.

(** What both ways make of a set. *)
Lemma decoded_set k set : sets !! k = Some set ->
  decodedAliasSet decoded set =
    setOfMembers (as_members set) (setClass values (as_members set)) k
      (setWidth values (as_members set)) decoded /\
  parsePackedAliasSet p decoded k =
    setOfMembers (as_members set) (setClass values (as_members set)) k
      (setWidth values (as_members set)) decoded.
Proof.
  intros Hk. assert (set ∈ sets) as Hin by (by apply list_elem_of_lookup_2 in Hk).
  destruct (pb_sets _ Hstate _ _ Hk) as (Hid & Hne & _ & Hmem). split.
  - unfold decodedAliasSet. rewrite Hid. unfold setWidth.
    destruct (as_members set) as [|front rest] eqn:E; [done|].
    destruct (Hmem front ltac:(left)) as (first & Hfirst & _).
    rewrite (setClass_front _ _ _ _ Hfirst).
    rewrite (proj2 (at_index_Ok (front :: rest) 0 front) eq_refl). step.
    rewrite (proj2 (at_index_Ok decoded front _) (decoded_lookup _ _ Hfirst)). step.
    rewrite (foldM_ext_in _ (fun width member => Ok (Z.max width (memberEnd values member)))).
    2: { intros width m Hm. destruct (Hmem m Hm) as (value & Hv & _).
         rewrite (proj2 (at_index_Ok decoded m _) (decoded_lookup _ _ Hv)). step.
         by rewrite (decoded_width _ _ Hv). }
    rewrite foldM_Ok. done.
  - unfold parsePackedAliasSet. rewrite (set_record k set Hk). fields.
    assert (tracked (setClass values (as_members set))) as Hclass.
    { destruct (as_members set) as [|m rest]; [done|]. destruct (Hmem m ltac:(left)) as (value & Hv & _).
      rewrite (setClass_front _ _ _ _ Hv). apply (vp_class _ _ _ (pb_values _ Hstate _ _ Hv)). }
    rewrite (unpack_classCode _ Hclass). step.
    pose proof (before_le as_members _ _ _ Hk). pose proof members_size. pose proof (pb_valueSize _ Hstate).
    rewrite !unpack_nat by (unfold values in *; lia). rewrite !Nat2Z.id.
    pose proof (setWidth_bounds set Hin). rewrite (unpack_small (setWidth _ _)) by lia. f_equal.
    apply list_eq. intros j. rewrite list_lookup_fmap. unfold sliceOf.
    destruct (as_members set !! j) as [m|] eqn:Hj.
    + apply lookup_lt_Some in Hj as Hlt. rewrite lookup_take_lt by done. rewrite lookup_drop.
      pose proof (member_field k set j m Hk Hj) as Hf. unfold field in Hf.
      assert (before as_members sets k + j < length (pk_aliasMembers p))%nat as Hlen
        by (rewrite member_count; lia).
      apply lookup_lt_is_Some_2 in Hlen as [c Hc]. rewrite Hc in Hf |- *. cbn in Hf. subst c.
      cbn [fmap option_fmap option_map]. f_equal.
      destruct (Hmem m) as (value & Hv & _); [by apply list_elem_of_lookup_2 in Hj|].
      apply lookup_lt_Some in Hv. rewrite unpack_nat by (unfold values in *; lia). by rewrite Nat2Z.id.
    + apply lookup_ge_None in Hj. by rewrite lookup_take_ge by lia.
Qed.

Lemma built_parses : exists sorted,
  parseDecodedState p = Ok (decoded, sorted) /\ buildDecodedState state = Ok (decoded, sorted).
Proof.
  assert (parsePackedRegAllocTransformValues p = Ok decoded) as Hvalues.
  { unfold parsePackedRegAllocTransformValues. change (pk_version p) with kVersion.
    rewrite Z.eqb_refl, (proj1 value_count). cbn [negb]. apply mapOutcome_spec, Forall2_same_length_lookup.
    unfold decoded. rewrite length_seq, length_map. split; [done|]. intros i j v Hi Hv.
    apply lookup_seq in Hi as [-> Hlt]. rewrite list_lookup_fmap in Hv.
    apply fmap_Some in Hv as (value & Hvalue & ->). by apply parsed_value. }
  destruct (mapOutcome_total (decodedAliasSet decoded) sets) as [S HS].
  { intros set [k Hk]%list_elem_of_lookup. destruct (decoded_set k set Hk) as [-> _].
    destruct (pb_sets _ Hstate _ _ Hk) as (_ & _ & _ & Hmem).
    destruct (setOfMembers_ok (as_members set) (setClass values (as_members set)) k
      (setWidth values (as_members set)) decoded) as (r & Hr & _); [|by exists r].
    intros m Hm. destruct (Hmem m Hm) as (value & Hv & _). by rewrite (decoded_lookup _ _ Hv). }
  assert (mapOutcome (parsePackedAliasSet p decoded) (seq 0 (length sets)) = Ok S) as HS'.
  { apply mapOutcome_spec in HS. apply mapOutcome_spec, Forall2_same_length_lookup.
    rewrite length_seq. split; [by apply Forall2_length in HS|]. intros i j set Hi Hset.
    apply lookup_seq in Hi as [-> Hlt].
    destruct (Forall2_lookup_r _ _ _ _ _ HS Hset) as (record & Hrecord & Hd).
    destruct (decoded_set i record Hrecord) as [Hl Hr]. simpl. congruence. }
  assert (forall i set, S !! i = Some set -> s_id set = i /\ 0 <= s_start set /\
    (startIndex set < length (st_ops state) + 1)%nat) as Hsets.
  { intros i set Hi. apply mapOutcome_spec in HS.
    destruct (Forall2_lookup_r _ _ _ _ _ HS Hi) as (record & Hrecord & Hd).
    rewrite (proj1 (decoded_set i record Hrecord)) in Hd.
    destruct (pb_sets _ Hstate _ _ Hrecord) as (_ & Hne & _ & Hmem).
    assert (0 <= s_start set) as Hstart.
    { apply (setOfMembers_start _ _ _ _ decoded set) in Hd; [done|].
      intros v (value & -> & [j Hj]%list_elem_of_lookup)%list_elem_of_fmap.
      apply (vp_start _ _ _ (pb_values _ Hstate _ _ Hj)). }
    destruct (setOfMembers_ok (as_members record) (setClass values (as_members record)) i
      (setWidth values (as_members record)) decoded) as (r & Hr & _ & _ & Hsid & _ & _ & Hbounds).
    { intros m Hm. destruct (Hmem m Hm) as (value & Hv & _). by rewrite (decoded_lookup _ _ Hv). }
    assert (r = set) as -> by congruence. split; [done|]. split; [done|].
    destruct (as_members record) as [|m rest]; [done|]. destruct (Hmem m ltac:(left)) as (value & Hv & _).
    destruct (Hbounds m _ ltac:(left) (decoded_lookup _ _ Hv)) as [Hb _]. simpl in Hb.
    pose proof (vp_start _ _ _ (pb_values _ Hstate _ _ Hv)). unfold startIndex. lia. }
  exists (sortedSets S). split.
  - assert (parsePackedRegAllocTransformAliasSets p decoded = Ok (sortedSets S)) as Hp.
    { unfold parsePackedRegAllocTransformAliasSets. rewrite (proj1 value_count), (proj1 set_count).
      unfold decoded at 1. rewrite length_map, Nat.eqb_refl. cbn [negb]. by rewrite HS'. }
    unfold parseDecodedState. rewrite Hvalues. step. by rewrite Hp.
  - assert (buildDecodedAliasSets (length (st_ops state)) sets decoded = Ok (sortedSets S)) as Hb.
    { unfold buildDecodedAliasSets. rewrite HS. step. apply counting_sort.
      - intros i set Hi. by apply Hsets in Hi as [? _].
      - intros set [i Hi]%list_elem_of_lookup. by apply Hsets in Hi as [_ ?]. }
    unfold buildDecodedState. fold values sets decoded. by rewrite Hb.
Qed.
End Packed.

(** ** From what is collected *)

(** What the builder has collected when it assigns the sets: its values as
    [registerValue] and [extendValue] leave them, and edges between values of a class. *)
Record collected (state : AliasState) : Prop := {
  col_ops op : op ∈ st_ops state ->
    ao_path op <> [] /\ forall c, c ∈ ao_path op -> isRegAllocPackedUnsigned c = true;
  col_values i value : st_values state !! i = Some value ->
    av_id value = i /\
    (av_path value <> [] /\ forall c, c ∈ av_path value -> isRegAllocPackedUnsigned c = true) /\
    recordOk value /\ 0 <= av_start value <= Z.of_nat (length (st_ops state)) /\
    av_end value <= UINT_MAX /\ tracked (type_class (av_type value)) /\
    (type_index (av_type value) = -1 \/ isRegAllocPackedUnsigned (type_index (av_type value)) = true) /\
    0 < type_width (av_type value) /\ isRegAllocPackedUnsigned (av_number value) = true;
  col_edges : edgesOk (length (st_values state)) (st_edges state);
  col_classes edge lhs rhs : edge ∈ st_edges state ->
    st_values state !! edge_lhs edge = Some lhs -> st_values state !! edge_rhs edge = Some rhs ->
    type_class (av_type lhs) = type_class (av_type rhs);
  col_sets : st_aliasSets state = [];
  col_opPathSize : Z.of_nat (length (st_ops state ≫= ao_path)) <= UINT_MAX;
  col_pathSize : Z.of_nat (length (st_values state ≫= av_path)) <= UINT_MAX;
  col_rangeSize : Z.of_nat (length (st_values state ≫= av_ranges)) <= UINT_MAX;
  col_valueSize : Z.of_nat (length (st_values state)) <= UINT_MAX
}.

Lemma bind_same {A B} (f : A -> list B) (l l' : list A) :
  length l' = length l ->
  (forall x v, l' !! x = Some v -> exists v0, l !! x = Some v0 /\ f v = f v0) ->
  l' ≫= f = l ≫= f.
Proof.
  revert l'. induction l as [|a l IH]; intros [|b l'] Hlen Hsame; try done. rewrite !bind_cons.
  destruct (Hsame 0%nat b eq_refl) as (v0 & [= <-] & ->). f_equal. apply IH; [by injection Hlen|].
  intros x v Hx. by apply (Hsame (S x)).
Qed.

Section Collected.
Context (state state' : AliasState) (Hcollected : collected state).
Context (Hassign : assignAliasSets state = Ok state').
Context (Hfits : forall i value, st_values state' !! i = Some value ->
  av_offset value + type_width (av_type value) <= UINT_MAX).
#[local] Set Default Proof Using "All".

Lemma assigned_ok : assigned state state'.
Proof.
  pose proof (assignAliasSets_ok state (col_sets _ Hcollected) (col_edges _ Hcollected)) as H.
  by rewrite Hassign in H.
Qed.

Definition classAt (values : list RegAllocAliasValue) (x : nat) : option RegClass.t :=
  (fun value => type_class (av_type value)) <$> values !! x.

Lemma path_class x y d : path (st_edges state) x y d ->
  classAt (st_values state) x = classAt (st_values state) y.
Proof.
  induction 1 as [|y z d e _ IH Hl]; [done|]. rewrite IH. destruct Hl as (edge & He & _ & Hb).
  destruct (col_edges _ Hcollected edge He) as [Hx Hy].
  apply lookup_lt_is_Some_2 in Hx as [lhs Hlhs]. apply lookup_lt_is_Some_2 in Hy as [rhs Hrhs].
  pose proof (col_classes _ Hcollected edge lhs rhs He Hlhs Hrhs) as Hc.
  unfold classAt. destruct Hb as [(<- & <- & _)|(<- & <- & _)]; rewrite Hlhs, Hrhs; simpl; congruence.
Qed.

Lemma collected_packable : packable state'.
Proof.
  destruct assigned_ok as (Hops & _ & Hlen & Hsame & Hmember & Hsets & _).
  assert (forall {B} (f : RegAllocAliasValue -> list B),
    (forall v s o, f (withOffset (withAliasSet v s) o) = f v) ->
    st_values state' ≫= f = st_values state ≫= f) as Hbind.
  { intros B f Hf. apply bind_same; [done|]. intros x v Hx. destruct (Hsame x v Hx) as (v0 & Hv0 & ->).
    exists v0. by rewrite Hf. }
  split; rewrite ?Hops, ?Hlen, ?Hbind; try done; try apply Hcollected.
  - intros i value Hi. destruct (Hsame i value Hi) as (value0 & H0 & Heq).
    destruct (col_values _ Hcollected _ _ H0) as (? & ? & [? ? ? ?] & ? & ? & ? & ? & ? & ?).
    destruct (Hmember i value Hi) as (set & Hset & Hm).
    destruct (aset_members _ _ _ _ (Hsets _ _ Hset) i Hm) as (value' & Hv' & _ & Hoff).
    assert (value' = value) as -> by congruence. specialize (Hfits i value Hi).
    rewrite Heq in *. split; try done.
  - intros k set Hk. destruct (Hsets k set Hk) as [Hid Hnd Hm (x & v & Hx & _) _].
    split; [done|]. split; [by intros E; rewrite E in Hx; apply elem_of_nil in Hx|]. split; [done|].
    intros m Hin. destruct (Hm m Hin) as (value & ? & ? & _). by exists value.
  - intros i j lhs rhs Hi Hj Heq.
    destruct (Hmember i lhs Hi) as (set & Hset & Hmi). destruct (Hmember j rhs Hj) as (set' & Hset' & Hmj).
    rewrite <-Heq in Hset'. assert (set' = set) as -> by congruence.
    pose proof (path_class _ _ _ (aset_path _ _ _ _ (Hsets _ _ Hset) i j lhs rhs Hmi Hmj Hi Hj)) as Hc.
    destruct (Hsame i lhs Hi) as (lhs0 & Hl0 & ->). destruct (Hsame j rhs Hj) as (rhs0 & Hr0 & ->).
    unfold classAt in Hc. rewrite Hl0, Hr0 in Hc. simpl in *. congruence.
Qed.

Lemma built_and_parsed :
  exists sorted, buildPackedAttr state' = Ok (packedOf state') /\ verifyState (packedOf state') = Ok () /\
    parseDecodedState (packedOf state') = Ok (map decodedValue (st_values state'), sorted) /\
    buildDecodedState state' = Ok (map decodedValue (st_values state'), sorted) /\
    decodedOk (map decodedValue (st_values state')) sorted.
Proof.
  pose proof collected_packable as Hstate. pose proof (packed_accepted _ Hstate) as Hverify.
  destruct (built_parses _ Hstate) as (sorted & Hparse & Hbuild).
  destruct (parsed_ok (packedOf state') Hverify) as (values & sets & Hparse' & Hok).
  { unfold packedOf. cbn [pk_valueRanges]. rewrite length_packRanges.
    pose proof (pb_rangeSize _ Hstate). unfold UINT_MAX in *. lia. }
  rewrite Hparse in Hparse'. injection Hparse' as <- <-.
  exists sorted. split; [by apply buildPackedAttr_ok|]. done.
Qed.

(** C16: The attribute parses back. What the builder has collected is packed, once its
    sets are assigned and their offsets fit; the attribute's verifier admits the
    result; the parser makes of it the values and the sets that the builder installs
    when it does not go through the attribute, in the same order; and they are what
    the scan assumes of its input. *)
Theorem built_state_parses_back :
  exists packed values sets,
    buildPackedAttr state' = Ok packed /\ verifyState packed = Ok () /\
    parseDecodedState packed = Ok (values, sets) /\ buildDecodedState state' = Ok (values, sets) /\
    decodedOk values sets.
Proof. destruct built_and_parsed as (sorted & H). by do 3 eexists. Qed.

(** A scan of what was built. *)
Context `{LaneLLVM} (input : ScanInput) (func func' : FuncTypes)
  (assigned : list RegAllocTransformAssignment).
Context (Hbuilt : buildDecodedState state' = Ok (in_values input, in_sets input)).
Context (Hlimits : forall limits, in_limits input = Ok (Some limits) -> 0 <= vgprTupleAlignment limits).
Context (Hrun : run input func = Ok (LinearScanSuccess assigned, func')).

Lemma scanned_decoded :
  in_values input = map decodedValue (st_values state') /\ decodedOk (in_values input) (in_sets input).
Proof.
  destruct built_and_parsed as (sorted & _ & _ & _ & Hbuild & Hok). rewrite Hbuild in Hbuilt.
  by injection Hbuilt as <- <-.
Qed.

(** The type that a value has in the end: its own with the register at its offset
    within the assignment of its set. *)
Lemma allocated_type i value : st_values state' !! i = Some value ->
  exists tables a, parseState input = Ok (tables, None) /\
    getAssignmentBySet (scan input tables) (av_aliasSet value) = Some a /\
    valueTypes func' !! i = Some (mkLaneType (type_class (av_type value)) (type_width (av_type value))
      (a_base a + av_offset value)) /\
    0 <= a_base a /\ (0 <= type_index (av_type value) -> type_index (av_type value) = a_base a + av_offset value).
Proof.
  intros Hi. pose proof collected_packable as Hstate.
  destruct (pb_values _ Hstate _ _ Hi) as [Hid _ _ _ _ _ Hindex Hwidth Hoff Hfits' _].
  destruct scanned_decoded as [Hvalues Hok].
  assert (NoDup (map v_id (in_values input))) as Hnd.
  { apply NoDup_alt. intros j k id Hj Hk. rewrite list_lookup_fmap in Hj, Hk.
    apply fmap_Some in Hj as (v & Hj & ->). apply fmap_Some in Hk as (w & Hk & Heq).
    rewrite (decoded_ids _ _ Hok _ _ Hj), (decoded_ids _ _ Hok _ _ Hk) in Heq. done. }
  destruct (run_assigned input func assigned func' Hnd Hrun) as (tables & Hparse & Hscan & _ & Htypes & _).
  assert (in_values input !! i = Some (decodedValue value)) as Hv
    by (by rewrite Hvalues, list_lookup_fmap, Hi).
  assert (decodedValue value ∈ in_values input) as Hin by (by apply list_elem_of_lookup_2 in Hv).
  destruct (Htypes _ Hin) as (a & Ha & Ht). exists tables, a.
  destruct (decoded_member _ _ Hok _ Hin) as (s & Hs & Hsid & Hm). unfold UINT_MAX in *.
  simpl in Ha, Ht, Hm, Hsid. rewrite Hid in *.
  rewrite (u32_small (type_width (av_type value))), (u32_small (av_offset value)) in Ht by lia.
  destruct (placed_value input tables s (decodedValue value) a (decodedOk_input _ Hok Hlimits) Hparse Hscan Hs Hsid)
    as [Hb Hfixed]; [|done|].
  { unfold membersOf. apply list_elem_of_omap. exists i. split; [done|]. by rewrite Hv. }
  split; [done|]. split; [done|]. split; [done|]. split; [done|]. intros Hpos.
  destruct Hindex as [Hneg|[Hu _]%unsigned_range]; [lia|].
  specialize (Hfixed (type_index (av_type value))). simpl in Hfixed.
  rewrite (u32_small (av_offset value)) in Hfixed by lia. apply Hfixed.
  rewrite (proj2 (Z.leb_le _ _)) by lia. by rewrite u32_small by lia.
Qed.

(** C19: what the values promised each other, their registers keep. After a state
    that was collected has been scanned, the ends of every alias edge have registers
    of one class at the distance of the edge; every value has its class and width;
    and a value that had a register keeps it. *)
Theorem registers_follow_edges :
  (forall edge, edge ∈ st_edges state -> exists lhs rhs,
    valueTypes func' !! edge_lhs edge = Some lhs /\ valueTypes func' !! edge_rhs edge = Some rhs /\
    type_class rhs = type_class lhs /\ type_index rhs - type_index lhs = edge_delta edge) /\
  forall i value, st_values state !! i = Some value -> exists type,
    valueTypes func' !! i = Some type /\ type_class type = type_class (av_type value) /\
    type_width type = type_width (av_type value) /\ 0 <= type_index type /\
    (0 <= type_index (av_type value) -> type = av_type value).
Proof.
  destruct assigned_ok as (Hops & _ & Hlen & Hsame & _ & _ & Hedge).
  assert (forall i, (i < length (st_values state))%nat -> is_Some (st_values state' !! i)) as Hsome.
  { intros i Hi. apply lookup_lt_is_Some_2. by rewrite Hlen. }
  split.
  - intros edge He. destruct (col_edges _ Hcollected edge He) as [Hl Hr].
    destruct (Hsome _ Hl) as [lhs Hlhs]. destruct (Hsome _ Hr) as [rhs Hrhs].
    destruct (Hedge edge lhs rhs He Hlhs Hrhs) as [Hset Hdelta].
    destruct (allocated_type _ _ Hlhs) as (tables & a & Hparse & Ha & Ht & _).
    destruct (allocated_type _ _ Hrhs) as (tables' & b & Hparse' & Hb & Ht' & _).
    assert (tables' = tables) as -> by congruence. assert (b = a) as -> by congruence.
    do 2 eexists. split; [done|]. split; [done|]. simpl. split; [|lia].
    by apply (pb_classes _ collected_packable (edge_rhs edge) (edge_lhs edge)).
  - intros i value0 Hi. destruct (Hsome i) as [value Hv]; [by apply lookup_lt_Some in Hi|].
    destruct (allocated_type _ _ Hv) as (tables & a & _ & _ & Ht & Hb & Hfixed).
    destruct (Hsame i value Hv) as (value1 & H1 & Heq). assert (value1 = value0) as -> by congruence.
    assert (av_type value = av_type value0) as Htype by (by rewrite Heq). rewrite Htype in *.
    destruct (pb_values _ collected_packable _ _ Hv) as [_ _ _ _ _ _ _ _ Hoff _ _].
    eexists. split; [done|]. simpl. split; [done|]. split; [done|]. split; [lia|].
    intros Hpos. rewrite <-(Hfixed Hpos). by destruct (av_type value0).
Qed.
End Collected.

(** ** An example *)

Module PackExamples.

Definition exampleRecord (id : nat) (type : LaneType) (start end_ : Z) : RegAllocAliasValue :=
  mkAliasValue [0; Z.of_nat id] [mkLive start end_] type id start end_ 0 0 0 false.
Definition anySGPR (width : Z) : LaneType := mkLaneType RegClass.SGPR width (-1).
(** A pair of registers, its second one, a vector register that is fixed, and the one
    before the pair. *)
Definition exampleState : AliasState :=
  mkAliasState (map (fun k => mkAliasOp [0; Z.of_nat k] k k) (seq 0 3))
    [exampleRecord 0 (anySGPR 2) 0 2; exampleRecord 1 (anySGPR 1) 1 2;
     exampleRecord 2 (mkLaneType RegClass.VGPR 1 5) 2 2; exampleRecord 3 (anySGPR 1) 0 1]
    [mkAliasEdge 0 1 1; mkAliasEdge 0 3 (-1)] [].
Definition exampleAssigned : AliasState :=
  match assignAliasSets exampleState with Ok state => state | _ => emptyAliasState end.
Definition examplePacked : RegAllocStateAttr :=
  match buildPackedAttr exampleAssigned with Ok packed => packed | _ => mkPacked 0 [] [] [] [] [] [] [] end.

Example exampleOffsets :
  map (fun value => (av_aliasSet value, av_offset value)) (st_values exampleAssigned) =
  [(0%nat, 1); (0%nat, 2); (1%nat, 0); (0%nat, 0)].
Proof. vm_compute. reflexivity. Qed.

Lemma exampleRecord_ok id type start end_ :
  start <= end_ -> recordOk (exampleRecord id type start end_).
Proof.
  intros Hse. split; simpl.
  - constructor; [done|constructor|]. by intros r ?%elem_of_nil.
  - intros p (r & ->%list_elem_of_singleton & Hp). done.
  - exists (mkLive start end_). split; [left|]. unfold liveAt. simpl. lia.
  - exists (mkLive start end_). split; [left|]. unfold liveAt. simpl. lia.
Qed.

Lemma exampleEdges : edgesOk 4 (st_edges exampleState).
Proof. intros edge Hin. repeat (apply elem_of_cons in Hin as [-> |Hin]; [simpl; lia|]). by apply elem_of_nil in Hin. Qed.

Lemma exampleCollected : collected exampleState.
Proof.
  split.
  - intros op Hin. repeat (apply elem_of_cons in Hin as [-> |Hin];
      [split; [done|]; intros c Hc;
       repeat (apply elem_of_cons in Hc as [-> |Hc]; [done|]); by apply elem_of_nil in Hc|]).
    by apply elem_of_nil in Hin.
  - intros i value Hi.
    assert (forall c, c ∈ [0; Z.of_nat i] -> (i < 4)%nat -> isRegAllocPackedUnsigned c = true) as Hpath.
    { intros c Hc Hlt. apply unsigned_intro. unfold UINT_MAX.
      repeat (apply elem_of_cons in Hc as [-> |Hc]; [lia|]). by apply elem_of_nil in Hc. }
    do 4 (destruct i as [|i]; [injection Hi as <-; split; [done|]; (split; [split; [done|];
      intros c Hc; apply Hpath; [done|lia]|]); (split; [apply exampleRecord_ok; lia|]);
      unfold tracked, UINT_MAX; simpl; (split; [lia|]); (split; [lia|]); (split; [tauto|]);
      (split; [first [by left|by right]|]); (split; [lia|done])|]). done.
  - apply exampleEdges.
  - intros edge lhs rhs Hin Hl Hr.
    repeat (apply elem_of_cons in Hin as [-> |Hin]; [simpl in *; by simplify_eq|]).
    by apply elem_of_nil in Hin.
  - done.
  - vm_compute. discriminate.
  - vm_compute. discriminate.
  - vm_compute. discriminate.
  - vm_compute. discriminate.
Qed.

(** What a scan reads, in a function whose values are arguments. *)
#[local] Instance noNumerals : LaneLLVM := {| getAsUnsigned _ := None |}.
Definition exampleDecoded : list RegAllocTransformValue * list RegAllocTransformAliasSet :=
  match buildDecodedState exampleAssigned with Ok decoded => decoded | _ => ([], []) end.
Definition exampleInput : ScanInput :=
  mkScanInput true exampleDecoded.1 exampleDecoded.2
    (imap (fun id value => (mkPayload None (av_type value) false, id)) (st_values exampleAssigned)) []
    (mkEntryRegs (fun _ => 0) (fun _ => 0) 0 0 0 0 0 0) (fun _ => mkBudget 8 "default") (Ok None) (Ok None)
    true.
Definition exampleTypes : FuncTypes := mkFuncTypes ∅ [[1%nat]] None.
Definition exampleResult : list RegAllocTransformAssignment * FuncTypes :=
  match run exampleInput exampleTypes with
  | Ok (LinearScanSuccess assigned, func) => (assigned, func)
  | _ => ([], exampleTypes)
  end.

Example exampleRegisters :
  map (fun id => type_index <$> valueTypes exampleResult.2 !! id) (seq 0 4) =
  [Some 1; Some 2; Some 5; Some 0].
Proof. vm_compute. reflexivity. Qed.

Lemma exampleFits i value : st_values exampleAssigned !! i = Some value ->
  av_offset value + type_width (av_type value) <= UINT_MAX.
Proof.
  intros Hi. vm_compute in Hi.
  do 4 (destruct i as [|i]; [injection Hi as <-; unfold UINT_MAX; simpl; lia|]). discriminate Hi.
Qed.

Lemma registers_follow_edges_witness :
  (forall edge, edge ∈ st_edges exampleState -> exists lhs rhs,
    valueTypes exampleResult.2 !! edge_lhs edge = Some lhs /\
    valueTypes exampleResult.2 !! edge_rhs edge = Some rhs /\
    type_class rhs = type_class lhs /\ type_index rhs - type_index lhs = edge_delta edge) /\
  forall i value, st_values exampleState !! i = Some value -> exists type,
    valueTypes exampleResult.2 !! i = Some type /\ type_class type = type_class (av_type value) /\
    type_width type = type_width (av_type value) /\ 0 <= type_index type /\
    (0 <= type_index (av_type value) -> type = av_type value).
Proof.
  refine (registers_follow_edges exampleState exampleAssigned exampleCollected _ _ exampleInput
    exampleTypes exampleResult.2 exampleResult.1 _ _ _).
  - vm_compute. reflexivity.
  - exact exampleFits.
  - vm_compute. reflexivity.
  - intros limits Hl. discriminate Hl.
  - vm_compute. reflexivity.
Defined.

Lemma built_state_parses_back_witness :
  exists packed values sets,
    buildPackedAttr exampleAssigned = Ok packed /\ verifyState packed = Ok () /\
    parseDecodedState packed = Ok (values, sets) /\
    buildDecodedState exampleAssigned = Ok (values, sets) /\ decodedOk values sets.
Proof.
  apply (built_state_parses_back exampleState exampleAssigned exampleCollected).
  - vm_compute. reflexivity.
  - exact exampleFits.
Defined.

Lemma verified_state_is_well_formed_witness :
  exists values sets, parseDecodedState examplePacked = Ok (values, sets) /\ decodedOk values sets /\
    forall input, in_values input = values -> in_sets input = sets ->
      (forall limits, in_limits input = Ok (Some limits) -> 0 <= vgprTupleAlignment limits) ->
      inputOk input.
Proof.
  apply (verified_state_is_well_formed examplePacked).
  - vm_compute. reflexivity.
  - vm_compute. discriminate.
Defined.

Lemma alias_sets_are_components_witness :
  match assignAliasSets exampleState with
  | Ok state' => assigned exampleState state'
  | Failure => forall f, ~ agrees (st_edges exampleState) f
  | Fatal _ => False
  end.
Proof. apply (alias_sets_are_components exampleState); [reflexivity|exact exampleEdges]. Defined.

(** A use in a region of an operation at 3, which the region enters at 5. *)
Lemma live_ranges_accumulate_witness :
  let record := exampleRecord 0 (anySGPR 1) 0 1 in
  let contexts := [mkContext None 7 3 5] in
  recordOk (extendValue contexts (fun _ => false) record (Some 0%nat) 6) /\
  forall p, inRanges p (av_ranges (extendValue contexts (fun _ => false) record (Some 0%nat) 6)) <->
    inRanges p [mkLive 0 1] \/ inRanges p [mkLive 0 3; mkLive 5 6].
Proof.
  apply (live_ranges_accumulate [mkContext None 7 3 5] (fun _ => false)
    (exampleRecord 0 (anySGPR 1) 0 1) (Some 0%nat) 6).
  - apply exampleRecord_ok. lia.
  - intros r Hr. vm_compute in Hr.
    apply elem_of_cons in Hr as [-> |Hr]; [simpl; lia|].
    apply elem_of_cons in Hr as [-> |Hr]; [simpl; lia|]. apply elem_of_nil in Hr. destruct Hr.
Defined.
End PackExamples.
